(* ===== verification/_CoqProject ===== *)
-Q . S2P
Prelude.v
Reorder.v
Utf8.v
Json.v
CanonicalCbor.v
CborFacts.v
CborTheorems.v
Wire.v
WireTheorems.v
Environment.v
Identity.v
BackendCatalog.v
Syntax.v
Ir.v
BashScan.v
BashTheorems.v
ExecutionPlan.v
Effects.v
EffectsTheorems.v
DispatchModel.v
Topological.v
PlanTheorems.v
PlanSchedules.v
ScopeTheorems.v
PlanData.v
DispatchTheorems.v
HGraph.v
HGraphLowering.v
HGraphValidate.v
HGraphTheorems.v
ReadySchedule.v
ReadyTheorems.v
Parser.v
ParserFacts.v
ParserTokens.v
ParserProductions.v
Escape.v
ParserTheorems.v
ParserErasure.v
ExecutionContract.v
ContractTheorems.v
EvalFrame.v
ParallelTasks.v
Coordinator.v
CoordinatorFacts.v
CoordinatorSafety.v
CoordinatorDrive.v
CoordinatorTheorems.v
Evaluator.v
Serial.v
SerialFacts.v
GraphWiring.v
EvaluatorFacts.v
SerialRefinement.v
SerialSteps.v
SerialDrive.v
SerialDispatch.v
SerialLoop.v
SerialTheorems.v
OcoreLexer.v
OcoreLexerFacts.v
OcoreLexerTheorems.v
OcoreAst.v
OcoreParser.v
OcoreSurface.v
OcoreParserFacts.v
OcorePrinter.v
OcoreRun.v
OcoreRoundtrip.v
OcoreRoundtripItems.v
OcoreParserTheorems.v
OcoreHir.v
OcoreTypes.v
OcoreLayout.v
OcoreLayoutSpec.v
OcoreLayoutFacts.v
OcoreLayoutSteps.v
OcoreTypesFacts.v
OcoreTrees.v
OcoreLayoutTheorems.v
