(* ===== verification/Prelude.v ===== *)
(** * Verification library for the Ostadix-lang engine

    ** The program

    Ostadix-lang is a polyglot orchestration language.  A source text mixes raw
    text, variable references, [let] bindings, calls and typed blocks such as
    [python[0]{attr}^( ... )_python].  The engine is the crate
    [crates/ostadix-api]; its files below are relative to [crates/ostadix-api/src].

    - The parser ([parser.rs]) turns UTF-8 text into a forest of [ONode]s and, on
      request, records the source span of every executable node.  It sees the
      backend catalog only through the trait [SyntaxDialect] ([syntax_dialect.rs]).
    - Lowering ([ir.rs], first part) turns the forest into [OIr] instructions.  Each
      block freezes the interface that the backend catalog ([backend_catalog.rs],
      table in [backend_catalog.inc.rs]) declares for it, and carries an environment
      identity ([environment.rs]).  [execution_contract.rs] parses the options of
      blocks and validates the lowered metadata.
    - The planner ([ir.rs], second part) builds an [ExecutionPlan]: one node per
      executable instruction in preorder, with structural, sequence and data edges.
      Which [let] bindings an external block receives is decided by scanning its
      text; bash has two scanners of its own.  The plan is validated, sorted
      topologically and indexed.
    - Effect inference ([effects.rs]) gives every plan node the resources it reads
      and writes; the dispatch model ([dispatch_model.rs]) decides which nodes a
      local worker may run and which belong to explicit autonomous groups.
    - The hypergraph ([hgraph/graph.rs], [hgraph/from_oir.rs]) projects a plan to
      operations with value, state and completion nodes; its validators decide
      whether a graph may be executed.  [hgraph/schedule.rs] derives the ready
      schedule, [hgraph/semantics.rs] checks confluence on finite models.
    - The coordinator ([executor/coordinator.rs]) runs an admitted graph: operations
      start when their inputs are materialised, on the coordinator thread or on
      workers ([executor/parallel.rs], [executor/task.rs], [executor/driver.rs]), and
      settle in the order of the plan, in the frame of [eval_core.rs].  The
      evaluator ([eval.rs]) can also run the plan serially, as the reference.
    - Ocore is a second, statically typed language for kernels.  Its front end
      ([ocore/lexer.rs], [ocore/ast.rs], [ocore/parser.rs], spans and diagnostics in
      [ocore/common.rs]) refuses orchestration programs, lexes and parses modules.  Its
      checker ([ocore/typeck.rs] over the type context of [ocore/hir.rs]) first resolves
      and lays out the types of all modules.
    - Backend processes are spoken to with length-prefixed frames ([wire.rs]) of
      canonical CBOR ([canonical_cbor.rs]); the same encoding is hashed and signed
      by other protocols, whose identities are in [world/identity.rs].

    ** The files

    A definition has the name of the function, method, type or constant it
    translates; a method that would clash has the name of its type in front
    ([registry_get], [index_new]).  The productions of the parser end in [_step],
    as functions of the recursive calls they make.

    - [Prelude]: this file.  Bytes and literals, machine integers, outcomes, the
      state monad with its total-correctness predicate [wp], big-endian and
      decimal numbers, sorting and list lemmas, tactics ([case_ltb], [peel]).
      [Reorder]: reorderings that keep the order of dependent pairs.
    - [Utf8]: what the engine uses of [str] and [char].
    - [Json]: the interface of the crate [serde_json] ([JsonLib]), its documented
      behaviour ([JsonLibLaws]) and an implementation that satisfies it.
    - [CanonicalCbor], [CborFacts], [CborTheorems]; [Wire], [WireTheorems]: the codec
      and frames over readers that deliver any chunks.
    - [Environment], [Identity]: environment and governed identities.
    - [BackendCatalog]: the thirty catalog entries and lookup.
    - [Syntax]: [ONode], the dialect interface ([SyntaxDialect] with
      [SyntaxDialectLaws]), the [HashSet] instance that discharges it, and the
      theorems about lookups in the catalog.
    - [Ir]: instructions, lowering, native-leaf provenance, reconstruction.
    - [BashScan], [BashTheorems]: the bash scanners.
    - [ExecutionPlan]: plan types, reference collection, the builder, validation,
      Kahn's algorithm, schedules, the per-pass index.  [Topological],
      [PlanTheorems], [PlanSchedules], [ScopeTheorems], [PlanData]: the sort, the
      invariant of the builder, tree and schedules, scopes, data edges.
    - [Effects], [EffectsTheorems]; [DispatchModel], [DispatchTheorems].
    - [HGraph], [HGraphLowering]: graphs, their construction, the projection.
      [HGraphValidate], [HGraphTheorems]: the validators.  [ReadySchedule],
      [ReadyTheorems]: ready schedules and finite confluence.
    - [Parser]: the parser.  [ParserFacts], [ParserTokens], [ParserProductions]: its
      invariant and the total correctness of every production.  [Escape]: literal
      escaping.  [ParserTheorems]: totality and origins.  [ParserErasure]: origins
      do not change syntax; its hint database [twin] walks the productions.
    - [ExecutionContract], [ContractTheorems]: block options and metadata.
    - [EvalFrame], [ParallelTasks], [Coordinator]: the frame of a run, worker tasks,
      the coordinator.  [CoordinatorFacts]: queries and loops that never fail.
      [CoordinatorSafety]: the abstract lifecycle machine and the invariant of the
      coordinator.  [CoordinatorDrive]: every operation keeps it.
      [CoordinatorTheorems]: runs of coordinators that [new] has built.
    - [Evaluator]: [execute_ready_plan_node], how the evaluator runs a node; the services
      it calls are the class [Services].  [Serial]: [execute_plan_serial].
      [SerialFacts], [GraphWiring]: what worker tasks depend on, how the frame of a serial
      run grows, what a validated graph connects.  [EvaluatorFacts]: the evaluator
      computes what the worker task of the same node computes.  [SerialRefinement]:
      lawful drivers, computations with enough fuel and the relation between the two
      executions.  [SerialSteps], [SerialDrive], [SerialDispatch], [SerialLoop]: settling,
      receiving, dispatching, operations on the coordinator thread and turns of the loop
      keep it.  [SerialTheorems]: whole runs.
    - [OcoreLexer], [OcoreLexerFacts], [OcoreLexerTheorems]: the lexer of Ocore, its
      positions, its printer.  [OcoreAst], [OcoreParser], [OcoreSurface]: trees, parser,
      entry point.  [OcoreParserFacts]: trees over runs of tokens and the
      total correctness of every production.  [OcorePrinter], [OcoreRun],
      [OcoreRoundtrip], [OcoreRoundtripItems]: a printer with parentheses where they are
      needed and the proof that every production reads it back.  [OcoreParserTheorems]:
      the theorems.
    - [OcoreHir], [OcoreTypes], [OcoreLayout]: type contexts and the type phase of the
      checker.  [OcoreLayoutSpec]: the documented layouts and containment by value.
      [OcoreLayoutFacts], [OcoreLayoutSteps]: the invariant of the walk over types.
      [OcoreTypesFacts], [OcoreTrees]: the phases before it, and what they rely on of the
      parser.  [OcoreLayoutTheorems]: the theorems.

    ** Modelling

    A string is the list of its bytes, a byte is a [Z]; [usize] values that index
    are [nat], those that can overflow are [Z] with the bound written out.  A
    fallible call returns an [outcome]: a value, an error with the data its
    message renders, a panic (an index out of range, a slice off a character
    boundary, a failed [expect]), or [NoFuel].  Stateful code is a computation of
    the monad [M], which keeps the state reached before an error, as Rust does.
    A hash map or set is a [gmap] or [gset]; a scope stack is a list of maps,
    innermost first.  Where the code walks a hash map, the order is an
    argument ([define_types]).  Arithmetic that can overflow without a check follows the
    build profile, also an argument ([Profile]).

    Loops that are not structural recurse on fuel, and the theorems show that the
    fuel given is enough: the decoder gets the payload length plus one;
    [read_exact] the number of bytes wanted; the parser three units per byte of
    source plus two (each level of the productions consumes a byte within three
    calls); the loops of the Ocore lexer the length of the source plus one, and one
    more inside of block comments; the loops and productions of the Ocore parser the
    number of tokens plus one; layouts the number of types plus one for every structure
    and enumeration, because a chain of calls enters each of them once and goes down
    through smaller array types in between; the textual scanners and
    [trim_start_matches] the length of the text;
    Kahn's loop, [settle_all] and [waves_loop] the number of operations; the walks
    up a plan the number of its nodes, and that over sequence edges twice the
    number of edges plus one; [settle_loop] the number of operations plus one; the
    expansion of quoted bodies the number of visible names; the arithmetic scanner
    two levels, because the text of a recursive call is scanned as one expression,
    which never recurses.  The loops of the coordinator that wait for a driver
    ([drive], [drain], [receive_available]) have no bound of their own: a driver may
    stay silent for ever.  Their fuel is an argument of the run; the
    lifecycle theorem holds for every amount, and with a driver that delivers what it
    accepts the comparison with the serial run shows that enough fuel exists.

    Outside code is a parameter: SHA-256 and the catalog digests ([Digests]), the
    non-ASCII part of [char::is_alphanumeric] ([UnicodeTables]), [serde_json]
    ([JsonLib]), the verifier of native descriptors, the conversion of messages to
    JSON values.  The coordinator is stated against interfaces: values and their
    renderers ([OValues]), errors ([Errors]), hosted blocks and native leaves
    ([Shims], [Leaves]), the evaluator ([GraphEvaluationHost]) and the attempt
    driver ([AttemptDriver]).  [FrameKeeping] is what its safety needs of the
    evaluator, [SerialHost] and [LawfulDriver] what the comparison with the serial run
    needs of the evaluator and of the driver; [evaluator_serial] shows the first of the
    evaluator of [eval.rs], for all services.

    ** What the theorems show

    - Parser: on every valid UTF-8 text both entry points return a tree or a
      diagnosed error (C1); the spans of the origin sidecar are
      those of the syntax tree in preorder, so the span at an index is that of the plan
      node with that index (C2); recording origins changes neither
      tree nor error nor position (C24).
    - Planner: the data edges of a node start at exactly the bindings it reads, stated
      without the scope stack (C3); nodes, structural and sequence
      edges are those of the tree (C4); every plan validates and is
      acyclic (C5); schedules follow the source
      (C6); an external block receives exactly what it
      references (C7); the topological sort is correct, complete for
      acyclic graphs and deterministic (C25); the index
      replaces the scans it caches (C35).
    - Bash: the braced scanner is exact (C37), the arithmetic
      scanner ends ([bash_scan_terminates]).
    - Contracts: block options (C29), the capability binding that
      planner and evaluator read (C30), metadata that can be
      trusted (C28).
    - Effects and dispatch: conflicts are exactly common written cells, actors and the
      ambient host (C33), and keeping their order keeps the result
      (C22); summaries of plan nodes (C26);
      declarations only constrain (C32) and name exactly the
      declarable resources (C34); what is classified for a
      worker is safe there (C27); autonomy is explicit
      (C31).
    - Hypergraph: the lowering orders every conflict (C20); an
      accepted graph has the operations of the plan and orders its conflicts
      (C14), so without autonomous groups every
      linearisation ends where the sequential run ends (C15);
      ready waves are complete and as early as possible (C18); the finite confluence check
      is sound (C19).
    - Coordinator: a run never panics and refines the abstract lifecycle machine,
      whatever the evaluator and the driver do (C16).  With the
      evaluator of [eval.rs] and loads and trusted renderers on workers it returns what
      [execute_plan_serial] returns, in whatever order the tasks complete
      (C17).
    - Ocore: every tree that can be written is read back from its printed text
      (C9); the front end is total, its diagnostics have exact
      positions and its trees cover nested runs of tokens (C10); a
      foreign block is reported where it is (C40).
    - Ocore types: what the checked build accepts is what the source says, laid out as
      [docs/OCORE.md] documents (C11; an [@align] on an enumeration has
      no effect, against the document), so that fields never overlap
      (C13); the phase ends and reports infinite types exactly
      (C12); releases agree unless the checked build panics
      ([release_agrees]).
    - CBOR: round trip (C8), limits only restrict and are
      kept (C21), totality (C23), exact
      length oracle (C38); [encode_injective] says that the bytes
      identify the value.
    - Wire: framing survives any chunking (C39), truncation is an error
      ([truncated_frame_rejected]), messages round trip ([message_roundtrip]).
    - Catalog and identities: unambiguous lookup ([catalog_lookup_unambiguous]), stale
      references are refused (C36), the text of a resource
      identifies it ([resource_text_identifies]).

    Limits of the code are recorded with concrete inputs: [reconstruct_loses_escape]
    and [escape_limits] in [ParserTheorems], [refused_declaration_panics] in
    [HGraphTheorems], [doubled_capability_prefix] in [ContractTheorems],
    [empty_block_refused], [crlf_span_early] and [dangling_separator_accepted] in
    [OcoreParserTheorems], [release_fields_overlap], [enum_attributes_ignored] and
    [diagnostic_depends_on_order] in [OcoreLayoutTheorems].

    ** What is not modelled, and what comes next

    Of the evaluator, invocations, native leaves, the forcing of requests and the
    execution of hosted blocks are services of the model.  Admission evidence, the type
    solver of the hypergraph, the Ocore compiler behind its type phase, and the remaining
    protocols of the crate are not modelled; processes, network transport, the file system
    and the command line never will be.  Of the coordinator, the optional execution boundary, crossing
    observations and the flush of the autonomous buffer are left out,
    and so is the debug assertion of [publish_outputs], which graph validation guarantees.
    Text dumps and the wording of errors are left out.  The order planned for extensions:
    builtins and the cache of the evaluator, evidence and admission ([evidence]), the
    hosted-remote protocol ([hosted_remote]), the placement protocol, and the bodies
    and the interpreter of Ocore. *)

From stdpp Require Export base list numbers strings sorting gmap fin_maps.
From stdpp Require Import options.
From Stdlib Require Export ZArith Lia.

#[global] Open Scope Z_scope.

(** ** Bytes and strings

    A Rust [&str], [String] or [[u8]] is the list of its bytes; a byte is a [Z]
    in the range [0 .. 255].  [lit] turns a literal of the source into bytes. *)

Abbreviation str := (list Z).

Definition lit (s : string) : str :=
  (λ a, Z.of_N (Ascii.N_of_ascii a)) <$> String.list_ascii_of_string s.

Definition is_byte (b : Z) : Prop := 0 ≤ b < 256.

#[export] Instance is_byte_dec b : Decision (is_byte b).
Proof. unfold is_byte. apply _. Defined.

(** ** Machine integers: [usize], [u64] and [u32] of the 64-bit targets. *)

Definition U32_MAX : Z := 4294967295.
Definition U64_MAX : Z := 18446744073709551615.
Definition USIZE_MAX : Z := U64_MAX.

(** ** Outcomes and the state monad

    A fallible Rust call ends in a value, in an error, in a panic, or (in the
    model only) without fuel.  The state is returned in every case because Rust
    keeps the mutations made before an early return. *)

Inductive outcome (E A : Type) : Type :=
| Ok (a : A)
| Err (e : E)
| Panic
| NoFuel.
Arguments Ok {E A} a.
Arguments Err {E A} e.
Arguments Panic {E A}.
Arguments NoFuel {E A}.

Definition M (S E A : Type) : Type := S → S * outcome E A.

Section Monad.
Context {S E : Type}.

Definition ret {A} (a : A) : M S E A := λ s, (s, Ok a).
Definition fail {A} (e : E) : M S E A := λ s, (s, Err e).
Definition panic {A} : M S E A := λ s, (s, Panic).
Definition no_fuel {A} : M S E A := λ s, (s, NoFuel).
Definition get : M S E S := λ s, (s, Ok s).
Definition modify (f : S → S) : M S E unit := λ s, (f s, Ok tt).

Definition bind {A B} (m : M S E A) (k : A → M S E B) : M S E B := λ s,
  match m s with
  | (s', Ok a) => k a s'
  | (s', Err e) => (s', Err e)
  | (s', Panic) => (s', Panic)
  | (s', NoFuel) => (s', NoFuel)
  end.

(** Total-correctness predicate transformer: [wp m Q R s] says that [m] run in
    [s] neither panics nor runs out of fuel, ends in [Q] on a value and in [R]
    on an error. *)
Definition wp {A} (m : M S E A) (Q : A → S → Prop) (R : E → S → Prop) (s : S) : Prop :=
  match m s with
  | (s', Ok a) => Q a s'
  | (s', Err e) => R e s'
  | _ => False
  end.

Lemma wp_ret {A} (a : A) (Q : A → S → Prop) R s : Q a s → wp (ret a) Q R s.
Proof. done. Qed.

Lemma wp_fail {A} e (Q : A → S → Prop) (R : E → S → Prop) s : R e s → wp (fail e) Q R s.
Proof. done. Qed.

Lemma wp_get (Q : S → S → Prop) R s : Q s s → wp get Q R s.
Proof. done. Qed.

Lemma wp_modify f (Q : unit → S → Prop) R s : Q tt (f s) → wp (modify f) Q R s.
Proof. done. Qed.

Lemma wp_bind {A B} (m : M S E A) (k : A → M S E B) Q R s :
  wp m (λ a s', wp (k a) Q R s') R s → wp (bind m k) Q R s.
Proof. unfold wp, bind. destruct (m s) as [s' [| | |]]; simpl; done. Qed.

Lemma wp_mono {A} (m : M S E A) (Q Q' : A → S → Prop) (R R' : E → S → Prop) s :
  wp m Q R s → (∀ a s', Q a s' → Q' a s') → (∀ e s', R e s' → R' e s') → wp m Q' R' s.
Proof. unfold wp. destruct (m s) as [s' [| | |]]; auto. Qed.

Lemma wp_Ok {A} (m : M S E A) (Q : A → S → Prop) R s s' a :
  wp m Q R s → m s = (s', Ok a) → Q a s'.
Proof. unfold wp. intros H Heq. by rewrite Heq in H. Qed.
End Monad.

Declare Scope effect_scope.
Delimit Scope effect_scope with eff.
#[global] Open Scope effect_scope.

Notation "'let*' x ':=' m 'in' k" := (bind m (λ x, k))
  (at level 10, x pattern, m at level 100, k at level 200, only parsing) : effect_scope.
Notation "m ';;*' k" := (bind m (λ _, k))
  (at level 199, right associativity, only parsing) : effect_scope.

(** ** Pure results: [Result] as a sum, with the error on the left; [let!] is [?]. *)

Definition rbind {E A B} (r : E + A) (k : A → E + B) : E + B :=
  match r with inl e => inl e | inr a => k a end.

Notation "'let!' x ':=' r 'in' k" := (rbind r (λ x, k))
  (at level 10, x pattern, r at level 100, k at level 200, only parsing) : effect_scope.

Lemma rbind_ok {E A B} (r : E + A) (k : A → E + B) b :
  rbind r k = inr b ↔ ∃ a, r = inr a ∧ k a = inr b.
Proof. destruct r; simpl; naive_solver. Qed.

(** The same for outcomes: [let+] stops at an error and at a panic. *)
Definition outcome_bind {E A B} (r : outcome E A) (k : A → outcome E B) : outcome E B :=
  match r with Ok a => k a | Err e => Err e | Panic => Panic | NoFuel => NoFuel end.

Notation "'let+' x ':=' r 'in' k" := (outcome_bind r (λ x, k))
  (at level 10, x pattern, r at level 100, k at level 200, only parsing) : effect_scope.

Lemma outcome_bind_ok {E A B} (r : outcome E A) (k : A → outcome E B) b :
  outcome_bind r k = Ok b ↔ ∃ a, r = Ok a ∧ k a = Ok b.
Proof. destruct r; simpl; naive_solver. Qed.

Lemma filter_ext_in {A} (P Q : A → Prop) `{∀ x, Decision (P x), ∀ x, Decision (Q x)} (l : list A) :
  (∀ x, x ∈ l → P x ↔ Q x) → filter P l = filter Q l.
Proof.
  induction l as [|a l IH]; intros HPQ; [done|]. rewrite !filter_cons, IH by (intros x Hx; apply HPQ; by apply elem_of_cons; right).
  apply decide_ext, HPQ. by apply elem_of_cons; left.
Qed.

Lemma Ok_inj {E A} (a b : A) : Ok (E := E) a = Ok b → a = b.
Proof. by intros [= ->]. Qed.

(** The first step of a computation that returned. *)
Tactic Notation "peel" hyp(H) "as" simple_intropattern(x) ident(E) := apply outcome_bind_ok in H as (x & E & H).

(** [v[i]] and [map[&k]]. *)
Definition index_or_panic {E A} (o : option A) : outcome E A := match o with Some a => Ok a | None => Panic end.

(** ** Big-endian integers: [to_be_bytes] and [from_be_bytes]. *)

Fixpoint le_bytes (n : nat) (w : Z) : str :=
  match n with
  | O => []
  | S n => w mod 256 :: le_bytes n (w / 256)
  end.

Fixpoint le_value (bs : str) : Z :=
  match bs with
  | [] => 0
  | b :: bs => b + 256 * le_value bs
  end.

Definition be_bytes (n : nat) (w : Z) : str := reverse (le_bytes n w).
Definition be_value (bs : str) : Z := le_value (reverse bs).

Lemma le_bytes_length n w : length (le_bytes n w) = n.
Proof. revert w. induction n; intros w; simpl; auto. Qed.

Lemma le_value_bytes n w : 0 ≤ w < 256 ^ Z.of_nat n → le_value (le_bytes n w) = w.
Proof.
  revert w. induction n as [|n IH]; intros w Hw; simpl.
  - change (256 ^ Z.of_nat 0) with 1 in Hw. lia.
  - rewrite Nat2Z.inj_succ, Z.pow_succ_r in Hw by lia.
    rewrite IH; [pose proof (Z.div_mod w 256); lia|].
    split; [apply Z.div_pos; lia|apply Z.div_lt_upper_bound; lia].
Qed.

Lemma be_bytes_length n w : length (be_bytes n w) = n.
Proof. unfold be_bytes. by rewrite length_reverse, le_bytes_length. Qed.

Lemma be_value_bytes n w : 0 ≤ w < 256 ^ Z.of_nat n → be_value (be_bytes n w) = w.
Proof. intros. unfold be_value, be_bytes. by rewrite reverse_involutive, le_value_bytes. Qed.

(** ** Lists *)

Lemma lookup_app_at {A} (l1 l2 : list A) (x : A) : (l1 ++ x :: l2) !! length l1 = Some x.
Proof. by rewrite lookup_app_r, Nat.sub_diag by lia. Qed.

Lemma slice_app {A} (l1 l2 l3 : list A) :
  take (length l2) (drop (length l1) (l1 ++ l2 ++ l3)) = l2.
Proof. by rewrite drop_app_length, take_app_length. Qed.

(** A separator that occurs only once on one side cuts a list in one way. *)
Lemma cut_first {A} (x : A) a b a' b' :
  x ∉ a → x ∉ a' → a ++ x :: b = a' ++ x :: b' → a = a' ∧ b = b'.
Proof.
  revert a'. induction a as [|y a IH]; intros [|y' a'] Ha Ha' E; simpl in *; simplify_eq; try done.
  - by apply not_elem_of_cons in Ha' as [? _].
  - by apply not_elem_of_cons in Ha as [? _].
  - apply not_elem_of_cons in Ha as [_ ?], Ha' as [_ ?]. destruct (IH a') as [-> ->]; done.
Qed.

Lemma cut_last {A} (x : A) a b a' b' :
  x ∉ b → x ∉ b' → a ++ x :: b = a' ++ x :: b' → a = a' ∧ b = b'.
Proof.
  intros Hb Hb' E. apply (f_equal reverse) in E.
  rewrite !reverse_app, !reverse_cons, <-!app_assoc in E. simpl in E.
  apply cut_first in E as [E1 E2]; [|by rewrite elem_of_reverse..].
  by apply (inj reverse) in E1, E2.
Qed.

(** Symbolic execution of a bind whose first part is known to return. *)
Lemma bind_Ok {S E A B} (m : M S E A) (k : A → M S E B) s s' a :
  m s = (s', Ok a) → bind m k s = k a s'.
Proof. unfold bind. by intros ->. Qed.

Lemma bind_Ok_inv {S E A B} (m : M S E A) (k : A → M S E B) s s' b :
  bind m k s = (s', Ok b) → ∃ a s1, m s = (s1, Ok a) ∧ k a s1 = (s', Ok b).
Proof. unfold bind. destruct (m s) as [s1 [| | |]]; naive_solver. Qed.

(** ** Sorting commutes with order-preserving maps. *)
Section SortMap.
Context {A B : Type} (R : relation A) `{!RelDecision R} (R' : relation B) `{!RelDecision R'}.
Context (f : A → B) (HR : ∀ x y, R x y ↔ R' (f x) (f y)).

Lemma list_merge_fmap l1 l2 : f <$> list_merge R l1 l2 = list_merge R' (f <$> l1) (f <$> l2).
Proof using HR.
  revert l2. induction l1 as [|x l1 IH1]; intros l2.
  - by destruct l2.
  - induction l2 as [|y l2 IH2]; [done|].
    rewrite list_merge_cons, !fmap_cons, list_merge_cons.
    destruct (decide (R x y)) as [Hxy|Hxy].
    + rewrite (decide_True _ _ (proj1 (HR _ _) Hxy)), fmap_cons, IH1. done.
    + rewrite (decide_False _ _ (λ H, Hxy (proj2 (HR _ _) H))), fmap_cons, IH2. done.
Qed.

Definition map_stack (st : list (option (list A))) : list (option (list B)) :=
  map (option_map (map f)) st.

Lemma merge_list_to_stack_fmap st l :
  map_stack (merge_list_to_stack R st l) = merge_list_to_stack R' (map_stack st) (f <$> l).
Proof using HR.
  revert l. induction st as [|[l'|] st IH]; intros l; simpl; try done.
  f_equal. rewrite IH. by rewrite <-list_merge_fmap.
Qed.

Lemma merge_stack_fmap st : f <$> merge_stack R st = merge_stack R' (map_stack st).
Proof using HR.
  induction st as [|[l|] st IH]; simpl; try done.
  by rewrite list_merge_fmap, IH.
Qed.

Lemma merge_sort_fmap l : f <$> merge_sort R l = merge_sort R' (f <$> l).
Proof using HR.
  unfold merge_sort. change (merge_sort_aux R' [] (f <$> l)) with (merge_sort_aux R' (map_stack []) (f <$> l)).
  generalize (@nil (option (list A))). induction l as [|x l IH]; intros st; csimpl.
  - apply merge_stack_fmap.
  - rewrite IH. by rewrite (merge_list_to_stack_fmap st [x]).
Qed.
End SortMap.

Lemma le_value_nonneg bs : Forall is_byte bs → 0 ≤ le_value bs.
Proof. unfold is_byte. induction 1; simpl; lia. Qed.

Lemma be_value_nonneg bs : Forall is_byte bs → 0 ≤ be_value bs.
Proof. intros. by apply le_value_nonneg, Forall_reverse. Qed.

Lemma forallb_Forall {A} (f : A → bool) l : forallb f l = true ↔ Forall (λ x, f x = true) l.
Proof.
  induction l as [|x l IH]; simpl; [split; [constructor|done]|].
  rewrite andb_true_iff, IH, Forall_cons. done.
Qed.

(** Case analysis on every boolean test of the goal, as linear arithmetic. *)
Ltac case_ltb :=
  repeat match goal with
  | |- context [if ?a <? ?b then _ else _] => let H := fresh "Hcase" in destruct (Z.ltb_spec a b) as [H|H]
  | |- context [if ?a <=? ?b then _ else _] => let H := fresh "Hcase" in destruct (Z.leb_spec a b) as [H|H]
  | |- context [if ?a =? ?b then _ else _] => let H := fresh "Hcase" in destruct (Z.eqb_spec a b) as [H|H]
  end.

(** First occurrence of a key in an association list. *)
Lemma assoc_split {K V} `{EqDecision K} (m : list (K * V)) k :
  k ∈ m.*1 → ∃ m1 w m2, m = m1 ++ (k, w) :: m2 ∧ k ∉ m1.*1.
Proof.
  induction m as [|[k1 v1] m IH]; simpl; intros Hin; [by apply not_elem_of_nil in Hin|].
  destruct (decide (k1 = k)) as [->|Hne]; [exists [], v1, m; split; [done|apply not_elem_of_nil]|].
  apply elem_of_cons in Hin as [->|Hin]; [done|].
  destruct (IH Hin) as (m1 & w & m2 & -> & Hni). exists ((k1, v1) :: m1), w, m2.
  split; [done|]. simpl. rewrite not_elem_of_cons. auto.
Qed.

(** ** Decimal integers: [format!] and [str::parse] of unsigned numbers. *)

Fixpoint dec_aux (fuel : nat) (n : Z) (acc : str) : str :=
  match fuel with
  | O => acc
  | S fuel =>
      let acc := (48 + n mod 10) :: acc in
      if n <? 10 then acc else dec_aux fuel (n / 10) acc
  end.

(** Decimal digits of a number below [10 ^ 20]. *)
Definition dec (n : Z) : str := dec_aux 20 n [].

Definition dec_value (s : str) : Z := foldl (λ acc b, acc * 10 + (b - 48)) 0 s.

Definition is_digit (b : Z) : bool := (48 <=? b) && (b <=? 57).

Lemma dec_aux_spec fuel n acc a :
  0 ≤ n < 10 ^ Z.of_nat fuel →
  ∃ ds, dec_aux fuel n acc = ds ++ acc ∧ ((0 < fuel)%nat → ds ≠ []) ∧ Forall (λ b, is_digit b = true) ds ∧
        foldl (λ x b, x * 10 + (b - 48)) a ds = a * 10 ^ Z.of_nat (length ds) + n.
Proof.
  revert n acc a. induction fuel as [|fuel IH]; intros n acc a Hn.
  { exists []. change (10 ^ Z.of_nat 0) with 1 in Hn. simpl. split_and!; [done|lia|constructor|lia]. }
  cbn [dec_aux]. rewrite Nat2Z.inj_succ, Z.pow_succ_r in Hn by lia.
  assert (Hd : is_digit (48 + n mod 10) = true).
  { unfold is_digit. pose proof (Z.mod_pos_bound n 10). rewrite andb_true_iff, !Z.leb_le. lia. }
  destruct (Z.ltb_spec n 10).
  - exists [48 + n mod 10]. split_and!; [done|done|by constructor|]. simpl.
    rewrite Z.mod_small by lia. lia.
  - assert (0 ≤ n / 10 < 10 ^ Z.of_nat fuel).
    { split; [apply Z.div_pos; lia|apply Z.div_lt_upper_bound; lia]. }
    destruct (IH (n / 10) ((48 + n mod 10) :: acc) a) as (ds & -> & _ & Hds & Hv); [done|].
    exists (ds ++ [48 + n mod 10]). split_and!.
    + by rewrite <-app_assoc.
    + intros _ E. by destruct ds.
    + apply Forall_app. split; [done|by constructor].
    + rewrite foldl_app, Hv, length_app. cbn [foldl length].
      replace (Z.of_nat (length ds + 1)) with (Z.succ (Z.of_nat (length ds))) by lia.
      rewrite Z.pow_succ_r by lia. pose proof (Z.div_mod n 10). lia.
Qed.

Lemma dec_digits n : 0 ≤ n < 10 ^ 20 → dec n ≠ [] ∧ Forall (λ b, is_digit b = true) (dec n).
Proof.
  intros Hn. destruct (dec_aux_spec 20 n [] 0 Hn) as (ds & E & Hne & Hd & _).
  unfold dec. rewrite E, app_nil_r. split; [apply Hne; lia|done].
Qed.

Lemma dec_no_byte n b : 0 ≤ n < 10 ^ 20 → is_digit b = false → b ∉ dec n.
Proof. intros Hn Hb Hin. eapply Forall_forall in Hin; [|by apply dec_digits]. simpl in Hin. congruence. Qed.

Lemma dec_value_dec n : 0 ≤ n < 10 ^ 20 → dec_value (dec n) = n.
Proof.
  intros Hn. destruct (dec_aux_spec 20 n [] 0 Hn) as (ds & E & _ & _ & Hv).
  unfold dec, dec_value. rewrite E, app_nil_r, Hv. lia.
Qed.

Lemma dec_inj n m : 0 ≤ n < 10 ^ 20 → 0 ≤ m < 10 ^ 20 → dec n = dec m → n = m.
Proof. intros Hn Hm E. by rewrite <-(dec_value_dec n), <-(dec_value_dec m), E. Qed.

Lemma dec_value_nonneg ds : Forall (λ b, is_digit b = true) ds → 0 ≤ dec_value ds.
Proof.
  unfold dec_value. assert (H : ∀ acc, 0 ≤ acc → Forall (λ b, is_digit b = true) ds →
                              0 ≤ foldl (λ acc b, acc * 10 + (b - 48)) acc ds); [|by apply H].
  induction ds as [|b ds IH]; intros acc Hacc Hds; simpl; [done|].
  apply Forall_cons in Hds as [Hb Hds]. apply IH; [|done]. unfold is_digit in Hb.
  apply andb_true_iff in Hb as [?%Z.leb_le _]. lia.
Qed.
