(* ===== verification/Reorder.v ===== *)
(** * Reordering schedules

    The order of the entries of a schedule, and the argument that two schedules of
    the same operations agree when they order the dependent ones alike: operations
    that are not dependent are swapped past each other, up to an equivalence of
    states that every operation preserves. *)

From S2P Require Import Prelude.
From stdpp Require Import options.

#[local] Open Scope nat_scope.

(** [i] runs before [j]. *)
Definition before {A} (schedule : list A) (i j : A) : Prop := [i; j] `sublist_of` schedule.

Section Before.
Context {A : Type}.
Implicit Types (x y i j : A) (l : list A).

Lemma before_head x l i j : i ≠ x → before (x :: l) i j → before l i j.
Proof. unfold before. rewrite sublist_cons_r. intros Hne [?|(l' & ? & ?)]; [done|simplify_eq]. Qed.

Lemma before_elem l i j : before l i j → i ∈ l ∧ j ∈ l.
Proof. intros H%sublist_subseteq. split; apply H; set_solver. Qed.

Lemma before_pair x y i j : before [x; y] i j → i = x ∧ j = y.
Proof.
  unfold before. rewrite sublist_cons_r. intros [H%sublist_length|(l & ? & H)]; [simpl in H; lia|].
  simplify_eq. apply sublist_cons_r in H as [H%sublist_length|(? & ? & ?)]; [simpl in H; lia|by simplify_eq].
Qed.

Lemma before_insert x l1 l2 i j : before (l1 ++ l2) i j → before (l1 ++ x :: l2) i j.
Proof. unfold before. intros H. etrans; [exact H|]. apply sublist_app; [done|]. by apply sublist_cons. Qed.

Lemma before_mid x y l1 l2 : y ∈ l1 → before (l1 ++ x :: l2) y x.
Proof.
  intros (a & b & ->)%list_elem_of_split. unfold before. rewrite <-app_assoc. apply sublist_inserts_l. simpl.
  apply sublist_skip, sublist_inserts_l, sublist_skip, sublist_nil_l.
Qed.

Lemma before_snoc l x i j : before (l ++ [x]) i j → before l i j ∨ (i ∈ l ∧ j = x).
Proof.
  unfold before. rewrite sublist_app_r. intros (l1 & l2 & E & H1 & H2).
  destruct l2 as [|b [|]].
  - rewrite app_nil_r in E. subst. by left.
  - destruct l1 as [|a [|? [|]]]; simplify_eq. right. apply sublist_subseteq in H1, H2.
    specialize (H1 a). specialize (H2 b). set_solver.
  - apply sublist_length in H2. simpl in H2. lia.
Qed.

Lemma before_cons x l i j : before (x :: l) i j ↔ (x = i ∧ j ∈ l) ∨ before l i j.
Proof.
  split.
  - unfold before at 1. rewrite sublist_cons_r. intros [?|(l' & ? & H)]; [by right|]. simplify_eq. left. split; [done|].
    apply sublist_subseteq in H. apply H. set_solver.
  - intros [[-> Hj]|H]; [|by apply (before_insert x [] l)].
    apply list_elem_of_split in Hj as (l1 & l2 & ->). apply (before_mid j i (i :: l1) l2). set_solver.
Qed.

Lemma before_filter (P : A → Prop) `{∀ a, Decision (P a)} l i j : before (filter P l) i j ↔ before l i j ∧ P i ∧ P j.
Proof.
  induction l as [|x l IH].
  - rewrite filter_nil. split; [|by intros [? _]]. intros Hb%sublist_length. simpl in Hb. lia.
  - rewrite filter_cons, before_cons. case_decide; [rewrite before_cons|]; rewrite IH, ?list_elem_of_filter; naive_solver.
Qed.

Lemma before_lookup l i j : before l i j ↔ ∃ a b, a < b ∧ l !! a = Some i ∧ l !! b = Some j.
Proof.
  split.
  - induction l as [|x l IH] using rev_ind; [intros H%sublist_length; simpl in H; lia|].
    intros [(a & b & ? & Ha & Hb)%IH|[[a Ha]%list_elem_of_lookup ->]]%before_snoc.
    + exists a, b. split_and!; [done|by apply lookup_app_l_Some..].
    + exists a, (length l). pose proof (lookup_lt_Some _ _ _ Ha).
      split_and!; [lia|by apply lookup_app_l_Some|by rewrite lookup_app_r, Nat.sub_diag].
  - intros (a & b & Hab & Ha & Hb). apply list_elem_of_split_length in Hb as (l1 & l2 & -> & Hlen).
    apply before_mid. rewrite lookup_app_l in Ha by lia. by eapply list_elem_of_lookup_2.
Qed.
(** An element of an earlier segment. *)
Lemma before_concat (ls : list (list A)) k l i j :
  ls !! k = Some l → j ∈ l → i ∈ concat (take k ls) → before (concat ls) i j.
Proof.
  intros Hk (l1 & l2 & ->)%list_elem_of_split Hi. rewrite <-(take_drop_middle ls k _ Hk), concat_app. simpl.
  rewrite <-app_assoc, app_assoc. apply before_mid. set_solver.
Qed.

(** In a list without duplicates the order is transitive. *)
Lemma before_trans l i j k : NoDup l → before l i j → before l j k → before l i k.
Proof.
  intros Hnd (a & b & Hab & Ha & Hb)%before_lookup (b' & c & Hbc & Hb' & Hc)%before_lookup.
  assert (b' = b) as -> by (by eapply NoDup_lookup). apply before_lookup. exists a, c. split_and!; [lia|done..].
Qed.

Lemma before_tc l (R : relation A) : NoDup l → (∀ i j, R i j → before l i j) → ∀ i j, tc R i j → before l i j.
Proof. intros Hnd HR i j. induction 1 as [|u v w Huv _ IH]; [by apply HR|]. eapply before_trans; eauto. Qed.

End Before.

Section Run.
Context {A S : Type} (R : relation S) (good : S → Prop) (op : A → S → S) (dep : A → A → Prop).

Definition run_all (l : list A) (s : S) : S := foldl (λ s a, op a s) s l.

Context (l0 : list A) `{!Equivalence R}.
Context (Hgood : ∀ a s, a ∈ l0 → good s → good (op a s)).
Context (Hproper : ∀ a s t, a ∈ l0 → good s → good t → R s t → R (op a s) (op a t)).
Context (Hcommute : ∀ a b s, a ∈ l0 → b ∈ l0 → ¬ dep a b → good s → R (op b (op a s)) (op a (op b s))).

Lemma run_all_proper l s t : l ⊆ l0 → good s → good t → R s t → R (run_all l s) (run_all l t).
Proof using All.
  revert s t. induction l as [|a l IH]; intros s t Hl Hs Ht E; [done|].
  apply IH; [set_solver|by apply Hgood; [set_solver|]..|]. apply Hproper; [set_solver|done..].
Qed.

(** An operation that depends on none of those before it can run first. *)
Lemma run_first a l1 l2 s :
  l1 ++ a :: l2 ⊆ l0 → good s → Forall (λ b, ¬ dep b a) l1 → R (run_all (l1 ++ a :: l2) s) (run_all (l1 ++ l2) (op a s)).
Proof using All.
  revert s. induction l1 as [|b l1 IH]; intros s Hl Hs Hc; [done|]. apply Forall_cons in Hc as [Hb Hc].
  assert (Ha : a ∈ l0) by (apply Hl; set_solver). assert (Hbl : b ∈ l0) by (apply Hl; set_solver).
  assert (Hl' : l1 ++ a :: l2 ⊆ l0) by set_solver.
  transitivity (run_all (l1 ++ l2) (op a (op b s))); [by apply IH; [|apply Hgood|]|].
  change (run_all ((b :: l1) ++ l2) (op a s)) with (run_all (l1 ++ l2) (op b (op a s))).
  apply run_all_proper; [set_solver|by repeat apply Hgood..|]. by apply Hcommute.
Qed.

Lemma run_reorder_sub l l' s :
  l ⊆ l0 → NoDup l → l ≡ₚ l' → good s → (∀ i j, before l i j → dep i j → before l' i j) → R (run_all l s) (run_all l' s).
Proof using All.
  revert l s. induction l' as [|x l' IH]; intros l s Hl Hnd Hp Hs Hb.
  { by apply Permutation_nil_r in Hp as ->. }
  assert (Hx : x ∈ l) by (rewrite Hp; set_solver).
  apply list_elem_of_split in Hx as (l1 & l2 & ->).
  assert (Hnd' : NoDup (x :: l')) by (by rewrite <-Hp). apply NoDup_cons in Hnd' as [Hx Hnd'].
  assert (Hp' : l1 ++ l2 ≡ₚ l') by (apply (Permutation_cons_inv (a := x)); by rewrite <-Hp, Permutation_middle).
  transitivity (run_all (l1 ++ l2) (op x s)).
  - apply run_first; [done|done|]. apply Forall_forall. intros y Hy Hc.
    assert (y ≠ x). { intros ->. apply NoDup_app in Hnd as (_ & H & _). apply (H x); set_solver. }
    apply Hb, before_head, before_elem in Hc as [_ ?]; [done|done|by apply before_mid].
  - change (run_all (x :: l') s) with (run_all l' (op x s)). apply IH; [set_solver|by rewrite Hp'|done| |].
    + apply Hgood; [apply Hl; set_solver|done].
    + intros i j Hij Hc. apply (before_head x); [|by apply Hb; [apply before_insert|]].
      intros ->. apply before_elem in Hij as [Hi _]. rewrite Hp' in Hi. done.
Qed.
End Run.

(** Two orders of the same operations that agree on the dependent pairs end in
    equivalent states. *)
Lemma run_reorder {A S} (R : relation S) (good : S → Prop) (op : A → S → S) (dep : A → A → Prop) (l l' : list A) s :
  Equivalence R →
  (∀ a s, a ∈ l → good s → good (op a s)) →
  (∀ a s t, a ∈ l → good s → good t → R s t → R (op a s) (op a t)) →
  (∀ a b s, a ∈ l → b ∈ l → ¬ dep a b → good s → R (op b (op a s)) (op a (op b s))) →
  good s → NoDup l → l ≡ₚ l' → (∀ i j, before l i j → dep i j → before l' i j) → R (run_all op l s) (run_all op l' s).
Proof. intros HR Hg Hpr Hc Hs Hnd Hp Hb. by apply (run_reorder_sub R good op dep l). Qed.
