(* ===== verification/Utf8.v ===== *)
(** * UTF-8 strings of the Rust standard library

    What the engine uses of [std::str]: validity as [from_utf8] decides it, the
    length of the character that a lead byte opens ([char::len_utf8] of
    [chars().next()]), [is_char_boundary], the Unicode [White_Space] test of
    [char::is_whitespace] and the number of characters of a slice. *)

From S2P Require Import Prelude.
From stdpp Require Import options.

(** A continuation byte: [0x80 .. 0xBF]. *)
Definition is_cont (b : Z) : bool := (0x80 <=? b) && (b <=? 0xBF).

Definition in_range (lo hi b : Z) : bool := (lo <=? b) && (b <=? hi).

(** [std::str::from_utf8]: the accepted byte sequences, by lead byte. *)
Fixpoint utf8_valid (s : str) : bool :=
  match s with
  | [] => true
  | b0 :: s1 =>
      if in_range 0 0x7F b0 then utf8_valid s1
      else match s1 with
      | [] => false
      | b1 :: s2 =>
          if in_range 0xC2 0xDF b0 then is_cont b1 && utf8_valid s2
          else match s2 with
          | [] => false
          | b2 :: s3 =>
              if bool_decide (b0 = 0xE0) then in_range 0xA0 0xBF b1 && is_cont b2 && utf8_valid s3
              else if bool_decide (b0 = 0xED) then in_range 0x80 0x9F b1 && is_cont b2 && utf8_valid s3
              else if in_range 0xE1 0xEF b0 then is_cont b1 && is_cont b2 && utf8_valid s3
              else match s3 with
              | [] => false
              | b3 :: s4 =>
                  (if bool_decide (b0 = 0xF0) then in_range 0x90 0xBF b1
                   else if bool_decide (b0 = 0xF4) then in_range 0x80 0x8F b1
                   else in_range 0xF1 0xF3 b0 && is_cont b1)
                  && is_cont b2 && is_cont b3 && utf8_valid s4
              end
          end
      end
  end.

(** Length of the character opened by a lead byte. *)
Definition lead_len (b : Z) : nat :=
  if b <? 0x80 then 1 else if b <? 0xE0 then 2 else if b <? 0xF0 then 3 else 4.

(** [str::is_char_boundary]. *)
Definition is_boundary (s : str) (i : nat) : bool :=
  match s !! i with
  | Some b => negb (is_cont b)
  | None => bool_decide (i = length s)
  end.

(** The scalar value of the character at the head of a valid string. *)
Definition char_at (s : str) : option Z :=
  match s with
  | [] => None
  | b0 :: s1 =>
      if b0 <? 0x80 then Some b0
      else match s1 with
      | [] => None
      | b1 :: s2 =>
          if b0 <? 0xE0 then Some (Z.land b0 0x1F * 64 + Z.land b1 0x3F)
          else match s2 with
          | [] => None
          | b2 :: s3 =>
              if b0 <? 0xF0
              then Some (Z.land b0 0x0F * 4096 + Z.land b1 0x3F * 64 + Z.land b2 0x3F)
              else match s3 with
              | [] => None
              | b3 :: _ =>
                  Some (Z.land b0 0x07 * 262144 + Z.land b1 0x3F * 4096
                        + Z.land b2 0x3F * 64 + Z.land b3 0x3F)
              end
          end
      end
  end.

(** [char::is_whitespace]: the Unicode property [White_Space]. *)
Definition char_is_whitespace (c : Z) : bool :=
  in_range 9 13 c || bool_decide (c ∈ [0x20; 0x85; 0xA0; 0x1680; 0x2028; 0x2029; 0x202F; 0x205F; 0x3000])
  || in_range 0x2000 0x200A c.

(** Start of the character that ends just before [i] ([next_back]): step back
    over at most three continuation bytes. *)
Fixpoint back_to_lead (s : str) (fuel i : nat) : nat :=
  match fuel, i with
  | S fuel', S i' =>
      match s !! i' with
      | Some b => if is_cont b then back_to_lead s fuel' i' else i'
      | None => i'
      end
  | _, _ => i
  end.

(** [str::chars().count()]: characters are counted by their lead bytes. *)
Definition chars_count (s : str) : nat := length (filter (λ b, is_cont b = false) s).

(** The [u8] classes of the standard library. *)
Definition is_ascii_alphabetic (b : Z) : bool := in_range 65 90 b || in_range 97 122 b.
Definition is_ascii_alphanumeric (b : Z) : bool := is_ascii_alphabetic b || in_range 48 57 b.
Definition is_ascii_graphic (b : Z) : bool := in_range 33 126 b.

(** A [while] loop that advances an index over the bytes satisfying [p]: the
    number of steps it makes from the start of [s]. *)
Fixpoint span_len (p : Z → bool) (s : str) : nat :=
  match s with
  | [] => 0
  | b :: s => if p b then S (span_len p s) else 0
  end.

(** [starts_with], [strip_prefix] and [ends_with]. *)
Fixpoint strip_prefix (p s : str) : option str :=
  match p, s with
  | [], _ => Some s
  | _ :: _, [] => None
  | a :: p, b :: s => if a =? b then strip_prefix p s else None
  end.

Definition starts_with (s p : str) : bool := bool_decide (is_Some (strip_prefix p s)).

Definition ends_with (s p : str) : bool := starts_with (reverse s) (reverse p).

(** [str::split] at one ASCII byte. *)
Fixpoint split_byte (c : Z) (s : str) : list str :=
  match s with
  | [] => [[]]
  | b :: s =>
      if b =? c then [] :: split_byte c s
      else match split_byte c s with
           | [] => [[b]]
           | w :: ws => (b :: w) :: ws
           end
  end.

(** [str::split] at any byte of a class. *)
Fixpoint split_where (p : Z → bool) (s : str) : list str :=
  match s with
  | [] => [[]]
  | b :: s =>
      if p b then [] :: split_where p s
      else match split_where p s with
           | [] => [[b]]
           | w :: ws => (b :: w) :: ws
           end
  end.

(** [str::split_once] at the first occurrence of an ASCII byte. *)
Fixpoint split_once (c : Z) (s : str) : option (str * str) :=
  match s with
  | [] => None
  | b :: s => if b =? c then Some ([], s) else (λ '(l, r), (b :: l, r)) <$> split_once c s
  end.

(** [str::rsplit_once]: the last occurrence. *)
Definition rsplit_once (c : Z) (s : str) : option (str * str) :=
  (λ '(l, r), (reverse r, reverse l)) <$> split_once c (reverse s).

Definition strip_suffix (p s : str) : option str := reverse <$> strip_prefix (reverse p) (reverse s).

(** The scalar values of a valid string, each with the bytes that encode it
    ([str::chars]). *)
Fixpoint chars_aux (fuel : nat) (s : str) : list (Z * str) :=
  match fuel, s with
  | S fuel, b :: _ =>
      let w := lead_len b in
      (default 0 (char_at s), take w s) :: chars_aux fuel (drop w s)
  | _, _ => []
  end.

Definition chars (s : str) : list (Z * str) := chars_aux (length s) s.

(** [str::trim_start], [str::trim_end] and [str::trim]. *)
Fixpoint drop_ws (cs : list (Z * str)) : list (Z * str) :=
  match cs with
  | [] => []
  | c :: cs' => if char_is_whitespace c.1 then drop_ws cs' else cs
  end.

Definition unchars (cs : list (Z * str)) : str := concat (snd <$> cs).

Definition trim_start (s : str) : str := unchars (drop_ws (chars s)).
Definition trim_end (s : str) : str := unchars (reverse (drop_ws (reverse (chars s)))).
Definition trim (s : str) : str :=
  unchars (reverse (drop_ws (reverse (drop_ws (chars s))))).

(** ** Lemmas *)

Lemma strip_prefix_Some p s r : strip_prefix p s = Some r ↔ s = p ++ r.
Proof.
  revert s. induction p as [|a p IH]; intros s; simpl; [naive_solver|].
  destruct s as [|b s]; [naive_solver|].
  destruct (Z.eqb_spec a b) as [->|]; [rewrite IH|]; naive_solver.
Qed.

Lemma starts_with_spec s p : starts_with s p = true ↔ ∃ r, s = p ++ r.
Proof.
  unfold starts_with. rewrite bool_decide_eq_true. unfold is_Some.
  split; intros [r Hr]; exists r; by apply strip_prefix_Some.
Qed.

Lemma starts_with_take s p : starts_with s p = true → take (length p) s = p.
Proof. rewrite starts_with_spec. intros [r ->]. apply take_app_length. Qed.

Lemma span_len_le p s : (span_len p s ≤ length s)%nat.
Proof. induction s as [|b s IH]; simpl; [lia|]. destruct (p b); lia. Qed.

Lemma span_len_take p s : Forall (λ b, p b = true) (take (span_len p s) s).
Proof.
  induction s as [|b s IH]; simpl; [constructor|].
  destruct (p b) eqn:E; simpl; [by constructor|constructor].
Qed.

Lemma span_len_stop p s b : s !! span_len p s = Some b → p b = false.
Proof.
  induction s as [|c s IH]; simpl; [done|].
  destruct (p c) eqn:E; simpl; [done|naive_solver].
Qed.

Lemma span_len_app p w r :
  Forall (λ b, p b = true) w → (∀ b, r !! 0%nat = Some b → p b = false) →
  span_len p (w ++ r) = length w.
Proof.
  induction 1 as [|b w Hb _ IH]; simpl; intros Hr.
  - destruct r as [|b r]; simpl; [done|]. by rewrite (Hr b).
  - rewrite Hb. f_equal. auto.
Qed.

Lemma in_range_spec lo hi b : in_range lo hi b = true ↔ lo ≤ b ≤ hi.
Proof. unfold in_range. rewrite andb_true_iff, !Z.leb_le. lia. Qed.

Lemma is_cont_spec b : is_cont b = true ↔ 0x80 ≤ b ≤ 0xBF.
Proof. apply in_range_spec. Qed.

Lemma is_cont_false b : is_cont b = false ↔ ¬ (0x80 ≤ b ≤ 0xBF).
Proof. rewrite <-is_cont_spec. destruct (is_cont b); intuition congruence. Qed.

Ltac utf8_bools :=
  repeat match goal with
  | H : (_ && _)%bool = true |- _ => apply andb_true_iff in H as [? ?]
  | H : in_range _ _ _ = true |- _ => apply in_range_spec in H
  | H : is_cont _ = true |- _ => apply is_cont_spec in H
  | H : bool_decide _ = true |- _ => apply bool_decide_eq_true_1 in H
  end.

(** One decoding step: a valid non-empty string opens with a character whose
    tail bytes are continuations and whose rest is valid. *)
Inductive utf8_step : str → str → Prop :=
| step1 b0 r : 0 ≤ b0 < 0x80 → utf8_step (b0 :: r) r
| step2 b0 b1 r : 0xC2 ≤ b0 < 0xE0 → is_cont b1 = true → utf8_step (b0 :: b1 :: r) r
| step3 b0 b1 b2 r : 0xE0 ≤ b0 < 0xF0 → is_cont b1 = true → is_cont b2 = true →
    utf8_step (b0 :: b1 :: b2 :: r) r
| step4 b0 b1 b2 b3 r : 0xF0 ≤ b0 < 0xF5 → is_cont b1 = true → is_cont b2 = true →
    is_cont b3 = true → utf8_step (b0 :: b1 :: b2 :: b3 :: r) r.

Lemma utf8_valid_step b s :
  utf8_valid (b :: s) = true → ∃ r, utf8_step (b :: s) r ∧ utf8_valid r = true.
Proof.
  simpl. intros H.
  repeat match goal with
  | H : (if ?c then _ else _) = true |- _ => destruct c eqn:?
  | H : match ?l with [] => _ | _ :: _ => _ end = true |- _ => destruct l; [done|]
  end; utf8_bools; repeat case_match; utf8_bools; try done;
  eexists; (split; [|eassumption]);
  first [ apply step1; lia | apply step2; [lia|by apply is_cont_spec; lia]
        | apply step3; [lia|apply is_cont_spec; lia..]
        | apply step4; [lia|apply is_cont_spec; lia..] ].
Qed.

Lemma utf8_valid_bytes s : utf8_valid s = true → Forall is_byte s.
Proof.
  induction s as [s IH] using (induction_ltof1 _ length); unfold ltof in IH.
  destruct s as [|b s]; [constructor|]. intros H.
  destruct (utf8_valid_step _ _ H) as (r & Hstep & Hr).
  inversion Hstep; subst; simplify_eq; rewrite ?is_cont_spec in *;
    repeat (apply Forall_cons; split; [unfold is_byte; lia|]); apply IH; simpl; auto; lia.
Qed.

Lemma is_boundary_length s : is_boundary s (length s) = true.
Proof. unfold is_boundary. rewrite lookup_ge_None_2 by lia. by apply bool_decide_eq_true_2. Qed.

Lemma is_boundary_0 s : utf8_valid s = true → is_boundary s 0 = true.
Proof.
  destruct s as [|b s]; [done|]. intros H.
  destruct (utf8_valid_step _ _ H) as (r & Hstep & _).
  unfold is_boundary; simpl. apply negb_true_iff, is_cont_false.
  inversion Hstep; subst; lia.
Qed.

(** A step consumes the character opened by the lead byte. *)
Lemma utf8_step_lead b s r :
  utf8_step (b :: s) r →
  b :: s = take (lead_len b) (b :: s) ++ r ∧ (0 < lead_len b ≤ length (b :: s))%nat ∧
  is_cont b = false ∧
  ∀ j c, (0 < j < lead_len b)%nat → (b :: s) !! j = Some c → is_cont c = true.
Proof.
  intros Hs. unfold lead_len.
  inversion Hs; subst; case_ltb; try lia; simpl; (split; [done|]); (split; [lia|]);
    (split; [apply is_cont_false; lia|]); intros j c Hj Hc;
    repeat (destruct j as [|j]; simpl in *; try lia; simplify_eq; try done).
Qed.

Lemma is_boundary_le s i : is_boundary s i = true → (i ≤ length s)%nat.
Proof.
  unfold is_boundary. destruct (s !! i) eqn:E; [apply lookup_lt_Some in E; lia|].
  rewrite bool_decide_eq_true. lia.
Qed.

Lemma is_boundary_app l r i : is_boundary (l ++ r) (length l + i) = is_boundary r i.
Proof.
  unfold is_boundary. rewrite lookup_app_r by lia. replace (length l + i - length l)%nat with i by lia.
  destruct (r !! i); [done|]. apply bool_decide_ext. rewrite length_app. lia.
Qed.

(** A character boundary of a valid string is where a valid suffix starts. *)
Lemma boundary_valid s i :
  utf8_valid s = true → is_boundary s i = true → utf8_valid (drop i s) = true.
Proof.
  revert i. induction s as [s IH] using (induction_ltof1 _ length); unfold ltof in IH.
  intros i Hv Hb. destruct i as [|i]; [done|]. destruct s as [|b s]; [done|].
  destruct (utf8_valid_step _ _ Hv) as (r & Hstep & Hr).
  destruct (utf8_step_lead _ _ _ Hstep) as (Heq & Hlen & _ & Hcont).
  destruct (decide (S i < lead_len b)%nat) as [Hlt|Hge].
  - exfalso. destruct (lookup_lt_is_Some_2 (b :: s) (S i)) as [c Hc]; [lia|].
    unfold is_boundary in Hb. rewrite Hc, (Hcont (S i) c) in Hb; [done|lia|done].
  - assert (Htake : length (take (lead_len b) (b :: s)) = lead_len b) by (rewrite length_take; lia).
    rewrite Heq. rewrite Heq in Hb. rewrite drop_app_ge by lia.
    replace (S i) with (length (take (lead_len b) (b :: s)) + (S i - lead_len b))%nat in Hb by lia.
    rewrite is_boundary_app in Hb. rewrite Htake. apply IH; [|done|done].
    apply (f_equal length) in Heq. rewrite length_app in Heq. lia.
Qed.

Lemma valid_boundary s i :
  (i ≤ length s)%nat → utf8_valid (drop i s) = true → is_boundary s i = true.
Proof.
  intros Hi Hv.
  assert (H : is_boundary (take i s ++ drop i s) (length (take i s) + 0) = true)
    by (rewrite is_boundary_app; by apply is_boundary_0).
  rewrite take_drop, length_take, Nat.add_0_r in H. by replace (i `min` length s)%nat with i in H by lia.
Qed.

(** Stepping over the character at a boundary reaches a boundary. *)
Lemma boundary_next s i b :
  utf8_valid s = true → is_boundary s i = true → s !! i = Some b →
  is_boundary s (i + lead_len b) = true ∧ (0 < lead_len b)%nat.
Proof.
  intros Hv Hb Hi. pose proof (boundary_valid s i Hv Hb) as Hd.
  rewrite (drop_S _ _ _ Hi) in Hd. destruct (utf8_valid_step _ _ Hd) as (r & Hstep & Hr).
  destruct (utf8_step_lead _ _ _ Hstep) as (Heq & Hlen & _). split; [|lia].
  assert (Hdrop : drop (i + lead_len b) s = r).
  { rewrite <-drop_drop, (drop_S _ _ _ Hi), Heq. apply drop_app_length'. rewrite length_take. lia. }
  apply valid_boundary; [|by rewrite Hdrop].
  pose proof (f_equal length (drop_S s b i Hi)) as Hl. rewrite length_drop in Hl. lia.
Qed.

Lemma boundary_ascii s i b : s !! i = Some b → 0 ≤ b < 128 → is_boundary s i = true.
Proof. intros Hi Hb. unfold is_boundary. rewrite Hi. apply negb_true_iff, is_cont_false. lia. Qed.

Lemma boundary_after_ascii s i b :
  utf8_valid s = true → s !! i = Some b → 0 ≤ b < 128 → is_boundary s (S i) = true.
Proof.
  intros Hv Hi Hb. pose proof (boundary_ascii s i b Hi Hb) as H.
  destruct (boundary_next s i b Hv H Hi) as [Hn _]. unfold lead_len in Hn.
  rewrite (proj2 (Z.ltb_lt b 128)) in Hn by lia. by rewrite Nat.add_1_r in Hn.
Qed.

(** A run of ASCII bytes leads from a boundary to a boundary. *)
Lemma boundary_ascii_run s i n :
  utf8_valid s = true → is_boundary s i = true → (i + n ≤ length s)%nat →
  Forall (λ b, 0 ≤ b < 128) (take n (drop i s)) → is_boundary s (i + n) = true.
Proof.
  intros Hv Hb Hle Hall. destruct n as [|n]; [by rewrite Nat.add_0_r|].
  destruct (lookup_lt_is_Some_2 s (i + n)) as [b Hi]; [lia|].
  rewrite Nat.add_succ_r. apply (boundary_after_ascii s _ b); [done|done|].
  rewrite Forall_forall in Hall. apply Hall. apply list_elem_of_lookup. exists n.
  rewrite lookup_take_lt, lookup_drop by lia. done.
Qed.

Lemma span_ascii_boundary s p i :
  utf8_valid s = true → is_boundary s i = true → (∀ b, p b = true → 0 ≤ b < 128) →
  is_boundary s (i + span_len p (drop i s)) = true.
Proof.
  intros Hv Hb Hp. pose proof (is_boundary_le _ _ Hb). apply boundary_ascii_run; [done|done| |].
  - pose proof (span_len_le p (drop i s)). rewrite length_drop in *. lia.
  - eapply Forall_impl; [apply span_len_take|]. auto.
Qed.

(** A valid prefix can be removed. *)
Lemma utf8_valid_app l r : utf8_valid l = true → utf8_valid (l ++ r) = utf8_valid r.
Proof.
  induction l as [l IH] using (induction_ltof1 _ length); unfold ltof in IH.
  destruct l as [|b0 l]; [done|]. cbn [app utf8_valid].
  destruct (in_range 0 0x7F b0); [intros; apply IH; simpl; auto; lia|].
  destruct l as [|b1 l]; [done|]. cbn [app].
  destruct (in_range 0xC2 0xDF b0).
  { intros [-> H]%andb_prop. apply IH; simpl; auto; lia. }
  destruct l as [|b2 l]; [done|]. cbn [app].
  destruct (bool_decide (b0 = 0xE0)); [intros [H1 H]%andb_prop; rewrite H1; apply IH; simpl; auto; lia|].
  destruct (bool_decide (b0 = 0xED)); [intros [H1 H]%andb_prop; rewrite H1; apply IH; simpl; auto; lia|].
  destruct (in_range 0xE1 0xEF b0).
  { intros [H1 H]%andb_prop; rewrite H1; apply IH; simpl; auto; lia. }
  destruct l as [|b3 l]; [done|]. cbn [app].
  intros [H1 H]%andb_prop; rewrite H1; apply IH; simpl; auto; lia.
Qed.

(** ** [split] at a byte is the inverse of joining with it. *)

Fixpoint join_byte (c : Z) (ws : list str) : str :=
  match ws with
  | [] => []
  | [w] => w
  | w :: ws => w ++ c :: join_byte c ws
  end.

Lemma join_byte_cons c w ws : ws ≠ [] → join_byte c (w :: ws) = w ++ c :: join_byte c ws.
Proof. by destruct ws. Qed.

Lemma split_byte_ne c s : split_byte c s ≠ [].
Proof. destruct s as [|b s]; simpl; [done|]. case_ltb; [done|]. by destruct (split_byte c s). Qed.

Lemma split_byte_clean c s : Forall (λ w, c ∉ w) (split_byte c s).
Proof.
  induction s as [|b s IH]; simpl; [by repeat constructor; apply not_elem_of_nil|].
  case_ltb; [constructor; [apply not_elem_of_nil|done]|].
  destruct (split_byte c s) as [|w ws]; [by constructor; [apply not_elem_of_cons; split; [|apply not_elem_of_nil]|]|].
  apply Forall_cons in IH as [Hw Hws]. constructor; [|done]. rewrite not_elem_of_cons. auto.
Qed.

Lemma join_split c s : join_byte c (split_byte c s) = s.
Proof.
  induction s as [|b s IH]; simpl; [done|].
  pose proof (split_byte_ne c s). case_ltb.
  - rewrite join_byte_cons by done. simpl. congruence.
  - destruct (split_byte c s) as [|w [|w' ws]]; [done| |]; simpl in *; congruence.
Qed.

Lemma split_byte_app c w s : c ∉ w → split_byte c (w ++ c :: s) = w :: split_byte c s.
Proof.
  induction w as [|b w IH]; simpl; intros Hw; [by rewrite Z.eqb_refl|].
  apply not_elem_of_cons in Hw as [Hb Hw]. rewrite IH by done. case_ltb; congruence.
Qed.

Lemma split_byte_word c w : c ∉ w → split_byte c w = [w].
Proof.
  induction w as [|b w IH]; simpl; intros Hw; [done|].
  apply not_elem_of_cons in Hw as [Hb Hw]. rewrite IH by done. case_ltb; congruence.
Qed.

Lemma split_join c ws : ws ≠ [] → Forall (λ w, c ∉ w) ws → split_byte c (join_byte c ws) = ws.
Proof.
  intros Hne Hws. induction Hws as [|w ws Hw Hws IH]; [done|].
  destruct ws as [|w' ws]; [by apply split_byte_word|].
  rewrite join_byte_cons by done. rewrite split_byte_app by done. by rewrite IH.
Qed.

Lemma split_byte_snoc c s : split_byte c (s ++ [c]) = split_byte c s ++ [[]].
Proof.
  induction s as [|b s IH]; simpl; [by rewrite Z.eqb_refl|].
  rewrite IH. case_ltb; [done|]. pose proof (split_byte_ne c s). by destruct (split_byte c s).
Qed.

Lemma ends_with_spec s p : ends_with s p = true ↔ ∃ r, s = r ++ p.
Proof.
  unfold ends_with. rewrite starts_with_spec. split; intros [r Hr].
  - exists (reverse r). apply (f_equal reverse) in Hr. by rewrite reverse_app, !reverse_involutive in Hr.
  - exists (reverse r). by rewrite Hr, reverse_app.
Qed.

Lemma split_once_Some c s l r : split_once c s = Some (l, r) ↔ s = l ++ c :: r ∧ c ∉ l.
Proof.
  revert l r. induction s as [|b s IH]; intros l r; simpl; [split; [done|intros [? _]; by destruct l]|].
  case_ltb; [subst b; split; [intros; simplify_eq; split; [done|apply not_elem_of_nil]|]|].
  - intros [E Hl]. destruct l as [|b l]; simplify_eq/=; [done|]. by apply not_elem_of_cons in Hl as [? _].
  - rewrite fmap_Some. split.
    + intros ([l' r'] & H%IH & ?). simplify_eq. destruct H as [-> H]. split; [done|].
      rewrite not_elem_of_cons. auto.
    + intros [E Hl]. destruct l as [|b' l]; simplify_eq/=. apply not_elem_of_cons in Hl as [_ Hl].
      exists (l, r). split; [by apply IH|done].
Qed.

Lemma rsplit_once_Some c s l r : rsplit_once c s = Some (l, r) ↔ s = l ++ c :: r ∧ c ∉ r.
Proof.
  unfold rsplit_once. rewrite fmap_Some. split.
  - intros ([r' l'] & [E Hr]%split_once_Some & ?). simplify_eq. apply (f_equal reverse) in E.
    rewrite reverse_involutive, reverse_app, reverse_cons, <-app_assoc in E. by rewrite elem_of_reverse.
  - intros [-> Hr]. exists (reverse r, reverse l). rewrite !reverse_involutive. split; [|done].
    apply split_once_Some. rewrite reverse_app, reverse_cons, <-app_assoc, elem_of_reverse. done.
Qed.

Lemma strip_suffix_Some p s r : strip_suffix p s = Some r ↔ s = r ++ p.
Proof.
  unfold strip_suffix. rewrite fmap_Some. split.
  - intros (r' & E%strip_prefix_Some & ->). apply (f_equal reverse) in E.
    by rewrite reverse_involutive, reverse_app, reverse_involutive in E.
  - intros ->. exists (reverse r). by rewrite strip_prefix_Some, reverse_app, reverse_involutive.
Qed.
