(* ===== verification/Json.v ===== *)
(** * The JSON data model of the wire layer

    [serde_json] is an external crate, so what [canonical_cbor.rs] uses of it is
    an interface: the operations of [Number] and of an order-preserving [Map] as
    the class [JsonLib], their documented behaviour as the class [JsonLibLaws].
    [Value] is the enumeration the source matches on; an object is the list of
    its entries in iteration order. *)

From S2P Require Import Prelude Utf8.
From stdpp Require Import options.

(** Bit pattern of a finite [f64]: the exponent field is not all ones. *)
Definition f64_finite (bits : Z) : bool :=
  negb (Z.land (Z.shiftr bits 52) 0x7FF =? 0x7FF).

Class JsonLib := {
  Number : Type;
  as_u64 : Number → option Z;
  as_i64 : Number → option Z;
  (** [as_f64] followed by [to_bits]. *)
  as_f64_bits : Number → option Z;
  number_of_u64 : Z → Number;
  number_of_i64 : Z → Number;
  (** [Number::from_f64(f64::from_bits(_))]. *)
  number_of_f64_bits : Z → option Number;
  (** [Map::insert] of an order-preserving map. *)
  map_insert : ∀ V : Type, list (str * V) → str → V → list (str * V);
}.

#[warnings="-register-all"]
Inductive Value {JL : JsonLib} : Type :=
| Null
| Bool (b : bool)
| Num (n : Number)
| Str (s : str)
| Array (items : list Value)
| Object (entries : list (str * Value)).

(** Documented behaviour of the crate: a number is an unsigned 64-bit integer, a
    negative signed 64-bit integer or a finite double, each accessor succeeds on
    its own kind, and inserting a fresh key appends while inserting a present key
    replaces the value in place. *)
Class JsonLibLaws {JL : JsonLib} := {
  as_u64_of_u64 n : 0 ≤ n ≤ U64_MAX → as_u64 (number_of_u64 n) = Some n;
  as_u64_of_i64 n : - 2 ^ 63 ≤ n < 0 → as_u64 (number_of_i64 n) = None;
  as_i64_of_i64 n : - 2 ^ 63 ≤ n < 0 → as_i64 (number_of_i64 n) = Some n;
  of_f64_finite b : 0 ≤ b ≤ U64_MAX → is_Some (number_of_f64_bits b) ↔ f64_finite b = true;
  as_u64_of_f64 b n : number_of_f64_bits b = Some n → as_u64 n = None;
  as_i64_of_f64 b n : number_of_f64_bits b = Some n → as_i64 n = None;
  as_f64_of_f64 b n : 0 ≤ b ≤ U64_MAX → number_of_f64_bits b = Some n → as_f64_bits n = Some b;
  number_cases n :
    (∃ z, 0 ≤ z ≤ U64_MAX ∧ n = number_of_u64 z) ∨
    (∃ z, - 2 ^ 63 ≤ z < 0 ∧ n = number_of_i64 z) ∨
    (∃ b, 0 ≤ b ≤ U64_MAX ∧ number_of_f64_bits b = Some n);
  map_insert_fresh V (m : list (str * V)) k v : k ∉ m.*1 → map_insert V m k v = m ++ [(k, v)];
  map_insert_present V (m1 m2 : list (str * V)) k v v' :
    k ∉ m1.*1 → map_insert V (m1 ++ (k, v) :: m2) k v' = m1 ++ (k, v') :: m2;
}.

(** Induction over nested values. *)
Section ValueInd.
Context {JL : JsonLib} (P : Value → Prop).
Hypothesis HNull : P Null.
Hypothesis HBool : ∀ b, P (Bool b).
Hypothesis HNum : ∀ n, P (Num n).
Hypothesis HStr : ∀ s, P (Str s).
Hypothesis HArray : ∀ items, Forall P items → P (Array items).
Hypothesis HObject : ∀ entries, Forall (λ e, P e.2) entries → P (Object entries).

Fixpoint Value_rect' (v : Value) : P v :=
  match v with
  | Null => HNull
  | Bool b => HBool b
  | Num n => HNum n
  | Str s => HStr s
  | Array items =>
      HArray items ((fix go l : Forall P l :=
        match l with [] => Forall_nil_2 _ | x :: l => Forall_cons_2 _ _ _ (Value_rect' x) (go l) end) items)
  | Object entries =>
      HObject entries ((fix go l : Forall (λ e, P e.2) l :=
        match l with [] => Forall_nil_2 _ | e :: l => Forall_cons_2 _ _ _ (Value_rect' e.2) (go l) end) entries)
  end.
End ValueInd.

(** ** A concrete instance

    The three-constructor representation; it discharges the laws, so that the
    theorems stated over the interface can be evaluated. *)

Module StdJson.
Definition u64_ok (n : Z) : bool := bool_decide (0 ≤ n ≤ U64_MAX).
Definition neg_ok (n : Z) : bool := bool_decide (- 2 ^ 63 ≤ n < 0).
Definition f64_ok (b : Z) : bool := f64_finite b && u64_ok b.

Inductive num : Type :=
| PosInt (n : Z) (H : Is_true (u64_ok n))
| NegInt (n : Z) (H : Is_true (neg_ok n))
| Float (bits : Z) (H : Is_true (f64_ok bits)).

Definition of_u64 (n : Z) : num :=
  match decide (Is_true (u64_ok n)) with left H => PosInt n H | right _ => PosInt 0 I end.
Definition of_i64 (n : Z) : num :=
  match decide (Is_true (neg_ok n)) with left H => NegInt n H | right _ => of_u64 n end.
Definition of_f64_bits (bits : Z) : option num :=
  match decide (Is_true (f64_ok bits)) with left H => Some (Float bits H) | right _ => None end.

Fixpoint insert {V} (m : list (str * V)) (k : str) (v : V) : list (str * V) :=
  match m with
  | [] => [(k, v)]
  | (k', v') :: m => if decide (k = k') then (k, v) :: m else (k', v') :: insert m k v
  end.

#[export] Instance lib : JsonLib := {|
  Number := num;
  as_u64 n := match n with PosInt z _ => Some z | _ => None end;
  as_i64 n := match n with
              | PosInt z _ => if z <=? 2 ^ 63 - 1 then Some z else None
              | NegInt z _ => Some z
              | _ => None
              end;
  as_f64_bits n := match n with Float b _ => Some b | _ => None end;
  number_of_u64 := of_u64;
  number_of_i64 := of_i64;
  number_of_f64_bits := of_f64_bits;
  map_insert V := insert;
|}.

Lemma of_f64_bits_Some b n :
  of_f64_bits b = Some n → ∃ H, n = Float b H.
Proof. unfold of_f64_bits. case_decide as Hd; intros [= <-]. by exists Hd. Qed.

Lemma of_u64_PosInt n : 0 ≤ n ≤ U64_MAX → ∃ H, of_u64 n = PosInt n H.
Proof.
  intros Hn. unfold of_u64. case_decide as Hd; [exists Hd; reflexivity|].
  exfalso. apply Hd. unfold u64_ok. apply bool_decide_pack. exact Hn.
Qed.

Lemma of_i64_NegInt n : - 2 ^ 63 ≤ n < 0 → ∃ H, of_i64 n = NegInt n H.
Proof.
  intros Hn. unfold of_i64. case_decide as Hd; [exists Hd; reflexivity|].
  exfalso. apply Hd. unfold neg_ok. apply bool_decide_pack. exact Hn.
Qed.

Lemma number_cases' (n : num) :
  (∃ z, 0 ≤ z ≤ U64_MAX ∧ n = of_u64 z) ∨ (∃ z, - 2 ^ 63 ≤ z < 0 ∧ n = of_i64 z) ∨
  (∃ b, 0 ≤ b ≤ U64_MAX ∧ of_f64_bits b = Some n).
Proof.
  destruct n as [n H|n H|b H].
  - left. exists n. pose proof (bool_decide_unpack _ H) as Hn. split; [done|].
    destruct (of_u64_PosInt n Hn) as [H' ->]. f_equal. apply proof_irrel.
  - right; left. exists n. pose proof (bool_decide_unpack _ H) as Hn. split; [done|].
    destruct (of_i64_NegInt n Hn) as [H' ->]. f_equal. apply proof_irrel.
  - right; right. exists b. destruct (andb_prop_elim _ _ H) as [_ Hb].
    split; [exact (bool_decide_unpack _ Hb)|]. unfold of_f64_bits.
    case_decide as Hd; [|by exfalso; apply Hd]. do 2 f_equal. apply proof_irrel.
Qed.

#[export] Instance laws : JsonLibLaws.
Proof.
  split; cbn -[Z.pow U64_MAX].
  - intros n [H ->]%of_u64_PosInt. reflexivity.
  - intros n [H ->]%of_i64_NegInt. reflexivity.
  - intros n [H ->]%of_i64_NegInt. reflexivity.
  - intros b Hb. unfold of_f64_bits. case_decide as Hd.
    + split; [|intros _; eexists; reflexivity]. intros _. by apply andb_prop_elim, proj1, Is_true_true in Hd.
    + split; [intros [? [=]]|]. intros Hf. exfalso. apply Hd.
      apply andb_prop_intro. split; [by rewrite Hf|]. unfold u64_ok. apply bool_decide_pack. exact Hb.
  - intros b n [H ->]%of_f64_bits_Some. reflexivity.
  - intros b n [H ->]%of_f64_bits_Some. reflexivity.
  - intros b n ? [H ->]%of_f64_bits_Some. reflexivity.
  - apply number_cases'.
  - intros V m k v Hk. induction m as [|[k' v'] m IH]; simpl in *; [done|].
    rewrite decide_False by set_solver. rewrite IH by set_solver. done.
  - intros V m1 m2 k v v' Hk. induction m1 as [|[k' w'] m1 IH]; simpl in *.
    + by rewrite decide_True.
    + rewrite decide_False by set_solver. rewrite IH by set_solver. done.
Qed.
End StdJson.
