(* ===== verification/CanonicalCbor.v ===== *)
(** * Canonical CBOR

    [crates/ostadix-api/src/canonical_cbor.rs]: the encoder of JSON values with
    length-then-bytes ordered map keys, the length oracle used by quota checks,
    the decoder with its optional limits, and the signing preimage. *)

From S2P Require Import Prelude Utf8 Json.
From stdpp Require Import options.

(** ** Errors *)

Inductive CborKind : Type := ByteString | TextString | ArrayKind | MapKind.

Inductive CborError : Type :=
| LowerFailed
| LiftFailed
| UnsupportedNumber
| EncodedLengthOverflow
| SigningTooLarge
| PayloadTooLarge (len max : Z)
| TrailingBytes (n : Z)
| DepthExceeded (depth max : Z)
| ItemCounterOverflow
| ItemCountExceeded (max : Z)
| DeclaredTooLong (kind : CborKind) (len max : Z)
| BudgetExceeded (kind : CborKind) (len remaining : Z)
| NegativeOutOfRange
| TextNotUtf8
| MapKeyNotText
| UnsupportedMajor (major : Z)
| UnsupportedSimple (value : Z)
| NonFiniteF32
| NonFiniteF64
| IndefiniteLength
| BadLengthDiscriminator (value : Z)
| UnexpectedEnd
| OffsetOverflow.

(** Results of the pure (stateless) encoder: a value or an error. *)
Abbreviation result := (sum CborError).

Definition ok {A} (a : A) : result A := inr a.
Definition err {A} (e : CborError) : result A := inl e.

Definition and_then {A B} (r : result A) (k : A → result B) : result B :=
  match r with inl e => inl e | inr a => k a end.

Notation "'let?' x ':=' r 'in' k" := (and_then r (λ x, k))
  (at level 10, x pattern, r at level 100, k at level 200, only parsing) : effect_scope.

(** ** Encoder *)

Definition encode_type_len (major len : Z) : str :=
  let major := Z.shiftl major 5 in
  if len <=? 23 then [Z.lor major len]
  else if len <=? 0xff then [Z.lor major 24; len]
  else if len <=? 0xffff then Z.lor major 25 :: be_bytes 2 len
  else if len <=? 0xffffffff then Z.lor major 26 :: be_bytes 4 len
  else Z.lor major 27 :: be_bytes 8 len.

Definition encode_text (text : str) : str := encode_type_len 3 (Z.of_nat (length text)) ++ text.

(** Order of the encoded keys of an object: by length, then bytewise. *)
Fixpoint lex_le (a b : str) : bool :=
  match a, b with
  | [], _ => true
  | _ :: _, [] => false
  | x :: a, y :: b => (x <? y) || ((x =? y) && lex_le a b)
  end.

Definition key_le (left right : str) : Prop :=
  (length left < length right)%nat ∨ (length left = length right ∧ lex_le left right = true).

Definition entry_le {A} (left right : str * A) : Prop := key_le left.1 right.1.

#[export] Instance key_le_dec : RelDecision key_le.
Proof. intros a b. unfold key_le. apply _. Defined.
#[export] Instance entry_le_dec {A} : RelDecision (@entry_le A).
Proof. intros a b. unfold entry_le. apply _. Defined.

Section Encoder.
Context {JL : JsonLib}.

Definition encode_number (number : Number) : result str :=
  match as_u64 number with
  | Some value => ok (encode_type_len 0 value)
  | None =>
      match as_i64 number with
      | Some value =>
          if 0 <=? value then ok (encode_type_len 0 value)
          else ok (encode_type_len 1 (-1 - value))
      | None =>
          match as_f64_bits number with
          | Some bits => ok (0xfb :: be_bytes 8 bits)
          | None => err UnsupportedNumber
          end
      end
  end.

(** Concatenation of already encoded items, stopping at the first error. *)
Fixpoint concat_results (rs : list (result str)) : result str :=
  match rs with
  | [] => ok []
  | r :: rs => let? x := r in let? xs := concat_results rs in ok (x ++ xs)
  end.

(** The entries of an object are sorted by encoded key before any value is
    emitted; each entry carries the (suspended) encoding of its value. *)
Fixpoint encode_value (value : Value) : result str :=
  match value with
  | Null => ok [0xf6]
  | Bool false => ok [0xf4]
  | Bool true => ok [0xf5]
  | Num number => encode_number number
  | Str text => ok (encode_text text)
  | Array items =>
      let? body := concat_results (encode_value <$> items) in
      ok (encode_type_len 4 (Z.of_nat (length items)) ++ body)
  | Object entries =>
      let entries := merge_sort entry_le
        ((λ e : str * Value, (encode_text e.1, encode_value e.2)) <$> entries) in
      let? body := concat_results
        ((λ e : str * result str, let? v := e.2 in ok (e.1 ++ v)) <$> entries) in
      ok (encode_type_len 5 (Z.of_nat (length entries)) ++ body)
  end.

(** ** Length oracle *)

Definition encoded_type_len_len (len : Z) : Z :=
  if len <=? 23 then 1
  else if len <=? 0xff then 2
  else if len <=? 0xffff then 3
  else if len <=? 0xffffffff then 5
  else 9.

Definition checked_encoded_len_add (left right : Z) : result Z :=
  if left + right <=? USIZE_MAX then ok (left + right) else err EncodedLengthOverflow.

Definition encoded_number_len (number : Number) : result Z :=
  match as_u64 number with
  | Some value => ok (encoded_type_len_len value)
  | None =>
      match as_i64 number with
      | Some value =>
          ok (encoded_type_len_len (if 0 <=? value then value else -1 - value))
      | None =>
          match as_f64_bits number with
          | Some _ => ok 9
          | None => err UnsupportedNumber
          end
      end
  end.

Definition encoded_text_len (text : str) : result Z :=
  checked_encoded_len_add (encoded_type_len_len (Z.of_nat (length text))) (Z.of_nat (length text)).

Fixpoint encoded_value_len (value : Value) : result Z :=
  match value with
  | Null | Bool _ => ok 1
  | Num number => encoded_number_len number
  | Str text => encoded_text_len text
  | Array items =>
      foldl (λ acc r, let? total := acc in let? n := r in checked_encoded_len_add total n)
        (ok (encoded_type_len_len (Z.of_nat (length items))))
        (encoded_value_len <$> items)
  | Object entries =>
      foldl (λ acc e, let? total := acc in
                      let? k := encoded_text_len (e : str * result Z).1 in
                      let? total := checked_encoded_len_add total k in
                      let? n := e.2 in
                      checked_encoded_len_add total n)
        (ok (encoded_type_len_len (Z.of_nat (length entries))))
        ((λ e, (e.1, encoded_value_len e.2)) <$> entries)
  end.
End Encoder.

(** [domain || u64_be(body.len()) || body]. *)
Definition signing_preimage (domain body : str) : result str :=
  let body_len := Z.of_nat (length body) in
  if U64_MAX <? body_len then err SigningTooLarge
  else if USIZE_MAX <? Z.of_nat (length domain) + 8 + body_len then err SigningTooLarge
  else ok (domain ++ be_bytes 8 body_len ++ body).

(** ** Decoder *)

Record DecodeLimits : Type := {
  max_bytes : Z;
  max_items : Z;
  max_depth : Z;
}.

(** The mutable fields of [CborDecoder]; payload and limits are fixed. *)
Record CborDecoder : Type := {
  offset : nat;
  decoded_items : Z;
}.

(** [f32::from_bits(_) as f64] on bit patterns. *)
Definition f32_to_f64_bits (bits : Z) : Z :=
  let sign := Z.shiftl (Z.shiftr bits 31) 63 in
  let exponent := Z.land (Z.shiftr bits 23) 0xff in
  let mantissa := Z.land bits 0x7fffff in
  if exponent =? 0xff then sign + Z.shiftl 0x7ff 52 + Z.shiftl mantissa 29
  else if exponent =? 0 then
    if mantissa =? 0 then sign
    else
      let k := Z.log2 mantissa in
      sign + Z.shiftl (k + 874) 52 + Z.shiftl (mantissa - 2 ^ k) (52 - k)
  else sign + Z.shiftl (exponent + 896) 52 + Z.shiftl mantissa 29.

Section Decoder.
Context {JL : JsonLib} (payload : str) (limits : option DecodeLimits).

Definition decoder_new : CborDecoder := {| offset := 0; decoded_items := 0 |}.

Definition set_offset (o : nat) (d : CborDecoder) : CborDecoder :=
  {| offset := o; decoded_items := decoded_items d |}.

Definition set_items (n : Z) (d : CborDecoder) : CborDecoder :=
  {| offset := offset d; decoded_items := n |}.

Definition finish : M CborDecoder CborError unit :=
  let* self := get in
  if decide (offset self = length payload) then ret tt
  else fail (TrailingBytes (Z.of_nat (length payload) - Z.of_nat (offset self))).

(** Shared tail of [note_item] and [reserve_embedded_items]. *)
Definition count_items (l : DecodeLimits) (count : Z) : M CborDecoder CborError unit :=
  let* self := get in
  let n := decoded_items self + count in
  if USIZE_MAX <? n then fail ItemCounterOverflow
  else
    modify (set_items n) ;;*
    if max_items l <? n then fail (ItemCountExceeded (max_items l)) else ret tt.

Definition note_item (depth : Z) : M CborDecoder CborError unit :=
  match limits with
  | None => ret tt
  | Some l =>
      if max_depth l <? depth then fail (DepthExceeded depth (max_depth l))
      else count_items l 1
  end.

Definition reserve_embedded_items (count : Z) : M CborDecoder CborError unit :=
  match limits with
  | None => ret tt
  | Some l => count_items l count
  end.

Definition read_u8 : M CborDecoder CborError Z :=
  let* self := get in
  match payload !! offset self with
  | None => fail UnexpectedEnd
  | Some byte => modify (set_offset (S (offset self))) ;;* ret byte
  end.

Definition read_bytes (len : Z) : M CborDecoder CborError str :=
  let* self := get in
  let end_ := Z.of_nat (offset self) + len in
  if USIZE_MAX <? end_ then fail OffsetOverflow
  else if Z.of_nat (length payload) <? end_ then fail UnexpectedEnd
  else
    modify (set_offset (Z.to_nat end_)) ;;*
    ret (take (Z.to_nat len) (drop (offset self) payload)).

Definition read_array (n : nat) : M CborDecoder CborError str := read_bytes (Z.of_nat n).

Definition read_len (additional : Z) : M CborDecoder CborError Z :=
  if additional <=? 23 then ret additional
  else if additional =? 24 then read_u8
  else if additional =? 25 then let* bytes := read_array 2 in ret (be_value bytes)
  else if additional =? 26 then let* bytes := read_array 4 in ret (be_value bytes)
  else if additional =? 27 then let* bytes := read_array 8 in ret (be_value bytes)
  else if additional =? 31 then fail IndefiniteLength
  else fail (BadLengthDiscriminator additional).

Definition read_sized_len (additional : Z) (kind : CborKind) (minimum_bytes_per_item : Z) :
    M CborDecoder CborError Z :=
  let* len := read_len additional in
  let* self := get in
  let remaining := Z.of_nat (length payload - offset self) in
  let maximum_from_input := remaining / minimum_bytes_per_item in
  if maximum_from_input <? len then fail (DeclaredTooLong kind len maximum_from_input)
  else
    match limits with
    | None => ret len
    | Some l =>
        let remaining_items := Z.max 0 (max_items l - decoded_items self) in
        if remaining_items <? len then fail (BudgetExceeded kind len remaining_items)
        else ret len
    end.

Definition decode_simple (additional : Z) : M CborDecoder CborError Value :=
  if additional =? 20 then ret (Bool false)
  else if additional =? 21 then ret (Bool true)
  else if additional =? 22 then ret Null
  else if additional =? 26 then
    let* bytes := read_bytes 4 in
    match number_of_f64_bits (f32_to_f64_bits (be_value bytes)) with
    | Some number => ret (Num number)
    | None => fail NonFiniteF32
    end
  else if additional =? 27 then
    let* bytes := read_bytes 8 in
    match number_of_f64_bits (be_value bytes) with
    | Some number => ret (Num number)
    | None => fail NonFiniteF64
    end
  else fail (UnsupportedSimple additional).

(** [for _ in 0..len] of the array case. *)
Fixpoint decode_items (dec : M CborDecoder CborError Value) (len : nat) :
    M CborDecoder CborError (list Value) :=
  match len with
  | O => ret []
  | S len =>
      let* item := dec in
      let* items := decode_items dec len in
      ret (item :: items)
  end.

(** [for _ in 0..len] of the map case, inserting into [map]. *)
Fixpoint decode_entries (dec : M CborDecoder CborError Value) (len : nat)
    (map : list (str * Value)) : M CborDecoder CborError (list (str * Value)) :=
  match len with
  | O => ret map
  | S len =>
      let* key := dec in
      match key with
      | Str key =>
          let* value := dec in
          decode_entries dec len (map_insert Value map key value)
      | _ => fail MapKeyNotText
      end
  end.

Definition saturating_succ (depth : Z) : Z := Z.min USIZE_MAX (depth + 1).

(** Fuel bounds the nesting depth only; [S (length payload)] is always enough. *)
Fixpoint decode_value_at_depth (fuel : nat) (depth : Z) : M CborDecoder CborError Value :=
  match fuel with
  | O => no_fuel
  | S fuel =>
      note_item depth ;;*
      let* initial := read_u8 in
      let major := Z.shiftr initial 5 in
      let additional := Z.land initial 0x1f in
      if major =? 0 then
        let* n := read_len additional in ret (Num (number_of_u64 n))
      else if major =? 1 then
        let* raw := read_len additional in
        let value := -1 - raw in
        if (- 2 ^ 63 <=? value) && (value <? 2 ^ 63) then ret (Num (number_of_i64 value))
        else fail NegativeOutOfRange
      else if major =? 2 then
        let* len := read_sized_len additional ByteString 1 in
        reserve_embedded_items len ;;*
        let* bytes := read_bytes len in
        ret (Array ((λ byte, Num (number_of_u64 byte)) <$> bytes))
      else if major =? 3 then
        let* len := read_sized_len additional TextString 1 in
        let* bytes := read_bytes len in
        if utf8_valid bytes then ret (Str bytes) else fail TextNotUtf8
      else if major =? 4 then
        let* len := read_sized_len additional ArrayKind 1 in
        let* items := decode_items (decode_value_at_depth fuel (saturating_succ depth)) (Z.to_nat len) in
        ret (Array items)
      else if major =? 5 then
        let* len := read_sized_len additional MapKind 2 in
        let* map := decode_entries (decode_value_at_depth fuel (saturating_succ depth)) (Z.to_nat len) [] in
        ret (Object map)
      else if major =? 7 then decode_simple additional
      else fail (UnsupportedMajor major)
  end.

Definition decode_value : M CborDecoder CborError Value :=
  decode_value_at_depth (S (length payload)) 0.

(** The common body of [decode] and [decode_bounded]. *)
Definition run_decoder : outcome CborError Value :=
  snd ((let* value := decode_value in finish ;;* ret value) decoder_new).
End Decoder.

(** ** Entry points, over the [Serialize]/[Deserialize] implementation of a
    message type [T] ([serde_json::to_value] and [from_value]). *)

Section EntryPoints.
Context {JL : JsonLib} {T : Type} (to_value : T → option Value) (from_value : Value → option T).

Definition encode (message : T) : result str :=
  match to_value message with
  | Some value => encode_value value
  | None => err LowerFailed
  end.

Definition encoded_len (message : T) : result Z :=
  match to_value message with
  | Some value => encoded_value_len value
  | None => err LowerFailed
  end.

Definition lift_value (r : outcome CborError Value) : outcome CborError T :=
  match r with
  | Ok value => match from_value value with Some m => Ok m | None => Err LiftFailed end
  | Err e => Err e
  | Panic => Panic
  | NoFuel => NoFuel
  end.

Definition decode (payload : str) : outcome CborError T :=
  lift_value (run_decoder payload None).

Definition decode_bounded (payload : str) (limits : DecodeLimits) : outcome CborError T :=
  if max_bytes limits <? Z.of_nat (length payload)
  then Err (PayloadTooLarge (Z.of_nat (length payload)) (max_bytes limits))
  else lift_value (run_decoder payload (Some limits)).
End EntryPoints.
