(* ===== verification/CborFacts.v ===== *)
(** * Correctness of the canonical CBOR codec

    The encoder and the decoder are inverse on well-formed values up to the
    order of object entries, the length oracle is exact, the encoding does not
    depend on entry order, and the bounded decoder refines the unbounded one. *)

From S2P Require Import Prelude Utf8 Json CanonicalCbor.
From stdpp Require Import options.

(** ** The order on encoded keys *)

Lemma lex_le_refl a : lex_le a a = true.
Proof. induction a; simpl; [done|]. rewrite Z.eqb_refl, IHa. by rewrite orb_true_r. Qed.

Lemma lex_le_trans a b c : lex_le a b = true → lex_le b c = true → lex_le a c = true.
Proof.
  revert b c. induction a as [|x a IH]; intros [|y b] [|z c]; simpl; try done.
  rewrite !orb_true_iff, !andb_true_iff, !Z.ltb_lt, !Z.eqb_eq.
  intros [?|[-> ?]] [?|[-> ?]]; eauto 6 with lia.
Qed.

Lemma lex_le_antisym a b : lex_le a b = true → lex_le b a = true → a = b.
Proof.
  revert b. induction a as [|x a IH]; intros [|y b]; simpl; try done.
  rewrite !orb_true_iff, !andb_true_iff, !Z.ltb_lt, !Z.eqb_eq.
  intros [?|[-> ?]] [?|[? ?]]; try lia. by rewrite (IH b).
Qed.

Lemma lex_le_total a b : lex_le a b = true ∨ lex_le b a = true.
Proof.
  revert b. induction a as [|x a IH]; intros [|y b]; simpl; auto.
  rewrite !orb_true_iff, !andb_true_iff, !Z.ltb_lt, !Z.eqb_eq.
  destruct (Z.lt_trichotomy x y) as [?|[->|?]]; auto. destruct (IH b); auto.
Qed.

#[export] Instance key_le_trans : Transitive key_le.
Proof.
  intros a b c [?|[? ?]] [?|[? ?]]; unfold key_le; try (left; lia).
  right. split; [lia|]. by eapply lex_le_trans.
Qed.

#[export] Instance key_le_total : Total key_le.
Proof.
  intros a b. unfold key_le.
  destruct (Nat.lt_trichotomy (length a) (length b)) as [?|[?|?]]; auto.
  destruct (lex_le_total a b); auto.
Qed.

Lemma key_le_antisym a b : key_le a b → key_le b a → a = b.
Proof. intros [?|[? ?]] [?|[? ?]]; try lia. by apply lex_le_antisym. Qed.

#[export] Instance entry_le_trans {A} : Transitive (@entry_le A).
Proof. intros a b c. apply key_le_trans. Qed.
#[export] Instance entry_le_total {A} : Total (@entry_le A).
Proof. intros a b. apply key_le_total. Qed.

(** Sorting entries with distinct keys forgets their original order. *)
Lemma merge_sort_entries_perm {A} (l1 l2 : list (str * A)) :
  NoDup l1.*1 → l1 ≡ₚ l2 → merge_sort entry_le l1 = merge_sort entry_le l2.
Proof.
  intros Hnd Hp.
  apply (StronglySorted_unique_strong entry_le).
  - intros [k1 a1] [k2 a2] Hx Hy H1 H2.
    pose proof (key_le_antisym _ _ H1 H2) as Heq. simpl in Heq. subst k2.
    rewrite merge_sort_Permutation in Hx, Hy. rewrite <-Hp in Hy.
    apply list_elem_of_lookup in Hx as [i Hi], Hy as [j Hj].
    assert (i = j) as ->; [|congruence].
    eapply (NoDup_lookup l1.*1); [done| |]; rewrite list_lookup_fmap; by rewrite ?Hi, ?Hj.
  - apply StronglySorted_merge_sort; apply _.
  - apply StronglySorted_merge_sort; apply _.
  - by rewrite !merge_sort_Permutation.
Qed.

(** ** Heads: a major type with its length *)

Lemma encode_type_len_length major len :
  Z.of_nat (length (encode_type_len major len)) = encoded_type_len_len len.
Proof.
  unfold encode_type_len, encoded_type_len_len.
  repeat case_match; simpl; rewrite ?be_bytes_length; done.
Qed.

Lemma encode_type_len_pos major len : (0 < length (encode_type_len major len))%nat.
Proof. unfold encode_type_len. repeat case_match; simpl; lia. Qed.

Lemma head_byte major x :
  0 ≤ major → 0 ≤ x < 32 →
  Z.shiftr (Z.lor (Z.shiftl major 5) x) 5 = major ∧ Z.land (Z.lor (Z.shiftl major 5) x) 0x1f = x.
Proof.
  intros Hm Hx. split.
  - rewrite Z.shiftr_lor, Z.shiftr_shiftl_l by lia. change (5 - 5) with 0.
    rewrite Z.shiftl_0_r, (Z.shiftr_div_pow2 x) by lia.
    rewrite (Z.div_small x) by (change (2 ^ 5) with 32; lia). apply Z.lor_0_r.
  - rewrite Z.land_lor_distr_l. change 0x1f with (Z.ones 5).
    rewrite !Z.land_ones, Z.shiftl_mul_pow2 by lia. change (2 ^ 5) with 32.
    rewrite Z.mod_mul, (Z.mod_small x) by lia. apply Z.lor_0_l.
Qed.

Section Decode.
Context (payload : str) (limits : option DecodeLimits).

Lemma read_u8_at s pre b post :
  payload = pre ++ b :: post → offset s = length pre →
  read_u8 payload s = (set_offset (S (offset s)) s, Ok b).
Proof.
  intros -> Ho. unfold read_u8, bind, get. by rewrite Ho, lookup_app_at.
Qed.

Lemma read_bytes_at s pre bs post :
  payload = pre ++ bs ++ post → offset s = length pre →
  Z.of_nat (length payload) ≤ USIZE_MAX →
  read_bytes payload (Z.of_nat (length bs)) s = (set_offset (offset s + length bs) s, Ok bs).
Proof.
  intros Hp Ho Hmax. unfold read_bytes, bind, get.
  assert (Z.of_nat (length pre) + Z.of_nat (length bs) ≤ Z.of_nat (length payload)).
  { rewrite Hp, !length_app. lia. }
  rewrite Ho. case_match; [lia|]. case_match; [lia|].
  unfold modify, ret. f_equal; [f_equal; lia|]. f_equal.
  rewrite Nat2Z.id, Hp. apply slice_app.
Qed.

(** Reading back an encoded head: the initial byte gives the major type, and
    [read_len] on its low bits gives the length. *)
Lemma read_head_at s major len pre post :
  0 ≤ major → 0 ≤ len ≤ U64_MAX →
  payload = pre ++ encode_type_len major len ++ post → offset s = length pre →
  Z.of_nat (length payload) ≤ USIZE_MAX →
  ∃ initial,
    read_u8 payload s = (set_offset (S (offset s)) s, Ok initial) ∧
    Z.shiftr initial 5 = major ∧
    read_len payload (Z.land initial 0x1f) (set_offset (S (offset s)) s) =
      (set_offset (offset s + length (encode_type_len major len)) s, Ok len).
Proof.
  intros Hm Hlen Hp Ho Hmax. unfold U64_MAX in Hlen.
  assert (∀ x n, 23 < x < 32 → x ≠ 24 → x ≠ 31 → 0 ≤ len < 256 ^ Z.of_nat n →
    (x = 25 ∧ n = 2%nat ∨ x = 26 ∧ n = 4%nat ∨ x = 27 ∧ n = 8%nat) →
    payload = pre ++ (Z.lor (Z.shiftl major 5) x :: be_bytes n len) ++ post →
    ∃ initial,
    read_u8 payload s = (set_offset (S (offset s)) s, Ok initial) ∧
    Z.shiftr initial 5 = major ∧
    read_len payload (Z.land initial 0x1f) (set_offset (S (offset s)) s) =
      (set_offset (offset s + S n) s, Ok len)) as Hwide.
  { intros x n Hx Hx24 Hx31 Hn Hcase Hp'. exists (Z.lor (Z.shiftl major 5) x).
    destruct (head_byte major x) as [Hs Hl]; [lia..|].
    split; [by eapply read_u8_at|]. split; [done|]. rewrite Hl.
    assert (read_array payload n (set_offset (S (offset s)) s) =
      (set_offset (S (offset s) + n) s, Ok (be_bytes n len))) as Hr.
    { unfold read_array. rewrite <-(be_bytes_length n len) at 1.
      rewrite (read_bytes_at _ (pre ++ [Z.lor (Z.shiftl major 5) x]) _ post); [|..|done].
      - by rewrite be_bytes_length.
      - rewrite Hp'. by rewrite <-!app_assoc.
      - simpl. rewrite length_app. simpl. lia. }
    unfold read_len. destruct (Z.leb_spec x 23); [lia|].
    destruct Hcase as [[-> ->]|[[-> ->]|[-> ->]]]; simpl;
      (erewrite bind_Ok by exact Hr); unfold ret; rewrite be_value_bytes by done;
      do 2 f_equal; lia. }
  unfold encode_type_len in *. cbv zeta in *.
  destruct (Z.leb_spec len 23); [|destruct (Z.leb_spec len 0xff);
    [|destruct (Z.leb_spec len 0xffff); [|destruct (Z.leb_spec len 0xffffffff)]]].
  - exists (Z.lor (Z.shiftl major 5) len). destruct (head_byte major len) as [Hs Hl]; [lia..|].
    split; [by eapply read_u8_at|]. split; [done|]. rewrite Hl. unfold read_len.
    destruct (Z.leb_spec len 23); [|lia]. simpl. unfold ret. do 2 f_equal. lia.
  - exists (Z.lor (Z.shiftl major 5) 24). destruct (head_byte major 24) as [Hs Hl]; [lia..|].
    split; [by eapply read_u8_at|]. split; [done|]. rewrite Hl. unfold read_len. simpl.
    rewrite (read_u8_at _ (pre ++ [Z.lor (Z.shiftl major 5) 24]) len post).
    + simpl. unfold set_offset. simpl. do 2 f_equal. lia.
    + rewrite Hp. by rewrite <-!app_assoc.
    + simpl. rewrite length_app. simpl. lia.
  - rewrite length_cons, be_bytes_length. apply (Hwide 25 2%nat); auto; lia.
  - rewrite length_cons, be_bytes_length. apply (Hwide 26 4%nat); auto; lia.
  - rewrite length_cons, be_bytes_length. apply (Hwide 27 8%nat); auto; lia.
Qed.
End Decode.

(** ** Values: well-formedness, canonical order, sizes *)

Section Values.
Context {JL : JsonLib}.

(** Entries of an object in the order the encoder emits them. *)
Definition text_le {A} (x y : str * A) : Prop := key_le (encode_text x.1) (encode_text y.1).
#[export] Instance text_le_dec {A} : RelDecision (@text_le A).
Proof. intros x y. unfold text_le. apply _. Defined.

(** Strings are UTF-8 and the keys of an object are distinct, as the Rust types
    [String] and [Map] guarantee. *)
Fixpoint value_wf (v : Value) : bool :=
  match v with
  | Null | Bool _ | Num _ => true
  | Str s => utf8_valid s
  | Array items => forallb value_wf items
  | Object entries =>
      bool_decide (NoDup entries.*1) && forallb (λ e, utf8_valid e.1 && value_wf e.2) entries
  end.

(** The value with every object in canonical key order. *)
Fixpoint canon (v : Value) : Value :=
  match v with
  | Array items => Array (canon <$> items)
  | Object entries => Object (merge_sort text_le ((λ e, (e.1, canon e.2)) <$> entries))
  | _ => v
  end.

(** Data items of the encoding: one per value and one per object key. *)
Fixpoint item_count (v : Value) : Z :=
  match v with
  | Array items => 1 + foldr (λ i n, item_count i + n) 0 items
  | Object entries => 1 + foldr (λ e n, 1 + item_count e.2 + n) 0 entries
  | _ => 1
  end.

Fixpoint nesting (v : Value) : Z :=
  match v with
  | Array items => foldr (λ i n, Z.max (1 + nesting i) n) 0 items
  | Object entries => foldr (λ e n, Z.max (1 + nesting e.2) n) 0 entries
  | _ => 0
  end.

(** A byte, as an element of the array that a byte string decodes to. *)
Definition byte_number (v : Value) : bool :=
  match v with
  | Num n => match as_u64 n with Some b => (0 <=? b) && (b <? 256) | None => false end
  | _ => false
  end.

(** The nesting of a value of which it is not known whether an array of bytes was
    written as an array or as a byte string, which is one item without levels. *)
Fixpoint level (v : Value) : Z :=
  match v with
  | Array items =>
      if forallb byte_number items then 0 else foldr (λ i n, Z.max (1 + level i) n) 0 items
  | Object entries => foldr (λ e n, Z.max (1 + level e.2) n) 0 entries
  | _ => 0
  end.

(** Item budget that suffices to decode the encoding of [v]: the budget test of
    [read_sized_len] charges a text string for its bytes as well. *)
Fixpoint item_budget (v : Value) : Z :=
  match v with
  | Str s => 1 + Z.of_nat (length s)
  | Array items => 1 + foldr (λ i n, item_budget i + n) 0 items
  | Object entries =>
      1 + foldr (λ e n, 1 + Z.of_nat (length e.1) + item_budget e.2 + n) 0 entries
  | _ => 1
  end.

Lemma nesting_nonneg v : 0 ≤ nesting v.
Proof.
  destruct v as [| | | |items|entries]; simpl; try lia.
  - induction items; simpl; lia.
  - induction entries; simpl; lia.
Qed.

Lemma counts_le v : 1 ≤ item_count v ≤ item_budget v.
Proof.
  induction v as [| | | |items IH|entries IH] using Value_rect'; simpl; try lia.
  - enough (0 ≤ foldr (λ i n, item_count i + n) 0 items
      ≤ foldr (λ i n, item_budget i + n) 0 items) by lia.
    induction IH; simpl; lia.
  - enough (0 ≤ foldr (λ e n, 1 + item_count e.2 + n) 0 entries
      ≤ foldr (λ e n, 1 + Z.of_nat (length e.1) + item_budget e.2 + n) 0 entries) by lia.
    induction IH as [|[k v] l]; simpl in *; lia.
Qed.

Lemma concat_results_Ok rs bs :
  concat_results rs = ok bs ↔ ∃ bss, rs = ok <$> bss ∧ bs = concat bss.
Proof.
  revert bs. induction rs as [|r rs IH]; intros bs; simpl.
  - split; [intros [= <-]; by exists []|]. intros (bss & Hr & ->). by destruct bss.
  - destruct r as [e|x]; simpl.
    + split; [done|]. intros ([|b bss] & [=] & ->).
    + split.
      * destruct (concat_results rs) as [e|xs]; simpl; [done|]. intros [= <-].
        destruct (proj1 (IH xs) eq_refl) as (bss & -> & ->). by exists (x :: bss).
      * intros ([|b bss] & [= -> ->] & ->).
        rewrite (proj2 (IH (concat bss))); [done|eauto].
Qed.

(** Every value encodes to at least one byte. *)
Lemma encode_value_pos v bs : encode_value v = ok bs → (0 < length bs)%nat.
Proof.
  destruct v as [|[]|n|s|items|entries]; simpl; try (by intros [= <-]; simpl; lia).
  - unfold encode_number. repeat case_match; intros [= <-];
      try (apply encode_type_len_pos); simpl; lia.
  - intros [= <-]. unfold encode_text. rewrite length_app.
    pose proof (encode_type_len_pos 3 (Z.of_nat (length s))). lia.
  - destruct (concat_results _) as [|body]; simpl; [done|]. intros [= <-].
    rewrite length_app. pose proof (encode_type_len_pos 4 (Z.of_nat (length items))). lia.
  - destruct (concat_results _) as [|body]; simpl; [done|]. intros [= <-].
    rewrite length_app.
    match goal with |- context [encode_type_len 5 ?n] =>
      pose proof (encode_type_len_pos 5 n) end. lia.
Qed.

(** The encoding of an object, entry by entry in canonical order. *)
Lemma encode_object_Ok entries bs :
  encode_value (Object entries) = ok bs →
  ∃ bss, Forall2 (λ e b, ∃ vb, encode_value e.2 = ok vb ∧ b = encode_text e.1 ++ vb)
           (merge_sort text_le entries) bss ∧
         bs = encode_type_len 5 (Z.of_nat (length entries)) ++ concat bss.
Proof.
  simpl.
  rewrite <-(merge_sort_fmap text_le entry_le
    (λ e : str * Value, (encode_text e.1, encode_value e.2))) by done.
  rewrite length_fmap, (Permutation_length (merge_sort_Permutation _ _)).
  destruct (concat_results _) as [|body] eqn:Hc; simpl; [done|]. intros [= <-].
  apply concat_results_Ok in Hc as (bss & Hc & ->). exists bss. split; [|done].
  rewrite <-list_fmap_compose in Hc.
  revert bss Hc. generalize (merge_sort text_le entries).
  induction l as [|e l IH]; intros [|b bss] Hc; simpl in Hc; try done.
  injection Hc as Hb Hc. constructor; [|by apply IH].
  destruct (encode_value e.2) as [|vb]; simpl in Hb; [done|]. injection Hb as <-. by exists vb.
Qed.

Lemma encode_array_Ok items bs :
  encode_value (Array items) = ok bs →
  ∃ bss, Forall2 (λ i b, encode_value i = ok b) items bss ∧
         bs = encode_type_len 4 (Z.of_nat (length items)) ++ concat bss.
Proof.
  simpl. destruct (concat_results _) as [|body] eqn:Hc; simpl; [done|]. intros [= <-].
  apply concat_results_Ok in Hc as (bss & Hc & ->). exists bss. split; [|done].
  revert bss Hc. induction items as [|i l IH]; intros [|b bss] Hc; simpl in Hc; try done.
  injection Hc as Hb Hc. constructor; [done|by apply IH].
Qed.

Lemma canon_object entries :
  canon (Object entries) = Object ((λ e, (e.1, canon e.2)) <$> merge_sort text_le entries).
Proof. simpl. f_equal. symmetry. by apply merge_sort_fmap. Qed.

Lemma encode_text_inj : Inj (=) (=) encode_text.
Proof.
  intros k1 k2 Heq. unfold encode_text in Heq.
  assert (length k1 = length k2) as Hl.
  { apply (f_equal (λ l, Z.of_nat (length l))) in Heq.
    rewrite !length_app, !Nat2Z.inj_add, !encode_type_len_length in Heq.
    unfold encoded_type_len_len in Heq. revert Heq. case_ltb; lia. }
  rewrite Hl in Heq. by apply app_inv_head in Heq.
Qed.

Lemma encode_entries_perm (es es' : list (str * Value)) :
  NoDup es.*1 → es ≡ₚ es' → encode_value (Object es) = encode_value (Object es').
Proof.
  intros Hnd Hp. simpl.
  rewrite (merge_sort_entries_perm _ ((λ e : str * Value, (encode_text e.1, encode_value e.2)) <$> es'));
    [done| |by apply fmap_Permutation].
  rewrite <-list_fmap_compose. change (NoDup (encode_text ∘ fst <$> es)). rewrite list_fmap_compose.
  apply (NoDup_fmap_2_strong encode_text); [|done]. intros ? ? _ _. apply encode_text_inj.
Qed.

(** The encoder reads a value only up to the order of object entries. *)
Lemma encode_canon v : value_wf v = true → encode_value (canon v) = encode_value v.
Proof.
  induction v as [| | | |items IH|entries IH] using Value_rect'; try done; simpl value_wf.
  - intros Hwf. simpl. rewrite length_fmap, <-list_fmap_compose.
    rewrite (list_fmap_ext (encode_value ∘ canon) encode_value); [done|].
    intros i x Hx. rewrite Forall_lookup in IH. eapply IH; [done|].
    rewrite forallb_forall in Hwf. by apply Hwf, list_elem_of_In, (list_elem_of_lookup_2 _ i).
  - intros [Hnd Hwf]%andb_prop. apply bool_decide_eq_true in Hnd.
    rewrite canon_object, <-(encode_entries_perm (merge_sort text_le entries) entries);
      [|by rewrite merge_sort_Permutation|by rewrite merge_sort_Permutation].
    simpl. rewrite <-list_fmap_compose.
    rewrite (list_fmap_ext ((λ e : str * Value, (encode_text e.1, encode_value e.2)) ∘ (λ e, (e.1, canon e.2)))
      (λ e : str * Value, (encode_text e.1, encode_value e.2))); [done|].
    intros i [k x] Hx. simpl. f_equal. apply (list_elem_of_lookup_2 _ i) in Hx.
    rewrite merge_sort_Permutation in Hx.
    rewrite Forall_forall in IH. apply (IH _ Hx).
    rewrite forallb_forall in Hwf. apply list_elem_of_In, Hwf, andb_prop in Hx. naive_solver.
Qed.
End Values.

(** ** Decoding what the encoder wrote *)

Lemma sum_perm {A} (f : A → Z) (l1 l2 : list A) :
  l1 ≡ₚ l2 → foldr (λ x n, f x + n) 0 l1 = foldr (λ x n, f x + n) 0 l2.
Proof. induction 1; simpl; lia. Qed.

Lemma max_le_iff {A} (f : A → Z) (l : list A) b :
  0 ≤ b → foldr (λ x n, Z.max (f x) n) 0 l ≤ b ↔ Forall (λ x, f x ≤ b) l.
Proof.
  intros Hb. induction l as [|x l IH]; simpl; [split; auto|].
  rewrite Forall_cons, <-IH. lia.
Qed.

Section RoundTrip.
#[local] Set Default Proof Using "All".
Context {JL : JsonLib} {JLaws : JsonLibLaws} (payload : str) (limits : option DecodeLimits).
Context (Hmax : Z.of_nat (length payload) ≤ USIZE_MAX).

Definition limits_sane (l : DecodeLimits) : Prop :=
  max_items l ≤ USIZE_MAX ∧ max_depth l ≤ USIZE_MAX.

Context (Hlim : match limits with Some l => limits_sane l | None => True end).

Definition counted (c : Z) : Z := match limits with Some _ => c | None => 0 end.

(** Decoder state after reading [n] bytes and noting [c] items. *)
Definition advance (s : CborDecoder) (n : nat) (c : Z) : CborDecoder :=
  {| offset := offset s + n; decoded_items := decoded_items s + counted c |}.

Definition within (depth items need_depth need_items : Z) : Prop :=
  match limits with
  | Some l => 0 ≤ items ∧ depth + need_depth ≤ max_depth l ∧ items + need_items ≤ max_items l
  | None => True
  end.

Lemma advance_advance s n1 n2 c1 c2 :
  advance (advance s n1 c1) n2 c2 = advance s (n1 + n2) (c1 + c2).
Proof. unfold advance, counted. simpl. f_equal; [lia|destruct limits; lia]. Qed.

Lemma advance_eq s n1 n2 c1 c2 : n1 = n2 → c1 = c2 → advance s n1 c1 = advance s n2 c2.
Proof. by intros -> ->. Qed.

Lemma set_offset_advance s n c m :
  set_offset (offset s + m) (advance s n c) = advance s m c.
Proof. done. Qed.

Lemma note_item_ok depth s d b :
  0 ≤ d → 1 ≤ b → within depth (decoded_items s) d b →
  note_item limits depth s = (advance s 0 1, Ok tt).
Proof.
  unfold note_item, within, advance, counted. intros Hd Hb Hw.
  destruct limits as [l|]; [|unfold ret; destruct s as [o i]; simpl; do 2 f_equal; lia].
  destruct Hlim as [? ?]. destruct (Z.ltb_spec (max_depth l) depth); [lia|].
  unfold count_items, bind, get. cbv zeta.
  destruct (Z.ltb_spec USIZE_MAX (decoded_items s + 1)); [lia|]. simpl.
  destruct (Z.ltb_spec (max_items l) (decoded_items s + 1)); [lia|].
  unfold ret, set_items. do 2 f_equal. lia.
Qed.

Lemma read_sized_ok additional kind min s s' len :
  read_len payload additional s = (s', Ok len) → 0 < min →
  len * min ≤ Z.of_nat (length payload - offset s') →
  within 0 (decoded_items s') (match limits with Some l => max_depth l | None => 0 end) len →
  read_sized_len payload limits additional kind min s = (s', Ok len).
Proof.
  intros Hr Hmin Hrem Hw. unfold read_sized_len. erewrite bind_Ok by exact Hr.
  unfold bind, get. cbv zeta. destruct (Z.ltb_spec (Z.of_nat (length payload - offset s') / min) len).
  { assert (len ≤ Z.of_nat (length payload - offset s') / min); [|lia].
    apply Z.div_le_lower_bound; lia. }
  unfold within in Hw. destruct limits as [l|]; [|done].
  destruct (Z.ltb_spec (Z.max 0 (max_items l - decoded_items s')) len); [lia|done].
Qed.

(** Head of a value: count the item, read the initial byte and the length. *)
Lemma decode_head depth s major len pre post d b :
  0 ≤ major → 0 ≤ len ≤ U64_MAX → 0 ≤ d → 1 ≤ b →
  payload = pre ++ encode_type_len major len ++ post → offset s = length pre →
  within depth (decoded_items s) d b →
  ∃ initial s1,
    note_item limits depth s = (advance s 0 1, Ok tt) ∧
    read_u8 payload (advance s 0 1) = (s1, Ok initial) ∧ Z.shiftr initial 5 = major ∧
    read_len payload (Z.land initial 0x1f) s1 =
      (advance s (length (encode_type_len major len)) 1, Ok len).
Proof.
  intros Hm Hlen Hd Hb Hp Ho Hw.
  destruct (read_head_at payload (advance s 0 1) major len pre post) as (i & H1 & H2 & H3);
    [done..|simpl; lia|done|].
  exists i, (set_offset (S (offset (advance s 0 1))) (advance s 0 1)).
  split; [by eapply note_item_ok|]. split; [done|]. split; [done|].
  rewrite H3. f_equal. unfold advance, set_offset. simpl. f_equal. lia.
Qed.

(** What it means for the decoder to read the encoding [bs] as [v]. *)
Definition reads (v w : Value) (bs : str) : Prop :=
  ∀ fuel depth s pre post,
    payload = pre ++ bs ++ post → offset s = length pre → nesting v < Z.of_nat fuel →
    within depth (decoded_items s) (nesting v) (item_budget v) →
    decode_value_at_depth payload limits fuel depth s =
      (advance s (length bs) (item_count v), Ok w).

(** A value of major type 7 given by its single initial byte. *)
Lemma decode_byte fuel depth s b pre post d n :
  0 ≤ d → 1 ≤ n → payload = pre ++ b :: post → offset s = length pre →
  within depth (decoded_items s) d n → Z.shiftr b 5 = 7 →
  decode_value_at_depth payload limits (S fuel) depth s =
    decode_simple payload (Z.land b 0x1f) (advance s 1 1).
Proof.
  intros Hd Hn Hp Ho Hw Hb. cbn [decode_value_at_depth].
  erewrite bind_Ok by (by eapply note_item_ok).
  erewrite bind_Ok by (eapply (read_u8_at _ _ pre b post); [done|simpl; lia]).
  rewrite Hb. simpl. f_equal. unfold advance, set_offset. simpl. f_equal. lia.
Qed.

Lemma reads_simple v b :
  nesting v = 0 → item_count v = 1 → item_budget v = 1 → Z.shiftr b 5 = 7 →
  (∀ s, decode_simple payload (Z.land b 0x1f) s = (s, Ok v)) → reads v v [b].
Proof.
  intros Hn Hc Hb Hmaj Hdec fuel depth s pre post Hp Ho Hf Hw.
  destruct fuel as [|fuel]; [lia|].
  rewrite (decode_byte _ _ _ b pre post 0 1); try done; [|by rewrite <-Hn, <-Hb].
  by rewrite Hdec, Hc.
Qed.

Lemma reads_number n bs : encode_number n = ok bs → reads (Num n) (Num n) bs.
Proof.
  intros Henc fuel depth s pre post Hp Ho Hf Hw. destruct fuel as [|fuel]; [simpl in Hf; lia|].
  unfold encode_number in Henc.
  destruct (number_cases n) as [(z & Hz & ->)|[(z & Hz & ->)|(b & Hb & Hof)]].
  - rewrite as_u64_of_u64 in Henc by done. injection Henc as <-.
    destruct (decode_head depth s 0 z pre post 0 1) as (i & s1 & H1 & H2 & H3 & H4); [lia..|done|done|done|].
    cbn [decode_value_at_depth].
    erewrite bind_Ok by exact H1. erewrite bind_Ok by exact H2. rewrite H3. simpl.
    by erewrite bind_Ok by exact H4.
  - rewrite as_u64_of_i64, as_i64_of_i64 in Henc by done.
    destruct (Z.leb_spec 0 z); [lia|]. injection Henc as <-.
    destruct (decode_head depth s 1 (-1 - z) pre post 0 1) as (i & s1 & H1 & H2 & H3 & H4);
      [lia|unfold U64_MAX; lia|lia..|done|done|done|].
    cbn [decode_value_at_depth].
    erewrite bind_Ok by exact H1. erewrite bind_Ok by exact H2. rewrite H3.
    cbn [Z.eqb Pos.eqb]. erewrite bind_Ok by exact H4. cbv zeta.
    replace (-1 - (-1 - z)) with z by lia.
    destruct (Z.leb_spec (- 2 ^ 63) z), (Z.ltb_spec z (2 ^ 63)); try lia. done.
  - rewrite (as_u64_of_f64 b), (as_i64_of_f64 b), (as_f64_of_f64 b) in Henc by done.
    injection Henc as <-.
    rewrite (decode_byte _ _ _ 0xfb pre (be_bytes 8 b ++ post) 0 1); [|done..].
    change (Z.land 0xfb 0x1f) with 27. unfold decode_simple. simpl.
    erewrite bind_Ok; [|apply (read_bytes_at payload (advance s 1 1) (pre ++ [0xfb]) (be_bytes 8 b) post)].
    + rewrite be_value_bytes by (change (256 ^ Z.of_nat 8) with (U64_MAX + 1); lia).
      rewrite Hof. unfold ret, set_offset, advance. cbn [offset decoded_items].
      rewrite be_bytes_length. do 2 f_equal. lia.
    + by rewrite Hp, <-app_assoc.
    + simpl. rewrite length_app. simpl. lia.
    + done.
Qed.

Lemma reads_text t : utf8_valid t = true → reads (Str t) (Str t) (encode_text t).
Proof.
  intros Hutf fuel depth s pre post Hp Ho Hf Hw. destruct fuel as [|fuel]; [simpl in Hf; lia|].
  unfold encode_text in Hp |- *. set (len := Z.of_nat (length t)) in *.
  assert (Hle : len ≤ Z.of_nat (length payload)).
  { rewrite Hp, !length_app. lia. }
  rewrite <-app_assoc in Hp. simpl in Hw.
  destruct (decode_head depth s 3 len pre (t ++ post) 0 (1 + len)) as (i & s1 & H1 & H2 & H3 & H4);
    [lia|unfold USIZE_MAX in Hmax; lia|lia..|done|done|done|].
  cbn [decode_value_at_depth].
  erewrite bind_Ok by exact H1. erewrite bind_Ok by exact H2. rewrite H3.
  cbn [Z.eqb Pos.eqb].
  erewrite bind_Ok; [|apply (read_sized_ok _ _ 1 _ _ _ H4); [lia| |]].
  - erewrite bind_Ok; [|apply (read_bytes_at payload _ (pre ++ encode_type_len 3 len) t post);
      [by rewrite <-app_assoc|simpl; rewrite length_app; lia|done]].
    rewrite Hutf. unfold ret, set_offset, advance. simpl. rewrite length_app.
    do 2 f_equal. lia.
  - simpl. rewrite Hp, !length_app, Ho. lia.
  - unfold within, advance, counted in *. simpl. destruct limits; [lia|done].
Qed.

Lemma within_weaken depth items d d' n n' :
  within depth items d n → d' ≤ d → n' ≤ n → within depth items d' n'.
Proof. unfold within. destruct limits; [lia|done]. Qed.

Lemma within_advance depth s d c b n k :
  1 ≤ c ≤ b → within depth (decoded_items s) d (b + n) →
  within depth (decoded_items (advance s k c)) d n.
Proof. unfold within, advance, counted. simpl. destruct limits; [lia|done]. Qed.

Lemma decode_items_reads fuel depth d items bss s pre post :
  Forall2 (λ i b, reads i (canon i) b) items bss →
  payload = pre ++ concat bss ++ post → offset s = length pre →
  Forall (λ i, nesting i ≤ d) items → d < Z.of_nat fuel →
  within depth (decoded_items s) d (foldr (λ i n, item_budget i + n) 0 items) →
  decode_items (decode_value_at_depth payload limits fuel depth) (length items) s =
    (advance s (length (concat bss)) (foldr (λ i n, item_count i + n) 0 items), Ok (canon <$> items)).
Proof.
  intros Hall. revert s pre. induction Hall as [|i b items bss Hi Hall IH];
    intros s pre Hp Ho Hd Hf Hw; simpl.
  { unfold ret. f_equal. unfold advance, counted. destruct s as [o n]; simpl.
    f_equal; [lia|destruct limits; lia]. }
  apply Forall_cons in Hd as [Hdi Hd]. simpl in Hp, Hw. rewrite <-app_assoc in Hp.
  pose proof (counts_le i).
  assert (0 ≤ foldr (λ i n, item_budget i + n) 0 items).
  { clear. induction items as [|i items IH]; simpl; [lia|]. pose proof (counts_le i). lia. }
  erewrite bind_Ok; [|eapply Hi; [exact Hp|done|lia|eapply within_weaken; [exact Hw|lia..]]].
  erewrite bind_Ok; [|eapply (IH _ (pre ++ b))].
  - unfold ret. rewrite advance_advance. f_equal. apply advance_eq; [by rewrite length_app|done].
  - by rewrite <-app_assoc.
  - simpl. rewrite length_app. lia.
  - done.
  - done.
  - by eapply within_advance.
Qed.

Definition entry_budget (e : str * Value) : Z := 1 + Z.of_nat (length e.1) + item_budget e.2.
Definition entry_count (e : str * Value) : Z := 1 + item_count e.2.

Lemma decode_entries_reads fuel depth d entries bss s pre post acc :
  Forall2 (λ e b, ∃ vb, utf8_valid e.1 = true ∧ reads e.2 (canon e.2) vb ∧
    b = encode_text e.1 ++ vb) entries bss →
  payload = pre ++ concat bss ++ post → offset s = length pre → 0 ≤ d →
  Forall (λ e : str * Value, nesting e.2 ≤ d) entries → d < Z.of_nat fuel →
  within depth (decoded_items s) d (foldr (λ e n, entry_budget e + n) 0 entries) →
  NoDup (acc.*1 ++ entries.*1) →
  decode_entries (decode_value_at_depth payload limits fuel depth) (length entries) acc s =
    (advance s (length (concat bss)) (foldr (λ e n, entry_count e + n) 0 entries),
     Ok (acc ++ ((λ e, (e.1, canon e.2)) <$> entries))).
Proof.
  intros Hall. revert s pre acc. induction Hall as [|[k v] b entries bss Hi Hall IH];
    intros s pre acc Hp Ho Hd0 Hd Hf Hw Hnd; simpl.
  { unfold ret. rewrite app_nil_r. f_equal. unfold advance, counted. destruct s as [o n]; simpl.
    f_equal; [lia|destruct limits; lia]. }
  destruct Hi as (vb & Hutf & Hv & ->). simpl in Hutf, Hv.
  apply Forall_cons in Hd as [Hdi Hd]. simpl in Hp, Hw, Hdi. unfold entry_budget in Hw at 1. simpl in Hw.
  rewrite <-!app_assoc in Hp. pose proof (counts_le v).
  assert (0 ≤ foldr (λ e n, entry_budget e + n) 0 entries).
  { clear. induction entries as [|e l IH]; simpl; [lia|]. unfold entry_budget at 1.
    pose proof (counts_le e.2). lia. }
  erewrite bind_Ok; [|eapply (reads_text k Hutf); [exact Hp|done|simpl; lia|]];
    [|eapply within_weaken; [exact Hw|simpl; lia..]].
  cbn beta iota.
  erewrite bind_Ok; [|eapply (Hv _ _ _ (pre ++ encode_text k))];
    [|by rewrite <-app_assoc|simpl; rewrite length_app; lia|lia|].
  2: { eapply within_weaken; [|exact Hdi|];
         [eapply (within_advance _ _ _ _ (1 + Z.of_nat (length k)) (item_budget v)); simpl; [lia|]|lia].
       eapply within_weaken; [exact Hw|lia..]. }
  rewrite map_insert_fresh; [|simpl in Hnd; apply NoDup_app in Hnd; set_solver].
  rewrite advance_advance, (IH _ (pre ++ encode_text k ++ vb)); try done.
  - rewrite advance_advance. f_equal; [|by rewrite <-app_assoc].
    apply advance_eq; [rewrite !length_app; simpl; lia|]. unfold entry_count; simpl. lia.
  - by rewrite <-!app_assoc.
  - simpl. rewrite !length_app. lia.
  - eapply (within_advance _ _ _ _ (1 + Z.of_nat (length k) + item_budget v)); simpl; [lia|].
    eapply within_weaken; [exact Hw|lia..].
  - rewrite fmap_app, <-app_assoc. done.
Qed.

(** Common part of the array and map cases: the head, then the sized length. *)
Lemma decode_sized depth s major len min body pre post n :
  0 ≤ major → 0 ≤ len → 0 < min → len * min ≤ Z.of_nat (length body) → 1 + len ≤ n →
  payload = pre ++ (encode_type_len major len ++ body) ++ post → offset s = length pre →
  within depth (decoded_items s) 0 n →
  ∃ initial s1,
    note_item limits depth s = (advance s 0 1, Ok tt) ∧
    read_u8 payload (advance s 0 1) = (s1, Ok initial) ∧ Z.shiftr initial 5 = major ∧
    (∀ kind, read_sized_len payload limits (Z.land initial 0x1f) kind min s1 =
      (advance s (length (encode_type_len major len)) 1, Ok len)).
Proof.
  intros Hmaj Hlen Hmin Hbody Hn Hp Ho Hw. rewrite <-app_assoc in Hp.
  assert (len ≤ U64_MAX).
  { unfold USIZE_MAX in Hmax. rewrite Hp, !length_app in Hmax. nia. }
  destruct (decode_head depth s major len pre (body ++ post) 0 n) as (i & s1 & H1 & H2 & H3 & H4);
    [lia|lia|lia|lia|done|done|done|].
  exists i, s1. split_and!; [done..|]. intros kind.
  apply (read_sized_ok _ _ min _ _ _ H4); [done| |].
  - simpl. rewrite Hp, !length_app, Ho. lia.
  - unfold within, advance, counted in *. simpl. destruct limits; [lia|done].
Qed.

Lemma concat_length_ge (k : nat) (bss : list str) :
  Forall (λ b, (k ≤ length b)%nat) bss → (length bss * k ≤ length (concat bss))%nat.
Proof. induction 1; simpl; [lia|]. rewrite length_app. lia. Qed.

Lemma sum_ge_length {A} (f : A → Z) l :
  (∀ x, 1 ≤ f x) → Z.of_nat (length l) ≤ foldr (λ x n, f x + n) 0 l.
Proof. intros Hf. induction l as [|x l IH]; simpl; [lia|]. specialize (Hf x). lia. Qed.

Lemma succ_within depth items d n :
  within depth items (1 + d) n → 0 ≤ d → within (saturating_succ depth) items d n.
Proof.
  unfold within, saturating_succ. destruct limits as [l|]; [|done]. destruct Hlim. lia.
Qed.

Lemma reads_array items bss :
  Forall2 (λ i b, reads i (canon i) b) items bss → Forall (λ b, (1 ≤ length b)%nat) bss →
  reads (Array items) (canon (Array items))
    (encode_type_len 4 (Z.of_nat (length items)) ++ concat bss).
Proof.
  intros Hall Hne fuel depth s pre post Hp Ho Hf Hw. destruct fuel as [|fuel].
  { pose proof (nesting_nonneg (Array items)). lia. }
  pose proof (Forall2_length _ _ _ Hall) as Hlen. pose proof (concat_length_ge 1 bss Hne).
  pose proof (sum_ge_length item_budget items (λ i, ltac:(pose proof (counts_le i); lia))) as Hsum.
  pose proof (nesting_nonneg (Array items)) as Hnn.
  destruct (decode_sized depth s 4 (Z.of_nat (length items)) 1 (concat bss) pre post
    (item_budget (Array items))) as (i & s1 & H1 & H2 & H3 & H4);
    [lia..|simpl; lia|done|done|eapply within_weaken; [exact Hw|lia..]|].
  cbn [decode_value_at_depth]. erewrite bind_Ok by exact H1. erewrite bind_Ok by exact H2.
  rewrite H3. cbn [Z.eqb Pos.eqb]. erewrite bind_Ok by apply H4. rewrite Nat2Z.id.
  destruct items as [|i0 items'] eqn:Hitems.
  { inversion Hall; subst. simpl. reflexivity. }
  rewrite <-Hitems in *. set (d := nesting (Array items) - 1).
  assert (Hd : Forall (λ i, 1 + nesting i ≤ 1 + d) items).
  { apply (max_le_iff (λ i, 1 + nesting i)); [|simpl in *; lia]. lia. }
  assert (0 ≤ d).
  { rewrite Hitems in Hd. apply Forall_cons in Hd as [? _]. pose proof (nesting_nonneg i0). lia. }
  erewrite bind_Ok; [|eapply (decode_items_reads fuel _ d items bss _
    (pre ++ encode_type_len 4 (Z.of_nat (length items))) post)].
  - unfold ret. rewrite advance_advance. f_equal. apply advance_eq; [by rewrite length_app|done].
  - exact Hall.
  - rewrite <-!app_assoc. rewrite <-!app_assoc in Hp. exact Hp.
  - simpl. rewrite length_app. lia.
  - eapply Forall_impl; [exact Hd|]. simpl. lia.
  - lia.
  - apply succ_within; [|done].
    eapply (within_advance _ _ _ _ 1); [lia|]. eapply within_weaken; [exact Hw|lia|simpl; lia].
Qed.

Lemma reads_object entries bss :
  NoDup entries.*1 →
  Forall2 (λ e b, ∃ vb, utf8_valid e.1 = true ∧ reads e.2 (canon e.2) vb ∧
    b = encode_text e.1 ++ vb) (merge_sort text_le entries) bss →
  Forall (λ b, (2 ≤ length b)%nat) bss →
  reads (Object entries) (canon (Object entries))
    (encode_type_len 5 (Z.of_nat (length entries)) ++ concat bss).
Proof.
  intros Hnd Hall Hne fuel depth s pre post Hp Ho Hf Hw.
  pose proof (merge_sort_Permutation text_le entries) as Hperm.
  pose proof (nesting_nonneg (Object entries)) as Hnn.
  destruct fuel as [|fuel]; [lia|].
  rewrite canon_object. set (sorted := merge_sort text_le entries) in *.
  pose proof (Forall2_length _ _ _ Hall) as Hlen. pose proof (concat_length_ge 2 bss Hne).
  rewrite (Permutation_length Hperm) in Hlen.
  pose proof (sum_ge_length entry_budget entries
    (λ e, ltac:(unfold entry_budget; pose proof (counts_le e.2); lia))) as Hsum.
  assert (Hb : item_budget (Object entries) = 1 + foldr (λ e n, entry_budget e + n) 0 entries) by done.
  assert (Hc : item_count (Object entries) = 1 + foldr (λ e n, entry_count e + n) 0 entries) by done.
  destruct (decode_sized depth s 5 (Z.of_nat (length entries)) 2 (concat bss) pre post
    (item_budget (Object entries))) as (i & s1 & H1 & H2 & H3 & H4);
    [lia..|done|done|eapply within_weaken; [exact Hw|lia..]|].
  cbn [decode_value_at_depth]. erewrite bind_Ok by exact H1. erewrite bind_Ok by exact H2.
  rewrite H3. cbn [Z.eqb Pos.eqb]. erewrite bind_Ok by apply H4. rewrite Nat2Z.id.
  rewrite Hb, <-(sum_perm entry_budget _ _ Hperm) in Hw.
  rewrite Hc, <-(sum_perm entry_count _ _ Hperm), <-(Permutation_length Hperm).
  rewrite <-(Permutation_length Hperm) in Hp.
  assert (Hd : Forall (λ e : str * Value, 1 + nesting e.2 ≤ nesting (Object entries)) sorted).
  { rewrite Hperm. by apply (max_le_iff (λ e : str * Value, 1 + nesting e.2)). }
  destruct sorted as [|e0 sorted'] eqn:Hs.
  { inversion Hall; subst. simpl. reflexivity. }
  rewrite <-Hs in *. set (d := nesting (Object entries) - 1).
  assert (0 ≤ d).
  { rewrite Hs in Hd. apply Forall_cons in Hd as [? _]. pose proof (nesting_nonneg e0.2). lia. }
  erewrite bind_Ok; [|eapply (decode_entries_reads fuel _ d _ bss _
    (pre ++ encode_type_len 5 (Z.of_nat (length sorted))) post [])].
  - unfold ret. rewrite advance_advance. f_equal. apply advance_eq; [by rewrite length_app|done].
  - exact Hall.
  - rewrite <-!app_assoc. rewrite <-!app_assoc in Hp. exact Hp.
  - simpl. rewrite length_app. lia.
  - done.
  - eapply Forall_impl; [exact Hd|]. cbn beta. intros. lia.
  - lia.
  - apply succ_within; [|done].
    eapply (within_advance _ _ _ _ 1); [lia|]. eapply within_weaken; [exact Hw|lia..].
  - simpl. by rewrite Hperm.
Qed.

Lemma encode_reads v bs : value_wf v = true → encode_value v = ok bs → reads v (canon v) bs.
Proof.
  revert bs. induction v as [|[]|n|t|items IH|entries IH] using Value_rect'; intros bs Hwf Henc.
  - injection Henc as <-. by apply reads_simple.
  - injection Henc as <-. by apply reads_simple.
  - injection Henc as <-. by apply reads_simple.
  - by apply reads_number.
  - injection Henc as <-. by apply reads_text.
  - apply encode_array_Ok in Henc as (bss & Hall & ->). simpl in Hwf.
    apply reads_array.
    + revert IH Hwf. clear -Hall. induction Hall as [|i b items bss Hi Hall IHl]; intros IH Hwf; [constructor|].
      simpl in Hwf. apply andb_true_iff in Hwf as [? ?]. apply Forall_cons in IH as [? ?].
      constructor; auto.
    + clear -Hall. induction Hall as [|i b items bss Hi Hall IHl]; constructor; auto.
      apply encode_value_pos in Hi. lia.
  - apply encode_object_Ok in Henc as (bss & Hall & ->). simpl in Hwf.
    apply andb_true_iff in Hwf as [Hnd Hwf]. apply bool_decide_eq_true_1 in Hnd.
    apply reads_object; [done| |].
    + rewrite <-(merge_sort_Permutation text_le entries) in IH.
      assert (Hwf' : Forall (λ e, utf8_valid e.1 = true ∧ value_wf e.2 = true) (merge_sort text_le entries)).
      { rewrite (merge_sort_Permutation text_le entries), Forall_forall. intros e He.
        rewrite forallb_forall in Hwf. apply andb_true_iff, Hwf. by apply list_elem_of_In. }
      revert IH Hwf'. clear -Hall. induction Hall as [|e b l bss Hi Hall IHl]; intros IH Hwf; [constructor|].
      destruct Hi as (vb & Hv & ->).
      apply Forall_cons in IH as [IHe ?]. apply Forall_cons in Hwf as [[? ?] ?].
      constructor; [|auto]. exists vb. split_and!; auto.
    + clear -Hall. induction Hall as [|e b l bss Hi Hall IHl]; constructor; auto.
      destruct Hi as (vb & Hv & ->). apply encode_value_pos in Hv.
      unfold encode_text. rewrite !length_app.
      pose proof (encode_type_len_pos 3 (Z.of_nat (length e.1))). lia.
Qed.
End RoundTrip.

(** ** The decoder is total *)

Section Total.
#[local] Set Default Proof Using "Type".
Context {JL : JsonLib} (payload : str) (limits : option DecodeLimits).
Context (Hbytes : Forall is_byte payload).

Let forward (s s' : CborDecoder) : Prop := (offset s ≤ offset s' ≤ length payload)%nat.

Lemma read_u8_wp s (Q : Z → CborDecoder → Prop) R :
  (∀ b s', is_byte b → (offset s < offset s' ≤ length payload)%nat → Q b s') →
  (∀ e s', R e s') → wp (read_u8 payload) Q R s.
Proof using Hbytes.
  intros HQ HR. unfold read_u8, wp, bind, get.
  destruct (payload !! offset s) as [b|] eqn:Hb; [|apply HR]. simpl. apply HQ.
  - by eapply (proj1 (Forall_lookup _ _) Hbytes).
  - simpl. apply lookup_lt_Some in Hb. lia.
Qed.

Lemma read_bytes_wp n s (Q : str → CborDecoder → Prop) R :
  0 ≤ n → (offset s ≤ length payload)%nat →
  (∀ bs s', Forall is_byte bs → forward s s' → Q bs s') →
  (∀ e s', R e s') → wp (read_bytes payload n) Q R s.
Proof using Hbytes.
  intros Hn Hs HQ HR. unfold read_bytes, wp, bind, get.
  case_ltb; simpl; try apply HR. apply HQ.
  - by apply Forall_take, Forall_drop.
  - unfold forward. simpl. lia.
Qed.

Lemma read_len_wp additional s (Q : Z → CborDecoder → Prop) R :
  0 ≤ additional → (offset s ≤ length payload)%nat →
  (∀ n s', 0 ≤ n → forward s s' → Q n s') →
  (∀ e s', R e s') → wp (read_len payload additional) Q R s.
Proof using Hbytes.
  intros Ha Hs HQ HR. unfold read_len. case_ltb.
  all: try (apply wp_fail; apply HR).
  - apply wp_ret, HQ; [done|]. unfold forward. lia.
  - apply read_u8_wp; [|done]. intros b s' Hb ?. apply HQ; [apply Hb|]. unfold forward. lia.
  - apply wp_bind, read_bytes_wp; [done..| |done]. intros bs s' Hb ?. apply wp_ret, HQ; [by apply be_value_nonneg|done].
  - apply wp_bind, read_bytes_wp; [done..| |done]. intros bs s' Hb ?. apply wp_ret, HQ; [by apply be_value_nonneg|done].
  - apply wp_bind, read_bytes_wp; [done..| |done]. intros bs s' Hb ?. apply wp_ret, HQ; [by apply be_value_nonneg|done].
Qed.

Lemma count_items_wp l n s (Q : unit → CborDecoder → Prop) R :
  (∀ s', offset s' = offset s → Q tt s') → (∀ e s', R e s') → wp (count_items l n) Q R s.
Proof.
  intros HQ HR. unfold count_items, wp, bind, get. case_ltb; simpl; first [apply HR|by apply HQ].
Qed.

Lemma read_sized_len_wp additional kind m s (Q : Z → CborDecoder → Prop) R :
  0 ≤ additional → (offset s ≤ length payload)%nat →
  (∀ n s', 0 ≤ n → forward s s' → Q n s') →
  (∀ e s', R e s') → wp (read_sized_len payload limits additional kind m) Q R s.
Proof using Hbytes.
  intros Ha Hs HQ HR. unfold read_sized_len. apply wp_bind, read_len_wp; [done..| |done].
  intros n s' Hn Hf. apply wp_bind, wp_get. cbv zeta. case_ltb; [by apply wp_fail|].
  destruct limits; [case_ltb; [by apply wp_fail|]|]; apply wp_ret, HQ; done.
Qed.

(** An item decoder that always moves forward inside the payload. *)
Definition progresses (dec : M CborDecoder CborError Value) (k : nat) : Prop :=
  ∀ s, (k ≤ offset s ≤ length payload)%nat →
    wp dec (λ _ s', (offset s < offset s' ≤ length payload)%nat) (λ _ _, True) s.

Lemma decode_items_wp dec k n s :
  progresses dec k → (k ≤ offset s ≤ length payload)%nat →
  wp (decode_items dec n) (λ _ s', forward s s') (λ _ _, True) s.
Proof.
  intros Hdec. revert s. induction n as [|n IH]; intros s Hs; simpl.
  { apply wp_ret. unfold forward. lia. }
  apply wp_bind. eapply wp_mono; [by apply Hdec|cbn beta|done]. intros v s1 H1.
  apply wp_bind. eapply wp_mono; [apply IH; lia|cbn beta|done]. intros vs s2 H2.
  apply wp_ret. unfold forward in *. lia.
Qed.

Lemma decode_entries_wp dec k n acc s :
  progresses dec k → (k ≤ offset s ≤ length payload)%nat →
  wp (decode_entries dec n acc) (λ _ s', forward s s') (λ _ _, True) s.
Proof.
  intros Hdec. revert s acc. induction n as [|n IH]; intros s acc Hs; simpl.
  { apply wp_ret. unfold forward. lia. }
  apply wp_bind. eapply wp_mono; [by apply Hdec|cbn beta|done]. intros v s1 H1.
  destruct v; try by apply wp_fail.
  apply wp_bind. eapply wp_mono; [apply Hdec; lia|cbn beta|done]. intros v s2 H2.
  eapply wp_mono; [apply IH; lia|cbn beta|done]. unfold forward. intros. lia.
Qed.

Lemma decode_value_wp fuel depth :
  progresses (decode_value_at_depth payload limits fuel depth) (S (length payload) - fuel).
Proof using Hbytes.
  revert depth. induction fuel as [|fuel IH]; intros depth s Hs; [lia|].
  cbn [decode_value_at_depth].
  assert (Hnote : ∀ s Q R, (∀ s', offset s' = offset s → Q tt s') → (∀ e s', R e s') →
    wp (note_item limits depth) Q R s).
  { intros s0 Q R HQ HR. unfold note_item. destruct limits; [|by apply HQ].
    case_ltb; [apply HR|]. by apply count_items_wp. }
  apply wp_bind, Hnote; [|done]. intros s1 Hs1.
  apply wp_bind, read_u8_wp; [|done]. intros b s2 Hb Hs2.
  assert (Hland : 0 ≤ Z.land b 31) by (apply Z.land_nonneg; lia).
  case_ltb.
  - apply wp_bind, read_len_wp; [done|lia| |done]. intros. apply wp_ret. unfold forward in *. lia.
  - apply wp_bind, read_len_wp; [done|lia| |done]. intros m s3 ? ?. cbv zeta.
    destruct (_ && _); [apply wp_ret; unfold forward in *; lia|by apply wp_fail].
  - apply wp_bind, read_sized_len_wp; [done|lia| |done]. intros m s3 Hm H3.
    apply wp_bind. unfold reserve_embedded_items.
    assert (Hrest : ∀ s4, offset s4 = offset s3 →
      wp (let* bytes := read_bytes payload m in
          ret (Array ((λ byte, Num (number_of_u64 byte)) <$> bytes)))
         (λ _ s', (offset s < offset s' ≤ length payload)%nat) (λ _ _, True) s4).
    { intros s4 H4. unfold forward in *. apply wp_bind, read_bytes_wp; [done|lia| |done].
      intros. apply wp_ret. unfold forward in *. lia. }
    destruct limits; [apply count_items_wp; [|done]; intros; by apply Hrest|by apply wp_ret, Hrest].
  - apply wp_bind, read_sized_len_wp; [done|lia| |done]. intros m s3 Hm H3. unfold forward in *.
    apply wp_bind, read_bytes_wp; [done|lia| |done]. intros bs s4 ? ?. unfold forward in *.
    destruct (utf8_valid bs); [apply wp_ret; lia|by apply wp_fail].
  - apply wp_bind, read_sized_len_wp; [done|lia| |done]. intros m s3 Hm H3. unfold forward in *.
    apply wp_bind. eapply wp_mono; [eapply decode_items_wp; [apply IH|lia]|cbn beta|done].
    intros vs s4 H4. apply wp_ret. unfold forward in *. lia.
  - apply wp_bind, read_sized_len_wp; [done|lia| |done]. intros m s3 Hm H3. unfold forward in *.
    apply wp_bind. eapply wp_mono; [eapply decode_entries_wp; [apply IH|lia]|cbn beta|done].
    intros vs s4 H4. apply wp_ret. unfold forward in *. lia.
  - unfold decode_simple. case_ltb; try (apply wp_ret; lia).
    + apply wp_bind, read_bytes_wp; [done|lia| |done]. intros bs s3 ? ?. unfold forward in *.
      destruct (number_of_f64_bits _); [apply wp_ret; lia|by apply wp_fail].
    + apply wp_bind, read_bytes_wp; [done|lia| |done]. intros bs s3 ? ?. unfold forward in *.
      destruct (number_of_f64_bits _); [apply wp_ret; lia|by apply wp_fail].
    + by apply wp_fail.
  - by apply wp_fail.
Qed.
End Total.

(** ** The bounded decoder refines the unbounded one *)

Section Refinement.
#[local] Set Default Proof Using "All".
Context {JL : JsonLib} {JLaws : JsonLibLaws} (payload : str) (l : DecodeLimits).
Context (Hbytes : Forall is_byte payload) (Hdepth : max_depth l < USIZE_MAX).

(** A measure of depth: the elements of arrays and objects are one level down,
    except where the payload has a byte that can start a byte string, whose
    elements have no level. *)
Context (rank : Value → Z).
Context (Hscalar : ∀ v, match v with Array _ | Object _ => True | _ => rank v = 0 end).
Context (Harray : ∀ d vs, 0 ≤ d → Forall (λ v, 1 + rank v ≤ d) vs → rank (Array vs) ≤ d).
Context (Hobject : ∀ d m, 0 ≤ d → Forall (λ e : str * Value, 1 + rank e.2 ≤ d) m → rank (Object m) ≤ d).
Context (Hstring : ∀ b bs, b ∈ payload → Z.shiftr b 5 = 2 → Forall is_byte bs →
  rank (Array ((λ b, Num (number_of_u64 b)) <$> bs)) = 0).

(** [m2] follows every successful run of [m1] at the same offset; [P] relates
    the item counters of the bounded run. *)
Definition sim {A} (m1 m2 : M CborDecoder CborError A) (P : Z → A → Z → Prop) : Prop :=
  ∀ s1 s2 s1' a, offset s1 = offset s2 → m1 s1 = (s1', Ok a) →
    ∃ s2', m2 s2 = (s2', Ok a) ∧ offset s1' = offset s2' ∧
           P (decoded_items s1) a (decoded_items s1').

Lemma sim_bind {A B} m1 m2 (k1 k2 : A → M CborDecoder CborError B) P Q :
  sim m1 m2 P → (∀ a, sim (k1 a) (k2 a) (Q a)) →
  sim (bind m1 k1) (bind m2 k2) (λ n b n', ∃ a n1, P n a n1 ∧ Q a n1 b n').
Proof.
  intros Hm Hk s1 s2 s1' b Ho (a & sm & H1 & H2)%bind_Ok_inv.
  destruct (Hm _ _ _ _ Ho H1) as (sm2 & H3 & H4 & H5).
  destruct (Hk a _ _ _ _ H4 H2) as (s2' & H6 & H7 & H8).
  exists s2'. split; [by erewrite bind_Ok by exact H3|]. eauto.
Qed.

Lemma sim_mono {A} (m1 m2 : M CborDecoder CborError A) (P Q : Z → A → Z → Prop) :
  sim m1 m2 P → (∀ n a n', P n a n' → Q n a n') → sim m1 m2 Q.
Proof. intros H HPQ s1 s2 s1' a Ho H1. destruct (H _ _ _ _ Ho H1) as (?&?&?&?). eauto 10. Qed.

Lemma sim_ret {A} (a : A) : sim (ret a) (ret a) (λ n a' n', a' = a ∧ n' = n).
Proof. intros s1 s2 s1' a' Ho [= <- <-]. by exists s2. Qed.

Lemma sim_fail {A} e (P : Z → A → Z → Prop) m : sim (fail e) m P.
Proof. by intros s1 s2 s1' a Ho [=]. Qed.

Lemma sim_read_u8 : sim (read_u8 payload) (read_u8 payload) (λ n b n', n' = n ∧ 0 ≤ b ∧ b ∈ payload).
Proof.
  intros s1 s2 s1' a Ho. unfold read_u8, bind, get. rewrite <-Ho.
  destruct (payload !! offset s1) eqn:Hb; [|done]. intros [= <- <-].
  eexists. split; [reflexivity|]. split; [done|]. split; [done|].
  split; [by apply (proj1 (Forall_lookup _ _) Hbytes) in Hb as [? _]|by eapply list_elem_of_lookup_2].
Qed.

Lemma sim_read_bytes k : sim (read_bytes payload k) (read_bytes payload k)
  (λ n bs n', n' = n ∧ Z.of_nat (length bs) ≤ Z.max 0 k ∧ Forall is_byte bs).
Proof.
  intros s1 s2 s1' a Ho. unfold read_bytes, bind, get. rewrite <-Ho.
  case_ltb; try done. intros [= <- <-]. eexists. split; [reflexivity|]. split; [done|].
  split_and!; [done|rewrite length_take; lia|]. by apply Forall_take, Forall_drop.
Qed.

Lemma sim_read_len k :
  sim (read_len payload k) (read_len payload k) (λ n len n', n' = n ∧ (0 ≤ k → 0 ≤ len)).
Proof.
  unfold read_len, read_array.
  case_ltb; try apply sim_fail; try (eapply sim_mono; [apply sim_read_u8|naive_solver]);
    try (eapply sim_mono; [apply sim_ret|naive_solver]).
  all: eapply sim_mono; [eapply sim_bind; [apply sim_read_bytes|intros; apply sim_ret]|].
  all: intros n a n' (bs & n1 & (-> & _ & Hbs) & -> & ->); split; [done|intros; by apply be_value_nonneg].
Qed.

Lemma sim_sized k kind m :
  sim (read_sized_len payload (Some l) k kind m) (read_sized_len payload None k kind m)
    (λ n len n', n' = n ∧ (0 ≤ k → 0 ≤ len)).
Proof.
  eapply sim_mono; [eapply sim_bind; [apply sim_read_len|]|].
  2: { intros n a n' (len & n1 & [-> Hlen] & H).
       instantiate (1 := λ len n a n', n' = n ∧ a = len) in H. by destruct H as [-> ->]. }
  intros len s1 s2 s1' a Ho. unfold bind, get. rewrite <-Ho. cbv zeta.
  destruct (Z.ltb_spec (Z.of_nat (length payload - offset s1) / m) len); [done|].
  destruct (Z.ltb_spec (Z.max 0 (max_items l - decoded_items s1)) len); [done|].
  intros [= <- <-]. by exists s2.
Qed.

Lemma sim_count k :
  sim (count_items l k) (ret tt) (λ n _ n', n' = n + k ∧ n' ≤ max_items l).
Proof.
  intros s1 s2 s1' a Ho. unfold count_items, bind, get.
  destruct (Z.ltb_spec USIZE_MAX (decoded_items s1 + k)); [done|]. simpl.
  destruct (Z.ltb_spec (max_items l) (decoded_items s1 + k)); [done|].
  intros [= <- <-]. exists s2. simpl. auto.
Qed.

Lemma sim_note depth :
  sim (note_item (Some l) depth) (note_item None depth)
    (λ n _ n', depth ≤ max_depth l ∧ n' = n + 1 ∧ n' ≤ max_items l).
Proof.
  simpl. destruct (Z.ltb_spec (max_depth l) depth); [apply sim_fail|].
  eapply sim_mono; [apply sim_count|]. simpl. lia.
Qed.

Definition value_post (depth n : Z) (v : Value) (n' : Z) : Prop :=
  n + item_count v ≤ n' ∧ n' ≤ max_items l ∧ depth + rank v ≤ max_depth l.

Lemma sim_items dec1 dec2 depth k :
  sim dec1 dec2 (value_post depth) →
  sim (decode_items dec1 k) (decode_items dec2 k)
    (λ n vs n', n + foldr (λ i m, item_count i + m) 0 vs ≤ n' ∧ (n ≤ max_items l → n' ≤ max_items l) ∧
                Forall (λ v, depth + rank v ≤ max_depth l) vs).
Proof.
  intros Hd. induction k as [|k IH]; simpl.
  { eapply sim_mono; [apply sim_ret|]. intros n a n' [-> ->]. simpl. split_and!; [lia|lia|constructor]. }
  eapply sim_mono; [eapply sim_bind; [exact Hd|intros v; eapply sim_bind; [exact IH|intros; apply sim_ret]]|].
  intros n vs n' (v & n1 & (? & ? & ?) & (vs' & n2 & (? & ? & ?) & -> & ->)).
  simpl. split_and!; [lia|lia|by constructor].
Qed.

Lemma insert_sum (f : str * Value → Z) (m : list (str * Value)) k v :
  (∀ e, 0 ≤ f e) →
  foldr (λ e n, f e + n) 0 (map_insert Value m k v) ≤ foldr (λ e n, f e + n) 0 m + f (k, v) ∧
  (∀ P, Forall P m → P (k, v) → Forall P (map_insert Value m k v)).
Proof.
  intros Hf. assert (Happ : ∀ m1 m2, foldr (λ e n, f e + n) 0 (m1 ++ m2) =
    foldr (λ e n, f e + n) 0 m1 + foldr (λ e n, f e + n) 0 m2).
  { intros m1 m2. induction m1; simpl; lia. }
  destruct (decide (k ∈ m.*1)) as [Hin|Hni].
  - destruct (assoc_split _ _ Hin) as (m1 & w & m2 & -> & Hni).
    rewrite map_insert_present by done. rewrite !Happ. simpl. split.
    + pose proof (Hf (k, w)). lia.
    + intros P. rewrite !Forall_app, !Forall_cons. naive_solver.
  - rewrite map_insert_fresh by done. rewrite Happ. simpl. split; [lia|].
    intros P ? ?. apply Forall_app. auto.
Qed.

Lemma sim_entries dec1 dec2 depth k acc :
  sim dec1 dec2 (value_post depth) →
  Forall (λ e : str * Value, depth + rank e.2 ≤ max_depth l) acc →
  sim (decode_entries dec1 k acc) (decode_entries dec2 k acc)
    (λ n m n', foldr (λ e x, entry_count e + x) 0 m + n ≤ n' + foldr (λ e x, entry_count e + x) 0 acc ∧
               (n ≤ max_items l → n' ≤ max_items l) ∧
               Forall (λ e : str * Value, depth + rank e.2 ≤ max_depth l) m).
Proof.
  intros Hd. revert acc. induction k as [|k IH]; intros acc Hacc; simpl.
  { eapply sim_mono; [apply sim_ret|]. intros n a n' [-> ->]. split_and!; [lia|lia|done]. }
  eapply sim_mono; [eapply sim_bind; [exact Hd|]|].
  - intros key. instantiate (1 := λ key n1 m n', ∃ k v n2, key = Str k ∧ value_post depth n1 v n2 ∧
      foldr (λ e x, entry_count e + x) 0 m + n2 ≤
        n' + (foldr (λ e x, entry_count e + x) 0 acc + entry_count (k, v)) ∧
      (n2 ≤ max_items l → n' ≤ max_items l) ∧
      Forall (λ e : str * Value, depth + rank e.2 ≤ max_depth l) m).
    destruct key as [| | |key| |]; try apply sim_fail.
    intros s1 s2 s1' m Ho (v & sm & H1 & H2)%bind_Ok_inv.
    destruct (Hd _ _ _ _ Ho H1) as (sm2 & H3 & H4 & H5).
    destruct (insert_sum entry_count acc key v) as [Hs Hp];
      [intros e; unfold entry_count; pose proof (counts_le e.2); lia|].
    destruct (IH (map_insert Value acc key v)) with (s1 := sm) (s2 := sm2) (s1' := s1') (a := m)
      as (s2' & H6 & H7 & ? & ? & ?); [|done|done|].
    { apply Hp; [done|]. by destruct H5 as (_ & _ & ?). }
    exists s2'. split; [by erewrite bind_Ok by exact H3|]. split; [done|].
    exists key, v, (decoded_items sm). split_and!; try done. lia.
  - intros n m n' (key & n1 & (? & ? & ?) & (k' & v & n2 & -> & (? & ? & ?) & ? & ? & ?)).
    change (entry_count (k', v)) with (1 + item_count v) in *. simpl in *. split_and!; [lia|lia|done].
Qed.

(** A scalar counts no item besides its own. *)
Definition leaf_post (n : Z) (v : Value) (n' : Z) : Prop := n' = n ∧ rank v = 0 ∧ item_count v = 1.

(** What remains after the item itself was counted. *)
Definition body_post (depth initial n : Z) (v : Value) (n' : Z) : Prop :=
  0 ≤ initial → initial ∈ payload → depth ≤ max_depth l → n ≤ max_items l → value_post depth (n - 1) v n'.

Lemma leaf_body depth initial n v n' : leaf_post n v n' → body_post depth initial n v n'.
Proof. intros (-> & H1 & H2) _ _ ? ?. unfold value_post. rewrite H1, H2. lia. Qed.

Lemma sim_leaf v : match v with Array _ | Object _ => False | _ => True end → sim (ret v) (ret v) leaf_post.
Proof.
  intros ?. pose proof (Hscalar v). eapply sim_mono; [apply sim_ret|]. intros n v' n' [-> ->].
  unfold leaf_post. by destruct v.
Qed.

Lemma sim_simple k : sim (decode_simple payload k) (decode_simple payload k) leaf_post.
Proof.
  unfold decode_simple. case_ltb; try (by apply sim_leaf); try apply sim_fail.
  all: eapply sim_mono; [eapply sim_bind; [apply sim_read_bytes|intros bs]|].
  all: try (instantiate (1 := λ _, leaf_post)).
  all: try (destruct (number_of_f64_bits _); [by apply sim_leaf|apply sim_fail]).
  all: intros n v n' (? & ? & [-> _] & ?); done.
Qed.

Lemma sim_negative k :
  sim (let* raw := read_len payload k in
       let value := -1 - raw in
       if (- 2 ^ 63 <=? value) && (value <? 2 ^ 63) then ret (Num (number_of_i64 value))
       else fail NegativeOutOfRange)
      (let* raw := read_len payload k in
       let value := -1 - raw in
       if (- 2 ^ 63 <=? value) && (value <? 2 ^ 63) then ret (Num (number_of_i64 value))
       else fail NegativeOutOfRange) leaf_post.
Proof.
  eapply sim_mono; [eapply sim_bind; [apply sim_read_len|]|].
  - intros raw. instantiate (1 := λ _, leaf_post). cbv zeta. destruct (_ && _); [by apply sim_leaf|apply sim_fail].
  - intros n v n' (z & n1 & [-> _] & H). exact H.
Qed.

Lemma sim_text len :
  sim (let* bytes := read_bytes payload len in
       if utf8_valid bytes then ret (Str bytes) else fail TextNotUtf8)
      (let* bytes := read_bytes payload len in
       if utf8_valid bytes then ret (Str bytes) else fail TextNotUtf8) leaf_post.
Proof.
  eapply sim_mono; [eapply sim_bind; [apply sim_read_bytes|]|].
  - intros bs. instantiate (1 := λ _, leaf_post). destruct (utf8_valid bs); [by apply sim_leaf|apply sim_fail].
  - intros n v n' (z & n1 & [-> _] & H). exact H.
Qed.

(** The numbers of a byte string. *)
Lemma embedded_counts bs :
  item_count (Array ((λ b, Num (number_of_u64 b)) <$> bs)) = 1 + Z.of_nat (length bs).
Proof.
  cbn [item_count]. induction bs as [|b bs IH]; [done|]. cbn [fmap list_fmap foldr item_count length]. lia.
Qed.

Lemma array_depth depth vs :
  depth ≤ max_depth l → Forall (λ v, saturating_succ depth + rank v ≤ max_depth l) vs →
  depth + rank (Array vs) ≤ max_depth l.
Proof.
  intros Hd Hvs. enough (rank (Array vs) ≤ max_depth l - depth) by lia. apply Harray; [lia|].
  eapply Forall_impl; [exact Hvs|]. unfold saturating_succ. simpl. lia.
Qed.

Lemma object_depth depth m :
  depth ≤ max_depth l →
  Forall (λ e : str * Value, saturating_succ depth + rank e.2 ≤ max_depth l) m →
  depth + rank (Object m) ≤ max_depth l.
Proof.
  intros Hd Hm. enough (rank (Object m) ≤ max_depth l - depth) by lia. apply Hobject; [lia|].
  eapply Forall_impl; [exact Hm|]. unfold saturating_succ. simpl. lia.
Qed.

Lemma sim_decode fuel depth :
  sim (decode_value_at_depth payload (Some l) fuel depth)
      (decode_value_at_depth payload None fuel depth) (value_post depth).
Proof.
  revert depth. induction fuel as [|fuel IH]; intros depth; [by intros s1 s2 s1' a _ [=]|].
  cbn [decode_value_at_depth].
  eapply sim_mono; [eapply sim_bind; [apply sim_note|intros ?; eapply sim_bind; [apply sim_read_u8|intros initial]]|].
  - instantiate (1 := body_post depth). cbv beta. unfold reserve_embedded_items.
    assert (Hland : 0 ≤ initial → 0 ≤ Z.land initial 31) by (intros; apply Z.land_nonneg; lia).
    case_ltb.
    + eapply sim_mono; [eapply sim_bind; [apply sim_read_len|intros; by apply sim_leaf]|].
      intros n v n' (z & n1 & [-> _] & H). by apply leaf_body.
    + eapply sim_mono; [apply sim_negative|apply leaf_body].
    + eapply sim_mono; [eapply sim_bind; [apply sim_sized|intros len; eapply sim_bind; [apply sim_count|
        intros ?; eapply sim_bind; [apply sim_read_bytes|intros; apply sim_ret]]]|].
      intros n v n' (len & n1 & [-> Hlen] & _ & n2 & (-> & ?) & bs & n3 & (-> & Hbs & Hin) & -> & ->) Hinit Hpay ? ?.
      specialize (Hlen (Hland Hinit)). unfold value_post.
      rewrite embedded_counts, (Hstring initial bs) by done. lia.
    + eapply sim_mono; [eapply sim_bind; [apply sim_sized|intros len; apply sim_text]|].
      intros n v n' (len & n1 & [-> _] & H). by apply leaf_body.
    + eapply sim_mono; [eapply sim_bind; [apply sim_sized|intros len; eapply sim_bind; [apply sim_items, IH|intros; apply sim_ret]]|].
      intros n v n' (len & n1 & [-> _] & vs & n2 & (? & ? & Hd) & -> & ->) Hinit _ ? ?.
      apply array_depth in Hd; [|done]. unfold value_post. simpl item_count. lia.
    + eapply sim_mono; [eapply sim_bind; [apply sim_sized|intros len; eapply sim_bind; [apply sim_entries; [apply IH|constructor]|intros; apply sim_ret]]|].
      intros n v n' (len & n1 & [-> _] & m & n2 & (? & ? & Hd) & -> & ->) Hinit _ ? ?.
      apply object_depth in Hd; [|done]. unfold value_post.
      change (item_count (Object m)) with (1 + foldr (λ e x, entry_count e + x) 0 m). simpl foldr in *. lia.
    + eapply sim_mono; [apply sim_simple|apply leaf_body].
    + apply sim_fail.
  - intros n v n' (_ & n1 & (Hd1 & -> & Hd2) & b & n2 & (-> & Hb & Hpay) & HP).
    specialize (HP Hb Hpay ltac:(done) ltac:(done)). unfold value_post in *. lia.
Qed.
End Refinement.

(** Without a byte of major type 2 in the payload there is no byte string, and
    [nesting] is the measure; [level] is one for every payload. *)
Lemma nesting_within {JL : JsonLib} {JLaws : JsonLibLaws} payload l fuel :
  Forall is_byte payload → max_depth l < USIZE_MAX → (∀ b, b ∈ payload → Z.shiftr b 5 ≠ 2) →
  sim (decode_value_at_depth payload (Some l) fuel 0) (decode_value_at_depth payload None fuel 0)
    (value_post l nesting 0).
Proof.
  intros Hb Hd Hno. apply sim_decode; [done|done|by intros []| | |].
  - intros d vs ? H. by apply (max_le_iff (λ v, 1 + nesting v)).
  - intros d m ? H. by apply (max_le_iff (λ e : str * Value, 1 + nesting e.2)).
  - intros b bs Hin E. by destruct (Hno b Hin).
Qed.

Lemma byte_numbers {JL : JsonLib} {JLaws : JsonLibLaws} bs :
  Forall is_byte bs → forallb byte_number ((λ b, Num (number_of_u64 b)) <$> bs) = true.
Proof.
  induction 1 as [|b bs Hb _ IH]; [done|]. rewrite fmap_cons. cbn [forallb]. rewrite IH, andb_true_r.
  unfold byte_number, is_byte in *. rewrite as_u64_of_u64 by (unfold U64_MAX; lia). lia.
Qed.

Lemma level_within {JL : JsonLib} {JLaws : JsonLibLaws} payload l fuel :
  Forall is_byte payload → max_depth l < USIZE_MAX →
  sim (decode_value_at_depth payload (Some l) fuel 0) (decode_value_at_depth payload None fuel 0)
    (value_post l level 0).
Proof.
  intros Hb Hd. apply sim_decode; [done|done|by intros []| | |].
  - intros d vs ? H. cbn [level]. destruct (forallb _ _); [done|]. by apply (max_le_iff (λ v, 1 + level v)).
  - intros d m ? H. by apply (max_le_iff (λ e : str * Value, 1 + level e.2)).
  - intros b bs _ _ H. cbn [level]. by rewrite byte_numbers.
Qed.
