(* ===== verification/CborTheorems.v ===== *)
(** * Properties of the canonical CBOR codec

    The statements a client of [canonical_cbor.rs] relies on, each over every
    implementation of the JSON interface that satisfies its documented laws. *)

From S2P Require Import Prelude Utf8 Json CanonicalCbor CborFacts.
From stdpp Require Import options.

(** ** Lengths *)

Section Lengths.
Context {JL : JsonLib}.

Lemma checked_add_ok a b : a + b ≤ USIZE_MAX → checked_encoded_len_add a b = ok (a + b).
Proof. intros. unfold checked_encoded_len_add. by case_ltb; [|lia]. Qed.

Lemma encoded_text_len_ok t :
  Z.of_nat (length (encode_text t)) ≤ USIZE_MAX →
  encoded_text_len t = ok (Z.of_nat (length (encode_text t))).
Proof.
  unfold encode_text, encoded_text_len. rewrite length_app, Nat2Z.inj_add, encode_type_len_length.
  apply checked_add_ok.
Qed.

Lemma encoded_number_len_ok n bs :
  encode_number n = ok bs → encoded_number_len n = ok (Z.of_nat (length bs)).
Proof.
  unfold encode_number, encoded_number_len.
  repeat case_match; intros [= <-]; rewrite ?encode_type_len_length; try done.
  all: rewrite length_cons, be_bytes_length; done.
Qed.

(** Bytes an entry contributes, zero when its value does not encode. *)
Definition entry_size (e : str * Value) : Z :=
  match encode_value e.2 with
  | inr b => Z.of_nat (length (encode_text e.1) + length b)
  | inl _ => 0
  end.

Lemma entry_size_nonneg e : 0 ≤ entry_size e.
Proof. unfold entry_size. case_match; lia. Qed.

Definition len_array_step (acc r : result Z) : result Z :=
  and_then acc (λ total, and_then r (λ n, checked_encoded_len_add total n)).

Lemma fold_array_ok t (ns : list Z) :
  Forall (λ n, 0 ≤ n) ns → t + foldr Z.add 0 ns ≤ USIZE_MAX →
  foldl len_array_step (ok t) (ok <$> ns) = ok (t + foldr Z.add 0 ns).
Proof.
  intros Hns. revert t. induction Hns as [|n ns Hn Hns IH]; intros t Ht.
  { simpl. f_equal. lia. }
  assert (0 ≤ foldr Z.add 0 ns) by (clear -Hns; induction Hns; simpl; lia).
  rewrite fmap_cons. cbn [foldl foldr] in *.
  assert (len_array_step (ok t) (ok n) = ok (t + n)) as ->.
  { unfold len_array_step. simpl. apply checked_add_ok. lia. }
  rewrite IH by lia. f_equal. lia.
Qed.

Definition len_entry_step (acc : result Z) (e : str * result Z) : result Z :=
  and_then acc (λ total, and_then (encoded_text_len e.1) (λ k,
    and_then (checked_encoded_len_add total k) (λ total,
      and_then e.2 (λ n, checked_encoded_len_add total n)))).

Lemma fold_entries_ok t entries :
  Forall (λ e, ∃ b, encode_value e.2 = ok b ∧
    (Z.of_nat (length b) ≤ USIZE_MAX → encoded_value_len e.2 = ok (Z.of_nat (length b)))) entries →
  0 ≤ t → t + foldr (λ e n, entry_size e + n) 0 entries ≤ USIZE_MAX →
  foldl len_entry_step (ok t) ((λ e, (e.1, encoded_value_len e.2)) <$> entries) =
    ok (t + foldr (λ e n, entry_size e + n) 0 entries).
Proof.
  intros Hall. revert t. induction Hall as [|e entries (b & Hb & Hlen) Hall IH]; intros t Ht0 Ht.
  { simpl. f_equal. lia. }
  assert (0 ≤ foldr (λ e n, entry_size e + n) 0 entries).
  { clear. induction entries as [|e l IH]; simpl; [lia|]. pose proof (entry_size_nonneg e). lia. }
  assert (Hs : entry_size e = Z.of_nat (length (encode_text e.1)) + Z.of_nat (length b)).
  { unfold entry_size. rewrite Hb. simpl. lia. }
  rewrite fmap_cons. cbn [foldl foldr] in *. rewrite Hs in *.
  assert (len_entry_step (ok t) (e.1, encoded_value_len e.2) =
    ok (t + Z.of_nat (length (encode_text e.1)) + Z.of_nat (length b))) as ->.
  { unfold len_entry_step. simpl. rewrite encoded_text_len_ok by lia. simpl.
    rewrite checked_add_ok by lia. simpl. rewrite Hlen by lia. simpl. apply checked_add_ok. lia. }
  rewrite IH by lia. f_equal. lia.
Qed.

Lemma encoded_value_len_ok v bs :
  encode_value v = ok bs → Z.of_nat (length bs) ≤ USIZE_MAX →
  encoded_value_len v = ok (Z.of_nat (length bs)).
Proof.
  revert bs. induction v as [|[]|n|t|items IH|entries IH] using Value_rect'; intros bs Henc Hle.
  1-3: by injection Henc as <-.
  - by apply encoded_number_len_ok.
  - injection Henc as <-. by apply encoded_text_len_ok.
  - apply encode_array_Ok in Henc as (bss & Hall & ->).
    rewrite length_app, Nat2Z.inj_add, encode_type_len_length in *.
    assert (Hsum : Z.of_nat (length (concat bss)) = foldr Z.add 0 ((λ b, Z.of_nat (length b)) <$> bss)).
    { clear. induction bss as [|b bss IHb]; [done|].
      rewrite fmap_cons. cbn [concat foldr]. rewrite length_app. lia. }
    assert (Hitems : encoded_value_len <$> items = ok <$> ((λ b, Z.of_nat (length b)) <$> bss)).
    { assert (Hb : Forall (λ b, Z.of_nat (length b) ≤ USIZE_MAX) bss).
      { rewrite Forall_forall. intros b Hin. apply list_elem_of_split in Hin as (l1 & l2 & ->).
        rewrite concat_app in Hle. simpl in Hle. rewrite !length_app in Hle.
        assert (0 ≤ encoded_type_len_len (Z.of_nat (length items)))
          by (unfold encoded_type_len_len; case_ltb; lia). lia. }
      clear -IH Hall Hb. induction Hall as [|i b items bss Hi Hall IHl]; [done|].
      apply Forall_cons in IH as [IHi ?]. apply Forall_cons in Hb as [? ?].
      rewrite !fmap_cons, IHl by done. f_equal. by apply IHi. }
    cbn [encoded_value_len]. change (foldl _ _ _) with
      (foldl len_array_step (ok (encoded_type_len_len (Z.of_nat (length items)))) (encoded_value_len <$> items)).
    rewrite Hitems, Hsum in *. apply fold_array_ok; [|lia].
    apply Forall_fmap, Forall_true. simpl. lia.
  - apply encode_object_Ok in Henc as (bss & Hall & ->).
    rewrite length_app, Nat2Z.inj_add, encode_type_len_length in *.
    pose proof (merge_sort_Permutation text_le entries) as Hperm.
    assert (Hsum : Z.of_nat (length (concat bss)) = foldr (λ e n, entry_size e + n) 0 entries).
    { rewrite <-(sum_perm _ _ _ Hperm). clear -Hall.
      induction Hall as [|e b l bss (vb & Hv & ->) Hall IHl]; simpl; [done|].
      rewrite !length_app. unfold entry_size at 1. rewrite Hv. simpl. lia. }
    cbn [encoded_value_len]. change (foldl _ _ _) with
      (foldl len_entry_step (ok (encoded_type_len_len (Z.of_nat (length entries))))
         ((λ e, (e.1, encoded_value_len e.2)) <$> entries)).
    rewrite Hsum in *. apply fold_entries_ok; [|unfold encoded_type_len_len; case_ltb; lia|done].
    rewrite <-Hperm in IH |- *. clear -IH Hall.
    induction Hall as [|e b l bss (vb & Hv & ->) Hall IHl]; [constructor|].
    apply Forall_cons in IH as [IHe ?]. constructor; [|auto]. exists vb. split; [done|]. auto.
Qed.
End Lengths.

(** ** Round trip and injectivity *)

Section Codec.
#[local] Set Default Proof Using "All".
Context {JL : JsonLib} {JLaws : JsonLibLaws}.

Lemma run_decoder_reads v bs limits :
  value_wf v = true → encode_value v = ok bs → Z.of_nat (length bs) ≤ USIZE_MAX →
  match limits with Some l => limits_sane l | None => True end →
  within limits 0 0 (nesting v) (item_budget v) →
  run_decoder bs limits = Ok (canon v).
Proof.
  intros Hwf Henc Hmax Hlim Hw. unfold run_decoder, decode_value.
  assert (Hn : nesting v < Z.of_nat (S (length bs))).
  { enough (nesting v < Z.of_nat (length bs)) by lia.
    clear -Henc. revert bs Henc.
    induction v as [|b|n|t|items IH|entries IH] using Value_rect'; intros bs Henc;
      try (apply encode_value_pos in Henc; simpl; lia).
    - apply encode_array_Ok in Henc as (bss & Hall & ->). rewrite length_app.
      pose proof (encode_type_len_pos 4 (Z.of_nat (length items))).
      enough (nesting (Array items) ≤ Z.of_nat (length (concat bss))) by lia.
      apply (max_le_iff (λ i, 1 + nesting i)); [lia|].
      clear -IH Hall. induction Hall as [|i b items bss Hi Hall IHl]; [constructor|].
      apply Forall_cons in IH as [IHi IH]. cbn [concat]. rewrite length_app.
      constructor; [specialize (IHi _ Hi); lia|].
      eapply Forall_impl; [by apply IHl|]. simpl. lia.
    - apply encode_object_Ok in Henc as (bss & Hall & ->). rewrite length_app.
      pose proof (encode_type_len_pos 5 (Z.of_nat (length entries))).
      enough (nesting (Object entries) ≤ Z.of_nat (length (concat bss))) by lia.
      apply (max_le_iff (λ e : str * Value, 1 + nesting e.2)); [lia|].
      rewrite <-(merge_sort_Permutation text_le entries) in IH |- *.
      clear -IH Hall. induction Hall as [|e b l bss (vb & Hv & ->) Hall IHl]; [constructor|].
      apply Forall_cons in IH as [IHe IH]. cbn [concat]. rewrite !length_app.
      constructor; [specialize (IHe _ Hv); lia|].
      eapply Forall_impl; [by apply IHl|]. simpl. lia. }
  erewrite bind_Ok; [|eapply (encode_reads bs limits Hmax Hlim v bs Hwf Henc _ _ _ [] []);
    [by rewrite app_nil_r|done|exact Hn|exact Hw]].
  unfold finish, bind, get. simpl. by rewrite decide_True.
Qed.
End Codec.

(** C8. The decoder inverts the encoder: the canonical bytes of any well-formed
    JSON value decode, without limits, to that value with each object's entries
    in canonical key order. *)
Theorem decode_encode_roundtrip {JL : JsonLib} {JLaws : JsonLibLaws} (v : Value) (bs : str) :
  value_wf v = true → encode_value v = ok bs → Z.of_nat (length bs) ≤ USIZE_MAX →
  run_decoder bs None = Ok (canon v).
Proof. intros. by apply run_decoder_reads. Qed.

(** A sample document that exercises every constructor. *)
Definition sample_value : Value (JL := StdJson.lib) :=
  Object [(lit "bb", Array [Num (number_of_u64 70000); Bool true; Num (number_of_i64 (-500))]);
          (lit "a", Str (lit "xyz")); (lit "c", Object [(lit "n", Null)])].

Definition sample_bytes : str :=
  [163; 97; 97; 99; 120; 121; 122; 97; 99; 161; 97; 110; 246; 98; 98; 98; 131;
   26; 0; 1; 17; 112; 245; 57; 1; 243].

Lemma decode_encode_roundtrip_witness :
  encode_value sample_value = ok sample_bytes ∧ run_decoder sample_bytes None = Ok (canon sample_value).
Proof.
  assert (H : encode_value sample_value = ok sample_bytes) by (vm_compute; reflexivity).
  split; [exact H|]. apply (decode_encode_roundtrip (JL := StdJson.lib) (JLaws := StdJson.laws) sample_value sample_bytes).
  - vm_compute; reflexivity.
  - exact H.
  - vm_compute; discriminate.
Defined.

(** Limits that cover the value do not change the result of decoding: a
    bounded decode succeeds with the same value when the item budget and the
    depth limit admit it. *)
Lemma bounded_decode_roundtrip {JL : JsonLib} {JLaws : JsonLibLaws}
    (v : Value) (bs : str) (l : DecodeLimits) :
  value_wf v = true → encode_value v = ok bs → Z.of_nat (length bs) ≤ USIZE_MAX →
  nesting v ≤ max_depth l ≤ USIZE_MAX → item_budget v ≤ max_items l ≤ USIZE_MAX →
  run_decoder bs (Some l) = Ok (canon v).
Proof.
  intros. apply run_decoder_reads; [done..|split; lia|]. unfold within. lia.
Qed.

Lemma bounded_decode_roundtrip_witness :
  run_decoder sample_bytes (Some {| max_bytes := 64; max_items := 20; max_depth := 2 |})
    = Ok (canon sample_value).
Proof.
  apply (bounded_decode_roundtrip (JL := StdJson.lib) (JLaws := StdJson.laws) sample_value); vm_compute;
    first [reflexivity | discriminate | split; discriminate].
Defined.

(** The bytes identify the value: two well-formed values have the same
    canonical encoding exactly when they are equal up to the order of object
    entries. *)
Lemma encode_injective {JL : JsonLib} {JLaws : JsonLibLaws} (v w : Value) (bs : str) :
  value_wf v = true → value_wf w = true → encode_value v = ok bs → Z.of_nat (length bs) ≤ USIZE_MAX →
  encode_value w = ok bs ↔ canon v = canon w.
Proof.
  intros Hv Hw Ev Hmax. split.
  - intros Ew. pose proof (run_decoder_reads v bs None Hv Ev Hmax I I) as H1.
    pose proof (run_decoder_reads w bs None Hw Ew Hmax I I) as H2. congruence.
  - intros Heq. rewrite <-(encode_canon w Hw), <-Heq, (encode_canon v Hv). done.
Qed.

Lemma encode_injective_witness :
  encode_value (JL := StdJson.lib) (canon sample_value) = ok sample_bytes ↔
  canon sample_value = canon (canon sample_value).
Proof.
  apply (encode_injective (JL := StdJson.lib) (JLaws := StdJson.laws) sample_value (canon sample_value) sample_bytes);
    vm_compute; first [reflexivity | discriminate].
Defined.

(** The encoding of an object does not depend on the order in which its
    entries were inserted. *)
Lemma encode_order_independent {JL : JsonLib} (es es' : list (str * Value)) :
  NoDup es.*1 → es ≡ₚ es' → encode_value (Object es) = encode_value (Object es').
Proof. apply encode_entries_perm. Qed.

Lemma encode_order_independent_witness :
  encode_value (JL := StdJson.lib) (Object [(lit "b", Null); (lit "a", Bool true)]) =
  encode_value (JL := StdJson.lib) (Object [(lit "a", Bool true); (lit "b", Null)]).
Proof.
  apply (encode_order_independent (JL := StdJson.lib)).
  - apply (bool_decide_unpack _). vm_compute. exact I.
  - apply perm_swap.
Defined.

(** C38. The length oracle of the quota checks is exact: whenever a value encodes
    to a buffer of representable length, [encoded_value_len] returns that
    length and reports no overflow. *)
Theorem encoded_len_exact {JL : JsonLib} (v : Value) (bs : str) :
  encode_value v = ok bs → Z.of_nat (length bs) ≤ USIZE_MAX →
  encoded_value_len v = ok (Z.of_nat (length bs)).
Proof. apply encoded_value_len_ok. Qed.

Lemma encoded_len_exact_witness : encoded_value_len sample_value = ok 26.
Proof. apply (encoded_len_exact sample_value sample_bytes); vm_compute; first [reflexivity|discriminate]. Defined.

(** C23. Decoding is total: on every byte string, with or without limits, the
    decoder returns a value or an error; it never reads out of bounds, and the
    fuel of the model (the payload length) is never exhausted. *)
Theorem decode_total {JL : JsonLib} (payload : str) (limits : option DecodeLimits) :
  Forall is_byte payload →
  (∃ v, run_decoder payload limits = Ok v) ∨ (∃ e, run_decoder payload limits = Err e).
Proof.
  intros Hb. unfold run_decoder.
  assert (H : wp (let* value := decode_value payload limits in finish payload ;;* ret value)
    (λ _ _, True) (λ _ _, True) decoder_new).
  { apply wp_bind. unfold decode_value. eapply wp_mono;
      [apply (decode_value_wp payload limits Hb); simpl; lia| |done].
    intros v s _. unfold wp, finish, bind, get. by case_decide. }
  unfold wp in H. destruct (bind _ _ decoder_new) as [s' [v|e| |]]; simpl; eauto; done.
Qed.

Lemma decode_total_witness :
  (∃ v, run_decoder (JL := StdJson.lib) [0x9f; 1] None = Ok v) ∨
  (∃ e, run_decoder (JL := StdJson.lib) [0x9f; 1] None = Err e).
Proof. apply (decode_total (JL := StdJson.lib)). apply (bool_decide_unpack _); vm_compute; exact I. Defined.

(** C21. The bounded decoder only ever restricts the unbounded one: when it
    accepts a payload, the unbounded decoder returns the same value, which has at
    most [max_items] data items and, for a depth limit below the largest [usize],
    at most [max_depth] levels. An array of bytes has no level of its own there,
    since a byte string, a single item, decodes to one; where the payload has no
    byte that starts a byte string, every element of every array is a level and
    the limit still holds. *)
Theorem bounded_decode_refines {JL : JsonLib} {JLaws : JsonLibLaws}
    (payload : str) (l : DecodeLimits) (v : Value) :
  Forall is_byte payload → max_depth l < USIZE_MAX →
  run_decoder payload (Some l) = Ok v →
  run_decoder payload None = Ok v ∧ item_count v ≤ max_items l ∧ level v ≤ max_depth l ∧
  ((∀ b, b ∈ payload → Z.shiftr b 5 ≠ 2) → nesting v ≤ max_depth l).
Proof.
  intros Hb Hd. unfold run_decoder.
  destruct (bind (decode_value payload (Some l)) _ decoder_new) as [s' o] eqn:Hrun.
  simpl. intros ->. apply bind_Ok_inv in Hrun as (v' & s1 & H1 & H2).
  destruct (level_within payload l _ Hb Hd decoder_new decoder_new _ _ eq_refl H1)
    as (s2 & H3 & H4 & Hp1 & Hp2 & Hp3).
  unfold decode_value. erewrite bind_Ok by exact H3. unfold finish, bind, get in H2 |- *.
  rewrite <-H4. case_decide; [|done]. simpl in *. injection H2 as _ ->. split_and!; [done|lia|lia|].
  intros Hno. by destruct (nesting_within payload l _ Hb Hd Hno decoder_new decoder_new _ _ eq_refl H1)
    as (_ & _ & _ & _ & _ & ?).
Qed.

Lemma bounded_decode_refines_witness :
  run_decoder sample_bytes None = Ok (canon sample_value) ∧
  item_count (canon sample_value) ≤ 20 ∧ level (canon sample_value) ≤ 2 ∧
  ((∀ b, b ∈ sample_bytes → Z.shiftr b 5 ≠ 2) → nesting (canon sample_value) ≤ 2).
Proof.
  apply (bounded_decode_refines (JL := StdJson.lib) (JLaws := StdJson.laws) sample_bytes
    {| max_bytes := 64; max_items := 20; max_depth := 2 |}).
  - apply (bool_decide_unpack _); vm_compute; exact I.
  - vm_compute; reflexivity.
  - vm_cast_no_check (@eq_refl (outcome CborError (Value (JL := StdJson.lib))) (Ok (canon sample_value))).
Defined.

Lemma ok_inj {A} (a b : A) : ok a = ok b → a = b.
Proof. unfold ok. congruence. Qed.

(** Signing preimages are domain separated: for NUL-terminated domains, equal
    preimages come from the same domain and the same body. *)
Lemma signing_preimage_injective (d1 d2 b1 b2 p : str) :
  0 ∉ d1 → 0 ∉ d2 →
  signing_preimage (d1 ++ [0]) b1 = ok p → signing_preimage (d2 ++ [0]) b2 = ok p →
  d1 = d2 ∧ b1 = b2.
Proof.
  intros N1 N2. unfold signing_preimage. case_ltb; try done. intros E1 E2.
  rewrite <-E2 in E1. apply ok_inj in E1. clear E2. rewrite <-!app_assoc in E1.
  assert (d1 = d2) as ->.
  { clear -N1 N2 E1. revert d2 N2 E1. induction d1 as [|x d1 IH]; intros [|y d2] N2 E1; simpl in *; try done.
    - injection E1 as <- _. set_solver.
    - injection E1 as -> _. set_solver.
    - injection E1 as -> E1. f_equal. apply IH; set_solver. }
  split; [done|]. apply app_inv_head in E1. apply (app_inv_head [0]) in E1.
  assert (drop 8 (be_bytes 8 (Z.of_nat (length b1)) ++ b1) = drop 8 (be_bytes 8 (Z.of_nat (length b2)) ++ b2))
    as E by by rewrite E1.
  by rewrite !drop_app_length' in E by by rewrite be_bytes_length.
Qed.

Lemma signing_preimage_injective_witness : lit "D/V1" = lit "D/V1" ∧ [7; 8] = [7; 8].
Proof.
  apply (signing_preimage_injective (lit "D/V1") (lit "D/V1") [7; 8] [7; 8]
    (lit "D/V1" ++ [0; 0; 0; 0; 0; 0; 0; 0; 2; 7; 8])).
  - apply (bool_decide_unpack _). vm_compute. exact I.
  - apply (bool_decide_unpack _). vm_compute. exact I.
  - vm_compute; reflexivity.
  - vm_compute; reflexivity.
Defined.
