(* ===== verification/Wire.v ===== *)
(** * Length-prefixed wire frames

    [crates/ostadix-api/src/wire.rs]: a frame is a big-endian [u32] length and
    that many bytes of canonical CBOR.  A [Read] source is the sequence of what
    its successive [read] calls can deliver, so that short reads, a clean end of
    stream, an end in the middle of a frame and I/O errors are all covered. *)

From S2P Require Import Prelude Utf8 Json CanonicalCbor.
From stdpp Require Import options.

Definition MAX_FRAME_LEN : Z := 128 * 1024 * 1024.

Inductive WireError : Type :=
| ReadLengthFailed
| ReadPayloadFailed
| ClosedInLength
| FrameTooLong (len max : Z)
| PayloadExceedsU32
| Codec (e : CborError).

(** ** Byte sources *)

Inductive ReadEvent : Type :=
| Data (bs : str)
| Broken.

Abbreviation Reader := (list ReadEvent).

(** [Read::read] into a buffer of [k] bytes: [Some []] is end of stream. *)
Definition read (k : nat) : M Reader WireError (option str) := λ r,
  match r with
  | [] => ([], Ok (Some []))
  | Broken :: r => (r, Ok None)
  | Data bs :: r =>
      (match drop k bs with [] => r | rest => Data rest :: r end, Ok (Some (take k bs)))
  end.

(** [Read::read_exact]: read until the buffer is full. *)
Fixpoint read_exact (fuel k : nat) : M Reader WireError str :=
  match k with
  | O => ret []
  | S _ =>
      match fuel with
      | O => no_fuel
      | S fuel =>
          let* chunk := read k in
          match chunk with
          | None | Some [] => fail ReadPayloadFailed
          | Some bs => let* rest := read_exact fuel (k - length bs) in ret (bs ++ rest)
          end
      end
  end.

(** The loop that fills [len_buf]; [None] is a clean end of stream before the
    first byte. *)
Fixpoint read_len_buf (fuel : nat) (got : str) : M Reader WireError (option str) :=
  if decide (length got < 4)%nat then
    match fuel with
    | O => no_fuel
    | S fuel =>
        let* chunk := read (4 - length got) in
        match chunk with
        | None => fail ReadLengthFailed
        | Some [] => if decide (got = []) then ret None else fail ClosedInLength
        | Some bs => read_len_buf fuel (got ++ bs)
        end
    end
  else ret (Some got).

Definition read_frame_payload (max_frame_len : Z) : M Reader WireError (option str) :=
  let* len_buf := read_len_buf 4 [] in
  match len_buf with
  | None => ret None
  | Some len_buf =>
      let len := be_value len_buf in
      if max_frame_len <? len then fail (FrameTooLong len max_frame_len)
      else
        let* payload := read_exact (Z.to_nat len) (Z.to_nat len) in
        ret (Some payload)
  end.

(** ** Byte sinks: the bytes written so far. *)

Definition write_frame_payload (payload : str) : M str WireError unit :=
  if U32_MAX <? Z.of_nat (length payload) then fail PayloadExceedsU32
  else modify (λ out, out ++ be_bytes 4 (Z.of_nat (length payload)) ++ payload).

(** ** Messages *)

Section Frames.
Context {JL : JsonLib} {T : Type} (to_value : T → option Value) (from_value : Value → option T).

Definition encode_message (message : T) : result str := encode to_value message.
Definition encoded_message_len (message : T) : result Z := encoded_len to_value message.
Definition decode_message (payload : str) : outcome CborError T := decode from_value payload.

Definition write_frame (message : T) : M str WireError unit :=
  match encode_message message with
  | inl e => fail (Codec e)
  | inr payload => write_frame_payload payload
  end.

Definition write_frame_with_max (message : T) (max_frame_len : Z) : M str WireError unit :=
  match encode_message message with
  | inl e => fail (Codec e)
  | inr payload =>
      if max_frame_len <? Z.of_nat (length payload)
      then fail (FrameTooLong (Z.of_nat (length payload)) max_frame_len)
      else write_frame_payload payload
  end.

Definition read_frame_with_max (max_frame_len : Z) : M Reader WireError (option T) :=
  let* payload := read_frame_payload max_frame_len in
  match payload with
  | None => ret None
  | Some payload =>
      match decode_message payload with
      | Ok m => ret (Some m)
      | Err e => fail (Codec e)
      | Panic => panic
      | NoFuel => no_fuel
      end
  end.

Definition read_frame : M Reader WireError (option T) := read_frame_with_max MAX_FRAME_LEN.
End Frames.

(** ** Delivered bytes *)

(** The stream of a source that never fails, and the sources that deliver
    non-empty chunks only. *)
Definition stream (r : Reader) : str :=
  concat ((λ e, match e with Data bs => bs | Broken => [] end) <$> r).

Definition steady (r : Reader) : Prop := Forall (λ e, ∃ b bs, e = Data (b :: bs)) r.

Lemma stream_nil r : steady r → stream r = [] → r = [].
Proof. destruct 1 as [|e r (b & bs & ->)]; done. Qed.

(** One [read] of a steady source delivers a non-empty prefix of its stream. *)
Lemma read_steady r k :
  steady r → (0 < k)%nat → stream r ≠ [] →
  ∃ bs r', read k r = (r', Ok (Some bs)) ∧ steady r' ∧ bs ≠ [] ∧
    (length bs ≤ k)%nat ∧ stream r = bs ++ stream r'.
Proof.
  intros Hs Hk Hne. destruct Hs as [|e r (b & bs & ->) Hs]; [done|].
  destruct k as [|k]; [lia|]. cbn [read drop take].
  assert (stream (Data (b :: bs) :: r) = b :: bs ++ stream r) as Hst by done.
  exists (b :: take k bs).
  destruct (drop k bs) as [|c rest] eqn:Hd.
  - exists r. split_and!; try done.
    + simpl. rewrite length_take. lia.
    + rewrite Hst. simpl. do 2 f_equal. rewrite <-(take_drop k bs) at 1. by rewrite Hd, app_nil_r.
  - exists (Data (c :: rest) :: r). split_and!; try done.
    + constructor; [eauto|done].
    + simpl. rewrite length_take. lia.
    + rewrite Hst. simpl. f_equal. rewrite <-(take_drop k bs) at 1. rewrite Hd.
      by rewrite <-app_assoc.
Qed.

Lemma read_exact_steady fuel k r pre post :
  steady r → stream r = pre ++ post → length pre = k → (k ≤ fuel)%nat →
  ∃ r', read_exact fuel k r = (r', Ok pre) ∧ steady r' ∧ stream r' = post.
Proof.
  revert k r pre. induction fuel as [|fuel IH]; intros k r pre Hs Hst Hlen Hk.
  { destruct k; [|lia]. apply nil_length_inv in Hlen as ->. by exists r. }
  destruct k as [|k']; [apply nil_length_inv in Hlen as ->; by exists r|].
  cbn [read_exact]. set (k := S k') in *. destruct pre as [|x pre]; [done|].
  destruct (read_steady r k) as (bs & r1 & Hr & Hs1 & Hne & Hle & Hst1);
    [done|lia|by rewrite Hst|].
  erewrite bind_Ok by exact Hr. destruct bs as [|b bs]; [done|].
  rewrite Hst in Hst1. apply app_eq_inv in Hst1 as [(k1 & Hbs & Hpost)|(k1 & Hpre & Hr1)].
  - (* the chunk ends inside [pre] *)
    destruct (IH (k - length (b :: bs))%nat r1 k1) as (r2 & H2 & Hs2 & Hst2).
    + done.
    + done.
    + apply (f_equal length) in Hbs. rewrite length_app in Hbs. lia.
    + simpl. lia.
    + exists r2. subst k. erewrite bind_Ok by exact H2. by rewrite Hbs.
  - assert (k1 = []) as ->.
    { apply (f_equal length) in Hpre. rewrite length_app in Hpre. apply nil_length_inv. lia. }
    rewrite app_nil_r in Hpre. simpl in Hr1.
    destruct (IH (k - length (b :: bs))%nat r1 []) as (r2 & H2 & Hs2 & Hst2).
    + done.
    + simpl. congruence.
    + rewrite Hpre. simpl in *. lia.
    + simpl. lia.
    + exists r2. subst k. erewrite bind_Ok by exact H2. by rewrite app_nil_r, Hpre.
Qed.

Lemma read_len_buf_steady fuel got r pre post :
  steady r → stream r = pre ++ post → (length got + length pre = 4)%nat → (length pre ≤ fuel)%nat →
  ∃ r', read_len_buf fuel got r = (r', Ok (Some (got ++ pre))) ∧ steady r' ∧ stream r' = post.
Proof.
  revert got r pre. induction fuel as [|fuel IH]; intros got r pre Hs Hst Hlen Hf.
  { assert (pre = []) as -> by (apply nil_length_inv; lia). cbn [read_len_buf].
    rewrite decide_False by (simpl in *; lia). exists r. by rewrite app_nil_r. }
  cbn [read_len_buf]. destruct pre as [|x pre].
  { rewrite decide_False by (simpl in *; lia). exists r. by rewrite app_nil_r. }
  rewrite decide_True by (simpl in *; lia).
  destruct (read_steady r (4 - length got)) as (bs & r1 & Hr & Hs1 & Hne & Hle & Hst1);
    [done|simpl in *; lia|by rewrite Hst|].
  erewrite bind_Ok by exact Hr. destruct bs as [|b bs]; [done|].
  rewrite Hst in Hst1. apply app_eq_inv in Hst1 as [(k1 & Hbs & Hpost)|(k1 & Hpre & Hr1)].
  - destruct (IH (got ++ b :: bs) r1 k1) as (r2 & H2 & Hs2 & Hst2).
    + done.
    + done.
    + rewrite length_app. apply (f_equal length) in Hbs. rewrite length_app in Hbs. simpl in *. lia.
    + apply (f_equal length) in Hbs. rewrite length_app in Hbs. simpl in *. lia.
    + exists r2. rewrite H2. rewrite Hbs, <-app_assoc. done.
  - assert (k1 = []) as ->.
    { apply (f_equal length) in Hpre. rewrite length_app in Hpre. apply nil_length_inv. simpl in *. lia. }
    rewrite app_nil_r in Hpre. simpl in Hr1.
    destruct (IH (got ++ b :: bs) r1 []) as (r2 & H2 & Hs2 & Hst2).
    + done.
    + simpl. congruence.
    + rewrite length_app, Hpre. simpl in *. lia.
    + simpl. lia.
    + exists r2. rewrite H2. by rewrite app_nil_r, Hpre.
Qed.
