(* ===== verification/WireTheorems.v ===== *)
(** * Properties of the wire framing *)

From S2P Require Import Prelude Utf8 Json CanonicalCbor CborFacts CborTheorems Wire.
From stdpp Require Import options.

(** The bytes of one frame. *)
Definition frame (payload : str) : str := be_bytes 4 (Z.of_nat (length payload)) ++ payload.

Lemma write_frame_payload_ok payload out :
  Z.of_nat (length payload) ≤ U32_MAX →
  write_frame_payload payload out = (out ++ frame payload, Ok tt).
Proof. intros. unfold write_frame_payload. by case_ltb; [lia|]. Qed.

Lemma read_frame_payload_ok max r payload post :
  steady r → stream r = frame payload ++ post → Z.of_nat (length payload) ≤ U32_MAX →
  Z.of_nat (length payload) ≤ max →
  ∃ r', read_frame_payload max r = (r', Ok (Some payload)) ∧ steady r' ∧ stream r' = post.
Proof.
  intros Hs Hst Hu Hmax. unfold frame in Hst. rewrite <-app_assoc in Hst.
  destruct (read_len_buf_steady 4 [] r _ _ Hs Hst) as (r1 & H1 & Hs1 & Hst1);
    [by rewrite be_bytes_length..|].
  unfold read_frame_payload. erewrite bind_Ok by exact H1. cbn beta iota zeta.
  change ([] ++ be_bytes 4 (Z.of_nat (length payload))) with (be_bytes 4 (Z.of_nat (length payload))).
  rewrite be_value_bytes by (change (256 ^ Z.of_nat 4) with (U32_MAX + 1); lia).
  destruct (Z.ltb_spec max (Z.of_nat (length payload))); [lia|]. rewrite Nat2Z.id.
  destruct (read_exact_steady (length payload) (length payload) r1 payload post)
    as (r2 & H2 & Hs2 & Hst2); [done..|].
  exists r2. by erewrite bind_Ok by exact H2.
Qed.

(** C39. Framing is independent of how the bytes arrive: whatever non-empty chunks
    a source delivers, reading a frame that [write_frame_payload] produced
    returns its payload and leaves exactly the bytes that follow it. *)
Theorem frame_roundtrip (payload post out : str) (max : Z) (r : Reader) :
  Z.of_nat (length payload) ≤ U32_MAX → Z.of_nat (length payload) ≤ max →
  write_frame_payload payload [] = (out, Ok tt) →
  steady r → stream r = out ++ post →
  ∃ r', read_frame_payload max r = (r', Ok (Some payload)) ∧ steady r' ∧ stream r' = post.
Proof.
  intros Hu Hmax Hw Hs Hst. rewrite write_frame_payload_ok in Hw by done.
  injection Hw as <-. by apply (read_frame_payload_ok max r payload post).
Qed.

Lemma frame_roundtrip_witness :
  ∃ r', read_frame_payload 8 [Data [0; 0]; Data [0; 2; 5]; Data [6; 7]] = (r', Ok (Some [5; 6]))
        ∧ steady r' ∧ stream r' = [7].
Proof.
  apply (frame_roundtrip [5; 6] [7] [0; 0; 0; 2; 5; 6]); try (vm_compute; first [reflexivity|discriminate]).
  repeat (constructor; [eexists _, _; reflexivity|]). constructor.
Defined.

(** The writer's side of a conversation and the reader's loop over it. *)
Fixpoint write_frames (payloads : list str) : M str WireError unit :=
  match payloads with
  | [] => ret tt
  | p :: ps => write_frame_payload p ;;* write_frames ps
  end.

Fixpoint read_frames (fuel : nat) (max : Z) : M Reader WireError (list str) :=
  match fuel with
  | O => no_fuel
  | S fuel =>
      let* p := read_frame_payload max in
      match p with
      | None => ret []
      | Some p => let* ps := read_frames fuel max in ret (p :: ps)
      end
  end.

(** A conversation survives framing: after any sequence of payloads has been
    written, reading until the clean end of the stream returns the same sequence,
    whatever the chunking. *)
Lemma conversation_roundtrip (payloads : list str) (max : Z) (out : str) (r : Reader) :
  max ≤ U32_MAX → Forall (λ p, Z.of_nat (length p) ≤ max) payloads →
  write_frames payloads [] = (out, Ok tt) → steady r → stream r = out →
  read_frames (S (length payloads)) max r = ([], Ok payloads).
Proof.
  intros Hmax Hall Hw Hs Hst.
  assert (Hout : ∀ ps o, Forall (λ p, Z.of_nat (length p) ≤ max) ps →
    write_frames ps o = (o ++ concat (frame <$> ps), Ok tt)).
  { induction ps as [|p ps IH]; intros o Hps; simpl; [by rewrite app_nil_r|].
    apply Forall_cons in Hps as [Hp Hps].
    erewrite bind_Ok by (apply write_frame_payload_ok; lia). rewrite IH by done.
    by rewrite <-app_assoc. }
  rewrite Hout in Hw by done. injection Hw as <-. clear Hout. revert r Hs Hst.
  induction Hall as [|p ps Hp Hall IH]; intros r Hs Hst.
  - apply stream_nil in Hst as ->; [done|done].
  - cbn [read_frames length].
    destruct (read_frame_payload_ok max r p (concat (frame <$> ps))) as (r1 & H1 & Hs1 & Hst1);
      [done|done|lia|done|].
    erewrite bind_Ok by exact H1. cbn beta iota. erewrite bind_Ok by (apply IH; [done|by rewrite Hst1]). done.
Qed.

Lemma conversation_roundtrip_witness :
  read_frames 3 16 [Data [0; 0; 0]; Data [1; 9; 0; 0; 0; 0]] = ([], Ok [[9]; []]).
Proof.
  apply (conversation_roundtrip [[9]; []] 16 [0; 0; 0; 1; 9; 0; 0; 0; 0]).
  - vm_compute; discriminate.
  - apply (bool_decide_unpack _). vm_compute. exact I.
  - vm_compute; reflexivity.
  - repeat (constructor; [eexists _, _; reflexivity|]). constructor.
  - vm_compute; reflexivity.
Defined.

Lemma read_exact_short fuel k r :
  steady r → (length (stream r) < k)%nat → (k ≤ fuel)%nat →
  ∃ r', read_exact fuel k r = (r', Err ReadPayloadFailed).
Proof.
  revert k r. induction fuel as [|fuel IH]; intros k r Hs Hlt Hf; [lia|].
  destruct k as [|k]; [lia|]. cbn [read_exact].
  destruct (decide (stream r = [])) as [He|He].
  { apply stream_nil in He as ->; [|done]. by eexists. }
  destruct (read_steady r (S k)) as (bs & r1 & Hr & Hs1 & Hne & Hle & Hst1); [done|lia|done|].
  erewrite bind_Ok by exact Hr. destruct bs as [|b bs]; [done|].
  destruct (IH (S k - length (b :: bs))%nat r1) as [r2 H2]; [done| |simpl; lia|].
  { rewrite Hst1, length_app in Hlt. simpl in *. lia. }
  exists r2. unfold bind. cbn [length] in *. by rewrite H2.
Qed.

Lemma read_len_buf_short fuel got r :
  steady r → (length got + length (stream r) < 4)%nat → (4 - length got ≤ fuel)%nat →
  got ≠ [] ∨ stream r ≠ [] →
  ∃ r', read_len_buf fuel got r = (r', Err ClosedInLength).
Proof.
  revert got r. induction fuel as [|fuel IH]; intros got r Hs Hlt Hf Hne; [lia|].
  cbn [read_len_buf]. rewrite decide_True by lia.
  destruct (decide (stream r = [])) as [He|He].
  { apply stream_nil in He as ->; [|done]. simpl in Hne. unfold bind, read.
    destruct Hne as [Hg|?]; [|done]. rewrite decide_False by done. by eexists. }
  destruct (read_steady r (4 - length got)) as (bs & r1 & Hr & Hs1 & Hnb & Hle & Hst1); [done|lia|done|].
  erewrite bind_Ok by exact Hr. destruct bs as [|b bs]; [done|].
  rewrite Hst1, length_app in Hlt. simpl in Hlt.
  apply IH; [done|rewrite length_app; simpl; lia|rewrite length_app; simpl; lia|].
  left. by destruct got.
Qed.

(** A truncated frame is an error and never a clean end of stream: if the
    source ends after some but not all bytes of a frame, reading it fails. *)
Theorem truncated_frame_rejected (payload tail : str) (max : Z) (r : Reader) :
  Z.of_nat (length payload) ≤ U32_MAX → Z.of_nat (length payload) ≤ max →
  steady r → stream r ≠ [] → tail ≠ [] → frame payload = stream r ++ tail →
  ∃ r' e, read_frame_payload max r = (r', Err e) ∧ (e = ClosedInLength ∨ e = ReadPayloadFailed).
Proof.
  intros Hu Hmax Hs Hne Ht Hf. unfold read_frame_payload.
  destruct (decide (length (stream r) < 4)%nat) as [Hlt|Hge].
  - destruct (read_len_buf_short 4 [] r) as [r1 H1]; [done|simpl; lia|simpl; lia|by right|].
    exists r1, ClosedInLength. unfold bind. rewrite H1. auto.
  - unfold frame in Hf.
    assert (∃ k, stream r = be_bytes 4 (Z.of_nat (length payload)) ++ k ∧ payload = k ++ tail)
      as (k & Hk & Hp).
    { apply app_eq_inv in Hf as [(k & Hk & Hp)|(k & Hk & Hp)]; [|eauto].
      assert (k = []) as ->.
      { apply nil_length_inv. apply (f_equal length) in Hk. rewrite length_app, be_bytes_length in Hk. lia. }
      exists []. rewrite app_nil_r in *. simpl in *. done. }
    destruct (read_len_buf_steady 4 [] r _ _ Hs Hk) as (r1 & H1 & Hs1 & Hst1);
      [by rewrite be_bytes_length..|].
    erewrite bind_Ok by exact H1. cbn beta iota zeta.
    change ([] ++ be_bytes 4 (Z.of_nat (length payload))) with (be_bytes 4 (Z.of_nat (length payload))).
    rewrite be_value_bytes by (change (256 ^ Z.of_nat 4) with (U32_MAX + 1); lia).
    destruct (Z.ltb_spec max (Z.of_nat (length payload))); [lia|]. rewrite Nat2Z.id.
    destruct (read_exact_short (length payload) (length payload) r1) as [r2 H2]; [done| |done|].
    { rewrite Hst1, Hp, length_app. destruct tail; [done|]. simpl. lia. }
    exists r2, ReadPayloadFailed. unfold bind. rewrite H2. auto.
Qed.

Lemma truncated_frame_rejected_witness :
  ∃ r' e, read_frame_payload 8 [Data [0; 0; 0]; Data [2; 5]] = (r', Err e) ∧
          (e = ClosedInLength ∨ e = ReadPayloadFailed).
Proof.
  apply (truncated_frame_rejected [5; 6] [6]); try (vm_compute; first [reflexivity|discriminate]).
  repeat (constructor; [eexists _, _; reflexivity|]). constructor.
Defined.

(** Messages survive the wire: for a message whose lowered value is well
    formed and whose lifting accepts the canonical key order, the reader gets
    back the message the writer sent. *)
Lemma message_roundtrip {JL : JsonLib} {JLaws : JsonLibLaws} {T : Type}
    (to_value : T → option Value) (from_value : Value → option T)
    (m : T) (v : Value) (out : str) (r : Reader) :
  to_value m = Some v → value_wf v = true → from_value (canon v) = Some m →
  write_frame_with_max to_value m MAX_FRAME_LEN [] = (out, Ok tt) →
  steady r → stream r = out →
  read_frame from_value r = ([], Ok (Some m)).
Proof.
  intros Hto Hwf Hfrom. unfold write_frame_with_max, encode_message, encode. rewrite Hto.
  destruct (encode_value v) as [|bs] eqn:Henc; [done|].
  destruct (Z.ltb_spec MAX_FRAME_LEN (Z.of_nat (length bs))) as [|Hle]; [done|].
  assert (Hb : Z.of_nat (length bs) ≤ U32_MAX) by (unfold MAX_FRAME_LEN, U32_MAX in *; lia).
  rewrite write_frame_payload_ok by done. intros [= <-] Hs Hst.
  destruct (read_frame_payload_ok MAX_FRAME_LEN r bs []) as (r1 & H1 & Hs1 & Hst1);
    [done|by rewrite app_nil_r|done|done|].
  unfold read_frame, read_frame_with_max. erewrite bind_Ok by exact H1.
  apply stream_nil in Hst1 as ->; [|done].
  unfold decode_message, decode, lift_value.
  rewrite (run_decoder_reads v bs None Hwf Henc); [|unfold USIZE_MAX, U64_MAX, U32_MAX in *; lia|done|done].
  by rewrite Hfrom.
Qed.

Lemma message_roundtrip_witness :
  read_frame (JL := StdJson.lib) Some [Data [0; 0; 0; 26]; Data sample_bytes] = ([], Ok (Some (canon sample_value))).
Proof.
  apply (message_roundtrip (JL := StdJson.lib) (JLaws := StdJson.laws) Some Some
    (canon sample_value) (canon sample_value) ([0; 0; 0; 26] ++ sample_bytes)).
  - reflexivity.
  - vm_compute; reflexivity.
  - vm_cast_no_check (@eq_refl (option (Value (JL := StdJson.lib))) (Some (canon sample_value))).
  - vm_compute; reflexivity.
  - repeat (constructor; [eexists _, _; reflexivity|]). constructor.
  - vm_compute; reflexivity.
Defined.
