(* ===== verification/Environment.v ===== *)
(** * Environment identities

    [crates/ostadix-api/src/environment.rs]: the [u32] that a block carries and
    its reading as an ephemeral, linker-isolated or persistent environment. *)

From S2P Require Import Prelude.
From stdpp Require Import options.

Definition EPHEMERAL_ENV_ID : Z := U32_MAX.
Definition LINKER_ISOLATED_ENV_ID : Z := U32_MAX - 1.
Definition MAX_PERSISTENT_ENV_ID : Z := U32_MAX - 2.

Inductive EnvironmentRefV2 : Type :=
| Ephemeral
| LinkerIsolated
| Persistent (id : Z).

(** [EnvironmentIdError::Reserved]. *)
Inductive EnvironmentIdError : Type := Reserved (id : Z).

#[export] Instance EnvironmentRefV2_eq_dec : EqDecision EnvironmentRefV2.
Proof. solve_decision. Defined.

Definition persistent (id : Z) : EnvironmentIdError + EnvironmentRefV2 :=
  if MAX_PERSISTENT_ENV_ID <? id then inl (Reserved id) else inr (Persistent id).

Definition from_encoded (id : Z) : EnvironmentRefV2 :=
  if id =? EPHEMERAL_ENV_ID then Ephemeral
  else if id =? LINKER_ISOLATED_ENV_ID then LinkerIsolated
  else Persistent id.

Definition encoded (e : EnvironmentRefV2) : Z :=
  match e with
  | Ephemeral => EPHEMERAL_ENV_ID
  | LinkerIsolated => LINKER_ISOLATED_ENV_ID
  | Persistent id => id
  end.

Definition runtime_env_id (e : EnvironmentRefV2) : Z :=
  match e with
  | Ephemeral | LinkerIsolated => EPHEMERAL_ENV_ID
  | Persistent id => id
  end.

Definition is_fresh (e : EnvironmentRefV2) : bool :=
  match e with Ephemeral | LinkerIsolated => true | Persistent _ => false end.

Definition is_persistent (e : EnvironmentRefV2) : bool :=
  match e with Persistent _ => true | _ => false end.

(** Optional marker between the backend name and the opening parenthesis. *)
Definition source_marker (e : EnvironmentRefV2) : option str :=
  match e with
  | Ephemeral => None
  | LinkerIsolated => Some (lit "[*]")
  | Persistent id => Some (lit "[" ++ dec id ++ lit "]")
  end.

(** The identities a program can author: numeric ones stay below the two
    reserved values. *)
Definition env_wf (e : EnvironmentRefV2) : Prop :=
  match e with Persistent id => 0 ≤ id ≤ MAX_PERSISTENT_ENV_ID | _ => True end.

(** The [u32] storage field is a faithful encoding: decoding what was
    encoded returns the identity, every [u32] is the encoding of its decoding,
    [persistent] accepts exactly the ids that do not collide with the reserved
    values, and the registry key collapses the two fresh forms and nothing else. *)
Lemma environment_encoding (e : EnvironmentRefV2) (id : Z) :
  (env_wf e → from_encoded (encoded e) = e) ∧
  encoded (from_encoded id) = id ∧
  (0 ≤ id ≤ U32_MAX →
    (persistent id = inr (Persistent id) ↔ from_encoded id = Persistent id) ∧
    env_wf (from_encoded id)) ∧
  (env_wf e → runtime_env_id e = EPHEMERAL_ENV_ID ↔ is_fresh e = true).
Proof.
  unfold from_encoded, persistent, EPHEMERAL_ENV_ID, LINKER_ISOLATED_ENV_ID, MAX_PERSISTENT_ENV_ID, U32_MAX.
  split_and!.
  - destruct e; simpl; unfold MAX_PERSISTENT_ENV_ID, U32_MAX; intros; case_ltb; try lia; reflexivity.
  - case_ltb; simpl; unfold EPHEMERAL_ENV_ID, LINKER_ISOLATED_ENV_ID, U32_MAX; lia.
  - intros Hid. case_ltb; simpl; unfold MAX_PERSISTENT_ENV_ID, U32_MAX;
      (split; [split; intros; try discriminate; try lia; reflexivity|]); try exact I; lia.
  - destruct e; simpl; unfold EPHEMERAL_ENV_ID, MAX_PERSISTENT_ENV_ID, U32_MAX; intros;
      split; intros; try lia; try reflexivity; discriminate.
Qed.

Lemma environment_encoding_witness :
  from_encoded (encoded (Persistent 7)) = Persistent 7 ∧ encoded (from_encoded 4294967294) = 4294967294.
Proof.
  destruct (environment_encoding (Persistent 7) 4294967294) as (H1 & H2 & _).
  split; [apply H1; vm_compute; split; discriminate|exact H2].
Defined.
