(* ===== verification/Identity.v ===== *)
(** * Governed identities

    [crates/ostadix-api/src/world/identity.rs] (the module [resource_identity]):
    the names and generations of worlds, nodes, domains, processes, resources,
    objects, tasks and artifacts, their validation, their text, and the fences
    that refuse a stale reference.  The two macros that declare a type per kind
    of name or generation are a type indexed by the kind. *)

From S2P Require Import Prelude.
From S2P Require Import Utf8.
From stdpp Require Import options.

Definition MAX_SIMPLE_ID_BYTES : Z := 128.
Definition MAX_RESOURCE_ID_BYTES : Z := 256.
Definition SHA256_HEX_BYTES : Z := 64.

Inductive WorldIdentityError : Type :=
| EmptyIdentifier (kind : str)
| IdentifierTooLong (kind : str) (limit : Z)
| InvalidIdentifier (kind value : str)
| ZeroGeneration (kind : str)
| GenerationExhausted (kind : str)
| IdentityMismatch (kind expected got : str)
| StaleGeneration (kind : str) (expected got : Z)
| InvalidArtifactDigest.

(** ** Validation *)

Definition is_component_byte (b : Z) : bool := is_ascii_alphanumeric b || bool_decide (b ∈ lit "._-+").

Definition validate_component (kind value : str) : WorldIdentityError + unit :=
  if bool_decide (value = []) then inl (EmptyIdentifier kind)
  else if MAX_SIMPLE_ID_BYTES <? Z.of_nat (length value) then inl (IdentifierTooLong kind MAX_SIMPLE_ID_BYTES)
  else if bool_decide (value = lit "." ∨ value = lit "..") || negb (forallb is_component_byte value)
  then inl (InvalidIdentifier kind value)
  else inr tt.

Definition is_ok {E A} (r : E + A) : bool := match r with inr _ => true | inl _ => false end.

Definition validate_resource_path (value : str) : WorldIdentityError + unit :=
  let kind := lit "resource identity" in
  if bool_decide (value = []) then inl (EmptyIdentifier kind)
  else if MAX_RESOURCE_ID_BYTES <? Z.of_nat (length value) then inl (IdentifierTooLong kind MAX_RESOURCE_ID_BYTES)
  else if starts_with value (lit "/") || ends_with value (lit "/")
          || existsb (λ component, bool_decide (component = []) || bool_decide (component = lit ".")
                        || bool_decide (component = lit "..") || negb (is_ok (validate_component kind component)))
               (split_byte 47 value)
  then inl (InvalidIdentifier kind value)
  else inr tt.

(** ** Names and generations *)

Inductive NameKind : Type :=
| WorldName | ProcessName | NodeName | DomainName | ObjectName | CapabilityName | LeaseName | TaskName
| CheckpointName | ReceiptName.

Definition name_kind (k : NameKind) : str :=
  match k with
  | WorldName => lit "world identity"
  | ProcessName => lit "process identity"
  | NodeName => lit "node identity"
  | DomainName => lit "domain identity"
  | ObjectName => lit "object identity"
  | CapabilityName => lit "capability identity"
  | LeaseName => lit "lease identity"
  | TaskName => lit "task identity"
  | CheckpointName => lit "checkpoint identity"
  | ReceiptName => lit "receipt identity"
  end.

Inductive GenerationKind : Type :=
| WorldEpochK | GovernorTermK | GovernorLogIndexK | NodeGenerationK | DomainGenerationK | ProcessGenerationK
| ResourceGenerationK | ObjectVersionK | AttemptGenerationK.

Definition generation_kind (k : GenerationKind) : str :=
  match k with
  | WorldEpochK => lit "world epoch"
  | GovernorTermK => lit "governor term"
  | GovernorLogIndexK => lit "governor log index"
  | NodeGenerationK => lit "node generation"
  | DomainGenerationK => lit "domain generation"
  | ProcessGenerationK => lit "process generation"
  | ResourceGenerationK => lit "resource generation"
  | ObjectVersionK => lit "object version"
  | AttemptGenerationK => lit "attempt generation"
  end.

(** [string_identity!] and [generation_identity!]. *)
Record string_identity (k : NameKind) : Type := { as_str : str }.
Record generation_identity (k : GenerationKind) : Type := { generation_get : Z }.
Arguments as_str {k}.
Arguments generation_get {k}.

Abbreviation WorldId := (string_identity WorldName).
Abbreviation NodeId := (string_identity NodeName).
Abbreviation DomainId := (string_identity DomainName).
Abbreviation ProcessId := (string_identity ProcessName).
Abbreviation ObjectId := (string_identity ObjectName).
Abbreviation CapabilityId := (string_identity CapabilityName).
Abbreviation TaskId := (string_identity TaskName).
Abbreviation CheckpointId := (string_identity CheckpointName).

Definition name_new (k : NameKind) (value : str) : WorldIdentityError + string_identity k :=
  let! _ := validate_component (name_kind k) value in inr {| as_str := value |}.

Definition generation_new (k : GenerationKind) (value : Z) : WorldIdentityError + generation_identity k :=
  if value =? 0 then inl (ZeroGeneration (generation_kind k)) else inr {| generation_get := value |}.

Definition generation_next {k} (g : generation_identity k) : WorldIdentityError + generation_identity k :=
  if U64_MAX <? generation_get g + 1 then inl (GenerationExhausted (generation_kind k))
  else generation_new k (generation_get g + 1).

Record ResourceId : Type := { resource_path : str }.

Definition resource_id_new (value : str) : WorldIdentityError + ResourceId :=
  let! _ := validate_resource_path value in inr {| resource_path := value |}.

Record ArtifactId : Type := { as_sha256 : str }.

Definition is_lower_hex (b : Z) : bool := is_digit b || in_range 97 102 b.

Definition from_sha256 (value : str) : WorldIdentityError + ArtifactId :=
  if negb (Z.of_nat (length value) =? SHA256_HEX_BYTES) || negb (forallb is_lower_hex value)
  then inl InvalidArtifactDigest else inr {| as_sha256 := value |}.

(** [FromStr for ArtifactId]. *)
Definition artifact_from_str (value : str) : WorldIdentityError + ArtifactId :=
  from_sha256 (default value (strip_prefix (lit "sha256:") value)).

(** ** Identities *)

Record WorldIdentity : Type := { wi_world : WorldId; wi_epoch : generation_identity WorldEpochK }.

Record GovernorIdentity : Type := {
  gi_world : WorldIdentity;
  gi_term : generation_identity GovernorTermK;
  gi_log_index : generation_identity GovernorLogIndexK;
}.

Record NodeIdentity : Type := {
  ni_world : WorldId;
  ni_node : NodeId;
  ni_generation : generation_identity NodeGenerationK;
}.

Record DomainIdentity : Type := {
  di_node : NodeIdentity;
  di_domain : DomainId;
  di_generation : generation_identity DomainGenerationK;
}.

Record ProcessIdentity : Type := {
  pi_domain : DomainIdentity;
  pi_process : ProcessId;
  pi_generation : generation_identity ProcessGenerationK;
}.

Inductive ResourceOwner : Type :=
| OwnerWorld (world : WorldIdentity)
| OwnerNode (node : NodeIdentity)
| OwnerDomain (domain : DomainIdentity)
| OwnerProcess (process : ProcessIdentity).

Record ResourceIdentity : Type := {
  ri_owner : ResourceOwner;
  ri_resource : ResourceId;
  ri_generation : generation_identity ResourceGenerationK;
}.

Record ObjectIdentity : Type := {
  oi_world : WorldId;
  oi_object : ObjectId;
  oi_version : generation_identity ObjectVersionK;
}.

Record CapabilityIdentity : Type := { ci_world : WorldId; ci_capability : CapabilityId }.

Record LeaseIdentity : Type := { li_world : WorldId; li_lease : string_identity LeaseName }.

Record TaskIdentity : Type := { ti_world : WorldId; ti_task : TaskId }.

Record ReceiptIdentity : Type := { re_world : WorldId; re_receipt : string_identity ReceiptName }.

Record AttemptIdentity : Type := {
  ai_world : WorldId;
  ai_task : TaskId;
  ai_attempt : generation_identity AttemptGenerationK;
}.

Record CheckpointIdentity : Type := { ck_attempt : AttemptIdentity; ck_checkpoint : CheckpointId }.

Record ArtifactPublicationIdentity : Type := { ap_world : WorldIdentity; ap_artifact : ArtifactId }.

Record KernelWorldBinding : Type := {
  kb_domain : DomainIdentity;
  kernel_world_name : ResourceId;
  kb_package : ArtifactId;
  provider_generation : Z;
}.

Definition from_descriptive_parts (domain : DomainIdentity) (name package_sha256 : str) (generation : Z) :
    WorldIdentityError + KernelWorldBinding :=
  let! name := resource_id_new name in
  let! generation := if generation =? 0 then inl (ZeroGeneration (lit "kernel world generation")) else inr generation in
  let! package := from_sha256 package_sha256 in
  inr {| kb_domain := domain; kernel_world_name := name; kb_package := package; provider_generation := generation |}.

(** [ResourceOwner::world]. *)
Definition owner_world (o : ResourceOwner) : WorldId :=
  match o with
  | OwnerWorld w => wi_world w
  | OwnerNode n => ni_world n
  | OwnerDomain d => ni_world (di_node d)
  | OwnerProcess p => ni_world (di_node (pi_domain p))
  end.

(** ** Text *)

Definition display_world (w : WorldIdentity) : str :=
  as_str (wi_world w) ++ lit "@" ++ dec (generation_get (wi_epoch w)).

Definition display_governor (g : GovernorIdentity) : str :=
  display_world (gi_world g) ++ lit "/governor:term-" ++ dec (generation_get (gi_term g))
    ++ lit "@" ++ dec (generation_get (gi_log_index g)).

Definition display_node (n : NodeIdentity) : str :=
  as_str (ni_world n) ++ lit "/node:" ++ as_str (ni_node n) ++ lit "@" ++ dec (generation_get (ni_generation n)).

Definition display_domain (d : DomainIdentity) : str :=
  display_node (di_node d) ++ lit "/domain:" ++ as_str (di_domain d)
    ++ lit "@" ++ dec (generation_get (di_generation d)).

Definition display_process (p : ProcessIdentity) : str :=
  display_domain (pi_domain p) ++ lit "/process:" ++ as_str (pi_process p)
    ++ lit "@" ++ dec (generation_get (pi_generation p)).

Definition display_owner (o : ResourceOwner) : str :=
  match o with
  | OwnerWorld w => display_world w
  | OwnerNode n => display_node n
  | OwnerDomain d => display_domain d
  | OwnerProcess p => display_process p
  end.

Definition display_resource (r : ResourceIdentity) : str :=
  display_owner (ri_owner r) ++ lit "/resource:" ++ resource_path (ri_resource r)
    ++ lit "@" ++ dec (generation_get (ri_generation r)).

Definition display_object (o : ObjectIdentity) : str :=
  as_str (oi_world o) ++ lit "/object:" ++ as_str (oi_object o) ++ lit "@" ++ dec (generation_get (oi_version o)).

Definition display_capability (c : CapabilityIdentity) : str :=
  as_str (ci_world c) ++ lit "/capability:" ++ as_str (ci_capability c).

Definition display_lease (l : LeaseIdentity) : str :=
  as_str (li_world l) ++ lit "/lease:" ++ as_str (li_lease l).

Definition display_task (t : TaskIdentity) : str := as_str (ti_world t) ++ lit "/task:" ++ as_str (ti_task t).

Definition display_receipt (r : ReceiptIdentity) : str :=
  as_str (re_world r) ++ lit "/receipt:" ++ as_str (re_receipt r).

Definition display_attempt (a : AttemptIdentity) : str :=
  as_str (ai_world a) ++ lit "/task:" ++ as_str (ai_task a) ++ lit "@" ++ dec (generation_get (ai_attempt a)).

Definition display_checkpoint (c : CheckpointIdentity) : str :=
  display_attempt (ck_attempt c) ++ lit "/checkpoint:" ++ as_str (ck_checkpoint c).

Definition display_artifact (a : ArtifactId) : str := lit "sha256:" ++ as_sha256 a.

Definition display_publication (a : ArtifactPublicationIdentity) : str :=
  display_world (ap_world a) ++ lit "/artifact:" ++ display_artifact (ap_artifact a).

(** ** Decidable equality and countability *)

#[export] Instance string_identity_eq_dec k : EqDecision (string_identity k).
Proof. solve_decision. Defined.
#[export] Instance generation_identity_eq_dec k : EqDecision (generation_identity k).
Proof. solve_decision. Defined.
#[export] Instance ResourceId_eq_dec : EqDecision ResourceId.
Proof. solve_decision. Defined.
#[export] Instance ArtifactId_eq_dec : EqDecision ArtifactId.
Proof. solve_decision. Defined.
#[export] Instance WorldIdentity_eq_dec : EqDecision WorldIdentity.
Proof. solve_decision. Defined.
#[export] Instance GovernorIdentity_eq_dec : EqDecision GovernorIdentity.
Proof. solve_decision. Defined.
#[export] Instance NodeIdentity_eq_dec : EqDecision NodeIdentity.
Proof. solve_decision. Defined.
#[export] Instance DomainIdentity_eq_dec : EqDecision DomainIdentity.
Proof. solve_decision. Defined.
#[export] Instance ProcessIdentity_eq_dec : EqDecision ProcessIdentity.
Proof. solve_decision. Defined.
#[export] Instance ResourceOwner_eq_dec : EqDecision ResourceOwner.
Proof. solve_decision. Defined.
#[export] Instance ResourceIdentity_eq_dec : EqDecision ResourceIdentity.
Proof. solve_decision. Defined.
#[export] Instance ObjectIdentity_eq_dec : EqDecision ObjectIdentity.
Proof. solve_decision. Defined.
#[export] Instance CapabilityIdentity_eq_dec : EqDecision CapabilityIdentity.
Proof. solve_decision. Defined.
#[export] Instance AttemptIdentity_eq_dec : EqDecision AttemptIdentity.
Proof. solve_decision. Defined.
#[export] Instance CheckpointIdentity_eq_dec : EqDecision CheckpointIdentity.
Proof. solve_decision. Defined.
#[export] Instance ArtifactPublicationIdentity_eq_dec : EqDecision ArtifactPublicationIdentity.
Proof. solve_decision. Defined.

#[export] Instance string_identity_countable k : Countable (string_identity k).
Proof. by apply (inj_countable' as_str (λ s, {| as_str := s |})); intros []. Defined.
#[export] Instance generation_identity_countable k : Countable (generation_identity k).
Proof. by apply (inj_countable' generation_get (λ g, {| generation_get := g |})); intros []. Defined.
#[export] Instance ResourceId_countable : Countable ResourceId.
Proof. by apply (inj_countable' resource_path (λ s, {| resource_path := s |})); intros []. Defined.
#[export] Instance ArtifactId_countable : Countable ArtifactId.
Proof. by apply (inj_countable' as_sha256 (λ s, {| as_sha256 := s |})); intros []. Defined.
#[export] Instance WorldIdentity_countable : Countable WorldIdentity.
Proof.
  by apply (inj_countable' (λ w, (wi_world w, wi_epoch w)) (λ '(a, b), {| wi_world := a; wi_epoch := b |})); intros [].
Defined.
#[export] Instance GovernorIdentity_countable : Countable GovernorIdentity.
Proof.
  by apply (inj_countable' (λ g, (gi_world g, gi_term g, gi_log_index g))
    (λ '(a, b, c), {| gi_world := a; gi_term := b; gi_log_index := c |})); intros [].
Defined.
#[export] Instance NodeIdentity_countable : Countable NodeIdentity.
Proof.
  by apply (inj_countable' (λ n, (ni_world n, ni_node n, ni_generation n))
    (λ '(a, b, c), {| ni_world := a; ni_node := b; ni_generation := c |})); intros [].
Defined.
#[export] Instance DomainIdentity_countable : Countable DomainIdentity.
Proof.
  by apply (inj_countable' (λ d, (di_node d, di_domain d, di_generation d))
    (λ '(a, b, c), {| di_node := a; di_domain := b; di_generation := c |})); intros [].
Defined.
#[export] Instance ProcessIdentity_countable : Countable ProcessIdentity.
Proof.
  by apply (inj_countable' (λ p, (pi_domain p, pi_process p, pi_generation p))
    (λ '(a, b, c), {| pi_domain := a; pi_process := b; pi_generation := c |})); intros [].
Defined.
#[export] Instance ResourceOwner_countable : Countable ResourceOwner.
Proof.
  by apply (inj_countable'
    (λ o, match o with
          | OwnerWorld w => inl (inl w) | OwnerNode n => inl (inr n)
          | OwnerDomain d => inr (inl d) | OwnerProcess p => inr (inr p) end)
    (λ s, match s with
          | inl (inl w) => OwnerWorld w | inl (inr n) => OwnerNode n
          | inr (inl d) => OwnerDomain d | inr (inr p) => OwnerProcess p end)); intros [].
Defined.
#[export] Instance ResourceIdentity_countable : Countable ResourceIdentity.
Proof.
  by apply (inj_countable' (λ r, (ri_owner r, ri_resource r, ri_generation r))
    (λ '(a, b, c), {| ri_owner := a; ri_resource := b; ri_generation := c |})); intros [].
Defined.
#[export] Instance ObjectIdentity_countable : Countable ObjectIdentity.
Proof.
  by apply (inj_countable' (λ o, (oi_world o, oi_object o, oi_version o))
    (λ '(a, b, c), {| oi_world := a; oi_object := b; oi_version := c |})); intros [].
Defined.
#[export] Instance CapabilityIdentity_countable : Countable CapabilityIdentity.
Proof.
  by apply (inj_countable' (λ c, (ci_world c, ci_capability c))
    (λ '(a, b), {| ci_world := a; ci_capability := b |})); intros [].
Defined.
#[export] Instance AttemptIdentity_countable : Countable AttemptIdentity.
Proof.
  by apply (inj_countable' (λ o, (ai_world o, ai_task o, ai_attempt o))
    (λ '(a, b, c), {| ai_world := a; ai_task := b; ai_attempt := c |})); intros [].
Defined.
#[export] Instance ArtifactPublicationIdentity_countable : Countable ArtifactPublicationIdentity.
Proof.
  by apply (inj_countable' (λ c, (ap_world c, ap_artifact c))
    (λ '(a, b), {| ap_world := a; ap_artifact := b |})); intros [].
Defined.

(** ** Fences: an exact reference is accepted, anything else refused *)

Definition require_same_logical {A} `{EqDecision A} (show : A → str) (kind : str) (expected got : A) :
    WorldIdentityError + unit :=
  if decide (expected = got) then inr tt else inl (IdentityMismatch kind (show expected) (show got)).

Definition require_generation (kind : str) (expected got : Z) : WorldIdentityError + unit :=
  if expected =? got then inr tt else inl (StaleGeneration kind expected got).

Class Fenced (A : Type) : Type := require_current : A → A → WorldIdentityError + unit.
Arguments require_current : simpl never.

#[export] Instance world_fence : Fenced WorldIdentity := λ s r,
  let! _ := require_same_logical as_str (lit "world") (wi_world s) (wi_world r) in
  require_generation (lit "world epoch") (generation_get (wi_epoch s)) (generation_get (wi_epoch r)).

#[export] Instance governor_fence : Fenced GovernorIdentity := λ s r,
  let! _ := require_current (gi_world s) (gi_world r) in
  let! _ := require_generation (lit "governor term") (generation_get (gi_term s)) (generation_get (gi_term r)) in
  require_generation (lit "governor log index") (generation_get (gi_log_index s)) (generation_get (gi_log_index r)).

#[export] Instance node_fence : Fenced NodeIdentity := λ s r,
  let! _ := require_same_logical as_str (lit "world") (ni_world s) (ni_world r) in
  let! _ := require_same_logical as_str (lit "node") (ni_node s) (ni_node r) in
  require_generation (lit "node generation") (generation_get (ni_generation s)) (generation_get (ni_generation r)).

#[export] Instance domain_fence : Fenced DomainIdentity := λ s r,
  let! _ := require_current (di_node s) (di_node r) in
  let! _ := require_same_logical as_str (lit "domain") (di_domain s) (di_domain r) in
  require_generation (lit "domain generation") (generation_get (di_generation s)) (generation_get (di_generation r)).

#[export] Instance process_fence : Fenced ProcessIdentity := λ s r,
  let! _ := require_current (pi_domain s) (pi_domain r) in
  let! _ := require_same_logical as_str (lit "process") (pi_process s) (pi_process r) in
  require_generation (lit "process generation") (generation_get (pi_generation s)) (generation_get (pi_generation r)).

#[export] Instance owner_fence : Fenced ResourceOwner := λ s r,
  match s, r with
  | OwnerWorld a, OwnerWorld b => require_current a b
  | OwnerNode a, OwnerNode b => require_current a b
  | OwnerDomain a, OwnerDomain b => require_current a b
  | OwnerProcess a, OwnerProcess b => require_current a b
  | _, _ => inl (IdentityMismatch (lit "resource owner") (display_owner s) (display_owner r))
  end.

#[export] Instance resource_fence : Fenced ResourceIdentity := λ s r,
  let! _ := require_current (ri_owner s) (ri_owner r) in
  let! _ := require_same_logical resource_path (lit "resource") (ri_resource s) (ri_resource r) in
  require_generation (lit "resource generation") (generation_get (ri_generation s)) (generation_get (ri_generation r)).

#[export] Instance object_fence : Fenced ObjectIdentity := λ s r,
  let! _ := require_same_logical as_str (lit "world") (oi_world s) (oi_world r) in
  let! _ := require_same_logical as_str (lit "object") (oi_object s) (oi_object r) in
  require_generation (lit "object version") (generation_get (oi_version s)) (generation_get (oi_version r)).

#[export] Instance attempt_fence : Fenced AttemptIdentity := λ s r,
  let! _ := require_same_logical as_str (lit "world") (ai_world s) (ai_world r) in
  let! _ := require_same_logical as_str (lit "task") (ai_task s) (ai_task r) in
  require_generation (lit "task attempt") (generation_get (ai_attempt s)) (generation_get (ai_attempt r)).

#[export] Instance checkpoint_fence : Fenced CheckpointIdentity := λ s r,
  let! _ := require_current (ck_attempt s) (ck_attempt r) in
  require_same_logical as_str (lit "checkpoint") (ck_checkpoint s) (ck_checkpoint r).

#[export] Instance publication_fence : Fenced ArtifactPublicationIdentity := λ s r,
  let! _ := require_current (ap_world s) (ap_world r) in
  require_same_logical display_artifact (lit "artifact") (ap_artifact s) (ap_artifact r).

(** What a fence promises to the code that holds a reference. *)
Class FenceLaw (A : Type) `{Fenced A} : Prop := fence_exact (s r : A) : require_current s r = inr tt ↔ s = r.

Lemma same_logical_ok {A} `{EqDecision A} show kind (a b : A) :
  require_same_logical show kind a b = inr tt ↔ a = b.
Proof. unfold require_same_logical. case_decide; naive_solver. Qed.

Lemma generation_ok {k} kind (a b : generation_identity k) :
  require_generation kind (generation_get a) (generation_get b) = inr tt ↔ a = b.
Proof.
  unfold require_generation. destruct a as [a], b as [b]; simpl. destruct (Z.eqb_spec a b); naive_solver.
Qed.

Lemma then_ok {E B} (r : E + unit) (k : E + B) b :
  (let! _ := r in k) = inr b ↔ r = inr tt ∧ k = inr b.
Proof. destruct r as [|[]]; simpl; naive_solver. Qed.

(** A fence that chains the fences of its coordinates is exact when they are. *)
Ltac fence :=
  intros [] []; unfold require_current at 1; simpl;
  rewrite ?then_ok, ?same_logical_ok, ?generation_ok, ?fence_exact; naive_solver.

#[export] Instance world_fence_law : FenceLaw WorldIdentity.
Proof. unfold world_fence. fence. Qed.
#[export] Instance node_fence_law : FenceLaw NodeIdentity.
Proof. unfold node_fence. fence. Qed.
#[export] Instance governor_fence_law : FenceLaw GovernorIdentity.
Proof. unfold governor_fence. fence. Qed.
#[export] Instance domain_fence_law : FenceLaw DomainIdentity.
Proof. unfold domain_fence. fence. Qed.
#[export] Instance process_fence_law : FenceLaw ProcessIdentity.
Proof. unfold process_fence. fence. Qed.
#[export] Instance owner_fence_law : FenceLaw ResourceOwner.
Proof. unfold owner_fence. fence. Qed.
#[export] Instance resource_fence_law : FenceLaw ResourceIdentity.
Proof. unfold resource_fence. fence. Qed.
#[export] Instance object_fence_law : FenceLaw ObjectIdentity.
Proof. unfold object_fence. fence. Qed.
#[export] Instance attempt_fence_law : FenceLaw AttemptIdentity.
Proof. unfold attempt_fence. fence. Qed.
#[export] Instance checkpoint_fence_law : FenceLaw CheckpointIdentity.
Proof. unfold checkpoint_fence. fence. Qed.
#[export] Instance publication_fence_law : FenceLaw ArtifactPublicationIdentity.
Proof. unfold publication_fence. fence. Qed.

(** ** Well-formed identities: those that the constructors return *)

Definition name_wf {k} (n : string_identity k) : Prop := name_new k (as_str n) = inr n.
Definition generation_wf {k} (g : generation_identity k) : Prop := 0 < generation_get g ≤ U64_MAX.
Definition path_wf (r : ResourceId) : Prop := resource_id_new (resource_path r) = inr r.
Definition world_wf (w : WorldIdentity) : Prop := name_wf (wi_world w) ∧ generation_wf (wi_epoch w).
Definition node_wf (n : NodeIdentity) : Prop :=
  name_wf (ni_world n) ∧ name_wf (ni_node n) ∧ generation_wf (ni_generation n).
Definition domain_wf (d : DomainIdentity) : Prop :=
  node_wf (di_node d) ∧ name_wf (di_domain d) ∧ generation_wf (di_generation d).
Definition process_wf (p : ProcessIdentity) : Prop :=
  domain_wf (pi_domain p) ∧ name_wf (pi_process p) ∧ generation_wf (pi_generation p).
Definition owner_wf (o : ResourceOwner) : Prop :=
  match o with
  | OwnerWorld w => world_wf w
  | OwnerNode n => node_wf n
  | OwnerDomain d => domain_wf d
  | OwnerProcess p => process_wf p
  end.
Definition resource_wf (r : ResourceIdentity) : Prop :=
  owner_wf (ri_owner r) ∧ path_wf (ri_resource r) ∧ generation_wf (ri_generation r).

(** What [validate_component] accepts. *)
Definition component (value : str) : Prop :=
  value ≠ [] ∧ Z.of_nat (length value) ≤ MAX_SIMPLE_ID_BYTES ∧ value ≠ lit "." ∧ value ≠ lit ".." ∧
  Forall (λ b, is_component_byte b = true) value.

Lemma validate_component_ok kind value : validate_component kind value = inr tt ↔ component value.
Proof.
  unfold validate_component, component. case_bool_decide as He; [naive_solver|].
  destruct (Z.ltb_spec MAX_SIMPLE_ID_BYTES (Z.of_nat (length value))); [split; [done|lia]|].
  rewrite <-forallb_Forall. case_bool_decide as Hd; simpl; [naive_solver|].
  destruct (forallb is_component_byte value) eqn:Hf; simpl; naive_solver.
Qed.

Lemma name_wf_ok {k} (n : string_identity k) : name_wf n ↔ component (as_str n).
Proof.
  unfold name_wf, name_new. rewrite then_ok, validate_component_ok. destruct n; naive_solver.
Qed.

Lemma component_clean value b : component value → is_component_byte b = false → b ∉ value.
Proof. intros (_ & _ & _ & _ & Hf) Hb Hin. eapply Forall_forall in Hf; [|done]. simpl in Hf. congruence. Qed.

Lemma is_ok_inr {E} (r : E + unit) : is_ok r = true ↔ r = inr tt.
Proof. destruct r as [|[]]; naive_solver. Qed.

(** ** Resource paths *)

Lemma path_components value :
  existsb (λ c, bool_decide (c = []) || bool_decide (c = lit ".") || bool_decide (c = lit "..")
             || negb (is_ok (validate_component (lit "resource identity") c))) (split_byte 47 value) = false ↔
  Forall component (split_byte 47 value).
Proof.
  rewrite <-not_true_iff_false, existsb_exists, Forall_forall. split.
  - intros H c Hc. apply (validate_component_ok (lit "resource identity")), is_ok_inr.
    destruct (is_ok _) eqn:Hok; [done|]. exfalso. apply H. exists c.
    split; [by apply list_elem_of_In|]. by rewrite Hok, orb_true_r.
  - intros H (c & Hc & Hb). apply list_elem_of_In, H in Hc as Hcomp.
    pose proof Hcomp as Hv. apply (validate_component_ok (lit "resource identity")), is_ok_inr in Hv.
    rewrite Hv in Hb. destruct Hcomp as (? & _ & ? & ? & _). by rewrite !bool_decide_eq_false_2 in Hb.
Qed.

Lemma path_no_edge value :
  Forall component (split_byte 47 value) → starts_with value (lit "/") || ends_with value (lit "/") = false.
Proof.
  intros H. apply orb_false_iff. rewrite <-!not_true_iff_false, starts_with_spec, ends_with_spec. split; intros [r ->].
  - change (lit "/" ++ r) with (47 :: r) in H. simpl in H. by apply Forall_cons in H as [[? _] _].
  - change (lit "/") with [47] in H. rewrite split_byte_snoc, Forall_app, Forall_singleton in H. by destruct H as [_ [? _]].
Qed.

(** A resource path is accepted exactly when it has at most 256 bytes and is
    the join with [/] of one or more components, each of at most 128 bytes from
    the component alphabet, none of them empty, [.] or [..]; so an accepted path
    is relative and cannot climb out of its owner. *)
Lemma resource_path_exact (value : str) :
  validate_resource_path value = inr tt ↔
  Z.of_nat (length value) ≤ MAX_RESOURCE_ID_BYTES ∧
  ∃ components, components ≠ [] ∧ Forall component components ∧ value = join_byte 47 components.
Proof.
  assert (Hcut : Forall component (split_byte 47 value) ↔
                 ∃ cs, cs ≠ [] ∧ Forall component cs ∧ value = join_byte 47 cs).
  { split.
    - intros H. exists (split_byte 47 value). by rewrite join_split; split; [apply split_byte_ne|].
    - intros (cs & Hne & Hcs & ->). rewrite split_join; [done|done|].
      eapply Forall_impl; [exact Hcs|]. intros c Hc. by apply (component_clean c 47 Hc). }
  rewrite <-Hcut, <-path_components. unfold validate_resource_path.
  case_bool_decide as He; [subst; split; [done|]|].
  { intros [_ H]. apply path_components in H. simpl in H. by apply Forall_singleton in H as [? _]. }
  case_ltb; [split; [done|lia]|].
  destruct (existsb _ _) eqn:Hx; [rewrite orb_true_r; naive_solver|].
  rewrite path_no_edge by (by apply path_components). naive_solver.
Qed.

(** ** Fences *)

(** Every fence is exact: a reference passes [require_current] if and only if
    it is the current identity, in every coordinate and generation, for each of
    the eleven identity types that have one. *)
Lemma fences_exact :
  (∀ s r : WorldIdentity, require_current s r = inr tt ↔ s = r) ∧
  (∀ s r : GovernorIdentity, require_current s r = inr tt ↔ s = r) ∧
  (∀ s r : NodeIdentity, require_current s r = inr tt ↔ s = r) ∧
  (∀ s r : DomainIdentity, require_current s r = inr tt ↔ s = r) ∧
  (∀ s r : ProcessIdentity, require_current s r = inr tt ↔ s = r) ∧
  (∀ s r : ResourceOwner, require_current s r = inr tt ↔ s = r) ∧
  (∀ s r : ResourceIdentity, require_current s r = inr tt ↔ s = r) ∧
  (∀ s r : ObjectIdentity, require_current s r = inr tt ↔ s = r) ∧
  (∀ s r : AttemptIdentity, require_current s r = inr tt ↔ s = r) ∧
  (∀ s r : CheckpointIdentity, require_current s r = inr tt ↔ s = r) ∧
  (∀ s r : ArtifactPublicationIdentity, require_current s r = inr tt ↔ s = r).
Proof. split_and!; intros s r; apply fence_exact. Qed.

(** A generation reached from another by one or more calls of [next]. *)
Definition later {k} : relation (generation_identity k) := tc (λ g h, generation_next g = inr h).

Lemma generation_next_ok {k} (g h : generation_identity k) :
  generation_wf g → generation_next g = inr h → generation_get h = generation_get g + 1 ∧ generation_wf h.
Proof.
  unfold generation_next, generation_new, generation_wf. intros Hg. case_ltb; intros; simplify_eq; simpl. lia.
Qed.

Lemma later_lt {k} (g h : generation_identity k) :
  generation_wf g → later g h → generation_get g < generation_get h ∧ generation_wf h.
Proof.
  intros Hg Hl. induction Hl as [g h Hn|g g' h Hn _ IH].
  - destruct (generation_next_ok g h Hg Hn). split; [lia|done].
  - destruct (generation_next_ok g g' Hg Hn) as [? Hg']. destruct (IH Hg'). split; [lia|done].
Qed.

Lemma same_logical_refl {A} `{EqDecision A} show kind (a : A) : require_same_logical show kind a a = inr tt.
Proof. by apply same_logical_ok. Qed.

Lemma generation_later {k} kind (g h : generation_identity k) :
  generation_wf g → later g h →
  require_generation kind (generation_get h) (generation_get g) =
  inl (StaleGeneration kind (generation_get h) (generation_get g)).
Proof. intros Hg [? _]%later_lt; [|done]. unfold require_generation. case_ltb; [lia|done]. Qed.

Lemma later_iff {k} (g h : generation_identity k) :
  generation_wf g → generation_wf h → later g h ↔ generation_get g < generation_get h.
Proof.
  intros Hg Hh. split; [by intros [? _]%later_lt|].
  destruct g as [g], h as [h]. unfold generation_wf in *. simpl in *. revert Hg.
  remember (Z.to_nat (h - g)) as n eqn:En. revert g En.
  induction n as [|n IH]; intros g En Hg Hlt; [lia|].
  assert (Hn : @generation_next k {| generation_get := g |} = inr {| generation_get := g + 1 |}).
  { unfold generation_next, generation_new. simpl. case_ltb; try lia; done. }
  destruct (decide (g + 1 = h)) as [<-|Hne]; [by apply tc_once|].
  eapply tc_l; [apply Hn|]. apply IH; lia.
Qed.



(** ** Text *)

Lemma path_clean r b : path_wf r → is_component_byte b = false → b ≠ 47 → b ∉ resource_path r.
Proof.
  unfold path_wf, resource_id_new. rewrite then_ok, resource_path_exact.
  intros [(_ & cs & _ & Hcs & ->) _] Hb Hne Hin.
  induction Hcs as [|c cs Hc Hcs IH]; simpl in Hin; [by apply not_elem_of_nil in Hin|].
  destruct cs as [|c' cs]; [by apply (component_clean c b) in Hin|].
  apply elem_of_app in Hin as [Hin|[->|Hin]%elem_of_cons]; [by apply (component_clean c b) in Hin|done|by apply IH].
Qed.

(** Two texts that end in a generation agree on it and on what comes before. *)
Lemma generation_tail {k} (x y : str) (g h : generation_identity k) :
  generation_wf g → generation_wf h →
  x ++ lit "@" ++ dec (generation_get g) = y ++ lit "@" ++ dec (generation_get h) → x = y ∧ g = h.
Proof.
  destruct g as [g], h as [h]. unfold generation_wf. simpl. intros Hg Hh E. unfold U64_MAX in *.
  apply cut_last in E as [-> E]; [|apply dec_no_byte; [lia|done]..].
  split; [done|]. f_equal. apply dec_inj; [lia|lia|done].
Qed.

(** Generations of different kinds: only what comes before is compared. *)
Lemma generation_head {k l} (x y : str) (g : generation_identity k) (h : generation_identity l) :
  generation_wf g → generation_wf h →
  x ++ lit "@" ++ dec (generation_get g) = y ++ lit "@" ++ dec (generation_get h) → x = y.
Proof.
  unfold generation_wf, U64_MAX. intros Hg Hh E.
  by apply cut_last in E as [-> _]; [|apply dec_no_byte; [lia|done]..].
Qed.

(** A labelled segment [/label:name] ends in a name without a colon. *)
Lemma segment_cut (label label' x y n m : str) :
  58 ∉ n → 58 ∉ m → x ++ (label ++ [58]) ++ n = y ++ (label' ++ [58]) ++ m → x ++ label = y ++ label' ∧ n = m.
Proof.
  intros Hn Hm E. rewrite <-!app_assoc, !(app_assoc _ label), !(app_assoc _ label') in E. simpl in E.
  by apply cut_last in E.
Qed.

Lemma segment_inj label (x y n m : str) :
  58 ∉ n → 58 ∉ m → x ++ (label ++ [58]) ++ n = y ++ (label ++ [58]) ++ m → x = y ∧ n = m.
Proof. intros Hn Hm E. apply segment_cut in E as [E ->]; [|done..]. by simplify_list_eq. Qed.

Lemma segment_clash label label' (x y n m : str) :
  last label ≠ last label' → is_Some (last label) → is_Some (last label') → 58 ∉ n → 58 ∉ m →
  x ++ (label ++ [58]) ++ n ≠ y ++ (label' ++ [58]) ++ m.
Proof.
  intros Hl [a Ha] [b Hb] Hn Hm E. apply segment_cut in E as [E _]; [|done..].
  apply (f_equal last) in E. rewrite !last_app, Ha, Hb in E. congruence.
Qed.

Lemma name_clean {k} (n : string_identity k) : name_wf n → 58 ∉ as_str n.
Proof. rewrite name_wf_ok. intros H. by apply component_clean. Qed.

Lemma name_no_segment {k} (n : string_identity k) label x m : name_wf n → as_str n ≠ x ++ (label ++ [58]) ++ m.
Proof. intros Hn%name_clean E. apply Hn. rewrite E. set_solver. Qed.

Lemma as_str_inj {k} (n m : string_identity k) : as_str n = as_str m → n = m.
Proof. destruct n, m; simpl; congruence. Qed.

Lemma node_text n : display_node n =
  (as_str (ni_world n) ++ (lit "/node" ++ [58]) ++ as_str (ni_node n)) ++ lit "@" ++ dec (generation_get (ni_generation n)).
Proof. unfold display_node. by rewrite <-!app_assoc. Qed.

Lemma domain_text d : display_domain d =
  (display_node (di_node d) ++ (lit "/domain" ++ [58]) ++ as_str (di_domain d))
    ++ lit "@" ++ dec (generation_get (di_generation d)).
Proof. unfold display_domain. by rewrite <-!app_assoc. Qed.

Lemma process_text p : display_process p =
  (display_domain (pi_domain p) ++ (lit "/process" ++ [58]) ++ as_str (pi_process p))
    ++ lit "@" ++ dec (generation_get (pi_generation p)).
Proof. unfold display_process. by rewrite <-!app_assoc. Qed.

Lemma resource_text r : display_resource r =
  (display_owner (ri_owner r) ++ (lit "/resource" ++ [58]) ++ resource_path (ri_resource r))
    ++ lit "@" ++ dec (generation_get (ri_generation r)).
Proof. unfold display_resource. by rewrite <-!app_assoc. Qed.

(** Project the coordinates of explicit records, without unfolding literals. *)
Ltac coordinates :=
  cbn [wi_world wi_epoch ni_world ni_node ni_generation di_node di_domain di_generation
       pi_domain pi_process pi_generation ri_owner ri_resource ri_generation] in *.

Lemma display_world_inj v w : world_wf v → world_wf w → display_world v = display_world w → v = w.
Proof.
  destruct v, w. intros [Hv Hg] [Hw Hh] E. unfold display_world in E. coordinates.
  apply generation_tail in E as [E%as_str_inj ->]; [|done..]. by subst.
Qed.

Lemma display_node_inj m n : node_wf m → node_wf n → display_node m = display_node n → m = n.
Proof.
  destruct m, n. intros (Hv & Hm & Hg) (Hw & Hn & Hh) E. rewrite !node_text in E. coordinates.
  apply generation_tail in E as [E ->]; [|done..].
  apply segment_inj in E as [E1%as_str_inj E2%as_str_inj]; [|by apply name_clean..]. by subst.
Qed.

Lemma display_domain_inj c d : domain_wf c → domain_wf d → display_domain c = display_domain d → c = d.
Proof.
  destruct c, d. intros (Hv & Hm & Hg) (Hw & Hn & Hh) E. rewrite !domain_text in E. coordinates.
  apply generation_tail in E as [E ->]; [|done..].
  apply segment_inj in E as [E1%display_node_inj E2%as_str_inj]; [|by auto using name_clean..]. by subst.
Qed.

Lemma display_process_inj p q : process_wf p → process_wf q → display_process p = display_process q → p = q.
Proof.
  destruct p, q. intros (Hv & Hm & Hg) (Hw & Hn & Hh) E. rewrite !process_text in E. coordinates.
  apply generation_tail in E as [E ->]; [|done..].
  apply segment_inj in E as [E1%display_domain_inj E2%as_str_inj]; [|by auto using name_clean..]. by subst.
Qed.

(** Owners of different scopes have different texts. *)
Lemma display_owner_scope o p :
  owner_wf o → owner_wf p → display_owner o = display_owner p →
  match o, p with
  | OwnerWorld _, OwnerWorld _ | OwnerNode _, OwnerNode _
  | OwnerDomain _, OwnerDomain _ | OwnerProcess _, OwnerProcess _ => True
  | _, _ => False
  end.
Proof.
  destruct o, p; cbn [display_owner owner_wf]; try done; unfold display_world;
    rewrite ?node_text, ?domain_text, ?process_text;
    unfold world_wf, node_wf, domain_wf, process_wf; intros; destruct_and?;
    match goal with E : _ ++ lit "@" ++ _ = _ |- _ => apply generation_head in E; [|done..] end;
    first
      [ by eapply name_no_segment; [|eassumption]
      | by eapply name_no_segment; [|symmetry; eassumption]
      | by eapply segment_clash; [| | | | |eassumption];
          [vm_compute; congruence|by eexists|by eexists|by apply name_clean..] ].
Qed.

Lemma display_owner_inj o p : owner_wf o → owner_wf p → display_owner o = display_owner p → o = p.
Proof.
  intros Ho Hp E. pose proof (display_owner_scope o p Ho Hp E) as Hs.
  destruct o, p; try done; simpl in *; f_equal;
    [by apply display_world_inj|by apply display_node_inj|by apply display_domain_inj|by apply display_process_inj].
Qed.

(** The text of a resource identity determines it: two well-formed identities
    (built by the validating constructors) with the same [Display] text have the
    same owner, down to scope, names and generations, the same path and the same
    generation.  Names may contain dots and dashes and paths slashes; the
    separators [@] and [:] occur in neither. *)
Theorem resource_text_identifies (r s : ResourceIdentity) :
  resource_wf r → resource_wf s → display_resource r = display_resource s ↔ r = s.
Proof.
  intros Hr Hs. split; [|by intros ->]. destruct r, s.
  destruct Hr as (Ho & Hm & Hg), Hs as (Hp & Hn & Hh). rewrite !resource_text. coordinates. intros E.
  apply generation_tail in E as [E ->]; [|done..].
  apply segment_inj in E as [E1%display_owner_inj E2]; [|by auto using path_clean..].
  destruct ri_resource0, ri_resource1; simpl in *. by subst.
Qed.

Lemma resource_text_identifies_witness :
  display_resource {| ri_owner := OwnerWorld {| wi_world := {| as_str := lit "w" |}; wi_epoch := {| generation_get := 1 |} |};
                      ri_resource := {| resource_path := lit "cpu/slot-0" |}; ri_generation := {| generation_get := 12 |} |}
  ≠ display_resource {| ri_owner := OwnerWorld {| wi_world := {| as_str := lit "w" |}; wi_epoch := {| generation_get := 11 |} |};
                      ri_resource := {| resource_path := lit "cpu/slot-0" |}; ri_generation := {| generation_get := 12 |} |}.
Proof.
  intros E. apply resource_text_identifies in E; [discriminate| |];
    unfold resource_wf, owner_wf, world_wf, name_wf, path_wf, generation_wf; simpl;
    split_and!; vm_compute; congruence.
Defined.
