(* ===== verification/BackendCatalog.v ===== *)
(** * Backend catalog

    [crates/ostadix-api/src/backend_catalog.rs] and the table it expands,
    [backend_catalog.inc.rs]: the metadata of every hosted backend, the lookup by
    canonical name or alias, and the interface that lowering freezes into each
    executable block. *)

From S2P Require Import Prelude.
From stdpp Require Import options.

Inductive ExecutionMode : Type := InlineAst | InlineValue | Shim.

Inductive SpliceRenderer : Type := RPython | RHtml | RLatex | RMarkdown | RNix | RDefault.

Inductive BackendAuthority : Type := FileRead | FileWrite | Network | Process.

Inductive BackendAdapterKind : Type := AdapterInline | NativeRust | LegacyPythonShim.

Inductive IntegerExactness : Type :=
| UnknownExactness
| ExactMagnitudeBits (bits : Z)
| TwosComplementBits (bits : Z)
| ExactRange (min max : Z)
| Arbitrary.

Inductive RichNumberPreservation : Type := UnknownNumbers | Preserved | Collapsed.

Record BackendValueCapabilities : Type := {
  integer_exactness : IntegerExactness;
  rich_numbers : RichNumberPreservation;
}.

(** A [SemanticDigestV1] is its hexadecimal text. *)
Inductive SnapshotCompatibilityV2 : Type :=
| ExactImplementation
| CompatibilityClass (class : str).

Inductive BackendStateSupportV2 : Type :=
| Stateless
| SemanticSnapshot (codec : str) (compatibility : SnapshotCompatibilityV2)
| ExternalPinned (manifest_schema : str).

Inductive BackendMorphismProfileV1 : Type :=
| PythonPlainData
| JavascriptBindingStdout
| RustSourceConstantStdout.

Record BackendSpec : Type := {
  spec_name : str;
  spec_aliases : list str;
  spec_pure : bool;
  spec_renderer : SpliceRenderer;
  spec_execution : ExecutionMode;
  spec_required_authorities : list BackendAuthority;
  spec_adapter : BackendAdapterKind;
  spec_runtime_requirement_key : str;
  spec_value_capabilities : BackendValueCapabilities;
  spec_state_support : BackendStateSupportV2;
}.

Record BackendInterface : Type := {
  canonical : str;
  specification_sha256 : option str;
  pure : bool;
  renderer : SpliceRenderer;
  execution : ExecutionMode;
  value_capabilities : BackendValueCapabilities;
  state_support : option BackendStateSupportV2;
  required_authorities : list BackendAuthority;
}.

#[export] Instance ExecutionMode_eq_dec : EqDecision ExecutionMode.
Proof. solve_decision. Defined.
#[export] Instance SpliceRenderer_eq_dec : EqDecision SpliceRenderer.
Proof. solve_decision. Defined.
#[export] Instance BackendAuthority_eq_dec : EqDecision BackendAuthority.
Proof. solve_decision. Defined.
#[export] Instance IntegerExactness_eq_dec : EqDecision IntegerExactness.
Proof. solve_decision. Defined.
#[export] Instance RichNumberPreservation_eq_dec : EqDecision RichNumberPreservation.
Proof. solve_decision. Defined.
#[export] Instance BackendValueCapabilities_eq_dec : EqDecision BackendValueCapabilities.
Proof. solve_decision. Defined.
#[export] Instance SnapshotCompatibilityV2_eq_dec : EqDecision SnapshotCompatibilityV2.
Proof. solve_decision. Defined.
#[export] Instance BackendStateSupportV2_eq_dec : EqDecision BackendStateSupportV2.
Proof. solve_decision. Defined.
#[export] Instance BackendInterface_eq_dec : EqDecision BackendInterface.
Proof. solve_decision. Defined.

#[export] Instance BackendAdapterKind_eq_dec : EqDecision BackendAdapterKind.
Proof. solve_decision. Defined.
#[export] Instance BackendSpec_eq_dec : EqDecision BackendSpec.
Proof. solve_decision. Defined.

(** ** Lookup *)

Definition matches (spec : BackendSpec) (lang : str) : bool :=
  bool_decide (spec_name spec = lang) || bool_decide (lang ∈ spec_aliases spec).

(** Fallback metadata of a backend with no entry in the table. *)
Definition DEFAULT_SPEC : BackendSpec := {|
  spec_name := []; spec_aliases := []; spec_pure := false; spec_renderer := RDefault;
  spec_execution := Shim;
  spec_required_authorities := [FileRead; FileWrite; Network; Process];
  spec_adapter := LegacyPythonShim;
  spec_runtime_requirement_key := lit "unknown-legacy-python-shim";
  spec_value_capabilities := {| integer_exactness := UnknownExactness; rich_numbers := UnknownNumbers |};
  spec_state_support := Stateless |}.

(** A registry is its table of specifications; the digest of a specification
    ([specification_sha256_v6], a SHA-256) is a parameter. *)
Section Registry.
Context (specs : list BackendSpec) (spec_digest : BackendSpec → str).

Definition registry_get (lang : str) : option BackendSpec :=
  head (filter (λ s, matches s lang = true) specs).

Definition registry_canonical (lang : str) : str :=
  match registry_get lang with Some s => spec_name s | None => lang end.

Definition is_pure (lang : str) : bool :=
  match registry_get lang with Some s => spec_pure s | None => false end.

Definition state_support_for (lang : str) : option BackendStateSupportV2 :=
  spec_state_support <$> registry_get lang.

Definition registry_specification_sha256 (lang : str) : option str :=
  spec_digest <$> registry_get lang.

Definition interface_for (lang : str) : BackendInterface :=
  let spec := default DEFAULT_SPEC (registry_get lang) in
  {| canonical := registry_canonical lang;
     specification_sha256 := registry_specification_sha256 lang;
     pure := spec_pure spec;
     renderer := spec_renderer spec;
     execution := spec_execution spec;
     value_capabilities := spec_value_capabilities spec;
     state_support := state_support_for lang;
     required_authorities := spec_required_authorities spec |}.

Definition registered_backend_names : list str :=
  concat ((λ s, spec_name s :: spec_aliases s) <$> specs).
End Registry.

(** ** The catalog *)

Section Catalog.
(** [SemanticDigestV1::hash_bytes(domain, bytes)], a SHA-256. *)
Context (hash_bytes : str → str → str).

Definition STATE_CODEC_DOMAIN : str := lit "ostadix/backend-state-codec-name/v2".

Definition spec_O : BackendSpec := {|
  spec_name := lit "O"; spec_aliases := [lit "o"];
  spec_pure := false; spec_renderer := RDefault; spec_execution := InlineAst;
  spec_required_authorities := [];
  spec_adapter := AdapterInline; spec_runtime_requirement_key := lit "builtin";
  spec_value_capabilities := {| integer_exactness := Arbitrary; rich_numbers := Preserved |};
  spec_state_support := Stateless |}.

Definition spec_quote : BackendSpec := {|
  spec_name := lit "quote"; spec_aliases := [];
  spec_pure := false; spec_renderer := RDefault; spec_execution := InlineAst;
  spec_required_authorities := [];
  spec_adapter := AdapterInline; spec_runtime_requirement_key := lit "builtin";
  spec_value_capabilities := {| integer_exactness := UnknownExactness; rich_numbers := UnknownNumbers |};
  spec_state_support := Stateless |}.

Definition spec_nix : BackendSpec := {|
  spec_name := lit "nix"; spec_aliases := [];
  spec_pure := false; spec_renderer := RNix; spec_execution := Shim;
  spec_required_authorities := [FileRead; FileWrite; Network; Process];
  spec_adapter := NativeRust; spec_runtime_requirement_key := lit "nix";
  spec_value_capabilities := {| integer_exactness := TwosComplementBits 63; rich_numbers := Collapsed |};
  spec_state_support := Stateless |}.

Definition spec_nix_expr : BackendSpec := {|
  spec_name := lit "nix_expr"; spec_aliases := [];
  spec_pure := true; spec_renderer := RDefault; spec_execution := InlineValue;
  spec_required_authorities := [];
  spec_adapter := NativeRust; spec_runtime_requirement_key := lit "builtin";
  spec_value_capabilities := {| integer_exactness := TwosComplementBits 63; rich_numbers := Collapsed |};
  spec_state_support := Stateless |}.

Definition spec_nix_store : BackendSpec := {|
  spec_name := lit "nix_store"; spec_aliases := [];
  spec_pure := false; spec_renderer := RNix; spec_execution := Shim;
  spec_required_authorities := [FileRead; FileWrite; Network; Process];
  spec_adapter := NativeRust; spec_runtime_requirement_key := lit "nix";
  spec_value_capabilities := {| integer_exactness := TwosComplementBits 63; rich_numbers := Collapsed |};
  spec_state_support := Stateless |}.

Definition spec_nixos_test : BackendSpec := {|
  spec_name := lit "nixos_test"; spec_aliases := [];
  spec_pure := false; spec_renderer := RNix; spec_execution := Shim;
  spec_required_authorities := [FileRead; FileWrite; Network; Process];
  spec_adapter := LegacyPythonShim; spec_runtime_requirement_key := lit "nixos_test";
  spec_value_capabilities := {| integer_exactness := UnknownExactness; rich_numbers := UnknownNumbers |};
  spec_state_support := Stateless |}.

Definition spec_html : BackendSpec := {|
  spec_name := lit "html"; spec_aliases := [];
  spec_pure := true; spec_renderer := RHtml; spec_execution := InlineValue;
  spec_required_authorities := [];
  spec_adapter := AdapterInline; spec_runtime_requirement_key := lit "builtin";
  spec_value_capabilities := {| integer_exactness := Arbitrary; rich_numbers := Collapsed |};
  spec_state_support := Stateless |}.

Definition spec_markdown : BackendSpec := {|
  spec_name := lit "markdown"; spec_aliases := [lit "md"];
  spec_pure := true; spec_renderer := RMarkdown; spec_execution := InlineValue;
  spec_required_authorities := [];
  spec_adapter := AdapterInline; spec_runtime_requirement_key := lit "builtin";
  spec_value_capabilities := {| integer_exactness := Arbitrary; rich_numbers := Collapsed |};
  spec_state_support := Stateless |}.

Definition spec_latex : BackendSpec := {|
  spec_name := lit "latex"; spec_aliases := [lit "tex"];
  spec_pure := true; spec_renderer := RLatex; spec_execution := InlineValue;
  spec_required_authorities := [];
  spec_adapter := AdapterInline; spec_runtime_requirement_key := lit "builtin";
  spec_value_capabilities := {| integer_exactness := Arbitrary; rich_numbers := Collapsed |};
  spec_state_support := Stateless |}.

Definition spec_text : BackendSpec := {|
  spec_name := lit "text"; spec_aliases := [lit "plain"];
  spec_pure := true; spec_renderer := RDefault; spec_execution := InlineValue;
  spec_required_authorities := [];
  spec_adapter := AdapterInline; spec_runtime_requirement_key := lit "builtin";
  spec_value_capabilities := {| integer_exactness := Arbitrary; rich_numbers := Collapsed |};
  spec_state_support := Stateless |}.

Definition spec_sql : BackendSpec := {|
  spec_name := lit "sql"; spec_aliases := [];
  spec_pure := false; spec_renderer := RDefault; spec_execution := Shim;
  spec_required_authorities := [];
  spec_adapter := NativeRust; spec_runtime_requirement_key := lit "sql";
  spec_value_capabilities := {| integer_exactness := TwosComplementBits 63; rich_numbers := Collapsed |};
  spec_state_support := SemanticSnapshot (hash_bytes STATE_CODEC_DOMAIN (lit "ostadix.sqlite-cli-main/v1")) ExactImplementation |}.

Definition spec_haskell : BackendSpec := {|
  spec_name := lit "haskell"; spec_aliases := [];
  spec_pure := false; spec_renderer := RDefault; spec_execution := Shim;
  spec_required_authorities := [FileWrite; Process];
  spec_adapter := NativeRust; spec_runtime_requirement_key := lit "haskell";
  spec_value_capabilities := {| integer_exactness := Arbitrary; rich_numbers := Preserved |};
  spec_state_support := Stateless |}.

Definition spec_ocaml : BackendSpec := {|
  spec_name := lit "ocaml"; spec_aliases := [];
  spec_pure := false; spec_renderer := RDefault; spec_execution := Shim;
  spec_required_authorities := [FileWrite; Process];
  spec_adapter := NativeRust; spec_runtime_requirement_key := lit "ocaml";
  spec_value_capabilities := {| integer_exactness := UnknownExactness; rich_numbers := UnknownNumbers |};
  spec_state_support := Stateless |}.

Definition spec_webassembly : BackendSpec := {|
  spec_name := lit "webassembly"; spec_aliases := [];
  spec_pure := false; spec_renderer := RDefault; spec_execution := Shim;
  spec_required_authorities := [FileWrite; Process];
  spec_adapter := NativeRust; spec_runtime_requirement_key := lit "webassembly";
  spec_value_capabilities := {| integer_exactness := TwosComplementBits 63; rich_numbers := Collapsed |};
  spec_state_support := Stateless |}.

Definition spec_python : BackendSpec := {|
  spec_name := lit "python"; spec_aliases := [lit "py"];
  spec_pure := false; spec_renderer := RPython; spec_execution := Shim;
  spec_required_authorities := [];
  spec_adapter := LegacyPythonShim; spec_runtime_requirement_key := lit "python";
  spec_value_capabilities := {| integer_exactness := Arbitrary; rich_numbers := Preserved |};
  spec_state_support := SemanticSnapshot (hash_bytes STATE_CODEC_DOMAIN (lit "ostadix.python-graph/v1")) ExactImplementation |}.

Definition spec_ubuntu_vm : BackendSpec := {|
  spec_name := lit "ubuntu_vm"; spec_aliases := [lit "ubuntu"];
  spec_pure := false; spec_renderer := RDefault; spec_execution := Shim;
  spec_required_authorities := [Process];
  spec_adapter := LegacyPythonShim; spec_runtime_requirement_key := lit "ubuntu_vm";
  spec_value_capabilities := {| integer_exactness := UnknownExactness; rich_numbers := UnknownNumbers |};
  spec_state_support := SemanticSnapshot (hash_bytes STATE_CODEC_DOMAIN (lit "None")) ExactImplementation |}.

Definition spec_bash : BackendSpec := {|
  spec_name := lit "bash"; spec_aliases := [];
  spec_pure := false; spec_renderer := RDefault; spec_execution := Shim;
  spec_required_authorities := [Process];
  spec_adapter := NativeRust; spec_runtime_requirement_key := lit "bash";
  spec_value_capabilities := {| integer_exactness := UnknownExactness; rich_numbers := UnknownNumbers |};
  spec_state_support := Stateless |}.

Definition spec_shell : BackendSpec := {|
  spec_name := lit "shell"; spec_aliases := [];
  spec_pure := false; spec_renderer := RDefault; spec_execution := Shim;
  spec_required_authorities := [Process];
  spec_adapter := NativeRust; spec_runtime_requirement_key := lit "shell";
  spec_value_capabilities := {| integer_exactness := UnknownExactness; rich_numbers := UnknownNumbers |};
  spec_state_support := Stateless |}.

Definition spec_rust : BackendSpec := {|
  spec_name := lit "rust"; spec_aliases := [];
  spec_pure := false; spec_renderer := RDefault; spec_execution := Shim;
  spec_required_authorities := [FileWrite; Process];
  spec_adapter := NativeRust; spec_runtime_requirement_key := lit "rust";
  spec_value_capabilities := {| integer_exactness := TwosComplementBits 63; rich_numbers := Collapsed |};
  spec_state_support := Stateless |}.

Definition spec_racket : BackendSpec := {|
  spec_name := lit "racket"; spec_aliases := [];
  spec_pure := false; spec_renderer := RDefault; spec_execution := Shim;
  spec_required_authorities := [FileWrite; Process];
  spec_adapter := NativeRust; spec_runtime_requirement_key := lit "racket";
  spec_value_capabilities := {| integer_exactness := Arbitrary; rich_numbers := Preserved |};
  spec_state_support := Stateless |}.

Definition spec_csharp : BackendSpec := {|
  spec_name := lit "csharp"; spec_aliases := [];
  spec_pure := false; spec_renderer := RDefault; spec_execution := Shim;
  spec_required_authorities := [FileWrite; Process];
  spec_adapter := NativeRust; spec_runtime_requirement_key := lit "csharp";
  spec_value_capabilities := {| integer_exactness := TwosComplementBits 63; rich_numbers := Collapsed |};
  spec_state_support := Stateless |}.

Definition spec_c : BackendSpec := {|
  spec_name := lit "c"; spec_aliases := [];
  spec_pure := false; spec_renderer := RDefault; spec_execution := Shim;
  spec_required_authorities := [FileWrite; Process];
  spec_adapter := NativeRust; spec_runtime_requirement_key := lit "c";
  spec_value_capabilities := {| integer_exactness := TwosComplementBits 63; rich_numbers := Collapsed |};
  spec_state_support := Stateless |}.

Definition spec_cpp : BackendSpec := {|
  spec_name := lit "cpp"; spec_aliases := [];
  spec_pure := false; spec_renderer := RDefault; spec_execution := Shim;
  spec_required_authorities := [FileWrite; Process];
  spec_adapter := NativeRust; spec_runtime_requirement_key := lit "cpp";
  spec_value_capabilities := {| integer_exactness := TwosComplementBits 63; rich_numbers := Collapsed |};
  spec_state_support := Stateless |}.

Definition spec_lisp : BackendSpec := {|
  spec_name := lit "lisp"; spec_aliases := [];
  spec_pure := false; spec_renderer := RDefault; spec_execution := Shim;
  spec_required_authorities := [FileWrite; Process];
  spec_adapter := NativeRust; spec_runtime_requirement_key := lit "common_lisp";
  spec_value_capabilities := {| integer_exactness := Arbitrary; rich_numbers := Collapsed |};
  spec_state_support := Stateless |}.

Definition spec_common_lisp : BackendSpec := {|
  spec_name := lit "common_lisp"; spec_aliases := [];
  spec_pure := false; spec_renderer := RDefault; spec_execution := Shim;
  spec_required_authorities := [FileWrite; Process];
  spec_adapter := NativeRust; spec_runtime_requirement_key := lit "common_lisp";
  spec_value_capabilities := {| integer_exactness := Arbitrary; rich_numbers := Collapsed |};
  spec_state_support := Stateless |}.

Definition spec_ruby : BackendSpec := {|
  spec_name := lit "ruby"; spec_aliases := [];
  spec_pure := false; spec_renderer := RDefault; spec_execution := Shim;
  spec_required_authorities := [FileWrite; Process];
  spec_adapter := NativeRust; spec_runtime_requirement_key := lit "ruby";
  spec_value_capabilities := {| integer_exactness := Arbitrary; rich_numbers := Collapsed |};
  spec_state_support := Stateless |}.

Definition spec_matlab : BackendSpec := {|
  spec_name := lit "matlab"; spec_aliases := [];
  spec_pure := false; spec_renderer := RDefault; spec_execution := Shim;
  spec_required_authorities := [FileWrite; Process];
  spec_adapter := NativeRust; spec_runtime_requirement_key := lit "matlab";
  spec_value_capabilities := {| integer_exactness := ExactMagnitudeBits 53; rich_numbers := Collapsed |};
  spec_state_support := Stateless |}.

Definition spec_mathematica : BackendSpec := {|
  spec_name := lit "mathematica"; spec_aliases := [];
  spec_pure := false; spec_renderer := RDefault; spec_execution := Shim;
  spec_required_authorities := [FileWrite; Process];
  spec_adapter := NativeRust; spec_runtime_requirement_key := lit "mathematica";
  spec_value_capabilities := {| integer_exactness := Arbitrary; rich_numbers := Preserved |};
  spec_state_support := Stateless |}.

Definition spec_java : BackendSpec := {|
  spec_name := lit "java"; spec_aliases := [];
  spec_pure := false; spec_renderer := RDefault; spec_execution := Shim;
  spec_required_authorities := [FileWrite; Process];
  spec_adapter := NativeRust; spec_runtime_requirement_key := lit "java";
  spec_value_capabilities := {| integer_exactness := TwosComplementBits 63; rich_numbers := Collapsed |};
  spec_state_support := Stateless |}.

Definition spec_javascript : BackendSpec := {|
  spec_name := lit "javascript"; spec_aliases := [];
  spec_pure := false; spec_renderer := RDefault; spec_execution := Shim;
  spec_required_authorities := [FileWrite; Process];
  spec_adapter := NativeRust; spec_runtime_requirement_key := lit "javascript";
  spec_value_capabilities := {| integer_exactness := ExactMagnitudeBits 53; rich_numbers := Collapsed |};
  spec_state_support := Stateless |}.

Definition BACKEND_SPECS : list BackendSpec :=
  [spec_O; spec_quote; spec_nix; spec_nix_expr; spec_nix_store; spec_nixos_test; spec_html;
   spec_markdown; spec_latex; spec_text; spec_sql; spec_haskell; spec_ocaml; spec_webassembly;
   spec_python; spec_ubuntu_vm; spec_bash; spec_shell; spec_rust; spec_racket; spec_csharp;
   spec_c; spec_cpp; spec_lisp; spec_common_lisp; spec_ruby; spec_matlab; spec_mathematica;
   spec_java; spec_javascript].
End Catalog.

Definition BACKEND_MORPHISM_PROFILE_ASSIGNMENTS : list (str * option BackendMorphismProfileV1) :=
  [(lit "O", None); (lit "quote", None); (lit "nix", None); (lit "nix_expr", None);
   (lit "nix_store", None); (lit "nixos_test", None); (lit "html", None); (lit "markdown", None);
   (lit "latex", None); (lit "text", None); (lit "sql", None); (lit "haskell", None);
   (lit "ocaml", None); (lit "webassembly", None); (lit "python", Some PythonPlainData);
   (lit "ubuntu_vm", None); (lit "bash", None); (lit "shell", None);
   (lit "rust", Some RustSourceConstantStdout); (lit "racket", None); (lit "csharp", None);
   (lit "c", None); (lit "cpp", None); (lit "lisp", None); (lit "common_lisp", None);
   (lit "ruby", None); (lit "matlab", None); (lit "mathematica", None); (lit "java", None);
   (lit "javascript", Some JavascriptBindingStdout)].

Definition morphism_profile_for (specs : list BackendSpec) (lang : str) : option BackendMorphismProfileV1 :=
  match registry_get specs lang with
  | None => None
  | Some s =>
      match head (filter (λ p : str * option BackendMorphismProfileV1, p.1 = spec_name s)
                    BACKEND_MORPHISM_PROFILE_ASSIGNMENTS) with
      | Some (_, profile) => profile
      | None => None
      end
  end.
