(* ===== verification/Syntax.v ===== *)
(** * Syntax trees and the syntax dialect

    [ONode] of [crates/ostadix-api/src/parser.rs], the trait of
    [crates/ostadix-api/src/syntax_dialect.rs] through which the parser sees the
    backend catalog, and its implementation for [HashSet<String>] in
    [crates/ostadix-api/src/backend_catalog.rs].  Lookup in the catalog is unambiguous:
    every tag is a source identifier and names one entry, so the order of the table is
    immaterial, canonical names are fixed points, and the frozen interface of an alias is
    that of its entry. *)

From S2P Require Import Prelude.
From S2P Require Import Utf8.
From S2P Require Import BackendCatalog.
From stdpp Require Import options.

Inductive ONode : Type :=
| RawText (s : str)
| VarRef (name : str)
| LetBinding (name : str) (expr : ONode)
| TypedExpr (lang : str) (env_id : Z) (attr : option str) (body : list ONode)
| Call (fn_name : str) (args : list ONode).

Section ONodeInd.
Context (P : ONode → Prop).
Context (HRaw : ∀ s, P (RawText s)) (HVar : ∀ n, P (VarRef n)).
Context (HLet : ∀ n e, P e → P (LetBinding n e)).
Context (HTyped : ∀ l e a b, Forall P b → P (TypedExpr l e a b)).
Context (HCall : ∀ f a, Forall P a → P (Call f a)).

Fixpoint ONode_ind' (n : ONode) : P n :=
  let go := fix go (l : list ONode) : Forall P l :=
    match l with
    | [] => List.Forall_nil P
    | x :: l => List.Forall_cons P x l (ONode_ind' x) (go l)
    end in
  match n with
  | RawText s => HRaw s
  | VarRef n => HVar n
  | LetBinding n e => HLet n e (ONode_ind' e)
  | TypedExpr l e a b => HTyped l e a b (go b)
  | Call f a => HCall f a (go a)
  end.
End ONodeInd.

(** ** Identifiers *)

Definition is_ident_start (b : Z) : bool := is_ascii_alphabetic b || (b =? 95).
Definition is_ident_continue (b : Z) : bool := is_ascii_alphanumeric b || (b =? 95).

(** A source identifier: an ASCII letter or underscore, then letters, digits and
    underscores. *)
Definition is_ident (s : str) : bool :=
  match s with
  | [] => false
  | b :: r => is_ident_start b && forallb is_ident_continue r
  end.

(** The source continues with something that cannot extend an identifier. *)
Definition ident_boundary (rest : str) : bool :=
  match rest with
  | [] => true
  | b :: _ => negb (is_ident_continue b)
  end.

(** ** The trait *)

Class SyntaxDialect : Type := {
  is_registered_syntax_tag : str → bool;
  match_registered_syntax_tag : str → option str;
  canonical_syntax_name : str → str;
  owns_quoted_syntax : str → bool;
}.

(** The contract the trait's documentation states of a match: the whole
    identifier at the start of the source, registered, and nothing shorter. *)
Class SyntaxDialectLaws (D : SyntaxDialect) : Prop := {
  match_tag : ∀ source tag,
    match_registered_syntax_tag source = Some tag ↔
    is_ident tag = true ∧ is_registered_syntax_tag tag = true ∧
    ∃ rest, source = tag ++ rest ∧ ident_boundary rest = true;
}.

Definition NATIVE_LEAF_BUILTIN : str := lit "ocore_i64".

(** The provided method [match_registered_syntax_tag]: scan one identifier. *)
Definition default_match (registered : str → bool) (source : str) : option str :=
  match source with
  | [] => None
  | b :: r =>
      if is_ident_start b then
        let candidate := take (S (span_len is_ident_continue r)) source in
        if registered candidate then Some candidate else None
      else None
  end.

(** ** [impl SyntaxDialect for HashSet<String>]

    A set is the list of its elements in the order its iterator yields them. *)

Section TagSet.
Context (specs : list BackendSpec) (spec_digest : BackendSpec → str).

(** The closure of [find_map]: the length of the match with one tag. *)
Definition match_one (source tag : str) : option nat :=
  if negb (starts_with source tag) then None
  else if negb (match tag with
                | [] => false
                | b :: r => is_ident_start b && forallb is_ident_continue r
                end) then None
  else
    let next := source !! length tag in
    if match next with Some b => is_ident_continue b | None => false end then None
    else Some (length tag).

Fixpoint find_map_tag (source : str) (tags : list str) : option nat :=
  match tags with
  | [] => None
  | t :: tags =>
      match match_one source t with
      | Some n => Some n
      | None => find_map_tag source tags
      end
  end.

Definition set_match (tags : list str) (source : str) : option str :=
  match find_map_tag source tags with
  | None => None
  | Some n => Some (take n source)
  end.

Definition set_canonical (name : str) : str := registry_canonical specs name.

Definition set_owns_quoted (canonical_name : str) : bool :=
  let backend := interface_for specs spec_digest canonical_name in
  bool_decide (execution backend = InlineAst) && bool_decide (canonical backend = lit "quote").

Definition hash_set_dialect (tags : list str) : SyntaxDialect := {|
  is_registered_syntax_tag := λ name, bool_decide (name ∈ tags);
  match_registered_syntax_tag := set_match tags;
  canonical_syntax_name := set_canonical;
  owns_quoted_syntax := set_owns_quoted;
|}.

(** ** Lemmas *)

Lemma match_one_spec source tag n :
  match_one source tag = Some n ↔
  n = length tag ∧ is_ident tag = true ∧ ∃ rest, source = tag ++ rest ∧ ident_boundary rest = true.
Proof.
  unfold match_one.
  change (match tag with [] => false | b :: r => is_ident_start b && forallb is_ident_continue r end)
    with (is_ident tag).
  destruct (starts_with source tag) eqn:Hs; simpl.
  2:{ split; [done|]. intros (_ & _ & rest & -> & _).
      assert (starts_with (tag ++ rest) tag = true) by (apply starts_with_spec; eauto). congruence. }
  apply starts_with_spec in Hs as [rest ->].
  destruct (is_ident tag); simpl; [|split; [done|by intros (_ & ? & _)]].
  rewrite lookup_app_r, Nat.sub_diag by lia.
  assert (Hb : ident_boundary rest =
    negb match rest !! 0%nat with Some b => is_ident_continue b | None => false end)
    by (by destruct rest).
  destruct (match rest !! 0%nat with Some b => is_ident_continue b | None => false end) eqn:E; simpl in Hb.
  - split; [done|]. intros (_ & _ & r' & Heq & Hr'). apply app_inv_head in Heq as ->. congruence.
  - split; [intros [= <-]; eauto|]. intros (-> & _). done.
Qed.

Lemma is_ident_all tag : is_ident tag = true → Forall (λ b, is_ident_continue b = true) tag.
Proof.
  destruct tag as [|b r]; [done|]. simpl. intros [Hb Hr]%andb_true_iff.
  constructor; [|by apply forallb_Forall].
  unfold is_ident_start, is_ident_continue, is_ascii_alphanumeric in *.
  destruct (is_ascii_alphabetic b); simpl in *; [done|]. rewrite Hb. by rewrite orb_true_r.
Qed.

(** An identifier that ends at a boundary is the maximal run of identifier bytes. *)
Lemma ident_span tag rest :
  is_ident tag = true → ident_boundary rest = true →
  span_len is_ident_continue (tag ++ rest) = length tag.
Proof.
  intros Hi Hb. apply span_len_app; [by apply is_ident_all|].
  intros b Hr. destruct rest; simpl in *; [done|]. simplify_eq. by apply negb_true_iff.
Qed.

Lemma ident_prefix_unique t1 r1 t2 r2 :
  t1 ++ r1 = t2 ++ r2 →
  is_ident t1 = true → is_ident t2 = true → ident_boundary r1 = true → ident_boundary r2 = true →
  t1 = t2.
Proof.
  intros Heq H1 H2 B1 B2.
  assert (Hlen : length t1 = length t2) by (rewrite <-(ident_span t1 r1), <-(ident_span t2 r2), Heq; done).
  by apply app_inj_1 in Heq as [-> _].
Qed.

Lemma find_map_tag_spec source tags n :
  find_map_tag source tags = Some n → ∃ t, t ∈ tags ∧ match_one source t = Some n.
Proof.
  induction tags as [|t tags IH]; simpl; [done|].
  destruct (match_one source t) eqn:E.
  - intros [= <-]. exists t. split; [apply list_elem_of_here|done].
  - intros (t' & ? & ?)%IH. exists t'. split; [by apply list_elem_of_further|done].
Qed.

Lemma find_map_tag_complete source tags t n :
  t ∈ tags → match_one source t = Some n → find_map_tag source tags = Some n.
Proof.
  induction tags as [|t' tags IH]; [by intros ?%elem_of_nil|].
  intros Hin Ht. simpl. destruct (match_one source t') eqn:E.
  - apply match_one_spec in E as (-> & Hi' & r' & -> & Hb').
    apply match_one_spec in Ht as (-> & Hi & r & Heq & Hb).
    by rewrite (ident_prefix_unique _ _ _ _ Heq).
  - apply elem_of_cons in Hin as [->|Hin]; [congruence|by apply IH].
Qed.

Lemma set_match_spec tags source tag :
  set_match tags source = Some tag ↔
  is_ident tag = true ∧ tag ∈ tags ∧ ∃ rest, source = tag ++ rest ∧ ident_boundary rest = true.
Proof.
  unfold set_match. split.
  - destruct (find_map_tag source tags) eqn:E; [|done]. intros [= <-].
    apply find_map_tag_spec in E as (t & Hin & (-> & Hi & r & -> & Hb)%match_one_spec).
    rewrite take_app_length. eauto.
  - intros (Hi & Hin & r & -> & Hb).
    rewrite (find_map_tag_complete _ _ tag (length tag)); [by rewrite take_app_length|done|].
    apply match_one_spec. eauto.
Qed.

#[export] Instance hash_set_dialect_laws tags : SyntaxDialectLaws (hash_set_dialect tags).
Proof.
  constructor. intros source tag. simpl. rewrite set_match_spec, bool_decide_eq_true. done.
Qed.

Lemma default_match_spec registered source tag :
  default_match registered source = Some tag ↔
  is_ident tag = true ∧ registered tag = true ∧
  ∃ rest, source = tag ++ rest ∧ ident_boundary rest = true.
Proof.
  unfold default_match. destruct source as [|b r].
  { split; [done|]. intros (Hi & _ & rest & Heq & _). symmetry in Heq.
    apply app_eq_nil in Heq as [-> _]. done. }
  split.
  - destruct (is_ident_start b) eqn:Hb; [|done].
    destruct (registered _) eqn:Hr; [|done]. intros [= <-]. split; [|split; [done|]].
    + simpl. rewrite Hb. apply forallb_Forall, span_len_take.
    + exists (drop (S (span_len is_ident_continue r)) (b :: r)).
      split; [simpl; by rewrite take_drop|]. cbn [drop].
      pose proof (span_len_stop is_ident_continue r) as Hstop.
      destruct (drop (span_len is_ident_continue r) r) eqn:Hd; [done|]. simpl.
      apply negb_true_iff, Hstop. rewrite <-(Nat.add_0_r (span_len _ _)), <-lookup_drop, Hd. done.
  - intros (Hi & Hr & rest & Heq & Hb). destruct tag as [|b' t]; [done|].
    simpl in Heq. simplify_eq. pose proof Hi as Hi'. simpl in Hi'.
    apply andb_true_iff in Hi' as [Hs _]. rewrite Hs.
    pose proof (ident_span (b' :: t) rest Hi Hb) as Hspan.
    pose proof (is_ident_all _ Hi) as Hall. apply Forall_cons in Hall as [Hc _].
    simpl in Hspan. rewrite Hc in Hspan. apply Nat.succ_inj in Hspan. rewrite Hspan.
    simpl. rewrite take_app_length. by rewrite Hr.
Qed.
End TagSet.

(** The tag match of a [HashSet] does not depend on the iteration order of the
    set, and is the provided method of the trait: both return the whole
    identifier at the start of the source when it is registered, and nothing
    otherwise. *)
Lemma set_match_is_default (tags tags' : list str) (source : str) :
  (∀ t, t ∈ tags ↔ t ∈ tags') →
  set_match tags source = set_match tags' source ∧
  set_match tags source = default_match (λ t, bool_decide (t ∈ tags)) source.
Proof.
  intros Hsame. split; apply option_eq; intros tag.
  - rewrite !set_match_spec, Hsame. done.
  - rewrite set_match_spec, default_match_spec, bool_decide_eq_true. done.
Qed.

Lemma set_match_is_default_witness :
  set_match [lit "py"; lit "python"] (lit "python[0]^(") =
    set_match [lit "python"; lit "py"] (lit "python[0]^(") ∧
  set_match [lit "py"; lit "python"] (lit "python[0]^(") = Some (lit "python").
Proof.
  split; [|vm_compute; reflexivity].
  apply (set_match_is_default [lit "py"; lit "python"] [lit "python"; lit "py"]).
  intros t. rewrite !elem_of_cons. tauto.
Defined.

(** ** Lookup in the catalog *)

Section Registries.
Context (specs : list BackendSpec).

Lemma matches_spec s lang : matches s lang = true ↔ lang ∈ spec_name s :: spec_aliases s.
Proof.
  unfold matches. rewrite orb_true_iff, !bool_decide_eq_true, elem_of_cons.
  split; intros [?|?]; auto.
Qed.

Lemma registry_get_None lang :
  registry_get specs lang = None ↔ lang ∉ registered_backend_names specs.
Proof.
  unfold registry_get, registered_backend_names. induction specs as [|s l IH]; simpl.
  { split; [intros _; apply not_elem_of_nil|done]. }
  rewrite filter_cons. destruct (decide (matches s lang = true)) as [Hm|Hm]; simpl.
  - apply matches_spec in Hm. rewrite elem_of_cons in Hm. split; [done|]. intros H. exfalso. apply H.
    rewrite elem_of_cons, elem_of_app. tauto.
  - rewrite matches_spec, elem_of_cons in Hm. rewrite IH, elem_of_cons, elem_of_app. tauto.
Qed.

Lemma registry_get_Some lang s :
  registry_get specs lang = Some s → s ∈ specs ∧ matches s lang = true.
Proof.
  unfold registry_get. intros H. apply head_Some_elem_of in H.
  apply list_elem_of_filter in H. tauto.
Qed.

(** With globally distinct tags, the entry found is the entry that declares the tag. *)
Lemma registry_get_unique lang s :
  NoDup (registered_backend_names specs) → s ∈ specs → matches s lang = true →
  registry_get specs lang = Some s.
Proof.
  unfold registry_get, registered_backend_names. induction specs as [|s' l IH]; simpl.
  { by intros _ ?%elem_of_nil. }
  change (spec_name s' :: spec_aliases s' ++ ?x) with ((spec_name s' :: spec_aliases s') ++ x).
  rewrite NoDup_app. intros (Hnd1 & Hdisj & Hnd2) Hin Hm. rewrite filter_cons.
  destruct (decide (matches s' lang = true)) as [Hm'|Hm']; simpl.
  - apply elem_of_cons in Hin as [->|Hin]; [done|]. exfalso.
    apply matches_spec in Hm, Hm'. apply (Hdisj lang Hm').
    apply list_elem_of_In, in_concat. exists (spec_name s :: spec_aliases s).
    split; apply list_elem_of_In; [|done]. by apply (list_elem_of_fmap_2 (λ s, spec_name s :: spec_aliases s)).
  - apply elem_of_cons in Hin as [->|Hin]; [done|auto].
Qed.
End Registries.

(** Tags of the catalog do not depend on the digest function. *)
Lemma catalog_tags_NoDup h : NoDup (registered_backend_names (BACKEND_SPECS h)).
Proof. apply (bool_decide_unpack _). vm_compute. exact I. Qed.

Lemma catalog_tags_ident h : Forall (λ t, is_ident t = true) (registered_backend_names (BACKEND_SPECS h)).
Proof. apply (bool_decide_unpack _). vm_compute. exact I. Qed.

(** The entry found is determined by the canonical name, when that is a catalog name. *)
Lemma registry_get_canonical h t s :
  s ∈ BACKEND_SPECS h → registry_canonical (BACKEND_SPECS h) t = spec_name s →
  registry_get (BACKEND_SPECS h) t = Some s.
Proof.
  intros Hs Hc.
  assert (Hg : registry_get (BACKEND_SPECS h) (spec_name s) = Some s).
  { apply registry_get_unique; [apply catalog_tags_NoDup|done|]. apply matches_spec, list_elem_of_here. }
  unfold registry_canonical in Hc. destruct (registry_get _ t) as [s'|] eqn:E; [|by subst t; congruence].
  apply registry_get_Some in E as [Hs' _]. rewrite <-Hg, <-Hc. symmetry.
  apply registry_get_unique; [apply catalog_tags_NoDup|done|]. apply matches_spec, list_elem_of_here.
Qed.

(** Lookup in the catalog is unambiguous: every tag is a source identifier,
    the entry that declares a tag is the one [get] finds whatever the order of
    the table, so [canonical] maps every tag of an entry to its name and is
    idempotent on all strings, and tags outside the catalog resolve to the
    conservative fallback and to themselves. *)
Lemma catalog_lookup_unambiguous (h : str → str → str) (specs : list BackendSpec) :
  specs ≡ₚ BACKEND_SPECS h →
  (∀ t, t ∈ registered_backend_names specs → is_ident t = true) ∧
  (∀ s t, s ∈ specs → t ∈ spec_name s :: spec_aliases s →
     registry_get specs t = Some s ∧ registry_canonical specs t = spec_name s) ∧
  (∀ t, registry_canonical specs (registry_canonical specs t) = registry_canonical specs t) ∧
  (∀ t d, t ∉ registered_backend_names specs →
     registry_canonical specs t = t ∧ is_pure specs t = false ∧
     state_support_for specs t = None ∧ execution (interface_for specs d t) = Shim).
Proof.
  intros Hp.
  assert (Hnames : registered_backend_names specs ≡ₚ registered_backend_names (BACKEND_SPECS h)).
  { unfold registered_backend_names. by rewrite Hp. }
  assert (Hnd : NoDup (registered_backend_names specs)) by (rewrite Hnames; apply catalog_tags_NoDup).
  assert (Hget : ∀ s t, s ∈ specs → t ∈ spec_name s :: spec_aliases s → registry_get specs t = Some s).
  { intros s t Hs Ht. apply registry_get_unique; [done|done|]. by apply matches_spec. }
  split_and!.
  - intros t Ht. rewrite Hnames in Ht. by eapply Forall_forall in Ht; [|apply catalog_tags_ident].
  - intros s t Hs Ht. unfold registry_canonical. by rewrite (Hget s t).
  - intros t. unfold registry_canonical at 2 3. destruct (registry_get specs t) as [s|] eqn:E.
    + apply registry_get_Some in E as [Hs _]. unfold registry_canonical.
      rewrite (Hget s); [done|done|apply list_elem_of_here].
    + unfold registry_canonical. by rewrite E.
  - intros t d Ht. apply registry_get_None in Ht.
    unfold interface_for, registry_canonical, is_pure, state_support_for. by rewrite Ht.
Qed.

Lemma catalog_lookup_unambiguous_witness :
  let specs := reverse (BACKEND_SPECS (λ _ _, [])) in
  registry_canonical specs (lit "py") = lit "python" ∧
  registry_canonical specs (registry_canonical specs (lit "zig")) = registry_canonical specs (lit "zig").
Proof.
  intros specs.
  destruct (catalog_lookup_unambiguous (λ _ _, []) specs (reverse_Permutation _)) as (_ & Hget & Hidem & _).
  split; [|apply Hidem].
  apply (Hget (spec_python (λ _ _, []))); apply (bool_decide_unpack _); vm_compute; exact I.
Defined.

(** Only the backend [quote], under no alias, captures its body as syntax: the
    parser's origin suppression and the planner's opaque region test the same
    condition, and it holds for exactly one string. *)
Lemma quote_is_the_only_owner (h : str → str → str) (d : BackendSpec → str) (name : str) :
  set_owns_quoted (BACKEND_SPECS h) d name = true ↔ name = lit "quote".
Proof.
  split; [|intros ->; vm_compute; reflexivity].
  unfold set_owns_quoted. intros [He Hc]%andb_true_iff.
  apply bool_decide_eq_true in He, Hc. simpl in *.
  apply (registry_get_canonical h name spec_quote) in Hc.
  2:{ apply (bool_decide_unpack _). vm_compute. exact I. }
  apply registry_get_Some in Hc as [_ Hm]. apply matches_spec in Hm. by apply list_elem_of_singleton in Hm.
Qed.
