(* ===== verification/Ir.v ===== *)
(** * The intermediate representation

    [crates/ostadix-api/src/ir.rs], first part: the executable instructions [OIr],
    the lowering of syntax trees, the provenance check of native leaves, the
    preorder of executable nodes, and source reconstruction (also the one of
    [parser.rs], which works on syntax trees). *)

From S2P Require Import Prelude.
From S2P Require Import Utf8.
From S2P Require Import Environment.
From S2P Require Import BackendCatalog.
From S2P Require Import Syntax.
From stdpp Require Import options.

(** SHA-256 comes from the [sha2] crate: the digests the engine computes with it
    are an interface of the model. *)
Class Digests : Type := {
  (** [hex::encode(Sha256::digest(bytes))] *)
  sha256_hex : str → str;
  (** [SemanticDigestV1::hash_bytes(domain, bytes)] *)
  hash_bytes : str → str → str;
  (** digest of one catalog entry under the current schema *)
  specification_sha256_v6 : BackendSpec → str;
}.

Inductive GroupMode : Type := Batch | All | Any | Race.

Inductive InvokeMode : Type :=
| Eager
| Lazy
| Autonomous
| Group (m : GroupMode).

Inductive NativeLeafKind : Type := OcoreI64.

Inductive NativeLeafInterface : Type := ScalarI64AcyclicV1 (parameter_count : nat).

Record NativeLeafProvenance : Type := { descriptor_sha256 : option str }.

Inductive OIr : Type :=
| Text (s : str)
| Load (name : str)
| Store (name : str) (expr : OIr)
| Invoke (fn_name : str) (mode : InvokeMode) (args : list OIr)
| NativeLeaf (kind : NativeLeafKind) (interface : NativeLeafInterface)
    (provenance : NativeLeafProvenance) (descriptor : option str) (args : list OIr)
| Exec (lang : str) (env_id : Z) (attr : option str) (backend : BackendInterface) (body : list OIr).

Record OIrProgram : Type := { nodes : list OIr }.

Section OIrInd.
Context (P : OIr → Prop).
Context (HText : ∀ s, P (Text s)) (HLoad : ∀ n, P (Load n)).
Context (HStore : ∀ n e, P e → P (Store n e)).
Context (HInvoke : ∀ f m a, Forall P a → P (Invoke f m a)).
Context (HLeaf : ∀ k i p d a, Forall P a → P (NativeLeaf k i p d a)).
Context (HExec : ∀ l e a i b, Forall P b → P (Exec l e a i b)).

Fixpoint OIr_ind' (n : OIr) : P n :=
  let go := fix go (l : list OIr) : Forall P l :=
    match l with
    | [] => List.Forall_nil P
    | x :: l => List.Forall_cons P x l (OIr_ind' x) (go l)
    end in
  match n with
  | Text s => HText s
  | Load n => HLoad n
  | Store n e => HStore n e (OIr_ind' e)
  | Invoke f m a => HInvoke f m a (go a)
  | NativeLeaf k i p d a => HLeaf k i p d a (go a)
  | Exec l e a i b => HExec l e a i b (go b)
  end.
End OIrInd.

#[export] Instance GroupMode_eq_dec : EqDecision GroupMode.
Proof. solve_decision. Defined.
#[export] Instance InvokeMode_eq_dec : EqDecision InvokeMode.
Proof. solve_decision. Defined.
#[export] Instance NativeLeafKind_eq_dec : EqDecision NativeLeafKind.
Proof. solve_decision. Defined.
#[export] Instance NativeLeafInterface_eq_dec : EqDecision NativeLeafInterface.
Proof. solve_decision. Defined.
#[export] Instance NativeLeafProvenance_eq_dec : EqDecision NativeLeafProvenance.
Proof. solve_decision. Defined.

#[export] Instance OIr_eq_dec : EqDecision OIr.
Proof.
  refine (fix go x y := let _ : EqDecision OIr := @go in
    match x, y with
    | Text s, Text s' => cast_if (decide (s = s'))
    | Load n, Load n' => cast_if (decide (n = n'))
    | Store n e, Store n' e' => cast_if_and (decide (n = n')) (decide (e = e'))
    | Invoke f m a, Invoke f' m' a' => cast_if_and3 (decide (f = f')) (decide (m = m')) (decide (a = a'))
    | NativeLeaf k i p d a, NativeLeaf k' i' p' d' a' =>
        cast_if_and5 (decide (k = k')) (decide (i = i')) (decide (p = p')) (decide (d = d')) (decide (a = a'))
    | Exec l e a i b, Exec l' e' a' i' b' =>
        cast_if_and5 (decide (l = l')) (decide (e = e')) (decide (a = a')) (decide (i = i')) (decide (b = b'))
    | _, _ => right _
    end); abstract congruence.
Defined.

(** ** Modes and native leaves *)

Definition for_name (name : str) : InvokeMode :=
  if bool_decide (name = lit "lazy") then Lazy
  else if bool_decide (name = lit "autonomous") then Autonomous
  else if bool_decide (name = lit "batch") then Group Batch
  else if bool_decide (name = lit "all") then Group All
  else if bool_decide (name = lit "any") then Group Any
  else if bool_decide (name = lit "race") then Group Race
  else Eager.

Definition mode_label (m : InvokeMode) : str :=
  match m with
  | Eager => lit "eager"
  | Lazy => lit "lazy"
  | Autonomous => lit "autonomous"
  | Group Batch => lit "group:batch"
  | Group All => lit "group:all"
  | Group Any => lit "group:any"
  | Group Race => lit "group:race"
  end.

Definition group_name (m : GroupMode) : str :=
  match m with
  | Batch => lit "batch"
  | All => lit "all"
  | Any => lit "any"
  | Race => lit "race"
  end.

Definition builtin_name (k : NativeLeafKind) : str :=
  match k with OcoreI64 => NATIVE_LEAF_BUILTIN end.

Definition extract_static_text_descriptor (args : list OIr) : option str :=
  match head args with
  | Some (Exec _ _ None backend body) =>
      if bool_decide (canonical backend = lit "text") && pure backend then
        match body with
        | [Text text] => Some text
        | _ => None
        end
      else None
  | _ => None
  end.

Definition is_quote_exec (node : OIr) : bool :=
  match node with
  | Exec _ _ _ backend _ =>
      bool_decide (execution backend = InlineAst) && bool_decide (canonical backend = lit "quote")
  | _ => false
  end.

(** The executable children of a node: none below [quote], which owns its body. *)
Fixpoint flatten_node_for_plan (node : OIr) : list OIr :=
  node ::
  match node with
  | Text _ | Load _ => []
  | Store _ expr => flatten_node_for_plan expr
  | Invoke _ _ args | NativeLeaf _ _ _ _ args => concat (map flatten_node_for_plan args)
  | Exec _ _ _ _ body =>
      if is_quote_exec node then [] else concat (map flatten_node_for_plan body)
  end.

Definition flatten_nodes_for_plan (ns : list OIr) : list OIr := concat (map flatten_node_for_plan ns).

Definition flatten_for_plan (p : OIrProgram) : list OIr := flatten_nodes_for_plan (nodes p).

(** ** Source reconstruction *)

(** Arguments separated by a comma and a space. *)
Fixpoint join (sep : str) (l : list str) : str :=
  match l with
  | [] => []
  | [x] => x
  | x :: l => x ++ sep ++ join sep l
  end.

Definition tag_source (lang : str) (env_id : Z) (attr : option str) : str :=
  lang ++ default [] (source_marker (from_encoded env_id))
       ++ match attr with Some a => lit "{" ++ a ++ lit "}" | None => [] end.

Fixpoint reconstruct_node (node : OIr) : str :=
  match node with
  | Text text => text
  | Load name => lit "$" ++ name
  | Store name expr => lit "let " ++ name ++ lit " = " ++ reconstruct_node expr
  | Invoke fn_name _ args => fn_name ++ lit "(" ++ join (lit ", ") (map reconstruct_node args) ++ lit ")"
  | NativeLeaf kind _ _ _ args =>
      builtin_name kind ++ lit "(" ++ join (lit ", ") (map reconstruct_node args) ++ lit ")"
  | Exec lang env_id attr _ body =>
      tag_source lang env_id attr ++ lit "^(" ++ concat (map reconstruct_node body)
      ++ lit ")_" ++ tag_source lang env_id attr
  end.

Definition reconstruct_source (ns : list OIr) : str := concat (map reconstruct_node ns).

(** The routine of the same name in [parser.rs]. *)
Fixpoint reconstruct_onode (node : ONode) : str :=
  match node with
  | RawText s => s
  | VarRef name => lit "$" ++ name
  | LetBinding name expr => lit "let " ++ name ++ lit " = " ++ reconstruct_onode expr
  | TypedExpr lang env_id attr body =>
      tag_source lang env_id attr ++ lit "^(" ++ concat (map reconstruct_onode body)
      ++ lit ")" ++ lit "_" ++ tag_source lang env_id attr
  | Call fn_name args => fn_name ++ lit "(" ++ join (lit ", ") (map reconstruct_onode args) ++ lit ")"
  end.

Definition reconstruct_onodes (ns : list ONode) : str := concat (map reconstruct_onode ns).

(** ** Lowering *)

Section Lowering.
Context `{DG : !Digests}.

(** [native_leaf_identity::digest]. *)
Definition native_leaf_digest (bytes : str) : str := sha256_hex bytes.

(** [BackendRegistry::global()]. *)
Definition global_specs : list BackendSpec := BACKEND_SPECS hash_bytes.

Definition global_interface_for (lang : str) : BackendInterface :=
  interface_for global_specs specification_sha256_v6 lang.

Definition native_leaf_source_descriptor (oir : OIr) : option str :=
  match oir with
  | NativeLeaf OcoreI64 (ScalarI64AcyclicV1 parameter_count) provenance (Some descriptor) args =>
      if negb (bool_decide (parameter_count = Nat.pred (length args))) then None
      else match extract_static_text_descriptor args with
      | None => None
      | Some arg_text =>
          if negb (bool_decide (arg_text = descriptor)) then None
          else if negb (bool_decide (descriptor_sha256 provenance = Some (native_leaf_digest descriptor)))
          then None
          else Some descriptor
      end
  | _ => None
  end.

Definition native_leaf_source_descriptor_sha256 (oir : OIr) : option str :=
  match native_leaf_source_descriptor oir with
  | None => None
  | Some _ =>
      match oir with
      | NativeLeaf _ _ provenance _ _ => descriptor_sha256 provenance
      | _ => None
      end
  end.

Fixpoint lower_node (node : ONode) : OIr :=
  match node with
  | RawText s => Text s
  | VarRef name => Load name
  | LetBinding name expr => Store name (lower_node expr)
  | Call fn_name args =>
      let lowered_args := map lower_node args in
      if bool_decide (fn_name = NATIVE_LEAF_BUILTIN) then
        let descriptor := extract_static_text_descriptor lowered_args in
        NativeLeaf OcoreI64 (ScalarI64AcyclicV1 (Nat.pred (length lowered_args)))
          {| descriptor_sha256 := native_leaf_digest <$> descriptor |} descriptor lowered_args
      else Invoke fn_name (for_name fn_name) lowered_args
  | TypedExpr lang env_id attr body =>
      Exec lang env_id attr (global_interface_for lang) (map lower_node body)
  end.

Definition lower (ns : list ONode) : OIrProgram := {| nodes := map lower_node ns |}.

(** The test on the frozen interface is a test on the canonical name. *)
Lemma text_interface_pure lang :
  bool_decide (canonical (global_interface_for lang) = lit "text") && pure (global_interface_for lang) =
  bool_decide (registry_canonical global_specs lang = lit "text").
Proof.
  unfold global_interface_for, global_specs, interface_for. cbn [canonical pure].
  case_bool_decide as E; [|done].
  rewrite (registry_get_canonical hash_bytes lang spec_text); [done| |exact E].
  apply (bool_decide_unpack _). vm_compute. exact I.
Qed.

Lemma reconstruct_lower_node n : reconstruct_node (lower_node n) = reconstruct_onode n.
Proof.
  assert (Hmap : ∀ l, Forall (λ n, reconstruct_node (lower_node n) = reconstruct_onode n) l →
    map reconstruct_node (map lower_node l) = map reconstruct_onode l).
  { induction 1; simpl; congruence. }
  induction n as [| | |lang env attr body IH|f args IH] using ONode_ind'; simpl; try congruence.
  - by rewrite Hmap.
  - case_bool_decide as E; simpl; rewrite Hmap by done; [by rewrite E|done].
Qed.

(** Lowering loses nothing that reconstruction needs: the source that [quote]
    rebuilds from the lowered body is the source that the parser's routine
    rebuilds from the syntax tree. *)
Lemma reconstruct_lowered (ns : list ONode) :
  reconstruct_source (nodes (lower ns)) = reconstruct_onodes ns.
Proof.
  unfold reconstruct_source, reconstruct_onodes, lower. simpl. f_equal. rewrite map_map.
  apply map_ext. apply reconstruct_lower_node.
Qed.

(** The provenance check of a native leaf accepts exactly what lowering froze:
    for every call of the builtin the checked descriptor is the text of its
    first, attribute-free literal [text] argument, with the SHA-256 of that
    text; any other first argument gives a leaf with no descriptor. *)
Lemma native_leaf_descriptor_frozen (args : list ONode) :
  native_leaf_source_descriptor (lower_node (Call NATIVE_LEAF_BUILTIN args)) =
    match args with
    | TypedExpr lang _ None [RawText text] :: _ =>
        if bool_decide (registry_canonical global_specs lang = lit "text") then Some text else None
    | _ => None
    end ∧
  native_leaf_source_descriptor_sha256 (lower_node (Call NATIVE_LEAF_BUILTIN args)) =
    native_leaf_digest <$> native_leaf_source_descriptor (lower_node (Call NATIVE_LEAF_BUILTIN args)).
Proof.
  unfold native_leaf_source_descriptor_sha256. cbn [lower_node].
  rewrite (bool_decide_eq_true_2 (_ = NATIVE_LEAF_BUILTIN)) by reflexivity.
  assert (Hx : extract_static_text_descriptor (map lower_node args) =
    match args with
    | TypedExpr lang _ None [RawText text] :: _ =>
        if bool_decide (registry_canonical global_specs lang = lit "text") then Some text else None
    | _ => None
    end).
  { destruct args as [|[]]; try done; cbn [map].
    2:{ simpl. by case_bool_decide. }
    unfold extract_static_text_descriptor. cbn [head lower_node].
    destruct attr; [done|]. rewrite text_interface_pure.
    destruct body as [|[] [|]]; simpl; try (by destruct (bool_decide _)).
    all: repeat case_bool_decide; done. }
  cbv zeta. rewrite <-Hx. unfold native_leaf_source_descriptor.
  destruct (extract_static_text_descriptor (map lower_node args)) as [text|] eqn:E; [|done].
  cbn [fmap option_fmap option_map descriptor_sha256].
  rewrite !bool_decide_eq_true_2 by done. done.
Qed.
End Lowering.
