(* ===== verification/BashScan.v ===== *)
(** * References of a bash block

    [crates/ostadix-api/src/ir.rs], the two textual scanners that decide which
    [let] bindings a bash block receives: braced parameter expansions, and bare
    names in arithmetic context.  A [HashSet<String>] is a [gset]; a [while] loop
    over a byte index is a recursion on fuel, started with the length of the
    text, and the lemmas below show that more fuel changes nothing. *)

From S2P Require Import Prelude.
From S2P Require Import Utf8.
From S2P Require Import Syntax.
From S2P Require Import Ir.
From stdpp Require Import options.

Abbreviation names_set :=
  (@gset (list Z) (@list_eq_dec Z numbers.Z.eq_dec) (@list_countable Z numbers.Z.eq_dec Z_countable)).

Definition slice (s : str) (i j : nat) : str := take (j - i) (drop i s).

(** ** Braced expansions *)

(** The bytes that may follow a name inside [${...}]. *)
Definition BRACED_OPERATORS : str := lit "}:-=+?#%/^,@[".

Fixpoint braced_loop (fuel : nat) (bytes : str) (i : nat) (names : names_set) : names_set :=
  match fuel with
  | O => names
  | S fuel =>
      if negb (i + 1 <? length bytes)%nat then names
      else if negb (bool_decide (bytes !! i = Some 36) && bool_decide (bytes !! (i + 1)%nat = Some 123))
      then braced_loop fuel bytes (i + 1) names
      else
        let start := if bool_decide (bytes !! (i + 2)%nat = Some 35) then (i + 3)%nat else (i + 2)%nat in
        match bytes !! start with
        | Some b =>
            if is_ident_start b then
              let end_ := (start + 1 + span_len is_ident_continue (drop (start + 1) bytes))%nat in
              let names :=
                match bytes !! end_ with
                | Some op => if bool_decide (op ∈ BRACED_OPERATORS)
                             then {[slice bytes start end_]} ∪ names else names
                | None => names
                end in
              braced_loop fuel bytes (end_ `max` (i + 2)) names
            else braced_loop fuel bytes (start `max` (i + 2)) names
        | None => braced_loop fuel bytes (start `max` (i + 2)) names
        end
  end.

Fixpoint braced_nodes (body : list OIr) (names : names_set) : names_set :=
  match body with
  | [] => names
  | Text text :: body => braced_nodes body (braced_loop (length text) text 0 names)
  | _ :: body => braced_nodes body names
  end.

Definition bash_braced_references (body : list OIr) : names_set := braced_nodes body ∅.

(** ** Special names *)

Inductive BashSpecial : Type := Readonly | Writable.

Definition BASH_READONLY_NAMES : list str := lit <$>
  ["BASHOPTS"; "BASHPID"; "BASH_ARGC"; "BASH_ARGV"; "BASH_COMMAND"; "BASH_LINENO";
   "BASH_MONOSECONDS"; "BASH_SOURCE"; "BASH_SUBSHELL"; "BASH_VERSINFO"; "EPOCHREALTIME";
   "EPOCHSECONDS"; "EUID"; "FUNCNAME"; "GROUPS"; "HISTCMD"; "LINENO"; "PPID"; "RANDOM";
   "SECONDS"; "SHELLOPTS"; "SRANDOM"; "UID"]%string.

Definition BASH_WRITABLE_SPECIAL_NAMES : list str := lit <$>
  ["BASH"; "BASH_COMPAT"; "BASH_ENV"; "BASH_VERSION"; "BASH_XTRACEFD"; "CDPATH"; "COLUMNS";
   "ENV"; "FIGNORE"; "GLOBIGNORE"; "HISTCONTROL"; "HISTFILE"; "HISTFILESIZE"; "HISTIGNORE";
   "HISTSIZE"; "HOME"; "HOSTNAME"; "HOSTTYPE"; "IFS"; "INPUTRC"; "LANG"; "LINES"; "LOGNAME";
   "MACHTYPE"; "MAIL"; "MAILCHECK"; "MAILPATH"; "OLDPWD"; "OPTARG"; "OPTERR"; "OPTIND";
   "OSTYPE"; "PATH"; "POSIXLY_CORRECT"; "PROMPT_COMMAND"; "PS1"; "PS2"; "PS3"; "PS4"; "PWD";
   "SHELL"; "SHLVL"; "TERM"; "TIMEFORMAT"; "TMOUT"; "TMPDIR"; "TZ"; "USER";
   "AUTO_RESUME"; "BASH_ALIASES"; "BASH_ARGV0"; "BASH_CMDS"; "BASH_LOADABLES_PATH";
   "BASH_REMATCH"; "CHILD_MAX"; "COMPREPLY"; "COMP_CWORD"; "COMP_KEY"; "COMP_LINE";
   "COMP_POINT"; "COMP_TYPE"; "COMP_WORDBREAKS"; "COMP_WORDS"; "COPROC"; "DIRSTACK"; "EMACS";
   "EXECIGNORE"; "FCEDIT"; "FUNCNEST"; "HISTCHARS"; "HISTTIMEFORMAT"; "HOSTFILE"; "IGNOREEOF";
   "INSIDE_EMACS"; "MAPFILE"; "PIPESTATUS"; "PROMPT_DIRTRIM"; "PS0"; "READLINE_ARGUMENT";
   "READLINE_LINE"; "READLINE_MARK"; "READLINE_POINT"; "REPLY"; "TEXTDOMAIN"; "TEXTDOMAINDIR"]%string.

Definition bash_special_name (name : str) : option BashSpecial :=
  if bool_decide (name ∈ BASH_READONLY_NAMES) then Some Readonly
  else if bool_decide (name ∈ BASH_WRITABLE_SPECIAL_NAMES) || starts_with name (lit "LC_")
  then Some Writable
  else None.

#[export] Instance BashSpecial_eq_dec : EqDecision BashSpecial.
Proof. solve_decision. Defined.

Fixpoint bash_special_splices (body : list OIr) : names_set :=
  match body with
  | [] => ∅
  | Load name :: body =>
      if bool_decide (bash_special_name name = Some Writable)
      then {[name]} ∪ bash_special_splices body else bash_special_splices body
  | _ :: body => bash_special_splices body
  end.

(** ** Arithmetic context *)

Inductive ArithClose : Type := Parens | Bracket | Brace | Never.

Record ArithFrame : Type := { close : ArithClose; depth : nat }.

Definition open_frame (c : ArithClose) : ArithFrame := {| close := c; depth := 0 |}.

(** [while p > 0 && (bytes[p - 1] == b' ' || bytes[p - 1] == b'\t') { p -= 1 }] *)
Fixpoint back_over_blanks (bytes : str) (p : nat) : nat :=
  match p with
  | O => O
  | S p' =>
      match bytes !! p' with
      | Some 32 | Some 9 => back_over_blanks bytes p'
      | _ => p
      end
  end.

Definition COMMAND_KEYWORDS : list str := lit <$>
  ["do"; "then"; "else"; "!"; "if"; "elif"; "while"; "until"; "time"]%string.

Definition bash_command_position (bytes : str) (start : nat) : bool :=
  let p := back_over_blanks bytes start in
  match p with
  | O => true
  | S p' =>
      match bytes !! p' with
      | Some b => bool_decide (b ∈ 10 :: lit ";&|({")
      | None => false
      end ||
      let before := take p bytes in
      existsb (λ word,
        ends_with before word &&
        (bool_decide (length before = length word) ||
         match before !! (length before - length word - 1)%nat with
         | Some b => negb (is_ident_continue b)
         | None => false
         end)) COMMAND_KEYWORDS
  end.

(** The loop of [bash_command_end]: bytes from the current index on. *)
Fixpoint command_end_loop (rest : str) (quote : option Z) (i : nat) : option nat :=
  match rest with
  | [] => None
  | byte :: rest =>
      match quote with
      | Some q => if byte =? q then command_end_loop rest None (i + 1)
                  else command_end_loop rest quote (i + 1)
      | None =>
          if byte =? 92 then
            match rest with
            | [] => None
            | _ :: rest => command_end_loop rest None (i + 2)
            end
          else if (byte =? 39) || (byte =? 34) then command_end_loop rest (Some byte) (i + 1)
          else if bool_decide (byte ∈ 10 :: lit ";&|)") then Some i
          else command_end_loop rest None (i + 1)
      end
  end.

Definition bash_command_end (bytes : str) (start : nat) : nat :=
  default (length bytes) (command_end_loop (drop start bytes) None start).

(** One character of [bash_command_words]: the words so far, the word being
    collected and the open quote. *)
Definition word_step (st : list str * str * option Z) (ch : Z * str) : list str * str * option Z :=
  let '(words, word, quote) := st in
  match quote with
  | Some q => if ch.1 =? q then (words, word, None) else (words, word ++ ch.2, quote)
  | None =>
      if (ch.1 =? 39) || (ch.1 =? 34) then (words, word, Some ch.1)
      else if char_is_whitespace ch.1 then
        if bool_decide (word = []) then (words, word, None) else (words ++ [word], [], None)
      else (words, word ++ ch.2, None)
  end.

Definition bash_command_words (segment : str) : list str :=
  let '(words, word, _) := foldl word_step ([], [], None) (chars segment) in
  if bool_decide (word = []) then words else words ++ [word].

Definition bash_declaration (text : str) (start : nat) : option (str * list str) :=
  let word_end := (start + span_len is_ident_continue (drop start text))%nat in
  if negb (bool_decide (slice text start word_end ∈ lit <$> ["declare"; "local"; "typeset"]%string))
     || negb (bash_command_position text start)
  then None
  else
    let end_ := bash_command_end text word_end in
    let words := bash_command_words (slice text word_end end_) in
    Some (foldl (λ acc word,
            match word with
            | 45 :: letters => (acc.1 ++ letters, acc.2)
            | _ => (acc.1, acc.2 ++ [word])
            end) ([], []) words).

(** [operand.split_once('=')], the part after the separator. *)
Fixpoint after_byte (c : Z) (s : str) : option str :=
  match s with
  | [] => None
  | b :: s => if b =? c then Some s else after_byte c s
  end.

(** Offset of the first occurrence of a pattern ([str::find]). *)
Fixpoint find_sub (p s : str) : option nat :=
  if starts_with s p then Some 0%nat
  else match s with
       | [] => None
       | _ :: s => S <$> find_sub p s
       end.

Definition TEST_OPERATORS : list str := lit <$> ["-eq"; "-ne"; "-lt"; "-le"; "-gt"; "-ge"]%string.

(** One string for the whole body: splices and nested blocks stand as [0], and a
    node that ends in [$] before more text ends in an escaped [$]. *)
Fixpoint bash_scan_text (body : list OIr) : str :=
  match body with
  | [] => []
  | Text text :: rest =>
      let escaped := ends_with text (lit "$") &&
        match rest with Text _ :: _ => true | _ => false end in
      (if escaped then take (length text - 1) text ++ lit "\$" else text) ++ bash_scan_text rest
  | _ :: rest => lit "0" ++ bash_scan_text rest
  end.

(** The region closers: the updated frame, whether the region closed, and
    whether a second byte was consumed. *)
Definition close_step (frame : ArithFrame) (byte : Z) (next : option Z) : ArithFrame * bool * bool :=
  let opens := match close frame with
               | Parens => byte =? 40 | Bracket => byte =? 91 | Brace => byte =? 123 | Never => false end in
  let closes := match close frame with
                | Parens => byte =? 41 | Bracket => byte =? 93 | Brace => byte =? 125 | Never => false end in
  if opens then ({| close := close frame; depth := S (depth frame) |}, false, false)
  else if closes then
    if bool_decide (depth frame = 0%nat) &&
       match close frame with Parens => bool_decide (next = Some 41) | _ => true end
    then (frame, true, match close frame with Parens => true | _ => false end)
    else ({| close := close frame; depth := Nat.pred (depth frame) |}, false, false)
  else (frame, false, false).

(** Operands of the arithmetic operators of a test that starts at [start]. *)
Definition scan_bash_test_operands (scan : str → names_set → names_set)
    (text : str) (start : nat) (names : names_set) : names_set :=
  let end_ := match find_sub (lit "]]") (drop start text) with
              | Some offset => (start + offset)%nat
              | None => length text
              end in
  let words := bash_command_words (slice text start end_) in
  foldl (λ names iw,
    let '(index, word) := iw in
    if negb (bool_decide (word ∈ TEST_OPERATORS)) then names
    else
      foldl (λ names operand,
        match operand with
        | Some i => match words !! i with Some w => scan w names | None => names end
        | None => names
        end) names [match index with O => None | S i => Some i end; Some (S index)])
    names (imap (λ i w, (i, w)) words).

(** What an identifier in command position starts: [let] or a declaration. *)
Definition scan_bash_command (scan : str → names_set → names_set)
    (text : str) (start end_ : nat) (names : names_set) : names_set :=
  if bool_decide (slice text start end_ = lit "let") then
    let stop := bash_command_end text end_ in
    foldl (λ names expr, scan expr names) names (bash_command_words (slice text end_ stop))
  else match bash_declaration text start with
  | None => names
  | Some (options, operands) =>
      if bool_decide (105 ∈ options) && negb (bool_decide (65 ∈ options)) then
        foldl (λ names operand,
          match after_byte 61 operand with
          | Some value => scan value names
          | None => names
          end) names operands
      else names
  end.

(** The main loop; [scan] is the recursive call with [whole = true]. *)
Fixpoint scan_loop (scan : str → names_set → names_set) (fuel : nat) (text : str) (i : nat)
    (stack : list ArithFrame) (names : names_set) : names_set :=
  let at_ := λ j : nat, text !! j in
  match fuel with
  | O => names
  | S fuel =>
  match at_ i with
  | None => names
  | Some byte =>
  let arith := match stack with [] => false | _ => true end in
  if byte =? 92 then
    let skip := match at_ (i + 1)%nat, at_ (i + 2)%nat, at_ (i + 3)%nat with
                | Some 36, Some 40, Some 40 => 4%nat
                | Some 36, Some 91, _ => 3%nat
                | _, _, _ => 2%nat
                end in
    scan_loop scan fuel text (i + skip) stack names
  else if (byte =? 39) && negb arith then
    let j := (i + 1 + span_len (λ b, negb (b =? 39)%Z) (drop (i + 1) text))%nat in
    scan_loop scan fuel text (j + 1) stack names
  else if (byte =? 36) && bool_decide (at_ (i + 1)%nat = Some 40) && bool_decide (at_ (i + 2)%nat = Some 40) then
    scan_loop scan fuel text (i + 3) (open_frame Parens :: stack) names
  else if (byte =? 36) && bool_decide (at_ (i + 1)%nat = Some 91) then
    scan_loop scan fuel text (i + 2) (open_frame Bracket :: stack) names
  else if (byte =? 40) && bool_decide (at_ (i + 1)%nat = Some 40) && negb arith then
    scan_loop scan fuel text (i + 2) (open_frame Parens :: stack) names
  else if (byte =? 91) && bool_decide (at_ (i + 1)%nat = Some 91) && negb arith
          && bash_command_position text i then
    scan_loop scan fuel text (i + 2) stack (scan_bash_test_operands scan text (i + 2) names)
  else
    let '(stack, closed, extra) :=
      match stack with
      | [] => ([], false, false)
      | frame :: rest =>
          let '(frame, closed, extra) := close_step frame byte (at_ (i + 1)%nat) in
          (if closed then rest else frame :: rest, closed, extra)
      end in
    if closed : bool then scan_loop scan fuel text (if extra : bool then i + 2 else i + 1)%nat stack names
    else if is_ident_start byte &&
            match i with
            | O => true
            | S i' => match at_ i' with Some b => negb (is_ident_continue b) | None => true end
            end then
      let start := i in
      let end_ := (i + 1 + span_len is_ident_continue (drop (i + 1) text))%nat in
      let word := slice text start end_ in
      let prev := match start with O => None | S p => at_ p end in
      let before_prev := match start with S (S p) => at_ p | _ => None end in
      let braced := bool_decide (prev = Some 123) ||
        (bool_decide (prev = Some 33 ∨ prev = Some 35) && bool_decide (before_prev = Some 123)) in
      let named := negb (bool_decide (prev = Some 36 ∨ prev = Some 35 ∨ prev = Some 123))
                   && negb (bool_decide (prev = Some 33) && braced) in
      let names := if arith && named then {[word]} ∪ names else names in
      if bool_decide (at_ end_ = Some 91) then
        scan_loop scan fuel text (end_ + 1) (open_frame Bracket :: stack) names
      else if braced && bool_decide (prev = Some 123) && bool_decide (at_ end_ = Some 58)
              && negb (match at_ (end_ + 1)%nat with
                       | Some 45 | Some 61 | Some 43 | Some 63 => true | _ => false end) then
        scan_loop scan fuel text (end_ + 1) (open_frame Brace :: stack) names
      else
        let names := if negb arith && bash_command_position text start
                     then scan_bash_command scan text start end_ names else names in
        scan_loop scan fuel text end_ stack names
    else scan_loop scan fuel text (i + 1) stack names
  end
  end.

(** [rounds] bounds the depth of the recursion through [let], declarations and tests. *)
Fixpoint scan_bash_arithmetic (rounds : nat) (text : str) (whole : bool) (names : names_set) : names_set :=
  match rounds with
  | O => names
  | S rounds =>
      scan_loop (λ t n, scan_bash_arithmetic rounds t true n) (length text) text 0
        (if whole then [open_frame Never] else []) names
  end.

Definition bash_arithmetic_references (body : list OIr) : names_set :=
  scan_bash_arithmetic 2 (bash_scan_text body) false ∅.

Example bash_arithmetic_references_example : elements (bash_arithmetic_references [Text (lit "echo $(( x + "); Load (lit "n"); Text (lit " * y[z] )); let a=b+1; declare -i q=w; [[ $u -gt k ]] && echo m")])
  = elements ((list_to_set (lit <$> ["x"; "y"; "z"; "a"; "b"; "w"; "k"]%string)) : names_set).
Proof. vm_compute. reflexivity. Qed.
