(* ===== verification/BashTheorems.v ===== *)
(** * Theorems about the bash scanners

    The braced scanner finds exactly the names that occur in the declarative
    sense; the arithmetic scanner ends, recurses at most once and returns
    identifiers of the text only. *)

From S2P Require Import Prelude.
From S2P Require Import Utf8.
From S2P Require Import Syntax.
From S2P Require Import Ir.
From S2P Require Import BashScan.
From stdpp Require Import options.

(** ** Braced expansions *)

(** [s] opens with a braced expansion of [name]: an opening brace after a dollar,
    an optional length sign, the identifier and a byte that ends the name. *)
Definition braced_here (s name : str) : Prop :=
  ∃ sharp op post, s = lit "${" ++ sharp ++ name ++ op :: post ∧
    (sharp = [] ∨ sharp = lit "#") ∧ is_ident name = true ∧ op ∈ BRACED_OPERATORS.

Definition braced_in (text name : str) : Prop := ∃ pre s, text = pre ++ s ∧ braced_here s name.

Lemma operator_not_ident op : op ∈ BRACED_OPERATORS → is_ident_continue op = false.
Proof. revert op. apply Forall_forall. apply (bool_decide_unpack _). vm_compute. exact I. Qed.

Lemma ident_start_continue b : is_ident_start b = true → is_ident_continue b = true.
Proof. intros H. assert (Hi : is_ident [b] = true) by (simpl; by rewrite H). apply is_ident_all in Hi. by inversion Hi. Qed.

Lemma ident_span_cons b t r :
  is_ident (b :: t) = true → (∀ x, r !! 0%nat = Some x → is_ident_continue x = false) →
  span_len is_ident_continue (t ++ r) = length t.
Proof.
  intros Hi Hr. apply span_len_app; [|done]. apply is_ident_all in Hi. by inversion Hi.
Qed.

(** What the scanner tests after the marker, on the bytes from the name on. *)
Definition braced_name (r name : str) : Prop :=
  match r with
  | [] => False
  | b :: q =>
      is_ident_start b = true ∧ name = b :: take (span_len is_ident_continue q) q ∧
      ∃ op, q !! span_len is_ident_continue q = Some op ∧ op ∈ BRACED_OPERATORS
  end.

Lemma braced_name_spec r name :
  braced_name r name ↔ ∃ op post, r = name ++ op :: post ∧ is_ident name = true ∧ op ∈ BRACED_OPERATORS.
Proof.
  destruct r as [|b q]; simpl.
  { split; [done|]. intros (op & post & H & _). by apply app_cons_not_nil in H. }
  split.
  - intros (Hb & -> & op & Hop & Hin). exists op, (drop (S (span_len is_ident_continue q)) q).
    rewrite <-app_comm_cons, <-(drop_S q op), take_drop by done. split; [done|]. split; [|done].
    simpl. rewrite Hb. apply forallb_Forall, span_len_take.
  - intros (op & post & Heq & Hi & Hin). destruct name as [|b' t]; [done|]. simpl in Heq. simplify_eq.
    pose proof Hi as Hi'. simpl in Hi'. apply andb_true_iff in Hi' as [Hb _]. split; [done|].
    rewrite (ident_span_cons b' t (op :: post) Hi).
    2:{ simpl. intros x [= <-]. by apply operator_not_ident. }
    rewrite take_app_length. split; [done|]. exists op. by rewrite lookup_app_at.
Qed.

Definition skip_sharp (r : str) : str :=
  match r with
  | b :: q => if b =? 35 then q else r
  | [] => []
  end.

Lemma braced_here_spec r name :
  braced_here (36 :: 123 :: r) name ↔ braced_name (skip_sharp r) name.
Proof.
  rewrite braced_name_spec. unfold braced_here. split.
  - intros (sharp & op & post & Heq & Hs & Hi & Hin). exists op, post. split; [|done].
    injection Heq as ->. destruct Hs as [->| ->]; simpl; [|done].
    destruct name as [|b t]; [done|]. simpl. destruct (Z.eqb_spec b 35) as [->|]; done.
  - intros (op & post & Heq & Hi & Hin). destruct r as [|b q]; simpl in Heq.
    { by apply app_cons_not_nil in Heq. }
    destruct (Z.eqb_spec b 35) as [->|].
    + exists (lit "#"), op, post. rewrite Heq. split_and!; [done|by right|done|done].
    + exists [], op, post. rewrite Heq. split_and!; [done|by left|done|done].
Qed.

Lemma braced_here_marker s name : braced_here s name → ∃ r, s = 36 :: 123 :: r.
Proof. intros (sharp & op & post & -> & _). eexists. reflexivity. Qed.

Lemma braced_in_cons b s name : braced_in (b :: s) name ↔ braced_here (b :: s) name ∨ braced_in s name.
Proof.
  split.
  - intros (pre & s' & Heq & Hh). destruct pre as [|b' pre]; simpl in Heq; simplify_eq; [by left|].
    right. by exists pre, s'.
  - intros [Hh|(pre & s' & -> & Hh)]; [by exists [], (b :: s)|by exists (b :: pre), s'].
Qed.

(** No marker starts inside a run of bytes that holds no dollar. *)
Lemma braced_in_skip w s name :
  Forall (λ b, b ≠ 36) w → braced_in (w ++ s) name ↔ braced_in s name.
Proof.
  induction 1 as [|b w Hb _ IH]; simpl; [done|]. rewrite braced_in_cons, IH.
  split; [|by right]. intros [Hh|?]; [|done].
  apply braced_here_marker in Hh as [r Hr]. by simplify_eq.
Qed.

Lemma braced_in_nil name : ¬ braced_in [] name.
Proof.
  intros (pre & s & Heq & Hh). symmetry in Heq. apply app_eq_nil in Heq as [-> ->].
  by apply braced_here_marker in Hh as [r ?].
Qed.

Lemma braced_in_short s name : (length s ≤ 1)%nat → ¬ braced_in s name.
Proof.
  destruct s as [|b [|? ?]]; simpl; try lia; intros _; [apply braced_in_nil|].
  rewrite braced_in_cons. intros [Hh|Hh]; [by apply braced_here_marker in Hh as [r ?]|by apply braced_in_nil in Hh].
Qed.

Lemma ident_not_dollar w : Forall (λ b, is_ident_continue b = true) w → Forall (λ b, b ≠ 36) w.
Proof. intros H. eapply Forall_impl; [exact H|]. intros b Hb ->. discriminate. Qed.

Lemma braced_name_found (bytes : str) (start : nat) (b : Z) (name : str) (names : names_set) :
  bytes !! start = Some b → is_ident_start b = true →
  let end_ := (start + 1 + span_len is_ident_continue (drop (start + 1) bytes))%nat in
  name ∈ match bytes !! end_ with
         | Some op => if bool_decide (op ∈ BRACED_OPERATORS)
                      then {[slice bytes start end_]} ∪ names else names
         | None => names
         end ↔ name ∈ names ∨ braced_name (drop start bytes) name.
Proof.
  intros Hb Hs end_. rewrite (drop_S bytes b start Hb). unfold braced_name.
  replace (S start) with (start + 1)%nat by lia.
  assert (Hslice : slice bytes start end_ =
    b :: take (span_len is_ident_continue (drop (start + 1) bytes)) (drop (start + 1) bytes)).
  { unfold slice, end_. rewrite (drop_S bytes b start Hb). replace (S start) with (start + 1)%nat by lia.
    replace (_ - start)%nat with (S (span_len is_ident_continue (drop (start + 1) bytes))) by lia. done. }
  rewrite lookup_drop. fold end_. rewrite Hslice.
  destruct (bytes !! end_) as [op|]; [|split; [by left|]; intros [?|(_ & _ & op & ? & _)]; done].
  case_bool_decide as Hop.
  - rewrite elem_of_union, elem_of_singleton. split; [|naive_solver].
    intros [->|?]; [|by left]. right. eauto.
  - split; [by left|]. intros [?|(_ & _ & op' & ? & ?)]; [done|congruence].
Qed.

Lemma drop_skip_sharp (bytes : str) (j : nat) :
  skip_sharp (drop j bytes) = drop (if bool_decide (bytes !! j = Some 35) then S j else j) bytes.
Proof.
  destruct (bytes !! j) as [b|] eqn:E; rewrite ?(drop_S bytes b j E).
  - simpl. destruct (Z.eqb_spec b 35) as [->|Hne].
    + by rewrite bool_decide_eq_true_2.
    + rewrite bool_decide_eq_false_2 by congruence. by rewrite (drop_S bytes b j E).
  - rewrite bool_decide_eq_false_2 by done. by rewrite drop_ge by by apply lookup_ge_None.
Qed.

Lemma braced_in_skip_sharp r name : braced_in (skip_sharp r) name ↔ braced_in r name.
Proof.
  destruct r as [|b r]; simpl; [done|]. destruct (Z.eqb_spec b 35) as [->|]; [|done].
  symmetry. apply (braced_in_skip [35]). repeat constructor. discriminate.
Qed.

Lemma braced_loop_spec (fuel : nat) (bytes : str) (i : nat) (names : names_set) (name : str) :
  (length bytes - i ≤ fuel)%nat →
  name ∈ braced_loop fuel bytes i names ↔ name ∈ names ∨ braced_in (drop i bytes) name.
Proof.
  revert i names. induction fuel as [|fuel IH]; intros i names Hf; cbn [braced_loop].
  { rewrite drop_ge by lia. pose proof (braced_in_nil name). tauto. }
  destruct (Nat.ltb_spec (i + 1) (length bytes)) as [Hlt|Hge]; cbn [negb].
  2:{ assert (¬ braced_in (drop i bytes) name) by (apply braced_in_short; rewrite length_drop; lia). tauto. }
  destruct (lookup_lt_is_Some_2 bytes i) as [b0 H0]; [lia|].
  destruct (lookup_lt_is_Some_2 bytes (i + 1)) as [b1 H1]; [lia|].
  rewrite (drop_S bytes b0 i H0). replace (S i) with (i + 1)%nat by lia.
  destruct (bool_decide (bytes !! i = Some 36) && bool_decide (bytes !! (i + 1)%nat = Some 123)) eqn:Hm;
    cbn [negb].
  2:{ rewrite IH, braced_in_cons by lia. split; [tauto|]. intros [?|[Hh|?]]; [by left| |by right].
      exfalso. rewrite (drop_S bytes b1 (i + 1) H1) in Hh. apply braced_here_marker in Hh as [r Hr].
      simplify_eq. rewrite !bool_decide_eq_true_2 in Hm by done. done. }
  apply andb_true_iff in Hm as [E0%bool_decide_eq_true E1%bool_decide_eq_true].
  assert (b0 = 36) as -> by congruence. assert (b1 = 123) as -> by congruence.
  rewrite (drop_S bytes _ (i + 1) H1). replace (S (i + 1)) with (i + 2)%nat by lia.
  rewrite braced_in_cons, braced_here_spec.
  change (123 :: drop (i + 2) bytes) with ([123] ++ drop (i + 2) bytes).
  rewrite braced_in_skip by (repeat constructor; discriminate).
  rewrite <-(braced_in_skip_sharp (drop (i + 2) bytes)), drop_skip_sharp.
  replace (S (i + 2)) with (i + 3)%nat by lia.
  set (start := if bool_decide (bytes !! (i + 2)%nat = Some 35) then (i + 3)%nat else (i + 2)%nat).
  assert (Hstart : (i + 2 ≤ start)%nat) by (unfold start; destruct (bool_decide _); lia).
  cbv zeta. destruct (bytes !! start) as [b|] eqn:Hb.
  2:{ rewrite Nat.max_l, IH by lia. rewrite drop_ge by by apply lookup_ge_None. simpl. tauto. }
  destruct (is_ident_start b) eqn:Hs.
  - rewrite IH by lia. rewrite (braced_name_found bytes start b name names Hb Hs).
    rewrite Nat.max_l by lia. rewrite <-drop_drop.
    assert (Hskip : braced_in (drop start bytes) name ↔
      braced_in (drop (span_len is_ident_continue (drop (start + 1) bytes)) (drop (start + 1) bytes)) name).
    { rewrite (drop_S bytes b start Hb). replace (S start) with (start + 1)%nat by lia.
      rewrite <-(take_drop (span_len is_ident_continue (drop (start + 1) bytes)) (drop (start + 1) bytes)) at 1.
      rewrite app_comm_cons. apply braced_in_skip, ident_not_dollar. constructor; [|apply span_len_take].
      by apply ident_start_continue. }
    rewrite Hskip. tauto.
  - rewrite Nat.max_l, IH by lia. rewrite (drop_S bytes b start Hb). simpl. rewrite Hs. intuition done.
Qed.

Lemma braced_nodes_spec (body : list OIr) (names : names_set) (name : str) :
  name ∈ braced_nodes body names ↔ name ∈ names ∨ ∃ text, Text text ∈ body ∧ braced_in text name.
Proof.
  revert names. induction body as [|n body IH]; intros names; simpl.
  { split; [by left|]. intros [?|(t & Ht & _)]; [done|by apply elem_of_nil in Ht]. }
  assert (Hother : (∀ t, n ≠ Text t) → (∃ text, Text text ∈ n :: body ∧ braced_in text name) ↔
                   ∃ text, Text text ∈ body ∧ braced_in text name).
  { intros Hn. split; intros (t & Ht & Hb); exists t; (split; [|done]).
    - apply elem_of_cons in Ht as [Ht|?]; [by destruct (Hn t)|done].
    - by apply list_elem_of_further. }
  destruct n as [text| | | | |]; try (rewrite IH, Hother by done; done).
  rewrite IH, braced_loop_spec by lia. rewrite drop_0. split.
  - intros [[?|?]|(t & ? & ?)]; [by left| |]; right; [exists text|exists t];
      (split; [|done]); [apply list_elem_of_here|by apply list_elem_of_further].
  - intros [?|(t & Ht & ?)]; [by left; left|].
    apply elem_of_cons in Ht as [[= ->]|Ht]; [by left; right|]. right. eauto.
Qed.

(** C37. The braced scanner is exact: a bash block receives a name through a braced
    expansion precisely when one of its text nodes contains a dollar and an opening
    brace, an optional length sign, that identifier and one of the operator bytes. *)
Theorem bash_braced_references_exact (body : list OIr) (name : str) :
  name ∈ bash_braced_references body ↔ ∃ text, Text text ∈ body ∧ braced_in text name.
Proof.
  unfold bash_braced_references. rewrite braced_nodes_spec.
  split; [|by right]. intros [H|?]; [by apply elem_of_empty in H|done].
Qed.

(** ** Arithmetic context *)

Definition arith_of (stack : list ArithFrame) : bool := match stack with [] => false | _ => true end.

(** Bounded iteration: the index grows at every step, so fuel beyond the bytes
    that are left is never used. *)
Lemma scan_loop_fuel scan (text : str) fuel1 fuel2 i stack names :
  (length text - i ≤ fuel1)%nat → (length text - i ≤ fuel2)%nat →
  scan_loop scan fuel1 text i stack names = scan_loop scan fuel2 text i stack names.
Proof.
  revert fuel2 i stack names. induction fuel1 as [|fuel1 IH]; intros fuel2 i stack names H1 H2.
  { destruct fuel2; simpl; [done|]. by rewrite lookup_ge_None_2 by lia. }
  destruct (decide (i < length text)%nat) as [Hlt|Hge].
  2:{ destruct fuel2; simpl; by rewrite lookup_ge_None_2 by lia. }
  destruct fuel2 as [|fuel2]; [lia|]. cbn [scan_loop].
  destruct (lookup_lt_is_Some_2 text i Hlt) as [byte ->].
  repeat match goal with
  | |- (if ?c then _ else _) = (if ?c then _ else _) => destruct c
  | |- (let '(_, _) := ?p in _) = _ => destruct p as [[? []] []]
  | |- scan_loop _ _ _ _ _ _ = scan_loop _ _ _ _ _ _ => apply IH
  | |- (_ ≤ _)%nat => repeat case_match; lia
  | _ => progress cbv zeta
  end.
Qed.

(** A stack whose bottom frame is that of a whole arithmetic text. *)
Definition guarded (stack : list ArithFrame) : Prop :=
  ∃ l d, stack = l ++ [{| close := Never; depth := d |}].

Lemma guarded_push f stack : guarded stack → guarded (f :: stack).
Proof. intros (l & d & ->). by exists (f :: l), d. Qed.

Lemma guarded_close frame rest byte next frame' closed extra :
  guarded (frame :: rest) → close_step frame byte next = (frame', closed, extra) →
  guarded (if closed : bool then rest else frame' :: rest).
Proof.
  intros (l & d & Heq) Hstep. destruct l as [|f l]; simpl in Heq; simplify_eq.
  - cbn in Hstep. simplify_eq. by exists [], d.
  - destruct closed; [by exists l, d|by exists (frame' :: l), d].
Qed.

(** In arithmetic context the scanner makes no recursive call. *)
Lemma scan_loop_guarded scan scan' (text : str) fuel i stack names :
  guarded stack → scan_loop scan fuel text i stack names = scan_loop scan' fuel text i stack names.
Proof.
  revert i stack names. induction fuel as [|fuel IH]; intros i stack names Hg; [done|].
  cbn [scan_loop]. destruct (text !! i) as [byte|]; [|done].
  destruct stack as [|frame rest]; [by destruct Hg as ([] & ? & ?)|].
  pose proof (guarded_close frame rest byte (text !! (i + 1)%nat)) as Hclose.
  destruct (close_step frame byte _) as [[frame' closed] extra].
  specialize (Hclose _ _ _ Hg eq_refl). cbn [negb]. rewrite ?andb_false_r. cbn [andb].
  repeat match goal with
  | |- (if ?c then _ else _) = (if ?c then _ else _) => destruct c
  | |- scan_loop _ _ _ _ _ _ = scan_loop _ _ _ _ _ _ => apply IH; auto using guarded_push
  | _ => progress cbv zeta
  end.
Qed.

Lemma scan_whole_rounds (text : str) rounds names :
  scan_bash_arithmetic (S rounds) text true names = scan_bash_arithmetic 1 text true names.
Proof. cbn [scan_bash_arithmetic]. apply scan_loop_guarded. by exists [], 0%nat. Qed.

Lemma foldl_ext_in {A B} (f g : B → A → B) l b :
  (∀ b a, f b a = g b a) → foldl f b l = foldl g b l.
Proof. intros H. revert b. induction l as [|a l IH]; intros b; simpl; [done|]. by rewrite H, IH. Qed.

Lemma scan_loop_ext scan scan' (text : str) fuel i stack names :
  (∀ t n, scan t n = scan' t n) →
  scan_loop scan fuel text i stack names = scan_loop scan' fuel text i stack names.
Proof.
  intros Hext.
  assert (Ht : ∀ start n, scan_bash_test_operands scan text start n = scan_bash_test_operands scan' text start n).
  { intros start n. unfold scan_bash_test_operands. apply foldl_ext_in. intros b [index word].
    case_match; [done|]. apply foldl_ext_in. intros n' [o|]; [|done]. by case_match. }
  assert (Hc : ∀ start e n, scan_bash_command scan text start e n = scan_bash_command scan' text start e n).
  { intros start e n. unfold scan_bash_command. case_match; [by apply foldl_ext_in|].
    repeat case_match; try done. apply foldl_ext_in. intros n' o. by case_match. }
  revert i stack names. induction fuel as [|fuel IH]; intros i stack names; [done|]. cbn [scan_loop].
  destruct (text !! i) as [byte|]; [|done]. rewrite Ht.
  repeat match goal with
  | |- (if ?c then _ else _) = (if ?c then _ else _) => destruct c
  | |- (let '(_, _) := ?p in _) = _ => destruct p as [[? []] []]
  | |- scan_loop _ _ _ _ _ _ = scan_loop _ _ _ _ _ _ => rewrite ?Hc; apply IH
  | _ => progress cbv zeta
  end.
Qed.

(** The arithmetic scanner ends: its loop needs no more steps than the text has
    bytes, a scan of a whole arithmetic expression never recurses, and the scan
    of a block recurses at most once, so two rounds give the result of any
    larger bound. *)
Theorem bash_scan_terminates (text : str) (names : names_set) :
  (∀ rounds, scan_bash_arithmetic (2 + rounds) text false names = scan_bash_arithmetic 2 text false names) ∧
  (∀ rounds, scan_bash_arithmetic (1 + rounds) text true names = scan_bash_arithmetic 1 text true names) ∧
  (∀ scan stack extra, scan_loop scan (length text + extra) text 0 stack names =
                       scan_loop scan (length text) text 0 stack names).
Proof.
  split_and!.
  - intros rounds. apply scan_loop_ext. intros t n. apply scan_whole_rounds.
  - intros rounds. apply scan_whole_rounds.
  - intros scan stack extra. apply scan_loop_fuel; lia.
Qed.

(** ** The names found *)

Definition all_idents (names : names_set) : Prop := ∀ n, n ∈ names → is_ident n = true.

Lemma all_idents_insert w names : is_ident w = true → all_idents names → all_idents ({[w]} ∪ names).
Proof. intros Hw Hn n [->%elem_of_singleton|?]%elem_of_union; auto. Qed.

Lemma foldl_preserves {A B} (P : B → Prop) (f : B → A → B) l b :
  (∀ b a, P b → P (f b a)) → P b → P (foldl f b l).
Proof. intros H. revert b. induction l as [|a l IH]; intros b Hb; simpl; auto. Qed.

Lemma slice_ident (text : str) i byte :
  text !! i = Some byte → is_ident_start byte = true →
  is_ident (slice text i (i + 1 + span_len is_ident_continue (drop (i + 1) text))) = true.
Proof.
  intros Hb Hs. unfold slice. rewrite (drop_S _ _ _ Hb). replace (S i) with (i + 1)%nat by lia.
  replace (_ - i)%nat with (S (span_len is_ident_continue (drop (i + 1) text))) by lia.
  simpl. rewrite Hs. apply forallb_Forall, span_len_take.
Qed.

Lemma scan_loop_idents scan (text : str) fuel i stack names :
  (∀ t n, all_idents n → all_idents (scan t n)) → all_idents names →
  all_idents (scan_loop scan fuel text i stack names).
Proof.
  intros Hscan.
  assert (Ht : ∀ start n, all_idents n → all_idents (scan_bash_test_operands scan text start n)).
  { intros start n Hn. unfold scan_bash_test_operands. apply foldl_preserves; [|done]. intros b [index word] Hb.
    case_match; [done|]. apply foldl_preserves; [|done]. intros n' [o|] ?; [|done]. case_match; auto. }
  assert (Hc : ∀ start e n, all_idents n → all_idents (scan_bash_command scan text start e n)).
  { intros start e n Hn. unfold scan_bash_command. case_match; [apply foldl_preserves; auto|].
    repeat case_match; try done. apply foldl_preserves; [|done]. intros n' o ?. case_match; auto. }
  revert i stack names. induction fuel as [|fuel IH]; intros i stack names Hn; [done|]. cbn [scan_loop].
  destruct (text !! i) as [byte|] eqn:Hbyte; [|done]. cbv zeta.
  repeat match goal with
  | |- all_idents (if is_ident_start ?b && ?c then _ else _) =>
      destruct (is_ident_start b) eqn:?; cbn [andb]; [destruct c|]
  | |- all_idents (if ?c then scan_loop _ _ _ _ _ _ else _) => destruct c
  | |- all_idents (let '(_, _) := ?p in _) => destruct p as [[? []] []]
  | |- all_idents (scan_loop _ _ _ _ _ _) => apply IH
  | |- all_idents (if ?c then _ ∪ _ else _) => destruct c
  | |- all_idents (if ?c then scan_bash_command _ _ _ _ _ else _) => destruct c
  | |- all_idents (scan_bash_command _ _ _ _ _) => apply Hc
  end; eauto using all_idents_insert, slice_ident.
Qed.

Lemma scan_bash_arithmetic_idents rounds (text : str) whole names :
  all_idents names → all_idents (scan_bash_arithmetic rounds text whole names).
Proof.
  revert text whole names. induction rounds as [|rounds IH]; intros text whole names Hn; [done|].
  cbn [scan_bash_arithmetic]. apply scan_loop_idents; auto.
Qed.

(** What the scanners report are names a [let] can bind: every name found by
    either scanner is a source identifier. *)
Lemma bash_references_are_identifiers (body : list OIr) (name : str) :
  name ∈ bash_braced_references body ∪ bash_arithmetic_references body → is_ident name = true.
Proof.
  intros [H|H]%elem_of_union.
  - unfold bash_braced_references in H. rewrite braced_nodes_spec in H.
    destruct H as [H|(t & _ & pre & s & _ & sharp & op & post & _ & _ & Hi & _)]; [|done].
    by apply elem_of_empty in H.
  - eapply scan_bash_arithmetic_idents; [|exact H]. by intros n ?%elem_of_empty.
Qed.

Lemma bash_references_are_identifiers_witness :
  let body := [Text (lit "echo $((x + 1)) ${y:-2}")] in
  lit "x" ∈ bash_braced_references body ∪ bash_arithmetic_references body ∧ is_ident (lit "x") = true.
Proof.
  intros body. assert (H : lit "x" ∈ bash_braced_references body ∪ bash_arithmetic_references body).
  { apply (bool_decide_unpack _). vm_compute. exact I. }
  split; [exact H|]. apply (bash_references_are_identifiers body), H.
Defined.
