(* ===== verification/ExecutionPlan.v ===== *)
(** * Execution plans

    [crates/ostadix-api/src/ir.rs], second part: the dependency graph that every
    program is planned into, its construction ([PlanBuilder]), its validation and
    the schedules the evaluator runs.

    A [PlanNodeId] is its index.  A scope stack ([Vec<HashMap>]) is a list of
    [gmap]s with the innermost scope first, so that [iter().rev()] is the order
    of the list.  A hash map is iterated in the order of [map_to_list]; every such
    iteration of the source is followed by a sort. *)

From S2P Require Import Prelude.
From S2P Require Import Utf8.
From S2P Require Import Environment.
From S2P Require Import BackendCatalog.
From S2P Require Import Syntax.
From S2P Require Import Ir.
From S2P Require Import BashScan.
From stdpp Require Import options.

Abbreviation PlanNodeId := nat.

Inductive PlanEdgeKind : Type := Structural | Sequence | Data.

#[export] Instance PlanEdgeKind_eq_dec : EqDecision PlanEdgeKind.
Proof. solve_decision. Defined.

#[export] Instance PlanEdgeKind_countable : Countable PlanEdgeKind.
Proof.
  refine (inj_countable'
    (λ k, match k with Structural => 0 | Sequence => 1 | Data => 2 end%nat)
    (λ n, match n with 0 => Structural | 1 => Sequence | _ => Data end%nat) _).
  by intros [].
Defined.

Inductive PlanNodeClass : Type := Pure | Effect | Control.

Inductive CachePolicy : Type := Memoize | Bypass.

Definition cacheable (p : CachePolicy) : bool := match p with Memoize => true | Bypass => false end.

Inductive PlanRequestKind : Type := Instantiate | Realise | DryActivate | Activate.

Definition request_label (k : PlanRequestKind) : str :=
  match k with
  | Instantiate => lit "instantiate"
  | Realise => lit "realise"
  | DryActivate => lit "dry_activate"
  | Activate => lit "activate"
  end.

Definition cache_policy (k : PlanRequestKind) : CachePolicy :=
  match k with
  | Instantiate | Realise => Memoize
  | DryActivate | Activate => Bypass
  end.

Inductive PlanScheduleKind : Type := SForce | SLazy | SAutonomous.

Definition schedule_label (k : PlanScheduleKind) : str :=
  match k with SForce => lit "force" | SLazy => lit "lazy" | SAutonomous => lit "autonomous" end.

Record PlanEdge : Type := {
  edge_from : PlanNodeId;
  edge_to : PlanNodeId;
  edge_kind : PlanEdgeKind;
}.

#[export] Instance PlanEdge_eq_dec : EqDecision PlanEdge.
Proof. solve_decision. Defined.

Inductive PlanNodeKind : Type :=
| PText
| PLoad (name : str)
| PStore (name : str)
| PNativeI64 (descriptor : option str) (argument_count : nat)
| PCall (fn_name : str) (mode : InvokeMode) (arg_count : nat)
| PRequest (fn_name : str) (kind : PlanRequestKind) (arg_count : nat)
| PGroup (mode : GroupMode) (member_count : nat)
| PSchedule (fn_name : str) (kind : PlanScheduleKind) (arg_count : nat)
| PExec (lang : str) (env_id : Z) (attr : option str) (backend : BackendInterface).

Record PlanNode : Type := { node_id : PlanNodeId; node_kind : PlanNodeKind }.

Record ExecutionPlan : Type := {
  roots : list PlanNodeId;
  plan_nodes : list PlanNode;
  edges : list PlanEdge;
}.

#[export] Instance PlanRequestKind_eq_dec : EqDecision PlanRequestKind.
Proof. solve_decision. Defined.
#[export] Instance PlanScheduleKind_eq_dec : EqDecision PlanScheduleKind.
Proof. solve_decision. Defined.
#[export] Instance PlanNodeKind_eq_dec : EqDecision PlanNodeKind.
Proof. solve_decision. Defined.
#[export] Instance PlanNode_eq_dec : EqDecision PlanNode.
Proof. solve_decision. Defined.
#[export] Instance ExecutionPlan_eq_dec : EqDecision ExecutionPlan.
Proof. solve_decision. Defined.

(** ** Attributes of plan nodes *)

Definition attr_entries (attr : option str) : list str :=
  match attr with
  | None => []
  | Some a => trim <$> split_byte 44 a
  end.

Definition parse_eval_cache_policy (attr : option str) : option CachePolicy :=
  foldl (λ policy entry,
    if bool_decide (entry = lit "lazy") then Some Memoize
    else if bool_decide (entry = lit "defer") then Some Bypass
    else policy) None (attr_entries attr).

Definition eval_cache_policy (k : PlanNodeKind) : option CachePolicy :=
  match k with
  | PExec _ _ attr _ => parse_eval_cache_policy attr
  | PRequest _ kind _ => Some (cache_policy kind)
  | _ => None
  end.

Definition class (k : PlanNodeKind) : PlanNodeClass :=
  match k with
  | PText | PLoad _ | PStore _ | PCall _ _ _ | PNativeI64 _ _ => Pure
  | PExec _ _ _ _ => match eval_cache_policy k with Some _ => Control | None => Effect end
  | PRequest _ _ _ | PGroup _ _ | PSchedule _ _ _ => Control
  end.

Definition is_plain_bash_exec (k : PlanNodeKind) : bool :=
  match k with
  | PExec _ env_id _ backend =>
      bool_decide (canonical backend = lit "bash") && bool_decide (execution backend = Shim)
      && (MAX_PERSISTENT_ENV_ID <? env_id)
  | _ => false
  end.

Definition attr_capability_binding (attr : option str) : option str :=
  head (omap (λ entry,
    match strip_prefix (lit "cap=") entry with
    | Some name => if bool_decide (name = []) then None else Some name
    | None => None
    end) (attr_entries attr)).

(** ** References of a block *)

(** The part of [char::is_alphanumeric] that lies beyond ASCII, from the Unicode
    tables of the standard library. *)
Class UnicodeTables : Type := { non_ascii_alphanumeric : Z → bool }.

Definition SHELL_BACKENDS : list str := lit <$> ["bash"; "shell"; "sh"]%string.
Definition SHELL_RECEIVES_REFERENCED_LETS : bool := false.
Definition REFLECTION_FULL_SCOPE_FALLBACK : bool := false.

Definition REFLECTIVE_TOKENS : list str := lit <$>
  ["globals"; "locals"; "vars"; "eval"; "exec"; "compile"; "__dict__"; "__builtins__"; "__import__";
   "importlib"; "inspect"; "currentframe"; "_getframe"; "f_locals"; "f_globals"; "f_back";
   "tb_frame"; "gi_frame"; "getattr"; "__getattribute__"; "modules"; "environ"; "globalThis";
   "Function"; "process"; "require"; "__filename"; "__dirname"; "readFileSync"]%string.

Definition REFLECTIVE_ACCESSORS : list (str * str) :=
  [(lit "O", lit ".["); (lit "this", lit "["); (lit "import", lit "(")].

Abbreviation scope :=
  (@gmap (list Z) (@list_eq_dec Z numbers.Z.eq_dec) (@list_countable Z numbers.Z.eq_dec Z_countable) PlanNodeId).

Record References : Type := { tokens : names_set; o_scope : bool }.

Definition no_references : References := {| tokens := ∅; o_scope := false |}.

Definition add_token (t : str) (r : References) : References :=
  {| tokens := {[t]} ∪ tokens r; o_scope := o_scope r |}.

Definition set_o_scope (b : bool) (r : References) : References :=
  {| tokens := tokens r; o_scope := o_scope r || b |}.

Section References.
Context `{UT : !UnicodeTables}.

Definition is_identifier_char (c : Z) : bool :=
  if c <? 128 then is_ascii_alphanumeric c || (c =? 95) else non_ascii_alphanumeric c.

(** Longest prefix of characters that satisfy a test, and the rest. *)
Fixpoint span_chars (p : Z → bool) (cs : list (Z * str)) : list (Z * str) * list (Z * str) :=
  match cs with
  | [] => ([], [])
  | c :: cs' => if p c.1 then let '(a, b) := span_chars p cs' in (c :: a, b) else ([], cs)
  end.

Fixpoint scan_exec_loop (fuel : nat) (rest : list (Z * str)) (previous : option str)
    (refs : References) (dynamic : bool) : References * bool :=
  match fuel with
  | O => (refs, dynamic)
  | S fuel =>
      let '(gap, after_start) := span_chars (λ c, negb (is_identifier_char c)) rest in
      match after_start with
      | [] => (refs, dynamic)
      | _ =>
          let '(token_chars, next_rest) := span_chars is_identifier_char after_start in
          let token := unchars token_chars in
          let next := fst <$> head (drop_ws next_rest) in
          let dynamic := dynamic || bool_decide (token ∈ REFLECTIVE_TOKENS) ||
            existsb (λ acc, bool_decide (acc.1 = token) &&
              match next with Some c => bool_decide (c ∈ acc.2) | None => false end)
              REFLECTIVE_ACCESSORS in
          let refs :=
            if bool_decide (token = lit "scope") && bool_decide (previous = Some (lit "O"))
               && bool_decide (fst <$> head (drop_ws (reverse gap)) = Some 46)
            then set_o_scope true refs else refs in
          let previous := if bool_decide (next = Some 46) then Some token else None in
          scan_exec_loop fuel next_rest previous (add_token token refs) dynamic
      end
  end.

Definition scan_exec_text (text : str) (refs : References) : References * bool :=
  let cs := chars text in scan_exec_loop (length cs) cs None refs false.

Fixpoint collect_node (node : OIr) (refs : References) : References * bool :=
  let collect := fix collect (ns : list OIr) (refs : References) : References * bool :=
    match ns with
    | [] => (refs, false)
    | n :: ns =>
        let '(refs, d) := collect_node n refs in
        let '(refs, d') := collect ns refs in
        (refs, d || d')
    end in
  match node with
  | Text text => scan_exec_text text refs
  | Load name => (add_token name refs, false)
  | Store name expr => collect_node expr (add_token name refs)
  | Invoke fn_name _ args =>
      let refs := if bool_decide (fn_name = lit "scope") then set_o_scope true refs else refs in
      let '(refs, d) := collect args refs in
      (refs, bool_decide (fn_name = lit "eval" ∨ fn_name = lit "quote") || d)
  | NativeLeaf _ _ _ _ args => collect args refs
  | Exec _ _ _ backend body =>
      let '(refs, d) := collect body refs in
      (refs, bool_decide (canonical backend = lit "quote") || d)
  end.

Fixpoint collect_exec_references (ns : list OIr) (refs : References) : References * bool :=
  match ns with
  | [] => (refs, false)
  | n :: ns =>
      let '(refs, d) := collect_node n refs in
      let '(refs, d') := collect_exec_references ns refs in
      (refs, d || d')
  end.
End References.

(** ** Bindings a block receives *)

Definition sort_ids (ids : list PlanNodeId) : list PlanNodeId := merge_sort (≤)%nat ids.

(** The bindings of a scope stack, innermost scope first, each name at its first
    occurrence only, that satisfy a test on the name. *)
Definition scope_step (keep : str → bool) (acc : names_set * list PlanNodeId) (entry : list Z * PlanNodeId) :
    names_set * list PlanNodeId :=
  let '(seen, sources) := acc in
  let '(name, source) := entry in
  if bool_decide (name ∈ seen) then (seen, sources)
  else ({[name]} ∪ seen, if keep name then sources ++ [source] else sources).

Definition scope_sources (keep : str → bool) (stack : list scope) : list PlanNodeId :=
  snd (foldl (scope_step keep) ((∅ : names_set), []) (concat (map_to_list <$> stack))).

Definition visible_scope_sources (stack : list scope) : list PlanNodeId :=
  sort_ids (scope_sources (λ _, true) stack).

(** Innermost binding of every visible name ([entry(name).or_insert(source)]). *)
Definition visible_bindings (stack : list scope) : scope :=
  foldl (λ acc sc, acc ∪ sc) ∅ stack.

Definition expand_step (quote_references : gmap PlanNodeId References)
    (acc : gset PlanNodeId * References) (source : PlanNodeId) : gset PlanNodeId * References :=
  let '(expanded, refs) := acc in
  ({[source]} ∪ expanded,
   match quote_references !! source with
   | Some q => {| tokens := tokens refs ∪ tokens q; o_scope := o_scope refs || o_scope q |}
   | None => refs
   end).

(** The loop that adds the references of quoted bodies: every round expands the
    referenced bindings not expanded before. *)
Fixpoint expand_quotes (fuel : nat) (visible : scope) (quote_references : gmap PlanNodeId References)
    (expanded : gset PlanNodeId) (refs : References) : References :=
  match fuel with
  | O => refs
  | S fuel =>
      let pending := snd <$> filter (λ p : str * PlanNodeId, p.1 ∈ tokens refs ∧ p.2 ∉ expanded)
                               (map_to_list visible) in
      match pending with
      | [] => refs
      | _ =>
          let '(expanded, refs) := foldl (expand_step quote_references) (expanded, refs) pending in
          expand_quotes fuel visible quote_references expanded refs
      end
  end.

Section ScopeSources.
Context `{UT : !UnicodeTables}.

Definition shim_scope_sources (stack : list scope) (backend : BackendInterface) (body : list OIr)
    (quote_references : gmap PlanNodeId References) : list PlanNodeId :=
  let shell := bool_decide (canonical backend ∈ SHELL_BACKENDS) in
  if shell && negb SHELL_RECEIVES_REFERENCED_LETS then
    if negb (bool_decide (canonical backend = lit "bash")) then []
    else
      let names := bash_braced_references body ∪ bash_arithmetic_references body
                   ∪ bash_special_splices body in
      sort_ids (scope_sources (λ n, bool_decide (n ∈ names)) stack)
  else
    let '(refs, reflective) := collect_exec_references body no_references in
    let visible := visible_bindings stack in
    let refs := expand_quotes (size visible) visible quote_references ∅ refs in
    if o_scope refs || (REFLECTION_FULL_SCOPE_FALLBACK && reflective && negb shell)
    then visible_scope_sources stack
    else sort_ids (scope_sources (λ n, bool_decide (n ∈ tokens refs)) stack).
End ScopeSources.

(** Innermost binding of one name ([iter().rev().find_map(|scope| scope.get(name))]). *)
Fixpoint lookup_scope (name : str) (stack : list scope) : option PlanNodeId :=
  match stack with
  | [] => None
  | sc :: stack => match sc !! name with Some s => Some s | None => lookup_scope name stack end
  end.

(** ** Building a plan *)

Record PlanBuilder : Type := {
  b_nodes : list PlanNode;
  b_edges : list PlanEdge;
  edge_membership : gset (PlanNodeId * PlanNodeId * PlanEdgeKind);
  quote_references : gmap PlanNodeId References;
}.

Definition new_builder : PlanBuilder :=
  {| b_nodes := []; b_edges := []; edge_membership := ∅; quote_references := ∅ |}.

Definition finish (b : PlanBuilder) (rs : list PlanNodeId) : ExecutionPlan :=
  {| roots := rs; plan_nodes := b_nodes b; edges := b_edges b |}.

Definition add_edge (from to : PlanNodeId) (kind : PlanEdgeKind) (b : PlanBuilder) : PlanBuilder :=
  if bool_decide ((from, to, kind) ∈ edge_membership b) then b
  else {| b_nodes := b_nodes b;
          b_edges := b_edges b ++ [{| edge_from := from; edge_to := to; edge_kind := kind |}];
          edge_membership := {[(from, to, kind)]} ∪ edge_membership b;
          quote_references := quote_references b |}.

Definition push_node (n : PlanNode) (b : PlanBuilder) : PlanBuilder :=
  {| b_nodes := b_nodes b ++ [n]; b_edges := b_edges b;
     edge_membership := edge_membership b; quote_references := quote_references b |}.

Definition record_quote (id : PlanNodeId) (refs : References) (b : PlanBuilder) : PlanBuilder :=
  {| b_nodes := b_nodes b; b_edges := b_edges b; edge_membership := edge_membership b;
     quote_references := <[id := refs]> (quote_references b) |}.

Definition add_data_edges (sources : list PlanNodeId) (id : PlanNodeId) (b : PlanBuilder) : PlanBuilder :=
  foldl (λ b source, add_edge source id Data b) b sources.

(** [scope_stack.last_mut().expect(..).insert(name, id)]. *)
Definition bind_name (name : str) (id : PlanNodeId) (stack : list scope) : list scope :=
  match stack with
  | [] => []
  | sc :: rest => <[name := id]> sc :: rest
  end.

Section Planner.
Context `{DG : !Digests, UT : !UnicodeTables}.

Definition plan_kind (node : OIr) : PlanNodeKind :=
  match node with
  | Text _ => PText
  | Load name => PLoad name
  | Store name _ => PStore name
  | Invoke fn_name mode args =>
      match mode with
      | Group mode => PGroup mode (length args)
      | Lazy => PSchedule fn_name SLazy (length args)
      | Autonomous => PSchedule fn_name SAutonomous (length args)
      | Eager =>
          if bool_decide (fn_name = lit "instantiate") then PRequest fn_name Instantiate (length args)
          else if bool_decide (fn_name = lit "realise") then PRequest fn_name Realise (length args)
          else if bool_decide (fn_name = lit "dry_activate") then PRequest fn_name DryActivate (length args)
          else if bool_decide (fn_name = lit "activate") then PRequest fn_name Activate (length args)
          else if bool_decide (fn_name = lit "now") then PSchedule fn_name SForce (length args)
          else PCall fn_name mode (length args)
      end
  | NativeLeaf _ _ _ _ args => PNativeI64 (native_leaf_source_descriptor node) (Nat.pred (length args))
  | Exec lang env_id attr backend _ => PExec lang env_id attr backend
  end.

(** The node itself and its edges to its parent and to its left sibling. *)
Definition enter_node (node : OIr) (parent previous_sibling : option PlanNodeId) (b : PlanBuilder) :
    PlanBuilder :=
  let id := length (b_nodes b) in
  let b := push_node {| node_id := id; node_kind := plan_kind node |} b in
  let b := match parent with Some p => add_edge id p Structural b | None => b end in
  match previous_sibling with Some s => add_edge s id Sequence b | None => b end.

Definition is_quote_interface (backend : BackendInterface) : bool :=
  bool_decide (execution backend = InlineAst) && bool_decide (canonical backend = lit "quote").

(** The reads of a node itself, and the references of a quoted body it binds. *)
Definition node_reads (node : OIr) (id : PlanNodeId) (stack : list scope) (b : PlanBuilder) : PlanBuilder :=
  match node with
  | Text _ | NativeLeaf _ _ _ _ _ => b
  | Load name =>
      match lookup_scope name stack with Some source => add_edge source id Data b | None => b end
  | Store _ (Exec _ _ _ backend body) =>
      if is_quote_interface backend
      then record_quote id (fst (collect_exec_references body no_references)) b else b
  | Store _ _ => b
  | Invoke fn_name _ _ =>
      if bool_decide (fn_name = lit "scope")
      then add_data_edges (sort_ids (scope_sources (λ _, true) stack)) id b else b
  | Exec _ _ attr backend body =>
      let b := if bool_decide (execution backend = Shim)
               then add_data_edges (shim_scope_sources stack backend body (quote_references b)) id b
               else b in
      match attr_capability_binding attr with
      | None => b
      | Some binding =>
          match lookup_scope binding stack with
          | Some source => add_edge source id Data b
          | None => b
          end
      end
  end.

Fixpoint add_node (node : OIr) (b : PlanBuilder) (stack : list scope)
    (parent previous_sibling : option PlanNodeId) : PlanBuilder * list scope * PlanNodeId :=
  let id := length (b_nodes b) in
  let add_children := fix add_children (ns : list OIr) (b : PlanBuilder) (stack : list scope)
      (prev : option PlanNodeId) : PlanBuilder * list scope :=
    match ns with
    | [] => (b, stack)
    | n :: ns =>
        let '(b, stack, child) := add_node n b stack (Some id) prev in
        add_children ns b stack (Some child)
    end in
  let b := node_reads node id stack (enter_node node parent previous_sibling b) in
  match node with
  | Text _ | Load _ => (b, stack, id)
  | Store name expr =>
      let '(b, stack, _) := add_node expr b (∅ :: stack) (Some id) None in
      (b, bind_name name id (tail stack), id)
  | Invoke _ _ args | NativeLeaf _ _ _ _ args =>
      let '(b, stack) := add_children args b (∅ :: stack) None in
      (b, tail stack, id)
  | Exec _ _ _ backend body =>
      if is_quote_interface backend then (b, stack, id)
      else
        let '(b, stack) := add_children body b (∅ :: stack) None in
        (b, tail stack, id)
  end.

Fixpoint add_roots (ns : list OIr) (b : PlanBuilder) (stack : list scope)
    (previous_sibling : option PlanNodeId) : PlanBuilder * list PlanNodeId :=
  match ns with
  | [] => (b, [])
  | n :: ns =>
      let '(b, stack, id) := add_node n b stack None previous_sibling in
      let '(b, rs) := add_roots ns b stack (Some id) in
      (b, id :: rs)
  end.

Definition plan (p : OIrProgram) : ExecutionPlan :=
  let '(b, rs) := add_roots (nodes p) new_builder [∅] None in
  finish b rs.
End Planner.

(** ** Validation and schedules

    Errors carry the numbers of the message they render; an index out of range of
    a vector and the underflow of a counter are panics. *)

Inductive PlanError : Type :=
| RootCountMismatch (got expected : nat)
| NodeIdentityMismatch (index got : nat)
| RootOutOfBounds (root : nat)
| RootDuplicated (root : nat)
| EdgeOutOfBounds (from to : nat)
| CyclicGraph
| UnscheduledRoot
| ParentOutOfBounds (parent : nat).

Abbreviation presult A := (outcome PlanError A).

Definition obind {A B} (r : presult A) (k : A → presult B) : presult B :=
  match r with
  | Ok a => k a
  | Err e => Err e
  | Panic => Panic
  | NoFuel => NoFuel
  end.

(** A [BTreeSet<usize>]: the strictly increasing list of its elements. *)
Fixpoint btree_insert (x : nat) (l : list nat) : list nat :=
  match l with
  | [] => [x]
  | y :: l' => if decide (x < y)%nat then x :: l else if decide (x = y) then l else y :: btree_insert x l'
  end.

(** The first loop: in-degrees and successor lists. *)
Fixpoint count_edges (es : list PlanEdge) (indegree : list nat) (successors : list (list nat)) :
    presult (list nat * list (list nat)) :=
  match es with
  | [] => Ok (indegree, successors)
  | e :: es =>
      match indegree !! edge_to e, successors !! edge_from e with
      | Some d, Some ss =>
          count_edges es (<[edge_to e := S d]> indegree) (<[edge_from e := ss ++ [edge_to e]]> successors)
      | _, _ => Panic
      end
  end.

(** One pass over the successors of a scheduled node. *)
Fixpoint relax (succs : list nat) (indegree ready : list nat) : presult (list nat * list nat) :=
  match succs with
  | [] => Ok (indegree, ready)
  | s :: succs =>
      match indegree !! s with
      | Some (S d) =>
          let indegree := <[s := d]> indegree in
          relax succs indegree (if bool_decide (d = 0%nat) then btree_insert s ready else ready)
      | _ => Panic
      end
  end.

Fixpoint kahn (fuel : nat) (successors : list (list nat)) (indegree ready order : list nat) :
    presult (list nat) :=
  match ready with
  | [] => Ok order
  | id :: ready =>
      match fuel with
      | O => NoFuel
      | S fuel =>
          match successors !! id with
          | None => Panic
          | Some succs =>
              obind (relax succs indegree ready) (λ '(indegree, ready),
                kahn fuel successors indegree ready (order ++ [id]))
          end
      end
  end.

Definition zero_degrees (indegree : list nat) : list nat :=
  fst <$> filter (λ p : nat * nat, p.2 = 0%nat) (imap pair indegree).

Definition topological_order (p : ExecutionPlan) : presult (list PlanNodeId) :=
  let n := length (plan_nodes p) in
  obind (count_edges (edges p) (replicate n 0%nat) (replicate n [])) (λ '(indegree, successors),
  obind (kahn n successors indegree (zero_degrees indegree) []) (λ order,
  if bool_decide (length order = n) then Ok order else Err CyclicGraph)).

(** Position of a root; a repeated root keeps its last position ([HashMap::collect]). *)
Definition root_positions (rs : list PlanNodeId) : gmap PlanNodeId nat :=
  foldl (λ m ir, <[ir.2 := ir.1]> m) ∅ (imap pair rs).

Definition root_schedule (p : ExecutionPlan) : presult (list nat) :=
  let positions := root_positions (roots p) in
  obind (topological_order p) (λ order,
  let schedule := omap (λ id, positions !! id) order in
  if bool_decide (length schedule = length (roots p)) then Ok schedule else Err UnscheduledRoot).

Definition child_schedule (p : ExecutionPlan) (parent : PlanNodeId) : presult (list PlanNodeId) :=
  if bool_decide (length (plan_nodes p) ≤ parent)%nat then Err (ParentOutOfBounds parent)
  else
    let children := foldr btree_insert []
      (edge_from <$> filter (λ e, edge_kind e = Structural ∧ edge_to e = parent) (edges p)) in
    obind (topological_order p) (λ order, Ok (filter (λ id, id ∈ children) order)).

Fixpoint check_identity (index : nat) (ns : list PlanNode) : presult unit :=
  match ns with
  | [] => Ok tt
  | n :: ns => if bool_decide (node_id n = index) then check_identity (S index) ns
               else Err (NodeIdentityMismatch index (node_id n))
  end.

Fixpoint check_roots (n : nat) (seen : list nat) (rs : list PlanNodeId) : presult unit :=
  match rs with
  | [] => Ok tt
  | r :: rs =>
      if bool_decide (n ≤ r)%nat then Err (RootOutOfBounds r)
      else if bool_decide (r ∈ seen) then Err (RootDuplicated r)
      else check_roots n (btree_insert r seen) rs
  end.

Fixpoint check_edges (n : nat) (es : list PlanEdge) : presult unit :=
  match es with
  | [] => Ok tt
  | e :: es =>
      if bool_decide (n ≤ edge_from e ∨ n ≤ edge_to e)%nat
      then Err (EdgeOutOfBounds (edge_from e) (edge_to e)) else check_edges n es
  end.

Definition validate (p : ExecutionPlan) (root_count : nat) : presult unit :=
  let n := length (plan_nodes p) in
  if negb (bool_decide (length (roots p) = root_count))
  then Err (RootCountMismatch (length (roots p)) root_count)
  else
    obind (check_identity 0 (plan_nodes p)) (λ _,
    obind (check_roots n [] (roots p)) (λ _,
    obind (check_edges n (edges p)) (λ _,
    obind (topological_order p) (λ _,
    obind (root_schedule p) (λ _, Ok tt))))).

(** ** The per-pass index *)

Record ExecutionPlanIndex : Type := {
  idx_incoming : list (list PlanEdge);
  idx_outgoing : list (list PlanEdge);
  idx_order : list PlanNodeId;
  idx_children : list (list PlanNodeId);
}.

(** [v[i].push(x)]. *)
Definition push_at {A} (i : nat) (x : A) (v : list (list A)) : presult (list (list A)) :=
  match v !! i with
  | Some l => Ok (<[i := l ++ [x]]> v)
  | None => Panic
  end.

Fixpoint index_edges (es : list PlanEdge) (incoming outgoing : list (list PlanEdge)) :
    presult (list (list PlanEdge) * list (list PlanEdge)) :=
  match es with
  | [] => Ok (incoming, outgoing)
  | e :: es =>
      obind (push_at (edge_to e) e incoming) (λ incoming,
      obind (push_at (edge_from e) e outgoing) (λ outgoing,
      index_edges es incoming outgoing))
  end.

(** The inner loop over the outgoing edges of one child. *)
Fixpoint index_child (child : PlanNodeId) (es : list PlanEdge) (children : list (list PlanNodeId)) :
    presult (list (list PlanNodeId)) :=
  match es with
  | [] => Ok children
  | e :: es =>
      if bool_decide (edge_kind e = Structural) then
        match children !! edge_to e with
        | None => Panic
        | Some l =>
            if bool_decide (last l = Some child) then index_child child es children
            else index_child child es (<[edge_to e := l ++ [child]]> children)
        end
      else index_child child es children
  end.

Fixpoint index_children (order : list PlanNodeId) (outgoing : list (list PlanEdge))
    (children : list (list PlanNodeId)) : presult (list (list PlanNodeId)) :=
  match order with
  | [] => Ok children
  | child :: order =>
      match outgoing !! child with
      | None => Panic
      | Some es => obind (index_child child es children) (index_children order outgoing)
      end
  end.

Definition index_new (p : ExecutionPlan) : presult ExecutionPlanIndex :=
  let n := length (plan_nodes p) in
  obind (validate p (length (roots p))) (λ _,
  obind (topological_order p) (λ order,
  obind (index_edges (edges p) (replicate n []) (replicate n [])) (λ '(incoming, outgoing),
  obind (index_children order outgoing (replicate n [])) (λ children,
  Ok {| idx_incoming := incoming; idx_outgoing := outgoing; idx_order := order;
        idx_children := children |})))).

Definition index_incoming (x : ExecutionPlanIndex) (node : PlanNodeId) : presult (list PlanEdge) :=
  match idx_incoming x !! node with Some l => Ok l | None => Panic end.

Definition index_outgoing (x : ExecutionPlanIndex) (node : PlanNodeId) : presult (list PlanEdge) :=
  match idx_outgoing x !! node with Some l => Ok l | None => Panic end.

Definition index_child_schedule (x : ExecutionPlanIndex) (parent : PlanNodeId) : presult (list PlanNodeId) :=
  match idx_children x !! parent with
  | Some l => Ok l
  | None => Err (ParentOutOfBounds parent)
  end.
