(* ===== verification/Effects.v ===== *)
(** * Effect summaries

    [crates/ostadix-api/src/effects.rs]: the resources an operation reads and
    writes, the aliases between them, the predicate that says which operations
    may not overlap, the declarations a block may add in its attribute, and the
    summary derived for each plan node.  The validation of a native-leaf
    descriptor ([native_leaf::validate_descriptor]) is a parameter. *)

From S2P Require Import Prelude.
From S2P Require Import Utf8.
From S2P Require Import Environment.
From S2P Require Import Identity.
From S2P Require Import BackendCatalog.
From S2P Require Import ExecutionPlan.
From stdpp Require Import options.

(** ** Resources *)

Record ActorResourceId : Type := { canonical_language : str; environment : Z }.

Definition display_actor (a : ActorResourceId) : str :=
  canonical_language a ++ lit "[" ++ dec (environment a) ++ lit "]".

Inductive ResourceKey : Type :=
| HostWorld
| ConcurrentProjectBranch (branch : Z)
| ProjectBranchPath (branch : Z) (path : str)
| WorldState (world : WorldIdentity)
| GovernorState (governor : GovernorIdentity)
| NodeState (node : NodeIdentity)
| DomainState (domain : DomainIdentity)
| ProcessState (process : ProcessIdentity)
| GovernedResource (resource : ResourceIdentity)
| ObjectState (object : ObjectIdentity)
| CapabilityState (capability : CapabilityIdentity)
| NamespaceState (world : WorldIdentity)
| TaskState (task : AttemptIdentity)
| ArtifactState (artifact : ArtifactPublicationIdentity)
| DeviceState (device : ResourceIdentity)
| AcceleratorState (accelerator : ResourceIdentity)
| EvaluatorState
| ScopeBinding (name : str)
| ProjectPath (path : str)
| HostPath (path : str)
| EnvVar (name : str)
| Stdio
| Network (endpoint : str)
| NetworkUnknown
| Service (name : str)
| ActorState (actor : ActorResourceId).

#[export] Instance ActorResourceId_eq_dec : EqDecision ActorResourceId.
Proof. solve_decision. Defined.
#[export] Instance ActorResourceId_countable : Countable ActorResourceId.
Proof.
  by apply (inj_countable' (λ a, (canonical_language a, environment a))
    (λ '(l, e), {| canonical_language := l; environment := e |})); intros [].
Defined.
#[export] Instance ResourceKey_eq_dec : EqDecision ResourceKey.
Proof. solve_decision. Defined.

(** A key as its constructor's position and the code of its argument. *)
Definition key_code (k : ResourceKey) : nat * positive :=
  match k with
  | HostWorld => (0, encode ())
  | ConcurrentProjectBranch b => (1, encode b)
  | ProjectBranchPath b p => (2, encode (b, p))
  | WorldState w => (3, encode w)
  | GovernorState g => (4, encode g)
  | NodeState n => (5, encode n)
  | DomainState d => (6, encode d)
  | ProcessState p => (7, encode p)
  | GovernedResource r => (8, encode r)
  | ObjectState o => (9, encode o)
  | CapabilityState c => (10, encode c)
  | NamespaceState w => (11, encode w)
  | TaskState t => (12, encode t)
  | ArtifactState a => (13, encode a)
  | DeviceState d => (14, encode d)
  | AcceleratorState a => (15, encode a)
  | EvaluatorState => (16, encode ())
  | ScopeBinding n => (17, encode n)
  | ProjectPath p => (18, encode p)
  | HostPath p => (19, encode p)
  | EnvVar n => (20, encode n)
  | Stdio => (21, encode ())
  | Network e => (22, encode e)
  | NetworkUnknown => (23, encode ())
  | Service n => (24, encode n)
  | ActorState a => (25, encode a)
  end%nat.

Definition key_decode (c : nat * positive) : option ResourceKey :=
  let p := c.2 in
  match c.1 with
  | 0 => Some HostWorld
  | 1 => ConcurrentProjectBranch <$> decode p
  | 2 => (λ '(b, path), ProjectBranchPath b path) <$> decode p
  | 3 => WorldState <$> decode p
  | 4 => GovernorState <$> decode p
  | 5 => NodeState <$> decode p
  | 6 => DomainState <$> decode p
  | 7 => ProcessState <$> decode p
  | 8 => GovernedResource <$> decode p
  | 9 => ObjectState <$> decode p
  | 10 => CapabilityState <$> decode p
  | 11 => NamespaceState <$> decode p
  | 12 => TaskState <$> decode p
  | 13 => ArtifactState <$> decode p
  | 14 => DeviceState <$> decode p
  | 15 => AcceleratorState <$> decode p
  | 16 => Some EvaluatorState
  | 17 => ScopeBinding <$> decode p
  | 18 => ProjectPath <$> decode p
  | 19 => HostPath <$> decode p
  | 20 => EnvVar <$> decode p
  | 21 => Some Stdio
  | 22 => Network <$> decode p
  | 23 => Some NetworkUnknown
  | 24 => Service <$> decode p
  | 25 => ActorState <$> decode p
  | _ => None
  end%nat.

#[export] Instance ResourceKey_countable : Countable ResourceKey.
Proof.
  apply (inj_countable key_code key_decode).
  intros []; unfold key_decode, key_code; cbn [fst snd]; rewrite ?decode_encode; reflexivity.
Defined.

Inductive GovernedResourceKind : Type :=
| KWorld | KGovernor | KNode | KDomain | KProcess | KResource | KObject | KCapability | KNamespace | KTask
| KArtifact | KDevice | KAccelerator.

Definition is_host_resource (k : ResourceKey) : bool :=
  match k with
  | HostWorld | ConcurrentProjectBranch _ | ProjectPath _ | HostPath _ | EnvVar _ | Stdio | Network _
  | NetworkUnknown | Service _ => true
  | _ => false
  end.

Definition governed_kind (k : ResourceKey) : option GovernedResourceKind :=
  match k with
  | WorldState _ => Some KWorld
  | GovernorState _ => Some KGovernor
  | NodeState _ => Some KNode
  | DomainState _ => Some KDomain
  | ProcessState _ => Some KProcess
  | GovernedResource _ => Some KResource
  | ObjectState _ => Some KObject
  | CapabilityState _ => Some KCapability
  | NamespaceState _ => Some KNamespace
  | TaskState _ => Some KTask
  | ArtifactState _ => Some KArtifact
  | DeviceState _ => Some KDevice
  | AcceleratorState _ => Some KAccelerator
  | _ => None
  end.

Definition is_governed_resource (k : ResourceKey) : bool := bool_decide (is_Some (governed_kind k)).

(** [Display for ResourceKey]. *)
Definition display_key (k : ResourceKey) : str :=
  match k with
  | HostWorld => lit "HostWorld"
  | ConcurrentProjectBranch b => lit "concurrent-project-branch:" ++ dec b ++ lit ":ambient-unordered"
  | ProjectBranchPath b path => lit "project-branch:" ++ dec b ++ lit ":" ++ path
  | WorldState w => lit "world-state:" ++ display_world w
  | GovernorState g => lit "governor-state:" ++ display_governor g
  | NodeState n => lit "node-state:" ++ display_node n
  | DomainState d => lit "domain-state:" ++ display_domain d
  | ProcessState p => lit "process-state:" ++ display_process p
  | GovernedResource r => lit "governed-resource:" ++ display_resource r
  | ObjectState o => lit "object-state:" ++ display_object o
  | CapabilityState c => lit "capability-state:" ++ display_capability c
  | NamespaceState w => lit "namespace-state:" ++ display_world w
  | TaskState t => lit "task-state:" ++ display_attempt t
  | ArtifactState a => lit "artifact-state:" ++ display_publication a
  | DeviceState d => lit "device-state:" ++ display_resource d
  | AcceleratorState a => lit "accelerator-state:" ++ display_resource a
  | EvaluatorState => lit "EvaluatorState"
  | ScopeBinding n => lit "scope:" ++ n
  | ProjectPath p => lit "project:" ++ p
  | HostPath p => lit "host:" ++ p
  | EnvVar n => lit "env:" ++ n
  | Stdio => lit "stdio"
  | Network e => lit "network:" ++ e
  | NetworkUnknown => lit "network:*"
  | Service n => lit "service:" ++ n
  | ActorState a => lit "actor:" ++ display_actor a
  end.

(** ** Summaries *)

Inductive EffectConfidence : Type := Verified | Conservative | UserDeclared.
Inductive Fallibility : Type := Infallible | MayFail.
Inductive EffectTrustPolicy : Type := Strict.

#[export] Instance EffectConfidence_eq_dec : EqDecision EffectConfidence.
Proof. solve_decision. Defined.
#[export] Instance Fallibility_eq_dec : EqDecision Fallibility.
Proof. solve_decision. Defined.

Record EffectSummary : Type := {
  deterministic : bool;
  fallibility : Fallibility;
  reads : gset ResourceKey;
  writes : gset ResourceKey;
  actor_state : option ActorResourceId;
  unknown : bool;
  network : bool;
  spawn : bool;
  clock : bool;
  confidence : EffectConfidence;
}.

#[export] Instance EffectSummary_eq_dec : EqDecision EffectSummary.
Proof. solve_decision. Defined.

Definition set_accesses (s : EffectSummary) (rs ws : gset ResourceKey) : EffectSummary :=
  {| deterministic := deterministic s; fallibility := fallibility s; reads := rs; writes := ws;
     actor_state := actor_state s; unknown := unknown s; network := network s; spawn := spawn s;
     clock := clock s; confidence := confidence s |}.

(** [EffectSummary::pure]. *)
Definition summary_pure : EffectSummary :=
  {| deterministic := true; fallibility := Infallible; reads := ∅; writes := ∅; actor_state := None;
     unknown := false; network := false; spawn := false; clock := false; confidence := Verified |}.

(** [EffectSummary::unknown]. *)
Definition summary_unknown : EffectSummary :=
  {| deterministic := false; fallibility := MayFail; reads := {[ HostWorld ]}; writes := {[ HostWorld ]};
     actor_state := None; unknown := true; network := false; spawn := false; clock := false;
     confidence := Conservative |}.

Definition conservative_evaluator : EffectSummary :=
  set_accesses summary_unknown ({[ EvaluatorState ]} ∪ reads summary_unknown)
    ({[ EvaluatorState ]} ∪ writes summary_unknown).

Definition with_actor_state (s : EffectSummary) (actor : ActorResourceId) : EffectSummary :=
  let '(rs, ws) :=
    match actor_state s with
    | Some previous => (reads s ∖ {[ ActorState previous ]}, writes s ∖ {[ ActorState previous ]})
    | None => (reads s, writes s)
    end in
  {| deterministic := deterministic s; fallibility := fallibility s;
     reads := {[ ActorState actor ]} ∪ rs; writes := {[ ActorState actor ]} ∪ ws;
     actor_state := Some actor; unknown := unknown s; network := network s; spawn := spawn s;
     clock := clock s; confidence := confidence s |}.

(** [resources.iter().any(...)]. *)
Definition any (p : ResourceKey → bool) (s : gset ResourceKey) : bool := existsb p (elements s).

Definition is_endpoint (k : ResourceKey) : bool := match k with Network _ => true | _ => false end.

Definition generic_alias (k : ResourceKey) : option ResourceKey :=
  match k with DeviceState r | AcceleratorState r => Some (GovernedResource r) | _ => None end.

Definition expand_resource_aliases (resources : gset ResourceKey) : gset ResourceKey :=
  let resources := if any is_endpoint resources then {[ NetworkUnknown ]} ∪ resources else resources in
  resources ∪ list_to_set (omap generic_alias (elements resources)).

Definition expanded_reads (s : EffectSummary) : gset ResourceKey := expand_resource_aliases (reads s).
Definition expanded_writes (s : EffectSummary) : gset ResourceKey := expand_resource_aliases (writes s).
Definition resource_union (s : EffectSummary) : gset ResourceKey := expanded_reads s ∪ expanded_writes s.

Definition is_precise_host (k : ResourceKey) : bool := is_host_resource k && negb (bool_decide (k = HostWorld)).

Definition scheduling_accesses (s : EffectSummary) : gset ResourceKey * gset ResourceKey :=
  let rs := expanded_reads s in
  let ws := expanded_writes s in
  let touches_ambient_host := bool_decide (HostWorld ∈ rs) || bool_decide (HostWorld ∈ ws) in
  let touches_precise_host := any is_precise_host rs || any is_precise_host ws in
  (if touches_precise_host then {[ HostWorld ]} ∪ rs else rs,
   if touches_ambient_host then {[ HostWorld ]} ∪ ws else ws).

Definition is_verified_pure_infallible (s : EffectSummary) : bool :=
  bool_decide (confidence s = Verified) && deterministic s && bool_decide (fallibility s = Infallible)
  && negb (unknown s) && bool_decide (actor_state s = None) && bool_decide (reads s = ∅)
  && bool_decide (writes s = ∅) && negb (network s) && negb (spawn s) && negb (clock s).

Definition is_network (k : ResourceKey) : bool := match k with Network _ | NetworkUnknown => true | _ => false end.

Definition touches_network (s : gset ResourceKey) : bool := any is_network s.

Definition resource_conflict (left right : gset ResourceKey) : bool :=
  any (λ k, bool_decide (k ∈ right)) left || (touches_network left && touches_network right).

Definition same_actor (s o : EffectSummary) : bool :=
  match actor_state s, actor_state o with
  | Some l, Some r => bool_decide (l = r)
  | _, _ => false
  end.

Definition conflicts_with (s o : EffectSummary) : bool :=
  if same_actor s o then true
  else
    let '(self_reads, self_writes) := scheduling_accesses s in
    let '(other_reads, other_writes) := scheduling_accesses o in
    resource_conflict self_writes other_writes || resource_conflict self_writes other_reads
    || resource_conflict other_writes self_reads.

(** ** Declarations *)

Inductive DeclaredPurity : Type := DeclaredPure | DeclaredUnknown.

#[export] Instance DeclaredPurity_eq_dec : EqDecision DeclaredPurity.
Proof. solve_decision. Defined.

Record EffectDeclaration : Type := {
  purity : option DeclaredPurity;
  decl_reads : gset ResourceKey;
  decl_writes : gset ResourceKey;
  serial_host : bool;
}.

(** One constructor per message, with the data it renders. *)
Inductive EffectError : Type :=
| EmptyAttribute
| DuplicateDeclaration (what : str)
| InvalidClassification (value : str)
| InvalidSerialDomain (value : str)
| CannotUpgradeToPure
| EmptyResourceList
| EmptyResource (text : str)
| InvalidResource (item : str)
| EmptyIdentity (item : str)
| GovernedKind (kind item : str)
| AbsoluteProjectPath (value : str)
| UnknownKind (kind item : str)
| EmptyLabel (label : str)
| InvalidLabel (label value : str)
| InvalidActor (value : str)
| EmptyActorLanguage
| InvalidActorEnvironment (value : str)
| ActorNotPersistent
| MissingDescriptor
| InvalidDescriptor
| InPlanNode (id : PlanNodeId) (error : EffectError).

Definition GOVERNED_SOURCE_KINDS : list str :=
  lit <$> ["world"; "world-state"; "governor"; "governor-state"; "node"; "node-state"; "domain"; "domain-state";
           "process"; "process-state"; "resource"; "resource-state"; "governed-resource"; "object"; "object-state";
           "capability"; "capability-state"; "namespace"; "namespace-state"; "task"; "task-state"; "artifact";
           "artifact-state"; "device"; "device-state"; "accelerator"; "accelerator-state"]%string.

Definition is_governed_source_resource_kind (kind : str) : bool := bool_decide (kind ∈ GOVERNED_SOURCE_KINDS).

Definition validate_identifier (value label : str) : EffectError + unit :=
  match value with
  | [] => inl (EmptyLabel label)
  | first :: rest =>
      if negb ((first =? 95) || is_ascii_alphabetic first)
         || negb (forallb (λ b, (b =? 95) || is_ascii_alphanumeric b) rest)
      then inl (InvalidLabel label value) else inr tt
  end.

(** [str::parse::<u32>]: an optional plus sign and digits. *)
Definition u32_from_str (s : str) : option Z :=
  let digits := match s with 43 :: (_ :: _) as r => r | _ => s end in
  if bool_decide (digits = []) || negb (forallb is_digit digits) then None
  else if dec_value digits <=? U32_MAX then Some (dec_value digits) else None.

Definition parse_actor_resource (value : str) : EffectError + ActorResourceId :=
  match strip_suffix (lit "]") value ≫= rsplit_once 91 with
  | None => inl (InvalidActor value)
  | Some (language, env) =>
      if bool_decide (language = []) then inl EmptyActorLanguage
      else match u32_from_str env with
           | None => inl (InvalidActorEnvironment env)
           | Some e =>
               if negb (is_persistent (from_encoded e)) then inl ActorNotPersistent
               else inr {| canonical_language := language; environment := e |}
           end
  end.

Definition parse_kind_value (item kind value : str) : EffectError + ResourceKey :=
  if bool_decide (kind = lit "project") then
    if starts_with value (lit "/") then inl (AbsoluteProjectPath value) else inr (ProjectPath value)
  else if bool_decide (kind = lit "host") then inr (HostPath value)
  else if bool_decide (kind = lit "env") then
    let! _ := validate_identifier value (lit "environment variable") in inr (EnvVar value)
  else if bool_decide (kind = lit "scope") then
    let! _ := validate_identifier value (lit "scope binding") in inr (ScopeBinding value)
  else if bool_decide (kind = lit "network") then inr (Network value)
  else if bool_decide (kind = lit "service") then inr (Service value)
  else if bool_decide (kind = lit "actor") then
    let! a := parse_actor_resource value in inr (ActorState a)
  else inl (UnknownKind kind item).

Definition parse_resource (item : str) : EffectError + ResourceKey :=
  if bool_decide (item = lit "stdio") then inr Stdio
  else if bool_decide (item = lit "network:*" ∨ item = lit "network") then inr NetworkUnknown
  else if bool_decide (item = lit "host:*" ∨ item = lit "hostworld") then inr HostWorld
  else if bool_decide (item = lit "evaluator") then inr EvaluatorState
  else match split_once 58 item with
       | None => inl (InvalidResource item)
       | Some (kind, value) =>
           if bool_decide (value = []) then inl (EmptyIdentity item)
           else if is_governed_source_resource_kind kind then inl (GovernedKind kind item)
           else parse_kind_value item kind value
       end.

Fixpoint parse_items (text : str) (items : list str) (acc : gset ResourceKey) : EffectError + gset ResourceKey :=
  match items with
  | [] => inr acc
  | item :: items =>
      if bool_decide (item = []) then inl (EmptyResource text)
      else let! k := parse_resource item in parse_items text items ({[ k ]} ∪ acc)
  end.

Definition parse_resources (text : str) : EffectError + gset ResourceKey :=
  if bool_decide (trim text = []) then inl EmptyResourceList
  else parse_items text (trim <$> split_where (λ b, (b =? 43) || (b =? 59)) text) ∅.

(** [EffectDeclaration::default]. *)
Definition empty_declaration : EffectDeclaration :=
  {| purity := None; decl_reads := ∅; decl_writes := ∅; serial_host := false |}.

Definition declaration_is_empty (d : EffectDeclaration) : bool :=
  bool_decide (purity d = None) && bool_decide (decl_reads d = ∅) && bool_decide (decl_writes d = ∅)
  && negb (serial_host d).

Definition recognizes_entry (entry : str) : bool :=
  existsb (starts_with entry) [lit "effects="; lit "reads="; lit "writes="; lit "serial="].

(** The local variables of [EffectDeclaration::parse]. *)
Record parse_state : Type := {
  declaration : EffectDeclaration;
  seen_effects : bool;
  seen_reads : bool;
  seen_writes : bool;
  seen_serial : bool;
}.

Definition parse_effects_entry (st : parse_state) (value : str) : EffectError + parse_state :=
  if seen_effects st then inl (DuplicateDeclaration (lit "effects="))
  else
    let! p :=
      (if bool_decide (value = lit "pure") then inr DeclaredPure
       else if bool_decide (value = lit "unknown") then inr DeclaredUnknown
       else inl (InvalidClassification value)) in
    let d := declaration st in
    inr {| declaration := {| purity := Some p; decl_reads := decl_reads d; decl_writes := decl_writes d;
                             serial_host := serial_host d |};
           seen_effects := true; seen_reads := seen_reads st; seen_writes := seen_writes st;
           seen_serial := seen_serial st |}.

Definition parse_reads_entry (st : parse_state) (value : str) : EffectError + parse_state :=
  if seen_reads st then inl (DuplicateDeclaration (lit "reads="))
  else
    let! rs := parse_resources value in
    let d := declaration st in
    inr {| declaration := {| purity := purity d; decl_reads := rs; decl_writes := decl_writes d;
                             serial_host := serial_host d |};
           seen_effects := seen_effects st; seen_reads := true; seen_writes := seen_writes st;
           seen_serial := seen_serial st |}.

Definition parse_writes_entry (st : parse_state) (value : str) : EffectError + parse_state :=
  if seen_writes st then inl (DuplicateDeclaration (lit "writes="))
  else
    let! ws := parse_resources value in
    let d := declaration st in
    inr {| declaration := {| purity := purity d; decl_reads := decl_reads d; decl_writes := ws;
                             serial_host := serial_host d |};
           seen_effects := seen_effects st; seen_reads := seen_reads st; seen_writes := true;
           seen_serial := seen_serial st |}.

Definition parse_serial_entry (st : parse_state) (value : str) : EffectError + parse_state :=
  if seen_serial st then inl (DuplicateDeclaration (lit "serial="))
  else if negb (bool_decide (value = lit "host")) then inl (InvalidSerialDomain value)
  else
    let d := declaration st in
    inr {| declaration := {| purity := purity d; decl_reads := decl_reads d; decl_writes := decl_writes d;
                             serial_host := true |};
           seen_effects := seen_effects st; seen_reads := seen_reads st; seen_writes := seen_writes st;
           seen_serial := true |}.

Definition parse_entry (st : parse_state) (entry : str) : EffectError + parse_state :=
  if bool_decide (entry = []) then inl EmptyAttribute
  else match strip_prefix (lit "effects=") entry with
  | Some value => parse_effects_entry st value
  | None =>
  match strip_prefix (lit "reads=") entry with
  | Some value => parse_reads_entry st value
  | None =>
  match strip_prefix (lit "writes=") entry with
  | Some value => parse_writes_entry st value
  | None =>
  match strip_prefix (lit "serial=") entry with
  | Some value => parse_serial_entry st value
  | None => inr st
  end end end end.

Fixpoint parse_entries (st : parse_state) (entries : list str) : EffectError + parse_state :=
  match entries with
  | [] => inr st
  | entry :: entries => let! st := parse_entry st entry in parse_entries st entries
  end.

(** [EffectDeclaration::parse]. *)
Definition parse_declaration (attr : option str) : EffectError + EffectDeclaration :=
  let! st := parse_entries {| declaration := empty_declaration; seen_effects := false; seen_reads := false;
                              seen_writes := false; seen_serial := false |} (attr_entries attr) in
  inr (declaration st).

(** [effects=unknown]: the operation is treated as unknown hosted work. *)
Definition degrade (s : EffectSummary) : EffectSummary :=
  {| deterministic := false; fallibility := MayFail; reads := {[ HostWorld ]} ∪ reads s;
     writes := {[ HostWorld ]} ∪ writes s; actor_state := actor_state s; unknown := true;
     network := network s; spawn := spawn s; clock := clock s; confidence := Conservative |}.

Definition set_confidence (s : EffectSummary) (c : EffectConfidence) : EffectSummary :=
  {| deterministic := deterministic s; fallibility := fallibility s; reads := reads s; writes := writes s;
     actor_state := actor_state s; unknown := unknown s; network := network s; spawn := spawn s;
     clock := clock s; confidence := c |}.

Definition add_host (s : EffectSummary) : EffectSummary :=
  set_accesses s ({[ HostWorld ]} ∪ reads s) ({[ HostWorld ]} ∪ writes s).

Definition has_declared_resources (d : EffectDeclaration) : bool :=
  negb (bool_decide (decl_reads d = ∅)) || negb (bool_decide (decl_writes d = ∅)) || serial_host d.

Definition has_declared_host_resources (d : EffectDeclaration) : bool :=
  serial_host d || any is_host_resource (decl_reads d) || any is_host_resource (decl_writes d).

Definition apply_checked (d : EffectDeclaration) (base : EffectSummary) (policy : EffectTrustPolicy) :
    EffectError + EffectSummary :=
  let base_was_verified_pure := is_verified_pure_infallible base in
  let! base :=
    match purity d with
    | Some DeclaredPure => if negb base_was_verified_pure then inl CannotUpgradeToPure else inr base
    | None => inr base
    | Some DeclaredUnknown => inr (degrade base)
    end in
  let base := set_accesses base (reads base ∪ decl_reads d) (writes base ∪ decl_writes d) in
  let base := if serial_host d then add_host base else base in
  let base := if base_was_verified_pure && has_declared_host_resources d then add_host base else base in
  inr (if base_was_verified_pure && has_declared_resources d && negb (bool_decide (purity d = Some DeclaredUnknown))
       then set_confidence base UserDeclared else base).

(** ** Plan nodes *)

Section PlanNodes.
Context (validate_descriptor : str → nat → bool).

Definition TRUSTED_INLINE : list str := [lit "html"; lit "markdown"; lit "text"; lit "latex"].

Definition has_deferred_control (attr : option str) : bool :=
  existsb (λ entry, bool_decide (entry = lit "lazy" ∨ entry = lit "defer")) (attr_entries attr).

Definition trusted_inline (attr : option str) (backend : BackendInterface) : bool :=
  pure backend && bool_decide (execution backend = InlineValue) && bool_decide (canonical backend ∈ TRUSTED_INLINE)
  && negb (has_deferred_control attr).

Definition in_plan_node {A} (id : PlanNodeId) (r : EffectError + A) : EffectError + A :=
  match r with inl e => inl (InPlanNode id e) | inr a => inr a end.

Definition fallible (s : EffectSummary) : EffectSummary :=
  {| deterministic := deterministic s; fallibility := MayFail; reads := reads s; writes := writes s;
     actor_state := actor_state s; unknown := unknown s; network := network s; spawn := spawn s;
     clock := clock s; confidence := confidence s |}.

(** What the catalog says of a block, before its declarations. *)
Definition exec_summary (env_id : Z) (attr : option str) (backend : BackendInterface) : EffectSummary :=
  let summary := if trusted_inline attr backend then summary_pure else conservative_evaluator in
  if bool_decide (execution backend = Shim) && is_persistent (from_encoded env_id)
  then with_actor_state summary {| canonical_language := canonical backend; environment := env_id |}
  else summary.

Definition effect_summary_for_plan_node (id : PlanNodeId) (kind : PlanNodeKind) : EffectError + EffectSummary :=
  match kind with
  | PText => inr summary_pure
  | PLoad name => inr (set_accesses (fallible summary_pure) {[ ScopeBinding name ]} ∅)
  | PStore name => inr (set_accesses summary_pure ∅ {[ ScopeBinding name ]})
  | PNativeI64 descriptor argument_count =>
      match descriptor with
      | None => inl MissingDescriptor
      | Some descriptor =>
          if validate_descriptor descriptor argument_count then inr (fallible summary_pure)
          else inl InvalidDescriptor
      end
  | PGroup _ _ => inr summary_pure
  | PCall _ _ _ | PRequest _ _ _ | PSchedule _ _ _ => inr conservative_evaluator
  | PExec _ env_id attr backend =>
      let! d := in_plan_node id (parse_declaration attr) in
      in_plan_node id (apply_checked d (exec_summary env_id attr backend) Strict)
  end.
End PlanNodes.

Example u32_from_str_cases :
  u32_from_str (lit "7") = Some 7 ∧ u32_from_str (lit "+07") = Some 7 ∧ u32_from_str (lit "+") = None ∧
  u32_from_str [] = None ∧ u32_from_str (lit "4294967296") = None ∧ u32_from_str (lit "++1") = None.
Proof. by vm_compute. Qed.
