(* ===== verification/EffectsTheorems.v ===== *)
(** * Properties of effect summaries

    What the conflict predicate decides, stated over storage cells instead of
    alias expansion; that operations without a conflict commute; that source
    declarations only constrain; which resources a declaration can name; and what
    the summaries of plan nodes guarantee. *)

From S2P Require Import Prelude.
From S2P Require Import Reorder.
From S2P Require Import Utf8.
From S2P Require Import Environment.
From S2P Require Import Identity.
From S2P Require Import BackendCatalog.
From S2P Require Import ExecutionPlan.
From S2P Require Import Effects.
From stdpp Require Import options.

(** ** Cells

    Keys that name the same state share a cell: every network endpoint is the
    one network, and a device or accelerator is the governed resource below it. *)

Definition cell (k : ResourceKey) : ResourceKey :=
  match k with
  | Network _ => NetworkUnknown
  | DeviceState r | AcceleratorState r => GovernedResource r
  | k => k
  end.

Definition accesses (s : EffectSummary) : gset ResourceKey := reads s ∪ writes s.

(** The operations access a common cell, and one of them writes it. *)
Definition share_written_cell (s o : EffectSummary) : Prop :=
  ∃ a b, cell a = cell b ∧ ((a ∈ writes s ∧ b ∈ accesses o) ∨ (a ∈ accesses s ∧ b ∈ writes o)).

Definition ambient (s : EffectSummary) : Prop := HostWorld ∈ accesses s.
Definition touches_host (s : EffectSummary) : Prop := ∃ k, k ∈ accesses s ∧ is_host_resource k = true.

(** ** The predicate *)

Lemma any_spec p s : any p s = true ↔ ∃ k, k ∈ s ∧ p k = true.
Proof.
  unfold any. rewrite existsb_exists.
  split; intros (k & H & Hp); exists k; (split; [|done]); [apply elem_of_elements|apply list_elem_of_In, elem_of_elements].
  - by apply list_elem_of_In.
  - done.
Qed.

Lemma elem_of_expand k s :
  k ∈ expand_resource_aliases s ↔
  k ∈ s ∨ (k = NetworkUnknown ∧ ∃ e, Network e ∈ s) ∨
  (∃ r, k = GovernedResource r ∧ (DeviceState r ∈ s ∨ AcceleratorState r ∈ s)).
Proof.
  unfold expand_resource_aliases.
  assert (Hn : any is_endpoint s = true ↔ ∃ e, Network e ∈ s).
  { rewrite any_spec. split; [intros ([] & ? & ?); naive_solver|intros [e ?]; by exists (Network e)]. }
  set (t := if any is_endpoint s then _ else _).
  assert (Ht : ∀ j, j ∈ t ↔ j ∈ s ∨ (j = NetworkUnknown ∧ ∃ e, Network e ∈ s)).
  { intros j. unfold t. destruct (any is_endpoint s); [set_solver|naive_solver]. }
  rewrite elem_of_union, Ht, elem_of_list_to_set, list_elem_of_omap.
  setoid_rewrite elem_of_elements. split.
  - intros [[?|?]|([] & Hj%Ht & Hg)]; naive_solver.
  - intros [?|[?|(r & -> & [Hr|Hr])]]; [auto..| |]; right; [exists (DeviceState r)|exists (AcceleratorState r)];
      (split; [apply Ht; by left|done]).
Qed.

Lemma expand_cell k s : k ∈ expand_resource_aliases s → ∃ a, a ∈ s ∧ cell a = cell k.
Proof. rewrite elem_of_expand. intros [?|[[-> [e ?]]|(r & -> & [?|?])]]; eauto. Qed.

Lemma expand_network s : touches_network (expand_resource_aliases s) = true ↔ ∃ a, a ∈ s ∧ cell a = NetworkUnknown.
Proof.
  unfold touches_network. rewrite any_spec. split.
  - intros (k & (a & Ha & E)%expand_cell & Hk). exists a. split; [done|]. rewrite E. by destruct k.
  - intros (a & Ha & E). exists a. split; [apply elem_of_expand; by left|]. by destruct a.
Qed.

(** A cell that is neither the network nor a governed resource is one key. *)
Lemma cell_cases a b :
  cell a = cell b →
  a = b ∨ (cell a = NetworkUnknown ∧ cell b = NetworkUnknown) ∨
  (∃ r, cell a = GovernedResource r ∧ cell b = GovernedResource r).
Proof. intros E. destruct a; destruct b; simpl in E; simplify_eq; simpl; eauto. Qed.

Lemma expand_governed a r s : a ∈ s → cell a = GovernedResource r → GovernedResource r ∈ expand_resource_aliases s.
Proof. rewrite elem_of_expand. intros Ha E. destruct a; simpl in E; simplify_eq; naive_solver. Qed.

Lemma conflict_cells s t :
  resource_conflict (expand_resource_aliases s) (expand_resource_aliases t) = true ↔
  ∃ a b, a ∈ s ∧ b ∈ t ∧ cell a = cell b.
Proof.
  unfold resource_conflict. rewrite orb_true_iff, andb_true_iff, !expand_network, any_spec.
  setoid_rewrite bool_decide_eq_true. split.
  - intros [(k & (a & ? & ?)%expand_cell & (b & ? & ?)%expand_cell)|[(a & ? & ?) (b & ? & ?)]];
      exists a, b; split_and!; congruence.
  - intros (a & b & Ha & Hb & E). destruct (cell_cases a b E) as [->|[[? ?]|(r & ? & ?)]].
    + left. exists b. split; apply elem_of_expand; by left.
    + right. split; eauto.
    + left. exists (GovernedResource r). eauto using expand_governed.
Qed.

(** The umbrella that [scheduling_accesses] adds. *)
Definition with_host (p : bool) (s : gset ResourceKey) : gset ResourceKey := if p then {[ HostWorld ]} ∪ s else s.

Lemma elem_of_with_host p s k : k ∈ with_host p s ↔ k ∈ s ∨ (k = HostWorld ∧ p = true).
Proof. unfold with_host. destruct p; set_solver. Qed.

Lemma conflict_with_host p q s t :
  resource_conflict (with_host p s) (with_host q t) = true ↔
  resource_conflict s t = true ∨ (HostWorld ∈ with_host p s ∧ HostWorld ∈ with_host q t).
Proof.
  unfold resource_conflict, touches_network.
  rewrite !orb_true_iff, !andb_true_iff, !any_spec. setoid_rewrite bool_decide_eq_true.
  setoid_rewrite elem_of_with_host. split.
  - intros [(k & [?|[-> ?]] & [?|[? ?]])|[(k & [?|[-> ?]] & ?) (j & [?|[-> ?]] & ?)]]; simplify_eq; naive_solver.
  - naive_solver.
Qed.

Lemma host_expand s : HostWorld ∈ expand_resource_aliases s ↔ HostWorld ∈ s.
Proof. rewrite elem_of_expand. naive_solver. Qed.

Lemma precise_expand s :
  any is_precise_host (expand_resource_aliases s) = true ↔ ∃ k, k ∈ s ∧ is_precise_host k = true.
Proof.
  rewrite any_spec. setoid_rewrite elem_of_expand. split; [|naive_solver].
  intros (k & [?|[[-> [e ?]]|(r & -> & _)]] & Hk); [eauto|by exists (Network e)|done].
Qed.

Lemma touches_host_cases s : touches_host s ↔ ambient s ∨ ∃ k, k ∈ accesses s ∧ is_precise_host k = true.
Proof.
  unfold touches_host, ambient, is_precise_host. split.
  - intros (k & Hk & Hh). destruct (decide (k = HostWorld)) as [->|Hne]; [by left|right].
    exists k. by rewrite Hh, bool_decide_eq_false_2.
  - intros [?|(k & Hk & [? _]%andb_true_iff)]; eauto.
Qed.

Lemma host_lease_writes s : HostWorld ∈ (scheduling_accesses s).2 ↔ ambient s.
Proof.
  unfold scheduling_accesses, expanded_reads, expanded_writes, ambient, accesses. cbn [snd].
  rewrite elem_of_union, <-(host_expand (reads s)), <-(host_expand (writes s)).
  repeat case_bool_decide; simpl; set_solver.
Qed.

Lemma host_lease_reads s : HostWorld ∈ (scheduling_accesses s).1 → touches_host s.
Proof.
  unfold scheduling_accesses. cbn [fst]. fold (with_host (any is_precise_host (expanded_reads s) || any is_precise_host (expanded_writes s)) (expanded_reads s)).
  unfold expanded_reads, expanded_writes.
  rewrite elem_of_with_host, host_expand, orb_true_iff, !precise_expand, touches_host_cases.
  unfold ambient, accesses. set_solver.
Qed.

Lemma host_leases s :
  touches_host s → HostWorld ∈ (scheduling_accesses s).1 ∨ HostWorld ∈ (scheduling_accesses s).2.
Proof.
  rewrite host_lease_writes, touches_host_cases. intros [?|H]; [by right|left].
  unfold scheduling_accesses. cbn [fst]. fold (with_host (any is_precise_host (expanded_reads s) || any is_precise_host (expanded_writes s)) (expanded_reads s)).
  unfold expanded_reads, expanded_writes.
  rewrite elem_of_with_host, orb_true_iff, !precise_expand. right. split; [done|].
  destruct H as (k & [?|?]%elem_of_union & ?); eauto.
Qed.

Lemma share_written_cell_cases s o :
  share_written_cell s o ↔
  (∃ a b, a ∈ writes s ∧ b ∈ writes o ∧ cell a = cell b) ∨
  (∃ a b, a ∈ writes s ∧ b ∈ reads o ∧ cell a = cell b) ∨
  (∃ a b, a ∈ writes o ∧ b ∈ reads s ∧ cell a = cell b).
Proof.
  unfold share_written_cell, accesses. split.
  - intros (a & b & E & [[? [?|?]%elem_of_union]|[[?|?]%elem_of_union ?]]); naive_solver.
  - intros [(a & b & ? & ? & ?)|[(a & b & ? & ? & ?)|(a & b & ? & ? & ?)]].
    + exists a, b. set_solver.
    + exists a, b. set_solver.
    + exists b, a. set_solver.
Qed.

Lemma lease_conflict s o :
  (resource_conflict (scheduling_accesses s).2 (scheduling_accesses o).2
   || resource_conflict (scheduling_accesses s).2 (scheduling_accesses o).1
   || resource_conflict (scheduling_accesses o).2 (scheduling_accesses s).1) = true ↔
  share_written_cell s o ∨ (ambient s ∧ touches_host o) ∨ (ambient o ∧ touches_host s).
Proof.
  pose proof (host_lease_writes s). pose proof (host_lease_writes o).
  pose proof (host_lease_reads s). pose proof (host_lease_reads o).
  pose proof (host_leases s). pose proof (host_leases o).
  assert (ambient s → touches_host s) by (rewrite touches_host_cases; auto).
  assert (ambient o → touches_host o) by (rewrite touches_host_cases; auto).
  unfold scheduling_accesses in *. cbn [fst snd] in *.
  repeat match goal with |- context [if ?b then {[HostWorld]} ∪ ?t else ?t] => change (if b then {[HostWorld]} ∪ t else t) with (with_host b t) end.
  repeat match goal with H : context [if ?b then {[HostWorld]} ∪ ?t else ?t] |- _ => change (if b then {[HostWorld]} ∪ t else t) with (with_host b t) in H end.
  rewrite !orb_true_iff, !conflict_with_host. unfold expanded_reads, expanded_writes in *.
  rewrite !conflict_cells, share_written_cell_cases. tauto.
Qed.

Lemma conflicts_cases s o :
  conflicts_with s o = true ↔
  same_actor s o = true ∨ share_written_cell s o ∨ (ambient s ∧ touches_host o) ∨ (ambient o ∧ touches_host s).
Proof.
  rewrite <-lease_conflict. unfold conflicts_with. destruct (same_actor s o); [tauto|].
  destruct (scheduling_accesses s) as [rs ws], (scheduling_accesses o) as [ro wo]. cbn [fst snd].
  split; [by right|by intros [|]].
Qed.

Lemma same_actor_sym s o : same_actor s o = same_actor o s.
Proof. unfold same_actor. destruct (actor_state s), (actor_state o); try done. by apply bool_decide_ext. Qed.

Lemma conflicts_sym s o : conflicts_with s o = conflicts_with o s.
Proof.
  apply eq_true_iff_eq. rewrite !conflicts_cases, same_actor_sym.
  assert (∀ a b, share_written_cell a b → share_written_cell b a).
  { intros a b (x & y & E & [[? ?]|[? ?]]); exists y, x; auto. }
  naive_solver.
Qed.

(** C33. [conflicts_with] computes, through alias expansion and the leases on
    [HostWorld], exactly this: the operations share a persistent actor; or they
    access a common cell that one of them writes, where all network endpoints are
    one cell and a device or accelerator is its governed resource; or one of them
    accesses the ambient host and the other any host resource, in any mode.  It is
    symmetric. *)
Theorem conflicts_exact (s o : EffectSummary) :
  (conflicts_with s o = true ↔
   same_actor s o = true ∨ share_written_cell s o ∨ (ambient s ∧ touches_host o) ∨ (ambient o ∧ touches_host s)) ∧
  conflicts_with s o = conflicts_with o s.
Proof. split; [apply conflicts_cases|apply conflicts_sym]. Qed.

(** ** Leases *)

(** The operations lease a common resource for scheduling, and one of them to write it. *)
Definition share_lease (s o : EffectSummary) : Prop :=
  ∃ r, (r ∈ (scheduling_accesses s).2 ∧ r ∈ (scheduling_accesses o).1 ∪ (scheduling_accesses o).2) ∨
       (r ∈ (scheduling_accesses s).1 ∧ r ∈ (scheduling_accesses o).2).

Lemma conflict_common p q s t :
  resource_conflict (with_host p (expand_resource_aliases s)) (with_host q (expand_resource_aliases t)) = true →
  ∃ r, r ∈ with_host p (expand_resource_aliases s) ∧ r ∈ with_host q (expand_resource_aliases t).
Proof.
  rewrite conflict_with_host, conflict_cells. intros [(a & b & Ha & Hb & E)|?]; [|by eauto].
  destruct (cell_cases a b E) as [-> |[[Ea Eb]|(r & Ea & Eb)]].
  - exists b. split; apply elem_of_with_host; left; apply elem_of_expand; by left.
  - assert (Hn : ∀ k u, k ∈ u → cell k = NetworkUnknown → NetworkUnknown ∈ expand_resource_aliases u).
    { intros k u Hk Ek. apply elem_of_expand. destruct k; simplify_eq/=; eauto. }
    exists NetworkUnknown. split; apply elem_of_with_host; left; eauto.
  - exists (GovernedResource r). split; apply elem_of_with_host; left; eapply expand_governed; eauto.
Qed.

(** A conflict that is not about an actor is about a common lease. *)
Lemma conflicts_share_lease s o : conflicts_with s o = true → same_actor s o = true ∨ share_lease s o.
Proof.
  unfold conflicts_with. destruct (same_actor s o); [by left|]. intros H. right. revert H.
  unfold share_lease, scheduling_accesses. cbn [fst snd].
  repeat match goal with |- context [if ?b then {[HostWorld]} ∪ ?t else ?t] => change (if b then {[HostWorld]} ∪ t else t) with (with_host b t) end.
  rewrite !orb_true_iff. unfold expanded_reads, expanded_writes.
  intros [[(r & ? & ?)%conflict_common|(r & ? & ?)%conflict_common]|(r & ? & ?)%conflict_common]; exists r; set_solver.
Qed.

(** ** Operations without a conflict commute

    A state gives every key a value; an operation respects a summary when it
    changes only what the summary writes and computes it only from what the
    summary accesses.  [HostWorld] covers every host key. *)

Section Commutation.
Context {V : Type}.

Definition state : Type := ResourceKey → V.

#[local] Instance state_equiv : Equiv state := λ σ τ, ∀ k, σ k = τ k.

#[local] Instance state_equivalence : Equivalence (≡@{state}).
Proof. split; intros x; unfold equiv, state_equiv; [done|by symmetry|]. intros y z H1 H2 k. by rewrite H1. Qed.

Definition covers (a k : ResourceKey) : Prop := cell a = cell k ∨ (a = HostWorld ∧ is_host_resource k = true).

Definition covered (s : gset ResourceKey) (k : ResourceKey) : Prop := set_Exists (λ a, covers a k) s.

#[local] Instance covered_dec s k : Decision (covered s k).
Proof. unfold covered, covers. apply _. Defined.

Record respects (s : EffectSummary) (f : state → state) : Prop := {
  respects_frame : ∀ σ k, ¬ covered (writes s) k → f σ k = σ k;
  respects_local : ∀ σ τ, (∀ k, covered (accesses s) k → σ k = τ k) →
    ∀ k, covered (writes s) k → f σ k = f τ k;
}.

Lemma respects_proper s f : respects s f → Proper ((≡) ==> (≡)) f.
Proof.
  intros Hf σ τ E k. destruct (decide (covered (writes s) k)) as [Hk|Hk].
  - by apply (respects_local s f Hf).
  - rewrite !(respects_frame s f Hf) by done. apply E.
Qed.

Lemma covers_host a k : covers a k → is_host_resource k = true → is_host_resource a = true.
Proof. intros [E|[-> _]] Hk; [|done]. destruct a, k; simpl in E; simplify_eq; done. Qed.

Lemma no_conflict_disjoint s o k :
  conflicts_with s o = false → covered (writes s) k → covered (accesses o) k → False.
Proof.
  intros Hc (a & Ha & Hak) (b & Hb & Hbk). apply not_true_iff_false in Hc. apply Hc, conflicts_cases.
  right. destruct Hak as [Ea|[-> Hk]].
  - destruct Hbk as [Eb|[-> Hk]].
    + left. exists a, b. split; [congruence|auto].
    + right; right. split; [done|]. exists a. split; [unfold accesses; set_solver|]. eapply covers_host; [by left|done].
  - right; left. split; [unfold ambient, accesses; set_solver|]. exists b. split; [done|]. by eapply covers_host.
Qed.

Lemma writes_covered s k : covered (writes s) k → covered (accesses s) k.
Proof. intros (a & ? & ?). exists a. unfold accesses. set_solver. Qed.

Lemma commute_written s o f g σ k :
  respects s f → respects o g → conflicts_with s o = false → covered (writes s) k → f (g σ) k = g (f σ) k.
Proof.
  intros Hf Hg Hc Hk. assert (Hno : ¬ covered (writes o) k).
  { intros ?%writes_covered. by eapply no_conflict_disjoint. }
  rewrite (respects_frame o g Hg) by done. apply (respects_local s f Hf); [|done].
  intros j Hj. apply (respects_frame o g Hg). intros Hw. rewrite conflicts_sym in Hc. by eapply (no_conflict_disjoint o s j).
Qed.

Lemma commute s o f g σ :
  respects s f → respects o g → conflicts_with s o = false → f (g σ) ≡ g (f σ).
Proof.
  intros Hf Hg Hc k. destruct (decide (covered (writes s) k)) as [Hs|Hs]; [by apply (commute_written s o)|].
  destruct (decide (covered (writes o) k)) as [Ho|Ho].
  - symmetry. apply (commute_written o s); [done..|by rewrite conflicts_sym|done].
  - by rewrite (respects_frame s f Hf), !(respects_frame o g Hg), (respects_frame s f Hf).
Qed.

(** *** Schedules *)

Context (summary : PlanNodeId → EffectSummary) (op : PlanNodeId → state → state).

Definition run (schedule : list PlanNodeId) (σ : state) : state := run_all op schedule σ.

Definition sound (schedule : list PlanNodeId) : Prop := Forall (λ i, respects (summary i) (op i)) schedule.

Lemma reorder l l' σ :
  sound l → NoDup l → l ≡ₚ l' →
  (∀ i j, before l i j → conflicts_with (summary i) (summary j) = true → before l' i j) →
  run l σ ≡ run l' σ.
Proof.
  intros Hs Hnd Hp Hb. unfold sound in Hs. rewrite Forall_forall in Hs.
  apply (run_reorder (≡) (λ _, True) op (λ i j, conflicts_with (summary i) (summary j) = true) l);
    [apply _|done| | |done|done|done|done].
  - intros i τ τ' Hi _ _. by apply (respects_proper (summary i)), Hs.
  - intros i j τ Hi Hj Hc%not_true_iff_false _. rewrite conflicts_sym in Hc.
    apply (commute (summary j) (summary i)); [by apply Hs..|done].
Qed.

(** C22. The conflict predicate is enough to schedule by: when every operation of a
    schedule respects its summary (it changes only what the summary writes, and
    computes that only from what the summary accesses, [HostWorld] standing for the
    whole host), any other order of the same operations that keeps the order of each
    conflicting pair ends in the same state. *)
Theorem conflict_order_suffices (l l' : list PlanNodeId) (σ : state) :
  sound l → NoDup l → l ≡ₚ l' →
  (∀ i j, before l i j → conflicts_with (summary i) (summary j) = true → before l' i j) →
  ∀ k, run l σ k = run l' σ k.
Proof. intros Hs Hnd Hp Hb k. by apply reorder. Qed.
End Commutation.

(** Storing a constant in a binding respects the summary of a [Store] node. *)
Definition store_summary (name : str) : EffectSummary := set_accesses summary_pure ∅ {[ ScopeBinding name ]}.

Definition store_op {V} (name : str) (v : V) (σ : state) : state :=
  λ k, if decide (k = ScopeBinding name) then v else σ k.

Lemma store_respects {V} name (v : V) : respects (store_summary name) (store_op name v).
Proof.
  split; unfold store_op; simpl.
  - intros σ k Hk. case_decide; [|done]. subst. exfalso. apply Hk. exists (ScopeBinding name). split; [set_solver|by left].
  - intros σ τ _ k (a & ->%elem_of_singleton & [E|[? _]]); [|done]. simpl in E.
    assert (k = ScopeBinding name) as -> by (destruct k; simpl in E; congruence). by rewrite !decide_True.
Qed.

(** Two stores, to [x] and to [y]. *)
Definition two_names (i : PlanNodeId) : str := if decide (i = 0%nat) then lit "x" else lit "y".

Definition two_stores (i : PlanNodeId) : state (V := Z) → state (V := Z) := store_op (two_names i) (Z.of_nat i).

Lemma conflict_order_suffices_witness :
  run two_stores [0%nat; 1%nat] (λ _, 7) (ScopeBinding (lit "y")) = 1 ∧
  run two_stores [0%nat; 1%nat] (λ _, 7) (ScopeBinding (lit "y")) = run two_stores [1%nat; 0%nat] (λ _, 7) (ScopeBinding (lit "y")).
Proof.
  split; [vm_compute; reflexivity|]. apply (conflict_order_suffices (λ i, store_summary (two_names i)) two_stores).
  - repeat constructor; apply store_respects.
  - apply (bool_decide_unpack _); vm_compute; exact I.
  - apply Permutation_swap.
  - intros i j [-> ->]%before_pair Hc. vm_compute in Hc. discriminate.
Defined.

(** ** Declarations *)

(** [t] may do everything that [s] may do, and claims no more for itself. *)
Definition at_least (s t : EffectSummary) : Prop :=
  reads s ⊆ reads t ∧ writes s ⊆ writes t ∧ actor_state t = actor_state s ∧
  (deterministic t = true → deterministic s = true) ∧ (fallibility t = Infallible → fallibility s = Infallible) ∧
  (unknown s = true → unknown t = true) ∧ (confidence t = Verified → confidence s = Verified) ∧
  network t = network s ∧ spawn t = spawn s ∧ clock t = clock s.

Lemma at_least_conflicts s t o : at_least s t → conflicts_with s o = true → conflicts_with t o = true.
Proof.
  intros (Hr & Hw & Ha & _). rewrite !conflicts_cases. unfold same_actor. rewrite Ha.
  assert (accesses s ⊆ accesses t) by (unfold accesses; set_solver).
  intros [?|[(a & b & E & [[? ?]|[? ?]])|[[? ?]|[? (k & ? & ?)]]]].
  - by left.
  - right; left. exists a, b. set_solver.
  - right; left. exists a, b. set_solver.
  - right; right; left. unfold ambient in *. set_solver.
  - right; right; right. split; [done|]. exists k. set_solver.
Qed.

Lemma verified_pure_spec s :
  is_verified_pure_infallible s = true ↔ s = summary_pure.
Proof.
  unfold is_verified_pure_infallible. rewrite !andb_true_iff, !negb_true_iff, !bool_decide_eq_true.
  split; [|by intros ->]. destruct s; simpl. intros. destruct_and?. unfold summary_pure. congruence.
Qed.

#[local] Instance at_least_preorder : PreOrder at_least.
Proof.
  split; [intros s; unfold at_least; split_and!; auto|].
  intros s t u (?&?&E1&?&?&?&?&E2&E3&E4) (?&?&F1&?&?&?&?&F2&F3&F4). unfold at_least.
  rewrite F1, F2, F3, F4. split_and!; [set_solver..|]; auto.
Qed.

Lemma at_least_extend s rs ws : at_least s (set_accesses s (reads s ∪ rs) (writes s ∪ ws)).
Proof. unfold at_least, set_accesses; simpl. split_and!; auto; set_solver. Qed.

Lemma at_least_host s : at_least s (add_host s).
Proof. unfold at_least, add_host, set_accesses; simpl. split_and!; auto; set_solver. Qed.

Lemma at_least_degrade s : at_least s (degrade s).
Proof. unfold at_least, degrade; simpl. split_and!; try done; set_solver. Qed.

Lemma at_least_declared s : at_least s (set_confidence s UserDeclared).
Proof. unfold at_least, set_confidence; simpl. by split_and!. Qed.

Create HintDb effects.
#[export] Hint Resolve at_least_extend at_least_host at_least_degrade at_least_declared : effects.

(** The summary before the final confidence: the steps of [apply_checked]. *)
Definition classified (d : EffectDeclaration) (base : EffectSummary) : EffectSummary :=
  match purity d with Some DeclaredUnknown => degrade base | _ => base end.

Definition declared (d : EffectDeclaration) (base : EffectSummary) : EffectSummary :=
  let s := classified d base in
  let s := set_accesses s (reads s ∪ decl_reads d) (writes s ∪ decl_writes d) in
  let s := if serial_host d then add_host s else s in
  if is_verified_pure_infallible base && has_declared_host_resources d then add_host s else s.

Definition downgraded (d : EffectDeclaration) (base : EffectSummary) : EffectSummary :=
  if is_verified_pure_infallible base && has_declared_resources d
     && negb (bool_decide (purity d = Some DeclaredUnknown))
  then set_confidence (declared d base) UserDeclared else declared d base.

Lemma apply_checked_eq d base :
  apply_checked d base Strict =
  if bool_decide (purity d = Some DeclaredPure) && negb (is_verified_pure_infallible base)
  then inl CannotUpgradeToPure else inr (downgraded d base).
Proof.
  unfold apply_checked, downgraded, declared, classified.
  destruct (purity d) as [[|]|], (is_verified_pure_infallible base); reflexivity.
Qed.

Lemma declared_at_least d base : at_least base (declared d base).
Proof.
  unfold declared, classified.
  transitivity (match purity d with Some DeclaredUnknown => degrade base | _ => base end).
  { destruct (purity d) as [[|]|]; auto with effects; reflexivity. }
  set (s := match purity d with Some DeclaredUnknown => _ | _ => _ end).
  etrans; [apply (at_least_extend s)|].
  destruct (serial_host d), (_ && _); try reflexivity; auto with effects.
  etrans; apply at_least_host.
Qed.

Lemma downgraded_at_least d base : at_least base (downgraded d base).
Proof. unfold downgraded. etrans; [apply declared_at_least|]. case_match; [auto with effects|reflexivity]. Qed.

Lemma downgraded_accesses d base :
  decl_reads d ⊆ reads (downgraded d base) ∧ decl_writes d ⊆ writes (downgraded d base) ∧
  (purity d = Some DeclaredUnknown ∨ serial_host d = true ∨
   (is_verified_pure_infallible base = true ∧ has_declared_host_resources d = true) →
   HostWorld ∈ writes (downgraded d base)).
Proof.
  unfold downgraded. set (b := _ && _ && _).
  assert (E : reads (if b then set_confidence (declared d base) UserDeclared else declared d base) = reads (declared d base)
            ∧ writes (if b then set_confidence (declared d base) UserDeclared else declared d base) = writes (declared d base))
    by (by destruct b). destruct E as [-> ->]. unfold declared.
  destruct (serial_host d), (is_verified_pure_infallible base && has_declared_host_resources d) eqn:Hb;
    simpl; (split_and!; [set_solver|set_solver|]);
    (intros [Hp|[?|[H1 H2]]]; [unfold classified; rewrite Hp; set_solver|set_solver|]);
    first [set_solver|by rewrite H1, H2 in Hb].
Qed.

Lemma downgraded_pure d base :
  is_verified_pure_infallible (downgraded d base) = true ↔
  is_verified_pure_infallible base = true ∧ has_declared_resources d = false ∧ purity d ≠ Some DeclaredUnknown.
Proof.
  split.
  - intros Hp. pose proof (downgraded_at_least d base) as (Hr & Hw & Ha & Hd & Hf & Hu & Hc & Hn & Hs & Hk).
    pose proof Hp as E. apply verified_pure_spec in E.
    assert (Hb : is_verified_pure_infallible base = true).
    { apply verified_pure_spec. rewrite E in *. destruct base; simpl in *. unfold summary_pure. f_equal; try done.
      - by apply Hd. - by apply Hf. - set_solver. - set_solver. - destruct unknown; [|done]. by discriminate Hu.
      - by apply Hc. }
    split; [done|]. assert (Hpu : purity d ≠ Some DeclaredUnknown).
    { intros Hu'. destruct (downgraded_accesses d base) as (_ & _ & H). rewrite E in H. simpl in H.
      apply not_elem_of_empty in H; [done|by left]. }
    split; [|done]. apply not_true_iff_false. intros Hres. unfold downgraded in E.
    rewrite Hb, Hres, bool_decide_eq_false_2 in E by done. simpl in E. by apply (f_equal confidence) in E.
  - intros (Hb & Hres & Hpu). unfold downgraded. rewrite Hres, andb_false_r. simpl.
    assert (Hh : has_declared_host_resources d = false ∧ decl_reads d = ∅ ∧ decl_writes d = ∅ ∧ serial_host d = false).
    { unfold has_declared_resources in Hres. apply orb_false_iff in Hres as [[H1%negb_false_iff H2%negb_false_iff]%orb_false_iff H3].
      apply bool_decide_eq_true in H1, H2. unfold has_declared_host_resources. rewrite H1, H2, H3. done. }
    destruct Hh as (Hh & Hr & Hw & Hs). unfold declared, classified. rewrite Hh, Hr, Hw, Hs, andb_false_r.
    destruct (purity d) as [[|]|]; try done; apply verified_pure_spec; apply verified_pure_spec in Hb; rewrite Hb;
      unfold set_accesses, summary_pure; simpl; by rewrite !(right_id_L ∅ (∪)).
Qed.

(** C32. A source declaration can only constrain.  It is refused exactly when it
    claims purity for work that is not verified pure, and with no other error.
    When it is applied the summary keeps every access, flag and conflict of the
    derived one and gains the declared accesses; it is still verified pure only if
    it was and nothing was declared; and [effects=unknown], [serial=host], or any
    host resource on verified pure work makes it write the ambient host. *)
Theorem declarations_only_constrain (d : EffectDeclaration) (base : EffectSummary) :
  (∀ e, apply_checked d base Strict = inl e ↔
    e = CannotUpgradeToPure ∧ purity d = Some DeclaredPure ∧ is_verified_pure_infallible base = false) ∧
  (∀ s, apply_checked d base Strict = inr s →
    at_least base s ∧ decl_reads d ⊆ reads s ∧ decl_writes d ⊆ writes s ∧
    (∀ o, conflicts_with base o = true → conflicts_with s o = true) ∧
    (is_verified_pure_infallible s = true ↔
      is_verified_pure_infallible base = true ∧ has_declared_resources d = false ∧ purity d ≠ Some DeclaredUnknown) ∧
    (purity d = Some DeclaredUnknown ∨ serial_host d = true ∨
      (is_verified_pure_infallible base = true ∧ has_declared_host_resources d = true) →
      HostWorld ∈ writes s)).
Proof.
  rewrite apply_checked_eq. split.
  - intros e. case_bool_decide; destruct (is_verified_pure_infallible base); simpl; naive_solver.
  - intros s Hs. destruct (_ && _); simplify_eq. pose proof (downgraded_at_least d base).
    destruct (downgraded_accesses d base) as (? & ? & ?). split_and!; [done..| |by apply downgraded_pure|done].
    intros o. by apply at_least_conflicts.
Qed.

Lemma declarations_only_constrain_witness :
  let d := {| purity := None; decl_reads := {[ ProjectPath (lit "a.txt") ]}; decl_writes := ∅; serial_host := false |} in
  ∃ s, apply_checked d summary_pure Strict = inr s ∧ HostWorld ∈ writes s ∧ is_verified_pure_infallible s = false.
Proof.
  intros d. destruct (apply_checked d summary_pure Strict) as [e|s] eqn:Hs.
  - apply declarations_only_constrain in Hs as (_ & _ & H). vm_compute in H. discriminate.
  - apply declarations_only_constrain in Hs as (_ & _ & _ & _ & Hp & Hw). exists s. split_and!; [reflexivity| |].
    + apply Hw. right; right. split; vm_compute; reflexivity.
    + apply not_true_iff_false. intros H. apply Hp in H as (_ & H & _). vm_compute in H. discriminate.
Defined.

(** ** The resources that source text can name *)

Definition identifier (value : str) : Prop := validate_identifier value [] = inr tt.

Definition declarable (k : ResourceKey) : Prop :=
  match k with
  | HostWorld | Stdio | NetworkUnknown | EvaluatorState => True
  | ProjectPath p => p ≠ [] ∧ starts_with p (lit "/") = false
  | HostPath p => p ≠ [] ∧ p ≠ lit "*"
  | EnvVar n | ScopeBinding n => identifier n
  | Network e => e ≠ [] ∧ e ≠ lit "*"
  | Service n => n ≠ []
  | ActorState a => canonical_language a ≠ [] ∧ 0 ≤ environment a ≤ MAX_PERSISTENT_ENV_ID
  | _ => False
  end.

(** The spelling of a key in a declaration; two keys are not spelled as they are
    displayed. *)
Definition source_text (k : ResourceKey) : str :=
  match k with
  | HostWorld => lit "hostworld"
  | EvaluatorState => lit "evaluator"
  | k => display_key k
  end.

Lemma identifier_ok value label : validate_identifier value label = inr tt ↔ identifier value.
Proof. unfold identifier, validate_identifier. destruct value; [done|]. by destruct (_ || _). Qed.

Lemma identifier_ne value : identifier value → value ≠ [].
Proof. by destruct value. Qed.

Lemma parse_resource_split kind value :
  58 ∉ kind → value ≠ [] → (value = lit "*" → kind ≠ lit "network" ∧ kind ≠ lit "host") →
  is_governed_source_resource_kind kind = false →
  parse_resource (kind ++ 58 :: value) = parse_kind_value (kind ++ 58 :: value) kind value.
Proof.
  intros Hk Hv Hs Hg. set (item := kind ++ 58 :: value).
  assert (Hin : ∀ s, 58 ∉ s → item ≠ s) by (intros s Hs' E; apply Hs'; rewrite <-E; unfold item; set_solver).
  assert (Hcut : ∀ w, 58 ∉ w → item = w ++ 58 :: lit "*" → value = lit "*" ∧ kind = w).
  { intros w Hw E. apply cut_first in E as [-> ->]; done. }
  unfold parse_resource. rewrite (bool_decide_eq_false_2 (item = lit "stdio")) by (apply Hin; by vm_compute; set_solver).
  rewrite (bool_decide_eq_false_2 (item = _ ∨ item = lit "network")).
  2: { intros [E|E]; [apply (Hcut (lit "network")) in E as [E1 E2]; [naive_solver|]|apply Hin in E; [done|]];
       apply (bool_decide_unpack _); vm_compute; exact I. }
  rewrite (bool_decide_eq_false_2 (item = _ ∨ item = lit "hostworld")).
  2: { intros [E|E]; [apply (Hcut (lit "host")) in E as [E1 E2]; [naive_solver|]|apply Hin in E; [done|]];
       apply (bool_decide_unpack _); vm_compute; exact I. }
  rewrite (bool_decide_eq_false_2 (item = lit "evaluator")) by
    (apply Hin; apply (bool_decide_unpack _); vm_compute; exact I).
  rewrite (proj2 (split_once_Some 58 item kind value)) by done.
  by rewrite bool_decide_eq_false_2, Hg by done.
Qed.

Lemma actor_roundtrip a :
  canonical_language a ≠ [] → 0 ≤ environment a ≤ MAX_PERSISTENT_ENV_ID →
  parse_actor_resource (display_actor a) = inr a.
Proof.
  destruct a as [l e]; simpl. intros Hl He. unfold MAX_PERSISTENT_ENV_ID, U32_MAX in He.
  unfold parse_actor_resource, display_actor; simpl.
  assert (Hd : 0 ≤ e < 10 ^ 20) by lia. destruct (dec_digits e Hd) as [Hne Hdig].
  change (lit "[") with [91]. change (lit "]") with [93].
  rewrite (proj2 (strip_suffix_Some [93] _ (l ++ 91 :: dec e))) by (by rewrite <-app_assoc). simpl.
  rewrite (proj2 (rsplit_once_Some 91 _ l (dec e))) by (split; [done|by apply dec_no_byte]).
  rewrite bool_decide_eq_false_2 by done.
  assert (Hu : u32_from_str (dec e) = Some e).
  { unfold u32_from_str. destruct (dec e) as [|b r] eqn:E; [done|].
    assert (Hb : is_digit b = true) by (by apply Forall_cons in Hdig as [? _]).
    assert (Hsame : (match b :: r with 43 :: (_ :: _) as r' => r' | _ => b :: r end) = b :: r).
    { destruct (decide (b = 43)) as [->|Hb']; [done|]. destruct b as [|p|p]; try done. repeat (destruct p; try done). }
    rewrite Hsame, <-E, dec_value_dec by done. rewrite bool_decide_eq_false_2 by (by rewrite E).
    rewrite <-E in Hdig. rewrite (proj2 (forallb_Forall _ _) Hdig). simpl. unfold U32_MAX. case_ltb; [done|lia]. }
  rewrite Hu. unfold from_encoded, EPHEMERAL_ENV_ID, LINKER_ISOLATED_ENV_ID, U32_MAX. case_ltb; [lia|lia|done].
Qed.

(** Side conditions on concrete kinds. *)
Ltac concrete := apply (bool_decide_unpack _); vm_compute; exact I.

Lemma source_roundtrip k : declarable k → parse_resource (source_text k) = inr k.
Proof.
  destruct k; try done; cbn [source_text display_key declarable]; intros Hk.
  - change (lit "scope:" ++ name) with (lit "scope" ++ 58 :: name).
    rewrite parse_resource_split; [|concrete|by apply identifier_ne|by intros ->|done].
    change (parse_kind_value _ _ _) with
      (let! _ := validate_identifier name (lit "scope binding") in inr (ScopeBinding name) : EffectError + ResourceKey).
    by rewrite (proj2 (identifier_ok _ _) Hk).
  - change (lit "project:" ++ path) with (lit "project" ++ 58 :: path). destruct Hk as [Hne Hs].
    rewrite parse_resource_split; [|concrete|done|done|done].
    change (parse_kind_value _ _ _) with
      (if starts_with path (lit "/") then inl (AbsoluteProjectPath path) else inr (ProjectPath path)).
    by rewrite Hs.
  - change (lit "host:" ++ path) with (lit "host" ++ 58 :: path). destruct Hk as [Hne Hs].
    by rewrite parse_resource_split; [|concrete|done|done|done].
  - change (lit "env:" ++ name) with (lit "env" ++ 58 :: name).
    rewrite parse_resource_split; [|concrete|by apply identifier_ne|by intros ->|done].
    change (parse_kind_value _ _ _) with
      (let! _ := validate_identifier name (lit "environment variable") in inr (EnvVar name) : EffectError + ResourceKey).
    by rewrite (proj2 (identifier_ok _ _) Hk).
  - change (lit "network:" ++ endpoint) with (lit "network" ++ 58 :: endpoint). destruct Hk as [Hne Hs].
    by rewrite parse_resource_split; [|concrete|done|done|done].
  - change (lit "service:" ++ name) with (lit "service" ++ 58 :: name).
    by rewrite parse_resource_split; [|concrete|done|done|done].
  - change (lit "actor:" ++ display_actor actor) with (lit "actor" ++ 58 :: display_actor actor). destruct Hk as [Hl He].
    assert (Hd : display_actor actor ≠ [] ∧ display_actor actor ≠ lit "*").
    { unfold display_actor. destruct (canonical_language actor) as [|b [|c l]]; [done|by split|by split]. }
    destruct Hd as [Hd1 Hd2]. rewrite parse_resource_split; [|concrete|done|done|done].
    change (parse_kind_value _ _ _) with
      (let! a := parse_actor_resource (display_actor actor) in inr (ActorState a) : EffectError + ResourceKey).
    by rewrite actor_roundtrip.
Qed.

Lemma parse_actor_ok value a :
  parse_actor_resource value = inr a → canonical_language a ≠ [] ∧ 0 ≤ environment a ≤ MAX_PERSISTENT_ENV_ID.
Proof.
  unfold parse_actor_resource. destruct (strip_suffix _ _ ≫= _) as [[l e]|]; [|done].
  case_bool_decide; [done|]. destruct (u32_from_str e) as [n|] eqn:Hn; [|done].
  destruct (is_persistent (from_encoded n)) eqn:Hp; [|done]. intros [= <-]. simpl. split; [done|].
  unfold u32_from_str in Hn. set (ds := match e with 43 :: (_ :: _) as r => r | _ => e end) in Hn.
  destruct (_ || negb (forallb is_digit ds)) eqn:Hd; [done|].
  apply orb_false_iff in Hd as [_ Hd%negb_false_iff]. apply forallb_Forall in Hd.
  destruct (Z.leb_spec (dec_value ds) U32_MAX) as [Hle|]; [|done]. injection Hn as <-.
  pose proof (dec_value_nonneg ds Hd).
  unfold from_encoded, EPHEMERAL_ENV_ID, LINKER_ISOLATED_ENV_ID, MAX_PERSISTENT_ENV_ID in *.
  destruct (Z.eqb_spec (dec_value ds) U32_MAX); [done|]. destruct (Z.eqb_spec (dec_value ds) (U32_MAX - 1)); [done|]. lia.
Qed.

Lemma parse_kind_value_ok item kind value k :
  value ≠ [] → (value = lit "*" → kind ≠ lit "network" ∧ kind ≠ lit "host") →
  parse_kind_value item kind value = inr k → declarable k.
Proof.
  intros Hv Hs. unfold parse_kind_value.
  case_bool_decide; [destruct (starts_with _ _) eqn:?; [done|by intros [= <-]]|].
  case_bool_decide; [intros [= <-]; split; naive_solver|].
  case_bool_decide; [rewrite then_ok, identifier_ok; by intros [? [= <-]]|].
  case_bool_decide; [rewrite then_ok, identifier_ok; by intros [? [= <-]]|].
  case_bool_decide; [intros [= <-]; split; naive_solver|].
  case_bool_decide; [by intros [= <-]|].
  case_bool_decide; [|done].
  rewrite rbind_ok. intros (a & Ha%parse_actor_ok & [= <-]). done.
Qed.

Lemma parse_resource_ok item k : parse_resource item = inr k → declarable k.
Proof.
  unfold parse_resource. case_bool_decide; [by intros [= <-]|].
  case_bool_decide as Hn; [by intros [= <-]|]. case_bool_decide as Hh; [by intros [= <-]|].
  case_bool_decide; [by intros [= <-]|].
  destruct (split_once 58 item) as [[kind value]|] eqn:Hs; [|done]. apply split_once_Some in Hs as [-> _].
  case_bool_decide; [done|]. destruct (is_governed_source_resource_kind kind); [done|].
  apply parse_kind_value_ok; [done|]. intros ->. split; intros ->; [apply Hn|apply Hh]; by left.
Qed.

Lemma parse_items_ok text items acc s k :
  parse_items text items acc = inr s → k ∈ s → k ∈ acc ∨ declarable k.
Proof.
  revert acc. induction items as [|item items IH]; intros acc; simpl; [intros [= ->]; auto|].
  case_bool_decide; [done|]. rewrite rbind_ok. intros (j & Hj & Hrest) Hk.
  destruct (IH _ Hrest Hk) as [[->%elem_of_singleton|?]%elem_of_union|?]; [|auto..]. right. by eapply parse_resource_ok.
Qed.

Lemma parse_resources_ok text s k : parse_resources text = inr s → k ∈ s → declarable k.
Proof.
  unfold parse_resources. case_bool_decide; [done|]. intros Hp Hk.
  destruct (parse_items_ok _ _ _ _ _ Hp Hk) as [Hk'|?]; [by apply not_elem_of_empty in Hk'|done].
Qed.

Lemma parse_entry_ok st entry st' k :
  parse_entry st entry = inr st' →
  k ∈ decl_reads (declaration st') ∪ decl_writes (declaration st') →
  k ∈ decl_reads (declaration st) ∪ decl_writes (declaration st) ∨ declarable k.
Proof.
  unfold parse_entry. case_bool_decide; [done|].
  destruct (strip_prefix (lit "effects=") entry) as [v|].
  { unfold parse_effects_entry. destruct (seen_effects st); [done|]. rewrite rbind_ok. intros (p & _ & [= <-]). auto. }
  destruct (strip_prefix (lit "reads=") entry) as [v|].
  { unfold parse_reads_entry. destruct (seen_reads st); [done|]. rewrite rbind_ok. intros (rs & Hrs & [= <-]). simpl.
    intros [?|?]%elem_of_union; [right; by eapply parse_resources_ok|set_solver]. }
  destruct (strip_prefix (lit "writes=") entry) as [v|].
  { unfold parse_writes_entry. destruct (seen_writes st); [done|]. rewrite rbind_ok. intros (ws & Hws & [= <-]). simpl.
    intros [?|?]%elem_of_union; [set_solver|right; by eapply parse_resources_ok]. }
  destruct (strip_prefix (lit "serial=") entry) as [v|]; [|intros [= <-]; auto].
  unfold parse_serial_entry. destruct (seen_serial st); [done|]. destruct (negb _); [done|]. intros [= <-]. auto.
Qed.

Lemma parse_entries_ok entries st st' k :
  parse_entries st entries = inr st' →
  k ∈ decl_reads (declaration st') ∪ decl_writes (declaration st') →
  k ∈ decl_reads (declaration st) ∪ decl_writes (declaration st) ∨ declarable k.
Proof.
  revert st. induction entries as [|e es IH]; intros st; simpl; [intros [= <-]; auto|].
  rewrite rbind_ok. intros (st1 & H1 & H2) Hk. destruct (IH _ H2 Hk); [by eapply parse_entry_ok|auto].
Qed.

(** C34. Source text names exactly the declarable resources: every one of them has
    a spelling that parses to it, and whatever parses is one of them, so an
    attribute never mints governed state, a project branch, an empty identity, an
    absolute project path or the state of an actor that does not persist. *)
Theorem declared_resources_exact :
  (∀ k, (∃ item, parse_resource item = inr k) ↔ declarable k) ∧
  (∀ k, declarable k → parse_resource (source_text k) = inr k ∧ governed_kind k = None) ∧
  (∀ attr d k, parse_declaration attr = inr d → k ∈ decl_reads d ∪ decl_writes d → declarable k).
Proof.
  split_and!.
  - intros k. split; [intros [item H]; by eapply parse_resource_ok|]. exists (source_text k). by apply source_roundtrip.
  - intros k Hk. split; [by apply source_roundtrip|]. by destruct k.
  - intros attr d k. unfold parse_declaration. rewrite rbind_ok. intros (st & Hst & [= <-]) Hk.
    destruct (parse_entries_ok _ _ _ _ Hst Hk) as [H|]; [|done]. simpl in H. set_solver.
Qed.

Lemma declared_resources_exact_witness :
  parse_resource (lit "actor:python[7]") = inr (ActorState {| canonical_language := lit "python"; environment := 7 |}) ∧
  ¬ ∃ item, parse_resource item = inr (ProjectPath (lit "/etc/passwd")).
Proof.
  destruct declared_resources_exact as (H1 & H2 & _). split.
  - apply (H2 (ActorState {| canonical_language := lit "python"; environment := 7 |})).
    split; [discriminate|vm_compute; split; discriminate].
  - intros H. apply H1 in H as [_ H]. vm_compute in H. discriminate.
Defined.

(** ** Plan nodes *)

Section PlanNodeEffects.
Context (validate_descriptor : str → nat → bool).

(** Nodes whose behaviour the planner does not know: calls, requests, schedules and
    every block that is not a trusted inline renderer. *)
Definition opaque_node (kind : PlanNodeKind) : bool :=
  match kind with
  | PCall _ _ _ | PRequest _ _ _ | PSchedule _ _ _ => true
  | PExec _ _ attr backend => negb (trusted_inline attr backend)
  | _ => false
  end.

(** The persistent actor a block runs on. *)
Definition actor_of (kind : PlanNodeKind) : option ActorResourceId :=
  match kind with
  | PExec _ env_id _ backend =>
      if bool_decide (execution backend = Shim) && is_persistent (from_encoded env_id)
      then Some {| canonical_language := canonical backend; environment := env_id |} else None
  | _ => None
  end.

Lemma exec_summary_actor env_id attr backend lang :
  actor_state (exec_summary env_id attr backend) = actor_of (PExec lang env_id attr backend).
Proof. unfold exec_summary. simpl. destruct (_ && _); [|by destruct (trusted_inline _ _)]. by destruct (trusted_inline _ _). Qed.

Lemma exec_summary_opaque env_id attr backend :
  trusted_inline attr backend = false →
  {[ HostWorld; EvaluatorState ]} ⊆ writes (exec_summary env_id attr backend) ∧
  unknown (exec_summary env_id attr backend) = true.
Proof.
  unfold exec_summary. intros ->. destruct (_ && _); simpl; (split; [set_solver|done]).
Qed.

Lemma summary_at_least id lang env_id attr backend s :
  effect_summary_for_plan_node validate_descriptor id (PExec lang env_id attr backend) = inr s →
  at_least (exec_summary env_id attr backend) s.
Proof.
  simpl. rewrite rbind_ok. intros (d & _ & H). rewrite apply_checked_eq in H.
  destruct (_ && _); [done|]. injection H as <-. apply downgraded_at_least.
Qed.

Lemma opaque_writes id kind s :
  effect_summary_for_plan_node validate_descriptor id kind = inr s → opaque_node kind = true →
  {[ HostWorld; EvaluatorState ]} ⊆ writes s ∧ unknown s = true.
Proof.
  destruct kind; simpl; try done; try (intros [= <-] _; simpl; split; [set_solver|done]).
  intros H%(summary_at_least id lang) Ho%negb_true_iff. destruct (exec_summary_opaque env_id _ _ Ho) as [Hw Hu].
  destruct H as (_ & Hws & _ & _ & _ & Hus & _). split; [set_solver|by apply Hus].
Qed.

Lemma node_actor id kind s :
  effect_summary_for_plan_node validate_descriptor id kind = inr s → actor_state s = actor_of kind.
Proof.
  destruct kind; try (by intros [= <-]).
  - simpl. destruct descriptor; [|done]. by destruct (validate_descriptor _ _); intros [= <-].
  - intros (_ & _ & -> & _)%summary_at_least. apply exec_summary_actor.
Qed.

(** A persistent actor is also a resource that its operations write. *)
Lemma actor_written id kind s a :
  effect_summary_for_plan_node validate_descriptor id kind = inr s → actor_state s = Some a →
  ActorState a ∈ (scheduling_accesses s).2.
Proof.
  intros Hs Ha. assert (Hw : ActorState a ∈ writes s).
  { rewrite (node_actor _ _ _ Hs) in Ha. destruct kind; try done. simpl in Ha.
    apply summary_at_least in Hs as (_ & Hw & _). apply Hw. unfold exec_summary.
    destruct (_ && _); [|done]. injection Ha as <-. destruct (trusted_inline _ _); simpl; set_solver. }
  assert (ActorState a ∈ expanded_writes s) by (apply elem_of_expand; by left).
  unfold scheduling_accesses. cbn [snd]. destruct (_ || _); set_solver.
Qed.

(** Nodes that may run on a worker: they touch nothing and cannot fail. *)
Definition inert_node (kind : PlanNodeKind) : Prop :=
  match kind with
  | PText | PGroup _ _ => True
  | PExec _ _ attr backend =>
      trusted_inline attr backend = true ∧
      ∃ d, parse_declaration attr = inr d ∧ has_declared_resources d = false ∧ purity d ≠ Some DeclaredUnknown
  | _ => False
  end.

Lemma exec_summary_pure env_id attr backend :
  is_verified_pure_infallible (exec_summary env_id attr backend) = true ↔ trusted_inline attr backend = true.
Proof.
  rewrite verified_pure_spec. split.
  - intros E. destruct (trusted_inline attr backend) eqn:Ht; [done|].
    destruct (exec_summary_opaque env_id attr backend Ht) as [_ Hu]. by rewrite E in Hu.
  - intros Ht. unfold exec_summary. rewrite Ht. unfold trusted_inline in Ht.
    apply andb_true_iff in Ht as [[[_ He%bool_decide_eq_true]%andb_true_iff _]%andb_true_iff _]. by rewrite He.
Qed.

Lemma node_pure id kind s :
  effect_summary_for_plan_node validate_descriptor id kind = inr s →
  is_verified_pure_infallible s = true ↔ inert_node kind.
Proof.
  destruct kind; simpl; try (intros [= <-]; by split; [|vm_compute]).
  - destruct descriptor; [|done]. destruct (validate_descriptor _ _); [|done]. intros [= <-]. by vm_compute.
  - rewrite rbind_ok. intros (d & Hd & H). rewrite apply_checked_eq in H. destruct (_ && _); [done|].
    injection H as <-. rewrite downgraded_pure, exec_summary_pure.
    destruct (parse_declaration attr) as [|d']; [done|]. injection Hd as ->. naive_solver.
Qed.
End PlanNodeEffects.

(** C26. What the summaries of plan nodes guarantee the scheduler.  Opaque nodes
    (calls, requests, schedules, blocks that are not trusted inline renderers)
    write the ambient host and the evaluator, whatever they declare, so any two of
    them conflict; two blocks on one persistent environment conflict; a node is
    verified pure exactly when it is text, a group or a trusted renderer that
    declares nothing, and then conflicts with no node; a store conflicts with every
    load and store of its binding. *)
Theorem plan_node_effects (validate_descriptor : str → nat → bool) id id' kind kind' s s' :
  effect_summary_for_plan_node validate_descriptor id kind = inr s →
  effect_summary_for_plan_node validate_descriptor id' kind' = inr s' →
  (opaque_node kind = true → {[ HostWorld; EvaluatorState ]} ⊆ writes s ∧ unknown s = true) ∧
  (opaque_node kind = true → opaque_node kind' = true → conflicts_with s s' = true) ∧
  actor_state s = actor_of kind ∧
  (is_Some (actor_of kind) → actor_of kind = actor_of kind' → conflicts_with s s' = true) ∧
  (is_verified_pure_infallible s = true ↔ inert_node kind) ∧
  (inert_node kind → conflicts_with s s' = false) ∧
  (∀ x, kind = PStore x → kind' = PLoad x ∨ kind' = PStore x → conflicts_with s s' = true).
Proof.
  intros Hs Hs'. pose proof (node_pure _ _ _ _ Hs) as Hp. pose proof (node_actor _ _ _ _ Hs) as Ha.
  pose proof (node_actor _ _ _ _ Hs') as Ha'. split_and!; [by apply (opaque_writes validate_descriptor id)| |done| |done| |].
  - intros Ho Ho'. destruct (opaque_writes _ _ _ _ Hs Ho) as [Hw _]. destruct (opaque_writes _ _ _ _ Hs' Ho') as [Hw' _].
    apply conflicts_cases. right; right; left. unfold ambient, touches_host, accesses.
    split; [set_solver|]. exists HostWorld. split; [set_solver|done].
  - intros [a Hk] E. apply conflicts_cases. left. unfold same_actor. rewrite Ha, Ha', <-E, Hk. by apply bool_decide_eq_true.
  - intros Hi%Hp%verified_pure_spec. subst s. apply not_true_iff_false. rewrite conflicts_cases.
    unfold same_actor, share_written_cell, ambient, touches_host, accesses. simpl. set_solver.
  - intros x -> Hk. apply conflicts_cases. right; left. exists (ScopeBinding x), (ScopeBinding x). split; [done|].
    left. injection Hs as <-. unfold accesses. destruct Hk as [-> | ->]; injection Hs' as <-; simpl; set_solver.
Qed.

Lemma plan_node_effects_witness :
  match effect_summary_for_plan_node (λ _ _, true) 0 (PStore (lit "x")),
        effect_summary_for_plan_node (λ _ _, true) 1 (PLoad (lit "x")) with
  | inr s, inr s' => conflicts_with s s' = true
  | _, _ => False
  end.
Proof.
  destruct (effect_summary_for_plan_node (λ _ _, true) 0 (PStore (lit "x"))) as [|s] eqn:Hs; [discriminate|].
  destruct (effect_summary_for_plan_node (λ _ _, true) 1 (PLoad (lit "x"))) as [|s'] eqn:Hs'; [discriminate|].
  destruct (plan_node_effects (λ _ _, true) 0 1 _ _ s s' Hs Hs') as (_ & _ & _ & _ & _ & _ & H).
  apply (H (lit "x")); [reflexivity|left; reflexivity].
Defined.
