(* ===== verification/DispatchModel.v ===== *)
(** * Dispatch classification

    [crates/ostadix-api/src/dispatch_model.rs]: which adapter an operation
    describes, when a fresh hosted block belongs to an explicit autonomous group,
    which renderers can be prepared from source alone, and the hard effect predicate
    that a local worker relies on.  A slice index out of range is a [Panic]; the two
    loops that climb the structural parents keep the set of visited nodes and run on
    fuel, which [DispatchTheorems] shows to be enough. *)

From S2P Require Import Prelude.
From S2P Require Import Environment.
From S2P Require Import BackendCatalog.
From S2P Require Import Ir.
From S2P Require Import ExecutionPlan.
From S2P Require Import Effects.
From stdpp Require Import options.

#[local] Open Scope nat_scope.

Inductive DispatchAdapterV1 : Type :=
| CoordinatorV1
| OScopeLoadV1
| TrustedInlineRendererV1
| AutonomousEphemeralShimV1
| NativeI64V1.

Definition adapter_name (a : DispatchAdapterV1) : str :=
  match a with
  | NativeI64V1 => lit "ocore-native-i64/v1"
  | CoordinatorV1 => lit "coordinator/v1"
  | OScopeLoadV1 => lit "o-scope-load/v1"
  | TrustedInlineRendererV1 => lit "trusted-inline-renderer/v1"
  | AutonomousEphemeralShimV1 => lit "autonomous-ephemeral-shim/v1"
  end.

Definition is_local_worker (a : DispatchAdapterV1) : bool :=
  match a with CoordinatorV1 => false | _ => true end.

Inductive TaskKind : Type :=
| NativeI64
| Renderer (renderer : SpliceRenderer) (canonical : str)
| LoadTask (name : str)
| EphemeralShim (language : str) (renderer : SpliceRenderer).

(** [TaskKind::adapter]. *)
Definition task_adapter (k : TaskKind) : DispatchAdapterV1 :=
  match k with
  | NativeI64 => NativeI64V1
  | Renderer _ _ => TrustedInlineRendererV1
  | LoadTask _ => OScopeLoadV1
  | EphemeralShim _ _ => AutonomousEphemeralShimV1
  end.

(** ** Climbing the structural parents *)

Definition structural_parents (p : ExecutionPlan) (index : option ExecutionPlanIndex) (node : PlanNodeId) :
    presult (list PlanNodeId) :=
  obind (match index with None => Ok (edges p) | Some x => index_outgoing x node end) (λ es,
  Ok (edge_to <$> filter (λ e, edge_kind e = Structural ∧ edge_from e = node) es)).

#[global] Arguments structural_parents : simpl never.

(** The kind of [plan.nodes[id]]. *)
Definition kind_at (p : ExecutionPlan) (id : PlanNodeId) : presult PlanNodeKind :=
  match plan_nodes p !! id with Some n => Ok (node_kind n) | None => Panic end.

(** A fresh block without attributes that hosts or renders its members. *)
Definition transparent_exec (k : PlanNodeKind) : bool :=
  match k with
  | PExec _ env_id attr backend =>
      is_fresh (from_encoded env_id) && bool_decide (attr = None)
      && (bool_decide (execution backend = Shim)
          || (pure backend && bool_decide (execution backend = InlineValue)))
  | _ => false
  end.

(** The first loop of [autonomous_member_with_index]: up to the enclosing group. *)
Fixpoint member_loop (fuel : nat) (p : ExecutionPlan) (index : option ExecutionPlanIndex)
    (visited : gset nat) (current : PlanNodeId) : presult (option (PlanNodeId * PlanNodeId)) :=
  match fuel with
  | O => NoFuel
  | S fuel =>
      if bool_decide (current ∈ visited) then Ok None
      else obind (structural_parents p index current) (λ parents,
        match parents with
        | [parent] =>
            obind (kind_at p parent) (λ kind,
              match kind with
              | PGroup _ _ => Ok (Some (parent, current))
              | PStore _ => member_loop fuel p index ({[ current ]} ∪ visited) parent
              | PExec _ _ _ _ =>
                  if transparent_exec kind then member_loop fuel p index ({[ current ]} ∪ visited) parent
                  else Ok None
              | _ => Ok None
              end)
        | _ => Ok None
        end)
  end.

(** [nearest_policy_schedule_is_autonomous]. *)
Fixpoint policy_loop (fuel : nat) (p : ExecutionPlan) (index : option ExecutionPlanIndex)
    (visited : gset nat) (current : PlanNodeId) : presult bool :=
  match fuel with
  | O => NoFuel
  | S fuel =>
      if bool_decide (current ∈ visited) then Ok false
      else obind (structural_parents p index current) (λ parents,
        match parents with
        | [parent] =>
            obind (kind_at p parent) (λ kind,
              match kind with
              | PSchedule _ SAutonomous _ => Ok true
              | PSchedule _ SLazy _ => Ok false
              | PExec _ _ _ _ =>
                  if transparent_exec kind then policy_loop fuel p index ({[ current ]} ∪ visited) parent
                  else Ok false
              | _ => policy_loop fuel p index ({[ current ]} ∪ visited) parent
              end)
        | _ => Ok false
        end)
  end.

(** Every turn visits another node: the start and the nodes of the plan. *)
Definition climb_fuel (p : ExecutionPlan) : nat := S (S (length (plan_nodes p))).

Definition nearest_policy_schedule_is_autonomous (p : ExecutionPlan) (index : option ExecutionPlanIndex)
    (node : PlanNodeId) : presult bool :=
  policy_loop (climb_fuel p) p index ∅ node.

Definition autonomous_member_with_index (p : ExecutionPlan) (index : option ExecutionPlanIndex)
    (node : PlanNodeId) : presult (option (PlanNodeId * PlanNodeId)) :=
  obind (member_loop (climb_fuel p) p index ∅ node) (λ found,
    match found with
    | None => Ok None
    | Some (group, member) =>
        obind (nearest_policy_schedule_is_autonomous p index group) (λ autonomous,
        Ok (if autonomous then Some (group, member) else None))
    end).

Definition autonomous_member (p : ExecutionPlan) := autonomous_member_with_index p None.
Definition autonomous_member_indexed (p : ExecutionPlan) (x : ExecutionPlanIndex) :=
  autonomous_member_with_index p (Some x).

Definition autonomous_ephemeral_group_with_index (p : ExecutionPlan) (index : option ExecutionPlanIndex)
    (node : PlanNodeId) (oir : OIr) : presult (option PlanNodeId) :=
  match oir with
  | Exec _ env_id attr backend _ =>
      if negb (is_fresh (from_encoded env_id)) || negb (bool_decide (attr = None))
         || negb (bool_decide (execution backend = Shim))
      then Ok None
      else obind (autonomous_member_with_index p index node) (λ found, Ok (fst <$> found))
  | _ => Ok None
  end.

Definition autonomous_ephemeral_group (p : ExecutionPlan) := autonomous_ephemeral_group_with_index p None.
Definition autonomous_ephemeral_group_indexed (p : ExecutionPlan) (x : ExecutionPlanIndex) :=
  autonomous_ephemeral_group_with_index p (Some x).

(** ** Renderers *)

Fixpoint renderer_input_statically_preparable (input : OIr) : bool :=
  match input with
  | Text _ => true
  | Store _ expr => renderer_input_statically_preparable expr
  | Exec _ _ attr backend body =>
      bool_decide (attr = None) && pure backend && bool_decide (execution backend = InlineValue)
      && bool_decide (canonical backend ∈ TRUSTED_INLINE) && forallb renderer_input_statically_preparable body
  | Load _ | Invoke _ _ _ | NativeLeaf _ _ _ _ _ => false
  end.

Definition renderer_inputs_statically_preparable (oir : OIr) : bool :=
  match oir with
  | Exec _ _ attr backend body =>
      bool_decide (attr = None) && pure backend && bool_decide (execution backend = InlineValue)
      && bool_decide (canonical backend ∈ TRUSTED_INLINE) && forallb renderer_input_statically_preparable body
  | _ => false
  end.

(** ** Classification *)

Section Dispatch.
Context `{DG : !Digests}.

Definition native_adapter_matches (p : ExecutionPlan) (id : PlanNodeId) (oir : OIr) : bool :=
  match node_kind <$> plan_nodes p !! id, native_leaf_source_descriptor oir with
  | Some (PNativeI64 (Some expected) _), Some actual => bool_decide (expected = actual)
  | _, _ => false
  end.

Definition classify (p : ExecutionPlan) (oir : OIr) (id : PlanNodeId) : presult (option TaskKind) :=
  if native_adapter_matches p id oir then Ok (Some NativeI64)
  else match oir with
  | Load name => Ok (Some (LoadTask name))
  | Exec _ _ attr backend _ =>
      if bool_decide (attr = None) && pure backend && bool_decide (execution backend = InlineValue)
         && renderer_inputs_statically_preparable oir
      then Ok (if bool_decide (canonical backend ∈ TRUSTED_INLINE)
               then Some (Renderer (renderer backend) (canonical backend)) else None)
      else obind (autonomous_ephemeral_group p id oir) (λ group,
           Ok (match group with
               | Some _ => Some (EphemeralShim (canonical backend) (renderer backend))
               | None => None
               end))
  | _ => Ok None
  end.

Definition adapter_matches (adapter : DispatchAdapterV1) (p : ExecutionPlan) (id : PlanNodeId) (oir : OIr) :
    presult bool :=
  match adapter with
  | NativeI64V1 => Ok (native_adapter_matches p id oir)
  | OScopeLoadV1 => Ok (match oir with Load _ => true | _ => false end)
  | TrustedInlineRendererV1 => Ok (renderer_inputs_statically_preparable oir)
  | AutonomousEphemeralShimV1 =>
      obind (autonomous_ephemeral_group p id oir) (λ group, Ok (bool_decide (is_Some group)))
  | CoordinatorV1 => Ok false
  end.
End Dispatch.

Definition is_scope_binding (k : ResourceKey) : bool := match k with ScopeBinding _ => true | _ => false end.

Definition effect_contract_worker_safe (summary : EffectSummary) (oir : OIr) : bool :=
  match oir with
  | NativeLeaf _ _ _ _ _ =>
      bool_decide (confidence summary = Verified) && deterministic summary
      && bool_decide (fallibility summary = MayFail) && negb (unknown summary)
      && bool_decide (actor_state summary = None) && bool_decide (reads summary = ∅)
      && bool_decide (writes summary = ∅) && negb (network summary) && negb (spawn summary) && negb (clock summary)
  | Load _ =>
      bool_decide (confidence summary = Verified) && deterministic summary
      && bool_decide (fallibility summary = MayFail) && negb (unknown summary)
      && bool_decide (actor_state summary = None) && bool_decide (writes summary = ∅)
      && forallb is_scope_binding (elements (reads summary))
      && negb (network summary) && negb (spawn summary) && negb (clock summary)
  | Exec _ env_id _ backend _ =>
      if is_fresh (from_encoded env_id) && bool_decide (execution backend = Shim)
      then unknown summary && bool_decide (fallibility summary = MayFail) && bool_decide (actor_state summary = None)
      else is_verified_pure_infallible summary
  | _ => is_verified_pure_infallible summary
  end.
