(* ===== verification/Topological.v ===== *)
(** * Topological order

    Correctness of [ExecutionPlan::topological_order], Kahn's algorithm with the
    smallest ready node first, for every graph whose edges are in range. *)

From S2P Require Import Prelude.
From S2P Require Import ExecutionPlan.
From stdpp Require Import options.

#[local] Open Scope nat_scope.

(** ** Vectors as functions on indices *)

Definition vec {A} (n : nat) (f : nat → A) : list A := f <$> seq 0 n.

Lemma vec_length {A} n (f : nat → A) : length (vec n f) = n.
Proof. unfold vec. by rewrite length_fmap, length_seq. Qed.

Lemma vec_lookup {A} n (f : nat → A) i : i < n → vec n f !! i = Some (f i).
Proof. intros Hi. unfold vec. rewrite list_lookup_fmap, lookup_seq_lt by done. done. Qed.

Lemma vec_lookup_None {A} n (f : nat → A) i : ¬ i < n → vec n f !! i = None.
Proof. intros Hi. apply lookup_ge_None_2. rewrite vec_length. lia. Qed.

Lemma vec_ext {A} n (f g : nat → A) : (∀ i, i < n → f i = g i) → vec n f = vec n g.
Proof.
  intros H. apply list_eq. intros i. destruct (decide (i < n)).
  - rewrite !vec_lookup by done. f_equal. auto.
  - by rewrite !vec_lookup_None.
Qed.

Lemma vec_insert {A} n (f : nat → A) i x :
  i < n → <[i := x]> (vec n f) = vec n (λ j, if decide (j = i) then x else f j).
Proof.
  intros Hi. apply list_eq. intros j. destruct (decide (j < n)).
  - rewrite vec_lookup by done. case_decide as E; subst.
    + apply list_lookup_insert_eq. by rewrite vec_length.
    + rewrite list_lookup_insert_ne by done. by apply vec_lookup.
  - rewrite vec_lookup_None by done. apply lookup_ge_None_2. rewrite length_insert, vec_length. lia.
Qed.

Lemma vec_replicate {A} n (x : A) : replicate n x = vec n (λ _, x).
Proof.
  apply list_eq. intros i. destruct (decide (i < n)).
  - rewrite vec_lookup by done. by apply lookup_replicate_2.
  - rewrite vec_lookup_None by done. apply lookup_ge_None_2. rewrite length_replicate. lia.
Qed.

(** ** Graphs *)

Definition in_bounds (n : nat) (es : list PlanEdge) : Prop :=
  Forall (λ e, edge_from e < n ∧ edge_to e < n) es.

(** A graph is acyclic when its nodes can be ranked along the edges. *)
Definition acyclic (es : list PlanEdge) : Prop :=
  ∃ rank : nat → nat, Forall (λ e, rank (edge_from e) < rank (edge_to e)) es.

Definition succs_of (es : list PlanEdge) (u : nat) : list nat :=
  edge_to <$> filter (λ e, edge_from e = u) es.

(** Occurrences of a node in a list. *)
Definition occurs (v : nat) (l : list nat) : nat := length (filter (λ x, x = v) l).

(** Edges into [v] from nodes that are not scheduled yet. *)
Definition waiting (es : list PlanEdge) (order : list nat) (v : nat) : nat :=
  length (filter (λ e, edge_to e = v ∧ edge_from e ∉ order) es).

(** Every prefix of the order makes its next node ready, and no smaller node. *)
Definition greedy (n : nat) (es : list PlanEdge) (order : list nat) : Prop :=
  ∀ l1 v l2, order = l1 ++ v :: l2 →
    (∀ e, e ∈ es → edge_to e = v → edge_from e ∈ l1) ∧
    (∀ w, w < v → w ∉ l1 → ∃ e, e ∈ es ∧ edge_to e = w ∧ edge_from e ∉ l1).

Lemma count_edges_vec n es f g :
  in_bounds n es →
  count_edges es (vec n f) (vec n g) =
    Ok (vec n (λ v, f v + occurs v (edge_to <$> es)), vec n (λ u, g u ++ succs_of es u)).
Proof.
  revert f g. induction es as [|e es IH]; intros f g Hb; simpl.
  { do 2 f_equal; apply vec_ext; intros i _; [unfold occurs; simpl; lia|by rewrite app_nil_r]. }
  apply Forall_cons in Hb as [[Hfrom Hto] Hb]. rewrite !vec_lookup, !vec_insert, IH by done.
  do 2 f_equal; apply vec_ext; intros i _; unfold occurs, succs_of.
  - rewrite filter_cons. repeat case_decide; subst; simpl; try done; lia.
  - rewrite filter_cons. repeat case_decide; subst; simpl; try done. by rewrite <-app_assoc.
Qed.

Lemma occurs_cons v x l : occurs v (x :: l) = (if decide (x = v) then 1 else 0) + occurs v l.
Proof. unfold occurs. rewrite filter_cons. by case_decide. Qed.

Lemma occurs_pos v l : 0 < occurs v l ↔ v ∈ l.
Proof.
  induction l as [|x l IH].
  - unfold occurs; simpl. split; [lia|]. by intros ?%elem_of_nil.
  - rewrite occurs_cons, elem_of_cons. case_decide; subst; [split; [by left|lia]|].
    simpl. rewrite IH. split; [by right|]. intros [->|?]; done.
Qed.

(** ** The sorted set of ready nodes *)

Lemma elem_of_btree_insert x y l : x ∈ btree_insert y l ↔ x = y ∨ x ∈ l.
Proof.
  induction l as [|z l IH]; simpl; [by rewrite list_elem_of_singleton, elem_of_nil; tauto|].
  repeat case_decide; subst; rewrite ?elem_of_cons, ?IH; tauto.
Qed.

Lemma btree_insert_sorted y l : StronglySorted lt l → StronglySorted lt (btree_insert y l).
Proof.
  induction 1 as [|z l Hs IH Hz]; simpl; [repeat constructor|].
  repeat case_decide; subst.
  - constructor; [by constructor|]. constructor; [done|].
    eapply Forall_impl; [exact Hz|]. simpl. lia.
  - by constructor.
  - constructor; [done|]. apply Forall_forall. intros x. rewrite elem_of_btree_insert.
    intros [->|Hx]; [lia|]. rewrite Forall_forall in Hz. auto.
Qed.

Lemma relax_vec n succs f ready :
  Forall (λ s, s < n ∧ occurs s succs ≤ f s) succs → StronglySorted lt ready →
  ∃ ready', relax succs (vec n f) ready = Ok (vec n (λ v, f v - occurs v succs), ready') ∧
    StronglySorted lt ready' ∧
    ∀ x, x ∈ ready' ↔ x ∈ ready ∨ (x ∈ succs ∧ f x = occurs x succs).
Proof.
  revert f ready. induction succs as [|s succs IH]; intros f ready Hall Hs; simpl.
  { exists ready. split_and!; [|done|].
    - do 2 f_equal. apply vec_ext. intros i _. unfold occurs; simpl; lia.
    - intros x. rewrite elem_of_nil. tauto. }
  pose proof Hall as Hall0. apply Forall_cons in Hall as [[Hn Hf] Hall].
  rewrite occurs_cons in Hf. rewrite decide_True in Hf by done.
  rewrite vec_lookup by done. destruct (f s) as [|d] eqn:Hfs; [lia|]. rewrite vec_insert by done.
  set (f' := λ j, if decide (j = s) then d else f j).
  destruct (IH f' (if bool_decide (d = 0) then btree_insert s ready else ready)) as (ready' & -> & Hs' & Hr').
  { apply Forall_forall. intros x Hx. rewrite Forall_forall in Hall. destruct (Hall x Hx) as [? Hle].
    split; [done|]. rewrite occurs_cons in Hle. unfold f'.
    repeat case_decide; subst; try done; lia. }
  { case_bool_decide; [by apply btree_insert_sorted|done]. }
  exists ready'. split_and!; [|done|].
  - do 2 f_equal. apply vec_ext. intros i _. unfold f'. rewrite occurs_cons.
    repeat case_decide; subst; try done; lia.
  - intros x. rewrite Hr', elem_of_cons. unfold f'. rewrite occurs_cons.
    pose proof (occurs_pos x succs) as Hpos. destruct (decide (x = s)) as [->|Hne].
    + rewrite decide_True by done. rewrite Hfs. case_bool_decide as Hd; rewrite ?elem_of_btree_insert.
      * split; [|tauto]. intros _. right. split; [by left|lia].
      * split; [intros [?|[??]]; [by left|right; split; [by left|lia]]|].
        intros [?|[_ ?]]; [by left|]. right. split; [apply Hpos; lia|lia].
    + rewrite decide_False by done. case_bool_decide; rewrite ?elem_of_btree_insert; tauto.
Qed.

(** ** The loop invariant *)

Section Kahn.
Context (n : nat) (es : list PlanEdge) (Hb : in_bounds n es).
#[local] Set Default Proof Using "All".

Record kahn_inv (order ready : list nat) : Prop := {
  inv_nodup : NoDup order;
  inv_range : Forall (λ x, x < n) order;
  inv_sorted : StronglySorted lt ready;
  inv_ready : ∀ x, x ∈ ready ↔ x < n ∧ x ∉ order ∧ waiting es order x = 0;
  inv_greedy : greedy n es order;
}.

Lemma waiting_zero order v :
  waiting es order v = 0 ↔ ∀ e, e ∈ es → edge_to e = v → edge_from e ∈ order.
Proof.
  unfold waiting. rewrite length_zero_iff_nil. split.
  - intros Hnil e He Hv. destruct (decide (edge_from e ∈ order)) as [|Hn]; [done|]. exfalso.
    assert (e ∈ filter (λ e, edge_to e = v ∧ edge_from e ∉ order) es) as Hin
      by (apply list_elem_of_filter; auto).
    rewrite Hnil in Hin. by apply elem_of_nil in Hin.
  - intros Hall. destruct (filter _ es) as [|e l] eqn:E; [done|]. exfalso.
    assert (He : e ∈ filter (λ e, edge_to e = v ∧ edge_from e ∉ order) es) by (rewrite E; apply list_elem_of_here).
    apply list_elem_of_filter in He as [[Hv Hn] He]. eauto.
Qed.

Lemma waiting_pos order v :
  waiting es order v ≠ 0 → ∃ e, e ∈ es ∧ edge_to e = v ∧ edge_from e ∉ order.
Proof.
  unfold waiting. destruct (filter _ es) as [|e l] eqn:E; simpl; [lia|]. intros _.
  assert (He : e ∈ filter (λ e, edge_to e = v ∧ edge_from e ∉ order) es) by (rewrite E; apply list_elem_of_here).
  apply list_elem_of_filter in He. exists e. tauto.
Qed.

(** Scheduling [id] removes exactly its edges from the count. *)
Lemma waiting_snoc order id v :
  id ∉ order → waiting es order v = waiting es (order ++ [id]) v + occurs v (succs_of es id).
Proof.
  intros Hid. unfold waiting, occurs, succs_of. clear Hb.
  induction es as [|e l IH]; [done|]. rewrite !filter_cons.
  destruct (decide (edge_from e = id)) as [Hf|Hf].
  - rewrite fmap_cons, filter_cons.
    rewrite (decide_False (P := edge_to e = v ∧ edge_from e ∉ order ++ [id])).
    2:{ rewrite elem_of_app, list_elem_of_singleton. tauto. }
    subst id. repeat case_decide; simpl; try tauto; lia.
  - assert (Hiff : edge_from e ∈ order ++ [id] ↔ edge_from e ∈ order)
      by (rewrite elem_of_app, list_elem_of_singleton; tauto).
    repeat case_decide; simpl; try tauto; lia.
Qed.

Lemma waiting_mono order id v : waiting es (order ++ [id]) v ≤ waiting es order v.
Proof.
  destruct (decide (id ∈ order)) as [Hin|Hni].
  - unfold waiting. erewrite (list_filter_iff _ _ es); [done|]. intros e. simpl.
    rewrite elem_of_app, list_elem_of_singleton. naive_solver.
  - rewrite (waiting_snoc order id v Hni). lia.
Qed.

Lemma succs_of_spec u v : v ∈ succs_of es u ↔ ∃ e, e ∈ es ∧ edge_from e = u ∧ edge_to e = v.
Proof.
  unfold succs_of. rewrite list_elem_of_fmap. setoid_rewrite list_elem_of_filter. naive_solver.
Qed.

(** The scheduled nodes are closed under predecessors. *)
Lemma greedy_closed order e :
  greedy n es order → e ∈ es → edge_to e ∈ order → edge_from e ∈ order.
Proof.
  intros Hg He (l1 & l2 & Heq)%list_elem_of_split. destruct (Hg _ _ _ Heq) as [Hpre _].
  rewrite Heq, elem_of_app. left. by apply (Hpre e).
Qed.

Lemma greedy_snoc order id ready :
  kahn_inv order (id :: ready) → greedy n es (order ++ [id]).
Proof.
  intros [_ Hrange Hsort Hready Hg] l1 v l2 Heq.
  assert (Hid : id ∈ id :: ready) by apply list_elem_of_here.
  apply Hready in Hid as (Hidn & Hidni & Hw).
  destruct l2 as [|y l2 _] using rev_ind.
  - apply app_inj_2 in Heq as [<- [= <-]]; [|done]. split.
    + intros e He Hto. apply waiting_zero with (e := e) in Hw; done.
    + intros w Hlt Hni. apply waiting_pos. intros Hz.
      assert (Hin : w ∈ id :: ready) by (apply Hready; split_and!; [lia|done|done]).
      inversion Hsort as [|? ? _ Hall]; subst. apply elem_of_cons in Hin as [->|Hin]; [lia|].
      rewrite Forall_forall in Hall. apply Hall in Hin. lia.
  - rewrite app_comm_cons, app_assoc in Heq. apply app_inj_2 in Heq as [Heq _]; [|done].
    by apply (Hg l1 v l2).
Qed.

Lemma kahn_inv_step order id ready ready' :
  kahn_inv order (id :: ready) → StronglySorted lt ready' →
  (∀ x, x ∈ ready' ↔ x ∈ ready ∨ x ∈ succs_of es id ∧ waiting es order x = occurs x (succs_of es id)) →
  kahn_inv (order ++ [id]) ready'.
Proof.
  intros Hinv Hs' Hr'. pose proof (greedy_snoc _ _ _ Hinv) as Hg'.
  destruct Hinv as [Hnd Hrange Hsort Hready Hg].
  assert (Hid : id ∈ id :: ready) by apply list_elem_of_here.
  apply Hready in Hid as (Hidn & Hidni & Hw).
  constructor; [| |done| |done].
  - apply NoDup_app. split_and!; [done| |apply NoDup_singleton].
    by intros x Hx ->%list_elem_of_singleton.
  - apply Forall_app. by repeat constructor.
  - intros x. rewrite Hr', elem_of_app, list_elem_of_singleton.
    pose proof (waiting_snoc order id x Hidni) as Hsnoc.
    assert (Hnext : x ∈ ready ↔ x ≠ id ∧ x ∈ id :: ready).
    { inversion Hsort as [|? ? _ Hall]; subst. rewrite elem_of_cons. split; [|tauto].
      intros Hx. split; [|by right]. intros ->. rewrite Forall_forall in Hall. apply Hall in Hx. lia. }
    rewrite Hnext, Hready. split.
    + intros [(Hne & Hn & Hni & Hz)|[Hin Heq]]; [split_and!; [done|tauto|lia]|].
      apply succs_of_spec in Hin as (e & He & Hfrom & Hto).
      assert (x ∉ order) by (intros Hx; subst x id; by apply (greedy_closed order e) in Hx).
      assert (x ≠ id).
      { intros Hx. rewrite Hx, Hw in Heq. assert (id ∈ succs_of es id) as Hp%occurs_pos; [|lia].
        apply succs_of_spec. exists e. by rewrite Hto. }
      split_and!; [|tauto|lia]. unfold in_bounds in Hb. rewrite Forall_forall in Hb. apply Hb in He. lia.
    + intros (Hn & Hni & Hz). destruct (decide (waiting es order x = 0)); [left; tauto|].
      right. split; [apply occurs_pos; lia|lia].
Qed.

Definition degrees (order : list nat) : list nat := vec n (waiting es order).

Lemma kahn_spec fuel order ready :
  kahn_inv order ready → n ≤ fuel + length order →
  ∃ order', kahn fuel (vec n (succs_of es)) (degrees order) ready order = Ok order' ∧ kahn_inv order' [].
Proof.
  revert order ready. induction fuel as [|fuel IH]; intros order ready Hinv Hf;
    (destruct ready as [|id ready]; [by exists order|]).
  - exfalso. destruct Hinv as [Hnd Hrange _ Hready _].
    assert (Hid : id ∈ id :: ready) by apply list_elem_of_here.
    apply Hready in Hid as (Hidn & Hidni & _).
    assert (Hlen : length (id :: order) ≤ n); [|simpl in Hlen; lia].
    rewrite <-(length_seq n 0). apply submseteq_length, NoDup_submseteq; [by constructor|].
    intros x. rewrite elem_of_cons, elem_of_seq. rewrite Forall_forall in Hrange.
    intros [->|Hx]; [lia|]. apply Hrange in Hx. lia.
  - cbn [kahn]. pose proof Hinv as [Hnd Hrange Hsort Hready Hg].
    assert (Hid : id ∈ id :: ready) by apply list_elem_of_here.
    apply Hready in Hid as (Hidn & Hidni & _). rewrite vec_lookup by done.
    destruct (relax_vec n (succs_of es id) (waiting es order) ready) as (ready' & Hrelax & Hs' & Hr').
    { apply Forall_forall. intros s Hs. rewrite (waiting_snoc order id s Hidni). split; [|lia].
      apply succs_of_spec in Hs as (e & He & _ & <-). unfold in_bounds in Hb.
      rewrite Forall_forall in Hb. by apply Hb in He as [_ ?]. }
    { by inversion Hsort. }
    unfold degrees. rewrite Hrelax. cbn [obind].
    replace (vec n _) with (degrees (order ++ [id])).
    + apply IH; [by eapply kahn_inv_step|]. rewrite length_app. simpl. lia.
    + apply vec_ext. intros i _. rewrite (waiting_snoc order id i Hidni). lia.
Qed.

Lemma kahn_inv_init ready :
  StronglySorted lt ready → (∀ x, x ∈ ready ↔ x < n ∧ waiting es [] x = 0) → kahn_inv [] ready.
Proof.
  intros Hs Hr. constructor; [constructor|constructor|done| |].
  - intros x. rewrite Hr. pose proof (not_elem_of_nil x). tauto.
  - intros l1 v l2 Heq. by apply app_cons_not_nil in Heq.
Qed.

Lemma waiting_nil v : waiting es [] v = occurs v (edge_to <$> es).
Proof.
  unfold waiting, occurs. clear Hb. induction es as [|e l IH]; [done|].
  rewrite fmap_cons, !filter_cons. pose proof (not_elem_of_nil (edge_from e)).
  destruct (decide (edge_to e = v)); [rewrite decide_True by done|rewrite decide_False by tauto];
    cbn [length]; by rewrite IH.
Qed.

(** All nodes are scheduled when the graph can be ranked. *)
Lemma kahn_inv_complete order : acyclic es → kahn_inv order [] → order ≡ₚ seq 0 n.
Proof.
  intros [rank Hrank] [Hnd Hrange _ Hready _]. rewrite Forall_forall in Hrank.
  assert (Hall : ∀ r x, rank x ≤ r → x < n → x ∈ order).
  { induction r as [r IH] using lt_wf_ind. intros x Hr Hx.
    destruct (decide (x ∈ order)) as [|Hni]; [done|]. exfalso.
    destruct (waiting_pos order x) as (e & He & Hto & Hfrom).
    { intros Hz. assert (Hin : x ∈ []) by (apply Hready; auto). by apply elem_of_nil in Hin. }
    pose proof (Hrank e He) as Hlt. rewrite Hto in Hlt. apply Hfrom.
    apply (IH (rank (edge_from e))); [lia|done|]. unfold in_bounds in Hb.
    rewrite Forall_forall in Hb. by apply Hb in He as [? _]. }
  apply NoDup_Permutation; [done|apply NoDup_seq|]. intros x. rewrite elem_of_seq.
  rewrite Forall_forall in Hrange. split; [intros Hx%Hrange; lia|]. intros. eapply Hall; [done|lia].
Qed.
End Kahn.

Lemma zero_degrees_spec (l : list nat) :
  StronglySorted lt (zero_degrees l) ∧ ∀ x, x ∈ zero_degrees l ↔ l !! x = Some 0.
Proof.
  unfold zero_degrees.
  assert (Hgen : ∀ k, let z := fst <$> filter (λ p : nat * nat, p.2 = 0) (imap (λ i d, (k + i, d)) l) in
    StronglySorted lt z ∧ ∀ x, x ∈ z ↔ k ≤ x ∧ l !! (x - k) = Some 0).
  2:{ destruct (Hgen 0) as [Hs Hm]. split; [exact Hs|]. intros x. rewrite Hm, Nat.sub_0_r. split; [tauto|].
      split; [lia|done]. }
  induction l as [|d l IH]; intros k; cbn zeta.
  { split; [constructor|]. intros x. rewrite elem_of_nil. split; [done|]. by intros [_ ?]. }
  rewrite imap_cons, filter_cons. cbn [snd].
  erewrite (imap_ext _ (λ i d, (S k + i, d)) l) by (intros; simpl; f_equal; lia).
  destruct (IH (S k)) as [Hs Hm].
  assert (Hlater : ∀ x, S k ≤ x ∧ l !! (x - S k) = Some 0 ↔ k < x ∧ (d :: l) !! (x - k) = Some 0).
  { intros x. split; intros [Hle Hx]; (split; [lia|]).
    - replace (x - k) with (S (x - S k)) by lia. done.
    - replace (x - k) with (S (x - S k)) in Hx by lia. done. }
  case_decide as Hd; simpl.
  - split.
    + constructor; [done|]. apply Forall_forall. intros x [Hx _]%Hm. lia.
    + intros x. rewrite elem_of_cons, Hm, Hlater. split.
      * intros [->|[? ?]]; [|split; [lia|done]]. split; [lia|]. rewrite Nat.add_0_r, Nat.sub_diag. by subst d.
      * intros [Hle Hx]. destruct (decide (x = k)); [left; lia|right; split; [lia|done]].
  - split; [done|]. intros x. rewrite Hm, Hlater. split; intros [? Hx]; (split; [lia|done]) || (split; [|done]).
    destruct (decide (x = k)) as [->|]; [|lia]. rewrite Nat.sub_diag in Hx. by simplify_eq/=.
Qed.

(** The shape of the result on every graph with edges in range. *)
Lemma topological_order_cases p :
  let n := length (plan_nodes p) in
  in_bounds n (edges p) →
  ∃ order, kahn_inv n (edges p) order [] ∧
    topological_order p = if bool_decide (length order = n) then Ok order else Err CyclicGraph.
Proof.
  intros n Hb. unfold topological_order. rewrite !vec_replicate, count_edges_vec by done. cbn [obind].
  fold n.
  destruct (zero_degrees_spec (vec n (λ v, 0 + occurs v (edge_to <$> edges p)))) as [Hs Hm].
  destruct (kahn_spec n (edges p) Hb n [] (zero_degrees (vec n (λ v, 0 + occurs v (edge_to <$> edges p)))))
    as (order & Hk & Hinv).
  { apply kahn_inv_init; [done|done|]. intros x. rewrite Hm, (waiting_nil n _ Hb). destruct (decide (x < n)).
    - rewrite vec_lookup by done. split; [intros [= ->]; done|]. intros [_ ->]. done.
    - rewrite vec_lookup_None by done. split; [done|]. lia. }
  { simpl. lia. }
  exists order. split; [done|]. unfold degrees in Hk.
  rewrite (vec_ext n (waiting (edges p) []) (λ v, 0 + occurs v (edge_to <$> edges p))) in Hk
    by (intros; apply (waiting_nil n _ Hb)).
  rewrite (vec_ext n (λ u, [] ++ succs_of (edges p) u) (succs_of (edges p))) by done.
  by rewrite Hk.
Qed.

(** Position of a node in an order. *)
Definition pos_in (order : list nat) (x : nat) : nat :=
  default 0 (fst <$> list_find (λ y, y = x) order).

Lemma pos_in_lookup order i x : NoDup order → order !! i = Some x → pos_in order x = i.
Proof.
  intros Hnd Hi. unfold pos_in.
  assert (list_find (λ y, y = x) order = Some (i, x)) as ->; [|done].
  apply list_find_Some. split_and!; [done|done|]. intros k y Hk Hlt ->.
  pose proof (NoDup_lookup _ _ _ _ Hnd Hi Hk). lia.
Qed.

Lemma greedy_pos n es order e :
  greedy n es order → NoDup order → e ∈ es → edge_to e ∈ order →
  pos_in order (edge_from e) < pos_in order (edge_to e).
Proof.
  intros Hg Hnd He (l1 & l2 & Heq)%list_elem_of_split.
  destruct (Hg _ _ _ Heq) as [Hpre _]. specialize (Hpre e He eq_refl).
  apply list_elem_of_lookup in Hpre as [i Hi].
  rewrite (pos_in_lookup order i (edge_from e)), (pos_in_lookup order (length l1) (edge_to e)); try done.
  - by apply lookup_lt_Some in Hi.
  - rewrite Heq. apply lookup_app_at.
  - rewrite Heq. by apply lookup_app_l_Some.
Qed.

Lemma greedy_ranks n es order :
  greedy n es order → (∀ e, e ∈ es → edge_to e ∈ order) → NoDup order → acyclic es.
Proof.
  intros Hg Hin Hnd. exists (pos_in order). apply Forall_forall. intros e He.
  apply (greedy_pos n es); auto.
Qed.

Lemma order_sorted order : NoDup order → StronglySorted (λ x y, pos_in order x < pos_in order y) order.
Proof.
  intros Hnd.
  assert (Hgen : ∀ l1 l2, order = l1 ++ l2 → StronglySorted (λ x y, pos_in order x < pos_in order y) l2).
  { intros l1 l2. revert l1. induction l2 as [|x l2 IH]; intros l1 Heq; [constructor|]. constructor.
    - apply (IH (l1 ++ [x])). by rewrite <-app_assoc.
    - apply Forall_forall. intros y [j Hj]%list_elem_of_lookup.
      rewrite (pos_in_lookup order (length l1) x), (pos_in_lookup order (length l1 + S j) y); try done.
      + lia.
      + rewrite Heq, lookup_app_r by lia. by replace (length l1 + S j - length l1) with (S j) by lia.
      + rewrite Heq. apply lookup_app_at. }
  by apply (Hgen []).
Qed.

Lemma StronglySorted_filter {A} (R : relation A) (P : A → Prop) `{∀ x, Decision (P x)} l :
  StronglySorted R l → StronglySorted R (filter P l).
Proof.
  induction 1 as [|x l Hs IH Hx]; [constructor|]. rewrite filter_cons. case_decide; [|done].
  constructor; [done|]. apply Forall_forall. intros y [_ Hy]%list_elem_of_filter.
  rewrite Forall_forall in Hx. auto.
Qed.

(** A list of nodes that the order visits from left to right is the restriction
    of the order to it. *)
Lemma order_restrict (ids order : list nat) :
  NoDup order → NoDup ids → (∀ x, x ∈ ids → x ∈ order) →
  Sorted (λ x y, pos_in order x < pos_in order y) ids →
  filter (λ x, x ∈ ids) order = ids.
Proof.
  intros Hnd Hndi Hin Hs.
  apply (StronglySorted_unique_strong (λ x y, pos_in order x < pos_in order y)).
  - intros x1 x2 _ _ ? ?. lia.
  - by apply StronglySorted_filter, order_sorted.
  - apply Sorted_StronglySorted; [|done]. intros x y z ? ?. lia.
  - apply NoDup_Permutation; [by apply NoDup_filter|done|]. intros x. rewrite list_elem_of_filter.
    split; [tauto|]. auto.
Qed.

Lemma kahn_inv_all n es order :
  in_bounds n es → kahn_inv n es order [] → length order = n → order ≡ₚ seq 0 n ∧ acyclic es.
Proof.
  intros Hb [Hnd Hrange _ Hready Hg] Hlen.
  assert (Hsub : order ⊆+ seq 0 n).
  { apply NoDup_submseteq; [done|]. intros x Hx. rewrite Forall_forall in Hrange. apply Hrange in Hx.
    apply elem_of_seq. lia. }
  assert (Hp : order ≡ₚ seq 0 n) by (apply submseteq_length_Permutation; [done|rewrite length_seq; lia]).
  split; [done|]. eapply greedy_ranks; [done| |done]. intros e He. rewrite Hp, elem_of_seq.
  unfold in_bounds in Hb. rewrite Forall_forall in Hb. apply Hb in He. lia.
Qed.

Lemma topological_order_Ok p order :
  in_bounds (length (plan_nodes p)) (edges p) → topological_order p = Ok order →
  order ≡ₚ seq 0 (length (plan_nodes p)) ∧ greedy (length (plan_nodes p)) (edges p) order.
Proof.
  intros Hb Heq. destruct (topological_order_cases p Hb) as (order' & Hinv & Htopo).
  rewrite Htopo in Heq. case_bool_decide as Hlen; [|done]. simplify_eq.
  split; [by eapply kahn_inv_all|by destruct Hinv].
Qed.

Lemma topological_order_acyclic p :
  in_bounds (length (plan_nodes p)) (edges p) → acyclic (edges p) →
  ∃ order, topological_order p = Ok order.
Proof.
  intros Hb Hac. destruct (topological_order_cases p Hb) as (order & Hinv & ->).
  apply kahn_inv_complete in Hinv; [|done|done]. exists order.
  rewrite bool_decide_eq_true_2; [done|]. by rewrite Hinv, length_seq.
Qed.

(** C25. Kahn's loop is a correct and deterministic topological sort.  On every
    graph whose edges are in range it never panics and never needs more rounds
    than there are nodes; it succeeds exactly on the acyclic graphs; and the order
    it returns lists every node once, each node after all its predecessors, and at
    every position the smallest identifier among the nodes that are ready. *)
Theorem topological_order_correct (p : ExecutionPlan) :
  let n := length (plan_nodes p) in
  in_bounds n (edges p) →
  ((∃ order, topological_order p = Ok order) ↔ acyclic (edges p)) ∧
  (topological_order p = Err CyclicGraph ↔ ¬ acyclic (edges p)) ∧
  ∀ order, topological_order p = Ok order → order ≡ₚ seq 0 n ∧ greedy n (edges p) order.
Proof.
  intros n Hb.
  assert (Hok : (∃ order, topological_order p = Ok order) ↔ acyclic (edges p)).
  { split; [|by apply topological_order_acyclic]. intros [order Heq].
    destruct (topological_order_cases p Hb) as (order' & Hinv & Htopo).
    rewrite Htopo in Heq. case_bool_decide as Hlen; [|done]. by eapply kahn_inv_all. }
  split_and!; [done| |by intros; apply topological_order_Ok].
  rewrite <-Hok. destruct (topological_order_cases p Hb) as (order & _ & ->).
  case_bool_decide; split; try done; [|by intros _ [? ?]]. intros Hn. exfalso. eauto.
Qed.

Lemma topological_order_correct_witness :
  let e := λ u v, {| edge_from := u; edge_to := v; edge_kind := Data |} in
  let node := λ i, {| node_id := i; node_kind := PText |} in
  let p := {| roots := [0; 1; 2]; plan_nodes := node <$> [0; 1; 2; 3]; edges := [e 3 0; e 3 1; e 2 1; e 3 1] |} in
  topological_order p = Ok [2; 3; 0; 1] ∧ greedy 4 (edges p) [2; 3; 0; 1].
Proof.
  intros e node p. assert (H : topological_order p = Ok [2; 3; 0; 1]) by (vm_compute; reflexivity).
  split; [exact H|]. apply (topological_order_correct p); [|exact H].
  repeat constructor; simpl; lia.
Defined.
