(* ===== verification/PlanTheorems.v ===== *)
(** * Theorems about execution plans

    What [OIrProgram::plan] builds, for every program: its nodes are the
    executable instructions in preorder, its structural and sequence edges are
    those of the tree, its data edges start at bindings that are complete, hence
    it validates, and the evaluator's schedules follow the source. *)

From S2P Require Import Prelude.
From S2P Require Import Utf8.
From S2P Require Import BackendCatalog.
From S2P Require Import Syntax.
From S2P Require Import Ir.
From S2P Require Import BashScan.
From S2P Require Import ExecutionPlan.
From S2P Require Import Topological.
From stdpp Require Import options.

#[local] Open Scope nat_scope.

(** ** The tree of executable nodes *)

Definition children_of (node : OIr) : list OIr :=
  match node with
  | Text _ | Load _ => []
  | Store _ expr => [expr]
  | Invoke _ _ args | NativeLeaf _ _ _ _ args => args
  | Exec _ _ _ _ body => if is_quote_exec node then [] else body
  end.

(** Number of plan nodes of a subtree. *)
Definition plan_size (node : OIr) : nat := length (flatten_node_for_plan node).

Lemma flatten_children node :
  flatten_node_for_plan node = node :: flatten_nodes_for_plan (children_of node).
Proof.
  destruct node; simpl; try done.
  - unfold flatten_nodes_for_plan. simpl. by rewrite app_nil_r.
  - by destruct (_ && _).
Qed.

Lemma plan_size_pos node : 0 < plan_size node.
Proof. unfold plan_size. rewrite flatten_children. simpl. lia. Qed.

(** Identifiers of consecutive siblings, the first at [k]. *)
Fixpoint child_ids (ns : list OIr) (k : nat) : list nat :=
  match ns with
  | [] => []
  | n :: ns => k :: child_ids ns (k + plan_size n)
  end.

(** The structural and sequence edges of a subtree, in creation order. *)
Definition edge (u v : nat) (kind : PlanEdgeKind) : PlanEdge :=
  {| edge_from := u; edge_to := v; edge_kind := kind |}.

Definition entry_edges (k : nat) (parent prev : option nat) : list PlanEdge :=
  match parent with Some p => [edge k p Structural] | None => [] end ++
  match prev with Some s => [edge s k Sequence] | None => [] end.

Fixpoint tree_edges (node : OIr) (k : nat) (parent prev : option nat) : list PlanEdge :=
  let siblings := fix siblings (ns : list OIr) (k : nat) (parent prev : option nat) : list PlanEdge :=
    match ns with
    | [] => []
    | n :: ns => tree_edges n k parent prev ++ siblings ns (k + plan_size n) parent (Some k)
    end in
  entry_edges k parent prev ++
  match node with
  | Text _ | Load _ => []
  | Store _ expr => tree_edges expr (S k) (Some k) None
  | Invoke _ _ args | NativeLeaf _ _ _ _ args => siblings args (S k) (Some k) None
  | Exec _ _ _ _ body => if is_quote_exec node then [] else siblings body (S k) (Some k) None
  end.

Fixpoint sibling_edges (ns : list OIr) (k : nat) (parent prev : option nat) : list PlanEdge :=
  match ns with
  | [] => []
  | n :: ns => tree_edges n k parent prev ++ sibling_edges ns (k + plan_size n) parent (Some k)
  end.

Lemma tree_edges_children node k parent prev :
  tree_edges node k parent prev =
  entry_edges k parent prev ++ sibling_edges (children_of node) (S k) (Some k) None.
Proof.
  assert (Heq : ∀ ns k parent prev,
    (fix siblings (ns : list OIr) (k : nat) (parent prev : option nat) : list PlanEdge :=
      match ns with
      | [] => []
      | n :: ns => tree_edges n k parent prev ++ siblings ns (k + plan_size n) parent (Some k)
      end) ns k parent prev = sibling_edges ns k parent prev).
  { induction ns as [|n ns IH]; intros; [done|]. cbn [sibling_edges]. by rewrite IH. }
  destruct node; cbn [tree_edges children_of]; rewrite ?Heq; try done.
  - cbn [sibling_edges]. by rewrite app_nil_r.
  - by destruct (is_quote_exec _).
Qed.

(** ** Visible bindings *)

Definition in_scope (stack : list scope) (name : str) (x : nat) : Prop :=
  ∃ sc : scope, sc ∈ stack ∧ sc !! name = Some x.

Lemma in_scope_cons (sc : scope) stack name x :
  in_scope (sc :: stack) name x ↔ sc !! name = Some x ∨ in_scope stack name x.
Proof.
  unfold in_scope. setoid_rewrite elem_of_cons. split.
  - intros (sc' & [->|Hin] & Hx); [by left|]. right. eauto.
  - intros [Hx|(sc' & Hin & Hx)]; eauto.
Qed.

Lemma lookup_scope_in name stack x : lookup_scope name stack = Some x → in_scope stack name x.
Proof.
  induction stack as [|sc stack IH]; simpl; [done|]. rewrite in_scope_cons.
  destruct (sc !! name) eqn:E; intros; simplify_eq; eauto.
Qed.

Lemma visible_bindings_lookup stack name :
  visible_bindings stack !! name = lookup_scope name stack.
Proof.
  unfold visible_bindings.
  assert (Hgen : ∀ (m : scope),
    foldl (λ acc sc, acc ∪ sc) m stack !! name =
    match m !! name with Some x => Some x | None => lookup_scope name stack end).
  { induction stack as [|sc stack IH]; intros m; simpl; [by destruct (m !! name)|].
    rewrite IH, lookup_union. destruct (m !! name), (sc !! name); done. }
  rewrite Hgen, lookup_empty. done.
Qed.

(** The loop over one scope. *)
Lemma scope_step_fold (keep : str → bool) (l : list (list Z * nat)) (seen : names_set) (src : list nat) :
  NoDup (l.*1) →
  let r := foldl (scope_step keep) (seen, src) l in
  (∀ n, n ∈ r.1 ↔ n ∈ seen ∨ n ∈ (l.*1)) ∧
  (∀ y, y ∈ r.2 ↔ y ∈ src ∨ ∃ n, keep n = true ∧ n ∉ seen ∧ (n, y) ∈ l).
Proof.
  revert seen src. induction l as [|[n y] l IH]; intros seen src Hnd; cbn zeta; simpl.
  { split; intros x.
    - pose proof (not_elem_of_nil (A := list Z) x). tauto.
    - split; [by left|]. intros [?|(n & _ & _ & Hin)]; [done|by apply elem_of_nil in Hin]. }
  apply NoDup_cons in Hnd as [Hn Hnd]. case_bool_decide as Hs.
  - destruct (IH seen src Hnd) as [H1 H2]. split.
    + intros m. rewrite H1, elem_of_cons. split; [tauto|]. intros [?|[->|?]]; tauto.
    + intros z. rewrite H2. setoid_rewrite elem_of_cons. split.
      * intros [?|(m & ? & ? & ?)]; [by left|right; exists m; auto].
      * intros [?|(m & ? & ? & [[= -> ->]|?])]; [by left|done|right; exists m; auto].
  - destruct (IH ({[n]} ∪ seen) (if keep n then src ++ [y] else src) Hnd) as [H1 H2]. split.
    + intros m. rewrite H1, elem_of_union, elem_of_singleton, elem_of_cons. tauto.
    + intros z. rewrite H2.
      assert (Hext : (∃ m, keep m = true ∧ m ∉ {[n]} ∪ seen ∧ (m, z) ∈ l) ↔
                     (∃ m, keep m = true ∧ m ∉ seen ∧ (m, z) ∈ l)).
      { split; intros (m & ? & Hm & Hin); exists m; rewrite ?not_elem_of_union, ?not_elem_of_singleton in *;
          split_and!; try tauto. intros ->. apply Hn. by apply (list_elem_of_fmap_2 fst) in Hin. }
      rewrite Hext. setoid_rewrite elem_of_cons.
      destruct (keep n) eqn:Hk; rewrite ?elem_of_app, ?list_elem_of_singleton; split.
      * intros [[?| ->]|(m & ? & ? & ?)]; [by left|right; exists n; auto|right; exists m; auto].
      * intros [?|(m & ? & ? & [[= -> ->]|?])]; [by left; left|by left; right|right; exists m; auto].
      * intros [?|(m & ? & ? & ?)]; [by left|right; exists m; auto].
      * intros [?|(m & ? & ? & [[= -> ->]|?])]; [by left|congruence|right; exists m; auto].
Qed.

Lemma elem_of_map_keys (sc : scope) n : n ∈ (map_to_list sc).*1 ↔ is_Some (sc !! n).
Proof.
  rewrite list_elem_of_fmap. split.
  - intros ([? ?] & -> & Hin). apply elem_of_map_to_list in Hin. simpl. eauto.
  - intros [z Hz]. exists (n, z). by rewrite elem_of_map_to_list.
Qed.

Lemma scope_fold_spec (keep : str → bool) stack (seen : names_set) (src : list nat) y :
  y ∈ (foldl (scope_step keep) (seen, src) (concat (map_to_list <$> stack))).2 ↔
  y ∈ src ∨ ∃ n, keep n = true ∧ n ∉ seen ∧ lookup_scope n stack = Some y.
Proof.
  revert seen src. induction stack as [|sc stack IH]; intros seen src; simpl.
  { split; [by left|]. intros [?|(n & _ & _ & ?)]; done. }
  rewrite foldl_app.
  destruct (scope_step_fold keep (map_to_list sc) seen src (NoDup_fst_map_to_list sc)) as [H1 H2].
  destruct (foldl _ (seen, src) (map_to_list sc)) as [seen' src']. simpl in H1, H2.
  rewrite IH, H2. setoid_rewrite H1. setoid_rewrite elem_of_map_to_list. setoid_rewrite elem_of_map_keys.
  split.
  - intros [[?|(n & ? & ? & Hn)]|(n & ? & Hns & Hl)]; [by left|right..].
    + exists n. by rewrite Hn.
    + exists n. split_and!; [done|tauto|]. destruct (sc !! n) eqn:E; [|done]. exfalso. apply Hns. right. eauto.
  - intros [?|(n & ? & ? & Hn)]; [by left; left|].
    destruct (sc !! n) eqn:E; simplify_eq; [left; right; eauto|right].
    exists n. split_and!; [done| |done]. intros [?|[? ?]]; congruence.
Qed.

(** The loop over the scopes collects the innermost binding of every kept name. *)
Lemma scope_sources_spec keep stack x :
  x ∈ scope_sources keep stack ↔ ∃ name, keep name = true ∧ lookup_scope name stack = Some x.
Proof.
  unfold scope_sources. rewrite scope_fold_spec. split.
  - intros [Hx|(n & ? & _ & ?)]; [by apply elem_of_nil in Hx|eauto].
  - intros (n & ? & ?). right. exists n. split_and!; [done|apply not_elem_of_empty|done].
Qed.

Lemma elem_of_sort_ids x l : x ∈ sort_ids l ↔ x ∈ l.
Proof. unfold sort_ids. by rewrite merge_sort_Permutation. Qed.

Lemma scope_sources_in keep stack x : x ∈ scope_sources keep stack → ∃ name, in_scope stack name x.
Proof. rewrite scope_sources_spec. intros (name & _ & Hl). exists name. by apply lookup_scope_in. Qed.

(** ** The construction, by children *)

Section Construction.
Context `{DG : !Digests, UT : !UnicodeTables}.

Fixpoint add_list (ns : list OIr) (b : PlanBuilder) (stack : list scope) (parent prev : option nat) :
    PlanBuilder * list scope :=
  match ns with
  | [] => (b, stack)
  | n :: ns =>
      let '(b, stack, child) := add_node n b stack parent prev in
      add_list ns b stack parent (Some child)
  end.

Lemma add_node_children node b stack parent prev :
  add_node node b stack parent prev =
    let id := length (b_nodes b) in
    let '(b', stack') := add_list (children_of node)
      (node_reads node id stack (enter_node node parent prev b)) (∅ :: stack) (Some id) None in
    (b', match node with
         | Store name _ => bind_name name id (tail stack')
         | _ => tail stack'
         end, id).
Proof.
  assert (Heq : ∀ id ns b stack prev,
    (fix add_children (ns : list OIr) (b : PlanBuilder) (stack : list scope) (prev : option nat) :=
      match ns with
      | [] => (b, stack)
      | n :: ns =>
          let '(b, stack, child) := add_node n b stack (Some id) prev in
          add_children ns b stack (Some child)
      end) ns b stack prev = add_list ns b stack (Some id) prev).
  { intros id. induction ns as [|n ns IH]; intros; [done|]. cbn [add_list].
    destruct (add_node n _ _ _ _) as [[? ?] ?]. apply IH. }
  destruct node; cbn [add_node children_of]; cbv zeta; rewrite ?Heq; try done.
  - cbn [add_list]. by destruct (add_node node _ _ _ _) as [[? ?] ?].
  - unfold is_quote_exec, is_quote_interface. by destruct (_ && _).
Qed.

(** ** The invariant of the builder

    [fl] is the preorder of the whole program.  Node [x] is complete once
    [fin x] nodes exist; an edge leads from [u] to [v] when [u] is complete
    before [v] starts, or lies inside the subtree of [v]. *)

Context (fl : list OIr).
#[local] Set Default Proof Using "Type".

Definition fin (x : nat) : nat :=
  match fl !! x with Some n => x + plan_size n | None => S x end.

Definition before (u v : nat) : Prop := fin u ≤ v ∨ (v < u ∧ fin u ≤ fin v).

Lemma fin_gt x : x < fin x.
Proof. unfold fin. destruct (fl !! x) as [n|]; [pose proof (plan_size_pos n)|]; lia. Qed.

Definition mk_node (i : nat) (n : OIr) : PlanNode := {| node_id := i; node_kind := plan_kind n |}.

(** [x] is a complete binding of [name] when node [k] starts. *)
Definition bound_before (k : nat) (name : str) (x : nat) : Prop :=
  fin x ≤ k ∧ ∃ expr, fl !! x = Some (Store name expr).

(** A data edge starts at a complete binding; a [Load] reads a binding of its name. *)
Definition data_ok (e : PlanEdge) : Prop :=
  ∃ name, bound_before (edge_to e) name (edge_from e) ∧
          ∀ n, fl !! edge_to e = Some (Load n) → n = name.

Record builder_ok (b : PlanBuilder) : Prop := {
  ok_nodes : b_nodes b = imap mk_node (take (length (b_nodes b)) fl);
  ok_member : ∀ u v kd, (u, v, kd) ∈ edge_membership b ↔ edge u v kd ∈ b_edges b;
  ok_nodup : NoDup (b_edges b);
  ok_edges : Forall (λ e, edge_from e < length (b_nodes b) ∧ edge_to e < length (b_nodes b) ∧
                          before (edge_from e) (edge_to e)) (b_edges b);
  ok_data : ∀ e, e ∈ b_edges b → edge_kind e = Data → data_ok e;
}.

Definition tree_part (b : PlanBuilder) : list PlanEdge := filter (λ e, edge_kind e ≠ Data) (b_edges b).

Lemma add_edge_ok b u v kd :
  builder_ok b → u < length (b_nodes b) → v < length (b_nodes b) → before u v →
  (kd = Data → data_ok (edge u v kd)) →
  builder_ok (add_edge u v kd b) ∧ b_nodes (add_edge u v kd b) = b_nodes b ∧
  (kd = Data → tree_part (add_edge u v kd b) = tree_part b) ∧
  (kd ≠ Data → edge u v kd ∉ b_edges b → tree_part (add_edge u v kd b) = tree_part b ++ [edge u v kd]).
Proof.
  intros [Hn Hm Hnd He Hd] Hu Hv Hb Hdata. unfold add_edge. case_bool_decide as Hin.
  { split_and!; [by constructor|done|done|]. intros _ Hni. by apply Hm in Hin. }
  unfold tree_part. cbn [b_edges b_nodes]. split_and!; [|done| |].
  - constructor; cbn [b_edges b_nodes edge_membership]; [done| | | |].
    + intros u' v' kd'. rewrite elem_of_union, elem_of_singleton, Hm, elem_of_app, list_elem_of_singleton.
      unfold edge. split; (intros [[=]|?] || intros [?|[=]]); subst; auto.
    + apply NoDup_app. split_and!; [done| |apply NoDup_singleton].
      intros e He' ->%list_elem_of_singleton. apply Hin, Hm, He'.
    + apply Forall_app. split; [done|]. by apply Forall_singleton.
    + intros e. rewrite elem_of_app, list_elem_of_singleton. intros [?| ->]; [by apply Hd|exact Hdata].
  - intros ->. rewrite filter_app, filter_cons_False, app_nil_r; [done|]. simpl. tauto.
  - intros Hk _. rewrite filter_app, filter_cons_True; [done|]. done.
Qed.

Lemma push_node_ok b node :
  builder_ok b → fl !! length (b_nodes b) = Some node →
  builder_ok (push_node (mk_node (length (b_nodes b)) node) b).
Proof.
  intros [Hn Hm Hnd He Hd] Hnode. constructor; cbn [push_node b_edges b_nodes edge_membership]; try done.
  - rewrite length_app. cbn [length]. rewrite Nat.add_1_r, (take_S_r _ _ _ Hnode), imap_app.
    f_equal; [done|]. simpl. f_equal. rewrite length_take_le, Nat.add_0_r; [done|].
    apply lookup_lt_Some in Hnode. lia.
  - eapply Forall_impl; [exact He|]. intros e (? & ? & ?). rewrite !length_app.
    split_and!; [lia|lia|done].
Qed.

Lemma enter_node_ok node parent prev b :
  let k := length (b_nodes b) in
  builder_ok b → fl !! k = Some node →
  (∀ p, parent = Some p → p < k ∧ fin k ≤ fin p) → (∀ s, prev = Some s → fin s ≤ k) →
  builder_ok (enter_node node parent prev b) ∧
  length (b_nodes (enter_node node parent prev b)) = S k ∧
  tree_part (enter_node node parent prev b) = tree_part b ++ entry_edges k parent prev.
Proof.
  intros k Hok Hnode Hpar Hprev. unfold enter_node. fold k.
  change ({| node_id := k; node_kind := plan_kind node |}) with (mk_node k node).
  pose proof (push_node_ok b node Hok Hnode) as Hok1. fold k in Hok1.
  set (b1 := push_node (mk_node k node) b) in *.
  assert (Hlen1 : length (b_nodes b1) = S k) by (simpl; rewrite length_app; simpl; lia).
  assert (Hfresh : ∀ e, e ∈ b_edges b1 → edge_from e < k ∧ edge_to e < k).
  { intros e He. destruct Hok as [_ _ _ Hall _]. rewrite Forall_forall in Hall. apply Hall in He. tauto. }
  set (b2 := match parent with Some p => add_edge k p Structural b1 | None => b1 end).
  assert (H2 : builder_ok b2 ∧ length (b_nodes b2) = S k ∧
    tree_part b2 = tree_part b ++ entry_edges k parent None ∧
    ∀ s, edge s k Sequence ∉ b_edges b2).
  { unfold b2. destruct parent as [p|]; simpl.
    - destruct (Hpar p eq_refl) as [Hp Hfin].
      destruct (add_edge_ok b1 k p Structural) as (Hok2 & Hn2 & _ & Ht2); [done|lia|lia|right; lia|done|].
      rewrite Hn2, Ht2; [split_and!; try done|done|intros He; apply Hfresh in He; simpl in He; lia].
      intros s He. unfold add_edge in He. case_bool_decide.
      + apply Hfresh in He. simpl in He. lia.
      + cbn [b_edges] in He. rewrite elem_of_app, list_elem_of_singleton in He.
        destruct He as [He|[=]]. apply Hfresh in He. simpl in He. lia.
    - rewrite app_nil_r. split_and!; try done. intros s He. apply Hfresh in He. simpl in He. lia. }
  destruct H2 as (Hok2 & Hlen2 & Ht2 & Hni). destruct prev as [s|].
  - pose proof (Hprev s eq_refl) as Hs. pose proof (fin_gt s).
    destruct (add_edge_ok b2 s k Sequence) as (Hok3 & Hn3 & _ & Ht3); [done|lia|lia|left; lia|done|].
    rewrite Hn3, Ht3, Ht2 by done. split_and!; [done|done|].
    unfold entry_edges. by rewrite app_nil_r, app_assoc.
  - split_and!; [done|done|]. rewrite Ht2. done.
Qed.

Definition scopes_ok (stack : list scope) (k : nat) : Prop :=
  ∀ name x, in_scope stack name x → bound_before k name x.

(** [source] may be read by node [id]. *)
Definition readable (id source : nat) : Prop := data_ok (edge source id Data).

(** Data edges from complete bindings keep the invariant and the tree. *)
Lemma add_data_edges_ok sources id b :
  builder_ok b → id < length (b_nodes b) → Forall (readable id) sources →
  builder_ok (add_data_edges sources id b) ∧ b_nodes (add_data_edges sources id b) = b_nodes b ∧
  tree_part (add_data_edges sources id b) = tree_part b.
Proof.
  unfold add_data_edges. revert b. induction sources as [|s sources IH]; intros b Hok Hid Hall; simpl; [done|].
  apply Forall_cons in Hall as [Hs Hall]. pose proof (fin_gt s).
  assert (fin s ≤ id) by (by destruct Hs as (name & [Hs _] & _)).
  destruct (add_edge_ok b s id Data) as (Hok' & Hn' & Ht' & _); [done|lia|lia|by left|done|].
  destruct (IH (add_edge s id Data b)) as (? & Hn & Ht); [done|by rewrite Hn'|done|].
  split_and!; [done|by rewrite Hn|rewrite Ht; by apply Ht'].
Qed.

Lemma shim_scope_sources_in stack backend body qr x :
  x ∈ shim_scope_sources stack backend body qr → ∃ name, in_scope stack name x.
Proof.
  unfold shim_scope_sources, visible_scope_sources.
  destruct (_ && _); [destruct (negb _); [by intros ?%elem_of_nil|]|].
  - rewrite elem_of_sort_ids. apply scope_sources_in.
  - destruct (collect_exec_references body no_references) as [refs reflective]. cbv zeta.
    destruct (_ || _); rewrite elem_of_sort_ids; apply scope_sources_in.
Qed.

Lemma record_quote_ok id refs b : builder_ok b → builder_ok (record_quote id refs b).
Proof. intros []. by constructor. Qed.

Lemma node_reads_ok node id stack b :
  builder_ok b → id < length (b_nodes b) → scopes_ok stack id → fl !! id = Some node →
  builder_ok (node_reads node id stack b) ∧ b_nodes (node_reads node id stack b) = b_nodes b ∧
  tree_part (node_reads node id stack b) = tree_part b.
Proof.
  intros Hok Hid Hsc Hnode.
  assert (Hread : ∀ name x, in_scope stack name x → (∀ n, node = Load n → n = name) → readable id x).
  { intros name x Hx Hn. exists name. split; [by apply Hsc|]. simpl. intros n Hl. apply Hn. congruence. }
  assert (Hone : ∀ name b, (∀ n, node = Load n → n = name) → builder_ok b → id < length (b_nodes b) →
    let b' := match lookup_scope name stack with Some s => add_edge s id Data b | None => b end in
    builder_ok b' ∧ b_nodes b' = b_nodes b ∧ tree_part b' = tree_part b).
  { intros name b' Hn Hok' Hid'. destruct (lookup_scope name stack) as [s|] eqn:E; [|done].
    apply lookup_scope_in in E. apply (add_data_edges_ok [s]); [done|done|].
    apply Forall_singleton. by eapply Hread. }
  destruct node as [s|name|name e|f m args|k i p d args|lang env attr backend body]; simpl; try done.
  - apply Hone; [|done|done]. by intros n [= ->].
  - destruct e; try done. case_match; [|done]. split_and!; [by apply record_quote_ok|done|done].
  - case_bool_decide; [|done]. apply add_data_edges_ok; [done|done|]. apply Forall_forall.
    intros x Hx. rewrite elem_of_sort_ids in Hx. apply scope_sources_in in Hx as [name Hx]. by eapply Hread.
  - set (b1 := if bool_decide (execution backend = Shim) then _ else b).
    assert (H1 : builder_ok b1 ∧ b_nodes b1 = b_nodes b ∧ tree_part b1 = tree_part b).
    { unfold b1. case_bool_decide; [|done]. apply add_data_edges_ok; [done|done|]. apply Forall_forall.
      intros x Hx. apply shim_scope_sources_in in Hx as [name Hx]. by eapply Hread. }
    destruct H1 as (Hok1 & Hn1 & Ht1). destruct (attr_capability_binding attr) as [binding|]; [|done].
    destruct (Hone binding b1) as (? & Hn & Ht); [done|done|by rewrite Hn1|].
    split_and!; [done|by rewrite Hn|by rewrite Ht].
Qed.

(** What planning one subtree does to the builder and to the scopes. *)
Definition planned (node : OIr) (b : PlanBuilder) (stack : list scope) (parent prev : option nat)
    (b' : PlanBuilder) (stack' : list scope) : Prop :=
  builder_ok b' ∧ length (b_nodes b') = length (b_nodes b) + plan_size node ∧
  scopes_ok stack' (length (b_nodes b')) ∧ length stack' = length stack ∧
  tree_part b' = tree_part b ++ tree_edges node (length (b_nodes b)) parent prev.

Definition plannable (node : OIr) : Prop := ∀ b stack parent prev rest,
  let k := length (b_nodes b) in
  builder_ok b → drop k fl = flatten_node_for_plan node ++ rest → scopes_ok stack k →
  (∀ p, parent = Some p → p < k ∧ k + plan_size node ≤ fin p) → (∀ s, prev = Some s → fin s ≤ k) →
  let '(b', stack', id) := add_node node b stack parent prev in
  id = k ∧ planned node b stack parent prev b' stack'.

Lemma drop_lookup_head k (node : OIr) l : drop k fl = node :: l → fl !! k = Some node.
Proof. intros H. rewrite <-(Nat.add_0_r k), <-lookup_drop, H. done. Qed.

Lemma flatten_head k node rest :
  drop k fl = flatten_node_for_plan node ++ rest → fl !! k = Some node ∧ fin k = k + plan_size node.
Proof.
  rewrite flatten_children. intros H. assert (Hk : fl !! k = Some node) by by eapply drop_lookup_head.
  split; [done|]. unfold fin. by rewrite Hk.
Qed.

Lemma drop_flatten k (l1 l2 : list OIr) : drop k fl = l1 ++ l2 → drop (k + length l1) fl = l2.
Proof. intros H. rewrite <-drop_drop, H. apply drop_app_length. Qed.

Lemma add_list_ok ns : Forall plannable ns → ∀ b stack p prev rest,
  let k := length (b_nodes b) in
  builder_ok b → drop k fl = flatten_nodes_for_plan ns ++ rest → scopes_ok stack k →
  p < k → k + length (flatten_nodes_for_plan ns) ≤ fin p → (∀ s, prev = Some s → fin s ≤ k) →
  let '(b', stack') := add_list ns b stack (Some p) prev in
  builder_ok b' ∧ length (b_nodes b') = k + length (flatten_nodes_for_plan ns) ∧
  scopes_ok stack' (length (b_nodes b')) ∧ length stack' = length stack ∧
  tree_part b' = tree_part b ++ sibling_edges ns k (Some p) prev.
Proof.
  induction 1 as [|n ns Hn _ IH]; intros b stack p prev rest k Hok Hdrop Hsc Hp Hfin Hprev.
  { cbn. rewrite app_nil_r, Nat.add_0_r. done. }
  unfold flatten_nodes_for_plan in Hdrop, Hfin. simpl in Hdrop, Hfin. rewrite length_app in Hfin.
  fold (flatten_nodes_for_plan ns) in Hdrop, Hfin. fold (plan_size n) in Hfin.
  rewrite <-app_assoc in Hdrop. cbn [add_list].
  specialize (Hn b stack (Some p) prev _ Hok Hdrop Hsc).
  destruct (add_node n b stack (Some p) prev) as [[b1 stack1] id].
  destruct Hn as (-> & Hok1 & Hlen1 & Hsc1 & Hst1 & Ht1); [|done|].
  { intros p' [= <-]. fold k. lia. }
  fold k. specialize (IH b1 stack1 p (Some k) rest). fold k in Hlen1, Ht1. rewrite Hlen1 in IH.
  destruct (flatten_head _ _ _ Hdrop) as [_ Hfink].
  destruct (add_list ns b1 stack1 (Some p) (Some k)) as [b2 stack2].
  destruct IH as (Hok2 & Hlen2 & Hsc2 & Hst2 & Ht2); [done| |by rewrite <-Hlen1|lia|lia| |].
  { by apply drop_flatten in Hdrop. }
  { intros s [= <-]. lia. }
  unfold flatten_nodes_for_plan. simpl. rewrite length_app. fold (flatten_nodes_for_plan ns) (plan_size n).
  split_and!; [done|lia|done|congruence|].
  rewrite Ht2, Ht1, app_assoc. done.
Qed.

Lemma bound_before_mono k k' name x : bound_before k name x → k ≤ k' → bound_before k' name x.
Proof. intros [H ?] ?. split; [lia|done]. Qed.

Lemma scopes_ok_push stack k : scopes_ok stack k → scopes_ok (∅ :: stack) k.
Proof.
  intros H name x. rewrite in_scope_cons. intros [Hn|?]; [|auto]. by rewrite lookup_empty in Hn.
Qed.

Lemma scopes_ok_mono stack k k' : scopes_ok stack k → k ≤ k' → scopes_ok stack k'.
Proof. intros H Hle name x Hx%H. by eapply bound_before_mono. Qed.

Lemma scopes_ok_tail stack k : scopes_ok stack k → scopes_ok (tail stack) k.
Proof.
  intros H name x Hx. apply H. destruct stack; simpl in *; [done|]. rewrite in_scope_cons. by right.
Qed.

Lemma scopes_ok_bind name id stack k :
  scopes_ok stack k → bound_before k name id → scopes_ok (bind_name name id stack) k.
Proof.
  intros H Hid name' x. destruct stack as [|sc stack]; simpl; [apply H|]. rewrite in_scope_cons.
  intros [Hn|?]; [|apply H; rewrite in_scope_cons; by right].
  apply lookup_insert_Some in Hn as [[<- <-]|[_ Hn]]; [done|]. apply H. rewrite in_scope_cons. by left.
Qed.

Lemma children_plannable node : Forall plannable (children_of node) → plannable node.
Proof.
  intros Hch b stack parent prev rest k Hok Hdrop Hsc Hpar Hprev. rewrite add_node_children. cbv zeta. fold k.
  destruct (flatten_head _ _ _ Hdrop) as [Hnode Hfin].
  destruct (enter_node_ok node parent prev b) as (Hok1 & Hlen1 & Ht1); [done|done| |done|].
  { intros p Hp. apply Hpar in Hp. fold k. lia. }
  set (b1 := enter_node node parent prev b) in *. fold k in Hlen1, Ht1.
  destruct (node_reads_ok node k stack b1) as (Hok2 & Hn2 & Ht2); [done|lia|done|done|].
  set (b2 := node_reads node k stack b1) in *. rewrite <-Hn2 in Hlen1.
  pose proof (add_list_ok _ Hch b2 (∅ :: stack) k None rest) as Hlist. cbv zeta in Hlist.
  rewrite Hlen1 in Hlist.
  assert (Hsize : plan_size node = S (length (flatten_nodes_for_plan (children_of node)))).
  { unfold plan_size. by rewrite flatten_children. }
  destruct (add_list (children_of node) b2 (∅ :: stack) (Some k) None) as [b3 stack3].
  destruct Hlist as (Hok3 & Hlen3 & Hsc3 & Hst3 & Ht3); [done| | |lia|lia|done|].
  { rewrite flatten_children in Hdrop. simpl in Hdrop.
    apply (drop_flatten k [node]) in Hdrop. simpl in Hdrop. by rewrite Nat.add_1_r in Hdrop. }
  { apply scopes_ok_push. eapply scopes_ok_mono; [done|lia]. }
  split; [done|]. unfold planned. fold k.
  assert (Hlen3' : length (b_nodes b3) = k + plan_size node) by lia.
  assert (Htail : length (tail stack3) = length stack).
  { simpl in Hst3. destruct stack3; simpl in *; lia. }
  split_and!; [done|done| | |].
  - destruct node; try (by apply scopes_ok_tail). apply scopes_ok_bind; [by apply scopes_ok_tail|].
    split; [lia|eauto].
  - destruct node; try done. rewrite <-Htail. by destruct (tail stack3).
  - rewrite Ht3, Ht2, Ht1, tree_edges_children, app_assoc. done.
Qed.

Lemma all_plannable node : plannable node.
Proof.
  induction node using OIr_ind'; apply children_plannable; simpl;
    [constructor|constructor|by apply Forall_singleton|done|done|].
  destruct (_ && _); [constructor|done].
Qed.

Lemma add_roots_ok ns b stack prev rest :
  let k := length (b_nodes b) in
  builder_ok b → drop k fl = flatten_nodes_for_plan ns ++ rest → scopes_ok stack k →
  (∀ s, prev = Some s → fin s ≤ k) →
  let '(b', rs) := add_roots ns b stack prev in
  builder_ok b' ∧ length (b_nodes b') = k + length (flatten_nodes_for_plan ns) ∧
  rs = child_ids ns k ∧ tree_part b' = tree_part b ++ sibling_edges ns k None prev.
Proof.
  revert b stack prev. induction ns as [|n ns IH]; intros b stack prev k Hok Hdrop Hsc Hprev.
  { cbn. rewrite app_nil_r, Nat.add_0_r. done. }
  unfold flatten_nodes_for_plan in Hdrop. simpl in Hdrop.
  fold (flatten_nodes_for_plan ns) in Hdrop. rewrite <-app_assoc in Hdrop. cbn [add_roots].
  pose proof (all_plannable n b stack None prev _ Hok Hdrop Hsc) as Hn.
  destruct (add_node n b stack None prev) as [[b1 stack1] id].
  destruct Hn as (-> & Hok1 & Hlen1 & Hsc1 & Hst1 & Ht1); [done|done|].
  fold k. fold k in Hlen1, Ht1. specialize (IH b1 stack1 (Some k)). rewrite Hlen1 in IH.
  destruct (flatten_head _ _ _ Hdrop) as [_ Hfink].
  destruct (add_roots ns b1 stack1 (Some k)) as [b2 rs].
  destruct IH as (Hok2 & Hlen2 & -> & Ht2); [done| |by rewrite <-Hlen1| |].
  { by apply drop_flatten in Hdrop. }
  { intros s [= <-]. lia. }
  unfold flatten_nodes_for_plan. simpl. rewrite length_app. fold (flatten_nodes_for_plan ns) (plan_size n).
  split_and!; [done|lia|done|]. rewrite Ht2, Ht1, app_assoc. done.
Qed.
End Construction.

(** ** Edges of the tree *)

(** The edges of a row of siblings: each to the parent, and from its left neighbour. *)
Fixpoint links (parent prev : option nat) (ids : list nat) : list PlanEdge :=
  match ids with
  | [] => []
  | m :: ids => entry_edges m parent prev ++ links parent (Some m) ids
  end.

Lemma flatten_nodes_cons n ns :
  flatten_nodes_for_plan (n :: ns) = flatten_node_for_plan n ++ flatten_nodes_for_plan ns.
Proof. done. Qed.

(** Edges below the nodes of a preorder that starts at index [k]. *)
Definition below (l : list OIr) (k : nat) (e : PlanEdge) : Prop :=
  ∃ i nd, l !! i = Some nd ∧ e ∈ links (Some (k + i)) None (child_ids (children_of nd) (S (k + i))).

Lemma below_cons n l k e :
  below (n :: l) k e ↔ e ∈ links (Some k) None (child_ids (children_of n) (S k)) ∨ below l (S k) e.
Proof.
  unfold below. split.
  - intros ([|i] & nd & Hl & He); simpl in Hl.
    + simplify_eq. rewrite Nat.add_0_r in He. by left.
    + right. exists i, nd. split; [done|]. by replace (S k + i) with (k + S i) by lia.
  - intros [He|(i & nd & Hl & He)].
    + exists 0, n. by rewrite Nat.add_0_r.
    + exists (S i), nd. split; [done|]. by replace (k + S i) with (S k + i) by lia.
Qed.

Lemma below_app l1 l2 k e : below (l1 ++ l2) k e ↔ below l1 k e ∨ below l2 (k + length l1) e.
Proof.
  revert k. induction l1 as [|n l1 IH]; intros k; simpl.
  - rewrite Nat.add_0_r. split; [by right|]. intros [(i & nd & Hl & _)|?]; done.
  - rewrite !below_cons, IH. replace (S k + length l1) with (k + S (length l1)) by lia. tauto.
Qed.

Lemma tree_edges_spec node : ∀ k parent prev e,
  e ∈ tree_edges node k parent prev ↔
  e ∈ entry_edges k parent prev ∨ below (flatten_node_for_plan node) k e.
Proof.
  assert (Hlist : ∀ ns, Forall (λ node, ∀ k parent prev e,
      e ∈ tree_edges node k parent prev ↔
      e ∈ entry_edges k parent prev ∨ below (flatten_node_for_plan node) k e) ns →
    ∀ k parent prev e, e ∈ sibling_edges ns k parent prev ↔
      e ∈ links parent prev (child_ids ns k) ∨ below (flatten_nodes_for_plan ns) k e).
  { induction 1 as [|n ns Hn _ IH]; intros k parent prev e.
    - simpl. split; [by intros ?%elem_of_nil|]. intros [?|(i & nd & ? & _)]; done.
    - cbn [sibling_edges child_ids links].
      rewrite flatten_nodes_cons, below_app, !elem_of_app, Hn, IH. fold (plan_size n). tauto. }
  assert (Hstep : ∀ node, Forall (λ node, ∀ k parent prev e,
      e ∈ tree_edges node k parent prev ↔
      e ∈ entry_edges k parent prev ∨ below (flatten_node_for_plan node) k e) (children_of node) →
    ∀ k parent prev e, e ∈ tree_edges node k parent prev ↔
      e ∈ entry_edges k parent prev ∨ below (flatten_node_for_plan node) k e).
  { intros n Hn k parent prev e. rewrite tree_edges_children, elem_of_app, Hlist by done.
    rewrite flatten_children, below_cons. tauto. }
  induction node using OIr_ind'; apply Hstep; simpl;
    [constructor|constructor|by apply Forall_singleton|done|done|].
  destruct (_ && _); [constructor|done].
Qed.

Lemma sibling_edges_spec ns k parent prev e :
  e ∈ sibling_edges ns k parent prev ↔
  e ∈ links parent prev (child_ids ns k) ∨ below (flatten_nodes_for_plan ns) k e.
Proof.
  revert k prev. induction ns as [|n ns IH]; intros k prev; simpl.
  - split; [by intros ?%elem_of_nil|]. intros [?|(i & nd & ? & _)]; done.
  - rewrite flatten_nodes_cons, below_app, !elem_of_app, tree_edges_spec, IH. fold (plan_size n). tauto.
Qed.

Lemma links_structural parent prev ids c p :
  edge c p Structural ∈ links parent prev ids ↔ parent = Some p ∧ c ∈ ids.
Proof.
  revert prev. induction ids as [|m ids IH]; intros prev; simpl; [rewrite !elem_of_nil; tauto|].
  rewrite elem_of_app, IH, elem_of_cons. unfold entry_edges, edge. rewrite elem_of_app.
  assert (Hs : {| edge_from := c; edge_to := p; edge_kind := Structural |} ∉
    match prev with Some s => [{| edge_from := s; edge_to := m; edge_kind := Sequence |}] | None => [] end).
  { destruct prev; rewrite ?list_elem_of_singleton, ?elem_of_nil; [discriminate|tauto]. }
  destruct parent as [p'|]; rewrite ?list_elem_of_singleton, ?elem_of_nil; [|naive_solver].
  split; [intros [[[=]|?]|[[= ->] ?]]; subst; tauto|]. intros [[= ->] [->|?]]; tauto.
Qed.

Lemma links_not_data parent prev ids e : e ∈ links parent prev ids → edge_kind e ≠ Data.
Proof.
  revert prev. induction ids as [|m ids IH]; intros prev; simpl; [by intros ?%elem_of_nil|].
  unfold entry_edges. rewrite !elem_of_app. intros [[He|He]|He]; [| |by eapply IH].
  - destruct parent; [by apply list_elem_of_singleton in He as ->|by apply elem_of_nil in He].
  - destruct prev; [by apply list_elem_of_singleton in He as ->|by apply elem_of_nil in He].
Qed.

(** Siblings are ordered by every relation that holds along the sequence edges. *)
Lemma links_sorted (R : relation nat) parent prev ids :
  (∀ u v, edge u v Sequence ∈ links parent prev ids → R u v) → Sorted R ids.
Proof.
  revert prev. induction ids as [|m ids IH]; intros prev HR; [constructor|]. constructor.
  - apply (IH (Some m)). intros u v He. apply HR. simpl. rewrite elem_of_app. by right.
  - destruct ids as [|m' ids]; constructor. apply HR. simpl. unfold entry_edges.
    rewrite !elem_of_app. right. left. right. apply list_elem_of_here.
Qed.

Lemma child_ids_bounds ns k x :
  x ∈ child_ids ns k → k ≤ x < k + length (flatten_nodes_for_plan ns).
Proof.
  revert k. induction ns as [|n ns IH]; intros k; [by intros ?%elem_of_nil|].
  rewrite flatten_nodes_cons, length_app. fold (plan_size n). pose proof (plan_size_pos n).
  cbn [child_ids]. rewrite elem_of_cons. intros [->|Hx%IH]; lia.
Qed.

Lemma child_ids_length ns k : length (child_ids ns k) = length ns.
Proof. revert k. induction ns; intros; simpl; auto. Qed.

Lemma child_ids_NoDup ns k : NoDup (child_ids ns k).
Proof.
  revert k. induction ns as [|n ns IH]; intros k; simpl; constructor; [|apply IH].
  intros Hx%child_ids_bounds. pose proof (plan_size_pos n). lia.
Qed.
