(* ===== verification/PlanSchedules.v ===== *)
(** * Plans validate, and schedules follow the source

    The properties of [OIrProgram::plan], [ExecutionPlan::validate],
    [root_schedule], [child_schedule] and [ExecutionPlanIndex], for every program. *)

From S2P Require Import Prelude.
From S2P Require Import Utf8.
From S2P Require Import BackendCatalog.
From S2P Require Import Syntax.
From S2P Require Import Ir.
From S2P Require Import BashScan.
From S2P Require Import ExecutionPlan.
From S2P Require Import Topological.
From S2P Require Import PlanTheorems.
From stdpp Require Import options.

#[local] Open Scope nat_scope.

Section Plans.
Context `{DG : !Digests, UT : !UnicodeTables}.

(** What the construction establishes. *)
Lemma plan_built p :
  let fl := flatten_for_plan p in
  roots (plan p) = child_ids (nodes p) 0 ∧
  plan_nodes (plan p) = imap mk_node fl ∧
  NoDup (edges (plan p)) ∧
  Forall (λ e, edge_from e < length fl ∧ edge_to e < length fl ∧ before fl (edge_from e) (edge_to e))
    (edges (plan p)) ∧
  filter (λ e, edge_kind e ≠ Data) (edges (plan p)) = sibling_edges (nodes p) 0 None None.
Proof.
  intros fl. unfold plan.
  pose proof (add_roots_ok fl (nodes p) new_builder [∅] None []) as H. cbv zeta in H.
  destruct (add_roots (nodes p) new_builder [∅] None) as [b rs].
  destruct H as ([Hn _ Hnd He _] & Hlen & -> & Ht).
  - constructor; simpl; [done| |constructor|constructor|by intros e ?%elem_of_nil]. intros u v kd. set_solver.
  - by rewrite app_nil_r.
  - intros name x. rewrite in_scope_cons. intros [Hx|(sc & Hx & _)];
      [by rewrite lookup_empty in Hx|by apply elem_of_nil in Hx].
  - done.
  - simpl in Hlen. fold (flatten_for_plan p) in Hlen. fold fl in Hlen.
    rewrite Hlen in Hn, He. rewrite take_ge in Hn by lia.
    unfold finish. cbn [roots plan_nodes edges]. split_and!; done.
Qed.

Lemma plan_nodes_length p : length (plan_nodes (plan p)) = length (flatten_for_plan p).
Proof. destruct (plan_built p) as (_ & -> & _). by rewrite length_imap. Qed.

Lemma plan_in_bounds p : in_bounds (length (plan_nodes (plan p))) (edges (plan p)).
Proof.
  rewrite plan_nodes_length. destruct (plan_built p) as (_ & _ & _ & He & _).
  eapply Forall_impl; [exact He|]. simpl. tauto.
Qed.

(** The completion of a node ranks the graph: [fin] first, then deeper nodes first. *)
Lemma plan_acyclic p : acyclic (edges (plan p)).
Proof.
  destruct (plan_built p) as (_ & _ & _ & He & _). set (fl := flatten_for_plan p) in *.
  exists (λ x, fin fl x * S (length fl) + (length fl - x)).
  eapply Forall_impl; [exact He|]. intros e (Hf & Ht & Hb). pose proof (fin_gt fl (edge_to e)).
  destruct Hb as [Hb|[Hlt Hb]]; nia.
Qed.

Lemma plan_order p : ∃ order, topological_order (plan p) = Ok order ∧
  order ≡ₚ seq 0 (length (flatten_for_plan p)) ∧
  greedy (length (flatten_for_plan p)) (edges (plan p)) order.
Proof.
  destruct (topological_order_acyclic (plan p) (plan_in_bounds p) (plan_acyclic p)) as [order Ho].
  exists order. split; [done|]. rewrite <-plan_nodes_length.
  apply topological_order_Ok; [apply plan_in_bounds|done].
Qed.

Lemma plan_tree_edges p e :
  edge_kind e ≠ Data →
  e ∈ edges (plan p) ↔
  e ∈ links None None (child_ids (nodes p) 0) ∨ below (flatten_for_plan p) 0 e.
Proof.
  intros Hk. destruct (plan_built p) as (_ & _ & _ & _ & Ht).
  rewrite <-sibling_edges_spec, <-Ht, list_elem_of_filter. tauto.
Qed.

(** A row of siblings is visited from left to right. *)
Lemma order_of_siblings p order parent ids :
  topological_order (plan p) = Ok order →
  (∀ e, e ∈ links parent None ids → e ∈ edges (plan p)) →
  NoDup ids → (∀ x, x ∈ ids → x < length (flatten_for_plan p)) →
  filter (λ x, x ∈ ids) order = ids.
Proof.
  intros Ho Hin Hnd Hlt. destruct (plan_order p) as (order' & Ho' & Hp & Hg).
  assert (order' = order) as -> by congruence.
  assert (Hndo : NoDup order) by (rewrite Hp; apply NoDup_seq).
  apply order_restrict; [done|done| |].
  - intros x Hx. rewrite Hp, elem_of_seq. apply Hlt in Hx. lia.
  - apply (links_sorted _ parent None). intros u v He. apply Hin in He.
    apply (greedy_pos _ _ _ (edge u v Sequence) Hg Hndo He). rewrite Hp, elem_of_seq.
    pose proof (plan_in_bounds p) as Hb. unfold in_bounds in Hb. rewrite Forall_forall in Hb.
    apply Hb in He. rewrite plan_nodes_length in He. simpl in *. lia.
Qed.

Lemma root_order p order :
  topological_order (plan p) = Ok order → filter (λ x, x ∈ roots (plan p)) order = roots (plan p).
Proof.
  destruct (plan_built p) as (Hr & _). rewrite Hr. intros Ho.
  apply (order_of_siblings p order None); [done| |apply child_ids_NoDup|].
  - intros e He. apply plan_tree_edges; [by eapply links_not_data|by left].
  - intros x Hx%child_ids_bounds. unfold flatten_for_plan. lia.
Qed.

Lemma child_order p order k node :
  topological_order (plan p) = Ok order → flatten_for_plan p !! k = Some node →
  filter (λ x, x ∈ child_ids (children_of node) (S k)) order = child_ids (children_of node) (S k).
Proof.
  intros Ho Hk. apply (order_of_siblings p order (Some k)); [done| |apply child_ids_NoDup|].
  - intros e He. apply plan_tree_edges; [by eapply links_not_data|]. right. by exists k, node.
  - intros x Hx. destruct (plan_built p) as (_ & _ & _ & He & _). rewrite Forall_forall in He.
    destruct (He (edge x k Structural)) as [? _]; [|done].
    apply plan_tree_edges; [done|]. right. exists k, node. split; [done|].
    apply links_structural. auto.
Qed.

(** The identifiers of children are the preorder positions of the children. *)
Lemma sub_flatten_children fl k ns rest :
  drop k fl = flatten_nodes_for_plan ns ++ rest →
  Forall2 (λ c child, fl !! c = Some child ∧ ∃ rest', drop c fl = flatten_node_for_plan child ++ rest')
    (child_ids ns k) ns.
Proof.
  revert k. induction ns as [|n ns IH]; intros k Hd; simpl; [constructor|].
  rewrite flatten_nodes_cons, <-app_assoc in Hd. constructor.
  - split; [by eapply flatten_head|eauto].
  - apply IH. by apply drop_flatten in Hd.
Qed.

(** The preorder contains, at the position of a node, the preorder of its subtree. *)
Definition subtree_at (l : list OIr) : Prop := ∀ fl k rest i node,
  drop k fl = l ++ rest → l !! i = Some node →
  ∃ rest', drop (k + i) fl = flatten_node_for_plan node ++ rest'.

Lemma subtree_at_list ns :
  Forall (λ n, subtree_at (flatten_node_for_plan n)) ns → subtree_at (flatten_nodes_for_plan ns).
Proof.
  induction 1 as [|n ns Hn _ IH]; intros fl k rest i node Hd Hi; [done|].
  rewrite flatten_nodes_cons, <-app_assoc in Hd. rewrite flatten_nodes_cons in Hi.
  apply lookup_app_Some in Hi as [Hi|[Hge Hi]]; [by eapply Hn|].
  apply drop_flatten in Hd. destruct (IH _ _ _ _ _ Hd Hi) as [rest' Hr]. exists rest'. rewrite <-Hr.
  f_equal. lia.
Qed.

Lemma subtree_at_node node : subtree_at (flatten_node_for_plan node).
Proof.
  assert (Hstep : ∀ n, Forall (λ n, subtree_at (flatten_node_for_plan n)) (children_of n) →
    subtree_at (flatten_node_for_plan n)).
  { intros n Hn fl k rest [|i] nd Hd Hi; rewrite flatten_children in Hi; simpl in Hi.
    - simplify_eq. rewrite Nat.add_0_r. eauto.
    - rewrite flatten_children in Hd. apply (drop_flatten _ _ [n]) in Hd.
      destruct (subtree_at_list _ Hn _ _ _ _ _ Hd Hi) as [rest' Hr]. exists rest'. rewrite <-Hr.
      f_equal. simpl. lia. }
  induction node using OIr_ind'; apply Hstep; simpl;
    [constructor|constructor|by apply Forall_singleton|done|done|].
  destruct (_ && _); [constructor|done].
Qed.

Lemma flatten_at ns : subtree_at (flatten_nodes_for_plan ns).
Proof. apply subtree_at_list, Forall_forall. intros n _. apply subtree_at_node. Qed.

Lemma children_at p k node :
  flatten_for_plan p !! k = Some node →
  Forall2 (λ c child, flatten_for_plan p !! c = Some child) (child_ids (children_of node) (S k)) (children_of node).
Proof.
  intros Hk. destruct (flatten_at (nodes p) (flatten_for_plan p) 0 [] k node) as [rest Hd]; [by rewrite app_nil_r|done|].
  rewrite flatten_children in Hd. apply (drop_flatten _ _ [node]) in Hd. rewrite Nat.add_0_l, Nat.add_1_r in Hd.
  eapply Forall2_impl; [by eapply sub_flatten_children|]. simpl. tauto.
Qed.

Lemma structural_children p k node :
  flatten_for_plan p !! k = Some node → ∀ c,
  edge c k Structural ∈ edges (plan p) ↔ c ∈ child_ids (children_of node) (S k).
Proof.
  intros Hk c. rewrite plan_tree_edges by done. rewrite links_structural. split.
  - intros [[? _]|(i & nd & Hi & He)]; [done|]. apply links_structural in He as [[= Heq] Hc].
    simpl in Heq. subst i. by simplify_eq.
  - intros Hc. right. exists k, node. split; [done|]. apply links_structural. auto.
Qed.

Lemma root_positions_lookup (rs : list nat) x :
  NoDup rs → root_positions rs !! x = fst <$> list_find (λ y, y = x) rs.
Proof.
  unfold root_positions. intros Hnd.
  assert (Hgen : ∀ k (m : gmap nat nat),
    foldl (λ m ir, <[ir.2 := ir.1]> m) m (imap (λ i r, (k + i, r)) rs) !! x =
    match list_find (λ y, y = x) rs with Some (i, _) => Some (k + i) | None => m !! x end).
  { induction rs as [|r rs IH]; intros k m; [done|]. rewrite imap_cons. cbn [foldl fst snd list_find].
    erewrite (imap_ext _ (λ i r, (S k + i, r)) rs) by (intros; simpl; f_equal; lia).
    apply NoDup_cons in Hnd as [Hni Hnd]. rewrite IH by done. case_decide as E.
    - subst x. rewrite (proj2 (list_find_None _ _)).
      + rewrite lookup_insert_eq, Nat.add_0_r. done.
      + apply Forall_forall. intros y Hy ->. done.
    - destruct (list_find _ rs) as [[i y]|]; simpl; [f_equal; lia|by rewrite lookup_insert_ne]. }
  specialize (Hgen 0 ∅). rewrite lookup_empty in Hgen.
  change (imap pair rs) with (imap (λ i r, (0 + i, r)) rs). rewrite Hgen. by destruct (list_find _ rs) as [[? ?]|].
Qed.

Lemma root_position (rs : list nat) i x : NoDup rs → rs !! i = Some x → root_positions rs !! x = Some i.
Proof.
  intros Hnd Hi. rewrite root_positions_lookup by done.
  assert (list_find (λ y, y = x) rs = Some (i, x)) as ->; [|done].
  apply list_find_Some. split_and!; [done|done|]. intros k y Hk Hlt ->.
  pose proof (NoDup_lookup _ _ _ _ Hnd Hi Hk). lia.
Qed.

Lemma omap_root_positions (rs : list nat) :
  NoDup rs → omap (λ id, root_positions rs !! id) rs = seq 0 (length rs).
Proof.
  intros Hnd.
  assert (Hgen : ∀ l2 l1, rs = l1 ++ l2 →
    omap (λ id, root_positions rs !! id) l2 = seq (length l1) (length l2)).
  { induction l2 as [|x l2 IH]; intros l1 Heq; [done|]. cbn [omap list_omap length seq].
    rewrite (root_position rs (length l1) x) by (done || rewrite Heq; apply lookup_app_at).
    f_equal. rewrite (IH (l1 ++ [x])) by by rewrite <-app_assoc. rewrite length_app. f_equal. simpl. lia. }
  by apply (Hgen rs []).
Qed.

Lemma omap_filter_dom (f : nat → option nat) (ids l : list nat) :
  (∀ x, x ∉ ids → f x = None) → omap f l = omap f (filter (λ x, x ∈ ids) l).
Proof.
  intros Hf. induction l as [|x l IH]; [done|]. rewrite filter_cons. cbn [omap list_omap].
  case_decide as Hx; cbn [omap list_omap]; [by rewrite IH|]. by rewrite Hf.
Qed.

Lemma plan_root_schedule p : root_schedule (plan p) = Ok (seq 0 (length (nodes p))).
Proof.
  destruct (plan_order p) as (order & Ho & _). unfold root_schedule. rewrite Ho. cbn [obind].
  destruct (plan_built p) as (Hr & _).
  assert (Hnd : NoDup (roots (plan p))) by (rewrite Hr; apply child_ids_NoDup).
  rewrite (omap_filter_dom _ (roots (plan p))), (root_order p order Ho), omap_root_positions by first
    [done | intros x Hx; rewrite root_positions_lookup by done;
            rewrite (proj2 (list_find_None _ _)); [done|];
            apply Forall_forall; intros y Hy ->; done].
  rewrite length_seq, bool_decide_eq_true_2 by done. by rewrite Hr, child_ids_length.
Qed.

Lemma elem_of_btree_fold x l : x ∈ foldr btree_insert [] l ↔ x ∈ l.
Proof. induction l as [|y l IH]; simpl; [done|]. by rewrite elem_of_btree_insert, IH, elem_of_cons. Qed.

Lemma plan_child_schedule p k node :
  flatten_for_plan p !! k = Some node →
  child_schedule (plan p) k = Ok (child_ids (children_of node) (S k)).
Proof.
  intros Hk. destruct (plan_order p) as (order & Ho & _). unfold child_schedule. rewrite Ho.
  rewrite bool_decide_eq_false_2.
  2:{ rewrite plan_nodes_length. apply lookup_lt_Some in Hk. lia. }
  cbn [obind]. f_equal. rewrite <-(child_order p order k node Ho Hk).
  apply list_filter_iff. intros x. rewrite elem_of_btree_fold, list_elem_of_fmap.
  rewrite <-(structural_children p k node Hk). split.
  - intros ([f t kd] & -> & [[Hkd Hto] He]%list_elem_of_filter). simpl in *. by subst.
  - intros He. exists (edge x k Structural). split; [done|]. by apply list_elem_of_filter.
Qed.

Lemma check_identity_ok i ns : check_identity i (imap (λ j n, mk_node (i + j) n) ns) = Ok tt.
Proof.
  revert i. induction ns as [|n ns IH]; intros i; [done|]. rewrite imap_cons. cbn [check_identity mk_node node_id].
  rewrite bool_decide_eq_true_2 by lia.
  erewrite (imap_ext _ (λ j n, mk_node (S i + j) n) ns) by (intros; simpl; f_equal; lia). apply IH.
Qed.

Lemma check_roots_ok n seen rs :
  NoDup rs → Forall (λ r, r < n ∧ r ∉ seen) rs → check_roots n seen rs = Ok tt.
Proof.
  revert seen. induction rs as [|r rs IH]; intros seen Hnd Hall; [done|]. simpl.
  apply Forall_cons in Hall as [[Hr Hs] Hall]. apply NoDup_cons in Hnd as [Hni Hnd].
  rewrite !bool_decide_eq_false_2 by (done || lia). apply IH; [done|].
  apply Forall_forall. intros x Hx. rewrite Forall_forall in Hall. destruct (Hall x Hx).
  rewrite elem_of_btree_insert. split; [done|]. intros [->|?]; done.
Qed.

Lemma check_edges_ok n es : in_bounds n es → check_edges n es = Ok tt.
Proof.
  induction 1 as [|e es He _ IH]; [done|]. simpl. by rewrite bool_decide_eq_false_2 by lia.
Qed.

Lemma plan_validates p : validate (plan p) (length (nodes p)) = Ok tt.
Proof.
  destruct (plan_built p) as (Hr & Hn & _). destruct (plan_order p) as (order & Ho & _).
  unfold validate. rewrite (bool_decide_eq_true_2 (length (roots (plan p)) = _)).
  2:{ by rewrite Hr, child_ids_length. }
  cbn [negb]. rewrite Hn at 1. rewrite (check_identity_ok 0). cbn [obind].
  rewrite check_roots_ok; cbn [obind].
  - rewrite check_edges_ok by apply plan_in_bounds. cbn [obind]. rewrite Ho. cbn [obind].
    by rewrite plan_root_schedule.
  - rewrite Hr. apply child_ids_NoDup.
  - rewrite plan_nodes_length, Hr. apply Forall_forall. intros x Hx%child_ids_bounds.
    split; [unfold flatten_for_plan; lia|apply not_elem_of_nil].
Qed.
(** C4. The plan of a program is its tree: node [i] is the [i]-th executable
    instruction in preorder with identifier [i], no edge occurs twice, and the
    structural and sequence edges are exactly those from every child to its
    parent and from every sibling to the next. *)
Theorem plan_is_the_tree (p : OIrProgram) :
  roots (plan p) = child_ids (nodes p) 0 ∧
  plan_nodes (plan p) = imap mk_node (flatten_for_plan p) ∧
  NoDup (edges (plan p)) ∧
  (∀ e, e ∈ edges (plan p) ∧ edge_kind e ≠ Data ↔
     e ∈ links None None (child_ids (nodes p) 0) ∨
     ∃ x node, flatten_for_plan p !! x = Some node ∧
               e ∈ links (Some x) None (child_ids (children_of node) (S x))).
Proof.
  destruct (plan_built p) as (Hr & Hn & Hnd & _). split_and!; [done|done|done|]. intros e. split.
  - intros [He Hk]. by apply plan_tree_edges in He.
  - intros He. assert (Hk : edge_kind e ≠ Data).
    { destruct He as [He|(x & node & _ & He)]; by eapply links_not_data. }
    split; [|done]. by apply plan_tree_edges.
Qed.

(** C5. Every program plans into a graph that validates: identities, roots and
    edges are in range, and the dependency graph is acyclic, so the evaluator
    never refuses a plan the planner built. *)
Theorem plan_always_validates (p : OIrProgram) :
  validate (plan p) (length (nodes p)) = Ok tt ∧ acyclic (edges (plan p)).
Proof. split; [apply plan_validates|apply plan_acyclic]. Qed.

(** C6. Schedules follow the source: the roots of a program run from first to
    last, and the children of every executable node in their order in the
    source; a quoted body has no children to run. *)
Theorem schedules_follow_source (p : OIrProgram) :
  root_schedule (plan p) = Ok (seq 0 (length (nodes p))) ∧
  (∀ k node, flatten_for_plan p !! k = Some node →
     child_schedule (plan p) k = Ok (child_ids (children_of node) (S k)) ∧
     Forall2 (λ c child, flatten_for_plan p !! c = Some child)
       (child_ids (children_of node) (S k)) (children_of node)) ∧
  (∀ k, length (flatten_for_plan p) ≤ k → child_schedule (plan p) k = Err (ParentOutOfBounds k)).
Proof.
  split_and!; [apply plan_root_schedule| |].
  - intros k node Hk. split; [by apply plan_child_schedule|]. by apply children_at.
  - intros k Hk. unfold child_schedule. by rewrite bool_decide_eq_true_2 by (rewrite plan_nodes_length; lia).
Qed.

End Plans.


(** ** The index of a validated plan *)

Definition into (k : nat) (e : PlanEdge) : Prop := edge_kind e = Structural ∧ edge_to e = k.

Lemma index_edges_vec n es f g :
  in_bounds n es →
  index_edges es (vec n f) (vec n g) =
    Ok (vec n (λ k, f k ++ filter (λ e, edge_to e = k) es),
        vec n (λ k, g k ++ filter (λ e, edge_from e = k) es)).
Proof.
  revert f g. induction es as [|e es IH]; intros f g Hb; simpl.
  { do 2 f_equal; apply vec_ext; intros i _; by rewrite app_nil_r. }
  apply Forall_cons in Hb as [[Hfrom Hto] Hb]. unfold push_at.
  rewrite !vec_lookup by done. cbn [obind]. rewrite !vec_insert, IH by done.
  do 2 f_equal; apply vec_ext; intros i _; rewrite filter_cons;
    repeat case_decide; subst; simpl; try done; by rewrite <-app_assoc.
Qed.

Lemma index_child_vec n child es c :
  in_bounds n es →
  index_child child es (vec n c) =
    Ok (vec n (λ k, if decide (Exists (into k) es ∧ last (c k) ≠ Some child) then c k ++ [child] else c k)).
Proof.
  revert c. induction es as [|e es IH]; intros c Hb; simpl.
  { done. }
  apply Forall_cons in Hb as [[Hfrom Hto] Hb]. case_bool_decide as Hk.
  - rewrite vec_lookup by done. case_bool_decide as Hl.
    + rewrite IH by done. f_equal. apply vec_ext. intros i _. apply decide_ext. rewrite Exists_cons.
      unfold into at 2. split; [tauto|]. intros [[[_ <-]|?] ?]; tauto.
    + rewrite vec_insert, IH by done. f_equal. apply vec_ext. intros i _.
      destruct (decide (i = edge_to e)) as [->|Hne].
      * rewrite (decide_False (P := Exists _ es ∧ _)) by (rewrite last_snoc; tauto).
        rewrite decide_True; [done|]. rewrite Exists_cons. split; [by left|done].
      * apply decide_ext. rewrite Exists_cons. unfold into at 2. intuition congruence.
  - rewrite IH by done. f_equal. apply vec_ext. intros i _. apply decide_ext. rewrite Exists_cons.
    unfold into at 2. tauto.
Qed.

(** Direct structural children are those with a structural edge to the parent. *)
Definition child_of (es : list PlanEdge) (k x : nat) : Prop :=
  Exists (into k) (filter (λ e, edge_from e = x) es).

Lemma in_bounds_filter n (P : PlanEdge → Prop) `{∀ e, Decision (P e)} es :
  in_bounds n es → in_bounds n (filter P es).
Proof.
  unfold in_bounds. rewrite !Forall_forall. intros Hb e [_ He]%list_elem_of_filter. auto.
Qed.

Lemma index_children_vec n es order c :
  in_bounds n es → Forall (λ x, x < n) order → NoDup order →
  (∀ k x, x ∈ order → last (c k) ≠ Some x) →
  index_children order (vec n (λ k, filter (λ e, edge_from e = k) es)) (vec n c) =
    Ok (vec n (λ k, c k ++ filter (child_of es k) order)).
Proof.
  intros Hb. revert c. induction order as [|x order IH]; intros c Hlt Hnd Hlast; simpl.
  { f_equal. apply vec_ext. intros i _. by rewrite app_nil_r. }
  apply Forall_cons in Hlt as [Hx Hlt]. apply NoDup_cons in Hnd as [Hni Hnd].
  rewrite vec_lookup, index_child_vec by (done || by apply in_bounds_filter).
  cbn [obind]. rewrite IH; [|done|done|].
  - f_equal. apply vec_ext. intros i _. rewrite filter_cons. unfold child_of at 2.
    assert (last (c i) ≠ Some x) by (apply Hlast, list_elem_of_here).
    repeat case_decide; try tauto; by rewrite <-?app_assoc.
  - intros k y Hy. case_decide; [rewrite last_snoc; intros [= ->]; done|].
    apply Hlast. by apply list_elem_of_further.
Qed.

(** ** What validation accepts *)

Lemma check_edges_inv n es : check_edges n es = Ok tt → in_bounds n es.
Proof.
  induction es as [|e es IH]; simpl; [constructor|]. case_bool_decide; [done|].
  intros. constructor; [lia|by apply IH].
Qed.

Lemma check_edges_cases n es : check_edges n es = Ok tt ∨ ∃ e, check_edges n es = Err e.
Proof. induction es as [|e es IH]; simpl; [by left|]. case_bool_decide; eauto. Qed.

Lemma validate_inv p n :
  validate p n = Ok tt →
  in_bounds (length (plan_nodes p)) (edges p) ∧ ∃ order, topological_order p = Ok order.
Proof.
  unfold validate. destruct (negb _); [done|].
  destruct (check_identity _ _); try done. destruct (check_roots _ _ _); try done. cbn [obind].
  destruct (check_edges _ _) as [[]| | |] eqn:He; try done. cbn [obind].
  destruct (topological_order p) as [order| | |]; try done. intros _.
  split; [by apply check_edges_inv|eauto].
Qed.

Lemma check_identity_inv k ns i n : check_identity k ns = Ok tt → ns !! i = Some n → node_id n = k + i.
Proof.
  revert k i. induction ns as [|m ns IH]; intros k i; [done|]. simpl. case_bool_decide as E; [|done].
  intros H. destruct i as [|i]; simpl; [intros [= ->]; lia|]. intros Hi. rewrite (IH (S k) i H Hi). lia.
Qed.

Lemma validate_identity p k i n : validate p k = Ok tt → plan_nodes p !! i = Some n → node_id n = i.
Proof.
  unfold validate. destruct (negb _); [done|]. destruct (check_identity _ _) as [[]| | |] eqn:E; try done.
  intros _ Hi. by rewrite (check_identity_inv 0 _ _ _ E Hi).
Qed.

Lemma index_new_validates p x : index_new p = Ok x → validate p (length (roots p)) = Ok tt.
Proof. unfold index_new. by destruct (validate p (length (roots p))) as [[]| | |]. Qed.

Lemma child_schedule_child_of p order k :
  topological_order p = Ok order → k < length (plan_nodes p) →
  child_schedule p k = Ok (filter (child_of (edges p) k) order).
Proof.
  intros Ho Hk. unfold child_schedule. rewrite bool_decide_eq_false_2 by lia. rewrite Ho. cbn [obind].
  f_equal. apply list_filter_iff. intros x. rewrite elem_of_btree_fold, list_elem_of_fmap.
  unfold child_of. rewrite Exists_exists. setoid_rewrite list_elem_of_filter. split.
  - intros (e & -> & Hkd & He). exists e. auto.
  - intros (e & [<- He] & Hi). exists e. auto.
Qed.

Lemma index_new_spec (p : ExecutionPlan) :
  let n := length (plan_nodes p) in
  (∀ e, validate p (length (roots p)) = Err e → index_new p = Err e) ∧
  (validate p (length (roots p)) = Ok tt →
   ∃ x, index_new p = Ok x ∧ topological_order p = Ok (idx_order x) ∧
     (∀ k, index_child_schedule x k = child_schedule p k) ∧
     (∀ k, k < n → index_incoming x k = Ok (filter (λ e, edge_to e = k) (edges p)) ∧
                   index_outgoing x k = Ok (filter (λ e, edge_from e = k) (edges p)))).
Proof.
  intros n. unfold index_new. split; [by intros e ->|]. intros Hv. rewrite Hv. cbn [obind].
  apply validate_inv in Hv as (Hb & order & Ho). rewrite Ho. cbn [obind]. fold n in Hb |- *.
  destruct (topological_order_Ok p order Hb Ho) as [Hp _]. fold n in Hp.
  rewrite !vec_replicate, index_edges_vec by done. cbn [obind app].
  rewrite (index_children_vec n (edges p) order); [|done| | |done].
  2:{ rewrite Hp. apply Forall_forall. intros x Hx%elem_of_seq. lia. }
  2:{ rewrite Hp. apply NoDup_seq. }
  cbn [obind]. eexists. split; [done|]. cbn [idx_order]. split_and!; [done| |].
  - intros k. unfold index_child_schedule. cbn [idx_children]. destruct (decide (k < n)) as [Hk|Hk].
    + rewrite vec_lookup by done. by rewrite (child_schedule_child_of p order).
    + rewrite vec_lookup_None by done. unfold child_schedule.
      rewrite bool_decide_eq_true_2; [done|]. fold n. lia.
  - intros k Hk. unfold index_incoming, index_outgoing. cbn [idx_incoming idx_outgoing].
    by rewrite !vec_lookup.
Qed.

(** C35. The per-pass index is an exact replacement for the scans it caches: it is
    refused with the error of [validate]; otherwise it is built without a panic,
    its order is the topological order, [incoming] and [outgoing] are the edges of
    the node in plan order, and its child schedule is that of the plan, also on
    identifiers out of range. *)
Theorem index_agrees_with_plan (p : ExecutionPlan) :
  let n := length (plan_nodes p) in
  (∀ e, validate p (length (roots p)) = Err e → index_new p = Err e) ∧
  (validate p (length (roots p)) = Ok tt →
   ∃ x, index_new p = Ok x ∧ topological_order p = Ok (idx_order x) ∧
     (∀ k, index_child_schedule x k = child_schedule p k) ∧
     (∀ k, k < n → index_incoming x k = Ok (filter (λ e, edge_to e = k) (edges p)) ∧
                   index_outgoing x k = Ok (filter (λ e, edge_from e = k) (edges p)))).
Proof. apply index_new_spec. Qed.

Lemma index_agrees_with_plan_witness :
  let node := λ i, {| node_id := i; node_kind := PText |} in
  let p := {| roots := [1]; plan_nodes := node <$> [0; 1]; edges := [edge 0 1 Structural] |} in
  ∃ x, index_new p = Ok x ∧ index_child_schedule x 1 = child_schedule p 1.
Proof.
  intros node p.
  destruct (proj2 (index_agrees_with_plan p)) as (x & Hx & _ & Hc & _); [vm_compute; reflexivity|].
  exists x. split; [exact Hx|apply Hc].
Defined.
