(* ===== verification/ScopeTheorems.v ===== *)
(** * Bindings a block receives

    The set of [let] bindings that [shim_scope_sources] delivers to a block, as a
    least fixed point over the quoted bodies the block can evaluate. *)

From S2P Require Import Prelude.
From S2P Require Import Utf8.
From S2P Require Import BackendCatalog.
From S2P Require Import Syntax.
From S2P Require Import Ir.
From S2P Require Import BashScan.
From S2P Require Import ExecutionPlan.
From S2P Require Import PlanTheorems.
From stdpp Require Import options.

#[local] Open Scope nat_scope.

Section Expansion.
Context (visible : scope) (qr : gmap nat References).

(** The names a block references: those of its text, and those of every quoted
    body that a referenced name is bound to. *)
Inductive referenced (refs : References) : str → Prop :=
| ref_text n : n ∈ tokens refs → referenced refs n
| ref_quote n s q m : referenced refs n → visible !! n = Some s → qr !! s = Some q → m ∈ tokens q →
    referenced refs m.

(** The block, or a quoted body it can evaluate, reads the whole scope. *)
Definition reads_scope (refs : References) : Prop :=
  o_scope refs = true ∨
  ∃ n s q, referenced refs n ∧ visible !! n = Some s ∧ qr !! s = Some q ∧ o_scope q = true.

Lemma expand_fold pending (expanded : gset nat) refs :
  let r := foldl (expand_step qr) (expanded, refs) pending in
  (∀ s, s ∈ r.1 ↔ s ∈ expanded ∨ s ∈ pending) ∧
  (∀ n, n ∈ tokens r.2 ↔ n ∈ tokens refs ∨ ∃ s q, s ∈ pending ∧ qr !! s = Some q ∧ n ∈ tokens q) ∧
  (o_scope r.2 = true ↔ o_scope refs = true ∨
     ∃ s q, s ∈ pending ∧ qr !! s = Some q ∧ o_scope q = true).
Proof.
  revert expanded refs. induction pending as [|s pending IH]; intros expanded refs; cbn zeta; simpl.
  { split_and!; [intros s|intros n|].
    - pose proof (not_elem_of_nil s). tauto.
    - split; [by left|]. intros [?|(s & q & Hs & _)]; [done|by apply elem_of_nil in Hs].
    - split; [by left|]. intros [?|(s & q & Hs & _)]; [done|by apply elem_of_nil in Hs]. }
  destruct (IH ({[s]} ∪ expanded) (match qr !! s with
    | Some q => {| tokens := tokens refs ∪ tokens q; o_scope := o_scope refs || o_scope q |}
    | None => refs end)) as (H1 & H2 & H3).
  split_and!.
  - intros x. rewrite H1, elem_of_union, elem_of_singleton, elem_of_cons. tauto.
  - intros n. rewrite H2. setoid_rewrite elem_of_cons. destruct (qr !! s) as [q|] eqn:E; simpl.
    + rewrite elem_of_union. split.
      * intros [[?|?]|(x & q' & ? & ? & ?)]; [by left|right; exists s, q; auto|right; exists x, q'; auto].
      * intros [?|(x & q' & [->|?] & Hq & ?)]; [by left; left|left; right; congruence|right; exists x, q'; auto].
    + split.
      * intros [?|(x & q' & ? & ? & ?)]; [by left|right; exists x, q'; auto].
      * intros [?|(x & q' & [->|?] & Hq & ?)]; [by left|congruence|right; exists x, q'; auto].
  - rewrite H3. setoid_rewrite elem_of_cons. destruct (qr !! s) as [q|] eqn:E; simpl.
    + rewrite orb_true_iff. split.
      * intros [[?|?]|(x & q' & ? & ? & ?)]; [by left|right; exists s, q; auto|right; exists x, q'; auto].
      * intros [?|(x & q' & [->|?] & Hq & ?)]; [by left; left|left; right; congruence|right; exists x, q'; auto].
    + split.
      * intros [?|(x & q' & ? & ? & ?)]; [by left|right; exists x, q'; auto].
      * intros [?|(x & q' & [->|?] & Hq & ?)]; [by left|congruence|right; exists x, q'; auto].
Qed.

(** Everything collected so far is referenced from [refs0], and the quoted bodies
    of the expanded bindings are included. *)
Record expansion (refs0 : References) (expanded : gset nat) (refs : References) : Prop := {
  exp_base : ∀ n, n ∈ tokens refs0 → n ∈ tokens refs;
  exp_base_scope : o_scope refs0 = true → o_scope refs = true;
  exp_sound : ∀ n, n ∈ tokens refs → referenced refs0 n;
  exp_scope : o_scope refs = true → reads_scope refs0;
  exp_tokens : ∀ s q n, s ∈ expanded → qr !! s = Some q → n ∈ tokens q → n ∈ tokens refs;
  exp_all : ∀ s q, s ∈ expanded → qr !! s = Some q → o_scope q = true → o_scope refs = true;
}.

Definition pending_sources (expanded : gset nat) (refs : References) : list nat :=
  snd <$> filter (λ p : str * nat, p.1 ∈ tokens refs ∧ p.2 ∉ expanded) (map_to_list visible).

Lemma pending_spec expanded refs s :
  s ∈ pending_sources expanded refs ↔ ∃ n, visible !! n = Some s ∧ n ∈ tokens refs ∧ s ∉ expanded.
Proof.
  unfold pending_sources. rewrite list_elem_of_fmap. split.
  - intros ([n x] & -> & [[? ?] Hx]%list_elem_of_filter). apply elem_of_map_to_list in Hx. eauto.
  - intros (n & Hv & ? & ?). exists (n, s). split; [done|]. apply list_elem_of_filter.
    by rewrite elem_of_map_to_list.
Qed.

Lemma expansion_round refs0 expanded refs :
  expansion refs0 expanded refs →
  let r := foldl (expand_step qr) (expanded, refs) (pending_sources expanded refs) in
  expansion refs0 r.1 r.2.
Proof.
  intros [Hb Hbs Hs Hsc Ht Ha]. cbn zeta.
  destruct (expand_fold (pending_sources expanded refs) expanded refs) as (H1 & H2 & H3). constructor.
  - intros n Hn. apply H2. left. auto.
  - intros Ho. apply H3. left. auto.
  - intros n [Hn|(s & q & (m & Hv & Hm & _)%pending_spec & Hq & Hn)]%H2; [auto|].
    by eapply ref_quote; [apply Hs, Hm|..].
  - intros [Ho|(s & q & (m & Hv & Hm & _)%pending_spec & Hq & Ho)]%H3; [auto|].
    right. exists m, s, q. auto.
  - intros s q n [Hx|Hx]%H1 Hq Hn; apply H2; [left; by eapply Ht|right; eauto].
  - intros s q [Hx|Hx]%H1 Hq Ho; apply H3; [left; by eapply Ha|right; eauto].
Qed.

(** Bindings that a round can still expand. *)
Definition unexpanded (expanded : gset nat) : nat :=
  length (filter (λ p : str * nat, p.2 ∉ expanded) (map_to_list visible)).

Lemma filter_length_lt {A} (P Q : A → Prop) `{∀ x, Decision (P x), ∀ x, Decision (Q x)} l x :
  (∀ y, Q y → P y) → x ∈ l → P x → ¬ Q x → length (filter Q l) < length (filter P l).
Proof.
  intros Hsub. induction l as [|y l IH]; [by intros ?%elem_of_nil|].
  assert (Hle : ∀ l, length (filter Q l) ≤ length (filter P l)).
  { induction l0 as [|z l0 IH0]; [done|]. rewrite !filter_cons. repeat case_decide; simpl; try lia.
    exfalso; auto. }
  rewrite elem_of_cons, !filter_cons. intros [->|Hx] HP HQ.
  - rewrite decide_False, decide_True by done. simpl. specialize (Hle l). lia.
  - specialize (IH Hx HP HQ). repeat case_decide; simpl; try lia. exfalso; auto.
Qed.

Lemma expand_quotes_spec fuel refs0 expanded refs :
  expansion refs0 expanded refs → unexpanded expanded ≤ fuel →
  let r := expand_quotes fuel visible qr expanded refs in
  ∃ expanded', expansion refs0 expanded' r ∧ pending_sources expanded' r = [].
Proof.
  revert expanded refs. induction fuel as [|fuel IH]; intros expanded refs He Hf; cbn zeta.
  - exists expanded. split; [done|]. destruct (pending_sources expanded refs) as [|s l] eqn:E; [done|].
    exfalso. assert (Hs : s ∈ pending_sources expanded refs) by (rewrite E; apply list_elem_of_here).
    apply pending_spec in Hs as (n & Hv & _ & Hs). unfold unexpanded in Hf.
    assert (Hin : (n, s) ∈ filter (λ p : str * nat, p.2 ∉ expanded) (map_to_list visible))
      by (apply list_elem_of_filter; by rewrite elem_of_map_to_list).
    destruct (filter _ _); [by apply elem_of_nil in Hin|simpl in Hf; lia].
  - cbn [expand_quotes]. fold (pending_sources expanded refs).
    pose proof (expansion_round refs0 expanded refs He) as Hround. cbn zeta in Hround.
    destruct (pending_sources expanded refs) as [|s l] eqn:E; [by exists expanded|].
    destruct (expand_fold (s :: l) expanded refs) as (H1 & _).
    destruct (foldl (expand_step qr) (expanded, refs) (s :: l)) as [expanded' refs'].
    cbn [fst snd] in *. apply IH; [done|].
    assert (Hs : s ∈ pending_sources expanded refs) by (rewrite E; apply list_elem_of_here).
    apply pending_spec in Hs as (n & Hv & _ & Hs).
    assert (unexpanded expanded' < unexpanded expanded); [|lia].
    apply (filter_length_lt _ _ _ (n, s)); simpl.
    + intros [m x]. simpl. rewrite H1. tauto.
    + by rewrite elem_of_map_to_list.
    + done.
    + rewrite H1. intros Hn. apply Hn. right. apply list_elem_of_here.
Qed.

(** The loop computes the least fixed point. *)
Lemma expand_quotes_exact refs :
  let r := expand_quotes (size visible) visible qr ∅ refs in
  (∀ n, n ∈ tokens r ↔ referenced refs n) ∧ (o_scope r = true ↔ reads_scope refs).
Proof.
  cbn zeta. destruct (expand_quotes_spec (size visible) refs ∅ refs) as (expanded & He & Hp).
  - constructor; try done; try set_solver; [intros n; apply ref_text|by left].
  - unfold unexpanded. rewrite <-length_map_to_list. apply length_filter.
  - destruct He as [Hb Hbs Hs Hsc Ht Ha].
    set (r := expand_quotes (size visible) visible qr ∅ refs) in *.
    assert (Hclosed : ∀ n s, n ∈ tokens r → visible !! n = Some s → s ∈ expanded).
    { intros n s Hn Hv. destruct (decide (s ∈ expanded)) as [|Hni]; [done|]. exfalso.
      assert (Hin : s ∈ pending_sources expanded r) by (apply pending_spec; eauto).
      rewrite Hp in Hin. by apply elem_of_nil in Hin. }
    assert (Hcomplete : ∀ n, referenced refs n → n ∈ tokens r).
    { induction 1 as [n Hn|n s q m _ IH Hv Hq Hm]; [auto|]. by eapply Ht; [eapply Hclosed|..]. }
    split; [split; [apply Hs|apply Hcomplete]|]. split; [apply Hsc|].
    intros [Ho|(n & s & q & Hn & Hv & Hq & Ho)]; [auto|].
    by eapply Ha; [eapply Hclosed; [by apply Hcomplete|]|..].
Qed.
End Expansion.

(** The names whose bindings a block receives, given the visible bindings and the
    references of the quoted bodies bound so far: none for [sh] and [shell]; for
    bash, the names of braced expansions, of arithmetic contexts and of spliced
    session variables; for any other backend, the names of its text and of every
    quoted body that a referenced name is bound to, transitively, or all names
    when one of these reads the whole scope. *)
Definition receives `{UT : UnicodeTables} (visible : scope) (qr : gmap nat References)
    (backend : BackendInterface) (body : list OIr) (name : str) : Prop :=
  let refs := fst (collect_exec_references body no_references) in
  if decide (canonical backend = lit "bash") then
    name ∈ bash_braced_references body ∪ bash_arithmetic_references body ∪ bash_special_splices body
  else if decide (canonical backend = lit "shell" ∨ canonical backend = lit "sh") then False
  else reads_scope visible qr refs ∨ referenced visible qr refs name.

Lemma sort_ids_sorted l : StronglySorted (≤) (sort_ids l).
Proof. apply Sorted_StronglySorted; [apply _|]. apply Sorted_merge_sort. apply _. Qed.

Lemma shim_scope_spec `{UT : UnicodeTables} stack backend body qr :
  StronglySorted (≤) (shim_scope_sources stack backend body qr) ∧
  ∀ x, x ∈ shim_scope_sources stack backend body qr ↔
    ∃ name, lookup_scope name stack = Some x ∧ receives (visible_bindings stack) qr backend body name.
Proof.
  unfold receives, shim_scope_sources, SHELL_RECEIVES_REFERENCED_LETS, REFLECTION_FULL_SCOPE_FALLBACK.
  assert (Hshell : canonical backend ∈ SHELL_BACKENDS ↔
    canonical backend = lit "bash" ∨ canonical backend = lit "shell" ∨ canonical backend = lit "sh").
  { unfold SHELL_BACKENDS. cbn [fmap list_fmap]. rewrite !elem_of_cons, elem_of_nil. tauto. }
  destruct (decide (canonical backend = lit "bash")) as [Hbash|Hbash].
  { rewrite (bool_decide_eq_true_2 (canonical backend ∈ _)) by tauto.
    rewrite (bool_decide_eq_true_2 (canonical backend = _)) by done. cbn [negb andb].
    split; [apply sort_ids_sorted|]. intros x. rewrite elem_of_sort_ids, scope_sources_spec.
    setoid_rewrite bool_decide_eq_true.
    split; intros (name & ? & ?); exists name; auto. }
  rewrite (bool_decide_eq_false_2 (canonical backend = _)) by done. cbn [negb].
  destruct (decide (canonical backend = lit "shell" ∨ canonical backend = lit "sh")) as [Hsh|Hsh].
  { rewrite bool_decide_eq_true_2 by tauto. split; [constructor|]. intros x. rewrite elem_of_nil.
    split; [done|]. by intros (? & _ & ?). }
  rewrite bool_decide_eq_false_2 by tauto. cbn [andb].
  destruct (collect_exec_references body no_references) as [refs reflective]. cbn [fst].
  destruct (expand_quotes_exact (visible_bindings stack) qr refs) as [Ht Ho].
  rewrite orb_false_r. unfold visible_scope_sources.
  destruct (o_scope (expand_quotes _ _ _ _ _)) eqn:E; (split; [apply sort_ids_sorted|]); intros x;
    rewrite elem_of_sort_ids, scope_sources_spec; setoid_rewrite bool_decide_eq_true || idtac.
  - split; intros (name & H1 & H2); exists name; [|done]. split; [done|]. left. by apply Ho.
  - setoid_rewrite Ht. split; intros (name & H1 & H2); exists name; [by split; [|right]|].
    split; [|done]. destruct H2 as [H2|?]; [|done]. apply Ho in H2. congruence.
Qed.

(** C7. A block that runs in an external process receives exactly the visible
    bindings it references, each at its innermost binding, in identifier order:
    none for [sh] and [shell]; for bash, the names of braced expansions, of
    arithmetic contexts and of spliced session variables; for any other backend,
    the names of its text and of every quoted body that a referenced name is
    bound to, transitively, or the whole scope when one of these reads it. *)
Theorem shim_scope_exact `{UT : UnicodeTables} (stack : list scope) (backend : BackendInterface)
    (body : list OIr) (qr : gmap nat References) :
  let received := shim_scope_sources stack backend body qr in
  StronglySorted (≤) received ∧
  (∀ x, x ∈ received ↔
     ∃ name, lookup_scope name stack = Some x ∧ receives (visible_bindings stack) qr backend body name).
Proof. apply shim_scope_spec. Qed.
