(* ===== verification/PlanData.v ===== *)
(** * Data edges, exactly

    Which bindings each node of a plan reads, without the scope stack of the
    planner: a binding is visible at a node when it is complete before the node
    and every region around the binding is also around the node, and a name means
    its latest visible binding. *)

From S2P Require Import Prelude.
From S2P Require Import Utf8.
From S2P Require Import BackendCatalog.
From S2P Require Import Syntax.
From S2P Require Import Ir.
From S2P Require Import BashScan.
From S2P Require Import ExecutionPlan.
From S2P Require Import PlanTheorems.
From S2P Require Import PlanSchedules.
From S2P Require Import ScopeTheorems.
From stdpp Require Import options.

#[local] Open Scope nat_scope.

Section Data.
Context `{DG : !Digests, UT : !UnicodeTables}.
Context (fl : list OIr).
#[local] Set Default Proof Using "Type".

(** ** Visible bindings of the preorder [fl] *)

Definition store_at (name : str) (s : nat) : Prop := ∃ expr, fl !! s = Some (Store name expr).

Definition visible_at (k : nat) (name : str) (s : nat) : Prop :=
  store_at name s ∧ fin fl s ≤ k ∧ ∀ x, x < s → s < fin fl x → k < fin fl x.

Definition latest (V : nat → Prop) (s : nat) : Prop := V s ∧ ∀ s', V s' → s' ≤ s.

(** The quoted body that a binding holds, as the references it makes. *)
Definition quoted_at (x : nat) (r : References) : Prop :=
  ∃ name lang env attr backend body,
    fl !! x = Some (Store name (Exec lang env attr backend body)) ∧
    is_quote_interface backend = true ∧ r = fst (collect_exec_references body no_references).

(** The bindings that an instruction reads by itself. *)
Definition reads_binding (env : scope) (qr : gmap nat References) (node : OIr) (s : nat) : Prop :=
  match node with
  | Load name => env !! name = Some s
  | Invoke fn_name _ _ => fn_name = lit "scope" ∧ ∃ name, env !! name = Some s
  | Exec _ _ attr backend body =>
      execution backend = Shim ∧ (∃ name, env !! name = Some s ∧ receives env qr backend body name) ∨
      ∃ name, attr_capability_binding attr = Some name ∧ env !! name = Some s
  | Text _ | Store _ _ | NativeLeaf _ _ _ _ _ => False
  end.

(** Node [j] has exactly the data edges it should have. *)
Definition settled (es : list PlanEdge) (j : nat) : Prop :=
  ∃ node env qr, fl !! j = Some node ∧
    (∀ name s, env !! name = Some s ↔ latest (visible_at j name) s) ∧
    (∀ x r, qr !! x = Some r ↔ x < j ∧ quoted_at x r) ∧
    ∀ s, edge s j Data ∈ es ↔ reads_binding env qr node s.

(** ** Regions are nested *)

Context (Hnest : ∀ x y, x < y → y < fin fl x → fin fl y ≤ fin fl x).

(** The region that directly encloses position [k] ends at [L]. *)
Definition level (k L : nat) : Prop := ∀ x, x < k → k < fin fl x → L ≤ fin fl x.

Definition level_visible (k L : nat) (name : str) (s : nat) : Prop :=
  store_at name s ∧ fin fl s ≤ k ∧ ∀ x, x < s → s < fin fl x → L ≤ fin fl x.

Definition exact (stack : list scope) (k L : nat) : Prop :=
  ∀ name s, lookup_scope name stack = Some s ↔ latest (level_visible k L name) s.

Lemma latest_ext (V W : nat → Prop) s : (∀ x, V x ↔ W x) → latest V s ↔ latest W s.
Proof. intros H. unfold latest. setoid_rewrite H. done. Qed.

Lemma level_visible_at k L name s : level k L → k < L → level_visible k L name s ↔ visible_at k name s.
Proof.
  intros Hl Hk. unfold level_visible, visible_at. split; intros (H1 & H2 & H3); split_and!; try done;
    intros x Hx Hs; specialize (H3 x Hx Hs); [lia|]. apply Hl; [|done]. pose proof (fin_gt fl s). lia.
Qed.

Lemma store_size name s : store_at name s → S s < fin fl s.
Proof.
  intros [expr Hs]. unfold fin. rewrite Hs. unfold plan_size. rewrite flatten_children. cbn [length children_of].
  rewrite flatten_nodes_cons, length_app. pose proof (plan_size_pos expr). unfold plan_size in *. lia.
Qed.

Lemma level_enter k L : level k L → S k < fin fl k → level (S k) (fin fl k).
Proof using Hnest.
  intros Hl Hk x Hx Hf. destruct (decide (x = k)) as [->|]; [done|]. apply Hnest; lia.
Qed.

Lemma level_next k L : level k L → fin fl k < L → level (fin fl k) L.
Proof using Hnest.
  intros Hl Hk x Hx Hf. pose proof (fin_gt fl k).
  destruct (lt_eq_lt_dec x k) as [[?| ->]|?]; [apply Hl; lia|lia|].
  assert (fin fl x ≤ fin fl k) by (apply Hnest; lia). lia.
Qed.

(** Entering a region shows the bindings of the position before it. *)
Lemma visible_enter k L name s :
  level k L → fin fl k ≤ L → S k < fin fl k →
  level_visible (S k) (fin fl k) name s ↔ level_visible k L name s.
Proof using Hnest.
  intros Hl HL Hk. split; intros (Hs & Hf & Hx); split_and!; try done.
  - pose proof (fin_gt fl s). pose proof (store_size _ _ Hs).
    destruct (decide (fin fl s ≤ k)); [done|]. exfalso.
    assert (fin fl k ≤ fin fl s) by (apply Hnest; lia). lia.
  - pose proof (store_size _ _ Hs). intros x H1 H2. specialize (Hx x H1 H2). apply Hl; lia.
  - lia.
  - intros x H1 H2. specialize (Hx x H1 H2). lia.
Qed.

(** Leaving a region adds its own binding and hides those inside. *)
Lemma visible_next k L name s :
  level k L → fin fl k < L →
  level_visible (fin fl k) L name s ↔ level_visible k L name s ∨ s = k ∧ store_at name k.
Proof using Hnest.
  intros Hl HL. pose proof (fin_gt fl k). split.
  - intros (Hs & Hf & Hx). pose proof (fin_gt fl s). destruct (lt_eq_lt_dec s k) as [[Hlt| ->]|Hgt].
    + left. split_and!; try done. destruct (decide (fin fl s ≤ k)); [done|].
      assert (L ≤ fin fl s) by (apply Hl; lia). lia.
    + by right.
    + assert (L ≤ fin fl k) by (apply Hx; lia). lia.
  - intros [(Hs & Hf & Hx)|[-> Hs]]; (split_and!; [done|lia|]); [done|].
    intros x H1 H2. apply Hl; lia.
Qed.

Lemma lookup_scope_bind name id stack n :
  stack ≠ [] →
  lookup_scope n (bind_name name id stack) = if decide (n = name) then Some id else lookup_scope n stack.
Proof.
  destruct stack as [|sc stack]; [done|]. intros _. simpl. case_decide as Hn.
  - subst. by rewrite lookup_insert_eq.
  - by rewrite lookup_insert_ne.
Qed.

Lemma exact_enter stack k L :
  exact stack k L → level k L → fin fl k ≤ L → S k < fin fl k → exact (∅ :: stack) (S k) (fin fl k).
Proof using Hnest.
  intros He Hl HL Hk name s. simpl. rewrite lookup_empty. rewrite (He name s). apply latest_ext. intros x.
  by rewrite visible_enter.
Qed.

Lemma exact_next stack k L node :
  stack ≠ [] → fl !! k = Some node → exact stack k L → level k L → fin fl k < L →
  exact (match node with Store name _ => bind_name name k stack | _ => stack end) (fin fl k) L.
Proof using Hnest.
  intros Hne Hk He Hl HL name s.
  assert (Hvis : ∀ x, level_visible (fin fl k) L name x ↔ level_visible k L name x ∨ x = k ∧ store_at name k)
    by (intros; by apply visible_next).
  rewrite (latest_ext _ _ _ Hvis).
  assert (Hold : ¬ store_at name k → lookup_scope name stack = Some s ↔
    latest (λ x, level_visible k L name x ∨ x = k ∧ store_at name k) s).
  { intros Hn. rewrite (He name s). apply latest_ext. tauto. }
  destruct node as [|n|n expr| | |]; try (apply Hold; intros [e He']; congruence).
  rewrite lookup_scope_bind by done. case_decide as Hn; [|apply Hold; intros [e He']; congruence].
  subst n. assert (Hst : store_at name k) by (by exists expr). split.
  - intros [= <-]. split; [by right|]. intros x [(_ & Hf & _)|[-> _]]; [|done]. pose proof (fin_gt fl x). lia.
  - intros [[(_ & Hf & _)|[-> _]] Hmax]; [|done]. specialize (Hmax k ltac:(by right)).
    pose proof (fin_gt fl s). lia.
Qed.

(** ** What a step of the planner adds *)

Definition member_ok (b : PlanBuilder) : Prop :=
  ∀ u v kd, (u, v, kd) ∈ edge_membership b ↔ edge u v kd ∈ b_edges b.

Lemma add_edge_elem u v kd b :
  member_ok b →
  member_ok (add_edge u v kd b) ∧
  ∀ e, e ∈ b_edges (add_edge u v kd b) ↔ e ∈ b_edges b ∨ e = edge u v kd.
Proof.
  intros Hm. unfold add_edge. case_bool_decide as Hin.
  { split; [done|]. intros e. split; [by left|]. intros [?| ->]; [done|by apply Hm]. }
  unfold member_ok in *. cbn [b_edges edge_membership].
  setoid_rewrite elem_of_app. setoid_rewrite list_elem_of_singleton. split; [|done].
  intros u' v' kd'. rewrite elem_of_union, elem_of_singleton, Hm. unfold edge.
  split; intros [?|?]; simplify_eq; auto.
Qed.

Lemma add_data_elem sources id b :
  member_ok b →
  member_ok (add_data_edges sources id b) ∧
  b_nodes (add_data_edges sources id b) = b_nodes b ∧
  quote_references (add_data_edges sources id b) = quote_references b ∧
  ∀ e, e ∈ b_edges (add_data_edges sources id b) ↔ e ∈ b_edges b ∨ ∃ s, s ∈ sources ∧ e = edge s id Data.
Proof.
  unfold add_data_edges. revert b. induction sources as [|x sources IH]; intros b Hm; simpl.
  { split_and!; try done. intros e. split; [by left|]. intros [?|(s & Hs & _)]; [done|by apply elem_of_nil in Hs]. }
  destruct (add_edge_elem x id Data b Hm) as [Hm' He].
  destruct (IH (add_edge x id Data b) Hm') as (H1 & H2 & H3 & H4).
  split_and!; [done|rewrite H2; by unfold add_edge; case_bool_decide|
    rewrite H3; by unfold add_edge; case_bool_decide|].
  intros e. rewrite H4, He. setoid_rewrite elem_of_cons. naive_solver.
Qed.

(** The sources of the data edges of one node. *)
Definition node_sources (node : OIr) (stack : list scope) (qr : gmap nat References) : list nat :=
  match node with
  | Load name => option_list (lookup_scope name stack)
  | Invoke fn_name _ _ =>
      if bool_decide (fn_name = lit "scope") then sort_ids (scope_sources (λ _, true) stack) else []
  | Exec _ _ attr backend body =>
      (if bool_decide (execution backend = Shim) then shim_scope_sources stack backend body qr else []) ++
      match attr_capability_binding attr with
      | Some name => option_list (lookup_scope name stack)
      | None => []
      end
  | Text _ | Store _ _ | NativeLeaf _ _ _ _ _ => []
  end.

Lemma elem_of_option_list (o : option nat) s : s ∈ option_list o ↔ o = Some s.
Proof. destruct o; simpl; rewrite ?list_elem_of_singleton, ?elem_of_nil; naive_solver. Qed.

Lemma node_sources_spec node stack qr s :
  s ∈ node_sources node stack qr ↔ reads_binding (visible_bindings stack) qr node s.
Proof.
  destruct node as [t|name|name e|f m args|kd i pr d args|lang env attr backend body]; simpl;
    try apply elem_of_nil.
  - rewrite elem_of_option_list, visible_bindings_lookup. done.
  - setoid_rewrite visible_bindings_lookup. case_bool_decide; [|rewrite elem_of_nil; tauto].
    rewrite elem_of_sort_ids, scope_sources_spec.
    split; [intros (n & _ & ?)|intros (_ & n & ?)]; eauto.
  - setoid_rewrite visible_bindings_lookup. rewrite elem_of_app. apply Morphisms_Prop.or_iff_morphism.
    + case_bool_decide; [|rewrite elem_of_nil; tauto].
      destruct (shim_scope_spec stack backend body qr) as [_ ->]. tauto.
    + destruct (attr_capability_binding attr) as [n|]; [rewrite elem_of_option_list|rewrite elem_of_nil].
      * split; [eauto|]. by intros (? & [= <-] & ?).
      * split; [done|]. by intros (? & [=] & _).
Qed.

Lemma add_data_edges_app l1 l2 id b :
  add_data_edges (l1 ++ l2) id b = add_data_edges l2 id (add_data_edges l1 id b).
Proof. apply foldl_app. Qed.

Lemma add_edge_option (o : option nat) id b :
  match o with Some s => add_edge s id Data b | None => b end = add_data_edges (option_list o) id b.
Proof. by destruct o. Qed.

Lemma node_reads_sources node id stack b :
  node_reads node id stack b =
    match node with
    | Store _ (Exec _ _ _ backend body) =>
        if is_quote_interface backend
        then record_quote id (fst (collect_exec_references body no_references)) b else b
    | _ => add_data_edges (node_sources node stack (quote_references b)) id b
    end.
Proof.
  destruct node as [t|name|name [| | | | |]|f m args|kd i pr d args|lang env attr backend body]; try done; simpl.
  - apply add_edge_option.
  - by case_bool_decide.
  - rewrite add_data_edges_app.
    case_bool_decide; destruct (attr_capability_binding attr) as [n|]; try done; by rewrite add_edge_option.
Qed.

Lemma enter_node_elem node parent prev b :
  member_ok b →
  let b' := enter_node node parent prev b in
  member_ok b' ∧ length (b_nodes b') = S (length (b_nodes b)) ∧
  quote_references b' = quote_references b ∧
  ∀ s j, edge s j Data ∈ b_edges b' ↔ edge s j Data ∈ b_edges b.
Proof.
  intros Hm. cbn zeta. unfold enter_node. set (k := length (b_nodes b)).
  set (b1 := push_node _ b). assert (Hm1 : member_ok b1) by exact Hm.
  assert (Hadd : ∀ u v kd b0, member_ok b0 → kd ≠ Data →
    member_ok (add_edge u v kd b0) ∧ b_nodes (add_edge u v kd b0) = b_nodes b0 ∧
    quote_references (add_edge u v kd b0) = quote_references b0 ∧
    ∀ s j, edge s j Data ∈ b_edges (add_edge u v kd b0) ↔ edge s j Data ∈ b_edges b0).
  { intros u v kd b0 Hm0 Hk. destruct (add_edge_elem u v kd b0 Hm0) as [? He].
    split_and!; [done|by unfold add_edge; case_bool_decide..|].
    intros s j. rewrite He. unfold edge. split; [|tauto]. intros [?|[=]]; [done|congruence]. }
  assert (Hlen : length (b_nodes b1) = S k) by (simpl; rewrite length_app; simpl; lia).
  destruct parent as [p|], prev as [s0|]; cbn zeta.
  - destruct (Hadd k p Structural b1) as (H1 & H2 & H3 & H4); [done|done|].
    destruct (Hadd s0 k Sequence (add_edge k p Structural b1)) as (? & H6 & H7 & H8); [done|done|].
    rewrite H6, H2, H7, H3. split_and!; try done. intros. by rewrite H8, H4.
  - destruct (Hadd k p Structural b1) as (H1 & H2 & H3 & H4); [done|done|]. by rewrite H2, H3.
  - destruct (Hadd s0 k Sequence b1) as (H1 & H2 & H3 & H4); [done|done|]. by rewrite H2, H3.
  - done.
Qed.

(** ** The invariant *)

Record exact_ok (b : PlanBuilder) : Prop := {
  ex_member : member_ok b;
  ex_quotes : ∀ x r, quote_references b !! x = Some r ↔ x < length (b_nodes b) ∧ quoted_at x r;
  ex_range : ∀ s j, edge s j Data ∈ b_edges b → j < length (b_nodes b);
  ex_settled : ∀ j, j < length (b_nodes b) → settled (b_edges b) j;
}.

Lemma settled_ext es es' j :
  (∀ s, edge s j Data ∈ es' ↔ edge s j Data ∈ es) → settled es j → settled es' j.
Proof. intros H (node & env & qr & ? & ? & ? & He). exists node, env, qr. split_and!; try done. intros. by rewrite H. Qed.

Lemma quoted_step k node r (m : gmap nat References) x :
  fl !! k = Some node → (∀ x r, m !! x = Some r ↔ x < k ∧ quoted_at x r) →
  (match node with
   | Store _ (Exec _ _ _ backend body) =>
       if is_quote_interface backend
       then <[k := fst (collect_exec_references body no_references)]> m else m
   | _ => m
   end) !! x = Some r ↔ x < S k ∧ quoted_at x r.
Proof.
  intros Hk Hm.
  assert (Hsplit : x < S k ∧ quoted_at x r ↔ (x < k ∧ quoted_at x r) ∨ (x = k ∧ quoted_at k r)).
  { destruct (decide (x = k)) as [->|]; [|lia || intuition lia]. intuition lia. }
  rewrite Hsplit, <-Hm.
  assert (Hno : ¬ quoted_at k r → m !! x = Some r ↔ m !! x = Some r ∨ x = k ∧ quoted_at k r) by tauto.
  destruct node as [|n|n [| | | | |lang env attr backend body]| | |];
    try (apply Hno; intros (? & ? & ? & ? & ? & ? & ? & _); congruence).
  destruct (is_quote_interface backend) eqn:Hq;
    [|apply Hno; intros (? & ? & ? & ? & ? & ? & ? & ? & _); congruence].
  destruct (decide (x = k)) as [->|Hne].
  - rewrite lookup_insert_eq. split.
    + intros [= <-]. right. split; [done|]. by exists n, lang, env, attr, backend, body.
    + intros [Hl|[_ (? & ? & ? & ? & ? & ? & Hs & _ & ->)]]; [apply Hm in Hl; lia|]. congruence.
  - rewrite lookup_insert_ne by done. tauto.
Qed.

(** The data edges and the quoted bodies that a node adds for itself. *)
Lemma node_reads_elem node k stack b :
  member_ok b → fl !! k = Some node →
  (∀ x r, quote_references b !! x = Some r ↔ x < k ∧ quoted_at x r) →
  let b' := node_reads node k stack b in
  member_ok b' ∧ b_nodes b' = b_nodes b ∧
  (∀ x r, quote_references b' !! x = Some r ↔ x < S k ∧ quoted_at x r) ∧
  ∀ s j, edge s j Data ∈ b_edges b' ↔
    edge s j Data ∈ b_edges b ∨ j = k ∧ reads_binding (visible_bindings stack) (quote_references b) node s.
Proof.
  intros Hm Hk Hq. cbn zeta. rewrite node_reads_sources. set (qr := quote_references b) in *.
  assert (Hquotes := λ x r, quoted_step k node r qr x Hk Hq).
  destruct (add_data_elem (node_sources node stack qr) k b Hm) as (H1 & H2 & H3 & H4).
  assert (H5 : ∀ s j, edge s j Data ∈ b_edges (add_data_edges (node_sources node stack qr) k b) ↔
    edge s j Data ∈ b_edges b ∨ j = k ∧ reads_binding (visible_bindings stack) qr node s).
  { intros s j. rewrite H4. setoid_rewrite node_sources_spec. unfold edge. split.
    - intros [?|(s' & ? & [= -> ->])]; auto.
    - intros [?|[-> ?]]; eauto. }
  destruct node as [|n|n e| | |]; try (split_and!; [done|done| |done]; intros x r; rewrite H3; apply Hquotes).
  assert (Hb : ∀ s j, edge s j Data ∈ b_edges b ↔ edge s j Data ∈ b_edges b ∨ j = k ∧ False) by tauto.
  destruct e as [| | | | |lang env attr backend body]; try (split_and!; [done|done|apply Hquotes|done]).
  destruct (is_quote_interface backend); split_and!; try done; apply Hquotes.
Qed.

(** Planning the node itself settles it. *)
Lemma enter_exact node parent prev b stack L :
  let k := length (b_nodes b) in
  exact_ok b → fl !! k = Some node → exact stack k L → level k L → k < L →
  let b' := node_reads node k stack (enter_node node parent prev b) in
  exact_ok b' ∧ length (b_nodes b') = S k.
Proof.
  intros k [Hm Hq Hr Hs] Hk He Hl HL. cbn zeta. fold k in Hq, Hr, Hs.
  destruct (enter_node_elem node parent prev b Hm) as (Hm1 & Hn1 & Hq1 & He1).
  set (b1 := enter_node node parent prev b) in *. fold k in Hn1. rewrite <-Hq1 in Hq.
  destruct (node_reads_elem node k stack b1 Hm1 Hk Hq) as (H1 & H2 & H3 & H4). setoid_rewrite He1 in H4.
  set (b2 := node_reads node k stack b1) in *. rewrite H2. split; [|done].
  constructor; rewrite ?H2, ?Hn1; [done|done| |].
  - intros s j [Hj|[-> _]]%H4; [apply Hr in Hj; lia|lia].
  - intros j Hj. destruct (decide (j = k)) as [->|Hne].
    + exists node, (visible_bindings stack), (quote_references b1). split_and!; [done| |done|].
      * intros name s. rewrite visible_bindings_lookup, (He name s). apply latest_ext.
        intros x. by apply level_visible_at.
      * intros s. rewrite H4. split; [intros [Hj'%Hr|[_ ?]]; [lia|done]|auto].
    + apply (settled_ext (b_edges b)); [|apply Hs; lia]. intros s. rewrite H4. tauto.
Qed.

(** Planning a subtree settles its nodes and changes the innermost scope only. *)
Definition settles (node : OIr) : Prop := ∀ b stack parent prev rest L,
  let k := length (b_nodes b) in
  exact_ok b → drop k fl = flatten_node_for_plan node ++ rest → stack ≠ [] →
  exact stack k L → level k L → k + plan_size node ≤ L →
  let '(b', stack', _) := add_node node b stack parent prev in
  exact_ok b' ∧ length (b_nodes b') = k + plan_size node ∧ tail stack' = tail stack ∧ stack' ≠ [] ∧
  (k + plan_size node < L → exact stack' (k + plan_size node) L).

Lemma add_list_exact ns : Forall settles ns → ∀ b stack parent prev rest L,
  let k := length (b_nodes b) in
  exact_ok b → drop k fl = flatten_nodes_for_plan ns ++ rest → stack ≠ [] →
  k + length (flatten_nodes_for_plan ns) ≤ L → (k < L → exact stack k L ∧ level k L) →
  let '(b', stack') := add_list ns b stack parent prev in
  exact_ok b' ∧ length (b_nodes b') = k + length (flatten_nodes_for_plan ns) ∧
  tail stack' = tail stack ∧ stack' ≠ [].
Proof using Hnest.
  induction 1 as [|n ns Hn _ IH]; intros b stack parent prev rest L k Hok Hd Hne HL Hlev.
  { cbn. rewrite Nat.add_0_r. done. }
  rewrite flatten_nodes_cons in Hd, HL |- *. rewrite <-app_assoc in Hd. rewrite length_app in HL |- *.
  fold (plan_size n) in HL |- *. cbn [add_list]. pose proof (plan_size_pos n).
  destruct Hlev as [He Hl]; [lia|].
  specialize (Hn b stack parent prev _ L Hok Hd Hne He Hl ltac:(fold k; lia)). cbn zeta in Hn. fold k in Hn.
  destruct (add_node n b stack parent prev) as [[b1 stack1] id].
  destruct Hn as (Hok1 & Hlen1 & Ht1 & Hne1 & He1).
  destruct (flatten_head _ _ _ _ Hd) as [_ Hfin].
  specialize (IH b1 stack1 parent (Some id) rest L Hok1). cbn zeta in IH. rewrite Hlen1 in IH.
  destruct (add_list ns b1 stack1 parent (Some id)) as [b2 stack2].
  destruct IH as (Hok2 & Hlen2 & Ht2 & Hne2); [by apply drop_flatten in Hd|done|lia| |].
  { intros Hlt. split; [auto|]. rewrite <-Hfin in Hlt |- *. by apply level_next. }
  split_and!; [done|lia|congruence|done].
Qed.

Lemma children_settle node : Forall settles (children_of node) → settles node.
Proof using Hnest.
  intros Hch b stack parent prev rest L k Hok Hd Hne He Hl HL. rewrite add_node_children. cbv zeta. fold k.
  destruct (flatten_head _ _ _ _ Hd) as [Hk Hfin]. pose proof (plan_size_pos node).
  destruct (enter_exact node parent prev b stack L) as [Hok1 Hlen1]; [done|done|done|done|fold k; lia|].
  fold k in Hok1, Hlen1. set (b1 := node_reads _ _ _ _) in *.
  assert (Hsize : plan_size node = S (length (flatten_nodes_for_plan (children_of node))))
    by (unfold plan_size; by rewrite flatten_children).
  pose proof (add_list_exact _ Hch b1 (∅ :: stack) (Some k) None rest (fin fl k)) as Hlist.
  cbv zeta in Hlist. rewrite Hlen1 in Hlist.
  destruct (add_list (children_of node) b1 (∅ :: stack) (Some k) None) as [b2 stack2].
  destruct Hlist as (Hok2 & Hlen2 & Ht2 & _); [done| |done|lia| |].
  { rewrite flatten_children in Hd. apply (drop_flatten _ _ [node]) in Hd. by rewrite Nat.add_1_r in Hd. }
  { intros Hlt. split; [apply (exact_enter stack k L); [done|done|lia|done]|by apply (level_enter k L)]. }
  simpl in Ht2. rewrite Ht2. split_and!; [done|lia| | |].
  - destruct node; try done. by destruct stack.
  - destruct node; try done. by destruct stack.
  - intros Hlt. rewrite <-Hfin in Hlt |- *. pose proof (exact_next stack k L node Hne Hk He Hl Hlt) as Hn.
    by destruct node.
Qed.

Lemma all_settle node : settles node.
Proof using Hnest.
  induction node using OIr_ind'; apply children_settle; simpl;
    [constructor|constructor|by apply Forall_singleton|done|done|].
  destruct (_ && _); [constructor|done].
Qed.

Lemma add_roots_list ns b stack prev : (add_roots ns b stack prev).1 = (add_list ns b stack None prev).1.
Proof.
  revert b stack prev. induction ns as [|n ns IH]; intros b stack prev; [done|]. cbn [add_roots add_list].
  destruct (add_node n b stack None prev) as [[b1 stack1] id].
  specialize (IH b1 stack1 (Some id)). by destruct (add_roots ns b1 stack1 (Some id)).
Qed.
End Data.

(** Regions of a program are nested. *)
Lemma flatten_nested ns x y :
  let fl := flatten_nodes_for_plan ns in x < y → y < fin fl x → fin fl y ≤ fin fl x.
Proof.
  intros fl Hxy Hy. unfold fin in *. destruct (fl !! x) as [nx|] eqn:Hx; [|lia].
  destruct (flatten_at ns fl 0 [] x nx) as [rest Hd]; [by rewrite app_nil_r|done|]. simpl in Hd.
  destruct (lookup_lt_is_Some_2 (flatten_node_for_plan nx) (y - x)) as [ny Hny]; [unfold plan_size in Hy; lia|].
  assert (fl !! y = Some ny) as ->.
  { replace y with (x + (y - x)) by lia. rewrite <-lookup_drop, Hd. by apply lookup_app_l_Some. }
  destruct (subtree_at_node nx (flatten_node_for_plan nx) 0 [] (y - x) ny) as [rest' Hr];
    [by rewrite app_nil_r|done|]. apply (f_equal length) in Hr.
  rewrite length_drop, length_app in Hr. unfold plan_size in *. simpl in Hr. lia.
Qed.

Lemma plan_data_edges `{DG : Digests, UT : UnicodeTables} (p : OIrProgram) (k : nat) (node : OIr) :
  flatten_for_plan p !! k = Some node →
  ∃ env qr,
    (∀ name s, env !! name = Some s ↔ latest (visible_at (flatten_for_plan p) k name) s) ∧
    (∀ x r, qr !! x = Some r ↔ x < k ∧ quoted_at (flatten_for_plan p) x r) ∧
    ∀ s, edge s k Data ∈ edges (plan p) ↔ reads_binding env qr node s.
Proof.
  intros Hk. set (fl := flatten_for_plan p) in *.
  pose proof (add_list_exact fl (flatten_nested (nodes p)) (nodes p)
    ltac:(apply Forall_forall; intros; apply all_settle, flatten_nested)
    new_builder [∅] None None [] (length fl)) as H.
  cbn zeta in H. unfold plan. pose proof (add_roots_list (nodes p) new_builder [∅] None) as Hr.
  destruct (add_roots (nodes p) new_builder [∅] None) as [b rs].
  destruct (add_list (nodes p) new_builder [∅] None None) as [b' stack']. simpl in Hr. subst b'.
  destruct H as (Hok & Hlen & _).
  - constructor; simpl; [intros u v kd; set_solver| |by intros s j ?%elem_of_nil|lia].
    intros x r. rewrite lookup_empty. split; [done|lia].
  - by rewrite app_nil_r.
  - done.
  - done.
  - intros _. split; [|intros x Hx; simpl in Hx; lia]. intros name s. simpl. rewrite lookup_empty.
    split; [done|]. intros [(Hs & Hf & _) _]. pose proof (fin_gt fl s). simpl in Hf. lia.
  - simpl in Hlen. destruct (ex_settled _ _ Hok k) as (node' & env & qr & Hk' & ? & ? & ?);
      [rewrite Hlen; by eapply lookup_lt_Some|].
    rewrite Hk in Hk'. injection Hk' as <-. by exists env, qr.
Qed.

(** C3. Data edges are exact: for every node of a plan there are the environment of
    its latest visible bindings and the quoted bodies bound before it, and the
    data edges into the node start at exactly the bindings it reads in that
    environment: a variable reads its name, [scope()] every name, an external
    block the names it receives and its capability, other nodes nothing. *)
Theorem data_edges_exact `{DG : Digests, UT : UnicodeTables} (p : OIrProgram) (k : nat) (node : OIr) :
  flatten_for_plan p !! k = Some node →
  ∃ env qr,
    (∀ name s, env !! name = Some s ↔ latest (visible_at (flatten_for_plan p) k name) s) ∧
    (∀ x r, qr !! x = Some r ↔ x < k ∧ quoted_at (flatten_for_plan p) x r) ∧
    ∀ s, edge s k Data ∈ edges (plan p) ↔ reads_binding env qr node s.
Proof. apply plan_data_edges. Qed.

Lemma data_edges_exact_witness :
  let DG := {| sha256_hex := λ _, []; hash_bytes := λ _ _, []; specification_sha256_v6 := λ _, [] |} in
  let UT := {| non_ascii_alphanumeric := λ _, false |} in
  let x := Store (lit "x") (Invoke (lit "f") Eager []) in
  let p := {| nodes := [x; Text (lit " "); x; Load (lit "x")] |} in
  edge 3 5 Data ∈ edges (plan p) ∧ edge 0 5 Data ∉ edges (plan p) ∧
  latest (visible_at (flatten_for_plan p) 5 (lit "x")) 3.
Proof.
  intros DG UT x p.
  destruct (data_edges_exact p 5 (Load (lit "x")) eq_refl) as (env & qr & He & _ & Hr).
  assert (H3 : edge 3 5 Data ∈ edges (plan p)) by (apply (bool_decide_unpack _); vm_compute; exact I).
  split; [exact H3|]. apply Hr in H3. split; [|apply He; exact H3].
  intros H0. apply Hr in H0. simpl in H0, H3. congruence.
Defined.
