(* ===== verification/DispatchTheorems.v ===== *)
(** * Properties of dispatch classification

    The climbs end and agree with their indexed form; a block is unordered only
    under an explicit [autonomous] schedule; and whatever is classified for a local
    worker satisfies the effect predicate that the worker relies on. *)

From S2P Require Import Prelude.
From S2P Require Import Environment.
From S2P Require Import BackendCatalog.
From S2P Require Import Ir.
From S2P Require Import ExecutionPlan.
From S2P Require Import Effects.
From S2P Require Import EffectsTheorems.
From S2P Require Import DispatchModel.
From S2P Require Import Topological.
From S2P Require Import PlanTheorems.
From S2P Require Import PlanSchedules.
From stdpp Require Import options.

#[local] Open Scope nat_scope.

(** [u] has [v] as its only structural parent, of kind [k]. *)
Definition only_parent (p : ExecutionPlan) (u v : PlanNodeId) (k : PlanNodeKind) : Prop :=
  structural_parents p None u = Ok [v] ∧ kind_at p v = Ok k.

(** Nodes that a member's expansion may cross on the way to its group. *)
Definition member_transparent (k : PlanNodeKind) : bool :=
  match k with PStore _ => true | _ => transparent_exec k end.

(** Nodes that inherit the policy of what encloses them. *)
Definition policy_transparent (k : PlanNodeKind) : bool :=
  match k with
  | PSchedule _ SAutonomous _ | PSchedule _ SLazy _ => false
  | PExec _ _ _ _ => transparent_exec k
  | _ => true
  end.

Definition is_group (k : PlanNodeKind) : bool := match k with PGroup _ _ => true | _ => false end.
Definition is_autonomous (k : PlanNodeKind) : bool := match k with PSchedule _ SAutonomous _ => true | _ => false end.

(** A climb through transparent parents. *)
Definition climbs (p : ExecutionPlan) (transparent : PlanNodeKind → bool) : relation PlanNodeId :=
  rtc (λ u v, ∃ k, only_parent p u v k ∧ transparent k = true).

Lemma member_loop_sound fuel p visited u g m :
  member_loop fuel p None visited u = Ok (Some (g, m)) →
  climbs p member_transparent u m ∧ ∃ k, only_parent p m g k ∧ is_group k = true.
Proof.
  revert visited u. induction fuel as [|fuel IH]; intros visited u; cbn [member_loop policy_loop]; [done|].
  case_bool_decide; [done|]. destruct (structural_parents p None u) as [parents| | |] eqn:Hp; try done. cbn [obind].
  destruct parents as [|v [|]]; [done| |done]. destruct (kind_at p v) as [k| | |] eqn:Hk; try done. cbn [obind].
  assert (Ho : only_parent p u v k) by done. intros Hres.
  assert (Hstep : member_transparent k = true →
    member_loop fuel p None ({[u]} ∪ visited) v = Ok (Some (g, m)) →
    climbs p member_transparent u m ∧ ∃ k, only_parent p m g k ∧ is_group k = true).
  { intros Ht Hl. apply IH in Hl as [Hc Hg]. split; [|done]. eapply rtc_l; [|exact Hc]. eauto. }
  destruct k; try done; [by apply Hstep| |].
  - simplify_eq. split; [apply rtc_refl|eauto].
  - destruct (transparent_exec _) eqn:Ht; [|done]. by apply Hstep.
Qed.

Lemma policy_loop_sound fuel p visited u :
  policy_loop fuel p None visited u = Ok true →
  ∃ w s k, climbs p policy_transparent u w ∧ only_parent p w s k ∧ is_autonomous k = true.
Proof.
  revert visited u. induction fuel as [|fuel IH]; intros visited u; cbn [member_loop policy_loop]; [done|].
  case_bool_decide; [done|]. destruct (structural_parents p None u) as [parents| | |] eqn:Hp; try done. cbn [obind].
  destruct parents as [|v [|]]; [done| |done]. destruct (kind_at p v) as [k| | |] eqn:Hk; try done. cbn [obind].
  assert (Ho : only_parent p u v k) by done. intros Hres.
  assert (Hstep : policy_transparent k = true → policy_loop fuel p None ({[u]} ∪ visited) v = Ok true →
    ∃ w s k, climbs p policy_transparent u w ∧ only_parent p w s k ∧ is_autonomous k = true).
  { intros Ht (w & s & k' & Hc & ? & ?)%IH. exists w, s, k'. split; [|done]. eapply rtc_l; [|exact Hc]. eauto. }
  destruct k as [| | | | | | |fn sk ac|]; try by apply Hstep.
  - destruct sk; [by apply Hstep|done|]. exists u, v, (PSchedule fn SAutonomous ac). split; [apply rtc_refl|done].
  - destruct (transparent_exec _) eqn:Ht; [|done]. by apply Hstep.
Qed.

(** ** The climbs end *)

Section Climb.
Context (p : ExecutionPlan).

Lemma kind_at_bound v : v < length (plan_nodes p) → ∃ k, kind_at p v = Ok k.
Proof. intros Hv. unfold kind_at. destruct (lookup_lt_is_Some_2 (plan_nodes p) v Hv) as [n ->]. eauto. Qed.

(** The nodes a climb from [start] can visit. *)
Definition universe (start : PlanNodeId) : gset nat := {[ start ]} ∪ list_to_set (seq 0 (length (plan_nodes p))).

Lemma universe_size start : size (universe start) ≤ S (length (plan_nodes p)).
Proof.
  unfold universe. rewrite size_union_alt, size_singleton.
  assert (size ((list_to_set (seq 0 (length (plan_nodes p))) : gset nat) ∖ {[start]}) ≤ length (plan_nodes p)); [|lia].
  etrans; [apply (subseteq_size _ (list_to_set (seq 0 (length (plan_nodes p))))); set_solver|].
  rewrite size_list_to_set by apply NoDup_seq. by rewrite length_seq.
Qed.

Lemma in_universe start v : v < length (plan_nodes p) → v ∈ universe start.
Proof. intros Hv. unfold universe. rewrite elem_of_union, elem_of_list_to_set, elem_of_seq. right. lia. Qed.

Lemma visit_measure start visited u fuel :
  visited ⊆ universe start → u ∈ universe start → u ∉ visited →
  size (universe start) - size visited < S fuel →
  {[u]} ∪ visited ⊆ universe start ∧ size (universe start) - size ({[u]} ∪ visited) < fuel.
Proof.
  intros Hs Hu Hn Hf. assert (Hs' : {[u]} ∪ visited ⊆ universe start) by set_solver.
  split; [done|]. apply subseteq_size in Hs'. rewrite size_union in * by set_solver. rewrite size_singleton in *. lia.
Qed.

Context (Hb : in_bounds (length (plan_nodes p)) (edges p)).

Lemma parents_bound u v : structural_parents p None u = Ok [v] → v < length (plan_nodes p).
Proof using Hb.
  unfold structural_parents. cbn [obind]. intros [= E].
  assert (Hv : v ∈ edge_to <$> filter (λ e, edge_kind e = Structural ∧ edge_from e = u) (edges p)) by (rewrite E; set_solver).
  apply list_elem_of_fmap in Hv as (e & -> & [_ He]%list_elem_of_filter).
  unfold in_bounds in Hb. rewrite Forall_forall in Hb. by apply Hb in He as [_ ?].
Qed.

Lemma member_loop_total start fuel visited u :
  visited ⊆ universe start → u ∈ universe start → size (universe start) - size visited < fuel →
  ∃ r, member_loop fuel p None visited u = Ok r.
Proof using Hb.
  revert visited u. induction fuel as [|fuel IH]; intros visited u Hs Hu Hf; cbn [member_loop policy_loop]; [lia|].
  case_bool_decide as Hv; [eauto|]. destruct (structural_parents p None u) as [parents| | |] eqn:Hp; try done. cbn [obind].
  destruct parents as [|v [|]]; eauto. pose proof (parents_bound u v Hp) as Hvb.
  destruct (kind_at_bound v Hvb) as [k ->]. cbn [obind].
  destruct (visit_measure start visited u fuel Hs Hu Hv Hf) as [Hs' Hf'].
  destruct (IH _ v Hs' (in_universe start v Hvb) Hf') as [r Hr].
  destruct k; eauto. destruct (transparent_exec _); eauto.
Qed.

Lemma policy_loop_total start fuel visited u :
  visited ⊆ universe start → u ∈ universe start → size (universe start) - size visited < fuel →
  ∃ r, policy_loop fuel p None visited u = Ok r.
Proof using Hb.
  revert visited u. induction fuel as [|fuel IH]; intros visited u Hs Hu Hf; cbn [member_loop policy_loop]; [lia|].
  case_bool_decide as Hv; [eauto|]. destruct (structural_parents p None u) as [parents| | |] eqn:Hp; try done. cbn [obind].
  destruct parents as [|v [|]]; eauto. pose proof (parents_bound u v Hp) as Hvb.
  destruct (kind_at_bound v Hvb) as [k ->]. cbn [obind].
  destruct (visit_measure start visited u fuel Hs Hu Hv Hf) as [Hs' Hf'].
  destruct (IH _ v Hs' (in_universe start v Hvb) Hf') as [r Hr].
  destruct k as [| | | | | | |fn [] ac|]; eauto. destruct (transparent_exec _); eauto.
Qed.

Lemma autonomous_member_total u : ∃ r, autonomous_member p u = Ok r.
Proof using Hb.
  unfold autonomous_member, autonomous_member_with_index, nearest_policy_schedule_is_autonomous, climb_fuel.
  destruct (member_loop_total u (S (S (length (plan_nodes p)))) ∅ u) as [[[g m]|] ->];
    [set_solver|unfold universe; set_solver|pose proof (universe_size u); lia| |by eexists].
  cbn [obind]. destruct (policy_loop_total g (S (S (length (plan_nodes p)))) ∅ g) as [b ->];
    [set_solver|unfold universe; set_solver|pose proof (universe_size g); lia|]. eexists. done.
Qed.
End Climb.

(** ** The index does not change the answers *)

Section Indexed.
Context (p : ExecutionPlan) (x : ExecutionPlanIndex).
Context (Hv : validate p (length (roots p)) = Ok tt) (Hx : index_new p = Ok x).

Lemma validated_bounds : in_bounds (length (plan_nodes p)) (edges p).
Proof using Hv. by apply validate_inv in Hv as [? _]. Qed.

Lemma parents_indexed u :
  u < length (plan_nodes p) → structural_parents p (Some x) u = structural_parents p None u.
Proof using Hv Hx.
  intros Hu. destruct (proj2 (index_new_spec p) Hv) as (x' & Hx' & _ & _ & H). rewrite Hx in Hx'. simplify_eq.
  unfold structural_parents. rewrite (proj2 (H u Hu)). cbn [obind]. do 2 f_equal.
  rewrite list_filter_filter. apply list_filter_iff. naive_solver.
Qed.

Lemma member_loop_indexed fuel visited u :
  u < length (plan_nodes p) → member_loop fuel p (Some x) visited u = member_loop fuel p None visited u.
Proof using Hv Hx.
  revert visited u. induction fuel as [|fuel IH]; intros visited u Hu; cbn [member_loop]; [done|].
  case_bool_decide; [done|]. rewrite parents_indexed by done.
  destruct (structural_parents p None u) as [parents| | |] eqn:Hp; try done. cbn [obind].
  destruct parents as [|v [|]]; try done. pose proof (parents_bound p validated_bounds u v Hp).
  destruct (kind_at p v) as [k| | |]; try done. cbn [obind]. destruct k; try done; by rewrite IH.
Qed.

Lemma policy_loop_indexed fuel visited u :
  u < length (plan_nodes p) → policy_loop fuel p (Some x) visited u = policy_loop fuel p None visited u.
Proof using Hv Hx.
  revert visited u. induction fuel as [|fuel IH]; intros visited u Hu; cbn [policy_loop]; [done|].
  case_bool_decide; [done|]. rewrite parents_indexed by done.
  destruct (structural_parents p None u) as [parents| | |] eqn:Hp; try done. cbn [obind].
  destruct parents as [|v [|]]; try done. pose proof (parents_bound p validated_bounds u v Hp).
  destruct (kind_at p v) as [k| | |]; try done. cbn [obind].
  destruct k as [| | | | | | |fn [] ac|]; try done; by rewrite IH.
Qed.

Lemma autonomous_member_index_agrees u :
  u < length (plan_nodes p) → autonomous_member_indexed p x u = autonomous_member p u.
Proof using Hv Hx.
  intros Hu. unfold autonomous_member_indexed, autonomous_member, autonomous_member_with_index,
    nearest_policy_schedule_is_autonomous. rewrite member_loop_indexed by done.
  destruct (member_loop _ p None ∅ u) as [[[g m]|]| | |] eqn:Hm; try done. cbn [obind].
  apply member_loop_sound in Hm as (_ & k & [Hp _] & _).
  rewrite policy_loop_indexed; [done|]. by eapply parents_bound; [apply validated_bounds|].
Qed.

Lemma ephemeral_group_index_agrees u oir :
  u < length (plan_nodes p) → autonomous_ephemeral_group_indexed p x u oir = autonomous_ephemeral_group p u oir.
Proof using Hv Hx.
  intros Hu. unfold autonomous_ephemeral_group_indexed, autonomous_ephemeral_group, autonomous_ephemeral_group_with_index.
  destruct oir; try done. destruct (_ || _); [done|].
  pose proof (autonomous_member_index_agrees u Hu) as E.
  unfold autonomous_member_indexed, autonomous_member in E. by rewrite E.
Qed.
End Indexed.

(** Every climb ends in an answer, and a member is found only through explicit
    source structure. *)
Lemma autonomous_member_sound p u g m :
  autonomous_member p u = Ok (Some (g, m)) →
  climbs p member_transparent u m ∧ (∃ k, only_parent p m g k ∧ is_group k = true) ∧
  ∃ w s k, climbs p policy_transparent g w ∧ only_parent p w s k ∧ is_autonomous k = true.
Proof.
  unfold autonomous_member, autonomous_member_with_index, nearest_policy_schedule_is_autonomous.
  destruct (member_loop _ p None ∅ u) as [[[g' m']|]| | |] eqn:Hm; try done. cbn [obind].
  destruct (policy_loop _ p None ∅ g') as [[|]| | |] eqn:Hl; try done. cbn [obind]. intros [= <- <-].
  apply member_loop_sound in Hm as [? ?]. apply policy_loop_sound in Hl. done.
Qed.

(** C31. Unordered execution is opt-in.  For every validated plan the search for an
    autonomous member returns an answer on every node, the indexed search returns
    the same one, and it names a group and member only when the node reaches the
    member through stores and fresh attribute-free blocks, the member's only
    structural parent is the group, and climbing on from the group through nodes
    that inherit their policy meets an explicit [autonomous] schedule before any
    [lazy] one and before any persistent, attributed or O block. *)
Theorem autonomous_is_explicit (p : ExecutionPlan) :
  validate p (length (roots p)) = Ok tt →
  (∀ u, ∃ r, autonomous_member p u = Ok r) ∧
  (∀ x u, index_new p = Ok x → u < length (plan_nodes p) → autonomous_member_indexed p x u = autonomous_member p u) ∧
  (∀ u g m, autonomous_member p u = Ok (Some (g, m)) →
    climbs p member_transparent u m ∧ (∃ k, only_parent p m g k ∧ is_group k = true) ∧
    ∃ w s k, climbs p policy_transparent g w ∧ only_parent p w s k ∧ is_autonomous k = true).
Proof.
  intros Hv. split_and!.
  - intros u. by apply autonomous_member_total, validated_bounds.
  - intros x u Hx. by apply autonomous_member_index_agrees.
  - apply autonomous_member_sound.
Qed.

Lemma autonomous_is_explicit_witness :
  let node i k := {| node_id := i; node_kind := k |} in
  let p := {| roots := [0];
              plan_nodes := [node 0 (PSchedule (lit "autonomous") SAutonomous 1); node 1 (PGroup All 1); node 2 PText];
              edges := [edge 1 0 Structural; edge 2 1 Structural] |} in
  autonomous_member p 2 = Ok (Some (1, 2)) ∧
  ∃ w s k, climbs p policy_transparent 1 w ∧ only_parent p w s k ∧ is_autonomous k = true.
Proof.
  intros node p. split; [vm_compute; reflexivity|].
  destruct (autonomous_is_explicit p) as (_ & _ & H); [vm_compute; reflexivity|].
  destruct (H 2 1 2) as (_ & _ & Hs); [vm_compute; reflexivity|exact Hs].
Defined.

(** ** Local workers *)

Section Workers.
Context `{DG : !Digests, UT : !UnicodeTables} (validate_descriptor : str → nat → bool).

Lemma no_attr_summary lang env_id backend id :
  effect_summary_for_plan_node validate_descriptor id (PExec lang env_id None backend) =
  inr (exec_summary env_id None backend).
Proof.
  unfold effect_summary_for_plan_node.
  change (parse_declaration None) with (inr empty_declaration : EffectError + EffectDeclaration).
  cbn [in_plan_node rbind]. rewrite apply_checked_eq.
  unfold downgraded, declared, classified, empty_declaration. cbn [purity serial_host decl_reads decl_writes].
  rewrite bool_decide_eq_false_2 by done. cbn [andb].
  change (has_declared_resources _) with false. change (has_declared_host_resources _) with false.
  rewrite !andb_false_r. cbn [andb]. f_equal.
  destruct (exec_summary env_id None backend). unfold set_accesses. cbn. by rewrite !(right_id_L ∅ (∪)).
Qed.

Lemma renderer_summary env_id backend :
  pure backend = true → execution backend = InlineValue → canonical backend ∈ TRUSTED_INLINE →
  exec_summary env_id None backend = summary_pure.
Proof.
  intros Hp He Hc. apply verified_pure_spec, exec_summary_pure. unfold trusted_inline.
  by rewrite Hp, He, !bool_decide_eq_true_2.
Qed.

Lemma fresh_not_persistent env_id : is_fresh (from_encoded env_id) = true → is_persistent (from_encoded env_id) = false.
Proof. by destruct (from_encoded env_id). Qed.

Lemma classify_native_safe p id oir s :
  native_adapter_matches p id oir = true → effect_summary_for_plan_node validate_descriptor id (plan_kind oir) = inr s →
  effect_contract_worker_safe s oir = true.
Proof.
  unfold native_adapter_matches. intros Hm.
  assert (Hd : is_Some (native_leaf_source_descriptor oir)).
  { destruct (node_kind <$> _) as [[]|]; try done. destruct descriptor; [|done].
    destruct (native_leaf_source_descriptor oir); eauto. done. }
  destruct oir as [| | | |kind interface prov desc args|]; try (by destruct Hd). cbn [plan_kind effect_summary_for_plan_node].
  destruct Hd as [d ->]. destruct (validate_descriptor _ _); [|done]. intros [= <-]. by vm_compute.
Qed.

Lemma ephemeral_total p u oir :
  in_bounds (length (plan_nodes p)) (edges p) → ∃ r, autonomous_ephemeral_group p u oir = Ok r.
Proof.
  intros Hb. unfold autonomous_ephemeral_group, autonomous_ephemeral_group_with_index.
  destruct oir; eauto. destruct (_ || _); eauto.
  destruct (autonomous_member_total p Hb u) as [r Hr]. unfold autonomous_member in Hr. rewrite Hr. eexists. done.
Qed.

Lemma ephemeral_exec p u lang env_id attr backend body g :
  autonomous_ephemeral_group p u (Exec lang env_id attr backend body) = Ok (Some g) →
  is_fresh (from_encoded env_id) = true ∧ attr = None ∧ execution backend = Shim.
Proof.
  unfold autonomous_ephemeral_group, autonomous_ephemeral_group_with_index.
  destruct (is_fresh (from_encoded env_id)); [|done]. simpl. do 2 (case_bool_decide; [|done]). done.
Qed.

Lemma shim_safe lang env_id backend body id s :
  is_fresh (from_encoded env_id) = true → execution backend = Shim →
  effect_summary_for_plan_node validate_descriptor id (PExec lang env_id None backend) = inr s →
  effect_contract_worker_safe s (Exec lang env_id None backend body) = true.
Proof.
  intros Hf He. rewrite no_attr_summary. intros [= <-]. cbn [effect_contract_worker_safe].
  assert (Ht : trusted_inline None backend = false).
  { unfold trusted_inline. rewrite He, (bool_decide_eq_false_2 (Shim = InlineValue)) by done. by rewrite andb_false_r. }
  rewrite Hf, He. unfold exec_summary. rewrite Ht, He, fresh_not_persistent by done. reflexivity.
Qed.

Lemma renderer_safe lang env_id backend body id s :
  pure backend = true → execution backend = InlineValue → canonical backend ∈ TRUSTED_INLINE →
  effect_summary_for_plan_node validate_descriptor id (PExec lang env_id None backend) = inr s →
  effect_contract_worker_safe s (Exec lang env_id None backend body) = true.
Proof.
  intros Hp He Hc. rewrite no_attr_summary, renderer_summary by done. intros [= <-].
  cbn [effect_contract_worker_safe]. rewrite He, (bool_decide_eq_false_2 (InlineValue = Shim)), andb_false_r by done.
  reflexivity.
Qed.

Lemma load_safe name id s :
  effect_summary_for_plan_node validate_descriptor id (PLoad name) = inr s →
  effect_contract_worker_safe s (Load name) = true.
Proof.
  intros [= <-]. unfold effect_contract_worker_safe. cbn [reads set_accesses]. by rewrite elements_singleton.
Qed.

(** What a worker may rely on when a task kind was chosen for it. *)
Definition dispatchable (p : ExecutionPlan) (id : PlanNodeId) (oir : OIr) (k : TaskKind) : Prop :=
  adapter_matches (task_adapter k) p id oir = Ok true ∧
  ∀ s, effect_summary_for_plan_node validate_descriptor id (plan_kind oir) = inr s →
       effect_contract_worker_safe s oir = true.

Lemma classify_ok p id oir :
  in_bounds (length (plan_nodes p)) (edges p) →
  ∃ r, classify p oir id = Ok r ∧ ∀ k, r = Some k → dispatchable p id oir k.
Proof.
  intros Hb. unfold classify. destruct (native_adapter_matches p id oir) eqn:Hn.
  { eexists. split; [done|]. intros k [= <-]. split; [by simpl; rewrite Hn|]. intros s. by apply (classify_native_safe p). }
  destruct oir; try (eexists; split; [done|by intros]).
  - eexists. split; [done|]. intros k [= <-]. split; [done|]. intros s. by apply load_safe.
  - destruct (_ && renderer_inputs_statically_preparable _) eqn:Hr.
    + eexists. split; [done|]. destruct (decide (canonical backend ∈ TRUSTED_INLINE)) as [Hc|Hc];
        [rewrite bool_decide_eq_true_2 by done|by rewrite bool_decide_eq_false_2]. intros k [= <-].
      apply andb_true_iff in Hr as [[[Ha%bool_decide_eq_true Hp]%andb_true_iff He%bool_decide_eq_true]%andb_true_iff Hr].
      split; [by cbn [adapter_matches task_adapter]; rewrite Hr|]. subst attr. intros s. cbn [plan_kind]. by apply renderer_safe.
    + destruct (ephemeral_total p id (Exec lang env_id attr backend body) Hb) as [g Hg]. rewrite Hg. cbn [obind].
      eexists. split; [done|]. destruct g as [g|]; [|done]. intros k [= <-].
      split; [unfold adapter_matches, task_adapter; rewrite Hg; cbn [obind]; by rewrite bool_decide_eq_true_2|].
      apply ephemeral_exec in Hg as (Hf & -> & He). intros s. cbn [plan_kind]. by apply shim_safe.
Qed.

(** C27. Classification is total and safe on every node of every program: it never
    panics, and a task kind for a local worker is chosen only when the admitted
    adapter check accepts it again and the effect summary derived from the plan
    passes the hard predicate of the worker: native leaves and loads touch nothing
    but scope bindings, renderers are verified pure and infallible, hosted shims are
    fresh, unknown and own no actor. *)
Theorem classified_is_worker_safe (p : OIrProgram) (id : PlanNodeId) (oir : OIr) :
  flatten_for_plan p !! id = Some oir →
  ∃ r, classify (plan p) oir id = Ok r ∧
    ∀ k, r = Some k → is_local_worker (task_adapter k) = true ∧
      adapter_matches (task_adapter k) (plan p) id oir = Ok true ∧
      ∀ s, effect_summary_for_plan_node validate_descriptor id (plan_kind oir) = inr s →
           effect_contract_worker_safe s oir = true.
Proof.
  intros _. destruct (classify_ok (plan p) id oir (plan_in_bounds p)) as (r & Hr & Hk).
  exists r. split; [done|]. intros k E. split; [by destruct k|]. by apply Hk.
Qed.
End Workers.

Section WorkersWitness.
#[local] Instance zero_digests : Digests :=
  {| sha256_hex := λ _, []; hash_bytes := λ _ _, []; specification_sha256_v6 := λ _, [] |}.
#[local] Instance ascii_tables : UnicodeTables := {| non_ascii_alphanumeric := λ _, false |}.

Lemma classified_is_worker_safe_witness :
  let p := {| nodes := [Load (lit "x")] |} in
  ∃ r, classify (plan p) (Load (lit "x")) 0 = Ok r ∧ r = Some (LoadTask (lit "x")).
Proof.
  intros p. destruct (classified_is_worker_safe (λ _ _, true) p 0 (Load (lit "x"))) as (r & Hr & _); [reflexivity|].
  exists r. split; [exact Hr|]. vm_compute in Hr. injection Hr as <-. vm_compute. reflexivity.
Defined.
End WorkersWitness.
