(* ===== verification/HGraph.v ===== *)
(** * The executable hypergraph

    [crates/ostadix-api/src/hgraph]: [kinds.rs] and [graph.rs] (nodes are values,
    resource versions, completions and admission facts; hyperedges are executable
    operations and constraint relations; the operations that grow the graph) and
    [from_oir.rs] (the projection of an execution plan).  Node and edge ids are the
    counters of the graph; hash maps are [gmap]s; a [BTreeSet] is iterated in the
    derived order of its elements.  An ordinary value that lowering stores is
    always text, so a node keeps it as a string; the fidelity bounds and the actor
    of a node, which only the solver sets, are left out.  The format of error
    messages is one constructor per message. *)

From S2P Require Import Prelude.
From S2P Require Import Environment.
From S2P Require Import Identity.
From S2P Require Import CanonicalCbor.
From S2P Require Import BackendCatalog.
From S2P Require Import Ir.
From S2P Require Import ExecutionPlan.
From S2P Require Import Effects.
From S2P Require Import DispatchModel.
From stdpp Require Import options.

#[local] Open Scope nat_scope.

Abbreviation NodeId := nat.
Abbreviation EdgeId := nat.

(** ** The derived order of [ResourceKey]

    [#[derive(PartialOrd, Ord)]]: constructors in order of declaration, then fields
    from left to right; numbers by value, strings by bytes.  A key is the list of
    its components. *)

Definition world_components (w : WorldIdentity) : list str :=
  [as_str (wi_world w); [generation_get (wi_epoch w)]].
Definition node_components (n : NodeIdentity) : list str :=
  [as_str (ni_world n); as_str (ni_node n); [generation_get (ni_generation n)]].
Definition domain_components (d : DomainIdentity) : list str :=
  node_components (di_node d) ++ [as_str (di_domain d); [generation_get (di_generation d)]].
Definition process_components (p : ProcessIdentity) : list str :=
  domain_components (pi_domain p) ++ [as_str (pi_process p); [generation_get (pi_generation p)]].
Definition owner_components (o : ResourceOwner) : list str :=
  match o with
  | OwnerWorld w => [0%Z] :: world_components w
  | OwnerNode n => [1%Z] :: node_components n
  | OwnerDomain d => [2%Z] :: domain_components d
  | OwnerProcess p => [3%Z] :: process_components p
  end.
Definition resource_components (r : ResourceIdentity) : list str :=
  owner_components (ri_owner r) ++ [resource_path (ri_resource r); [generation_get (ri_generation r)]].

Definition key_components (k : ResourceKey) : list str :=
  [Z.of_nat (key_code k).1] ::
  match k with
  | HostWorld | EvaluatorState | Stdio | NetworkUnknown => []
  | ConcurrentProjectBranch b => [[b]]
  | ProjectBranchPath b path => [[b]; path]
  | WorldState w | NamespaceState w => world_components w
  | GovernorState g =>
      world_components (gi_world g) ++ [[generation_get (gi_term g)]; [generation_get (gi_log_index g)]]
  | NodeState n => node_components n
  | DomainState d => domain_components d
  | ProcessState p => process_components p
  | GovernedResource r | DeviceState r | AcceleratorState r => resource_components r
  | ObjectState o => [as_str (oi_world o); as_str (oi_object o); [generation_get (oi_version o)]]
  | CapabilityState c => [as_str (ci_world c); as_str (ci_capability c)]
  | TaskState t => [as_str (ai_world t); as_str (ai_task t); [generation_get (ai_attempt t)]]
  | ArtifactState a => world_components (ap_world a) ++ [as_sha256 (ap_artifact a)]
  | ScopeBinding s | ProjectPath s | HostPath s | EnvVar s | Network s | Service s => [s]
  | ActorState a => [canonical_language a; [environment a]]
  end.

Fixpoint components_le (a b : list str) : bool :=
  match a, b with
  | [], _ => true
  | _, [] => false
  | x :: a, y :: b => if bool_decide (x = y) then components_le a b else lex_le x y
  end.

Definition resource_le (a b : ResourceKey) : Prop := components_le (key_components a) (key_components b) = true.

#[export] Instance resource_le_dec : RelDecision resource_le.
Proof. unfold resource_le. intros a b. apply _. Defined.

(** Iteration of a [BTreeSet<ResourceKey>] and of a [BTreeSet<NodeId>]. *)
Definition resource_list (s : gset ResourceKey) : list ResourceKey := merge_sort resource_le (elements s).
Definition node_list (s : gset NodeId) : list NodeId := merge_sort (≤) (elements s).

(** ** Kinds *)

Record ActorId : Type := { actor_lang : Z; actor_env : Z }.

Definition DOMAIN_INTEGER : Z := 0x0001.
Definition DOMAIN_STRING : Z := 0x0020.
Definition DOMAIN_ANY : Z := 0x00ff.
Definition REP_I64 : Z := 0x0008.
Definition REP_STR : Z := 0x0400.
Definition REP_ANY : Z := 0x07ff.

Inductive MemOrder : Type := Relaxed | Acquire | Release | AcqRel | SeqCst.

Inductive OcoreOpKind : Type :=
| OAdd | OSub | OMul | ODiv | OLoad | OStore | OInb | OOutb | OVolatileLoad | OVolatileStore
| OAtomicFetch (order : MemOrder).

Inductive OpKind : Type :=
| Additive
| Multiplicative
| Bitwise
| Ordered
| Bounded (value : Z)
| AbiFixed (dom rep : Z)
| Dereferenceable
| FieldAccess (field : str)
| KDataFlow
| KStructuralBarrier
| KSequence
| KActorSerial (actor : ActorId)
| KBatch
| KAll
| KAny
| KRace
| KRequest (kind : str)
| KSchedule (kind : str)
| CacheMemo (cacheable : bool)
| KBackendCrossing (from_lang to_lang : str)
| X86 (mnemonic : str)
| OcoreOp (kind : OcoreOpKind).

Inductive ExecutableOp : Type :=
| XNativeI64 (descriptor_sha256 : str)
| XStore
| LoadBinding
| XInvoke (fn_name : str) (mode : InvokeMode)
| EvalBackend (lang : str) (env : Z)
| InlineBackend (lang : str)
| ForceRequest (kind : str)
| XRequest (kind : str)
| XGroup (mode : GroupMode)
| XSchedule (kind : str)
| MaterializeProject
| BuildRoute (route_id : str)
| RunRoute (route_id : str)
| SelectRoute (policy : str)
| CompareRouteResults.

Inductive ReadyInputPolicy : Type := AllInputs | OrderedFirstSuccess.

Inductive ConstraintOp : Type :=
| CDataFlow
| CStructural
| SequenceControl
| CActorSerial (actor : ActorId)
| EffectOrder (resource : ResourceKey)
| CommitOrder (ordinal : Z)
| CBackendCrossing (from_lang to_lang : str)
| BranchGuard (guard : str)
| CType (kind : OpKind).

Inductive HEdgeKind : Type := Execute (op : ExecutableOp) | Constraint (op : ConstraintOp).

(** [ConstraintOp::from_op_kind]. *)
Definition from_op_kind (k : OpKind) : ConstraintOp :=
  match k with
  | KDataFlow => CDataFlow
  | KStructuralBarrier => CStructural
  | KSequence => SequenceControl
  | KActorSerial a => CActorSerial a
  | KBackendCrossing f t => CBackendCrossing f t
  | other => CType other
  end.

Inductive ValueState : Type := Unresolved | Materialized | Failed (error : str) | DisabledByBranch.

Inductive AdmissionFactKind : Type :=
| FType | EffectFootprint | Dispatch | CapabilityPolicy | Placement | FailurePolicy | ResourceBudget.

(** [AdmissionFactKind::ALL]. *)
Definition ADMISSION_FACTS : list AdmissionFactKind :=
  [FType; EffectFootprint; Dispatch; CapabilityPolicy; Placement; FailurePolicy; ResourceBudget].

Inductive HNodeKind : Type :=
| Value
| ResourceState (resource : ResourceKey) (version : nat)
| Completion (plan_node : PlanNodeId)
| BranchControl (label : str) (version : nat)
| AdmissionEvidence (plan_node : PlanNodeId) (fact : AdmissionFactKind).

#[export] Instance MemOrder_eq_dec : EqDecision MemOrder.
Proof. solve_decision. Defined.
#[export] Instance OcoreOpKind_eq_dec : EqDecision OcoreOpKind.
Proof. solve_decision. Defined.
#[export] Instance ActorId_eq_dec : EqDecision ActorId.
Proof. solve_decision. Defined.
#[export] Instance OpKind_eq_dec : EqDecision OpKind.
Proof. solve_decision. Defined.
#[export] Instance ExecutableOp_eq_dec : EqDecision ExecutableOp.
Proof. solve_decision. Defined.
#[export] Instance ConstraintOp_eq_dec : EqDecision ConstraintOp.
Proof. solve_decision. Defined.
#[export] Instance HEdgeKind_eq_dec : EqDecision HEdgeKind.
Proof. solve_decision. Defined.
#[export] Instance ValueState_eq_dec : EqDecision ValueState.
Proof. solve_decision. Defined.
#[export] Instance AdmissionFactKind_eq_dec : EqDecision AdmissionFactKind.
Proof. solve_decision. Defined.
#[export] Instance AdmissionFactKind_countable : Countable AdmissionFactKind.
Proof.
  refine (inj_countable'
    (λ f, match f with FType => 0 | EffectFootprint => 1 | Dispatch => 2 | CapabilityPolicy => 3
                     | Placement => 4 | FailurePolicy => 5 | ResourceBudget => 6 end)
    (λ n, match n with 0 => FType | 1 => EffectFootprint | 2 => Dispatch | 3 => CapabilityPolicy
                     | 4 => Placement | 5 => FailurePolicy | _ => ResourceBudget end) _).
  by intros [].
Defined.
#[export] Instance HNodeKind_eq_dec : EqDecision HNodeKind.
Proof. solve_decision. Defined.

(** ** Nodes and edges *)

Record HNode : Type := {
  h_id : NodeId;
  h_kind : HNodeKind;
  h_domain : Z;
  h_rep : Z;
  h_value : option str;
  h_incident : list EdgeId;
  h_state : ValueState;
  h_producer : option EdgeId;
  h_consumers : list EdgeId;
  h_plan_node : option PlanNodeId;
}.

(** [HNode::fresh]. *)
Definition fresh_node : HNode :=
  {| h_id := 0; h_kind := Value; h_domain := DOMAIN_ANY; h_rep := REP_ANY; h_value := None; h_incident := [];
     h_state := Unresolved; h_producer := None; h_consumers := []; h_plan_node := None |}.

(** [HNode::synthetic] of a kind other than [Value]. *)
Definition synthetic_node (kind : HNodeKind) (state : ValueState) : HNode :=
  {| h_id := 0; h_kind := kind; h_domain := 0%Z; h_rep := 0%Z; h_value := None; h_incident := [];
     h_state := state; h_producer := None; h_consumers := []; h_plan_node := None |}.

Definition resource_state (resource : ResourceKey) (version : nat) : HNode :=
  synthetic_node (ResourceState resource version) (if bool_decide (version = 0) then Materialized else Unresolved).

Definition completion (plan_node : PlanNodeId) : HNode := synthetic_node (Completion plan_node) Unresolved.

Definition branch_control (label : str) (version : nat) (materialized : bool) : HNode :=
  synthetic_node (BranchControl label version) (if materialized then Materialized else Unresolved).

Definition admission_evidence (plan_node : PlanNodeId) (fact : AdmissionFactKind) : HNode :=
  synthetic_node (AdmissionEvidence plan_node fact) Materialized.

Definition is_value (n : HNode) : bool := match h_kind n with Value => true | _ => false end.

Inductive PortRole : Type := Input | Output | InOut.
Record Port : Type := { port_node : NodeId; port_role : PortRole }.

#[export] Instance PortRole_eq_dec : EqDecision PortRole.
Proof. solve_decision. Defined.
#[export] Instance Port_eq_dec : EqDecision Port.
Proof. solve_decision. Defined.

Record HEdge : Type := { e_id : EdgeId; e_kind : OpKind; e_op : HEdgeKind; e_ports : list Port }.

(** [HEdge::constraint] and [HEdge::execute]. *)
Definition constraint_edge (kind : OpKind) (ports : list Port) : HEdge :=
  {| e_id := 0; e_kind := kind; e_op := Constraint (from_op_kind kind); e_ports := ports |}.
Definition execute_edge (op : ExecutableOp) (ports : list Port) : HEdge :=
  {| e_id := 0; e_kind := KSequence; e_op := Execute op; e_ports := ports |}.

Definition is_execute (e : HEdge) : bool := match e_op e with Execute _ => true | _ => false end.

Definition input_port (n : NodeId) : Port := {| port_node := n; port_role := Input |}.
Definition output_port (n : NodeId) : Port := {| port_node := n; port_role := Output |}.

Record ExecInfo : Type := {
  info_edge : EdgeId;
  value_output : NodeId;
  inputs : list NodeId;
  outputs : list NodeId;
  ordinal : nat;
  info_plan_node : PlanNodeId;
}.

#[export] Instance ExecInfo_eq_dec : EqDecision ExecInfo.
Proof. solve_decision. Defined.

Record SequenceDependency : Type := {
  predecessor : PlanNodeId;
  successor : PlanNodeId;
  seq_completion : NodeId;
}.

#[export] Instance SequenceDependency_eq_dec : EqDecision SequenceDependency.
Proof. solve_decision. Defined.

(** ** Graphs *)

Record HGraph : Type := {
  g_nodes : gmap NodeId HNode;
  g_edges : gmap EdgeId HEdge;
  exec_edges : gmap EdgeId HEdge;
  op_map : gmap PlanNodeId ExecInfo;
  effect_summaries : gmap PlanNodeId EffectSummary;
  completion_nodes : gmap PlanNodeId NodeId;
  sequence_dependencies : list SequenceDependency;
  admission_evidence_nodes : gmap (PlanNodeId * AdmissionFactKind) NodeId;
  bindings : gmap str NodeId;
  ir_map : gmap NodeId OIr;
  root_nodes : list NodeId;
  source_plan : option ExecutionPlan;
  next_node : nat;
  next_edge : nat;
}.

(** [HGraph::default]. *)
Definition empty_graph : HGraph :=
  {| g_nodes := ∅; g_edges := ∅; exec_edges := ∅; op_map := ∅; effect_summaries := ∅; completion_nodes := ∅;
     sequence_dependencies := []; admission_evidence_nodes := ∅; bindings := ∅; ir_map := ∅; root_nodes := [];
     source_plan := None; next_node := 0; next_edge := 0 |}.

(** Field updates. *)
Definition with_nodes (g : HGraph) (m : gmap NodeId HNode) (next : nat) : HGraph :=
  {| g_nodes := m; g_edges := g_edges g; exec_edges := exec_edges g; op_map := op_map g;
     effect_summaries := effect_summaries g; completion_nodes := completion_nodes g;
     sequence_dependencies := sequence_dependencies g; admission_evidence_nodes := admission_evidence_nodes g;
     bindings := bindings g; ir_map := ir_map g; root_nodes := root_nodes g; source_plan := source_plan g;
     next_node := next; next_edge := next_edge g |}.

Definition with_edges (g : HGraph) (es xs : gmap EdgeId HEdge) (ops : gmap PlanNodeId ExecInfo) (next : nat) : HGraph :=
  {| g_nodes := g_nodes g; g_edges := es; exec_edges := xs; op_map := ops;
     effect_summaries := effect_summaries g; completion_nodes := completion_nodes g;
     sequence_dependencies := sequence_dependencies g; admission_evidence_nodes := admission_evidence_nodes g;
     bindings := bindings g; ir_map := ir_map g; root_nodes := root_nodes g; source_plan := source_plan g;
     next_node := next_node g; next_edge := next |}.

Definition with_tables (g : HGraph) (summaries : gmap PlanNodeId EffectSummary) (completions : gmap PlanNodeId NodeId)
    (sequences : list SequenceDependency) (evidence : gmap (PlanNodeId * AdmissionFactKind) NodeId) : HGraph :=
  {| g_nodes := g_nodes g; g_edges := g_edges g; exec_edges := exec_edges g; op_map := op_map g;
     effect_summaries := summaries; completion_nodes := completions;
     sequence_dependencies := sequences; admission_evidence_nodes := evidence;
     bindings := bindings g; ir_map := ir_map g; root_nodes := root_nodes g; source_plan := source_plan g;
     next_node := next_node g; next_edge := next_edge g |}.

Definition with_source (g : HGraph) (bs : gmap str NodeId) (ir : gmap NodeId OIr) (rs : list NodeId)
    (plan : option ExecutionPlan) : HGraph :=
  {| g_nodes := g_nodes g; g_edges := g_edges g; exec_edges := exec_edges g; op_map := op_map g;
     effect_summaries := effect_summaries g; completion_nodes := completion_nodes g;
     sequence_dependencies := sequence_dependencies g; admission_evidence_nodes := admission_evidence_nodes g;
     bindings := bs; ir_map := ir; root_nodes := rs; source_plan := plan;
     next_node := next_node g; next_edge := next_edge g |}.

Definition map_nodes (g : HGraph) (m : gmap NodeId HNode) : HGraph := with_nodes g m (next_node g).

(** What the validation of a graph can refuse, one constructor per message. *)
Inductive GraphDefect : Type :=
| SyntheticMetadata | UnregisteredCompletion | BadInitialState
| MissingProducerEdge | ProducerWithoutOutput | RepeatedConsumer | MissingConsumerEdge | ConsumerWithoutInput
| ProvenanceMissingNode | ProvenanceSynthetic | RootMissing | RootSynthetic
| KeyMismatch | MissingEdge | EdgeMappedTwice | NotExecutable | RepeatedPort | OverlappingPorts | PortsDisagree
| InputAbsent | InputNeverProduced | InputWithoutConsumer | ValueOutputAbsent | OrdinaryOutputsDiffer
| CompletionCount | CompletionMapMismatch | OutputAbsent | InconsistentProducer | OutputResolved | SeveralProducers
| NoSummary | AccessesDiffer | UnmappedEdge | CompletionWithoutOperation | SummaryWithoutOperation
| MustReadWrite (r : ResourceKey) | NoExecutableSemantics | NativeWithoutProvenance | NativeWithoutDescriptor | NativeDiffers
| BackendNotUnknown | BackendActor | ProjectNotUnknown | BuildNotPure | SelectInvalid | CompareInvalid
| ReadStates (ins outs : nat) | WriteStates (ins outs : nat) | WriteVersion
| DuplicateVersion | VersionWithoutProducer | VersionUnregistered | VersionNotNext | ChainSkips
| SequencePredecessor | SequenceSuccessor | SequenceCompletionMissing | SequenceNotImplemented
| ValueWithoutPlanNode | ValueOutOfBounds | SeveralValues | ValueWithoutProvenance | ValueCount | RootsDiffer
| NoLowering | LiteralNotMaterialized | OperationMissing | WrongValueOutput | SemanticsDiffer | SummaryDiffers
| ValueInputsDiffer | PredecessorWithoutCompletion | CompletionInputMissing | DuplicateSequences | SequencesDiffer
| SeveralInitialStates | OperationWithoutOir | OperationWithoutCompletion | NoInitialState | StaleState | OpenReaderOmitted
| WriteNotNext | ProducerUnregistered | Cycle | EvidenceCount | EvidenceMissing | EvidenceAbsent | EvidenceInvalid
| EvidenceUnregistered | PlanDiffers | FlattenDiffers | NoProvenance | OirDiffers
| PolicyOperationAbsent | PolicyOperationDiffers | PolicyNoInputs | PolicyInputMissing | PolicyInputNotValue
| PolicyInputUnproduced | PolicyInputNotRoute | ReadyCycle | ConfluenceSize | ConfluenceShape | ConfluencePolicy
| ConfluenceMissing | ConfluencePartial | ConfluenceObservation | ConfluenceCongruence | ConfluenceCommute.

(** One constructor per message. *)
Inductive HGraphError : Type :=
| OperationExists (id : PlanNodeId)
| RepeatedInput (id : PlanNodeId) (n : NodeId)
| MissingInput (id : PlanNodeId) (n : NodeId)
| RepeatedOutput (id : PlanNodeId) (n : NodeId)
| MissingOutput (id : PlanNodeId) (n : NodeId)
| AlreadyProduced (n : NodeId)
| NotUnresolved (n : NodeId) (id : PlanNodeId)
| InputAndOutput (n : NodeId) (id : PlanNodeId)
| ValueNotAnOutput (n : NodeId) (id : PlanNodeId)
| ValueMissing (n : NodeId) (id : PlanNodeId)
| ValueNotOrdinary (n : NodeId) (id : PlanNodeId)
| OrdinaryOutputs (id : PlanNodeId) (count : nat)
| CompletionMissing (n : NodeId)
| NotACompletion (n : NodeId) (id : PlanNodeId)
| CompletionExists (id : PlanNodeId) (n : NodeId)
| EvidenceExists (id : PlanNodeId) (fact : AdmissionFactKind)
| NoOperation (id : PlanNodeId)
| SequenceNodeMissing (n : NodeId)
| NotThePredecessor (from to : PlanNodeId) (n : NodeId)
| PlanRefused (e : PlanError)
| NodeSemanticsMismatch
| RootsMismatch
| FlattenMismatch (got expected : nat)
| EffectRefused (e : EffectError)
| MissingSummary (id : PlanNodeId)
| MissingCompletion (id : PlanNodeId)
| SequenceWithoutCompletion (id : PlanNodeId)
| InvalidGraph (d : GraphDefect).

Abbreviation gresult A := (outcome HGraphError A).

(** ** Growing a graph *)

Definition set_id (id : NodeId) (n : HNode) : HNode :=
  {| h_id := id; h_kind := h_kind n; h_domain := h_domain n; h_rep := h_rep n; h_value := h_value n;
     h_incident := h_incident n; h_state := h_state n; h_producer := h_producer n; h_consumers := h_consumers n;
     h_plan_node := h_plan_node n |}.

Definition set_plan_node (id : PlanNodeId) (n : HNode) : HNode :=
  {| h_id := h_id n; h_kind := h_kind n; h_domain := h_domain n; h_rep := h_rep n; h_value := h_value n;
     h_incident := h_incident n; h_state := h_state n; h_producer := h_producer n; h_consumers := h_consumers n;
     h_plan_node := Some id |}.

Definition push_incident (e : EdgeId) (n : HNode) : HNode :=
  {| h_id := h_id n; h_kind := h_kind n; h_domain := h_domain n; h_rep := h_rep n; h_value := h_value n;
     h_incident := h_incident n ++ [e]; h_state := h_state n; h_producer := h_producer n;
     h_consumers := h_consumers n; h_plan_node := h_plan_node n |}.

Definition push_consumer (e : EdgeId) (n : HNode) : HNode :=
  {| h_id := h_id n; h_kind := h_kind n; h_domain := h_domain n; h_rep := h_rep n; h_value := h_value n;
     h_incident := h_incident n ++ [e]; h_state := h_state n; h_producer := h_producer n;
     h_consumers := h_consumers n ++ [e]; h_plan_node := h_plan_node n |}.

Definition set_producer (e : EdgeId) (id : PlanNodeId) (n : HNode) : HNode :=
  {| h_id := h_id n; h_kind := h_kind n; h_domain := h_domain n; h_rep := h_rep n; h_value := h_value n;
     h_incident := h_incident n ++ [e]; h_state := h_state n; h_producer := Some e;
     h_consumers := h_consumers n; h_plan_node := Some (default id (h_plan_node n)) |}.

Definition add_node (g : HGraph) (n : HNode) : HGraph * NodeId :=
  let id := next_node g in
  (with_nodes g (<[id := set_id id n]> (g_nodes g)) (S id), id).

Definition set_edge_id (id : EdgeId) (e : HEdge) : HEdge :=
  {| e_id := id; e_kind := e_kind e; e_op := e_op e; e_ports := e_ports e |}.

Definition add_edge (g : HGraph) (e : HEdge) : HGraph * EdgeId :=
  let id := next_edge g in
  let m := foldl (λ m port, alter (push_incident id) (port_node port) m) (g_nodes g) (e_ports e) in
  (with_edges (map_nodes g m) (<[id := set_edge_id id e]> (g_edges g)) (exec_edges g) (op_map g) (S id), id).

Fixpoint check_inputs (g : HGraph) (id : PlanNodeId) (seen : gset NodeId) (ins : list NodeId) : gresult (gset NodeId) :=
  match ins with
  | [] => Ok seen
  | n :: ins =>
      if bool_decide (n ∈ seen) then Err (RepeatedInput id n)
      else match g_nodes g !! n with
           | None => Err (MissingInput id n)
           | Some _ => check_inputs g id ({[ n ]} ∪ seen) ins
           end
  end.

Fixpoint check_outputs (g : HGraph) (id : PlanNodeId) (seen_inputs seen : gset NodeId) (outs : list NodeId) :
    gresult (gset NodeId) :=
  match outs with
  | [] => Ok seen
  | n :: outs =>
      if bool_decide (n ∈ seen) then Err (RepeatedOutput id n)
      else match g_nodes g !! n with
           | None => Err (MissingOutput id n)
           | Some node =>
               if bool_decide (is_Some (h_producer node)) then Err (AlreadyProduced n)
               else if negb (bool_decide (h_state node = Unresolved)) then Err (NotUnresolved n id)
               else if bool_decide (n ∈ seen_inputs) then Err (InputAndOutput n id)
               else check_outputs g id seen_inputs ({[ n ]} ∪ seen) outs
           end
  end.

Definition is_value_at (g : HGraph) (n : NodeId) : bool :=
  match g_nodes g !! n with Some node => is_value node | None => false end.

(** The operation [add_exec_edge] registers once its checks have passed. *)
Definition attach_operation (g : HGraph) (plan_node : PlanNodeId) (op : ExecutableOp) (ins outs : list NodeId)
    (value : NodeId) (ord : nat) : HGraph * EdgeId :=
  let id := next_edge g in
  let edge := set_edge_id id (execute_edge op ((input_port <$> ins) ++ (output_port <$> outs))) in
  let m := foldl (λ m n, alter (push_consumer id) n m) (g_nodes g) ins in
  let m := foldl (λ m n, alter (set_producer id plan_node) n m) m outs in
  let info := {| info_edge := id; value_output := value; inputs := ins; outputs := outs; ordinal := ord;
                 info_plan_node := plan_node |} in
  (with_edges (map_nodes g m) (g_edges g) (<[id := edge]> (exec_edges g)) (<[plan_node := info]> (op_map g)) (S id), id).

Definition add_exec_edge (g : HGraph) (plan_node : PlanNodeId) (op : ExecutableOp) (ins outs : list NodeId)
    (value : NodeId) (ord : nat) : gresult (HGraph * EdgeId) :=
  if bool_decide (is_Some (op_map g !! plan_node)) then Err (OperationExists plan_node)
  else
    let+ seen_inputs := check_inputs g plan_node ∅ ins in
    let+ seen_outputs := check_outputs g plan_node seen_inputs ∅ outs in
    if negb (bool_decide (value ∈ seen_outputs)) then Err (ValueNotAnOutput value plan_node)
    else match g_nodes g !! value with
    | None => Err (ValueMissing value plan_node)
    | Some node =>
        let ordinary := length (filter (λ n, is_value_at g n = true) outs) in
        if negb (is_value node) then Err (ValueNotOrdinary value plan_node)
        else if negb (bool_decide (ordinary = 1)) then Err (OrdinaryOutputs plan_node ordinary)
        else Ok (attach_operation g plan_node op ins outs value ord)
    end.

Definition set_effect_summary (g : HGraph) (id : PlanNodeId) (s : EffectSummary) : HGraph :=
  with_tables g (<[id := s]> (effect_summaries g)) (completion_nodes g) (sequence_dependencies g)
    (admission_evidence_nodes g).

Definition register_completion (g : HGraph) (id : PlanNodeId) (n : NodeId) : HGraph :=
  with_tables g (effect_summaries g) (<[id := n]> (completion_nodes g)) (sequence_dependencies g)
    (admission_evidence_nodes g).

Definition set_completion_node (g : HGraph) (id : PlanNodeId) (n : NodeId) : gresult HGraph :=
  match g_nodes g !! n with
  | None => Err (CompletionMissing n)
  | Some node =>
      if negb (bool_decide (h_kind node = Completion id)) then Err (NotACompletion n id)
      else match completion_nodes g !! id with
           | Some existing =>
               if bool_decide (existing = n) then Ok (register_completion g id n) else Err (CompletionExists id existing)
           | None => Ok (register_completion g id n)
           end
  end.

Definition add_completion_node (g : HGraph) (id : PlanNodeId) : gresult (HGraph * NodeId) :=
  match completion_nodes g !! id with
  | Some existing => Err (CompletionExists id existing)
  | None => let '(g, n) := add_node g (completion id) in Ok (register_completion g id n, n)
  end.

Definition push_input (n : NodeId) (info : ExecInfo) : ExecInfo :=
  {| info_edge := info_edge info; value_output := value_output info; inputs := inputs info ++ [n];
     outputs := outputs info; ordinal := ordinal info; info_plan_node := info_plan_node info |}.

Definition push_port (p : Port) (e : HEdge) : HEdge :=
  {| e_id := e_id e; e_kind := e_kind e; e_op := e_op e; e_ports := e_ports e ++ [p] |}.

Definition add_admission_evidence_input (g : HGraph) (id : PlanNodeId) (fact : AdmissionFactKind) :
    gresult (HGraph * NodeId) :=
  match admission_evidence_nodes g !! (id, fact) with
  | Some _ => Err (EvidenceExists id fact)
  | None =>
      match op_map g !! id with
      | None => Err (NoOperation id)
      | Some info =>
          let edge := info_edge info in
          let '(g, n) := add_node g (admission_evidence id fact) in
          let g := map_nodes g (alter (push_consumer edge) n (g_nodes g)) in
          let+ _ := index_or_panic (exec_edges g !! edge) in
          let g := with_edges g (g_edges g) (alter (push_port (input_port n)) edge (exec_edges g))
                     (alter (push_input n) id (op_map g)) (next_edge g) in
          Ok (with_tables g (effect_summaries g) (completion_nodes g) (sequence_dependencies g)
                (<[(id, fact) := n]> (admission_evidence_nodes g)), n)
      end
  end.

Definition record_sequence_dependency (g : HGraph) (from to : PlanNodeId) (n : NodeId) : gresult HGraph :=
  match g_nodes g !! n with
  | None => Err (SequenceNodeMissing n)
  | Some node =>
      if negb (bool_decide (h_kind node = Completion from)) then Err (NotThePredecessor from to n)
      else
        let dependency := {| predecessor := from; successor := to; seq_completion := n |} in
        Ok (if bool_decide (dependency ∈ sequence_dependencies g) then g
            else with_tables g (effect_summaries g) (completion_nodes g) (sequence_dependencies g ++ [dependency])
                   (admission_evidence_nodes g))
  end.

Definition record_ir (g : HGraph) (n : NodeId) (ir : OIr) : HGraph :=
  with_source g (bindings g) (<[n := ir]> (ir_map g)) (root_nodes g) (source_plan g).

Definition push_root (g : HGraph) (n : NodeId) : HGraph :=
  with_source g (bindings g) (ir_map g) (root_nodes g ++ [n]) (source_plan g).

Definition set_source_plan (g : HGraph) (p : ExecutionPlan) : HGraph :=
  with_source g (bindings g) (ir_map g) (root_nodes g) (Some p).

(** [exec_ops_ordered]: sorted by ordinal, then by plan node. *)
Definition info_le (a b : ExecInfo) : Prop :=
  ordinal a < ordinal b ∨ (ordinal a = ordinal b ∧ info_plan_node a ≤ info_plan_node b).

#[export] Instance info_le_dec : RelDecision info_le.
Proof. unfold info_le. intros a b. apply _. Defined.

Definition exec_ops_ordered (g : HGraph) : list ExecInfo := merge_sort info_le (map_to_list (op_map g)).*2.

(** ** Projection of an execution plan ([from_oir.rs]) *)

Definition plan_result {A} (r : presult A) : gresult A :=
  match r with Ok a => Ok a | Err e => Err (PlanRefused e) | Panic => Panic | NoFuel => NoFuel end.

Definition incoming (x : ExecutionPlanIndex) (n : PlanNodeId) : gresult (list PlanEdge) := plan_result (index_incoming x n).
Definition outgoing (x : ExecutionPlanIndex) (n : PlanNodeId) : gresult (list PlanEdge) := plan_result (index_outgoing x n).
Definition node_kind_at (p : ExecutionPlan) (n : PlanNodeId) : gresult PlanNodeKind := plan_result (kind_at p n).

(** [node_map[&id]]. *)
Definition mapped (node_map : gmap PlanNodeId NodeId) (id : PlanNodeId) : gresult NodeId :=
  index_or_panic (node_map !! id).

Fixpoint mapped_all (node_map : gmap PlanNodeId NodeId) (ids : list PlanNodeId) : gresult (list NodeId) :=
  match ids with
  | [] => Ok []
  | id :: ids => let+ n := mapped node_map id in let+ ns := mapped_all node_map ids in Ok (n :: ns)
  end.

(** The sources of the edges of some kinds, each once, in order of id: the loops of
    [operation_value_inputs] and [exec_crossing_inputs]. *)
Definition sorted_sources (keep : PlanEdge → bool) (es : list PlanEdge) : list PlanNodeId :=
  sort_ids (remove_dups (edge_from <$> filter (λ e, keep e = true) es)).

Definition is_input_edge (e : PlanEdge) : bool := negb (bool_decide (edge_kind e = Sequence)).
Definition is_structural (e : PlanEdge) : bool := bool_decide (edge_kind e = Structural).
Definition is_sequence (e : PlanEdge) : bool := bool_decide (edge_kind e = Sequence).

Definition operation_value_inputs (x : ExecutionPlanIndex) (node_map : gmap PlanNodeId NodeId) (parent : PlanNodeId) :
    gresult (list NodeId) :=
  let+ es := incoming x parent in
  mapped_all node_map (sorted_sources is_input_edge es).

(** [structural_inputs] keeps repeated sources. *)
Definition structural_inputs (x : ExecutionPlanIndex) (node_map : gmap PlanNodeId NodeId) (parent : PlanNodeId) :
    gresult (list NodeId) :=
  let+ es := incoming x parent in
  mapped_all node_map (sort_ids (edge_from <$> filter (λ e, is_structural e = true) es)).

Record ResourceFrontier : Type := { last_write : NodeId; version : nat; open_reads : gset NodeId }.

(** [StateLowering]. *)
Abbreviation StateLowering := (gmap ResourceKey ResourceFrontier).

Section Lowering.
Context `{DG : !Digests} (validate_descriptor : str → nat → bool).

Definition executable_op (k : PlanNodeKind) : option ExecutableOp :=
  match k with
  | PText => None
  | PLoad _ => Some LoadBinding
  | PStore _ => Some XStore
  | PNativeI64 descriptor _ => Some (XNativeI64 (native_leaf_digest (default [] descriptor)))
  | PCall fn_name mode _ => Some (XInvoke fn_name mode)
  | PRequest _ kind _ => Some (XRequest (request_label kind))
  | PGroup mode _ => Some (XGroup mode)
  | PSchedule _ kind _ =>
      match kind with
      | SForce => Some (ForceRequest (lit "force"))
      | other => Some (XSchedule (schedule_label other))
      end
  | PExec _ env_id _ backend =>
      match execution backend with
      | InlineAst | InlineValue => Some (InlineBackend (canonical backend))
      | Shim => Some (EvalBackend (canonical backend) env_id)
      end
  end.

Definition is_executable (k : PlanNodeKind) : bool := bool_decide (is_Some (executable_op k)).

(** *** Sequence predecessors *)

Fixpoint predecessors_loop (fuel : nat) (p : ExecutionPlan) (x : ExecutionPlanIndex) (pending : list PlanNodeId)
    (visited found : gset PlanNodeId) : gresult (gset PlanNodeId) :=
  match fuel with
  | O => NoFuel
  | S fuel =>
      match pending with
      | [] => Ok found
      | source :: pending =>
          if bool_decide (source ∈ visited) then predecessors_loop fuel p x pending visited found
          else
            let+ kind := node_kind_at p source in
            if is_executable kind
            then predecessors_loop fuel p x pending ({[ source ]} ∪ visited) ({[ source ]} ∪ found)
            else
              let+ es := incoming x source in
              (* the vector is a stack: the last element pushed is popped first *)
              predecessors_loop fuel p x (reverse (edge_from <$> filter (λ e, is_sequence e = true) es) ++ pending)
                ({[ source ]} ∪ visited) found
      end
  end.

Definition executable_sequence_predecessors (p : ExecutionPlan) (x : ExecutionPlanIndex) (target : PlanNodeId) :
    gresult (gset PlanNodeId) :=
  let+ es := incoming x target in
  predecessors_loop (S (2 * length (ExecutionPlan.edges p))) p x
    (reverse (edge_from <$> filter (λ e, is_sequence e = true) es)) ∅ ∅.

(** *** Relaxation of source order *)

Definition is_group_kind (k : PlanNodeKind) : bool := match k with PGroup _ _ => true | _ => false end.
Definition is_load_kind (k : PlanNodeKind) : bool := match k with PLoad _ => true | _ => false end.

Definition structural_targets (x : ExecutionPlanIndex) (n : PlanNodeId) : gresult (list PlanNodeId) :=
  let+ es := outgoing x n in Ok (edge_to <$> filter (λ e, is_structural e = true) es).

Fixpoint any_kind (p : ExecutionPlan) (test : PlanNodeId → PlanNodeKind → gresult bool) (ids : list PlanNodeId) :
    gresult bool :=
  match ids with
  | [] => Ok false
  | id :: ids =>
      let+ kind := node_kind_at p id in
      let+ b := test id kind in
      if b then Ok true else any_kind p test ids
  end.

Definition direct_members_of_concurrent_group (p : ExecutionPlan) (x : ExecutionPlanIndex) (left right : PlanNodeId) :
    gresult bool :=
  let+ parents := structural_targets x left in
  any_kind p (λ parent kind,
    if is_group_kind kind
    then let+ others := structural_targets x right in Ok (bool_decide (parent ∈ others))
    else Ok false) parents.

Definition is_left_to_right (k : PlanNodeKind) : bool :=
  match k with
  | PExec _ _ _ backend => bool_decide (execution backend = InlineAst) && bool_decide (canonical backend = lit "O")
  | _ => false
  end.

Definition inside_left_to_right_region (p : ExecutionPlan) (x : ExecutionPlanIndex) (n : PlanNodeId) : gresult bool :=
  let+ parents := structural_targets x n in
  any_kind p (λ _ kind, Ok (is_left_to_right kind)) parents.

Definition verified_read_only (s : EffectSummary) : bool :=
  bool_decide (confidence s = Verified) && negb (unknown s) && bool_decide (actor_state s = None)
  && bool_decide (writes s = ∅) && negb (network s) && negb (spawn s) && negb (clock s).

Definition is_trusted_renderer (k : PlanNodeKind) : bool :=
  match k with
  | PExec _ _ _ backend =>
      pure backend && bool_decide (execution backend = InlineValue) && bool_decide (canonical backend ∈ TRUSTED_INLINE)
  | _ => false
  end.

Definition is_exec_kind (k : PlanNodeKind) : bool := match k with PExec _ _ _ _ => true | _ => false end.
Definition is_text_kind (k : PlanNodeKind) : bool := match k with PText => true | _ => false end.

(** [verified_reorderable_inline] returns its answer with the visited set, which
    the calls on siblings share. *)
Fixpoint verified_reorderable_inline (fuel : nat) (p : ExecutionPlan) (x : ExecutionPlanIndex)
    (summaries : gmap PlanNodeId EffectSummary) (visited : gset PlanNodeId) (n : PlanNodeId) :
    gresult (bool * gset PlanNodeId) :=
  match fuel with
  | O => NoFuel
  | S fuel =>
      if bool_decide (n ∈ visited) then Ok (false, visited)
      else
        let visited := {[ n ]} ∪ visited in
        let+ kind := node_kind_at p n in
        if negb (is_trusted_renderer kind) then Ok (false, visited)
        else
          let+ es := incoming x n in
          (fix children (ids : list PlanNodeId) (visited : gset PlanNodeId) : gresult (bool * gset PlanNodeId) :=
             match ids with
             | [] => Ok (true, visited)
             | child :: ids =>
                 let+ kind := node_kind_at p child in
                 if is_text_kind kind then children ids visited
                 else if negb (is_exec_kind kind) then Ok (false, visited)
                 else match summaries !! child with
                      | Some s =>
                          if is_verified_pure_infallible s then
                            let+ (b, visited) := verified_reorderable_inline fuel p x summaries visited child in
                            if b then children ids visited else Ok (false, visited)
                          else Ok (false, visited)
                      | None => Ok (false, visited)
                      end
             end) (edge_from <$> filter (λ e, is_structural e = true) es) visited
  end.

Definition reorderable (p : ExecutionPlan) (x : ExecutionPlanIndex) (summaries : gmap PlanNodeId EffectSummary)
    (n : PlanNodeId) : gresult bool :=
  let+ (b, _) := verified_reorderable_inline (climb_fuel p) p x summaries ∅ n in Ok b.

(** Whether the two nodes are in different members of one autonomous group. *)
Definition different_members (left right : option (PlanNodeId * PlanNodeId)) : bool :=
  match left, right with
  | Some (lg, lm), Some (rg, rm) => bool_decide (lg = rg) && negb (bool_decide (lm = rm))
  | _, _ => false
  end.

Definition sequence_can_relax (p : ExecutionPlan) (x : ExecutionPlanIndex) (pred succ : PlanNodeId)
    (summaries : gmap PlanNodeId EffectSummary) : gresult bool :=
  let+ grouped := direct_members_of_concurrent_group p x pred succ in
  if grouped then Ok true
  else
    let+ lm := plan_result (autonomous_member_indexed p x pred) in
    let+ rm := plan_result (autonomous_member_indexed p x succ) in
    if different_members lm rm then Ok true
    else match summaries !! pred, summaries !! succ with
    | Some ls, Some rs =>
        let+ lr := inside_left_to_right_region p x pred in
        let+ rr := if lr then Ok true else inside_left_to_right_region p x succ in
        if rr then Ok false
        else
          let+ pk := node_kind_at p pred in
          let+ sk := node_kind_at p succ in
          if is_load_kind pk && is_load_kind sk && verified_read_only ls && verified_read_only rs then Ok true
          else if negb (is_verified_pure_infallible ls && is_verified_pure_infallible rs) then Ok false
          else let+ b := reorderable p x summaries pred in
               if b then reorderable p x summaries succ else Ok false
    | _, _ => Ok false
    end.

(** *** Resource versions *)

(** [StateLowering::frontier]: the entry of a resource, created with its initial
    state on first use. *)
Definition frontier (g : HGraph) (st : StateLowering) (resource : ResourceKey) :
    HGraph * StateLowering * ResourceFrontier :=
  match st !! resource with
  | Some f => (g, st, f)
  | None =>
      let '(g, n) := add_node g (resource_state resource 0) in
      let f := {| last_write := n; version := 0; open_reads := ∅ |} in
      (g, <[resource := f]> st, f)
  end.

(** [StateLowering::read]. *)
Definition read_state (g : HGraph) (st : StateLowering) (resource : ResourceKey) (done_node : NodeId) :
    HGraph * StateLowering * NodeId :=
  let '(g, st, f) := frontier g st resource in
  (g, <[resource := {| last_write := last_write f; version := version f; open_reads := {[ done_node ]} ∪ open_reads f |}]> st,
   last_write f).

(** [StateLowering::write]. *)
Definition write_state (g : HGraph) (st : StateLowering) (resource : ResourceKey) (producer : PlanNodeId) :
    HGraph * StateLowering * (NodeId * list NodeId * NodeId) :=
  let '(g, st, f) := frontier g st resource in
  let '(g, n) := add_node g (resource_state resource (S (version f))) in
  let g := map_nodes g (alter (set_plan_node producer) n (g_nodes g)) in
  (g, <[resource := {| last_write := n; version := S (version f); open_reads := ∅ |}]> st,
   (last_write f, node_list (open_reads f), n)).

(** One resource of the loop of [add_resource_state_transitions]. *)
Definition transition (ws : gset ResourceKey) (producer : PlanNodeId) (done_node : NodeId)
    (acc : HGraph * StateLowering * list NodeId * list NodeId) (resource : ResourceKey) :
    HGraph * StateLowering * list NodeId * list NodeId :=
  let '(g, st, ins, outs) := acc in
  if bool_decide (resource ∈ ws) then
    let '(g, st, (prior, reads, next)) := write_state g st resource producer in
    (g, st, ins ++ prior :: reads, outs ++ [next])
  else
    let '(g, st, n) := read_state g st resource done_node in
    (g, st, ins ++ [n], outs).

Definition add_resource_state_transitions (g : HGraph) (st : StateLowering) (s : EffectSummary) (producer : PlanNodeId)
    (done_node : NodeId) (ins outs : list NodeId) : HGraph * StateLowering * list NodeId * list NodeId :=
  let '(rs, ws) := scheduling_accesses s in
  foldl (transition ws producer done_node) (g, st, ins, outs) (resource_list (rs ∪ ws)).

(** *** Executable edges *)

(** [deduplicate_nodes]: the first occurrences. *)
Fixpoint dedup_from (seen : gset NodeId) (l : list NodeId) : list NodeId :=
  match l with
  | [] => []
  | n :: l => if bool_decide (n ∈ seen) then dedup_from seen l else n :: dedup_from ({[ n ]} ∪ seen) l
  end.

Definition deduplicate_nodes (l : list NodeId) : list NodeId := dedup_from ∅ l.

(** The first loop of [add_execute_edges]: summaries and completion nodes. *)
Fixpoint add_completions (g : HGraph) (ns : list PlanNode) : gresult HGraph :=
  match ns with
  | [] => Ok g
  | n :: ns =>
      if negb (is_executable (node_kind n)) then add_completions g ns
      else match effect_summary_for_plan_node validate_descriptor (node_id n) (node_kind n) with
           | inl e => Err (EffectRefused e)
           | inr s =>
               let+ (g, _) := add_completion_node (set_effect_summary g (node_id n) s) (node_id n) in
               add_completions g ns
           end
  end.

Fixpoint filter_relaxed (p : ExecutionPlan) (x : ExecutionPlanIndex) (succ : PlanNodeId)
    (summaries : gmap PlanNodeId EffectSummary) (preds : list PlanNodeId) : gresult (list PlanNodeId) :=
  match preds with
  | [] => Ok []
  | pred :: preds =>
      let+ relax := sequence_can_relax p x pred succ summaries in
      let+ rest := filter_relaxed p x succ summaries preds in
      Ok (if relax then rest else pred :: rest)
  end.

Fixpoint completions_of (g : HGraph) (preds : list PlanNodeId) : gresult (list NodeId) :=
  match preds with
  | [] => Ok []
  | pred :: preds =>
      match completion_nodes g !! pred with
      | None => Err (SequenceWithoutCompletion pred)
      | Some n => let+ ns := completions_of g preds in Ok (n :: ns)
      end
  end.

Fixpoint record_sequences (g : HGraph) (succ : PlanNodeId) (preds : list PlanNodeId) : gresult HGraph :=
  match preds with
  | [] => Ok g
  | pred :: preds =>
      let+ n := index_or_panic (completion_nodes g !! pred) in
      let+ g := record_sequence_dependency g pred succ n in
      record_sequences g succ preds
  end.

(** The body of the loop over the topological order. *)
Definition lower_operation (p : ExecutionPlan) (x : ExecutionPlanIndex) (node_map : gmap PlanNodeId NodeId)
    (oir_nodes : list OIr) (g : HGraph) (st : StateLowering) (ord : nat) (id : PlanNodeId) :
    gresult (HGraph * StateLowering) :=
  let+ kind := node_kind_at p id in
  match executable_op kind with
  | None => Ok (g, st)
  | Some op =>
      match effect_summaries g !! id with
      | None => Err (MissingSummary id)
      | Some summary =>
          let+ value := mapped node_map id in
          let+ done_node := match completion_nodes g !! id with Some n => Ok n | None => Err (MissingCompletion id) end in
          let+ ins := operation_value_inputs x node_map id in
          let+ preds := executable_sequence_predecessors p x id in
          let+ preserved := filter_relaxed p x id (effect_summaries g) (node_list preds) in
          let+ dones := completions_of g preserved in
          let+ oir := index_or_panic (oir_nodes !! id) in
          let+ group := plan_result (autonomous_ephemeral_group_indexed p x id oir) in
          let '(g, st, ins, outs) :=
            match group with
            | None => add_resource_state_transitions g st summary id done_node (ins ++ dones) [value; done_node]
            | Some _ => (g, st, ins ++ dones, [value; done_node])
            end in
          let+ (g, _) := add_exec_edge g id op (deduplicate_nodes ins) (deduplicate_nodes outs) value ord in
          let+ g := record_sequences g id preserved in
          Ok (g, st)
      end
  end.

Fixpoint lower_operations (p : ExecutionPlan) (x : ExecutionPlanIndex) (node_map : gmap PlanNodeId NodeId)
    (oir_nodes : list OIr) (g : HGraph) (st : StateLowering) (ord : nat) (order : list PlanNodeId) : gresult HGraph :=
  match order with
  | [] => Ok g
  | id :: order =>
      let+ (g, st) := lower_operation p x node_map oir_nodes g st ord id in
      lower_operations p x node_map oir_nodes g st (S ord) order
  end.

Definition add_execute_edges (g : HGraph) (p : ExecutionPlan) (x : ExecutionPlanIndex)
    (node_map : gmap PlanNodeId NodeId) (oir_nodes : list OIr) : gresult HGraph :=
  let+ g := add_completions g (plan_nodes p) in
  lower_operations p x node_map oir_nodes g ∅ 0 (idx_order x).

(** *** Value nodes and constraint edges *)

Definition hnode_for_oir (node : OIr) : HNode :=
  match node with
  | Text text =>
      {| h_id := 0; h_kind := Value; h_domain := if bool_decide (text = []) then DOMAIN_ANY else DOMAIN_STRING;
         h_rep := if bool_decide (text = []) then REP_ANY else REP_STR; h_value := Some text; h_incident := [];
         h_state := Materialized; h_producer := None; h_consumers := []; h_plan_node := None |}
  | NativeLeaf _ _ _ _ _ =>
      {| h_id := 0; h_kind := Value; h_domain := DOMAIN_INTEGER; h_rep := REP_I64; h_value := None; h_incident := [];
         h_state := Unresolved; h_producer := None; h_consumers := []; h_plan_node := None |}
  | _ => fresh_node
  end.

Fixpoint add_values (g : HGraph) (node_map : gmap PlanNodeId NodeId) (oir_nodes : list OIr) (ns : list PlanNode) :
    gresult (HGraph * gmap PlanNodeId NodeId) :=
  match ns with
  | [] => Ok (g, node_map)
  | n :: ns =>
      let+ oir := index_or_panic (oir_nodes !! node_id n) in
      let '(g, v) := add_node g (hnode_for_oir oir) in
      let g := map_nodes g (alter (set_plan_node (node_id n)) v (g_nodes g)) in
      add_values (record_ir g v oir) (<[node_id n := v]> node_map) oir_nodes ns
  end.

Definition edge_relation (p : ExecutionPlan) (x : ExecutionPlanIndex) (e : PlanEdge) : gresult OpKind :=
  let+ kind := node_kind_at p (edge_to e) in
  match edge_kind e with
  | Structural =>
      match kind with
      | PStore _ =>
          let+ es := incoming x (edge_to e) in
          Ok (if bool_decide (length (filter (λ e, is_structural e = true) es) = 1) then KDataFlow else KStructuralBarrier)
      | _ => Ok KStructuralBarrier
      end
  | Sequence => Ok KSequence
  | Data => Ok (if is_load_kind kind then KDataFlow else KSequence)
  end.

Fixpoint add_constraints (g : HGraph) (p : ExecutionPlan) (x : ExecutionPlanIndex)
    (node_map : gmap PlanNodeId NodeId) (es : list PlanEdge) : gresult HGraph :=
  match es with
  | [] => Ok g
  | e :: es =>
      let+ kind := edge_relation p x e in
      let+ u := mapped node_map (edge_from e) in
      let+ v := mapped node_map (edge_to e) in
      add_constraints (add_edge g (constraint_edge kind [input_port u; output_port v])).1 p x node_map es
  end.

Definition add_control_relation (g : HGraph) (kind : OpKind) (ins : list NodeId) (out : NodeId) : HGraph :=
  (add_edge g (constraint_edge kind ((input_port <$> ins) ++ [output_port out]))).1.

Definition group_op (mode : GroupMode) : OpKind :=
  match mode with Batch => KBatch | All => KAll | Any => KAny | Race => KRace end.

Definition backend_output_constraints (backend : BackendInterface) : option (Z * Z) :=
  if negb (pure backend) then None
  else if bool_decide (canonical backend ∈ TRUSTED_INLINE) then Some (DOMAIN_STRING, REP_STR) else None.

Definition exec_crossing_inputs (p : ExecutionPlan) (x : ExecutionPlanIndex) (node_map : gmap PlanNodeId NodeId)
    (parent : PlanNodeId) (attr : option str) : gresult (list NodeId) :=
  let cap := attr_capability_binding attr in
  let+ es := incoming x parent in
  mapped_all node_map (sorted_sources (λ e,
    match edge_kind e with
    | Structural => true
    | Data =>
        match node_kind <$> plan_nodes p !! edge_from e, cap with
        | Some (PStore name), Some c => negb (bool_decide (name = c))
        | _, _ => true
        end
    | Sequence => false
    end) es).

Definition add_cache_relation (g : HGraph) (k : PlanNodeKind) (ins : list NodeId) (out : NodeId) : HGraph :=
  match eval_cache_policy k with
  | Some policy => add_control_relation g (CacheMemo (cacheable policy)) ins out
  | None => g
  end.

Definition node_semantics (g : HGraph) (p : ExecutionPlan) (x : ExecutionPlanIndex)
    (node_map : gmap PlanNodeId NodeId) (n : PlanNode) : gresult HGraph :=
  let+ out := mapped node_map (node_id n) in
  let+ ins := structural_inputs x node_map (node_id n) in
  match node_kind n with
  | PExec _ _ attr backend =>
      let g := match backend_output_constraints backend with
               | Some (dom, rep) => (add_edge g (constraint_edge (AbiFixed dom rep) [output_port out])).1
               | None => g
               end in
      let+ crossing := exec_crossing_inputs p x node_map (node_id n) attr in
      let g := foldl (λ g i,
        (add_edge g (constraint_edge (KBackendCrossing (lit "O") (canonical backend)) [input_port i; output_port out])).1)
        g crossing in
      Ok (match eval_cache_policy (node_kind n) with
          | Some _ => add_cache_relation (add_control_relation g (KRequest (lit "eval")) ins out) (node_kind n) ins out
          | None => g
          end)
  | PRequest _ kind _ =>
      Ok (add_cache_relation (add_control_relation g (KRequest (request_label kind)) ins out) (node_kind n) ins out)
  | PGroup mode _ => Ok (add_control_relation g (group_op mode) ins out)
  | PSchedule _ kind _ => Ok (add_control_relation g (KSchedule (schedule_label kind)) ins out)
  | PText | PLoad _ | PStore _ | PCall _ _ _ | PNativeI64 _ _ => Ok g
  end.

Fixpoint add_plan_semantics (g : HGraph) (p : ExecutionPlan) (x : ExecutionPlanIndex)
    (node_map : gmap PlanNodeId NodeId) (ns : list PlanNode) : gresult HGraph :=
  match ns with
  | [] => Ok g
  | n :: ns => let+ g := node_semantics g p x node_map n in add_plan_semantics g p x node_map ns
  end.

Fixpoint push_roots (g : HGraph) (node_map : gmap PlanNodeId NodeId) (rs : list PlanNodeId) : gresult HGraph :=
  match rs with
  | [] => Ok g
  | r :: rs => let+ n := mapped node_map r in push_roots (push_root g n) node_map rs
  end.

Context `{UT : !UnicodeTables}.

(** [build_program_with_plan] up to its last step, the validation of the graph. *)
Definition project_program (prog : OIrProgram) (p : ExecutionPlan) : gresult HGraph :=
  let+ _ := plan_result (validate p (length (nodes prog))) in
  let+ x := plan_result (index_new p) in
  let source := plan prog in
  if negb (bool_decide (plan_nodes p = plan_nodes source)) then Err NodeSemanticsMismatch
  else if negb (bool_decide (roots p = roots source)) then Err RootsMismatch
  else
    let oir_nodes := flatten_for_plan prog in
    if negb (bool_decide (length oir_nodes = length (plan_nodes p)))
    then Err (FlattenMismatch (length oir_nodes) (length (plan_nodes p)))
    else
      let+ (g, node_map) := add_values (set_source_plan empty_graph p) ∅ oir_nodes (plan_nodes p) in
      let+ g := push_roots g node_map (roots p) in
      let+ g := add_constraints g p x node_map (ExecutionPlan.edges p) in
      let+ g := add_plan_semantics g p x node_map (plan_nodes p) in
      add_execute_edges g p x node_map oir_nodes.
End Lowering.
