(* ===== verification/HGraphLowering.v ===== *)
(** * The lowering orders every conflict

    The invariant of the resource frontiers ([StateLowering]) and its consequence:
    in the executable graph two operations with conflicting effects are connected by
    a path of produced and consumed nodes, in the order of the plan. *)

From S2P Require Import Prelude.
From S2P Require Import Reorder.
From S2P Require Import BackendCatalog.
From S2P Require Import Ir.
From S2P Require Import ExecutionPlan.
From S2P Require Import Effects.
From S2P Require Import EffectsTheorems.
From S2P Require Import DispatchModel.
From S2P Require Import Topological.
From S2P Require Import PlanSchedules.
From S2P Require Import DispatchTheorems.
From S2P Require Import HGraph.
From stdpp Require Import options.

#[local] Open Scope nat_scope.

(** ** Growth *)

(** Every node is below the counter. *)
Definition bounded (g : HGraph) : Prop := ∀ n, is_Some (g_nodes g !! n) → n < next_node g.

(** [g'] has more nodes than [g] and is otherwise the same. *)
Record grown (g g' : HGraph) : Prop := {
  grown_nodes : g_nodes g ⊆ g_nodes g';
  grown_ops : op_map g' = op_map g;
  grown_completions : completion_nodes g' = completion_nodes g;
  grown_summaries : effect_summaries g' = effect_summaries g;
  grown_edges : exec_edges g' = exec_edges g;
  grown_sequences : sequence_dependencies g' = sequence_dependencies g;
  grown_next : next_node g ≤ next_node g';
  grown_next_edge : next_edge g' = next_edge g;
  grown_bounded : bounded g';
}.

Lemma grown_refl g : bounded g → grown g g.
Proof. by constructor. Qed.

Lemma grown_trans g1 g2 g3 : grown g1 g2 → grown g2 g3 → grown g1 g3.
Proof.
  intros [] []. constructor; try congruence; [by etrans|lia|done].
Qed.

Lemma grown_lookup g g' n node : grown g g' → g_nodes g !! n = Some node → g_nodes g' !! n = Some node.
Proof. intros [H _ _ _ _ _ _ _ _] Hn. by eapply lookup_weaken. Qed.

Lemma fresh_lookup g : bounded g → g_nodes g !! next_node g = None.
Proof.
  intros Hb. destruct (g_nodes g !! next_node g) as [node|] eqn:E; [|done].
  assert (next_node g < next_node g) by (apply Hb; rewrite E; eauto). lia.
Qed.

Lemma add_node_grown g node g' n :
  bounded g → add_node g node = (g', n) →
  grown g g' ∧ n = next_node g ∧ next_node g' = S n ∧ g_nodes g' !! n = Some (set_id n node).
Proof.
  unfold add_node. intros Hb [= <- <-]. split_and!; try done; [|by simpl; rewrite lookup_insert_eq].
  constructor; try done; simpl; [apply insert_subseteq, fresh_lookup; done|lia|].
  intros m. simpl. destruct (decide (m = next_node g)) as [-> |Hm]; [lia|]. rewrite lookup_insert_ne by done.
  intros Hs%Hb. lia.
Qed.

(** The kind and state of a node without a producer. *)
Definition pending (g : HGraph) (n : NodeId) (k : HNodeKind) (s : ValueState) : Prop :=
  ∃ node, g_nodes g !! n = Some node ∧ h_kind node = k ∧ h_state node = s ∧ h_producer node = None.

Lemma pending_grown g g' n k s : grown g g' → pending g n k s → pending g' n k s.
Proof. intros Hg (node & Hn & ?). exists node. split; [by eapply grown_lookup|done]. Qed.

(** ** Frontiers *)

Definition present (g : HGraph) (n : NodeId) (k : HNodeKind) : Prop :=
  ∃ node, g_nodes g !! n = Some node ∧ h_kind node = k.

Lemma present_grown g g' n k : grown g g' → present g n k → present g' n k.
Proof. intros Hg (node & Hn & ?). exists node. split; [by eapply grown_lookup|done]. Qed.

Lemma pending_present g n k s : pending g n k s → present g n k.
Proof. intros (node & ? & ? & _). by exists node. Qed.

Lemma present_inj g n k k' : present g n k → present g n k' → k = k'.
Proof. intros (? & ? & <-) (? & ? & <-). by simplify_eq. Qed.

(** Frontiers name existing versions of their resource and completions of earlier operations. *)
Definition frontiers_ok (g : HGraph) (st : StateLowering) : Prop := ∀ r f, st !! r = Some f →
  present g (last_write f) (ResourceState r (version f)) ∧
  ∀ m, m ∈ open_reads f → ∃ i, completion_nodes g !! i = Some m ∧ present g m (Completion i).

Lemma frontiers_grown g g' st : grown g g' → frontiers_ok g st → frontiers_ok g' st.
Proof.
  intros Hg Hst r f Hf. destruct (Hst r f Hf) as [Hw Hr]. split; [by eapply present_grown|].
  intros m Hm. destruct (Hr m Hm) as (i & Hi & Hp). exists i. rewrite (grown_completions g g' Hg).
  split; [done|]. by eapply present_grown.
Qed.

Lemma frontier_spec g st r g' st' f :
  bounded g → frontiers_ok g st → frontier g st r = (g', st', f) →
  grown g g' ∧ frontiers_ok g' st' ∧ st' !! r = Some f ∧ (∀ r', r' ≠ r → st' !! r' = st !! r') ∧
  (∀ f0, st !! r = Some f0 → f = f0) ∧ (st !! r = None → next_node g ≤ last_write f ∧ open_reads f = ∅).
Proof.
  intros Hb Hst. unfold frontier. destruct (st !! r) as [f0|] eqn:Hf.
  - intros [= <- <- <-]. split_and!; [by apply grown_refl|done|done|done|congruence|done].
  - destruct (add_node g _) as [g1 n] eqn:Ha. intros [= <- <- <-].
    destruct (add_node_grown _ _ _ _ Hb Ha) as (Hg & -> & _ & Hn).
    split_and!; [done| |by rewrite lookup_insert_eq|by intros r' ?; rewrite lookup_insert_ne|done|by intros _].
    intros r' f'. destruct (decide (r' = r)) as [-> |Hne].
    + rewrite lookup_insert_eq. intros [= <-]. simpl. split; [by eexists|set_solver].
    + rewrite lookup_insert_ne by done. by apply (frontiers_grown g).
Qed.

Lemma read_spec g st r c i g' st' n :
  bounded g → frontiers_ok g st → completion_nodes g !! i = Some c → present g c (Completion i) →
  read_state g st r c = (g', st', n) →
  grown g g' ∧ frontiers_ok g' st' ∧ (∀ r', r' ≠ r → st' !! r' = st !! r') ∧
  ∃ f, st' !! r = Some f ∧ n = last_write f ∧ c ∈ open_reads f ∧ present g' n (ResourceState r (version f)) ∧
       ∀ f0, st !! r = Some f0 → last_write f = last_write f0 ∧ open_reads f0 ⊆ open_reads f.
Proof.
  intros Hb Hst Hc Hp. unfold read_state. destruct (frontier g st r) as [[g1 st1] f] eqn:Hf. intros [= <- <- <-].
  destruct (frontier_spec _ _ _ _ _ _ Hb Hst Hf) as (Hg & Hst1 & Hr & Ho & Hsame & _).
  assert (Hw : present g1 (last_write f) (ResourceState r (version f))) by (by apply Hst1).
  split_and!; [done| | |].
  - intros r' f'. destruct (decide (r' = r)) as [-> |Hne].
    + rewrite lookup_insert_eq. intros [= <-]. simpl. split; [done|]. intros m [->%elem_of_singleton|Hm]%elem_of_union.
      * exists i. rewrite (grown_completions _ _ Hg). split; [done|by eapply present_grown].
      * by apply (Hst1 r f Hr).
    + rewrite lookup_insert_ne by done. apply Hst1.
  - intros r' Hne. by rewrite lookup_insert_ne, Ho by done.
  - eexists. rewrite lookup_insert_eq. split; [done|]. simpl. split_and!; [done|set_solver|done|].
    intros f0 ->%Hsame. set_solver.
Qed.

Lemma elem_of_node_list m s : m ∈ node_list s ↔ m ∈ s.
Proof. unfold node_list. rewrite merge_sort_Permutation. apply elem_of_elements. Qed.

Lemma write_spec g st r i g' st' prior rds n :
  bounded g → frontiers_ok g st → write_state g st r i = (g', st', (prior, rds, n)) →
  grown g g' ∧ frontiers_ok g' st' ∧ (∀ r', r' ≠ r → st' !! r' = st !! r') ∧
  ∃ v, st' !! r = Some {| last_write := n; version := S v; open_reads := ∅ |} ∧
       pending g' n (ResourceState r (S v)) Unresolved ∧ next_node g ≤ n ∧ present g' prior (ResourceState r v) ∧
       (∀ f0, st !! r = Some f0 → prior = last_write f0 ∧ ∀ m, m ∈ open_reads f0 → m ∈ rds) ∧
       (∀ m, m ∈ rds → ∃ j, completion_nodes g !! j = Some m ∧ present g m (Completion j) ∧
                           ∃ f0, st !! r = Some f0 ∧ m ∈ open_reads f0).
Proof.
  intros Hb Hst. unfold write_state. destruct (frontier g st r) as [[g1 st1] f] eqn:Hf.
  destruct (add_node g1 _) as [g2 k] eqn:Ha. intros [= <- <- <- <- <-].
  destruct (frontier_spec _ _ _ _ _ _ Hb Hst Hf) as (Hg & Hst1 & Hr & Ho & Hsame & Hnew).
  destruct (add_node_grown _ _ _ _ (grown_bounded _ _ Hg) Ha) as (Hg2 & -> & Hnext & Hk).
  set (k := next_node g1) in *. set (g3 := map_nodes g2 _).
  assert (Hg3 : grown g1 g3).
  { destruct Hg2 as [Hn ? ? ? ? ? ? ? Hbd]. constructor; try done.
    - apply map_subseteq_spec. intros m node Hm. unfold g3. simpl. rewrite lookup_alter_ne; [by eapply lookup_weaken|].
      intros <-. pose proof (fresh_lookup g1 (grown_bounded _ _ Hg)) as E. fold k in E. congruence.
    - intros m Hm. unfold g3 in *. simpl in *. apply Hbd. destruct (decide (m = k)) as [-> |Hne].
      + by rewrite Hk.
      + by rewrite lookup_alter_ne in Hm. }
  assert (Hpend : pending g3 k (ResourceState r (S (version f))) Unresolved).
  { eexists. unfold g3. simpl. rewrite lookup_alter_eq, Hk. done. }
  split_and!; [by eapply grown_trans| | |].
  - intros r' f'. destruct (decide (r' = r)) as [-> |Hne].
    + rewrite lookup_insert_eq. intros [= <-]. simpl. split; [by eapply pending_present|set_solver].
    + rewrite lookup_insert_ne by done. by apply (frontiers_grown g1).
  - intros r' Hne. by rewrite lookup_insert_ne, Ho by done.
  - exists (version f). split_and!; [by rewrite lookup_insert_eq|done|pose proof (grown_next _ _ Hg); unfold k; lia| | |].
    + eapply present_grown; [done|]. by apply Hst1.
    + intros f0 ->%Hsame. split; [done|]. intros m. by rewrite elem_of_node_list.
    + intros m Hm%elem_of_node_list. destruct (st !! r) as [f0|] eqn:Hf0.
      * rewrite (Hsame f0 eq_refl) in Hm. destruct (Hst r f0 Hf0) as [_ Hreads].
        destruct (Hreads m Hm) as (j & Hj & Hp). exists j. split_and!; [done|done|]. by exists f0.
      * destruct (Hnew eq_refl) as [_ E]. rewrite E in Hm. set_solver.
Qed.

(** What the loop over the resources of one operation has established once the
    resources [rs] are done. *)
Record stepped (g0 : HGraph) (st0 : StateLowering) (ws : gset ResourceKey) (c : NodeId) (ins0 outs0 : list NodeId)
    (rs : list ResourceKey) (g : HGraph) (st : StateLowering) (ins outs : list NodeId) : Prop := {
  st_grown : grown g0 g;
  st_frontiers : frontiers_ok g st;
  st_other : ∀ r, r ∉ rs → st !! r = st0 !! r;
  st_ins : ∀ m, m ∈ ins0 → m ∈ ins;
  st_write : ∀ r, r ∈ rs → r ∈ ws → ∃ f, st !! r = Some f ∧ last_write f ∈ outs ∧
    ∀ f0, st0 !! r = Some f0 → last_write f0 ∈ ins ∧ ∀ m, m ∈ open_reads f0 → m ∈ ins;
  st_read : ∀ r, r ∈ rs → r ∉ ws → ∃ f, st !! r = Some f ∧ c ∈ open_reads f ∧
    ∀ f0, st0 !! r = Some f0 → last_write f = last_write f0 ∧ last_write f0 ∈ ins ∧ open_reads f0 ⊆ open_reads f;
  st_ins_inv : ∀ m, m ∈ ins → m ∈ ins0 ∨
    (∃ j, completion_nodes g0 !! j = Some m ∧ present g0 m (Completion j) ∧
          ∃ r f0, st0 !! r = Some f0 ∧ m ∈ open_reads f0) ∨
    (∃ r v f, r ∈ rs ∧ present g m (ResourceState r v) ∧ st !! r = Some f ∧ (r ∈ ws → v < version f));
  st_outs_inv : ∃ news, outs = outs0 ++ news ∧ ∀ n, n ∈ news → ∃ r f,
    r ∈ rs ∧ r ∈ ws ∧ st !! r = Some f ∧ n = last_write f ∧ pending g n (ResourceState r (version f)) Unresolved;
}.

Section Transitions.
Context (ws : gset ResourceKey) (i : PlanNodeId) (c : NodeId).

Lemma transition_read g0 st0 ins0 outs0 rs g st ins outs r g' st' n :
  completion_nodes g0 !! i = Some c → present g0 c (Completion i) →
  stepped g0 st0 ws c ins0 outs0 rs g st ins outs → r ∉ rs → r ∉ ws → read_state g st r c = (g', st', n) →
  stepped g0 st0 ws c ins0 outs0 (rs ++ [r]) g' st' (ins ++ [n]) outs.
Proof.
  intros Hc Hp [Hg Hst Ho Hi Hw Hr Hinv (news & -> & Hnews)] Hfresh Hnw Hread.
  assert (Hc' : completion_nodes g !! i = Some c) by (by rewrite (grown_completions _ _ Hg)).
  destruct (read_spec _ _ _ _ _ _ _ _ (grown_bounded _ _ Hg) Hst Hc' (present_grown _ _ _ _ Hg Hp) Hread)
    as (Hg' & Hst' & Hkeep & f & Hf & -> & Hcf & Hpf & Hold).
  assert (Hsame : ∀ r', r' ∈ rs → st' !! r' = st !! r') by (intros r' ?; apply Hkeep; by intros ->).
  constructor; [by eapply grown_trans|done|..].
  - intros r' [? ?]%not_elem_of_app. rewrite Hkeep by set_solver. by apply Ho.
  - set_solver.
  - intros r' [Hr'| ->%list_elem_of_singleton]%elem_of_app Hr'w; [|done]. rewrite Hsame by done.
    destruct (Hw r' Hr' Hr'w) as (f' & ? & ? & Hf0). exists f'. split_and!; [done|done|].
    intros f0 Hf1. destruct (Hf0 f0 Hf1). set_solver.
  - intros r' [Hr'| ->%list_elem_of_singleton]%elem_of_app Hr'w.
    + rewrite Hsame by done. destruct (Hr r' Hr' Hr'w) as (f' & ? & ? & Hf0). exists f'. split_and!; [done|done|].
      intros f0 Hf1. destruct (Hf0 f0 Hf1) as (? & ? & ?). set_solver.
    + exists f. split_and!; [done|done|]. intros f0 Hf0. rewrite <-Ho in Hf0 by done.
      destruct (Hold f0 Hf0) as [E ?]. rewrite <-E. set_solver.
  - intros m [Hm| ->%list_elem_of_singleton]%elem_of_app.
    + destruct (Hinv m Hm) as [?|[?|(r' & v & f' & Hr' & Hpr & Hf' & Hv)]]; [by left|by right; left|right; right].
      exists r', v, f'. rewrite Hsame by done. split_and!; [set_solver|by eapply present_grown|done|done].
    + right; right. exists r, (version f), f. split_and!; [set_solver|done|done|done].
  - exists news. split; [done|]. intros n (r' & f' & Hr' & ? & Hf' & -> & Hpn)%Hnews.
    exists r', f'. rewrite Hsame by done. split_and!; [set_solver|done|done|done|by eapply pending_grown].
Qed.

Lemma transition_write g0 st0 ins0 outs0 rs g st ins outs r g' st' prior rds n :
  frontiers_ok g0 st0 → stepped g0 st0 ws c ins0 outs0 rs g st ins outs → r ∉ rs → r ∈ ws → write_state g st r i = (g', st', (prior, rds, n)) →
  stepped g0 st0 ws c ins0 outs0 (rs ++ [r]) g' st' (ins ++ prior :: rds) (outs ++ [n]).
Proof.
  intros Hst0 [Hg Hst Ho Hi Hw Hr Hinv (news & -> & Hnews)] Hfresh Hnw Hwrite.
  destruct (write_spec _ _ _ _ _ _ _ _ _ (grown_bounded _ _ Hg) Hst Hwrite)
    as (Hg' & Hst' & Hkeep & v & Hf & Hpn & Hnext & Hprior & Hold & Hreads).
  assert (Hsame : ∀ r', r' ∈ rs → st' !! r' = st !! r') by (intros r' ?; apply Hkeep; by intros ->).
  constructor; [by eapply grown_trans|done|..].
  - intros r' [? ?]%not_elem_of_app. rewrite Hkeep by set_solver. by apply Ho.
  - set_solver.
  - intros r' [Hr'| ->%list_elem_of_singleton]%elem_of_app Hr'w.
    + rewrite Hsame by done. destruct (Hw r' Hr' Hr'w) as (f' & ? & ? & Hf0). exists f'. split_and!; [done|set_solver|].
      intros f0 Hf1. destruct (Hf0 f0 Hf1). set_solver.
    + eexists. split_and!; [done|set_solver|]. intros f0 Hf0. rewrite <-Ho in Hf0 by done.
      destruct (Hold f0 Hf0) as [-> Hm]. set_solver.
  - intros r' [Hr'| ->%list_elem_of_singleton]%elem_of_app Hr'w; [|done].
    rewrite Hsame by done. destruct (Hr r' Hr' Hr'w) as (f' & ? & ? & Hf0). exists f'. split_and!; [done|done|].
    intros f0 Hf1. destruct (Hf0 f0 Hf1) as (? & ? & ?). set_solver.
  - intros m [Hm|[-> |Hm]%elem_of_cons]%elem_of_app.
    + destruct (Hinv m Hm) as [?|[?|(r' & v' & f' & Hr' & Hpr & Hf' & Hv)]]; [by left|by right; left|right; right].
      exists r', v', f'. rewrite Hsame by done. split_and!; [set_solver|by eapply present_grown|done|done].
    + right; right. exists r, v. eexists. split_and!; [set_solver|done|done|]. simpl. lia.
    + right; left. destruct (Hreads m Hm) as (j & Hj & Hpj & f0 & Hf0 & Hm0). exists j.
      rewrite (grown_completions _ _ Hg) in Hj. rewrite Ho in Hf0 by done.
      split_and!; [done| |by exists r, f0]. destruct (Hst0 r f0 Hf0) as [_ H0]. destruct (H0 m Hm0) as (j' & _ & Hp0).
      rewrite (present_inj g m (Completion j) (Completion j') Hpj (present_grown _ _ _ _ Hg Hp0)). done.
  - exists (news ++ [n]). split; [by rewrite <-app_assoc|]. intros m [Hm| ->%list_elem_of_singleton]%elem_of_app.
    + destruct (Hnews m Hm) as (r' & f' & Hr' & ? & Hf' & -> & Hpm). exists r', f'. rewrite Hsame by done.
      split_and!; [set_solver|done|done|done|by eapply pending_grown].
    + exists r. eexists. split_and!; [set_solver|done|done|done|done].
Qed.

Lemma transitions_spec g0 st0 ins0 outs0 rs g st ins outs :
  bounded g0 → frontiers_ok g0 st0 → completion_nodes g0 !! i = Some c → present g0 c (Completion i) → NoDup rs →
  foldl (transition ws i c) (g0, st0, ins0, outs0) rs = (g, st, ins, outs) →
  stepped g0 st0 ws c ins0 outs0 rs g st ins outs.
Proof.
  intros Hb Hst0 Hc Hp. revert g st ins outs. induction rs as [|r rs IH] using rev_ind; intros g st ins outs Hnd.
  - intros [= <- <- <- <-]. constructor; try (by apply grown_refl || done || set_solver).
    exists []. split; [by rewrite app_nil_r|set_solver].
  - rewrite foldl_app. apply NoDup_app in Hnd as (Hnd & Hdis & _).
    destruct (foldl _ _ rs) as [[[g1 st1] ins1] outs1] eqn:Hfold. specialize (IH _ _ _ _ Hnd eq_refl).
    assert (Hr : r ∉ rs) by (intros ?; apply (Hdis r); set_solver). cbn [foldl]. unfold transition.
    case_bool_decide as Hw.
    + destruct (write_state g1 st1 r i) as [[g2 st2] [[prior rds] n]] eqn:Hwr. intros [= <- <- <- <-].
      by eapply transition_write.
    + destruct (read_state g1 st1 r c) as [[g2 st2] n] eqn:Hrd. intros [= <- <- <- <-].
      by eapply transition_read.
Qed.
End Transitions.

(** ** Dependencies between operations *)

Definition produces (g : HGraph) (n : NodeId) (i : PlanNodeId) : Prop :=
  ∃ info, op_map g !! i = Some info ∧ n ∈ outputs info.
Definition consumes (g : HGraph) (n : NodeId) (j : PlanNodeId) : Prop :=
  ∃ info, op_map g !! j = Some info ∧ n ∈ inputs info.

(** [j] waits for [i]: it consumes a node that [i] produces. *)
Definition depends (g : HGraph) (i j : PlanNodeId) : Prop := ∃ n, produces g n i ∧ consumes g n j.

(** The producer of [n] is [i] or waits, directly or not, for [i]. *)
Definition reaches (g : HGraph) (i : PlanNodeId) (n : NodeId) : Prop := ∃ k, rtc (depends g) i k ∧ produces g n k.

Lemma depends_mono g g' : op_map g ⊆ op_map g' → ∀ i j, depends g i j → depends g' i j.
Proof.
  intros Hs i j (n & (a & Ha & ?) & (b & Hb & ?)).
  exists n. split; [exists a|exists b]; (split; [by eapply lookup_weaken|done]).
Qed.

Lemma depends_tc_mono g g' i j : op_map g ⊆ op_map g' → tc (depends g) i j → tc (depends g') i j.
Proof.
  intros Hs. induction 1 as [u v H|u v w H _ IH]; [apply tc_once|eapply tc_l; [|exact IH]]; by eapply depends_mono.
Qed.

Lemma reaches_mono g g' i n : op_map g ⊆ op_map g' → reaches g i n → reaches g' i n.
Proof.
  intros Hs (k & Hk & (a & Ha & ?)). exists k. split; [|exists a; split; [by eapply lookup_weaken|done]].
  eapply rtc_subrel; [|exact Hk]. intros u v. by apply depends_mono.
Qed.

Lemma reaches_depends g i n j : reaches g i n → consumes g n j → tc (depends g) i j.
Proof. intros (k & Hk & Hp) Hc. eapply tc_rtc_l; [exact Hk|]. apply tc_once. by exists n. Qed.

(** ** The invariant of the loop over the topological order *)

Lemma elem_of_dedup_from n seen l : n ∈ dedup_from seen l ↔ n ∈ l ∧ n ∉ seen.
Proof.
  revert seen. induction l as [|m l IH]; intros seen; cbn [dedup_from]; [set_solver|].
  case_bool_decide; [rewrite IH; set_solver|]. rewrite elem_of_cons, IH, elem_of_cons.
  destruct (decide (n = m)) as [-> |]; set_solver.
Qed.

Lemma elem_of_deduplicate n l : n ∈ deduplicate_nodes l ↔ n ∈ l.
Proof. unfold deduplicate_nodes. rewrite elem_of_dedup_from. set_solver. Qed.

Lemma elem_of_resource_list r s : r ∈ resource_list s ↔ r ∈ s.
Proof. unfold resource_list. rewrite merge_sort_Permutation. apply elem_of_elements. Qed.

Lemma resource_list_nodup s : NoDup (resource_list s).
Proof. unfold resource_list. rewrite merge_sort_Permutation. apply NoDup_elements. Qed.

Section Invariant.
Context (summary : PlanNodeId → EffectSummary) (ordered : PlanNodeId → Prop).

Definition read_set (i : PlanNodeId) : gset ResourceKey := (scheduling_accesses (summary i)).1.
Definition write_set (i : PlanNodeId) : gset ResourceKey := (scheduling_accesses (summary i)).2.

(** The operations lease a common resource, and one of them to write it. *)
Definition shares (i j : PlanNodeId) : Prop :=
  ∃ r, (r ∈ write_set i ∧ r ∈ read_set j ∪ write_set j) ∨ (r ∈ read_set i ∧ r ∈ write_set j).

Record lowered (D : list PlanNodeId) (g : HGraph) (st : StateLowering) : Prop := {
  low_bounded : bounded g;
  low_frontiers : frontiers_ok g st;
  low_ops : ∀ j, is_Some (op_map g !! j) ↔ j ∈ D;
  low_done : ∀ i, i ∈ D → ∃ c, completion_nodes g !! i = Some c ∧ produces g c i;
  low_covered : ∀ i r, i ∈ D → ordered i → r ∈ read_set i ∪ write_set i → ∃ f, st !! r = Some f ∧
    (r ∈ write_set i → reaches g i (last_write f)) ∧
    (r ∉ write_set i → (∃ c, completion_nodes g !! i = Some c ∧ c ∈ open_reads f) ∨ reaches g i (last_write f));
  low_ordered : ∀ i j, before D i j → ordered i → ordered j → shares i j → tc (depends g) i j;
}.

(** What registering one more operation does to the graph. *)
Record registers (g g' : HGraph) (id : PlanNodeId) (ins outs : list NodeId) : Prop := {
  reg_ops : ∃ info, op_map g' = <[id := info]> (op_map g) ∧ inputs info = ins ∧ outputs info = outs;
  reg_completions : completion_nodes g' = completion_nodes g;
  reg_present : ∀ n k, present g' n k ↔ present g n k;
  reg_next : next_node g' = next_node g;
}.

Lemma registers_bounded g g' id ins outs : registers g g' id ins outs → bounded g → bounded g'.
Proof.
  intros [_ _ Hp Hn] Hb n [node Hnode]. rewrite Hn. apply Hb.
  destruct (proj1 (Hp n (h_kind node))) as (node' & -> & _); [by eexists|]. eauto.
Qed.

Lemma registers_frontiers g g' id ins outs st : registers g g' id ins outs → frontiers_ok g st → frontiers_ok g' st.
Proof.
  intros [_ Hc Hp _] Hst r f Hf. destruct (Hst r f Hf) as [Hw Hr]. split; [by apply Hp|].
  intros m Hm. destruct (Hr m Hm) as (i & ? & ?). exists i. rewrite Hc. split; [done|by apply Hp].
Qed.

(** The operation [id] whose frontiers were stepped from [g] to [g1] and registered
    in [g2]. *)
Section Step.
Context D g st g1 st1 g2 id c ins0 outs0 ins outs (HL : lowered D g st) (Hid : id ∉ D) (Hord : ordered id) (Hc : c ∈ outs0)
  (Hcn : completion_nodes g !! id = Some c)
  (HS : stepped g st (write_set id) c ins0 outs0 (resource_list (read_set id ∪ write_set id)) g1 st1 ins outs)
  (HR : registers g1 g2 id (deduplicate_nodes ins) (deduplicate_nodes outs)).

Lemma step_subseteq : op_map g ⊆ op_map g2.
Proof using HL Hid HS HR.
  destruct HR as [(info & -> & _) _ _ _]. rewrite (grown_ops _ _ (st_grown _ _ _ _ _ _ _ _ _ _ _ HS)).
  apply insert_subseteq. apply eq_None_not_Some. by rewrite (low_ops _ _ _ HL).
Qed.

Lemma step_consumes n : n ∈ ins → consumes g2 n id.
Proof using HR.
  intros Hn. destruct HR as [(info & E & Hi & _) _ _ _]. exists info. rewrite E, lookup_insert_eq, Hi.
  by rewrite elem_of_deduplicate.
Qed.

Lemma step_produces n : n ∈ outs → produces g2 n id.
Proof using HR.
  intros Hn. destruct HR as [(info & E & _ & Ho) _ _ _]. exists info. rewrite E, lookup_insert_eq, Ho.
  by rewrite elem_of_deduplicate.
Qed.

Lemma step_reaches i n : reaches g i n → n ∈ ins → tc (depends g2) i id.
Proof using HL Hid HS HR.
  intros Hr Hn. eapply reaches_depends; [|by apply step_consumes]. eapply reaches_mono; [apply step_subseteq|done].
Qed.

(** An earlier operation that accessed what [id] writes, or wrote what [id] accesses. *)
Lemma step_orders i r :
  i ∈ D → ordered i → r ∈ read_set id ∪ write_set id → r ∈ read_set i ∪ write_set i →
  r ∈ write_set id ∨ r ∈ write_set i → tc (depends g2) i id.
Proof using HL Hid HS HR.
  intros Hi Ho Hr Hri Hw. destruct (low_covered _ _ _ HL i r Hi Ho Hri) as (f & Hf & Hwi & Hroi).
  assert (Hl : last_write f ∈ ins ∧ (r ∈ write_set id → ∀ m, m ∈ open_reads f → m ∈ ins)).
  { apply elem_of_resource_list in Hr. destruct (decide (r ∈ write_set id)) as [Hwid|Hwid].
    - destruct (st_write _ _ _ _ _ _ _ _ _ _ _ HS r Hr Hwid) as (? & _ & _ & H). destruct (H f Hf). auto.
    - destruct (st_read _ _ _ _ _ _ _ _ _ _ _ HS r Hr Hwid) as (? & _ & _ & H). destruct (H f Hf) as (_ & ? & _). split; [done|by intros ?]. }
  destruct Hl as [Hl Hopen]. destruct (decide (r ∈ write_set i)) as [Hwr|Hwr]; [by eapply step_reaches; eauto|].
  destruct (Hroi Hwr) as [(ci & Hci & Hin)|?]; [|by eapply step_reaches].
  destruct (low_done _ _ _ HL i Hi) as (ci' & E & Hp). rewrite Hci in E. injection E as <-.
  destruct Hw as [Hw|]; [|done]. apply (step_reaches i ci); [|by apply Hopen]. by exists i.
Qed.

Lemma step_covered i r :
  i ∈ D ++ [id] → ordered i → r ∈ read_set i ∪ write_set i → ∃ f, st1 !! r = Some f ∧
    (r ∈ write_set i → reaches g2 i (last_write f)) ∧
    (r ∉ write_set i → (∃ c, completion_nodes g2 !! i = Some c ∧ c ∈ open_reads f) ∨ reaches g2 i (last_write f)).
Proof using HL Hid HS HR Hcn Hord Hc.
  assert (Hcs : completion_nodes g2 = completion_nodes g).
  { destruct HR as [_ -> _ _]. apply (grown_completions _ _ (st_grown _ _ _ _ _ _ _ _ _ _ _ HS)). }
  intros [Hi| ->%list_elem_of_singleton]%elem_of_app Ho Hri; rewrite Hcs.
  - destruct (decide (r ∈ read_set id ∪ write_set id)) as [Hr|Hr].
    + pose proof Hr as Hrl. rewrite <-elem_of_resource_list in Hrl. destruct (decide (r ∈ write_set id)) as [Hw|Hw].
      * destruct (st_write _ _ _ _ _ _ _ _ _ _ _ HS r Hrl Hw) as (f & Hf & Hout & _). exists f.
        assert (reaches g2 i (last_write f)); [|by eauto].
        exists id. split; [apply tc_rtc|by apply step_produces]. eapply step_orders; eauto.
      * destruct (st_read _ _ _ _ _ _ _ _ _ _ _ HS r Hrl Hw) as (f & Hf & _ & Hold). exists f.
        destruct (low_covered _ _ _ HL i r Hi Ho Hri) as (f0 & Hf0 & H1 & H2).
        destruct (Hold f0 Hf0) as (-> & _ & Hsub). split_and!; [done| |].
        -- intros Hwi. eapply reaches_mono; [apply step_subseteq|auto].
        -- intros Hwi. destruct (H2 Hwi) as [(ci & ? & ?)|?]; [left; exists ci; set_solver|right].
           eapply reaches_mono; [apply step_subseteq|auto].
    + rewrite (st_other _ _ _ _ _ _ _ _ _ _ _ HS) by (by rewrite elem_of_resource_list).
      destruct (low_covered _ _ _ HL i r Hi Ho Hri) as (f & Hf & H1 & H2). exists f.
      pose proof (λ n, reaches_mono g g2 i n step_subseteq). split_and!; [done|by eauto|].
      intros Hwi. destruct (H2 Hwi); eauto.
  - apply elem_of_resource_list in Hri. destruct (decide (r ∈ write_set id)) as [Hw|Hw].
    + destruct (st_write _ _ _ _ _ _ _ _ _ _ _ HS r Hri Hw) as (f & Hf & Hout & _). exists f.
      split_and!; [done| |done]. intros _. exists id. split; [done|by apply step_produces].
    + destruct (st_read _ _ _ _ _ _ _ _ _ _ _ HS r Hri Hw) as (f & Hf & Hcf & _). exists f. split_and!; [done|done|]. intros _. left. by exists c.
Qed.

Lemma lowered_step : lowered (D ++ [id]) g2 st1.
Proof using HL Hid Hord Hc Hcn HS HR.
  pose proof (st_grown _ _ _ _ _ _ _ _ _ _ _ HS) as Hg. constructor.
  - eapply registers_bounded; [exact HR|]. by apply grown_bounded in Hg.
  - eapply registers_frontiers; [exact HR|]. exact (st_frontiers _ _ _ _ _ _ _ _ _ _ _ HS).
  - intros j. destruct HR as [(info & -> & _) _ _ _]. rewrite (grown_ops _ _ Hg), lookup_insert_is_Some.
    rewrite (low_ops _ _ _ HL), elem_of_app, list_elem_of_singleton. destruct (decide (j = id)); naive_solver.
  - intros i. rewrite (reg_completions _ _ _ _ _ HR), (grown_completions _ _ Hg).
    intros [Hi| ->%list_elem_of_singleton]%elem_of_app.
    + destruct (low_done _ _ _ HL i Hi) as (ci & ? & info & ? & ?). exists ci. split; [done|].
      exists info. split; [|done]. eapply lookup_weaken; [done|apply step_subseteq].
    + exists c. split; [done|]. apply step_produces. destruct (st_outs_inv _ _ _ _ _ _ _ _ _ _ _ HS) as (news & -> & _).
      set_solver.
  - apply step_covered.
  - intros i j [Hb|[Hi ->]]%before_snoc Hoi Hoj.
    + intros Hs. eapply depends_tc_mono; [apply step_subseteq|]. by eapply (low_ordered _ _ _ HL).
    + intros [r Hr]. eapply (step_orders i r); set_solver.
Qed.
End Step.

(** An operation whose state is branch-local leaves the frontiers alone. *)
Lemma lowered_skip D g st g2 id c ins outs :
  lowered D g st → id ∉ D → ¬ ordered id → c ∈ outs → completion_nodes g !! id = Some c → registers g g2 id ins outs →
  lowered (D ++ [id]) g2 st.
Proof.
  intros HL Hid Hord Hc Hcn HR. pose proof HR as [(info & E & _ & Ho) Hcs _ _].
  assert (Hsub : op_map g ⊆ op_map g2).
  { rewrite E. apply insert_subseteq, eq_None_not_Some. by rewrite (low_ops _ _ _ HL). }
  constructor.
  - by eapply registers_bounded, low_bounded.
  - by eapply registers_frontiers, low_frontiers.
  - intros j. rewrite E, lookup_insert_is_Some, (low_ops _ _ _ HL), elem_of_app, list_elem_of_singleton.
    destruct (decide (j = id)); naive_solver.
  - intros i. rewrite Hcs. intros [Hi| ->%list_elem_of_singleton]%elem_of_app.
    + destruct (low_done _ _ _ HL i Hi) as (ci & ? & info' & ? & ?). exists ci. split; [done|].
      exists info'. split; [by eapply lookup_weaken|done].
    + exists c. split; [done|]. exists info. by rewrite E, lookup_insert_eq, Ho.
  - intros i r [Hi| ->%list_elem_of_singleton]%elem_of_app Hoi Hr; [|done]. rewrite Hcs.
    destruct (low_covered _ _ _ HL i r Hi Hoi Hr) as (f & Hf & H1 & H2). exists f.
    pose proof (λ n, reaches_mono g g2 i n Hsub). split_and!; [done|by eauto|].
    intros Hwi. destruct (H2 Hwi); eauto.
  - intros i j [Hb|[Hi ->]]%before_snoc Hoi Hoj; [|done].
    intros Hs. eapply depends_tc_mono; [done|]. by eapply (low_ordered _ _ _ HL).
Qed.
End Invariant.

(** ** Registering an operation *)

Lemma foldl_alter_kind (f : HNode → HNode) (ns : list NodeId) (m : gmap NodeId HNode) n :
  (∀ node, h_kind (f node) = h_kind node) →
  h_kind <$> (foldl (λ m n, alter f n m) m ns !! n) = h_kind <$> (m !! n).
Proof.
  intros Hf. revert m. induction ns as [|k ns IH]; intros m; simpl; [done|]. rewrite IH.
  destruct (decide (n = k)) as [-> |Hn]; [rewrite lookup_alter_eq|by rewrite lookup_alter_ne].
  destruct (m !! k); simpl; by rewrite ?Hf.
Qed.

Lemma present_kind g n k : present g n k ↔ h_kind <$> (g_nodes g !! n) = Some k.
Proof.
  unfold present. rewrite fmap_Some. split; intros (node & ? & ?); exists node; naive_solver.
Qed.

Lemma attach_registers g id op ins outs value ord :
  registers g (attach_operation g id op ins outs value ord).1 id ins outs.
Proof.
  constructor; try done; [by eexists|]. intros n k. rewrite !present_kind. simpl.
  by rewrite !foldl_alter_kind by done.
Qed.

Lemma add_exec_edge_attach g id op ins outs value ord g' e :
  add_exec_edge g id op ins outs value ord = Ok (g', e) → g' = (attach_operation g id op ins outs value ord).1.
Proof.
  unfold add_exec_edge. destruct (bool_decide _); [done|]. rewrite outcome_bind_ok. intros (? & _ & H). revert H.
  rewrite outcome_bind_ok. intros (? & _ & H). revert H. destruct (negb _); [done|].
  destruct (g_nodes g !! value); [|done]. destruct (negb _); [done|]. destruct (negb _); [done|].
  by intros [= <- _].
Qed.

(** [g'] is [g] up to the recorded sequence dependencies. *)
Lemma record_sequences_registers g g1 g' id ins outs succ preds :
  registers g g1 id ins outs → effect_summaries g1 = effect_summaries g →
  record_sequences g1 succ preds = Ok g' →
  registers g g' id ins outs ∧ effect_summaries g' = effect_summaries g.
Proof.
  revert g1. induction preds as [|pred preds IH]; intros g1 HR Hs; cbn [record_sequences]; [by intros [= <-]|].
  rewrite outcome_bind_ok. intros (n & _ & H). revert H. rewrite outcome_bind_ok. intros (g2 & H & Hrest).
  apply (IH g2); [..|done]; revert H; unfold record_sequence_dependency; destruct (g_nodes g1 !! n); try done;
    destruct (negb _); try done; intros [= <-]; case_bool_decide; try done. destruct HR. by constructor.
Qed.

(** ** The loop over the topological order *)

Section Loop.
Context `{DG : !Digests} (validate_descriptor : str → nat → bool).
Context (p : ExecutionPlan) (x : ExecutionPlanIndex) (node_map : gmap PlanNodeId NodeId) (oirs : list OIr)
  (summaries : gmap PlanNodeId EffectSummary).

Definition summary_of (i : PlanNodeId) : EffectSummary := default summary_pure (summaries !! i).

(** The operation is not a member of an autonomous group. *)
Definition in_source_order (i : PlanNodeId) : Prop :=
  ∃ oir, oirs !! i = Some oir ∧ autonomous_ephemeral_group_indexed p x i oir = Ok None.

Definition executes (i : PlanNodeId) : bool :=
  match plan_nodes p !! i with Some n => is_executable (node_kind n) | None => false end.

Definition completions_ok (g : HGraph) : Prop :=
  ∀ i c, completion_nodes g !! i = Some c → present g c (Completion i).

Lemma lower_operation_spec D g st ord id g' st' :
  lowered summary_of in_source_order D g st → completions_ok g → effect_summaries g = summaries → id ∉ D →
  lower_operation p x node_map oirs g st ord id = Ok (g', st') →
  completions_ok g' ∧ effect_summaries g' = summaries ∧
  lowered summary_of in_source_order (D ++ filter executes [id]) g' st'.
Proof.
  intros HL Hco Hs Hid H. unfold lower_operation in H. peel H as kind Hk.
  assert (Hex : executes id = bool_decide (is_Some (executable_op kind))).
  { unfold node_kind_at, kind_at in Hk. unfold executes. destruct (plan_nodes p !! id); [|done]. by injection Hk as <-. }
  rewrite filter_cons, filter_nil, Hex.
  destruct (executable_op kind) as [op|] eqn:Hop; [|injection H as <- <-; by rewrite decide_False, app_nil_r by auto].
  rewrite decide_True by done.
  destruct (effect_summaries g !! id) as [s|] eqn:Es; [|done].
  peel H as value Hv. peel H as c Hc. peel H as ins0 Hi. peel H as preds Hp. peel H as preserved Hf. peel H as dones Hd.
  peel H as oir Ho. peel H as group Hg.
  destruct (completion_nodes g !! id) as [c'|] eqn:Hcn; [|done]. injection Hc as ->.
  destruct (oirs !! id) as [oir'|] eqn:Hoir; [|done]. injection Ho as ->.
  assert (Hg' : autonomous_ephemeral_group_indexed p x id oir = Ok group).
  { unfold plan_result in Hg. destruct (autonomous_ephemeral_group_indexed _ _ _ _); simplify_eq. done. }
  assert (Hsum : summary_of id = s) by (unfold summary_of; by rewrite <-Hs, Es).
  set (t := match group with None => _ | _ => _ end) in H. destruct t as [[[g1 st1] ins] outs] eqn:Ht. unfold t in Ht. clear t.
  peel H as [g2 e] Ha. peel H as g3 Hr. injection H as <- <-. apply add_exec_edge_attach in Ha as ->.
  destruct (record_sequences_registers g1 _ _ id _ _ _ _ (attach_registers g1 id op _ _ value ord) eq_refl Hr) as [HR Hs3].
  assert (Hout : c ∈ [value; c]) by set_solver.
  destruct group as [gr|].
  - injection Ht as <- <- <- <-. split_and!; [|congruence|].
    + intros i ci. rewrite (reg_completions _ _ _ _ _ HR). intros Hci%Hco. by apply (reg_present _ _ _ _ _ HR).
    + eapply lowered_skip; [done|done| | |done|exact HR]; [|by apply elem_of_deduplicate].
      intros (oir' & E & E'). congruence.
  - unfold add_resource_state_transitions in Ht. destruct (scheduling_accesses s) as [rs ws] eqn:Hrw.
    assert (Hrs : read_set summary_of id = rs) by (unfold read_set; by rewrite Hsum, Hrw).
    assert (Hws : write_set summary_of id = ws) by (unfold write_set; by rewrite Hsum, Hrw).
    apply transitions_spec in Ht;
      [|by eapply low_bounded|by eapply low_frontiers|done|by apply Hco|apply resource_list_nodup].
    pose proof (st_grown _ _ _ _ _ _ _ _ _ _ _ Ht) as Hgr. split_and!.
    + intros i ci. rewrite (reg_completions _ _ _ _ _ HR), (grown_completions _ _ Hgr). intros Hci%Hco.
      apply (reg_present _ _ _ _ _ HR). by eapply present_grown.
    + rewrite Hs3, (grown_summaries _ _ Hgr). done.
    + rewrite <-Hrs, <-Hws in Ht. eapply lowered_step; [done|done| |exact Hout|done|exact Ht|exact HR]. by exists oir.
Qed.

Lemma lower_operations_spec order D g st ord g' :
  lowered summary_of in_source_order D g st → completions_ok g → effect_summaries g = summaries → NoDup order →
  (∀ i, i ∈ order → i ∉ D) → lower_operations p x node_map oirs g st ord order = Ok g' →
  effect_summaries g' = summaries ∧ ∃ st', lowered summary_of in_source_order (D ++ filter executes order) g' st'.
Proof.
  revert D g st ord. induction order as [|id order IH]; intros D g st ord HL Hco Hs Hnd Hdis; cbn [lower_operations].
  { intros [= <-]. split; [done|]. exists st. by rewrite filter_nil, app_nil_r. }
  intros H. peel H as [g1 st1] Hop. apply NoDup_cons in Hnd as [Hid Hnd].
  eapply lower_operation_spec in Hop as (Hco1 & Hs1 & HL1); [|done..|apply Hdis; set_solver].
  change (id :: order) with ([id] ++ order). rewrite filter_app, app_assoc. eapply IH; [done..| |done].
  intros i Hi. rewrite elem_of_app, list_elem_of_filter. set_solver.
Qed.
End Loop.

(** ** Summaries and completion nodes *)

Section Completions.
Context `{DG : !Digests} (validate_descriptor : str → nat → bool).

(** The tables of the operations, which only [add_execute_edges] fills. *)
Record untouched (g g' : HGraph) : Prop := {
  un_bounded : bounded g → bounded g';
  un_ops : op_map g' = op_map g;
  un_completions : completion_nodes g' = completion_nodes g;
  un_summaries : effect_summaries g' = effect_summaries g;
  un_sequences : sequence_dependencies g' = sequence_dependencies g;
}.

#[export] Instance untouched_preorder : PreOrder untouched.
Proof.
  split; [by constructor|]. intros g1 g2 g3 [] []. constructor; (auto || congruence).
Qed.

Lemma map_nodes_untouched g m : dom m = dom (g_nodes g) → untouched g (map_nodes g m).
Proof.
  intros Hd. constructor; try done. intros Hb n [node Hn]. apply Hb. simpl in Hn.
  apply elem_of_dom. rewrite <-Hd. by apply elem_of_dom_2 in Hn.
Qed.

Lemma add_node_untouched g node : untouched g (add_node g node).1.
Proof.
  constructor; try done. intros Hb. destruct (add_node g node) as [g' n] eqn:E.
  eapply grown_bounded, (add_node_grown g node g' n); done.
Qed.

Lemma dom_foldl_alter {A} (f : A → HNode → HNode) (key : A → NodeId) (l : list A) (m : gmap NodeId HNode) :
  dom (foldl (λ m a, alter (f a) (key a) m) m l) = dom m.
Proof. revert m. induction l as [|a l IH]; intros m; simpl; [done|]. by rewrite IH, dom_alter_L. Qed.

Lemma add_edge_untouched g e : untouched g (add_edge g e).1.
Proof.
  pose proof (map_nodes_untouched g _ (dom_foldl_alter (λ _, push_incident (next_edge g)) port_node (e_ports e) (g_nodes g)))
    as [Hb ? ? ? ?]. by constructor.
Qed.

Definition executable_ids (ns : list PlanNode) : list PlanNodeId :=
  node_id <$> filter (λ n, is_executable (node_kind n) = true) ns.

Lemma add_completions_spec g ns g' :
  bounded g → completions_ok g → add_completions validate_descriptor g ns = Ok g' →
  bounded g' ∧ completions_ok g' ∧ op_map g' = op_map g ∧
  (∀ i, is_Some (completion_nodes g !! i) → i ∉ executable_ids ns) ∧
  (∀ i, i ∉ executable_ids ns → effect_summaries g' !! i = effect_summaries g !! i) ∧
  (∀ n, n ∈ ns → is_executable (node_kind n) = true → ∃ s,
     effect_summary_for_plan_node validate_descriptor (node_id n) (node_kind n) = inr s ∧
     effect_summaries g' !! node_id n = Some s).
Proof.
  revert g. unfold executable_ids. induction ns as [|n ns IH]; intros g Hb Hco; cbn [add_completions].
  { intros [= <-]. split_and!; set_solver. }
  rewrite filter_cons. destruct (is_executable (node_kind n)) eqn:Hx; cbn [negb];
    [rewrite decide_True by done|rewrite decide_False by done].
  2:{ intros (? & ? & ? & H1 & H2 & H3)%IH; [|done..]. split_and!; try done.
      intros m [-> |Hm]%elem_of_cons Hmx; [congruence|by auto]. }
  destruct (effect_summary_for_plan_node _ _ _) as [|s] eqn:Hs; [done|]. unfold add_completion_node.
  destruct (completion_nodes (set_effect_summary g (node_id n) s) !! node_id n) eqn:Hc; [done|].
  destruct (add_node _ (completion (node_id n))) as [g1 c] eqn:Ha. cbn [outcome_bind]. intros H.
  destruct (add_node_grown (set_effect_summary g (node_id n) s) _ _ _ Hb Ha) as (Hg & _ & _ & Hn).
  apply IH in H as (? & ? & Hop & H1 & H2 & H3).
  - simpl in Hop, H1, H2, Hc. rewrite (grown_ops _ _ Hg) in Hop. rewrite (grown_summaries _ _ Hg) in H2.
    rewrite (grown_completions _ _ Hg) in H1. simpl in *. setoid_rewrite lookup_insert_is_Some in H1.
    assert (Hfresh : node_id n ∉ node_id <$> filter (λ n, is_executable (node_kind n) = true) ns) by (apply H1; by left).
    split_and!; [done..| | |].
    + intros i Hi. rewrite not_elem_of_cons. split; [intros ->; destruct Hi; congruence|].
      apply H1. destruct (decide (node_id n = i)); [by left|by right].
    + intros i. rewrite not_elem_of_cons. intros [? ?]. rewrite H2, lookup_insert_ne by done. done.
    + intros m [-> |Hm]%elem_of_cons Hmx; [|by auto]. exists s. split; [done|]. by rewrite H2, lookup_insert_eq.
  - intros m. simpl. apply (grown_bounded _ _ Hg).
  - intros i ci. simpl. destruct (decide (i = node_id n)) as [-> |Hi].
    + rewrite lookup_insert_eq. intros [= <-]. by eexists.
    + rewrite lookup_insert_ne, (grown_completions _ _ Hg) by done. intros (node & Hnode & Hk)%Hco.
      exists node. split; [|done]. simpl. eapply lookup_weaken; [done|]. apply (grown_nodes _ _ Hg).
Qed.
End Completions.

(** ** The projection up to the executable edges *)

Section Projection.
Context `{DG : !Digests, UT : !UnicodeTables} (validate_descriptor : str → nat → bool).

Lemma add_values_untouched g nm oirs ns g' nm' : add_values g nm oirs ns = Ok (g', nm') → untouched g g'.
Proof.
  revert g nm. induction ns as [|n ns IH]; intros g nm H; cbn [add_values] in H; [by injection H as <- _|].
  peel H as oir Ho. destruct (add_node g _) as [g1 v] eqn:Ha. apply IH in H. etrans; [|exact H].
  transitivity g1; [by replace g1 with (add_node g (hnode_for_oir oir)).1 by (by rewrite Ha); apply add_node_untouched|].
  transitivity (map_nodes g1 (alter (set_plan_node (node_id n)) v (g_nodes g1))); [|by constructor].
  apply map_nodes_untouched. by rewrite dom_alter_L.
Qed.

Lemma push_roots_untouched g nm rs g' : push_roots g nm rs = Ok g' → untouched g g'.
Proof.
  revert g. induction rs as [|r rs IH]; intros g H; cbn [push_roots] in H; [by injection H as <-|].
  peel H as n Hn. apply IH in H. etrans; [|exact H]. by constructor.
Qed.

Lemma add_constraints_untouched g p x nm es g' : add_constraints g p x nm es = Ok g' → untouched g g'.
Proof.
  revert g. induction es as [|e es IH]; intros g H; cbn [add_constraints] in H; [by injection H as <-|].
  peel H as k Hk. peel H as u Hu. peel H as v Hv. apply IH in H. etrans; [|exact H]. apply add_edge_untouched.
Qed.

Lemma foldl_untouched {A} (f : HGraph → A → HGraph) l g : (∀ g a, untouched g (f g a)) → untouched g (foldl f g l).
Proof. intros Hf. revert g. induction l as [|a l IH]; intros g; simpl; [done|]. etrans; [apply Hf|apply IH]. Qed.

Lemma cache_untouched g k ins out : untouched g (add_cache_relation g k ins out).
Proof. unfold add_cache_relation. destruct (eval_cache_policy k); [apply add_edge_untouched|done]. Qed.

Lemma control_untouched g k ins out : untouched g (add_control_relation g k ins out).
Proof. apply add_edge_untouched. Qed.

Lemma node_semantics_untouched g p x nm n g' : node_semantics g p x nm n = Ok g' → untouched g g'.
Proof.
  intros H. unfold node_semantics in H. peel H as out Hout. peel H as ins Hins.
  assert (Hc : ∀ g k ins out k', untouched g (add_cache_relation (add_control_relation g k ins out) k' ins out)).
  { intros. etrans; [apply control_untouched|apply cache_untouched]. }
  destruct (node_kind n) as [| | | | | | | |lang env attr backend];
    try (injection H as <-; (done || apply control_untouched || apply Hc)).
  peel H as crossing Hx. apply Ok_inj in H as <-.
  transitivity (foldl (λ g i, (add_edge g (constraint_edge (KBackendCrossing (lit "O") (canonical backend))
      [input_port i; output_port out])).1)
    (match backend_output_constraints backend with
     | Some (dom, rep) => (add_edge g (constraint_edge (AbiFixed dom rep) [output_port out])).1
     | None => g end) crossing).
  - etrans; [|apply foldl_untouched; intros; apply add_edge_untouched].
    destruct (backend_output_constraints backend) as [[? ?]|]; [apply add_edge_untouched|done].
  - destruct (eval_cache_policy (PExec lang env attr backend)); [apply Hc|done].
Qed.

Lemma add_plan_semantics_untouched g p x nm ns g' : add_plan_semantics g p x nm ns = Ok g' → untouched g g'.
Proof.
  revert g. induction ns as [|n ns IH]; intros g H; cbn [add_plan_semantics] in H; [by injection H as <-|].
  peel H as g1 H1. etrans; [by eapply node_semantics_untouched|by apply IH].
Qed.

Lemma project_inv prog p g :
  project_program validate_descriptor prog p = Ok g → ∃ x nm g0,
  index_new p = Ok x ∧ plan_nodes p = plan_nodes (plan prog) ∧ untouched empty_graph g0 ∧
  add_execute_edges validate_descriptor g0 p x nm (flatten_for_plan prog) = Ok g.
Proof.
  intros H. unfold project_program in H. peel H as u Hu. peel H as x Hx.
  destruct (bool_decide _) eqn:Hn in H; [|done]. apply bool_decide_eq_true in Hn. cbn [negb] in H.
  destruct (negb _) in H; [done|]. destruct (negb _) in H; [done|].
  peel H as [g1 nm] H1. peel H as g2 H2. peel H as g3 H3. peel H as g4 H4. exists x, nm, g4.
  assert (Hi : index_new p = Ok x) by (unfold plan_result in Hx; destruct (index_new p); simplify_eq; done).
  split_and!; [done|done| |done].
  transitivity (set_source_plan empty_graph p); [by constructor|].
  transitivity g1; [by eapply add_values_untouched|]. transitivity g2; [by eapply push_roots_untouched|].
  transitivity g3; [by eapply add_constraints_untouched|]. by eapply add_plan_semantics_untouched.
Qed.

Lemma execute_edges_spec g0 p x nm oirs g :
  untouched empty_graph g0 → NoDup (idx_order x) → (∀ i n, plan_nodes p !! i = Some n → node_id n = i) →
  add_execute_edges validate_descriptor g0 p x nm oirs = Ok g →
  (∀ i n, plan_nodes p !! i = Some n → is_executable (node_kind n) = true → ∃ s,
     effect_summaries g !! i = Some s ∧ effect_summary_for_plan_node validate_descriptor i (node_kind n) = inr s) ∧
  (∀ i, is_Some (effect_summaries g !! i) → executes p i = true) ∧
  ∃ st, lowered (summary_of (effect_summaries g)) (in_source_order p x oirs) (filter (executes p) (idx_order x)) g st.
Proof.
  intros [Hb0 Hop0 Hc0 Hs0 _] Hnd Hid H. unfold add_execute_edges in H. peel H as g1 H1.
  apply add_completions_spec in H1 as (Hb & Hco & Hops & _ & Hnone & Hsum); cycle 1.
  { apply Hb0. intros n [node Hn]. simpl in Hn. by rewrite lookup_empty in Hn. }
  { intros i c. rewrite Hc0. simpl. by rewrite lookup_empty. }
  assert (HL0 : lowered (summary_of (effect_summaries g1)) (in_source_order p x oirs) [] g1 ∅).
  { constructor.
    - done.
    - intros r f. by rewrite lookup_empty.
    - intros j. rewrite Hops, Hop0. simpl. rewrite lookup_empty, elem_of_nil. split; [by intros [? ?]|done].
    - intros i Hi. by apply elem_of_nil in Hi.
    - intros i r Hi. by apply elem_of_nil in Hi.
    - intros i j [Hi _]%before_elem. by apply elem_of_nil in Hi. }
  apply (lower_operations_spec p x nm oirs (effect_summaries g1) (idx_order x) []) in H as (Es & st & HL);
    [|done..|intros i _ Hi; by apply elem_of_nil in Hi].
  rewrite Es. split_and!.
  - intros i n Hi Hx. destruct (Hsum n) as (s & ? & ?); [by eapply list_elem_of_lookup_2|done|]. rewrite (Hid i n Hi) in *. eauto.
  - intros i Hi. destruct (decide (i ∈ executable_ids (plan_nodes p))) as [Hin|Hin].
    + apply list_elem_of_fmap in Hin as (n & -> & [Hx [j Hj]%list_elem_of_lookup]%list_elem_of_filter).
      rewrite (Hid j n Hj). unfold executes. by rewrite Hj.
    + rewrite Hnone, Hs0 in Hi by done. simpl in Hi. rewrite lookup_empty in Hi. by destruct Hi.
  - by exists st.
Qed.
End Projection.

(** C20. The lowering orders every conflict by itself, before and without the
    validation that follows it: in every graph that [build_program_with_plan] projects
    from a program and one of its plans, each executable node carries the summary of
    its plan node, and two operations outside autonomous groups whose summaries
    conflict are connected by a path of produced and consumed nodes, from the one
    that the topological order puts first. *)
Theorem lowering_orders_conflicts `{DG : !Digests, UT : !UnicodeTables} (validate_descriptor : str → nat → bool)
    (prog : OIrProgram) (p : ExecutionPlan) (g : HGraph) :
  project_program validate_descriptor prog p = Ok g →
  ∃ x, index_new p = Ok x ∧ topological_order p = Ok (idx_order x) ∧
  (∀ i n, plan_nodes p !! i = Some n → is_executable (node_kind n) = true → ∃ s,
     effect_summaries g !! i = Some s ∧ effect_summary_for_plan_node validate_descriptor i (node_kind n) = inr s) ∧
  ∀ i j si sj, before (idx_order x) i j →
    in_source_order p x (flatten_for_plan prog) i → in_source_order p x (flatten_for_plan prog) j →
    effect_summaries g !! i = Some si → effect_summaries g !! j = Some sj → conflicts_with si sj = true →
    tc (depends g) i j.
Proof.
  intros H. destruct (project_inv _ _ _ _ H) as (x & nm & g0 & Hx & _ & Hu & He). exists x.
  pose proof (index_new_validates _ _ Hx) as Hv. destruct (proj2 (index_new_spec p) Hv) as (x' & Hx' & Ho & _ & _).
  rewrite Hx in Hx'. injection Hx' as <-.
  destruct (topological_order_Ok p (idx_order x) (validated_bounds p Hv) Ho) as [Hperm _].
  apply execute_edges_spec in He as (Hsum & Hex & st & HL); [|done|rewrite Hperm; apply NoDup_seq|intros i n; by apply validate_identity with (1 := Hv)].
  split_and!; [done..|]. intros i j si sj Hb Hi Hj Hsi Hsj Hc.
  assert (Hxi : executes p i = true) by (apply Hex; by rewrite Hsi). assert (Hxj : executes p j = true) by (apply Hex; by rewrite Hsj).
  apply (low_ordered _ _ _ _ _ HL).
  { apply before_filter. split_and!; [done|by rewrite Hxi|by rewrite Hxj]. }
  { done. }
  { done. }
  unfold shares, summary_of, read_set, write_set. rewrite Hsi, Hsj. simpl.
  apply conflicts_share_lease in Hc as [Ha|?]; [|done].
  assert (Hact : ∀ k s a, executes p k = true → effect_summaries g !! k = Some s → actor_state s = Some a →
    ActorState a ∈ (scheduling_accesses s).2).
  { intros k s a Hk Hks Hka. unfold executes in Hk. destruct (plan_nodes p !! k) as [n|] eqn:Hn; [|done].
    destruct (Hsum k n Hn Hk) as (s' & E & Hs'). rewrite Hks in E. injection E as <-. by eapply actor_written. }
  unfold same_actor in Ha. destruct (actor_state si) as [a|] eqn:Ea; [|done]. destruct (actor_state sj) as [b|] eqn:Eb; [|done].
  apply bool_decide_eq_true in Ha as ->. exists (ActorState b). left.
  split; [by apply (Hact i)|]. apply elem_of_union_r. by apply (Hact j).
Qed.
