(* ===== verification/HGraphValidate.v ===== *)
(** * Validation of executable graphs

    [crates/ostadix-api/src/hgraph/graph.rs], the [validate_*] methods, and the end of
    [build_program_with_plan].  Validation takes any graph, also one that lowering
    did not build.  A loop over a hash map is a loop over the sorted entries of the
    map: which of several defects is reported depends on that order, whether there
    is one does not.  Versions are [u64] in the source and cannot reach the
    width, since every version is a node of the graph. *)

From S2P Require Import Prelude.
From S2P Require Import Environment.
From S2P Require Import CanonicalCbor.
From S2P Require Import BackendCatalog.
From S2P Require Import Ir.
From S2P Require Import ExecutionPlan.
From S2P Require Import Effects.
From S2P Require Import DispatchModel.
From S2P Require Import HGraph.
From stdpp Require Import options.

#[local] Open Scope nat_scope.

(** [if !b { return Err(..) }]. *)
Definition require (b : bool) (d : GraphDefect) : gresult unit := if b then Ok tt else Err (InvalidGraph d).

Definition found {A} (o : option A) (d : GraphDefect) : gresult A :=
  match o with Some a => Ok a | None => Err (InvalidGraph d) end.

(** [for a in l { .. }] with early return. *)
Fixpoint check_all {A} (f : A → gresult unit) (l : list A) : gresult unit :=
  match l with
  | [] => Ok tt
  | a :: l => let+ _ := f a in check_all f l
  end.

(** The same with a state. *)
Fixpoint fold_all {A B} (f : B → A → gresult B) (b : B) (l : list A) : gresult B :=
  match l with
  | [] => Ok b
  | a :: l => let+ b := f b a in fold_all f b l
  end.

Definition has_port (role : PortRole) (n : NodeId) (e : HEdge) : bool :=
  existsb (λ port, bool_decide (port_node port = n) && bool_decide (port_role port = role)) (e_ports e).

Definition ports_of (role : PortRole) (e : HEdge) : list NodeId :=
  port_node <$> filter (λ port, port_role port = role) (e_ports e).

(** ** Nodes *)

Definition validate_consumer (g : HGraph) (n : NodeId) (seen : gset EdgeId) (consumer : EdgeId) : gresult (gset EdgeId) :=
  let+ _ := require (negb (bool_decide (consumer ∈ seen))) RepeatedConsumer in
  let+ edge := found (exec_edges g !! consumer) MissingConsumerEdge in
  let+ _ := require (has_port Input n edge) ConsumerWithoutInput in
  Ok ({[ consumer ]} ∪ seen).

Definition validate_node (g : HGraph) (entry : NodeId * HNode) : gresult unit :=
  let '(id, node) := entry in
  let+ _ :=
    if is_value node then Ok tt
    else
      let+ _ := require (bool_decide (h_value node = None) && bool_decide (h_domain node = 0%Z)
                         && bool_decide (h_rep node = 0%Z)) SyntheticMetadata in
      match h_kind node with
      | Completion plan_node => require (bool_decide (completion_nodes g !! plan_node = Some id)) UnregisteredCompletion
      | _ => Ok tt
      end in
  let+ _ :=
    match h_kind node with
    | ResourceState _ 0 =>
        require (bool_decide (h_producer node = None) && bool_decide (h_state node = Materialized)) BadInitialState
    | _ => Ok tt
    end in
  let+ _ :=
    match h_producer node with
    | Some producer =>
        let+ edge := found (exec_edges g !! producer) MissingProducerEdge in
        require (has_port Output id edge) ProducerWithoutOutput
    | None => Ok tt
    end in
  let+ _ := fold_all (validate_consumer g id) ∅ (h_consumers node) in
  Ok tt.

Definition validate_value_at (g : HGraph) (absent synthetic : GraphDefect) (n : NodeId) : gresult unit :=
  let+ node := found (g_nodes g !! n) absent in
  require (is_value node) synthetic.

Definition validate_node_kinds (g : HGraph) : gresult unit :=
  let+ _ := check_all (validate_node g) (map_to_list (g_nodes g)) in
  let+ _ := check_all (validate_value_at g ProvenanceMissingNode ProvenanceSynthetic) (map_to_list (ir_map g)).*1 in
  check_all (validate_value_at g RootMissing RootSynthetic) (root_nodes g).

(** ** Operations *)

Definition resource_of (g : HGraph) (n : NodeId) : option (ResourceKey * nat) :=
  match g_nodes g !! n with
  | Some node => match h_kind node with ResourceState r v => Some (r, v) | _ => None end
  | None => None
  end.

Definition resource_versions (g : HGraph) (ns : list NodeId) (resource : ResourceKey) : list nat :=
  omap (λ n, match resource_of g n with
             | Some (r, v) => if bool_decide (r = resource) then Some v else None
             | None => None
             end) ns.

Definition resource_keys (g : HGraph) (ns : list NodeId) : gset ResourceKey :=
  list_to_set (omap (λ n, fst <$> resource_of g n) ns).

Definition require_read_write (s : EffectSummary) (r : ResourceKey) : gresult unit :=
  require (bool_decide (r ∈ reads s) && bool_decide (r ∈ writes s)) (MustReadWrite r).

Definition is_concurrent_branch (r : ResourceKey) : bool :=
  match r with ConcurrentProjectBranch _ => true | _ => false end.

Definition require_hosted_project_operation (s : EffectSummary) (must_spawn : bool) : gresult unit :=
  let+ _ := require (unknown s && negb (deterministic s) && bool_decide (fallibility s = MayFail)
                     && eqb (spawn s) must_spawn) ProjectNotUnknown in
  match List.find is_concurrent_branch (resource_list (reads s)) with
  | Some r => require_read_write s r
  | None => require_read_write s HostWorld
  end.

Definition validate_operation_resource_read (g : HGraph) (info : ExecInfo) (r : ResourceKey) : gresult unit :=
  let ins := resource_versions g (inputs info) r in
  let outs := resource_versions g (outputs info) r in
  require (bool_decide (length ins = 1) && bool_decide (outs = [])) (ReadStates (length ins) (length outs)).

Definition validate_operation_resource_write (g : HGraph) (info : ExecInfo) (r : ResourceKey) : gresult unit :=
  let ins := resource_versions g (inputs info) r in
  let outs := resource_versions g (outputs info) r in
  match ins, outs with
  | [v], [w] => require (bool_decide (w = S v)) WriteVersion
  | _, _ => Err (InvalidGraph (WriteStates (length ins) (length outs)))
  end.

Section Validate.
Context `{DG : !Digests} (validate_descriptor : str → nat → bool).

(** The member test on the graph's own plan and provenance. *)
Definition autonomous_ephemeral (g : HGraph) (info : ExecInfo) : gresult bool :=
  match source_plan g, ir_map g !! value_output info with
  | Some p, Some oir =>
      let+ group := plan_result (autonomous_ephemeral_group p (info_plan_node info) oir) in
      Ok (bool_decide (is_Some group))
  | _, _ => Ok false
  end.

Definition is_project_execution (op : HEdgeKind) : bool :=
  match op with Execute MaterializeProject | Execute (RunRoute _) => true | _ => false end.

Definition validate_hosted (g : HGraph) (info : ExecInfo) (s : EffectSummary) (r : ResourceKey) : gresult unit :=
  let+ _ := require_read_write s r in
  validate_operation_resource_write g info r.

Definition validate_backend (g : HGraph) (info : ExecInfo) (s : EffectSummary) (lang : str) (env : Z) : gresult unit :=
  let+ _ := require (unknown s && negb (deterministic s) && bool_decide (fallibility s = MayFail)) BackendNotUnknown in
  let+ ephemeral := autonomous_ephemeral g info in
  let+ _ := check_all (λ r, let+ _ := require_read_write s r in
                            if ephemeral then Ok tt else validate_operation_resource_write g info r)
              [HostWorld; EvaluatorState] in
  if is_persistent (from_encoded env) then
    let actor := {| canonical_language := lang; environment := env |} in
    let+ _ := require (bool_decide (actor_state s = Some actor)) BackendActor in
    validate_operation_resource_write g info (ActorState actor)
  else Ok tt.

Definition validate_operation_semantics (g : HGraph) (info : ExecInfo) (edge : HEdge) (s : EffectSummary) : gresult unit :=
  let+ _ :=
    if unknown s
       && negb (is_project_execution (e_op edge)
                && existsb (λ r, is_concurrent_branch r && bool_decide (r ∈ writes s)) (elements (reads s)))
    then require_read_write s HostWorld else Ok tt in
  match e_op edge with
  | Constraint _ => Err (InvalidGraph NoExecutableSemantics)
  | Execute (XNativeI64 digest) =>
      let+ oir := found (ir_map g !! value_output info) NativeWithoutProvenance in
      let+ descriptor := found (native_leaf_source_descriptor oir) NativeWithoutDescriptor in
      require (bool_decide (native_leaf_digest descriptor = digest) && effect_contract_worker_safe s oir) NativeDiffers
  | Execute (EvalBackend lang env) => validate_backend g info s lang env
  | Execute (XInvoke _ _) | Execute (XRequest _) | Execute (ForceRequest _) | Execute (XSchedule _) =>
      check_all (validate_hosted g info s) [HostWorld; EvaluatorState]
  | Execute MaterializeProject => require_hosted_project_operation s false
  | Execute (RunRoute _) => require_hosted_project_operation s true
  | Execute (BuildRoute _) => require (is_verified_pure_infallible s) BuildNotPure
  | Execute (SelectRoute policy) =>
      require (negb (bool_decide (policy = [])) && negb (unknown s) && bool_decide (fallibility s = MayFail)
               && bool_decide (actor_state s = None) && bool_decide (reads s = ∅) && bool_decide (writes s = ∅)
               && negb (spawn s)) SelectInvalid
  | Execute CompareRouteResults =>
      require (negb (unknown s) && deterministic s && bool_decide (fallibility s = MayFail)
               && bool_decide (actor_state s = None) && bool_decide (reads s = ∅) && bool_decide (writes s = ∅)
               && negb (spawn s)) CompareInvalid
  | Execute _ => Ok tt
  end.

Definition validate_input (g : HGraph) (info : ExecInfo) (n : NodeId) : gresult unit :=
  let+ node := found (g_nodes g !! n) InputAbsent in
  let+ _ := require (bool_decide (h_state node = Materialized) || bool_decide (is_Some (h_producer node))) InputNeverProduced in
  require (bool_decide (info_edge info ∈ h_consumers node)) InputWithoutConsumer.

Definition validate_output (g : HGraph) (info : ExecInfo) (produced_by : gmap NodeId EdgeId) (n : NodeId) :
    gresult (gmap NodeId EdgeId) :=
  let+ node := found (g_nodes g !! n) OutputAbsent in
  let+ _ := require (bool_decide (h_producer node = Some (info_edge info))) InconsistentProducer in
  let+ _ := require (bool_decide (h_state node = Unresolved)) OutputResolved in
  let+ _ := match produced_by !! n with
            | Some previous => require (bool_decide (previous = info_edge info)) SeveralProducers
            | None => Ok tt
            end in
  Ok (<[n := info_edge info]> produced_by).

Definition completion_outputs (g : HGraph) (info : ExecInfo) (plan_node : PlanNodeId) : list NodeId :=
  filter (λ n, h_kind <$> g_nodes g !! n = Some (Completion plan_node)) (outputs info).

Definition validate_accesses (g : HGraph) (info : ExecInfo) (s : EffectSummary) : gresult unit :=
  let '(rs, ws) := scheduling_accesses s in
  let+ ephemeral := autonomous_ephemeral g info in
  let required := if ephemeral then ∅ else rs ∪ ws in
  let ws := if ephemeral then ∅ else ws in
  let+ _ := require (bool_decide (resource_keys g (inputs info) = required)
                     && bool_decide (resource_keys g (outputs info) = ws)) AccessesDiffer in
  check_all (λ r, if bool_decide (r ∈ ws) then validate_operation_resource_write g info r
                  else validate_operation_resource_read g info r) (resource_list required).

Definition validate_ports (info : ExecInfo) (edge : HEdge) : gresult unit :=
  let unique_inputs : gset NodeId := list_to_set (inputs info) in
  let unique_outputs : gset NodeId := list_to_set (outputs info) in
  let+ _ := require (bool_decide (size unique_inputs = length (inputs info))
                     && bool_decide (size unique_outputs = length (outputs info))) RepeatedPort in
  let+ _ := require (bool_decide (unique_inputs ∩ unique_outputs = ∅)) OverlappingPorts in
  require (bool_decide (ports_of Input edge = inputs info) && bool_decide (ports_of Output edge = outputs info)) PortsDisagree.

Definition validate_operation (g : HGraph) (acc : gmap NodeId EdgeId * gset EdgeId) (entry : PlanNodeId * ExecInfo) :
    gresult (gmap NodeId EdgeId * gset EdgeId) :=
  let '(produced_by, mapped_edges) := acc in
  let '(plan_node, info) := entry in
  let+ _ := require (bool_decide (info_plan_node info = plan_node)) KeyMismatch in
  let+ edge := found (exec_edges g !! info_edge info) MissingEdge in
  let+ _ := require (negb (bool_decide (info_edge info ∈ mapped_edges))) EdgeMappedTwice in
  let+ _ := require (is_execute edge) NotExecutable in
  let+ _ := validate_ports info edge in
  let+ _ := check_all (validate_input g info) (inputs info) in
  let+ _ := require (bool_decide (value_output info ∈ outputs info)) ValueOutputAbsent in
  let+ _ := require (bool_decide (filter (λ n, is_value_at g n = true) (outputs info) = [value_output info]))
              OrdinaryOutputsDiffer in
  let+ _ := match completion_outputs g info plan_node with
            | [c] => require (bool_decide (completion_nodes g !! plan_node = Some c)) CompletionMapMismatch
            | _ => Err (InvalidGraph CompletionCount)
            end in
  let+ produced_by := fold_all (validate_output g info) produced_by (outputs info) in
  let+ s := found (effect_summaries g !! plan_node) NoSummary in
  let+ _ := validate_operation_semantics g info edge s in
  let+ _ := validate_accesses g info s in
  Ok (produced_by, {[ info_edge info ]} ∪ mapped_edges).

Definition validate_operation_shapes (g : HGraph) : gresult unit :=
  let+ (_, mapped_edges) := fold_all (validate_operation g) (∅, ∅) (map_to_list (op_map g)) in
  let+ _ := check_all (λ e, require (bool_decide (e ∈ mapped_edges)) UnmappedEdge) (map_to_list (exec_edges g)).*1 in
  let+ _ := check_all (λ i, require (bool_decide (is_Some (op_map g !! i))) CompletionWithoutOperation)
              (map_to_list (completion_nodes g)).*1 in
  check_all (λ i, require (bool_decide (is_Some (op_map g !! i))) SummaryWithoutOperation)
    (map_to_list (effect_summaries g)).*1.

(** ** Resource chains *)

Definition edge_to_info (g : HGraph) : gmap EdgeId ExecInfo :=
  list_to_map ((λ info, (info_edge info, info)) <$> (map_to_list (op_map g)).*2).

Definition validate_version (g : HGraph) (by_edge : gmap EdgeId ExecInfo) (versions : gmap ResourceKey (gmap nat NodeId))
    (entry : NodeId * HNode) : gresult (gmap ResourceKey (gmap nat NodeId)) :=
  let '(id, node) := entry in
  match h_kind node with
  | ResourceState resource version =>
      let chain := default ∅ (versions !! resource) in
      let+ _ := require (bool_decide (chain !! version = None)) DuplicateVersion in
      let versions := <[resource := <[version := id]> chain]> versions in
      match version with
      | 0 => Ok versions
      | S prior =>
          let+ producer := found (h_producer node) VersionWithoutProducer in
          let+ info := found (by_edge !! producer) VersionUnregistered in
          let+ _ := require (bool_decide (resource_versions g (inputs info) resource = [prior])) VersionNotNext in
          Ok versions
      end
  | _ => Ok versions
  end.

Definition validate_chain (entry : ResourceKey * gmap nat NodeId) : gresult unit :=
  let highest := foldr Nat.max 0 (map_to_list (entry.2)).*1 in
  if bool_decide (entry.2 = ∅) then Ok tt
  else check_all (λ v, require (bool_decide (is_Some (entry.2 !! v))) ChainSkips) (seq 0 (S highest)).

Definition validate_resource_chains (g : HGraph) : gresult unit :=
  let+ versions := fold_all (validate_version g (edge_to_info g)) ∅ (map_to_list (g_nodes g)) in
  check_all validate_chain (map_to_list versions).

(** ** Sequence dependencies *)

Definition validate_sequence (g : HGraph) (d : SequenceDependency) : gresult unit :=
  let+ pred := found (op_map g !! predecessor d) SequencePredecessor in
  let+ succ := found (op_map g !! successor d) SequenceSuccessor in
  let+ node := found (g_nodes g !! seq_completion d) SequenceCompletionMissing in
  require (bool_decide (h_kind node = Completion (predecessor d)) && bool_decide (h_producer node = Some (info_edge pred))
           && bool_decide (seq_completion d ∈ outputs pred) && bool_decide (seq_completion d ∈ inputs succ))
    SequenceNotImplemented.

Definition validate_sequence_dependencies (g : HGraph) : gresult unit :=
  check_all (validate_sequence g) (sequence_dependencies g).

(** ** The source plan *)

Definition value_for_plan (g : HGraph) (p : ExecutionPlan) (acc : gmap PlanNodeId NodeId) (entry : NodeId * HNode) :
    gresult (gmap PlanNodeId NodeId) :=
  let '(id, node) := entry in
  if negb (is_value node) then Ok acc
  else
    let+ plan_node := found (h_plan_node node) ValueWithoutPlanNode in
    let+ _ := require (bool_decide (plan_node < length (plan_nodes p))) ValueOutOfBounds in
    let+ _ := require (bool_decide (acc !! plan_node = None)) SeveralValues in
    let+ _ := require (bool_decide (is_Some (ir_map g !! id))) ValueWithoutProvenance in
    Ok (<[plan_node := id]> acc).

(** [self.nodes[node].is_value()]. *)
Fixpoint value_inputs (g : HGraph) (ns : list NodeId) : gresult (gset NodeId) :=
  match ns with
  | [] => Ok ∅
  | n :: ns =>
      let+ node := index_or_panic (g_nodes g !! n) in
      let+ rest := value_inputs g ns in
      Ok (if is_value node then {[ n ]} ∪ rest else rest)
  end.

Definition is_text_node (n : PlanNode) : bool := match node_kind n with PText => true | _ => false end.

Definition validate_literal (g : HGraph) (n : PlanNode) (value : NodeId) : gresult unit :=
  let+ _ := require (is_text_node n) NoLowering in
  let+ node := index_or_panic (g_nodes g !! value) in
  require (bool_decide (h_state node = Materialized) && bool_decide (h_producer node = None)
           && bool_decide (op_map g !! node_id n = None)) LiteralNotMaterialized.

Definition validate_plan_node (g : HGraph) (x : ExecutionPlanIndex) (values : gmap PlanNodeId NodeId) (n : PlanNode) :
    gresult unit :=
  let+ value := mapped values (node_id n) in
  match executable_op (node_kind n) with
  | None => validate_literal g n value
  | Some op =>
      let+ info := found (op_map g !! node_id n) OperationMissing in
      let+ _ := require (bool_decide (value_output info = value)) WrongValueOutput in
      let+ edge := index_or_panic (exec_edges g !! info_edge info) in
      let+ _ := require (bool_decide (e_op edge = Execute op)) SemanticsDiffer in
      let+ derived := match effect_summary_for_plan_node validate_descriptor (node_id n) (node_kind n) with
                      | inl e => Err (EffectRefused e)
                      | inr s => Ok s
                      end in
      let+ actual := index_or_panic (effect_summaries g !! node_id n) in
      let+ _ := require (bool_decide (actual = derived)) SummaryDiffers in
      let+ es := incoming x (node_id n) in
      let+ expected := mapped_all values (edge_from <$> filter (λ e, is_input_edge e = true) es) in
      let+ consumed := value_inputs g (inputs info) in
      require (bool_decide (consumed = list_to_set expected)) ValueInputsDiffer
  end.

Definition expect_sequence (g : HGraph) (p : ExecutionPlan) (x : ExecutionPlanIndex) (target : PlanNodeId)
    (acc : gset (PlanNodeId * PlanNodeId)) (pred : PlanNodeId) : gresult (gset (PlanNodeId * PlanNodeId)) :=
  let+ relax := sequence_can_relax p x pred target (effect_summaries g) in
  if relax then Ok acc
  else
    let+ c := found (completion_nodes g !! pred) PredecessorWithoutCompletion in
    let+ info := index_or_panic (op_map g !! target) in
    let+ _ := require (bool_decide (c ∈ inputs info)) CompletionInputMissing in
    Ok ({[ (pred, target) ]} ∪ acc).

Definition expect_sequences (g : HGraph) (p : ExecutionPlan) (x : ExecutionPlanIndex)
    (acc : gset (PlanNodeId * PlanNodeId)) (n : PlanNode) : gresult (gset (PlanNodeId * PlanNodeId)) :=
  let+ kind := node_kind_at p (node_id n) in
  if negb (is_executable kind) then Ok acc
  else
    let+ preds := executable_sequence_predecessors p x (node_id n) in
    fold_all (expect_sequence g p x (node_id n)) acc (node_list preds).

(** *** Replay of the resource frontiers *)

Record ExpectedFrontier : Type := { x_last_write : option NodeId; x_open_reads : gset NodeId; x_version : nat }.

Definition initial_frontier : ExpectedFrontier := {| x_last_write := None; x_open_reads := ∅; x_version := 0 |}.

Definition collect_initial (acc : gmap ResourceKey NodeId) (entry : NodeId * HNode) : gresult (gmap ResourceKey NodeId) :=
  match h_kind (entry.2) with
  | ResourceState resource 0 =>
      let+ _ := require (bool_decide (acc !! resource = None)) SeveralInitialStates in
      Ok (<[resource := entry.1]> acc)
  | _ => Ok acc
  end.

(** The outputs of the operation that are states of the resource. *)
Fixpoint state_outputs (g : HGraph) (resource : ResourceKey) (ns : list NodeId) : gresult (list (NodeId * nat)) :=
  match ns with
  | [] => Ok []
  | n :: ns =>
      let+ node := index_or_panic (g_nodes g !! n) in
      let+ rest := state_outputs g resource ns in
      Ok (match h_kind node with
          | ResourceState r v => if bool_decide (r = resource) then (n, v) :: rest else rest
          | _ => rest
          end)
  end.

Definition replay_resource (g : HGraph) (initial : gmap ResourceKey NodeId) (info : ExecInfo) (ws : gset ResourceKey)
    (c : NodeId) (frontiers : gmap ResourceKey ExpectedFrontier) (resource : ResourceKey) :
    gresult (gmap ResourceKey ExpectedFrontier) :=
  let f := default initial_frontier (frontiers !! resource) in
  let+ expected := match x_last_write f with
                   | Some n => Ok n
                   | None => found (initial !! resource) NoInitialState
                   end in
  let+ _ := require (bool_decide (expected ∈ inputs info)) StaleState in
  if bool_decide (resource ∈ ws) then
    let+ _ := check_all (λ reader, require (bool_decide (reader ∈ inputs info)) OpenReaderOmitted) (node_list (x_open_reads f)) in
    let+ outs := state_outputs g resource (outputs info) in
    match outs with
    | [(n, v)] =>
        let+ _ := require (bool_decide (v = S (x_version f))) WriteNotNext in
        Ok (<[resource := {| x_last_write := Some n; x_open_reads := ∅; x_version := S (x_version f) |}]> frontiers)
    | _ => Err (InvalidGraph WriteNotNext)
    end
  else
    Ok (<[resource := {| x_last_write := x_last_write f; x_open_reads := {[ c ]} ∪ x_open_reads f;
                         x_version := x_version f |}]> frontiers).

Definition replay_operation (g : HGraph) (p : ExecutionPlan) (x : ExecutionPlanIndex) (initial : gmap ResourceKey NodeId)
    (frontiers : gmap ResourceKey ExpectedFrontier) (id : PlanNodeId) : gresult (gmap ResourceKey ExpectedFrontier) :=
  match op_map g !! id with
  | None => Ok frontiers
  | Some info =>
      let+ kind := node_kind_at p id in
      let+ s := match effect_summary_for_plan_node validate_descriptor id kind with
                | inl e => Err (EffectRefused e)
                | inr s => Ok s
                end in
      let+ oir := found (ir_map g !! value_output info) OperationWithoutOir in
      let+ group := plan_result (autonomous_ephemeral_group_indexed p x id oir) in
      match group with
      | Some _ => Ok frontiers
      | None =>
          let '(rs, ws) := scheduling_accesses s in
          let+ c := found (completion_nodes g !! id) OperationWithoutCompletion in
          fold_all (replay_resource g initial info ws c) frontiers (resource_list (rs ∪ ws))
      end
  end.

Definition validate_source_resource_frontiers (g : HGraph) (p : ExecutionPlan) (x : ExecutionPlanIndex) : gresult unit :=
  let+ initial := fold_all collect_initial ∅ (map_to_list (g_nodes g)) in
  let+ _ := fold_all (replay_operation g p x initial) ∅ (idx_order x) in
  Ok tt.

Definition validate_source_plan_dependencies (g : HGraph) : gresult unit :=
  match source_plan g with
  | None => Ok tt
  | Some p =>
      let+ x := plan_result (index_new p) in
      let+ values := fold_all (value_for_plan g p) ∅ (map_to_list (g_nodes g)) in
      let+ _ := require (bool_decide (size values = length (plan_nodes p))
                         && bool_decide (size (ir_map g) = length (plan_nodes p))) ValueCount in
      let+ expected_roots := mapped_all values (roots p) in
      let+ _ := require (bool_decide (root_nodes g = expected_roots)) RootsDiffer in
      let+ _ := check_all (validate_plan_node g x values) (plan_nodes p) in
      let+ expected := fold_all (expect_sequences g p x) ∅ (plan_nodes p) in
      let recorded : gset (PlanNodeId * PlanNodeId) :=
        list_to_set ((λ d, (predecessor d, successor d)) <$> sequence_dependencies g) in
      let+ _ := require (bool_decide (size recorded = length (sequence_dependencies g))) DuplicateSequences in
      let+ _ := require (bool_decide (recorded = expected)) SequencesDiffer in
      validate_source_resource_frontiers g p x
  end.

(** ** Acyclicity *)

Fixpoint producers_of (g : HGraph) (by_edge : gmap EdgeId ExecInfo) (ns : list NodeId) : gresult (gset PlanNodeId) :=
  match ns with
  | [] => Ok ∅
  | n :: ns =>
      match g_nodes g !! n ≫= h_producer with
      | None => producers_of g by_edge ns
      | Some producer =>
          let+ info := found (by_edge !! producer) ProducerUnregistered in
          let+ rest := producers_of g by_edge ns in
          Ok ({[ info_plan_node info ]} ∪ rest)
      end
  end.

Definition link (plan_node : PlanNodeId) (acc : gmap PlanNodeId nat * gmap PlanNodeId (gset PlanNodeId))
    (pred : PlanNodeId) : gresult (gmap PlanNodeId nat * gmap PlanNodeId (gset PlanNodeId)) :=
  let '(indegree, successors) := acc in
  let+ d := index_or_panic (indegree !! plan_node) in
  Ok (<[plan_node := S d]> indegree, <[pred := {[ plan_node ]} ∪ default ∅ (successors !! pred)]> successors).

Definition link_operation (g : HGraph) (by_edge : gmap EdgeId ExecInfo)
    (acc : gmap PlanNodeId nat * gmap PlanNodeId (gset PlanNodeId)) (info : ExecInfo) :
    gresult (gmap PlanNodeId nat * gmap PlanNodeId (gset PlanNodeId)) :=
  let+ deps := producers_of g by_edge (inputs info) in
  fold_all (link (info_plan_node info)) acc (node_list deps).

Definition settle (acc : gmap PlanNodeId nat * list PlanNodeId) (succ : PlanNodeId) :
    gresult (gmap PlanNodeId nat * list PlanNodeId) :=
  let '(indegree, ready) := acc in
  match indegree !! succ with
  | Some (S d) => Ok (<[succ := d]> indegree, if bool_decide (d = 0) then btree_insert succ ready else ready)
  | _ => Panic
  end.

Fixpoint settle_all (fuel : nat) (successors : gmap PlanNodeId (gset PlanNodeId)) (indegree : gmap PlanNodeId nat)
    (ready : list PlanNodeId) (scheduled : nat) : gresult nat :=
  match ready with
  | [] => Ok scheduled
  | id :: ready =>
      match fuel with
      | O => NoFuel
      | S fuel =>
          let+ (indegree, ready) := fold_all settle (indegree, ready) (node_list (default ∅ (successors !! id))) in
          settle_all fuel successors indegree ready (S scheduled)
      end
  end.

Definition validate_executable_acyclicity (g : HGraph) : gresult unit :=
  let by_edge := edge_to_info g in
  let+ (indegree, successors) :=
    fold_all (link_operation g by_edge) ((λ _, 0) <$> op_map g, ∅) (map_to_list (op_map g)).*2 in
  let ready := sort_ids (map_to_list (filter (λ e, e.2 = 0) indegree)).*1 in
  let+ scheduled := settle_all (size (op_map g)) successors indegree ready 0 in
  require (bool_decide (scheduled = size (op_map g))) Cycle.

(** ** Entry points *)

Definition validate_execution_graph (g : HGraph) : gresult unit :=
  let+ _ := validate_node_kinds g in
  let+ _ := validate_operation_shapes g in
  let+ _ := validate_resource_chains g in
  let+ _ := validate_sequence_dependencies g in
  let+ _ := validate_source_plan_dependencies g in
  validate_executable_acyclicity g.

Definition validate_evidence (g : HGraph) (plan_node : PlanNodeId) (info : ExecInfo) (fact : AdmissionFactKind) : gresult unit :=
  let+ n := found (admission_evidence_nodes g !! (plan_node, fact)) EvidenceMissing in
  let+ node := found (g_nodes g !! n) EvidenceAbsent in
  require (bool_decide (h_kind node = AdmissionEvidence plan_node fact) && bool_decide (h_state node = Materialized)
           && bool_decide (h_producer node = None) && bool_decide (h_consumers node = [info_edge info])
           && bool_decide (n ∈ inputs info)) EvidenceInvalid.

Definition validate_admitted_execution_graph (g : HGraph) : gresult unit :=
  let+ _ := validate_execution_graph g in
  let+ _ := require (bool_decide (size (admission_evidence_nodes g) = size (op_map g) * length ADMISSION_FACTS)) EvidenceCount in
  let+ _ := check_all (λ e, check_all (validate_evidence g e.1 e.2) ADMISSION_FACTS) (map_to_list (op_map g)) in
  check_all (λ e, match h_kind e.2 with
                  | AdmissionEvidence plan_node fact =>
                      require (bool_decide (admission_evidence_nodes g !! (plan_node, fact) = Some e.1)) EvidenceUnregistered
                  | _ => Ok tt
                  end) (map_to_list (g_nodes g)).

Definition validate_execution_plan (g : HGraph) (p : ExecutionPlan) : gresult unit :=
  let+ _ := validate_execution_graph g in
  require (bool_decide (source_plan g = Some p)) PlanDiffers.

Context `{UT : !UnicodeTables}.

(** The provenance of one flattened instruction. *)
Definition validate_provenance (g : HGraph) (value_for_plan : list (option PlanNodeId * NodeId)) (entry : nat * OIr) :
    gresult unit :=
  let+ value := found (snd <$> (snd <$> list_find (λ e, e.1 = Some entry.1) value_for_plan)) NoProvenance in
  let+ recorded := found (ir_map g !! value) NoProvenance in
  require (bool_decide (recorded = entry.2)) OirDiffers.

Definition validate_execution_source (g : HGraph) (prog : OIrProgram) (p : ExecutionPlan) : gresult unit :=
  let+ _ := validate_execution_plan g p in
  let flat := flatten_for_plan prog in
  let+ _ := require (bool_decide (length flat = length (plan_nodes p))) FlattenDiffers in
  let value_for_plan :=
    omap (λ e, if is_value e.2 then Some (h_plan_node e.2, e.1) else None) (map_to_list (g_nodes g)) in
  check_all (validate_provenance g value_for_plan) (imap pair flat).

Definition build_program_with_plan (prog : OIrProgram) (p : ExecutionPlan) : gresult HGraph :=
  let+ g := project_program validate_descriptor prog p in
  let+ _ := validate_execution_graph g in
  Ok g.

(** [.expect(..)]. *)
Definition build_program (prog : OIrProgram) : gresult HGraph :=
  match build_program_with_plan prog (plan prog) with Err _ => Panic | r => r end.
End Validate.
