(* ===== verification/HGraphTheorems.v ===== *)
(** * What validation guarantees

    Soundness of [validate_execution_graph] on arbitrary graphs: the operations of an
    accepted graph have an order, and those whose effects conflict are connected
    by a path of produced and consumed nodes in the order of the plan. *)

From S2P Require Import Prelude.
From S2P Require Import Reorder.
From S2P Require Import CanonicalCbor.
From S2P Require Import BackendCatalog.
From S2P Require Import Ir.
From S2P Require Import ExecutionPlan.
From S2P Require Import Effects.
From S2P Require Import EffectsTheorems.
From S2P Require Import DispatchModel.
From S2P Require Import Topological.
From S2P Require Import PlanSchedules.
From S2P Require Import DispatchTheorems.
From S2P Require Import HGraph.
From S2P Require Import HGraphLowering.
From S2P Require Import HGraphValidate.
From stdpp Require Import options.

#[local] Open Scope nat_scope.

(** ** Checks that passed *)

Lemma require_ok b d u : require b d = Ok u ↔ b = true.
Proof. unfold require. destruct b, u; naive_solver. Qed.

Lemma found_ok {A} (o : option A) d a : found o d = Ok a ↔ o = Some a.
Proof. unfold found. destruct o; naive_solver. Qed.

Lemma index_ok {A} (o : option A) a : index_or_panic (E := HGraphError) o = Ok a ↔ o = Some a.
Proof. unfold index_or_panic. destruct o; naive_solver. Qed.

Lemma plan_result_ok {A} (r : presult A) a : plan_result r = Ok a ↔ r = Ok a.
Proof. unfold plan_result. destruct r; naive_solver. Qed.

Lemma check_all_ok {A} (f : A → gresult unit) l u : check_all f l = Ok u ↔ Forall (λ a, f a = Ok tt) l.
Proof.
  destruct u. induction l as [|a l IH]; cbn [check_all]; [done|].
  rewrite Forall_cons, outcome_bind_ok, <-IH. split; [intros ([] & ? & ?); auto|intros [? ?]; by exists tt].
Qed.

Lemma check_all_in {A} (f : A → gresult unit) l u a : check_all f l = Ok u → a ∈ l → f a = Ok tt.
Proof. rewrite check_all_ok, Forall_forall. auto. Qed.

(** Every element is reached by the loop, in some state. *)
Lemma fold_all_in {A B} (f : B → A → gresult B) l b b' a :
  fold_all f b l = Ok b' → a ∈ l → ∃ c c', f c a = Ok c'.
Proof.
  revert b. induction l as [|x l IH]; intros b H Ha; [set_solver|]. cbn [fold_all] in H. peel H as c Hc.
  apply elem_of_cons in Ha as [-> |Ha]; eauto.
Qed.

Lemma fold_all_snoc {A B} (f : B → A → gresult B) l a b b' :
  fold_all f b (l ++ [a]) = Ok b' ↔ ∃ c, fold_all f b l = Ok c ∧ f c a = Ok b'.
Proof.
  revert b. induction l as [|x l IH]; intros b; cbn [fold_all app].
  - rewrite outcome_bind_ok. split; [intros (c & ? & [= ->])|intros (c & [= ->] & ?)]; eauto.
  - rewrite !outcome_bind_ok. setoid_rewrite IH. setoid_rewrite outcome_bind_ok. naive_solver.
Qed.

Lemma fold_all_ind {A B} (f : B → A → gresult B) (P : list A → B → Prop) b0 l b :
  P [] b0 → (∀ done a c c', P done c → f c a = Ok c' → P (done ++ [a]) c') → fold_all f b0 l = Ok b → P l b.
Proof.
  intros H0 Hs. revert b. induction l as [|a l IH] using rev_ind; intros b; [by intros [= <-]|].
  rewrite fold_all_snoc. intros (c & Hc & Hb). eauto.
Qed.

(** ** The replay of the resource frontiers *)

Section Replay.
Context (g : HGraph) (initial : gmap ResourceKey NodeId) (info : ExecInfo) (ws : gset ResourceKey) (c : NodeId).

(** What the replay of [info] has established for the resource [r]. *)
Definition replayed (fr fr' : gmap ResourceKey ExpectedFrontier) (r : ResourceKey) : Prop :=
  ∃ f', fr' !! r = Some f' ∧
  (r ∈ ws → ∃ n, x_last_write f' = Some n ∧ n ∈ outputs info) ∧
  (r ∉ ws → c ∈ x_open_reads f') ∧
  ∀ f, fr !! r = Some f →
    (∀ m, x_last_write f = Some m → m ∈ inputs info) ∧
    (r ∈ ws → ∀ m, m ∈ x_open_reads f → m ∈ inputs info) ∧
    (r ∉ ws → x_last_write f' = x_last_write f ∧ x_open_reads f ⊆ x_open_reads f').

Lemma state_outputs_in resource ns outs n v :
  state_outputs g resource ns = Ok outs → (n, v) ∈ outs → n ∈ ns.
Proof.
  revert outs. induction ns as [|m ns IH]; intros outs H Hin; cbn [state_outputs] in H; [injection H as <-; set_solver|].
  peel H as node Hn. peel H as rest Hr. injection H as <-. apply elem_of_cons.
  destruct (h_kind node); [right; by eapply IH|case_bool_decide; [|right; by eapply IH]|right; by eapply IH..].
  apply elem_of_cons in Hin as [[= -> _]|?]; [by left|right; by eapply IH].
Qed.

Lemma replay_resource_spec fr r fr' :
  replay_resource g initial info ws c fr r = Ok fr' → replayed fr fr' r ∧ ∀ r', r' ≠ r → fr' !! r' = fr !! r'.
Proof.
  intros H. unfold replay_resource in H. peel H as expected He. peel H as u Hs.
  apply require_ok, bool_decide_eq_true in Hs.
  assert (Hlast : ∀ f, fr !! r = Some f → ∀ m, x_last_write f = Some m → m ∈ inputs info).
  { intros f Hf m Hm. rewrite Hf in He. simpl in He. rewrite Hm in He. by injection He as <-. }
  destruct (bool_decide (r ∈ ws)) eqn:Hw.
  - apply bool_decide_eq_true in Hw. peel H as u' Hopen. peel H as outs Ho. rewrite check_all_ok, Forall_forall in Hopen.
    destruct outs as [|[n v] [|]]; try done. peel H as u'' Hv. injection H as <-.
    split; [|by intros r' ?; rewrite lookup_insert_ne]. eexists. rewrite lookup_insert_eq. split_and!; [done| |done|].
    + intros _. exists n. split; [done|]. eapply state_outputs_in; [done|]. by apply elem_of_cons; left.
    + intros f Hf. split_and!; [by apply Hlast| |done]. intros _ m Hm. rewrite Hf in Hopen. simpl in Hopen.
      apply elem_of_node_list in Hm. apply Hopen in Hm. by apply require_ok, bool_decide_eq_true in Hm.
  - apply bool_decide_eq_false in Hw. injection H as <-. split; [|by intros r' ?; rewrite lookup_insert_ne].
    eexists. rewrite lookup_insert_eq. split_and!; [done|done|set_solver|].
    intros f Hf. split_and!; [by apply Hlast|done|]. rewrite Hf. simpl. set_solver.
Qed.

Lemma replay_resources_spec fr rs fr' :
  NoDup rs → fold_all (replay_resource g initial info ws c) fr rs = Ok fr' →
  (∀ r, r ∈ rs → replayed fr fr' r) ∧ ∀ r, r ∉ rs → fr' !! r = fr !! r.
Proof.
  revert fr'. induction rs as [|r rs IH] using rev_ind; intros fr' Hnd.
  { intros [= <-]. split; [set_solver|done]. }
  rewrite fold_all_snoc. intros (fr1 & H1 & H2). apply NoDup_app in Hnd as (Hnd & Hdis & _).
  assert (Hr : r ∉ rs) by (intros ?; by apply (Hdis r); [|set_solver]).
  destruct (IH fr1 Hnd H1) as [Hin Hout]. apply replay_resource_spec in H2 as [Hrep Hsame]. split.
  - intros r' [Hr'| ->%list_elem_of_singleton]%elem_of_app.
    + destruct (Hin r' Hr') as (f' & Hf' & ?). exists f'. rewrite Hsame by (by intros ->). done.
    + destruct Hrep as (f' & Hf' & ? & ? & Hold). exists f'. split_and!; [done..|]. rewrite <-Hout by done. done.
  - intros r' [? ?]%not_elem_of_app. rewrite Hsame by set_solver. by apply Hout.
Qed.
End Replay.

Section Order.
Context (validate_descriptor : str → nat → bool).
Context (g : HGraph) (p : ExecutionPlan) (x : ExecutionPlanIndex) (initial : gmap ResourceKey NodeId).

(** The graph's operation for [i] takes part in the replay. *)
Definition replay_member (i : PlanNodeId) : Prop := ∃ info oir,
  op_map g !! i = Some info ∧ ir_map g !! value_output info = Some oir ∧ autonomous_ephemeral_group_indexed p x i oir = Ok None.

Definition plan_summary (i : PlanNodeId) (s : EffectSummary) : Prop :=
  ∃ n, plan_nodes p !! i = Some n ∧ effect_summary_for_plan_node validate_descriptor i (node_kind n) = inr s.

Definition leases (s : EffectSummary) : gset ResourceKey := (scheduling_accesses s).1 ∪ (scheduling_accesses s).2.
Definition write_leases (s : EffectSummary) : gset ResourceKey := (scheduling_accesses s).2.

Lemma plan_summary_fun i s s' : plan_summary i s → plan_summary i s' → s = s'.
Proof. intros (n & Hn & Hs) (n' & Hn' & Hs'). simplify_eq. congruence. Qed.

Definition tracks (f : ExpectedFrontier) (i : PlanNodeId) (s : EffectSummary) (r : ResourceKey) : Prop :=
  let written := ∃ n, x_last_write f = Some n ∧ reaches g i n in
  (r ∈ write_leases s → written) ∧
  (r ∉ write_leases s → (∃ c, completion_nodes g !! i = Some c ∧ c ∈ x_open_reads f) ∨ written).

Record tracked (D : list PlanNodeId) (fr : gmap ResourceKey ExpectedFrontier) : Prop := {
  tr_covered : ∀ i s r, i ∈ D → replay_member i → plan_summary i s → r ∈ leases s →
    ∃ f, fr !! r = Some f ∧ tracks f i s r;
  tr_ordered : ∀ i j s s', before D i j → replay_member i → replay_member j →
    plan_summary i s → plan_summary j s' → share_lease s s' → tc (depends g) i j;
}.

Context (Hdone : ∀ i info, op_map g !! i = Some info → ∃ c, completion_nodes g !! i = Some c ∧ c ∈ outputs info).

Section Step.
Context (D : list PlanNodeId) (fr fr' : gmap ResourceKey ExpectedFrontier) (id : PlanNodeId) (info : ExecInfo)
  (s : EffectSummary) (c : NodeId).
Context (HT : tracked D fr) (Hinfo : op_map g !! id = Some info) (Hs : plan_summary id s) (Hid : id ∉ D)
  (Hc : completion_nodes g !! id = Some c)
  (Hrep : ∀ r, r ∈ leases s → replayed info (write_leases s) c fr fr' r)
  (Hout : ∀ r, r ∉ leases s → fr' !! r = fr !! r).

Lemma reaches_input i n : reaches g i n → n ∈ inputs info → tc (depends g) i id.
Proof using Hinfo. intros Hr Hn. eapply reaches_depends; [done|]. by exists info. Qed.

(** An earlier operation that holds a lease conflicting with one of [id]. *)
Lemma replay_orders i si r :
  i ∈ D → replay_member i → plan_summary i si → r ∈ leases s → r ∈ leases si →
  r ∈ write_leases s ∨ r ∈ write_leases si → tc (depends g) i id.
Proof using HT Hinfo Hrep Hdone.
  intros Hi Hm Hsi Hr Hri Hw. destruct (tr_covered _ _ HT i si r Hi Hm Hsi Hri) as (f & Hf & Hwi & Hroi).
  destruct (Hrep r Hr) as (f' & Hf' & _ & _ & Hold). destruct (Hold f Hf) as (Hlast & Hopen & _).
  destruct (decide (r ∈ write_leases si)) as [Hwr|Hwr].
  - destruct (Hwi Hwr) as (n & Hn & ?). eapply reaches_input; eauto.
  - destruct Hw as [Hw|]; [|done]. destruct (Hroi Hwr) as [(ci & Hci & Hin)|(n & Hn & ?)]; [|eapply reaches_input; eauto].
    destruct Hm as (ii & _ & Hii & _). destruct (Hdone i ii Hii) as (ci' & E & ?). rewrite Hci in E. injection E as <-.
    apply (reaches_input i ci); [|by eapply Hopen]. exists i. split; [done|]. by exists ii.
Qed.

Lemma replay_covers i si r :
  i ∈ D ++ [id] → replay_member i → plan_summary i si → r ∈ leases si → ∃ f, fr' !! r = Some f ∧ tracks f i si r.
Proof using All.
  intros [Hi| ->%list_elem_of_singleton]%elem_of_app Hm Hsi Hri.
  - destruct (tr_covered _ _ HT i si r Hi Hm Hsi Hri) as (f & Hf & Ht).
    destruct (decide (r ∈ leases s)) as [Hr|Hr]; [|exists f; by rewrite Hout].
    destruct (Hrep r Hr) as (f' & Hf' & Hnew & _ & Hold). exists f'. split; [done|].
    destruct (decide (r ∈ write_leases s)) as [Hw|Hw].
    + assert (∃ n, x_last_write f' = Some n ∧ reaches g i n); [|by split; auto].
      destruct (Hnew Hw) as (n & Hn & ?). exists n. split; [done|]. exists id. split; [|by exists info].
      apply tc_rtc. eapply replay_orders; eauto.
    + destruct (Hold f Hf) as (_ & _ & Hsame). destruct (Hsame Hw) as [E Hsub]. destruct Ht as [H1 H2]. unfold tracks.
      rewrite E. split; [done|]. intros Hwi. destruct (H2 Hwi) as [(ci & ? & ?)|?]; [left; exists ci; set_solver|by right].
  - rewrite (plan_summary_fun id si s Hsi Hs) in *. destruct (Hrep r Hri) as (f' & Hf' & Hnew & Hcf & _). exists f'.
    split; [done|]. split.
    + intros Hw. destruct (Hnew Hw) as (n & Hn & ?). exists n. split; [done|]. exists id. split; [done|by exists info].
    + intros Hw. left. exists c. auto.
Qed.

Lemma replay_tracked : tracked (D ++ [id]) fr'.
Proof using All.
  constructor; [exact replay_covers|]. intros i j si sj [Hb|[Hi ->]]%before_snoc Hmi Hmj Hsi Hsj Hsh.
  - by eapply (tr_ordered _ _ HT).
  - rewrite (plan_summary_fun id sj s Hsj Hs) in *. destruct Hsh as (r & Hr).
    eapply (replay_orders i si r); [done..| | |]; unfold leases, write_leases; set_solver.
Qed.
End Step.

Lemma tracked_skip D fr id : tracked D fr → ¬ replay_member id → tracked (D ++ [id]) fr.
Proof.
  intros [Hc Ho] Hn. constructor.
  - intros i s r [Hi| ->%list_elem_of_singleton]%elem_of_app Hm; [by apply Hc|done].
  - intros i j s s' [Hb|[_ ->]]%before_snoc Hmi Hmj; [by apply Ho|done].
Qed.

Lemma replay_operation_spec D fr id fr' :
  tracked D fr → id ∉ D → replay_operation validate_descriptor g p x initial fr id = Ok fr' → tracked (D ++ [id]) fr'.
Proof using Hdone.
  intros HT Hid H. unfold replay_operation in H. destruct (op_map g !! id) as [info|] eqn:Hinfo.
  2:{ injection H as <-. apply tracked_skip; [done|]. intros (? & ? & ? & _). congruence. }
  peel H as kind Hk. peel H as s Hs. peel H as oir Ho. peel H as group Hgr.
  apply found_ok in Ho. apply plan_result_ok in Hgr.
  destruct group as [gr|].
  { injection H as <-. apply tracked_skip; [done|]. intros (info' & oir' & ? & ? & ?). simplify_eq. congruence. }
  destruct (scheduling_accesses s) as [rs ws] eqn:Hrw. peel H as c Hc. apply found_ok in Hc.
  apply replay_resources_spec in H as [Hin Hout]; [|apply resource_list_nodup].
  assert (El : leases s = rs ∪ ws) by (unfold leases; by rewrite Hrw).
  assert (Ew : write_leases s = ws) by (unfold write_leases; by rewrite Hrw).
  eapply (replay_tracked D fr fr' id info s c); [done|done| |done|done| |].
  - unfold node_kind_at, kind_at in Hk. destruct (plan_nodes p !! id) as [n|] eqn:En; [|done].
    exists n. split; [done|]. injection Hk as <-. by destruct (effect_summary_for_plan_node _ _ _); simplify_eq.
  - intros r Hr. rewrite Ew. apply Hin. by rewrite elem_of_resource_list, <-El.
  - intros r Hr. apply Hout. by rewrite elem_of_resource_list, <-El.
Qed.

Lemma replay_orders_leases order fr :
  NoDup order → fold_all (replay_operation validate_descriptor g p x initial) ∅ order = Ok fr → tracked order fr.
Proof using Hdone.
  revert fr. induction order as [|id order IH] using rev_ind; intros fr Hnd.
  { intros _. constructor; [set_solver|]. intros i j s s' Hb%before_elem. set_solver. }
  rewrite fold_all_snoc. intros (fr1 & H1 & H2). apply NoDup_app in Hnd as (Hnd & Hdis & _).
  eapply replay_operation_spec; [by apply IH| |done]. intros ?. apply (Hdis id); set_solver.
Qed.
End Order.

(** ** The acyclicity check *)

Lemma btree_insert_perm v l : v ∉ l → btree_insert v l ≡ₚ v :: l.
Proof.
  induction l as [|w l IH]; simpl; [done|]. intros [Hne Hl]%not_elem_of_cons.
  destruct (decide (v < w)); [done|]. rewrite decide_False by done. rewrite IH by done. apply Permutation_swap.
Qed.

(** Releasing the successors of one operation. *)
Lemma settle_spec ss indegree ready indegree' ready' :
  NoDup ss → fold_all settle (indegree, ready) ss = Ok (indegree', ready') →
  (∀ v, v ∉ ss → indegree' !! v = indegree !! v) ∧
  (∀ v, v ∈ ss → ∃ d, indegree !! v = Some (S d) ∧ indegree' !! v = Some d) ∧
  (∀ v, v ∈ ready' ↔ v ∈ ready ∨ (v ∈ ss ∧ indegree !! v = Some 1)) ∧
  (NoDup ready → (∀ v, v ∈ ready → v ∉ ss) → NoDup ready').
Proof.
  revert indegree' ready'. induction ss as [|w ss IH] using rev_ind; intros indegree' ready' Hnd.
  { intros [= <- <-]. split_and!; set_solver. }
  rewrite fold_all_snoc. intros ([ind1 ready1] & H1 & H2). apply NoDup_app in Hnd as (Hnd & Hdis & _).
  assert (Hw : w ∉ ss) by (intros ?; by apply (Hdis w); [|set_solver]).
  destruct (IH _ _ Hnd H1) as (Hout & Hin & Hr & Hn). simpl in H2. rewrite Hout in H2 by done.
  destruct (indegree !! w) as [[|d]|] eqn:Ew; try done. injection H2 as <- <-. split_and!.
  - intros v [? ?]%not_elem_of_app. rewrite lookup_insert_ne by set_solver. by apply Hout.
  - intros v [Hv| ->%list_elem_of_singleton]%elem_of_app.
    + rewrite lookup_insert_ne by (by intros ->). by apply Hin.
    + exists d. by rewrite lookup_insert_eq.
  - intros v. rewrite elem_of_app, list_elem_of_singleton. case_bool_decide as Hd.
    + rewrite elem_of_btree_insert, Hr. naive_solver.
    + rewrite Hr. naive_solver.
  - intros Hnr Hdr. assert (NoDup ready1) by (apply Hn; set_solver). case_bool_decide; [|done].
    assert (w ∉ ready1) by (rewrite Hr; set_solver). rewrite btree_insert_perm by done. by constructor.
Qed.

Section Acyclic.
Context (preds : PlanNodeId → gset PlanNodeId).

Definition waiting_for (order : list PlanNodeId) (v : PlanNodeId) : nat := size (preds v ∖ list_to_set order).

(** Every entry of the order comes after its predecessors. *)
Definition respects_preds (order : list PlanNodeId) : Prop :=
  ∀ k v, order !! k = Some v → ∀ u, u ∈ preds v → u ∈ take k order.

Record settling (order ready : list PlanNodeId) (indegree : gmap PlanNodeId nat) : Prop := {
  set_nodup : NoDup (order ++ ready);
  set_degree : ∀ v d, indegree !! v = Some d → d = waiting_for order v;
  set_order : respects_preds order;
  set_ready : ∀ v, v ∈ ready → ∀ u, u ∈ preds v → u ∈ order;
  set_known : ∀ v, v ∈ order ++ ready → is_Some (indegree !! v);
}.

Lemma waiting_for_snoc order u v :
  u ∉ order → waiting_for order v = if decide (u ∈ preds v) then S (waiting_for (order ++ [u]) v) else waiting_for (order ++ [u]) v.
Proof.
  intros Hu. unfold waiting_for.
  replace (preds v ∖ list_to_set (order ++ [u])) with ((preds v ∖ list_to_set order) ∖ {[u]}) by set_solver.
  case_decide as Hp.
  - rewrite (union_difference_singleton_L u (preds v ∖ list_to_set order)) at 1 by set_solver.
    rewrite size_union by set_solver. by rewrite size_singleton.
  - f_equal. set_solver.
Qed.

Lemma waiting_for_zero order v : waiting_for order v = 0 ↔ ∀ u, u ∈ preds v → u ∈ order.
Proof.
  unfold waiting_for. rewrite size_empty_iff, elem_of_equiv_empty. setoid_rewrite elem_of_difference.
  setoid_rewrite elem_of_list_to_set. split.
  - intros H u Hu. destruct (decide (u ∈ order)); [done|]. by destruct (H u).
  - intros H u [? ?]. auto.
Qed.

Context (successors : gmap PlanNodeId (gset PlanNodeId)).
Context (Hsucc : ∀ u v, v ∈ default ∅ (successors !! u) ↔ u ∈ preds v).

Lemma settling_step order id ready indegree indegree' ready' :
  settling order (id :: ready) indegree →
  fold_all settle (indegree, ready) (node_list (default ∅ (successors !! id))) = Ok (indegree', ready') →
  settling (order ++ [id]) ready' indegree'.
Proof using Hsucc.
  intros [Hnd Hdeg Hord Hready Hknown] H. set (ss := node_list _) in H.
  assert (Hss : ∀ v, v ∈ ss ↔ id ∈ preds v) by (intros v; unfold ss; by rewrite elem_of_node_list, Hsucc).
  assert (NoDup ss) by (unfold ss, node_list; rewrite merge_sort_Permutation; apply NoDup_elements).
  apply settle_spec in H as (Hout & Hin & Hr & Hn); [|done].
  apply NoDup_app in Hnd as (Hndo & Hdis & [Hid Hndr]%NoDup_cons).
  assert (Hido : id ∉ order) by (intros ?; by apply (Hdis id); [|set_solver]).
  assert (Hold : ∀ v, v ∈ order ++ id :: ready → id ∉ preds v).
  { intros v [Hv|Hv]%elem_of_app Hp; [|by apply Hido, (Hready v)].
    apply list_elem_of_lookup in Hv as [k Hk]. apply Hido. eapply subseteq_take, Hord; eauto. }
  assert (Hdeg' : ∀ v d, indegree' !! v = Some d → d = waiting_for (order ++ [id]) v).
  { intros v d Hd. pose proof (waiting_for_snoc order id v Hido) as E. destruct (decide (id ∈ preds v)) as [Hp|Hp].
    - destruct (Hin v) as (d' & Hv & Hv'); [by apply Hss|]. apply Hdeg in Hv. rewrite Hv' in Hd. simplify_eq. lia.
    - rewrite Hout in Hd by (by rewrite Hss). apply Hdeg in Hd. lia. }
  constructor; [|done| | |].
  - apply NoDup_app. split_and!.
    + apply NoDup_app. split_and!; [done|set_solver|by apply NoDup_singleton].
    + intros v Hv [Hv'|[Hv' _]]%Hr; [|by apply Hss, (Hold v) in Hv'; set_solver].
      apply elem_of_app in Hv as [Hv| ->%list_elem_of_singleton]; [by apply (Hdis v); set_solver|done].
    + apply Hn; [done|]. intros v Hv. rewrite Hss. apply Hold. set_solver.
  - intros k v Hk u Hu. apply lookup_snoc_Some in Hk as [[Hk Hv]|[-> <-]].
    + rewrite take_app_le by lia. by eapply Hord.
    + rewrite take_app_length'  by done. apply (Hready id); set_solver.
  - intros v Hv u Hu. apply Hr in Hv as [Hv|[Hv Hone]].
    + apply elem_of_app. left. apply (Hready v); set_solver.
    + destruct (Hin v Hv) as (d & E & E'). rewrite Hone in E. injection E as <-. apply Hdeg' in E'. symmetry in E'.
      by apply (waiting_for_zero _ v) with (u := u) in E'.
  - intros v Hv. assert (is_Some (indegree !! v)) as Hs.
    { apply elem_of_app in Hv as [Hv|[Hv|[_ ->]]%Hr]; [apply Hknown; set_solver..|done]. }
    destruct (decide (v ∈ ss)) as [Hvs|Hvs]; [destruct (Hin v Hvs) as (? & _ & ->); eauto|by rewrite Hout].
Qed.

Lemma settle_all_spec fuel order indegree ready scheduled :
  settling order ready indegree → settle_all fuel successors indegree ready (length order) = Ok scheduled →
  ∃ order' indegree', settling order' [] indegree' ∧ scheduled = length order' ∧
    ∀ v, is_Some (indegree' !! v) → is_Some (indegree !! v).
Proof using Hsucc.
  revert order indegree ready. induction fuel as [|fuel IH]; intros order indegree ready HS H; destruct ready as [|id ready];
    cbn [settle_all] in H; try done.
  1,2: injection H as <-; by exists order, indegree.
  peel H as [indegree1 ready1] Hf. replace (S (length order)) with (length (order ++ [id])) in H by (rewrite length_app; simpl; lia).
  apply IH in H as (order' & indegree' & HS' & Hlen & Hdom); [|by eapply settling_step].
  exists order', indegree'. split_and!; [done..|]. intros v Hv%Hdom.
  apply settle_spec in Hf as (Hout & Hin & _); [|unfold node_list; rewrite merge_sort_Permutation; apply NoDup_elements].
  destruct (decide (v ∈ node_list (default ∅ (successors !! id)))) as [Hi|Hi].
  - destruct (Hin v Hi) as (? & -> & _). eauto.
  - by rewrite <-Hout.
Qed.
End Acyclic.

(** *** Building the dependency maps *)

Lemma producers_of_spec g by_edge ns deps u :
  producers_of g by_edge ns = Ok deps →
  u ∈ deps ↔ ∃ n node e info, n ∈ ns ∧ g_nodes g !! n = Some node ∧ h_producer node = Some e ∧
    by_edge !! e = Some info ∧ info_plan_node info = u.
Proof.
  revert deps. induction ns as [|n ns IH]; intros deps H; cbn [producers_of] in H; [injection H as <-; set_solver|].
  destruct (g_nodes g !! n ≫= h_producer) as [e|] eqn:E.
  - peel H as info Hi. peel H as rest Hr. injection H as <-. apply found_ok in Hi.
    destruct (g_nodes g !! n) as [node|] eqn:En; [|done]. simpl in E. rewrite elem_of_union, elem_of_singleton, (IH rest Hr). split.
    + intros [-> |(m & node' & e' & info' & ? & ?)].
      * exists n, node, e, info. split_and!; (done || set_solver).
      * exists m, node', e', info'. split; [set_solver|done].
    + intros (m & node' & e' & info' & [-> |?]%elem_of_cons & ? & ? & ? & ?); [left; congruence|right]. eauto 10.
  - rewrite (IH deps H). split; intros (m & node' & e' & info' & Hm & ? & ? & ?); exists m, node', e', info'.
    + split; [set_solver|done].
    + apply elem_of_cons in Hm as [-> |?]; [simplify_option_eq|done].
Qed.

(** The maps after the operations [done] were linked. *)
Definition linked (preds : PlanNodeId → gset PlanNodeId) (done : list PlanNodeId)
    (acc : gmap PlanNodeId nat * gmap PlanNodeId (gset PlanNodeId)) : Prop :=
  (∀ v d, acc.1 !! v = Some d → d = if decide (v ∈ done) then size (preds v) else 0) ∧
  (∀ u v, v ∈ default ∅ (acc.2 !! u) ↔ v ∈ done ∧ u ∈ preds v).

Lemma link_spec v us acc acc' :
  NoDup us → fold_all (link v) acc us = Ok acc' →
  (∀ w, w ≠ v → acc'.1 !! w = acc.1 !! w) ∧
  (∀ d, acc.1 !! v = Some d → acc'.1 !! v = Some (length us + d)) ∧ (is_Some (acc'.1 !! v) → is_Some (acc.1 !! v)) ∧
  (∀ u w, w ∈ default ∅ (acc'.2 !! u) ↔ w ∈ default ∅ (acc.2 !! u) ∨ (w = v ∧ u ∈ us)).
Proof.
  revert acc'. induction us as [|u us IH] using rev_ind; intros acc' Hnd.
  { intros [= <-]. split_and!; set_solver. }
  rewrite fold_all_snoc. intros ([ind1 succ1] & H1 & H2). apply NoDup_app in Hnd as (Hnd & Hdis & _).
  destruct (IH _ Hnd H1) as (Hw & Hd & Hk & Hs). unfold link in H2. peel H2 as d Hv. injection H2 as <-. apply index_ok in Hv.
  simpl in *. split_and!.
  - intros w ?. rewrite lookup_insert_ne by done. by apply Hw.
  - intros d0 Hd0. apply Hd in Hd0. rewrite Hv in Hd0. injection Hd0 as ->. rewrite lookup_insert_eq, length_app. simpl. f_equal. lia.
  - intros _. apply Hk. by rewrite Hv.
  - intros u' w. rewrite elem_of_app, list_elem_of_singleton. destruct (decide (u' = u)) as [-> |Hne].
    + rewrite lookup_insert_eq. simpl. rewrite elem_of_union, elem_of_singleton, Hs. naive_solver.
    + rewrite lookup_insert_ne, Hs by done. naive_solver.
Qed.

Section Operations.
Context (g : HGraph).

(** The operations whose outputs [v] consumes, as the check computes them. *)
Definition producer_ops (v : PlanNodeId) : gset PlanNodeId :=
  match op_map g !! v with
  | Some info => match producers_of g (edge_to_info g) (inputs info) with Ok deps => deps | _ => ∅ end
  | None => ∅
  end.

Lemma link_operations_spec infos acc :
  NoDup (info_plan_node <$> infos) → (∀ info, info ∈ infos → op_map g !! info_plan_node info = Some info) →
  fold_all (link_operation g (edge_to_info g)) ((λ _, 0) <$> op_map g, ∅) infos = Ok acc →
  linked producer_ops (info_plan_node <$> infos) acc ∧ ∀ v, is_Some (acc.1 !! v) ↔ is_Some (op_map g !! v).
Proof.
  revert acc. induction infos as [|info infos IH] using rev_ind; intros acc Hnd Hin.
  { intros [= <-]. split; [split|]; simpl.
    - intros v d. rewrite lookup_fmap. destruct (op_map g !! v); [|done]. by intros [= <-].
    - set_solver.
    - intros v. rewrite lookup_fmap. by rewrite fmap_is_Some. }
  rewrite fold_all_snoc. intros (acc1 & H1 & H). rewrite fmap_app in *. apply NoDup_app in Hnd as (Hnd & Hdis & _).
  set (v := info_plan_node info) in *. assert (Hinfo : op_map g !! v = Some info) by (apply Hin; set_solver).
  assert (Hv : v ∉ info_plan_node <$> infos) by (intros ?; by apply (Hdis v); [|simpl; set_solver]).
  destruct (IH acc1) as [[Hdeg Hsucc] Hdom]; [done|intros; apply Hin; set_solver|done|].
  unfold link_operation in H. peel H as deps Hdeps.
  assert (Ep : producer_ops v = deps) by (unfold producer_ops; by rewrite Hinfo, Hdeps).
  assert (Hnd' : NoDup (node_list deps)) by (unfold node_list; rewrite merge_sort_Permutation; apply NoDup_elements).
  assert (Hlen : length (node_list deps) = size deps) by (unfold node_list; by rewrite merge_sort_Permutation).
  apply link_spec in H as (Hw & Hd & Hk & Hs); [|done]. fold v in Hw, Hd, Hk, Hs.
  split; [split|].
  - intros w d Hwd. destruct (decide (w = v)) as [-> |Hne].
    + rewrite decide_True by (simpl; set_solver). destruct (Hk (ex_intro _ d Hwd)) as [d1 Hd1].
      pose proof (Hdeg _ _ Hd1) as E1. rewrite decide_False in E1 by done. apply Hd in Hd1. rewrite Ep. rewrite Hwd in Hd1.
      injection Hd1 as ->. lia.
    + rewrite Hw in Hwd by done. apply Hdeg in Hwd. rewrite Hwd. apply decide_ext. simpl. set_solver.
  - intros u w. rewrite Hs, Hsucc, elem_of_node_list, elem_of_app. simpl. rewrite list_elem_of_singleton.
    rewrite <-Ep. naive_solver.
  - intros w. destruct (decide (w = v)) as [-> |Hne]; [|by rewrite Hw].
    rewrite Hinfo. split; [done|intros _]. destruct (proj2 (Hdom v)) as [d Hd1]; [by rewrite Hinfo|].
    apply Hd in Hd1. by rewrite Hd1.
Qed.

Context (Hkey : ∀ i info, op_map g !! i = Some info → info_plan_node info = i).

Lemma acyclicity_order u :
  validate_executable_acyclicity g = Ok u →
  ∃ order, NoDup order ∧ (∀ i, i ∈ order ↔ is_Some (op_map g !! i)) ∧ respects_preds producer_ops order.
Proof using Hkey.
  intros H. unfold validate_executable_acyclicity in H. peel H as [indegree successors] Hlink. peel H as scheduled Hset.
  apply require_ok, bool_decide_eq_true in H.
  assert (Hids : info_plan_node <$> (map_to_list (op_map g)).*2 = (map_to_list (op_map g)).*1).
  { rewrite <-list_fmap_compose. apply list_fmap_ext. intros k [i info] Hi. simpl. apply Hkey.
    apply elem_of_map_to_list. by eapply list_elem_of_lookup_2. }
  apply link_operations_spec in Hlink as [[Hdeg Hsucc] Hdom]; cycle 1.
  { rewrite Hids. apply NoDup_fst_map_to_list. }
  { intros info ([i info'] & -> & Hi%elem_of_map_to_list)%list_elem_of_fmap. simpl. by rewrite (Hkey i info'). }
  rewrite Hids in Hdeg, Hsucc. simpl in *.
  assert (Hall : ∀ v, v ∈ (map_to_list (op_map g)).*1 ↔ is_Some (op_map g !! v)).
  { intros v. rewrite list_elem_of_fmap. split.
    - intros ([i info] & -> & Hi%elem_of_map_to_list). eauto.
    - intros [info Hi]. exists (v, info). split; [done|]. by apply elem_of_map_to_list. }
  assert (Hsome : ∀ v, is_Some (indegree !! v) → v ∈ (map_to_list (op_map g)).*1) by (intros v Hv%Hdom; by apply Hall).
  set (ready := sort_ids _) in Hset.
  assert (Hready : ∀ v, v ∈ ready ↔ indegree !! v = Some 0).
  { intros v. unfold ready, sort_ids. rewrite merge_sort_Permutation, list_elem_of_fmap. split.
    - intros ([i d] & -> & Hi%elem_of_map_to_list%map_lookup_filter_Some). simpl in *. destruct Hi as [Hi ->]. done.
    - intros Hv. exists (v, 0). split; [done|]. apply elem_of_map_to_list, map_lookup_filter_Some. done. }
  eapply (settle_all_spec producer_ops successors) with (order := []) in Hset as (order & indegree' & HS & -> & Hdom').
  - exists order. destruct HS as [Hnd _ Hord _ Hknown]. rewrite app_nil_r in *.
    assert (Hsub : ∀ i, i ∈ order → is_Some (op_map g !! i)) by (intros i Hi; by apply Hdom, Hdom', Hknown).
    split_and!; [done| |done]. intros i. split; [apply Hsub|]. rewrite <-Hall.
    assert (Hp : order ≡ₚ (map_to_list (op_map g)).*1); [|by rewrite Hp].
    apply submseteq_length_Permutation; [apply NoDup_submseteq; [done|]; intros v Hv; by apply Hall, Hsub|].
    rewrite length_fmap, length_map_to_list. lia.
  - intros u' v. rewrite Hsucc. split; [by intros [_ ?]|]. intros Hu. split; [|done]. apply Hall.
    unfold producer_ops in Hu. destruct (op_map g !! v); [eauto|set_solver].
  - constructor; simpl.
    + unfold ready, sort_ids. rewrite merge_sort_Permutation. apply NoDup_fst_map_to_list.
    + intros v d Hv. pose proof Hv as Hv'. apply Hdeg in Hv. rewrite decide_True in Hv by (apply Hsome; by rewrite Hv').
      unfold waiting_for. simpl. by rewrite difference_empty_L.
    + intros k v Hk. by rewrite lookup_nil in Hk.
    + intros v Hv%Hready w Hw. pose proof Hv as Hv'. apply Hdeg in Hv. rewrite decide_True in Hv by (apply Hsome; by rewrite Hv').
      symmetry in Hv. apply size_empty_inv in Hv. set_solver.
    + intros v Hv%Hready. by rewrite Hv.
Qed.
End Operations.

(** ** Accepted graphs *)

Lemma respects_before preds order u v :
  respects_preds preds order → v ∈ order → u ∈ preds v → before order u v.
Proof.
  intros Hr [k Hk]%list_elem_of_lookup Hu. apply (Hr k v Hk) in Hu.
  rewrite <-(take_drop_middle order k v Hk). by apply before_mid.
Qed.

Section Accepted.
Context `{DG : !Digests} (validate_descriptor : str → nat → bool) (g : HGraph).

(** What the checks on the shape of an operation establish. *)
Record shaped (i : PlanNodeId) (info : ExecInfo) : Prop := {
  sh_key : info_plan_node info = i;
  sh_done : ∃ c, completion_nodes g !! i = Some c ∧ c ∈ outputs info;
  sh_outputs : ∀ n, n ∈ outputs info → ∃ node, g_nodes g !! n = Some node ∧ h_producer node = Some (info_edge info);
  sh_value : value_output info ∈ outputs info ∧ is_value_at g (value_output info) = true;
}.

Lemma validate_outputs_spec info produced ns produced' n :
  fold_all (validate_output g info) produced ns = Ok produced' → n ∈ ns →
  ∃ node, g_nodes g !! n = Some node ∧ h_producer node = Some (info_edge info).
Proof.
  intros H Hn. destruct (fold_all_in _ _ _ _ _ H Hn) as (c & c' & Hc). unfold validate_output in Hc.
  peel Hc as node Hnode. peel Hc as u Hp. apply found_ok in Hnode. apply require_ok, bool_decide_eq_true in Hp. eauto.
Qed.

Lemma validate_operation_spec acc i info acc' :
  validate_operation g acc (i, info) = Ok acc' →
  shaped i info ∧ info_edge info ∉ acc.2 ∧ acc'.2 = {[ info_edge info ]} ∪ acc.2.
Proof.
  intros H. destruct acc as [produced mapped]. unfold validate_operation in H.
  peel H as u1 Hkey. peel H as edge Hedge. peel H as u2 Hnew. peel H as u3 Hx. peel H as u4 Hports. peel H as u5 Hin.
  peel H as u6 Hv. peel H as u7 Hord. peel H as u8 Hc. peel H as produced' Hout. peel H as s Hs. peel H as u9 Hsem.
  peel H as u10 Hacc. injection H as <-. apply require_ok, bool_decide_eq_true in Hkey.
  apply require_ok, negb_true_iff, bool_decide_eq_false in Hnew. split_and!; [|done|done]. constructor; [done| | |].
  - destruct (completion_outputs g info i) as [|c [|]] eqn:Ec; try done. apply require_ok, bool_decide_eq_true in Hc.
    exists c. split; [done|]. assert (Hin' : c ∈ completion_outputs g info i) by (rewrite Ec; set_solver).
    unfold completion_outputs in Hin'. by apply list_elem_of_filter in Hin' as [_ ?].
  - intros n Hn. by eapply validate_outputs_spec.
  - apply require_ok, bool_decide_eq_true in Hord.
    assert (Hin' : value_output info ∈ filter (λ n, is_value_at g n = true) (outputs info)) by (rewrite Hord; set_solver).
    apply list_elem_of_filter in Hin' as [? ?]. done.
Qed.

Lemma validate_shapes_spec u :
  validate_operation_shapes g = Ok u →
  (∀ i info, op_map g !! i = Some info → shaped i info) ∧ NoDup (info_edge <$> (map_to_list (op_map g)).*2).
Proof.
  intros H. unfold validate_operation_shapes in H. peel H as [produced mapped] Hf. clear H.
  revert Hf. set (ops := map_to_list (op_map g)). intros Hf.
  assert (HP : (∀ e, e ∈ ops → shaped e.1 e.2) ∧ NoDup (info_edge <$> ops.*2) ∧
               mapped = list_to_set (info_edge <$> ops.*2)).
  { change mapped with (produced, mapped).2. revert Hf.
    apply (fold_all_ind _ (λ done acc, (∀ e, e ∈ done → shaped e.1 e.2) ∧ NoDup (info_edge <$> done.*2) ∧
             acc.2 = list_to_set (info_edge <$> done.*2))).
    - simpl. split_and!; [set_solver|constructor|done].
    - intros done [i info] c c' (Hsh & Hnd & E) (Hs & Hnew & E')%validate_operation_spec. rewrite E in Hnew, E'.
      rewrite !fmap_app. simpl. split_and!.
      + intros e [He| ->%list_elem_of_singleton]%elem_of_app; [by apply Hsh|done].
      + apply NoDup_app. split_and!; [done| |by apply NoDup_singleton]. set_solver.
      + rewrite E', list_to_set_app_L. simpl. set_solver. }
  destruct HP as (Hsh & Hnd & _). split; [|done]. intros i info Hi. apply (Hsh (i, info)). by apply elem_of_map_to_list.
Qed.

Context (Hshape : ∀ i info, op_map g !! i = Some info → shaped i info)
  (Hedges : NoDup (info_edge <$> (map_to_list (op_map g)).*2)).

Lemma edge_to_info_lookup i info : op_map g !! i = Some info → edge_to_info g !! info_edge info = Some info.
Proof using Hedges.
  intros Hi. unfold edge_to_info. apply elem_of_list_to_map.
  - by rewrite <-list_fmap_compose.
  - apply list_elem_of_fmap. exists info. split; [done|]. apply list_elem_of_fmap. exists (i, info).
    split; [done|]. by apply elem_of_map_to_list.
Qed.

(** The accepted graph has an order of its operations that respects every
    dependency; in particular it has no cycle. *)
Lemma accepted_order u :
  validate_executable_acyclicity g = Ok u →
  ∃ order, NoDup order ∧ (∀ i, i ∈ order ↔ is_Some (op_map g !! i)) ∧ ∀ i j, depends g i j → before order i j.
Proof using Hshape Hedges.
  intros H. destruct (acyclicity_order g (λ i info Hi, sh_key _ _ (Hshape i info Hi)) u H) as (order & Hnd & Hall & Hresp).
  exists order. split_and!; [done..|]. intros i j (n & (a & Ha & Hna) & (b & Hb & Hnb)).
  apply (respects_before (producer_ops g)); [done|apply Hall; by rewrite Hb|].
  unfold validate_executable_acyclicity in H. peel H as acc Hlink. clear H.
  assert (Hin : b ∈ (map_to_list (op_map g)).*2).
  { apply list_elem_of_fmap. exists (j, b). split; [done|]. by apply elem_of_map_to_list. }
  destruct (fold_all_in _ _ _ _ _ Hlink Hin) as (c & c' & Hc). unfold link_operation in Hc. peel Hc as deps Hdeps.
  unfold producer_ops. rewrite Hb, Hdeps, (producers_of_spec _ _ _ _ _ Hdeps).
  destruct (sh_outputs _ _ (Hshape i a Ha) n Hna) as (node & Hnode & Hp).
  exists n, node, (info_edge a), a. split_and!; [done..|by eapply edge_to_info_lookup|]. apply (sh_key _ _ (Hshape i a Ha)).
Qed.
End Accepted.

Lemma validated_inv `{DG : !Digests} validate_descriptor g u :
  validate_execution_graph validate_descriptor g = Ok u →
  (∀ i info, op_map g !! i = Some info → shaped g i info) ∧ NoDup (info_edge <$> (map_to_list (op_map g)).*2) ∧
  validate_source_plan_dependencies validate_descriptor g = Ok tt ∧ validate_executable_acyclicity g = Ok tt.
Proof.
  intros H. unfold validate_execution_graph in H. peel H as u1 H1. peel H as u2 H2. peel H as u3 H3. peel H as u4 H4.
  peel H as u5 H5. destruct u, u5. apply validate_shapes_spec in H2 as [? ?]. done.
Qed.

Section Source.
Context `{DG : !Digests} (validate_descriptor : str → nat → bool) (g : HGraph) (p : ExecutionPlan).

(** The operation is not a member of an autonomous group of the plan. *)
Definition source_ordered (i : PlanNodeId) : Prop := ∃ info oir,
  op_map g !! i = Some info ∧ ir_map g !! value_output info = Some oir ∧ autonomous_ephemeral_group p i oir = Ok None.

Lemma values_spec values id node :
  fold_all (value_for_plan g p) ∅ (map_to_list (g_nodes g)) = Ok values →
  g_nodes g !! id = Some node → is_value node = true → ∃ i, values !! i = Some id ∧ i < length (plan_nodes p).
Proof.
  intros H Hn%elem_of_map_to_list Hv. revert id node Hn Hv.
  cut (∀ e, e ∈ map_to_list (g_nodes g) → is_value e.2 = true → ∃ i, values !! i = Some e.1 ∧ i < length (plan_nodes p)).
  { intros Hc id node Hn Hv. by apply (Hc (id, node)). }
  revert H. apply (fold_all_ind _ (λ done acc, ∀ e, e ∈ done → is_value e.2 = true →
    ∃ i, acc !! i = Some e.1 ∧ i < length (plan_nodes p))); [set_solver|].
  intros done [id node] c c' IH H e He Hv. unfold value_for_plan in H. destruct (is_value node) eqn:Hvn; cbn [negb] in H.
  - peel H as i Hi. peel H as u1 Hb. peel H as u2 Hnew. peel H as u3 Hir. injection H as <-.
    apply require_ok, bool_decide_eq_true in Hb. apply require_ok, bool_decide_eq_true in Hnew.
    apply elem_of_app in He as [He| ->%list_elem_of_singleton].
    + destruct (IH e He Hv) as (j & Hj & ?). exists j. split; [|done]. rewrite lookup_insert_ne; [done|]. intros ->. congruence.
    + exists i. by rewrite lookup_insert_eq.
  - injection H as <-. apply elem_of_app in He as [He| ->%list_elem_of_singleton]; [by apply IH|simpl in *; congruence].
Qed.

Lemma source_checks u :
  source_plan g = Some p → validate_source_plan_dependencies validate_descriptor g = Ok u →
  ∃ x values initial fr, index_new p = Ok x ∧
    (∀ id node, g_nodes g !! id = Some node → is_value node = true → ∃ i, values !! i = Some id ∧ i < length (plan_nodes p)) ∧
    (∀ n, n ∈ plan_nodes p → validate_plan_node validate_descriptor g x values n = Ok tt) ∧
    fold_all (replay_operation validate_descriptor g p x initial) ∅ (idx_order x) = Ok fr.
Proof.
  intros Hp H. unfold validate_source_plan_dependencies in H. rewrite Hp in H. peel H as x Hx. apply plan_result_ok in Hx.
  peel H as values Hv. peel H as u1 H1. peel H as expected_roots Hr. peel H as u2 H2. peel H as u3 Hn. peel H as expected He.
  peel H as u4 H4. peel H as u5 H5. unfold validate_source_resource_frontiers in H. peel H as initial Hi. peel H as fr Hf.
  exists x, values, initial, fr. split_and!; [done| | |done].
  - intros id node. by apply values_spec.
  - intros n Hin. by eapply check_all_in in Hn.
Qed.

Lemma validate_plan_node_spec x values n :
  validate_plan_node validate_descriptor g x values n = Ok tt →
  if is_executable (node_kind n)
  then ∃ info s, op_map g !! node_id n = Some info ∧ values !! node_id n = Some (value_output info) ∧
       effect_summaries g !! node_id n = Some s ∧
       effect_summary_for_plan_node validate_descriptor (node_id n) (node_kind n) = inr s
  else op_map g !! node_id n = None ∧ ∃ value node, values !! node_id n = Some value ∧
       g_nodes g !! value = Some node ∧ h_producer node = None.
Proof.
  intros H. unfold validate_plan_node in H. peel H as value Hvalue. apply index_ok in Hvalue. unfold is_executable.
  destruct (executable_op (node_kind n)) as [op|] eqn:Hop.
  - rewrite bool_decide_eq_true_2 by done. peel H as info Hi. peel H as u1 Hval. peel H as edge Hedge. peel H as u2 Hsem.
    peel H as derived Hd. peel H as actual Ha. peel H as u3 Heq.
    apply found_ok in Hi. apply require_ok, bool_decide_eq_true in Hval. apply index_ok in Ha.
    apply require_ok, bool_decide_eq_true in Heq. subst. exists info, derived. split_and!; [done..|].
    by destruct (effect_summary_for_plan_node _ _ _); simplify_eq.
  - rewrite bool_decide_eq_false_2 by (by intros [? ?]). unfold validate_literal in H. peel H as u1 Ht. peel H as node Hnode.
    apply index_ok in Hnode. apply require_ok in H.
    apply andb_true_iff in H as [[_ Hprod%bool_decide_eq_true]%andb_true_iff Hop'%bool_decide_eq_true]. eauto 10.
Qed.

Context (Hvalid : validate_execution_plan validate_descriptor g p = Ok tt).

Lemma accepted_inv :
  source_plan g = Some p ∧ (∀ i info, op_map g !! i = Some info → shaped g i info) ∧
  NoDup (info_edge <$> (map_to_list (op_map g)).*2) ∧
  validate_source_plan_dependencies validate_descriptor g = Ok tt ∧ validate_executable_acyclicity g = Ok tt.
Proof using Hvalid.
  pose proof Hvalid as H. unfold validate_execution_plan in H. peel H as u Hg. apply require_ok, bool_decide_eq_true in H.
  by apply validated_inv in Hg as (? & ? & ? & ?).
Qed.

(** The operations of an accepted graph are the executable nodes of the plan, with
    the summaries of the plan. *)
Lemma accepted_operations i :
  (is_Some (op_map g !! i) ↔ ∃ n, plan_nodes p !! i = Some n ∧ is_executable (node_kind n) = true) ∧
  ∀ n, plan_nodes p !! i = Some n → is_executable (node_kind n) = true → ∃ s,
    effect_summaries g !! i = Some s ∧ effect_summary_for_plan_node validate_descriptor i (node_kind n) = inr s.
Proof using Hvalid.
  destruct accepted_inv as (Hp & Hsh & Hnd & Hs & _).
  destruct (source_checks _ Hp Hs) as (x & values & initial & fr & Hx & Hval & Hnode & _).
  apply index_new_validates in Hx.
  assert (Hn : ∀ j n, plan_nodes p !! j = Some n → node_id n = j ∧ validate_plan_node validate_descriptor g x values n = Ok tt).
  { intros j n Hj. split; [by eapply validate_identity|]. apply Hnode. by eapply list_elem_of_lookup_2. }
  split; [split|].
  - intros [info Hi]. destruct (Hsh i info Hi) as [Hkey _ Hout [Hvo Hvv]].
    destruct (Hout _ Hvo) as (node & Hnd' & Hprod). unfold is_value_at in Hvv. rewrite Hnd' in Hvv.
    destruct (Hval _ _ Hnd' Hvv) as (j & Hj & Hlt). apply lookup_lt_is_Some_2 in Hlt as [n Hnj].
    destruct (Hn j n Hnj) as [Eid Hpn]. apply validate_plan_node_spec in Hpn.
    destruct (is_executable (node_kind n)) eqn:Hex; rewrite Eid in Hpn.
    + destruct Hpn as (info' & s & Hop & Hv' & _). assert (info = info') as <-.
      { assert (Hvo' : value_output info = value_output info') by congruence.
        destruct (Hsh j info' Hop) as [_ _ Hout' [Hvo'' _]]. destruct (Hout' _ Hvo'') as (node' & Hn' & Hprod').
        assert (info_edge info = info_edge info') by congruence.
        pose proof (edge_to_info_lookup g Hnd i info Hi). pose proof (edge_to_info_lookup g Hnd j info' Hop). congruence. }
      assert (i = j) as -> by (destruct (Hsh j info Hop); congruence). eauto.
    + destruct Hpn as (_ & value & node' & Hv' & Hn' & Hprod'). congruence.
  - intros (n & Hi & Hex). destruct (Hn i n Hi) as [Eid Hpn]. apply validate_plan_node_spec in Hpn. rewrite Hex, Eid in Hpn.
    destruct Hpn as (info & s & Hop & _). by rewrite Hop.
  - intros n Hi Hex. destruct (Hn i n Hi) as [Eid Hpn]. apply validate_plan_node_spec in Hpn. rewrite Hex, Eid in Hpn.
    destruct Hpn as (info & s & _ & _ & ? & ?). eauto.
Qed.

Lemma accepted_conflicts :
  ∃ order, topological_order p = Ok order ∧ order ≡ₚ seq 0 (length (plan_nodes p)) ∧
  ∀ i j si sj, before order i j → source_ordered i → source_ordered j →
    effect_summaries g !! i = Some si → effect_summaries g !! j = Some sj → conflicts_with si sj = true → tc (depends g) i j.
Proof using Hvalid.
  destruct accepted_inv as (Hp & Hsh & _ & Hs & _).
  destruct (source_checks _ Hp Hs) as (x & values & initial & fr & Hx & _ & _ & Hf).
  pose proof (index_new_validates _ _ Hx) as Hv. destruct (proj2 (index_new_spec p) Hv) as (x' & Hx' & Ho & _ & _).
  rewrite Hx in Hx'. injection Hx' as <-. exists (idx_order x). split; [done|].
  destruct (topological_order_Ok p (idx_order x) (validated_bounds p Hv) Ho) as [Hperm _]. split; [done|].
  assert (Hmem : ∀ i, i ∈ idx_order x → source_ordered i → replay_member g p x i).
  { intros i Hi (info & oir & ? & ? & Hg). exists info, oir. split_and!; [done..|].
    rewrite (ephemeral_group_index_agrees p x Hv Hx); [done|]. rewrite Hperm, elem_of_seq in Hi. lia. }
  assert (Hsum : ∀ i s, source_ordered i → effect_summaries g !! i = Some s → plan_summary validate_descriptor p i s).
  { intros i s (info & _ & Hi & _) Hsi. destruct (accepted_operations i) as [[Hop _] Hsu].
    destruct Hop as (n & Hn & Hex); [by rewrite Hi|]. destruct (Hsu n Hn Hex) as (s' & E & ?). exists n. split; [done|]. congruence. }
  intros i j si sj Hb Hoi Hoj Hsi Hsj Hc. pose proof (before_elem _ _ _ Hb) as [Hi Hj].
  apply (replay_orders_leases validate_descriptor g p x initial) in Hf as [_ Hord].
  - apply (Hord i j si sj); [done|by apply Hmem..|by apply Hsum|by apply Hsum|].
    apply conflicts_share_lease in Hc as [Ha|?]; [|done].
    destruct (Hsum i si Hoi Hsi) as (n & _ & Hn). destruct (Hsum j sj Hoj Hsj) as (m & _ & Hm). unfold same_actor in Ha.
    destruct (actor_state si) as [a|] eqn:Ea; [|done]. destruct (actor_state sj) as [b|] eqn:Eb; [|done].
    apply bool_decide_eq_true in Ha as ->. exists (ActorState b). left.
    split; [by eapply actor_written|]. apply elem_of_union_r. by eapply actor_written.
  - intros k info Hk. destruct (Hsh k info Hk). done.
  - rewrite Hperm. apply NoDup_seq.
Qed.
End Source.

(** C14. The validator is a sound scheduler check.  Whatever built a graph (also one
    with edges and bookkeeping removed), if [validate_execution_plan] accepts it for
    a plan then its operations are exactly the executable nodes of the plan, each
    with the effect summary that the plan gives it; and two operations outside
    autonomous groups whose summaries conflict are connected by a path of produced
    and consumed nodes, from the one that the topological order of the plan puts
    first. *)
Theorem accepted_graph_orders_conflicts `{DG : !Digests} (validate_descriptor : str → nat → bool) (g : HGraph) (p : ExecutionPlan) :
  validate_execution_plan validate_descriptor g p = Ok tt →
  (∀ i, is_Some (op_map g !! i) ↔ ∃ n, plan_nodes p !! i = Some n ∧ is_executable (node_kind n) = true) ∧
  (∀ i n, plan_nodes p !! i = Some n → is_executable (node_kind n) = true → ∃ s,
     effect_summaries g !! i = Some s ∧ effect_summary_for_plan_node validate_descriptor i (node_kind n) = inr s) ∧
  ∃ order, topological_order p = Ok order ∧
    ∀ i j si sj, before order i j → source_ordered g p i → source_ordered g p j →
      effect_summaries g !! i = Some si → effect_summaries g !! j = Some sj → conflicts_with si sj = true →
      tc (depends g) i j.
Proof.
  intros Hv. split_and!.
  - intros i. apply (accepted_operations validate_descriptor g p Hv).
  - intros i. apply (accepted_operations validate_descriptor g p Hv).
  - destruct (accepted_conflicts validate_descriptor g p Hv) as (order & Ho & _ & H). eauto.
Qed.

(** [l] lists the operations of the graph, each after those it waits for. *)
Record linearises (g : HGraph) (l : list PlanNodeId) : Prop := {
  lin_nodup : NoDup l;
  lin_ops : ∀ i, i ∈ l ↔ is_Some (op_map g !! i);
  lin_depends : ∀ i j, depends g i j → before l i j;
}.

Definition graph_summary (g : HGraph) (i : PlanNodeId) : EffectSummary := default summary_pure (effect_summaries g !! i).

Lemma accepted_reference `{DG : !Digests} validate_descriptor g p order :
  validate_execution_plan validate_descriptor g p = Ok tt → topological_order p = Ok order →
  order ≡ₚ seq 0 (length (plan_nodes p)) → ∀ l, linearises g l → filter (λ i, is_Some (op_map g !! i)) order ≡ₚ l.
Proof.
  intros Hv Ho Hperm l [Hnd Hops _]. apply NoDup_Permutation; [apply NoDup_filter; rewrite Hperm; apply NoDup_seq|done|].
  intros i. rewrite list_elem_of_filter, Hops, Hperm, elem_of_seq. split; [by intros [? _]|]. intros Hi. split; [done|].
  apply (accepted_operations _ _ _ Hv) in Hi as (n & Hn%lookup_lt_Some & _). lia.
Qed.

(** C15. Running an accepted graph.  Its operations can be run to the end: there is an
    order in which every operation comes after those it waits for.  And every such
    order ends, from every state, in the state of the sequential run in the
    topological order of the plan, when no operation belongs to an autonomous group
    and each respects its summary. *)
Theorem accepted_graph_runs_like_plan `{DG : !Digests} {V : Type} (validate_descriptor : str → nat → bool) (g : HGraph)
    (p : ExecutionPlan) (op : PlanNodeId → state (V := V) → state (V := V)) :
  validate_execution_plan validate_descriptor g p = Ok tt →
  (∀ i, is_Some (op_map g !! i) → source_ordered g p i ∧ respects (graph_summary g i) (op i)) →
  (∃ l, linearises g l) ∧
  ∃ order, topological_order p = Ok order ∧
    ∀ l, linearises g l → ∀ σ k, run op l σ k = run op (filter (λ i, is_Some (op_map g !! i)) order) σ k.
Proof.
  intros Hv Hop. split.
  { destruct (accepted_inv _ _ _ Hv) as (_ & Hsh & Hnd & _ & Hac).
    destruct (accepted_order g Hsh Hnd _ Hac) as (l & ? & ? & ?). by exists l. }
  destruct (accepted_conflicts _ _ _ Hv) as (order & Ho & Hperm & Hc). exists order. split; [done|].
  intros l Hl σ k. pose proof (accepted_reference _ _ _ _ Hv Ho Hperm l Hl) as Hp. destruct Hl as [Hnd Hops Hdep].
  symmetry. apply (reorder (graph_summary g) op).
  - apply Forall_forall. intros i [Hi _]%list_elem_of_filter. by apply Hop.
  - by rewrite Hp.
  - done.
  - intros i j (Hb & Hi & Hj)%before_filter Hcf. apply (before_tc l (depends g)); [done..|].
    destruct (Hop i Hi) as [Hoi _], (Hop j Hj) as [Hoj _].
    destruct (proj1 (proj1 (accepted_operations _ _ _ Hv i)) Hi) as (ni & Hni & Hxi).
    destruct (proj1 (proj1 (accepted_operations _ _ _ Hv j)) Hj) as (nj & Hnj & Hxj).
    destruct (proj2 (accepted_operations _ _ _ Hv i) ni Hni Hxi) as (si & Esi & _).
    destruct (proj2 (accepted_operations _ _ _ Hv j) nj Hnj Hxj) as (sj & Esj & _).
    apply (Hc i j si sj); [done..|]. unfold graph_summary in Hcf. by rewrite Esi, Esj in Hcf.
Qed.

(** ** A concrete graph *)

Section Demo.
#[local] Instance zero_digests : Digests :=
  {| sha256_hex := λ _, []; hash_bytes := λ _ _, []; specification_sha256_v6 := λ _, [] |}.
#[local] Instance ascii_tables : UnicodeTables := {| non_ascii_alphanumeric := λ _, false |}.

(** [x = "a"] followed by a use of [x]. *)
Definition demo_program : OIrProgram := {| nodes := [Store (lit "x") (Text (lit "a")); Load (lit "x")] |}.

Definition demo_graph : HGraph :=
  match build_program_with_plan (λ _ _, true) demo_program (plan demo_program) with Ok g => g | _ => empty_graph end.

Lemma demo_accepted : validate_execution_plan (λ _ _, true) demo_graph (plan demo_program) = Ok tt.
Proof. vm_compute. reflexivity. Qed.

Lemma demo_nodes : plan_nodes (plan demo_program) =
  [{| node_id := 0; node_kind := PStore (lit "x") |}; {| node_id := 1; node_kind := PText |};
   {| node_id := 2; node_kind := PLoad (lit "x") |}].
Proof. vm_compute. reflexivity. Qed.

Lemma demo_operations i : is_Some (op_map demo_graph !! i) → i = 0 ∨ i = 2.
Proof.
  intros (n & Hn & Hx)%(accepted_operations _ _ _ demo_accepted). rewrite demo_nodes in Hn.
  destruct i as [|[|[|i]]]; simpl in Hn; simplify_eq; [by left|by right].
Qed.

Lemma demo_summaries :
  effect_summaries demo_graph !! 0 = Some (store_summary (lit "x")) ∧
  effect_summaries demo_graph !! 2 = Some (set_accesses (fallible summary_pure) {[ ScopeBinding (lit "x") ]} ∅).
Proof.
  split; [pose proof (proj2 (accepted_operations _ _ _ demo_accepted 0)) as H|pose proof (proj2 (accepted_operations _ _ _ demo_accepted 2)) as H];
    rewrite demo_nodes in H; destruct (H _ eq_refl) as (s & -> & [= <-]); try done; vm_compute; reflexivity.
Qed.

Lemma demo_ordered i : i = 0 ∨ i = 2 → source_ordered demo_graph (plan demo_program) i.
Proof.
  intros [-> | ->]; eexists _, _; (split; [vm_compute; reflexivity|]; split; [vm_compute; reflexivity|]); vm_compute; reflexivity.
Qed.

Lemma accepted_graph_orders_conflicts_witness : tc (depends demo_graph) 0 2.
Proof.
  destruct (accepted_graph_orders_conflicts (λ _ _, true) demo_graph (plan demo_program)) as (_ & _ & order & Ho & Hc);
    [vm_compute; reflexivity|].
  vm_compute in Ho. injection Ho as <-. destruct demo_summaries as [H0 H2].
  apply (Hc 0 2 (store_summary (lit "x")) (set_accesses (fallible summary_pure) {[ ScopeBinding (lit "x") ]} ∅)).
  - apply before_lookup. exists 1, 2. split; [lia|split; reflexivity].
  - apply demo_ordered. left. reflexivity.
  - apply demo_ordered. right. reflexivity.
  - exact H0.
  - exact H2.
  - vm_compute. reflexivity.
Defined.

Lemma load_respects name : respects (V := Z) (set_accesses (fallible summary_pure) {[ ScopeBinding name ]} ∅) (λ σ, σ).
Proof. split; [done|]. intros σ τ _ k (a & Ha & _). cbn [writes set_accesses] in Ha. set_solver. Qed.

(** The store writes [v], the load changes nothing. *)
Definition demo_op (v : Z) (i : PlanNodeId) : state (V := Z) → state (V := Z) :=
  if decide (i = 0) then store_op (lit "x") v else λ σ, σ.

Lemma demo_respects v i : is_Some (op_map demo_graph !! i) → respects (graph_summary demo_graph i) (demo_op v i).
Proof.
  destruct demo_summaries as [H0 H2]. unfold graph_summary, demo_op. intros [-> | ->]%demo_operations.
  - rewrite H0. apply store_respects.
  - rewrite H2. apply load_respects.
Qed.

Lemma accepted_graph_runs_like_plan_witness :
  ∃ l, linearises demo_graph l ∧ ∀ v σ k, run (demo_op v) l σ k = run (demo_op v) [0; 2] σ k.
Proof.
  destruct (accepted_graph_runs_like_plan (λ _ _, true) demo_graph (plan demo_program) (demo_op 0)) as [[l Hl] _];
    [vm_compute; reflexivity|intros i Hi; split; [apply demo_ordered, demo_operations, Hi|apply demo_respects, Hi]|].
  exists l. split; [exact Hl|]. intros v σ k.
  destruct (accepted_graph_runs_like_plan (λ _ _, true) demo_graph (plan demo_program) (demo_op v)) as [_ (order & Ho & H)];
    [vm_compute; reflexivity|intros i Hi; split; [apply demo_ordered, demo_operations, Hi|apply demo_respects, Hi]|].
  vm_compute in Ho. injection Ho as <-. rewrite (H l Hl σ k).
  replace (filter (λ i, is_Some (op_map demo_graph !! i)) [1; 0; 2]) with [0; 2] by (vm_compute; reflexivity). reflexivity.
Defined.

Definition succeeded {A} (r : gresult A) : bool := match r with Ok _ => true | _ => false end.

Lemma demo_projected : project_program (λ _ _, true) demo_program (plan demo_program) = Ok demo_graph.
Proof.
  assert (E : succeeded (build_program_with_plan (λ _ _, true) demo_program (plan demo_program)) = true) by (vm_compute; reflexivity).
  unfold demo_graph, build_program_with_plan in *. destruct (project_program _ _ _) as [g| | |]; try done.
  cbn [outcome_bind] in *. by destruct (validate_execution_graph _ g).
Qed.

Lemma lowering_orders_conflicts_witness : tc (depends demo_graph) 0 2.
Proof.
  destruct (lowering_orders_conflicts (λ _ _, true) demo_program (plan demo_program) demo_graph demo_projected)
    as (x & Hx & _ & _ & Hc).
  destruct demo_summaries as [H0 H2]. vm_compute in Hx. injection Hx as <-. cbn [idx_order] in Hc.
  apply (Hc 0 2 (store_summary (lit "x")) (set_accesses (fallible summary_pure) {[ ScopeBinding (lit "x") ]} ∅)).
  - apply before_lookup. exists 1, 2. split; [lia|split; reflexivity].
  - eexists. split; vm_compute; reflexivity.
  - eexists. split; vm_compute; reflexivity.
  - exact H0.
  - exact H2.
  - vm_compute. reflexivity.
Defined.

(** A block whose declaration is refused has a valid plan but no projection, so the
    unwrapping entry point [build_program] panics on it. *)
Lemma refused_declaration_panics (validate_descriptor : str → nat → bool) :
  let prog := {| nodes := [Exec (lit "python") 0 (Some (lit "effects=pure")) (global_interface_for (lit "python")) []] |} in
  validate (plan prog) 1 = Ok tt ∧ build_program validate_descriptor prog = Panic.
Proof. split; vm_compute; reflexivity. Qed.
End Demo.
