(* ===== verification/ReadySchedule.v ===== *)
(** * Ready-operation schedules and finite confluence

    [crates/ostadix-api/src/hgraph/schedule.rs] ([ReadySchedule::derive], [waves],
    [launch_order]), [ExecInfo::ready_input_policy] of [graph.rs] and
    [semantics.rs] ([check_finite_confluence]).  The clustering schedule of the
    same file, a compatibility surface over the constraint edges, is not modelled. *)

From S2P Require Import Prelude.
From S2P Require Import CanonicalCbor.
From S2P Require Import BackendCatalog.
From S2P Require Import Ir.
From S2P Require Import ExecutionPlan.
From S2P Require Import Effects.
From S2P Require Import HGraph.
From S2P Require Import HGraphValidate.
From stdpp Require Import options.

#[local] Open Scope nat_scope.

(** ** Input policies *)

Definition validate_alternative (g : HGraph) (n : NodeId) : gresult unit :=
  let+ node := found (g_nodes g !! n) PolicyInputMissing in
  let+ _ := require (is_value node) PolicyInputNotValue in
  let+ producer := found (h_producer node) PolicyInputUnproduced in
  let+ edge := found (exec_edges g !! producer) MissingProducerEdge in
  match e_op edge with
  | Execute (RunRoute _) => Ok tt
  | _ => Err (InvalidGraph PolicyInputNotRoute)
  end.

(** [ExecInfo::ready_input_policy]. *)
Definition ready_input_policy (g : HGraph) (info : ExecInfo) : gresult ReadyInputPolicy :=
  let+ registered := found (op_map g !! info_plan_node info) PolicyOperationAbsent in
  let+ _ := require (bool_decide (registered = info)) PolicyOperationDiffers in
  let+ edge := found (exec_edges g !! info_edge info) MissingEdge in
  match e_op edge with
  | Execute (SelectRoute policy) =>
      if negb (bool_decide (policy = lit "fallback") || bool_decide (policy = lit "any_success")) then Ok AllInputs
      else
        let+ _ := require (negb (bool_decide (inputs info = []))) PolicyNoInputs in
        let+ _ := check_all (validate_alternative g) (inputs info) in
        Ok OrderedFirstSuccess
  | _ => Ok AllInputs
  end.

(** ** Ready operations *)

Record ReadyOp : Type := {
  r_plan_node : PlanNodeId;
  r_edge : EdgeId;
  r_value_output : NodeId;
  r_inputs : list NodeId;
  r_outputs : list NodeId;
  r_ordinal : nat;
  blocked_by : list nat;
}.

Record ReadySchedule : Type := { ops : list ReadyOp }.

(** [ReadyOp::input_policy]. *)
Definition input_policy (g : HGraph) (op : ReadyOp) : gresult ReadyInputPolicy :=
  let+ info := found (op_map g !! r_plan_node op) PolicyOperationAbsent in
  let+ _ := require (bool_decide (info_edge info = r_edge op) && bool_decide (inputs info = r_inputs op))
              PolicyOperationDiffers in
  ready_input_policy g info.

Definition insert_producer (index : nat) (producer_op : gmap NodeId nat) (n : NodeId) : gresult (gmap NodeId nat) :=
  let+ _ := require (bool_decide (producer_op !! n = None)) SeveralProducers in
  Ok (<[n := index]> producer_op).

Definition insert_producers (producer_op : gmap NodeId nat) (entry : nat * ExecInfo) : gresult (gmap NodeId nat) :=
  fold_all (insert_producer entry.1) producer_op (outputs entry.2).

(** The operations an operation waits for, by index. *)
Definition blockers (producer_op : gmap NodeId nat) (index : nat) (ins : list NodeId) : list nat :=
  foldr btree_insert [] (filter (λ producer, producer ≠ index) (omap (λ n, producer_op !! n) ins)).

Definition ready_op (producer_op : gmap NodeId nat) (index : nat) (info : ExecInfo) : ReadyOp :=
  {| r_plan_node := info_plan_node info; r_edge := info_edge info; r_value_output := value_output info;
     r_inputs := inputs info; r_outputs := outputs info; r_ordinal := ordinal info;
     blocked_by := blockers producer_op index (inputs info) |}.

Section Derive.
Context `{DG : !Digests} (validate_descriptor : str → nat → bool).

Definition derive (g : HGraph) : gresult ReadySchedule :=
  let+ _ := validate_execution_graph validate_descriptor g in
  let infos := exec_ops_ordered g in
  let+ producer_op := fold_all insert_producers ∅ (imap pair infos) in
  let+ _ := check_all (λ info, let+ _ := ready_input_policy g info in Ok tt) infos in
  Ok {| ops := imap (ready_op producer_op) infos |}.
End Derive.

(** ** Waves *)

Definition count_blocker (index : nat) (acc : list nat * list (list nat)) (dep : nat) : gresult (list nat * list (list nat)) :=
  let '(indegree, successors) := acc in
  let+ d := index_or_panic (indegree !! index) in
  let+ s := index_or_panic (successors !! dep) in
  Ok (<[index := S d]> indegree, <[dep := s ++ [index]]> successors).

Definition count_blockers (acc : list nat * list (list nat)) (entry : nat * ReadyOp) : gresult (list nat * list (list nat)) :=
  fold_all (count_blocker entry.1) acc (blocked_by entry.2).

(** [order_key]. *)
Definition launch_key_le (s : ReadySchedule) (i j : nat) : Prop :=
  let ord := λ i, default 0 (r_ordinal <$> ops s !! i) in
  ord i < ord j ∨ (ord i = ord j ∧ i ≤ j).

#[export] Instance key_le_dec s : RelDecision (launch_key_le s).
Proof. unfold launch_key_le. intros a b. apply _. Defined.

Definition release (acc : list nat * list nat) (successor : nat) : gresult (list nat * list nat) :=
  let '(indegree, next) := acc in
  match indegree !! successor with
  | Some (S d) => Ok (<[successor := d]> indegree, if bool_decide (d = 0) then next ++ [successor] else next)
  | _ => Panic
  end.

Definition release_node (successors : list (list nat)) (acc : list nat * list nat) (node : nat) : gresult (list nat * list nat) :=
  let+ s := index_or_panic (successors !! node) in
  fold_all release acc s.

Fixpoint waves_loop (fuel : nat) (s : ReadySchedule) (successors : list (list nat)) (indegree ready : list nat)
    (waves : list (list nat)) (scheduled : nat) : gresult (list (list nat) * nat) :=
  match ready with
  | [] => Ok (waves, scheduled)
  | _ :: _ =>
      match fuel with
      | O => NoFuel
      | S fuel =>
          let+ (indegree, next) := fold_all (release_node successors) (indegree, []) ready in
          waves_loop fuel s successors indegree (merge_sort (launch_key_le s) next) (waves ++ [ready]) (scheduled + length ready)
      end
  end.

(** The waves as indices into [ops]. *)
Definition index_waves (s : ReadySchedule) : gresult (list (list nat)) :=
  let n := length (ops s) in
  let+ (indegree, successors) := fold_all count_blockers (replicate n 0, replicate n []) (imap pair (ops s)) in
  let ready := merge_sort (launch_key_le s) (filter (λ i, indegree !! i = Some 0) (seq 0 n)) in
  let+ (waves, scheduled) := waves_loop n s successors indegree ready [] 0 in
  let+ _ := require (bool_decide (scheduled = n)) ReadyCycle in
  Ok waves.

Fixpoint plan_nodes_of (s : ReadySchedule) (wave : list nat) : gresult (list PlanNodeId) :=
  match wave with
  | [] => Ok []
  | i :: wave =>
      let+ op := index_or_panic (ops s !! i) in
      let+ rest := plan_nodes_of s wave in
      Ok (r_plan_node op :: rest)
  end.

Fixpoint map_waves (s : ReadySchedule) (ws : list (list nat)) : gresult (list (list PlanNodeId)) :=
  match ws with
  | [] => Ok []
  | w :: ws =>
      let+ ids := plan_nodes_of s w in
      let+ rest := map_waves s ws in
      Ok (ids :: rest)
  end.

Definition waves (s : ReadySchedule) : gresult (list (list PlanNodeId)) :=
  let+ ws := index_waves s in map_waves s ws.

Definition launch_order (s : ReadySchedule) : gresult (list PlanNodeId) :=
  let+ ws := waves s in Ok (concat ws).

(** ** Finite confluence *)

Record FiniteTransitionModel : Type := {
  observations : list Z;
  equivalence_classes : list Z;
  transitions : gmap PlanNodeId (list nat);
}.

Record FiniteConfluenceCheck : Type := { states : nat; operations : nat; incomparable_pairs_checked : nat }.

Definition MAX_STATES : nat := 256.
Definition MAX_OPERATIONS : nat := 256.

Definition transition_table (g : HGraph) (m : FiniteTransitionModel) (n : nat) (op : ReadyOp) : gresult (list nat) :=
  let+ policy := input_policy g op in
  let+ _ := match policy with AllInputs => Ok tt | OrderedFirstSuccess => Err (InvalidGraph ConfluencePolicy) end in
  let+ table := found (transitions m !! r_plan_node op) ConfluenceMissing in
  let+ _ := require (bool_decide (length table = n) && forallb (λ state, bool_decide (state < n)) table) ConfluencePartial in
  Ok table.

Fixpoint collect {A B} (f : A → gresult B) (l : list A) : gresult (list B) :=
  match l with
  | [] => Ok []
  | a :: l => let+ b := f a in let+ bs := collect f l in Ok (b :: bs)
  end.

(** [class[x]], [table[x]]. *)
Definition at_index {A} (l : list A) (i : nat) : gresult A := index_or_panic (l !! i).

Definition check_congruence (m : FiniteTransitionModel) (tables : list (list nat)) (x y : nat) : gresult unit :=
  let class := equivalence_classes m in
  let+ cx := at_index class x in
  let+ cy := at_index class y in
  if negb (bool_decide (cx = cy)) then Ok tt
  else
    let+ ox := at_index (observations m) x in
    let+ oy := at_index (observations m) y in
    let+ _ := require (bool_decide (ox = oy)) ConfluenceObservation in
    check_all (λ table,
      let+ tx := at_index table x in
      let+ ty := at_index table y in
      let+ cx := at_index class tx in
      let+ cy := at_index class ty in
      require (bool_decide (cx = cy)) ConfluenceCongruence) tables.

(** *** The reachability matrix *)

Abbreviation matrix := (list (list bool)).

Definition entry (M : matrix) (i j : nat) : gresult bool :=
  let+ row := at_index M i in at_index row j.

Definition set_entry (M : matrix) (i j : nat) (b : bool) : gresult matrix :=
  let+ row := at_index M i in
  let+ _ := at_index row j in
  Ok (<[i := <[j := b]> row]> M).

Definition mark_blockers (M : matrix) (e : nat * ReadyOp) : gresult matrix :=
  fold_all (λ M p, set_entry M p e.1 true) M (blocked_by e.2).

Definition closure_step (M : matrix) (kij : nat * nat * nat) : gresult matrix :=
  let '(k, i, j) := kij in
  let+ ij := entry M i j in
  let+ ik := entry M i k in
  let+ through := if ik then entry M k j else Ok false in
  set_entry M i j (ij || through).

(** The indices of the three nested loops, outermost first. *)
Definition triples (m : nat) : list (nat * nat * nat) :=
  k ← seq 0 m; i ← seq 0 m; j ← seq 0 m; mret (k, i, j).

(** The pairs of [for x in 0..n { for y in 0..x { .. } }]. *)
Definition pairs_below (n : nat) : list (nat * nat) := x ← seq 0 n; y ← seq 0 x; mret (x, y).

Definition check_commute (m : FiniteTransitionModel) (tu tv : list nat) (w : nat) : gresult unit :=
  let class := equivalence_classes m in
  let+ vw := at_index tv w in
  let+ uvw := at_index tu vw in
  let+ uw := at_index tu w in
  let+ vuw := at_index tv uw in
  let+ c1 := at_index class uvw in
  let+ c2 := at_index class vuw in
  require (bool_decide (c1 = c2)) ConfluenceCommute.

Definition check_pair (m : FiniteTransitionModel) (n : nat) (tables : list (list nat)) (M : matrix) (pairs : nat)
    (uv : nat * nat) : gresult nat :=
  let '(u, v) := uv in
  let+ before := entry M u v in
  let+ ordered := if before then Ok true else entry M v u in
  if ordered then Ok pairs
  else
    let+ tu := at_index tables u in
    let+ tv := at_index tables v in
    let+ _ := check_all (check_commute m tu tv) (seq 0 n) in
    Ok (S pairs).

Section Confluence.
Context `{DG : !Digests} (validate_descriptor : str → nat → bool).

Definition check_finite_confluence (g : HGraph) (m : FiniteTransitionModel) : gresult FiniteConfluenceCheck :=
  let+ schedule := derive validate_descriptor g in
  let+ _ := waves schedule in
  let n := length (observations m) in
  let count := length (ops schedule) in
  let+ _ := require (negb (bool_decide (n = 0)) && bool_decide (n ≤ MAX_STATES) && bool_decide (count ≤ MAX_OPERATIONS))
              ConfluenceSize in
  let+ _ := require (bool_decide (length (equivalence_classes m) = n) && bool_decide (size (transitions m) = count))
              ConfluenceShape in
  let+ tables := collect (transition_table g m n) (ops schedule) in
  let+ _ := check_all (λ xy, check_congruence m tables xy.1 xy.2) (pairs_below n) in
  let+ M := fold_all mark_blockers (replicate count (replicate count false)) (imap pair (ops schedule)) in
  let+ M := fold_all closure_step M (triples count) in
  let+ pairs := fold_all (check_pair m n tables M) 0 (pairs_below count) in
  Ok {| states := n; operations := count; incomparable_pairs_checked := pairs |}.
End Confluence.
