(* ===== verification/ReadyTheorems.v ===== *)
(** * Schedules run to completion; finite confluence is sound

    Every schedule that [ReadySchedule::derive] accepts has waves that contain each
    operation once, after everything it waits for and as early as possible; and a
    graph and transition model that [check_finite_confluence] accepts has one
    observable outcome over all its complete orders. *)

From S2P Require Import Prelude.
From S2P Require Import Reorder.
From S2P Require Import CanonicalCbor.
From S2P Require Import BackendCatalog.
From S2P Require Import Ir.
From S2P Require Import ExecutionPlan.
From S2P Require Import Effects.
From S2P Require Import Topological.
From S2P Require Import HGraph.
From S2P Require Import HGraphLowering.
From S2P Require Import HGraphValidate.
From S2P Require Import HGraphTheorems.
From S2P Require Import ReadySchedule.
From stdpp Require Import options.

#[local] Open Scope nat_scope.

(** ** Waves *)

Section Waves.
Context (s : ReadySchedule).
Let n : nat := length (ops s).

(** The blockers of the operation at an index. *)
Definition blockers_of (v : nat) : list nat := default [] (blocked_by <$> ops s !! v).

Definition blocker_set (v : nat) : gset nat := list_to_set (blockers_of v).

(** Blockers are distinct operations of the schedule, and some ranking puts them first. *)
Record well_formed : Prop := {
  wf_nodup : ∀ v, NoDup (blockers_of v);
  wf_bound : ∀ v u, u ∈ blockers_of v → u < n;
  wf_rank : ∃ rank : nat → nat, ∀ v u, v < n → u ∈ blockers_of v → rank u < rank v;
}.

(** The operations that wait for [u], as the counting loop collects them. *)
Definition waiters (k u : nat) : list nat := filter (λ v, u ∈ blockers_of v) (seq 0 k).

Lemma count_blocker_spec v us f h :
  v < n → NoDup us → (∀ u, u ∈ us → u < n) →
  fold_all (count_blocker v) (vec n f, vec n h) us =
  Ok (vec n (λ w, if decide (w = v) then length us + f w else f w), vec n (λ u, if decide (u ∈ us) then h u ++ [v] else h u)).
Proof.
  intros Hv. revert f h. induction us as [|u us IH]; intros f h Hnd Hus; cbn [fold_all].
  - do 2 f_equal; apply vec_ext; intros i Hi; case_decide; set_solver.
  - apply NoDup_cons in Hnd as [Hu Hnd]. assert (u < n) by (apply Hus; set_solver). unfold count_blocker at 1.
    rewrite !vec_lookup by done. cbn [index_or_panic outcome_bind]. rewrite !vec_insert by done.
    rewrite IH by (done || intros; apply Hus; set_solver). do 2 f_equal; apply vec_ext; intros i Hi.
    + repeat case_decide; subst; simpl; lia.
    + destruct (decide (i = u)) as [-> |].
      * rewrite decide_False by done. by rewrite decide_True by set_solver.
      * apply decide_ext. set_solver.
Qed.

(** *** One wave *)

Lemma release_spec ss f next :
  NoDup ss → (∀ v, v ∈ ss → v < n ∧ 0 < f v) →
  fold_all release (vec n f, next) ss =
  Ok (vec n (λ v, if decide (v ∈ ss) then pred (f v) else f v), next ++ filter (λ v, f v = 1) ss).
Proof.
  revert f next. induction ss as [|v ss IH]; intros f next Hnd Hss; cbn [fold_all].
  - rewrite filter_nil, app_nil_r. by do 2 f_equal.
  - apply NoDup_cons in Hnd as [Hv Hnd]. destruct (Hss v) as [Hvn Hpos]; [set_solver|]. unfold release at 1.
    rewrite vec_lookup by done. destruct (f v) as [|d] eqn:Ef; [lia|]. cbn [outcome_bind]. rewrite vec_insert by done.
    rewrite IH; [|done|intros w Hw; split; [apply Hss; set_solver|rewrite decide_False by (by intros ->); apply Hss; set_solver]].
    f_equal. f_equal.
    + apply vec_ext. intros i Hi. destruct (decide (i = v)) as [-> |Hi'].
      * rewrite decide_False, decide_True by set_solver. by rewrite Ef.
      * apply decide_ext. set_solver.
    + rewrite filter_cons, Ef. rewrite (filter_ext_in _ (λ w, f w = 1) ss) by (intros w Hw; by rewrite decide_False by (by intros ->)).
      case_bool_decide as Hd; [rewrite decide_True by lia; subst; by rewrite <-app_assoc|by rewrite decide_False by lia].
Qed.
Context (Hwf : well_formed).

Lemma count_blockers_spec k l acc :
  k + length l = n → drop k (ops s) = l →
  acc = (vec n (λ v, if decide (v < k) then length (blockers_of v) else 0), vec n (waiters k)) →
  fold_all count_blockers acc (imap (λ i op, (k + i, op)) l) = Ok (vec n (λ v, length (blockers_of v)), vec n (waiters n)).
Proof using Hwf.
  revert k acc. induction l as [|op l IH]; intros k acc Hk Hl ->; cbn [imap fold_all].
  - simpl in Hk. assert (k = n) as -> by lia. do 2 f_equal. apply vec_ext. intros i Hi. by rewrite decide_True.
  - assert (Hop : ops s !! k = Some op).
    { rewrite <-(take_drop k (ops s)), Hl, lookup_app_r by (rewrite length_take; lia).
      rewrite length_take, Nat.min_l by (fold n; simpl in Hk; lia). by rewrite Nat.sub_diag. }
    assert (Hb : blocked_by op = blockers_of k) by (unfold blockers_of; by rewrite Hop). simpl in Hk.
    unfold count_blockers at 1. cbn [fst snd]. rewrite Nat.add_0_r, Hb.
    rewrite count_blocker_spec; [|lia|by apply Hwf|by intros u; apply (wf_bound Hwf k)]. cbn [outcome_bind].
    erewrite imap_ext with (g := λ i op, (S k + i, op)) by (intros; simpl; f_equal; lia).
    apply IH; [lia|apply drop_S in Hop; rewrite Hl in Hop; by injection Hop|]. f_equal; apply vec_ext; intros i Hi.
    + destruct (decide (i = k)) as [-> |]; [rewrite decide_False, (decide_True (P := k < S k)) by lia; lia|].
      apply decide_ext. lia.
    + unfold waiters. rewrite seq_S, filter_app, filter_cons, filter_nil. simpl. case_decide; [done|by rewrite app_nil_r].
Qed.


Abbreviation wait := (waiting_for blocker_set).

Lemma wait_nil v : wait [] v = length (blockers_of v).
Proof using Hwf.
  unfold waiting_for, blocker_set. simpl. rewrite difference_empty_L. apply size_list_to_set, Hwf.
Qed.

Lemma elem_of_waiters u v : v ∈ waiters n u ↔ v < n ∧ u ∈ blockers_of v.
Proof using Hwf. unfold waiters. rewrite list_elem_of_filter, elem_of_seq. naive_solver lia. Qed.

Lemma wait_snoc order u v :
  u ∉ order → wait order v = if decide (u ∈ blockers_of v) then S (wait (order ++ [u]) v) else wait (order ++ [u]) v.
Proof using Hwf.
  intros Hu. rewrite (waiting_for_snoc blocker_set order u v Hu). apply decide_ext. unfold blocker_set. set_solver.
Qed.

Lemma wait_zero order v : wait order v = 0 ↔ ∀ u, u ∈ blockers_of v → u ∈ order.
Proof using Hwf. rewrite waiting_for_zero. unfold blocker_set. by setoid_rewrite elem_of_list_to_set. Qed.

Lemma release_wave order w next :
  NoDup (order ++ w) → (∀ v, v ∈ w → v < n) → ∃ extra,
  fold_all (release_node (vec n (waiters n))) (vec n (wait order), next) w = Ok (vec n (wait (order ++ w)), next ++ extra) ∧
  NoDup extra ∧ ∀ v, v ∈ extra ↔ v < n ∧ wait order v ≠ 0 ∧ wait (order ++ w) v = 0.
Proof using Hwf.
  revert order next. induction w as [|u w IH]; intros order next Hnd Hw; cbn [fold_all].
  { exists []. rewrite !app_nil_r. split_and!; [done|constructor|]. set_solver. }
  assert (Hu : u ∉ order) by (intros Hu; apply NoDup_app in Hnd as (_ & Hd & _); apply (Hd u); set_solver).
  unfold release_node at 1. rewrite vec_lookup by (apply Hw; set_solver). cbn [index_or_panic outcome_bind].
  rewrite release_spec; [|apply NoDup_filter, NoDup_seq|].
  2:{ intros v [? Hv]%elem_of_waiters. split; [done|]. rewrite (wait_snoc order u v Hu), decide_True by done. lia. }
  cbn [outcome_bind]. erewrite (vec_ext n _ (wait (order ++ [u]))).
  2:{ intros v Hv. pose proof (wait_snoc order u v Hu) as E. destruct (decide (u ∈ blockers_of v)) as [Hb|Hb].
      - rewrite decide_True by (by apply elem_of_waiters). lia.
      - rewrite decide_False by (rewrite elem_of_waiters; tauto). done. }
  destruct (IH (order ++ [u]) (next ++ filter (λ v, wait order v = 1) (waiters n u))) as (extra & -> & Hnx & Hx).
  { by rewrite <-app_assoc. } { intros v Hv. apply Hw. set_solver. }
  rewrite <-!app_assoc in *. eexists. split; [done|]. cbn [app] in *.
  assert (Hf : ∀ v, v ∈ filter (λ v, wait order v = 1) (waiters n u) ↔
    v < n ∧ wait order v ≠ 0 ∧ wait (order ++ [u]) v = 0).
  { intros v. rewrite list_elem_of_filter, elem_of_waiters. pose proof (wait_snoc order u v Hu) as E.
    destruct (decide (u ∈ blockers_of v)); naive_solver lia. }
  assert (Hmono : ∀ v, wait (order ++ [u]) v = 0 → wait (order ++ u :: w) v = 0).
  { intros v. rewrite !wait_zero. intros H u' Hu'. specialize (H u' Hu'). set_solver. }
  split.
  - apply NoDup_app. split_and!; [apply NoDup_filter, NoDup_filter, NoDup_seq| |done].
    intros v (_ & _ & ?)%Hf (_ & ? & _)%Hx. done.
  - intros v. rewrite elem_of_app, Hf, Hx. pose proof (Hmono v). pose proof (wait_snoc order u v Hu) as E.
    destruct (decide (wait (order ++ [u]) v = 0)) as [Hz|Hz]; [naive_solver|].
    assert (wait order v ≠ 0) by (destruct (decide (u ∈ blockers_of v)); lia). naive_solver.
Qed.

(** *** The loop *)

(** The operation at [v] is in wave [k]: its blockers are in earlier waves, one of
    them in the wave before. *)
Definition placed (ws : list (list nat)) (k v : nat) : Prop :=
  (∀ u, u ∈ blockers_of v → u ∈ concat (take k ws)) ∧
  ∀ j, k = S j → ∃ w u, ws !! j = Some w ∧ u ∈ blockers_of v ∧ u ∈ w.

Record waving (ws : list (list nat)) (wave : list nat) : Prop := {
  wv_nodup : NoDup (concat ws ++ wave);
  wv_exact : ∀ v, v ∈ concat ws ++ wave ↔ v < n ∧ wait (concat ws) v = 0;
  wv_placed : ∀ k w v, (ws ++ [wave]) !! k = Some w → v ∈ w → placed ws k v;
}.

Lemma placed_app ws wave k v : k ≤ length ws → placed ws k v → placed (ws ++ [wave]) k v.
Proof.
  intros Hk [Hb Hp]. split.
  - intros u Hu. rewrite take_app_le by done. auto.
  - intros j ->. destruct (Hp j eq_refl) as (w & u & Hw & ?). exists w, u. split; [by apply lookup_app_l_Some|done].
Qed.

Lemma waving_step ws wave extra :
  waving ws wave → NoDup extra →
  (∀ v, v ∈ extra ↔ v < n ∧ wait (concat ws) v ≠ 0 ∧ wait (concat ws ++ wave) v = 0) →
  waving (ws ++ [wave]) (merge_sort (launch_key_le s) extra).
Proof using Hwf.
  intros [Hnd Hex Hpl] Hnx Hx.
  assert (Hcat : concat (ws ++ [wave]) = concat ws ++ wave) by (by rewrite concat_app; simpl; rewrite app_nil_r).
  assert (Hmono : ∀ v, wait (concat ws) v = 0 → wait (concat ws ++ wave) v = 0).
  { intros v. rewrite !wait_zero. intros H u Hu. apply elem_of_app. auto. }
  constructor; rewrite ?Hcat.
  - apply NoDup_app. split_and!; [done| |by rewrite merge_sort_Permutation].
    intros v Hv%Hex Hv'. rewrite merge_sort_Permutation, Hx in Hv'. naive_solver.
  - intros v. rewrite elem_of_app, Hex, merge_sort_Permutation, Hx. pose proof (Hmono v).
    destruct (decide (wait (concat ws) v = 0)); naive_solver.
  - intros k w v Hk Hv. apply lookup_snoc_Some in Hk as [[Hk Hw]|[-> <-]].
    + rewrite length_app in Hk. simpl in Hk. apply placed_app; [lia|by eapply Hpl].
    + rewrite merge_sort_Permutation, Hx in Hv. destruct Hv as (Hvn & Hne & Hz). split.
      * intros u Hu. rewrite take_ge, Hcat by done. by apply (wait_zero _ v).
      * intros j E. rewrite length_app in E. simpl in E. assert (j = length ws) as -> by lia.
        exists wave. destruct (decide (Forall (λ u, u ∈ concat ws) (blockers_of v))) as [Hall|Hall].
        -- exfalso. apply Hne, wait_zero. by apply Forall_forall.
        -- apply not_Forall_Exists, Exists_exists in Hall as (u & Hu & Hnu); [|apply _].
           exists u. split_and!; [by rewrite lookup_app_r, Nat.sub_diag|done|].
           apply wait_zero with (u := u) in Hz; [|done]. apply elem_of_app in Hz as [?|?]; done.
Qed.

(** What the loop returns. *)
Record levels (ws : list (list nat)) : Prop := {
  lv_perm : concat ws ≡ₚ seq 0 n;
  lv_nonempty : ∀ w, w ∈ ws → w ≠ [];
  lv_placed : ∀ k w v, ws !! k = Some w → v ∈ w → placed ws k v;
}.

Lemma waving_complete ws : waving ws [] → concat ws ≡ₚ seq 0 n.
Proof using Hwf.
  intros [Hnd Hex _]. rewrite app_nil_r in *. destruct (wf_rank Hwf) as [rank Hrank].
  assert (Hall : ∀ r v, rank v < r → v < n → v ∈ concat ws).
  { induction r as [|r IH]; intros v Hr Hv; [lia|]. apply Hex. split; [done|]. apply wait_zero. intros u Hu.
    apply IH; [pose proof (Hrank v u Hv Hu); lia|by eapply (wf_bound Hwf)]. }
  apply NoDup_Permutation; [done|apply NoDup_seq|]. intros v. rewrite elem_of_seq. split.
  - intros [? _]%Hex. lia.
  - intros [_ ?]. apply (Hall (S (rank v))); lia.
Qed.

Lemma waves_loop_spec fuel ws wave :
  waving ws wave → (∀ w, w ∈ ws → w ≠ []) → n ≤ fuel + length (concat ws) → ∃ ws',
  waves_loop fuel s (vec n (waiters n)) (vec n (wait (concat ws))) wave ws (length (concat ws)) = Ok (ws', n) ∧ levels ws'.
Proof using Hwf.
  revert ws wave. induction fuel as [|fuel IH]; intros ws wave HW Hne Hf; destruct wave as [|v wave]; cbn [waves_loop].
  1,3: pose proof (waving_complete ws HW) as Hc; exists ws; rewrite Hc, length_seq; (split; [done|]);
       (constructor; [done..|]); intros k w v Hk; apply HW; by apply lookup_app_l_Some.
  - exfalso. pose proof (wv_nodup _ _ HW) as Hnd. apply (NoDup_submseteq _ (seq 0 n)) in Hnd.
    + apply submseteq_length in Hnd. rewrite length_app, length_seq in Hnd. simpl in Hnd. lia.
    + intros u [Hu _]%HW. apply elem_of_seq. lia.
  - destruct (release_wave (concat ws) (v :: wave) []) as (extra & -> & Hnx & Hx); [apply HW| |].
    { intros u Hu. apply (wv_exact _ _ HW u). set_solver. }
    cbn [outcome_bind app]. pose proof (waving_step ws (v :: wave) extra HW Hnx Hx) as HW'.
    assert (Hcat : concat (ws ++ [v :: wave]) = concat ws ++ v :: wave) by (by rewrite concat_app; simpl; rewrite app_nil_r).
    destruct (IH _ _ HW') as (ws' & Hws & Hl); [..|].
    + intros w [?| ->%list_elem_of_singleton]%elem_of_app; [by apply Hne|done].
    + rewrite Hcat, length_app. simpl. lia.
    + exists ws'. split; [|done]. by rewrite Hcat, length_app in Hws.
Qed.

Lemma index_waves_spec : ∃ ws, index_waves s = Ok ws ∧ levels ws.
Proof using Hwf.
  unfold index_waves. fold n.
  erewrite (imap_ext pair (λ i op, (0 + i, op))) by done.
  rewrite (count_blockers_spec 0 (ops s)); [|done|done|by rewrite !vec_replicate].
  cbn [outcome_bind]. erewrite (vec_ext n _ (wait [])) by (intros; by rewrite wait_nil).
  set (ready := merge_sort _ _).
  assert (HW : waving [] ready).
  { assert (Hr : ∀ v, v ∈ ready ↔ v < n ∧ wait [] v = 0).
    { intros v. unfold ready. rewrite merge_sort_Permutation, list_elem_of_filter, elem_of_seq.
      split; intros [? ?]; [|rewrite vec_lookup by lia; split; [by f_equal|lia]].
      rewrite vec_lookup in H by lia. injection H. lia. }
    constructor; simpl; [|done|].
    - unfold ready. rewrite merge_sort_Permutation. apply NoDup_filter, NoDup_seq.
    - intros k w v Hk Hv. destruct k as [|k]; [|by destruct k]. injection Hk as <-. split; [|done].
      intros u Hu. apply Hr in Hv as [_ Hz]. by apply wait_zero with (u := u) in Hz. }
  destruct (waves_loop_spec n [] ready HW) as (ws & Hws & Hl); [set_solver|simpl; lia|].
  simpl in Hws. rewrite Hws. cbn [outcome_bind]. unfold require. rewrite bool_decide_eq_true_2 by done. by exists ws.
Qed.
End Waves.

(** ** Derived schedules *)

Lemma foldr_btree_spec l : NoDup (foldr btree_insert [] l) ∧ ∀ x, x ∈ foldr btree_insert [] l ↔ x ∈ l.
Proof.
  assert (H : StronglySorted lt (foldr btree_insert [] l) ∧ ∀ x, x ∈ foldr btree_insert [] l ↔ x ∈ l).
  { induction l as [|a l [IHs IHe]]; simpl; [split; [constructor|done]|]. split; [by apply btree_insert_sorted|].
    intros x. rewrite elem_of_btree_insert, IHe. set_solver. }
  destruct H as [Hs He]. split; [|done]. revert Hs. generalize (foldr btree_insert [] l). clear.
  induction 1 as [|a l Hs IH Hall]; [constructor|]. constructor; [|done]. intros Ha. rewrite Forall_forall in Hall.
  apply Hall in Ha. lia.
Qed.

Lemma elem_of_infos g info : info ∈ exec_ops_ordered g ↔ ∃ i, op_map g !! i = Some info.
Proof.
  unfold exec_ops_ordered. rewrite merge_sort_Permutation, list_elem_of_fmap. split.
  - intros ([i info'] & -> & H%elem_of_map_to_list). eauto.
  - intros [i H]. exists (i, info). split; [done|]. by apply elem_of_map_to_list.
Qed.

Lemma insert_producers_spec infos po :
  fold_all insert_producers ∅ (imap pair infos) = Ok po →
  ∀ m a, po !! m = Some a ↔ ∃ info, infos !! a = Some info ∧ m ∈ outputs info.
Proof.
  intros H m a. cut (po !! m = Some a ↔ ∃ info, (a, info) ∈ imap pair infos ∧ m ∈ outputs info).
  { intros ->. apply exist_proper. intros info. f_equiv. rewrite elem_of_lookup_imap. naive_solver. }
  revert m a. revert H. apply (fold_all_ind _ (λ done po, ∀ m a, po !! m = Some a ↔ ∃ info, (a, info) ∈ done ∧ m ∈ outputs info)).
  { set_solver. }
  intros done [b info] po1 po2 IH H. unfold insert_producers in H. cbn [fst snd] in H.
  assert (Hout : ∀ m a, po2 !! m = Some a ↔ po1 !! m = Some a ∨ (a = b ∧ m ∈ outputs info)).
  { revert H. apply (fold_all_ind _ (λ outs po, ∀ m a, po !! m = Some a ↔ po1 !! m = Some a ∨ (a = b ∧ m ∈ outs))); [set_solver|].
    intros outs o pa pb IHo Ho m a. unfold insert_producer in Ho. peel Ho as u Hu. injection Ho as <-.
    apply require_ok, bool_decide_eq_true in Hu. destruct (decide (m = o)) as [-> |Hne].
    - rewrite lookup_insert_eq. pose proof (IHo o a) as Ho. rewrite Hu in Ho. set_solver.
    - rewrite lookup_insert_ne, IHo by done. set_solver. }
  intros m a. rewrite Hout, IH. setoid_rewrite elem_of_app. setoid_rewrite list_elem_of_singleton. naive_solver.
Qed.
(** The plan node of the operation at an index. *)
Definition plan_node_at (s : ReadySchedule) (v : nat) : PlanNodeId := default 0 (r_plan_node <$> ops s !! v).

(** What [derive] builds: the operations of the graph, each blocked by the producers
    of its inputs. *)
Record derived (g : HGraph) (s : ReadySchedule) : Prop := {
  dv_nodup : NoDup (r_plan_node <$> ops s);
  dv_ops : ∀ i, i ∈ r_plan_node <$> ops s ↔ is_Some (op_map g !! i);
  dv_blockers : ∀ v u, v < length (ops s) → u ∈ blockers_of s v ↔
    u ≠ v ∧ u < length (ops s) ∧ depends g (plan_node_at s u) (plan_node_at s v);
  dv_distinct : ∀ v, NoDup (blockers_of s v);
}.

Section Derived.
Context `{DG : !Digests} (validate_descriptor : str → nat → bool).

Lemma derive_spec g s : derive validate_descriptor g = Ok s → derived g s.
Proof.
  intros H. unfold derive in H. peel H as u Hv. peel H as po Hpo. peel H as u' Hpol. injection H as <-.
  set (infos := exec_ops_ordered g) in *. pose proof (insert_producers_spec infos po Hpo) as Hp. cbn [ops].
  apply validated_inv in Hv as (Hsh & _ & _ & _).
  assert (Hkey : ∀ v info, infos !! v = Some info → op_map g !! info_plan_node info = Some info).
  { intros v info Hi%list_elem_of_lookup_2. apply elem_of_infos in Hi as [i Hi]. by rewrite (sh_key _ _ _ (Hsh i info Hi)). }
  assert (Hpn : r_plan_node <$> imap (ready_op po) infos = info_plan_node <$> infos).
  { rewrite fmap_imap. apply list_eq. intros v. rewrite list_lookup_imap, list_lookup_fmap. by destruct (infos !! v). }
  assert (Hnd : NoDup (info_plan_node <$> infos)).
  { unfold infos, exec_ops_ordered. rewrite merge_sort_Permutation.
    erewrite <-list_fmap_compose, list_fmap_ext; [apply NoDup_fst_map_to_list|].
    intros k [i info] Hi%list_elem_of_lookup_2%elem_of_map_to_list. simpl. apply (Hsh i info Hi). }
  assert (Hat : ∀ v info, infos !! v = Some info → plan_node_at {| ops := imap (ready_op po) infos |} v = info_plan_node info).
  { intros v info Hi. unfold plan_node_at. cbn [ops]. by rewrite list_lookup_imap, Hi. }
  constructor; cbn [ops].
  - by rewrite Hpn.
  - intros i. rewrite Hpn, list_elem_of_fmap. split.
    + intros (info & -> & [v Hi]%list_elem_of_lookup). erewrite Hkey; eauto.
    + intros [info Hi]. exists info. split; [by rewrite (sh_key _ _ _ (Hsh i info Hi))|]. apply elem_of_infos. eauto.
  - intros v w Hvl. rewrite length_imap in *. apply lookup_lt_is_Some_2 in Hvl as [info Hi]. unfold blockers_of. cbn [ops].
    rewrite list_lookup_imap, Hi. cbn. unfold blockers. rewrite (proj2 (foldr_btree_spec _)), list_elem_of_filter, list_elem_of_omap.
    rewrite (Hat v info Hi). split.
    + intros [Hne (m & Hm & (info' & Hi' & Hm')%Hp)]. split_and!; [done|by eapply lookup_lt_Some|].
      rewrite (Hat w info' Hi'). exists m. split; [exists info'|exists info]; eauto.
    + intros (Hne & Hw & m & (a & Ha & Hma) & (b & Hb & Hmb)). split; [done|]. exists m.
      apply lookup_lt_is_Some_2 in Hw as [info' Hi']. rewrite (Hat w info' Hi') in Ha.
      rewrite (Hkey v info Hi) in Hb. rewrite (Hkey w info' Hi') in Ha. injection Ha as <-. injection Hb as <-.
      split; [done|]. apply Hp. eauto.
  - intros v. unfold blockers_of. cbn [ops]. rewrite list_lookup_imap. destruct (infos !! v) as [info|]; cbn; [|constructor].
    apply foldr_btree_spec.
Qed.
End Derived.

Definition plan_waves (s : ReadySchedule) (ws : list (list nat)) : list (list PlanNodeId) :=
  (λ w : list nat, plan_node_at s <$> w) <$> ws.

Lemma concat_plan_waves s ws : concat (plan_waves s ws) = plan_node_at s <$> concat ws.
Proof. induction ws as [|w ws IH]; [done|]. cbn. rewrite fmap_app. by f_equal. Qed.

Lemma take_plan_waves s k ws : take k (plan_waves s ws) = plan_waves s (take k ws).
Proof. apply (eq_sym (fmap_take _ _ _)). Qed.

Lemma plan_node_at_lookup s v : v < length (ops s) → ∃ op, ops s !! v = Some op ∧ r_plan_node op = plan_node_at s v.
Proof. intros [op Hop]%lookup_lt_is_Some_2. exists op. split; [done|]. unfold plan_node_at. by rewrite Hop. Qed.

Lemma map_waves_ok s ws :
  (∀ w v, w ∈ ws → v ∈ w → v < length (ops s)) → map_waves s ws = Ok (plan_waves s ws).
Proof.
  intros Hb. induction ws as [|w ws IH]; cbn [map_waves]; [done|].
  assert (Hw : plan_nodes_of s w = Ok (plan_node_at s <$> w)).
  { assert (Hbw : ∀ v, v ∈ w → v < length (ops s)) by (intros v; apply Hb; set_solver). clear -Hbw.
    induction w as [|v w IH]; cbn [plan_nodes_of]; [done|].
    destruct (plan_node_at_lookup s v) as (op & -> & E); [apply Hbw; set_solver|]. cbn [index_or_panic outcome_bind].
    rewrite IH by (intros; apply Hbw; set_solver). cbn [outcome_bind]. by rewrite E. }
  rewrite Hw. cbn [outcome_bind]. rewrite IH by (intros w' v Hw'; apply Hb; set_solver). done.
Qed.

Section Complete.
Context `{DG : !Digests} (validate_descriptor : str → nat → bool) (g : HGraph) (s : ReadySchedule).
Context (Hderive : derive validate_descriptor g = Ok s).

Lemma derived_linearised : ∃ l, linearises g l.
Proof using Hderive.
  pose proof Hderive as H. unfold derive in H. peel H as u Hv. apply validated_inv in Hv as (Hsh & Hnd & _ & Hac).
  destruct (accepted_order g Hsh Hnd _ Hac) as (l & ? & ? & ?). by exists l.
Qed.

Lemma derived_well_formed : well_formed s.
Proof using Hderive.
  pose proof (derive_spec _ _ _ Hderive) as Hd. destruct derived_linearised as (l & [Hnd Hops Hdep]). constructor.
  - apply Hd.
  - intros v u Hu. destruct (decide (v < length (ops s))) as [Hv|Hv]; [by apply (dv_blockers _ _ Hd v u Hv)|].
    unfold blockers_of in Hu. rewrite lookup_ge_None_2 in Hu by lia. set_solver.
  - exists (λ v, pos_in l (plan_node_at s v)). intros v u Hv (_ & Hul & Hdp)%(dv_blockers _ _ Hd v u Hv).
    apply Hdep, before_lookup in Hdp as (a & b & Hab & Ha & Hb).
    by rewrite (pos_in_lookup l a), (pos_in_lookup l b).
Qed.

(** The operation with a plan node, and the indices of one. *)
Lemma plan_node_index i : is_Some (op_map g !! i) → ∃ v, v < length (ops s) ∧ plan_node_at s v = i.
Proof using Hderive.
  intros Hi. apply (dv_ops _ _ (derive_spec _ _ _ Hderive)), list_elem_of_lookup in Hi as [v Hv].
  exists v. rewrite list_lookup_fmap in Hv. unfold plan_node_at. destruct (ops s !! v) as [op|] eqn:E; [|done].
  split; [by eapply lookup_lt_Some|]. by injection Hv.
Qed.

Lemma plan_node_at_inj u v :
  u < length (ops s) → v < length (ops s) → plan_node_at s u = plan_node_at s v → u = v.
Proof using Hderive.
  intros (a & Ha & <-)%(plan_node_at_lookup s) (b & Hb & <-)%(plan_node_at_lookup s) E.
  eapply (NoDup_lookup (r_plan_node <$> ops s)); [apply (dv_nodup _ _ (derive_spec _ _ _ Hderive))|..].
  - by rewrite list_lookup_fmap, Ha.
  - by rewrite list_lookup_fmap, Hb, E.
Qed.

(** A dependency of the graph is a blocker of the schedule. *)
Lemma depends_blocker i v :
  v < length (ops s) → depends g i (plan_node_at s v) → ∃ u, u ∈ blockers_of s v ∧ plan_node_at s u = i.
Proof using Hderive.
  intros Hv Hd. destruct (plan_node_index i) as (u & Hu & <-).
  { destruct Hd as (m & (a & -> & _) & _). eauto. }
  exists u. split; [|done]. apply (dv_blockers _ _ (derive_spec _ _ _ Hderive) v u Hv). split_and!; [|done|done].
  intros ->. destruct derived_linearised as (l & Hlin).
  pose proof (lin_depends _ _ Hlin _ _ Hd) as (a & b & Hab & Ha & Hb)%before_lookup.
  pose proof (NoDup_lookup _ _ _ _ (lin_nodup _ _ Hlin) Ha Hb). lia.
Qed.

Lemma derived_waves :
  ∃ ws, waves s = Ok (plan_waves s ws) ∧ levels s ws ∧ (∀ w v, w ∈ ws → v ∈ w → v < length (ops s)).
Proof using Hderive.
  destruct (index_waves_spec s derived_well_formed) as (ws & Hws & Hl). exists ws. unfold waves. rewrite Hws. cbn [outcome_bind].
  assert (Hb : ∀ w v, w ∈ ws → v ∈ w → v < length (ops s)).
  { intros w v Hw Hv. assert (Hc : v ∈ concat ws) by (apply list_elem_of_In, in_concat; exists w; by rewrite <-!list_elem_of_In).
    rewrite (lv_perm _ _ Hl), elem_of_seq in Hc. lia. }
  split_and!; [by apply map_waves_ok|done..].
Qed.

Context (ws : list (list nat)) (Hl : levels s ws) (Hb : ∀ w v, w ∈ ws → v ∈ w → v < length (ops s)).

Lemma derived_placed k w i :
  (plan_waves s ws) !! k = Some w → i ∈ w →
  (∀ j, depends g j i → j ∈ concat (take k (plan_waves s ws))) ∧
  ∀ k', k = S k' → ∃ w' j, (plan_waves s ws) !! k' = Some w' ∧ j ∈ w' ∧ depends g j i.
Proof using Hderive Hl Hb.
  unfold plan_waves at 1. rewrite list_lookup_fmap, fmap_Some. intros (w0 & Hk & ->) (v & -> & Hv)%list_elem_of_fmap.
  assert (Hvl : v < length (ops s)) by (eapply Hb; [by eapply list_elem_of_lookup_2|done]).
  destruct (lv_placed _ _ Hl k w0 v Hk Hv) as [Hbl Hlast]. split.
  - intros j (u & Hu & <-)%depends_blocker; [|done]. rewrite take_plan_waves, concat_plan_waves.
    by apply list_elem_of_fmap_2, Hbl.
  - intros k' E. destruct (Hlast k' E) as (w' & u & Hw' & Hu & Huw). exists (plan_node_at s <$> w'), (plan_node_at s u).
    split_and!; [by unfold plan_waves; rewrite list_lookup_fmap, Hw'|by apply list_elem_of_fmap_2|].
    by apply (dv_blockers _ _ (derive_spec _ _ _ Hderive) v u Hvl).
Qed.

Lemma derived_linearises : linearises g (plan_node_at s <$> concat ws).
Proof using Hderive Hl Hb.
  pose proof (derive_spec _ _ _ Hderive) as Hd. assert (Hperm := lv_perm _ _ Hl).
  assert (Hin : ∀ v, v ∈ concat ws ↔ v < length (ops s)) by (intros v; rewrite Hperm, elem_of_seq; lia).
  constructor.
  - apply NoDup_fmap_2_strong; [|rewrite Hperm; apply NoDup_seq]. intros u v Hu%Hin Hv%Hin. by apply plan_node_at_inj.
  - intros i. rewrite list_elem_of_fmap. split.
    + intros (v & -> & Hv%Hin). destruct (plan_node_at_lookup s v Hv) as (op & Hop & <-).
      apply (dv_ops _ _ Hd), list_elem_of_fmap_2. by eapply list_elem_of_lookup_2.
    + intros (v & Hv & <-)%plan_node_index. exists v. split; [done|by apply Hin].
  - intros i j Hdep. destruct (plan_node_index j) as (v & Hv & <-).
    { destruct Hdep as (m & _ & (b & -> & _)). eauto. }
    apply Hin, list_elem_of_In, in_concat in Hv as (w & [k Hk]%list_elem_of_In%list_elem_of_lookup & Hvw%list_elem_of_In).
    rewrite <-concat_plan_waves. apply (before_concat _ k (plan_node_at s <$> w)).
    + by unfold plan_waves; rewrite list_lookup_fmap, Hk.
    + by apply list_elem_of_fmap_2.
    + eapply derived_placed; [by unfold plan_waves; rewrite list_lookup_fmap, Hk|by apply list_elem_of_fmap_2|done].
Qed.
End Complete.

(** C18. A derived schedule runs to completion, in waves that are as early as
    possible.  Whenever [derive] accepts a graph, [waves] returns: the waves contain
    every operation of the graph exactly once and read in order they respect every
    dependency; an operation is in a wave only when all operations whose outputs it
    consumes are in earlier waves, and not in the first possible wave only when one
    of them is in the wave just before. *)
Theorem ready_waves_complete `{DG : !Digests} (validate_descriptor : str → nat → bool) (g : HGraph) (s : ReadySchedule) :
  derive validate_descriptor g = Ok s →
  ∃ ws, waves s = Ok ws ∧ launch_order s = Ok (concat ws) ∧ linearises g (concat ws) ∧
    ∀ k w i, ws !! k = Some w → i ∈ w →
      (∀ j, depends g j i → j ∈ concat (take k ws)) ∧
      ∀ k', k = S k' → ∃ w' j, ws !! k' = Some w' ∧ j ∈ w' ∧ depends g j i.
Proof.
  intros H. destruct (derived_waves _ _ _ H) as (ws & Hws & Hl & Hb). exists (plan_waves s ws).
  assert (Hpl := derived_placed _ _ _ H ws Hl Hb). split_and!; [done|unfold launch_order; by rewrite Hws| |done].
  rewrite concat_plan_waves. by eapply derived_linearises.
Qed.

(** ** Finite confluence *)

Lemma at_index_ok {A} (l : list A) i a : at_index l i = Ok a ↔ l !! i = Some a.
Proof. apply index_ok. Qed.

Lemma entry_ok M i j b : entry M i j = Ok b ↔ ∃ row, M !! i = Some row ∧ row !! j = Some b.
Proof.
  unfold entry. rewrite outcome_bind_ok. by setoid_rewrite at_index_ok.
Qed.

Lemma set_entry_true M i j b M' i' j' :
  set_entry M i j b = Ok M' → entry M' i' j' = Ok true → (i' = i ∧ j' = j ∧ b = true) ∨ entry M i' j' = Ok true.
Proof.
  intros H. unfold set_entry in H. peel H as row Hrow. peel H as old Hold. injection H as <-.
  apply at_index_ok in Hrow, Hold. rewrite !entry_ok. intros (row' & Hr & Hb).
  destruct (decide (i' = i)) as [-> |Hi]; [|rewrite list_lookup_insert_ne in Hr by done; eauto].
  rewrite list_lookup_insert_eq in Hr by (by eapply lookup_lt_Some). injection Hr as <-.
  destruct (decide (j' = j)) as [-> |Hj]; [|rewrite list_lookup_insert_ne in Hb by done; eauto].
  rewrite list_lookup_insert_eq in Hb by (by eapply lookup_lt_Some). injection Hb as ->. by left.
Qed.

(** The matrix contains only paths of blockers. *)
Definition blocks (s : ReadySchedule) (u v : nat) : Prop := v < length (ops s) ∧ u ∈ blockers_of s v.
Definition sound_matrix (s : ReadySchedule) (M : matrix) : Prop := ∀ i j, entry M i j = Ok true → tc (blocks s) i j.

Lemma mark_sound s M M' :
  sound_matrix s M → fold_all mark_blockers M (imap pair (ops s)) = Ok M' → sound_matrix s M'.
Proof.
  intros HM H. assert (Hin : ∀ e, e ∈ imap pair (ops s) → ops s !! e.1 = Some e.2).
  { intros e (i & op & -> & Hop)%elem_of_lookup_imap. done. }
  revert M HM H Hin. generalize (imap pair (ops s)). intros l. induction l as [|[v op] l IH]; intros M HM H Hin; cbn [fold_all] in H.
  { by injection H as <-. }
  peel H as M1 H1. apply (IH M1); [|done|intros; apply Hin; set_solver]. specialize (Hin (v, op) ltac:(set_solver)). simpl in Hin.
  unfold mark_blockers in H1. cbn [fst snd] in H1.
  assert (Hb : ∀ p, p ∈ blocked_by op → blocks s p v).
  { intros p Hp. split; [by eapply lookup_lt_Some|]. unfold blockers_of. by rewrite Hin. }
  revert M HM H1 Hb. generalize (blocked_by op). intros ps. induction ps as [|p ps IHp]; intros M HM H1 Hb; cbn [fold_all] in H1.
  { by injection H1 as <-. }
  peel H1 as M2 H2. apply (IHp M2); [|done|intros; apply Hb; set_solver]. intros i j Hij.
  destruct (set_entry_true _ _ _ _ _ _ _ H2 Hij) as [(-> & -> & _)|?]; [apply tc_once, Hb; set_solver|by apply HM].
Qed.

Lemma close_sound s M l M' : sound_matrix s M → fold_all closure_step M l = Ok M' → sound_matrix s M'.
Proof.
  intros HM. apply (fold_all_ind _ (λ _ M, sound_matrix s M)); [done|]. clear. intros _ [[k i] j] M M' HM H.
  unfold closure_step in H. peel H as ij Hij. peel H as ik Hik. peel H as through Ht.
  intros i' j' Ht'. destruct (set_entry_true _ _ _ _ _ _ _ H Ht') as [(-> & -> & Hor)|?]; [|by apply HM].
  apply orb_true_iff in Hor as [-> | ->]; [by apply HM|]. destruct ik; [|done]. etrans; by apply HM.
Qed.

Lemma collect_ok {A B} (f : A → gresult B) l bs : collect f l = Ok bs → Forall2 (λ a b, f a = Ok b) l bs.
Proof.
  revert bs. induction l as [|a l IH]; intros bs H; cbn [collect] in H; [injection H as <-; constructor|].
  peel H as b Hb. peel H as rest Hr. injection H as <-. constructor; [done|by apply IH].
Qed.

Lemma elem_of_pairs_below n x y : (x, y) ∈ pairs_below n ↔ y < x ∧ x < n.
Proof.
  unfold pairs_below. rewrite list_elem_of_bind. setoid_rewrite list_elem_of_bind. setoid_rewrite elem_of_seq. split.
  - intros (x' & (y' & [= -> ->]%list_elem_of_singleton & ?) & ?). lia.
  - intros [? ?]. exists x. split; [|lia]. exists y. split; [by apply list_elem_of_singleton|lia].
Qed.

(** One transition of the model, and a run of operations in some order. *)
Definition model_step (m : FiniteTransitionModel) (i : PlanNodeId) (w : nat) : nat :=
  default w (transitions m !! i ≫= λ table, table !! w).

Definition run_model (m : FiniteTransitionModel) (l : list PlanNodeId) (w : nat) : nat := run_all (model_step m) l w.

(** States in the same class of the model. *)
Definition same_class (m : FiniteTransitionModel) (x y : nat) : Prop := equivalence_classes m !! x = equivalence_classes m !! y.

#[local] Instance same_class_equivalence m : Equivalence (same_class m).
Proof. unfold same_class. split; [done|by intros ? ?|]. intros x y z Hxy Hyz. congruence. Qed.

(** The hypotheses of the confluence argument, as the check establishes them. *)
Record model_ok (g : HGraph) (m : FiniteTransitionModel) : Prop := {
  mo_step : ∀ i w, is_Some (op_map g !! i) → w < length (observations m) → model_step m i w < length (observations m);
  mo_observe : ∀ x y, x < length (observations m) → y < length (observations m) → same_class m x y →
    observations m !! x = observations m !! y;
  mo_congruent : ∀ i x y, is_Some (op_map g !! i) → x < length (observations m) → y < length (observations m) →
    same_class m x y → same_class m (model_step m i x) (model_step m i y);
  mo_commute : ∀ i j w, is_Some (op_map g !! i) → is_Some (op_map g !! j) →
    ¬ tc (depends g) i j → ¬ tc (depends g) j i → w < length (observations m) →
    same_class m (model_step m j (model_step m i w)) (model_step m i (model_step m j w));
}.

Lemma model_confluent g m l l' w :
  model_ok g m → linearises g l → linearises g l' → w < length (observations m) →
  run_model m l w < length (observations m) ∧ observations m !! run_model m l w = observations m !! run_model m l' w.
Proof.
  intros [Hstep Hobs Hcong Hcomm] [Hnd Hops Hdep] [Hnd' Hops' Hdep'] Hw.
  assert (Hrun : ∀ l0, (∀ i, i ∈ l0 → is_Some (op_map g !! i)) → run_model m l0 w < length (observations m)).
  { intros l0. revert w Hw. induction l0 as [|i l0 IH]; intros w Hw Hl; [done|].
    apply (IH (model_step m i w)); [apply Hstep; [apply Hl; set_solver|done]|intros; apply Hl; set_solver]. }
  split; [apply Hrun, Hops|]. apply Hobs; [apply Hrun, Hops|apply Hrun, Hops'|].
  apply (run_reorder (same_class m) (λ w, w < length (observations m)) (model_step m)
    (λ i j, tc (depends g) i j ∨ tc (depends g) j i)); [apply _| | | |done|done| |].
  - intros i x Hi%Hops. by apply Hstep.
  - intros i x y Hi%Hops. by apply Hcong.
  - intros i j x Hi%Hops Hj%Hops Hno. apply Hcomm; tauto.
  - apply NoDup_Permutation; [done..|]. intros i. by rewrite Hops, Hops'.
  - intros i j Hb [Hij|Hji]; [by apply (before_tc l' (depends g))|].
    apply (before_tc l (depends g)) in Hji; [|done..]. apply (before_trans l i j i) in Hji; [|done..].
    apply before_lookup in Hji as (a & b & ? & Ha & Hb'). pose proof (NoDup_lookup _ _ _ _ Hnd Ha Hb'). lia.
Qed.

Section Checked.
Context `{DG : !Digests} (validate_descriptor : str → nat → bool) (g : HGraph) (m : FiniteTransitionModel) (s : ReadySchedule)
  (tables : list (list nat)) (M : matrix).
Let n : nat := length (observations m).
Context (Hderive : derive validate_descriptor g = Ok s)
  (Htables : collect (transition_table g m n) (ops s) = Ok tables)
  (Hcong : ∀ x y, y < x → x < n → check_congruence m tables x y = Ok tt)
  (HM : sound_matrix s M)
  (Hpairs : ∀ u v, v < u → u < length (ops s) → ∃ c c', check_pair m n tables M c (u, v) = Ok c').

Lemma table_at u :
  u < length (ops s) → ∃ t, tables !! u = Some t ∧ transitions m !! plan_node_at s u = Some t ∧
    length t = n ∧ ∀ w, w < n → ∃ w', t !! w = Some w' ∧ w' < n.
Proof using Htables.
  intros (op & Hop & <-)%plan_node_at_lookup. apply collect_ok in Htables.
  destruct (Forall2_lookup_l _ _ _ _ _ Htables Hop) as (t & Ht & Hop'). unfold transition_table in Hop'.
  peel Hop' as policy Hpol. peel Hop' as u1 Hall. peel Hop' as t' Ht'. peel Hop' as u2 Hlen. injection Hop' as ->.
  apply found_ok in Ht'. apply require_ok, andb_true_iff in Hlen as [Hlen%bool_decide_eq_true Hfor].
  exists t. split_and!; [done..|]. intros w Hw. rewrite <-Hlen in Hw. apply lookup_lt_is_Some_2 in Hw as [w' Hw'].
  exists w'. split; [done|]. rewrite forallb_forall in Hfor. apply list_elem_of_lookup_2, list_elem_of_In, Hfor in Hw'.
  by apply bool_decide_eq_true in Hw'.
Qed.

Lemma step_at i w :
  is_Some (op_map g !! i) → w < n → ∃ u t, u < length (ops s) ∧ plan_node_at s u = i ∧ tables !! u = Some t ∧
    t !! w = Some (model_step m i w) ∧ model_step m i w < n.
Proof using Hderive Htables.
  intros (u & Hu & <-)%(plan_node_index validate_descriptor g s Hderive) Hw. destruct (table_at u Hu) as (t & Ht & Htr & _ & Hin).
  destruct (Hin w Hw) as (w' & Hw' & Hlt). exists u, t. unfold model_step. rewrite Htr. simpl. by rewrite Hw'.
Qed.

Lemma congruent_pair x y : y < x → x < n → same_class m x y →
  observations m !! x = observations m !! y ∧
  ∀ t tx ty, t ∈ tables → t !! x = Some tx → t !! y = Some ty → same_class m tx ty.
Proof using Hcong.
  intros Hyx Hx E. pose proof (Hcong x y Hyx Hx) as H. unfold check_congruence in H. peel H as cx Hcx. peel H as cy Hcy.
  apply at_index_ok in Hcx, Hcy. unfold same_class in E. rewrite Hcx, Hcy in E. injection E as ->.
  rewrite bool_decide_eq_true_2 in H by done. cbn [negb] in H. peel H as ox Hox. peel H as oy Hoy. peel H as u Ho.
  apply at_index_ok in Hox, Hoy. apply require_ok, bool_decide_eq_true in Ho. split; [congruence|].
  intros t tx ty Ht Htx Hty. pose proof (check_all_in _ _ _ _ H Ht) as Hc. cbv beta in Hc.
  peel Hc as tx' Htx'. peel Hc as ty' Hty'. peel Hc as c1 Hc1. peel Hc as c2 Hc2. apply at_index_ok in Htx', Hty', Hc1, Hc2.
  apply require_ok, bool_decide_eq_true in Hc. unfold same_class. congruence.
Qed.

Lemma commuting_pair u v tu tv w :
  v < u → u < length (ops s) → ¬ tc (blocks s) u v → ¬ tc (blocks s) v u → tables !! u = Some tu → tables !! v = Some tv → w < n →
  ∃ vw uw uvw vuw, tv !! w = Some vw ∧ tu !! vw = Some uvw ∧ tu !! w = Some uw ∧ tv !! uw = Some vuw ∧ same_class m uvw vuw.
Proof using Hpairs HM.
  intros Hvu Hu Huv Hvu' Htu Htv Hw. destruct (Hpairs u v Hvu Hu) as (c & c' & H). unfold check_pair in H.
  peel H as before Hb. peel H as ordered Ho. destruct ordered.
  { destruct before; [by apply HM in Hb|by apply HM in Ho]. }
  peel H as tu' Htu'. peel H as tv' Htv'. peel H as u0 Hall. rewrite at_index_ok in Htu', Htv'. simplify_eq.
  apply (check_all_in _ _ _ w) in Hall; [|apply elem_of_seq; lia]. unfold check_commute in Hall.
  peel Hall as vw H1. peel Hall as uvw H2. peel Hall as uw H3. peel Hall as vuw H4. peel Hall as c1 H5. peel Hall as c2 H6.
  apply at_index_ok in H1, H2, H3, H4, H5, H6. apply require_ok, bool_decide_eq_true in Hall. exists vw, uw, uvw, vuw.
  split_and!; [done..|]. unfold same_class. congruence.
Qed.

Lemma blocks_depends u v : tc (blocks s) u v → tc (depends g) (plan_node_at s u) (plan_node_at s v).
Proof using Hderive.
  assert (H : ∀ u v, blocks s u v → depends g (plan_node_at s u) (plan_node_at s v)).
  { intros a b [Hb Ha]. by apply (dv_blockers _ _ (derive_spec _ _ _ Hderive) b a Hb). }
  induction 1 as [|a b c Hab _ IH]; [by apply tc_once, H|]. eapply tc_l; [by apply H|done].
Qed.

Lemma checked_commute i j w :
  is_Some (op_map g !! i) → is_Some (op_map g !! j) → ¬ tc (depends g) i j → ¬ tc (depends g) j i → w < n →
  same_class m (model_step m j (model_step m i w)) (model_step m i (model_step m j w)).
Proof using All.
  intros Hi Hj Hij Hji Hw. destruct (step_at i w Hi Hw) as (u & tu & Hu & <- & Htu & Hiw & Hiwn).
  destruct (step_at j w Hj Hw) as (v & tv & Hv & <- & Htv & Hjw & Hjwn).
  destruct (step_at (plan_node_at s u) _ Hi Hjwn) as (u' & tu' & Hu' & Eu & Htu' & Hijw & _).
  destruct (step_at (plan_node_at s v) _ Hj Hiwn) as (v' & tv' & Hv' & Ev & Htv' & Hjiw & _).
  apply (plan_node_at_inj validate_descriptor g s Hderive) in Eu; [|done..].
  apply (plan_node_at_inj validate_descriptor g s Hderive) in Ev; [|done..]. simplify_eq.
  assert (Huv : ¬ tc (blocks s) u v) by (intros ?%blocks_depends; done).
  assert (Hvu : ¬ tc (blocks s) v u) by (intros ?%blocks_depends; done).
  destruct (lt_eq_lt_dec u v) as [[Hlt| ->]|Hlt].
  - destruct (commuting_pair v u tv tu w) as (a & b & c & d & ? & ? & ? & ? & ?); [done..|]. simplify_eq. done.
  - simplify_eq. done.
  - destruct (commuting_pair u v tu tv w) as (a & b & c & d & ? & ? & ? & ? & ?); [done..|]. simplify_eq. by symmetry.
Qed.

Lemma checked_model : model_ok g m.
Proof using All.
  constructor; fold n.
  - intros i w Hi Hw. by destruct (step_at i w Hi Hw) as (u & t & _ & _ & _ & _ & ?).
  - intros x y Hx Hy E. destruct (lt_eq_lt_dec x y) as [[Hlt| ->]|Hlt]; [|done|by apply congruent_pair].
    symmetry in E. symmetry. by apply congruent_pair.
  - intros i x y Hi Hx Hy E. destruct (step_at i x Hi Hx) as (u & t & Hu & <- & Ht & Htx & _).
    destruct (step_at _ y Hi Hy) as (u' & t' & Hu' & Eu & Ht' & Hty & _).
    apply (plan_node_at_inj validate_descriptor g s Hderive) in Eu; [|done..]. simplify_eq.
    apply list_elem_of_lookup_2 in Ht. destruct (lt_eq_lt_dec x y) as [[Hlt| ->]|Hlt].
    + symmetry. symmetry in E. by eapply (congruent_pair y x).
    + done.
    + by eapply (congruent_pair x y).
  - apply checked_commute.
Qed.
End Checked.

(** C19. The confluence check proves what its documentation claims: when it accepts a
    graph and a finite transition model, every two complete orders of the operations
    that respect the dependencies of the graph take every state of the model to
    states with equal observations (and the launch order of the ready schedule is
    one of them). *)
Theorem finite_confluence_sound `{DG : !Digests} (validate_descriptor : str → nat → bool) (g : HGraph)
    (m : FiniteTransitionModel) (c : FiniteConfluenceCheck) :
  check_finite_confluence validate_descriptor g m = Ok c →
  states c = length (observations m) ∧
  (∃ s launch, derive validate_descriptor g = Ok s ∧ launch_order s = Ok launch ∧ linearises g launch) ∧
  ∀ l l' w, linearises g l → linearises g l' → w < states c →
    ∃ o, observations m !! run_model m l w = Some o ∧ observations m !! run_model m l' w = Some o.
Proof.
  intros H. unfold check_finite_confluence in H. peel H as s Hs. peel H as ws Hw. peel H as u1 Hsize. peel H as u2 Hshape.
  peel H as tables Ht. peel H as u3 Hcong. peel H as M0 Hm. peel H as M Hc. peel H as pairs Hp. injection H as <-. cbn [states].
  split; [done|]. split.
  { destruct (derived_waves _ _ _ Hs) as (ws' & Hws & Hl & Hb). exists s, (concat (plan_waves s ws')).
    split_and!; [done|unfold launch_order; by rewrite Hws|]. rewrite concat_plan_waves. by eapply derived_linearises. }
  assert (Hok : model_ok g m).
  { eapply checked_model; [done|done| | |].
    - intros x y Hyx Hx. by apply (check_all_in _ _ _ (x, y)) in Hcong; [|by apply elem_of_pairs_below].
    - eapply close_sound; [|done]. eapply mark_sound; [|done]. intros i j (row & Hi & Hj)%entry_ok.
      apply lookup_replicate in Hi as [-> _]. by apply lookup_replicate in Hj as [? _].
    - intros u v Hvu Hu. eapply fold_all_in; [done|]. by apply elem_of_pairs_below. }
  intros l l' w Hl Hl' Hw'. destruct (model_confluent g m l l' w Hok Hl Hl' Hw') as [Hlt E].
  apply lookup_lt_is_Some_2 in Hlt as [o Ho]. exists o. by rewrite <-E.
Qed.

(** ** Concrete schedules *)

Section Examples.
#[local] Existing Instance HGraphTheorems.zero_digests.
#[local] Existing Instance HGraphTheorems.ascii_tables.

Definition schedule_of (g : HGraph) : ReadySchedule :=
  match derive (λ _ _, true) g with Ok s => s | _ => {| ops := [] |} end.

Lemma ready_waves_complete_witness : waves (schedule_of demo_graph) = Ok [[0]; [2]] ∧ linearises demo_graph [0; 2].
Proof.
  destruct (ready_waves_complete (λ _ _, true) demo_graph (schedule_of demo_graph)) as (ws & Hws & _ & Hl & _);
    [vm_compute; reflexivity|].
  assert (E : waves (schedule_of demo_graph) = Ok [[0]; [2]]) by (vm_compute; reflexivity).
  split; [exact E|]. rewrite E in Hws. injection Hws as <-. exact Hl.
Defined.

(** Two uses of different bindings. *)
Definition loads_program : OIrProgram := {| nodes := [Load (lit "x"); Load (lit "y")] |}.

Definition loads_graph : HGraph :=
  match build_program_with_plan (λ _ _, true) loads_program (plan loads_program) with Ok g => g | _ => empty_graph end.

Definition load_info (i edge state : nat) : ExecInfo :=
  {| info_edge := edge; value_output := i; inputs := [state]; outputs := [i; 2 + i]; ordinal := i; info_plan_node := i |}.

Lemma loads_operations i info :
  op_map loads_graph !! i = Some info ↔ (i = 0 ∧ info = load_info 0 1 4) ∨ (i = 1 ∧ info = load_info 1 2 5).
Proof.
  rewrite <-elem_of_map_to_list.
  replace (map_to_list (op_map loads_graph)) with [(1, load_info 1 2 5); (0, load_info 0 1 4)] by (vm_compute; reflexivity).
  rewrite !elem_of_cons, elem_of_nil. naive_solver.
Qed.

Lemma loads_linearises l : NoDup l → (∀ i, i ∈ l ↔ i = 0 ∨ i = 1) → linearises loads_graph l.
Proof.
  intros Hnd Hl. constructor; [done| |].
  - intros i. rewrite Hl. split; [intros [-> | ->]|intros [info Hi%loads_operations]; naive_solver].
    + exists (load_info 0 1 4). apply loads_operations. by left.
    + exists (load_info 1 2 5). apply loads_operations. by right.
  - intros i j (m & (a & Ha%loads_operations & Hma) & (b & Hb%loads_operations & Hmb)). exfalso.
    destruct Ha as [[_ ->]|[_ ->]], Hb as [[_ ->]|[_ ->]]; simpl in *; set_solver by lia.
Qed.

(** The first load moves state 0 to state 1, the second changes nothing. *)
Definition loads_model : FiniteTransitionModel :=
  {| observations := [0%Z; 1%Z]; equivalence_classes := [0%Z; 1%Z]; transitions := {[ 0 := [1; 1]; 1 := [0; 1] ]} |}.

Lemma finite_confluence_sound_witness :
  ∃ o, observations loads_model !! run_model loads_model [0; 1] 0 = Some o ∧
       observations loads_model !! run_model loads_model [1; 0] 0 = Some o.
Proof.
  destruct (finite_confluence_sound (λ _ _, true) loads_graph loads_model
    {| states := 2; operations := 2; incomparable_pairs_checked := 1 |}) as (_ & _ & H); [vm_compute; reflexivity|].
  apply H; [apply loads_linearises|apply loads_linearises|simpl; lia].
  - apply (bool_decide_unpack _). vm_compute. exact I.
  - intros i. rewrite !elem_of_cons, elem_of_nil. tauto.
  - apply (bool_decide_unpack _). vm_compute. exact I.
  - intros i. rewrite !elem_of_cons, elem_of_nil. tauto.
Defined.
End Examples.
