(* ===== verification/Parser.v ===== *)
(** * The parser

    [crates/ostadix-api/src/parser.rs].  [Parser] keeps its mutable fields in
    [PState]; the source text and the dialect do not change during a parse.  Every
    method is a computation of the state monad: it keeps the state it reached
    when it fails, panics where a slice is not on a character boundary, an index
    is out of range or an [expect] fails, and the mutually recursive productions
    run on fuel. *)

From S2P Require Import Prelude.
From S2P Require Import Utf8.
From S2P Require Import Environment.
From S2P Require Import BackendCatalog.
From S2P Require Import Syntax.
From S2P Require Import BashScan.
From stdpp Require Import options.

Definition SEQUENCING_LANGS : list str := [lit "quote"; lit "O"].

Record SourceSpanV1 : Type := {
  start_byte : nat;
  end_byte : nat;
  start_line : nat;
  start_column : nat;
  end_line : nat;
  end_column : nat;
}.

Record Tag : Type := {
  tag_start : nat;
  tag_lang : str;
  tag_env_id : Z;
  tag_attr : option str;
  tag_raw : str;
}.

Record PState : Type := {
  pos : nat;
  line : nat;
  line_starts : option (list nat);
  plan_origins : option (list SourceSpanV1);
  origin_suppression_depth : nat;
}.

(** One constructor per [bail!] and per propagated error; the line is the one the
    message renders. *)
Inductive ParseError : Type :=
| UnclosedExpression (at_line : nat) (raw : str)
| LetNeedsExpression (at_line : nat) (name : str)
| ExpectedVariable (at_line : nat)
| ExpectedArgument (at_line : nat) (name : str)
| ExpectedCommaOrParen (at_line : nat) (name : str)
| NativeLeafDescriptor (at_line : nat)
| InvalidAttributeCharacter (at_line : nat)
| EmptyAttribute (at_line : nat)
| MalformedAttribute (at_line : nat)
| EnvironmentNumberOverflow
| ReservedEnvironment (id : Z).

(** Result of [parse_with_origins]; the digest of the source is a parameter. *)
Record ParsedDocumentV1 : Type := {
  doc_nodes : list ONode;
  doc_plan_origins : list SourceSpanV1;
  doc_source_sha256 : str;
  doc_source_len : nat;
}.

Definition is_attribute_value_continue (b : Z) : bool :=
  is_ascii_graphic b && negb (bool_decide (b ∈ lit "{},=")).

(** Scan for the closing brace on the same line and the opener after it. *)
Fixpoint attribute_suffix_closes_as_opener (rest : str) : bool :=
  match rest with
  | [] => false
  | b :: rest =>
      if (b =? 10) || (b =? 13) then false
      else if b =? 125 then starts_with rest (lit "^(")
      else attribute_suffix_closes_as_opener rest
  end.

(** [str::parse::<u32>] of a non-empty run of digits. *)
Definition parse_u32 (digits : str) : option Z :=
  let v := dec_value digits in if v <=? U32_MAX then Some v else None.

(** One entry of an attribute list: [name] or [name=value]. *)
Definition attribute_entry_ok (entry : str) : bool :=
  match split_byte 61 entry with
  | name :: rest =>
      (length rest <=? 1)%nat && is_ident name &&
      match rest with
      | [] => true
      | value :: _ => negb (bool_decide (value = [])) && forallb is_attribute_value_continue value
      end
  | [] => false
  end.

(** [while !self.source.is_char_boundary(byte) { byte -= 1 }]. *)
Fixpoint back_to_boundary (s : str) (byte : nat) : nat :=
  match byte with
  | O => O
  | S byte' => if is_boundary s byte then byte else back_to_boundary s byte'
  end.

(** [prefix.rfind('\n')]. *)
Definition last_newline (s : str) : option nat :=
  last (omap (λ p : nat * Z, if p.2 =? 10 then Some p.1 else None) (imap pair s)).

Section Parser.
Context (source : str) {dialect : SyntaxDialect}.

Abbreviation P := (M PState ParseError).

Definition set_pos (p : nat) (s : PState) : PState :=
  {| pos := p; line := line s; line_starts := line_starts s; plan_origins := plan_origins s;
     origin_suppression_depth := origin_suppression_depth s |}.

Definition set_line (l : nat) (s : PState) : PState :=
  {| pos := pos s; line := l; line_starts := line_starts s; plan_origins := plan_origins s;
     origin_suppression_depth := origin_suppression_depth s |}.

Definition set_origins (o : option (list SourceSpanV1)) (s : PState) : PState :=
  {| pos := pos s; line := line s; line_starts := line_starts s; plan_origins := o;
     origin_suppression_depth := origin_suppression_depth s |}.

Definition set_depth (d : nat) (s : PState) : PState :=
  {| pos := pos s; line := line s; line_starts := line_starts s; plan_origins := plan_origins s;
     origin_suppression_depth := d |}.

Definition new_parser : PState :=
  {| pos := 0; line := 1; line_starts := None; plan_origins := None; origin_suppression_depth := 0 |}.

(** [&source[i..j]]. *)
Definition slice_source (i j : nat) : P str :=
  if (i <=? j)%nat && (j <=? length source)%nat && is_boundary source i && is_boundary source j
  then ret (slice source i j) else panic.

Definition byte_at (i : nat) : option Z := source !! i.

Definition current_byte : P (option Z) := let* s := get in ret (byte_at (pos s)).

(** ** Moving the cursor *)

Definition advance_one_byte : P unit :=
  let* s := get in
  if (length source <=? pos s)%nat then ret tt
  else if negb (is_boundary source (pos s)) then panic
  else match byte_at (pos s) with
  | None => panic
  | Some b =>
      modify (λ s, set_pos (pos s + lead_len b) (if b =? 10 then set_line (S (line s)) s else s))
  end.

Fixpoint advance_bytes (n : nat) : P unit :=
  match n with
  | O => ret tt
  | S n => advance_one_byte ;;* advance_bytes n
  end.

(** [while matches!(self.current_byte(), ..) { self.advance_one_byte() }]: at most
    one step for each byte that is left. *)
Fixpoint skip_while (p : Z → bool) (fuel : nat) : P unit :=
  let* s := get in
  match byte_at (pos s) with
  | Some b =>
      if p b then
        match fuel with
        | O => no_fuel
        | S fuel => advance_one_byte ;;* skip_while p fuel
        end
      else ret tt
  | None => ret tt
  end.

Definition skip_horizontal_whitespace : P unit :=
  skip_while (λ b, (b =? 32) || (b =? 9)) (length source).

Definition skip_whitespace : P unit :=
  skip_while (λ b, (b =? 32) || (b =? 9) || (b =? 10) || (b =? 13)) (length source).

Fixpoint skip_line_loop (fuel : nat) : P unit :=
  let* s := get in
  if (pos s <? length source)%nat then
    match fuel with
    | O => no_fuel
    | S fuel =>
        match byte_at (pos s) with
        | None => panic
        | Some b => advance_one_byte ;;* (if b =? 10 then ret tt else skip_line_loop fuel)
        end
    end
  else ret tt.

Definition skip_to_end_of_line : P unit := skip_line_loop (length source).

Fixpoint skip_trivia_loop (fuel : nat) : P unit :=
  skip_whitespace ;;*
  let* b := current_byte in
  if bool_decide (b = Some 35) then
    match fuel with
    | O => no_fuel
    | S fuel => skip_to_end_of_line ;;* skip_trivia_loop fuel
    end
  else ret tt.

Definition skip_call_trivia : P unit := skip_trivia_loop (length source).

(** ** Source positions *)

Definition source_position (byte : nat) : P (nat * nat * nat) :=
  let* s := get in
  match line_starts s with
  | None => panic
  | Some starts =>
      let line_index := Nat.pred (length (filter (λ x, x ≤ byte)%nat starts)) in
      match starts !! line_index with
      | None => panic
      | Some line_start =>
          let* text := slice_source line_start byte in
          ret (byte, S line_index, S (chars_count text))
      end
  end.

Definition source_span (start end_ : nat) : P SourceSpanV1 :=
  let* p := source_position start in
  let* q := source_position end_ in
  ret {| start_byte := p.1.1; end_byte := q.1.1; start_line := p.1.2; start_column := p.2;
         end_line := q.1.2; end_column := q.2 |}.

Definition move_end (end_ end_line' end_column' : nat) (o : SourceSpanV1) : SourceSpanV1 :=
  {| start_byte := start_byte o; end_byte := end_; start_line := start_line o;
     start_column := start_column o; end_line := end_line'; end_column := end_column' |}.

Definition origin_count : P nat :=
  let* s := get in ret (match plan_origins s with Some o => length o | None => 0%nat end).

(** Origins are recorded outside quoted bodies, when an inventory was requested. *)
Definition recording (s : PState) : option (list SourceSpanV1) :=
  if bool_decide (origin_suppression_depth s = 0%nat) then plan_origins s else None.

Definition begin_origin (start : nat) : P (option nat) :=
  let* s := get in
  match recording s with
  | None => ret None
  | Some origins =>
      let* span := source_span start start in
      modify (set_origins (Some (origins ++ [span]))) ;;*
      ret (Some (length origins))
  end.

Definition finish_origin (index : option nat) (end_ : nat) : P unit :=
  match index with
  | None => ret tt
  | Some index =>
      let* p := source_position end_ in
      let* s := get in
      match plan_origins s with
      | None => panic
      | Some origins =>
          match origins !! index with
          | None => panic
          | Some o => modify (set_origins (Some (<[index := move_end end_ p.1.2 p.2 o]> origins)))
          end
      end
  end.

Definition record_origin (start end_ : nat) : P unit :=
  let* s := get in
  match recording s with
  | None => ret tt
  | Some origins =>
      let* span := source_span start end_ in
      modify (set_origins (Some (origins ++ [span])))
  end.

Definition extend_last_origin (end_ : nat) : P unit :=
  let* s := get in
  match recording s with
  | None => ret tt
  | Some origins =>
      let* p := source_position end_ in
      match last origins with
      | None => ret tt
      | Some o =>
          modify (set_origins (Some (take (length origins - 1) origins ++ [move_end end_ p.1.2 p.2 o])))
      end
  end.

(** ** Raw text *)

Definition flush_text (nodes : list ONode) (start end_ : nat) : P (list ONode) :=
  if (start <? end_)%nat then
    record_origin start end_ ;;*
    let* text := slice_source start end_ in
    ret (nodes ++ [RawText text])
  else ret nodes.

Definition flush_text_before_recorded (nodes : list ONode) (start end_ origin_checkpoint : nat) :
    P (list ONode) :=
  if (end_ <=? start)%nat then ret nodes
  else
    let* s := get in
    match recording s with
    | None => ret tt
    | Some _ =>
        let* span := source_span start end_ in
        let* s := get in
        match plan_origins s with
        | None => ret tt
        | Some origins =>
            if (origin_checkpoint <=? length origins)%nat
            then modify (set_origins (Some (take origin_checkpoint origins ++ span :: drop origin_checkpoint origins)))
            else panic
        end
    end ;;*
    let* text := slice_source start end_ in
    ret (nodes ++ [RawText text]).

(** Literal text of an escape: appended to a preceding raw node, or a new one. *)
Definition push_literal (nodes : list ONode) (literal : str) (start end_ : nat) : P (list ONode) :=
  match last nodes with
  | Some (RawText s) =>
      extend_last_origin end_ ;;*
      ret (take (length nodes - 1) nodes ++ [RawText (s ++ literal)])
  | _ =>
      record_origin start end_ ;;*
      ret (nodes ++ [RawText literal])
  end.

(** ** Tokens *)

(** Length of the matching closer when the raw tag is the complete tag at [position]. *)
Definition exact_closer_len_at (position : nat) (tag : Tag) : option nat :=
  if negb ((position <=? length source)%nat && is_boundary source position) then None
  else
    let remaining := drop position source in
    match strip_prefix (lit ")_") remaining with
    | None => None
    | Some after_marker =>
        if negb (starts_with after_marker (tag_raw tag)) then None
        else
          let closer_len := (2 + length (tag_raw tag))%nat in
          let next := remaining !! closer_len in
          let has_environment := bool_decide (91 ∈ tag_raw tag) in
          let has_attributes := bool_decide (is_Some (tag_attr tag)) in
          let extends_tag :=
            if has_attributes then false
            else if has_environment then bool_decide (next = Some 123)
            else match next with Some b => is_ident_continue b | None => false end
                 || bool_decide (next = Some 91 ∨ next = Some 123) in
          if extends_tag then None else Some closer_len
    end.

Definition try_parse_var_ref : P (option str) :=
  let* s := get in
  let start := pos s in
  if negb (bool_decide (byte_at start = Some 36)) then ret None
  else
    let name_start := S start in
    match byte_at name_start with
    | None => ret None
    | Some b =>
        if negb (is_ident_start b) then ret None
        else
          let end_ := (S name_start + span_len is_ident_continue (drop (S name_start) source))%nat in
          let* name := slice_source name_start end_ in
          modify (set_pos end_) ;;*
          ret (Some name)
    end.

Definition parse_identifier : P (option str) :=
  let* s := get in
  let start := pos s in
  match byte_at start with
  | None => ret None
  | Some b =>
      if negb (is_ident_start b) then ret None
      else
        let end_ := (S start + span_len is_ident_continue (drop (S start) source))%nat in
        modify (set_pos end_) ;;*
        let* name := slice_source start end_ in
        ret (Some name)
  end.

Definition starts_with_let_keyword : P bool :=
  let* s := get in
  let* rest := slice_source (pos s) (length source) in
  if negb (starts_with rest (lit "let")) then ret false
  else
    let* before_ok :=
      if (pos s =? 0)%nat then ret true
      else
        let* before := slice_source 0 (pos s) in
        ret (match last (chars before) with Some c => char_is_whitespace c.1 | None => true end) in
    let after := (pos s + 3)%nat in
    let* after_ok :=
      if (length source <=? after)%nat then ret true
      else
        let* rest := slice_source after (length source) in
        ret (match head (chars rest) with Some c => char_is_whitespace c.1 | None => true end) in
    ret (before_ok && after_ok).

(** The environment slot after the language: the encoded identity and the index
    after it, or no opener. *)
Definition parse_environment (i : nat) : P (option (Z * nat)) :=
  if negb (bool_decide (byte_at i = Some 91)) then ret (Some (EPHEMERAL_ENV_ID, i))
  else
    let i := S i in
    if bool_decide (byte_at i = Some 42) then
      let i := S i in
      if bool_decide (byte_at i = Some 93) then ret (Some (encoded LinkerIsolated, S i)) else ret None
    else
      let digits_start := i in
      let i := (i + span_len is_digit (drop i source))%nat in
      if (digits_start =? i)%nat then ret None
      else if negb (bool_decide (byte_at i = Some 93)) then ret None
      else
        let* digits := slice_source digits_start i in
        match parse_u32 digits with
        | None => fail EnvironmentNumberOverflow
        | Some numeric =>
            match persistent numeric with
            | inl (Reserved id) => fail (ReservedEnvironment id)
            | inr env => ret (Some (encoded env, S i))
            end
        end.

(** Bytes an attribute list may contain. *)
Definition is_attribute_byte (b : Z) : bool :=
  is_attribute_value_continue b || bool_decide (b ∈ [44; 61; 32; 9]).

(** The optional attribute list: its entries and the index after it, or no opener. *)
Definition parse_attributes (i : nat) : P (option (option (list str) * nat)) :=
  let* s := get in
  if negb (bool_decide (byte_at i = Some 123)) then ret (Some (None, i))
  else
    let content_start := S i in
    let i := (content_start + span_len is_attribute_byte (drop content_start source))%nat in
    let refuse e := if attribute_suffix_closes_as_opener (drop i source) then fail e else ret None in
    match byte_at i with
    | None => ret None
    | Some b =>
        if negb (b =? 125) then refuse (InvalidAttributeCharacter (line s))
        else
          let* content := slice_source content_start i in
          let entries := trim <$> split_byte 44 content in
          if bool_decide (entries = []) || existsb (λ e, bool_decide (e = [])) entries
          then refuse (EmptyAttribute (line s))
          else if negb (forallb attribute_entry_ok entries) then refuse (MalformedAttribute (line s))
          else ret (Some (Some entries, S i))
    end.

(** [entries.join(",")]. *)
Fixpoint join_entries (l : list str) : str :=
  match l with
  | [] => []
  | [x] => x
  | x :: l => x ++ lit "," ++ join_entries l
  end.

Definition try_parse_opener : P (option Tag) :=
  let* s := get in
  let start := pos s in
  match byte_at start with
  | None => ret None
  | Some b =>
      if negb (is_ident_start b) then ret None
      else
        let* rest := slice_source start (length source) in
        match match_registered_syntax_tag rest with
        | None => ret None
        | Some lang =>
            let* env := parse_environment (start + length lang) in
            match env with
            | None => ret None
            | Some (env_id, i) =>
                let* attrs := parse_attributes i in
                match attrs with
                | None => ret None
                | Some (entries, i) =>
                    if bool_decide (byte_at i = Some 94) && bool_decide (byte_at (S i) = Some 40) then
                      modify (set_pos (i + 2)) ;;*
                      let* raw := slice_source start i in
                      ret (Some {| tag_start := start; tag_lang := canonical_syntax_name lang;
                                   tag_env_id := env_id; tag_attr := join_entries <$> entries;
                                   tag_raw := raw |})
                    else ret None
                end
            end
        end
  end.

(** ** Productions *)

Definition inside_sequencing (expected_closer : option Tag) : bool :=
  match expected_closer with
  | Some tag => bool_decide (tag_lang tag ∈ SEQUENCING_LANGS)
  | None => true
  end.

Definition closer_here (expected_closer : option Tag) (position : nat) : option nat :=
  match expected_closer with
  | Some tag => exact_closer_len_at position tag
  | None => None
  end.

(** The backslash escapes at the cursor: a literal opener, a literal closer of the
    enclosing block, or a literal dollar.  [None] when the backslash is text. *)
Definition try_escape (expected_closer : option Tag) (text_start : nat) (nodes : list ONode) :
    P (option (list ONode)) :=
  let* s := get in
  let temp_pos := pos s in
  let after_bs := S temp_pos in
  if negb (bool_decide (byte_at temp_pos = Some 92) && (after_bs <? length source)%nat) then ret None
  else
    modify (set_pos after_bs) ;;*
    let* opener := try_parse_opener in
    match opener with
    | Some tag =>
        let* nodes := flush_text nodes text_start temp_pos in
        let* s := get in
        let* nodes := push_literal nodes (tag_raw tag ++ lit "^(") temp_pos (pos s) in
        ret (Some nodes)
    | None =>
        modify (set_pos temp_pos) ;;*
        match closer_here expected_closer after_bs with
        | Some closer_len =>
            let* closer := slice_source after_bs (after_bs + closer_len) in
            let* nodes := flush_text nodes text_start temp_pos in
            modify (set_pos (after_bs + closer_len)) ;;*
            let* nodes := push_literal nodes closer temp_pos (after_bs + closer_len) in
            ret (Some nodes)
        | None =>
            if bool_decide (byte_at after_bs = Some 36) then
              let* nodes := flush_text nodes text_start temp_pos in
              let* nodes := push_literal nodes (lit "$") temp_pos (S after_bs) in
              modify (set_pos (S after_bs)) ;;*
              ret (Some nodes)
            else ret None
        end
    end.

(** [ocore_i64] takes a literal, attribute-free [text] block first. *)
Definition valid_descriptor (args : list ONode) : bool :=
  match args with
  | TypedExpr lang _ None body :: _ =>
      bool_decide (lang = lit "text") &&
      forallb (λ child, match child with RawText _ => true | _ => false end) body
  | _ => false
  end.

(** The bodies of the mutually recursive productions, as functions of the
    recursive calls they make. *)

(** One iteration of the loop of [parse_until]. *)
Definition parse_loop_step
    (loop : option Tag → nat → list ONode → P (list ONode))
    (typed : Tag → P ONode) (let_binding : P (option ONode)) (call_ : P (option ONode))
    (expected_closer : option Tag) (text_start : nat) (nodes : list ONode) : P (list ONode) :=
  let inside := inside_sequencing expected_closer in
  let* s := get in
  if (pos s <? length source)%nat then
    match closer_here expected_closer (pos s) with
    | Some closer_len =>
        let* nodes := flush_text nodes text_start (pos s) in
        advance_bytes closer_len ;;*
        ret nodes
    | None =>
    if inside && bool_decide (byte_at (pos s) = Some 35) then
      let* nodes := flush_text nodes text_start (pos s) in
      skip_to_end_of_line ;;*
      let* s := get in
      loop expected_closer (pos s) nodes
    else
    let* is_let := if inside then starts_with_let_keyword else ret false in
    let* origin_checkpoint := origin_count in
    let* binding := if is_let then let_binding else ret None in
    match binding with
    | Some binding =>
        let* nodes := flush_text_before_recorded nodes text_start (pos s) origin_checkpoint in
        let* s := get in
        loop expected_closer (pos s) (nodes ++ [binding])
    | None =>
    let* escaped := try_escape expected_closer text_start nodes in
    match escaped with
    | Some nodes =>
        let* s := get in
        loop expected_closer (pos s) nodes
    | None =>
    let* var := if bool_decide (byte_at (pos s) = Some 36) then try_parse_var_ref else ret None in
    match var with
    | Some name =>
        let* s := get in
        let var_start := (pos s - length name - 1)%nat in
        let* nodes := flush_text nodes text_start var_start in
        record_origin var_start (pos s) ;;*
        loop expected_closer (pos s) (nodes ++ [VarRef name])
    | None =>
    let* opener := try_parse_opener in
    match opener with
    | Some tag =>
        let* nodes := flush_text nodes text_start (tag_start tag) in
        let* expr := typed tag in
        let* s := get in
        loop expected_closer (pos s) (nodes ++ [expr])
    | None =>
    let* origin_checkpoint := origin_count in
    let* call := if inside then call_ else ret None in
    match call with
    | Some call =>
        let* nodes := flush_text_before_recorded nodes text_start (pos s) origin_checkpoint in
        let* s := get in
        loop expected_closer (pos s) (nodes ++ [call])
    | None =>
        advance_one_byte ;;*
        loop expected_closer text_start nodes
    end
    end
    end
    end
    end
    end
  else
    match expected_closer with
    | Some tag => fail (UnclosedExpression (line s) (tag_raw tag))
    | None => flush_text nodes text_start (pos s)
    end.

Definition parse_typed_expr_step
    (loop : option Tag → nat → list ONode → P (list ONode))
    (tag : Tag) : P ONode :=
  let* origin := begin_origin (tag_start tag) in
  let owns := owns_quoted_syntax (tag_lang tag) in
  (if owns then modify (λ s, set_depth (S (origin_suppression_depth s)) s) else ret tt) ;;*
  let* s := get in
  let* body := λ s0,
    match loop (Some tag) (pos s) [] s0 with
    | (s1, r) => (if owns then set_depth (origin_suppression_depth s1 - 1) s1 else s1, r)
    end in
  let* s := get in
  finish_origin origin (pos s) ;;*
  ret (TypedExpr (tag_lang tag) (tag_env_id tag) (tag_attr tag) body).

Definition try_parse_let_binding_step
    (typed : Tag → P ONode) (call_ : P (option ONode)) : P (option ONode) :=
  let* s := get in
  let original_pos := pos s in
  let* is_let := starts_with_let_keyword in
  if negb is_let then ret None
  else
    advance_bytes 3 ;;*
    skip_horizontal_whitespace ;;*
    let* name := parse_identifier in
    match name with
    | None => modify (set_pos original_pos) ;;* ret None
    | Some name =>
        skip_horizontal_whitespace ;;*
        let* b := current_byte in
        if negb (bool_decide (b = Some 61)) then modify (set_pos original_pos) ;;* ret None
        else
          advance_one_byte ;;*
          let* origin := begin_origin original_pos in
          skip_whitespace ;;*
          let* call := call_ in
          match call with
          | Some call =>
              let* s := get in
              finish_origin origin (pos s) ;;*
              ret (Some (LetBinding name call))
          | None =>
              let* tag := try_parse_opener in
              match tag with
              | None => let* s := get in fail (LetNeedsExpression (line s) name)
              | Some tag =>
                  let* expr := typed tag in
                  let* s := get in
                  finish_origin origin (pos s) ;;*
                  ret (Some (LetBinding name expr))
              end
          end
    end.

Definition try_parse_call_step
    (args_ : str → list ONode → P (list ONode)) : P (option ONode) :=
  let* s := get in
  let original_pos := pos s in
  let original_line := line s in
  let* name := parse_identifier in
  match name with
  | None => ret None
  | Some name =>
      let* b := current_byte in
      if is_registered_syntax_tag name || negb (bool_decide (b = Some 40)) then
        modify (λ s, set_line original_line (set_pos original_pos s)) ;;* ret None
      else
        let* origin := begin_origin original_pos in
        advance_one_byte ;;*
        skip_call_trivia ;;*
        let* args := args_ name [] in
        (if bool_decide (name = NATIVE_LEAF_BUILTIN) && negb (valid_descriptor args)
         then let* s := get in fail (NativeLeafDescriptor (line s)) else ret tt) ;;*
        let* s := get in
        finish_origin origin (pos s) ;;*
        ret (Some (Call name args))
  end.

(** One iteration of the loop over the arguments of a call. *)
Definition parse_args_step
    (args_ : str → list ONode → P (list ONode))
    (typed : Tag → P ONode) (call_ : P (option ONode))
    (name : str) (args : list ONode) : P (list ONode) :=
  let* b := current_byte in
  if bool_decide (b = Some 41) then advance_one_byte ;;* ret args
  else
    let* arg :=
      if bool_decide (b = Some 36) then
        let* s := get in
        let start := pos s in
        let* var := try_parse_var_ref in
        match var with
        | None => let* s := get in fail (ExpectedVariable (line s))
        | Some var =>
            let* s := get in
            record_origin start (pos s) ;;* ret (VarRef var)
        end
      else
        let* nested := call_ in
        match nested with
        | Some nested => ret nested
        | None =>
            let* tag := try_parse_opener in
            match tag with
            | Some tag => typed tag
            | None => let* s := get in fail (ExpectedArgument (line s) name)
            end
        end in
    let args := args ++ [arg] in
    skip_call_trivia ;;*
    let* b := current_byte in
    if bool_decide (b = Some 44) then
      advance_one_byte ;;* skip_call_trivia ;;* args_ name args
    else if bool_decide (b = Some 41) then advance_one_byte ;;* ret args
    else let* s := get in fail (ExpectedCommaOrParen (line s) name).

Fixpoint parse_loop (fuel : nat) (expected_closer : option Tag) (text_start : nat) (nodes : list ONode) :
    P (list ONode) :=
  match fuel with
  | O => no_fuel
  | S fuel =>
      parse_loop_step (parse_loop fuel) (parse_typed_expr fuel) (try_parse_let_binding fuel)
        (try_parse_call fuel) expected_closer text_start nodes
  end
with parse_typed_expr (fuel : nat) (tag : Tag) : P ONode :=
  match fuel with
  | O => no_fuel
  | S fuel => parse_typed_expr_step (parse_loop fuel) tag
  end
with try_parse_let_binding (fuel : nat) : P (option ONode) :=
  match fuel with
  | O => no_fuel
  | S fuel => try_parse_let_binding_step (parse_typed_expr fuel) (try_parse_call fuel)
  end
with try_parse_call (fuel : nat) : P (option ONode) :=
  match fuel with
  | O => no_fuel
  | S fuel => try_parse_call_step (parse_args fuel)
  end
with parse_args (fuel : nat) (name : str) (args : list ONode) : P (list ONode) :=
  match fuel with
  | O => no_fuel
  | S fuel =>
      parse_args_step (parse_args fuel) (parse_typed_expr fuel) (try_parse_call fuel) name args
  end.

(** Enough fuel for every source: the rank of [parse_until] at offset 0. *)
Definition parse_fuel : nat := (3 * length source + 2)%nat.

Definition parse_until (expected_closer : option Tag) : P (list ONode) :=
  let* s := get in parse_loop parse_fuel expected_closer (pos s) [].

Definition reset_recording (starts : option (list nat)) (origins : option (list SourceSpanV1)) (s : PState) :
    PState :=
  {| pos := pos s; line := line s; line_starts := starts; plan_origins := origins;
     origin_suppression_depth := origin_suppression_depth s |}.

Definition parse : P (list ONode) :=
  modify (reset_recording None None) ;;* parse_until None.

(** [vec![0]] and the index after every newline. *)
Definition line_start_table : list nat :=
  0%nat :: omap (λ p : nat * Z, if p.2 =? 10 then Some (S p.1) else None) (imap pair source).

Definition parse_with_origins (sha256 : str → str) : P ParsedDocumentV1 :=
  modify (λ s, set_depth 0 (reset_recording (Some line_start_table) (Some []) s)) ;;*
  let* nodes := parse_until None in
  let* s := get in
  modify (set_origins None) ;;*
  match plan_origins s with
  | None => panic
  | Some origins =>
      ret {| doc_nodes := nodes; doc_plan_origins := origins; doc_source_sha256 := sha256 source;
             doc_source_len := length source |}
  end.

(** The cursor as a diagnostic position. *)
Definition diagnostic_position (s : PState) : SourceSpanV1 :=
  let byte := back_to_boundary source (pos s `min` length source) in
  let prefix := take byte source in
  let line_no := S (length (filter (λ b, b = 10) prefix)) in
  let line_start := match last_newline prefix with Some i => S i | None => 0%nat end in
  let column := S (chars_count (slice source line_start byte)) in
  {| start_byte := byte; end_byte := byte; start_line := line_no; start_column := column;
     end_line := line_no; end_column := column |}.
End Parser.
