(* ===== verification/ParserFacts.v ===== *)
(** * Invariants of the parser

    The cursor stays on a character boundary, recorded spans are in range, and the
    spans recorded for a list of nodes are those of its tree in source preorder
    ([origin_of], [origins_of]).  The lemmas are total-correctness statements
    ([wp]): they also show that the production neither panics nor runs out of
    fuel. *)

From S2P Require Import Prelude.
From S2P Require Import Utf8.
From S2P Require Import Environment.
From S2P Require Import BackendCatalog.
From S2P Require Import Syntax.
From S2P Require Import BashScan.
From S2P Require Import Parser.
From stdpp Require Import options.

#[local] Open Scope nat_scope.

(** ** The table of line starts *)

Lemma sorted_prefix (l : list nat) (byte i x : nat) :
  StronglySorted lt l → i < length (filter (λ x, x ≤ byte) l) → l !! i = Some x → x ≤ byte.
Proof.
  intros Hs. revert i. induction Hs as [|y l Hs IH Hy]; intros i Hi Hx; [done|].
  rewrite filter_cons in Hi. case_decide as Hd.
  - destruct i as [|i]; simpl in *; [by simplify_eq|]. apply (IH i); [lia|done].
  - exfalso. assert (Hnil : filter (λ x, x ≤ byte) l = []).
    { destruct (filter (λ x, x ≤ byte) l) as [|z zs] eqn:E; [done|].
      assert (Hz : z ∈ filter (λ x, x ≤ byte) l) by (rewrite E; apply list_elem_of_here).
      apply list_elem_of_filter in Hz as [Hz Hin]. rewrite Forall_forall in Hy. apply Hy in Hin. lia. }
    rewrite Hnil in Hi. simpl in Hi. lia.
Qed.

Lemma newline_starts_spec (s : str) (k : nat) :
  let l := omap (λ p : nat * Z, if (p.2 =? 10)%Z then Some (S p.1) else None) (imap (λ i b, (k + i, b)) s) in
  StronglySorted lt l ∧ ∀ x, x ∈ l → k < x ∧ s !! (x - S k) = Some 10%Z.
Proof.
  revert k. induction s as [|b s IH]; intros k; cbn zeta.
  { split; [constructor|]. by intros x ?%elem_of_nil. }
  rewrite imap_cons. erewrite (imap_ext _ (λ i b, (S k + i, b)) s) by (intros; simpl; f_equal; lia).
  destruct (IH (S k)) as [Hs Hm]. cbn [omap list_omap snd fst].
  assert (Hlater : ∀ x, x ∈ omap (λ p : nat * Z, if (p.2 =? 10)%Z then Some (S p.1) else None)
      (imap (λ i b, (S k + i, b)) s) → S k < x ∧ (b :: s) !! (x - S k) = Some 10%Z).
  { intros x [Hlt Hx]%Hm. split; [done|]. by replace (x - S k) with (S (x - S (S k))) by lia. }
  destruct (Z.eqb_spec b 10) as [->|]; simpl.
  - split.
    + constructor; [done|]. apply Forall_forall. intros x [Hx _]%Hlater. lia.
    + intros x. rewrite elem_of_cons. intros [->|[? ?]%Hlater]; [|split; [lia|done]].
      split; [lia|]. by rewrite Nat.add_0_r, Nat.sub_diag.
  - split; [done|]. intros x [? ?]%Hlater. split; [lia|done].
Qed.

(** ** Ranges of the source *)

Lemma slice_split (s : str) i j k : i ≤ j → j ≤ k → slice s i k = slice s i j ++ slice s j k.
Proof.
  intros Hij Hjk. unfold slice. replace (k - i) with ((j - i) + (k - j)) by lia.
  rewrite <-take_take_drop, drop_drop. do 3 f_equal. lia.
Qed.

Lemma slice_one (s : str) i b : s !! i = Some b → slice s i (S i) = [b].
Proof.
  intros Hb. unfold slice. rewrite (drop_S _ _ _ Hb). by replace (S i - i) with 1 by lia.
Qed.

Lemma slice_not_nil (s : str) i j : i < j → j ≤ length s → slice s i j ≠ [].
Proof. intros Hlt Hle E. apply (f_equal length) in E. unfold slice in E. rewrite length_take, length_drop in E. simpl in E. lia. Qed.

(** ** Origins of a syntax tree *)

Section Origins.
Context (source : str) {dialect : SyntaxDialect}.

(** The source text of a node: the whole reference, block or call, a binding from
    its keyword on, and for text the bytes it is made of, possibly with backslashes
    and comments between them. *)
Definition spells (n : ONode) (text : str) : Prop :=
  match n with
  | RawText t => t ≠ [] ∧ t `sublist_of` text
  | VarRef name => text = lit "$" ++ name
  | LetBinding name _ => ∃ gap rest, text = lit "let" ++ gap ++ name ++ rest
  | TypedExpr lang _ _ _ => ∃ tag name slots inner,
      tag = name ++ slots ∧ canonical_syntax_name name = lang ∧
      text = tag ++ lit "^(" ++ inner ++ lit ")_" ++ tag
  | Call fn_name _ => ∃ inner, text = fn_name ++ lit "(" ++ inner ++ lit ")"
  end.

Definition span_text (o : SourceSpanV1) : str := slice source (start_byte o) (end_byte o).

(** Children with origins of their own: none below a block that captures its body. *)
Definition recorded_children (n : ONode) : list ONode :=
  match n with
  | RawText _ | VarRef _ => []
  | LetBinding _ expr => [expr]
  | TypedExpr lang _ _ body => if owns_quoted_syntax lang then [] else body
  | Call _ args => args
  end.

(** The spans of a tree in source preorder: a node's own span first, then the spans
    of its children, which lie inside it after its first byte, follow each other and
    do not overlap.  The node occupies [a..b], the list of nodes lies in [lo..hi]. *)
Inductive origin_of : ONode → nat → nat → list SourceSpanV1 → Prop :=
| origin_node n o os :
    spells n (span_text o) → start_byte o < end_byte o →
    origins_of (recorded_children n) (S (start_byte o)) (end_byte o) os →
    origin_of n (start_byte o) (end_byte o) (o :: os)
with origins_of : list ONode → nat → nat → list SourceSpanV1 → Prop :=
| origins_nil lo hi : lo ≤ hi → origins_of [] lo hi []
| origins_cons n ns lo a b hi os os' :
    lo ≤ a → origin_of n a b os → origins_of ns b hi os' → origins_of (n :: ns) lo hi (os ++ os').

Lemma origin_of_range n a b os : origin_of n a b os → a < b.
Proof. by destruct 1. Qed.

Lemma origins_of_range ns lo hi os : origins_of ns lo hi os → lo ≤ hi.
Proof.
  revert lo os. induction ns as [|n ns IH]; intros lo os; inversion_clear 1; [done|].
  match goal with H : origin_of _ _ _ _ |- _ => apply origin_of_range in H end.
  match goal with H : origins_of ns _ _ _ |- _ => apply IH in H end. lia.
Qed.

Lemma origins_of_mono ns lo lo' hi hi' os :
  lo' ≤ lo → hi ≤ hi' → origins_of ns lo hi os → origins_of ns lo' hi' os.
Proof.
  intros Hlo Hhi. revert lo lo' os Hlo.
  induction ns as [|n ns IH]; intros lo lo' os Hlo; inversion_clear 1; [constructor; lia|].
  econstructor; [etrans; eassumption|eassumption|by eapply IH].
Qed.

Lemma origins_of_snoc ns n lo a b hi os os' :
  origins_of ns lo a os → origin_of n a b os' → b ≤ hi → origins_of (ns ++ [n]) lo hi (os ++ os').
Proof.
  revert lo os. induction ns as [|m ns IH]; intros lo os Hns Hn Hle; inversion_clear Hns.
  - rewrite <-(app_nil_r os'). simpl. econstructor; [eassumption|eassumption|by constructor].
  - rewrite <-app_assoc. simpl. econstructor; [eassumption|eassumption|by apply IH].
Qed.

(** A list that ends in text ends in the span of that text. *)
Lemma origins_of_text ns t lo hi os :
  origins_of (ns ++ [RawText t]) lo hi os →
  ∃ os' o, os = os' ++ [o] ∧ origins_of ns lo (start_byte o) os' ∧ spells (RawText t) (span_text o) ∧
    start_byte o < end_byte o ∧ end_byte o ≤ hi.
Proof.
  revert lo os. induction ns as [|m ns IH]; intros lo os Hns; inversion Hns as [|? ? ? a b ? os1 os2 Hlo Hm Hr]; subst.
  - inversion Hm as [? o os3 Hs Hlt Hc]; subst. inversion Hc; subst. inversion Hr; subst.
    exists [], o. split_and!; [done|by constructor|done|done|done].
  - destruct (IH _ _ Hr) as (os' & o & -> & Hns' & Hs & Hlt & Hle). exists (os1 ++ os'), o.
    split_and!; [by rewrite app_assoc|by econstructor|done|done|done].
Qed.
End Origins.

(** ** Recording state *)

(** From [s] to [s'], origins with the property [R] are appended when they are
    recorded at all, and the rest of the recording state is kept. *)
Definition grew (R : list SourceSpanV1 → Prop) (s s' : PState) : Prop :=
  origin_suppression_depth s' = origin_suppression_depth s ∧ line_starts s' = line_starts s ∧
  match recording s with
  | None => plan_origins s' = plan_origins s
  | Some o => ∃ os, plan_origins s' = Some (o ++ os) ∧ R os
  end.

(** [s'] is [s] with another cursor and line. *)
Definition moved (s s' : PState) : Prop :=
  plan_origins s' = plan_origins s ∧ line_starts s' = line_starts s ∧
  origin_suppression_depth s' = origin_suppression_depth s.

Lemma moved_refl s : moved s s.
Proof. done. Qed.

Lemma moved_trans s1 s2 s3 : moved s1 s2 → moved s2 s3 → moved s1 s3.
Proof. unfold moved. intuition congruence. Qed.

Lemma moved_recording s s' : moved s s' → recording s' = recording s.
Proof. unfold recording. by intros (-> & _ & ->). Qed.

Lemma recording_Some s o : recording s = Some o → origin_suppression_depth s = 0 ∧ plan_origins s = Some o.
Proof. unfold recording. case_bool_decide; [done|by intros [=]]. Qed.

Lemma recording_intro s o : origin_suppression_depth s = 0 → plan_origins s = Some o → recording s = Some o.
Proof. intros Hd Ho. unfold recording. by rewrite bool_decide_eq_true_2. Qed.

Lemma recording_None s R : recording s = None → grew R s s.
Proof. intros Hr. split_and!; [done|done|]. by rewrite Hr. Qed.

(** Recording goes on with the longer inventory, or stays off. *)
Lemma grew_recording R s s' :
  grew R s s' →
  match recording s with
  | None => recording s' = None
  | Some o => ∃ os, recording s' = Some (o ++ os) ∧ R os
  end.
Proof.
  intros (Hd & _ & Hg). destruct (recording s) as [o|] eqn:Hr.
  - destruct Hg as (os & Ho & HR). exists os. split; [|done]. apply recording_Some in Hr as [Hz _].
    apply recording_intro; [congruence|done].
  - revert Hr. unfold recording. by rewrite Hd, Hg.
Qed.

Lemma moved_grew (R : list SourceSpanV1 → Prop) s s' : R [] → moved s s' → grew R s s'.
Proof.
  intros HR (Ho & Hl & Hd). split_and!; [done|done|]. destruct (recording s) as [o|] eqn:Hr; [|done].
  exists []. apply recording_Some in Hr as [_ Hr]. rewrite app_nil_r. split; [congruence|done].
Qed.

Lemma grew_trans (R1 R2 R : list SourceSpanV1 → Prop) s1 s2 s3 :
  grew R1 s1 s2 → grew R2 s2 s3 → (∀ os1 os2, R1 os1 → R2 os2 → R (os1 ++ os2)) → grew R s1 s3.
Proof.
  intros H1 (Hd2 & Hl2 & H2) HR. pose proof (grew_recording _ _ _ H1) as Hr. destruct H1 as (Hd1 & Hl1 & H1).
  split_and!; [congruence|congruence|]. destruct (recording s1) as [o|].
  - destruct Hr as (os1 & Hr & HR1). rewrite Hr in H2. destruct H2 as (os2 & -> & HR2).
    exists (os1 ++ os2). rewrite app_assoc. auto.
  - rewrite Hr in H2. congruence.
Qed.

Lemma grew_mono (R R' : list SourceSpanV1 → Prop) s s' : (∀ os, R os → R' os) → grew R s s' → grew R' s s'.
Proof.
  intros HR (Hd & Hl & Hg). split_and!; [done|done|]. destruct (recording s); [|done].
  destruct Hg as (os & Ho & Hos). eauto.
Qed.

Lemma grew_moved R s1 s2 s3 : grew R s1 s2 → moved s2 s3 → grew R s1 s3.
Proof.
  intros (Hd & Hl & Hg) (Ho & Hl' & Hd'). split_and!; [congruence|congruence|].
  destruct (recording s1); [|congruence]. rewrite Ho. done.
Qed.

Lemma moved_then_grew R s1 s2 s3 : moved s1 s2 → grew R s2 s3 → grew R s1 s3.
Proof.
  intros Hm (Hd & Hl & Hg). rewrite (moved_recording _ _ Hm) in Hg. destruct Hm as (Ho & Hl' & Hd').
  split_and!; [congruence|congruence|]. destruct (recording s1); [done|congruence].
Qed.

(** The state after one span was appended to the inventory. *)
Lemma append_grew (R : list SourceSpanV1 → Prop) s o os :
  recording s = Some o → R os → grew R s (set_origins (Some (o ++ os)) s).
Proof. intros Hr HR. split_and!; [done|done|]. rewrite Hr. eauto. Qed.

(** The span of a node and those of its children are its origins. *)
Lemma node_origins source `{SyntaxDialect} n start end_ lo hi s s' :
  spells n (slice source start end_) → start < lo → hi ≤ end_ →
  grew (λ os, ∃ o os', os = o :: os' ∧ start_byte o = start ∧ end_byte o = end_ ∧
    origins_of source (recorded_children n) lo hi os') s s' →
  grew (origin_of source n start end_) s s'.
Proof.
  intros Hs Hlo Hhi. apply grew_mono. intros os (o & os' & -> & <- & <- & Hos).
  pose proof (origins_of_range _ _ _ _ _ Hos). apply origin_node; [done|lia|].
  eapply origins_of_mono; [|exact Hhi|exact Hos]. lia.
Qed.

Lemma snoc_origins source `{SyntaxDialect} ns n lo a b hi r s s' :
  grew (origins_of source ns lo a) r s → grew (origin_of source n a b) s s' → b ≤ hi →
  grew (origins_of source (ns ++ [n]) lo hi) r s'.
Proof.
  intros H1 H2 Hle. eapply grew_trans; [exact H1|exact H2|]. intros os1 os2 Ho1 Ho2. by eapply origins_of_snoc.
Qed.

Lemma wider_origins source `{SyntaxDialect} ns lo hi hi' r s :
  hi ≤ hi' → grew (origins_of source ns lo hi) r s → grew (origins_of source ns lo hi') r s.
Proof. intros Hle. apply grew_mono. intros os. by apply origins_of_mono. Qed.

(** Nothing was parsed yet. *)
Lemma no_origins source `{SyntaxDialect} lo s s' : moved s s' → grew (origins_of source [] lo lo) s s'.
Proof. apply moved_grew. by constructor. Qed.

(** From [s] to [s'], the origin of a node at [start] was opened at index [idx]. *)
Definition begun (start : nat) (idx : option nat) (s s' : PState) : Prop :=
  origin_suppression_depth s' = origin_suppression_depth s ∧ line_starts s' = line_starts s ∧
  match recording s with
  | None => idx = None ∧ plan_origins s' = plan_origins s
  | Some o => idx = Some (length o) ∧ ∃ x, start_byte x = start ∧ plan_origins s' = Some (o ++ [x])
  end.

Section Invariants.
Context (source : str) (Hvalid : utf8_valid source = true).
#[local] Set Default Proof Using "Hvalid".

Abbreviation boundary i := (is_boundary source i = true).

Lemma line_start_table_spec :
  StronglySorted lt (line_start_table source) ∧
  ∀ i x, line_start_table source !! i = Some x → boundary x.
Proof.
  unfold line_start_table. destruct (newline_starts_spec source 0) as [Hs Hm].
  change (imap pair source) with (imap (λ i b, (0 + i, b)) source). split.
  - constructor; [done|]. apply Forall_forall. intros x Hx%Hm. lia.
  - intros [|i] x; simpl; [intros [= <-]; by apply is_boundary_0|].
    intros Hx%list_elem_of_lookup_2. apply Hm in Hx as [Hlt Hx].
    replace x with (S (x - 1)) by lia. by eapply boundary_after_ascii; [|done|].
Qed.

(** A recorded span: started at or before [limit], ordered, on boundaries. *)
Definition span_ok (limit : nat) (o : SourceSpanV1) : Prop :=
  start_byte o ≤ limit ∧ start_byte o ≤ end_byte o ∧ boundary (start_byte o) ∧ boundary (end_byte o).

Record PInv (s : PState) : Prop := {
  inv_pos : boundary (pos s);
  inv_origins : ∀ o, plan_origins s = Some o →
    line_starts s = Some (line_start_table source) ∧ Forall (span_ok (pos s)) o;
}.

(** ** Cursor moves *)

Lemma span_ok_mono l l' o : l ≤ l' → span_ok l o → span_ok l' o.
Proof. unfold span_ok. intuition lia. Qed.

Lemma moved_inv s s' : PInv s → moved s s' → pos s ≤ pos s' → boundary (pos s') → PInv s'.
Proof.
  intros [Hp Ho] (Heq & Hl & _) Hle Hb. constructor; [done|]. intros o. rewrite Heq, Hl.
  intros Hs%Ho. destruct Hs as [? Hf]. split; [done|].
  eapply Forall_impl; [exact Hf|]. intros x. by apply span_ok_mono.
Qed.

Lemma wp_slice i j (Q : str → PState → Prop) R s :
  i ≤ j → boundary i → boundary j → Q (slice source i j) s → wp (slice_source source i j) Q R s.
Proof.
  intros Hij Hi Hj HQ. unfold slice_source.
  rewrite (proj2 (Nat.leb_le i j)), (proj2 (Nat.leb_le j (length source))), Hi, Hj;
    [by apply wp_ret|by apply is_boundary_le|done].
Qed.

Lemma wp_advance_one (Q : unit → PState → Prop) R s :
  PInv s →
  (∀ s', PInv s' → moved s s' → pos s ≤ pos s' → (pos s < length source → pos s < pos s') →
    (∀ b, source !! pos s = Some b → (0 ≤ b < 128)%Z → pos s' = S (pos s)) → Q tt s') →
  wp (advance_one_byte source) Q R s.
Proof.
  intros Hinv HQ. unfold advance_one_byte. apply wp_bind, wp_get.
  destruct (Nat.leb_spec (length source) (pos s)) as [Hge|Hlt].
  { apply wp_ret, HQ; [done|done|done|lia|]. intros b Hb%lookup_lt_Some. lia. }
  rewrite (inv_pos _ Hinv). cbn [negb]. unfold byte_at.
  destruct (lookup_lt_is_Some_2 source (pos s) Hlt) as [b Hb]. rewrite Hb. apply wp_modify.
  destruct (boundary_next source (pos s) b Hvalid (inv_pos _ Hinv) Hb) as [Hn Hw].
  set (s' := set_pos _ _).
  assert (Hpos : pos s' = pos s + lead_len b) by (unfold s'; by destruct (b =? 10)%Z).
  assert (Hm : moved s s') by (unfold s'; by destruct (b =? 10)%Z).
  apply HQ; [eapply moved_inv; [done|done|lia|by rewrite Hpos]|done|lia|lia|].
  intros b' Hb1 Hb'. assert (b' = b) as -> by congruence. rewrite Hpos. unfold lead_len. rewrite (proj2 (Z.ltb_lt b 128)) by lia. lia.
Qed.

Lemma wp_skip_while p fuel (Q : unit → PState → Prop) R s :
  PInv s → length source - pos s ≤ fuel →
  (∀ s', PInv s' → moved s s' → pos s ≤ pos s' → Q tt s') →
  wp (skip_while source p fuel) Q R s.
Proof.
  revert s. induction fuel as [|fuel IH]; intros s Hinv Hf HQ; cbn [skip_while]; apply wp_bind, wp_get;
    unfold byte_at; destruct (source !! pos s) as [b|] eqn:Hb; try (apply wp_ret, HQ; done);
    destruct (p b); try (apply wp_ret, HQ; done); pose proof (lookup_lt_Some _ _ _ Hb); [lia|].
  apply wp_bind, wp_advance_one; [done|]. intros s1 Hi1 Hm1 Hle1 Hlt1 _.
  apply IH; [done|lia|]. intros s2 Hi2 Hm2 Hle2. apply HQ; [done|by eapply moved_trans|lia].
Qed.

Lemma wp_skip_horizontal (Q : unit → PState → Prop) R s :
  PInv s → (∀ s', PInv s' → moved s s' → pos s ≤ pos s' → Q tt s') → wp (skip_horizontal_whitespace source) Q R s.
Proof. intros. apply wp_skip_while; [done|lia|done]. Qed.

Lemma wp_skip_whitespace (Q : unit → PState → Prop) R s :
  PInv s → (∀ s', PInv s' → moved s s' → pos s ≤ pos s' → Q tt s') → wp (skip_whitespace source) Q R s.
Proof. intros. apply wp_skip_while; [done|lia|done]. Qed.

Lemma wp_skip_line_loop fuel (Q : unit → PState → Prop) R s :
  PInv s → length source - pos s ≤ fuel →
  (∀ s', PInv s' → moved s s' → pos s ≤ pos s' → (pos s < length source → pos s < pos s') → Q tt s') →
  wp (skip_line_loop source fuel) Q R s.
Proof.
  intros Hinv. revert s Hinv Q.
  induction fuel as [|fuel IH]; intros s Hinv Q Hf HQ; cbn [skip_line_loop]; apply wp_bind, wp_get;
    (destruct (Nat.ltb_spec (pos s) (length source)) as [Hlt|Hge]; [|apply wp_ret, HQ; [done|done|done|lia]]); [lia|].
  unfold byte_at. destruct (lookup_lt_is_Some_2 source (pos s) Hlt) as [b ->].
  apply wp_bind, wp_advance_one; [done|]. intros s1 Hi1 Hm1 Hle1 Hlt1 _. specialize (Hlt1 Hlt).
  destruct (b =? 10)%Z; [apply wp_ret, HQ; [done|done|lia|lia]|].
  apply IH; [done|lia|]. intros s2 Hi2 Hm2 Hle2 _. apply HQ; [done|by eapply moved_trans|lia|lia].
Qed.

Lemma wp_skip_line (Q : unit → PState → Prop) R s :
  PInv s →
  (∀ s', PInv s' → moved s s' → pos s ≤ pos s' → (pos s < length source → pos s < pos s') → Q tt s') →
  wp (skip_to_end_of_line source) Q R s.
Proof. intros. apply wp_skip_line_loop; [done|lia|done]. Qed.

Lemma wp_skip_trivia_loop fuel (Q : unit → PState → Prop) R s :
  PInv s → length source - pos s ≤ fuel →
  (∀ s', PInv s' → moved s s' → pos s ≤ pos s' → Q tt s') → wp (skip_trivia_loop source fuel) Q R s.
Proof.
  intros Hinv. revert s Hinv Q.
  induction fuel as [|fuel IH]; intros s Hinv Q Hf HQ; cbn [skip_trivia_loop];
    apply wp_bind, wp_skip_whitespace; try done; intros s1 Hi1 Hm1 Hle1;
    unfold current_byte; apply wp_bind, wp_bind, wp_get, wp_ret; unfold byte_at; case_bool_decide as Hb;
    try (apply wp_ret, HQ; done); apply lookup_lt_Some in Hb; [lia|].
  apply wp_bind, wp_skip_line; [done|]. intros s2 Hi2 Hm2 Hle2 Hlt2. specialize (Hlt2 Hb).
  apply IH; [done|lia|]. intros s3 Hi3 Hm3 Hle3. apply HQ; [done| |lia].
  eapply moved_trans; [|done]. by eapply moved_trans.
Qed.

Lemma wp_skip_trivia (Q : unit → PState → Prop) R s :
  PInv s → (∀ s', PInv s' → moved s s' → pos s ≤ pos s' → Q tt s') → wp (skip_call_trivia source) Q R s.
Proof. intros. apply wp_skip_trivia_loop; [done|lia|done]. Qed.

(** ** Origins *)

Lemma wp_source_position byte (Q : nat * nat * nat → PState → Prop) R s :
  line_starts s = Some (line_start_table source) → boundary byte →
  (∀ l c, Q (byte, l, c) s) → wp (source_position source byte) Q R s.
Proof.
  intros Hl Hb HQ. unfold source_position. apply wp_bind, wp_get. rewrite Hl.
  destruct line_start_table_spec as [Hsort Hbound]. set (table := line_start_table source) in *.
  set (k := length (filter (λ x, x ≤ byte) table)).
  assert (Hk : 0 < k ≤ length table).
  { split; [|apply length_filter]. unfold k, table, line_start_table. rewrite filter_cons_True by lia. simpl. lia. }
  destruct (lookup_lt_is_Some_2 table (Nat.pred k)) as [x Hx]; [lia|]. rewrite Hx.
  apply wp_bind, wp_slice; [|by eapply Hbound|done|by apply wp_ret, HQ].
  eapply sorted_prefix; [done| |exact Hx]. fold k. lia.
Qed.

Lemma wp_source_span start end_ (Q : SourceSpanV1 → PState → Prop) R s :
  line_starts s = Some (line_start_table source) → boundary start → boundary end_ →
  (∀ o, start_byte o = start → end_byte o = end_ → Q o s) → wp (source_span source start end_) Q R s.
Proof.
  intros Hl Hs He HQ. unfold source_span.
  apply wp_bind, wp_source_position; [done|done|]. intros l c.
  apply wp_bind, wp_source_position; [done|done|]. intros l' c'. by apply wp_ret, HQ.
Qed.

Lemma set_origins_inv s o' :
  PInv s → (∃ o, plan_origins s = Some o) → Forall (span_ok (pos s)) o' → PInv (set_origins (Some o') s).
Proof.
  intros [Hp Ho] [o Hs] Hf. constructor; [done|]. simpl. intros o'' [= <-].
  destruct (Ho o Hs) as [Hl _]. done.
Qed.

Lemma wp_begin_origin start (Q : option nat → PState → Prop) R s :
  PInv s → boundary start → start ≤ pos s →
  (∀ idx s', PInv s' → begun start idx s s' → pos s' = pos s → Q idx s') →
  wp (begin_origin source start) Q R s.
Proof.
  intros Hinv Hb Hle HQ. unfold begin_origin. apply wp_bind, wp_get.
  destruct (recording s) as [o|] eqn:Hr; [|apply wp_ret, HQ; [done|by unfold begun; rewrite Hr|done]].
  destruct (recording_Some _ _ Hr) as [_ Ho]. destruct (inv_origins _ Hinv o Ho) as [Hl Hf].
  apply wp_bind, wp_source_span; [done|done|done|]. intros span Hs He.
  apply wp_bind, wp_modify, wp_ret, HQ; [| |done].
  - apply set_origins_inv; [done|eauto|]. apply Forall_app. split; [done|]. apply Forall_singleton.
    split_and!; [lia|lia|by rewrite Hs|by rewrite He].
  - split_and!; [done|done|]. rewrite Hr. eauto.
Qed.

Lemma move_end_ok limit e l c o : span_ok limit o → limit ≤ e → boundary e → span_ok limit (move_end e l c o).
Proof. intros (H1 & H2 & H3 & H4) Hle He. split_and!; simpl; [done|lia|done|done]. Qed.

(** Closing the origin opened from [s0] to [s1] after its children were recorded. *)
Lemma wp_finish_origin idx start end_ (Rc : list SourceSpanV1 → Prop) (Q : unit → PState → Prop) R s0 s1 s :
  PInv s → begun start idx s0 s1 → grew Rc s1 s → boundary end_ → pos s ≤ end_ →
  (∀ s', PInv s' → pos s' = pos s →
     grew (λ os, ∃ o os', os = o :: os' ∧ start_byte o = start ∧ end_byte o = end_ ∧ Rc os') s0 s' → Q tt s') →
  wp (finish_origin source idx end_) Q R s.
Proof.
  intros Hinv (Hd0 & Hl0 & H0) Hg Hb Hle HQ. pose proof (grew_recording _ _ _ Hg) as Hr1. destruct Hg as (Hd1 & Hl1 & H1).
  destruct (recording s0) as [o|] eqn:Hr0.
  - destruct H0 as (-> & x & Hx & Ho1). destruct (recording_Some _ _ Hr0) as [Hz _].
    assert (Hrec : recording s1 = Some (o ++ [x])) by (apply recording_intro; [congruence|done]).
    rewrite Hrec in Hr1, H1. destruct H1 as (os & Ho & HR). destruct (inv_origins _ Hinv _ Ho) as [Hl Hf].
    unfold finish_origin. apply wp_bind, wp_source_position; [done|done|]. intros l c. apply wp_bind, wp_get. rewrite Ho.
    rewrite <-app_assoc in Hf |- *. cbn [app] in Hf |- *. rewrite list_lookup_middle by done.
    apply wp_modify, HQ; [|done|].
    + apply set_origins_inv; [done|eauto|]. apply Forall_insert; [done|].
      rewrite Forall_app, Forall_cons in Hf. apply move_end_ok; [by apply Hf|done|done].
    + split_and!; [simpl; congruence|simpl; congruence|]. rewrite Hr0.
      exists (move_end end_ l c x :: os). simpl. rewrite insert_app_r_alt, Nat.sub_diag by done. eauto 10.
  - destruct H0 as [-> Ho1]. apply wp_ret, HQ; [done|done|]. split_and!; [congruence|congruence|].
    rewrite Hr0. assert (Hrec : recording s1 = None) by (revert Hr0; unfold recording; by rewrite Hd0, Ho1).
    rewrite Hrec in H1. congruence.
Qed.

Lemma wp_record_origin start end_ (Q : unit → PState → Prop) R s :
  PInv s → boundary start → boundary end_ → start ≤ pos s → start ≤ end_ →
  (∀ s', PInv s' → grew (λ os, ∃ o, os = [o] ∧ start_byte o = start ∧ end_byte o = end_) s s' →
     pos s' = pos s → Q tt s') →
  wp (record_origin source start end_) Q R s.
Proof.
  intros Hinv Hs He Hle Hlt HQ. unfold record_origin. apply wp_bind, wp_get.
  destruct (recording s) as [o|] eqn:Hr; [|apply wp_ret, HQ; [done|by apply recording_None|done]].
  destruct (recording_Some _ _ Hr) as [_ Ho]. destruct (inv_origins _ Hinv o Ho) as [Hl Hf].
  apply wp_bind, wp_source_span; [done|done|done|]. intros span Hs' He'.
  apply wp_modify, HQ; [|apply append_grew; eauto|done].
  apply set_origins_inv; [done|eauto|]. apply Forall_app. split; [done|]. apply Forall_singleton.
  split_and!; [lia|lia|by rewrite Hs'|by rewrite He'].
Qed.

(** The last span is extended: it belongs to what [r] recorded. *)
Lemma wp_extend_last end_ (R1 R2 : list SourceSpanV1 → Prop) (Q : unit → PState → Prop) R r s :
  PInv s → boundary end_ → pos s ≤ end_ → grew R1 r s →
  (∀ os, R1 os → ∃ os' o, os = os' ++ [o] ∧ ∀ l c, R2 (os' ++ [move_end end_ l c o])) →
  (∀ s', PInv s' → grew R2 r s' → pos s' = pos s → Q tt s') →
  wp (extend_last_origin source end_) Q R s.
Proof.
  intros Hinv Hb Hle Hg HR HQ. unfold extend_last_origin. apply wp_bind, wp_get.
  pose proof (grew_recording _ _ _ Hg) as Hr. destruct Hg as (Hd & Hls & Hg). destruct (recording r) as [o|] eqn:Hrr.
  - destruct Hr as (os & Hr & (os' & x & -> & HR2)%HR). rewrite Hr.
    destruct (recording_Some _ _ Hr) as [_ Ho]. destruct (inv_origins _ Hinv _ Ho) as [Hl Hf].
    apply wp_bind, wp_source_position; [done|done|]. intros l c. rewrite app_assoc in Hf |- *.
    rewrite last_snoc, length_app. cbn [length].
    replace (length (o ++ os') + 1 - 1) with (length (o ++ os')) by lia. rewrite take_app_length.
    rewrite Forall_app, Forall_singleton in Hf. destruct Hf as [Hf Hx]. apply wp_modify, HQ; [| |done].
    + apply set_origins_inv; [done|eauto|]. apply Forall_app. split; [done|].
      apply Forall_singleton. by apply move_end_ok.
    + split_and!; [done|done|]. rewrite Hrr. rewrite <-app_assoc. eauto.
  - rewrite Hr. apply wp_ret, HQ; [done| |done]. split_and!; [done|done|]. by rewrite Hrr.
Qed.

(** ** Raw text *)

Context {dialect : SyntaxDialect}.

(** The nodes parsed since [r] lie in [lo..hi] and their origins are the spans
    recorded since [r]. *)
Abbreviation listed r nodes lo hi s := (grew (origins_of source nodes lo hi) r s).

Lemma text_origin t start end_ o :
  start < end_ → t ≠ [] → t `sublist_of` slice source start end_ →
  start_byte o = start → end_byte o = end_ → origin_of source (RawText t) start end_ [o].
Proof using.
  intros Hlt Ht Hsub <- <-. apply origin_node; [done|done|]. constructor. lia.
Qed.

Lemma wp_flush_text nodes lo start end_ (Q : list ONode → PState → Prop) R r s :
  PInv s → boundary start → boundary end_ → start ≤ pos s → start ≤ end_ → listed r nodes lo start s →
  (∀ nodes' s', PInv s' → pos s' = pos s → listed r nodes' lo end_ s' → Q nodes' s') →
  wp (flush_text source nodes start end_) Q R s.
Proof.
  intros Hinv Hs He Hle Hse Hg HQ. unfold flush_text. destruct (Nat.ltb_spec start end_) as [Hlt|Hge].
  - apply wp_bind, wp_record_origin; [done..|]. intros s1 Hi1 Hg1 Hp1.
    apply wp_bind, wp_slice; [lia|done|done|]. apply wp_ret, HQ; [done|done|].
    eapply grew_trans; [exact Hg|exact Hg1|]. intros os1 os2 Hos (o & -> & Ho1 & Ho2).
    eapply origins_of_snoc; [exact Hos| |reflexivity]. apply text_origin; try done.
    apply slice_not_nil; [done|by apply is_boundary_le].
  - apply wp_ret, HQ; [done|done|]. by replace end_ with start by lia.
Qed.

(** Text before a node that was recorded first: its span goes before that of the
    node. *)
Lemma wp_flush_before nodes n lo start end_ b checkpoint (Q : list ONode → PState → Prop) R r s0 s :
  PInv s → boundary start → boundary end_ → start ≤ pos s → start ≤ end_ →
  listed r nodes lo start s0 → grew (origin_of source n end_ b) s0 s →
  (∀ o, plan_origins s0 = Some o → checkpoint = length o) →
  (∀ nodes' s', PInv s' → pos s' = pos s → listed r (nodes' ++ [n]) lo b s' → Q nodes' s') →
  wp (flush_text_before_recorded source nodes start end_ checkpoint) Q R s.
Proof.
  intros Hinv Hs He Hle Hse Hg Hgn Hck HQ. unfold flush_text_before_recorded.
  destruct (Nat.leb_spec end_ start) as [Hge|Hlt].
  { apply wp_ret, HQ; [done|done|]. assert (start = end_) as -> by lia.
    eapply grew_trans; [exact Hg|exact Hgn|]. intros os1 os2 H1 H2. by eapply origins_of_snoc. }
  pose proof (grew_recording _ _ _ Hgn) as Hr.
  apply wp_bind, wp_get, wp_bind. destruct (recording s0) as [o|] eqn:Hr0.
  - destruct Hr as (os & Hr & Hos). rewrite Hr. destruct (recording_Some _ _ Hr) as [_ Ho].
    destruct (inv_origins _ Hinv _ Ho) as [Hl Hf]. destruct (recording_Some _ _ Hr0) as [_ Ho0].
    apply wp_bind, wp_source_span; [done..|]. intros span Hs' He'. apply wp_bind, wp_get. rewrite Ho.
    rewrite (Hck _ Ho0), (proj2 (Nat.leb_le _ _)) by (rewrite length_app; lia).
    rewrite take_app_length, drop_app_length. apply wp_modify, wp_bind, wp_slice; [lia|done|done|].
    apply wp_ret, HQ; [|done|].
    + apply set_origins_inv; [done|eauto|]. rewrite Forall_app in Hf. destruct Hf as [Hf1 Hf2].
      apply Forall_app. split; [done|]. constructor; [|done]. split_and!; [lia|lia|by rewrite Hs'|by rewrite He'].
    + eapply (grew_trans _ (λ os, ∃ o os', os = o :: os' ∧ start_byte o = start ∧ end_byte o = end_ ∧
        origin_of source n end_ b os')); [exact Hg| |].
      * destruct Hgn as (Hd & Hls & _). split_and!; [done|done|]. rewrite Hr0. exists (span :: os). eauto 10.
      * intros os1 os2 Hos1 (x & os' & -> & Hx1 & Hx2 & Hn). rewrite (cons_middle x os1 os'), app_assoc.
        eapply origins_of_snoc; [|exact Hn|done]. eapply origins_of_snoc; [exact Hos1|apply (text_origin _ start end_)|reflexivity]; [done| |done|done|done].
        apply slice_not_nil; [done|by apply is_boundary_le].
  - rewrite Hr. apply wp_ret, wp_bind, wp_slice; [lia|done|done|]. apply wp_ret, HQ; [done|done|].
    pose proof (grew_recording _ _ _ Hg) as Hrr. destruct Hg as (Hd & Hls & Hg), Hgn as (Hd' & Hls' & Hgn).
    rewrite Hr0 in Hgn. split_and!; [congruence|congruence|]. destruct (recording r); [|congruence].
    destruct Hrr as (? & Hrr & _). congruence.
Qed.

Lemma wp_push_literal nodes literal lo start end_ (Q : list ONode → PState → Prop) R r s :
  PInv s → boundary start → boundary end_ → start ≤ pos s → pos s ≤ end_ → start < end_ →
  literal ≠ [] → literal `sublist_of` slice source start end_ → listed r nodes lo start s →
  (∀ nodes' s', PInv s' → pos s' = pos s → listed r nodes' lo end_ s' → Q nodes' s') →
  wp (push_literal source nodes literal start end_) Q R s.
Proof.
  intros Hinv Hs He Hle Hle' Hlt Hne Hsub Hg HQ. unfold push_literal.
  assert (Hnew : wp (record_origin source start end_ ;;* ret (nodes ++ [RawText literal])) Q R s).
  { apply wp_bind, wp_record_origin; [done..|lia|]. intros s1 Hi1 Hg1 Hp1. apply wp_ret, HQ; [done|done|].
    eapply grew_trans; [exact Hg|exact Hg1|]. intros os1 os2 Hos (o & -> & Ho1 & Ho2).
    eapply origins_of_snoc; [exact Hos|by apply text_origin|done]. }
  destruct nodes as [|x nodes _] using rev_ind; [exact Hnew|]. rewrite last_snoc.
  destruct x as [text| | | |]; try exact Hnew.
  rewrite length_app. cbn [length]. replace (length nodes + 1 - 1) with (length nodes) by lia.
  rewrite take_app_length. apply wp_bind.
  eapply (wp_extend_last end_ _ (origins_of source (nodes ++ [RawText (text ++ literal)]) lo end_) _ _ r);
    [done|done|done|exact Hg| |intros s1 Hi1 Hg1 Hp1; by apply wp_ret, HQ].
  intros os (os' & o & -> & Hns & [Ht1 Ht2] & Ho1 & Ho2)%origins_of_text. exists os', o. split; [done|]. intros l c.
  eapply origins_of_snoc; [exact Hns|apply (text_origin _ (start_byte o) end_)|reflexivity];
    [lia|by destruct text| |done|done].
  rewrite (slice_split _ _ (end_byte o)), (slice_split _ (end_byte o) start) by lia.
  apply sublist_app; [done|]. by apply sublist_inserts_l.
Qed.
End Invariants.
