(* ===== verification/ParserTokens.v ===== *)
(** * Tokens of the parser

    Total correctness of the lexical productions of the parser: identifiers,
    variable references, the [let] keyword, block openers with their environment
    and attribute slots, closers and escapes. *)

From S2P Require Import Prelude.
From S2P Require Import Utf8.
From S2P Require Import Environment.
From S2P Require Import BackendCatalog.
From S2P Require Import Syntax.
From S2P Require Import BashScan.
From S2P Require Import Parser.
From S2P Require Import ParserFacts.
From stdpp Require Import options.

#[local] Open Scope nat_scope.

Definition ascii (b : Z) : Prop := (0 ≤ b < 128)%Z.

Lemma ident_start_ascii b : is_ident_start b = true → ascii b.
Proof.
  unfold is_ident_start, is_ascii_alphabetic, ascii. rewrite !orb_true_iff, !in_range_spec, Z.eqb_eq. lia.
Qed.

Lemma ident_continue_ascii b : is_ident_continue b = true → ascii b.
Proof.
  unfold is_ident_continue, is_ascii_alphanumeric, is_ascii_alphabetic, ascii.
  rewrite !orb_true_iff, !in_range_spec, Z.eqb_eq. lia.
Qed.

Lemma digit_ascii b : is_digit b = true → ascii b.
Proof. unfold is_digit, ascii. rewrite andb_true_iff, !Z.leb_le. lia. Qed.

Lemma attribute_byte_ascii b : is_attribute_byte b = true → ascii b.
Proof.
  unfold is_attribute_byte, is_attribute_value_continue, is_ascii_graphic.
  rewrite orb_true_iff, andb_true_iff, in_range_spec, bool_decide_eq_true. unfold ascii.
  intros [[? _]|Hb]; [lia|]. rewrite !elem_of_cons, elem_of_nil in Hb. lia.
Qed.

Section Tokens.
Context (source : str) (Hvalid : utf8_valid source = true).
#[local] Set Default Proof Using "Hvalid".

Abbreviation boundary i := (is_boundary source i = true).
Abbreviation Inv := (PInv source).

(** Every byte of a range exists and is ASCII. *)
Definition ascii_range (i j : nat) : Prop :=
  i ≤ j ∧ ∀ k, i ≤ k < j → ∃ b, source !! k = Some b ∧ ascii b.

Lemma ascii_range_refl i : ascii_range i i.
Proof. split; [done|]. intros k ?. lia. Qed.

Lemma ascii_range_trans i j k : ascii_range i j → ascii_range j k → ascii_range i k.
Proof.
  intros [H1 Ha] [H2 Hb]. split; [lia|]. intros x Hx. destruct (decide (x < j)); [apply Ha|apply Hb]; lia.
Qed.

Lemma ascii_range_one i b : source !! i = Some b → ascii b → ascii_range i (S i).
Proof. intros Hi Hb. split; [lia|]. intros k Hk. replace k with i by lia. eauto. Qed.

Lemma ascii_range_span p i :
  (∀ b, p b = true → ascii b) → ascii_range i (i + span_len p (drop i source)).
Proof.
  intros Hp. split; [lia|]. intros k Hk.
  pose proof (span_len_le p (drop i source)) as Hle. rewrite length_drop in Hle.
  destruct (lookup_lt_is_Some_2 source k) as [b Hb]; [lia|]. exists b. split; [done|]. apply Hp.
  pose proof (span_len_take p (drop i source)) as Hall. rewrite Forall_forall in Hall. apply Hall.
  apply list_elem_of_lookup. exists (k - i). rewrite lookup_take_lt, lookup_drop by lia.
  by replace (i + (k - i)) with k by lia.
Qed.

Lemma ascii_range_boundary i j : boundary i → ascii_range i j → boundary j.
Proof.
  intros Hb [Hle Hr]. destruct (decide (i = j)) as [->|Hne]; [done|].
  destruct (Hr (j - 1)) as (b & Hj & Ha); [lia|]. replace j with (S (j - 1)) by lia.
  by eapply boundary_after_ascii.
Qed.

Lemma ascii_range_slice i j : ascii_range i j → Forall ascii (slice source i j).
Proof.
  intros [Hle Hr]. unfold slice. apply Forall_forall. intros b [k Hk]%list_elem_of_lookup.
  apply lookup_take_Some in Hk as [Hk Hlt]. rewrite lookup_drop in Hk.
  destruct (Hr (i + k)) as (b' & Hb' & Ha); [lia|]. congruence.
Qed.

Lemma ascii_range_app l r i :
  drop i source = l ++ r → Forall ascii l → ascii_range i (i + length l).
Proof.
  intros Hd Hl. split; [lia|]. intros k Hk.
  destruct (lookup_lt_is_Some_2 l (k - i)) as [b Hb]; [lia|]. exists b. split.
  - replace k with (i + (k - i)) by lia. rewrite <-lookup_drop, Hd. by apply lookup_app_l_Some.
  - rewrite Forall_forall in Hl. apply Hl. by eapply list_elem_of_lookup_2.
Qed.

Lemma slice_length i j : i ≤ j → j ≤ length source → length (slice source i j) = j - i.
Proof. intros. unfold slice. rewrite length_take, length_drop. lia. Qed.

Lemma inv_back s s' : Inv s → moved s s' → pos s' = pos s → Inv s'.
Proof. intros Hi Hm Hp. eapply moved_inv; [done|done|done|lia|]. rewrite Hp. by destruct Hi. Qed.

Lemma set_pos_inv s p : Inv s → pos s ≤ p → boundary p → Inv (set_pos p s).
Proof. intros Hi Hle Hb. by apply (moved_inv source Hvalid s). Qed.

Lemma wp_identifier (Q : option str → PState → Prop) R s :
  Inv s →
  Q None s →
  (∀ name s', Inv s' → moved s s' → pos s' = pos s + length name → 0 < length name →
     slice source (pos s) (pos s') = name → Q (Some name) s') →
  wp (parse_identifier source) Q R s.
Proof.
  intros Hinv HN HS. unfold parse_identifier. apply wp_bind, wp_get. unfold byte_at.
  destruct (source !! pos s) as [b|] eqn:Hb; [|by apply wp_ret].
  destruct (is_ident_start b) eqn:Hs; [|by apply wp_ret]. cbn [negb].
  set (e := S (pos s) + _).
  assert (Hr : ascii_range (pos s) e).
  { eapply ascii_range_trans; [by eapply ascii_range_one; [|apply ident_start_ascii]|].
    apply ascii_range_span, ident_continue_ascii. }
  assert (He : boundary e) by (eapply ascii_range_boundary; [by destruct Hinv|done]).
  pose proof (is_boundary_le _ _ He). pose proof (inv_pos _ _ Hinv).
  apply wp_bind, wp_modify, wp_bind, wp_slice; [done|lia|done|done|]. apply wp_ret.
  apply HS; [apply set_pos_inv; [done|lia|done]|done| | |done]; rewrite slice_length by lia; simpl; lia.
Qed.

Lemma wp_var_ref (Q : option str → PState → Prop) R s :
  Inv s →
  Q None s →
  (∀ name s', Inv s' → moved s s' → pos s' = pos s + length name + 1 →
     slice source (pos s) (pos s') = lit "$" ++ name → Q (Some name) s') →
  wp (try_parse_var_ref source) Q R s.
Proof.
  intros Hinv HN HS. unfold try_parse_var_ref. apply wp_bind, wp_get. unfold byte_at.
  case_bool_decide as Hd; [|by apply wp_ret]. cbn [negb].
  destruct (source !! S (pos s)) as [b|] eqn:Hb; [|by apply wp_ret].
  destruct (is_ident_start b) eqn:Hs; [|by apply wp_ret]. cbn [negb].
  set (e := S (S (pos s)) + _).
  assert (Hb1 : boundary (S (pos s))) by (by eapply boundary_after_ascii).
  assert (Hr : ascii_range (S (pos s)) e).
  { eapply ascii_range_trans; [by eapply ascii_range_one; [|apply ident_start_ascii]|].
    apply ascii_range_span, ident_continue_ascii. }
  assert (He : boundary e) by by eapply ascii_range_boundary.
  pose proof (is_boundary_le _ _ He).
  apply wp_bind, wp_slice; [done|lia|done|done|]. apply wp_bind, wp_modify, wp_ret.
  apply HS; [apply set_pos_inv; [done|lia|done]|done|rewrite slice_length by lia; simpl; lia|].
  cbn [pos set_pos]. rewrite (slice_split _ _ (S (pos s))) by lia. by rewrite (slice_one _ _ _ Hd).
Qed.

Lemma wp_advance_ascii n (Q : unit → PState → Prop) R s :
  Inv s → ascii_range (pos s) (pos s + n) →
  (∀ s', Inv s' → moved s s' → pos s' = pos s + n → Q tt s') →
  wp (advance_bytes source n) Q R s.
Proof.
  revert s. induction n as [|n IH]; intros s Hinv [_ Hr] HQ; cbn [advance_bytes].
  { apply wp_ret, HQ; [done|done|lia]. }
  destruct (Hr (pos s)) as (b & Hb & Ha); [lia|].
  apply wp_bind, wp_advance_one; [done|done|]. intros s1 Hi1 Hm1 _ _ Hp1. specialize (Hp1 b Hb Ha).
  apply IH; [done| |].
  - split; [lia|]. intros k Hk. apply Hr. lia.
  - intros s2 Hi2 Hm2 Hp2. apply HQ; [done|by eapply moved_trans|lia].
Qed.

(** A prefix of the rest of the source is a range of it. *)
Lemma slice_prefix i l r : drop i source = l ++ r → slice source i (i + length l) = l.
Proof using. intros Hd. unfold slice. rewrite Hd. replace (i + length l - i) with (length l) by lia. by rewrite take_app_length. Qed.

Lemma wp_let_keyword (Q : bool → PState → Prop) R s :
  Inv s →
  (∀ b, (b = true → slice source (pos s) (pos s + 3) = lit "let" ∧ ascii_range (pos s) (pos s + 3)) → Q b s) →
  wp (starts_with_let_keyword source) Q R s.
Proof.
  intros Hinv HQ. pose proof (inv_pos _ _ Hinv) as Hb. pose proof (is_boundary_le _ _ Hb).
  unfold starts_with_let_keyword. apply wp_bind, wp_get.
  apply wp_bind, wp_slice; [done|done|done|apply is_boundary_length|].
  destruct (starts_with _ _) eqn:Hlet; cbn [negb]; [|by apply wp_ret, HQ].
  assert (Htext : slice source (pos s) (pos s + 3) = lit "let" ∧ ascii_range (pos s) (pos s + 3)).
  { apply starts_with_spec in Hlet as [r Hr]. unfold slice in Hr.
    rewrite take_ge in Hr by (rewrite length_drop; lia).
    split; [by apply (slice_prefix _ (lit "let") r)|].
    apply (ascii_range_app (lit "let") r); [done|]. repeat constructor; done. }
  destruct Htext as [Htext Hr]. assert (Ha : boundary (pos s + 3)) by by eapply ascii_range_boundary.
  apply wp_bind. destruct (pos s =? 0)%nat.
  - apply wp_ret, wp_bind. destruct (Nat.leb_spec (length source) (pos s + 3)); [by apply wp_ret, wp_ret, HQ|].
    apply wp_bind, wp_slice; [done|lia|done|apply is_boundary_length|]. by apply wp_ret, wp_ret, HQ.
  - apply wp_bind, wp_slice; [done|lia|by apply is_boundary_0|done|]. apply wp_ret, wp_bind.
    destruct (Nat.leb_spec (length source) (pos s + 3)); [by apply wp_ret, wp_ret, HQ|].
    apply wp_bind, wp_slice; [done|lia|done|apply is_boundary_length|]. by apply wp_ret, wp_ret, HQ.
Qed.

Lemma wp_environment i (Q : option (Z * nat) → PState → Prop) (R : ParseError → PState → Prop) s :
  boundary i → (∀ e, R e s) → Q None s →
  (∀ env j, ascii_range i j → Q (Some (env, j)) s) →
  wp (parse_environment source i) Q R s.
Proof.
  intros Hi HR HN HS. unfold parse_environment, byte_at.
  case_bool_decide as Hb; cbn [negb]; [|apply wp_ret, HS, ascii_range_refl].
  assert (H1 : ascii_range i (S i)) by (by eapply ascii_range_one).
  case_bool_decide as Hstar.
  { case_bool_decide as Hclose; [|by apply wp_ret]. apply wp_ret, HS.
    eapply ascii_range_trans; [exact H1|]. by eapply ascii_range_trans; eapply ascii_range_one. }
  set (j := S i + _).
  assert (H2 : ascii_range (S i) j) by apply ascii_range_span, digit_ascii.
  destruct (S i =? j)%nat; [by apply wp_ret|]. case_bool_decide as Hclose; cbn [negb]; [|by apply wp_ret].
  assert (Hb1 : boundary (S i)) by by eapply ascii_range_boundary.
  apply wp_bind, wp_slice; [done|by destruct H2|done|by eapply ascii_range_boundary|].
  destruct (parse_u32 _) as [n|]; [|by apply wp_fail].
  destruct (persistent n) as [[id]|env]; [by apply wp_fail|]. apply wp_ret, HS.
  eapply ascii_range_trans; [exact H1|]. eapply ascii_range_trans; [exact H2|]. by eapply ascii_range_one.
Qed.

Lemma wp_attributes i (Q : option (option (list str) * nat) → PState → Prop) (R : ParseError → PState → Prop) s :
  boundary i → (∀ e, R e s) → Q None s →
  (∀ entries j, ascii_range i j → Q (Some (entries, j)) s) →
  wp (parse_attributes source i) Q R s.
Proof.
  intros Hi HR HN HS. unfold parse_attributes, byte_at. apply wp_bind, wp_get.
  case_bool_decide as Hb; cbn [negb]; [|apply wp_ret, HS, ascii_range_refl].
  assert (H1 : ascii_range i (S i)) by (by eapply ascii_range_one).
  assert (Hb1 : boundary (S i)) by by eapply ascii_range_boundary.
  cbv zeta. set (j := S i + _).
  assert (H2 : ascii_range (S i) j) by apply ascii_range_span, attribute_byte_ascii.
  destruct (source !! j) as [b|] eqn:Hj; [|by apply wp_ret].
  destruct (Z.eqb_spec b 125) as [->|]; cbn [negb];
    [|destruct (attribute_suffix_closes_as_opener _); [by apply wp_fail|by apply wp_ret]].
  apply wp_bind, wp_slice; [done|by destruct H2|done|by eapply ascii_range_boundary|].
  destruct (_ || _); [destruct (attribute_suffix_closes_as_opener _); [by apply wp_fail|by apply wp_ret]|].
  destruct (negb _); [destruct (attribute_suffix_closes_as_opener _); [by apply wp_fail|by apply wp_ret]|].
  apply wp_ret, HS. eapply ascii_range_trans; [exact H1|]. eapply ascii_range_trans; [exact H2|].
  by eapply ascii_range_one.
Qed.

(** The raw text of a tag is ASCII, so a closer ends on a boundary. *)
Definition tag_ok (tag : Tag) : Prop := Forall ascii (tag_raw tag).

Lemma closer_range position tag n :
  tag_ok tag → exact_closer_len_at source position tag = Some n →
  ascii_range position (position + n) ∧ boundary position ∧ 0 < n ∧
  slice source position (position + n) = lit ")_" ++ tag_raw tag.
Proof.
  intros Ht. unfold exact_closer_len_at.
  destruct (_ && _) eqn:Hp; cbn [negb]; [|done]. apply andb_true_iff in Hp as [_ Hb].
  destruct (strip_prefix _ _) as [after|] eqn:Hs; [|done]. apply strip_prefix_Some in Hs.
  destruct (starts_with after (tag_raw tag)) eqn:Hw; cbn [negb]; [|done].
  apply starts_with_spec in Hw as [r ->].
  destruct (if bool_decide (is_Some _) then _ else _); [done|]. intros [= <-].
  split_and!; [|done|lia|apply (slice_prefix _ (lit ")_" ++ tag_raw tag) r); by rewrite <-app_assoc].
  apply (ascii_range_app (lit ")_" ++ tag_raw tag) r).
  - by rewrite <-app_assoc.
  - apply Forall_app. split; [repeat constructor; done|done].
Qed.

Definition closer_ok (expected : option Tag) : Prop :=
  match expected with Some tag => tag_ok tag | None => True end.

(** The text of the closer of the enclosing block. *)
Definition closes (expected : option Tag) (i j : nat) : Prop :=
  match expected with Some tag => slice source i j = lit ")_" ++ tag_raw tag | None => True end.

Lemma closer_here_range expected position n :
  closer_ok expected → closer_here source expected position = Some n →
  ascii_range position (position + n) ∧ boundary position ∧ 0 < n ∧
  closes expected position (position + n).
Proof. destruct expected as [tag|]; [apply closer_range|done]. Qed.
End Tokens.

Section Openers.
Context (source : str) (Hvalid : utf8_valid source = true).
Context {dialect : SyntaxDialect} {laws : SyntaxDialectLaws dialect}.
#[local] Set Default Proof Using "Hvalid laws".

Abbreviation boundary i := (is_boundary source i = true).
Abbreviation Inv := (PInv source).
Abbreviation ascii_range := (ascii_range source).

(** An opener at [tag_start] that ends before [i], with the text of its tag. *)
Definition opens (tag : Tag) (i : nat) : Prop :=
  slice source (tag_start tag) i = tag_raw tag ++ lit "^(" ∧
  ∃ name slots, tag_raw tag = name ++ slots ∧ canonical_syntax_name name = tag_lang tag.

Lemma wp_opener (Q : option Tag → PState → Prop) (R : ParseError → PState → Prop) s :
  Inv s → (∀ e, R e s) → Q None s →
  (∀ tag s', Inv s' → moved s s' → pos s + 3 ≤ pos s' → tag_start tag = pos s → tag_ok tag →
     opens tag (pos s') → Q (Some tag) s') →
  wp (try_parse_opener source) Q R s.
Proof.
  intros Hinv HR HN HS. pose proof (inv_pos _ _ Hinv) as Hb. pose proof (is_boundary_le _ _ Hb).
  unfold try_parse_opener, byte_at. apply wp_bind, wp_get.
  destruct (source !! pos s) as [b|] eqn:Hc; [|by apply wp_ret].
  destruct (is_ident_start b); cbn [negb]; [|by apply wp_ret].
  apply wp_bind, wp_slice; [done|done|done|apply is_boundary_length|].
  destruct (match_registered_syntax_tag _) as [lang|] eqn:Hm; [|by apply wp_ret].
  apply match_tag in Hm as (Hi & _ & rest & Hrest & _). unfold slice in Hrest.
  rewrite take_ge in Hrest by (rewrite length_drop; lia).
  assert (Hlang : ascii_range (pos s) (pos s + length lang)).
  { apply (ascii_range_app source Hvalid lang rest); [done|]. apply is_ident_all in Hi.
    eapply Forall_impl; [exact Hi|]. apply ident_continue_ascii. }
  assert (0 < length lang) by (destruct lang; [done|simpl; lia]).
  apply wp_bind, wp_environment; [done| |done|by apply wp_ret|].
  { by apply (ascii_range_boundary source Hvalid (pos s)). }
  intros env i Henv.
  apply wp_bind, wp_attributes; [done| |done|by apply wp_ret|].
  { apply (ascii_range_boundary source Hvalid (pos s)); [done|by eapply ascii_range_trans]. }
  intros entries j Hattr.
  assert (Hrange : ascii_range (pos s) j) by (eapply ascii_range_trans; [done|exact Hlang|by eapply ascii_range_trans]).
  destruct (bool_decide _ && bool_decide _) eqn:E; [|by apply wp_ret].
  apply andb_true_iff in E as [E1%bool_decide_eq_true E2%bool_decide_eq_true].
  assert (Hend : boundary (j + 2)).
  { apply (ascii_range_boundary source Hvalid (pos s)); [done|]. eapply ascii_range_trans; [done|exact Hrange|].
    replace (j + 2) with (S (S j)) by lia. by eapply ascii_range_trans; [done|eapply ascii_range_one..]. }
  assert (pos s + length lang ≤ j) by (destruct Henv, Hattr; lia).
  apply wp_bind, wp_modify, wp_bind, wp_slice; [done|lia|done|by apply (ascii_range_boundary source Hvalid (pos s))|].
  apply wp_ret, HS; [apply set_pos_inv; [done|done|lia|done]|done|simpl; lia|done|by apply ascii_range_slice|].
  cbn [pos set_pos]. split; cbn [tag_start tag_raw tag_lang].
  - rewrite (slice_split _ _ j), (slice_split _ j (S j)) by lia. replace (j + 2) with (S (S j)) by lia.
    by rewrite (slice_one _ _ _ E1), (slice_one _ _ _ E2).
  - exists lang, (slice source (pos s + length lang) j). split; [|done].
    rewrite (slice_split _ _ (pos s + length lang)) by lia. f_equal. by eapply slice_prefix.
Qed.
End Openers.
