(* ===== verification/ParserProductions.v ===== *)
(** * Productions of the parser

    Total correctness of the mutually recursive productions, by induction on the
    fuel: enough fuel is three units for every byte that is left. *)

From S2P Require Import Prelude.
From S2P Require Import Utf8.
From S2P Require Import Environment.
From S2P Require Import BackendCatalog.
From S2P Require Import Syntax.
From S2P Require Import BashScan.
From S2P Require Import Parser.
From S2P Require Import ParserFacts.
From S2P Require Import ParserTokens.
From stdpp Require Import options.

#[local] Open Scope nat_scope.

Section Productions.
Context (source : str) (Hvalid : utf8_valid source = true).
Context {dialect : SyntaxDialect} {laws : SyntaxDialectLaws dialect}.
#[local] Set Default Proof Using "Hvalid laws".

Abbreviation boundary i := (is_boundary source i = true).
Abbreviation Inv := (PInv source).
Abbreviation failed := (λ (_ : ParseError) (s' : PState), Inv s').
Abbreviation left s := (length source - pos s).
Abbreviation listed r nodes lo hi s := (grew (origins_of source nodes lo hi) r s).

Lemma inv_boundary s : Inv s → boundary (pos s).
Proof. by intros []. Qed.

Lemma inv_le s : Inv s → pos s ≤ length source.
Proof. intros []. by apply is_boundary_le. Qed.

Lemma wp_escape expected text_start nodes lo (Q : option (list ONode) → PState → Prop) r s :
  Inv s → closer_ok expected → boundary text_start → text_start ≤ pos s → listed r nodes lo text_start s →
  (∀ s', Inv s' → moved s s' → pos s' = pos s → Q None s') →
  (∀ nodes' s', Inv s' → pos s < pos s' → listed r nodes' lo (pos s') s' → Q (Some nodes') s') →
  wp (try_escape source expected text_start nodes) Q failed s.
Proof.
  intros Hinv Hok Hbt Hle Hg HN HS. unfold try_escape, byte_at. apply wp_bind, wp_get.
  destruct (bool_decide _ && _) eqn:E; cbn [negb]; [|apply wp_ret, HN; done].
  apply andb_true_iff in E as [E1%bool_decide_eq_true E2%Nat.ltb_lt].
  assert (Hb1 : boundary (S (pos s))) by (by eapply boundary_after_ascii).
  assert (Hi1 : Inv (set_pos (S (pos s)) s)) by (apply set_pos_inv; [done|done|lia|done]).
  assert (Hafter : ∀ j, S (pos s) ≤ j → slice source (S (pos s)) j `sublist_of` slice source (pos s) j).
  { intros j Hj. rewrite (slice_split _ (pos s) (S (pos s))) by lia. by apply sublist_inserts_l. }
  apply wp_bind, wp_modify, wp_bind, wp_opener; [done|done|done|by intros| |].
  - apply wp_bind, wp_modify. set (s1 := set_pos (pos s) _).
    assert (Hi2 : Inv s1) by (by apply (inv_back source Hvalid s)).
    assert (Hg1 : listed r nodes lo text_start s1) by (by eapply grew_moved).
    destruct (closer_here source expected (S (pos s))) as [n|] eqn:Hc.
    + destruct (closer_here_range _ Hvalid _ _ _ Hok Hc) as (Hr & _ & Hn & _).
      assert (Hbe : boundary (S (pos s) + n)) by (by eapply ascii_range_boundary).
      apply wp_bind, wp_slice; [done|lia|done|done|].
      apply wp_bind, (wp_flush_text source Hvalid nodes lo _ _ _ _ r); [done|done|by apply inv_boundary|done|done|done|].
      intros nodes1 s2 Hi3 Hp3 Hg2. simpl in Hp3.
      apply wp_bind, wp_modify, wp_bind, (wp_push_literal source Hvalid nodes1 _ lo _ _ _ _ r);
        [apply set_pos_inv; [done|done|lia|done]|by apply inv_boundary|done|simpl; lia|done|lia| |by apply Hafter; lia| |].
      { apply slice_not_nil; [lia|by apply is_boundary_le]. }
      { by eapply grew_moved. }
      intros nodes2 s3 Hi4 Hp4 Hg4. simpl in Hp4. apply wp_ret, HS; [done|lia|]. by rewrite Hp4.
    + case_bool_decide as Hd; [|by apply wp_ret, HN].
      assert (Hb2 : boundary (S (S (pos s)))) by (by eapply boundary_after_ascii).
      apply wp_bind, (wp_flush_text source Hvalid nodes lo _ _ _ _ r); [done|done|by apply inv_boundary|done|done|done|].
      intros nodes1 s2 Hi3 Hp3 Hg2. simpl in Hp3.
      apply wp_bind, (wp_push_literal source Hvalid nodes1 _ lo _ _ _ _ r);
        [done|by apply inv_boundary|done|lia|lia|lia|done| |done|].
      { change (lit "$") with [36%Z]. rewrite <-(slice_one _ _ _ Hd). apply Hafter. lia. }
      intros nodes2 s3 Hi4 Hp4 Hg4.
      apply wp_bind, wp_modify, wp_ret, HS; [apply set_pos_inv; [done|done|lia|done]|simpl; lia|].
      by eapply grew_moved.
  - intros tag s1 Hi2 Hm1 Hle1 Hst Htag [Hopen _]. simpl in Hle1, Hst. rewrite Hst in Hopen.
    assert (Hg1 : listed r nodes lo text_start s1) by (by eapply grew_moved).
    apply wp_bind, (wp_flush_text source Hvalid nodes lo _ _ _ _ r); [done|done|by apply inv_boundary|lia|done|done|].
    intros nodes1 s2 Hi3 Hp3 Hg2. apply wp_bind, wp_get.
    apply wp_bind, (wp_push_literal source Hvalid nodes1 _ lo _ _ _ _ r);
      [done|by apply inv_boundary|by apply inv_boundary|lia|lia|lia|by destruct (tag_raw tag)| |done|].
    { rewrite <-Hopen, <-Hp3. apply Hafter. lia. }
    intros nodes2 s3 Hi4 Hp4 Hg4. apply wp_ret, HS; [done|lia|]. by rewrite Hp4.
Qed.

(** ** Contracts of the productions *)

(** The body of a block, or the program: its nodes and its origins since [r] lie
    before the closer. *)
Definition list_post (r : PState) (lo : nat) (expected : option Tag) (s : PState)
    (nodes : list ONode) (s' : PState) : Prop :=
  Inv s' ∧ ∃ hi, pos s ≤ hi ≤ pos s' ∧ closes source expected hi (pos s') ∧ listed r nodes lo hi s'.

(** The arguments of a call lie before its closing parenthesis. *)
Definition args_post (r : PState) (lo : nat) (s : PState) (args : list ONode) (s' : PState) : Prop :=
  Inv s' ∧ ∃ hi, pos s ≤ hi ∧ pos s' = S hi ∧ source !! hi = Some 41%Z ∧ listed r args lo hi s'.

(** One node that starts at [start], with its origins. *)
Definition node_post (start : nat) (s : PState) (n : ONode) (s' : PState) : Prop :=
  Inv s' ∧ pos s ≤ pos s' ∧ grew (origin_of source n start (pos s')) s s'.

(** A production that may find nothing: then only the cursor is restored. *)
Definition option_post (s : PState) (r : option ONode) (s' : PState) : Prop :=
  match r with
  | None => Inv s' ∧ moved s s' ∧ pos s' = pos s
  | Some n => node_post (pos s) s n s' ∧ pos s < pos s'
  end.

Record productions_ok (fuel : nat) : Prop := {
  loop_ok : ∀ r lo expected text_start nodes s,
    Inv s → closer_ok expected → boundary text_start → text_start ≤ pos s →
    listed r nodes lo text_start s → 3 * left s + 1 < fuel →
    wp (parse_loop source fuel expected text_start nodes) (list_post r lo expected s) failed s;
  typed_ok : ∀ tag s,
    Inv s → tag_ok tag → boundary (tag_start tag) → tag_start tag < pos s → opens source tag (pos s) →
    3 * left s + 2 < fuel →
    wp (parse_typed_expr source fuel tag) (node_post (tag_start tag) s) failed s;
  let_ok : ∀ s, Inv s → 3 * left s < fuel →
    wp (try_parse_let_binding source fuel) (option_post s) failed s;
  call_ok : ∀ s, Inv s → 3 * left s < fuel →
    wp (try_parse_call source fuel) (option_post s) failed s;
  args_ok : ∀ r lo name args s, Inv s → listed r args lo (pos s) s → 3 * left s + 1 < fuel →
    wp (parse_args source fuel name args) (args_post r lo s) failed s;
}.

Lemma depth_inv s d : Inv s → Inv (set_depth d s).
Proof. intros [H1 H2]. by constructor. Qed.

(** Inside a captured body nothing is recorded. *)
Lemma grew_suppressed R (R' : list SourceSpanV1 → Prop) s s' :
  R' [] → grew R (set_depth (S (origin_suppression_depth s)) s) s' →
  grew R' s (set_depth (origin_suppression_depth s' - 1) s').
Proof.
  intros HR (Hd & Hl & Ho). simpl in Hd, Hl, Ho. apply moved_grew; [done|].
  split_and!; simpl; [done|done|rewrite Hd; lia].
Qed.

(** A block: the text between the opener and the closer is its inside. *)
Lemma typed_spells tag body p hi e :
  opens source tag p → closes source (Some tag) hi e → tag_start tag ≤ p → p ≤ hi → hi ≤ e →
  spells (TypedExpr (tag_lang tag) (tag_env_id tag) (tag_attr tag) body) (slice source (tag_start tag) e).
Proof using.
  intros [Hopen (name & slots & Hraw & Hname)] Hclose H1 H2 H3.
  exists (tag_raw tag), name, slots, (slice source p hi). split_and!; [done|done|].
  rewrite (slice_split _ _ p), (slice_split _ p hi), Hopen by lia. simpl in Hclose. by rewrite Hclose, <-app_assoc.
Qed.

Lemma typed_step fuel tag s :
  productions_ok fuel →
  Inv s → tag_ok tag → boundary (tag_start tag) → tag_start tag < pos s → opens source tag (pos s) →
  3 * left s + 2 < S fuel →
  wp (parse_typed_expr source (S fuel) tag) (node_post (tag_start tag) s) failed s.
Proof.
  intros IH Hinv Htag Hb Hlt Hopen Hf. change (parse_typed_expr source (S fuel) tag) with (parse_typed_expr_step source (parse_loop source fuel) tag).
  unfold parse_typed_expr_step.
  apply wp_bind, wp_begin_origin; [done|done|done|lia|]. intros idx s1 Hi1 Hg1 Hp1.
  cbv zeta. set (owns := owns_quoted_syntax (tag_lang tag)).
  set (s2 := if owns then set_depth (S (origin_suppression_depth s1)) s1 else s1).
  assert (Hi2 : Inv s2) by (unfold s2; destruct owns; [by apply depth_inv|done]).
  assert (Hp2 : pos s2 = pos s) by (unfold s2; by destruct owns).
  apply wp_bind. match goal with |- wp ?m ?Q ?R s1 => assert (Hm : m s1 = (s2, Ok tt)) by (unfold s2; by destruct owns) end.
  unfold wp at 1. rewrite Hm. clear Hm. apply wp_bind, wp_get, wp_bind. unfold wp at 1.
  pose proof (loop_ok _ IH s2 (pos s2) (Some tag) (pos s2) [] s2 Hi2 Htag (inv_boundary _ Hi2) (le_n _)
    (no_origins source _ _ _ (moved_refl s2))) as Hloop.
  unfold wp in Hloop. destruct (parse_loop source fuel (Some tag) (pos s2) [] s2) as [s3 r].
  assert (Hi3' : ∀ s3, Inv s3 → Inv (if owns then set_depth (origin_suppression_depth s3 - 1) s3 else s3))
    by (intros x Hx; destruct owns; [by apply depth_inv|done]).
  destruct r as [body| | |]; [|apply Hi3', Hloop; lia|apply Hloop; lia..].
  destruct Hloop as (Hi3 & hi & Hhi & Hclose & Hg3); [rewrite Hp2; lia|].
  set (s4 := if owns then set_depth (origin_suppression_depth s3 - 1) s3 else s3).
  set (node := TypedExpr (tag_lang tag) (tag_env_id tag) (tag_attr tag) body).
  assert (Hp4 : pos s4 = pos s3) by (unfold s4; by destruct owns).
  assert (Hg4 : grew (origins_of source (recorded_children node) (pos s2) hi) s1 s4).
  { unfold s4, s2, node in *. cbn [recorded_children]. fold owns. destruct owns; [|done].
    eapply grew_suppressed; [constructor; lia|exact Hg3]. }
  apply wp_bind, wp_get.
  apply wp_bind. eapply (wp_finish_origin source Hvalid);
    [by apply Hi3'|exact Hg1|exact Hg4|by apply inv_boundary, Hi3'|done|].
  intros s5 Hi5 Hp5 Hg5. apply wp_ret. split_and!; [done|lia|]. rewrite Hp5.
  eapply node_origins; [|exact Hlt| |by rewrite <-Hp2]; [|lia].
  eapply typed_spells; [exact Hopen|rewrite Hp4; exact Hclose|lia|lia|lia].
Qed.

Lemma wp_current_byte (Q : option Z → PState → Prop) R s : Q (source !! pos s) s → wp (current_byte source) Q R s.
Proof. intros HQ. apply wp_bind, wp_get. by apply wp_ret. Qed.

Lemma current_lt s b : source !! pos s = Some b → pos s < length source.
Proof. apply lookup_lt_Some. Qed.

Lemma call_step fuel s :
  productions_ok fuel → Inv s → 3 * left s < S fuel →
  wp (try_parse_call source (S fuel)) (option_post s) failed s.
Proof.
  intros IH Hinv Hf.
  change (try_parse_call source (S fuel)) with (try_parse_call_step source (parse_args source fuel)).
  unfold try_parse_call_step. apply wp_bind, wp_get, wp_bind, wp_identifier; [done|done| |].
  { apply wp_ret. split_and!; [done|apply moved_refl|done]. }
  intros name s1 Hi1 Hm1 Hp1 Hn Hname. apply wp_bind, wp_current_byte.
  destruct (is_registered_syntax_tag name || negb (bool_decide (source !! pos s1 = Some 40%Z))) eqn:E.
  { apply wp_bind, wp_modify, wp_ret. split_and!; [|done|done]. by apply (inv_back source Hvalid s). }
  apply orb_false_iff in E as [_ E%negb_false_iff%bool_decide_eq_true].
  pose proof (current_lt _ _ E). pose proof (inv_le _ Hinv).
  apply wp_bind, wp_begin_origin; [done|done|by apply inv_boundary|lia|]. intros idx s2 Hi2 Hg2 Hp2.
  apply wp_bind, wp_advance_one; [done|done|]. intros s3 Hi3 Hm3 _ _ Hp3.
  assert (pos s3 = S (pos s1)) by (rewrite (Hp3 40%Z); [lia|by rewrite Hp2|done]). clear Hp3.
  apply wp_bind, wp_skip_trivia; [done|done|]. intros s4 Hi4 Hm4 Hle4.
  apply wp_bind. eapply wp_mono; [apply (args_ok _ IH s2 (pos s4) name [] s4 Hi4)| |done]; [|lia|].
  { apply no_origins. eapply moved_trans; eassumption. }
  cbn beta. intros args s5 (Hi5 & hi & Hhi & Hp5 & Hparen & Hg5).
  apply wp_bind. destruct (_ && _); [by apply wp_bind, wp_get, wp_fail|]. apply wp_ret.
  apply wp_bind, wp_get, wp_bind. eapply (wp_finish_origin source Hvalid);
    [done|exact Hg2|exact Hg5|by apply inv_boundary|done|].
  intros s6 Hi6 Hp6 Hg6. apply wp_ret. split; [|lia]. split_and!; [done|lia|]. rewrite Hp6.
  eapply moved_then_grew; [exact Hm1|]. eapply node_origins; [| | |exact Hg6]; [|lia|lia].
  exists (slice source (S (pos s1)) hi).
  rewrite (slice_split _ _ (pos s1)), (slice_split _ (pos s1) (S (pos s1))), (slice_split _ (S (pos s1)) hi) by lia.
  by rewrite Hname, (slice_one _ _ _ E), Hp5, (slice_one _ _ _ Hparen).
Qed.

(** The end of a binding: its value was parsed from [a] on. *)
Lemma let_finish idx name start a p q n s0 s1 s :
  Inv s → begun start idx s0 s1 → grew (origin_of source n a (pos s)) s1 s →
  slice source start (start + 3) = lit "let" → slice source p q = name → start + 3 ≤ p → p ≤ q → q ≤ a →
  wp (finish_origin source idx (pos s) ;;* ret (Some (LetBinding name n)))
    (λ r s', match r with
             | Some n => Inv s' ∧ pos s' = pos s ∧ grew (origin_of source n start (pos s)) s0 s'
             | None => False end) failed s.
Proof.
  intros Hinv Hb Hg Hlet Hname H1 H2 H3. pose proof (inv_boundary _ Hinv).
  apply wp_bind. eapply (wp_finish_origin source Hvalid); [done|exact Hb|exact Hg|done|done|].
  intros s' Hi' Hp' Hg'. apply wp_ret. split_and!; [done|done|].
  eapply grew_mono; [|exact Hg']. intros os (o & os' & -> & <- & <- & Hn). pose proof (origin_of_range _ _ _ _ _ Hn).
  assert (Hos : origins_of source [n] a (end_byte o) os')
    by (apply (origins_of_snoc source [] n a a (end_byte o) (end_byte o) [] os'); [by constructor|exact Hn|done]).
  apply origin_node; [|lia|eapply origins_of_mono; [|reflexivity|exact Hos]; lia].
  exists (slice source (start_byte o + 3) p), (slice source q (end_byte o)). unfold span_text.
  rewrite (slice_split _ _ (start_byte o + 3)), (slice_split _ (start_byte o + 3) p), (slice_split _ p q) by lia.
  by rewrite Hlet, Hname.
Qed.

Lemma let_step fuel s :
  productions_ok fuel → Inv s → 3 * left s < S fuel →
  wp (try_parse_let_binding source (S fuel)) (option_post s) failed s.
Proof.
  intros IH Hinv Hf.
  change (try_parse_let_binding source (S fuel)) with
    (try_parse_let_binding_step source (parse_typed_expr source fuel) (try_parse_call source fuel)).
  unfold try_parse_let_binding_step. apply wp_bind, wp_get, wp_bind, wp_let_keyword; [done|done|].
  intros is_let Hlet. destruct is_let; cbn [negb]; [|apply wp_ret; split_and!; [done|apply moved_refl|done]].
  destruct (Hlet eq_refl) as [Htext Hrange]. clear Hlet.
  apply wp_bind, wp_advance_ascii; [done|done|done|]. intros s1 Hi1 Hm1 Hp1.
  apply wp_bind, wp_skip_horizontal; [done|done|]. intros s2 Hi2 Hm2 Hle2.
  apply wp_bind, wp_identifier; [done|done| |].
  { apply wp_bind, wp_modify, wp_ret. assert (Hm : moved s s2) by (eapply moved_trans; eassumption).
    split_and!; [|done|done]. by apply (inv_back source Hvalid s). }
  intros name s3 Hi3 Hm3 Hp3 Hn Hname. apply wp_bind, wp_skip_horizontal; [done|done|]. intros s4 Hi4 Hm4 Hle4.
  assert (Hm : moved s s4).
  { eapply moved_trans; [eapply moved_trans; eassumption|]. eapply moved_trans; eassumption. }
  apply wp_bind, wp_current_byte. case_bool_decide as Heq; cbn [negb].
  2:{ apply wp_bind, wp_modify, wp_ret. split_and!; [|done|done]. by apply (inv_back source Hvalid s). }
  pose proof (current_lt _ _ Heq).
  apply wp_bind, wp_advance_one; [done|done|]. intros s5 Hi5 Hm5 _ Hlt5 _.
  apply wp_bind, wp_begin_origin; [done|done|by apply inv_boundary|lia|]. intros idx s6 Hi6 Hg6 Hp6.
  apply wp_bind, wp_skip_whitespace; [done|done|]. intros s7 Hi7 Hm7 Hle7.
  assert (Hfinish : ∀ n s8, node_post (pos s7) s7 n s8 →
    wp (finish_origin source idx (pos s8) ;;* ret (Some (LetBinding name n))) (option_post s) failed s8).
  { intros n s8 (Hi8 & Hle8 & Hg8).
    eapply wp_mono; [eapply (let_finish _ _ _ (pos s7) (pos s2) (pos s3))| |done];
      [done|exact Hg6|eapply moved_then_grew; eassumption|done|done|lia|lia|lia|].
    cbn beta. intros [m|] s9; [|done]. intros (Hi9 & Hp9 & Hg9). split; [|lia]. split_and!; [done|lia|].
    rewrite Hp9. eapply moved_then_grew; [|exact Hg9]. eapply moved_trans; eassumption. }
  apply wp_bind. eapply wp_mono; [apply (call_ok _ IH s7 Hi7); lia| |done]. cbn beta.
  intros [call|] s8 Hpost.
  { destruct Hpost as [Hpost _]. apply wp_bind, wp_get. by apply Hfinish. }
  destruct Hpost as (Hi8 & Hm8 & Hp8). apply wp_bind, wp_opener; [done|done|done|done| |].
  { by apply wp_bind, wp_get, wp_fail. }
  intros tag s9 Hi9 Hm9 Hle9 Hst Htag Hopen. apply wp_bind. pose proof (inv_le _ Hi9).
  eapply wp_mono; [apply (typed_ok _ IH tag s9 Hi9 Htag)| |done]; [|lia|done|lia|].
  - rewrite Hst. by apply inv_boundary.
  - cbn beta. intros n s10 (Hi10 & Hle10 & Hg10). apply wp_bind, wp_get, Hfinish. split_and!; [done|lia|].
    rewrite <-Hp8, <-Hst. eapply moved_then_grew; [|eassumption]. eapply moved_trans; eassumption.
Qed.

(** A variable reference is one span. *)
Lemma var_origin name start end_ s s' :
  slice source start end_ = lit "$" ++ name → start < end_ →
  grew (λ os, ∃ o, os = [o] ∧ start_byte o = start ∧ end_byte o = end_) s s' →
  grew (origin_of source (VarRef name) start end_) s s'.
Proof using.
  intros Htext Hlt. apply grew_mono. intros os (o & -> & <- & <-).
  apply origin_node; [done|done|]. constructor. lia.
Qed.

(** One argument of a call. *)
Lemma one_arg fuel name s :
  productions_ok fuel → Inv s → 3 * left s < fuel →
  wp (if bool_decide (source !! pos s = Some 36%Z) then
        let* s := get in
        let start := pos s in
        let* var := try_parse_var_ref source in
        match var with
        | None => let* s := get in fail (ExpectedVariable (line s))
        | Some var =>
            let* s := get in
            record_origin source start (pos s) ;;* ret (VarRef var)
        end
      else
        let* nested := try_parse_call source fuel in
        match nested with
        | Some nested => ret nested
        | None =>
            let* tag := try_parse_opener source in
            match tag with
            | Some tag => parse_typed_expr source fuel tag
            | None => let* s := get in fail (ExpectedArgument (line s) name)
            end
        end)
    (node_post (pos s) s) failed s.
Proof.
  intros IH Hinv Hf. case_bool_decide as Hd.
  - apply wp_bind, wp_get, wp_bind, wp_var_ref; [done|done|by apply wp_bind, wp_get, wp_fail|].
    intros var s1 Hi1 Hm1 Hp1 Htext. apply wp_bind, wp_get.
    apply wp_bind, wp_record_origin; [done|done|by apply inv_boundary|by apply inv_boundary|lia|lia|].
    intros s2 Hi2 Hg2 Hp2. apply wp_ret. split_and!; [done|lia|]. eapply moved_then_grew; [exact Hm1|].
    rewrite Hp2. apply var_origin; [done|lia|done].
  - apply wp_bind. eapply wp_mono; [by apply (call_ok _ IH s Hinv)| |done]. cbn beta.
    intros [nested|] s1 Hpost.
    { apply wp_ret. by destruct Hpost. }
    destruct Hpost as (Hi1 & Hm1 & Hp1). apply wp_bind, wp_opener; [done|done|done|done|by apply wp_bind, wp_get, wp_fail|].
    intros tag s2 Hi2 Hm2 Hle2 Hst Htag Hopen. pose proof (inv_le _ Hi2).
    eapply wp_mono; [apply (typed_ok _ IH tag s2 Hi2 Htag)| |done]; [|lia|done|lia|].
    + rewrite Hst. by apply inv_boundary.
    + cbn beta. intros n s3 (Hi3 & Hle3 & Hg3). split_and!; [done|lia|]. rewrite <-Hp1, <-Hst.
      eapply moved_then_grew; [|eassumption]. eapply moved_trans; eassumption.
Qed.

Lemma args_step fuel r lo name args s :
  productions_ok fuel → Inv s → listed r args lo (pos s) s → 3 * left s + 1 < S fuel →
  wp (parse_args source (S fuel) name args) (args_post r lo s) failed s.
Proof.
  intros IH Hinv Hg Hf.
  change (parse_args source (S fuel) name args) with
    (parse_args_step source (parse_args source fuel) (parse_typed_expr source fuel)
       (try_parse_call source fuel) name args).
  assert (Hend : ∀ args1 s1, Inv s1 → pos s ≤ pos s1 → source !! pos s1 = Some 41%Z → listed r args1 lo (pos s1) s1 →
    wp (advance_one_byte source ;;* ret args1) (args_post r lo s) failed s1).
  { intros args1 s1 Hi1 Hle1 Hclose Hg1. apply wp_bind, wp_advance_one; [done|done|]. intros s2 Hi2 Hm2 _ _ Hp2.
    apply wp_ret. split; [done|]. exists (pos s1). split_and!; [done|by eapply Hp2|done|by eapply grew_moved]. }
  unfold parse_args_step. apply wp_bind, wp_current_byte. case_bool_decide as Hclose; [by apply Hend|].
  apply wp_bind. eapply wp_mono; [apply (one_arg fuel name s IH Hinv); lia| |done]. cbn beta.
  intros arg s1 (Hi1 & Hle1 & Hg1). cbv zeta.
  apply wp_bind, wp_skip_trivia; [done|done|]. intros s2 Hi2 Hm2 Hle2.
  assert (Hg2 : ∀ hi, pos s1 ≤ hi → listed r (args ++ [arg]) lo hi s2).
  { intros hi Hhi. eapply grew_moved; [|exact Hm2]. eapply snoc_origins; eassumption. }
  apply wp_bind, wp_current_byte. case_bool_decide as Hcomma.
  - pose proof (current_lt _ _ Hcomma). apply wp_bind, wp_advance_one; [done|done|]. intros s3 Hi3 Hm3 _ Hlt3 _.
    apply wp_bind, wp_skip_trivia; [done|done|]. intros s4 Hi4 Hm4 Hle4.
    eapply wp_mono; [apply (args_ok _ IH r lo name (args ++ [arg]) s4 Hi4)| |done]; [|lia|].
    + eapply grew_moved; [apply Hg2; lia|]. eapply moved_trans; eassumption.
    + cbn beta. intros args' s5 (Hi5 & hi & Hhi & Hrest). split; [done|]. exists hi. split; [lia|done].
  - case_bool_decide as Hparen; [|by apply wp_bind, wp_get, wp_fail]. apply Hend; [done|lia|done|by apply Hg2].
Qed.

(** Continuing the loop after an item was pushed. *)
Lemma loop_again fuel r lo expected s nodes1 s1 :
  productions_ok fuel → closer_ok expected → Inv s1 → 3 * left s + 1 < S fuel →
  pos s < pos s1 → listed r nodes1 lo (pos s1) s1 →
  wp (parse_loop source fuel expected (pos s1) nodes1) (list_post r lo expected s) failed s1.
Proof.
  intros IH Hok Hi1 Hf Hlt Hg. pose proof (inv_le _ Hi1).
  eapply wp_mono; [apply (loop_ok _ IH r lo expected (pos s1) nodes1 s1 Hi1 Hok (inv_boundary _ Hi1)); [lia|done|lia]| |done].
  cbn beta. intros nodes' s' (Hi' & hi & Hhi & Hrest). split; [done|]. exists hi. split; [lia|done].
Qed.

Lemma origin_count_wp (Q : nat → PState → Prop) R s :
  (∀ n, (∀ o, plan_origins s = Some o → n = length o) → Q n s) → wp origin_count Q R s.
Proof. intros HQ. apply wp_bind, wp_get, wp_ret, HQ. by intros o ->. Qed.

(** A binding or a call found in the loop: the text before it is flushed, and the
    loop goes on. *)
Lemma loop_recorded fuel r lo expected text_start nodes n ckpt s s1 s2 :
  productions_ok fuel → Inv s → closer_ok expected → boundary text_start → text_start ≤ pos s →
  listed r nodes lo text_start s1 → pos s1 = pos s → 3 * left s + 1 < S fuel →
  (∀ o, plan_origins s1 = Some o → ckpt = length o) → node_post (pos s1) s1 n s2 → pos s1 < pos s2 →
  wp (let* nodes := flush_text_before_recorded source nodes text_start (pos s) ckpt in
      let* s := get in
      parse_loop source fuel expected (pos s) (nodes ++ [n])) (list_post r lo expected s) failed s2.
Proof.
  intros IH Hinv Hok Hbt Hts Hg Hp1 Hf Hck (Hi2 & Hle2 & Hg2) Hlt2. rewrite Hp1 in Hg2.
  apply wp_bind. eapply (wp_flush_before source Hvalid nodes n lo text_start (pos s) (pos s2) ckpt _ _ r s1);
    [done|done|by apply inv_boundary|lia|done|done|done|done|].
  intros nodes1 s3 Hi3 Hp3 Hg3. apply wp_bind, wp_get. apply loop_again; [done|done|done|done|lia|]. by rewrite Hp3.
Qed.

(** The last alternatives of an iteration: a call, or one more character of text. *)
Lemma loop_call fuel r lo expected text_start nodes s s1 :
  productions_ok fuel → Inv s → closer_ok expected → boundary text_start → text_start ≤ pos s →
  listed r nodes lo text_start s1 →
  3 * left s + 1 < S fuel → pos s < length source → Inv s1 → pos s1 = pos s →
  wp (let* origin_checkpoint := origin_count in
      let* call := if inside_sequencing expected then try_parse_call source fuel else ret None in
      match call with
      | Some call =>
          let* nodes := flush_text_before_recorded source nodes text_start (pos s) origin_checkpoint in
          let* s := get in
          parse_loop source fuel expected (pos s) (nodes ++ [call])
      | None => advance_one_byte source ;;* parse_loop source fuel expected text_start nodes
      end) (list_post r lo expected s) failed s1.
Proof.
  intros IH Hinv Hok Hbt Hts Hg Hf Hlt Hi1 Hp1. apply wp_bind, origin_count_wp. intros ckpt Hck.
  assert (Htext : ∀ s2, Inv s2 → moved s1 s2 → pos s2 = pos s →
    wp (advance_one_byte source ;;* parse_loop source fuel expected text_start nodes) (list_post r lo expected s) failed s2).
  { intros s2 Hi2 Hm2 Hp2. apply wp_bind, wp_advance_one; [done|done|]. intros s3 Hi3 Hm3 _ Hlt3 _.
    eapply wp_mono; [apply (loop_ok _ IH r lo expected text_start nodes s3 Hi3 Hok Hbt)| |done]; [lia| |lia|].
    - eapply grew_moved; [exact Hg|]. eapply moved_trans; eassumption.
    - cbn beta. intros nodes' s' (Hi' & hi & Hhi & Hrest). split; [done|]. exists hi. split; [lia|done]. }
  apply wp_bind. destruct (inside_sequencing expected); [|by apply wp_ret, Htext].
  eapply wp_mono; [apply (call_ok _ IH s1 Hi1); lia| |done]. cbn beta. intros [call|] s2 Hpost.
  - destruct Hpost. eapply loop_recorded; eassumption.
  - destruct Hpost as (Hi2 & Hm2 & Hp2). apply Htext; [done|done|lia].
Qed.

(** The alternatives after the escapes: variables and blocks first. *)
Lemma loop_items fuel r lo expected text_start nodes s s1 :
  productions_ok fuel → Inv s → closer_ok expected → boundary text_start → text_start ≤ pos s →
  listed r nodes lo text_start s1 →
  3 * left s + 1 < S fuel → pos s < length source → Inv s1 → pos s1 = pos s →
  wp (let* var := if bool_decide (byte_at source (pos s) = Some 36%Z) then try_parse_var_ref source else ret None in
      match var with
      | Some name =>
          let* s := get in
          let var_start := (pos s - length name - 1)%nat in
          let* nodes := flush_text source nodes text_start var_start in
          record_origin source var_start (pos s) ;;*
          parse_loop source fuel expected (pos s) (nodes ++ [VarRef name])
      | None =>
      let* opener := try_parse_opener source in
      match opener with
      | Some tag =>
          let* nodes := flush_text source nodes text_start (tag_start tag) in
          let* expr := parse_typed_expr source fuel tag in
          let* s := get in
          parse_loop source fuel expected (pos s) (nodes ++ [expr])
      | None =>
      let* origin_checkpoint := origin_count in
      let* call := if inside_sequencing expected then try_parse_call source fuel else ret None in
      match call with
      | Some call =>
          let* nodes := flush_text_before_recorded source nodes text_start (pos s) origin_checkpoint in
          let* s := get in
          parse_loop source fuel expected (pos s) (nodes ++ [call])
      | None => advance_one_byte source ;;* parse_loop source fuel expected text_start nodes
      end
      end
      end) (list_post r lo expected s) failed s1.
Proof.
  intros IH Hinv Hok Hbt Hts Hg Hf Hlt Hi1 Hp1. apply wp_bind.
  match goal with |- wp _ ?Q _ _ => assert (Hopener : Q None s1) end.
  { apply wp_bind, wp_opener; [done|done|done|done|by apply loop_call|].
    intros tag s2 Hi2 Hm2 Hle2 Hst Htag Hopen. pose proof (inv_le _ Hi2).
    assert (Hbs : boundary (tag_start tag)) by (rewrite Hst; by apply inv_boundary).
    apply wp_bind, (wp_flush_text source Hvalid nodes lo _ _ _ _ r); [done|done|done|lia|lia|by eapply grew_moved|].
    intros nodes1 s3 Hi3 Hp3 Hg3. rewrite <-Hp3 in Hopen. apply wp_bind.
    eapply wp_mono; [apply (typed_ok _ IH tag s3 Hi3 Htag Hbs); [lia|done|lia]| |done]. cbn beta.
    intros n s4 (Hi4 & Hle4 & Hg4). apply wp_bind, wp_get. apply loop_again; [done|done|done|done|lia|].
    eapply snoc_origins; [eassumption|eassumption|done]. }
  case_bool_decide as Hd; [|by apply wp_ret].
  apply wp_var_ref; [done|done|exact Hopener|]. intros name s2 Hi2 Hm2 Hp2 Htext. apply wp_bind, wp_get. cbv zeta.
  replace (pos s2 - length name - 1) with (pos s1) by lia.
  apply wp_bind, (wp_flush_text source Hvalid nodes lo _ _ _ _ r);
    [done|done|by apply inv_boundary|lia|lia|by eapply grew_moved|].
  intros nodes1 s3 Hi3 Hp3 Hg3.
  apply wp_bind, wp_record_origin; [done|done|by apply inv_boundary|by apply inv_boundary|lia|lia|].
  intros s4 Hi4 Hg4 Hp4. rewrite <-Hp3 in Hg4, Htext |- *. rewrite <-Hp4 in Hg4, Htext |- *.
  apply loop_again; [done|done|done|done|lia|].
  eapply snoc_origins; [exact Hg3|apply var_origin; [exact Htext|lia|exact Hg4]|done].
Qed.

Lemma loop_step fuel r lo expected text_start nodes s :
  productions_ok fuel → Inv s → closer_ok expected → boundary text_start → text_start ≤ pos s →
  listed r nodes lo text_start s → 3 * left s + 1 < S fuel →
  wp (parse_loop source (S fuel) expected text_start nodes) (list_post r lo expected s) failed s.
Proof.
  intros IH Hinv Hok Hbt Hts Hg Hf.
  change (parse_loop source (S fuel) expected text_start nodes) with
    (parse_loop_step source (parse_loop source fuel) (parse_typed_expr source fuel)
       (try_parse_let_binding source fuel) (try_parse_call source fuel) expected text_start nodes).
  unfold parse_loop_step. cbv zeta. apply wp_bind, wp_get.
  assert (Hflush : ∀ Q : list ONode → PState → Prop,
    (∀ nodes' s', Inv s' → pos s' = pos s → listed r nodes' lo (pos s) s' → Q nodes' s') →
    wp (flush_text source nodes text_start (pos s)) Q failed s).
  { intros Q. by apply (wp_flush_text source Hvalid nodes lo); [|done|apply inv_boundary|..]. }
  destruct (Nat.ltb_spec (pos s) (length source)) as [Hlt|Hge].
  2:{ destruct expected as [tag|]; [by apply wp_fail|].
      apply Hflush. intros nodes' s' Hi Hp Hg'. split; [done|]. exists (pos s). split_and!; [lia|lia|done|done]. }
  destruct (closer_here source expected (pos s)) as [n|] eqn:Hc.
  { destruct (closer_here_range _ Hvalid _ _ _ Hok Hc) as (Hrange & _ & _ & Hclose).
    apply wp_bind, Hflush. intros nodes1 s1 Hi1 Hp1 Hg1. apply wp_bind, wp_advance_ascii; [done|done|by rewrite Hp1|].
    intros s2 Hi2 Hm2 Hp2. apply wp_ret. split; [done|]. exists (pos s).
    split_and!; [lia|lia|by rewrite Hp2, Hp1|by eapply grew_moved]. }
  destruct (inside_sequencing expected && bool_decide (byte_at source (pos s) = Some 35%Z)).
  { apply wp_bind, Hflush. intros nodes1 s1 Hi1 Hp1 Hg1. apply wp_bind, wp_skip_line; [done|done|].
    intros s2 Hi2 Hm2 Hle2 Hlt2. apply wp_bind, wp_get. apply loop_again; [done|done|done|done|lia|].
    eapply grew_moved; [|exact Hm2]. eapply wider_origins; [|exact Hg1]. lia. }
  apply wp_bind. apply (wp_mono _ (λ _ s', s' = s) _ failed); [|intros is_let s' ->|done].
  { destruct (inside_sequencing expected); [by apply wp_let_keyword|by apply wp_ret]. }
  apply wp_bind, origin_count_wp. intros ckpt Hck. apply wp_bind.
  apply (wp_mono _ (option_post s) _ failed); [| |done].
  { destruct is_let; [apply (let_ok _ IH s Hinv); lia|]. apply wp_ret. split_and!; [done|apply moved_refl|done]. }
  intros [binding|] s1 Hpost.
  { destruct Hpost. by eapply loop_recorded. }
  destruct Hpost as (Hi1 & Hm1 & Hp1).
  apply wp_bind, (wp_escape expected text_start nodes lo _ r); [done|done|done|lia|by eapply grew_moved| |].
  - intros s2 Hi2 Hm2 Hp2. apply (loop_items fuel r lo expected text_start nodes s s2); try done; [|lia].
    eapply grew_moved; [exact Hg|]. eapply moved_trans; eassumption.
  - intros nodes1 s2 Hi2 Hlt2 Hg2. apply wp_bind, wp_get. apply loop_again; [done|done|done|done|lia|done].
Qed.

Lemma all_productions_ok fuel : productions_ok fuel.
Proof.
  induction fuel as [|fuel IH]; [constructor; intros; lia|].
  constructor; intros; [by apply loop_step|by apply typed_step|by apply let_step|by apply call_step|by apply args_step].
Qed.
End Productions.
