(* ===== verification/Escape.v ===== *)
(** * Escaping literal bodies

    [escape_typed_body_literal] of [crates/ostadix-api/src/parser.rs], which the
    source linker uses to embed text in a typed block, and its two recognisers.
    The functions see the body from the current position on. *)

From S2P Require Import Prelude.
From S2P Require Import Utf8.
From S2P Require Import Environment.
From S2P Require Import BackendCatalog.
From S2P Require Import Syntax.
From S2P Require Import Parser.
From stdpp Require Import options.

Definition exact_escaped_closer_len_at (remaining closer : str) : option nat :=
  match strip_prefix (lit ")_") closer with
  | None => None
  | Some raw_tag =>
      if negb (starts_with remaining closer) then None
      else
        let next := remaining !! length closer in
        let has_attributes := bool_decide (123 ∈ raw_tag) in
        let tag_before_attributes := default raw_tag (head (split_byte 123 raw_tag)) in
        let has_environment := bool_decide (91 ∈ tag_before_attributes) in
        let extends_tag :=
          if has_attributes then false
          else if has_environment then bool_decide (next = Some 123)
          else match next with Some b => is_ident_continue b | None => false end
               || bool_decide (next = Some 91 ∨ next = Some 123) in
        if extends_tag then None else Some (length closer)
  end.

(** The optional environment slot at [position]: the index after it, or no opener. *)
Definition skip_environment (bytes : str) (position : nat) : option nat :=
  if bool_decide (bytes !! position = Some 91) then
    let end_ := S position in
    let inner :=
      if bool_decide (bytes !! end_ = Some 42) then Some (S end_)
      else
        let digits := span_len is_digit (drop end_ bytes) in
        if (digits =? 0)%nat then None else Some (end_ + digits)%nat in
    match inner with
    | None => None
    | Some end_ => Some (if bool_decide (bytes !! end_ = Some 93) then S end_ else position)
    end
  else Some position.

(** The optional attribute slot at [position]. *)
Definition skip_attributes (bytes : str) (position : nat) : nat :=
  if bool_decide (bytes !! position = Some 123) then
    let end_ := (S position + span_len (λ b, negb (b =? 125)%Z) (drop (S position) bytes))%nat in
    if (S position <? end_)%nat && bool_decide (bytes !! end_ = Some 125) then S end_ else position
  else position.

Definition registered_opener_len (bytes : str) (registered_backends : list str) : option nat :=
  match bytes with
  | [] => None
  | b :: r =>
      if negb (is_ident_start b) then None
      else
        let position := S (span_len is_ident_continue r) in
        if negb (bool_decide (take position bytes ∈ registered_backends)) then None
        else match skip_environment bytes position with
        | None => None
        | Some position =>
            let position := skip_attributes bytes position in
            if starts_with (drop position bytes) (lit "^(") then Some (position + 2)%nat else None
        end
  end.

(** Output before that of the later iterations. *)
Definition emit (out : str) (tail : outcome unit str) : outcome unit str :=
  match tail with
  | Ok t => Ok (out ++ t)
  | Err e => Err e
  | Panic => Panic
  | NoFuel => NoFuel
  end.

(** The loop, from the current position on; slicing off a character boundary is a
    panic. *)
Fixpoint escape_loop (fuel : nat) (rest closer : str) (registered_backends : list str) : outcome unit str :=
  match rest with
  | [] => Ok []
  | b :: r =>
      match fuel with
      | O => NoFuel
      | S fuel =>
          if is_cont b then Panic
          else match exact_escaped_closer_len_at rest closer with
          | Some n => emit (lit "\" ++ closer) (escape_loop fuel (drop n rest) closer registered_backends)
          | None =>
          match registered_opener_len rest registered_backends with
          | Some n => emit (lit "\" ++ take n rest) (escape_loop fuel (drop n rest) closer registered_backends)
          | None =>
          if (b =? 36) && match r with c :: _ => is_ident_start c | [] => false end
          then emit (lit "\" ++ lit "$") (escape_loop fuel r closer registered_backends)
          else emit (take (lead_len b) rest) (escape_loop fuel (drop (lead_len b) rest) closer registered_backends)
          end
          end
      end
  end.

Definition escape_typed_body_literal (body closer : str) (registered_backends : list str) : outcome unit str :=
  escape_loop (length body) body closer registered_backends.

(** ** Properties *)

(** The second text is the first with backslashes inserted. *)
Inductive inserted : str → str → Prop :=
| inserted_nil : inserted [] []
| inserted_keep b s t : inserted s t → inserted (b :: s) (b :: t)
| inserted_backslash s t : inserted s t → inserted s (92 :: t).

Lemma inserted_app l s t : inserted s t → inserted (l ++ s) (l ++ t).
Proof. intros H. induction l; simpl; [done|by constructor]. Qed.

Lemma closer_shape rest closer n :
  exact_escaped_closer_len_at rest closer = Some n →
  n = length closer ∧ (∃ c, closer = 41 :: c) ∧ ∃ r, rest = closer ++ r.
Proof.
  unfold exact_escaped_closer_len_at. destruct (strip_prefix _ closer) as [raw|] eqn:E; [|done].
  apply strip_prefix_Some in E. destruct (starts_with rest closer) eqn:Hs; [|done]. cbn [negb].
  match goal with |- (if ?x then None else _) = _ → _ => destruct x; [done|] end. intros [= <-].
  apply starts_with_spec in Hs as [r ->]. split_and!; [done|subst; by eexists|eauto].
Qed.

Lemma opener_shape rest tags n :
  registered_opener_len rest tags = Some n →
  ∃ pre r, rest = pre ++ lit "^(" ++ r ∧ n = (length pre + 2)%nat ∧ pre ≠ [].
Proof.
  unfold registered_opener_len. destruct rest as [|b r]; [done|]. destruct (negb (is_ident_start b)); [done|].
  destruct (negb _); [done|]. destruct (skip_environment _ _) as [p|] eqn:He; [|done].
  set (q := skip_attributes _ _). destruct (starts_with _ _) eqn:Hs; [|done]. intros [= <-].
  apply starts_with_spec in Hs as [r' Hr]. exists (take q (b :: r)), r'.
  assert (Hq : (0 < q)%nat).
  { assert (0 < p)%nat; [|unfold q, skip_attributes; destruct (bool_decide _); [destruct (_ && _)|]; lia].
    unfold skip_environment in He. destruct (bool_decide _); [|injection He as <-; lia].
    repeat case_match; simplify_eq; lia. }
  assert (Hlen : (q + 2 ≤ length (b :: r))%nat).
  { apply (f_equal length) in Hr. rewrite length_drop, length_app in Hr. cbn in Hr |- *. lia. }
  split_and!.
  - rewrite <-Hr. symmetry. apply take_drop.
  - rewrite length_take. lia.
  - destruct q; [lia|done].
Qed.

Lemma opener_rest_valid rest tags n :
  utf8_valid rest = true → registered_opener_len rest tags = Some n → utf8_valid (drop n rest) = true.
Proof.
  intros Hv (pre & r & -> & -> & _)%opener_shape. apply boundary_valid; [done|].
  replace (length pre + 2)%nat with (S (length pre + 1)) by lia.
  apply (boundary_after_ascii _ _ 40); [done| |lia].
  rewrite lookup_app_r by lia. by replace (length pre + 1 - length pre)%nat with 1%nat by lia.
Qed.

(** Bytes that no escape starts with or contains. *)
Definition plain (s : str) : Prop := Forall (λ b, b ∉ lit "$)^") s.

Lemma escape_loop_ok fuel rest closer tags :
  utf8_valid rest = true → utf8_valid closer = true → (length rest ≤ fuel)%nat →
  ∃ out, escape_loop fuel rest closer tags = Ok out ∧ inserted rest out ∧ (plain rest → out = rest).
Proof.
  revert rest. induction fuel as [|fuel IH]; intros rest Hv Hc Hlen.
  { destruct rest; [|simpl in Hlen; lia]. exists []. split_and!; [done|constructor|done]. }
  destruct rest as [|b r]; [exists []; split_and!; [done|constructor|done]|].
  assert (Hstep : ∀ n pre lead, b :: r = pre ++ drop n (b :: r) → (0 < n)%nat → utf8_valid (drop n (b :: r)) = true →
    (lead = pre ∨ lead = lit "\" ++ pre ∧ ¬ plain (b :: r)) →
    ∃ out, emit lead (escape_loop fuel (drop n (b :: r)) closer tags) = Ok out ∧
      inserted (b :: r) out ∧ (plain (b :: r) → out = b :: r)).
  { intros n pre lead Heq Hn Hd Hlead. destruct (IH (drop n (b :: r))) as (out & -> & Hins & Hp);
      [done|done|rewrite length_drop; simpl in *; lia|].
    exists (lead ++ out). split; [done|]. rewrite Heq.
    destruct Hlead as [->|[-> Hnp]]; (split; [|intros Hpl]).
    - by apply inserted_app.
    - rewrite Hp; [done|]. by apply Forall_app in Hpl as [_ ?].
    - apply inserted_backslash. by apply inserted_app.
    - rewrite <-Heq in Hpl. done. }
  assert (Hin : ∀ c pre post, c ∈ lit "$)^" → b :: r = pre ++ c :: post → ¬ plain (b :: r)).
  { intros c pre post Hc' -> Hp. apply Forall_app in Hp as [_ Hp]. by apply Forall_cons in Hp as [? _]. }
  pose proof (is_boundary_0 _ Hv) as Hb. unfold is_boundary in Hb. simpl in Hb. apply negb_true_iff in Hb.
  cbn [escape_loop]. rewrite Hb. destruct (exact_escaped_closer_len_at (b :: r) closer) as [n|] eqn:Ec.
  { destruct (closer_shape _ _ _ Ec) as (-> & [c Hcl] & [r' Hr]).
    assert (Hdrop : drop (length closer) (b :: r) = r') by (rewrite Hr; apply drop_app_length).
    apply (Hstep _ closer (lit "\" ++ closer)); [by rewrite Hdrop|by subst closer; simpl; lia| |].
    - by rewrite Hdrop, <-(utf8_valid_app closer), <-Hr.
    - right. split; [done|]. apply (Hin 41 [] (c ++ r')); [by apply (bool_decide_unpack _)|by rewrite Hr, Hcl]. }
  destruct (registered_opener_len (b :: r) tags) as [n|] eqn:Eo.
  { pose proof (opener_rest_valid _ _ _ Hv Eo) as Hd.
    destruct (opener_shape _ _ _ Eo) as (pre & r' & Hr & -> & Hne).
    apply (Hstep _ (take (length pre + 2) (b :: r)) (lit "\" ++ take (length pre + 2) (b :: r))); [by rewrite take_drop|lia|done|].
    right. split; [done|]. apply (Hin 94 pre (40 :: r')); [by apply (bool_decide_unpack _)|done]. }
  destruct ((b =? 36) && _) eqn:Ed.
  { apply andb_prop in Ed as [->%Z.eqb_eq _]. apply (Hstep 1%nat [36] (lit "\" ++ lit "$")); [done|lia|done|].
    right. split; [done|]. apply (Hin 36 [] r); [by apply (bool_decide_unpack _)|done]. }
  destruct (boundary_next (b :: r) 0 b) as [Hn Hpos]; [done|by apply is_boundary_0|done|].
  apply (Hstep _ (take (lead_len b) (b :: r)) (take (lead_len b) (b :: r))); [by rewrite take_drop|done|by apply boundary_valid|by left].
Qed.

(** Escaping is total and only inserts: for every text and closer the loop ends
    without leaving a character boundary, its output is the text with
    backslashes inserted, and a text without dollars, closing parentheses and
    carets is left as it is. *)
Lemma escape_only_inserts (body closer : str) (registered_backends : list str) :
  utf8_valid body = true → utf8_valid closer = true →
  ∃ out, escape_typed_body_literal body closer registered_backends = Ok out ∧ inserted body out ∧
    (plain body → out = body).
Proof. intros Hb Hc. by apply escape_loop_ok. Qed.

Lemma escape_only_inserts_witness :
  escape_typed_body_literal (lit "$x )_html") (lit ")_html") [lit "html"] = Ok (lit "\$x \)_html") ∧
  inserted (lit "$x )_html") (lit "\$x \)_html").
Proof.
  destruct (escape_only_inserts (lit "$x )_html") (lit ")_html") [lit "html"]) as (out & Ho & Hi & _);
    [vm_compute; reflexivity..|].
  assert (out = lit "\$x \)_html") as -> by (vm_compute in Ho; injection Ho; intros; subst out; reflexivity).
  split; [exact Ho|exact Hi].
Defined.
