(* ===== verification/ParserTheorems.v ===== *)
(** * Theorems about the parser

    Parsing is total on valid UTF-8, the origin sidecar holds at each index the span
    of the plan node with that index, and two limits of source reconstruction and
    of escaping, with concrete inputs. *)

From S2P Require Import Prelude.
From S2P Require Import Utf8.
From S2P Require Import Environment.
From S2P Require Import BackendCatalog.
From S2P Require Import Syntax.
From S2P Require Import Ir.
From S2P Require Import BashScan.
From S2P Require Import PlanTheorems.
From S2P Require Import Parser.
From S2P Require Import ParserFacts.
From S2P Require Import ParserTokens.
From S2P Require Import ParserProductions.
From S2P Require Import Escape.
From stdpp Require Import options.

#[local] Open Scope nat_scope.

Section Parsing.
Context (source : str) (Hvalid : utf8_valid source = true).
Context {dialect : SyntaxDialect} {laws : SyntaxDialectLaws dialect}.
#[local] Set Default Proof Using "Hvalid laws".

Lemma parse_until_ok s :
  PInv source s → wp (parse_until source None) (list_post source s (pos s) None s) (λ _ s', PInv source s') s.
Proof.
  intros Hinv. apply wp_bind, wp_get.
  apply (loop_ok _ _ (all_productions_ok source Hvalid (parse_fuel source))); try done.
  - by destruct Hinv.
  - by apply no_origins.
  - unfold parse_fuel. lia.
Qed.

Lemma reset_inv s d : is_boundary source (pos s) = true →
  PInv source (reset_recording None None s) ∧
  PInv source (set_depth d (reset_recording (Some (line_start_table source)) (Some []) s)).
Proof. intros Hb. split; (constructor; [done|]); simpl; intros o [= <-]. split; [done|constructor]. Qed.

Lemma parse_ok s : is_boundary source (pos s) = true →
  wp (parse source) (λ _ s', PInv source s') (λ _ s', PInv source s') s.
Proof.
  intros Hb. apply wp_bind, wp_modify. eapply wp_mono; [apply parse_until_ok, (reset_inv s 0 Hb)| |done].
  by intros nodes s' (Hi & _).
Qed.

Lemma parse_with_origins_ok sha s : is_boundary source (pos s) = true →
  wp (parse_with_origins source sha)
    (λ doc s', is_boundary source (pos s') = true ∧
       origins_of source (doc_nodes doc) (pos s) (length source) (doc_plan_origins doc) ∧
       Forall (span_ok source (length source)) (doc_plan_origins doc) ∧
       doc_source_len doc = length source)
    (λ _ s', is_boundary source (pos s') = true) s.
Proof.
  intros Hb. apply wp_bind, wp_modify, wp_bind.
  eapply wp_mono; [apply parse_until_ok, (reset_inv s 0 Hb)| |by intros e s' []]. cbn beta.
  intros nodes s' (Hi & hi & Hhi & _ & _ & _ & Hg). simpl in Hg. destruct Hg as (os & Ho & Hos).
  apply wp_bind, wp_get, wp_bind, wp_modify. rewrite Ho. apply wp_ret. cbn [doc_plan_origins doc_nodes doc_source_len].
  destruct Hi as [Hp Hinv]. destruct (Hinv os Ho) as [_ Hf]. pose proof (is_boundary_le _ _ Hp).
  split_and!; [done| | |done].
  - eapply origins_of_mono; [reflexivity| |exact Hos]. lia.
  - eapply Forall_impl; [exact Hf|]. intros x. by apply span_ok_mono.
Qed.
End Parsing.

(** The diagnostic position of a cursor on a boundary is the cursor. *)
Lemma back_to_boundary_id s i : is_boundary s i = true → back_to_boundary s i = i.
Proof. destruct i; simpl; [done|]. by intros ->. Qed.

(** C1. Parsing is total: on every valid UTF-8 source, with every dialect that keeps
    its contract, both entry points end with a tree or with a diagnosed error,
    never with a panic (slices stay on character boundaries, indices in range)
    and never out of fuel, and the diagnostic position of the final state is the
    cursor itself. *)
Theorem parse_total (source : str) (dialect : SyntaxDialect) (sha : str → str) :
  utf8_valid source = true → SyntaxDialectLaws dialect →
  (let '(s, r) := parse source new_parser in
   ((∃ nodes, r = Ok nodes) ∨ (∃ e, r = Err e)) ∧ start_byte (diagnostic_position source s) = pos s) ∧
  (let '(s, r) := parse_with_origins source sha new_parser in
   ((∃ doc, r = Ok doc) ∨ (∃ e, r = Err e)) ∧ start_byte (diagnostic_position source s) = pos s).
Proof.
  intros Hv Hl.
  assert (Hb : is_boundary source (pos new_parser) = true) by by apply is_boundary_0.
  assert (Hdiag : ∀ s, is_boundary source (pos s) = true → start_byte (diagnostic_position source s) = pos s).
  { intros s Hs. unfold diagnostic_position. cbn [start_byte].
    rewrite Nat.min_l by by apply is_boundary_le. by apply back_to_boundary_id. }
  pose proof (parse_ok source Hv new_parser Hb) as H1.
  pose proof (parse_with_origins_ok source Hv sha new_parser Hb) as H2. unfold wp in H1, H2. split.
  - destruct (parse source new_parser) as [s [nodes|e| |]]; try done; destruct H1; eauto.
  - destruct (parse_with_origins source sha new_parser) as [s [doc|e| |]]; try done; [destruct H2|]; eauto.
Qed.

(** The dialect of the engine: the tags of the catalog. *)
Definition catalog_dialect `{DG : Digests} : SyntaxDialect :=
  hash_set_dialect global_specs specification_sha256_v6 (registered_backend_names global_specs).

(** ** Spans and plan nodes *)

Scheme origin_of_rule := Minimality for origin_of Sort Prop
with origins_of_rule := Minimality for origins_of Sort Prop.
Combined Scheme origins_rule from origin_of_rule, origins_of_rule.

Lemma origins_not_empty source `{SyntaxDialect} :
  (∀ n a b os, origin_of source n a b os → Forall (λ o, start_byte o < end_byte o) os) ∧
  (∀ ns lo hi os, origins_of source ns lo hi os → Forall (λ o, start_byte o < end_byte o) os).
Proof. apply (origins_rule source); intros; rewrite ?Forall_cons, ?Forall_app; auto. Qed.

Section Plan.
Context `{DG : Digests} (tags : list str).
#[local] Instance plan_dialect : SyntaxDialect := hash_set_dialect global_specs specification_sha256_v6 tags.

(** The plan of a node is the node, then the plans of its recorded children. *)
Lemma flatten_lower n :
  flatten_node_for_plan (lower_node n) = lower_node n :: flatten_for_plan (lower (recorded_children n)).
Proof.
  destruct n as [t|x|x e|lang env attr body|f args]; try done.
  - simpl. unfold flatten_for_plan, flatten_nodes_for_plan. simpl. by rewrite app_nil_r.
  - cbn [lower_node flatten_node_for_plan is_quote_exec recorded_children].
    change (bool_decide (execution (global_interface_for lang) = InlineAst) &&
            bool_decide (canonical (global_interface_for lang) = lit "quote"))
      with (owns_quoted_syntax lang).
    by destruct (owns_quoted_syntax lang).
  - cbn [lower_node]. by case_bool_decide.
Qed.

(** The span of the plan node [p]: its text is that of a node that lowers to [p]. *)
Definition span_of (source : str) (p : OIr) (o : SourceSpanV1) : Prop :=
  ∃ n, p = lower_node n ∧ spells n (span_text source o).

Lemma origins_follow_plan source :
  (∀ n a b os, origin_of source n a b os → Forall2 (span_of source) (flatten_node_for_plan (lower_node n)) os) ∧
  (∀ ns lo hi os, origins_of source ns lo hi os → Forall2 (span_of source) (flatten_for_plan (lower ns)) os).
Proof.
  apply (origins_rule source).
  - intros n o os Hs _ _ IH. rewrite flatten_lower. constructor; [by exists n|done].
  - constructor.
  - intros n ns lo a b hi os os' _ _ IH1 _ IH2. by apply Forall2_app.
Qed.
End Plan.

(** C2. The origin sidecar fits the plan: in the result of a successful
    [parse_with_origins] the spans form the tree of the program in source preorder
    (a node's span, then those of its children inside it, in source order and
    without overlap, quoted bodies contributing none), so the span at each index is
    that of the plan node at that index of the lowered program: its text is the
    whole reference, block or call, the binding from [let] on, or the bytes of the
    text.  Every span is a range of the source on character boundaries. *)
Theorem origins_match_plan `{DG : Digests} (source : str) (tags : list str) (sha : str → str) (doc : ParsedDocumentV1)
    (s : PState) :
  utf8_valid source = true →
  @parse_with_origins source (hash_set_dialect global_specs specification_sha256_v6 tags) sha new_parser = (s, Ok doc) →
  @origins_of source (hash_set_dialect global_specs specification_sha256_v6 tags)
    (doc_nodes doc) 0 (length source) (doc_plan_origins doc) ∧
  Forall2 (span_of tags source) (flatten_for_plan (lower (doc_nodes doc))) (doc_plan_origins doc) ∧
  Forall (λ o, start_byte o < end_byte o ∧ end_byte o ≤ length source ∧
               is_boundary source (start_byte o) = true ∧ is_boundary source (end_byte o) = true)
    (doc_plan_origins doc) ∧
  doc_source_len doc = length source.
Proof.
  intros Hv Heq.
  pose proof (parse_with_origins_ok source Hv
    (dialect := hash_set_dialect global_specs specification_sha256_v6 tags) sha new_parser) as Hwp.
  destruct (wp_Ok _ _ _ _ _ _ (Hwp (is_boundary_0 _ Hv)) Heq) as (_ & Hos & Hspans & Hsl).
  split_and!; [done|by eapply origins_follow_plan| |done].
  apply origins_not_empty in Hos. eapply Forall_impl; [apply Forall_and; exact (conj Hspans Hos)|].
  intros o [(_ & H1 & H2 & H3) H4]. split_and!; [done|by apply is_boundary_le|done|done].
Qed.

(** Digests that are enough to evaluate the catalog. *)
Definition no_digests : Digests :=
  {| sha256_hex := λ _, []; hash_bytes := λ _ _, []; specification_sha256_v6 := λ _, [] |}.

Definition sample : str :=
  lit "let x = text^(a)_text quote^(let y = text^(b)_text)_quote f($x)".

Lemma parse_total_witness :
  ∃ nodes s, @parse sample (@catalog_dialect no_digests) new_parser = (s, Ok nodes) ∧
    start_byte (diagnostic_position sample s) = pos s.
Proof.
  destruct (parse_total sample (@catalog_dialect no_digests) (λ _, [])) as [H _];
    [vm_compute; reflexivity|unfold catalog_dialect; apply _|].
  destruct (parse sample new_parser) as [s r] eqn:E. destruct H as [H1 H2].
  assert (Hr : ∃ nodes, r = Ok nodes).
  { destruct r as [nodes| | |]; [eauto|exfalso..]; vm_compute in E; discriminate E. }
  destruct Hr as [nodes ->]. exists nodes, s. split; [reflexivity|exact H2].
Defined.

(** The spans of the sample, in the order of its eight plan nodes. *)
Lemma origins_match_plan_witness :
  ∃ doc s, @parse_with_origins sample (@catalog_dialect no_digests) (λ _, []) new_parser = (s, Ok doc) ∧
    map (span_text sample) (doc_plan_origins doc) =
      map lit ["let x = text^(a)_text"; "text^(a)_text"; "a"; " ";
               "quote^(let y = text^(b)_text)_quote"; " "; "f($x)"; "$x"]%string ∧
    length (@flatten_for_plan (@lower no_digests (doc_nodes doc))) = 8.
Proof.
  destruct (@parse_with_origins sample (@catalog_dialect no_digests) (λ _, []) new_parser) as [s [doc|e| |]] eqn:E;
    [|exfalso; vm_compute in E; discriminate E..].
  exists doc, s. split; [reflexivity|].
  assert (Hd : doc_plan_origins doc = doc_plan_origins (match (@parse_with_origins sample (@catalog_dialect no_digests) (λ _, []) new_parser).2 with Ok d => d | _ => doc end))
    by (rewrite E; reflexivity).
  destruct (@origins_match_plan no_digests sample _ _ doc s eq_refl E) as (_ & Hplan & _).
  apply Forall2_length in Hplan. rewrite Hplan, Hd. split; vm_compute; reflexivity.
Defined.

(** ** Limits of reconstruction and of escaping *)

Definition parsed (source : str) : option (list ONode) :=
  match @parse source (@catalog_dialect no_digests) new_parser with
  | (_, Ok nodes) => Some nodes
  | _ => None
  end.

(** Source reconstruction does not preserve escapes: a literal dollar before a name
    becomes a variable reference when the reconstructed source is parsed again. *)
Lemma reconstruct_loses_escape :
  ∃ nodes, parsed (lit "\$x") = Some nodes ∧ parsed (reconstruct_onodes nodes) = Some [VarRef (lit "x")] ∧
    nodes ≠ [VarRef (lit "x")].
Proof. eexists. split_and!; [vm_compute; reflexivity|vm_compute; reflexivity|discriminate]. Qed.

(** The text of a block that reparses as raw nodes only. *)
Definition reparsed_body (lang body : str) : option str :=
  match escape_typed_body_literal body (lit ")_" ++ lang) (registered_backend_names (BACKEND_SPECS (λ _ _, []))) with
  | Ok escaped =>
      match parsed (lang ++ lit "^(" ++ escaped ++ lit ")_" ++ lang) with
      | Some [TypedExpr _ _ _ nodes] =>
          (λ l, concat l) <$> mapM (λ n, match n with RawText t => Some t | _ => None end) nodes
      | _ => None
      end
  | _ => None
  end.

(** Escaping preserves ordinary bodies, but not every byte: a body that ends in a
    backslash escapes the closer, an escape inserted after a longer tag exposes a
    closer that was not one, an opener with an empty attribute list is not escaped
    and refused, and so is an escaped opener with a reserved environment. *)
Lemma escape_limits :
  reparsed_body (lit "python") (lit "a )_python $x text^(b") = Some (lit "a )_python $x text^(b") ∧
  reparsed_body (lit "python") (lit "a\") = None ∧
  reparsed_body (lit "python") (lit ")_pythontext^(") = None ∧
  reparsed_body (lit "python") (lit "text{}^(") = None ∧
  reparsed_body (lit "python") (lit "text[4294967295]^(") = None.
Proof. split_and!; vm_compute; reflexivity. Qed.
