(* ===== verification/ParserErasure.v ===== *)
(** * Recording origins does not change the syntax

    [parse] and [parse_with_origins] run the same productions, the second with the
    origin inventory switched on.  Two runs that start at the same cursor and line
    stay together whatever their inventories are: the bookkeeping reads the cursor
    and never moves it.  The hint database [twin] walks the productions. *)

From S2P Require Import Prelude.
From S2P Require Import Utf8.
From S2P Require Import Environment.
From S2P Require Import BackendCatalog.
From S2P Require Import Syntax.
From S2P Require Import Ir.
From S2P Require Import BashScan.
From S2P Require Import Parser.
From S2P Require Import ParserFacts.
From S2P Require Import ParserTokens.
From S2P Require Import ParserProductions.
From S2P Require Import ParserTheorems.
From stdpp Require Import options.

Create HintDb twin.

(** The fields that parsing decisions read. *)
Definition same (s1 s2 : PState) : Prop := pos s1 = pos s2 ∧ line s1 = line s2.

Definition same_outcome {A} (RA : A → A → Prop) (r1 r2 : outcome ParseError A) : Prop :=
  match r1, r2 with
  | Ok a1, Ok a2 => RA a1 a2
  | Err e1, Err e2 => e1 = e2
  | NoFuel, NoFuel => True
  | _, _ => False
  end.

(** Two computations stay together as long as neither panics. *)
Definition twin {A} (RA : A → A → Prop) (m1 m2 : M PState ParseError A) : Prop :=
  ∀ s1 s2, same s1 s2 →
    (m1 s1).2 = Panic ∨ (m2 s2).2 = Panic ∨
    same (m1 s1).1 (m2 s2).1 ∧ same_outcome RA (m1 s1).2 (m2 s2).2.

(** Bookkeeping: it returns, and leaves the cursor and the line alone. *)
Definition quiet {A} (m : M PState ParseError A) : Prop :=
  ∀ s, (m s).2 = Panic ∨ same (m s).1 s ∧ ∃ a, (m s).2 = Ok a.

Abbreviation twins m := (twin (=) m m).

Lemma twin_ret {A} (RA : A → A → Prop) a1 a2 : RA a1 a2 → twin RA (ret a1) (ret a2).
Proof. intros H s1 s2 Hs. right; right. split; [done|exact H]. Qed.

Lemma twin_fail {A} (RA : A → A → Prop) e : twin RA (fail e) (fail e).
Proof. intros s1 s2 Hs. right; right. by split. Qed.

Lemma twin_panic {A} (RA : A → A → Prop) m : twin RA panic m.
Proof. intros s1 s2 Hs. by left. Qed.

Lemma twin_no_fuel {A} (RA : A → A → Prop) : twin RA no_fuel no_fuel.
Proof. intros s1 s2 Hs. right; right. by split. Qed.

Lemma twin_get : twin same get get.
Proof. intros s1 s2 Hs. right; right. by split. Qed.

Lemma twin_modify f1 f2 :
  (∀ s1 s2, same s1 s2 → same (f1 s1) (f2 s2)) → twin (=) (modify f1) (modify f2).
Proof. intros H s1 s2 Hs. right; right. split; [by apply H|done]. Qed.

Lemma twin_bind {A B} (RA : A → A → Prop) (RB : B → B → Prop) m1 m2 k1 k2 :
  twin RA m1 m2 → (∀ a1 a2, RA a1 a2 → twin RB (k1 a1) (k2 a2)) → twin RB (bind m1 k1) (bind m2 k2).
Proof.
  intros Hm Hk s1 s2 Hs. specialize (Hm s1 s2 Hs). unfold bind.
  destruct (m1 s1) as [s1' r1], (m2 s2) as [s2' r2]. simpl in Hm.
  destruct Hm as [->|[->|[Hs' Hr]]]; [by left|by right; left|].
  destruct r1, r2; simpl in Hr; try done; [by apply Hk| |]; right; right; by split.
Qed.

Lemma quiet_ret {A} (a : A) : quiet (ret a).
Proof. intros s. right. repeat split. by exists a. Qed.

Lemma quiet_panic {A} : quiet (@panic PState ParseError A).
Proof. intros s. by left. Qed.

Lemma quiet_bind {A B} (m : M PState ParseError A) (k : A → M PState ParseError B) :
  quiet m → (∀ a, quiet (k a)) → quiet (bind m k).
Proof.
  intros Hm Hk s. specialize (Hm s). unfold bind. destruct (m s) as [s' r]. simpl in Hm.
  destruct Hm as [->|[[Hp Hl] [a ->]]]; [by left|].
  destruct (Hk a s') as [?|[[? ?] ?]]; [by left|right]. split; [split; congruence|done].
Qed.

Lemma quiet_get : quiet get.
Proof. intros s. right. split; [done|]. by exists s. Qed.

Lemma quiet_set_origins o : quiet (modify (set_origins o)).
Proof. intros s. right. split; [done|]. by exists tt. Qed.

Lemma quiet_twin {A} (m1 m2 : M PState ParseError A) : quiet m1 → quiet m2 → twin (λ _ _, True) m1 m2.
Proof.
  intros H1 H2 s1 s2 [Hp Hl].
  destruct (H1 s1) as [?|[[? ?] [a1 Ha1]]]; [by left|].
  destruct (H2 s2) as [?|[[? ?] [a2 Ha2]]]; [by right; left|]. right; right.
  split; [split; congruence|]. by rewrite Ha1, Ha2.
Qed.

Lemma twin_bookkeeping {A} (m1 m2 : M PState ParseError A) {B} (RB : B → B → Prop) k1 k2 :
  quiet m1 → quiet m2 → (∀ a1 a2, twin RB (k1 a1) (k2 a2)) → twin RB (bind m1 k1) (bind m2 k2).
Proof. intros H1 H2 Hk. eapply twin_bind; [by apply quiet_twin|intros; apply Hk]. Qed.

#[export] Hint Resolve quiet_ret quiet_panic quiet_get quiet_set_origins : twin.
#[export] Hint Extern 2 (quiet (bind _ _)) => apply quiet_bind; [|intros] : twin.
#[export] Hint Extern 3 (quiet (match ?x with _ => _ end)) => destruct x : twin.

#[export] Hint Resolve twin_fail twin_panic twin_no_fuel twin_get : twin.
#[export] Hint Extern 1 (twin _ (ret _) (ret _)) => apply twin_ret; congruence : twin.
#[export] Hint Extern 1 (twin _ (modify _) (modify _)) =>
  apply twin_modify; intros ? ? [? ?]; split; simpl; congruence : twin.

(** One step of two runs of the same code: the results of the first part are
    identified, then the rest is compared. *)
Ltac twin_intro :=
  intros;
  repeat match goal with
  | H : same _ _ |- _ => destruct H as [?Hp ?Hl]
  | H : ?x = ?y |- _ => subst x || subst y
  | H : pos ?s = _ |- context [pos ?s] => rewrite H
  | H : line ?s = _ |- context [line ?s] => rewrite H
  end.

Ltac twin_walk :=
  repeat first
  [ solve [eauto 3 with twin nocore]
  | eapply twin_bind; [solve [eauto 3 with twin nocore]|twin_intro]
  | eapply (twin_bind (=)); [solve [twin_walk]|twin_intro]
  | apply twin_bookkeeping; [solve [eauto 6 with twin nocore]|solve [eauto 6 with twin nocore]|twin_intro]
  | match goal with
    | |- twin _ (if ?x then _ else _) _ => destruct x eqn:?
    | |- twin _ (match ?x with _ => _ end) _ => destruct x eqn:?
    end ].

Section Erasure.
Context (source : str) {dialect : SyntaxDialect}.

Lemma quiet_slice i j : quiet (slice_source source i j).
Proof. unfold slice_source. eauto with twin. Qed.
Hint Resolve quiet_slice : twin.

Lemma quiet_position b : quiet (source_position source b).
Proof. unfold source_position. eauto 10 with twin. Qed.
Hint Resolve quiet_position : twin.

Lemma quiet_span i j : quiet (source_span source i j).
Proof. unfold source_span. eauto 10 with twin. Qed.
Hint Resolve quiet_span : twin.

Lemma quiet_origin_count : quiet origin_count.
Proof. unfold origin_count. eauto with twin. Qed.

Lemma quiet_begin i : quiet (begin_origin source i).
Proof. unfold begin_origin. eauto 10 with twin. Qed.

Lemma quiet_finish o i : quiet (finish_origin source o i).
Proof. unfold finish_origin. eauto 10 with twin. Qed.

Lemma quiet_record i j : quiet (record_origin source i j).
Proof. unfold record_origin. eauto 10 with twin. Qed.

Lemma quiet_extend i : quiet (extend_last_origin source i).
Proof. unfold extend_last_origin. eauto 10 with twin. Qed.
Hint Resolve quiet_origin_count quiet_begin quiet_finish quiet_record quiet_extend : twin.

(** ** Cursor, trivia and tokens *)

Lemma twins_slice i j : twins (slice_source source i j).
Proof. unfold slice_source. twin_walk. Qed.
Hint Resolve twins_slice : twin.

Lemma twins_current : twins (current_byte source).
Proof. unfold current_byte. twin_walk. Qed.
Hint Resolve twins_current : twin.

Lemma twins_advance : twins (advance_one_byte source).
Proof.
  unfold advance_one_byte. twin_walk. apply twin_modify. intros s1 s2 [? ?].
  split; destruct (_ =? 10); simpl; congruence.
Qed.
Hint Resolve twins_advance : twin.

Lemma twins_advance_bytes n : twins (advance_bytes source n).
Proof. induction n; simpl; twin_walk. Qed.
Hint Resolve twins_advance_bytes : twin.

Lemma twins_skip_while p fuel : twins (skip_while source p fuel).
Proof. induction fuel; simpl; twin_walk. Qed.
Hint Resolve twins_skip_while : twin.

Lemma twins_skip_horizontal : twins (skip_horizontal_whitespace source).
Proof. apply twins_skip_while. Qed.

Lemma twins_skip_whitespace : twins (skip_whitespace source).
Proof. apply twins_skip_while. Qed.
Hint Resolve twins_skip_horizontal twins_skip_whitespace : twin.

Lemma twins_skip_line fuel : twins (skip_line_loop source fuel).
Proof. induction fuel; simpl; twin_walk. Qed.
Hint Resolve twins_skip_line : twin.

Lemma twins_skip_eol : twins (skip_to_end_of_line source).
Proof. apply twins_skip_line. Qed.
Hint Resolve twins_skip_eol : twin.

Lemma twins_trivia_loop fuel : twins (skip_trivia_loop source fuel).
Proof. induction fuel; simpl; twin_walk. Qed.

Lemma twins_trivia : twins (skip_call_trivia source).
Proof. apply twins_trivia_loop. Qed.
Hint Resolve twins_trivia : twin.

Lemma twins_var_ref : twins (try_parse_var_ref source).
Proof. unfold try_parse_var_ref. twin_walk. Qed.

Lemma twins_identifier : twins (parse_identifier source).
Proof. unfold parse_identifier. twin_walk. Qed.

Lemma twins_let_keyword : twins (starts_with_let_keyword source).
Proof.
  unfold starts_with_let_keyword. twin_walk.
Qed.
Hint Resolve twins_var_ref twins_identifier twins_let_keyword : twin.

Lemma twins_environment i : twins (parse_environment source i).
Proof. unfold parse_environment. twin_walk. Qed.

Lemma twins_attributes i : twins (parse_attributes source i).
Proof. unfold parse_attributes. twin_walk. Qed.
Hint Resolve twins_environment twins_attributes : twin.

Lemma twins_opener : twins (try_parse_opener source).
Proof. unfold try_parse_opener. twin_walk. Qed.
Hint Resolve twins_opener : twin.

(** ** Raw text and escapes *)

Lemma twins_flush nodes i j : twins (flush_text source nodes i j).
Proof. unfold flush_text. twin_walk. Qed.

Lemma twin_flush_before nodes i j c1 c2 :
  twin (=) (flush_text_before_recorded source nodes i j c1) (flush_text_before_recorded source nodes i j c2).
Proof. unfold flush_text_before_recorded. destruct (j <=? i)%nat; twin_walk. Qed.

Lemma twins_push_literal nodes literal i j : twins (push_literal source nodes literal i j).
Proof. unfold push_literal. twin_walk. Qed.
Hint Resolve twins_flush twin_flush_before twins_push_literal : twin.

Lemma twins_escape closer i nodes : twins (try_escape source closer i nodes).
Proof. unfold try_escape. twin_walk. Qed.
Hint Resolve twins_escape : twin.

(** ** Productions *)

Lemma twin_restore {A} (RA : A → A → Prop) (owns : bool) m1 m2 :
  twin RA m1 m2 →
  twin RA (λ s0, match m1 s0 with
                 | (s1, r) => (if owns then set_depth (origin_suppression_depth s1 - 1) s1 else s1, r)
                 end)
          (λ s0, match m2 s0 with
                 | (s1, r) => (if owns then set_depth (origin_suppression_depth s1 - 1) s1 else s1, r)
                 end).
Proof.
  intros Hm s1 s2 Hs. specialize (Hm s1 s2 Hs).
  destruct (m1 s1) as [s1' r1], (m2 s2) as [s2' r2]. by destruct owns.
Qed.
Hint Resolve twin_restore : twin.

Section Steps.
Context (loop : option Tag → nat → list ONode → M PState ParseError (list ONode)).
Context (typed : Tag → M PState ParseError ONode).
Context (let_binding call_ : M PState ParseError (option ONode)).
Context (args_ : str → list ONode → M PState ParseError (list ONode)).
Context (Hloop : ∀ c i ns, twins (loop c i ns)) (Htyped : ∀ t, twins (typed t)).
Context (Hlet : twins let_binding) (Hcall : twins call_) (Hargs : ∀ n l, twins (args_ n l)).
Hint Resolve Hloop Htyped Hlet Hcall Hargs : twin.

Lemma twins_loop_step closer i nodes :
  twins (parse_loop_step source loop typed let_binding call_ closer i nodes).
Proof using Hloop Htyped Hlet Hcall. unfold parse_loop_step. twin_walk. Qed.

Lemma twins_typed_step tag : twins (parse_typed_expr_step source loop tag).
Proof using Hloop. unfold parse_typed_expr_step. twin_walk. Qed.

Lemma twins_let_step : twins (try_parse_let_binding_step source typed call_).
Proof using Htyped Hcall. unfold try_parse_let_binding_step. twin_walk. Qed.

Lemma twins_call_step : twins (try_parse_call_step source args_).
Proof using Hargs. unfold try_parse_call_step. twin_walk. Qed.

Lemma twins_args_step name args : twins (parse_args_step source args_ typed call_ name args).
Proof using Hargs Htyped Hcall. unfold parse_args_step. twin_walk. Qed.
End Steps.

Lemma twins_productions fuel :
  (∀ c i ns, twins (parse_loop source fuel c i ns)) ∧ (∀ t, twins (parse_typed_expr source fuel t)) ∧
  twins (try_parse_let_binding source fuel) ∧ twins (try_parse_call source fuel) ∧
  (∀ n l, twins (parse_args source fuel n l)).
Proof.
  induction fuel as [|fuel (Hloop & Htyped & Hlet & Hcall & Hargs)]; [split_and!; intros; apply twin_no_fuel|].
  split_and!; intros; simpl.
  - by apply twins_loop_step.
  - by apply twins_typed_step.
  - by apply twins_let_step.
  - by apply twins_call_step.
  - by apply twins_args_step.
Qed.

Lemma twins_parse_until closer : twins (parse_until source closer).
Proof.
  unfold parse_until. eapply twin_bind; [apply twin_get|]. intros s1 s2 [-> _].
  by apply twins_productions.
Qed.
End Erasure.

(** C24. Recording origins does not change the syntax: from a new parser, [parse] and
    [parse_with_origins] end with the same tree or with the same error, at the
    same cursor and on the same line, so a document parsed for diagnostics is the
    document that is executed. *)
Theorem origins_do_not_change_syntax (source : str) (dialect : SyntaxDialect) (sha : str → str) :
  utf8_valid source = true → SyntaxDialectLaws dialect →
  let '(s1, r1) := parse source new_parser in
  let '(s2, r2) := parse_with_origins source sha new_parser in
  pos s1 = pos s2 ∧ line s1 = line s2 ∧
  (∀ nodes, r1 = Ok nodes ↔ ∃ doc, r2 = Ok doc ∧ doc_nodes doc = nodes) ∧
  (∀ e, r1 = Err e ↔ r2 = Err e).
Proof.
  intros Hv Hl. assert (Hb : is_boundary source (pos new_parser) = true) by by apply is_boundary_0.
  pose proof (parse_ok source Hv new_parser Hb) as H1.
  pose proof (parse_with_origins_ok source Hv sha new_parser Hb) as H2.
  unfold wp, parse, parse_with_origins, bind, modify in *.
  set (s1 := reset_recording None None new_parser) in *.
  set (s2 := set_depth 0 (reset_recording (Some (line_start_table source)) (Some []) new_parser)) in *.
  destruct (twins_parse_until source None s1 s2) as [Ht|[Ht|[[Hpos Hline] Ho]]]; [done|..];
    destruct (parse_until source None s1) as [s1' r1], (parse_until source None s2) as [s2' r2]; simpl in *.
  - by subst r1.
  - by subst r2.
  - destruct r1 as [nodes|e| |], r2 as [nodes'|e'| |]; simpl in *; try done.
    + subst nodes'. unfold get in *. destruct (plan_origins s2') as [o|]; simpl in *; [|done].
      split_and!; [done|done| |naive_solver]. intros n. split; [intros [= <-]; by eexists|].
      by intros (doc & [= <-] & <-).
    + subst e'. naive_solver.
Qed.

Lemma origins_do_not_change_syntax_witness :
  ∃ nodes doc s1 s2, @parse sample (@catalog_dialect no_digests) new_parser = (s1, Ok nodes) ∧
    @parse_with_origins sample (@catalog_dialect no_digests) (λ _, []) new_parser = (s2, Ok doc) ∧
    doc_nodes doc = nodes ∧ pos s1 = pos s2.
Proof.
  pose proof (origins_do_not_change_syntax sample (@catalog_dialect no_digests) (λ _, []) eq_refl
    ltac:(unfold catalog_dialect; apply _)) as H.
  destruct (parse sample new_parser) as [s1 [nodes|e| |]] eqn:E; [|exfalso; vm_compute in E; discriminate E..].
  destruct (parse_with_origins sample (λ _, []) new_parser) as [s2 r2].
  destruct H as (Hp & _ & Hok & _). destruct (proj1 (Hok nodes) eq_refl) as (doc & -> & Hd).
  exists nodes, doc, s1, s2. split_and!; done.
Defined.
