(* ===== verification/ExecutionContract.v ===== *)
(** * The execution contract

    [crates/ostadix-api/src/execution_contract.rs]: policies, the options of a block
    and the validation of lowered metadata, all of it; [BackendAuthority::parse] of
    [value.rs].  The loops of [BlockOptions::parse] and
    [validate_execution_metadata] stop at the first error. *)

From S2P Require Import Prelude.
From S2P Require Import Utf8.
From S2P Require Import CanonicalCbor.
From S2P Require Import BackendCatalog.
From S2P Require Import Syntax.
From S2P Require Import Ir.
From S2P Require Import BashScan.
From S2P Require Import ExecutionPlan.
From S2P Require Import Effects.
From stdpp Require Import options.

#[local] Open Scope nat_scope.

(** ** Policies *)

Inductive Policy : Type := EagerPolicy | LazyPolicy | AutonomousPolicy.

#[export] Instance Policy_eq_dec : EqDecision Policy.
Proof. solve_decision. Defined.

Definition policy_name (p : Policy) : str :=
  match p with EagerPolicy => lit "eager" | LazyPolicy => lit "lazy" | AutonomousPolicy => lit "autonomous" end.

Definition policy_from_name (name : str) : option Policy :=
  if bool_decide (name = lit "eager") then Some EagerPolicy
  else if bool_decide (name = lit "lazy") then Some LazyPolicy
  else if bool_decide (name = lit "autonomous") then Some AutonomousPolicy
  else None.

(** ** Block options *)

Inductive BlockEvalPolicy : Type := BlockLazy | BlockDefer.

#[export] Instance BlockEvalPolicy_eq_dec : EqDecision BlockEvalPolicy.
Proof. solve_decision. Defined.

Record BlockOptions : Type := {
  block_policy : option BlockEvalPolicy;
  capability_binding : option str;
  permissions : list BackendAuthority;
}.

(** One constructor per [bail!]. *)
Inductive ContractError : Type :=
| InvalidEffectDeclaration (lang : str) (e : EffectError)
| DuplicateAttribute (entry lang : str)
| LazyAndDefer
| BindingNotIdentifier (name : str)
| SeveralBindings
| UnknownAttribute (entry lang : str)
| MustBeNativeLeaf (name : str)
| WrongInvokeMode (name : str) (mode canonical : InvokeMode)
| LazyArity (n : nat)
| AutonomousArity (n : nat)
| GroupWithoutArguments (name : str)
| NativeParameterCount (declared given : nat)
| InterfaceMismatch (lang : str)
| QuoteAttributes
| OAttributes
| InlineAstWithoutExecutor (canonical : str)
| RedundantLazy
| ImpureLazy (lang : str)
| RedundantDefer
| ReadonlyLet (name : str).

Definition is_o_identifier (name : str) : bool :=
  match name with [] => false | b :: _ => is_ident_start b end && forallb is_ident_continue name.

Definition authority_name (a : BackendAuthority) : str :=
  match a with
  | FileRead => lit "fs_read" | FileWrite => lit "fs_write" | BackendCatalog.Network => lit "network" | Process => lit "process"
  end.

(** [BackendAuthority::parse]. *)
Definition parse_authority (name : str) : option BackendAuthority :=
  if bool_decide (name = lit "fs_read") then Some FileRead
  else if bool_decide (name = lit "fs_write") then Some FileWrite
  else if bool_decide (name = lit "network") then Some BackendCatalog.Network
  else if bool_decide (name = lit "process") then Some Process
  else None.

(** The derived order. *)
Definition authority_rank (a : BackendAuthority) : nat :=
  match a with FileRead => 0 | FileWrite => 1 | BackendCatalog.Network => 2 | Process => 3 end.

Definition authority_le (a b : BackendAuthority) : Prop := authority_rank a ≤ authority_rank b.

#[export] Instance authority_le_dec : RelDecision authority_le.
Proof. unfold authority_le. intros a b. apply _. Defined.

(** [trim_start_matches("cap=")], which removes the prefix as often as it occurs. *)
Fixpoint trim_start_matches (fuel : nat) (pat s : str) : str :=
  match fuel with
  | O => s
  | S fuel => match strip_prefix pat s with Some s => trim_start_matches fuel pat s | None => s end
  end.

Definition cap_name (entry : str) : str := trim_start_matches (length entry) (lit "cap=") entry.

Definition set_block_policy (policy : BlockEvalPolicy) (o : BlockOptions) : ContractError + BlockOptions :=
  if bool_decide (is_Some (block_policy o)) then inl LazyAndDefer
  else inr {| block_policy := Some policy; capability_binding := capability_binding o; permissions := permissions o |}.

(** One entry of the attribute, after the check for duplicates. *)
Definition block_entry (lang : str) (o : BlockOptions) (entry : str) : ContractError + BlockOptions :=
  if bool_decide (entry = lit "lazy") then set_block_policy BlockLazy o
  else if bool_decide (entry = lit "defer") then set_block_policy BlockDefer o
  else if starts_with entry (lit "cap=") then
    let name := cap_name entry in
    if negb (is_o_identifier name) then inl (BindingNotIdentifier name)
    else if bool_decide (is_Some (capability_binding o)) then inl SeveralBindings
    else inr {| block_policy := block_policy o; capability_binding := Some name; permissions := permissions o |}
  else if recognizes_entry entry then inr o
  else match parse_authority entry with
  | None => inl (UnknownAttribute entry lang)
  | Some a => inr {| block_policy := block_policy o; capability_binding := capability_binding o; permissions := permissions o ++ [a] |}
  end.

Fixpoint block_entries (lang : str) (seen : list str) (o : BlockOptions) (entries : list str) : ContractError + BlockOptions :=
  match entries with
  | [] => inr o
  | entry :: entries =>
      if bool_decide (entry ∈ seen) then inl (DuplicateAttribute entry lang)
      else let! o := block_entry lang o entry in block_entries lang (entry :: seen) o entries
  end.

Definition no_options : BlockOptions := {| block_policy := None; capability_binding := None; permissions := [] |}.

(** [BlockOptions::parse]. *)
Definition parse_block_options (attr : option str) (lang : str) : ContractError + BlockOptions :=
  match parse_declaration attr with
  | inl e => inl (InvalidEffectDeclaration lang e)
  | inr _ =>
      let! o := block_entries lang [] no_options (attr_entries attr) in
      inr {| block_policy := block_policy o; capability_binding := capability_binding o;
             permissions := merge_sort authority_le (permissions o) |}
  end.

(** ** Lowered metadata *)

Section Metadata.
Context `{DG : !Digests}.

Definition validate_block_policy (lang : str) (backend : BackendInterface) (policy : BlockEvalPolicy) : ContractError + unit :=
  match policy with
  | BlockLazy =>
      if bool_decide (lang = lit "nix_expr") then inl RedundantLazy
      else if negb (pure backend) then inl (ImpureLazy lang)
      else inr tt
  | BlockDefer => if bool_decide (lang = lit "nix_expr") then inl RedundantDefer else inr tt
  end.

Definition validate_exec_metadata (lang : str) (attr : option str) (backend : BackendInterface) : ContractError + unit :=
  if negb (bool_decide (backend = global_interface_for lang)) then inl (InterfaceMismatch lang)
  else if bool_decide (execution backend = InlineAst) && bool_decide (canonical backend = lit "quote") then
    if bool_decide (is_Some attr) then inl QuoteAttributes else inr tt
  else if bool_decide (execution backend = InlineAst) && bool_decide (canonical backend = lit "O") then
    if bool_decide (is_Some attr) then inl OAttributes else inr tt
  else if bool_decide (execution backend = InlineAst) then inl (InlineAstWithoutExecutor (canonical backend))
  else
    let! options := parse_block_options attr lang in
    match block_policy options with
    | Some policy => validate_block_policy lang backend policy
    | None => inr tt
    end.

Definition validate_invoke (name : str) (mode : InvokeMode) (args : nat) : ContractError + unit :=
  if bool_decide (name = NATIVE_LEAF_BUILTIN) then inl (MustBeNativeLeaf name)
  else if negb (bool_decide (mode = for_name name)) then inl (WrongInvokeMode name mode (for_name name))
  else match mode with
  | Lazy => if bool_decide (args = 1) then inr tt else inl (LazyArity args)
  | Autonomous => if bool_decide (args = 1) then inr tt else inl (AutonomousArity args)
  | Group _ => if bool_decide (args = 0) then inl (GroupWithoutArguments name) else inr tt
  | Eager => inr tt
  end.

Definition validate_node_metadata (oir : OIr) : ContractError + unit :=
  match oir with
  | Invoke name mode args => validate_invoke name mode (length args)
  | NativeLeaf _ (ScalarI64AcyclicV1 parameter_count) _ _ args =>
      if bool_decide (parameter_count = Nat.pred (length args)) then inr tt
      else inl (NativeParameterCount parameter_count (Nat.pred (length args)))
  | Exec lang _ attr backend _ => validate_exec_metadata lang attr backend
  | _ => inr tt
  end.

(** *** Lets that bash cannot receive *)

Definition let_names (flat : list OIr) : gset str :=
  list_to_set (omap (λ oir, match oir with Store name _ => Some name | _ => None end) flat).

Definition name_le (a b : str) : Prop := lex_le a b = true.

#[export] Instance name_le_dec : RelDecision name_le.
Proof. unfold name_le. intros a b. apply _. Defined.

(** The referenced lets, sorted. *)
Definition referenced_lets (lets : gset str) (body : list OIr) : list str :=
  merge_sort name_le
    (elements (filter (λ name, name ∈ lets) (bash_braced_references body ∪ bash_arithmetic_references body))).

Definition validate_bash_block (lets : gset str) (oir : OIr) : ContractError + unit :=
  match oir with
  | Exec _ _ _ backend body =>
      if negb (bool_decide (canonical backend = lit "bash")) then inr tt
      else match List.find (λ name, bool_decide (bash_special_name name = Some Readonly)) (referenced_lets lets body) with
      | Some name => inl (ReadonlyLet name)
      | None => inr tt
      end
  | _ => inr tt
  end.

Fixpoint for_each_node (f : OIr → ContractError + unit) (flat : list OIr) : ContractError + unit :=
  match flat with
  | [] => inr tt
  | oir :: flat => let! _ := f oir in for_each_node f flat
  end.

Definition validate_bash_special_lets (flat : list OIr) : ContractError + unit :=
  for_each_node (validate_bash_block (let_names flat)) flat.

Definition validate_execution_metadata (flat : list OIr) : ContractError + unit :=
  let! _ := for_each_node validate_node_metadata flat in validate_bash_special_lets flat.
End Metadata.
