(* ===== verification/ContractTheorems.v ===== *)
(** * Theorems on the execution contract *)

From S2P Require Import Prelude.
From S2P Require Import Utf8.
From S2P Require Import CanonicalCbor.
From S2P Require Import BackendCatalog.
From S2P Require Import Syntax.
From S2P Require Import Ir.
From S2P Require Import BashScan.
From S2P Require Import ExecutionPlan.
From S2P Require Import Effects.
From S2P Require Import ExecutionContract.
From stdpp Require Import options.

#[local] Open Scope nat_scope.

(** ** Block options *)

Lemma authority_name_parse a : parse_authority (authority_name a) = Some a.
Proof. by destruct a. Qed.

Lemma parse_authority_name name a : parse_authority name = Some a → name = authority_name a.
Proof. unfold parse_authority. repeat case_bool_decide; by intros [= <-]. Qed.

(** An entry that [BlockOptions::parse] knows. *)
Definition known_entry (entry : str) : Prop :=
  entry = lit "lazy" ∨ entry = lit "defer" ∨ starts_with entry (lit "cap=") = true ∨ recognizes_entry entry = true ∨
  is_Some (parse_authority entry).

Definition policy_of (entry : str) : option BlockEvalPolicy :=
  if bool_decide (entry = lit "lazy") then Some BlockLazy
  else if bool_decide (entry = lit "defer") then Some BlockDefer
  else None.

Definition binding_of (entry : str) : option str :=
  if starts_with entry (lit "cap=") then Some (cap_name entry) else None.

Definition option_list {A} (o : option A) : list A := match o with Some a => [a] | None => [] end.

(** The options after some entries, when there is at most one policy and one binding. *)
Definition options_after (o : BlockOptions) (entries : list str) : BlockOptions :=
  {| block_policy := head (option_list (block_policy o) ++ omap policy_of entries);
     capability_binding := head (option_list (capability_binding o) ++ omap binding_of entries);
     permissions := permissions o ++ omap parse_authority entries |}.

Record acceptable (o : BlockOptions) (entries : list str) : Prop := {
  ac_known : Forall known_entry entries;
  ac_policy : length (option_list (block_policy o) ++ omap policy_of entries) ≤ 1;
  ac_binding : length (option_list (capability_binding o) ++ omap binding_of entries) ≤ 1;
  ac_identifier : Forall (λ name, is_o_identifier name = true) (omap binding_of entries);
}.

Lemma authority_class name a : parse_authority name = Some a → policy_of name = None ∧ binding_of name = None ∧ recognizes_entry name = false.
Proof. intros ->%parse_authority_name. by destruct a. Qed.

Lemma policy_class name q : policy_of name = Some q → binding_of name = None ∧ parse_authority name = None.
Proof. unfold policy_of. do 2 (case_bool_decide; subst; [by intros [= <-]|]). done. Qed.

Lemma effect_class name : recognizes_entry name = true → policy_of name = None ∧ parse_authority name = None.
Proof.
  intros Hr. split.
  - unfold policy_of. by do 2 (case_bool_decide; subst; [done|]).
  - destruct (parse_authority name) as [a|] eqn:E; [|done]. apply authority_class in E. destruct E as (_ & _ & E). congruence.
Qed.

Lemma binding_class name n : binding_of name = Some n → policy_of name = None ∧ parse_authority name = None.
Proof.
  intros Hb. split.
  - destruct (policy_of name) eqn:E; [|done]. apply policy_class in E. destruct E. congruence.
  - destruct (parse_authority name) as [a|] eqn:E; [|done]. apply authority_class in E. destruct E as (_ & E & _). congruence.
Qed.

Lemma option_list_head {A} (l : list A) : length l ≤ 1 → option_list (head l) = l.
Proof. destruct l as [|a [|b l]]; simpl; [done..|lia]. Qed.

Lemma omap_cons_app {A} (f : str → option A) entry entries : omap f (entry :: entries) = omap f [entry] ++ omap f entries.
Proof. simpl. by destruct (f entry). Qed.

Lemma omap_one {A} (f : str → option A) entry : omap f [entry] = option_list (f entry).
Proof. simpl. by destruct (f entry). Qed.

Lemma acceptable_cons o entry entries :
  acceptable o (entry :: entries) ↔ acceptable o [entry] ∧ acceptable (options_after o [entry]) entries.
Proof.
  split.
  - intros [Hk Hp Hb Hi]. rewrite omap_cons_app, app_assoc in Hp. rewrite omap_cons_app, app_assoc in Hb. rewrite omap_cons_app in Hi. apply Forall_cons in Hk as [Hk Hks].
    apply Forall_app in Hi as [Hi His].
    assert (H1 : length (option_list (block_policy o) ++ omap policy_of [entry]) ≤ 1) by (rewrite length_app in Hp; lia).
    assert (H2 : length (option_list (capability_binding o) ++ omap binding_of [entry]) ≤ 1) by (rewrite length_app in Hb; lia).
    split; constructor; try done; [by apply Forall_singleton| |]; cbn [options_after block_policy capability_binding];
      by rewrite option_list_head.
  - intros [[Hk Hp Hb Hi] [Hks Hps Hbs His]]. cbn [options_after block_policy capability_binding] in Hps, Hbs.
    rewrite option_list_head in Hps by done. rewrite option_list_head in Hbs by done. constructor.
    + apply Forall_cons. split; [by apply Forall_singleton|done].
    + by rewrite omap_cons_app, app_assoc.
    + by rewrite omap_cons_app, app_assoc.
    + rewrite omap_cons_app. by apply Forall_app.
Qed.

Lemma options_after_cons o entry entries : acceptable o [entry] →
  options_after o (entry :: entries) = options_after (options_after o [entry]) entries.
Proof.
  intros [_ Hp Hb _]. unfold options_after. cbn [block_policy capability_binding permissions].
  rewrite (omap_cons_app policy_of), (omap_cons_app binding_of), (omap_cons_app parse_authority), !option_list_head by done.
  by rewrite !app_assoc.
Qed.

Lemma block_entry_spec lang o entry o' : block_entry lang o entry = inr o' ↔ acceptable o [entry] ∧ o' = options_after o [entry].
Proof.
  assert (Hacc : acceptable o [entry] ↔ known_entry entry ∧
    length (option_list (block_policy o) ++ option_list (policy_of entry)) ≤ 1 ∧
    length (option_list (capability_binding o) ++ option_list (binding_of entry)) ≤ 1 ∧
    ∀ name, binding_of entry = Some name → is_o_identifier name = true).
  { split.
    - intros [Hk Hp Hb Hi]. rewrite omap_one in Hp. rewrite omap_one in Hb. rewrite omap_one in Hi.
      rewrite Forall_singleton in Hk. split; [exact Hk|]. split; [exact Hp|]. split; [exact Hb|]. intros name E. rewrite E in Hi. simpl in Hi. by rewrite Forall_singleton in Hi.
    - intros (Hk & Hp & Hb & Hi). constructor; rewrite ?omap_one; [by apply Forall_singleton|exact Hp|exact Hb|].
      destruct (binding_of entry) as [name|]; simpl; [apply Forall_singleton; by apply Hi|constructor]. }
  assert (Hopt : options_after o [entry] =
    {| block_policy := head (option_list (block_policy o) ++ option_list (policy_of entry));
       capability_binding := head (option_list (capability_binding o) ++ option_list (binding_of entry));
       permissions := permissions o ++ option_list (parse_authority entry) |}).
  { unfold options_after. by rewrite (omap_one policy_of), (omap_one binding_of), (omap_one parse_authority). }
  rewrite Hacc, Hopt. clear Hacc Hopt. destruct o as [policy binding perms]. cbn [block_policy capability_binding permissions].
  unfold block_entry, set_block_policy. cbn [block_policy capability_binding permissions].
  assert (Hp : ∀ q, policy_of entry = Some q →
    (if bool_decide (is_Some policy) then inl LazyAndDefer
     else inr {| block_policy := Some q; capability_binding := binding; permissions := perms |}) = inr o' ↔
    (known_entry entry ∧ length (option_list policy ++ option_list (policy_of entry)) ≤ 1 ∧
     length (option_list binding ++ option_list (binding_of entry)) ≤ 1 ∧ ∀ name, binding_of entry = Some name → is_o_identifier name = true) ∧
    o' = {| block_policy := head (option_list policy ++ option_list (policy_of entry));
            capability_binding := head (option_list binding ++ option_list (binding_of entry));
            permissions := perms ++ option_list (parse_authority entry) |}).
  { intros q Hq. destruct (policy_class entry q Hq) as [-> ->]. rewrite Hq. simpl. rewrite !app_nil_r.
    assert (Hk : known_entry entry).
    { unfold policy_of in Hq. case_bool_decide; [by left|]. case_bool_decide; [by right; left|done]. }
    destruct policy as [q'|]; simpl; [split; [done|]; intros [(_ & H & _) _]; lia|]. split.
    - intros [= <-]. destruct binding; simpl; split; [split_and!; try done; lia|done|split_and!; try done; lia|done].
    - intros [_ ->]. by destruct binding. }
  destruct (bool_decide (entry = lit "lazy")) eqn:El; [apply Hp; unfold policy_of; by rewrite El|].
  destruct (bool_decide (entry = lit "defer")) eqn:Ed; [apply Hp; unfold policy_of; by rewrite El, Ed|].
  clear Hp. assert (Enp : policy_of entry = None) by (unfold policy_of; by rewrite El, Ed).
  destruct (starts_with entry (lit "cap=")) eqn:Ec.
  { assert (Eb : binding_of entry = Some (cap_name entry)) by (unfold binding_of; by rewrite Ec).
    destruct (binding_class entry _ Eb) as [_ ->]. rewrite Eb, Enp. simpl. rewrite !app_nil_r.
    assert (Hk : known_entry entry) by (by right; right; left).
    destruct (is_o_identifier (cap_name entry)) eqn:Ei; simpl.
    - destruct binding as [b|]; simpl; [split; [done|]; intros [(_ & _ & H & _) _]; lia|]. split.
      + intros [= <-]. destruct policy; simpl; (split; [split_and!; first [exact Hk|simpl; lia|by intros n [= <-]]|done]).
      + intros [_ ->]. by destruct policy.
    - split; [done|]. intros [(_ & _ & _ & H) _]. specialize (H _ eq_refl). congruence. }
  assert (Eb : binding_of entry = None) by (unfold binding_of; by rewrite Ec). rewrite Eb, Enp. simpl. rewrite !app_nil_r.
  assert (Hlen : length (option_list policy) ≤ 1 ∧ length (option_list binding) ≤ 1) by (destruct policy, binding; simpl; lia).
  destruct (recognizes_entry entry) eqn:Er.
  { destruct (effect_class entry Er) as [_ ->]. simpl. rewrite app_nil_r.
    assert (Hk : known_entry entry) by (by right; right; right; left). split.
    - intros [= <-]. split; [split_and!; first [exact Hk|apply Hlen|done]|]. by destruct policy, binding.
    - intros [_ ->]. by destruct policy, binding. }
  destruct (parse_authority entry) as [a|] eqn:Ea; simpl.
  - assert (Hk : known_entry entry) by (do 4 right; by rewrite Ea). split.
    + intros [= <-]. split; [split_and!; first [exact Hk|apply Hlen|done]|]. by destruct policy, binding.
    + intros [_ ->]. by destruct policy, binding.
  - split; [done|]. intros [(Hk & _) _]. unfold known_entry in Hk. rewrite Ec, Er, Ea in Hk.
    apply bool_decide_eq_false in El, Ed. destruct Hk as [?|[?|[?|[?|[? ?]]]]]; done.
Qed.

Lemma block_entries_spec lang seen o entries o' :
  block_entries lang seen o entries = inr o' ↔
  NoDup entries ∧ (∀ entry, entry ∈ entries → entry ∉ seen) ∧ acceptable o entries ∧ o' = options_after o entries.
Proof.
  revert seen o. induction entries as [|entry entries IH]; intros seen o; cbn [block_entries].
  - assert (Hnil : options_after o [] = o).
    { destruct o as [policy binding perms]. unfold options_after. simpl. rewrite !app_nil_r. by destruct policy, binding. }
    rewrite Hnil. split; [|intros (_ & _ & _ & ->); done]. intros [= <-]. split; [constructor|]. split; [set_solver|].
    split; [|done]. constructor; simpl; rewrite ?app_nil_r; [constructor| | |constructor]; destruct o as [[] [] ?]; simpl; lia.
  - case_bool_decide as Hs; [split; [done|]; intros (_ & H & _); by destruct (H entry); [left|]|].
    rewrite rbind_ok, NoDup_cons, acceptable_cons. setoid_rewrite block_entry_spec. setoid_rewrite IH. split.
    + intros (o1 & [Ha ->] & Hnd & Hseen & Hacc & ->). rewrite (options_after_cons o entry entries Ha). split_and!; try done.
      * intros H. apply (Hseen entry H). by left.
      * intros e [-> |He]%elem_of_cons; [done|]. intros H. apply (Hseen e He). by right.
    + intros ([Hni Hnd] & Hseen & [Ha Hacc] & ->). exists (options_after o [entry]). split; [done|].
      rewrite (options_after_cons o entry entries Ha). split_and!; try done. intros e He [-> |H]%elem_of_cons; [done|].
      apply (Hseen e); [by right|done].
Qed.

(** C29. What a block's attribute means.  [BlockOptions::parse] accepts an attribute exactly
    when its effect declaration parses, no entry is repeated, every entry is known,
    and it has at most one of [lazy] and [defer] and at most one capability binding,
    an identifier; then the options are that policy, that binding, and the
    authorities named by the entries, in their canonical order, whatever the order of
    the entries. *)
Theorem block_options_exact (attr : option str) (lang : str) (o : BlockOptions) :
  parse_block_options attr lang = inr o ↔
  (∃ d, parse_declaration attr = inr d) ∧ NoDup (attr_entries attr) ∧ acceptable no_options (attr_entries attr) ∧
  o = {| block_policy := head (omap policy_of (attr_entries attr));
         capability_binding := head (omap binding_of (attr_entries attr));
         permissions := merge_sort authority_le (omap parse_authority (attr_entries attr)) |}.
Proof.
  unfold parse_block_options. destruct (parse_declaration attr) as [e|d].
  - split; [done|]. intros [[? ?] _]. done.
  - rewrite rbind_ok. setoid_rewrite block_entries_spec. split.
    + intros (o1 & (Hnd & _ & Hacc & ->) & [= <-]). split_and!; [by exists d|done..].
    + intros (_ & Hnd & Hacc & ->). exists (options_after no_options (attr_entries attr)). split; [|done].
      split_and!; try done. intros entry _. apply not_elem_of_nil.
Qed.

(** ** The planner and the evaluator *)

Lemma cap_name_once entry name : strip_prefix (lit "cap=") entry = Some name → starts_with name (lit "cap=") = false →
  cap_name entry = name.
Proof.
  intros Hs Hn. unfold cap_name. apply strip_prefix_Some in Hs as Hs'.
  assert (Hl : length entry = S (S (S (S (length name))))) by (rewrite Hs'; apply length_app). rewrite Hl.
  unfold starts_with in Hn. apply bool_decide_eq_false in Hn. cbn [trim_start_matches]. rewrite Hs. clear Hs Hs' Hl.
  destruct (strip_prefix (lit "cap=") name); [destruct Hn; by eexists|done].
Qed.

Lemma doubled_prefix entry name : strip_prefix (lit "cap=") entry = Some name → starts_with entry (lit "cap=cap=") = false →
  starts_with name (lit "cap=") = false.
Proof.
  intros ->%strip_prefix_Some H. apply not_true_is_false. intros (r & ->)%starts_with_spec. apply not_true_iff_false in H.
  apply H, starts_with_spec. by exists r.
Qed.

(** C30. The planner and the evaluator read the same capability binding.  For a block
    whose options parse, and no entry of which repeats the prefix [cap=], the binding
    that the planner makes the block depend on is the one that the evaluator looks
    up. *)
Theorem capability_binding_agrees (attr : option str) (lang : str) (o : BlockOptions) :
  parse_block_options attr lang = inr o →
  Forall (λ entry, starts_with entry (lit "cap=cap=") = false) (attr_entries attr) →
  attr_capability_binding attr = capability_binding o.
Proof.
  unfold parse_block_options. destruct (parse_declaration attr); [done|].
  intros (o1 & (_ & _ & [_ _ _ Hi] & ->)%block_entries_spec & [= <-])%rbind_ok Honce.
  unfold attr_capability_binding. cbn [capability_binding options_after no_options option_list app]. f_equal.
  induction (attr_entries attr) as [|entry entries IH]; [done|]. apply Forall_cons in Honce as [Ho Hos].
  rewrite omap_cons_app in Hi. apply Forall_app in Hi as [Hi His]. rewrite omap_one in Hi.
  rewrite !(omap_cons_app _ entry entries), !omap_one, (IH His Hos). f_equal. f_equal.
  assert (Hb : binding_of entry = match strip_prefix (lit "cap=") entry with Some _ => Some (cap_name entry) | None => None end).
  { unfold binding_of, starts_with. by destruct (strip_prefix (lit "cap=") entry). }
  rewrite Hb in Hi |- *. clear Hb. destruct (strip_prefix (lit "cap=") entry) as [name|] eqn:E; [|reflexivity].
  rewrite (cap_name_once entry name E (doubled_prefix entry name E Ho)) in Hi |- *.
  cbn [option_list] in Hi. rewrite Forall_singleton in Hi. destruct name; [discriminate Hi|reflexivity].
Qed.

Lemma capability_binding_agrees_witness : attr_capability_binding (Some (lit "lazy, cap=db")) = Some (lit "db").
Proof.
  exact (capability_binding_agrees (Some (lit "lazy, cap=db")) (lit "python")
    {| block_policy := Some BlockLazy; capability_binding := Some (lit "db"); permissions := [] |}
    ltac:(vm_compute; reflexivity) ltac:(repeat constructor)).
Defined.

(** With a doubled prefix they do not: the planner sees a binding named [cap=db], which
    no program has, and the evaluator looks up [db]. *)
Lemma doubled_capability_prefix :
  attr_capability_binding (Some (lit "cap=cap=db")) = Some (lit "cap=db") ∧
  capability_binding <$> (match parse_block_options (Some (lit "cap=cap=db")) (lit "python") with inr o => Some o | inl _ => None end)
    = Some (Some (lit "db")).
Proof. split; vm_compute; reflexivity. Qed.

(** ** Genuine metadata *)

Section Genuine.
Context `{DG : !Digests}.

(** What a node of an accepted program satisfies. *)
Definition genuine (oir : OIr) : Prop :=
  match oir with
  | Invoke name mode args => name ≠ NATIVE_LEAF_BUILTIN ∧ mode = for_name name ∧
      match mode with Lazy | Autonomous => length args = 1 | Group _ => args ≠ [] | Eager => True end
  | NativeLeaf _ (ScalarI64AcyclicV1 parameter_count) _ _ args => parameter_count = Nat.pred (length args)
  | Exec lang _ attr backend _ => backend = global_interface_for lang ∧
      if bool_decide (execution backend = InlineAst) then attr = None ∧ canonical backend ∈ [lit "quote"; lit "O"]
      else ∃ o, parse_block_options attr lang = inr o ∧ (block_policy o = Some BlockLazy → pure backend = true)
  | _ => True
  end.

(** An error that the author of a document can make. *)
Definition authored (e : ContractError) : bool :=
  match e with
  | MustBeNativeLeaf _ | WrongInvokeMode _ _ _ | NativeParameterCount _ _ | InterfaceMismatch _ | InlineAstWithoutExecutor _ => false
  | _ => true
  end.

Lemma for_each_node_ok f flat : for_each_node f flat = inr tt ↔ Forall (λ oir, f oir = inr tt) flat.
Proof.
  induction flat as [|oir flat IH]; simpl; [split; [constructor|done]|]. rewrite rbind_ok, Forall_cons, <-IH. split.
  - intros ([] & ? & ?). done.
  - intros [? ?]. by exists tt.
Qed.

Lemma for_each_node_err f flat e : for_each_node f flat = inl e → ∃ oir, oir ∈ flat ∧ f oir = inl e.
Proof.
  induction flat as [|oir flat IH]; simpl; [done|]. destruct (f oir) as [e'|] eqn:E; simpl.
  - intros [= <-]. exists oir. split; [by left|done].
  - intros (oir' & ? & ?)%IH. exists oir'. split; [by right|done].
Qed.

Lemma validate_node_genuine oir : validate_node_metadata oir = inr tt → genuine oir.
Proof.
  destruct oir as [| | |name mode args|? [count] ? ? args|lang env attr backend body]; simpl; try done.
  - unfold validate_invoke. case_bool_decide; [done|]. case_bool_decide as E; [|done]. cbn [negb].
    destruct mode; repeat case_bool_decide; try done; intros _; split_and!; try done. by destruct args.
  - by case_bool_decide.
  - unfold validate_exec_metadata. case_bool_decide as E; [|done]. cbn [negb]. intros H. split; [done|]. revert H.
    destruct (decide (execution backend = InlineAst)) as [Hx|Hx].
    + rewrite (bool_decide_eq_true_2 (execution backend = InlineAst)) by done. cbn [andb].
      case_bool_decide as Hq; [case_bool_decide as Ha; [done|]; intros _; split; [|set_solver]; destruct attr; [|done]; by destruct Ha|].
      case_bool_decide as Ho; [|done]. case_bool_decide as Ha; [done|]. intros _. split; [|set_solver]. destruct attr; [|done]. by destruct Ha.
    + rewrite (bool_decide_eq_false_2 (execution backend = InlineAst)) by done. cbn [andb].
      destruct (parse_block_options attr lang) as [e|o]; [done|]. cbn [rbind]. intros H. exists o. split; [done|]. intros Hp.
      rewrite Hp in H. simpl in H. case_bool_decide; [done|]. by destruct (pure backend).
Qed.

Lemma inline_ast_executors lang : execution (global_interface_for lang) = InlineAst →
  canonical (global_interface_for lang) ∈ [lit "quote"; lit "O"].
Proof.
  unfold global_interface_for, interface_for, registry_canonical, global_specs. cbn [execution canonical].
  destruct (registry_get (BACKEND_SPECS hash_bytes) lang) as [s|] eqn:E; simpl; [|done].
  apply registry_get_Some in E as [Hs _]. intros Hx.
  assert (Hall : Forall (λ s, spec_execution s = InlineAst → spec_name s ∈ [lit "quote"; lit "O"]) (BACKEND_SPECS hash_bytes)).
  { repeat (constructor; [first [intros H; discriminate H | intros _; apply (bool_decide_unpack _); vm_compute; exact I]|]). constructor. }
  rewrite Forall_forall in Hall. by apply (Hall s).
Qed.

Lemma flatten_lowered n oir : oir ∈ flatten_node_for_plan (lower_node n) → ∃ n', oir = lower_node n'.
Proof.
  assert (Hsub : ∀ l, Forall (λ n, oir ∈ flatten_node_for_plan (lower_node n) → ∃ n', oir = lower_node n') l →
    oir ∈ concat (map flatten_node_for_plan (map lower_node l)) → ∃ n', oir = lower_node n').
  { induction 1 as [|n' l Hn _ IH]; simpl; [set_solver|]. intros [?|?]%elem_of_app; auto. }
  assert (Hself : ∀ n l, oir ∈ lower_node n :: l → (oir ∈ l → ∃ n', oir = lower_node n') → ∃ n', oir = lower_node n').
  { intros n' l [-> |?]%elem_of_cons Hl; [by exists n'|by apply Hl]. }
  induction n as [s|name|name expr IH|lang env attr body IH|f args IH] using ONode_ind'; intros Hin.
  - apply (Hself (RawText s) [] Hin). set_solver.
  - apply (Hself (VarRef name) [] Hin). set_solver.
  - by apply (Hself (LetBinding name expr) (flatten_node_for_plan (lower_node expr)) Hin).
  - apply (Hself (TypedExpr lang env attr body) _ Hin). destruct (is_quote_exec _); [set_solver|]. by apply Hsub.
  - assert (Hl : ∃ rest, flatten_node_for_plan (lower_node (Call f args)) = lower_node (Call f args) :: rest ∧
      (oir ∈ rest → oir ∈ concat (map flatten_node_for_plan (map lower_node args)))).
    { cbn [lower_node]. destruct (bool_decide (f = NATIVE_LEAF_BUILTIN)); eexists; split; [reflexivity|auto|reflexivity|auto]. }
    destruct Hl as (rest & Hl & Hrest). rewrite Hl in Hin. apply (Hself (Call f args) rest Hin).
    intros H. apply (Hsub args IH). auto.
Qed.

Lemma lowered_authored n e : validate_node_metadata (lower_node n) = inl e → authored e = true.
Proof.
  destruct n as [s|name|name expr|lang env attr body|f args]; simpl; try done.
  - unfold validate_exec_metadata. rewrite bool_decide_eq_true_2 by done. cbn [negb]. set (b := global_interface_for lang).
    destruct (decide (execution b = InlineAst)) as [Hx|Hx].
    + pose proof (inline_ast_executors lang Hx) as Hc. rewrite (bool_decide_eq_true_2 (execution b = InlineAst)) by done. cbn [andb].
      do 2 (case_bool_decide; [case_bool_decide; [by intros [= <-]|done]|]). set_solver.
    + rewrite (bool_decide_eq_false_2 (execution b = InlineAst)) by done. cbn [andb].
      destruct (parse_block_options attr lang) as [e'|o] eqn:E; cbn [rbind].
      * intros [= <-]. revert E. unfold parse_block_options. destruct (parse_declaration attr); [by intros [= <-]|].
        generalize (@nil str) no_options. induction (attr_entries attr) as [|entry entries IH]; intros seen o; simpl; [done|].
        case_bool_decide; [by intros [= <-]|]. destruct (block_entry lang o entry) as [e''|o'] eqn:Eb; simpl; [|apply IH].
        intros [= ->]. revert Eb. unfold block_entry, set_block_policy.
        repeat case_match; try (by intros [= <-]); done.
      * destruct (block_policy o) as [[]|]; simpl; repeat case_match; try (by intros [= <-]); done.
  - destruct (decide (f = NATIVE_LEAF_BUILTIN)) as [E|E];
      [rewrite bool_decide_eq_true_2 by done|rewrite bool_decide_eq_false_2 by done]; simpl.
    + by rewrite bool_decide_eq_true_2.
    + unfold validate_invoke. rewrite bool_decide_eq_false_2, bool_decide_eq_true_2 by done. simpl.
      destruct (for_name f); repeat case_match; try (by intros [= <-]); done.
Qed.
End Genuine.

(** C28. Metadata can be trusted after validation, and lowering never trips it.  A
    program that [validate_execution_metadata] accepts has only canonical
    invocation modes and arities, native leaves with the declared number of
    arguments, and blocks whose frozen backend interface is the registered one and
    whose options parse, with [lazy] on pure backends only.  A program that was
    lowered from a syntax tree is refused only for errors that its author can make
    (attributes, arities of [lazy], [autonomous] and groups, lets that bash cannot
    receive), never as forged metadata. *)
Theorem metadata_genuine `{DG : !Digests} :
  (∀ flat, validate_execution_metadata flat = inr tt → Forall genuine flat) ∧
  (∀ ns e, validate_execution_metadata (flatten_for_plan (lower ns)) = inl e → authored e = true).
Proof.
  split.
  - intros flat ([] & H%for_each_node_ok & _)%rbind_ok. eapply Forall_impl; [exact H|]. intros oir. apply validate_node_genuine.
  - intros ns e. unfold validate_execution_metadata. destruct (for_each_node validate_node_metadata _) as [e'|] eqn:E; simpl.
    + intros [= <-]. apply for_each_node_err in E as (oir & Hin & E). unfold flatten_for_plan, flatten_nodes_for_plan, lower in Hin.
      simpl in Hin. assert (∃ n, oir = lower_node n) as [n ->]; [|by eapply lowered_authored].
      induction ns as [|n ns IH]; simpl in Hin; [set_solver|]. apply elem_of_app in Hin as [Hin|Hin]; [by eapply flatten_lowered|auto].
    + unfold validate_bash_special_lets. intros (oir & _ & H)%for_each_node_err. destruct oir; simpl in H; try done.
      repeat case_match; by simplify_eq.
Qed.
