(* ===== verification/EvalFrame.v ===== *)
(** * The evaluation frame of a graph run

    The part of [crates/ostadix-api/src/eval_core.rs] that the executor shares with
    the evaluator: the values, scopes and policies of one run ([GraphEvalFrame]),
    the scope a block receives, the settlement of failed [batch(...)] members, the
    policy of every plan node, and the trace ([executor/trace.rs]).  Values and
    errors are interfaces: the executor stores, renders and compares them only
    through the operations listed in [OValues] and [Errors]. *)

From S2P Require Import Prelude.
From S2P Require Import BackendCatalog.
From S2P Require Import Ir.
From S2P Require Import BashScan.
From S2P Require Import ExecutionPlan.
From S2P Require Import DispatchModel.
From S2P Require Import HGraph.
From S2P Require Import ExecutionContract.
From stdpp Require Import options.

#[local] Open Scope nat_scope.

(** ** Interfaces *)

(** What the executor uses of [OValue] ([value.rs]) and of its renderers. *)
Class OValues : Type := {
  OValue : Type;
  type_name : OValue → str;
  trace_fingerprint : OValue → option str;
  (** The text of [OValue::Text]. *)
  text_of : OValue → option str;
  (** [OValue::Number] or [OValue::Bool]. *)
  is_number_or_bool : OValue → bool;
  (** [OValue::Request] of kind [RequestKind::Eval]. *)
  is_eval_request : OValue → bool;
  is_null : OValue → bool;
  null_value : OValue;
  str_ : str → OValue;
  html_value : str → OValue;
  error_value : str → OValue;
  render_with : SpliceRenderer → OValue → str;
}.

(** One constructor per message of the modelled code, with what it renders. *)
Inductive Message : Type :=
| NoValueProduced (id : PlanNodeId)
| NodeOutOfBounds (id : PlanNodeId)
| SpecialNotText (name : str)
| NulInBinding (name : str)
| NulInSplice (name : option str)
| FlattenCount
| PlanFailure (e : PlanError)
| GraphFailure (e : HGraphError)
| ContractFailure (e : ContractError)
| AdapterMismatch (id : PlanNodeId) (a : DispatchAdapterV1)
| NativeNeedsAuthority
| ShimNeedsRuntime
| TextNotString (id : PlanNodeId)
| DescriptorNotStatic
| DescriptorAbsent
| DescriptorDiffers
| LeaseMismatch
| NativeArity
| UndefinedVariable (name : str)
| NoValueExecutor (canonical : str)
| NoEffectSummary (id : PlanNodeId)
| NoDispatchContract (id : PlanNodeId)
| PreparationMismatch (id : PlanNodeId)
| NativeLostDescriptor
| UnknownToken
| InvalidTokenState (token : nat)
| InvalidCallback (token : nat)
| IncoherentContract (id : PlanNodeId)
| PublishedTwice (token : nat)
| ReturnedTwice (token : nat)
| InfallibleFailed (id : PlanNodeId)
| InfrastructureReported
| Stalled (remaining operations failed_outputs : nat)
| RemoteContract (id : PlanNodeId)
| OutsideFabric (id : PlanNodeId) (a : DispatchAdapterV1)
| NoRemoteRenderer
| ScheduledChildren (id : PlanNodeId) (scheduled instructions : nat)
| InterfaceDiffers (lang : str)
| AttributesNotValid (canonical : str)
| InlineWithoutExecutor (canonical : str).

(** What the executor uses of [anyhow::Error] and of the error classes of
    [process.rs] and [cancellation.rs]. *)
Class Errors : Type := {
  Error : Type;
  (** [anyhow!(..)]. *)
  anyhow : Message → Error;
  (** [error.context(..)]. *)
  context : Message → Error → Error;
  (** [error.to_string()] and [format!("{error:#}")]. *)
  to_string : Error → str;
  chain_string : Error → str;
  (** The summary of a [BatchAllMembersFailed], when the error is one. *)
  all_members_failed : Error → option str;
  batch_member_error_is_absorbable : Error → bool;
  is_request_cancellation : Error → bool;
  is_infrastructure_error : Error → bool;
}.

(** [map_err(anyhow::Error::msg)]. *)
Definition plan_result `{Errors} {A} (r : presult A) : outcome Error A :=
  match r with
  | Ok a => Ok a
  | Err e => Err (anyhow (PlanFailure e))
  | Panic => Panic
  | NoFuel => NoFuel
  end.

Definition from_result {E A} (r : E + A) : outcome E A := match r with inl e => Err e | inr a => Ok a end.

(** ** Loops over outcomes *)

Fixpoint map_outcome {E A B} (f : A → outcome E B) (l : list A) : outcome E (list B) :=
  match l with
  | [] => Ok []
  | a :: l => let+ b := f a in let+ bs := map_outcome f l in Ok (b :: bs)
  end.

Fixpoint fold_outcome {E A B} (f : B → A → outcome E B) (b : B) (l : list A) : outcome E B :=
  match l with
  | [] => Ok b
  | a :: l => let+ b := f b a in fold_outcome f b l
  end.

Fixpoint filter_outcome {E A} (p : A → outcome E bool) (l : list A) : outcome E (list A) :=
  match l with
  | [] => Ok []
  | a :: l =>
      let+ b := p a in
      let+ rest := filter_outcome p l in
      Ok (if b then a :: rest else rest)
  end.

(** [iter().all(p)], which stops at the first [false]. *)
Fixpoint all_outcome {E A} (p : A → outcome E bool) (l : list A) : outcome E bool :=
  match l with
  | [] => Ok true
  | a :: l => let+ b := p a in if b then all_outcome p l else Ok false
  end.

(** ** Traces *)

Record BatchMemberFailure : Type := { bf_node : PlanNodeId; bf_member : nat; bf_message : str }.

(** Why a result that was computed was not settled. *)
Inductive Reason : Type :=
| RequestStopped
| CompletionChannelFailed
| FailStop (id : PlanNodeId)
| InfrastructureAborted (id : PlanNodeId)
| PreparationContractMismatch
| SubmissionAborted
| RequestControlAborted
| InfrastructureReportedReason
| InvalidCompletion
| EventAborted
| StalledReason.

Inductive TraceEvent : Type :=
| NodeReady (id : PlanNodeId)
| NodeStarted (id : PlanNodeId)
| NodeFinished (id : PlanNodeId) (value_type : str) (fingerprint : option str)
| NodeFailed (id : PlanNodeId) (text : str)
| NodeDiscarded (id : PlanNodeId) (reason : Reason).

(** A publication record lists the outputs that were materialised, with their kinds. *)
Record ExecutionTrace : Type := {
  events : list TraceEvent;
  publications : list (PlanNodeId * list (NodeId * HNodeKind));
  trace_failed_members : list BatchMemberFailure;
}.

Definition empty_trace : ExecutionTrace := {| events := []; publications := []; trace_failed_members := [] |}.

Definition push_event (e : TraceEvent) (t : ExecutionTrace) : ExecutionTrace :=
  {| events := events t ++ [e]; publications := publications t; trace_failed_members := trace_failed_members t |}.

Definition trace_ready (id : PlanNodeId) := push_event (NodeReady id).
Definition trace_started (id : PlanNodeId) := push_event (NodeStarted id).
Definition trace_finished (id : PlanNodeId) (value_type : str) (fingerprint : option str) :=
  push_event (NodeFinished id value_type fingerprint).
Definition trace_failed (id : PlanNodeId) (text : str) := push_event (NodeFailed id text).
Definition trace_discarded (id : PlanNodeId) (reason : Reason) := push_event (NodeDiscarded id reason).

Definition trace_published (id : PlanNodeId) (outputs : list (NodeId * HNodeKind)) (t : ExecutionTrace) : ExecutionTrace :=
  {| events := events t; publications := publications t ++ [(id, outputs)]; trace_failed_members := trace_failed_members t |}.

Definition trace_batch_member_failed (f : BatchMemberFailure) (t : ExecutionTrace) : ExecutionTrace :=
  {| events := events t; publications := publications t; trace_failed_members := trace_failed_members t ++ [f] |}.

(** ** The frame *)

Section Frame.
Context `{OV : !OValues, ER : !Errors}.
(** [plan] and the [plan_index] that the frame carries. *)
Context (p : ExecutionPlan) (index : ExecutionPlanIndex).

Record GraphEvalFrame : Type := {
  values : list (option OValue);
  base_scope : gmap str OValue;
  node_policy : list Policy;
  failed_batch_members : gset PlanNodeId;
  forced_batch_failures : list BatchMemberFailure;
}.

Definition set_values (vs : list (option OValue)) (f : GraphEvalFrame) : GraphEvalFrame :=
  {| values := vs; base_scope := base_scope f; node_policy := node_policy f;
     failed_batch_members := failed_batch_members f; forced_batch_failures := forced_batch_failures f |}.

(** [GraphEvalFrame::value]. *)
Definition frame_value (f : GraphEvalFrame) (id : PlanNodeId) : Error + OValue :=
  match mjoin (values f !! id) with
  | Some v => inr v
  | None => inl (anyhow (NoValueProduced id))
  end.

Definition set_value (id : PlanNodeId) (v : OValue) (f : GraphEvalFrame) : Error + GraphEvalFrame :=
  if bool_decide (id < length (values f)) then inr (set_values (<[id := Some v]> (values f)) f)
  else inl (anyhow (NodeOutOfBounds id)).

Definition plain_bash_block_ahead (f : GraphEvalFrame) (id : PlanNodeId) : bool :=
  existsb (λ entry, negb (bool_decide (entry.1 = id)) && match values f !! entry.1 with Some None => true | _ => false end
                    && is_plain_bash_exec (node_kind entry.2))
    (imap pair (plan_nodes p)).

Definition data_predecessors (node : PlanNodeId) : outcome Error (list PlanNodeId) :=
  let+ es := plan_result (index_incoming index node) in
  Ok (merge_sort le (edge_from <$> filter (λ e, edge_kind e = Data) es)).

Definition structural_children (parent : PlanNodeId) : outcome Error (list PlanNodeId) :=
  let+ es := plan_result (index_incoming index parent) in
  Ok (merge_sort le (edge_from <$> filter (λ e, edge_kind e = Structural) es)).

(** The binding of a [Store] among the sources of a scope. *)
Definition insert_binding (f : GraphEvalFrame) (scope : gmap str OValue) (source : PlanNodeId) : outcome Error (gmap str OValue) :=
  let+ kind := plan_result (kind_at p source) in
  match kind with
  | PStore name => let+ v := from_result (frame_value f source) in Ok (<[name := v]> scope)
  | _ => Ok scope
  end.

Definition scope_from_data_edges (f : GraphEvalFrame) (node : PlanNodeId) : outcome Error (gmap str OValue) :=
  let+ sources := data_predecessors node in
  fold_outcome (insert_binding f) (base_scope f) sources.

Definition contains_nul (s : str) : bool := bool_decide (0%Z ∈ s).

Definition bash_let_value (name : str) (v : OValue) : Error + OValue :=
  if bool_decide (is_Some (bash_special_name name)) && negb (bool_decide (is_Some (text_of v)))
  then inl (anyhow (SpecialNotText name))
  else
    let v := if bool_decide (is_Some (text_of v)) || is_number_or_bool v then v
             else str_ (render_with RDefault v) in
    if match text_of v with Some text => contains_nul text | None => false end
    then inl (anyhow (NulInBinding name))
    else inr v.

(** The order in which a hash map is visited only decides which error is reported. *)
Definition bash_scope (scope : gmap str OValue) : outcome Error (gmap str OValue) :=
  let+ entries := map_outcome (λ entry, let+ v := from_result (bash_let_value entry.1 entry.2) in Ok (entry.1, v))
                    (map_to_list scope) in
  Ok (list_to_map entries).

Definition exec_scope (f : GraphEvalFrame) (node : PlanNodeId) : outcome Error (gmap str OValue) :=
  let+ scope := scope_from_data_edges f node in
  let+ children := structural_children node in
  let+ scope := fold_outcome (insert_binding f) scope children in
  let+ kind := plan_result (kind_at p node) in
  match kind with
  | PExec _ _ _ backend => if bool_decide (canonical backend = lit "bash") then bash_scope scope else Ok scope
  | _ => Ok scope
  end.

Definition refuse_nul_in_bash_splice (canonical : str) (name : option str) (rendered : str) : Error + unit :=
  if bool_decide (canonical = lit "bash") && contains_nul rendered then inl (anyhow (NulInSplice name)) else inr tt.

(** ** Failed members of a batch *)

(** [iter().position(..)]. *)
Definition position (x : PlanNodeId) (l : list PlanNodeId) : option nat := fst <$> list_find (x =.) l.

Definition is_batch_edge (e : PlanEdge) : outcome Error bool :=
  if bool_decide (edge_kind e = Structural) then
    let+ kind := plan_result (kind_at p (edge_to e)) in
    Ok (match kind with PGroup Batch _ => true | _ => false end)
  else Ok false.

(** [iter().find(..)]. *)
Fixpoint find_batch_edge (es : list PlanEdge) : outcome Error (option PlanEdge) :=
  match es with
  | [] => Ok None
  | e :: es => let+ b := is_batch_edge e in if b then Ok (Some e) else find_batch_edge es
  end.

Definition batch_member_index (node : PlanNodeId) : outcome Error (option nat) :=
  let+ es := plan_result (index_outgoing index node) in
  let+ found := find_batch_edge es in
  match found with
  | None => Ok None
  | Some group => let+ members := structural_children (edge_to group) in Ok (position node members)
  end.

Definition add_failed_member (id : PlanNodeId) (f : GraphEvalFrame) : GraphEvalFrame :=
  {| values := values f; base_scope := base_scope f; node_policy := node_policy f;
     failed_batch_members := {[ id ]} ∪ failed_batch_members f; forced_batch_failures := forced_batch_failures f |}.

Definition settle_batch_member_failure (node : PlanNodeId) (e : Error) (absorbable : bool) (f : GraphEvalFrame) :
    outcome Error (GraphEvalFrame * option (BatchMemberFailure * OValue)) :=
  if negb absorbable then Ok (f, None)
  else
    let+ member := batch_member_index node in
    match member with
    | None => Ok (f, None)
    | Some member =>
        let text := default (chain_string e) (all_members_failed e) in
        Ok (add_failed_member node f,
            Some ({| bf_node := node; bf_member := member; bf_message := text |}, error_value (chain_string e)))
    end.

(** ** Policies *)

Definition child_policy (oir : OIr) (parent : Policy) : Policy :=
  match oir with
  | Invoke _ Lazy _ => LazyPolicy
  | Invoke _ Autonomous _ => AutonomousPolicy
  | Invoke _ (Group _) _ => match parent with AutonomousPolicy => AutonomousPolicy | _ => LazyPolicy end
  | _ => parent
  end.

(** [policies[child.0] = policy]. *)
Definition assign_policy (policy : Policy) (policies : list Policy) (child : PlanNodeId) : outcome Error (list Policy) :=
  if bool_decide (child < length policies) then Ok (<[child := policy]> policies) else Panic.

Definition derive_node (flat : list OIr) (policies : list Policy) (n : PlanNode) : outcome Error (list Policy) :=
  let+ parent := index_or_panic (policies !! node_id n) in
  let+ oir := index_or_panic (flat !! node_id n) in
  let+ children := structural_children (node_id n) in
  fold_outcome (assign_policy (child_policy oir parent)) policies children.

Definition derive_policy_contexts (flat : list OIr) (base_policy : Policy) : outcome Error (list Policy) :=
  if negb (bool_decide (length flat = length (plan_nodes p))) then Err (anyhow FlattenCount)
  else fold_outcome (derive_node flat) (replicate (length (plan_nodes p)) base_policy) (plan_nodes p).
End Frame.
