(* ===== verification/ParallelTasks.v ===== *)
(** * Tasks of the local workers

    [crates/ostadix-api/src/executor/parallel.rs]: the owned tasks that are built
    from the materialised inputs of an operation and run on a worker, and the test
    that those inputs can be rendered off the coordinator thread.  A hosted process
    and a compiled native leaf are interfaces: the runtime binding of a shim
    ([EphemeralShimRuntime]) and the sealed executable of a leaf ([PreparedLeaf]). *)

From S2P Require Import Prelude.
From S2P Require Import BackendCatalog.
From S2P Require Import Ir.
From S2P Require Import ExecutionPlan.
From S2P Require Import DispatchModel.
From S2P Require Import HGraph.
From S2P Require Import EvalFrame.
From stdpp Require Import options.

#[local] Open Scope nat_scope.

Section Interfaces.
Context `{OV : !OValues, ER : !Errors}.

(** The binding of a fresh hosted process, with the checks of its crossing contract. *)
Class Shims : Type := {
  EphemeralShimRuntime : Type;
  validate_bindings : EphemeralShimRuntime → str → gmap str OValue → Error + unit;
  validate_value : EphemeralShimRuntime → str → OValue → Error + unit;
  (** [run_ephemeral_with_eval_callback_controlled]. *)
  run_ephemeral : EphemeralShimRuntime → str → str → gmap str OValue → bool → Error + OValue;
}.

(** A sealed native executable ([native_leaf.rs]). *)
Class Leaves : Type := {
  PreparedLeaf : Type;
  manifest_descriptor_sha256 : PreparedLeaf → str;
  manifest_parameter_count : PreparedLeaf → nat;
  verify_leaf : PreparedLeaf → Error + unit;
  (** Conversion of the arguments and one run of the executable. *)
  execute_leaf : PreparedLeaf → list OValue → Error + OValue;
}.
End Interfaces.

Section Tasks.
Context `{OV : !OValues, ER : !Errors, SH : !Shims, LV : !Leaves, DG : !Digests}.
Context (p : ExecutionPlan) (index : ExecutionPlanIndex).

Inductive RenderPart : Type :=
| Verbatim (s : str)
| Splice (v : OValue).

(** [ParallelTaskBody] and [NativeI64Task]. *)
Inductive PreparedTask : Type :=
| RenderTask (renderer : SpliceRenderer) (canonical : str) (parts : list RenderPart)
| ScopeLoad (name : str) (scope : gmap str OValue)
| ShimTask (language code : str) (bindings : gmap str OValue) (runtime : EphemeralShimRuntime) (plain_bash_next : bool)
| NativeI64Task (leaf : PreparedLeaf) (arguments : list OValue).

(** *** Inputs *)

(** One child of a block: stores and texts never need the evaluator. *)
Definition input_pure (f : GraphEvalFrame) (child : PlanNodeId) : outcome Error bool :=
  let+ kind := plan_result (kind_at p child) in
  Ok (match kind with
      | PStore _ | PText => true
      | _ => match frame_value f child with inr v => negb (is_eval_request v) | inl _ => false end
      end).

Definition render_inputs_pure (f : GraphEvalFrame) (id : PlanNodeId) : outcome Error bool :=
  let+ kind := plan_result (kind_at p id) in
  match kind with
  | PLoad _ => Ok true
  | _ => match index_child_schedule index id with
         | Ok children => all_outcome (input_pure f) children
         | Err _ => Ok false
         | Panic => Panic
         | NoFuel => NoFuel
         end
  end.

(** *** Preparation *)

(** The text that a child of a hosted block contributes to its code. *)
Definition shim_part (f : GraphEvalFrame) (language : str) (renderer : SpliceRenderer) (runtime : EphemeralShimRuntime)
    (code : str) (child : PlanNodeId) : outcome Error str :=
  let+ kind := plan_result (kind_at p child) in
  match kind with
  | PStore _ => Ok code
  | PText =>
      let+ v := from_result (frame_value f child) in
      match text_of v with Some text => Ok (code ++ text) | None => Err (anyhow (TextNotString child)) end
  | _ =>
      let+ v := from_result (frame_value f child) in
      let+ _ := from_result (validate_value runtime language v) in
      let rendered := render_with renderer v in
      let name := match kind with PLoad name => Some name | _ => None end in
      let+ _ := from_result (refuse_nul_in_bash_splice language name rendered) in
      Ok (code ++ rendered)
  end.

Definition render_part (f : GraphEvalFrame) (parts : list RenderPart) (child : PlanNodeId) : outcome Error (list RenderPart) :=
  let+ kind := plan_result (kind_at p child) in
  match kind with
  | PStore _ => Ok parts
  | PText =>
      let+ v := from_result (frame_value f child) in
      match text_of v with
      | Some text => Ok (parts ++ [Verbatim text])
      | None => Err (anyhow (TextNotString child))
      end
  | _ => let+ v := from_result (frame_value f child) in Ok (parts ++ [Splice v])
  end.

Definition build_task (f : GraphEvalFrame) (id : PlanNodeId) (kind : TaskKind) (shim_runtime : option EphemeralShimRuntime) :
    outcome Error PreparedTask :=
  match kind with
  | NativeI64 => Err (anyhow NativeNeedsAuthority)
  | LoadTask name => let+ scope := scope_from_data_edges p index f id in Ok (ScopeLoad name scope)
  | EphemeralShim language renderer =>
      match shim_runtime with
      | None => Err (anyhow ShimNeedsRuntime)
      | Some runtime =>
          let+ children := plan_result (index_child_schedule index id) in
          let+ bindings := exec_scope p index f id in
          let+ _ := from_result (validate_bindings runtime language bindings) in
          let+ code := fold_outcome (shim_part f language renderer runtime) [] children in
          Ok (ShimTask language code bindings runtime (plain_bash_block_ahead p f id))
      end
  | Renderer renderer canonical =>
      let+ children := plan_result (index_child_schedule index id) in
      let+ parts := fold_outcome (render_part f) [] children in
      Ok (RenderTask renderer canonical parts)
  end.

(** [parallel::prepare]: the adapter that was admitted, or an error. *)
Definition prepare (adapter : DispatchAdapterV1) (f : GraphEvalFrame) (id : PlanNodeId) (oir : OIr)
    (shim_runtime : option EphemeralShimRuntime) : outcome Error PreparedTask :=
  let mismatch := Err (anyhow (AdapterMismatch id adapter)) in
  let+ kind :=
    match adapter with
    | OScopeLoadV1 => match oir with Load name => Ok (LoadTask name) | _ => mismatch end
    | TrustedInlineRendererV1 =>
        if renderer_inputs_statically_preparable oir then
          match oir with
          | Exec _ _ _ backend _ => Ok (Renderer (renderer backend) (canonical backend))
          | _ => Panic
          end
        else mismatch
    | AutonomousEphemeralShimV1 =>
        let+ matches := plan_result (adapter_matches adapter p id oir) in
        if matches then
          match oir with
          | Exec _ _ _ backend _ => Ok (EphemeralShim (canonical backend) (renderer backend))
          | _ => Panic
          end
        else mismatch
    | NativeI64V1 | CoordinatorV1 => mismatch
    end in
  build_task f id kind shim_runtime.

Definition prepare_native (leaf : PreparedLeaf) (f : GraphEvalFrame) (id : PlanNodeId) (oir : OIr) :
    outcome Error PreparedTask :=
  match native_leaf_source_descriptor oir with
  | None => Err (anyhow DescriptorNotStatic)
  | Some expected =>
      let+ children := plan_result (index_child_schedule index id) in
      match children with
      | [] => Err (anyhow DescriptorAbsent)
      | descriptor :: arguments =>
          let+ v := from_result (frame_value f descriptor) in
          if negb (bool_decide (text_of v = Some expected)) then Err (anyhow DescriptorDiffers)
          else
            let+ matches := plan_result (adapter_matches NativeI64V1 p id oir) in
            if negb matches || negb (bool_decide (manifest_descriptor_sha256 leaf = sha256_hex expected))
            then Err (anyhow LeaseMismatch)
            else
              let+ _ := from_result (verify_leaf leaf) in
              let+ arguments := map_outcome (λ child, from_result (frame_value f child)) arguments in
              if negb (bool_decide (length arguments = manifest_parameter_count leaf)) then Err (anyhow NativeArity)
              else Ok (NativeI64Task leaf arguments)
      end
  end.

(** *** Execution on a worker *)

Definition render_parts (renderer : SpliceRenderer) (parts : list RenderPart) : str :=
  concat ((λ part, match part with Verbatim text => text | Splice v => render_with renderer v end) <$> parts).

(** [PreparedTask::execute]. *)
Definition execute_prepared (task : PreparedTask) : Error + OValue :=
  match task with
  | ScopeLoad name scope =>
      match scope !! name with Some v => inr v | None => inl (anyhow (UndefinedVariable name)) end
  | RenderTask renderer canonical parts =>
      let buf := render_parts renderer parts in
      if bool_decide (canonical = lit "html") then inr (html_value buf)
      else if bool_decide (canonical ∈ [lit "markdown"; lit "text"; lit "latex"]) then inr (str_ buf)
      else inl (anyhow (NoValueExecutor canonical))
  | ShimTask language code bindings runtime plain_bash_next => run_ephemeral runtime language code bindings plain_bash_next
  | NativeI64Task leaf arguments => execute_leaf leaf arguments
  end.
End Tasks.
