(* ===== verification/Coordinator.v ===== *)
(** * The graph coordinator

    [crates/ostadix-api/src/executor/coordinator.rs]: the event loop that runs an
    admitted graph.  An operation is dispatched when all its input nodes are
    materialised; worker results may arrive in any order and are published or
    buffered; they are settled (traced, and made final) in the order of their
    ordinals.  The methods of [Coordinator] that a local run uses are definitions
    here, and so is [validate_remote_selection].

    The evaluator ([GraphEvaluationHost], [eval_core.rs]) and the physical attempt
    driver ([AttemptDriver], [executor/driver.rs]) are traits of the source and
    classes here.  The model is that of a local run: no execution boundary
    ([physical] is [None], as [Coordinator::new] builds it), no remote attempt
    adapter, and no crossing observations (the default of the trait).  Process
    lifecycle logging is left out. *)

From S2P Require Import Prelude.
From S2P Require Import Utf8.
From S2P Require Import BackendCatalog.
From S2P Require Import Ir.
From S2P Require Import ExecutionPlan.
From S2P Require Import Effects.
From S2P Require Import DispatchModel.
From S2P Require Import HGraph.
From S2P Require Import HGraphValidate.
From S2P Require Import ReadySchedule.
From S2P Require Import ExecutionContract.
From S2P Require Import EvalFrame.
From S2P Require Import ParallelTasks.
From stdpp Require Import options.

#[local] Open Scope nat_scope.

(** ** Admitted contracts ([evidence/fact.rs]) *)

Inductive DispatchLaneV1 : Type :=
| LocalWorker | CoordinatorLane | Actor | ExternalProcess | AsyncIo | Gpu | RemoteProvider | Ocore.

(** [NeverFails] is [Infallible] of the source. *)
Inductive FailureClassV1 : Type :=
| NeverFails
| MayFailNoExternalEffects
| MayFailUnorderedExternalEffects
| Transactional
| Idempotent
| Compensatable
| Irreversible
| UnknownFailure.

#[export] Instance DispatchLaneV1_eq_dec : EqDecision DispatchLaneV1.
Proof. solve_decision. Defined.
#[export] Instance FailureClassV1_eq_dec : EqDecision FailureClassV1.
Proof. solve_decision. Defined.
#[export] Instance DispatchAdapterV1_eq_dec : EqDecision DispatchAdapterV1.
Proof. solve_decision. Defined.

(** What admission records for one operation. *)
Record DispatchContract : Type := {
  contract_lane : DispatchLaneV1;
  contract_adapter : DispatchAdapterV1;
  contract_failure_class : FailureClassV1;
}.

(** ** Operations *)

Inductive OpRunState : Type := Pending | InFlight | Buffered | Published | Settled.

#[export] Instance OpRunState_eq_dec : EqDecision OpRunState.
Proof. solve_decision. Defined.

Inductive WorkerFailureKind : Type := SemanticFailure | InfrastructureFailure.

Inductive WorkerCompletionDisposition : Type := Continue | AbortInfrastructure.

Record OpState : Type := {
  op_plan_node : PlanNodeId;
  op_ordinal : nat;
  op_value_output : NodeId;
  op_inputs : list NodeId;
  op_outputs : list NodeId;
  op_effect : EffectSummary;
  op_lane : DispatchLaneV1;
  op_adapter : DispatchAdapterV1;
  op_failure_class : FailureClassV1;
  op_state : OpRunState;
}.

Definition set_run_state (s : OpRunState) (op : OpState) : OpState :=
  {| op_plan_node := op_plan_node op; op_ordinal := op_ordinal op; op_value_output := op_value_output op;
     op_inputs := op_inputs op; op_outputs := op_outputs op; op_effect := op_effect op; op_lane := op_lane op;
     op_adapter := op_adapter op; op_failure_class := op_failure_class op; op_state := s |}.

Record WorkerPublication : Type := { pub_output_type : str; pub_fingerprint : option str }.

Section Interfaces.
Context `{OV : !OValues, ER : !Errors, SH : !Shims, LV : !Leaves}.

Inductive TaskOutcome : Type :=
| Completed (r : Error + OValue)
| InfrastructureAbort (e : Error).

Record WorkerFailure : Type := { wf_index : nat; wf_error : Error; wf_kind : WorkerFailureKind }.

Record TaskEvalRequest : Type := {
  rq_token : nat;
  rq_src : str;
  rq_scope : gmap str OValue;
  rq_deadline : option Z;
}.

(** The text of a callback failure. *)
Inductive CallbackText : Type :=
| ErrorText (s : str)
| ReasonText (reason : Reason)
| InvalidTokenText (token : nat).

Inductive TaskCallbackFailure : Type :=
| CallbackSemantic (text : CallbackText)
| CallbackInfrastructure (text : CallbackText)
| CallbackCancelled (text : CallbackText).

(** [TaskCallbackFailure::from_error]. *)
Definition callback_from_error (e : Error) : TaskCallbackFailure :=
  let text := ErrorText (chain_string e) in
  if is_request_cancellation e then CallbackCancelled text
  else if is_infrastructure_error e then CallbackInfrastructure text
  else CallbackSemantic text.

Inductive WorkerEvent : Type :=
| TaskCompletion (token : nat) (r : TaskOutcome)
| EvalRequest (request : TaskEvalRequest).

(** [eval_core::GraphEvaluationHost], with the executable leases of the admitted
    execution.  Methods on [&self] read the host; [check_request_control] passes it
    on because other threads set the token that it reads. *)
Class GraphEvaluationHost : Type := {
  Host : Type;
  check_request_control : Host → Host * (Error + unit);
  verify_admitted_runtime_context : Host → Error + unit;
  verify_backend : Host → str → Error + unit;
  native_leaf_lease : Host → str → Error + PreparedLeaf;
  authorize_autonomous_ephemeral_shim : Host → BackendInterface → gmap str OValue → Error + EphemeralShimRuntime;
  set_policy : Policy → Host → Policy * Host;
  eval_source_with_scope_until : str → gmap str OValue → option Z → Host → Host * (Error + OValue);
  execute_ready_plan_node : PlanNodeId → OIr → GraphEvalFrame → Host → Host * GraphEvalFrame * (Error + OValue);
}.

(** [executor::driver::AttemptDriver]; [respond] is the reply channel of a request. *)
Class AttemptDriver : Type := {
  Driver : Type;
  available_slots : Driver → nat;
  outstanding : Driver → nat;
  submit : nat → PreparedTask → Driver → Driver * (Error + unit);
  try_recv_event : Driver → Driver * (Error + option WorkerEvent);
  recv_event : Driver → Driver * (Error + WorkerEvent);
  respond : TaskEvalRequest → TaskCallbackFailure + OValue → Driver → Driver * (Error + unit);
}.
End Interfaces.

(** ** The coordinator *)

Section Coordinator.
Context `{OV : !OValues, ER : !Errors, SH : !Shims, LV : !Leaves, DG : !Digests}.
Context `{HO : !GraphEvaluationHost, AD : !AttemptDriver}.
(** The plan, its index, the flattened program and the admitted graph. *)
Context (p : ExecutionPlan) (index : ExecutionPlanIndex) (flat : list OIr) (g : HGraph).

Record Coordinator : Type := {
  co_ops : list OpState;
  materialized : gset NodeId;
  provisional_groups : gmap NodeId PlanNodeId;
  failed_outputs : gmap NodeId str;
  worker_results : gmap nat TaskOutcome;
  worker_publications : gmap nat WorkerPublication;
  frame : GraphEvalFrame;
  trace : ExecutionTrace;
}.

(** The coordinator with the driver and the evaluator it works with. *)
Record Machine : Type := { co : Coordinator; driver : option Driver; host : Host }.

Abbreviation C A := (M Machine Error A).

(** *** Updates of single fields *)

Definition set_ops (l : list OpState) (c : Coordinator) : Coordinator :=
  {| co_ops := l; materialized := materialized c; provisional_groups := provisional_groups c;
     failed_outputs := failed_outputs c; worker_results := worker_results c;
     worker_publications := worker_publications c; frame := frame c; trace := trace c |}.
Definition set_materialized (s : gset NodeId) (c : Coordinator) : Coordinator :=
  {| co_ops := co_ops c; materialized := s; provisional_groups := provisional_groups c;
     failed_outputs := failed_outputs c; worker_results := worker_results c;
     worker_publications := worker_publications c; frame := frame c; trace := trace c |}.
Definition set_groups (m : gmap NodeId PlanNodeId) (c : Coordinator) : Coordinator :=
  {| co_ops := co_ops c; materialized := materialized c; provisional_groups := m;
     failed_outputs := failed_outputs c; worker_results := worker_results c;
     worker_publications := worker_publications c; frame := frame c; trace := trace c |}.
Definition set_failed_outputs (m : gmap NodeId str) (c : Coordinator) : Coordinator :=
  {| co_ops := co_ops c; materialized := materialized c; provisional_groups := provisional_groups c;
     failed_outputs := m; worker_results := worker_results c;
     worker_publications := worker_publications c; frame := frame c; trace := trace c |}.
Definition set_results (m : gmap nat TaskOutcome) (c : Coordinator) : Coordinator :=
  {| co_ops := co_ops c; materialized := materialized c; provisional_groups := provisional_groups c;
     failed_outputs := failed_outputs c; worker_results := m;
     worker_publications := worker_publications c; frame := frame c; trace := trace c |}.
Definition set_publications (m : gmap nat WorkerPublication) (c : Coordinator) : Coordinator :=
  {| co_ops := co_ops c; materialized := materialized c; provisional_groups := provisional_groups c;
     failed_outputs := failed_outputs c; worker_results := worker_results c;
     worker_publications := m; frame := frame c; trace := trace c |}.
Definition set_frame (f : GraphEvalFrame) (c : Coordinator) : Coordinator :=
  {| co_ops := co_ops c; materialized := materialized c; provisional_groups := provisional_groups c;
     failed_outputs := failed_outputs c; worker_results := worker_results c;
     worker_publications := worker_publications c; frame := f; trace := trace c |}.
Definition set_trace (t : ExecutionTrace) (c : Coordinator) : Coordinator :=
  {| co_ops := co_ops c; materialized := materialized c; provisional_groups := provisional_groups c;
     failed_outputs := failed_outputs c; worker_results := worker_results c;
     worker_publications := worker_publications c; frame := frame c; trace := t |}.

Definition set_state (i : nat) (s : OpRunState) (c : Coordinator) : Coordinator :=
  set_ops (alter (set_run_state s) i (co_ops c)) c.

Definition emit (f : ExecutionTrace → ExecutionTrace) (c : Coordinator) : Coordinator := set_trace (f (trace c)) c.

(** *** Effects *)

Definition update (f : Coordinator → Coordinator) : C unit :=
  modify (λ m, {| co := f (co m); driver := driver m; host := host m |}).

Definition coordinator : C Coordinator := let* m := get in ret (co m).

Definition lift {A} (r : outcome Error A) : C A := λ m, (m, r).

(** A call of a method of the evaluator that takes [&mut self]. *)
Definition on_host {A} (f : Host → Host * A) : C A := λ m,
  let '(h, a) := f (host m) in ({| co := co m; driver := driver m; host := h |}, Ok a).

Definition ask_host {A} (f : Host → Error + A) : C A := λ m, (m, from_result (f (host m))).

(** A call of a method of the driver; without a driver there is none to call. *)
Definition on_driver {A} (f : Driver → Driver * A) : C A := λ m,
  match driver m with
  | Some d => let '(d, a) := f d in ({| co := co m; driver := Some d; host := host m |}, Ok a)
  | None => (m, Panic)
  end.

Definition outstanding_tasks (m : Machine) : nat := match driver m with Some d => outstanding d | None => 0 end.

(** [self.ops[index]]. *)
Definition op_at (i : nat) : C OpState := let* c := coordinator in lift (index_or_panic (co_ops c !! i)).

(** [self.flat[id.0]]. *)
Definition oir_at (id : PlanNodeId) : outcome Error OIr := index_or_panic (flat !! id).

(** ** Readiness and selection *)

(** The key of the settlement order. *)
Definition op_key (l : list OpState) (i : nat) : nat * PlanNodeId :=
  match l !! i with Some op => (op_ordinal op, op_plan_node op) | None => (0, 0) end.

Definition key_lt (a b : nat * PlanNodeId) : Prop := a.1 < b.1 ∨ (a.1 = b.1 ∧ a.2 < b.2).

#[export] Instance key_lt_dec : RelDecision key_lt.
Proof. unfold key_lt. intros a b. apply _. Defined.

Definition op_le (l : list OpState) (i j : nat) : Prop := ¬ key_lt (op_key l j) (op_key l i).

#[export] Instance op_le_dec l : RelDecision (op_le l).
Proof. unfold op_le. intros a b. apply _. Defined.

(** [sort_by_key(..)]. *)
Definition by_key (l : list OpState) : list nat → list nat := merge_sort (op_le l).

(** [min_by_key(..)]: the first of the least elements. *)
Fixpoint min_by_key (l : list OpState) (l' : list nat) : option nat :=
  match l' with
  | [] => None
  | i :: l' =>
      match min_by_key l l' with
      | None => Some i
      | Some j => if bool_decide (key_lt (op_key l j) (op_key l i)) then Some j else Some i
      end
  end.

Definition has_state (c : Coordinator) (s : OpRunState) (i : nat) : bool :=
  match co_ops c !! i with Some op => bool_decide (op_state op = s) | None => false end.

Definition indices (c : Coordinator) : list nat := seq 0 (length (co_ops c)).

Definition lowest_unsettled (c : Coordinator) : option nat :=
  min_by_key (co_ops c) (filter (λ i, has_state c Settled i = false) (indices c)).

(** Whether a member of the group may see a provisional output of the group. *)
Definition in_group (op : OpState) (group : PlanNodeId) : outcome Error bool :=
  let+ member := plan_result (autonomous_member_indexed p index (op_plan_node op)) in
  Ok (match member with Some (candidate, _) => bool_decide (candidate = group) | None => false end).

Definition input_ready (c : Coordinator) (op : OpState) (n : NodeId) : outcome Error bool :=
  if negb (bool_decide (n ∈ materialized c)) then Ok false
  else match provisional_groups c !! n with
  | None => Ok true
  | Some group => if bool_decide (op_lane op = LocalWorker) then in_group op group else Ok false
  end.

Definition is_ready (c : Coordinator) (i : nat) : outcome Error bool :=
  let+ op := index_or_panic (co_ops c !! i) in
  if bool_decide (op_state op = Pending) then all_outcome (input_ready c op) (op_inputs op) else Ok false.

Definition ready_ops (c : Coordinator) : outcome Error (list nat) :=
  let+ ready := filter_outcome (is_ready c) (indices c) in
  Ok (by_key (co_ops c) ready).

Definition is_worker_safe (c : Coordinator) (i : nat) : outcome Error bool :=
  let+ op := index_or_panic (co_ops c !! i) in
  if negb (bool_decide (op_lane op = LocalWorker)) then Ok false
  else
    let+ oir := oir_at (op_plan_node op) in
    if negb (effect_contract_worker_safe (op_effect op) oir) then Ok false
    else
      let+ matches := plan_result (adapter_matches (op_adapter op) p (op_plan_node op) oir) in
      if matches then render_inputs_pure p index (frame c) (op_plan_node op) else Ok false.

(** A ready coordinator operation at the settlement frontier. *)
Definition coordinator_at_settlement_frontier (c : Coordinator) (ready : list nat) : outcome Error (option nat) :=
  match lowest_unsettled c with
  | None => Ok None
  | Some i =>
      let+ op := index_or_panic (co_ops c !! i) in
      Ok (if bool_decide (op_state op = Pending) && bool_decide (op_lane op = CoordinatorLane)
             && bool_decide (i ∈ ready) then Some i else None)
  end.

Definition autonomous_worker_group (c : Coordinator) (i : nat) : outcome Error (option PlanNodeId) :=
  let+ op := index_or_panic (co_ops c !! i) in
  if negb (bool_decide (op_lane op = LocalWorker)) then Ok None
  else match op_adapter op with
  | AutonomousEphemeralShimV1 =>
      let+ oir := oir_at (op_plan_node op) in
      plan_result (autonomous_ephemeral_group_indexed p index (op_plan_node op) oir)
  | OScopeLoadV1 =>
      let+ oir := oir_at (op_plan_node op) in
      if effect_contract_worker_safe (op_effect op) oir then
        let+ member := plan_result (autonomous_member_indexed p index (op_plan_node op)) in
        Ok (fst <$> member)
      else Ok None
  | _ => Ok None
  end.

(** *** Dispatch candidates *)

(** The safe ready operations of autonomous groups, with their groups. *)
Fixpoint autonomous_candidates (c : Coordinator) (ready : list nat) : outcome Error (list (nat * PlanNodeId)) :=
  match ready with
  | [] => Ok []
  | i :: ready =>
      let+ safe := is_worker_safe c i in
      let+ group := if safe then autonomous_worker_group c i else Ok None in
      let+ rest := autonomous_candidates c ready in
      Ok (match group with Some group => (i, group) :: rest | None => rest end)
  end.

(** Whether an earlier operation leaves the boundary of the group clear. *)
Definition clears_boundary (c : Coordinator) (first : nat) (group : PlanNodeId) (i : nat) : outcome Error bool :=
  let+ op := index_or_panic (co_ops c !! i) in
  let+ first_op := index_or_panic (co_ops c !! first) in
  if bool_decide (op_state op = Settled) || bool_decide (op_ordinal first_op ≤ op_ordinal op) then Ok true
  else if negb (bool_decide (op_lane op = LocalWorker)) then Ok false
  else
    let+ candidate := autonomous_worker_group c i in
    if bool_decide (candidate = Some group) || bool_decide (op_failure_class op = NeverFails)
    then in_group op group else Ok false.

(** The strict fallible prefix of the unsettled operations. *)
Fixpoint strict_prefix (c : Coordinator) (ready : list nat) (slots : nat) (selected unfinished : list nat) :
    outcome Error (list nat) :=
  match unfinished with
  | [] => Ok selected
  | i :: unfinished =>
      let+ op := index_or_panic (co_ops c !! i) in
      let fallible := bool_decide (op_failure_class op = MayFailNoExternalEffects) in
      match op_state op with
      | InFlight | Buffered =>
          if bool_decide (op_lane op = LocalWorker) && fallible then strict_prefix c ready slots selected unfinished
          else Ok selected
      | Pending =>
          let+ safe := if bool_decide (i ∈ ready) then is_worker_safe c i else Ok false in
          if safe && fallible then
            let selected := selected ++ [i] in
            if bool_decide (length selected = slots) then Ok selected
            else strict_prefix c ready slots selected unfinished
          else Ok selected
      | _ => Ok selected
      end
  end.

Definition safe_infallible (c : Coordinator) (i : nat) : outcome Error bool :=
  let+ safe := is_worker_safe c i in
  let+ op := index_or_panic (co_ops c !! i) in
  Ok (safe && bool_decide (op_failure_class op = NeverFails)).

(** The strict prefix, then infallible operations while slots are left. *)
Definition strict_candidates (c : Coordinator) (ready : list nat) (slots : nat) : outcome Error (list nat) :=
  let unfinished := by_key (co_ops c) (filter (λ i, has_state c Settled i = false) (indices c)) in
  let+ selected := strict_prefix c ready slots [] unfinished in
  if bool_decide (length selected = slots) then Ok selected
  else
    let+ infallible := filter_outcome (safe_infallible c) ready in
    Ok (selected ++ take (slots - length selected) infallible).

Definition pair_le (l : list OpState) (a b : nat * PlanNodeId) : Prop := op_le l a.1 b.1.

#[export] Instance pair_le_dec l : RelDecision (pair_le l).
Proof. unfold pair_le. intros a b. apply _. Defined.

Definition worker_dispatch_candidates (c : Coordinator) (ready : list nat) (slots : nat) : outcome Error (list nat) :=
  if bool_decide (slots = 0) then Ok []
  else
    let+ frontier := coordinator_at_settlement_frontier c ready in
    match frontier with
    | Some _ => Ok []
    | None =>
        let+ autonomous_ready := autonomous_candidates c ready in
        match merge_sort (pair_le (co_ops c)) autonomous_ready with
        | [] => strict_candidates c ready slots
        | (first, group) :: rest =>
            let+ boundary_clear := all_outcome (clears_boundary c first group) (indices c) in
            if boundary_clear
            then Ok (take slots (fst <$> filter (λ e, e.2 = group) ((first, group) :: rest)))
            else strict_candidates c ready slots
        end
    end.

(** *** Remote selection *)

(** One operation: the number of renderers selected so far. *)
Definition remote_operation (selected : nat) (op : OpState) : outcome Error nat :=
  if negb (bool_decide (op_lane op = LocalWorker)) then Ok selected
  else match op_adapter op with
  | TrustedInlineRendererV1 =>
      if negb (bool_decide (op_failure_class op = NeverFails)) || negb (is_verified_pure_infallible (op_effect op))
      then Err (anyhow (RemoteContract (op_plan_node op)))
      else
        let+ oir := oir_at (op_plan_node op) in
        let+ matches := plan_result (adapter_matches (op_adapter op) p (op_plan_node op) oir) in
        if matches then Ok (S selected) else Err (anyhow (RemoteContract (op_plan_node op)))
  | OScopeLoadV1 => Ok selected
  | adapter => Err (anyhow (OutsideFabric (op_plan_node op) adapter))
  end.

(** Every worker operation of a remote run is a pure renderer or a load, and there is a renderer. *)
Definition validate_remote_selection (c : Coordinator) : outcome Error unit :=
  let+ selected := fold_outcome remote_operation 0 (co_ops c) in
  if bool_decide (selected = 0) then Err (anyhow NoRemoteRenderer) else Ok tt.

(** ** Publication and settlement *)

(** Inserts the outputs of an operation into the materialised nodes. *)
Definition publish_outputs (i : nat) : C unit :=
  let* op := op_at i in
  update (λ c, set_materialized (list_to_set (op_outputs op) ∪ materialized c) c).

Definition publication_entry (n : NodeId) : outcome Error (NodeId * HNodeKind) :=
  let+ node := index_or_panic (g_nodes g !! n) in Ok (n, h_kind node).

Definition record_publication (i : nat) : C unit :=
  let* op := op_at i in
  let* c := coordinator in
  let* outputs := lift (map_outcome publication_entry (filter (λ n, n ∈ materialized c) (op_outputs op))) in
  update (emit (trace_published (op_plan_node op) outputs)).

Definition materialize_success (i : nat) : C unit :=
  publish_outputs i ;;* record_publication i ;;* update (set_state i Settled).

Definition materialize_member_error (i : nat) : C unit :=
  publish_outputs i ;;* update (set_state i Settled).

Definition remove_keys {A} (l : list NodeId) (m : gmap NodeId A) : gmap NodeId A := foldr delete m l.

Definition record_failure (i : nat) (text : str) : C unit :=
  let* op := op_at i in
  update (λ c, set_materialized (materialized c ∖ list_to_set (op_outputs op)) c) ;;*
  update (λ c, set_groups (remove_keys (op_outputs op) (provisional_groups c)) c) ;;*
  update (λ c, set_failed_outputs (foldl (λ m n, <[n := text]> m) (failed_outputs c) (op_outputs op)) c) ;;*
  update (set_state i Settled).

(** Writes a value into the frame; an error leaves the frame as it is. *)
Definition store_value (id : PlanNodeId) (v : OValue) : C (Error + unit) :=
  let* c := coordinator in
  match set_value id v (frame c) with
  | inl e => ret (inl e)
  | inr f => update (set_frame f) ;;* ret (inr tt)
  end.

(** The settlement of a failed member of a batch, if the node is one. *)
Definition settle_member (id : PlanNodeId) (e : Error) : C (option (BatchMemberFailure * OValue)) :=
  let* c := coordinator in
  let* (f, settled) := lift (settle_batch_member_failure p index id e (batch_member_error_is_absorbable e) (frame c)) in
  update (set_frame f) ;;* ret settled.

(** Settles an operation that was published before its turn. *)
Definition settle_published (i : nat) : C unit :=
  let* op := op_at i in
  let* c := coordinator in
  let* publication := lift (index_or_panic (worker_publications c !! i)) in
  update (λ c, set_publications (delete i (worker_publications c)) c) ;;*
  update (emit (trace_finished (op_plan_node op) (pub_output_type publication) (pub_fingerprint publication))) ;;*
  update (λ c, set_groups (remove_keys (op_outputs op) (provisional_groups c)) c) ;;*
  record_publication i ;;*
  update (set_state i Settled).

Definition infrastructure_failure (i : nat) (e : Error) : WorkerFailure :=
  {| wf_index := i; wf_error := e; wf_kind := InfrastructureFailure |}.

(** A value, stored and traced. *)
Definition finish_value (i : nat) (id : PlanNodeId) (v : OValue) (settle : nat → C unit) : C (option WorkerFailure) :=
  let* stored := store_value id v in
  match stored with
  | inl e => ret (Some (infrastructure_failure i e))
  | inr _ => update (emit (trace_finished id (type_name v) (trace_fingerprint v))) ;;* settle i ;;* ret None
  end.

(** An error of a fallible worker operation. *)
Definition settle_error (i : nat) (op : OpState) (e : Error) : C (option WorkerFailure) :=
  let id := op_plan_node op in
  if bool_decide (op_failure_class op = NeverFails)
  then ret (Some (infrastructure_failure i (context (InfallibleFailed id) e)))
  else
    let* settled := settle_member id e in
    match settled with
    | Some (failure, v) =>
        update (emit (trace_batch_member_failed failure)) ;;*
        finish_value i id v materialize_member_error
    | None =>
        update (emit (trace_failed id (to_string e))) ;;*
        record_failure i (to_string e) ;;*
        ret (Some {| wf_index := i; wf_error := e; wf_kind := SemanticFailure |})
    end.

(** Settles one buffered result; [None] when the loop goes on. *)
Definition settle_buffered (i : nat) : C (option WorkerFailure) :=
  let* op := op_at i in
  let* c := coordinator in
  let* r := lift (index_or_panic (worker_results c !! i)) in
  update (λ c, set_results (delete i (worker_results c)) c) ;;*
  match r with
  | Completed (inr v) => finish_value i (op_plan_node op) v materialize_success
  | Completed (inl e) => settle_error i op e
  | InfrastructureAbort e => ret (Some (infrastructure_failure i e))
  end.

(** Every turn settles one operation. *)
Fixpoint settle_loop (fuel : nat) : C (option WorkerFailure) :=
  match fuel with
  | O => no_fuel
  | S fuel =>
      let* c := coordinator in
      match lowest_unsettled c with
      | None => ret None
      | Some i =>
          let* op := op_at i in
          match op_state op with
          | Published => settle_published i ;;* settle_loop fuel
          | Buffered =>
              let* failure := settle_buffered i in
              match failure with Some failure => ret (Some failure) | None => settle_loop fuel end
          | _ => ret None
          end
      end
  end.

Definition settle_buffered_results : C (option WorkerFailure) :=
  let* c := coordinator in settle_loop (S (length (co_ops c))).

(** ** Worker completions *)

(** The group whose provisional outputs an operation consumed. *)
Definition inherited_group (c : Coordinator) (op : OpState) : option PlanNodeId :=
  head (omap (λ n, provisional_groups c !! n) (op_inputs op)).

Definition publish_provisional (outputs : list NodeId) (group : PlanNodeId) (c : Coordinator) : Coordinator :=
  set_groups (foldl (λ m n, <[n := group]> m) (provisional_groups c) outputs) c.

(** A successful result of an operation that may be seen before its turn. *)
Definition publish_completion (i : nat) (op : OpState) (autonomous_group : option PlanNodeId) (v : OValue) :
    C WorkerCompletionDisposition :=
  let id := op_plan_node op in
  if bool_decide (op_failure_class op = NeverFails) && negb (is_verified_pure_infallible (op_effect op))
  then fail (anyhow (IncoherentContract id))
  else
    let* c := coordinator in
    let publication := {| pub_output_type := type_name v; pub_fingerprint := trace_fingerprint v |} in
    let group := match autonomous_group with Some group => Some group | None => inherited_group c op end in
    let* stored := store_value id v in
    let* _ := lift (from_result stored) in
    publish_outputs i ;;*
    match group with Some group => update (publish_provisional (op_outputs op) group) | None => ret tt end ;;*
    update (set_state i Published) ;;*
    let* c := coordinator in
    update (λ c, set_publications (<[i := publication]> (worker_publications c)) c) ;;*
    if bool_decide (is_Some (worker_publications c !! i)) then fail (anyhow (PublishedTwice i)) else ret Continue.

Definition buffer_outcome (i : nat) (op : OpState) (r : TaskOutcome) : C WorkerCompletionDisposition :=
  let disposition :=
    match r with
    | InfrastructureAbort _ => AbortInfrastructure
    | Completed (inl _) => if bool_decide (op_failure_class op = NeverFails) then AbortInfrastructure else Continue
    | Completed (inr _) => Continue
    end in
  update (set_state i Buffered) ;;*
  let* c := coordinator in
  let duplicate := match worker_results c !! i with Some _ => true | None => false end in
  update (λ c, set_results (<[i := r]> (worker_results c)) c) ;;*
  if duplicate then fail (anyhow (ReturnedTwice i)) else ret disposition.

Definition buffer_worker_completion (token : nat) (r : TaskOutcome) : C WorkerCompletionDisposition :=
  let* c := coordinator in
  match co_ops c !! token with
  | None => fail (anyhow UnknownToken)
  | Some op =>
      if negb (bool_decide (op_state op = InFlight)) then fail (anyhow (InvalidTokenState token))
      else
        let* autonomous_group := lift (autonomous_worker_group c token) in
        match r with
        | Completed (inr v) =>
            if bool_decide (op_failure_class op = NeverFails) || bool_decide (is_Some autonomous_group)
            then publish_completion token op autonomous_group v
            else buffer_outcome token op r
        | _ => buffer_outcome token op r
        end
  end.

(** ** Draining and aborting *)

(** Receives events until no task is outstanding or the channel fails; completions
    are buffered, callbacks refused.  The first error of the drain is kept; that of a
    broken channel replaces it. *)
Fixpoint drain (fuel : nat) (refuse : TaskCallbackFailure) (drain_error : option Error) : C (option Error) :=
  match fuel with
  | O => no_fuel
  | S fuel =>
      let* m := get in
      if bool_decide (outstanding_tasks m = 0) then ret drain_error
      else
        let* event := on_driver recv_event in
        match event with
        | inl e => ret (Some e)
        | inr (TaskCompletion token r) =>
            λ m, match buffer_worker_completion token r m with
                 | (m, Ok _) => drain fuel refuse drain_error m
                 | (m, Err e) => drain fuel refuse (Some (default e drain_error)) m
                 | (m, Panic) => (m, Panic)
                 | (m, NoFuel) => (m, NoFuel)
                 end
        | inr (EvalRequest request) =>
            let* reply := on_driver (respond request (inl refuse)) in
            match reply with
            | inl e => drain fuel refuse (Some (default e drain_error))
            | inr _ => drain fuel refuse drain_error
            end
        end
  end.

Definition is_started (c : Coordinator) (i : nat) : bool :=
  has_state c InFlight i || has_state c Buffered i || has_state c Published i.

Definition discard_result (reason : Reason) (i : nat) : C unit :=
  let* op := op_at i in
  let id := op_plan_node op in
  update (λ c, set_results (delete i (worker_results c)) c) ;;*
  update (λ c, set_publications (delete i (worker_publications c)) c) ;;*
  update (λ c, set_materialized (materialized c ∖ list_to_set (op_outputs op)) c) ;;*
  update (λ c, set_groups (remove_keys (op_outputs op) (provisional_groups c)) c) ;;*
  let* c := coordinator in
  let* _ := lift (index_or_panic (values (frame c) !! id)) in
  update (λ c, set_frame (set_values (<[id := None]> (values (frame c))) (frame c)) c) ;;*
  update (emit (trace_discarded id reason)) ;;*
  update (set_state i Settled).

Fixpoint discard_all (reason : Reason) (l : list nat) : C unit :=
  match l with
  | [] => ret tt
  | i :: l => discard_result reason i ;;* discard_all reason l
  end.

(** The second half of [discard_started_workers]. *)
Definition discard_started (reason : Reason) : C unit :=
  let* c := coordinator in
  discard_all reason (by_key (co_ops c) (filter (λ i, is_started c i = true) (indices c))).

(** [discard_started_workers(driver, reason)]. *)
Definition discard_started_workers (fuel : nat) (reason : Reason) : C unit :=
  let* _ := drain fuel (CallbackInfrastructure (ReasonText reason)) None in
  discard_started reason.

(** [abort_after_worker_error(driver, reason, scheduler_error)]. *)
Definition abort_after_worker_error (fuel : nat) (reason : Reason) (scheduler_error : Error) : C Error :=
  let refuse := if is_request_cancellation scheduler_error then CallbackCancelled (ReasonText reason)
                else CallbackInfrastructure (ReasonText reason) in
  let* drain_error := drain fuel refuse None in
  let* failure := settle_buffered_results in
  let selected := match failure with Some failure => wf_error failure | None => default scheduler_error drain_error end in
  discard_started reason ;;* ret selected.

(** [return Err(self.abort_after_worker_error(..))]. *)
Definition abort {A} (fuel : nat) (reason : Reason) (scheduler_error : Error) : C A :=
  let* e := abort_after_worker_error fuel reason scheduler_error in fail e.

(** ** Dispatch *)

(** [OIr::Exec] of an operation whose adapter requires one. *)
Definition shim_backend (id : PlanNodeId) : outcome Error BackendInterface :=
  let+ oir := oir_at id in
  match oir with Exec _ _ _ backend _ => Ok backend | _ => Panic end.

Definition is_shim (op : OpState) : bool := bool_decide (op_adapter op = AutonomousEphemeralShimV1).

(** Rechecks the executable of one selected hosted operation. *)
Definition verify_selected (i : nat) : C unit :=
  let* op := op_at i in
  if is_shim op then
    let* backend := lift (shim_backend (op_plan_node op)) in
    ask_host (λ h, verify_backend h (canonical backend))
  else ret tt.

Fixpoint for_each {A} (f : A → C unit) (l : list A) : C unit :=
  match l with
  | [] => ret tt
  | a :: l => f a ;;* for_each f l
  end.

(** The task of one selected operation. *)
Definition prepare_submission (i : nat) : C (nat * PlanNodeId * PreparedTask) :=
  let* op := op_at i in
  let* c := coordinator in
  let id := op_plan_node op in
  let* oir := lift (oir_at id) in
  let* task :=
    match op_adapter op with
    | NativeI64V1 =>
        match native_leaf_source_descriptor oir with
        | None => fail (anyhow NativeLostDescriptor)
        | Some descriptor =>
            let* leaf := ask_host (λ h, native_leaf_lease h (sha256_hex descriptor)) in
            lift (prepare_native p index leaf (frame c) id oir)
        end
    | AutonomousEphemeralShimV1 =>
        let* backend := lift (shim_backend id) in
        let* scope := lift (scope_from_data_edges p index (frame c) id) in
        let* runtime := ask_host (λ h, authorize_autonomous_ephemeral_shim h backend scope) in
        lift (prepare p index (op_adapter op) (frame c) id oir (Some runtime))
    | adapter => lift (prepare p index adapter (frame c) id oir None)
    end in
  ret (i, id, task).

Fixpoint prepare_all (l : list nat) : C (list (nat * PlanNodeId * PreparedTask)) :=
  match l with
  | [] => ret []
  | i :: l => let* submission := prepare_submission i in let* rest := prepare_all l in ret (submission :: rest)
  end.

Definition submit_prepared (submission : nat * PlanNodeId * PreparedTask) : C unit :=
  let '(i, id, task) := submission in
  let* submitted := on_driver (submit i task) in
  let* _ := lift (from_result submitted) in
  update (set_state i InFlight) ;;*
  update (emit (trace_ready id)) ;;*
  update (emit (trace_started id)).

Definition dispatch_workers (selected : list nat) : C unit :=
  let* c := coordinator in
  (if existsb (λ i, match co_ops c !! i with Some op => is_shim op | None => false end) selected
   then ask_host verify_admitted_runtime_context ;;* for_each verify_selected selected
   else ret tt) ;;*
  let* prepared := prepare_all selected in
  for_each submit_prepared prepared.

(** ** Worker events *)

Definition accept_worker_completion (fuel : nat) (token : nat) (r : TaskOutcome) : C unit := λ m,
  match buffer_worker_completion token r m with
  | (m, Ok Continue) => (m, Ok tt)
  | (m, Ok AbortInfrastructure) => abort fuel InfrastructureReportedReason (anyhow InfrastructureReported) m
  | (m, Err e) => abort fuel InvalidCompletion e m
  | (m, Panic) => (m, Panic)
  | (m, NoFuel) => (m, NoFuel)
  end.

(** [request.respond(..)?]. *)
Definition respond_or_fail (request : TaskEvalRequest) (r : TaskCallbackFailure + OValue) : C unit :=
  let* reply := on_driver (respond request r) in lift (from_result reply).

Definition handle_worker_eval_request (request : TaskEvalRequest) : C unit :=
  let* c := coordinator in
  let token := rq_token request in
  match co_ops c !! token with
  | Some op =>
      if bool_decide (op_state op = InFlight) && is_shim op then
        let* policy := lift (index_or_panic (node_policy (frame c) !! op_plan_node op)) in
        let* saved := on_host (λ h, let '(saved, h) := set_policy policy h in (h, saved)) in
        let* r := on_host (eval_source_with_scope_until (rq_src request) (rq_scope request) (rq_deadline request)) in
        let* _ := on_host (λ h, let '(_, h) := set_policy saved h in (h, tt)) in
        respond_or_fail request (match r with inl e => inl (callback_from_error e) | inr v => inr v end)
      else
        respond_or_fail request (inl (CallbackInfrastructure (InvalidTokenText token))) ;;*
        fail (anyhow (InvalidCallback token))
  | None =>
      respond_or_fail request (inl (CallbackInfrastructure (InvalidTokenText token))) ;;*
      fail (anyhow (InvalidCallback token))
  end.

Definition accept_worker_event (fuel : nat) (event : WorkerEvent) : C unit :=
  match event with
  | TaskCompletion token r => accept_worker_completion fuel token r
  | EvalRequest request => handle_worker_eval_request request
  end.

Definition accept_worker_event_or_abort (fuel : nat) (event : WorkerEvent) : C unit := λ m,
  match accept_worker_event fuel event m with
  | (m, Err e) => abort fuel EventAborted e m
  | r => r
  end.

(** ** Operations on the coordinator thread *)

Definition is_shim_exec (oir : OIr) : bool :=
  match oir with Exec _ _ _ backend _ => bool_decide (execution backend = Shim) | _ => false end.

(** The recheck before opaque work or a process launch. *)
Definition verify_launch (op : OpState) (oir : OIr) : C unit :=
  if unknown (op_effect op) || is_shim_exec oir then
    ask_host verify_admitted_runtime_context ;;*
    match oir with
    | Exec _ _ _ backend _ =>
        if bool_decide (execution backend = Shim) then ask_host (λ h, verify_backend h (canonical backend)) else ret tt
    | _ => ret tt
    end
  else ret tt.

(** [frame.forced_batch_failures] is moved into the trace. *)
Definition take_forced_failures (c : Coordinator) : Coordinator :=
  let f := frame c in
  set_frame {| values := values f; base_scope := base_scope f; node_policy := node_policy f;
               failed_batch_members := failed_batch_members f; forced_batch_failures := [] |}
    (emit (λ t, foldl (λ t failure, trace_batch_member_failed failure t) t (forced_batch_failures f)) c).

(** [self.frame.set_value(id, value)?]. *)
Definition store_or_fail (id : PlanNodeId) (v : OValue) : C unit :=
  let* stored := store_value id v in lift (from_result stored).

(** [evaluator.execute_ready_plan_node(.., &mut self.frame)]. *)
Definition execute_node (id : PlanNodeId) (oir : OIr) : C (Error + OValue) := λ m,
  let '(h, f, r) := execute_ready_plan_node id oir (frame (co m)) (host m) in
  ({| co := set_frame f (co m); driver := driver m; host := h |}, Ok r).

Definition run_coordinator_op (i : nat) : C unit :=
  let* op := op_at i in
  let id := op_plan_node op in
  let* oir := lift (oir_at id) in
  verify_launch op oir ;;*
  update (emit (trace_ready id)) ;;*
  update (emit (trace_started id)) ;;*
  let* c := coordinator in
  let* policy := lift (index_or_panic (node_policy (frame c) !! id)) in
  let* saved := on_host (λ h, let '(saved, h) := set_policy policy h in (h, saved)) in
  let* r := execute_node id oir in
  let* _ := on_host (λ h, let '(_, h) := set_policy saved h in (h, tt)) in
  match r with
  | inr v =>
      update take_forced_failures ;;*
      update (emit (trace_finished id (type_name v) (trace_fingerprint v))) ;;*
      store_or_fail id v ;;*
      materialize_success i
  | inl e =>
      let* settled := settle_member id e in
      match settled with
      | Some (failure, v) =>
          update (emit (trace_batch_member_failed failure)) ;;*
          update (emit (trace_finished id (type_name v) (trace_fingerprint v))) ;;*
          store_or_fail id v ;;*
          materialize_member_error i
      | None =>
          update (emit (trace_failed id (to_string e))) ;;*
          record_failure i (to_string e) ;;*
          fail e
      end
  end.

(** ** The event loop *)

(** Receives the events that are already there. *)
Fixpoint receive_available (fuel : nat) : C unit :=
  match fuel with
  | O => no_fuel
  | S fuel =>
      let* event := on_driver try_recv_event in
      match event with
      | inl e => abort fuel CompletionChannelFailed e
      | inr None => ret tt
      | inr (Some event) => accept_worker_event_or_abort fuel event ;;* receive_available fuel
      end
  end.

(** The ready operation at the frontier that admission gave to a worker which cannot take it. *)
Definition preparation_mismatch (c : Coordinator) (ready : list nat) : outcome Error (option OpState) :=
  match lowest_unsettled c with
  | None => Ok None
  | Some i =>
      let+ op := index_or_panic (co_ops c !! i) in
      if bool_decide (i ∈ ready) && bool_decide (op_state op = Pending) && bool_decide (op_lane op = LocalWorker) then
        let+ safe := is_worker_safe c i in Ok (if safe then None else Some op)
      else Ok None
  end.

(** Selects and dispatches worker tasks; tells whether there were any. *)
Definition try_dispatch (fuel : nat) (ready : list nat) : C bool :=
  let* m := get in
  match driver m with
  | None => ret false
  | Some d =>
      let* candidates := lift (worker_dispatch_candidates (co m) ready (available_slots d)) in
      match candidates with
      | [] => ret false
      | _ => λ m, match dispatch_workers candidates m with
                  | (m, Ok _) => (m, Ok true)
                  | (m, Err e) => abort fuel SubmissionAborted e m
                  | (m, Panic) => (m, Panic)
                  | (m, NoFuel) => (m, NoFuel)
                  end
      end
  end.

(** Runs the coordinator operation at the frontier. *)
Definition run_frontier (fuel : nat) (i : nat) : C unit := λ m,
  match run_coordinator_op i m with
  | (m, Err e) => (let* op := op_at i in discard_started_workers fuel (FailStop (op_plan_node op)) ;;* fail e) m
  | r => r
  end.

(** Waits for one event of an outstanding task; a poll that finds none is repeated. *)
Definition wait_for_event (fuel : nat) : C unit :=
  let* event := on_driver try_recv_event in
  match event with
  | inr (Some event) => accept_worker_event_or_abort fuel event
  | inr None =>
      let* control := on_host check_request_control in
      match control with inl e => abort fuel RequestControlAborted e | inr _ => ret tt end
  | inl e => abort fuel CompletionChannelFailed e
  end.

Definition report_failure (fuel : nat) (failure : WorkerFailure) : C unit :=
  let* op := op_at (wf_index failure) in
  let id := op_plan_node op in
  discard_started_workers fuel
    (match wf_kind failure with SemanticFailure => FailStop id | InfrastructureFailure => InfrastructureAborted id end) ;;*
  fail (wf_error failure).

Definition unsettled_count (c : Coordinator) : nat := length (filter (λ i, has_state c Settled i = false) (indices c)).

Definition report_stall (fuel : nat) : C unit :=
  let* c := coordinator in
  discard_started_workers fuel StalledReason ;;*
  let* c' := coordinator in
  fail (anyhow (Stalled (unsettled_count c) (length (co_ops c')) (size (failed_outputs c')))).

(** One turn of the loop; [true] when every operation is settled. *)
Definition drive_step (fuel : nat) : C bool :=
  let* control := on_host check_request_control in
  match control with
  | inl e => discard_started_workers fuel RequestStopped ;;* fail e
  | inr _ =>
      let* m := get in
      match driver m with Some _ => receive_available fuel | None => ret tt end ;;*
      let* failure := settle_buffered_results in
      match failure with
      | Some failure => report_failure fuel failure ;;* ret false
      | None =>
          let* c := coordinator in
          if forallb (λ i, has_state c Settled i) (indices c) then ret true
          else
            let* ready := lift (ready_ops c) in
            let* mismatch := lift (preparation_mismatch c ready) in
            match mismatch with
            | Some op => abort fuel PreparationContractMismatch (anyhow (PreparationMismatch (op_plan_node op)))
            | None =>
                let* dispatched := try_dispatch fuel ready in
                if dispatched then ret false
                else
                  let* m := get in
                  let* frontier :=
                    if bool_decide (outstanding_tasks m = 0) then lift (coordinator_at_settlement_frontier (co m) ready)
                    else ret None in
                  match frontier with
                  | Some i => run_frontier fuel i ;;* ret false
                  | None =>
                      if bool_decide (outstanding_tasks m = 0) then report_stall fuel ;;* ret false
                      else wait_for_event fuel ;;* ret false
                  end
            end
      end
  end.

Fixpoint drive (fuel : nat) : C unit :=
  match fuel with
  | O => no_fuel
  | S fuel =>
      let* finished := drive_step fuel in
      if finished then ret tt else drive fuel
  end.

(** ** Literals and results *)

(** The lifecycle of one literal, which starts materialised. *)
Definition materialize_literal (n : PlanNode) : C unit :=
  match node_kind n with
  | PText =>
      let* oir := lift (oir_at (node_id n)) in
      match oir with
      | Text text =>
          let v := str_ text in
          update (emit (trace_ready (node_id n))) ;;*
          update (emit (trace_started (node_id n))) ;;*
          update (emit (trace_finished (node_id n) (type_name v) (trace_fingerprint v))) ;;*
          store_or_fail (node_id n) v
      | _ => ret tt
      end
  | _ => ret tt
  end.

Definition materialize_literals : C unit := for_each materialize_literal (plan_nodes p).

Definition is_pure_whitespace_text (oir : OIr) : bool :=
  match oir with
  | Text text => negb (bool_decide (text = [])) && forallb (λ c, char_is_whitespace c.1) (chars text)
  | _ => false
  end.

(** One root: the scope and the last value so far. *)
Definition commit_root (prog : OIrProgram) (f : GraphEvalFrame) (acc : gmap str OValue * OValue) (root_index : nat) :
    outcome Error (gmap str OValue * OValue) :=
  let '(scope, last) := acc in
  let+ node := index_or_panic (nodes prog !! root_index) in
  let+ id := index_or_panic (roots p !! root_index) in
  let+ v := from_result (frame_value f id) in
  let scope := match node with Store name _ => <[name := v]> scope | _ => scope end in
  Ok (scope, if is_null v || is_pure_whitespace_text node then last else v).

Definition commit (prog : OIrProgram) (scope : gmap str OValue) (f : GraphEvalFrame) : outcome Error (gmap str OValue * OValue) :=
  let+ schedule := plan_result (root_schedule p) in
  fold_outcome (commit_root prog f) (scope, null_value) schedule.

Definition set_base_scope (scope : gmap str OValue) (c : Coordinator) : Coordinator :=
  let f := frame c in
  set_frame {| values := values f; base_scope := scope; node_policy := node_policy f;
               failed_batch_members := failed_batch_members f; forced_batch_failures := forced_batch_failures f |} c.

Definition contract_result {A} (r : ContractError + A) : outcome Error A :=
  match r with inl e => Err (anyhow (ContractFailure e)) | inr a => Ok a end.

(** [run_host] before the flush of the autonomous buffer: the checks, the literals,
    the event loop with the driver it was given, the commit. *)
Definition run_graph (fuel : nat) (prog : OIrProgram) (scope : gmap str OValue) : C (gmap str OValue * OValue) :=
  let* control := on_host check_request_control in
  let* _ := lift (from_result control) in
  ask_host verify_admitted_runtime_context ;;*
  let* _ := lift (contract_result (validate_execution_metadata flat)) in
  update (set_base_scope scope) ;;*
  materialize_literals ;;*
  drive fuel ;;*
  let* c := coordinator in
  lift (commit prog scope (frame c)).
End Coordinator.

(** ** Construction *)

Section New.
Context `{OV : !OValues, ER : !Errors, DG : !Digests} (validate_descriptor : str → nat → bool).

Definition graph_result {A} (r : gresult A) : outcome Error A :=
  match r with
  | Ok a => Ok a
  | Err e => Err (anyhow (GraphFailure e))
  | Panic => Panic
  | NoFuel => NoFuel
  end.

(** The state of one ready operation with its admitted contract. *)
Definition new_op (g : HGraph) (contracts : gmap PlanNodeId DispatchContract) (op : ReadyOp) : outcome Error OpState :=
  match effect_summaries g !! r_plan_node op with
  | None => Err (anyhow (NoEffectSummary (r_plan_node op)))
  | Some effect =>
      match contracts !! r_plan_node op with
      | None => Err (anyhow (NoDispatchContract (r_plan_node op)))
      | Some contract =>
          Ok {| op_plan_node := r_plan_node op; op_ordinal := r_ordinal op; op_value_output := r_value_output op;
                op_inputs := r_inputs op; op_outputs := r_outputs op; op_effect := effect;
                op_lane := contract_lane contract; op_adapter := contract_adapter contract;
                op_failure_class := contract_failure_class contract; op_state := Pending |}
      end
  end.

(** [Coordinator::new]: the index, the flattened program and the first state. *)
Definition new (prog : OIrProgram) (p : ExecutionPlan) (g : HGraph) (contracts : gmap PlanNodeId DispatchContract)
    (base_policy : Policy) : outcome Error (ExecutionPlanIndex * list OIr * Coordinator) :=
  let flat := flatten_for_plan prog in
  if negb (bool_decide (length flat = length (plan_nodes p))) then Err (anyhow FlattenCount)
  else
    let+ _ := graph_result (validate_admitted_execution_graph validate_descriptor g) in
    let+ _ := graph_result (validate_execution_source validate_descriptor g prog p) in
    let+ schedule := graph_result (derive validate_descriptor g) in
    let+ l := map_outcome (new_op g contracts) (ops schedule) in
    let+ index := plan_result (index_new p) in
    let+ policies := derive_policy_contexts p index flat base_policy in
    Ok (index, flat,
        {| co_ops := l;
           materialized := dom (filter (λ e, h_state e.2 = Materialized) (g_nodes g));
           provisional_groups := ∅; failed_outputs := ∅; worker_results := ∅; worker_publications := ∅;
           frame := {| values := replicate (length (plan_nodes p)) None; base_scope := ∅; node_policy := policies;
                       failed_batch_members := ∅; forced_batch_failures := [] |};
           trace := empty_trace |}).
End New.
