(* ===== verification/CoordinatorFacts.v ===== *)
(** * Facts on the coordinator

    The queries of the coordinator always answer; [safe] is its program logic: no
    panic, whatever the evaluator and the driver do, and a postcondition for every
    way of returning (running out of fuel returns nothing). *)

From S2P Require Import Prelude.
From S2P Require Import BackendCatalog.
From S2P Require Import Ir.
From S2P Require Import ExecutionPlan.
From S2P Require Import Effects.
From S2P Require Import DispatchModel.
From S2P Require Import Topological.
From S2P Require Import PlanTheorems.
From S2P Require Import PlanSchedules.
From S2P Require Import DispatchTheorems.
From S2P Require Import HGraph.
From S2P Require Import HGraphValidate.
From S2P Require Import ReadySchedule.
From S2P Require Import EvalFrame.
From S2P Require Import ParallelTasks.
From S2P Require Import Coordinator.
From stdpp Require Import options.

#[local] Open Scope nat_scope.

(** ** The program logic *)

Section Safe.
Context {St E : Type}.

(** [m] does not panic; it ends in [Q] with a value, in [R] with an error. *)
Definition safe {A} (m : M St E A) (Q : A → St → Prop) (R : E → St → Prop) (s : St) : Prop :=
  match m s with
  | (s', Ok a) => Q a s'
  | (s', Err e) => R e s'
  | (_, Panic) => False
  | (_, NoFuel) => True
  end.

Lemma safe_ret {A} (a : A) (Q : A → St → Prop) R s : Q a s → safe (ret a) Q R s.
Proof. done. Qed.

Lemma safe_fail {A} e (Q : A → St → Prop) (R : E → St → Prop) s : R e s → safe (fail e) Q R s.
Proof. done. Qed.

Lemma safe_get (Q : St → St → Prop) R s : Q s s → safe get Q R s.
Proof. done. Qed.

Lemma safe_no_fuel {A} (Q : A → St → Prop) R s : safe no_fuel Q R s.
Proof. done. Qed.

Lemma safe_bind {A B} (m : M St E A) (k : A → M St E B) Q R s :
  safe m (λ a s', safe (k a) Q R s') R s → safe (bind m k) Q R s.
Proof. unfold safe, bind. destruct (m s) as [s' [| | |]]; simpl; done. Qed.

Lemma safe_mono {A} (m : M St E A) (Q Q' : A → St → Prop) (R R' : E → St → Prop) s :
  safe m Q R s → (∀ a s', Q a s' → Q' a s') → (∀ e s', R e s' → R' e s') → safe m Q' R' s.
Proof. unfold safe. destruct (m s) as [s' [| | |]]; auto. Qed.

(** The two ways of looking at the outcome of a call. *)
Lemma safe_run {A} (m : M St E A) Q R s : safe m Q R s →
  (∃ s' a, m s = (s', Ok a) ∧ Q a s') ∨ (∃ s' e, m s = (s', Err e) ∧ R e s') ∨ ∃ s', m s = (s', NoFuel).
Proof. unfold safe. destruct (m s) as [s' [a|e| |]]; naive_solver. Qed.
End Safe.

(** ** Outcomes of loops *)

Section Loops.
Context {E A B : Type}.

Lemma filter_outcome_total (f : A → outcome E bool) l :
  (∀ a, a ∈ l → ∃ b, f a = Ok b) →
  ∃ l', filter_outcome f l = Ok l' ∧ sublist l' l ∧ ∀ a, a ∈ l' ↔ a ∈ l ∧ f a = Ok true.
Proof.
  induction l as [|a l IH]; intros Hf; simpl; [exists []; split_and!; [done|apply sublist_nil|set_solver]|].
  destruct (Hf a) as [b Hb]; [set_solver|]. destruct IH as (l' & -> & Hs & Hl); [set_solver|]. rewrite Hb. cbn [outcome_bind].
  eexists. split; [done|]. destruct b.
  - split; [by apply sublist_skip|]. intros x. rewrite !elem_of_cons, Hl. split; [intros [-> |[? ?]]; auto|intros [[-> |?] ?]; auto].
  - split; [by apply sublist_cons|]. intros x. rewrite elem_of_cons, Hl. split; [intros [? ?]; auto|].
    intros [[-> |?] ?]; [congruence|done].
Qed.

Lemma all_outcome_total (f : A → outcome E bool) l :
  (∀ a, a ∈ l → ∃ b, f a = Ok b) →
  ∃ b, all_outcome f l = Ok b ∧ (b = true ↔ ∀ a, a ∈ l → f a = Ok true).
Proof.
  induction l as [|a l IH]; intros Hf; simpl; [exists true; split; set_solver|].
  destruct (Hf a) as [b Hb]; [set_solver|]. destruct IH as (b' & Hl & Hs); [set_solver|]. rewrite Hb. cbn [outcome_bind].
  destruct b.
  - rewrite Hl. exists b'. split; [done|]. rewrite Hs. split; [intros H x [-> |?]%elem_of_cons; auto|].
    intros H x Hx. apply H. by right.
  - exists false. split; [done|]. split; [done|]. intros H. by rewrite H in Hb by (by left).
Qed.

Lemma map_outcome_total (f : A → outcome E B) l :
  (∀ a, a ∈ l → ∃ b, f a = Ok b) → ∃ l', map_outcome f l = Ok l'.
Proof.
  induction l as [|a l IH]; intros Hf; simpl; [eauto|].
  destruct (Hf a) as [b ->]; [set_solver|]. destruct IH as [l' ->]; [set_solver|]. simpl. eauto.
Qed.
End Loops.

(** The call returned a value or an error: it neither panicked nor ran out of fuel. *)
Definition returned {E A} (r : outcome E A) : Prop := match r with Ok _ | Err _ => True | _ => False end.

Lemma returned_bind {E A B} (r : outcome E A) (k : A → outcome E B) :
  returned r → (∀ a, r = Ok a → returned (k a)) → returned (outcome_bind r k).
Proof. destruct r; simpl; auto. Qed.

Lemma returned_from {E A} (r : E + A) : returned (from_result r).
Proof. by destruct r. Qed.

Lemma returned_fold {E A B} (f : B → A → outcome E B) b l :
  (∀ b a, a ∈ l → returned (f b a)) → returned (fold_outcome f b l).
Proof.
  revert b. induction l as [|a l IH]; intros b Hf; simpl; [done|].
  apply returned_bind; [apply Hf; set_solver|]. intros b' _. apply IH. set_solver.
Qed.

Lemma returned_map {E A B} (f : A → outcome E B) l :
  (∀ a, a ∈ l → returned (f a)) → returned (map_outcome f l).
Proof.
  induction l as [|a l IH]; intros Hf; simpl; [done|].
  apply returned_bind; [apply Hf; set_solver|]. intros b _. apply returned_bind; [apply IH; set_solver|]. done.
Qed.

Lemma returned_Ok {E A} (r : outcome E A) : (∃ a, r = Ok a) → returned r.
Proof. by intros [a ->]. Qed.

Lemma returned_index {E A} (l : list A) i : i < length l → returned (index_or_panic (E := E) (l !! i)).
Proof. intros Hi. by destruct (lookup_lt_is_Some_2 l i Hi) as [a ->]. Qed.

(** ** Queries on the plan *)

Section Plan.
Context `{OV : !OValues, ER : !Errors, SH : !Shims, LV : !Leaves, DG : !Digests}.
Context (p : ExecutionPlan) (index : ExecutionPlanIndex).
Context (Hv : validate p (length (roots p)) = Ok tt) (Hx : index_new p = Ok index).

Abbreviation n := (length (plan_nodes p)).

Lemma member_query id : id < n → ∃ r, plan_result (autonomous_member_indexed p index id) = Ok r.
Proof using Hv Hx.
  intros Hid. rewrite (autonomous_member_index_agrees p index Hv Hx) by done.
  destruct (autonomous_member_total p (validated_bounds p Hv) id) as [r ->]. by exists r.
Qed.

Lemma kind_query id : id < n → ∃ k, plan_result (kind_at p id) = Ok k.
Proof. intros Hid. destruct (kind_at_bound p id Hid) as [k ->]. by exists k. Qed.

(** The sources of the structural and data edges into a node. *)
Definition preds (id : PlanNodeId) : list PlanNodeId :=
  edge_from <$> filter (λ e, edge_to e = id ∧ (edge_kind e = Structural ∨ edge_kind e = Data)) (edges p).

Lemma preds_bound id j : j ∈ preds id → j < n.
Proof using Hv.
  intros (e & -> & [_ He]%list_elem_of_filter)%list_elem_of_fmap. pose proof (validated_bounds p Hv) as Hb.
  unfold in_bounds in Hb. rewrite Forall_forall in Hb. by apply Hb in He as [? _].
Qed.

Lemma index_spec : (∀ k, index_child_schedule index k = child_schedule p k) ∧
  (∀ k, k < n → index_incoming index k = Ok (filter (λ e, edge_to e = k) (edges p)) ∧
                index_outgoing index k = Ok (filter (λ e, edge_from e = k) (edges p))) ∧
  ∃ order, topological_order p = Ok order ∧ order ≡ₚ seq 0 n.
Proof using Hv Hx.
  destruct (proj2 (index_new_spec p) Hv) as (x & Hx' & Ho & Hc & Hi). rewrite Hx in Hx'. injection Hx' as <-.
  split_and!; [done..|]. exists (idx_order index). split; [done|].
  by destruct (topological_order_Ok p (idx_order index) (validated_bounds p Hv) Ho) as [? _].
Qed.

Lemma children_query id : id < n → ∃ l, index_child_schedule index id = Ok l ∧ ∀ j, j ∈ l → j ∈ preds id.
Proof using Hv Hx.
  intros Hid. destruct index_spec as (Hc & _ & order & Ho & _). rewrite Hc, (child_schedule_child_of p order) by done.
  eexists. split; [done|]. intros j (Hj & _)%list_elem_of_filter. apply Exists_exists in Hj as (e & [He1 He2]%list_elem_of_filter & Hk & Ht).
  apply list_elem_of_fmap. exists e. split; [done|]. apply list_elem_of_filter. auto.
Qed.

Lemma data_query id : id < n → ∃ l, data_predecessors index id = Ok l ∧ ∀ j, j ∈ l → j ∈ preds id.
Proof using Hv Hx.
  intros Hid. unfold data_predecessors. destruct index_spec as (_ & Hi & _). rewrite (proj1 (Hi id Hid)).
  cbn [plan_result outcome_bind]. eexists. split; [done|]. intros j Hj. rewrite merge_sort_Permutation in Hj.
  apply list_elem_of_fmap in Hj as (e & -> & [Hd [He ?]%list_elem_of_filter]%list_elem_of_filter).
  apply list_elem_of_fmap. exists e. split; [done|]. apply list_elem_of_filter. auto.
Qed.

Lemma structural_query id : id < n → ∃ l, structural_children index id = Ok l ∧ ∀ j, j ∈ l → j ∈ preds id.
Proof using Hv Hx.
  intros Hid. unfold structural_children. destruct index_spec as (_ & Hi & _). rewrite (proj1 (Hi id Hid)).
  cbn [plan_result outcome_bind]. eexists. split; [done|]. intros j Hj. rewrite merge_sort_Permutation in Hj.
  apply list_elem_of_fmap in Hj as (e & -> & [Hd [He ?]%list_elem_of_filter]%list_elem_of_filter).
  apply list_elem_of_fmap. exists e. split; [done|]. apply list_elem_of_filter. auto.
Qed.

Lemma outgoing_query id : id < n → ∃ l, plan_result (index_outgoing index id) = Ok l ∧ ∀ e, e ∈ l → edge_to e < n.
Proof using Hv Hx.
  intros Hid. destruct index_spec as (_ & Hi & _). rewrite (proj2 (Hi id Hid)). eexists. split; [done|].
  intros e [_ He]%list_elem_of_filter. pose proof (validated_bounds p Hv) as Hb. unfold in_bounds in Hb.
  rewrite Forall_forall in Hb. by apply Hb in He as [_ ?].
Qed.

(** *** They return on nodes of the plan *)

Hint Resolve returned_from : returns.

Lemma kind_returns id : id < n → returned (plan_result (kind_at p id)).
Proof. intros Hid. by apply returned_Ok, kind_query. Qed.

Lemma insert_binding_returns f scope j : j < n → returned (insert_binding p f scope j).
Proof.
  intros Hj. apply returned_bind; [by apply kind_returns|]. intros k _. destruct k; try done.
  apply returned_bind; [apply returned_from|done].
Qed.

Lemma scope_returns f id : id < n → returned (scope_from_data_edges p index f id).
Proof using Hv Hx.
  intros Hid. unfold scope_from_data_edges. destruct (data_query id Hid) as (l & -> & Hl). cbn [outcome_bind].
  apply returned_fold. intros b j Hj. by apply insert_binding_returns, preds_bound with id, Hl.
Qed.

Lemma exec_scope_returns f id : id < n → returned (exec_scope p index f id).
Proof using Hv Hx.
  intros Hid. apply returned_bind; [by apply scope_returns|]. intros scope _.
  destruct (structural_query id Hid) as (l & -> & Hl). cbn [outcome_bind].
  apply returned_bind; [apply returned_fold; intros b j Hj; by apply insert_binding_returns, preds_bound with id, Hl|].
  intros scope' _. apply returned_bind; [by apply kind_returns|]. intros k _. destruct k; try done.
  case_bool_decide; [|done]. apply returned_bind; [|done]. apply returned_map. intros e _.
  apply returned_bind; [apply returned_from|done].
Qed.

Lemma part_returns (f : GraphEvalFrame) parts j : j < n → returned (render_part p f parts j).
Proof.
  intros Hj. apply returned_bind; [by apply kind_returns|]. intros k _.
  destruct k; try done; (apply returned_bind; [apply returned_from|]); intros v _; try done. by destruct (text_of v).
Qed.

Lemma shim_part_returns (f : GraphEvalFrame) language renderer runtime code j :
  j < n → returned (shim_part p f language renderer runtime code j).
Proof.
  intros Hj. apply returned_bind; [by apply kind_returns|]. intros k _.
  destruct k; try done; (apply returned_bind; [apply returned_from|]); intros v _; try (by destruct (text_of v));
    repeat (apply returned_bind; [apply returned_from|intros _ _]); done.
Qed.

Lemma ephemeral_query id oir : id < n → ∃ r, plan_result (autonomous_ephemeral_group_indexed p index id oir) = Ok r.
Proof using Hv Hx.
  intros Hid. rewrite (ephemeral_group_index_agrees p index Hv Hx) by done.
  destruct (ephemeral_total p id oir (validated_bounds p Hv)) as [r ->]. by exists r.
Qed.

Lemma matches_query adapter id oir : id < n → ∃ r, plan_result (adapter_matches adapter p id oir) = Ok r.
Proof using Hv.
  intros Hid. destruct adapter; simpl; eauto.
  destruct (ephemeral_total p id oir (validated_bounds p Hv)) as [r ->]. simpl. eauto.
Qed.

Lemma build_task_returns f id kind runtime : id < n → returned (build_task p index f id kind runtime).
Proof using Hv Hx.
  intros Hid. destruct (children_query id Hid) as (l & Hl & Hp). destruct kind; simpl; [done| | |].
  - rewrite Hl. cbn [plan_result outcome_bind]. apply returned_bind; [|done]. apply returned_fold.
    intros b j Hj. by apply part_returns, preds_bound with id, Hp.
  - apply returned_bind; [by apply scope_returns|done].
  - destruct runtime as [runtime|]; [|done]. rewrite Hl. cbn [plan_result outcome_bind].
    apply returned_bind; [by apply exec_scope_returns|]. intros bindings _.
    apply returned_bind; [apply returned_from|]. intros _ _. apply returned_bind; [|done]. apply returned_fold.
    intros b j Hj. by apply shim_part_returns, preds_bound with id, Hp.
Qed.

(** A hosted block is an [Exec]. *)
Lemma shim_matches_exec id oir :
  adapter_matches AutonomousEphemeralShimV1 p id oir = Ok true → ∃ l e a i b, oir = Exec l e a i b.
Proof. destruct oir; simpl; try done. eauto 10. Qed.

Lemma preparable_exec oir : renderer_inputs_statically_preparable oir = true → ∃ l e a i b, oir = Exec l e a i b.
Proof. destruct oir; simpl; try done. eauto 10. Qed.

Lemma prepare_returns adapter f id oir runtime : id < n → returned (prepare p index adapter f id oir runtime).
Proof using Hv Hx.
  intros Hid. apply returned_bind; [|intros k _; by apply build_task_returns]. destruct adapter; try done.
  - by destruct oir.
  - destruct (renderer_inputs_statically_preparable oir) eqn:Hr; [|done].
    by destruct (preparable_exec oir Hr) as (? & ? & ? & ? & ? & ->).
  - destruct (matches_query AutonomousEphemeralShimV1 id oir Hid) as [b Hb]. rewrite Hb. cbn [outcome_bind].
    destruct b; [|done]. destruct (shim_matches_exec id oir) as (? & ? & ? & ? & ? & ->); [|done].
    by destruct (adapter_matches _ _ _ _) as [[]| | |].
Qed.

Lemma prepare_native_returns leaf f id oir : id < n → returned (prepare_native p index leaf f id oir).
Proof using Hv Hx.
  intros Hid. unfold prepare_native. destruct (native_leaf_source_descriptor oir); [|done].
  destruct (children_query id Hid) as (cs & -> & Hp). cbn [plan_result outcome_bind].
  destruct cs as [|d cs]; [done|]. apply returned_bind; [apply returned_from|]. intros v _.
  destruct (negb _); [done|]. apply returned_bind; [by apply returned_Ok, matches_query|]. intros b _.
  destruct (_ || _); [done|]. apply returned_bind; [apply returned_from|]. intros _ _.
  apply returned_bind; [apply returned_map; intros; apply returned_from|]. intros args _. by destruct (negb _).
Qed.

Lemma pure_inputs_query f id : id < n → ∃ b, render_inputs_pure p index f id = Ok b.
Proof using Hv Hx.
  intros Hid. unfold render_inputs_pure. destruct (kind_query id Hid) as [k ->]. cbn [outcome_bind].
  destruct k; eauto; destruct (children_query id Hid) as (l & -> & Hp);
    (destruct (all_outcome_total (input_pure p f) l) as (b & ? & _); [|by eexists]);
    intros j Hj; (destruct (kind_query j) as [k Hk]; [by apply preds_bound with id, Hp|]); unfold input_pure; rewrite Hk; simpl; eauto.
Qed.

Lemma batch_edge_total es : (∀ e, e ∈ es → edge_to e < n) →
  ∃ r, find_batch_edge p es = Ok r ∧ ∀ e, r = Some e → e ∈ es.
Proof.
  clear Hv Hx index. induction es as [|e es IH]; intros He; simpl; [by exists None|].
  destruct IH as (r & IH1 & IH2); [set_solver|].
  assert (∃ b, is_batch_edge p e = Ok b) as [b ->].
  { unfold is_batch_edge. case_bool_decide; [|by eexists]. destruct (kind_query (edge_to e)) as [k ->]; [apply He; by left|].
    by eexists. }
  cbn [outcome_bind]. destruct b; [exists (Some e); split; [done|]; intros e' [= <-]; by left|].
  exists r. split; [done|]. intros e' H'. right. by apply IH2.
Qed.

Lemma settle_member_frame id e b f : id < n →
  ∃ f' r, settle_batch_member_failure p index id e b f = Ok (f', r) ∧ values f' = values f ∧ node_policy f' = node_policy f ∧
    base_scope f' = base_scope f ∧ forced_batch_failures f' = forced_batch_failures f.
Proof using Hv Hx.
  intros Hid. unfold settle_batch_member_failure. destruct (negb b); [by do 2 eexists|].
  assert (∃ r, batch_member_index p index id = Ok r) as [[r|] ->]; [|by do 2 eexists..].
  unfold batch_member_index. destruct (outgoing_query id Hid) as (l & -> & Hl). cbn [outcome_bind].
  destruct (batch_edge_total l Hl) as (r & -> & Hin). cbn [outcome_bind]. destruct r as [e'|]; [|by eexists].
  destruct (structural_query (edge_to e')) as (members & -> & _); [by apply Hl, Hin|by eexists].
Qed.

Lemma settle_member_total id e b f : id < n →
  ∃ f' r, settle_batch_member_failure p index id e b f = Ok (f', r) ∧ values f' = values f ∧ node_policy f' = node_policy f.
Proof using Hv Hx. intros Hid. destruct (settle_member_frame id e b f Hid) as (f' & r & ? & ? & ? & _). by exists f', r. Qed.
End Plan.

(** ** Operations and their order *)

Section Basics.
Context `{OV : !OValues, ER : !Errors} (c : Coordinator).

Lemma elem_of_indices i : i ∈ indices c ↔ i < length (co_ops c).
Proof. unfold indices. rewrite elem_of_seq. lia. Qed.

Lemma has_state_op s i op : co_ops c !! i = Some op → has_state c s i = bool_decide (op_state op = s).
Proof. unfold has_state. by intros ->. Qed.

Lemma has_state_Some s i : has_state c s i = true ↔ ∃ op, co_ops c !! i = Some op ∧ op_state op = s.
Proof.
  unfold has_state. destruct (co_ops c !! i) as [op|]; [|naive_solver]. rewrite bool_decide_eq_true. naive_solver.
Qed.

Lemma by_key_perm l' l : by_key l' l ≡ₚ l.
Proof. apply merge_sort_Permutation. Qed.

Lemma key_lt_trans a b d : key_lt a b → key_lt b d → key_lt a d.
Proof. unfold key_lt. lia. Qed.

Lemma key_lt_irrefl a : ¬ key_lt a a.
Proof. unfold key_lt. lia. Qed.

Lemma key_lt_total a b : key_lt a b ∨ a = b ∨ key_lt b a.
Proof. destruct a, b. unfold key_lt. simpl. destruct (decide (n = n1)), (decide (n0 = n2)); subst; auto; lia. Qed.

Lemma min_by_key_spec l : 
  match min_by_key (co_ops c) l with
  | None => l = []
  | Some i => i ∈ l ∧ ∀ j, j ∈ l → ¬ key_lt (op_key (co_ops c) j) (op_key (co_ops c) i)
  end.
Proof.
  induction l as [|i l IH]; simpl; [done|]. destruct (min_by_key (co_ops c) l) as [k|].
  - destruct IH as [Hk Hm]. case_bool_decide as Hlt.
    + split; [by right|]. intros j [-> |Hj]%elem_of_cons; [|auto]. intros H. by eapply key_lt_irrefl, key_lt_trans.
    + split; [by left|]. intros j [-> |Hj]%elem_of_cons; [apply key_lt_irrefl|]. intros H.
      destruct (key_lt_total (op_key (co_ops c) k) (op_key (co_ops c) i)) as [?|[E|?]]; [done|rewrite <-E in H; by apply (Hm j)|].
      apply (Hm j Hj). by eapply key_lt_trans.
  - subst. split; [by left|]. intros j [-> |?]%elem_of_cons; [apply key_lt_irrefl|set_solver].
Qed.

Lemma lowest_spec i : lowest_unsettled c = Some i →
  i < length (co_ops c) ∧ has_state c Settled i = false ∧
  ∀ j, j < length (co_ops c) → has_state c Settled j = false → ¬ key_lt (op_key (co_ops c) j) (op_key (co_ops c) i).
Proof.
  unfold lowest_unsettled. intros Hi. pose proof (min_by_key_spec (filter (λ i, has_state c Settled i = false) (indices c))) as H.
  rewrite Hi in H. destruct H as [[H1 H2]%list_elem_of_filter Hm]. apply elem_of_indices in H2. split_and!; [done..|].
  intros j Hj Hs. apply Hm. apply list_elem_of_filter. by rewrite elem_of_indices.
Qed.

Lemma lowest_None : lowest_unsettled c = None → ∀ j, j < length (co_ops c) → has_state c Settled j = true.
Proof.
  unfold lowest_unsettled. intros Hi j Hj. pose proof (min_by_key_spec (filter (λ i, has_state c Settled i = false) (indices c))) as H.
  rewrite Hi in H. destruct (has_state c Settled j) eqn:E; [done|].
  assert (j ∈ filter (λ i, has_state c Settled i = false) (indices c)) as Hj'; [|rewrite H in Hj'; set_solver].
  apply list_elem_of_filter. by rewrite elem_of_indices.
Qed.
End Basics.

(** ** Queries of the coordinator *)

Section Queries.
Context `{OV : !OValues, ER : !Errors, SH : !Shims, LV : !Leaves, DG : !Digests}.
Context (p : ExecutionPlan) (index : ExecutionPlanIndex) (flat : list OIr).
Context (Hv : validate p (length (roots p)) = Ok tt) (Hx : index_new p = Ok index)
  (Hflat : length flat = length (plan_nodes p)).
Context (c : Coordinator) (Hin : Forall (λ op, op_plan_node op < length (plan_nodes p)) (co_ops c)).

Abbreviation len := (length (co_ops c)).

Lemma op_lookup i : i < len → ∃ op, co_ops c !! i = Some op ∧ op_plan_node op < length (plan_nodes p).
Proof using Hin.
  intros Hi. destruct (lookup_lt_is_Some_2 (co_ops c) i Hi) as [op Hop]. exists op. split; [done|].
  by apply (Forall_lookup_1 _ _ i op) in Hin.
Qed.

Lemma in_group_total op group : op_plan_node op < length (plan_nodes p) → ∃ b, in_group p index op group = Ok b.
Proof using Hv Hx. intros Hop. unfold in_group. destruct (member_query p index Hv Hx _ Hop) as [r ->]. simpl. eauto. Qed.

Lemma input_ready_total op m : op_plan_node op < length (plan_nodes p) → ∃ b, input_ready p index c op m = Ok b.
Proof using Hv Hx.
  intros Hop. unfold input_ready. destruct (negb _); [eauto|]. destruct (provisional_groups c !! m); [|eauto].
  case_bool_decide; [by apply in_group_total|eauto].
Qed.

Lemma is_ready_total i : i < len → ∃ b, is_ready p index c i = Ok b.
Proof using Hv Hx Hin.
  intros Hi. destruct (op_lookup i Hi) as (op & Hop & Hn). unfold is_ready. rewrite Hop. cbn [index_or_panic outcome_bind].
  case_bool_decide; [|eauto]. destruct (all_outcome_total (input_ready p index c op) (op_inputs op)) as (b & ? & _); [|eauto].
  intros m _. by apply input_ready_total.
Qed.

Lemma is_ready_pending i : is_ready p index c i = Ok true → has_state c Pending i = true.
Proof.
  unfold is_ready, has_state. destruct (co_ops c !! i); [|done]. cbn [index_or_panic outcome_bind].
  case_bool_decide; [|done]. intros _. done.
Qed.

Lemma ready_total : ∃ ready, ready_ops p index c = Ok ready ∧ NoDup ready ∧
  ∀ i, i ∈ ready ↔ i < len ∧ is_ready p index c i = Ok true.
Proof using Hv Hx Hin.
  unfold ready_ops. destruct (filter_outcome_total (is_ready p index c) (indices c)) as (l & -> & Hs & Hl).
  { intros i Hi%elem_of_indices. by apply is_ready_total. }
  cbn [outcome_bind]. eexists. split; [done|]. rewrite by_key_perm. split.
  - eapply sublist_NoDup; [apply NoDup_seq|done].
  - intros i. rewrite by_key_perm, Hl, elem_of_indices. done.
Qed.

Lemma oir_total op : op_plan_node op < length (plan_nodes p) → ∃ oir, oir_at flat (op_plan_node op) = Ok oir.
Proof using Hflat.
  intros Hop. unfold oir_at. destruct (lookup_lt_is_Some_2 flat (op_plan_node op)) as [oir ->]; [lia|]. simpl. eauto.
Qed.

Lemma worker_safe_total i : i < len → ∃ b, is_worker_safe p index flat c i = Ok b.
Proof using Hv Hx Hin Hflat.
  intros Hi. destruct (op_lookup i Hi) as (op & Hop & Hn). unfold is_worker_safe. rewrite Hop. cbn [index_or_panic outcome_bind].
  destruct (negb _); [eauto|]. destruct (oir_total op Hn) as [oir ->]. cbn [outcome_bind]. destruct (negb _); [eauto|].
  destruct (matches_query p Hv (op_adapter op) (op_plan_node op) oir Hn) as [b ->]. cbn [outcome_bind].
  destruct b; [by apply pure_inputs_query|eauto].
Qed.

Lemma worker_safe_lane i op : co_ops c !! i = Some op → is_worker_safe p index flat c i = Ok true → op_lane op = LocalWorker.
Proof. unfold is_worker_safe. intros ->. cbn [index_or_panic outcome_bind]. by case_bool_decide. Qed.

Lemma group_total i : i < len → ∃ r, autonomous_worker_group p index flat c i = Ok r.
Proof using Hv Hx Hin Hflat.
  intros Hi. destruct (op_lookup i Hi) as (op & Hop & Hn). unfold autonomous_worker_group. rewrite Hop.
  cbn [index_or_panic outcome_bind]. destruct (negb _); [eauto|]. destruct (oir_total op Hn) as [oir Ho].
  destruct (op_adapter op); eauto; rewrite Ho; cbn [outcome_bind].
  - destruct (effect_contract_worker_safe _ _); [|eauto]. destruct (member_query p index Hv Hx _ Hn) as [r ->]. simpl. eauto.
  - by apply ephemeral_query.
Qed.

Lemma frontier_total ready : ∃ r, coordinator_at_settlement_frontier c ready = Ok r ∧
  ∀ i, r = Some i ↔ lowest_unsettled c = Some i ∧ has_state c Pending i = true ∧ i ∈ ready ∧
       ∃ op, co_ops c !! i = Some op ∧ op_lane op = CoordinatorLane.
Proof.
  unfold coordinator_at_settlement_frontier. destruct (lowest_unsettled c) as [i|] eqn:Hl; [|exists None; split; naive_solver].
  destruct (lowest_spec c i Hl) as [Hi _].
  destruct (lookup_lt_is_Some_2 (co_ops c) i Hi) as [op Hop]. rewrite Hop. cbn [index_or_panic outcome_bind]. eexists. split; [done|].
  intros j. unfold has_state. split.
  - destruct (_ && _) eqn:E; [|done]. apply andb_true_iff in E as [[E1 E2]%andb_true_iff E3].
    apply bool_decide_eq_true in E1, E2, E3. intros [= ->]. rewrite Hop, bool_decide_eq_true_2 by done.
    split_and!; [done..|]. by exists op.
  - intros ([= ->] & Hs & Hr & op' & Hop' & Hlane). rewrite Hop in *. simplify_eq. apply bool_decide_eq_true in Hs.
    by rewrite !bool_decide_eq_true_2.
Qed.

Lemma autonomous_candidates_total ready : (∀ i, i ∈ ready → i < len) →
  ∃ l, autonomous_candidates p index flat c ready = Ok l ∧ sublist (fst <$> l) ready ∧
    ∀ i, i ∈ fst <$> l → is_worker_safe p index flat c i = Ok true.
Proof using Hv Hx Hin Hflat.
  induction ready as [|i ready IH]; intros Hr; cbn [autonomous_candidates]; [exists []; split_and!; [done|constructor|set_solver]|].
  destruct (worker_safe_total i) as [safe Hs]; [apply Hr; by left|]. rewrite Hs. cbn [outcome_bind].
  destruct IH as (l & -> & Hl & Hs'); [intros j Hj; apply Hr; by right|].
  assert (∃ r, (if safe then autonomous_worker_group p index flat c i else Ok None) = Ok r ∧ (r ≠ None → safe = true)) as (r & -> & Hsafe).
  { destruct safe; [|by exists None]. destruct (group_total i) as [r ->]; [apply Hr; by left|]. eauto. }
  cbn [outcome_bind]. eexists. split; [done|]. destruct r as [group|]; [|split; [by apply sublist_cons|done]].
  rewrite fmap_cons. split; [by apply sublist_skip|]. intros j [-> |?]%elem_of_cons; [cbn [fst]; by rewrite Hs, Hsafe|auto].
Qed.

Lemma boundary_total first group i : i < len → first < len → ∃ b, clears_boundary p index flat c first group i = Ok b.
Proof using Hv Hx Hin Hflat.
  intros Hi Hf. destruct (op_lookup i Hi) as (op & Hop & Hn), (op_lookup first Hf) as (op' & Hop' & _).
  unfold clears_boundary. rewrite Hop, Hop'. cbn [index_or_panic outcome_bind]. destruct (_ || _); [eauto|].
  destruct (negb _); [eauto|]. destruct (group_total i Hi) as [r ->]. cbn [outcome_bind].
  destruct (_ || _); [by apply in_group_total|eauto].
Qed.

(** A ready safe operation that may fail without external effects. *)
Definition strict_choice (ready : list nat) (i : nat) : Prop :=
  i ∈ ready ∧ is_worker_safe p index flat c i = Ok true ∧
  ∃ op, co_ops c !! i = Some op ∧ op_failure_class op = MayFailNoExternalEffects.

Lemma strict_prefix_total ready slots selected unfinished : (∀ i, i ∈ unfinished → i < len) →
  ∃ l, strict_prefix p index flat c ready slots selected unfinished = Ok (selected ++ l) ∧ sublist l unfinished ∧
    ∀ i, i ∈ l → strict_choice ready i.
Proof using Hv Hx Hin Hflat.
  revert selected. induction unfinished as [|i unfinished IH]; intros selected Hu; cbn [strict_prefix].
  { exists []. rewrite app_nil_r. split_and!; [done|constructor|set_solver]. }
  assert (Hstop : ∃ l, Ok (E := Error) selected = Ok (selected ++ l) ∧ sublist l (i :: unfinished) ∧
    ∀ j, j ∈ l → strict_choice ready j).
  { exists []. rewrite app_nil_r. split_and!; [done|apply sublist_nil_l|set_solver]. }
  destruct (op_lookup i) as (op & Hop & Hn); [apply Hu; by left|]. rewrite Hop. cbn [index_or_panic outcome_bind].
  assert (Hnext : ∀ sel, ∃ l, strict_prefix p index flat c ready slots sel unfinished = Ok (sel ++ l) ∧ sublist l unfinished ∧
    ∀ i, i ∈ l → strict_choice ready i).
  { intros sel. apply IH. intros j Hj. apply Hu. by right. }
  destruct (op_state op); [|destruct (_ && _)..|done|done]; try done.
  2,3: destruct (Hnext selected) as (l & -> & Hl & Hin'); exists l; split_and!; [done|by apply sublist_cons|done].
  destruct (worker_safe_total i) as [safe Hs]; [apply Hu; by left|].
  assert ((if bool_decide (i ∈ ready) then is_worker_safe p index flat c i else Ok false) = Ok (bool_decide (i ∈ ready) && safe)) as ->
    by (case_bool_decide; [by rewrite Hs|done]).
  cbn [outcome_bind]. destruct (_ && _ && _) eqn:E; [|done]. apply andb_true_iff in E as [[E1 ->]%andb_true_iff E2].
  apply bool_decide_eq_true in E1, E2. assert (Hi : strict_choice ready i) by (unfold strict_choice; eauto).
  case_bool_decide.
  - exists [i]. split_and!; [done|apply sublist_skip, sublist_nil_l|]. by intros j ->%list_elem_of_singleton.
  - destruct (Hnext (selected ++ [i])) as (l & -> & Hl & Hin'). exists (i :: l). rewrite <-app_assoc.
    split_and!; [done|by apply sublist_skip|]. intros j [-> |?]%elem_of_cons; auto.
Qed.

Lemma strict_candidates_total ready slots : NoDup ready → (∀ i, i ∈ ready → i < len) →
  ∃ l, strict_candidates p index flat c ready slots = Ok l ∧ NoDup l ∧
    ∀ i, i ∈ l → i ∈ ready ∧ is_worker_safe p index flat c i = Ok true.
Proof using Hv Hx Hin Hflat.
  intros Hnd Hr. unfold strict_candidates.
  set (u := by_key (co_ops c) (filter (λ i, has_state c Settled i = false) (indices c))).
  assert (Hu : NoDup u) by (unfold u; rewrite by_key_perm; apply NoDup_filter, NoDup_seq).
  destruct (strict_prefix_total ready slots [] u) as (l & -> & Hl & Hc).
  { intros i. unfold u. rewrite by_key_perm. intros [_ ?%elem_of_indices]%list_elem_of_filter. done. }
  cbn [outcome_bind app]. assert (NoDup l) by (by eapply sublist_NoDup).
  case_bool_decide; [exists l; split_and!; [done..|]; intros i Hi; by destruct (Hc i Hi) as (? & ? & _)|].
  destruct (filter_outcome_total (safe_infallible p index flat c) ready) as (l' & -> & Hs' & Hl').
  { intros i Hi. unfold safe_infallible. destruct (worker_safe_total i (Hr i Hi)) as [safe ->].
    destruct (op_lookup i (Hr i Hi)) as (op & -> & _). simpl. eauto. }
  cbn [outcome_bind]. eexists. split; [done|].
  assert (Ht : ∀ i, i ∈ take (slots - length l) l' → i ∈ ready ∧ is_worker_safe p index flat c i = Ok true ∧
    ∃ op, co_ops c !! i = Some op ∧ op_failure_class op = NeverFails).
  { intros i Hi%(λ H, elem_of_sublist _ l' _ H); [|apply sublist_take]. apply Hl' in Hi as [Hi Hsafe]. split; [done|].
    unfold safe_infallible in Hsafe. destruct (worker_safe_total i (Hr i Hi)) as [safe Hs]. rewrite Hs in *.
    destruct (op_lookup i (Hr i Hi)) as (op & Hop & _). rewrite Hop in Hsafe. cbn [index_or_panic outcome_bind] in Hsafe.
    apply Ok_inj, andb_true_iff in Hsafe as [-> Hc'%bool_decide_eq_true]. eauto. }
  split.
  - apply NoDup_app. split_and!; [done| |].
    + intros i (_ & _ & op & Hop & Hc1)%Hc (_ & _ & op' & Hop' & Hc2)%Ht. congruence.
    + eapply sublist_NoDup; [|apply sublist_take]. by apply (sublist_NoDup l' ready).
  - intros i [Hi|Hi]%elem_of_app; [by destruct (Hc i Hi) as (? & ? & _)|by destruct (Ht i Hi) as (? & ? & _)].
Qed.

Lemma candidates_total ready slots : NoDup ready → (∀ i, i ∈ ready → i < len) →
  ∃ l, worker_dispatch_candidates p index flat c ready slots = Ok l ∧ NoDup l ∧
    ∀ i, i ∈ l → i ∈ ready ∧ is_worker_safe p index flat c i = Ok true.
Proof using Hv Hx Hin Hflat.
  intros Hnd Hr. unfold worker_dispatch_candidates.
  case_bool_decide; [exists []; split_and!; [done|constructor|set_solver]|].
  destruct (frontier_total ready) as (r & -> & _). cbn [outcome_bind].
  destruct r; [exists []; split_and!; [done|constructor|set_solver]|].
  destruct (autonomous_candidates_total ready Hr) as (l & -> & Hl & Hs). cbn [outcome_bind].
  destruct (merge_sort _ l) as [|[first group] rest] eqn:E; [by apply strict_candidates_total|].
  pose proof (merge_sort_Permutation (pair_le (co_ops c)) l) as Hp. rewrite E in Hp.
  assert (Hsub : ∀ i, i ∈ fst <$> (first, group) :: rest → i ∈ ready ∧ is_worker_safe p index flat c i = Ok true).
  { intros i Hi. rewrite Hp in Hi. split; [by eapply elem_of_sublist|auto]. }
  destruct (all_outcome_total (clears_boundary p index flat c first group) (indices c)) as (b & -> & _).
  { intros i Hi%elem_of_indices. apply boundary_total; [done|]. apply Hr, Hsub. by left. }
  cbn [outcome_bind]. destruct b; [|by apply strict_candidates_total]. eexists. split; [done|].
  assert (Hf : sublist (take slots (fst <$> filter (λ e, e.2 = group) ((first, group) :: rest))) (fst <$> (first, group) :: rest)).
  { etrans; [apply sublist_take|]. apply fmap_sublist, sublist_filter. }
  split; [eapply sublist_NoDup; [|done]; rewrite Hp; by eapply sublist_NoDup|].
  intros i Hi. apply Hsub. by eapply elem_of_sublist.
Qed.

Lemma mismatch_total ready : (∀ i, i ∈ ready → i < len) → ∃ r, preparation_mismatch p index flat c ready = Ok r ∧
  (r = None → ∀ i op, lowest_unsettled c = Some i → i ∈ ready → co_ops c !! i = Some op → op_state op = Pending →
     op_lane op = LocalWorker → is_worker_safe p index flat c i = Ok true).
Proof using Hv Hx Hin Hflat.
  intros Hr. unfold preparation_mismatch. destruct (lowest_unsettled c) as [i|] eqn:Hl; [|by exists None].
  destruct (lowest_spec c i Hl) as [Hi _]. destruct (op_lookup i Hi) as (op & Hop & _). rewrite Hop. cbn [index_or_panic outcome_bind].
  destruct (_ && _ && _) eqn:E.
  - destruct (worker_safe_total i Hi) as [safe Hs]. rewrite Hs. cbn [outcome_bind]. eexists. split; [done|].
    destruct safe; [|done]. intros _ j op' [= <-] _ _ _ _. done.
  - exists None. split; [done|]. intros _ j op' [= <-] Hj Hop' Hp Hlane. simplify_eq.
    by rewrite !bool_decide_eq_true_2 in E.
Qed.
End Queries.
