(* ===== verification/CoordinatorSafety.v ===== *)
(** * The life cycle of operations under the coordinator

    [Lifecycle] is an abstract machine over trace events: an operation starts once,
    and ends once after it has started; operations end in the order of their keys
    (ordinal, then plan node).  The coordinator refines it: whatever the evaluator
    answers and whatever events the driver delivers, in any order, the trace of every
    run that returns is a run of this machine that leaves nothing running.  *)

From S2P Require Import Prelude.
From S2P Require Import BackendCatalog.
From S2P Require Import Ir.
From S2P Require Import ExecutionPlan.
From S2P Require Import Effects.
From S2P Require Import DispatchModel.
From S2P Require Import Topological.
From S2P Require Import HGraph.
From S2P Require Import HGraphValidate.
From S2P Require Import ReadySchedule.
From S2P Require Import EvalFrame.
From S2P Require Import ParallelTasks.
From S2P Require Import Coordinator.
From S2P Require Import CoordinatorFacts.
From stdpp Require Import options.

#[local] Open Scope nat_scope.

(** ** The abstract machine *)

Record Lifecycle : Type := { running : gset PlanNodeId; settled : list PlanNodeId }.

Definition no_lifecycle : Lifecycle := {| running := ∅; settled := [] |}.

(** The key of the operation of a plan node. *)
Definition node_key (l : list OpState) (id : PlanNodeId) : option (nat * PlanNodeId) :=
  (λ op, (op_ordinal op, op_plan_node op)) <$> head (filter (λ op, op_plan_node op = id) l).

(** The key of [b] is after that of [a]. *)
Definition before (l : list OpState) (a b : PlanNodeId) : bool :=
  match node_key l a, node_key l b with
  | Some a, Some b => bool_decide (key_lt a b)
  | _, _ => false
  end.

(** [Some id] for the last event of an operation. *)
Definition terminal (ev : TraceEvent) : option PlanNodeId :=
  match ev with
  | NodeFinished id _ _ | NodeFailed id _ | NodeDiscarded id _ => Some id
  | NodeReady _ | NodeStarted _ => None
  end.

Definition lifecycle_event (l : list OpState) (a : Lifecycle) (ev : TraceEvent) : option Lifecycle :=
  match ev with
  | NodeReady id =>
      if bool_decide (is_Some (node_key l id) ∧ id ∉ running a ∧ id ∉ settled a) then Some a else None
  | NodeStarted id =>
      if bool_decide (is_Some (node_key l id) ∧ id ∉ running a ∧ id ∉ settled a)
      then Some {| running := {[ id ]} ∪ running a; settled := settled a |} else None
  | NodeFinished id _ _ | NodeFailed id _ | NodeDiscarded id _ =>
      if bool_decide (id ∈ running a) && forallb (λ j, before l j id) (settled a)
      then Some {| running := running a ∖ {[ id ]}; settled := settled a ++ [id] |} else None
  end.

Definition lifecycle_run (l : list OpState) (a : Lifecycle) (evs : list TraceEvent) : option Lifecycle :=
  foldl (λ a ev, a ≫= λ a, lifecycle_event l a ev) (Some a) evs.

Lemma lifecycle_snoc l a evs ev : lifecycle_run l a (evs ++ [ev]) = lifecycle_run l a evs ≫= λ a, lifecycle_event l a ev.
Proof. unfold lifecycle_run. by rewrite foldl_app. Qed.

(** Runs settle in the order of the keys. *)
Lemma lifecycle_sorted l a evs : lifecycle_run l no_lifecycle evs = Some a →
  StronglySorted (λ i j, before l i j = true) (settled a).
Proof.
  revert a. induction evs as [|ev evs IH] using rev_ind; intros a; [intros [= <-]; constructor|].
  rewrite lifecycle_snoc. destruct (lifecycle_run l no_lifecycle evs) as [b|]; [|done]. simpl.
  specialize (IH b eq_refl).
  assert (Hend : ∀ id, (if bool_decide (id ∈ running b) && forallb (λ j, before l j id) (settled b)
      then Some {| running := running b ∖ {[ id ]}; settled := settled b ++ [id] |} else None) = Some a →
      StronglySorted (λ i j, before l i j = true) (settled a)).
  { intros id H. destruct (_ && _) eqn:E; [|done]. injection H as <-. apply andb_true_iff in E as [_ E]. simpl.
    apply StronglySorted_app_2; [|done|repeat constructor]. intros x y Hx ->%list_elem_of_singleton.
    rewrite forallb_forall in E. apply E. by apply list_elem_of_In. }
  destruct ev; simpl; eauto; case_bool_decide; try done; by intros [= <-].
Qed.

(** ** Operations and the abstract machine *)

Definition started (s : OpRunState) : Prop := s ≠ Pending ∧ s ≠ Settled.

(** An operation list up to its run states. *)
Definition skeleton (l : list OpState) : list OpState := set_run_state Pending <$> l.

Section Relation.
Context (l0 : list OpState) (Hnd : NoDup (op_plan_node <$> l0)).

(** The abstract state and the run states of the operations. *)
Record agrees (l : list OpState) (a : Lifecycle) : Prop := {
  agrees_running : ∀ i op, l !! i = Some op → (op_plan_node op ∈ running a ↔ started (op_state op));
  agrees_settled : ∀ i op, l !! i = Some op → (op_plan_node op ∈ settled a ↔ op_state op = Settled);
  agrees_ops : ∀ id, id ∈ running a ∨ id ∈ settled a → ∃ i op, l !! i = Some op ∧ op_plan_node op = id;
}.

Definition traced (l : list OpState) (evs : list TraceEvent) : Prop :=
  ∃ a, lifecycle_run l0 no_lifecycle evs = Some a ∧ agrees l a.

Section Skeleton.
Context (l : list OpState) (Hl : skeleton l = skeleton l0).

Lemma skeleton_lookup i op : l !! i = Some op →
  ∃ op0, l0 !! i = Some op0 ∧ op_plan_node op0 = op_plan_node op ∧ op_ordinal op0 = op_ordinal op ∧
         op_outputs op0 = op_outputs op.
Proof using Hl.
  intros Hop. apply (f_equal (.!! i)) in Hl. unfold skeleton in Hl. rewrite !list_lookup_fmap, Hop in Hl.
  destruct (l0 !! i) as [op0|]; [|done]. injection Hl as [=]. by exists op0.
Qed.

Lemma skeleton_ids : op_plan_node <$> l = op_plan_node <$> l0.
Proof using Hl. 
  apply (f_equal (fmap op_plan_node)) in Hl. unfold skeleton in Hl. rewrite <-!list_fmap_compose in Hl. exact Hl.
Qed.

Lemma skeleton_inj i j op op' : l !! i = Some op → l !! j = Some op' → op_plan_node op = op_plan_node op' → i = j.
Proof using Hl Hnd.
  intros Hi Hj E. pose proof Hnd as Hnd'. rewrite <-skeleton_ids in Hnd'.
  apply (NoDup_lookup _ i j (op_plan_node op) Hnd'); rewrite list_lookup_fmap; [by rewrite Hi|rewrite Hj, E; done].
Qed.

Lemma node_key_op i op : l !! i = Some op → node_key l0 (op_plan_node op) = Some (op_ordinal op, op_plan_node op).
Proof using Hl Hnd.
  intros Hop. destruct (skeleton_lookup i op Hop) as (op0 & H0 & <- & <- & _). clear Hl Hop. unfold node_key.
  apply list_elem_of_lookup_2 in H0. revert Hnd H0. clear. induction l0 as [|op l IH]; [set_solver|].
  rewrite fmap_cons, NoDup_cons, elem_of_cons, filter_cons. intros [Hni Hnd] [-> |H]; [by rewrite decide_True|].
  rewrite decide_False; [by apply IH|]. intros E. apply Hni. rewrite E. by apply list_elem_of_fmap_2.
Qed.

Lemma op_key_op i op : l !! i = Some op → op_key l i = (op_ordinal op, op_plan_node op).
Proof. unfold op_key. by intros ->. Qed.

Lemma before_ops i j op op' : l !! i = Some op → l !! j = Some op' →
  key_lt (op_key l i) (op_key l j) → before l0 (op_plan_node op) (op_plan_node op') = true.
Proof using Hl Hnd.
  intros Hi Hj. unfold before. erewrite !node_key_op by done. erewrite !op_key_op by done. intros ?. by apply bool_decide_eq_true.
Qed.
End Skeleton.

Lemma skeleton_alter s i (l : list OpState) : skeleton (alter (set_run_state s) i l) = skeleton l.
Proof.
  apply list_eq. intros j. unfold skeleton. rewrite !list_lookup_fmap. destruct (decide (i = j)) as [-> |].
  - rewrite list_lookup_alter_eq. by destruct (l !! j).
  - by rewrite list_lookup_alter_ne.
Qed.

Lemma lookup_alter_state s i j (l : list OpState) op : alter (set_run_state s) i l !! j = Some op →
  (i = j ∧ ∃ op0, l !! i = Some op0 ∧ op = set_run_state s op0) ∨ (i ≠ j ∧ l !! j = Some op).
Proof.
  destruct (decide (i = j)) as [-> |]; [|rewrite list_lookup_alter_ne by done; auto].
  rewrite list_lookup_alter_eq. destruct (l !! j) as [op0|]; [|done]. intros [= <-]. left. split; [done|]. by exists op0.
Qed.

Lemma alter_state_twice s s' i (l : list OpState) : alter (set_run_state s) i (alter (set_run_state s') i l) = alter (set_run_state s) i l.
Proof. apply list_eq. intros j. rewrite !list_lookup_alter. destruct (decide (i = j)) as [-> |]; [|done].
  rewrite decide_True by done. by destruct (l !! j). Qed.

Lemma alter_keeps_ids s k (l : list OpState) id : (∃ i op, l !! i = Some op ∧ op_plan_node op = id) →
  ∃ i op, alter (set_run_state s) k l !! i = Some op ∧ op_plan_node op = id.
Proof.
  intros (j & op & Hj & <-). exists j. rewrite list_lookup_alter. destruct (decide (k = j)) as [-> |]; [|eauto].
  rewrite Hj. by eexists.
Qed.

(** *** Steps *)

(** A change of state that the abstract machine does not see. *)
Lemma traced_move l evs i op s : skeleton l = skeleton l0 → l !! i = Some op → started (op_state op) → started s →
  traced l evs → traced (alter (set_run_state s) i l) evs.
Proof using Hnd.
  intros Hl Hi Hop Hs (a & Ha & [Hr Hf Ho]). exists a. split; [done|]. constructor.
  - intros j op' [(-> & op0 & H0 & ->)|(_ & H0)]%lookup_alter_state; simpl; [|eauto]. rewrite (Hr _ _ H0). naive_solver.
  - intros j op' [(-> & op0 & H0 & ->)|(_ & H0)]%lookup_alter_state; simpl; [|eauto]. rewrite (Hf _ _ H0).
    destruct Hop, Hs. naive_solver.
  - intros id H. by apply alter_keeps_ids, Ho.
Qed.

Lemma traced_start l evs i op : skeleton l = skeleton l0 → l !! i = Some op → op_state op = Pending → traced l evs →
  traced (alter (set_run_state InFlight) i l) ((evs ++ [NodeReady (op_plan_node op)]) ++ [NodeStarted (op_plan_node op)]).
Proof using Hnd.
  intros Hl Hi Hop (a & Ha & [Hr Hf Ho]). pose proof (node_key_op l Hl i op Hi) as Hk.
  assert (op_plan_node op ∉ running a) as Hnr by (rewrite (Hr _ _ Hi), Hop; unfold started; naive_solver).
  assert (op_plan_node op ∉ settled a) as Hns by (rewrite (Hf _ _ Hi), Hop; naive_solver).
  eexists. rewrite !lifecycle_snoc, Ha. simpl. rewrite bool_decide_eq_true_2 by eauto. simpl.
  rewrite bool_decide_eq_true_2 by eauto. split; [done|]. constructor; simpl.
  - intros j op' [(-> & op0 & H0 & ->)|(Hne & H0)]%lookup_alter_state; simpl.
    + unfold started. simplify_eq. set_solver.
    + rewrite <-(Hr _ _ H0). assert (op_plan_node op' ≠ op_plan_node op); [|set_solver].
      intros E. by apply Hne, (skeleton_inj l Hl i j op op').
  - intros j op' [(-> & op0 & H0 & ->)|(Hne & H0)]%lookup_alter_state; simpl; [|eauto]. simplify_eq. naive_solver.
  - intros id H. assert (id = op_plan_node op ∨ id ∈ running a ∨ id ∈ settled a) as [-> |H'] by set_solver.
    + apply alter_keeps_ids. eauto.
    + by apply alter_keeps_ids, Ho.
Qed.

Lemma traced_end l evs i op ev : skeleton l = skeleton l0 → l !! i = Some op → started (op_state op) →
  terminal ev = Some (op_plan_node op) →
  (∀ j op', l !! j = Some op' → op_state op' = Settled → key_lt (op_key l j) (op_key l i)) →
  traced l evs → traced (alter (set_run_state Settled) i l) (evs ++ [ev]).
Proof using Hnd.
  intros Hl Hi Hop Hev Hlt (a & Ha & [Hr Hf Ho]).
  assert (Hnew : lifecycle_event l0 a ev =
    Some {| running := running a ∖ {[op_plan_node op]}; settled := settled a ++ [op_plan_node op] |}).
  { assert (forallb (λ j, before l0 j (op_plan_node op)) (settled a) = true) as Hb.
    { apply forallb_forall. intros id Hid%list_elem_of_In. destruct (Ho id) as (j & op' & Hj & <-); [by right|].
      eapply before_ops; [done..|]. apply (Hlt j op' Hj). by apply (Hf _ _ Hj). }
    destruct ev; simplify_eq/=; by rewrite Hb, bool_decide_eq_true_2 by (by apply (Hr _ _ Hi)). }
  eexists. rewrite lifecycle_snoc, Ha. simpl. split; [done|]. constructor; simpl.
  - intros j op' [(-> & op0 & H0 & ->)|(Hne & H0)]%lookup_alter_state; simpl.
    + simplify_eq. unfold started. set_solver.
    + rewrite <-(Hr _ _ H0). assert (op_plan_node op' ≠ op_plan_node op); [|set_solver].
      intros E. by apply Hne, (skeleton_inj l Hl i j op op').
  - intros j op' [(-> & op0 & H0 & ->)|(Hne & H0)]%lookup_alter_state; simpl.
    + simplify_eq. set_solver.
    + rewrite <-(Hf _ _ H0). assert (op_plan_node op' ≠ op_plan_node op); [|set_solver].
      intros E. by apply Hne, (skeleton_inj l Hl i j op op').
  - intros id H. assert (id = op_plan_node op ∨ id ∈ running a ∨ id ∈ settled a) as [-> |H'] by set_solver.
    + apply alter_keeps_ids. eauto.
    + by apply alter_keeps_ids, Ho.
Qed.
End Relation.

(** ** Invariants

    What the invariants of a run speak about. *)

Section Views.
Context `{OV : !OValues, ER : !Errors, SH : !Shims, LV : !Leaves, HO : !GraphEvaluationHost, AD : !AttemptDriver}.

Record View : Type := {
  v_ops : list OpState;
  v_results : gmap nat TaskOutcome;
  v_publications : gmap nat WorkerPublication;
  v_events : list TraceEvent;
  v_values : nat;
  v_policies : nat;
}.

Definition view (c : Coordinator) : View :=
  {| v_ops := co_ops c; v_results := worker_results c; v_publications := worker_publications c;
     v_events := events (trace c); v_values := length (values (frame c)); v_policies := length (node_policy (frame c)) |}.

Definition v_move (i : nat) (s : OpRunState) (v : View) : View :=
  {| v_ops := alter (set_run_state s) i (v_ops v); v_results := v_results v; v_publications := v_publications v;
     v_events := v_events v; v_values := v_values v; v_policies := v_policies v |}.
Definition v_emit (ev : TraceEvent) (v : View) : View :=
  {| v_ops := v_ops v; v_results := v_results v; v_publications := v_publications v;
     v_events := v_events v ++ [ev]; v_values := v_values v; v_policies := v_policies v |}.
Definition v_forget (i : nat) (v : View) : View :=
  {| v_ops := v_ops v; v_results := delete i (v_results v); v_publications := delete i (v_publications v);
     v_events := v_events v; v_values := v_values v; v_policies := v_policies v |}.
Definition v_result (i : nat) (r : TaskOutcome) (v : View) : View :=
  {| v_ops := v_ops v; v_results := <[i := r]> (v_results v); v_publications := v_publications v;
     v_events := v_events v; v_values := v_values v; v_policies := v_policies v |}.
Definition v_publish (i : nat) (r : WorkerPublication) (v : View) : View :=
  {| v_ops := v_ops v; v_results := v_results v; v_publications := <[i := r]> (v_publications v);
     v_events := v_events v; v_values := v_values v; v_policies := v_policies v |}.

(** An operation that starts, and one that ends. *)
Definition v_start (i : nat) (id : PlanNodeId) (v : View) : View :=
  v_emit (NodeStarted id) (v_emit (NodeReady id) (v_move i InFlight v)).
Definition v_end (i : nat) (ev : TraceEvent) (v : View) : View := v_move i Settled (v_emit ev (v_forget i v)).

Context (p : ExecutionPlan) (g : HGraph) (l0 : list OpState) (base : list TraceEvent).

Class Operations : Prop := {
  ops_nodup : NoDup (op_plan_node <$> l0);
  ops_plan : Forall (λ op, op_plan_node op < length (plan_nodes p)) l0;
  ops_graph : Forall (λ op, Forall (λ n, is_Some (g_nodes g !! n)) (op_outputs op)) l0;
}.
Context {HOps : Operations}.

Record shaped (v : View) : Prop := {
  shaped_ops : skeleton (v_ops v) = skeleton l0;
  shaped_values : v_values v = length (plan_nodes p);
  shaped_policies : v_policies v = length (plan_nodes p);
  shaped_trace : ∃ evs, v_events v = base ++ evs ∧ traced l0 (v_ops v) evs;
}.

Definition v_state (v : View) (i : nat) (s : OpRunState) : Prop := ∃ op, v_ops v !! i = Some op ∧ op_state op = s.

(** Settled operations are before the others; results are kept for buffered
    operations only, publications exactly for the published ones. *)
Record weak (v : View) : Prop := {
  weak_shape : shaped v;
  weak_prefix : ∀ i j op op', v_ops v !! i = Some op → v_ops v !! j = Some op' →
    op_state op = Settled → op_state op' ≠ Settled → key_lt (op_key (v_ops v) i) (op_key (v_ops v) j);
  weak_results : ∀ i, is_Some (v_results v !! i) → v_state v i Buffered;
  weak_publications : ∀ i, is_Some (v_publications v !! i) ↔ v_state v i Published;
}.

(** Every buffered operation still has its result. *)
Record live (v : View) : Prop := {
  live_weak : weak v;
  live_results : ∀ i, v_state v i Buffered → is_Some (v_results v !! i);
}.

(** A run that has stopped: no operation is started. *)
Record dead (v : View) : Prop := {
  dead_shape : shaped v;
  dead_started : ∀ i op, v_ops v !! i = Some op → ¬ started (op_state op);
}.

Definition least (l : list OpState) (i : nat) : Prop :=
  ∀ j op, l !! j = Some op → op_state op ≠ Settled → j ≠ i → key_lt (op_key l i) (op_key l j).

(** *** Steps of views *)

Lemma op_key_alter s i (l : list OpState) j : op_key (alter (set_run_state s) i l) j = op_key l j.
Proof.
  unfold op_key. rewrite list_lookup_alter. destruct (decide (i = j)) as [-> |]; [|done]. by destruct (l !! j).
Qed.

Lemma v_state_unique v i s s' : v_state v i s → v_state v i s' → s = s'.
Proof. intros (op & H1 & H2) (op' & H1' & H2'). congruence. Qed.

Lemma v_state_move v i s j s' : v_state (v_move i s v) j s' → (i = j ∧ s' = s) ∨ (i ≠ j ∧ v_state v j s').
Proof.
  intros (op & [(-> & op0 & H0 & ->)|(Hne & H0)]%lookup_alter_state & Hs); [left|right; split; [done|by exists op]].
  by split.
Qed.

Lemma v_state_moved v i s op : v_ops v !! i = Some op → v_state (v_move i s v) i s.
Proof. intros H. eexists. simpl. by rewrite list_lookup_alter_eq, H. Qed.

Lemma v_state_other v i s j s' : i ≠ j → v_state v j s' → v_state (v_move i s v) j s'.
Proof. intros Hne (op & H & Hs). exists op. simpl. by rewrite list_lookup_alter_ne. Qed.

(** A step that does not settle anything keeps the prefix. *)
Lemma prefix_move v i op s : weak v → v_ops v !! i = Some op → op_state op ≠ Settled → s ≠ Settled →
  ∀ j k op op', alter (set_run_state s) i (v_ops v) !! j = Some op → alter (set_run_state s) i (v_ops v) !! k = Some op' →
    op_state op = Settled → op_state op' ≠ Settled →
    key_lt (op_key (alter (set_run_state s) i (v_ops v)) j) (op_key (alter (set_run_state s) i (v_ops v)) k).
Proof.
  intros Hw Hi Hop Hs j k op1 op2 Hj Hk H1 H2. rewrite !op_key_alter.
  apply lookup_alter_state in Hj as [(-> & ? & ? & ->)|(_ & Hj)]; [done|].
  apply lookup_alter_state in Hk as [(-> & ? & ? & ->)|(_ & Hk)]; simplify_eq; by eapply (weak_prefix v Hw).
Qed.

(** Only an operation that was not buffered, or published, changes its state. *)
Lemma live_start v i op : live v → v_ops v !! i = Some op → op_state op = Pending → live (v_start i (op_plan_node op) v).
Proof using HOps.
  intros [Hw Hr] Hi Hop. pose proof Hw as [Hs Hp Hres Hpub]. constructor; [constructor|].
  - destruct Hs as [? ? ? (evs & He & Ht)]. constructor; simpl; [by rewrite skeleton_alter|done..|].
    eexists. rewrite He, <-!app_assoc. split; [done|]. rewrite app_assoc. by apply (traced_start l0 ops_nodup).
  - apply (prefix_move v i op InFlight Hw Hi); [by rewrite Hop|done].
  - intros j Hj%Hres. apply v_state_other; [|done]. intros ->. destruct Hj as (op' & ? & ?). congruence.
  - intros j. simpl. rewrite Hpub. split.
    + intros Hj. apply v_state_other; [|done]. intros ->. destruct Hj as (op' & ? & ?). congruence.
    + intros [[_ ?]|[_ ?]]%v_state_move; done.
  - intros j [[_ ?]|[_ ?]]%v_state_move; [done|]. by apply Hr.
Qed.

Lemma shaped_move v i op s : shaped v → v_ops v !! i = Some op → started (op_state op) → started s → shaped (v_move i s v).
Proof using HOps.
  intros [? ? ? (evs & He & Ht)] Hi Hop Hst. constructor; simpl; [by rewrite skeleton_alter|done..|].
  exists evs. split; [done|]. apply (traced_move l0 ops_nodup _ _ i op); done.
Qed.

Lemma weak_buffer v i op r : weak v → v_ops v !! i = Some op → op_state op = InFlight → weak (v_result i r (v_move i Buffered v)).
Proof using HOps.
  intros Hw Hi Hop. pose proof Hw as [Hs Hp Hres Hpub]. constructor.
  - destruct (shaped_move v i op Buffered Hs Hi) as [? ? ? ?]; [by rewrite Hop|done|]. by constructor.
  - apply (prefix_move v i op Buffered Hw Hi); [by rewrite Hop|done].
  - intros j. simpl. destruct (decide (i = j)) as [-> |]; [intros _; by eapply (v_state_moved v)|].
    rewrite lookup_insert_ne by done. intros Hj%Hres. by apply (v_state_other v).
  - intros j. simpl. rewrite Hpub. split.
    + intros Hj. apply (v_state_other v); [|done]. intros ->. destruct Hj as (op' & ? & ?). congruence.
    + intros [[_ ?]|[_ ?]]%(v_state_move v); done.
Qed.

Lemma live_buffer v i op r : live v → v_ops v !! i = Some op → op_state op = InFlight → live (v_result i r (v_move i Buffered v)).
Proof using HOps.
  intros [Hw Hr] Hi Hop. constructor; [by eapply weak_buffer|]. intros j [[-> _]|[? ?]]%(v_state_move v); simpl.
  - rewrite lookup_insert_eq. by eexists.
  - rewrite lookup_insert_ne by done. by apply Hr.
Qed.

Lemma weak_publish v i op r : weak v → v_ops v !! i = Some op → op_state op = InFlight →
  weak (v_publish i r (v_move i Published v)).
Proof using HOps.
  intros Hw Hi Hop. pose proof Hw as [Hs Hp Hres Hpub]. constructor.
  - destruct (shaped_move v i op Published Hs Hi) as [? ? ? ?]; [by rewrite Hop|done|]. by constructor.
  - apply (prefix_move v i op Published Hw Hi); [by rewrite Hop|done].
  - intros j Hj%Hres. apply (v_state_other v); [|done]. intros ->. destruct Hj as (op' & ? & ?). congruence.
  - intros j. simpl. destruct (decide (i = j)) as [-> |].
    + rewrite lookup_insert_eq. split; [intros _; by eapply (v_state_moved v)|by eexists].
    + rewrite lookup_insert_ne, Hpub by done. split; [by apply (v_state_other v)|].
      intros [[? _]|[_ ?]]%(v_state_move v); done.
Qed.

Lemma live_publish v i op r : live v → v_ops v !! i = Some op → op_state op = InFlight →
  live (v_publish i r (v_move i Published v)).
Proof using HOps.
  intros [Hw Hr] Hi Hop. constructor; [by eapply weak_publish|]. intros j [[_ ?]|[? ?]]%(v_state_move v); [done|by apply Hr].
Qed.

Lemma shaped_end v i op ev : shaped v → v_ops v !! i = Some op → started (op_state op) → terminal ev = Some (op_plan_node op) →
  (∀ j op', v_ops v !! j = Some op' → op_state op' = Settled → key_lt (op_key (v_ops v) j) (op_key (v_ops v) i)) →
  shaped (v_end i ev v).
Proof using HOps.
  intros [? ? ? (evs & He & Ht)] Hi Hop Hev Hlt. constructor; simpl; [by rewrite skeleton_alter|done..|].
  eexists. rewrite He, <-app_assoc. split; [done|]. by eapply traced_end; [apply ops_nodup|..].
Qed.

Lemma weak_end v i op ev : weak v → v_ops v !! i = Some op → started (op_state op) → least (v_ops v) i →
  terminal ev = Some (op_plan_node op) → weak (v_end i ev v).
Proof using HOps.
  intros Hw Hi Hop Hleast Hev. pose proof Hw as [Hs Hp Hres Hpub]. constructor.
  - apply (shaped_end v i op); [done..|]. intros j op' Hj Hst. eapply Hp; [done..|]. by destruct Hop.
  - simpl. intros j k op1 op2 Hj Hk H1 H2. rewrite !op_key_alter.
    apply lookup_alter_state in Hk as [(-> & ? & ? & ->)|(Hne & Hk)]; [done|].
    apply lookup_alter_state in Hj as [(-> & ? & ? & ->)|(_ & Hj)]; [by eapply Hleast|by eapply Hp].
  - intros j. simpl. rewrite lookup_delete_is_Some. intros [? Hj%Hres]. by apply (v_state_other v).
  - intros j. simpl. rewrite lookup_delete_is_Some, Hpub. split; [intros [? ?]; by apply (v_state_other v)|].
    intros [[_ ?]|?]%(v_state_move v); done.
Qed.

Lemma live_end v i op ev : live v → v_ops v !! i = Some op → started (op_state op) → least (v_ops v) i →
  terminal ev = Some (op_plan_node op) → live (v_end i ev v).
Proof using HOps.
  intros [Hw Hr] Hi Hop Hleast Hev. constructor; [by eapply weak_end|].
  intros j [[_ ?]|[? ?]]%(v_state_move v); [done|]. simpl. rewrite lookup_delete_is_Some. eauto.
Qed.
(** *** Keys are distinct *)

Lemma op_key_inj v i j op op' : shaped v → v_ops v !! i = Some op → v_ops v !! j = Some op' →
  op_key (v_ops v) i = op_key (v_ops v) j → i = j.
Proof using HOps.
  intros Hs Hi Hj. rewrite (op_key_op _ i op Hi), (op_key_op _ j op' Hj). intros [= _ E].
  eapply (skeleton_inj l0 ops_nodup _ (shaped_ops v Hs)); eauto.
Qed.

Lemma lowest_least c i : shaped (view c) → lowest_unsettled c = Some i →
  least (co_ops c) i ∧ ∃ op, co_ops c !! i = Some op ∧ op_state op ≠ Settled.
Proof using HOps.
  intros Hs Hi. destruct (lowest_spec c i Hi) as (Hlt & Hst & Hmin).
  destruct (lookup_lt_is_Some_2 _ _ Hlt) as [op Hop]. rewrite (has_state_op c Settled i op Hop) in Hst.
  apply bool_decide_eq_false in Hst. split; [|by exists op]. intros j op' Hj Hj' Hne.
  destruct (key_lt_total (op_key (co_ops c) i) (op_key (co_ops c) j)) as [?|[E|H]]; [done| |].
  - destruct Hne. symmetry. by apply (op_key_inj (view c) i j op op').
  - destruct (Hmin j); [by eapply lookup_lt_Some|by rewrite (has_state_op c Settled j op' Hj), bool_decide_eq_false|done].
Qed.

(** *** Discarding *)

Lemma sorted_impl {A} (R R' : A → A → Prop) l : (∀ a b, R a b → R' a b) → StronglySorted R l → StronglySorted R' l.
Proof. intros HR. induction 1; constructor; [done|]. eapply Forall_impl; [done|]. intros ?. apply HR. Qed.

(** The operations that are still to be discarded, in the order of their keys. *)
Record discarding (v : View) (l : list nat) : Prop := {
  discarding_shape : shaped v;
  discarding_started : ∀ i, i ∈ l ↔ ∃ op, v_ops v !! i = Some op ∧ started (op_state op);
  discarding_sorted : StronglySorted (λ i j, key_lt (op_key (v_ops v) i) (op_key (v_ops v) j)) l;
  discarding_after : ∀ i j op, i ∈ l → v_ops v !! j = Some op → op_state op = Settled →
    key_lt (op_key (v_ops v) j) (op_key (v_ops v) i);
}.

Lemma by_key_sorted v l : shaped v → NoDup l → (∀ i, i ∈ l → is_Some (v_ops v !! i)) →
  StronglySorted (λ i j, key_lt (op_key (v_ops v) i) (op_key (v_ops v) j)) (by_key (v_ops v) l).
Proof using HOps.
  intros Hs Hnd Hl. assert (Hsort : StronglySorted (op_le (v_ops v)) (by_key (v_ops v) l)).
  { apply StronglySorted_merge_sort.
    - intros i j k Hij Hjk Hki. destruct (key_lt_total (op_key (v_ops v) i) (op_key (v_ops v) j)) as [H|[H|H]]; [|congruence|done].
      apply Hjk. by eapply key_lt_trans.
    - intros i j. unfold op_le. destruct (key_lt_total (op_key (v_ops v) i) (op_key (v_ops v) j)) as [H|[H|H]].
      + left. intros H'. by eapply key_lt_irrefl, key_lt_trans.
      + left. rewrite H. apply key_lt_irrefl.
      + right. intros H'. by eapply key_lt_irrefl, key_lt_trans. }
  rewrite <-(by_key_perm (v_ops v)) in Hnd. assert (Hl' : ∀ i, i ∈ by_key (v_ops v) l → is_Some (v_ops v !! i)).
  { intros i. rewrite by_key_perm. apply Hl. }
  clear Hl. induction Hsort as [|i l' Hsort IH Hle]; constructor; apply NoDup_cons in Hnd as [Hni Hnd].
  - apply IH; [done|]. intros j Hj. apply Hl'. by right.
  - rewrite Forall_forall in *. intros j Hj. specialize (Hle j Hj).
    destruct (key_lt_total (op_key (v_ops v) i) (op_key (v_ops v) j)) as [?|[E|?]]; [done| |done].
    destruct (Hl' i) as [op Hi]; [by left|]. destruct (Hl' j) as [op' Hj']; [by right|].
    by rewrite (op_key_inj v i j op op' Hs Hi Hj' E) in Hni.
Qed.

Lemma is_started_spec c i : is_started c i = true ↔ ∃ op, co_ops c !! i = Some op ∧ started (op_state op).
Proof.
  unfold is_started, has_state, started. destruct (co_ops c !! i) as [op|]; [|naive_solver].
  destruct (op_state op) eqn:E; simpl; split; try done; intros; try (exists op; split; [done|]; by rewrite E);
    destruct H as (? & [= <-] & ? & ?); congruence.
Qed.

Lemma discarding_init c : shaped (view c) →
  (∀ i j op op', co_ops c !! i = Some op → co_ops c !! j = Some op' → op_state op = Settled → started (op_state op') →
     key_lt (op_key (co_ops c) i) (op_key (co_ops c) j)) →
  discarding (view c) (by_key (co_ops c) (filter (λ i, is_started c i = true) (indices c))).
Proof using HOps.
  intros Hs Hp.
  assert (Hin : ∀ i, i ∈ by_key (co_ops c) (filter (λ i, is_started c i = true) (indices c)) ↔
    ∃ op, co_ops c !! i = Some op ∧ started (op_state op)).
  { intros i. rewrite by_key_perm, list_elem_of_filter, elem_of_indices, is_started_spec. split; [naive_solver|].
    intros (op & Hop & Hst). split; [by exists op|]. by eapply lookup_lt_Some. }
  constructor; [done|done| |].
  - apply (by_key_sorted (view c)); [done|apply NoDup_filter, NoDup_seq|].
    intros i [(op & Hop & _)%is_started_spec _]%list_elem_of_filter. by exists op.
  - intros i j op (op' & Hi & Hst)%Hin Hj Hs'. by eapply Hp.
Qed.

Lemma weak_discarding c : weak (view c) →
  discarding (view c) (by_key (co_ops c) (filter (λ i, is_started c i = true) (indices c))).
Proof using HOps.
  intros Hw. apply discarding_init; [by apply weak_shape|]. intros i j op op' Hi Hj Hs [_ Hst].
  by eapply (weak_prefix (view c) Hw).
Qed.

Lemma dead_discarding c : dead (view c) →
  discarding (view c) (by_key (co_ops c) (filter (λ i, is_started c i = true) (indices c))).
Proof using HOps.
  intros Hd. apply discarding_init; [by apply dead_shape|]. intros i j op op' Hi Hj Hs Hst.
  by destruct (dead_started (view c) Hd j op').
Qed.

Lemma discarding_step v i l op ev : discarding v (i :: l) → v_ops v !! i = Some op → terminal ev = Some (op_plan_node op) →
  discarding (v_end i ev v) l.
Proof using HOps.
  intros [Hs Hin Hsort Hafter] Hi Hev. apply StronglySorted_cons in Hsort as [Hlt Hsort]. rewrite Forall_forall in Hlt.
  assert (Hst : started (op_state op)).
  { destruct (proj1 (Hin i)) as (op' & ? & ?); [by left|]. by simplify_eq. }
  assert (Hni : i ∉ l) by (intros H; by eapply key_lt_irrefl, Hlt).
  constructor.
  - apply (shaped_end v i op); [done..|]. intros j op' Hj Hs'. eapply Hafter; [by left|done..].
  - intros j. simpl. split.
    + intros Hj. assert (i ≠ j) by congruence. rewrite list_lookup_alter_ne by done. apply Hin. by right.
    + intros (op' & [(-> & ? & ? & ->)|(Hne & Hj)]%lookup_alter_state & Hst'); [by destruct Hst'|].
      assert (j ∈ i :: l) as [->|?]%elem_of_cons; [apply Hin; eauto|done|done].
  - simpl. eapply sorted_impl; [|exact Hsort]. intros j k. by rewrite !op_key_alter.
  - intros j k op' Hj [(-> & ? & ? & ->)|(Hne & Hk)]%lookup_alter_state Hs'; simpl; rewrite !op_key_alter; [by apply Hlt|].
    eapply Hafter; [by right|done..].
Qed.

Lemma discarding_dead v : discarding v [] → dead v.
Proof. intros [Hs Hin _ _]. constructor; [done|]. intros i op Hi Hst. by apply (not_elem_of_nil i), Hin; exists op. Qed.
End Views.
