(* ===== verification/CoordinatorDrive.v ===== *)
(** * The coordinator refines the life cycle

    Every operation of the coordinator keeps the invariants of [CoordinatorSafety],
    for any evaluator that keeps the shape of the frame and for any driver. *)

From S2P Require Import Prelude.
From S2P Require Import BackendCatalog.
From S2P Require Import Ir.
From S2P Require Import ExecutionPlan.
From S2P Require Import Effects.
From S2P Require Import DispatchModel.
From S2P Require Import Topological.
From S2P Require Import HGraph.
From S2P Require Import HGraphValidate.
From S2P Require Import ReadySchedule.
From S2P Require Import EvalFrame.
From S2P Require Import ParallelTasks.
From S2P Require Import Coordinator.
From S2P Require Import CoordinatorFacts.
From S2P Require Import CoordinatorSafety.
From stdpp Require Import options.

#[local] Open Scope nat_scope.

(** Executing a node keeps the number of values and of policies of the frame. *)
Class FrameKeeping `{OV : !OValues, ER : !Errors, SH : !Shims, LV : !Leaves, HO : !GraphEvaluationHost} : Prop :=
  execute_keeps_frame : ∀ id oir f h h' f' r, execute_ready_plan_node id oir f h = (h', f', r) →
    length (values f') = length (values f) ∧ length (node_policy f') = length (node_policy f).

Section Drive.
Context `{OV : !OValues, ER : !Errors, SH : !Shims, LV : !Leaves, DG : !Digests}.
Context `{HO : !GraphEvaluationHost, AD : !AttemptDriver} {HF : FrameKeeping}.
Context (p : ExecutionPlan) (index : ExecutionPlanIndex) (flat : list OIr) (g : HGraph).
Context (Hv : validate p (length (roots p)) = Ok tt) (Hx : index_new p = Ok index)
  (Hflat : length flat = length (plan_nodes p)).
Context (l0 : list OpState) (base : list TraceEvent) {HOps : Operations p g l0}.

Abbreviation shaped := (shaped p l0 base).
Abbreviation weak := (weak p l0 base).
Abbreviation live := (live p l0 base).
Abbreviation dead := (dead p l0 base).
Abbreviation vw m := (view (co m)).

(** No error. *)
Definition never {A} (_ : Error) (_ : A) : Prop := False.

Lemma op_data v i op : shaped v → v_ops v !! i = Some op →
  op_plan_node op < length (plan_nodes p) ∧ Forall (λ n, is_Some (g_nodes g !! n)) (op_outputs op).
Proof using HOps.
  intros Hs Hi. destruct (skeleton_lookup l0 _ (shaped_ops p l0 base v Hs) i op Hi) as (op0 & H0 & <- & _ & <-).
  destruct HOps as [_ Hp Hg]. split; [exact (Forall_lookup_1 _ _ i op0 Hp H0)|exact (Forall_lookup_1 _ _ i op0 Hg H0)].
Qed.

Lemma view_ops (c c' : Coordinator) : view c = view c' → co_ops c = co_ops c'.
Proof. by intros [=]. Qed.

(** *** The effects *)

Definition with_co (f : Coordinator → Coordinator) (m : Machine) : Machine :=
  {| co := f (co m); driver := driver m; host := host m |}.

Section Effects.
Context {A : Type} (Q : A → Machine → Prop) (R : Error → Machine → Prop) (m : Machine).

Lemma safe_update f (k : unit → M Machine Error A) : safe (k tt) Q R (with_co f m) → safe (bind (update f) k) Q R m.
Proof. done. Qed.

Lemma safe_coordinator (k : Coordinator → M Machine Error A) : safe (k (co m)) Q R m → safe (bind coordinator k) Q R m.
Proof. done. Qed.

Lemma safe_machine (k : Machine → M Machine Error A) : safe (k m) Q R m → safe (bind get k) Q R m.
Proof. done. Qed.

Lemma safe_op_at i op (k : OpState → M Machine Error A) :
  co_ops (co m) !! i = Some op → safe (k op) Q R m → safe (bind (op_at i) k) Q R m.
Proof. intros Hi Hk. unfold safe, op_at, bind, lift. simpl. by rewrite Hi. Qed.

Lemma safe_lift {B} (r : outcome Error B) b (k : B → M Machine Error A) :
  r = Ok b → safe (k b) Q R m → safe (bind (lift r) k) Q R m.
Proof. by intros ->. Qed.

(** A call that returns a value or an error. *)
Lemma safe_lift_returned {B} (r : outcome Error B) (k : B → M Machine Error A) :
  returned r → (∀ e, R e m) → (∀ b, r = Ok b → safe (k b) Q R m) → safe (bind (lift r) k) Q R m.
Proof. unfold safe, bind, lift. intros Hr He Hk. destruct r as [b| | |]; [by apply Hk|by apply He|done|done]. Qed.

Lemma safe_ask_host {B} (f : Host → Error + B) (k : B → M Machine Error A) :
  (∀ e, R e m) → (∀ b, safe (k b) Q R m) → safe (bind (ask_host f) k) Q R m.
Proof. unfold safe, bind, ask_host. intros He Hk. destruct (f (host m)); [by apply He|by apply Hk]. Qed.

Lemma safe_on_host {B} (f : Host → Host * B) (k : B → M Machine Error A) :
  (∀ h b, safe (k b) Q R {| co := co m; driver := driver m; host := h |}) → safe (bind (on_host f) k) Q R m.
Proof. unfold safe, bind, on_host. intros Hk. destruct (f (host m)) as [h b]. by apply (Hk h b). Qed.

Lemma safe_on_driver {B} (f : Driver → Driver * B) (k : B → M Machine Error A) :
  is_Some (driver m) → (∀ d b, safe (k b) Q R {| co := co m; driver := Some d; host := host m |}) →
  safe (bind (on_driver f) k) Q R m.
Proof. unfold safe, bind, on_driver. intros [d ->] Hk. destruct (f d) as [d' b]. by apply (Hk d' b). Qed.
End Effects.

(** *** Steps that the view does not see *)

Lemma publish_outputs_safe i op m : co_ops (co m) !! i = Some op →
  safe (publish_outputs i) (λ _ m', vw m' = vw m ∧ driver m' = driver m) never m.
Proof. intros Hi. unfold safe, publish_outputs, op_at, bind, lift. simpl. rewrite Hi. done. Qed.

Lemma record_publication_safe i op m : co_ops (co m) !! i = Some op → Forall (λ n, is_Some (g_nodes g !! n)) (op_outputs op) →
  safe (record_publication g i) (λ _ m', vw m' = vw m ∧ driver m' = driver m) never m.
Proof.
  intros Hi Hg. unfold safe, record_publication, op_at, bind, lift. simpl. rewrite Hi. simpl.
  destruct (map_outcome_total (publication_entry g) (filter (λ n, n ∈ materialized (co m)) (op_outputs op))) as [l' ->]; [|done].
  intros n [_ Hn]%list_elem_of_filter. rewrite Forall_forall in Hg. destruct (Hg n Hn) as [node Hnode].
  unfold publication_entry. rewrite Hnode. simpl. eauto.
Qed.

Lemma store_value_safe id v m : v_values (vw m) = length (plan_nodes p) → id < length (plan_nodes p) →
  safe (store_value id v) (λ r m', r = inr tt ∧ vw m' = vw m ∧ driver m' = driver m) never m.
Proof.
  intros Hn Hid. simpl in Hn. unfold safe, store_value, bind. simpl. unfold set_value.
  rewrite bool_decide_eq_true_2 by (by rewrite Hn). simpl. split_and!; [done| |done]. unfold view. simpl. by rewrite length_insert.
Qed.

Lemma settle_member_safe id e m : id < length (plan_nodes p) →
  safe (settle_member p index id e) (λ r m', vw m' = vw m ∧ driver m' = driver m) never m.
Proof using Hv Hx.
  intros Hid. unfold safe, settle_member, bind, lift. simpl.
  destruct (settle_member_total p index Hv Hx id e (batch_member_error_is_absorbable e) (frame (co m)) Hid) as (f' & r & -> & H1 & H2).
  simpl. unfold view. simpl. by rewrite H1, H2.
Qed.

Lemma materialize_success_safe i op m : co_ops (co m) !! i = Some op → Forall (λ n, is_Some (g_nodes g !! n)) (op_outputs op) →
  safe (materialize_success g i) (λ _ m', vw m' = v_move i Settled (vw m) ∧ driver m' = driver m) never m.
Proof.
  intros Hi Hg. apply safe_bind. eapply safe_mono; [by eapply publish_outputs_safe| |done].
  intros ? m1 [E1 D1]. apply safe_bind. eapply safe_mono; [eapply record_publication_safe; [|done]| |done].
  { by rewrite (view_ops _ _ E1). }
  intros ? m2 [E2 D2]. unfold safe. simpl. rewrite <-E1, <-E2. split; [done|congruence].
Qed.

Lemma materialize_member_error_safe i op m : co_ops (co m) !! i = Some op →
  safe (materialize_member_error i) (λ _ m', vw m' = v_move i Settled (vw m) ∧ driver m' = driver m) never m.
Proof.
  intros Hi. apply safe_bind. eapply safe_mono; [by eapply publish_outputs_safe| |done].
  intros ? m1 [E1 D1]. unfold safe. simpl. rewrite <-E1. split; [done|congruence].
Qed.

Lemma record_failure_safe i op text m : co_ops (co m) !! i = Some op →
  safe (record_failure i text) (λ _ m', vw m' = v_move i Settled (vw m) ∧ driver m' = driver m) never m.
Proof. intros Hi. unfold safe, record_failure, op_at, bind, lift. simpl. rewrite Hi. done. Qed.

(** *** Settlement *)

Lemma finish_value_safe i id v op settle m : v_values (vw m) = length (plan_nodes p) → id < length (plan_nodes p) →
  co_ops (co m) !! i = Some op →
  (∀ m1, co_ops (co m1) !! i = Some op → safe (settle i) (λ _ m', vw m' = v_move i Settled (vw m1) ∧ driver m' = driver m1) never m1) →
  safe (finish_value i id v settle)
    (λ r m', r = None ∧ driver m' = driver m ∧ ∃ ev, terminal ev = Some id ∧ vw m' = v_move i Settled (v_emit ev (vw m))) never m.
Proof.
  intros Hn Hid Hi Hsettle. apply safe_bind. eapply safe_mono; [by apply store_value_safe| |done].
  intros ? m1 (-> & E1 & D1). apply safe_update. apply safe_bind.
  eapply safe_mono; [apply Hsettle; simpl; by rewrite (view_ops _ _ E1)| |done].
  intros ? m2 [E2 D2]. apply safe_ret. split; [done|]. split; [by rewrite D2|].
  exists (NodeFinished id (type_name v) (trace_fingerprint v)). split; [done|]. rewrite E2, <-E1. done.
Qed.

(** The view without the result that is being settled. *)
Definition v_take (i : nat) (v : View) : View :=
  {| v_ops := v_ops v; v_results := delete i (v_results v); v_publications := v_publications v;
     v_events := v_events v; v_values := v_values v; v_policies := v_policies v |}.

Lemma v_end_take v i op ev : weak v → v_ops v !! i = Some op → op_state op = Buffered →
  v_move i Settled (v_emit ev (v_take i v)) = v_end i ev v.
Proof.
  intros Hw Hi Hop. unfold v_end, v_move, v_emit, v_take, v_forget. simpl. f_equal. rewrite delete_id; [done|].
  destruct (v_publications v !! i) eqn:E; [|done].
  destruct (proj1 (weak_publications _ _ _ v Hw i)) as (op' & ? & ?); [by rewrite E|congruence].
Qed.

Lemma weak_take v i : weak v → weak (v_take i v).
Proof.
  intros [[? ? ? ?] Hp Hr Hpub]. constructor; [by constructor|done| |done].
  intros j. simpl. rewrite lookup_delete_is_Some. intros [_ ?]. by apply Hr.
Qed.

(** What settling leaves: every result, or those after the failure. *)
Definition settled_to (r : option WorkerFailure) (v : View) : Prop :=
  match r with
  | None => live v
  | Some failure => weak v ∧ is_Some (v_ops v !! wf_index failure)
  end.

Lemma settle_error_safe i op e v m : live v → v_ops v !! i = Some op → op_state op = Buffered → least (v_ops v) i →
  vw m = v_take i v →
  safe (settle_error p index i op e) (λ r m', settled_to r (vw m') ∧ driver m' = driver m) never m.
Proof using Hv Hx HOps.
  intros Hl Hi Hop Hleast Em. pose proof (live_weak _ _ _ v Hl) as Hw. pose proof (weak_shape _ _ _ v Hw) as Hs.
  destruct (op_data v i op Hs Hi) as [Hid _]. assert (Hst : started (op_state op)) by (by rewrite Hop).
  unfold settle_error. case_bool_decide.
  - apply safe_ret. split; [|done]. rewrite Em. split; [by apply weak_take|by exists op].
  - apply safe_bind. eapply safe_mono; [by apply settle_member_safe| |done]. intros r m1 [E1 D1]. destruct r as [[failure v']|].
    + apply safe_update.
      eapply safe_mono; [eapply (finish_value_safe _ _ _ op)| |done].
      * change (v_values (vw m1) = length (plan_nodes p)). rewrite E1, Em. by apply (shaped_values _ _ _ v Hs).
      * done.
      * change (v_ops (vw m1) !! i = Some op). by rewrite E1, Em.
      * intros m2 H2. by apply (materialize_member_error_safe i op).
      * intros r m2 (-> & D2 & ev & Hev & E2). split; [|by rewrite D2]. simpl. rewrite E2.
        change (live (v_move i Settled (v_emit ev (vw m1)))). rewrite E1, Em, (v_end_take v i op) by done.
        by apply (live_end p g l0 base v i op).
    + apply safe_update. apply safe_bind. eapply safe_mono; [apply (record_failure_safe i op)| |done].
      { change (v_ops (vw m1) !! i = Some op). by rewrite E1, Em. }
      intros ? m2 [E2 D2]. apply safe_ret. split; [|by rewrite D2]. unfold settled_to. rewrite E2.
      set (ev := NodeFailed (op_plan_node op) (to_string e)).
      change (weak (v_move i Settled (v_emit ev (vw m1))) ∧ is_Some (alter (set_run_state Settled) i (v_ops (vw m1)) !! i)).
      rewrite E1, Em, (v_end_take v i op) by done. split; [by apply (weak_end p g l0 base v i op)|].
      simpl. rewrite list_lookup_alter_eq, Hi. by eexists.
Qed.

Lemma settle_buffered_safe i op m : live (vw m) → co_ops (co m) !! i = Some op → op_state op = Buffered → least (co_ops (co m)) i →
  safe (settle_buffered p index g i) (λ r m', settled_to r (vw m') ∧ driver m' = driver m) never m.
Proof using Hv Hx HOps.
  intros Hl Hi Hop Hleast. pose proof (live_weak _ _ _ _ Hl) as Hw. pose proof (weak_shape _ _ _ _ Hw) as Hs.
  destruct (live_results _ _ _ _ Hl i) as [r Hr]; [by exists op|]. destruct (op_data _ i op Hs Hi) as [Hid Hg].
  unfold settle_buffered. apply safe_op_at with op; [done|]. apply safe_coordinator.
  apply safe_lift with r; [simpl in Hr; by rewrite Hr|]. apply safe_update. set (m1 := with_co _ m). change (driver m) with (driver m1).
  destruct r as [[e|v]|e].
  - by eapply settle_error_safe.
  - eapply safe_mono; [eapply (finish_value_safe _ _ _ op)| |done]; [apply Hs|done|done| |].
    { intros m2 H2. by apply (materialize_success_safe i op). }
    intros r m2 (-> & D2 & ev & Hev & E2). split; [|done]. simpl. rewrite E2. change (vw m1) with (v_take i (vw m)).
    rewrite (v_end_take _ i op) by done. apply (live_end p g l0 base _ i op); try done. by rewrite Hop.
  - apply safe_ret. split; [|done]. split; [by apply (weak_take (vw m))|by exists op].
Qed.

Lemma settle_published_safe i op m : live (vw m) → co_ops (co m) !! i = Some op → op_state op = Published → least (co_ops (co m)) i →
  safe (settle_published g i) (λ r m', live (vw m') ∧ driver m' = driver m) never m.
Proof using HOps.
  intros Hl Hi Hop Hleast. pose proof (live_weak _ _ _ _ Hl) as Hw. pose proof (weak_shape _ _ _ _ Hw) as Hs.
  destruct (proj2 (weak_publications _ _ _ _ Hw i)) as [r Hr]; [by exists op|]. destruct (op_data _ i op Hs Hi) as [Hid Hg].
  unfold settle_published. apply safe_op_at with op; [done|]. apply safe_coordinator.
  apply safe_lift with r; [simpl in Hr; by rewrite Hr|]. do 3 apply safe_update. set (m1 := with_co _ _). change (driver m) with (driver m1).
  apply safe_bind. eapply safe_mono; [by apply (record_publication_safe i op)| |done]. intros ? m2 [E2 D2].
  unfold safe. simpl. split; [|done]. change (live (v_move i Settled (vw m2))). rewrite E2.
  set (ev := NodeFinished (op_plan_node op) (pub_output_type r) (pub_fingerprint r)).
  assert (v_move i Settled (vw m1) = v_end i ev (vw m)) as ->.
  { unfold v_end, v_move, v_emit, v_forget. simpl. unfold view. simpl. f_equal. symmetry. apply delete_id.
    change (worker_results (co m) !! i = None). destruct (worker_results (co m) !! i) eqn:E; [|done].
    destruct (weak_results _ _ _ _ Hw i) as (op' & ? & ?); [simpl; by rewrite E|simpl in *; congruence]. }
  apply (live_end p g l0 base _ i op); try done. by rewrite Hop.
Qed.

Lemma settle_loop_safe fuel m : live (vw m) →
  safe (settle_loop p index g fuel) (λ r m', settled_to r (vw m') ∧ driver m' = driver m) never m.
Proof using Hv Hx HOps.
  revert m. induction fuel as [|fuel IH]; intros m Hl; [done|]. cbn [settle_loop]. apply safe_coordinator.
  destruct (lowest_unsettled (co m)) as [i|] eqn:Hi; [|by apply safe_ret].
  destruct (lowest_least p g l0 base (co m) i) as (Hleast & op & Hop & Hst); [apply Hl|done|].
  apply safe_op_at with op; [done|]. destruct (op_state op) eqn:E; try (by apply safe_ret).
  - apply safe_bind. eapply safe_mono; [by apply (settle_buffered_safe i op)| |done]. intros [failure|] m1 [H1 D1]; [by apply safe_ret|].
    rewrite <-D1. by apply IH.
  - apply safe_bind. eapply safe_mono; [by apply (settle_published_safe i op)| |done]. intros ? m1 [H1 D1].
    rewrite <-D1. by apply IH.
Qed.

(** In a run that has stopped there is nothing to settle. *)
Lemma settle_loop_dead fuel m : dead (vw m) →
  safe (settle_loop p index g fuel) (λ r m', r = None ∧ vw m' = vw m ∧ driver m' = driver m) never m.
Proof using HOps.
  intros Hd. destruct fuel as [|fuel]; [done|]. cbn [settle_loop]. apply safe_coordinator.
  destruct (lowest_unsettled (co m)) as [i|] eqn:Hi; [|by apply safe_ret].
  destruct (lowest_least p g l0 base (co m) i) as (Hleast & op & Hop & Hst); [apply Hd|done|].
  apply safe_op_at with op; [done|]. pose proof (dead_started _ _ _ _ Hd i op Hop) as Hns. unfold started in Hns.
  destruct (op_state op) eqn:E; try (by apply safe_ret); destruct Hns; done.
Qed.

(** *** Worker completions

    [P] is one of the three invariants. *)

Class Closed (P : View → Prop) : Prop := {
  closed_shape v : P v → shaped v;
  closed_buffer v i op r : P v → v_ops v !! i = Some op → op_state op = InFlight → P (v_result i r (v_move i Buffered v));
  closed_publish v i op r : P v → v_ops v !! i = Some op → op_state op = InFlight → P (v_publish i r (v_move i Published v));
}.

#[local] Instance weak_closed : Closed weak.
Proof using HOps. constructor; [apply weak_shape|apply (weak_buffer p g)|apply (weak_publish p g)]; apply HOps. Qed.

#[local] Instance live_closed : Closed live.
Proof using HOps.
  constructor; [intros v Hl; by apply weak_shape, live_weak|apply (live_buffer p g)|apply (live_publish p g)]; apply HOps.
Qed.

#[local] Instance dead_closed : Closed dead.
Proof. constructor; [apply dead_shape|..]; intros v i op r [_ Hd] Hi Hop; destruct (Hd i op Hi); by rewrite Hop. Qed.

Lemma shaped_plan c : shaped (view c) → Forall (λ op, op_plan_node op < length (plan_nodes p)) (co_ops c).
Proof using HOps. intros Hs. apply Forall_lookup_2. intros i op Hi. by apply (op_data (view c) i op Hs). Qed.

Lemma publish_completion_safe P `{!Closed P} i op group v m : P (vw m) → co_ops (co m) !! i = Some op → op_state op = InFlight →
  safe (publish_completion i op group v) (λ _ m', P (vw m') ∧ driver m' = driver m) (λ _ m', P (vw m') ∧ driver m' = driver m) m.
Proof using HOps.
  intros HP Hi Hop. pose proof (closed_shape _ HP) as Hs. destruct (op_data _ i op Hs Hi) as [Hid _].
  unfold publish_completion. destruct (_ && _); [by apply safe_fail|]. apply safe_coordinator.
  apply safe_bind. eapply safe_mono; [by apply store_value_safe; [apply Hs|]| |done]. intros ? m1 (-> & E1 & D1).
  apply safe_lift with tt; [done|]. apply safe_bind. eapply safe_mono; [apply (publish_outputs_safe i op); by rewrite (view_ops _ _ E1)| |done].
  intros ? m2 [E2 D2]. apply safe_bind. set (group' := match group with Some _ => _ | None => _ end).
  assert (Hgroup : ∀ Q R, (∀ m3, vw m3 = vw m2 ∧ driver m3 = driver m2 → Q tt m3) →
    safe (match group' with Some group => update (publish_provisional (op_outputs op) group) | None => ret tt end) Q R m2).
  { intros Q R HQ. destruct group'; [by apply HQ|by apply safe_ret, HQ]. }
  apply Hgroup. intros m3 [E3 D3]. apply safe_update, safe_coordinator, safe_update.
  set (pub := {| pub_output_type := _; pub_fingerprint := _ |}).
  set (m4 := with_co _ (with_co _ m3)).
  assert (P (vw m4) ∧ driver m4 = driver m) as H4.
  { split; [|simpl; congruence]. change (P (v_publish i pub (v_move i Published (vw m3)))). rewrite E3, E2, E1.
    by apply (closed_publish _ i op). }
  case_bool_decide; [by apply safe_fail|by apply safe_ret].
Qed.

Lemma buffer_outcome_safe P `{!Closed P} i op r m : P (vw m) → co_ops (co m) !! i = Some op → op_state op = InFlight →
  safe (buffer_outcome i op r) (λ _ m', P (vw m') ∧ driver m' = driver m) (λ _ m', P (vw m') ∧ driver m' = driver m) m.
Proof.
  intros HP Hi Hop. unfold buffer_outcome. apply safe_update, safe_coordinator, safe_update.
  set (m1 := with_co _ (with_co _ m)).
  assert (P (vw m1) ∧ driver m1 = driver m) as H1 by (split; [by apply (closed_buffer (vw m) i op)|done]).
  destruct (match _ !! i with Some _ => true | None => false end); [by apply safe_fail|by apply safe_ret].
Qed.

Lemma buffer_worker_completion_safe P `{!Closed P} token r m : P (vw m) →
  safe (buffer_worker_completion p index flat token r) (λ _ m', P (vw m') ∧ driver m' = driver m)
    (λ _ m', P (vw m') ∧ driver m' = driver m) m.
Proof using Hv Hx Hflat HOps.
  intros HP. unfold buffer_worker_completion. apply safe_coordinator.
  destruct (co_ops (co m) !! token) as [op|] eqn:Hi; [|by apply safe_fail].
  case_bool_decide as Hop; [|by apply safe_fail]. cbn [negb].
  destruct (group_total p index flat Hv Hx Hflat (co m) (shaped_plan _ (closed_shape _ HP)) token) as [group Hg];
    [by eapply lookup_lt_Some|].
  apply safe_lift with group; [done|].
  destruct r as [[e|v]|e]; [by apply buffer_outcome_safe| |by apply buffer_outcome_safe].
  destruct (_ || _); [by apply publish_completion_safe|by apply buffer_outcome_safe].
Qed.

(** *** Draining and aborting *)

(** The run from [m] came to [m'], with [P], and kept its driver. *)
Definition ran (P : View → Prop) (m m' : Machine) : Prop := P (vw m') ∧ (is_Some (driver m') ↔ is_Some (driver m)).

Lemma ran_same P m m' : P (vw m') ∧ driver m' = driver m → ran P m m'.
Proof. intros [? D]. split; [done|by rewrite D]. Qed.

Lemma ran_trans P P' m m' m'' : ran P m m' → ran P' m' m'' → ran P' m m''.
Proof. intros [_ D] [? D']. split; [done|by rewrite D', D]. Qed.

Lemma has_outstanding m : outstanding_tasks m ≠ 0 → is_Some (driver m).
Proof. unfold outstanding_tasks. by destruct (driver m). Qed.

Lemma drain_safe P `{!Closed P} fuel refuse err m : P (vw m) → safe (drain p index flat fuel refuse err) (λ _ m', ran P m m') never m.
Proof using Hv Hx Hflat HOps.
  revert err m. induction fuel as [|fuel IH]; intros err m HP; [done|]. cbn [drain]. apply safe_machine.
  case_bool_decide as Ho; [by apply safe_ret|]. apply has_outstanding in Ho as Hd. apply safe_on_driver; [done|]. intros d event.
  set (m1 := {| co := _; driver := _; host := _ |}).
  assert (Hm1 : ran P m m1) by (split; [done|]; split; intros _; [done|by eexists]).
  destruct event as [e|[token r|request]]; [by apply safe_ret| |].
  - destruct (safe_run _ _ _ _ (buffer_worker_completion_safe P token r m1 HP))
      as [(m2 & w & Hrun & Hb%ran_same)|[(m2 & e & Hrun & Hb%ran_same)|(m2 & Hrun)]]; unfold safe; cbv beta; rewrite Hrun; [| |done].
    + apply (safe_mono (drain p index flat fuel refuse err) (λ _ m', ran P m2 m') (λ _ m', ran P m m') never never m2);
        [by apply IH, Hb| |done]. intros ? m3 H3. eauto using ran_trans.
    + apply (safe_mono (drain p index flat fuel refuse (Some (default e err))) (λ _ m', ran P m2 m') (λ _ m', ran P m m') never never m2);
        [by apply IH, Hb| |done]. intros ? m3 H3. eauto using ran_trans.
  - apply safe_on_driver; [by eexists|]. intros d' reply. set (m2 := {| co := _; driver := _; host := _ |}).
    assert (Hm2 : ran P m m2) by (split; [done|]; split; intros _; [done|by eexists]).
    destruct reply; (eapply safe_mono; [exact (IH _ m2 HP)| |done]); intros ? m3 H3; eauto using ran_trans.
Qed.

Lemma discard_result_safe reason i op m : shaped (vw m) → co_ops (co m) !! i = Some op →
  safe (discard_result reason i) (λ _ m', vw m' = v_end i (NodeDiscarded (op_plan_node op) reason) (vw m) ∧ driver m' = driver m) never m.
Proof using HOps.
  intros Hs Hi. destruct (op_data _ i op Hs Hi) as [Hid _]. unfold discard_result. apply safe_op_at with op; [done|].
  do 4 apply safe_update. apply safe_coordinator. pose proof (shaped_values _ _ _ _ Hs) as Hn. simpl in Hn.
  destruct (lookup_lt_is_Some_2 (values (frame (co m))) (op_plan_node op)) as [v Hval]; [by rewrite Hn|].
  apply safe_lift with v; [simpl; by rewrite Hval|]. do 2 apply safe_update. unfold safe. simpl. split; [|done].
  unfold view, v_end, v_move, v_emit, v_forget. simpl. f_equal. by rewrite length_insert.
Qed.

Lemma discard_all_safe reason l m : discarding p l0 base (vw m) l →
  safe (discard_all reason l) (λ _ m', dead (vw m') ∧ driver m' = driver m) never m.
Proof using HOps.
  revert m. induction l as [|i l IH]; intros m Hd; [apply safe_ret; split; [by apply discarding_dead|done]|].
  destruct (proj1 (discarding_started _ _ _ _ _ Hd i)) as (op & Hi & _); [by left|]. apply safe_bind.
  eapply safe_mono; [by apply (discard_result_safe reason i op); [eapply discarding_shape|]| |done]. intros ? m1 [E1 D1].
  rewrite <-D1. apply IH. rewrite E1. by apply (discarding_step p g l0 base _ i l op).
Qed.

Lemma discard_started_safe reason m : weak (vw m) ∨ dead (vw m) →
  safe (discard_started reason) (λ _ m', dead (vw m') ∧ driver m' = driver m) never m.
Proof using HOps.
  intros Hm. unfold discard_started. apply safe_coordinator, discard_all_safe.
  destruct Hm; [by eapply weak_discarding|by eapply dead_discarding].
Qed.

Lemma discard_started_workers_safe fuel reason m : weak (vw m) →
  safe (discard_started_workers p index flat fuel reason) (λ _ m', ran dead m m') never m.
Proof using Hv Hx Hflat HOps.
  intros Hm. apply safe_bind. eapply safe_mono; [by apply (drain_safe weak)| |done]. intros ? m1 H1.
  eapply safe_mono; [apply discard_started_safe; left; apply H1| |done]. intros ? m2 H2. eapply ran_trans; [exact H1|by apply ran_same].
Qed.

Lemma abort_safe {A} fuel reason e m : live (vw m) ∨ dead (vw m) →
  safe (abort (A := A) p index flat g fuel reason e) (λ _ _, False) (λ _ m', dead (vw m')) m.
Proof using Hv Hx Hflat HOps.
  intros Hm. unfold abort, abort_after_worker_error. apply safe_bind.
  set (refuse := if is_request_cancellation e then CallbackCancelled _ else CallbackInfrastructure _).
  assert (Hdrain : safe (drain p index flat fuel refuse None) (λ _ m', live (vw m') ∨ dead (vw m')) never m).
  { destruct Hm as [Hm|Hm]; [eapply safe_mono; [by apply (drain_safe live)| |done]|eapply safe_mono; [by apply (drain_safe dead)| |done]];
      intros ? m' [? _]; auto. }
  apply safe_bind. eapply safe_mono; [exact Hdrain| |done]. clear Hdrain. intros drain_error m1 Hm1.
  apply safe_bind. unfold settle_buffered_results. apply safe_coordinator.
  assert (Hsettle : safe (settle_loop p index g (S (length (co_ops (co m1))))) (λ _ m', weak (vw m') ∨ dead (vw m')) never m1).
  { destruct Hm1 as [Hm1|Hm1].
    - eapply safe_mono; [by apply settle_loop_safe| |done]. intros [f|] m' [H' _]; left; apply H'.
    - eapply safe_mono; [by apply settle_loop_dead| |done]. intros r m' (_ & E & _). right. by rewrite E. }
  eapply safe_mono; [exact Hsettle| |done]. clear Hsettle. intros failure m2 Hm2. apply safe_bind.
  eapply safe_mono; [by apply discard_started_safe| |done]. intros ? m3 [H3 _]. done.
Qed.

(** *** Dispatch *)

(** An operation that a worker can take. *)
Definition selectable (c : Coordinator) (i : nat) : Prop :=
  has_state c Pending i = true ∧ is_worker_safe p index flat c i = Ok true.

Lemma shim_backend_total c i op : co_ops c !! i = Some op → op_plan_node op < length (plan_nodes p) →
  is_worker_safe p index flat c i = Ok true → is_shim op = true → ∃ backend, shim_backend flat (op_plan_node op) = Ok backend.
Proof using Hflat.
  intros Hi Hid Hw Hs%bool_decide_eq_true. unfold is_worker_safe in Hw. rewrite Hi in Hw. cbn [index_or_panic outcome_bind] in Hw.
  destruct (negb _); [done|]. destruct (oir_total p flat Hflat op Hid) as [oir Ho]. rewrite Ho in Hw. cbn [outcome_bind] in Hw.
  destruct (negb _); [done|]. rewrite Hs in Hw. peel Hw as b Hb. destruct b; [|done].
  destruct (shim_matches_exec p (op_plan_node op) oir) as (l & e & a & backend & body & ->).
  - by destruct (adapter_matches _ _ _ _); simplify_eq/=.
  - exists backend. unfold shim_backend. by rewrite Ho.
Qed.

Lemma verify_selected_safe i m : shaped (vw m) → selectable (co m) i →
  safe (verify_selected flat i) (λ _ m', m' = m) (λ _ m', m' = m) m.
Proof using Hflat HOps.
  intros Hs [(op & Hi & Hp)%has_state_Some Hw]. destruct (op_data _ i op Hs Hi) as [Hid _].
  unfold verify_selected. apply safe_op_at with op; [done|]. destruct (is_shim op) eqn:E; [|by apply safe_ret].
  destruct (shim_backend_total (co m) i op) as [backend Hb]; [done..|]. apply safe_lift with backend; [done|].
  unfold safe, ask_host. by destruct (verify_backend _ _).
Qed.

Lemma verify_all_safe l m : shaped (vw m) → (∀ i, i ∈ l → selectable (co m) i) →
  safe (for_each (verify_selected flat) l) (λ _ m', m' = m) (λ _ m', m' = m) m.
Proof using Hflat HOps.
  intros Hs. induction l as [|i l IH]; intros Hl; [by apply safe_ret|]. apply safe_bind.
  eapply safe_mono; [apply verify_selected_safe; [done|apply Hl; by left]| |done]. intros _ ? ->. apply IH.
  intros j Hj. apply Hl. by right.
Qed.

Lemma prepare_submission_safe i op m : shaped (vw m) → co_ops (co m) !! i = Some op → selectable (co m) i →
  safe (prepare_submission p index flat i) (λ s m', m' = m ∧ s.1 = (i, op_plan_node op)) (λ _ m', m' = m) m.
Proof using Hv Hx Hflat HOps.
  intros Hs Hi [_ Hw]. destruct (op_data _ i op Hs Hi) as [Hid _]. destruct (oir_total p flat Hflat op Hid) as [oir Ho].
  unfold prepare_submission. apply safe_op_at with op; [done|]. apply safe_coordinator.
  apply safe_lift with oir; [done|]. apply safe_bind. apply safe_mono with (λ _ m', m' = m) (λ _ m', m' = m); [|by intros task ? ->|done].
  assert (Hprep : ∀ adapter runtime, safe (lift (prepare p index adapter (frame (co m)) (op_plan_node op) oir runtime))
    (λ _ m', m' = m) (λ _ m', m' = m) m).
  { intros adapter runtime. pose proof (prepare_returns p index Hv Hx adapter (frame (co m)) _ oir runtime Hid) as Hr.
    unfold safe, lift. by destruct (prepare _ _ _ _ _ _ _). }
  destruct (op_adapter op) eqn:Ha; try apply Hprep.
  - destruct (shim_backend_total (co m) i op) as [backend Hb]; [done..|by apply bool_decide_eq_true|].
    apply safe_lift with backend; [done|]. apply safe_lift_returned; [by apply scope_returns|done|]. intros scope _.
    apply safe_ask_host; [done|]. intros runtime. apply Hprep.
  - destruct (native_leaf_source_descriptor oir); [|by apply safe_fail]. apply safe_ask_host; [done|]. intros leaf.
    pose proof (prepare_native_returns p index Hv Hx leaf (frame (co m)) _ oir Hid) as Hr. unfold safe, lift.
    by destruct (prepare_native _ _ _ _ _ _).
Qed.

(** The operations of a list of submissions. *)
Definition submission_of (c : Coordinator) (s : nat * PlanNodeId * PreparedTask) : Prop :=
  ∃ op, co_ops c !! s.1.1 = Some op ∧ op_plan_node op = s.1.2 ∧ op_state op = Pending.

Lemma prepare_all_safe l m : shaped (vw m) → (∀ i, i ∈ l → selectable (co m) i) →
  safe (prepare_all p index flat l) (λ ss m', m' = m ∧ (λ s, s.1.1) <$> ss = l ∧ Forall (submission_of (co m)) ss) (λ _ m', m' = m) m.
Proof using Hv Hx Hflat HOps.
  intros Hs. induction l as [|i l IH]; intros Hl; [by apply safe_ret|]. cbn [prepare_all].
  destruct (Hl i) as [(op & Hi & Hp)%has_state_Some Hw]; [by left|]. apply safe_bind.
  eapply safe_mono; [apply (prepare_submission_safe i op); [done..|]; apply Hl; by left| |done]. intros s ? [-> Hs1].
  apply safe_bind. eapply safe_mono; [apply IH; intros j Hj; apply Hl; by right| |done]. intros ss ? (-> & Hss & Hf).
  apply safe_ret. split; [done|]. rewrite fmap_cons, Hss, Hs1. split; [done|]. constructor; [|done].
  exists op. by rewrite Hs1.
Qed.

Lemma submit_prepared_safe s m : live (vw m) → submission_of (co m) s → is_Some (driver m) →
  safe (submit_prepared s)
    (λ _ m', live (vw m') ∧ is_Some (driver m') ∧ co_ops (co m') = alter (set_run_state InFlight) s.1.1 (co_ops (co m)))
    (λ _ m', live (vw m') ∧ is_Some (driver m')) m.
Proof using HOps.
  intros Hl (op & Hi & Hid & Hp) Hd. destruct s as [[i id] task]. simpl in *. subst id. apply safe_on_driver; [done|].
  intros d r. destruct r as [e|[]]; [by apply safe_fail|]. apply safe_lift with tt; [done|]. do 2 apply safe_update.
  unfold safe. simpl. split_and!; [|done|done]. by apply (live_start p g l0 base (vw m)).
Qed.

Lemma submit_all_safe ss m : live (vw m) → Forall (submission_of (co m)) ss → NoDup ((λ s, s.1.1) <$> ss) → is_Some (driver m) →
  safe (for_each submit_prepared ss) (λ _ m', live (vw m') ∧ is_Some (driver m')) (λ _ m', live (vw m') ∧ is_Some (driver m')) m.
Proof using HOps.
  revert m. induction ss as [|s ss IH]; intros m Hl Hss Hnd Hd; [by apply safe_ret|].
  apply Forall_cons in Hss as [Hs Hss]. rewrite fmap_cons, NoDup_cons in Hnd. destruct Hnd as [Hni Hnd]. apply safe_bind.
  eapply safe_mono; [by apply submit_prepared_safe| |done]. intros ? m1 (Hl1 & Hd1 & E1). apply IH; [done| |done|done].
  apply Forall_forall. intros s' Hs'. rewrite Forall_forall in Hss. destruct (Hss s' Hs') as (op & Hi & ?). exists op.
  rewrite E1, list_lookup_alter_ne; [done|]. intros E. apply Hni. rewrite E. apply list_elem_of_fmap. by exists s'.
Qed.

Lemma dispatch_workers_safe l m : live (vw m) → NoDup l → (∀ i, i ∈ l → selectable (co m) i) → is_Some (driver m) →
  safe (dispatch_workers p index flat l) (λ _ m', live (vw m') ∧ is_Some (driver m')) (λ _ m', live (vw m') ∧ is_Some (driver m')) m.
Proof using Hv Hx Hflat HOps.
  intros Hl Hnd Hsel Hd. assert (Hs : shaped (vw m)) by apply Hl. unfold dispatch_workers. apply safe_coordinator, safe_bind.
  apply safe_mono with (λ _ m', m' = m) (λ _ m', m' = m); [| |by intros e ? ->].
  { destruct (existsb _ l); [|by apply safe_ret]. apply safe_ask_host; [done|]. intros _. by apply verify_all_safe. }
  intros _ ? ->. apply safe_bind. eapply safe_mono; [by apply prepare_all_safe| |by intros e ? ->].
  intros ss ? (-> & Hss & Hf). apply submit_all_safe; [done..|by rewrite Hss|done].
Qed.

(** *** Worker events *)

(** The outcomes of a step of a run that has a driver. *)
Abbreviation goes_on := (λ _ m', live (vw m') ∧ is_Some (driver m')).
Abbreviation stops := (λ _ m', dead (vw m')).

Lemma accept_worker_completion_safe fuel token r m : live (vw m) → is_Some (driver m) →
  safe (accept_worker_completion p index flat g fuel token r) goes_on stops m.
Proof using Hv Hx Hflat HOps.
  intros Hl Hd. unfold accept_worker_completion.
  destruct (safe_run _ _ _ _ (buffer_worker_completion_safe live token r m Hl))
    as [(m2 & w & Hrun & Hb & D)|[(m2 & e & Hrun & Hb & D)|(m2 & Hrun)]]; unfold safe; cbv beta; rewrite Hrun; [| |done].
  - destruct w; [by rewrite D|].
    eapply (safe_mono (abort p index flat g fuel _ _)); [by apply abort_safe; left|done|done].
  - eapply (safe_mono (abort p index flat g fuel _ _)); [by apply abort_safe; left|done|done].
Qed.

Lemma respond_safe request r m : live (vw m) → is_Some (driver m) → safe (respond_or_fail request r) goes_on goes_on m.
Proof.
  intros Hl Hd. apply safe_on_driver; [done|]. intros d [e|[]]; unfold safe; simpl; split; try done; by eexists.
Qed.

Lemma handle_worker_eval_request_safe request m : live (vw m) → is_Some (driver m) →
  safe (handle_worker_eval_request request) goes_on goes_on m.
Proof using HOps.
  intros Hl Hd. assert (Hs : shaped (vw m)) by apply Hl. unfold handle_worker_eval_request. apply safe_coordinator.
  assert (Hrefuse : safe (respond_or_fail request (inl (CallbackInfrastructure (InvalidTokenText (rq_token request)))) ;;*
    fail (A := unit) (anyhow (InvalidCallback (rq_token request)))) goes_on goes_on m).
  { apply safe_bind. eapply safe_mono; [by apply respond_safe| |done]. intros ? m1 H1. by apply safe_fail. }
  destruct (co_ops (co m) !! rq_token request) as [op|] eqn:Hi; [|done]. destruct (_ && _); [|done].
  destruct (op_data _ _ op Hs Hi) as [Hid _]. pose proof (shaped_policies _ _ _ _ Hs) as Hn. simpl in Hn.
  destruct (lookup_lt_is_Some_2 (node_policy (frame (co m))) (op_plan_node op)) as [policy Hp]; [by rewrite Hn|].
  apply safe_lift with policy; [by rewrite Hp|]. apply safe_on_host. intros h saved. apply safe_on_host. intros h' r.
  apply safe_on_host. intros h'' []. by apply respond_safe.
Qed.

Lemma accept_worker_event_or_abort_safe fuel event m : live (vw m) → is_Some (driver m) →
  safe (accept_worker_event_or_abort p index flat g fuel event) goes_on stops m.
Proof using Hv Hx Hflat HOps.
  intros Hl Hd. unfold accept_worker_event_or_abort.
  assert (Ha : safe (accept_worker_event p index flat g fuel event) goes_on (λ _ m', live (vw m') ∨ dead (vw m')) m).
  { destruct event.
    - eapply safe_mono; [by apply accept_worker_completion_safe|done|]. intros ? m' H'. by right.
    - eapply safe_mono; [by apply handle_worker_eval_request_safe|done|]. intros ? m' [H' _]. by left. }
  destruct (safe_run _ _ _ _ Ha) as [(m2 & w & Hrun & Hb)|[(m2 & e & Hrun & Hb)|(m2 & Hrun)]];
    unfold safe; cbv beta; rewrite Hrun; [done| |done].
  eapply (safe_mono (abort p index flat g fuel _ _)); [by apply abort_safe|done|done].
Qed.

Lemma receive_available_safe fuel m : live (vw m) → is_Some (driver m) →
  safe (receive_available p index flat g fuel) goes_on stops m.
Proof using Hv Hx Hflat HOps.
  revert m. induction fuel as [|fuel IH]; intros m Hl Hd; [done|]. cbn [receive_available]. apply safe_on_driver; [done|].
  intros d [e|[event|]].
  - eapply safe_mono; [apply abort_safe; by left|done|done].
  - apply safe_bind. eapply safe_mono; [apply accept_worker_event_or_abort_safe; [done|by eexists]| |done].
    intros ? m1 [? ?]. by apply IH.
  - apply safe_ret. split; [done|by eexists].
Qed.

(** *** Operations on the coordinator thread *)

Lemma forced_failures_view c : view (take_forced_failures c) = view c.
Proof.
  unfold take_forced_failures, view. simpl. f_equal. generalize (trace c).
  induction (forced_batch_failures (frame c)) as [|f l IH]; intros t; simpl; [done|]. by rewrite IH.
Qed.

Lemma verify_launch_safe op oir m : safe (verify_launch op oir) (λ _ m', m' = m) (λ _ m', m' = m) m.
Proof.
  unfold verify_launch. destruct (_ || _); [|by apply safe_ret]. apply safe_ask_host; [done|]. intros [].
  destruct oir; try (by apply safe_ret). case_bool_decide; [|by apply safe_ret]. unfold safe, ask_host. by destruct (verify_backend _ _).
Qed.

(** The events of an operation that runs on the coordinator thread. *)
Lemma live_run v i op ev : live v → v_ops v !! i = Some op → op_state op = Pending → least (v_ops v) i →
  terminal ev = Some (op_plan_node op) →
  live (v_move i Settled (v_emit ev (v_emit (NodeStarted (op_plan_node op)) (v_emit (NodeReady (op_plan_node op)) v)))).
Proof using HOps.
  intros Hl Hi Hop Hleast Hev. pose proof (live_start p g l0 base v i op Hl Hi Hop) as Hl1.
  assert (Hi1 : v_ops (v_start i (op_plan_node op) v) !! i = Some (set_run_state InFlight op)).
  { simpl. by rewrite list_lookup_alter_eq, Hi. }
  pose proof (live_end p g l0 base _ i (set_run_state InFlight op) ev Hl1 Hi1) as Hl2.
  assert (E : v_end i ev (v_start i (op_plan_node op) v) =
    v_move i Settled (v_emit ev (v_emit (NodeStarted (op_plan_node op)) (v_emit (NodeReady (op_plan_node op)) v)))).
  { unfold v_end, v_start, v_move, v_emit, v_forget. simpl. rewrite alter_state_twice. f_equal.
    - apply delete_id. destruct (v_results v !! i) eqn:E; [|done].
      destruct (weak_results _ _ _ v (live_weak _ _ _ v Hl) i) as (op' & ? & ?); [by rewrite E|congruence].
    - apply delete_id. destruct (v_publications v !! i) eqn:E; [|done].
      destruct (proj1 (weak_publications _ _ _ v (live_weak _ _ _ v Hl) i)) as (op' & ? & ?); [by rewrite E|congruence]. }
  rewrite <-E. apply Hl2; [done| |done]. intros j op' Hj Hs Hne. simpl in *. rewrite !op_key_alter.
  rewrite list_lookup_alter_ne in Hj by congruence. by eapply Hleast.
Qed.

Lemma finish_op_safe i id op v settle m : v_values (vw m) = length (plan_nodes p) → id < length (plan_nodes p) →
  co_ops (co m) !! i = Some op →
  (∀ m1, co_ops (co m1) !! i = Some op → safe (settle i) (λ _ m', vw m' = v_move i Settled (vw m1) ∧ driver m' = driver m1) never m1) →
  safe (update (emit (trace_finished id (type_name v) (trace_fingerprint v))) ;;* store_or_fail id v ;;* settle i)
    (λ (_ : unit) m', vw m' = v_move i Settled (v_emit (NodeFinished id (type_name v) (trace_fingerprint v)) (vw m)) ∧
       driver m' = driver m) never m.
Proof.
  intros Hn Hid Hi Hsettle. apply safe_update. apply safe_bind, safe_bind.
  eapply safe_mono; [by apply store_value_safe| |done]. intros ? m1 (-> & E1 & D1). unfold safe at 1. simpl.
  eapply (safe_mono (settle i)); [apply Hsettle; by rewrite (view_ops _ _ E1)| |done].
  intros ? m2 [E2 D2]. rewrite E2, E1, D2, D1. done.
Qed.

Lemma run_coordinator_op_safe i op m : live (vw m) → co_ops (co m) !! i = Some op → op_state op = Pending → least (co_ops (co m)) i →
  let goes m' := live (vw m') ∧ driver m' = driver m in
  safe (run_coordinator_op p index flat g i) (λ _ m', goes m') (λ _ m', goes m') m.
Proof using Hv Hx Hflat HOps HF.
  intros Hl Hi Hop Hleast goes. assert (Hs : shaped (vw m)) by apply Hl. destruct (op_data _ i op Hs Hi) as [Hid Hg].
  unfold run_coordinator_op. apply safe_op_at with op; [done|].
  destruct (oir_total p flat Hflat op Hid) as [oir Ho]. apply safe_lift with oir; [done|].
  apply safe_bind. eapply safe_mono; [apply verify_launch_safe| |by intros e ? ->]. intros ? ? ->.
  do 2 apply safe_update. apply safe_coordinator. pose proof (shaped_policies _ _ _ _ Hs) as Hn. simpl in Hn.
  destruct (lookup_lt_is_Some_2 (node_policy (frame (co m))) (op_plan_node op)) as [policy Hp]; [by rewrite Hn|].
  apply safe_lift with policy; [simpl; by rewrite Hp|]. apply safe_on_host. intros h saved. apply safe_bind.
  unfold safe at 1, execute_node. simpl.
  destruct (execute_ready_plan_node (op_plan_node op) oir (frame (co m)) h) as [[h' f'] r] eqn:He.
  destruct (execute_keeps_frame _ _ _ _ _ _ _ He) as [Hf1 Hf2]. apply safe_on_host. intros h'' [].
  set (m1 := {| co := _; driver := _; host := _ |}).
  assert (E1 : vw m1 = v_emit (NodeStarted (op_plan_node op)) (v_emit (NodeReady (op_plan_node op)) (vw m))).
  { unfold view. simpl. by rewrite Hf1, Hf2. }
  assert (Hm1 : co_ops (co m1) !! i = Some op) by done.
  assert (Hvalues : v_values (vw m1) = length (plan_nodes p)) by (rewrite E1; apply Hs).
  assert (Hend : ∀ ev m', terminal ev = Some (op_plan_node op) → vw m' = v_move i Settled (v_emit ev (vw m1)) → live (vw m')).
  { intros ev m' Hev ->. rewrite E1. by apply (live_run (vw m) i op). }
  destruct r as [e|v].
  - apply safe_bind. eapply safe_mono; [by apply settle_member_safe| |done]. intros [[failure v]|] m2 [E2 D2].
    + apply safe_update. eapply safe_mono; [apply (finish_op_safe i _ op)| |done]; [|done|..].
      * change (v_values (vw m2) = length (plan_nodes p)). by rewrite E2.
      * simpl. by rewrite (view_ops _ _ E2).
      * intros m3 H3. by apply (materialize_member_error_safe i op).
      * intros ? m3 [E3 D3]. split; [|by rewrite D3]. eapply Hend; [|rewrite E3, <-E2; done]. done.
    + apply safe_update. apply safe_bind. eapply safe_mono; [apply (record_failure_safe i op)| |done].
      { simpl. by rewrite (view_ops _ _ E2). }
      intros ? m3 [E3 D3]. apply safe_fail. split; [|by rewrite D3].
      eapply (Hend (NodeFailed (op_plan_node op) (to_string e))); [done|]. rewrite E3, <-E2. done.
  - apply safe_update. set (m2 := with_co _ m1). assert (E2 : vw m2 = vw m1) by apply forced_failures_view.
    eapply safe_mono; [apply (finish_op_safe i _ op)| |done]; [by rewrite E2|done|done|..].
    { intros m3 H3. by apply (materialize_success_safe i op). }
    intros ? m3 [E3 D3]. split; [|by rewrite D3]. eapply Hend; [|rewrite E3, <-E2; done]. done.
Qed.

(** *** The event loop *)

(** The outcomes of a step, with or without a driver. *)
Abbreviation continues m := (λ _ m', ran live m m').

Lemma live_lookup v v' i op : shaped v → shaped v' → v_ops v !! i = Some op → is_Some (v_ops v' !! i).
Proof.
  intros Hs Hs' Hi. apply lookup_lt_is_Some. pose proof (shaped_ops _ _ _ _ Hs') as E. rewrite <-(shaped_ops _ _ _ _ Hs) in E.
  apply (f_equal length) in E. unfold skeleton in E. rewrite !length_fmap in E. rewrite E. by eapply lookup_lt_Some.
Qed.

Lemma run_frontier_safe fuel i op m : live (vw m) → co_ops (co m) !! i = Some op → op_state op = Pending → least (co_ops (co m)) i →
  safe (run_frontier p index flat g fuel i) (continues m) stops m.
Proof using Hv Hx Hflat HOps HF.
  intros Hl Hi Hop Hleast. unfold run_frontier.
  destruct (safe_run _ _ _ _ (run_coordinator_op_safe i op m Hl Hi Hop Hleast))
    as [(m2 & w & Hrun & Hb)|[(m2 & e & Hrun & Hb)|(m2 & Hrun)]]; unfold safe; cbv beta; rewrite Hrun; [by apply ran_same| |done].
  match goal with |- match ?f m2 with _ => _ end => change (safe f (continues m) stops m2) end.
  destruct (live_lookup (vw m) (vw m2) i op) as [op2 Hi2]; [apply Hl|apply Hb|done|].
  apply safe_op_at with op2; [done|]. apply safe_bind.
  eapply safe_mono; [apply discard_started_workers_safe, Hb| |done]. intros ? m3 [H3 _]. by apply safe_fail.
Qed.

Lemma wait_for_event_safe fuel m : live (vw m) → is_Some (driver m) →
  safe (wait_for_event p index flat g fuel) (continues m) stops m.
Proof using Hv Hx Hflat HOps.
  intros Hl Hd. assert (Hmono : ∀ (x : M Machine Error unit) m1, safe x goes_on stops m1 → safe x (continues m) stops m1).
  { intros x m1 Hx'. eapply safe_mono; [exact Hx'| |done]. intros ? m' [? ?]. split; [done|]. done. }
  apply safe_on_driver; [done|]. intros d [e|[event|]].
  - eapply safe_mono; [apply abort_safe; by left|done|done].
  - apply Hmono, accept_worker_event_or_abort_safe; [done|by eexists].
  - apply safe_on_host. intros h [e|[]]; [eapply safe_mono; [apply abort_safe; by left|done|done]|].
    apply safe_ret. split; [done|]. split; intros _; [done|by eexists].
Qed.

Lemma report_failure_safe {A} fuel failure (k : unit → M Machine Error A) m Q : weak (vw m) → is_Some (co_ops (co m) !! wf_index failure) →
  safe (bind (report_failure p index flat fuel failure) k) Q stops m.
Proof using Hv Hx Hflat HOps.
  intros Hw [op Hi]. apply safe_bind. unfold report_failure. apply safe_op_at with op; [done|]. apply safe_bind.
  eapply safe_mono; [by apply discard_started_workers_safe| |done]. intros ? m3 [H3 _]. by apply safe_fail.
Qed.

Lemma report_stall_safe {A} fuel (k : unit → M Machine Error A) m Q : live (vw m) →
  safe (bind (report_stall p index flat fuel) k) Q stops m.
Proof using Hv Hx Hflat HOps.
  intros Hl. apply safe_bind. unfold report_stall. apply safe_coordinator, safe_bind.
  eapply safe_mono; [apply discard_started_workers_safe, Hl| |done]. intros ? m3 [H3 _]. apply safe_coordinator. by apply safe_fail.
Qed.

Lemma try_dispatch_safe fuel ready m : live (vw m) → ready_ops p index (co m) = Ok ready →
  safe (try_dispatch p index flat g fuel ready) (λ b m', if (b : bool) then ran live m m' else m' = m) stops m.
Proof using Hv Hx Hflat HOps.
  intros Hl Hready. assert (Hin : Forall (λ op, op_plan_node op < length (plan_nodes p)) (co_ops (co m))) by (apply shaped_plan, Hl).
  destruct (ready_total p index Hv Hx (co m) Hin) as (ready' & Hr' & Hnd & Hr). rewrite Hready in Hr'. injection Hr' as <-.
  unfold try_dispatch. apply safe_machine. destruct (driver m) as [d|] eqn:Hd; [|by apply safe_ret].
  destruct (candidates_total p index flat Hv Hx Hflat (co m) Hin ready (available_slots d)) as (l & Hl' & Hnd' & Hsel); [done| |].
  { intros i Hi. by apply Hr. }
  apply safe_lift with l; [done|]. destruct l as [|i0 l]; [by apply safe_ret|].
  destruct (safe_run _ _ _ _ (dispatch_workers_safe (i0 :: l) m Hl Hnd' ltac:(intros i Hi; destruct (Hsel i Hi) as [[_ ?%is_ready_pending]%Hr ?]; done)
    ltac:(by rewrite Hd)))
    as [(m2 & w & Hrun & Hb & D)|[(m2 & e & Hrun & Hb & D)|(m2 & Hrun)]]; unfold safe; cbv beta; rewrite Hrun; [| |done].
  - split; [done|]. by rewrite Hd.
  - eapply (safe_mono (abort p index flat g fuel _ _)); [by apply abort_safe; left|done|done].
Qed.

Lemma drive_step_safe fuel m : live (vw m) →
  safe (drive_step p index flat g fuel)
    (λ b m', ran live m m' ∧ (b = true → Forall (λ op, op_state op = Settled) (co_ops (co m')))) stops m.
Proof using Hv Hx Hflat HOps HF.
  intros Hl. unfold drive_step. apply safe_on_host. intros h [e|[]].
  { apply safe_bind. eapply safe_mono; [apply discard_started_workers_safe, Hl| |done]. intros ? m3 [H3 _]. by apply safe_fail. }
  apply safe_machine. apply safe_bind. set (m0 := {| co := _; driver := _; host := _ |}).
  apply safe_mono with (continues m) stops; [| |done].
  { destruct (driver m0) eqn:Hd; [|by apply safe_ret]. eapply safe_mono; [apply receive_available_safe; [done|by rewrite Hd]| |done].
    intros ? m1 [? ?]. split; [done|]. simpl in Hd. by rewrite Hd. }
  clearbody m0. clear m0. intros ? m0 H0. apply safe_bind. unfold settle_buffered_results. apply safe_coordinator.
  eapply safe_mono; [apply settle_loop_safe, H0| |done]. intros failure m1 [H1 D1].
  destruct failure as [failure|]; [by apply report_failure_safe; apply H1|].
  assert (R1 : ran live m m1) by (eapply ran_trans; [exact H0|by apply ran_same]). clear D1 H0 m0. apply safe_coordinator.
  destruct (forallb _ _) eqn:Hall.
  { apply safe_ret. split; [done|]. intros _. apply Forall_lookup_2. intros i op Hi. rewrite forallb_forall in Hall.
    specialize (Hall i). rewrite (has_state_op _ _ _ _ Hi), bool_decide_eq_true in Hall. apply Hall, list_elem_of_In, elem_of_indices.
    by eapply lookup_lt_Some. }
  assert (Hin : Forall (λ op, op_plan_node op < length (plan_nodes p)) (co_ops (co m1))) by (apply shaped_plan, H1).
  destruct (ready_total p index Hv Hx (co m1) Hin) as (ready & Hready & Hnd & Hr). apply safe_lift with ready; [done|].
  destruct (mismatch_total p index flat Hv Hx Hflat (co m1) Hin ready) as (mismatch & Hm & _); [intros i Hi; by apply Hr|].
  apply safe_lift with mismatch; [done|].
  destruct mismatch as [op|]; [eapply safe_mono; [apply abort_safe; by left|done|done]|].
  apply safe_bind. eapply safe_mono; [by apply try_dispatch_safe| |done]. intros [] m2 Hd2.
  { apply safe_ret. split; [|done]. by eapply ran_trans. }
  subst m2. apply safe_machine. destruct (frontier_total (co m1) ready) as (r & Hfr & Hf).
  case_bool_decide as Ho.
  - apply safe_bind. unfold safe at 1, lift. rewrite Hfr. destruct r as [i|].
    + destruct (proj1 (Hf i) eq_refl) as (Hlow & (op & Hi & Hop)%has_state_Some & _).
      apply safe_bind. destruct (lowest_least p g l0 base (co m1) i) as (Hleast & _); [apply H1|done|].
      eapply safe_mono; [by apply (run_frontier_safe fuel i op)| |done]. intros ? m3 H3. apply safe_ret.
      split; [|done]. by eapply ran_trans.
    + by apply report_stall_safe.
  - apply safe_bind. unfold safe at 1. simpl. apply safe_bind.
    eapply safe_mono; [by apply wait_for_event_safe, has_outstanding| |done]. intros ? m3 H3. apply safe_ret.
    split; [|done]. by eapply ran_trans.
Qed.

Lemma drive_safe fuel m : live (vw m) →
  safe (drive p index flat g fuel) (λ _ m', live (vw m') ∧ Forall (λ op, op_state op = Settled) (co_ops (co m'))) stops m.
Proof using Hv Hx Hflat HOps HF.
  revert m. induction fuel as [|fuel IH]; intros m Hl; [done|]. cbn [drive]. apply safe_bind.
  eapply safe_mono; [by apply drive_step_safe| |done]. intros [] m1 [[H1 _] Hs]; [|by apply IH]. apply safe_ret. auto.
Qed.
End Drive.
