(* ===== verification/CoordinatorTheorems.v ===== *)
(** * Theorems on the coordinator

    A coordinator that [Coordinator::new] has built runs without a panic and settles
    its operations in order, whatever the evaluator and the driver do. *)

From S2P Require Import Prelude.
From S2P Require Import Utf8.
From S2P Require Import BackendCatalog.
From S2P Require Import Ir.
From S2P Require Import ExecutionPlan.
From S2P Require Import Effects.
From S2P Require Import DispatchModel.
From S2P Require Import Topological.
From S2P Require Import PlanTheorems.
From S2P Require Import PlanSchedules.
From S2P Require Import HGraph.
From S2P Require Import HGraphValidate.
From S2P Require Import HGraphTheorems.
From S2P Require Import ReadySchedule.
From S2P Require Import ReadyTheorems.
From S2P Require Import ExecutionContract.
From S2P Require Import EvalFrame.
From S2P Require Import ParallelTasks.
From S2P Require Import Coordinator.
From S2P Require Import CoordinatorFacts.
From S2P Require Import CoordinatorSafety.
From S2P Require Import CoordinatorDrive.
From stdpp Require Import options.

#[local] Open Scope nat_scope.

(** ** Construction *)

Lemma map_outcome_ok {E A B} (f : A → outcome E B) l l' :
  map_outcome f l = Ok l' → Forall2 (λ a b, f a = Ok b) l l'.
Proof.
  revert l'. induction l as [|a l IH]; intros l' H; simpl in H; [injection H as <-; constructor|].
  peel H as b Hb. peel H as bs Hbs. injection H as <-. constructor; auto.
Qed.

Lemma fold_outcome_inv {E A B} (P : B → Prop) (f : B → A → outcome E B) l b b' :
  (∀ b a b', P b → f b a = Ok b' → P b') → P b → fold_outcome f b l = Ok b' → P b'.
Proof.
  intros Hf. revert b. induction l as [|a l IH]; intros b Hb H; simpl in H; [by injection H as <-|].
  peel H as b1 H1. eauto.
Qed.

Section New.
Context `{OV : !OValues, ER : !Errors, SH : !Shims, LV : !Leaves, DG : !Digests, UT : !UnicodeTables}.
Context (validate_descriptor : str → nat → bool).

Lemma derive_op g s op : derive validate_descriptor g = Ok s → op ∈ ops s →
  ∃ info, op_map g !! r_plan_node op = Some info ∧ r_inputs op = inputs info ∧ r_outputs op = outputs info ∧
    r_ordinal op = ordinal info ∧ r_value_output op = value_output info.
Proof.
  intros H Hop. unfold derive in H. peel H as u Hv. peel H as po Hpo. peel H as u' Hpol. injection H as <-.
  apply validated_inv in Hv as (Hsh & _). simpl in Hop. apply elem_of_lookup_imap in Hop as (v & info & -> & Hi).
  apply list_elem_of_lookup_2, elem_of_infos in Hi as [i Hi]. exists info. simpl. by rewrite (sh_key _ _ _ (Hsh i info Hi)).
Qed.

Lemma policies_length p index flat base policies : derive_policy_contexts p index flat base = Ok policies →
  length policies = length (plan_nodes p).
Proof.
  unfold derive_policy_contexts. destruct (negb _); [done|].
  apply (fold_outcome_inv (λ policies, length policies = length (plan_nodes p))); [|by rewrite length_replicate].
  intros l n l' Hl H. unfold derive_node in H. peel H as parent H1. peel H as oir H2. peel H as children H3.
  revert H. apply (fold_outcome_inv (λ policies, length policies = length (plan_nodes p))); [|done].
  intros b c b' Hb Hc. unfold assign_policy in Hc. case_bool_decide; [|done]. injection Hc as <-. by rewrite length_insert.
Qed.

(** What [new] has checked when it returns a coordinator. *)
Record built (prog : OIrProgram) (p : ExecutionPlan) (g : HGraph) (index : ExecutionPlanIndex) (flat : list OIr) (c : Coordinator) : Prop := {
  built_plan : validate p (length (roots p)) = Ok tt;
  built_index : index_new p = Ok index;
  built_flat : length flat = length (plan_nodes p);
  built_source : flat = flatten_for_plan prog;
  built_ops : Operations p g (co_ops c);
  built_pending : Forall (λ op, op_state op = Pending) (co_ops c);
  built_executable : ∀ i, i ∈ op_plan_node <$> co_ops c ↔ ∃ n, plan_nodes p !! i = Some n ∧ is_executable (node_kind n) = true;
  built_results : worker_results c = ∅;
  built_publications : worker_publications c = ∅;
  built_values : length (values (frame c)) = length (plan_nodes p);
  built_policies : length (node_policy (frame c)) = length (plan_nodes p);
  built_events : events (trace c) = [];
}.

Lemma new_op_spec g contracts op op' : new_op g contracts op = Ok op' →
  op_plan_node op' = r_plan_node op ∧ op_outputs op' = r_outputs op ∧ op_state op' = Pending.
Proof. unfold new_op. destruct (effect_summaries g !! _); [|done]. destruct (contracts !! _); [|done]. by intros [= <-]. Qed.

Lemma new_built prog p g contracts policy index flat c :
  new validate_descriptor prog p g contracts policy = Ok (index, flat, c) → built prog p g index flat c.
Proof.
  intros H. unfold new in H. destruct (negb _) eqn:Hlen; [done|]. apply negb_false_iff, bool_decide_eq_true in Hlen.
  peel H as u1 H1. peel H as u2 Hsrc. peel H as s Hs. peel H as l Hl. peel H as x Hx. peel H as policies Hp. injection H as <- <- <-.
  assert (Hplan : validate_execution_plan validate_descriptor g p = Ok tt).
  { unfold graph_result in Hsrc. destruct (validate_execution_source _ _ _ _) as [?| | |] eqn:E; simplify_eq/=.
    unfold validate_execution_source in E. peel E as u3 E3. by destruct u3. }
  assert (Hd : derive validate_descriptor g = Ok s) by (unfold graph_result in Hs; by destruct (derive _ _); simplify_eq/=).
  assert (Hi : index_new p = Ok x) by (unfold plan_result in Hx; by destruct (index_new p); simplify_eq/=).
  apply map_outcome_ok in Hl. pose proof (derive_spec _ _ _ Hd) as Hder.
  assert (Hids : op_plan_node <$> l = r_plan_node <$> ops s).
  { clear -Hl. induction Hl as [|op op' ops l Hop _ IH]; [done|]. apply new_op_spec in Hop as [E _]. rewrite !fmap_cons. by f_equal. }
  assert (Hexec : ∀ i, i ∈ op_plan_node <$> l ↔ ∃ n, plan_nodes p !! i = Some n ∧ is_executable (node_kind n) = true).
  { intros i. rewrite Hids, (dv_ops _ _ Hder). apply (accepted_operations validate_descriptor g p Hplan). }
  constructor; simpl; try done.
  - by apply index_new_validates with x.
  - constructor.
    + rewrite Hids. apply Hder.
    + apply Forall_forall. intros op Hop. destruct (proj1 (Hexec (op_plan_node op))) as (n & Hn & _); [by apply list_elem_of_fmap_2|].
      by eapply lookup_lt_Some.
    + apply Forall_lookup_2. intros i op' Hop'. destruct (Forall2_lookup_r _ _ _ _ _ Hl Hop') as (op & Hop & Ho).
      apply new_op_spec in Ho as (_ & -> & _). apply list_elem_of_lookup_2 in Hop.
      destruct (derive_op g s op Hd Hop) as (info & Hinfo & _ & -> & _). apply Forall_forall. intros n Hn.
      destruct (accepted_inv validate_descriptor g p Hplan) as (_ & Hsh & _).
      destruct (sh_outputs _ _ _ (Hsh _ _ Hinfo) n Hn) as (node & -> & _). by eexists.
  - apply Forall_lookup_2. intros i op' Hop'. destruct (Forall2_lookup_r _ _ _ _ _ Hl Hop') as (op & Hop & Ho).
    by apply new_op_spec in Ho as (_ & _ & ?).
  - by rewrite length_replicate.
  - by apply policies_length in Hp.
Qed.
End New.

(** ** Runs *)

Definition event_node (ev : TraceEvent) : PlanNodeId :=
  match ev with NodeReady id | NodeStarted id | NodeFinished id _ _ | NodeFailed id _ | NodeDiscarded id _ => id end.

(** The trace of a run that has returned: the events of literals, then a run of the
    abstract machine that leaves nothing running and, for a successful run, has
    settled every operation. *)
Definition complete_trace (l : list OpState) (success : Prop) (evs : list TraceEvent) : Prop :=
  ∃ literals evs' a, evs = literals ++ evs' ∧ Forall (λ ev, event_node ev ∉ op_plan_node <$> l) literals ∧
    lifecycle_run l no_lifecycle evs' = Some a ∧ running a = ∅ ∧
    (success → settled a ≡ₚ op_plan_node <$> l).

Lemma before_irrefl l x : before l x x = false.
Proof.
  unfold before. destruct (node_key l x) as [k|]; [|done]. apply bool_decide_eq_false. apply key_lt_irrefl.
Qed.

Lemma sorted_nodup l ids : StronglySorted (λ i j, before l i j = true) ids → NoDup ids.
Proof.
  induction 1 as [|i ids _ IH Hall]; constructor; [|done]. intros Hi. rewrite Forall_forall in Hall.
  specialize (Hall i Hi). by rewrite before_irrefl in Hall.
Qed.

Section Run.
Context `{OV : !OValues, ER : !Errors, SH : !Shims, LV : !Leaves, DG : !Digests, UT : !UnicodeTables}.
Context `{HO : !GraphEvaluationHost, AD : !AttemptDriver} {HF : FrameKeeping}.
Context (p : ExecutionPlan) (g : HGraph) (l0 : list OpState) (base : list TraceEvent) {HOps : Operations p g l0}.
Context (Hbase : Forall (λ ev, event_node ev ∉ op_plan_node <$> l0) base).

Lemma dead_complete v : dead p l0 base v → complete_trace l0 False (v_events v).
Proof using Hbase.
  intros [[_ _ _ (evs & He & a & Ha & [Hr Hf Ho])] Hd]. exists base, evs, a. split_and!; [done..| |done].
  apply set_eq. intros id. split; [|by intros []%not_elem_of_empty]. intros Hid. destruct (Ho id) as (i & op & Hi & <-); [by left|].
  destruct (Hd i op Hi). by apply (Hr i op Hi).
Qed.

Lemma live_complete v : live p l0 base v → Forall (λ op, op_state op = Settled) (v_ops v) → complete_trace l0 True (v_events v).
Proof using Hbase HOps.
  intros [[[Hs _ _ (evs & He & a & Ha & [Hr Hf Ho])] _ _ _] _] Hall.
  assert (Hst : ∀ i op, v_ops v !! i = Some op → op_state op = Settled) by (intros i op; by apply (Forall_lookup_1 _ _ _ _ Hall)).
  exists base, evs, a. split_and!; [done..| |].
  - apply set_eq. intros id. split; [|by intros []%not_elem_of_empty]. intros Hid. destruct (Ho id) as (i & op & Hi & <-); [by left|].
    apply (Hr i op Hi) in Hid as [_ Hns]. destruct Hns. by apply (Hst i op).
  - intros _. apply NoDup_Permutation; [by apply (sorted_nodup l0), (lifecycle_sorted _ _ evs)|apply HOps|].
    intros id. rewrite <-(skeleton_ids l0 _ Hs), list_elem_of_fmap. split.
    + intros Hid. destruct (Ho id) as (i & op & Hi & <-); [by right|]. exists op. split; [done|]. by eapply list_elem_of_lookup_2.
    + intros (op & -> & [i Hi]%list_elem_of_lookup). apply (Hf i op Hi). by eapply Hst.
Qed.

Lemma initial_live c : co_ops c = l0 → Forall (λ op, op_state op = Pending) l0 → worker_results c = ∅ → worker_publications c = ∅ →
  length (values (frame c)) = length (plan_nodes p) → length (node_policy (frame c)) = length (plan_nodes p) →
  events (trace c) = base → live p l0 base (view c).
Proof.
  intros Hops Hp Hr Hpub Hv Hpol He. rewrite Forall_lookup in Hp.
  assert (Hst : ∀ i op, v_ops (view c) !! i = Some op → op_state op = Pending) by (simpl; rewrite Hops; done).
  constructor; [constructor; [constructor|..]|].
  - simpl. by rewrite Hops.
  - done.
  - done.
  - exists []. split; [simpl; by rewrite He, app_nil_r|]. exists no_lifecycle. split; [done|]. constructor; simpl.
    + intros i op Hi. rewrite (Hst i op Hi). split; [by intros []%not_elem_of_empty|]. by intros [].
    + intros i op Hi. rewrite (Hst i op Hi). split; [by intros []%not_elem_of_nil|done].
    + intros id [[]%not_elem_of_empty|[]%not_elem_of_nil].
  - intros i j op op' Hi _ Hs. by rewrite (Hst i op Hi) in Hs.
  - intros i. simpl. rewrite Hr, lookup_empty. by intros [].
  - intros i. simpl. rewrite Hpub, lookup_empty. split; [by intros []|]. intros (op & Hi & Hs). by rewrite (Hst i op Hi) in Hs.
  - intros i (op & Hi & Hs). by rewrite (Hst i op Hi) in Hs.
Qed.
End Run.

Section Graph.
Context `{OV : !OValues, ER : !Errors, SH : !Shims, LV : !Leaves, DG : !Digests, UT : !UnicodeTables}.
Context `{HO : !GraphEvaluationHost, AD : !AttemptDriver} {HF : FrameKeeping}.
Context (prog : OIrProgram) (p : ExecutionPlan) (g : HGraph) (index : ExecutionPlanIndex) (flat : list OIr) (c0 : Coordinator).
Context (Hbuilt : built prog p g index flat c0) (Hroots : validate p (length (nodes prog)) = Ok tt).

(** The state while the literals are materialised. *)
Record literals_done (v : View) : Prop := {
  ld_ops : v_ops v = co_ops c0;
  ld_results : v_results v = ∅;
  ld_publications : v_publications v = ∅;
  ld_values : v_values v = length (plan_nodes p);
  ld_policies : v_policies v = length (plan_nodes p);
  ld_events : Forall (λ ev, event_node ev ∉ op_plan_node <$> co_ops c0) (v_events v);
}.

Abbreviation vw m := (view (co m)).

Lemma built_identity i n : plan_nodes p !! i = Some n → node_id n = i.
Proof using Hbuilt. apply validate_identity with (1 := built_plan _ _ _ _ _ _ Hbuilt). Qed.

(** A text node is not executable. *)
Lemma text_not_operation n : n ∈ plan_nodes p → node_kind n = PText → node_id n ∉ op_plan_node <$> co_ops c0.
Proof using Hbuilt.
  intros [i Hi]%list_elem_of_lookup Hk (n' & Hn' & Hex)%(built_executable _ _ _ _ _ _ Hbuilt).
  rewrite (built_identity i n Hi) in Hn'. simplify_eq. by rewrite Hk in Hex.
Qed.

Lemma materialize_literal_safe n m : n ∈ plan_nodes p → literals_done (vw m) →
  safe (materialize_literal flat n) (λ _ m', literals_done (vw m')) (λ _ m', literals_done (vw m')) m.
Proof using Hbuilt.
  intros Hn Hm. unfold materialize_literal. destruct (node_kind n) eqn:Hk; try (by apply safe_ret).
  assert (Hid : node_id n < length (plan_nodes p)).
  { apply list_elem_of_lookup in Hn as [i Hi]. rewrite (built_identity i n Hi).
    by eapply lookup_lt_Some. }
  destruct (lookup_lt_is_Some_2 flat (node_id n)) as [oir Ho]; [by rewrite (built_flat _ _ _ _ _ _ Hbuilt)|].
  apply safe_lift with oir; [unfold oir_at; by rewrite Ho|]. destruct oir; try (by apply safe_ret). do 3 apply safe_update.
  apply safe_bind. set (m1 := with_co _ (with_co _ (with_co _ m))). pose proof (text_not_operation n Hn Hk) as Hnot.
  destruct Hm as [? ? ? Hval ? Hev].
  eapply safe_mono; [by apply (store_value_safe p)| |done]. intros ? m2 (-> & E2 & D2). unfold safe, lift. simpl. rewrite E2.
  constructor; try done. simpl. rewrite !Forall_app. split_and!; by repeat constructor.
Qed.

Lemma materialize_literals_safe m : literals_done (vw m) →
  safe (materialize_literals p flat) (λ _ m', literals_done (vw m')) (λ _ m', literals_done (vw m')) m.
Proof using Hbuilt.
  unfold materialize_literals.
  assert (Hall : ∀ n, n ∈ plan_nodes p → n ∈ plan_nodes p) by done. revert Hall. generalize (plan_nodes p) at 1 3.
  intros l. revert m. induction l as [|n l IH]; intros m Hl Hm; [by apply safe_ret|]. cbn [for_each]. apply safe_bind.
  eapply safe_mono; [apply materialize_literal_safe; [apply Hl; by left|done]| |done]. intros ? m1 H1. apply IH; [|done].
  intros n' Hn'. apply Hl. by right.
Qed.

Lemma root_positions_bound rs id k : root_positions rs !! id = Some k → k < length rs.
Proof.
  unfold root_positions. induction rs as [|r rs IH] using rev_ind; [simpl; by rewrite lookup_empty|].
  rewrite imap_app, foldl_app, length_app. simpl. destruct (decide (r = id)) as [-> |].
  - rewrite lookup_insert_eq. intros [= <-]. lia.
  - rewrite lookup_insert_ne by done. intros H%IH. lia.
Qed.

Lemma commit_returns scope f : returned (commit p prog scope f).
Proof using Hroots.
  unfold commit. assert (Hs : ∃ schedule, root_schedule p = Ok schedule ∧ ∀ k, k ∈ schedule → k < length (roots p)).
  { unfold validate in Hroots. destruct (negb _); [done|]. peel Hroots as u1 H1. peel Hroots as u2 H2. peel Hroots as u3 H3.
    peel Hroots as u4 H4. peel Hroots as s H5. exists s. split; [done|]. unfold root_schedule in H5. peel H5 as order Ho.
    case_bool_decide; [|done]. injection H5 as <-. intros k (id & _ & Hk)%list_elem_of_omap. by eapply root_positions_bound. }
  destruct Hs as (schedule & -> & Hk). simpl. apply returned_fold. intros [scope' last] k Hin. unfold commit_root.
  assert (Hlen : length (nodes prog) = length (roots p)).
  { unfold validate in Hroots. destruct (negb _) eqn:E; [done|]. by apply negb_false_iff, bool_decide_eq_true in E. }
  apply returned_bind; [apply returned_index; rewrite Hlen; by apply Hk|]. intros node _.
  apply returned_bind; [apply returned_index; by apply Hk|]. intros id _. apply returned_bind; [apply returned_from|done].
Qed.

Lemma run_graph_safe fuel scope d h :
  safe (run_graph p index flat g fuel prog scope) (λ _ m', complete_trace (co_ops c0) True (events (trace (co m'))))
    (λ _ m', complete_trace (co_ops c0) False (events (trace (co m')))) {| co := c0; driver := d; host := h |}.
Proof using Hbuilt Hroots HF.
  assert (Hlit : ∀ evs, Forall (λ ev, event_node ev ∉ op_plan_node <$> co_ops c0) evs → complete_trace (co_ops c0) False evs).
  { intros evs Hevs. exists evs, [], no_lifecycle. by rewrite app_nil_r. }
  pose proof Hbuilt as [? ? ? ? HOps Hpend Hex ? ? ? ? He]. unfold run_graph. apply safe_on_host. intros h' [e|[]].
  { apply safe_lift_returned; [done| |done]. intros _. simpl. rewrite He. by apply Hlit. }
  apply safe_lift with tt; [done|]. apply safe_ask_host; [intros e; simpl; rewrite He; by apply Hlit|]. intros _.
  apply safe_lift_returned; [by destruct (validate_execution_metadata flat)|intros e; simpl; rewrite He; by apply Hlit|]. intros _ _.
  apply safe_update. apply safe_bind. set (m1 := with_co _ _).
  assert (Hm1 : literals_done (vw m1)) by (constructor; simpl; try done; rewrite He; constructor).
  eapply safe_mono; [by apply materialize_literals_safe| |by intros e m' [? ? ? ? ? ?]; apply Hlit].
  intros ? m2 [H1 H2 H3 H4 H5 H6].
  apply safe_bind. eapply safe_mono; [eapply (drive_safe p index flat g)| |]; try done.
  - by apply initial_live.
  - intros ? m3 [Hl Hs]. apply safe_coordinator. pose proof (live_complete p g _ _ H6 _ Hl Hs) as Hc.
    pose proof (commit_returns scope (frame (co m3))) as Hr. unfold safe, lift. destruct (commit _ _ _ _); try done.
    destruct Hc as (l1 & l2 & last & ? & ? & ? & ? & ?). by exists l1, l2, last.
  - intros e m3 Hd. exact (dead_complete p _ _ H6 _ Hd).
Qed.
End Graph.

(** C16. Whatever happens, a graph run is a well-formed execution.  A coordinator that
    [Coordinator::new] has built for a plan with the program's roots never panics,
    for any evaluator that keeps the shape of the frame, and for any driver: whatever
    it delivers, in any order, completions for the wrong operation, failures and
    callbacks included.  Every run that returns, with a value or with an error, leaves
    a complete trace: each operation starts at most once, ends exactly once if it has
    started (finished, failed or discarded) and never otherwise, operations end in
    the order of their ordinals, and a successful run has ended all of them. *)
Theorem graph_run_lifecycle
    `{OV : !OValues, ER : !Errors, SH : !Shims, LV : !Leaves, DG : !Digests, UT : !UnicodeTables}
    `{HO : !GraphEvaluationHost, AD : !AttemptDriver} (validate_descriptor : str → nat → bool)
    (prog : OIrProgram) (p : ExecutionPlan) (g : HGraph) (contracts : gmap PlanNodeId DispatchContract) (policy : Policy)
    (index : ExecutionPlanIndex) (flat : list OIr) (c : Coordinator) (fuel : nat) (scope : gmap str OValue)
    (d : option Driver) (h : Host) :
  FrameKeeping →
  new validate_descriptor prog p g contracts policy = Ok (index, flat, c) →
  validate p (length (nodes prog)) = Ok tt →
  let '(m, r) := run_graph p index flat g fuel prog scope {| co := c; driver := d; host := h |} in
  r ≠ Panic ∧ (r ≠ NoFuel → complete_trace (co_ops c) (∃ v, r = Ok v) (events (trace (co m)))).
Proof.
  intros HF Hnew Hroots. pose proof (run_graph_safe prog p g index flat c (new_built _ _ _ _ _ _ _ _ _ Hnew) Hroots fuel scope d h) as Hs.
  unfold safe in Hs. destruct (run_graph _ _ _ _ _ _ _ _) as [m [v|e| |]]; [| |done..]; split; try done; intros _;
    destruct Hs as (l1 & l2 & a & ? & ? & ? & ? & ?); exists l1, l2, a; split_and!; try done; [naive_solver|]. intros [? ?]; done.
Qed.

(** ** A small run *)

Section Demo.
#[local] Instance demo_values : OValues :=
  {| OValue := str; type_name := λ _, lit "text"; trace_fingerprint := λ _, None; text_of := Some;
     is_number_or_bool := λ _, false; is_eval_request := λ _, false; is_null := λ v, bool_decide (v = []);
     null_value := []; str_ := λ s, s; html_value := λ s, s; error_value := λ s, s; render_with := λ _ s, s |}.
#[local] Instance demo_errors : Errors :=
  {| Error := Message; anyhow := λ m, m; context := λ m _, m; to_string := λ _, []; chain_string := λ _, [];
     all_members_failed := λ _, None; batch_member_error_is_absorbable := λ _, false;
     is_request_cancellation := λ _, false; is_infrastructure_error := λ _, false |}.
#[local] Instance demo_shims : Shims :=
  {| EphemeralShimRuntime := unit; validate_bindings := λ _ _ _, inr tt; validate_value := λ _ _ _, inr tt;
     run_ephemeral := λ _ _ code _ _, inr code |}.
#[local] Instance demo_leaves : Leaves :=
  {| PreparedLeaf := unit; manifest_descriptor_sha256 := λ _, []; manifest_parameter_count := λ _, 0;
     verify_leaf := λ _, inr tt; execute_leaf := λ _ _, inr [] |}.
#[local] Instance demo_digests : Digests :=
  {| sha256_hex := λ _, []; hash_bytes := λ _ _, []; specification_sha256_v6 := λ _, [] |}.
#[local] Instance demo_tables : UnicodeTables := {| non_ascii_alphanumeric := λ _, false |}.

(** The evaluator keeps the current policy; a [Store] has the value of its child. *)
#[local] Instance demo_host : GraphEvaluationHost :=
  {| Host := Policy; check_request_control := λ h, (h, inr tt); verify_admitted_runtime_context := λ _, inr tt;
     verify_backend := λ _ _, inr tt; native_leaf_lease := λ _ _, inr tt; authorize_autonomous_ephemeral_shim := λ _ _ _, inr tt;
     set_policy := λ policy h, (h, policy); eval_source_with_scope_until := λ source _ _ h, (h, inr source);
     execute_ready_plan_node := λ id _ f h, (h, f, frame_value f (S id)) |}.

(** Two workers; the last task that was submitted completes first. *)
#[local] Instance demo_driver : AttemptDriver :=
  {| Driver := list (nat * (Error + OValue)); available_slots := λ d, 2 - length d; outstanding := @length _;
     submit := λ token task d, ((token, execute_prepared task) :: d, inr tt);
     try_recv_event := λ d, match d with
                            | [] => ([], inr None)
                            | (token, r) :: d => (d, inr (Some (TaskCompletion token (Completed r))))
                            end;
     recv_event := λ d, match d with
                        | [] => ([], inl UnknownToken)
                        | (token, r) :: d => (d, inr (TaskCompletion token (Completed r)))
                        end;
     respond := λ _ _ d, (d, inr tt) |}.

(** [x = "a"] and two uses of [x]. *)
Definition loads_program : OIrProgram :=
  {| nodes := [Store (lit "x") (Text (lit "a")); Load (lit "x"); Load (lit "x")] |}.

Definition with_evidence (g : HGraph) : HGraph :=
  foldl (λ g e, match add_admission_evidence_input g e.1 e.2 with Ok (g, _) => g | _ => g end) g
    (id ← (map_to_list (op_map g)).*1; fact ← ADMISSION_FACTS; [(id, fact)]).

Definition admitted_graph : HGraph :=
  match build_program_with_plan (λ _ _, true) loads_program (plan loads_program) with
  | Ok g => with_evidence g
  | _ => empty_graph
  end.

Definition demo_contracts : gmap PlanNodeId DispatchContract :=
  let load := {| contract_lane := LocalWorker; contract_adapter := OScopeLoadV1; contract_failure_class := MayFailNoExternalEffects |} in
  {[ 0 := {| contract_lane := CoordinatorLane; contract_adapter := CoordinatorV1; contract_failure_class := UnknownFailure |};
     2 := load; 3 := load ]}.

Definition demo_new : outcome Message (ExecutionPlanIndex * list OIr * Coordinator) :=
  new (λ _ _, true) loads_program (plan loads_program) admitted_graph demo_contracts EagerPolicy.

Definition succeeds {E A} (r : outcome E A) : bool := match r with Ok _ => true | _ => false end.

Definition demo_run (index : ExecutionPlanIndex) (flat : list OIr) (c : Coordinator) :
    Machine * outcome Message (gmap str OValue * OValue) :=
  run_graph (plan loads_program) index flat admitted_graph 20 loads_program ∅ {| co := c; driver := Some []; host := EagerPolicy |}.

(** The second use of [x] completes before the first one and is settled after it. *)
Example demo_run_events :
  match demo_new with
  | Ok (index, flat, c) =>
      let '(m, r) := demo_run index flat c in
      succeeds r = true ∧ omap terminal (events (trace (co m))) = [1; 0; 2; 3]
  | _ => False
  end.
Proof. vm_compute. split; reflexivity. Qed.

Lemma demo_keeps_frame : FrameKeeping.
Proof. intros id oir f h h' f' r [= <- <- <-]. split; reflexivity. Qed.

Lemma graph_run_lifecycle_witness :
  match demo_new with
  | Ok (index, flat, c) =>
      let '(m, r) := demo_run index flat c in
      succeeds r = true ∧ complete_trace (co_ops c) (∃ v, r = Ok v) (events (trace (co m)))
  | _ => False
  end.
Proof.
  pose proof demo_run_events as Hr. assert (Hp : validate (plan loads_program) (length (nodes loads_program)) = Ok tt) by (vm_compute; reflexivity).
  destruct demo_new as [[[index flat] c]| | |] eqn:E; [|contradiction..].
  assert (Ht : let '(m, r) := demo_run index flat c in
    r ≠ Panic ∧ (r ≠ NoFuel → complete_trace (co_ops c) (∃ v, r = Ok v) (events (trace (co m))))).
  { exact (graph_run_lifecycle (λ _ _, true) loads_program (plan loads_program) admitted_graph demo_contracts EagerPolicy
      index flat c 20 ∅ (Some []) EagerPolicy demo_keeps_frame E Hp). }
  clear E. destruct (demo_run index flat c) as [m r]. destruct Hr as [Hs _]. split; [exact Hs|].
  apply Ht. intros ->. discriminate Hs.
Defined.
End Demo.
