(* ===== verification/Evaluator.v ===== *)
(** * The evaluator

    [execute_ready_plan_node] of [crates/ostadix-api/src/eval.rs]: how the evaluator runs
    one node of a plan.  Bindings, literals, uses, structural blocks and inline blocks
    are modelled as they are written; invocations, native leaves and the last step of
    lazy, nix and hosted blocks are services, which see of the frame only the inputs of
    their node.  [evaluator_host] is the evaluator as the host of a graph run. *)

From S2P Require Import Prelude.
From S2P Require Import BackendCatalog.
From S2P Require Import Ir.
From S2P Require Import ExecutionPlan.
From S2P Require Import DispatchModel.
From S2P Require Import HGraph.
From S2P Require Import ExecutionContract.
From S2P Require Import EvalFrame.
From S2P Require Import ParallelTasks.
From S2P Require Import Coordinator.
From S2P Require Import CoordinatorFacts.
From stdpp Require Import options.

#[local] Open Scope nat_scope.

(** ** State and services *)

(** The fields that running a node saves and restores, and the rest of the evaluator. *)
Record Evaluator (Rest : Type) : Type := {
  ev_policy : Policy;
  (** [self.forced_batch_failures]: member and message. *)
  ev_forced : list (nat * str);
  ev_rest : Rest;
}.
Arguments ev_policy {Rest} _.
Arguments ev_forced {Rest} _.
Arguments ev_rest {Rest} _.

(** What a node can see of the frame: the values of its sources in the plan, the scope
    of the document, the failed members and whether a plain bash block is still ahead. *)
Record NodeInputs `{OV : !OValues} : Type := {
  input_values : list (PlanNodeId * option OValue);
  input_scope : gmap str OValue;
  input_failed_members : gset PlanNodeId;
  input_bash_ahead : bool;
}.

(** A block whose text has been put together. *)
Record SplicedBlock `{OV : !OValues} : Type := {
  block_text : str;
  block_deps : list OValue;
  block_scope : gmap str OValue;
  block_authority : option str;
  block_permissions : list BackendAuthority;
}.

Class Services `{OV : !OValues, ER : !Errors, SH : !Shims, LV : !Leaves} : Type := {
  Rest : Type;
  request_control : Rest → Error + unit;
  runtime_context : Rest → Error + unit;
  backend_lease : Rest → str → Error + unit;
  leaf_lease : Rest → str → Error + PreparedLeaf;
  autonomous_runtime : Rest → BackendInterface → gmap str OValue → Error + EphemeralShimRuntime;
  eval_fragment : str → gmap str OValue → option Z → Evaluator Rest → Evaluator Rest * (Error + OValue);
  (** [backend_authorities.authorize(..).ok()]. *)
  authorize : Rest → OValue → str → list BackendAuthority → option str;
  (** [resolve_default_backend_authority]. *)
  default_authority : Rest → str → list BackendAuthority → Error + option str;
  (** [resolve_for_splice] of an evaluation request: forced when it is cacheable, refused otherwise. *)
  resolve_request : OValue → Evaluator Rest → Evaluator Rest * (Error + OValue);
  (** [validate_value] of the crossing contract, if there is one. *)
  validate_crossing : Rest → str → OValue → Error + unit;
  (** [OValue::Expr]. *)
  expr_value : str → OValue;
  (** Invocations and native leaves. *)
  execute_service : PlanNodeId → OIr → NodeInputs → Evaluator Rest → Evaluator Rest * (Error + OValue);
  (** The last step of lazy, nix and hosted blocks. *)
  execute_block : PlanNodeId → OIr → SplicedBlock → NodeInputs → Evaluator Rest → Evaluator Rest * (Error + OValue);
  (** The payload of a panic. *)
  panicked : Error;
}.

Section Evaluator.
Context `{OV : !OValues, ER : !Errors, SH : !Shims, LV : !Leaves, DG : !Digests, SV : !Services}.
Context (p : ExecutionPlan) (index : ExecutionPlanIndex).

Abbreviation Eval := (M (Evaluator Rest) Error).

Definition of_outcome {A} (r : outcome Error A) : Eval A := λ h, (h, r).
Definition of_service {A} (f : Evaluator Rest → Evaluator Rest * (Error + A)) : Eval A := λ h,
  let '(h, r) := f h in (h, from_result r).

(** Every edge of the plan into the node. *)
Definition node_inputs (f : GraphEvalFrame) (id : PlanNodeId) : NodeInputs :=
  {| input_values := (λ q, (q, mjoin (values f !! q))) <$> preds p id;
     input_scope := base_scope f;
     input_failed_members := failed_batch_members f;
     input_bash_ahead := plain_bash_block_ahead p f id |}.

(** ** Nodes *)

(** The instruction of a scheduled child, by the rank of the child among its siblings. *)
Definition child_instruction (source_ids : list PlanNodeId) (children : list OIr) (id : PlanNodeId) :
    outcome Error (PlanNodeId * OIr) :=
  let+ source_index := index_or_panic (position id source_ids) in
  let+ child := index_or_panic (children !! source_index) in
  Ok (id, child).

Definition planned_children (parent : PlanNodeId) (children : list OIr) : outcome Error (list (PlanNodeId * OIr)) :=
  let+ scheduled := plan_result (index_child_schedule index parent) in
  if negb (bool_decide (length scheduled = length children)) then
    Err (anyhow (ScheduledChildren parent (length scheduled) (length children)))
  else map_outcome (child_instruction (merge_sort le scheduled) children) scheduled.

Definition is_store_node (q : PlanNodeId) : outcome Error bool :=
  let+ kind := plan_result (kind_at p q) in
  Ok match kind with PStore _ => true | _ => false end.

Definition execute_ready_load (name : str) (id : PlanNodeId) (f : GraphEvalFrame) : outcome Error OValue :=
  let+ sources := data_predecessors index id in
  let+ store_sources := filter_outcome is_store_node sources in
  match store_sources with
  | source :: _ => from_result (frame_value f source)
  | [] =>
      match base_scope f !! name with
      | Some v => Ok v
      | None => Err (anyhow (UndefinedVariable name))
      end
  end.

Definition execute_ready_store (expr : OIr) (id : PlanNodeId) (f : GraphEvalFrame) : outcome Error OValue :=
  let+ children := planned_children id [expr] in
  let+ child := index_or_panic (children !! 0) in
  from_result (frame_value f child.1).

(** *** Blocks *)

(** The value of an [O] block: the last child that is neither null nor whitespace. *)
Definition last_value (f : GraphEvalFrame) (last : OValue) (child : PlanNodeId * OIr) : outcome Error OValue :=
  let+ v := from_result (frame_value f child.1) in
  Ok (if is_null v || is_pure_whitespace_text child.2 then last else v).

(** [BackendSandboxPolicy::new] of the permissions of a block. *)
Definition sandbox_permissions (backend : BackendInterface) (options : BlockOptions) : list BackendAuthority :=
  let granted := (if bool_decide (execution backend = Shim) then [FileRead; FileWrite; Network; Process] else []) ++
                 required_authorities backend ++ permissions options in
  filter (λ a, a ∈ granted) [FileRead; FileWrite; Network; Process].

Definition resolve_backend_authority (language : str) (options : BlockOptions) (permissions : list BackendAuthority)
    (scope : gmap str OValue) (r : Rest) : Error + option str :=
  if bool_decide (permissions = []) then inr None
  else
    let granted :=
      match capability_binding options with
      | Some binding =>
          match scope !! binding with
          | Some capability => authorize r capability language permissions
          | None => None
          end
      | None => None
      end in
    match granted with
    | Some identity => inr (Some identity)
    | None => default_authority r language permissions
    end.

Definition resolve_for_splice (v : OValue) : Eval OValue :=
  if is_eval_request v then of_service (resolve_request v) else ret v.

(** One child of a block: the text, the dependencies and the scope so far. *)
Definition splice_child (backend : BackendInterface) (constructs_thunk : bool) (f : GraphEvalFrame)
    (acc : str * list OValue * gmap str OValue) (child : PlanNodeId * OIr) : Eval (str * list OValue * gmap str OValue) :=
  let '(buf, deps, scope) := acc in
  match child.2 with
  | Store name _ =>
      let* v := of_outcome (from_result (frame_value f child.1)) in
      ret (buf, deps, <[name := v]> scope)
  | Text text => ret (buf ++ text, deps, scope)
  | Load _ | Exec _ _ _ _ _ | Invoke _ _ _ | NativeLeaf _ _ _ _ _ =>
      let* raw := of_outcome (from_result (frame_value f child.1)) in
      let* resolved := resolve_for_splice raw in
      let* h := get in
      let* _ := of_outcome (if bool_decide (execution backend = Shim)
                            then from_result (validate_crossing (ev_rest h) (canonical backend) resolved) else Ok tt) in
      let rendered := render_with (renderer backend) resolved in
      let name := match child.2 with Load name => Some name | _ => None end in
      let* _ := of_outcome (from_result (refuse_nul_in_bash_splice (canonical backend) name rendered)) in
      ret (buf ++ rendered, if constructs_thunk then deps ++ [resolved] else deps, scope)
  end.

Fixpoint splice_children (backend : BackendInterface) (constructs_thunk : bool) (f : GraphEvalFrame)
    (acc : str * list OValue * gmap str OValue) (children : list (PlanNodeId * OIr)) : Eval (str * list OValue * gmap str OValue) :=
  match children with
  | [] => ret acc
  | child :: children =>
      let* acc := splice_child backend constructs_thunk f acc child in
      splice_children backend constructs_thunk f acc children
  end.

Definition inline_value (canonical : str) (buf : str) : outcome Error OValue :=
  if bool_decide (canonical = lit "html") then Ok (html_value buf)
  else if bool_decide (canonical ∈ [lit "markdown"; lit "text"; lit "latex"]) then Ok (str_ buf)
  else Err (anyhow (NoValueExecutor canonical)).

Definition structural_attributes (attr : option str) (canonical : str) : outcome Error unit :=
  if bool_decide (is_Some attr) then Err (anyhow (AttributesNotValid canonical)) else Ok tt.

(** Inline and hosted blocks. *)
Definition execute_spliced (id : PlanNodeId) (oir : OIr) (lang : str) (attr : option str) (backend : BackendInterface)
    (planned_body : list (PlanNodeId * OIr)) (f : GraphEvalFrame) : Eval OValue :=
  let* options := of_outcome (contract_result (parse_block_options attr lang)) in
  let permissions := sandbox_permissions backend options in
  let* authority_scope := of_outcome (scope_from_data_edges p index f id) in
  let* h := get in
  let* authority := of_outcome (from_result (resolve_backend_authority (canonical backend) options permissions authority_scope (ev_rest h))) in
  let constructs_thunk := bool_decide (canonical backend = lit "nix_expr") || bool_decide (is_Some (block_policy options)) in
  let* local_scope := of_outcome (exec_scope p index f id) in
  let* (spliced, scope) := splice_children backend constructs_thunk f ([], [], local_scope) planned_body in
  let '(buf, deps) := spliced in
  let block := {| block_text := buf; block_deps := deps; block_scope := scope;
                  block_authority := authority; block_permissions := permissions |} in
  if bool_decide (is_Some (block_policy options)) || bool_decide (canonical backend = lit "nix_expr")
     || negb (bool_decide (execution backend = InlineValue))
  then of_service (execute_block id oir block (node_inputs f id))
  else of_outcome (inline_value (canonical backend) buf).

Definition execute_ready_exec (id : PlanNodeId) (oir : OIr) (lang : str) (attr : option str) (backend : BackendInterface)
    (body : list OIr) (f : GraphEvalFrame) : Eval OValue :=
  if negb (bool_decide (backend = global_interface_for lang)) then fail (anyhow (InterfaceDiffers lang))
  else if bool_decide (execution backend = InlineAst) && bool_decide (canonical backend = lit "quote") then
    of_outcome (structural_attributes attr (canonical backend)) ;;* ret (expr_value (reconstruct_source body))
  else
    let* planned_body := of_outcome (planned_children id body) in
    if bool_decide (execution backend = InlineAst) && bool_decide (canonical backend = lit "O") then
      of_outcome (structural_attributes attr (canonical backend)) ;;*
      of_outcome (fold_outcome (last_value f) null_value planned_body)
    else if bool_decide (execution backend = InlineAst) then fail (anyhow (InlineWithoutExecutor (canonical backend)))
    else execute_spliced id oir lang attr backend planned_body f.

Definition execute_ready_plan_node_inner (id : PlanNodeId) (oir : OIr) (f : GraphEvalFrame) : Eval OValue :=
  match oir with
  | Store _ expr => of_outcome (execute_ready_store expr id f)
  | Text text => ret (str_ text)
  | Load name => of_outcome (execute_ready_load name id f)
  | Invoke _ _ _ | NativeLeaf _ _ _ _ _ => of_service (execute_service id oir (node_inputs f id))
  | Exec lang _ attr backend body => execute_ready_exec id oir lang attr backend body f
  end.

(** [std::mem::take] and [std::mem::replace] of the forced failures. *)
Definition set_forced (l : list (nat * str)) (h : Evaluator Rest) : Evaluator Rest :=
  {| ev_policy := ev_policy h; ev_forced := l; ev_rest := ev_rest h |}.

Definition extend_forced (id : PlanNodeId) (l : list (nat * str)) (f : GraphEvalFrame) : GraphEvalFrame :=
  {| values := values f; base_scope := base_scope f; node_policy := node_policy f;
     failed_batch_members := failed_batch_members f;
     forced_batch_failures := forced_batch_failures f ++
       ((λ failure, {| bf_node := id; bf_member := failure.1; bf_message := failure.2 |}) <$> l) |}.

Definition run_plan_node (id : PlanNodeId) (oir : OIr) (f : GraphEvalFrame) (h : Evaluator Rest) :
    Evaluator Rest * GraphEvalFrame * (Error + OValue) :=
  let '(h', outcome) := execute_ready_plan_node_inner id oir f (set_forced [] h) in
  let restored := set_forced (ev_forced h) h' in
  match outcome with
  | Ok v => (restored, extend_forced id (ev_forced h') f, inr v)
  | Err e => (restored, f, inl e)
  | Panic | NoFuel => (restored, f, inl panicked)
  end.

(** [impl GraphEvaluationHost for Evaluator]. *)
Definition evaluator_host : GraphEvaluationHost :=
  {| Host := Evaluator Rest;
     check_request_control := λ h, (h, request_control (ev_rest h));
     verify_admitted_runtime_context := λ h, runtime_context (ev_rest h);
     verify_backend := λ h, backend_lease (ev_rest h);
     native_leaf_lease := λ h, leaf_lease (ev_rest h);
     Coordinator.authorize_autonomous_ephemeral_shim := λ h, autonomous_runtime (ev_rest h);
     set_policy := λ policy h, (ev_policy h, {| ev_policy := policy; ev_forced := ev_forced h; ev_rest := ev_rest h |});
     eval_source_with_scope_until := eval_fragment;
     execute_ready_plan_node := run_plan_node |}.
End Evaluator.
