(* ===== verification/Serial.v ===== *)
(** * Serial execution of a plan

    [execute_plan_serial] of [crates/ostadix-api/src/eval.rs]: the reference that the
    graph coordinator is intended to match.  Every node of the plan runs on the
    evaluator, in the topological order of the plan.  The autonomous buffer, which is
    flushed after the commit under the autonomous policy, is left out, as it is in
    [run_graph]. *)

From S2P Require Import Prelude.
From S2P Require Import Utf8.
From S2P Require Import BackendCatalog.
From S2P Require Import Ir.
From S2P Require Import ExecutionPlan.
From S2P Require Import Effects.
From S2P Require Import DispatchModel.
From S2P Require Import HGraph.
From S2P Require Import ExecutionContract.
From S2P Require Import EvalFrame.
From S2P Require Import ParallelTasks.
From S2P Require Import Coordinator.
From stdpp Require Import options.

#[local] Open Scope nat_scope.

Section Serial.
Context `{OV : !OValues, ER : !Errors, SH : !Shims, LV : !Leaves, DG : !Digests, HO : !GraphEvaluationHost}.

(** The frame with its trace, and the evaluator. *)
Record SerialState : Type := { s_frame : GraphEvalFrame; s_trace : ExecutionTrace; s_host : Host }.

Definition on_frame (f : GraphEvalFrame → GraphEvalFrame) (s : SerialState) : SerialState :=
  {| s_frame := f (s_frame s); s_trace := s_trace s; s_host := s_host s |}.
Definition on_trace (f : ExecutionTrace → ExecutionTrace) (s : SerialState) : SerialState :=
  {| s_frame := s_frame s; s_trace := f (s_trace s); s_host := s_host s |}.

(** A call of a method of the evaluator. *)
Definition call {A} (f : Host → Host * A) : M SerialState Error A := λ s,
  let '(h, a) := f (s_host s) in ({| s_frame := s_frame s; s_trace := s_trace s; s_host := h |}, Ok a).

Definition check {A} (r : outcome Error A) : M SerialState Error A := λ s, (s, r).

Section Plan.
Context (p : ExecutionPlan) (index : ExecutionPlanIndex) (flat : list OIr) (g : HGraph).

(** The freshness check of opaque or deferred work. *)
Definition serial_verify (id : PlanNodeId) (oir : OIr) : M SerialState Error unit :=
  if is_shim_exec oir || match effect_summaries g !! id with Some s => unknown s | None => false end then
    let* s := get in
    check (from_result (verify_admitted_runtime_context (s_host s))) ;;*
    match oir with
    | Exec _ _ _ backend _ =>
        if bool_decide (execution backend = Shim) then check (from_result (verify_backend (s_host s) (canonical backend)))
        else ret tt
    | _ => ret tt
    end
  else ret tt.

Definition serial_execute (id : PlanNodeId) (oir : OIr) : M SerialState Error (Error + OValue) := λ s,
  let '(h, f, r) := execute_ready_plan_node id oir (s_frame s) (s_host s) in
  ({| s_frame := f; s_trace := s_trace s; s_host := h |}, Ok r).

(** [frame.forced_batch_failures] is moved into the trace. *)
Definition serial_take_forced (s : SerialState) : SerialState :=
  let f := s_frame s in
  {| s_frame := {| values := values f; base_scope := base_scope f; node_policy := node_policy f;
                   failed_batch_members := failed_batch_members f; forced_batch_failures := [] |};
     s_trace := foldl (λ t failure, trace_batch_member_failed failure t) (s_trace s) (forced_batch_failures f);
     s_host := s_host s |}.

(** The value of a node, traced and stored. *)
Definition serial_finish (id : PlanNodeId) (v : OValue) : M SerialState Error unit :=
  modify (on_trace (trace_finished id (type_name v) (trace_fingerprint v))) ;;*
  let* s := get in
  let* f := check (from_result (set_value id v (s_frame s))) in
  modify (on_frame (λ _, f)).

(** One turn of the loop. *)
Definition serial_node (id : PlanNodeId) : M SerialState Error unit :=
  let* control := call check_request_control in
  let* _ := check (from_result control) in
  let* oir := check (index_or_panic (flat !! id)) in
  serial_verify id oir ;;*
  modify (on_trace (trace_ready id)) ;;*
  modify (on_trace (trace_started id)) ;;*
  let* s := get in
  let* policy := check (index_or_panic (node_policy (s_frame s) !! id)) in
  let* saved := call (λ h, let '(saved, h) := set_policy policy h in (h, saved)) in
  let* r := serial_execute id oir in
  let* _ := call (λ h, let '(_, h) := set_policy saved h in (h, tt)) in
  match r with
  | inr v => modify serial_take_forced ;;* serial_finish id v
  | inl e =>
      let* s := get in
      let* (f, settled) :=
        check (settle_batch_member_failure p index id e (batch_member_error_is_absorbable e) (s_frame s)) in
      modify (on_frame (λ _, f)) ;;*
      match settled with
      | Some (failure, v) => modify (on_trace (trace_batch_member_failed failure)) ;;* serial_finish id v
      | None => modify (on_trace (trace_failed id (to_string e))) ;;* fail e
      end
  end.

Fixpoint serial_nodes (order : list PlanNodeId) : M SerialState Error unit :=
  match order with
  | [] => ret tt
  | id :: order => serial_node id ;;* serial_nodes order
  end.
End Plan.

Definition initial_frame (p : ExecutionPlan) (policies : list Policy) (scope : gmap str OValue) : GraphEvalFrame :=
  {| values := replicate (length (plan_nodes p)) None; base_scope := scope; node_policy := policies;
     failed_batch_members := ∅; forced_batch_failures := [] |}.

(** [execute_plan_serial]: the evaluator afterwards, and the scope with the document value. *)
Definition execute_plan_serial (prog : OIrProgram) (p : ExecutionPlan) (g : HGraph) (base_policy : Policy)
    (scope : gmap str OValue) (h : Host) : Host * outcome Error (gmap str OValue * OValue) :=
  let flat := flatten_for_plan prog in
  let prepared :=
    if negb (bool_decide (length flat = length (plan_nodes p))) then Err (anyhow FlattenCount)
    else
      let+ _ := contract_result (validate_execution_metadata flat) in
      let+ index := plan_result (index_new p) in
      let+ policies := derive_policy_contexts p index flat base_policy in
      Ok (index, policies) in
  match prepared with
  | Ok (index, policies) =>
      match serial_nodes p index flat g (idx_order index)
              {| s_frame := initial_frame p policies scope; s_trace := empty_trace; s_host := h |} with
      | (s, Ok _) => (s_host s, commit p prog scope (s_frame s))
      | (s, Err e) => (s_host s, Err e)
      | (s, Panic) => (s_host s, Panic)
      | (s, NoFuel) => (s_host s, NoFuel)
      end
  | Err e => (h, Err e)
  | Panic => (h, Panic)
  | NoFuel => (h, NoFuel)
  end.
End Serial.
