(* ===== verification/SerialFacts.v ===== *)
(** * Facts on tasks and on serial runs

    What a worker task depends on, when it can be prepared, and how the frame of a
    serial run grows. *)

From S2P Require Import Prelude.
From S2P Require Import BackendCatalog.
From S2P Require Import Ir.
From S2P Require Import ExecutionPlan.
From S2P Require Import Effects.
From S2P Require Import DispatchModel.
From S2P Require Import Topological.
From S2P Require Import PlanTheorems.
From S2P Require Import PlanSchedules.
From S2P Require Import HGraph.
From S2P Require Import EvalFrame.
From S2P Require Import ParallelTasks.
From S2P Require Import Coordinator.
From S2P Require Import CoordinatorFacts.
From S2P Require Import Serial.
From stdpp Require Import options.

#[local] Open Scope nat_scope.

(** ** Loops that agree *)

Section Extensional.
Context {E A B : Type}.

Lemma fold_outcome_ext (f f' : B → A → outcome E B) b l :
  (∀ b a, a ∈ l → f b a = f' b a) → fold_outcome f b l = fold_outcome f' b l.
Proof.
  revert b. induction l as [|a l IH]; intros b Hf; simpl; [done|]. rewrite (Hf b a) by (by left).
  destruct (f' b a); simpl; [|done..]. apply IH. intros b' a' Ha. apply Hf. by right.
Qed.

Lemma all_outcome_ext (f f' : A → outcome E bool) l : (∀ a, a ∈ l → f a = f' a) → all_outcome f l = all_outcome f' l.
Proof.
  induction l as [|a l IH]; intros Hf; simpl; [done|]. rewrite (Hf a) by (by left). rewrite IH; [done|].
  intros a' Ha. apply Hf. by right.
Qed.

Lemma fold_outcome_total (f : B → A → outcome E B) b l :
  (∀ b a, a ∈ l → ∃ b', f b a = Ok b') → ∃ b', fold_outcome f b l = Ok b'.
Proof.
  revert b. induction l as [|a l IH]; intros b Hf; simpl; [by exists b|]. destruct (Hf b a) as [b' ->]; [by left|]. simpl.
  apply IH. intros b'' a' Ha. apply Hf. by right.
Qed.
End Extensional.

(** ** Worker tasks *)

Section Tasks.
Context `{OV : !OValues, ER : !Errors, SH : !Shims, LV : !Leaves, DG : !Digests}.
Context (p : ExecutionPlan) (index : ExecutionPlanIndex).
Context (Hv : validate p (length (roots p)) = Ok tt) (Hx : index_new p = Ok index).

(** Two frames that a node cannot tell apart by the values of its inputs. *)
Definition same_inputs (id : PlanNodeId) (f f' : GraphEvalFrame) : Prop :=
  base_scope f = base_scope f' ∧ ∀ q, q ∈ preds p id → values f !! q = values f' !! q.

Section Agree.
Context (id : PlanNodeId) (Hid : id < length (plan_nodes p)) (f f' : GraphEvalFrame) (Hf : same_inputs id f f').

Lemma frame_value_agrees q : q ∈ preds p id → frame_value f q = frame_value f' q.
Proof using Hf. intros Hq. unfold frame_value. by rewrite (proj2 Hf q Hq). Qed.

Lemma binding_agrees scope q : q ∈ preds p id → insert_binding p f scope q = insert_binding p f' scope q.
Proof using Hf. intros Hq. unfold insert_binding. by rewrite (frame_value_agrees q Hq). Qed.

Lemma scope_agrees : scope_from_data_edges p index f id = scope_from_data_edges p index f' id.
Proof using Hv Hx Hid Hf.
  unfold scope_from_data_edges. destruct (data_query p index Hv Hx id Hid) as (l & -> & Hl). cbn [outcome_bind].
  rewrite (proj1 Hf). apply fold_outcome_ext. intros scope q Hq. by apply binding_agrees, Hl.
Qed.

Lemma pure_inputs_agree : render_inputs_pure p index f id = render_inputs_pure p index f' id.
Proof using Hv Hx Hid Hf.
  unfold render_inputs_pure. destruct (kind_query p id Hid) as [k ->]. cbn [outcome_bind].
  destruct (children_query p index Hv Hx id Hid) as (l & -> & Hl).
  assert (E : all_outcome (input_pure p f) l = all_outcome (input_pure p f') l).
  { apply all_outcome_ext. intros q Hq. unfold input_pure. by rewrite (frame_value_agrees q (Hl q Hq)). }
  by rewrite E.
Qed.

(** Loads and renderers are prepared from the inputs alone. *)
Lemma prepare_agrees adapter oir : adapter = OScopeLoadV1 ∨ adapter = TrustedInlineRendererV1 →
  prepare p index adapter f id oir None = prepare p index adapter f' id oir None.
Proof using Hv Hx Hid Hf.
  intros Ha. unfold prepare. destruct Ha as [-> | ->].
  - destruct oir; try done. cbn [outcome_bind build_task]. by rewrite scope_agrees.
  - destruct (renderer_inputs_statically_preparable oir) eqn:Hr; [|done]. destruct oir; try done. cbn [outcome_bind build_task].
    destruct (children_query p index Hv Hx id Hid) as (l & -> & Hl). cbn [plan_result outcome_bind].
    assert (E : fold_outcome (render_part p f) [] l = fold_outcome (render_part p f') [] l); [|by rewrite E].
    apply fold_outcome_ext. intros parts q Hq. unfold render_part. by rewrite (frame_value_agrees q (Hl q Hq)).
Qed.
End Agree.

(** The inputs of a node have values, those of literals are texts. *)
Definition inputs_available (id : PlanNodeId) (f : GraphEvalFrame) : Prop :=
  ∀ q, q ∈ preds p id → ∃ v, values f !! q = Some (Some v) ∧
    (kind_at p q = Ok PText → is_Some (text_of v)).

Lemma prepare_available id f adapter oir : id < length (plan_nodes p) → inputs_available id f →
  adapter = OScopeLoadV1 ∨ adapter = TrustedInlineRendererV1 → adapter_matches adapter p id oir = Ok true →
  ∃ task, prepare p index adapter f id oir None = Ok task ∧
    (adapter = TrustedInlineRendererV1 → ∃ v, execute_prepared task = inr v).
Proof using Hv Hx.
  intros Hid Hin Ha Hm. assert (Hval : ∀ q, q ∈ preds p id → ∃ v, frame_value f q = inr v ∧ (kind_at p q = Ok PText → is_Some (text_of v))).
  { intros q Hq. destruct (Hin q Hq) as (v & E & Ht). exists v. split; [|done]. unfold frame_value. by rewrite E. }
  destruct Ha as [-> | ->]; simpl in Hm; unfold prepare.
  - destruct oir; try done. cbn [outcome_bind build_task]. unfold scope_from_data_edges.
    destruct (data_query p index Hv Hx id Hid) as (l & -> & Hl). cbn [outcome_bind].
    destruct (fold_outcome_total (insert_binding p f) (base_scope f) l) as [scope ->]; [|by eexists].
    intros scope q Hq. unfold insert_binding. destruct (kind_query p q) as [k ->]; [by eapply preds_bound, Hl|]. cbn [outcome_bind].
    destruct (Hval q (Hl q Hq)) as (v & -> & _). destruct k; by eexists.
  - apply Ok_inj in Hm. rewrite Hm. destruct oir as [| | | | |lang env attr backend body]; try done. cbn [outcome_bind build_task].
    destruct (children_query p index Hv Hx id Hid) as (l & -> & Hl). cbn [plan_result outcome_bind].
    destruct (fold_outcome_total (render_part p f) [] l) as [parts ->].
    { intros parts q Hq. unfold render_part. destruct (Hval q (Hl q Hq)) as (v & -> & Ht).
      destruct (kind_query p q) as [k Hk]; [by eapply preds_bound, Hl|]. rewrite Hk. cbn [outcome_bind from_result].
      destruct k; try (by eexists). destruct Ht as [text ->]; [|by eexists]. by destruct (kind_at p q); simplify_eq/=. }
    cbn [outcome_bind]. eexists. split; [done|]. intros _. simpl. case_bool_decide; [by eexists|].
    rewrite bool_decide_eq_true_2; [by eexists|]. simpl in Hm. repeat (apply andb_true_iff in Hm as [Hm ?]).
    repeat match goal with H : bool_decide _ = true |- _ => apply bool_decide_eq_true in H end.
    unfold TRUSTED_INLINE in *. set_solver.
Qed.
End Tasks.

(** ** The evaluator that both executions use *)

Section Host.
Context `{OV : !OValues, ER : !Errors, SH : !Shims, LV : !Leaves, DG : !Digests, HO : !GraphEvaluationHost}.

Definition add_forced (l : list BatchMemberFailure) (f : GraphEvalFrame) : GraphEvalFrame :=
  {| values := values f; base_scope := base_scope f; node_policy := node_policy f;
     failed_batch_members := failed_batch_members f; forced_batch_failures := forced_batch_failures f ++ l |}.

(** Two frames that the execution of a node cannot tell apart. *)
Record indistinct (p : ExecutionPlan) (id : PlanNodeId) (f f' : GraphEvalFrame) : Prop := {
  ind_inputs : same_inputs p id f f';
  ind_policy : node_policy f = node_policy f';
  ind_members : failed_batch_members f = failed_batch_members f';
  ind_forced : forced_batch_failures f = forced_batch_failures f';
  ind_bash : plain_bash_block_ahead p f id = plain_bash_block_ahead p f' id;
}.

(** The sources of a node have values, literals the value of their text. *)
Definition inputs_ready (p : ExecutionPlan) (flat : list OIr) (id : PlanNodeId) (f : GraphEvalFrame) : Prop :=
  ∀ q, q ∈ preds p id → ∃ v, values f !! q = Some (Some v) ∧ ∀ t, flat !! q = Some (Text t) → v = str_ t.

(** What the comparison of the two executions needs of a host, and the evaluator
    provides: the request is not cancelled; policies are saved and restored; literals
    have their text; for a use or a trusted inline block, with inputs that are ready and
    are no requests, the host computes what the worker task computes; inline blocks never
    give a request; and the execution of a node reads from the frame the inputs of the
    node, the scope, the failed members and whether a plain bash block is still ahead,
    and writes only the forced failures of a success. *)
Class SerialHost (p : ExecutionPlan) (index : ExecutionPlanIndex) (flat : list OIr) : Prop := {
  sh_control h : check_request_control h = (h, inr tt);
  sh_policy policy h saved h' : set_policy policy h = (saved, h') → (set_policy saved h').2 = h;
  sh_text id t f h : flat !! id = Some (Text t) → execute_ready_plan_node id (Text t) f h = (h, f, inr (str_ t));
  sh_text_value t : text_of (str_ t) = Some t;
  sh_error_value t : is_eval_request (error_value t) = false;
  sh_worker id oir adapter f h task :
    adapter = OScopeLoadV1 ∨ adapter = TrustedInlineRendererV1 → flat !! id = Some oir →
    adapter_matches adapter p id oir = Ok true → inputs_ready p flat id f → render_inputs_pure p index f id = Ok true →
    prepare p index adapter f id oir None = Ok task →
    execute_ready_plan_node id oir f h = (h, f, execute_prepared task);
  sh_inline id oir f h h' f' v : flat !! id = Some oir → renderer_inputs_statically_preparable oir = true →
    execute_ready_plan_node id oir f h = (h', f', inr v) → is_eval_request v = false;
  sh_local id oir f f' h : flat !! id = Some oir → indistinct p id f f' → ∃ h' r forced,
    execute_ready_plan_node id oir f h = (h', add_forced forced f, r) ∧
    execute_ready_plan_node id oir f' h = (h', add_forced forced f', r) ∧
    match r with inl _ => forced = [] | inr _ => True end;
}.
End Host.

(** ** Steps of a serial run *)

Section Steps.
Context `{OV : !OValues, ER : !Errors, SH : !Shims, LV : !Leaves, DG : !Digests, HO : !GraphEvaluationHost}.
Context (p : ExecutionPlan) (index : ExecutionPlanIndex) (flat : list OIr) (g : HGraph).
Context (Hv : validate p (length (roots p)) = Ok tt) (Hx : index_new p = Ok index) {HS : SerialHost p index flat}.

Definition store (id : PlanNodeId) (v : OValue) (f : GraphEvalFrame) : GraphEvalFrame :=
  set_values (<[id := Some v]> (values f)) f.

Definition clear_forced (f : GraphEvalFrame) : GraphEvalFrame :=
  {| values := values f; base_scope := base_scope f; node_policy := node_policy f;
     failed_batch_members := failed_batch_members f; forced_batch_failures := [] |}.

(** The frame after the result of a node, and whether the run goes on. *)
Definition frame_settle (id : PlanNodeId) (r : Error + OValue) (f : GraphEvalFrame) : GraphEvalFrame * (Error + unit) :=
  match r with
  | inr v => (store id v (clear_forced f), inr tt)
  | inl e =>
      match settle_batch_member_failure p index id e (batch_member_error_is_absorbable e) f with
      | Ok (f', Some (_, v)) => (store id v f', inr tt)
      | Ok (f', None) => (f', inl e)
      | _ => (f, inl e)
      end
  end.

(** The end of [serial_node]. *)
Definition serial_settle (id : PlanNodeId) (r : Error + OValue) : M SerialState Error unit :=
  match r with
  | inr v => modify serial_take_forced ;;* serial_finish id v
  | inl e =>
      let* s := get in
      let* (f, settled) :=
        check (settle_batch_member_failure p index id e (batch_member_error_is_absorbable e) (s_frame s)) in
      modify (on_frame (λ _, f)) ;;*
      match settled with
      | Some (failure, v) => modify (on_trace (trace_batch_member_failed failure)) ;;* serial_finish id v
      | None => modify (on_trace (trace_failed id (to_string e))) ;;* fail e
      end
  end.

Lemma serial_settle_eq id r s : id < length (plan_nodes p) → length (values (s_frame s)) = length (plan_nodes p) →
  ∃ s', serial_settle id r s = (s', from_result (frame_settle id r (s_frame s)).2) ∧
    s_frame s' = (frame_settle id r (s_frame s)).1 ∧ s_host s' = s_host s.
Proof using Hv Hx.
  intros Hid Hlen. unfold serial_settle, frame_settle, serial_finish, set_value, store, bind, check, modify, get. destruct r as [e|v]; cbn beta iota.
  - destruct (settle_member_total p index Hv Hx id e (batch_member_error_is_absorbable e) (s_frame s) Hid) as (f' & r & -> & E & _).
    destruct r as [[failure v]|]; simpl; [|eexists; split; [reflexivity|done]].
    rewrite bool_decide_eq_true_2 by (rewrite E, Hlen; done). eexists. split; [reflexivity|done].
  - simpl. rewrite bool_decide_eq_true_2 by (by rewrite Hlen). eexists. split; [reflexivity|done].
Qed.

(** A node runs up to its result. *)
Lemma serial_node_eq id oir policy saved hp h f r s :
  flat !! id = Some oir → serial_verify g id oir s = (s, Ok tt) → node_policy (s_frame s) !! id = Some policy →
  set_policy policy (s_host s) = (saved, hp) → execute_ready_plan_node id oir (s_frame s) hp = (h, f, r) →
  ∃ t, serial_node p index flat g id s = serial_settle id r {| s_frame := f; s_trace := t; s_host := (set_policy saved h).2 |}.
Proof using HS.
  intros Ho Hver Hp Hset Hex. unfold serial_node, call, check, bind. rewrite sh_control.
  destruct s as [f0 t0 h0]. cbn [s_frame s_trace s_host] in *. cbn [from_result]. rewrite Ho. cbn [index_or_panic].
  rewrite Hver. cbn [modify on_trace s_frame s_trace s_host get]. rewrite Hp. cbn [index_or_panic]. rewrite Hset.
  unfold serial_execute. cbn [s_frame s_trace s_host]. rewrite Hex. cbn [s_frame s_trace s_host].
  destruct (set_policy saved h) as [x h']. cbn [snd]. eexists. done.
Qed.

(** *** How the frame grows *)

Lemma settled_member_value id e b f f' failure v :
  settle_batch_member_failure p index id e b f = Ok (f', Some (failure, v)) → v = error_value (chain_string e).
Proof.
  unfold settle_batch_member_failure. destruct (negb b); [done|]. destruct (batch_member_index p index id) as [[member|]| | |]; try done.
  simpl. intros [= _ _ <-]. done.
Qed.

Lemma frame_settle_spec id r f f' : id < length (plan_nodes p) →
  match r with inl _ => forced_batch_failures f = [] | inr _ => True end → frame_settle id r f = (f', inr tt) →
  base_scope f' = base_scope f ∧ node_policy f' = node_policy f ∧ forced_batch_failures f' = [] ∧
  ∃ v, values f' = <[id := Some v]> (values f) ∧ match r with inr v0 => v = v0 | inl _ => ∃ text, v = error_value text end.
Proof using Hv Hx.
  intros Hid Hforced. unfold frame_settle. destruct r as [e|v].
  - destruct (settle_member_frame p index Hv Hx id e (batch_member_error_is_absorbable e) f Hid) as (f1 & r & E & E1 & E2 & E3 & E4).
    rewrite E. destruct r as [[failure v]|]; [|done]. apply settled_member_value in E. intros [= <-]. simpl. rewrite E1, E2, E3, E4.
    split_and!; [done..|]. exists v. split; [done|]. by eexists.
  - intros [= <-]. simpl. split_and!; [done..|]. by exists v.
Qed.

(** The frame of a run. *)
Record framed (f : GraphEvalFrame) : Prop := {
  fr_values : length (values f) = length (plan_nodes p);
  fr_policies : length (node_policy f) = length (plan_nodes p);
  fr_forced : forced_batch_failures f = [];
}.

Lemma serial_verify_state id oir s : ∃ r, serial_verify g id oir s = (s, r) ∧ returned r.
Proof.
  unfold serial_verify, check, bind, get, ret. destruct (_ || _); [|by eexists]. simpl.
  destruct (verify_admitted_runtime_context (s_host s)); simpl; [by eexists|].
  destruct oir; simpl; try (by eexists). case_bool_decide; [|by eexists]. eexists. split; [done|]. apply returned_from.
Qed.

Lemma add_forced_nil f : add_forced [] f = f.
Proof. unfold add_forced. rewrite app_nil_r. by destruct f. Qed.

Lemma indistinct_refl id f : indistinct p id f f.
Proof. by constructor. Qed.

(** A node of the plan either stops at its freshness check or runs to its result. *)
Lemma serial_node_cases id oir s : flat !! id = Some oir → id < length (plan_nodes p) → framed (s_frame s) →
  (∃ s' e, serial_node p index flat g id s = (s', Err e) ∧ serial_verify g id oir s = (s, Err e) ∧ s_host s' = s_host s) ∨
  ∃ policy saved hp h forced r t, serial_verify g id oir s = (s, Ok tt) ∧ node_policy (s_frame s) !! id = Some policy ∧
    set_policy policy (s_host s) = (saved, hp) ∧
    execute_ready_plan_node id oir (s_frame s) hp = (h, add_forced forced (s_frame s), r) ∧
    match r with inl _ => forced = [] | inr _ => True end ∧
    serial_node p index flat g id s =
      serial_settle id r {| s_frame := add_forced forced (s_frame s); s_trace := t; s_host := (set_policy saved h).2 |}.
Proof using HS.
  intros Ho Hid [Hn Hp Hf]. destruct (serial_verify_state id oir s) as (r & Hver & Hr). destruct r as [[]|e| |]; try done.
  - right. destruct (lookup_lt_is_Some_2 (node_policy (s_frame s)) id) as [policy Hpol]; [by rewrite Hp|].
    destruct (set_policy policy (s_host s)) as [saved hp] eqn:Hset.
    destruct (sh_local id oir (s_frame s) (s_frame s) hp Ho (indistinct_refl id (s_frame s))) as (h & r & forced & Hex & _ & Hfor).
    destruct (serial_node_eq id oir policy saved hp h _ r s Ho Hver Hpol Hset Hex) as [t Ht].
    exists policy, saved, hp, h, forced, r, t. done.
  - left. exists s, e. split_and!; [|done..]. unfold serial_node, call, check, bind. rewrite sh_control.
    destruct s as [f0 t0 h0]. cbn [s_frame s_trace s_host] in *. cbn [from_result]. rewrite Ho. cbn [index_or_panic]. by rewrite Hver.
Qed.

Lemma serial_node_grows id oir s s' : flat !! id = Some oir → id < length (plan_nodes p) → framed (s_frame s) →
  serial_node p index flat g id s = (s', Ok tt) →
  framed (s_frame s') ∧ base_scope (s_frame s') = base_scope (s_frame s) ∧ node_policy (s_frame s') = node_policy (s_frame s) ∧
  ∃ v, values (s_frame s') = <[id := Some v]> (values (s_frame s)) ∧
    ((∃ text, v = error_value text) ∨ ∃ f h h' f', execute_ready_plan_node id oir f h = (h', f', inr v)).
Proof using Hv Hx HS.
  intros Ho Hid Hs H. destruct (serial_node_cases id oir s Ho Hid Hs) as [(s1 & e & E & _)|Hrun]; [congruence|].
  destruct Hrun as (policy & saved & hp & h & forced & r & t & _ & _ & _ & Hex & Hfor & E). rewrite E in H. clear E.
  destruct Hs as [Hn Hp Hf].
  destruct (serial_settle_eq id r {| s_frame := add_forced forced (s_frame s); s_trace := t; s_host := (set_policy saved h).2 |})
    as (s1 & E & Ef & _); [done|done|]. rewrite E in H. cbn [s_frame] in *. injection H as <- Hr.
  destruct (frame_settle id r (add_forced forced (s_frame s))) as [f1 [e|[]]] eqn:Efs; [done|]. simpl in Ef. rewrite Ef.
  apply frame_settle_spec in Efs as (E1 & E2 & E3 & v & E4 & Hval); [|done|].
  - split_and!; [|done|done|exists v; split; [done|destruct r; [by left|right; subst v; by do 4 eexists]]]. constructor; [by rewrite E4, length_insert|by rewrite E2|done].
  - destruct r; [|done]. subst forced. by rewrite add_forced_nil.
Qed.
End Steps.

(** ** Runs over an order *)

Section Order.
Context `{OV : !OValues, ER : !Errors, SH : !Shims, LV : !Leaves, DG : !Digests, HO : !GraphEvaluationHost}.
Context (p : ExecutionPlan) (index : ExecutionPlanIndex) (flat : list OIr) (g : HGraph).
Context (Hv : validate p (length (roots p)) = Ok tt) (Hx : index_new p = Ok index) {HS : SerialHost p index flat}.
Context (Hflat : length flat = length (plan_nodes p)).
Context (order : list PlanNodeId) (Hnd : NoDup order) (Hin : ∀ q, q ∈ order → q < length (plan_nodes p)).
Context (s0 : SerialState) (Hs0 : framed p (s_frame s0)) (Hnone : ∀ q, q ∈ order → values (s_frame s0) !! q = Some None).

Abbreviation run k := (serial_nodes p index flat g (take k order) s0).

Lemma serial_nodes_app l l' s :
  serial_nodes p index flat g (l ++ l') s = (serial_nodes p index flat g l ;;* serial_nodes p index flat g l') s.
Proof.
  revert s. induction l as [|id l IH]; intros s; simpl; [done|]. unfold bind in *.
  destruct (serial_node p index flat g id s) as [s' [[]| | |]]; try done.
Qed.

Lemma run_S k id : order !! k = Some id → run (S k) = (serial_nodes p index flat g (take k order) ;;* serial_node p index flat g id) s0.
Proof.
  intros Hk. rewrite (take_S_r _ _ _ Hk), serial_nodes_app. unfold bind. destruct (run k) as [s [[]| | |]]; try done. simpl.
  unfold bind. destruct (serial_node p index flat g id s) as [s' [[]| | |]]; done.
Qed.

Lemma run_step k id s : order !! k = Some id → run k = (s, Ok tt) → run (S k) = serial_node p index flat g id s.
Proof. intros Hk Hr. rewrite (run_S k id Hk). unfold bind. by rewrite Hr. Qed.

Lemma run_prefix k id s' : order !! k = Some id → run (S k) = (s', Ok tt) →
  ∃ s, run k = (s, Ok tt) ∧ serial_node p index flat g id s = (s', Ok tt).
Proof.
  intros Hk H. rewrite (run_S k id Hk) in H. unfold bind in H. destruct (run k) as [s [[]| | |]]; try done. by exists s.
Qed.

(** A step that fails decides the whole run. *)
Lemma run_fails k id s s' e : order !! k = Some id → run k = (s, Ok tt) → serial_node p index flat g id s = (s', Err e) →
  serial_nodes p index flat g order s0 = (s', Err e).
Proof.
  intros Hk Hr He. rewrite <-(take_drop (S k) order), serial_nodes_app. unfold bind. by rewrite (run_step k id s Hk Hr), He.
Qed.

(** The state of a run: processed nodes have values, the others have none. *)
Record reached (k : nat) (s : SerialState) : Prop := {
  re_framed : framed p (s_frame s);
  re_scope : base_scope (s_frame s) = base_scope (s_frame s0);
  re_policy : node_policy (s_frame s) = node_policy (s_frame s0);
  re_done : ∀ pos q, order !! pos = Some q → pos < k → ∃ v, values (s_frame s) !! q = Some (Some v);
  re_todo : ∀ pos q, order !! pos = Some q → k ≤ pos → values (s_frame s) !! q = Some None;
}.

Lemma run_reached k s : k ≤ length order → run k = (s, Ok tt) → reached k s.
Proof using Hv Hx HS Hflat Hnd Hin Hs0 Hnone.
  revert s. induction k as [|k IH]; intros s Hk Hr.
  - injection Hr as <-. constructor; try done; [lia|]. intros pos q Hq _. by eapply Hnone, list_elem_of_lookup_2.
  - destruct (lookup_lt_is_Some_2 order k) as [id Hid]; [lia|]. destruct (run_prefix k id s Hid Hr) as (s1 & Hr1 & Hstep).
    destruct (IH s1) as [H1 H2 H3 H4 H5]; [lia|done|]. assert (Hlt : id < length (plan_nodes p)) by (by eapply Hin, list_elem_of_lookup_2).
    destruct (lookup_lt_is_Some_2 flat id) as [oir Ho]; [by rewrite Hflat|].
    destruct (serial_node_grows p index flat g Hv Hx id oir s1 s Ho Hlt H1 Hstep) as (G1 & G2 & G3 & v & G4 & _).
    constructor; [done|congruence|congruence| |].
    + intros pos q Hq Hpos. rewrite G4. destruct (decide (pos = k)) as [-> |Hne].
      * simplify_eq. exists v. apply list_lookup_insert_eq. by rewrite (fr_values _ _ H1).
      * destruct (H4 pos q Hq) as [v' Hv']; [lia|]. exists v'. rewrite list_lookup_insert_ne; [done|]. intros ->.
        apply Hne. by eapply NoDup_lookup.
    + intros pos q Hq Hpos. rewrite G4, list_lookup_insert_ne; [apply (H5 pos q Hq); lia|]. intros ->.
      assert (pos = k) by (by eapply NoDup_lookup). lia.
Qed.

(** Processed values do not change. *)
Lemma run_persists k k' s s' pos q : k ≤ k' → k' ≤ length order → run k = (s, Ok tt) → run k' = (s', Ok tt) →
  order !! pos = Some q → pos < k → values (s_frame s') !! q = values (s_frame s) !! q.
Proof using Hv Hx HS Hflat Hnd Hin Hs0 Hnone.
  intros Hk Hk' Hr. revert s'. induction Hk as [|k' Hk IH]; intros s' Hr' Hq Hpos; [congruence|].
  destruct (lookup_lt_is_Some_2 order k') as [id Hid]; [lia|]. destruct (run_prefix k' id s' Hid Hr') as (s1 & Hr1 & Hstep).
  assert (Hlt : id < length (plan_nodes p)) by (by eapply Hin, list_elem_of_lookup_2).
  destruct (lookup_lt_is_Some_2 flat id) as [oir Ho]; [by rewrite Hflat|].
  destruct (run_reached k' s1) as [H1 _ _ _ _]; [lia|done|].
  destruct (serial_node_grows p index flat g Hv Hx id oir s1 s' Ho Hlt H1 Hstep) as (_ & _ & _ & v & G4 & _).
  rewrite G4, list_lookup_insert_ne; [apply IH; [lia|done..]|]. intros ->. assert (pos = k') by (by eapply NoDup_lookup). lia.
Qed.

(** Every prefix of a run that goes on has gone on. *)
Lemma run_earlier k k' s' : k ≤ k' → k' ≤ length order → run k' = (s', Ok tt) → ∃ s, run k = (s, Ok tt).
Proof.
  clear Hflat. intros Hk. revert s'. induction Hk as [|k' Hk IH]; intros s' Hk' Hr; [by exists s'|].
  destruct (lookup_lt_is_Some_2 order k') as [id Hid]; [lia|]. destruct (run_prefix k' id s' Hid Hr) as (s1 & Hr1 & _).
  apply (IH s1); [lia|done].
Qed.
End Order.
