(* ===== verification/GraphWiring.v ===== *)
(** * How the operations of an accepted graph are wired

    What the validation of a graph guarantees about the nodes that its operations
    consume and produce, for the operations of a coordinator that [new] has built. *)

From S2P Require Import Prelude.
From S2P Require Import BackendCatalog.
From S2P Require Import Ir.
From S2P Require Import ExecutionPlan.
From S2P Require Import Effects.
From S2P Require Import DispatchModel.
From S2P Require Import Topological.
From S2P Require Import PlanTheorems.
From S2P Require Import PlanSchedules.
From S2P Require Import HGraph.
From S2P Require Import HGraphValidate.
From S2P Require Import HGraphTheorems.
From S2P Require Import ReadySchedule.
From S2P Require Import ReadyTheorems.
From S2P Require Import ExecutionContract.
From S2P Require Import EvalFrame.
From S2P Require Import ParallelTasks.
From S2P Require Import Coordinator.
From S2P Require Import CoordinatorFacts.
From S2P Require Import CoordinatorSafety.
From S2P Require Import CoordinatorTheorems.
From stdpp Require Import options.

#[local] Open Scope nat_scope.

(** ** Operations of a validated graph *)

Section Validated.
Context `{DG : !Digests} (validate_descriptor : str → nat → bool) (g : HGraph).
Context (Hg : validate_execution_graph validate_descriptor g = Ok tt).

Lemma shapes_checked : validate_operation_shapes g = Ok tt.
Proof using Hg.
  pose proof Hg as H. unfold validate_execution_graph in H. peel H as u1 H1. peel H as u2 H2. by destruct u2.
Qed.

(** The checks of one operation. *)
Lemma operation_checked i info : op_map g !! i = Some info →
  ∃ edge, exec_edges g !! info_edge info = Some edge ∧ ports_of Output edge = outputs info ∧
    (∀ n, n ∈ inputs info → validate_input g info n = Ok tt) ∧
    (∀ n, n ∈ outputs info → h_state <$> g_nodes g !! n = Some Unresolved) ∧
    is_Some (effect_summaries g !! i).
Proof using Hg.
  intros Hi. pose proof shapes_checked as H. unfold validate_operation_shapes in H. peel H as [produced mapped] Hf. clear H.
  assert (Hin : (i, info) ∈ map_to_list (op_map g)) by (by apply elem_of_map_to_list).
  destruct (fold_all_in _ _ _ _ _ Hf Hin) as ([pb me] & acc' & H). unfold validate_operation in H.
  peel H as u1 Hkey. peel H as edge Hedge. peel H as u2 Hnew. peel H as u3 Hx. peel H as u4 Hports. peel H as u5 Hins.
  peel H as u6 Hv. peel H as u7 Hord. peel H as u8 Hc. peel H as produced' Hout. peel H as s Hs. clear H.
  exists edge. apply found_ok in Hedge, Hs. split; [done|]. split.
  { unfold validate_ports in Hports. peel Hports as u9 H9. peel Hports as u10 H10.
    apply require_ok, andb_true_iff in Hports as [_ H%bool_decide_eq_true]. done. }
  split; [intros n Hn; by eapply check_all_in|]. split; [|by rewrite Hs].
  intros n Hn. destruct (fold_all_in _ _ _ _ _ Hout Hn) as (c & c' & H). unfold validate_output in H. peel H as node Hnode.
  peel H as u9 H9. peel H as u10 H10. apply found_ok in Hnode. apply require_ok, bool_decide_eq_true in H10. by rewrite Hnode, <-H10.
Qed.

(** Every executable edge is the edge of an operation. *)
Lemma edge_operation e : is_Some (exec_edges g !! e) → ∃ i info, op_map g !! i = Some info ∧ info_edge info = e.
Proof using Hg.
  intros [edge He]. pose proof shapes_checked as H. unfold validate_operation_shapes in H. peel H as [produced mapped] Hf.
  peel H as u Hall. clear H.
  assert (Hm : ∀ x, x ∈ mapped → ∃ i info, op_map g !! i = Some info ∧ info_edge info = x).
  { change mapped with (produced, mapped).2. clear Hall.
    cut (∀ x, x ∈ (produced, mapped).2 → ∃ entry, entry ∈ map_to_list (op_map g) ∧ info_edge entry.2 = x).
    { intros Hc x Hx. destruct (Hc x Hx) as ([i info] & Hin & <-). exists i, info. by apply elem_of_map_to_list in Hin. }
    revert Hf. apply (fold_all_ind _ (λ done acc, ∀ x, x ∈ acc.2 → ∃ entry, entry ∈ done ∧ info_edge entry.2 = x)); [set_solver|].
    intros done [i info] c c' IH (_ & _ & E)%validate_operation_spec x. rewrite E. intros [->%elem_of_singleton|Hx]%elem_of_union.
    - exists (i, info). split; [set_solver|done].
    - destruct (IH x Hx) as (entry & ? & ?). exists entry. split; [set_solver|done]. }
  apply Hm. assert (Hin : e ∈ (map_to_list (exec_edges g)).*1).
  { apply list_elem_of_fmap. exists (e, edge). split; [done|]. by apply elem_of_map_to_list. }
  apply (check_all_in _ _ _ _ Hall) in Hin. by apply require_ok, bool_decide_eq_true in Hin.
Qed.

(** Every summary is that of an operation. *)
Lemma summary_operation i : is_Some (effect_summaries g !! i) → is_Some (op_map g !! i).
Proof using Hg.
  intros [e He]. pose proof shapes_checked as H. unfold validate_operation_shapes in H. peel H as [produced mapped] Hf.
  peel H as u1 H1. peel H as u2 H2. assert (Hin : i ∈ (map_to_list (effect_summaries g)).*1).
  { apply list_elem_of_fmap. exists (i, e). split; [done|]. by apply elem_of_map_to_list. }
  apply (check_all_in _ _ _ _ H) in Hin. by apply require_ok, bool_decide_eq_true in Hin.
Qed.

(** What an operation consumes is there from the start or produced by an operation. *)
Lemma input_source i info n : op_map g !! i = Some info → n ∈ inputs info →
  h_state <$> g_nodes g !! n = Some Materialized ∨ ∃ j info', op_map g !! j = Some info' ∧ n ∈ outputs info'.
Proof using Hg.
  intros Hi Hn. destruct (operation_checked i info Hi) as (_ & _ & _ & Hin & _). specialize (Hin n Hn). unfold validate_input in Hin.
  peel Hin as node Hnode. peel Hin as u H. apply found_ok in Hnode. apply require_ok, orb_true_iff in H as [H|H];
    apply bool_decide_eq_true in H; [left; by rewrite Hnode, <-H|right]. clear Hin u. destruct H as [e He].
  pose proof Hg as Hgraph. unfold validate_execution_graph in Hgraph. peel Hgraph as u1 H1. clear Hgraph.
  unfold validate_node_kinds in H1. peel H1 as u2 H2. clear H1.
  apply (check_all_in _ _ _ (n, node)) in H2; [|by apply elem_of_map_to_list]. unfold validate_node in H2.
  peel H2 as u3 H3. peel H2 as u4 H4. peel H2 as u5 H5. clear H2 H3 H4. rewrite He in H5. peel H5 as edge Hedge.
  apply found_ok in Hedge. apply require_ok in H5. destruct (edge_operation e) as (j & info' & Hj & E); [by rewrite Hedge|].
  exists j, info'. split; [done|]. destruct (operation_checked j info' Hj) as (edge' & Hedge' & <- & _).
  rewrite E, Hedge in Hedge'. injection Hedge' as <-. unfold has_port in H5. apply existsb_exists in H5 as (port & Hp & Hb).
  apply andb_true_iff in Hb as [Hb1%bool_decide_eq_true Hb2%bool_decide_eq_true]. unfold ports_of. apply list_elem_of_fmap.
  exists port. split; [done|]. apply list_elem_of_filter. split; [done|]. by apply list_elem_of_In.
Qed.

(** A node has one producer. *)
Lemma output_unique i j info info' n : op_map g !! i = Some info → op_map g !! j = Some info' →
  n ∈ outputs info → n ∈ outputs info' → i = j.
Proof using Hg.
  intros Hi Hj Hn Hn'. destruct (validated_inv _ _ _ Hg) as (Hsh & Hnd & _).
  destruct (sh_outputs _ _ _ (Hsh i info Hi) n Hn) as (node & Hnode & Hp).
  destruct (sh_outputs _ _ _ (Hsh j info' Hj) n Hn') as (node' & Hnode' & Hp').
  assert (info_edge info = info_edge info') as E by congruence.
  pose proof (edge_to_info_lookup g Hnd i info Hi) as H1. pose proof (edge_to_info_lookup g Hnd j info' Hj) as H2.
  assert (info = info') as <- by congruence. rewrite <-(sh_key _ _ _ (Hsh i info Hi)). by rewrite (sh_key _ _ _ (Hsh j info Hj)).
Qed.
End Validated.

(** ** The values that a plan node consumes *)

Lemma mapped_all_elem values ids ns q : mapped_all values ids = Ok ns → q ∈ ids → ∃ n, values !! q = Some n ∧ n ∈ ns.
Proof.
  revert ns. induction ids as [|id ids IH]; intros ns H Hq; [set_solver|]. simpl in H. peel H as n Hn. peel H as ns' Hns.
  injection H as <-. apply index_ok in Hn. apply elem_of_cons in Hq as [-> |Hq]; [exists n; split; [done|by left]|].
  destruct (IH ns' Hns Hq) as (n' & ? & ?). exists n'. split; [done|by right].
Qed.

Lemma value_inputs_subset g ns consumed n : value_inputs g ns = Ok consumed → n ∈ consumed → n ∈ ns.
Proof.
  revert consumed. induction ns as [|m ns IH]; intros consumed H Hn; simpl in H; [injection H as <-; set_solver|].
  peel H as node Hnode. peel H as rest Hrest. injection H as <-. destruct (is_value node); set_solver.
Qed.

Section Planned.
Context `{DG : !Digests} (validate_descriptor : str → nat → bool) (g : HGraph) (p : ExecutionPlan).
Context (Hvalid : validate_execution_plan validate_descriptor g p = Ok tt).

Lemma planned_graph : validate_execution_graph validate_descriptor g = Ok tt.
Proof using Hvalid. pose proof Hvalid as H. unfold validate_execution_plan in H. peel H as u Hg. by destruct u. Qed.

(** The value of every structural and data source of an operation is an input of it. *)
Lemma pred_input i info q : op_map g !! i = Some info → q ∈ preds p i →
  (∃ n, plan_nodes p !! q = Some n ∧ node_kind n = PText) ∨
  ∃ info', op_map g !! q = Some info' ∧ value_output info' ∈ inputs info ∧ value_output info' ∈ outputs info'.
Proof using Hvalid.
  intros Hi Hq. destruct (accepted_inv validate_descriptor g p Hvalid) as (Hp & Hsh & _ & Hs & _).
  destruct (source_checks validate_descriptor g p _ Hp Hs) as (x & values & initial & fr & Hx & _ & Hnode & _).
  pose proof (index_new_validates _ _ Hx) as Hv. destruct (index_spec p x Hv Hx) as (_ & Hinc & _).
  destruct (accepted_operations validate_descriptor g p Hvalid i) as [[Hop _] _]. destruct Hop as (n & Hn & Hex); [by rewrite Hi|].
  pose proof (Hnode n (list_elem_of_lookup_2 _ _ _ Hn)) as Hchk. pose proof (validate_identity _ _ _ _ Hv Hn) as Eid.
  assert (Hval : ∃ m, values !! q = Some m ∧ m ∈ inputs info).
  { unfold validate_plan_node in Hchk. peel Hchk as value Hvalue. unfold is_executable in Hex. apply bool_decide_eq_true in Hex as [op Hop].
    rewrite Hop, Eid in Hchk. peel Hchk as info' Hinfo. apply found_ok in Hinfo. rewrite Hi in Hinfo. injection Hinfo as <-.
    peel Hchk as u1 H1. peel Hchk as edge H2. peel Hchk as u2 H3. peel Hchk as derived H4. peel Hchk as actual H5. peel Hchk as u3 H6.
    peel Hchk as es Hes. peel Hchk as expected Hexp. peel Hchk as consumed Hcon.
    apply require_ok, bool_decide_eq_true in Hchk. unfold incoming in Hes.
    rewrite (proj1 (Hinc i (lookup_lt_Some _ _ _ Hn))) in Hes. injection Hes as <-.
    apply list_elem_of_fmap in Hq as (e & -> & [[Hto Hk] He]%list_elem_of_filter).
    destruct (mapped_all_elem values _ expected (edge_from e) Hexp) as (m & Hm & Hin).
    { apply list_elem_of_fmap_2, list_elem_of_filter. split; [unfold is_input_edge; destruct Hk as [-> | ->]; done|].
      by apply list_elem_of_filter. }
    exists m. split; [done|]. apply (value_inputs_subset g _ consumed); [done|]. rewrite Hchk. by apply elem_of_list_to_set. }
  destruct Hval as (m & Hm & Hin). pose proof (preds_bound p Hv i q Hq) as Hlt.
  apply lookup_lt_is_Some_2 in Hlt as [n' Hn']. pose proof (validate_identity _ _ _ _ Hv Hn') as Eid'.
  pose proof (validate_plan_node_spec validate_descriptor g x values n' (Hnode n' (list_elem_of_lookup_2 _ _ _ Hn'))) as Hspec.
  destruct (is_executable (node_kind n')) eqn:Hex'; rewrite Eid' in Hspec.
  - right. destruct Hspec as (info' & s & Hop' & Hvo & _). exists info'. rewrite Hm in Hvo. injection Hvo as ->.
    split_and!; [done..|]. apply (Hsh q info' Hop').
  - left. exists n'. split; [done|]. unfold is_executable in Hex'. destruct (node_kind n') as [| | | | | | | |lang env attr backend]; simpl in Hex'; try done.
    + by destruct kind.
    + by destruct (execution backend).
Qed.
End Planned.

(** ** The operations of a coordinator *)

Section Wired.
Context `{OV : !OValues, ER : !Errors, SH : !Shims, LV : !Leaves, DG : !Digests, UT : !UnicodeTables}.
Context (validate_descriptor : str → nat → bool).

(** A plan node is a literal or the node of an operation. *)
Record wired (prog : OIrProgram) (g : HGraph) (c : Coordinator) : Prop := {
  wi_inputs : ∀ i op n, co_ops c !! i = Some op → n ∈ op_inputs op →
    n ∈ materialized c ∨ ∃ j op', co_ops c !! j = Some op' ∧ n ∈ op_outputs op';
  wi_fresh : ∀ i op n, co_ops c !! i = Some op → n ∈ op_outputs op → n ∉ materialized c;
  wi_unique : ∀ i j op op' n, co_ops c !! i = Some op → co_ops c !! j = Some op' →
    n ∈ op_outputs op → n ∈ op_outputs op' → i = j;
  wi_preds : ∀ i op q, co_ops c !! i = Some op → q ∈ preds (plan prog) (op_plan_node op) →
    (∃ t, flatten_for_plan prog !! q = Some (Text t)) ∨
    ∃ j op', co_ops c !! j = Some op' ∧ op_plan_node op' = q ∧ op_value_output op' ∈ op_inputs op ∧
      op_value_output op' ∈ op_outputs op';
  wi_nodes : ∀ q oir, flatten_for_plan prog !! q = Some oir →
    (∃ t, oir = Text t) ∨ ∃ j op, co_ops c !! j = Some op ∧ op_plan_node op = q;
  wi_text : ∀ q t, flatten_for_plan prog !! q = Some (Text t) →
    effect_summaries g !! q = None ∧ ∀ j op, co_ops c !! j = Some op → op_plan_node op ≠ q;
  wi_effect : ∀ i op, co_ops c !! i = Some op → effect_summaries g !! op_plan_node op = Some (op_effect op);
  wi_values : values (frame c) = replicate (length (plan_nodes (plan prog))) None;
  wi_frame : forced_batch_failures (frame c) = [] ∧ failed_batch_members (frame c) = ∅ ∧ provisional_groups c = ∅ ∧
    failed_outputs c = ∅;
}.

(** The nodes of the plan of a program. *)
Lemma plan_node_kind prog q n : plan_nodes (plan prog) !! q = Some n → ∃ oir, flatten_for_plan prog !! q = Some oir ∧ node_kind n = plan_kind oir.
Proof.
  destruct (plan_built prog) as (_ & -> & _). rewrite list_lookup_imap. intros Hn.
  destruct (flatten_for_plan prog !! q) as [oir|]; [|done]. injection Hn as <-. by exists oir.
Qed.

Lemma text_kind oir : plan_kind oir = PText → ∃ t, oir = Text t.
Proof. destruct oir as [t| | |f mode args| |]; simpl; try done; [by exists t|]. destruct mode; try done. by repeat case_bool_decide. Qed.

#[local] Instance is_text_dec oir : Decision (∃ t, oir = Text t).
Proof. destruct oir as [t| | | | |]; [left; by exists t|right; by intros [? ?]..]. Defined.

Lemma executable_kind oir : ¬ (∃ t, oir = Text t) → is_executable (plan_kind oir) = true.
Proof.
  intros Hnt. unfold is_executable. apply bool_decide_eq_true.
  destruct (plan_kind oir) as [| | | | | | |f kind n|lang env attr backend] eqn:E; simpl; try (by eexists).
  - destruct Hnt. by apply text_kind.
  - destruct kind; by eexists.
  - destruct (execution backend); by eexists.
Qed.

Lemma new_operation g contracts s l i op : derive validate_descriptor g = Ok s → map_outcome (new_op g contracts) (ops s) = Ok l →
  l !! i = Some op → ∃ info, op_map g !! op_plan_node op = Some info ∧ op_inputs op = inputs info ∧ op_outputs op = outputs info ∧
    op_value_output op = value_output info ∧ effect_summaries g !! op_plan_node op = Some (op_effect op).
Proof.
  intros Hd Hl Hi. apply map_outcome_ok in Hl. destruct (Forall2_lookup_r _ _ _ _ _ Hl Hi) as (r & Hr & Ho).
  destruct (derive_op validate_descriptor g s r Hd (list_elem_of_lookup_2 _ _ _ Hr)) as (info & H1 & H2 & H3 & _ & H5).
  unfold new_op in Ho. destruct (effect_summaries g !! r_plan_node r) as [effect|] eqn:He; [|done].
  destruct (contracts !! r_plan_node r); [|done]. injection Ho as <-. exists info. simpl. split_and!; done.
Qed.

Lemma new_wired prog g contracts policy index flat c :
  new validate_descriptor prog (plan prog) g contracts policy = Ok (index, flat, c) → wired prog g c.
Proof.
  intros Hnew. pose proof (new_built _ _ _ _ _ _ _ _ _ Hnew) as Hb. pose proof (built_executable _ _ _ _ _ _ Hb) as Hexec.
  pose proof (@ops_nodup _ _ _ (built_ops _ _ _ _ _ _ Hb)) as Hnd. clear Hb.
  unfold new in Hnew. destruct (negb _); [done|].
  peel Hnew as u1 H1. peel Hnew as u2 Hsrc. peel Hnew as s Hs. peel Hnew as l Hl. peel Hnew as x Hx. peel Hnew as policies Hp.
  injection Hnew as <- <- <-. cbn [co_ops] in Hexec, Hnd.
  assert (Hplan : validate_execution_plan validate_descriptor g (plan prog) = Ok tt).
  { unfold graph_result in Hsrc. destruct (validate_execution_source _ _ _ _) as [?| | |] eqn:E; simplify_eq/=.
    unfold validate_execution_source in E. peel E as u3 E3. by destruct u3. }
  assert (Hd : derive validate_descriptor g = Ok s) by (unfold graph_result in Hs; by destruct (derive _ _); simplify_eq/=).
  pose proof (planned_graph _ _ _ Hplan) as Hg.
  pose proof (λ i op, new_operation g contracts s l i op Hd Hl) as Hop.
  assert (Hof : ∀ id info, op_map g !! id = Some info → ∃ j op, l !! j = Some op ∧ op_plan_node op = id ∧
    op_outputs op = outputs info ∧ op_value_output op = value_output info).
  { intros id info Hi. assert (Hin : id ∈ op_plan_node <$> l).
    { apply Hexec. apply (accepted_operations validate_descriptor g (plan prog) Hplan id). by rewrite Hi. }
    apply list_elem_of_fmap in Hin as (op & -> & [j Hj]%list_elem_of_lookup). exists j, op.
    destruct (Hop j op Hj) as (info' & Hi' & _ & ? & ? & _). rewrite Hi in Hi'. injection Hi' as <-. done. }
  assert (Hmat : ∀ n, n ∈ dom (filter (λ e : NodeId * HNode, h_state e.2 = Materialized) (g_nodes g)) ↔
    h_state <$> g_nodes g !! n = Some Materialized).
  { intros n. rewrite elem_of_dom. unfold is_Some. setoid_rewrite map_lookup_filter_Some. split.
    - intros (node & -> & E). simpl in *. by rewrite E.
    - intros E. destruct (g_nodes g !! n) as [node|]; [|done]. injection E as E. by exists node. }
  constructor; cbn [co_ops materialized frame values forced_batch_failures failed_batch_members provisional_groups failed_outputs].
  - intros i op n Hi Hn. destruct (Hop i op Hi) as (info & Hinfo & E & _). rewrite E in Hn.
    destruct (input_source validate_descriptor g Hg _ info n Hinfo Hn) as [?|(j & info' & Hj & Hn')]; [left; by apply Hmat|right].
    destruct (Hof j info' Hj) as (k & op' & Hk & _ & E' & _). exists k, op'. by rewrite E'.
  - intros i op n Hi Hn Hm%Hmat. destruct (Hop i op Hi) as (info & Hinfo & _ & E & _). rewrite E in Hn.
    destruct (operation_checked validate_descriptor g Hg _ info Hinfo) as (_ & _ & _ & _ & Hu & _). rewrite (Hu n Hn) in Hm. done.
  - intros i j op op' n Hi Hj Hn Hn'. destruct (Hop i op Hi) as (info & Hinfo & _ & E & _), (Hop j op' Hj) as (info' & Hinfo' & _ & E' & _).
    rewrite E in Hn. rewrite E' in Hn'. pose proof (output_unique validate_descriptor g Hg _ _ _ _ _ Hinfo Hinfo' Hn Hn') as Eid.
    apply (NoDup_lookup (op_plan_node <$> l) i j (op_plan_node op) Hnd); rewrite list_lookup_fmap; [by rewrite Hi|by rewrite Hj, Eid].
  - intros i op q Hi Hq. destruct (Hop i op Hi) as (info & Hinfo & E & _).
    destruct (pred_input validate_descriptor g (plan prog) Hplan _ info q Hinfo Hq) as [(n & Hn & Hk)|(info' & Hi' & Hin & Hout)].
    + left. destruct (plan_node_kind prog q n Hn) as (oir & Ho & Ek). rewrite Hk in Ek. destruct (text_kind oir (eq_sym Ek)) as [t ->]. by exists t.
    + right. destruct (Hof q info' Hi') as (j & op' & Hj & Eq & Eo & Ev). exists j, op'. by rewrite E, Eo, Ev.
  - intros q oir Ho. destruct (decide (∃ t, oir = Text t)) as [?|Hnt]; [by left|right].
    assert (Hin : q ∈ op_plan_node <$> l).
    { apply Hexec. exists (mk_node q oir). split; [|by apply executable_kind].
      destruct (plan_built prog) as (_ & -> & _). by rewrite list_lookup_imap, Ho. }
    apply list_elem_of_fmap in Hin as (op & -> & [j Hj]%list_elem_of_lookup). by exists j, op.
  - intros q t Ho. assert (Hno : q ∉ op_plan_node <$> l).
    { intros (n & Hn & Hex)%Hexec. destruct (plan_node_kind prog q n Hn) as (oir & Ho' & Ek). rewrite Ho in Ho'. injection Ho' as <-.
      by rewrite Ek in Hex. }
    split; [|intros j op Hj <-; apply Hno, list_elem_of_fmap_2; by eapply list_elem_of_lookup_2].
    destruct (effect_summaries g !! q) as [e|] eqn:He; [|done]. destruct Hno.
    destruct (summary_operation validate_descriptor g Hg q) as [info Hi]; [by rewrite He|].
    destruct (Hof q info Hi) as (j & op & Hj & <- & _). apply list_elem_of_fmap_2. by eapply list_elem_of_lookup_2.
  - intros i op Hi. by destruct (Hop i op Hi) as (_ & _ & _ & _ & _ & ?).
  - done.
  - done.
Qed.
End Wired.
