(* ===== verification/EvaluatorFacts.v ===== *)
(** * What the evaluator promises to the comparison

    Running a node depends on its inputs alone, and for uses and trusted inline blocks
    the evaluator computes what a worker task computes: [evaluator_serial] discharges the
    interface [SerialHost] for the evaluator of [Evaluator.v]. *)

From S2P Require Import Prelude.
From S2P Require Import BackendCatalog.
From S2P Require Import Syntax.
From S2P Require Import Ir.
From S2P Require Import ExecutionPlan.
From S2P Require Import Effects.
From S2P Require Import DispatchModel.
From S2P Require Import Topological.
From S2P Require Import PlanTheorems.
From S2P Require Import PlanSchedules.
From S2P Require Import PlanData.
From S2P Require Import HGraph.
From S2P Require Import ExecutionContract.
From S2P Require Import ContractTheorems.
From S2P Require Import EvalFrame.
From S2P Require Import ParallelTasks.
From S2P Require Import Coordinator.
From S2P Require Import CoordinatorFacts.
From S2P Require Import CoordinatorDrive.
From S2P Require Import Evaluator.
From S2P Require Import Serial.
From S2P Require Import SerialFacts.
From S2P Require Import GraphWiring.
From stdpp Require Import options.

#[local] Open Scope nat_scope.

(** ** Siblings *)

Lemma child_ids_sorted ns k : Sorted le (child_ids ns k).
Proof.
  revert k. induction ns as [|n ns IH]; intros k; simpl; constructor; [apply IH|].
  pose proof (plan_size_pos n). destruct ns; simpl; constructor. lia.
Qed.

Lemma merge_sort_sorted (l : list nat) : Sorted le l → merge_sort le l = l.
Proof.
  intros Hl. apply (Sorted_unique le); [apply Sorted_merge_sort; intros x y; lia|done|apply merge_sort_Permutation].
Qed.

Lemma position_here (l1 l2 : list PlanNodeId) x : x ∉ l1 → position x (l1 ++ x :: l2) = Some (length l1).
Proof.
  intros Hx. unfold position. assert (E : list_find (x =.) (l1 ++ x :: l2) = Some (length l1, x)); [|by rewrite E].
  apply list_find_Some. split_and!; [by rewrite lookup_app_r, Nat.sub_diag by lia|done|].
  intros j y Hy Hlt <-. apply Hx. rewrite lookup_app_l in Hy by done. by eapply list_elem_of_lookup_2.
Qed.

Section Children.
Context `{OV : !OValues, ER : !Errors}.

Lemma children_zip ids body : NoDup ids → length ids = length body →
  map_outcome (child_instruction ids body) ids = Ok (zip ids body).
Proof.
  intros Hnd Hlen.
  assert (Hgen : ∀ l2 b2 l1 b1, ids = l1 ++ l2 → body = b1 ++ b2 → length l1 = length b1 → length l2 = length b2 →
    map_outcome (child_instruction ids body) l2 = Ok (zip l2 b2)).
  { induction l2 as [|x l2 IH]; intros [|y b2] l1 b1 E1 E2 Hl1 Hl2; try done. cbn [map_outcome zip zip_with].
    unfold child_instruction at 1. rewrite E1 at 1. rewrite position_here.
    - simpl. rewrite E2 at 1. rewrite Hl1, lookup_app_r, Nat.sub_diag by lia. simpl.
      rewrite (IH b2 (l1 ++ [x]) (b1 ++ [y])); [done|by rewrite <-app_assoc|by rewrite <-app_assoc|rewrite !length_app; simpl; lia|by injection Hl2].
    - rewrite E1 in Hnd. apply NoDup_app in Hnd as (_ & Hd & _). intros Hx. apply (Hd x Hx). by left. }
  by apply (Hgen ids body [] []).
Qed.
End Children.

(** Trusted inline backends need no authority. *)
Lemma trusted_authorities `{DG : !Digests} lang : canonical (global_interface_for lang) ∈ TRUSTED_INLINE →
  execution (global_interface_for lang) = InlineValue → required_authorities (global_interface_for lang) = [].
Proof.
  unfold global_interface_for, interface_for, registry_canonical, global_specs. cbn [execution canonical required_authorities].
  destruct (registry_get (BACKEND_SPECS hash_bytes) lang) as [s|] eqn:E; simpl; [|done].
  apply registry_get_Some in E as [Hs _]. intros Hc _.
  assert (Hall : Forall (λ s, spec_name s ∈ TRUSTED_INLINE → spec_required_authorities s = []) (BACKEND_SPECS hash_bytes)).
  { repeat (constructor; [first [intros _; reflexivity | intros H; exfalso; revert H; apply (bool_decide_unpack _); vm_compute; exact I]|]). constructor. }
  rewrite Forall_forall in Hall. by apply (Hall s).
Qed.

Section Facts.
Context `{OV : !OValues, ER : !Errors, SH : !Shims, LV : !Leaves, DG : !Digests, UT : !UnicodeTables, SV : !Services}.
Context (prog : OIrProgram) (index : ExecutionPlanIndex).

Abbreviation p := (plan prog).
Abbreviation flat := (flatten_for_plan prog).

Context (Hx : index_new p = Ok index).

Lemma run_plan_valid : validate p (length (roots p)) = Ok tt.
Proof using Hx. by eapply index_new_validates. Qed.

Lemma flat_bound id oir : flat !! id = Some oir → id < length (plan_nodes p).
Proof. intros Ho. rewrite plan_nodes_length. by eapply lookup_lt_Some. Qed.

Lemma flat_kind id oir : flat !! id = Some oir → kind_at p id = Ok (plan_kind oir).
Proof.
  intros Ho. unfold kind_at. destruct (lookup_lt_is_Some_2 (plan_nodes p) id) as [n Hn]; [by eapply flat_bound|].
  rewrite Hn. destruct (plan_node_kind prog id n Hn) as (oir' & Ho' & ->). congruence.
Qed.

Lemma flat_children id oir : flat !! id = Some oir →
  index_child_schedule index id = Ok (child_ids (children_of oir) (S id)) ∧
  Forall2 (λ c child, flat !! c = Some child) (child_ids (children_of oir) (S id)) (children_of oir).
Proof using Hx.
  intros Ho. split; [|by apply children_at]. rewrite (proj1 (index_spec p index run_plan_valid Hx)). by apply plan_child_schedule.
Qed.

Lemma flat_children_preds id oir c : flat !! id = Some oir → c ∈ child_ids (children_of oir) (S id) → c ∈ preds p id.
Proof using Hx.
  intros Ho Hc. destruct (children_query p index run_plan_valid Hx id (flat_bound _ _ Ho)) as (l & E & Hl).
  rewrite (proj1 (flat_children id oir Ho)) in E. injection E as <-. by apply Hl.
Qed.

Lemma planned_eq id oir : flat !! id = Some oir →
  planned_children index id (children_of oir) = Ok (zip (child_ids (children_of oir) (S id)) (children_of oir)).
Proof using Hx.
  intros Ho. unfold planned_children. rewrite (proj1 (flat_children id oir Ho)). cbn [plan_result outcome_bind].
  rewrite child_ids_length, bool_decide_eq_true_2 by done. cbn [negb]. rewrite merge_sort_sorted by apply child_ids_sorted.
  apply children_zip; [apply child_ids_NoDup|apply child_ids_length].
Qed.

(** ** A node depends on its inputs alone *)

Section Agree.
Context (id : PlanNodeId) (oir : OIr) (Ho : flat !! id = Some oir).
Context (f f' : GraphEvalFrame) (Hf : indistinct p id f f').

Lemma inputs_same : node_inputs p f id = node_inputs p f' id.
Proof using Hf.
  unfold node_inputs. destruct Hf as [[E1 E2] _ E3 _ E4]. rewrite E1, E3, E4. f_equal.
  apply list_fmap_ext. intros i q Hq. by rewrite (E2 q) by (by eapply list_elem_of_lookup_2).
Qed.

Lemma value_same q : q ∈ preds p id → frame_value f q = frame_value f' q.
Proof using Hf. apply frame_value_agrees, Hf. Qed.

Lemma scope_same : scope_from_data_edges p index f id = scope_from_data_edges p index f' id.
Proof using Hx Ho Hf. apply scope_agrees; [apply run_plan_valid|done|by eapply flat_bound|apply Hf]. Qed.

Lemma exec_scope_same : exec_scope p index f id = exec_scope p index f' id.
Proof using Hx Ho Hf.
  unfold exec_scope. rewrite scope_same. destruct (scope_from_data_edges p index f' id) as [scope| | |]; try done. cbn [outcome_bind].
  destruct (structural_query p index run_plan_valid Hx id (flat_bound _ _ Ho)) as (l & -> & Hl). cbn [outcome_bind].
  assert (E : fold_outcome (insert_binding p f) scope l = fold_outcome (insert_binding p f') scope l); [|by rewrite E].
  apply fold_outcome_ext. intros b q Hq. apply (binding_agrees p id); [apply Hf|by apply Hl].
Qed.

Lemma splice_same backend thunk acc children : (∀ c, c ∈ children → c.1 ∈ preds p id) →
  ∀ h, splice_children backend thunk f acc children h = splice_children backend thunk f' acc children h.
Proof using Hf.
  revert acc. induction children as [|c children IH]; intros acc Hc h; [done|]. cbn [splice_children]. unfold bind.
  assert (E : splice_child backend thunk f acc c h = splice_child backend thunk f' acc c h).
  { unfold splice_child. destruct acc as [[buf deps] scope]. rewrite (value_same c.1) by (apply Hc; by left). done. }
  rewrite E. destruct (splice_child backend thunk f' acc c h) as [h' [acc'| | |]]; try done. apply IH. intros c' Hc'. apply Hc. by right.
Qed.

Lemma spliced_same lang attr backend children : (∀ c, c ∈ children → c.1 ∈ preds p id) →
  ∀ h, execute_spliced p index id oir lang attr backend children f h = execute_spliced p index id oir lang attr backend children f' h.
Proof using Hx Ho Hf.
  intros Hc h. unfold execute_spliced. rewrite scope_same, exec_scope_same, inputs_same. unfold bind, of_outcome, get.
  destruct (contract_result _) as [options| | |]; try done. destruct (scope_from_data_edges p index f' id) as [scope| | |]; try done.
  destruct (from_result _) as [authority| | |]; try done. destruct (exec_scope p index f' id) as [local| | |]; try done.
  by rewrite (splice_same _ _ _ _ Hc).
Qed.

Lemma inner_same h : execute_ready_plan_node_inner p index id oir f h = execute_ready_plan_node_inner p index id oir f' h.
Proof using Hx Ho Hf.
  pose proof (flat_children_preds id oir) as Hch. pose proof (planned_eq id oir Ho) as Hpl. pose proof spliced_same as Hsp.
  assert (Hin : ∀ c, c ∈ zip (child_ids (children_of oir) (S id)) (children_of oir) → c.1 ∈ preds p id).
  { intros [c o] Hc%elem_of_zip_l. by apply Hch. }
  unfold execute_ready_plan_node_inner. destruct oir as [t|name|name expr|fn mode args|kind interface prov desc args|lang env attr backend body].
  - done.
  - unfold execute_ready_load, of_outcome. f_equal. destruct (data_query p index run_plan_valid Hx id (flat_bound _ _ Ho)) as (l & -> & Hl). cbn [outcome_bind].
    rewrite (proj1 (ind_inputs _ _ _ _ Hf)). destruct (filter_outcome (is_store_node p) l) as [[|q r]| | |] eqn:E; try done. cbn [outcome_bind].
    rewrite (value_same q); [done|]. apply Hl. clear -E. revert q r E. induction l as [|x l IH]; intros q r E; simpl in E; [done|].
    destruct (is_store_node p x) as [b| | |]; try done. cbn [outcome_bind] in E. destruct (filter_outcome (is_store_node p) l) as [rest| | |]; try done.
    cbn [outcome_bind] in E. destruct b; [injection E as -> _; by left|]. right. by eapply IH.
  - unfold execute_ready_store, of_outcome. f_equal. change [expr] with (children_of (Store name expr)). rewrite Hpl. cbn [outcome_bind children_of child_ids zip zip_with index_or_panic lookup list_lookup fst].
    rewrite (value_same (S id)); [done|]. apply (Hin (S id, expr)). by left.
  - by rewrite inputs_same.
  - by rewrite inputs_same.
  - unfold execute_ready_exec. destruct (negb _); [done|].
    destruct (bool_decide (execution backend = InlineAst) && bool_decide (canonical backend = lit "quote")) eqn:Eq; [done|].
    assert (Hbody : children_of (Exec lang env attr backend body) = body) by (cbn [children_of is_quote_exec]; by rewrite Eq).
    rewrite Hbody in Hpl, Hin. unfold bind, of_outcome. rewrite Hpl.
    destruct (bool_decide (execution backend = InlineAst) && bool_decide (canonical backend = lit "O")).
    + destruct (structural_attributes _ _); try done. f_equal. apply fold_outcome_ext. intros v c Hc. unfold last_value.
      by rewrite (value_same c.1) by (by apply Hin).
    + destruct (bool_decide _); [done|]. by apply Hsp.
Qed.
End Agree.

Lemma set_forced_id (h : Evaluator Rest) : set_forced (ev_forced h) (set_forced [] h) = h.
Proof. by destruct h. Qed.

Lemma extend_forced_nil id (f : GraphEvalFrame) : extend_forced id [] f = f.
Proof. unfold extend_forced. simpl. rewrite app_nil_r. by destruct f. Qed.

(** A node that leaves the evaluator alone. *)
Lemma run_plan_node_eq id oir f h (r : Error + OValue) :
  execute_ready_plan_node_inner p index id oir f (set_forced [] h) = (set_forced [] h, from_result r) →
  run_plan_node p index id oir f h = (h, f, r).
Proof.
  intros E. unfold run_plan_node. rewrite E. destruct r as [e|v]; simpl; rewrite ?extend_forced_nil; by rewrite set_forced_id.
Qed.

Lemma run_plan_node_local id oir f f' h : flat !! id = Some oir → indistinct p id f f' → ∃ h' r forced,
  run_plan_node p index id oir f h = (h', add_forced forced f, r) ∧
  run_plan_node p index id oir f' h = (h', add_forced forced f', r) ∧
  match r with inl _ => forced = [] | inr _ => True end.
Proof using Hx.
  intros Ho Hf. unfold run_plan_node. rewrite <-(inner_same id oir Ho f f' Hf).
  destruct (execute_ready_plan_node_inner p index id oir f (set_forced [] h)) as [h' [v|e| |]].
  - eexists _, _, _. split; [done|]. split; [done|done].
  - eexists _, _, []. rewrite !add_forced_nil. done.
  - eexists _, _, []. rewrite !add_forced_nil. done.
  - eexists _, _, []. rewrite !add_forced_nil. done.
Qed.

(** ** Uses *)

(** The bindings among the sources of a use are the one that it reads. *)
Lemma load_sources id name : flat !! id = Some (Load name) → ∃ l s, data_predecessors index id = Ok l ∧
  ∀ q, q ∈ l → q = s ∧ kind_at p q = Ok (PStore name).
Proof using Hx.
  intros Ho. destruct (plan_data_edges prog id (Load name) Ho) as (env & qr & He & _ & Hr).
  unfold data_predecessors. destruct (index_spec p index run_plan_valid Hx) as (_ & Hi & _). rewrite (proj1 (Hi id (flat_bound _ _ Ho))).
  cbn [plan_result outcome_bind]. exists (merge_sort le (edge_from <$> filter (λ e, edge_kind e = Data) (filter (λ e, edge_to e = id) (edges p)))).
  exists (default 0 (env !! name)). split; [done|]. intros q Hq. rewrite merge_sort_Permutation in Hq.
  apply list_elem_of_fmap in Hq as ([u v kd] & -> & [Hd [Ht Hin]%list_elem_of_filter]%list_elem_of_filter). simpl in *. subst.
  apply Hr in Hin. simpl in Hin. rewrite Hin. split; [done|]. apply He in Hin as [[[expr Hs] _] _]. by rewrite (flat_kind _ _ Hs).
Qed.

Lemma load_agrees id name f task : flat !! id = Some (Load name) → prepare p index OScopeLoadV1 f id (Load name) None = Ok task →
  execute_ready_load p index name id f = from_result (execute_prepared task).
Proof using Hx.
  intros Ho Hp. destruct (load_sources id name Ho) as (l & s & E & Hl). unfold prepare in Hp. cbn [outcome_bind build_task] in Hp.
  unfold scope_from_data_edges in Hp. rewrite E in Hp. cbn [outcome_bind] in Hp. unfold execute_ready_load. rewrite E. cbn [outcome_bind].
  assert (Hall : ∀ l', (∀ q, q ∈ l' → q = s ∧ kind_at p q = Ok (PStore name)) → filter_outcome (is_store_node p) l' = Ok l').
  { induction l' as [|q l' IH]; intros Hl'; [done|]. simpl. unfold is_store_node at 1. rewrite (proj2 (Hl' q ltac:(by left))). simpl.
    rewrite IH; [done|]. intros q' Hq'. apply Hl'. by right. }
  rewrite (Hall l Hl). cbn [outcome_bind]. clear Hall E. destruct l as [|q l].
  { simpl in Hp. injection Hp as <-. simpl. by destruct (base_scope f !! name). }
  destruct (Hl q ltac:(by left)) as [-> Hk]. destruct (frame_value f s) as [e|v] eqn:Ev.
  { simpl in Hp. unfold insert_binding at 1 in Hp. rewrite Hk in Hp. simpl in Hp. by rewrite Ev in Hp. }
  assert (Hfold : ∀ l' scope, (∀ q, q ∈ l' → q = s ∧ kind_at p q = Ok (PStore name)) → l' ≠ [] ∨ scope !! name = Some v →
    ∃ scope', fold_outcome (insert_binding p f) scope l' = Ok scope' ∧ scope' !! name = Some v).
  { induction l' as [|q l' IH]; intros scope Hl' Hs; [exists scope; split; [done|by destruct Hs]|]. simpl. unfold insert_binding at 1.
    destruct (Hl' q ltac:(by left)) as [-> Hk']. rewrite Hk'. simpl. rewrite Ev. simpl. apply IH; [intros q Hq; apply Hl'; by right|].
    right. by rewrite lookup_insert_eq. }
  destruct (Hfold (s :: l) (base_scope f)) as (scope & Es & Hs); [done|by left|]. rewrite Es in Hp. simpl in Hp. injection Hp as <-.
  simpl. by rewrite Hs.
Qed.

(** ** Trusted inline blocks *)

(** Laws of values: texts, and the values that are no requests. *)
Class ValueLaws : Prop := {
  text_of_str t : text_of (str_ t) = Some t;
  str_is_value t : is_eval_request (str_ t) = false;
  html_is_value t : is_eval_request (html_value t) = false;
  error_is_value t : is_eval_request (error_value t) = false;
}.
Context {VL : ValueLaws}.

Lemma render_parts_snoc r parts part : render_parts r (parts ++ [part]) =
  render_parts r parts ++ match part with Verbatim text => text | Splice v => render_with r v end.
Proof. unfold render_parts. rewrite fmap_app, concat_app. simpl. by rewrite app_nil_r. Qed.

(** One child: the text that it adds is that of its part. *)
Lemma child_agrees backend f h c child parts parts' deps scope : execution backend ≠ Shim → canonical backend ≠ lit "bash" →
  flat !! c = Some child → (∃ v, values f !! c = Some (Some v) ∧ ∀ t, child = Text t → v = str_ t) → input_pure p f c = Ok true →
  render_part p f parts c = Ok parts' →
  ∃ scope', splice_child backend false f (render_parts (renderer backend) parts, deps, scope) (c, child) h =
    (h, Ok (render_parts (renderer backend) parts', deps, scope')).
Proof using VL.
  intros Hs Hb Hc (v & Ev & Ht) Hp Hr. assert (Efv : frame_value f c = inr v) by (unfold frame_value; by rewrite Ev).
  unfold render_part, input_pure, splice_child in *. cbn [fst snd]. rewrite (flat_kind c child Hc) in Hp, Hr. cbn [plan_result outcome_bind] in Hp, Hr.
  rewrite Efv in Hp, Hr |- *.
  assert (Hsplice : negb (is_eval_request v) = true → parts' = parts ++ [Splice v] → ∀ name, ∃ scope',
    (let* raw := of_outcome (from_result (inr (A := Error) v)) in let* resolved := resolve_for_splice raw in let* h := get in
     let* _ := of_outcome (if bool_decide (execution backend = Shim) then from_result (validate_crossing (ev_rest h) (canonical backend) resolved) else Ok tt) in
     let* _ := of_outcome (from_result (refuse_nul_in_bash_splice (canonical backend) name (render_with (renderer backend) resolved))) in
     ret (render_parts (renderer backend) parts ++ render_with (renderer backend) resolved, deps, scope)) h =
    (h, Ok (render_parts (renderer backend) parts', deps, scope'))).
  { intros Hn -> name. exists scope. apply negb_true_iff in Hn. unfold bind, of_outcome, resolve_for_splice, get, ret. simpl. rewrite Hn.
    rewrite (bool_decide_eq_false_2 _ Hs). unfold refuse_nul_in_bash_splice. rewrite (bool_decide_eq_false_2 _ Hb). simpl.
    by rewrite render_parts_snoc. }
  destruct child as [t|name|name expr|fn mode args|kind interface prov desc args|lang env attr b body]; cbn [plan_kind] in Hp, Hr.
  - rewrite (Ht t eq_refl) in Hr. simpl in Hr. rewrite text_of_str in Hr. injection Hr as <-. exists scope. unfold ret. by rewrite render_parts_snoc.
  - destruct (Hsplice) with (name := Some name) as [scope' E]; [simpl in *; congruence..|]. exists scope'. exact E.
  - injection Hr as <-. exists (<[name := v]> scope). unfold bind, of_outcome, ret. simpl. done.
  - destruct (Hsplice) with (name := @None str) as [scope' E]; [simpl in *; repeat case_match; congruence..|]. exists scope'. exact E.
  - destruct interface. destruct (Hsplice) with (name := @None str) as [scope' E]; [simpl in *; congruence..|]. exists scope'. exact E.
  - destruct (Hsplice) with (name := @None str) as [scope' E]; [simpl in *; congruence..|]. exists scope'. exact E.
Qed.

Lemma children_agree backend f h l body : execution backend ≠ Shim → canonical backend ≠ lit "bash" →
  Forall2 (λ c child, flat !! c = Some child) l body →
  (∀ c, c ∈ l → ∃ v, values f !! c = Some (Some v) ∧ ∀ t, flat !! c = Some (Text t) → v = str_ t) →
  all_outcome (input_pure p f) l = Ok true → ∀ parts parts' deps scope, fold_outcome (render_part p f) parts l = Ok parts' →
  ∃ scope', splice_children backend false f (render_parts (renderer backend) parts, deps, scope) (zip l body) h =
    (h, Ok (render_parts (renderer backend) parts', deps, scope')).
Proof using VL.
  intros Hs Hb Hl. induction Hl as [|c child l body Hc Hl IH]; intros run_plan_valid Hp parts parts' deps scope Hr.
  { injection Hr as <-. by exists scope. }
  simpl in Hp, Hr. destruct (input_pure p f c) as [[]| | |] eqn:Ep; try done. cbn [outcome_bind] in Hp.
  destruct (render_part p f parts c) as [parts1| | |] eqn:Er; try done. cbn [outcome_bind] in Hr.
  destruct (run_plan_valid c ltac:(by left)) as (v & Ev & Ht).
  destruct (child_agrees backend f h c child parts parts1 deps scope) as [scope1 E]; try done.
  { exists v. split; [done|]. intros t ->. by apply Ht. }
  destruct (IH (λ c Hc, run_plan_valid c (list_elem_of_further _ _ _ Hc)) Hp parts1 parts' deps scope1 Hr) as [scope2 E2].
  exists scope2. cbn [zip zip_with splice_children]. unfold bind. by rewrite E.
Qed.

Lemma no_attributes lang : parse_block_options None lang = inr no_options.
Proof. done. Qed.

(** The scopes of a node with ready inputs. *)
Lemma bindings_total f id l scope : inputs_ready p flat id f → (∀ q, q ∈ l → q ∈ preds p id) →
  ∃ scope', fold_outcome (insert_binding p f) scope l = Ok scope'.
Proof using Hx.
  intros Hin Hl. apply fold_outcome_total. intros scope' q Hq. unfold insert_binding.
  destruct (kind_query p q) as [k ->]; [by eapply preds_bound, Hl; [apply run_plan_valid|]|]. cbn [outcome_bind].
  destruct (Hin q (Hl q Hq)) as (v & E & _). unfold frame_value. rewrite E. destruct k; by eexists.
Qed.

Lemma scope_total f id : id < length (plan_nodes p) → inputs_ready p flat id f → ∃ scope, scope_from_data_edges p index f id = Ok scope.
Proof using Hx.
  intros Hid Hin. unfold scope_from_data_edges. destruct (data_query p index run_plan_valid Hx id Hid) as (l & -> & Hl). cbn [outcome_bind].
  by apply (bindings_total f id).
Qed.

Lemma exec_scope_total f id lang env attr backend body : flat !! id = Some (Exec lang env attr backend body) → canonical backend ≠ lit "bash" →
  inputs_ready p flat id f → ∃ scope, exec_scope p index f id = Ok scope.
Proof using Hx.
  intros Ho Hb Hin. pose proof (flat_bound _ _ Ho) as Hid. unfold exec_scope. destruct (scope_total f id Hid Hin) as [scope ->]. cbn [outcome_bind].
  destruct (structural_query p index run_plan_valid Hx id Hid) as (l & -> & Hl). cbn [outcome_bind].
  destruct (bindings_total f id l scope Hin Hl) as [scope' ->]. cbn [outcome_bind]. rewrite (flat_kind _ _ Ho). simpl.
  rewrite (bool_decide_eq_false_2 _ Hb). by eexists.
Qed.

(** What the static test says of a block. *)
Lemma preparable_block lang env attr backend body : renderer_inputs_statically_preparable (Exec lang env attr backend body) = true →
  attr = None ∧ execution backend = InlineValue ∧ canonical backend ∈ TRUSTED_INLINE.
Proof.
  simpl. rewrite !andb_true_iff, !bool_decide_eq_true. tauto.
Qed.

Lemma trusted_plain backend : canonical backend ∈ TRUSTED_INLINE → canonical backend ≠ lit "bash" ∧ canonical backend ≠ lit "nix_expr".
Proof. intros H. split; intros E; rewrite E in H; revert H; apply (bool_decide_unpack _); vm_compute; exact I. Qed.

Lemma genuine_interface lang env attr backend body : validate_execution_metadata flat = inr tt →
  Exec lang env attr backend body ∈ flat → backend = global_interface_for lang.
Proof.
  unfold validate_execution_metadata. intros Hm Hin. destruct (for_each_node validate_node_metadata flat) as [|[]] eqn:E; [done|].
  rewrite for_each_node_ok, Forall_forall in E. specialize (E _ Hin). simpl in E. unfold validate_exec_metadata in E.
  by destruct (bool_decide_reflect (backend = global_interface_for lang)).
Qed.

Lemma renderer_agrees id oir f h task : validate_execution_metadata flat = inr tt → flat !! id = Some oir →
  renderer_inputs_statically_preparable oir = true → inputs_ready p flat id f → render_inputs_pure p index f id = Ok true →
  prepare p index TrustedInlineRendererV1 f id oir None = Ok task →
  execute_ready_plan_node_inner p index id oir f h = (h, from_result (execute_prepared task)).
Proof using Hx VL.
  intros Hmeta Ho Hst Hin Hpure Hp. unfold prepare in Hp. rewrite Hst in Hp. destruct oir as [| | | | |lang env attr backend body]; try done.
  destruct (preparable_block _ _ _ _ _ Hst) as (-> & Hmode & Htrust). destruct (trusted_plain _ Htrust) as [Hbash Hnix].
  pose proof (genuine_interface _ _ _ _ _ Hmeta (list_elem_of_lookup_2 _ _ _ Ho)) as Hg.
  assert (Hbody : children_of (Exec lang env None backend body) = body) by (cbn [children_of is_quote_exec]; by rewrite Hmode).
  destruct (flat_children id _ Ho) as [Hch Hall]. pose proof (planned_eq id _ Ho) as Hpl. rewrite Hbody in *.
  cbn [outcome_bind build_task] in Hp. rewrite Hch in Hp. cbn [plan_result outcome_bind] in Hp.
  destruct (fold_outcome (render_part p f) [] (child_ids body (S id))) as [parts| | |] eqn:Ep; try done. injection Hp as <-.
  unfold render_inputs_pure in Hpure. rewrite (flat_kind _ _ Ho), Hch in Hpure. cbn [plan_result outcome_bind plan_kind] in Hpure.
  cbn [execute_ready_plan_node_inner]. unfold execute_ready_exec. rewrite bool_decide_eq_true_2 by done. rewrite Hmode. cbn [negb].
  rewrite !(bool_decide_eq_false_2 (InlineValue = InlineAst)) by done. cbn [andb]. unfold bind at 1, of_outcome at 1. rewrite Hpl.
  unfold execute_spliced. rewrite no_attributes.
  assert (Hperm : sandbox_permissions backend no_options = []).
  { unfold sandbox_permissions. rewrite Hmode, Hg, trusted_authorities by (by rewrite <-Hg). done. }
  destruct (scope_total f id (flat_bound _ _ Ho) Hin) as [scope ->].
  destruct (exec_scope_total f id lang env None backend body Ho Hbash Hin) as [local ->].
  unfold bind, of_outcome, get. cbn [contract_result]. cbv zeta. rewrite Hperm.
  change (resolve_backend_authority (canonical backend) no_options [] scope (ev_rest h)) with (inr (A := Error) (@None str)). cbn [from_result].
  rewrite (bool_decide_eq_false_2 _ Hnix). change (bool_decide (is_Some (block_policy no_options))) with false. cbn [orb].
  destruct (children_agree backend f h (child_ids body (S id)) body) with (parts := @nil RenderPart) (parts' := parts) (deps := @nil OValue) (scope := local)
    as [scope' E]; [by rewrite Hmode|done|done| |done|done|].
  { intros c Hc. apply Hin. eapply flat_children_preds; [exact Ho|]. by rewrite Hbody. }
  change (render_parts (renderer backend) []) with (@nil Z) in E. rewrite E. cbn beta iota. rewrite Hmode.
  rewrite bool_decide_eq_true_2 by done. cbn [negb]. unfold inline_value. simpl.
  case_bool_decide; [done|]. by case_bool_decide.
Qed.

(** An inline block gives a text or a document. *)
Lemma inline_is_value lang env attr backend body id f h h' v : renderer_inputs_statically_preparable (Exec lang env attr backend body) = true →
  execute_ready_plan_node_inner p index id (Exec lang env attr backend body) f h = (h', Ok v) → is_eval_request v = false.
Proof using VL.
  intros Hst. destruct (preparable_block _ _ _ _ _ Hst) as (-> & Hmode & Htrust). destruct (trusted_plain _ Htrust) as [_ Hnix].
  cbn [execute_ready_plan_node_inner]. unfold execute_ready_exec. rewrite Hmode. destruct (negb _); [done|].
  rewrite !(bool_decide_eq_false_2 (InlineValue = InlineAst)) by done. cbn [andb]. unfold bind at 1, of_outcome at 1.
  destruct (planned_children index id body) as [planned| | |]; try done. unfold execute_spliced. rewrite no_attributes.
  unfold bind, of_outcome, get. cbn [contract_result]. destruct (scope_from_data_edges p index f id) as [scope| | |]; try done.
  destruct (from_result _) as [authority| | |]; try done. destruct (exec_scope p index f id) as [local| | |]; try done.
  destruct (splice_children _ _ _ _ _ _) as [h1 [[[buf deps] scope']| | |]]; try done.
  change (bool_decide (is_Some (block_policy no_options))) with false. rewrite Hmode, (bool_decide_eq_false_2 _ Hnix). cbn [orb].
  rewrite bool_decide_eq_true_2 by done. cbn [negb].
  unfold inline_value. case_bool_decide; [intros [= _ <-]; apply html_is_value|]. case_bool_decide; [|done].
  intros [= _ <-]. apply str_is_value.
Qed.

(** ** The interface *)

#[local] Existing Instance evaluator_host.

(** The evaluator is a host for the comparison, when the request is not cancelled and the
    metadata of the program is accepted. *)
Lemma evaluator_serial : (∀ r, request_control r = inr tt) → validate_execution_metadata flat = inr tt →
  SerialHost (HO := evaluator_host p index) p index flat.
Proof using Hx VL.
  intros Hcontrol Hmeta. constructor.
  - intros h. simpl. by rewrite Hcontrol.
  - intros policy h saved h' [= <- <-]. by destruct h.
  - intros id t f h _. by apply run_plan_node_eq.
  - apply text_of_str.
  - apply error_is_value.
  - intros id oir adapter f h task Ha Ho Hm Hin Hpure Hp. apply run_plan_node_eq.
    destruct Ha as [-> | ->]; simpl in Hm; apply Ok_inj in Hm.
    + destruct oir as [|name| | | |]; try done. cbn [execute_ready_plan_node_inner]. unfold of_outcome. by rewrite (load_agrees id name f task Ho Hp).
    + by apply renderer_agrees.
  - intros id oir f h h' f' v Ho Hst Hrun. destruct oir as [| | | | |lang env attr backend body]; try done.
    simpl in Hrun. unfold run_plan_node in Hrun.
    destruct (execute_ready_plan_node_inner p index id _ f (set_forced [] h)) as [h1 [v1|e| |]] eqn:E; try done.
    injection Hrun as _ _ <-. by eapply inline_is_value.
  - intros id oir f f' h Ho Hf. by apply run_plan_node_local.
Qed.

Lemma evaluator_frames : FrameKeeping (HO := evaluator_host p index).
Proof.
  intros id oir f h h' f' r H. simpl in H. unfold run_plan_node in H.
  destruct (execute_ready_plan_node_inner p index id oir f (set_forced [] h)) as [h1 [v1|e| |]]; injection H as _ <- _; done.
Qed.
End Facts.
