(* ===== verification/SerialRefinement.v ===== *)
(** * The relation between the coordinator and serial execution

    For a program whose worker operations are variable loads and trusted inline
    renderers, the graph coordinator and [execute_plan_serial] give the same result:
    whatever order the workers finish in, however many operations are in flight, and
    however often a poll finds nothing. *)

From S2P Require Import Prelude.
From S2P Require Import BackendCatalog.
From S2P Require Import Ir.
From S2P Require Import ExecutionPlan.
From S2P Require Import Effects.
From S2P Require Import DispatchModel.
From S2P Require Import Topological.
From S2P Require Import PlanTheorems.
From S2P Require Import PlanSchedules.
From S2P Require Import DispatchTheorems.
From S2P Require Import HGraph.
From S2P Require Import HGraphValidate.
From S2P Require Import ReadySchedule.
From S2P Require Import ExecutionContract.
From S2P Require Import EvalFrame.
From S2P Require Import ParallelTasks.
From S2P Require Import Coordinator.
From S2P Require Import CoordinatorFacts.
From S2P Require Import CoordinatorSafety.
From S2P Require Import CoordinatorDrive.
From S2P Require Import CoordinatorTheorems.
From S2P Require Import GraphWiring.
From S2P Require Import EvaluatorFacts.
From S2P Require Import Serial.
From S2P Require Import SerialFacts.
From stdpp Require Import options.

#[local] Open Scope nat_scope.

(** ** Drivers

    A driver runs every task that it accepts, once, and delivers its result after
    finitely many polls; it accepts a task while it has free slots, and has some when
    nothing is outstanding. *)
Class LawfulDriver `{OV : !OValues, ER : !Errors, SH : !Shims, LV : !Leaves, DG : !Digests, AD : !AttemptDriver} : Type := {
  d_pending : Driver → gmap nat (Error + OValue);
  d_delay : Driver → nat;
  ld_outstanding d : outstanding d = size (d_pending d);
  ld_slots d : d_pending d = ∅ → 0 < available_slots d;
  ld_submit token task d : d_pending d !! token = None → 0 < available_slots d →
    ∃ d', submit token task d = (d', inr tt) ∧ d_pending d' = <[token := execute_prepared task]> (d_pending d) ∧
      available_slots d ≤ S (available_slots d');
  ld_poll d : ∃ d' event, try_recv_event d = (d', inr event) ∧
    match event with
    | None => d_pending d' = d_pending d ∧ (d_pending d ≠ ∅ → d_delay d' < d_delay d)
    | Some (TaskCompletion token r) => ∃ v, r = Completed v ∧ d_pending d !! token = Some v ∧ d_pending d' = delete token (d_pending d)
    | Some (EvalRequest _) => False
    end;
  ld_wait d : d_pending d ≠ ∅ → ∃ d' token v, recv_event d = (d', inr (TaskCompletion token (Completed v))) ∧
    d_pending d !! token = Some v ∧ d_pending d' = delete token (d_pending d);
}.

(** ** Computations with enough fuel

    A computation that waits for a driver is a function of its fuel.  [eventually] says
    that all large enough amounts give the same return, which satisfies a
    postcondition. *)

Section Eventually.
Context {St E : Type}.

Definition eventually {A} (x : nat → M St E A) (Q : A → St → Prop) (R : E → St → Prop) (s : St) : Prop :=
  ∃ bound s' r, (∀ fuel, bound ≤ fuel → x fuel s = (s', r)) ∧
    match r with Ok a => Q a s' | Err e => R e s' | _ => False end.

Lemma eventually_ret {A} (x : nat → M St E A) (Q : A → St → Prop) R a s s' :
  (∀ fuel, x fuel s = (s', Ok a)) → Q a s' → eventually x Q R s.
Proof. intros Hx HQ. exists 0, s', (Ok a). split; [|done]. intros fuel _. apply Hx. Qed.

Lemma eventually_fail {A} (x : nat → M St E A) (Q : A → St → Prop) (R : E → St → Prop) e s s' :
  (∀ fuel, x fuel s = (s', Err e)) → R e s' → eventually x Q R s.
Proof. intros Hx HR. exists 0, s', (Err e). split; [|done]. intros fuel _. apply Hx. Qed.

Lemma eventually_wp {A} (m : M St E A) Q R s : wp m Q R s → eventually (λ _, m) Q R s.
Proof. unfold wp. intros H. exists 0. destruct (m s) as [s' r] eqn:E'. exists s', r. split; [done|]. by destruct r. Qed.

Lemma eventually_bind {A B} (x : nat → M St E A) (k : nat → A → M St E B) Q R s :
  eventually x (λ a s', eventually (λ fuel, k fuel a) Q R s') R s → eventually (λ fuel, bind (x fuel) (k fuel)) Q R s.
Proof.
  intros (b1 & s1 & r1 & H1 & Hr). destruct r1 as [a|e| |]; try done.
  - destruct Hr as (b2 & s2 & r2 & H2 & Hr2). exists (b1 `max` b2), s2, r2. split; [|done]. intros fuel Hf. unfold bind.
    rewrite H1 by lia. apply H2. lia.
  - exists b1, s1, (Err e). split; [|done]. intros fuel Hf. unfold bind. by rewrite H1.
Qed.

Lemma eventually_mono {A} (x : nat → M St E A) (Q Q' : A → St → Prop) (R R' : E → St → Prop) s :
  eventually x Q R s → (∀ a s', Q a s' → Q' a s') → (∀ e s', R e s' → R' e s') → eventually x Q' R' s.
Proof. intros (b & s' & r & H & Hr) HQ HR. exists b, s', r. split; [done|]. destruct r; auto. Qed.

(** What is known of every return is known of this one. *)
Lemma eventually_safe {A} (x : nat → M St E A) (Q Q' : A → St → Prop) (R R' : E → St → Prop) s :
  eventually x Q R s → (∀ fuel, safe (x fuel) Q' R' s) → eventually x (λ a s', Q a s' ∧ Q' a s') (λ e s', R e s' ∧ R' e s') s.
Proof.
  intros (b & s' & r & H & Hr) Hs. exists b, s', r. split; [done|]. specialize (Hs b). unfold safe in Hs. rewrite H in Hs by done.
  by destruct r.
Qed.

Lemma eventually_eq {A} (x y : nat → M St E A) Q R s s' :
  (∀ fuel, x fuel s = y fuel s') → eventually y Q R s' → eventually x Q R s.
Proof. intros E' (b & s1 & r & H & Hr). exists b, s1, r. split; [|done]. intros fuel Hf. rewrite E'. by apply H. Qed.

(** A loop that spends one unit of fuel per turn. *)
Lemma eventually_loop {A} (x y : nat → M St E A) Q R s :
  (∀ fuel, x (S fuel) = y fuel) → eventually y Q R s → eventually x Q R s.
Proof.
  intros E' (b & s' & r & H & Hr). exists (S b), s', r. split; [|done]. intros [|fuel] Hf; [lia|]. rewrite E'. apply H. lia.
Qed.

Lemma wp_safe {A} (m : M St E A) (Q Q' : A → St → Prop) (R R' : E → St → Prop) s :
  wp m Q R s → safe m Q' R' s → wp m (λ a s', Q a s' ∧ Q' a s') (λ e s', R e s' ∧ R' e s') s.
Proof. unfold wp, safe. destruct (m s) as [s' [| | |]]; auto. Qed.
End Eventually.

(** ** The setting *)

Section Hypotheses.
Context `{OV : !OValues, ER : !Errors, SH : !Shims, LV : !Leaves, DG : !Digests, UT : !UnicodeTables, HO : !GraphEvaluationHost}.
Context (prog : OIrProgram) (g : HGraph) (index : ExecutionPlanIndex) (c0 : Coordinator).

Abbreviation p := (plan prog).
Abbreviation flat := (flatten_for_plan prog).
Abbreviation order := (idx_order index).

(** The ordinals number the topological order of the plan, as the lowering gives them,
    and dependencies follow it. *)
Record plan_ordered : Prop := {
  po_ordinal : ∀ i op, co_ops c0 !! i = Some op → order !! op_ordinal op = Some (op_plan_node op);
  po_depends : ∀ i j op op' n, co_ops c0 !! i = Some op → co_ops c0 !! j = Some op' →
    n ∈ op_outputs op → n ∈ op_inputs op' → op_ordinal op < op_ordinal op';
}.

(** Operations run on the coordinator thread, or are loads and renderers that admission
    gave to workers. *)
Record worker_contracts : Prop := {
  wc_lane : ∀ i op, co_ops c0 !! i = Some op → op_lane op = CoordinatorLane ∨ op_lane op = LocalWorker;
  wc_adapter : ∀ i op, co_ops c0 !! i = Some op → op_lane op = LocalWorker →
    (op_adapter op = OScopeLoadV1 ∧ op_failure_class op = MayFailNoExternalEffects) ∨
    (op_adapter op = TrustedInlineRendererV1 ∧ (op_failure_class op = NeverFails ∨ op_failure_class op = MayFailNoExternalEffects));
  wc_safe : ∀ i op oir, co_ops c0 !! i = Some op → op_lane op = LocalWorker → flat !! op_plan_node op = Some oir →
    effect_contract_worker_safe (op_effect op) oir = true ∧ adapter_matches (op_adapter op) p (op_plan_node op) oir = Ok true;
  wc_pure : ∀ i op, co_ops c0 !! i = Some op → op_failure_class op = NeverFails → is_verified_pure_infallible (op_effect op) = true;
}.

Context (s0 : SerialState).

(** The serial run starts with an empty frame. *)
Record serial_start : Prop := {
  ss_values : values (s_frame s0) = replicate (length (plan_nodes p)) None;
  ss_policies : length (node_policy (s_frame s0)) = length (plan_nodes p);
  ss_forced : forced_batch_failures (s_frame s0) = [];
}.

(** A coordinator for an admitted graph, and the start of a serial run of its plan. *)
Class Comparison : Prop := {
  cmp_built : built prog p g index flat c0;
  cmp_wired : wired prog g c0;
  cmp_ordered : plan_ordered;
  cmp_contracts : worker_contracts;
  cmp_start : serial_start;
}.
End Hypotheses.

Section Refinement.
Context `{OV : !OValues, ER : !Errors, SH : !Shims, LV : !Leaves, DG : !Digests, UT : !UnicodeTables}.
Context `{HO : !GraphEvaluationHost, AD : !AttemptDriver, LD : !LawfulDriver}.
Context {prog : OIrProgram} {g : HGraph} {index : ExecutionPlanIndex} {c0 : Coordinator} {s0 : SerialState}.

Abbreviation p := (plan prog).
Abbreviation flat := (flatten_for_plan prog).
Abbreviation order := (idx_order index).
Abbreviation run k := (serial_nodes p index flat g (take k order) s0).

Context {HS : SerialHost p index flat} {CMP : Comparison prog g index c0 s0}.

Abbreviation Hbuilt := (cmp_built prog g index c0 s0).
Abbreviation Hwired := (cmp_wired prog g index c0 s0).
Abbreviation Hord := (cmp_ordered prog g index c0 s0).
Abbreviation Hcon := (cmp_contracts prog g index c0 s0).
Abbreviation Hstart := (cmp_start prog g index c0 s0).

Lemma Hv : validate p (length (roots p)) = Ok tt. Proof using CMP. apply Hbuilt. Qed.
Lemma Hx : index_new p = Ok index. Proof using CMP. apply Hbuilt. Qed.
Lemma Hflat : length flat = length (plan_nodes p). Proof using CMP. apply Hbuilt. Qed.

Lemma order_spec : topological_order p = Ok order ∧ order ≡ₚ seq 0 (length (plan_nodes p)).
Proof using CMP.
  destruct (proj2 (index_new_spec p) Hv) as (x & Hx' & Ho & _). rewrite Hx in Hx'. injection Hx' as <-.
  split; [done|]. by destruct (topological_order_Ok p order (validated_bounds p Hv) Ho) as [? _].
Qed.

Lemma order_nodup : NoDup order.
Proof using CMP. rewrite (proj2 order_spec). apply NoDup_seq. Qed.

Lemma order_bound q : q ∈ order → q < length (plan_nodes p).
Proof using CMP. rewrite (proj2 order_spec), elem_of_seq. lia. Qed.

Lemma order_length : length order = length (plan_nodes p).
Proof using CMP. rewrite (proj2 order_spec). apply length_seq. Qed.

Lemma order_position q : q < length (plan_nodes p) → ∃ pos, order !! pos = Some q.
Proof using CMP.
  intros Hq. apply list_elem_of_lookup. rewrite (proj2 order_spec), elem_of_seq. lia.
Qed.

Lemma order_inj pos pos' q : order !! pos = Some q → order !! pos' = Some q → pos = pos'.
Proof using CMP. intros H H'. by eapply NoDup_lookup; [apply order_nodup|..]. Qed.

Lemma flat_lookup q : q < length (plan_nodes p) → ∃ oir, flat !! q = Some oir.
Proof using CMP. intros Hq. apply lookup_lt_is_Some_2. by rewrite Hflat. Qed.

(** The sources of a node precede it. *)
Lemma pred_before pos id q : order !! pos = Some id → q ∈ preds p id → ∃ pos', order !! pos' = Some q ∧ pos' < pos.
Proof using CMP.
  intros Hpos (e & -> & [[Hto _] He]%list_elem_of_filter)%list_elem_of_fmap.
  destruct (topological_order_Ok p order (validated_bounds p Hv) (proj1 order_spec)) as [_ Hg].
  destruct (Hg (take pos order) id (drop (S pos) order)) as [Hpre _]; [by rewrite take_drop_middle|].
  specialize (Hpre e He Hto). apply list_elem_of_lookup in Hpre as [pos' Hpos']. apply lookup_take_Some in Hpos'. by exists pos'.
Qed.

Lemma start_framed : framed p (s_frame s0).
Proof using CMP. destruct Hstart as [E1 E2 E3]. constructor; [by rewrite E1, length_replicate|done..]. Qed.

Lemma start_none q : q ∈ order → values (s_frame s0) !! q = Some None.
Proof using CMP. intros Hq%order_bound. rewrite (ss_values _ _ Hstart). by apply lookup_replicate_2. Qed.

Lemma run_framed k s : k ≤ length order → run k = (s, Ok tt) → reached p order s0 k s.
Proof using CMP HS.
  apply (run_reached p index flat g Hv Hx Hflat order order_nodup order_bound s0 start_framed start_none).
Qed.

Lemma run_keeps k k' s s' pos q : k ≤ k' → k' ≤ length order → run k = (s, Ok tt) → run k' = (s', Ok tt) →
  order !! pos = Some q → pos < k → values (s_frame s') !! q = values (s_frame s) !! q.
Proof using CMP HS.
  apply (run_persists p index flat g Hv Hx Hflat order order_nodup order_bound s0 start_framed start_none).
Qed.

Lemma clear_forced_id f : forced_batch_failures f = [] → clear_forced f = f.
Proof. destruct f. simpl. by intros ->. Qed.

(** *** Literals *)

Lemma text_step k q t s : order !! k = Some q → flat !! q = Some (Text t) → run k = (s, Ok tt) →
  ∃ s', run (S k) = (s', Ok tt) ∧ s_host s' = s_host s ∧ s_frame s' = store q (str_ t) (s_frame s).
Proof using CMP HS.
  intros Hk Ho Hr. destruct (run_framed k s) as [Hf _ _ _ _]; [by apply lookup_lt_Some in Hk; lia|done|].
  pose proof (order_bound q (list_elem_of_lookup_2 _ _ _ Hk)) as Hq. rewrite (run_step p index flat g order s0 k q s Hk Hr).
  destruct (lookup_lt_is_Some_2 (node_policy (s_frame s)) q) as [policy Hp]; [by rewrite (fr_policies _ _ Hf)|].
  destruct (set_policy policy (s_host s)) as [saved hp] eqn:Hset.
  destruct (serial_node_eq p index flat g q (Text t) policy saved hp hp (s_frame s) (inr (str_ t)) s) as [tr ->]; try done.
  - unfold serial_verify. cbn [is_shim_exec orb]. by rewrite (proj1 (wi_text _ _ _ Hwired q t Ho)).
  - by apply sh_text.
  - destruct (serial_settle_eq p index Hv Hx q (inr (str_ t)) {| s_frame := s_frame s; s_trace := tr; s_host := (set_policy saved hp).2 |})
      as (s' & -> & E & E'); [done|by apply Hf|]. exists s'. simpl in *. rewrite E, E', clear_forced_id by apply Hf.
    split_and!; [done|by eapply sh_policy|done].
Qed.

Lemma text_value q t pos k s : flat !! q = Some (Text t) → order !! pos = Some q → pos < k → k ≤ length order → run k = (s, Ok tt) →
  values (s_frame s) !! q = Some (Some (str_ t)).
Proof using CMP HS.
  intros Ho Hpos Hlt Hk Hr. destruct (run_earlier p index flat g order s0 pos k s) as [s1 Hr1]; [lia|done|done|].
  destruct (text_step pos q t s1 Hpos Ho Hr1) as (s2 & Hr2 & _ & E).
  rewrite (run_keeps (S pos) k s2 s pos q); [|lia|done|done|done|done|lia]. rewrite E. simpl. apply list_lookup_insert_eq.
  destruct (run_framed pos s1) as [Hf _ _ _ _]; [lia|done|]. rewrite (fr_values _ _ Hf). by eapply order_bound, list_elem_of_lookup_2.
Qed.

(** The sources of the next node are ready. *)
Lemma next_ready k id s : order !! k = Some id → run k = (s, Ok tt) → inputs_ready p flat id (s_frame s).
Proof using CMP HS.
  intros Hk Hr q Hq. destruct (pred_before k id q Hk Hq) as (pos & Hpos & Hlt).
  assert (Hle : k ≤ length order) by (apply lookup_lt_Some in Hk; lia).
  destruct (re_done _ _ _ _ _ (run_framed k s Hle Hr) pos q Hpos Hlt) as [v Ev]. exists v. split; [done|].
  intros t Ht. pose proof (text_value q t pos k s Ht Hpos Hlt Hle Hr). congruence.
Qed.

(** Where a value of the serial run comes from. *)
Lemma run_value pos q oir k s : flat !! q = Some oir → order !! pos = Some q → pos < k → k ≤ length order → run k = (s, Ok tt) →
  ∃ v, values (s_frame s) !! q = Some (Some v) ∧
    ((∃ text, v = error_value text) ∨ ∃ f h h' f', execute_ready_plan_node q oir f h = (h', f', inr v)).
Proof using CMP HS.
  intros Ho Hpos Hlt Hk Hr. destruct (run_earlier p index flat g order s0 (S pos) k s) as [s2 Hr2]; [lia|done|done|].
  destruct (run_prefix p index flat g order s0 pos q s2 Hpos Hr2) as (s1 & Hr1 & Hstep).
  destruct (run_framed pos s1) as [Hf _ _ _ _]; [lia|done|]. pose proof (order_bound q (list_elem_of_lookup_2 _ _ _ Hpos)) as Hq.
  destruct (serial_node_grows p index flat g Hv Hx q oir s1 s2 Ho Hq Hf Hstep) as (_ & _ & _ & v & Ev & Hcase).
  exists v. split; [|done]. rewrite (run_keeps (S pos) k s2 s pos q); [|lia|done|done|done|done|lia]. rewrite Ev.
  apply list_lookup_insert_eq. by rewrite (fr_values _ _ Hf).
Qed.

(** *** Worker operations *)

(** [r] is the result of the task of [op] in the serial run, if the run gets there; an
    operation that never fails has a value. *)
Definition answer (op : OpState) (r : Error + OValue) : Prop :=
  (op_failure_class op = NeverFails → ∃ v, r = inr v) ∧
  ∀ s oir, flat !! op_plan_node op = Some oir → run (op_ordinal op) = (s, Ok tt) →
    ∃ task, prepare p index (op_adapter op) (s_frame s) (op_plan_node op) oir None = Ok task ∧ execute_prepared task = r.

(** The adapters of worker operations. *)
Lemma worker_adapter i op : co_ops c0 !! i = Some op → op_lane op = LocalWorker →
  op_adapter op = OScopeLoadV1 ∨ op_adapter op = TrustedInlineRendererV1.
Proof using CMP. intros Hi Hl. destruct (wc_adapter _ _ Hcon i op Hi Hl) as [[? _]|[? _]]; auto. Qed.

Lemma adapter_shape adapter id oir : adapter = OScopeLoadV1 ∨ adapter = TrustedInlineRendererV1 → adapter_matches adapter p id oir = Ok true →
  (∃ name, oir = Load name) ∨ ∃ l env attr backend body, oir = Exec l env attr backend body ∧ execution backend ≠ Shim.
Proof.
  intros [-> | ->] Hm; simpl in Hm; apply Ok_inj in Hm; destruct oir as [| | | | |l env attr backend body]; try done; [left; eauto|right].
  exists l, env, attr, backend, body. split; [done|]. simpl in Hm. intros E. rewrite E in Hm. simpl in Hm. by rewrite !andb_false_r in Hm.
Qed.

Lemma worker_verified i op oir s : co_ops c0 !! i = Some op → op_lane op = LocalWorker → flat !! op_plan_node op = Some oir →
  serial_verify g (op_plan_node op) oir s = (s, Ok tt).
Proof using CMP.
  intros Hi Hl Ho. destruct (wc_safe _ _ Hcon i op oir Hi Hl Ho) as [Hs Hm]. unfold serial_verify.
  rewrite (wi_effect _ _ _ Hwired i op Hi).
  assert (unknown (op_effect op) = false ∧ is_shim_exec oir = false) as [-> ->]; [|done].
  destruct (adapter_shape _ _ _ (worker_adapter i op Hi Hl) Hm) as [[name ->]|(l & env & attr & backend & body & -> & Hb)];
    simpl in Hs |- *.
  - split; [|done]. by destruct (unknown (op_effect op)); [rewrite !andb_false_r in Hs|].
  - rewrite (bool_decide_eq_false_2 _ Hb) in *. split; [|done]. rewrite andb_false_r in Hs. unfold is_verified_pure_infallible in Hs.
    by destruct (unknown (op_effect op)); [rewrite !andb_false_r in Hs|].
Qed.

Lemma op_position i op : co_ops c0 !! i = Some op → order !! op_ordinal op = Some (op_plan_node op) ∧ op_plan_node op < length (plan_nodes p).
Proof using CMP. intros Hi. pose proof (po_ordinal _ _ Hord i op Hi) as H. split; [done|]. by eapply order_bound, list_elem_of_lookup_2. Qed.

(** No input of a use or of a trusted inline block is a request. *)
Lemma preparable_child pos c child k s : flat !! c = Some child → renderer_input_statically_preparable child = true →
  order !! pos = Some c → pos < k → k ≤ length order → run k = (s, Ok tt) → input_pure p (s_frame s) c = Ok true.
Proof using CMP HS.
  intros Hc Hst Hpos Hlt Hk Hr. unfold input_pure. rewrite (flat_kind prog c child Hc).
  destruct child as [| | | | |lang env attr backend body]; try done. cbn [plan_result outcome_bind plan_kind].
  destruct (run_value pos c _ k s Hc Hpos Hlt Hk Hr) as (v & Ev & Hval). unfold frame_value. rewrite Ev. simpl.
  destruct Hval as [[text ->]|(f & h & h' & f' & He)]; [by rewrite sh_error_value|]. by rewrite (sh_inline c _ f h h' f' v Hc Hst He).
Qed.

Lemma worker_inputs_pure i op s : co_ops c0 !! i = Some op → op_lane op = LocalWorker → run (op_ordinal op) = (s, Ok tt) →
  render_inputs_pure p index (s_frame s) (op_plan_node op) = Ok true.
Proof using CMP HS.
  intros Hi Hl Hr. destruct (op_position i op Hi) as [Hpos Hid]. destruct (flat_lookup _ Hid) as [oir Ho].
  destruct (wc_safe _ _ Hcon i op oir Hi Hl Ho) as [_ Hm]. unfold render_inputs_pure. rewrite (flat_kind prog _ oir Ho).
  destruct (worker_adapter i op Hi Hl) as [Ea|Ea]; rewrite Ea in Hm; simpl in Hm; apply Ok_inj in Hm; [by destruct oir|].
  destruct (flat_children prog index Hx _ oir Ho) as [-> Hall]. destruct oir as [| | | | |lang env attr backend body]; try done.
  destruct (preparable_block _ _ _ _ _ Hm) as (-> & Hmode & _).
  assert (Hbody : children_of (Exec lang env None backend body) = body) by (cbn [children_of is_quote_exec]; by rewrite Hmode).
  assert (Hpre : ∀ c, c ∈ child_ids (children_of (Exec lang env None backend body)) (S (op_plan_node op)) → c ∈ preds p (op_plan_node op))
    by (intros c; by apply (flat_children_preds prog index Hx)).
  rewrite Hbody in *. cbn [plan_result outcome_bind plan_kind].
  assert (Hst : forallb renderer_input_statically_preparable body = true) by (simpl in Hm; rewrite !andb_true_iff in Hm; tauto).
  clear Hm Hbody Ho. induction Hall as [|c child l body Hc Hall IH]; [done|]. simpl in Hst |- *. apply andb_true_iff in Hst as [H1 H2].
  destruct (pred_before _ _ c Hpos) as (pos & Hpc & Hlt); [apply Hpre; by left|].
  rewrite (preparable_child pos c child (op_ordinal op) s) by (done || apply lookup_lt_Some in Hpos; lia). cbn [outcome_bind].
  apply IH; [intros c' Hc'; apply Hpre; by right|done].
Qed.

Lemma worker_step i op r s : co_ops c0 !! i = Some op → op_lane op = LocalWorker → answer op r → run (op_ordinal op) = (s, Ok tt) →
  ∃ s', run (S (op_ordinal op)) = (s', from_result (frame_settle p index (op_plan_node op) r (s_frame s)).2) ∧
    s_frame s' = (frame_settle p index (op_plan_node op) r (s_frame s)).1 ∧ s_host s' = s_host s.
Proof using CMP HS.
  intros Hi Hl [_ Ha] Hr. destruct (op_position i op Hi) as [Hpos Hid]. destruct (flat_lookup _ Hid) as [oir Ho].
  destruct (Ha s oir Ho Hr) as (task & Htask & <-). destruct (wc_safe _ _ Hcon i op oir Hi Hl Ho) as [_ Hm].
  destruct (run_framed _ s (Nat.lt_le_incl _ _ (lookup_lt_Some _ _ _ Hpos)) Hr) as [Hf _ _ _ _].
  rewrite (run_step p index flat g order s0 _ _ s Hpos Hr).
  destruct (lookup_lt_is_Some_2 (node_policy (s_frame s)) (op_plan_node op)) as [policy Hp]; [by rewrite (fr_policies _ _ Hf)|].
  destruct (set_policy policy (s_host s)) as [saved hp] eqn:Hset.
  destruct (serial_node_eq p index flat g (op_plan_node op) oir policy saved hp hp (s_frame s) (execute_prepared task) s) as [tr ->]; try done.
  - by eapply worker_verified.
  - eapply sh_worker; [by eapply worker_adapter|done|done|by eapply next_ready|by eapply worker_inputs_pure|done].
  - destruct (serial_settle_eq p index Hv Hx (op_plan_node op) (execute_prepared task)
      {| s_frame := s_frame s; s_trace := tr; s_host := (set_policy saved hp).2 |}) as (s' & -> & E & E'); [done|by apply Hf|].
    exists s'. simpl in *. rewrite E, E'. split_and!; [done..|]. by eapply sh_policy.
Qed.

(** The serial run stores the value that a worker has promised. *)
Lemma answer_value i op v k s : co_ops c0 !! i = Some op → op_lane op = LocalWorker → answer op (inr v) →
  op_ordinal op < k → k ≤ length order → run k = (s, Ok tt) → values (s_frame s) !! op_plan_node op = Some (Some v).
Proof using CMP HS.
  intros Hi Hl Ha Hlt Hk Hr. destruct (op_position i op Hi) as [Hpos Hid].
  destruct (run_earlier p index flat g order s0 (op_ordinal op) k s) as [s1 Hr1]; [lia|done|done|].
  destruct (worker_step i op (inr v) s1 Hi Hl Ha Hr1) as (s2 & Hr2 & E & _). cbn [frame_settle fst snd from_result] in *.
  rewrite (run_keeps (S (op_ordinal op)) k s2 s (op_ordinal op) _); [|lia|done|done|done|done|lia].
  rewrite E. simpl. apply list_lookup_insert_eq. destruct (run_framed (op_ordinal op) s1) as [Hf _ _ _ _]; [lia|done|].
  by rewrite (fr_values _ _ Hf).
Qed.

(** ** The two executions side by side *)

(** The frames of the serial run and of the coordinator after [k] nodes. *)
Record frames (k : nat) (f f' : GraphEvalFrame) : Prop := {
  fs_scope : base_scope f' = base_scope f;
  fs_policy : node_policy f' = node_policy f;
  fs_members : failed_batch_members f' = failed_batch_members f;
  fs_forced : forced_batch_failures f' = [];
  fs_length : length (values f') = length (plan_nodes p);
  fs_values : ∀ pos q, order !! pos = Some q → pos < k → values f' !! q = values f !! q;
  fs_texts : ∀ q t, flat !! q = Some (Text t) → values f' !! q = Some (Some (str_ t));
}.

Lemma frames_store k id v f f' : frames k f f' → framed p f → order !! k = Some id → (∀ t, flat !! id ≠ Some (Text t)) →
  frames (S k) (store id v f) (store id v f').
Proof using CMP.
  intros [? ? ? ? Hlen Hval Htext] Hf Hk Hnt. pose proof (order_bound id (list_elem_of_lookup_2 _ _ _ Hk)) as Hid.
  constructor; try done; simpl.
  - by rewrite length_insert.
  - intros pos q Hq Hpos. destruct (decide (q = id)) as [-> |Hne].
    + rewrite !list_lookup_insert_eq by (by rewrite ?Hlen, ?(fr_values _ _ Hf)). done.
    + rewrite !list_lookup_insert_ne by done. apply (Hval pos q Hq). destruct (decide (pos = k)) as [-> |]; [congruence|lia].
  - intros q t Hq. destruct (decide (q = id)) as [-> |Hne]; [by apply Hnt in Hq|]. rewrite list_lookup_insert_ne by done. by apply Htext.
Qed.

(** The coordinator already has the value that the serial run stores. *)
Lemma frames_stored k id v f f' : frames k f f' → framed p f → order !! k = Some id → values f' !! id = Some (Some v) →
  frames (S k) (store id v f) f'.
Proof using CMP.
  intros [? ? ? ? Hlen Hval Htext] Hf Hk Hid. pose proof (order_bound id (list_elem_of_lookup_2 _ _ _ Hk)) as Hlt.
  constructor; try done; simpl. intros pos q Hq Hpos. destruct (decide (q = id)) as [-> |Hne].
  - rewrite list_lookup_insert_eq by (by rewrite (fr_values _ _ Hf)). done.
  - rewrite list_lookup_insert_ne by done. apply (Hval pos q Hq). destruct (decide (pos = k)) as [-> |]; [congruence|lia].
Qed.

(** The results that the driver is going to deliver. *)
Definition results_pending (m : Machine) : gmap nat (Error + OValue) :=
  match driver m with Some d => d_pending d | None => ∅ end.

(** The outputs of an operation are materialised. *)
Definition visible (s : OpRunState) : Prop := s = Published ∨ s = Settled.

(** One operation after [k] nodes of the serial run. *)
Record op_synced (k : nat) (m : Machine) (i : nat) (op : OpState) : Prop := {
  os_settled : op_state op = Settled ↔ op_ordinal op < k;
  os_lane : started (op_state op) → op_lane op = LocalWorker;
  os_value :
    match op_state op with
    | Settled => True
    | Published => ∃ v, values (frame (co m)) !! op_plan_node op = Some (Some v) ∧ answer op (inr v)
    | _ => values (frame (co m)) !! op_plan_node op = Some None
    end;
  os_pending :
    match op_state op with
    | InFlight => ∃ r, results_pending m !! i = Some r ∧ answer op r
    | _ => results_pending m !! i = None
    end;
  os_result : ∀ r, worker_results (co m) !! i = Some r → ∃ v, r = Completed v ∧ answer op v;
}.

(** The coordinator after [k] nodes of the serial run, which is in state [s]. *)
Record synced (k : nat) (s : SerialState) (m : Machine) : Prop := {
  sy_run : run k = (s, Ok tt);
  sy_bound : k ≤ length order;
  sy_host : host m = s_host s;
  sy_frames : frames k (s_frame s) (frame (co m));
  sy_static : skeleton (co_ops (co m)) = skeleton (co_ops c0);
  sy_ops : ∀ i op, co_ops (co m) !! i = Some op → op_synced k m i op;
  sy_pending : ∀ i, is_Some (results_pending m !! i) → is_Some (co_ops (co m) !! i);
  sy_outputs : ∀ n, n ∈ materialized (co m) ↔
    n ∈ materialized c0 ∨ ∃ i op, co_ops (co m) !! i = Some op ∧ visible (op_state op) ∧ n ∈ op_outputs op;
  sy_groups : ∀ n group, provisional_groups (co m) !! n = Some group →
    ∃ i op, co_ops (co m) !! i = Some op ∧ op_state op = Published ∧ n ∈ op_outputs op;
}.

(** An operation without its run state is an operation of the admitted graph. *)
Lemma static_op (l : list OpState) i op : skeleton l = skeleton (co_ops c0) → l !! i = Some op →
  co_ops c0 !! i = Some (set_run_state Pending op).
Proof using CMP.
  intros Hl Hi. apply (f_equal (.!! i)) in Hl. unfold skeleton in Hl. rewrite !list_lookup_fmap, Hi in Hl.
  destruct (co_ops c0 !! i) as [op0|] eqn:H0; [|done]. cbn [fmap option_fmap option_map] in Hl. apply (inj Some) in Hl.
  pose proof (Forall_lookup_1 _ _ _ _ (built_pending _ _ _ _ _ _ Hbuilt) H0) as Hp. cbn beta in Hp.
  rewrite Hl. destruct op0. simpl in *. by subst.
Qed.

Lemma synced_op k s m i op : synced k s m → co_ops (co m) !! i = Some op → co_ops c0 !! i = Some (set_run_state Pending op).
Proof using CMP. intros Hs. apply static_op, (sy_static _ _ _ Hs). Qed.

Lemma nodes_distinct (l : list OpState) i j op op' : skeleton l = skeleton (co_ops c0) → l !! i = Some op → l !! j = Some op' →
  op_plan_node op = op_plan_node op' → i = j.
Proof using CMP. intros Hl. by apply (skeleton_inj (co_ops c0) (@ops_nodup _ _ _ (built_ops _ _ _ _ _ _ Hbuilt)) l Hl). Qed.

(** A step that changes the state of one operation, and what belongs to it. *)
Lemma synced_move k s m i op st k' s' m' :
  synced k s m → co_ops (co m) !! i = Some op → co_ops (co m') = alter (set_run_state st) i (co_ops (co m)) →
  (k' = k ∨ k' = S k ∧ op_ordinal op = k) → k' ≤ length order → run k' = (s', Ok tt) → host m' = s_host s' →
  frames k' (s_frame s') (frame (co m')) →
  (∀ q, q ≠ op_plan_node op → values (frame (co m')) !! q = values (frame (co m)) !! q) →
  (∀ j, j ≠ i → worker_results (co m') !! j = worker_results (co m) !! j) →
  (∀ j, j ≠ i → results_pending m' !! j = results_pending m !! j) →
  op_synced k' m' i (set_run_state st op) →
  (visible (op_state op) → visible st) →
  (∀ n, n ∈ materialized (co m') ↔ n ∈ materialized (co m) ∨ visible st ∧ n ∈ op_outputs op) →
  (∀ n group, provisional_groups (co m') !! n = Some group →
    provisional_groups (co m) !! n = Some group ∧ (op_state op = Published → n ∉ op_outputs op) ∨ st = Published ∧ n ∈ op_outputs op) →
  synced k' s' m'.
Proof using CMP.
  intros Hs Hi Hops Hk Hk' Hr Hh Hf Hval Hres Hpen Hop Hvis Hmat Hgrp.
  assert (Hself : co_ops (co m') !! i = Some (set_run_state st op)) by (by rewrite Hops, list_lookup_alter_eq, Hi).
  assert (Hother : ∀ j op', j ≠ i → co_ops (co m') !! j = Some op' ↔ co_ops (co m) !! j = Some op').
  { intros j op' Hj. by rewrite Hops, list_lookup_alter_ne by done. }
  constructor; try done.
  - rewrite Hops, skeleton_alter. apply Hs.
  - intros j op' Hj. destruct (decide (j = i)) as [-> |Hne]; [by rewrite Hself in Hj; injection Hj as <-|].
    apply Hother in Hj; [|done]. destruct (sy_ops _ _ _ Hs j op' Hj) as [H1 H2 H3 H4 H5].
    assert (Hnode : op_plan_node op' ≠ op_plan_node op).
    { intros E. by apply Hne, (nodes_distinct (co_ops (co m)) j i op' op); [apply Hs|..]. }
    constructor; [|done|by rewrite (Hval _ Hnode)|by rewrite (Hpen j Hne)|by rewrite (Hres j Hne)].
    destruct Hk as [-> |[-> Hord']]; [done|]. rewrite H1. split; [lia|]. intros Hlt.
    destruct (decide (op_ordinal op' = k)) as [E|]; [|lia]. destruct Hnode.
    destruct (op_position j _ (synced_op _ _ _ _ _ Hs Hj)) as [P1 _], (op_position i _ (synced_op _ _ _ _ _ Hs Hi)) as [P2 _].
    simpl in P1, P2. rewrite E in P1. rewrite Hord' in P2. congruence.
  - intros j Hj. destruct (decide (j = i)) as [-> |Hne]; [by rewrite Hself|]. rewrite (Hpen j Hne) in Hj.
    apply (sy_pending _ _ _ Hs) in Hj as [op' Hj]. exists op'. by apply Hother.
  - intros n. rewrite Hmat, (sy_outputs _ _ _ Hs). split.
    + intros [[H|(j & op' & Hj & Hv' & Hn)]|[Hv' Hn]]; [by left|right|right; by exists i, (set_run_state st op)].
      destruct (decide (j = i)) as [-> |Hne].
      * rewrite Hi in Hj. injection Hj as <-. exists i, (set_run_state st op). split_and!; [done|by apply Hvis|done].
      * exists j, op'. by rewrite Hother.
    + intros [H|(j & op' & Hj & Hv' & Hn)]; [by left; left|]. destruct (decide (j = i)) as [-> |Hne].
      * rewrite Hself in Hj. injection Hj as <-. by right.
      * left; right. exists j, op'. by rewrite <-Hother.
  - intros n group Hg. destruct (Hgrp n group Hg) as [[Hg' Hno]|[-> Hn]].
    + destruct (sy_groups _ _ _ Hs n group Hg') as (j & op' & Hj & Hp & Hn). destruct (decide (j = i)) as [-> |Hne].
      * rewrite Hi in Hj. injection Hj as <-. by destruct (Hno Hp).
      * exists j, op'. by rewrite Hother.
    + by exists i, (set_run_state Published op).
Qed.

(** *** The frontier *)

Lemma skeleton_op (l : list OpState) i op0 : skeleton l = skeleton (co_ops c0) → co_ops c0 !! i = Some op0 → ∃ op, l !! i = Some op.
Proof using CMP.
  intros Hl Hi. apply lookup_lt_is_Some. apply (f_equal length) in Hl. unfold skeleton in Hl. rewrite !length_fmap in Hl.
  rewrite Hl. by eapply lookup_lt_Some.
Qed.

(** The serial run passes a literal, the coordinator has its value already. *)
Lemma synced_text k s m q t : synced k s m → order !! k = Some q → flat !! q = Some (Text t) → ∃ s', synced (S k) s' m.
Proof using CMP HS.
  intros Hs Hk Ho. pose proof Hs as [Hr Hb Hh Hf Hst Hops Hp Hout Hg]. destruct (text_step k q t s Hk Ho Hr) as (s' & Hr' & Hh' & Ef).
  destruct (run_framed k s Hb Hr) as [Hfr _ _ _ _]. exists s'. constructor; try done.
  - by eapply lookup_lt_Some.
  - by rewrite Hh'.
  - rewrite Ef. apply frames_stored; [done..|]. by apply (fs_texts _ _ _ Hf).
  - intros i op Hi. destruct (Hops i op Hi) as [H1 H2 H3 H4 H5]. constructor; try done. rewrite H1. split; [lia|]. intros Hlt.
    destruct (decide (op_ordinal op = k)) as [E|]; [|lia].
    destruct (op_position i _ (static_op _ _ _ Hst Hi)) as [Hpos _]. simpl in Hpos. rewrite E, Hk in Hpos. injection Hpos as ->.
    by destruct (proj2 (wi_text _ _ _ Hwired _ t Ho) i _ (static_op _ _ _ Hst Hi)).
Qed.

(** Up to literals, the serial run is at its end or at an operation. *)
Lemma synced_frontier k s m : synced k s m →
  ∃ k' s', synced k' s' m ∧ (k' = length order ∨ ∃ i op, co_ops (co m) !! i = Some op ∧ op_ordinal op = k').
Proof using CMP HS.
  remember (length order - k) as d eqn:Hd. revert k s Hd. induction d as [|d IH]; intros k s Hd Hs.
  { exists k, s. split; [done|]. left. pose proof (sy_bound _ _ _ Hs). lia. }
  destruct (lookup_lt_is_Some_2 order k) as [q Hk]; [lia|].
  destruct (flat_lookup q (order_bound q (list_elem_of_lookup_2 _ _ _ Hk))) as [oir Ho].
  destruct (wi_nodes _ _ _ Hwired q oir Ho) as [[t ->]|(j & op0 & Hj & Hq)].
  - destruct (synced_text k s m q t Hs Hk Ho) as [s' Hs']. apply (IH (S k) s'); [lia|done].
  - exists k, s. split; [done|]. right. destruct (skeleton_op (co_ops (co m)) j op0) as [op Hop]; [apply Hs|done|].
    exists j, op. split; [done|]. pose proof (synced_op _ _ _ _ _ Hs Hop) as H0. rewrite Hj in H0. injection H0 as ->.
    destruct (op_position j _ Hj) as [Hpos _]. simpl in *. rewrite Hq in Hpos. by eapply order_inj.
Qed.

Lemma ordinals_distinct k s m i j op op' : synced k s m → co_ops (co m) !! i = Some op → co_ops (co m) !! j = Some op' →
  op_ordinal op = op_ordinal op' → i = j.
Proof using CMP.
  intros Hs Hi Hj E. apply (nodes_distinct (co_ops (co m)) i j op op'); [apply Hs|done|done|].
  destruct (op_position i _ (synced_op _ _ _ _ _ Hs Hi)) as [P1 _], (op_position j _ (synced_op _ _ _ _ _ Hs Hj)) as [P2 _].
  simpl in *. rewrite E in P1. congruence.
Qed.

Lemma lowest_at k s m i op : synced k s m → co_ops (co m) !! i = Some op → op_ordinal op = k → lowest_unsettled (co m) = Some i.
Proof using CMP.
  intros Hs Hi Hk. destruct (lowest_unsettled (co m)) as [j|] eqn:Hl.
  - destruct (lowest_spec (co m) j Hl) as (Hlt & Hst & Hmin). destruct (lookup_lt_is_Some_2 _ _ Hlt) as [op' Hj].
    rewrite (has_state_op (co m) Settled j op' Hj) in Hst. apply bool_decide_eq_false in Hst.
    destruct (sy_ops _ _ _ Hs j op' Hj) as [H1 _ _ _ _]. f_equal. apply (ordinals_distinct k s m j i op' op); [done..|].
    assert (Hge : ¬ key_lt (op_key (co_ops (co m)) i) (op_key (co_ops (co m)) j)).
    { apply Hmin; [by eapply lookup_lt_Some|]. rewrite (has_state_op (co m) Settled i op Hi). apply bool_decide_eq_false.
      destruct (sy_ops _ _ _ Hs i op Hi) as [H2 _ _ _ _]. intros E%H2. lia. }
    rewrite (op_key_op _ i op Hi), (op_key_op _ j op' Hj) in Hge. unfold key_lt in Hge. simpl in Hge. rewrite H1 in Hst. lia.
  - pose proof (lowest_None (co m) Hl i (lookup_lt_Some _ _ _ Hi)) as Hst. rewrite (has_state_op (co m) Settled i op Hi) in Hst.
    apply bool_decide_eq_true in Hst. destruct (sy_ops _ _ _ Hs i op Hi) as [H1 _ _ _ _]. apply H1 in Hst. lia.
Qed.

Lemma all_settled s m : synced (length order) s m → Forall (λ op, op_state op = Settled) (co_ops (co m)).
Proof using CMP.
  intros Hs. apply Forall_lookup_2. intros i op Hi. destruct (sy_ops _ _ _ Hs i op Hi) as [H1 _ _ _ _]. apply H1.
  destruct (op_position i _ (synced_op _ _ _ _ _ Hs Hi)) as [Hpos _]. by apply lookup_lt_Some in Hpos.
Qed.

Lemma lowest_end s m : synced (length order) s m → lowest_unsettled (co m) = None.
Proof using CMP.
  intros Hs. destruct (lowest_unsettled (co m)) as [j|] eqn:Hl; [|done].
  destruct (lowest_spec (co m) j Hl) as (Hlt & Hst & _). destruct (lookup_lt_is_Some_2 _ _ Hlt) as [op' Hj].
  rewrite (has_state_op (co m) Settled j op' Hj), (Forall_lookup_1 _ _ _ _ (all_settled s m Hs) Hj) in Hst. done.
Qed.
End Refinement.
