(* ===== verification/SerialSteps.v ===== *)
(** * Steps of the coordinator beside the serial run

    Every operation of the coordinator keeps the relation [synced] of
    [SerialRefinement]: settling an operation is one step of the serial run, and
    everything else is none. *)

From S2P Require Import Prelude.
From S2P Require Import BackendCatalog.
From S2P Require Import Ir.
From S2P Require Import ExecutionPlan.
From S2P Require Import Effects.
From S2P Require Import DispatchModel.
From S2P Require Import Topological.
From S2P Require Import PlanTheorems.
From S2P Require Import PlanSchedules.
From S2P Require Import DispatchTheorems.
From S2P Require Import HGraph.
From S2P Require Import HGraphValidate.
From S2P Require Import ReadySchedule.
From S2P Require Import ExecutionContract.
From S2P Require Import EvalFrame.
From S2P Require Import ParallelTasks.
From S2P Require Import Coordinator.
From S2P Require Import CoordinatorFacts.
From S2P Require Import CoordinatorSafety.
From S2P Require Import CoordinatorDrive.
From S2P Require Import CoordinatorTheorems.
From S2P Require Import GraphWiring.
From S2P Require Import Serial.
From S2P Require Import SerialFacts.
From S2P Require Import SerialRefinement.
From stdpp Require Import options.

#[local] Open Scope nat_scope.

Lemma bind_ok {St E A B} (x : M St E A) (k : A → M St E B) s s' a : x s = (s', Ok a) → bind x k s = k a s'.
Proof. unfold bind. by intros ->. Qed.

(** ** What the operations compute

    The trace is written by every operation and read by none. *)

Section Computed.
Context `{OV : !OValues, ER : !Errors, SH : !Shims, LV : !Leaves, DG : !Digests}.
Context `{HO : !GraphEvaluationHost, AD : !AttemptDriver}.
Context (p : ExecutionPlan) (index : ExecutionPlanIndex) (g : HGraph).

Lemma op_at_eq i op m : co_ops (co m) !! i = Some op → op_at i m = (m, Ok op).
Proof. intros Hi. unfold op_at, bind, lift. simpl. by rewrite Hi. Qed.

Abbreviation recorded op := (Forall (λ n, is_Some (g_nodes g !! n)) (op_outputs op)).

Lemma record_publication_eq i op m : co_ops (co m) !! i = Some op → recorded op →
  ∃ t, record_publication g i m = (with_co (set_trace t) m, Ok tt).
Proof.
  intros Hi Hg. unfold record_publication, op_at, bind, lift. simpl. rewrite Hi. simpl.
  destruct (map_outcome_total (publication_entry g) (filter (λ n, n ∈ materialized (co m)) (op_outputs op))) as [l' ->]; [|by eexists].
  intros n [_ Hn]%list_elem_of_filter. rewrite Forall_forall in Hg. destruct (Hg n Hn) as [node Hnode].
  unfold publication_entry. rewrite Hnode. simpl. eauto.
Qed.

Definition publish (i : nat) (op : OpState) (t : ExecutionTrace) (c : Coordinator) : Coordinator :=
  set_trace t (set_state i Settled (set_materialized (list_to_set (op_outputs op) ∪ materialized c) c)).

Lemma materialize_success_eq i op m : co_ops (co m) !! i = Some op → recorded op →
  ∃ t, materialize_success g i m = (with_co (publish i op t) m, Ok tt).
Proof.
  intros Hi Hg. unfold materialize_success, publish_outputs, op_at. unfold bind at 1 2 3. simpl. unfold lift. rewrite Hi. simpl.
  set (m1 := {| co := _; driver := _; host := _ |}). destruct (record_publication_eq i op m1 Hi Hg) as [t E].
  exists t. unfold bind. rewrite E. done.
Qed.

Lemma materialize_member_error_eq i op m : co_ops (co m) !! i = Some op →
  ∃ t, materialize_member_error i m = (with_co (publish i op t) m, Ok tt).
Proof.
  intros Hi. exists (trace (co m)). unfold materialize_member_error, publish_outputs, op_at, bind. simpl. unfold lift. by rewrite Hi.
Qed.

Lemma settle_published_eq i op publication m : co_ops (co m) !! i = Some op → recorded op → worker_publications (co m) !! i = Some publication →
  ∃ t, settle_published g i m =
    (with_co (λ c, set_trace t (set_state i Settled (set_groups (remove_keys (op_outputs op) (provisional_groups c))
       (set_publications (delete i (worker_publications c)) c)))) m, Ok tt).
Proof.
  intros Hi Hg Hp. unfold settle_published, op_at, bind, lift. simpl. rewrite Hi. simpl. rewrite Hp. simpl.
  set (m1 := {| co := _; driver := _; host := _ |}). destruct (record_publication_eq i op m1 Hi Hg) as [t E]. rewrite E. by exists t.
Qed.

Lemma provisional_lookup outputs group (m : gmap NodeId PlanNodeId) n a :
  foldl (λ m n, <[n := group]> m) m outputs !! n = Some a → m !! n = Some a ∨ n ∈ outputs.
Proof.
  revert m. induction outputs as [|n' l IH]; intros m H; simpl in H; [by left|]. apply IH in H as [H|H]; [|right; by right].
  destruct (decide (n' = n)) as [-> |]; [right; by left|]. left. by rewrite lookup_insert_ne in H.
Qed.

(** The groups after a publication. *)
Definition groups_published (outputs : list NodeId) (m m' : gmap NodeId PlanNodeId) : Prop :=
  ∀ n a, m' !! n = Some a → m !! n = Some a ∨ n ∈ outputs.

Lemma publish_completion_eq i op group v m : co_ops (co m) !! i = Some op → op_plan_node op < length (values (frame (co m))) →
  (op_failure_class op = NeverFails → is_verified_pure_infallible (op_effect op) = true) → worker_publications (co m) !! i = None →
  ∃ m', publish_completion i op group v m = (m', Ok Continue) ∧ driver m' = driver m ∧ host m' = host m ∧
    co_ops (co m') = alter (set_run_state Published) i (co_ops (co m)) ∧ frame (co m') = store (op_plan_node op) v (frame (co m)) ∧
    materialized (co m') = list_to_set (op_outputs op) ∪ materialized (co m) ∧ worker_results (co m') = worker_results (co m) ∧
    groups_published (op_outputs op) (provisional_groups (co m)) (provisional_groups (co m')).
Proof.
  intros Hi Hlt Hpure Hpub. unfold publish_completion.
  assert (bool_decide (op_failure_class op = NeverFails) && negb (is_verified_pure_infallible (op_effect op)) = false) as ->.
  { case_bool_decide as Hc; [by rewrite Hpure|done]. }
  unfold store_value, set_value, bind. simpl. rewrite bool_decide_eq_true_2 by done. simpl. unfold publish_outputs, op_at, bind. simpl.
  unfold lift. rewrite Hi. simpl.
  destruct (match group with Some group => Some group | None => inherited_group (co m) op end) as [group'|]; simpl;
    rewrite Hpub; simpl; (eexists; split; [reflexivity|]; simpl; split_and!; try done).
  - intros n a Hn. by eapply provisional_lookup.
  - intros n a Hn. by left.
Qed.

Lemma buffer_outcome_eq i op r m : worker_results (co m) !! i = None → (op_failure_class op = NeverFails → ∃ v, r = inr v) →
  buffer_outcome i op (Completed r) m = (with_co (λ c, set_results (<[i := Completed r]> (worker_results c)) (set_state i Buffered c)) m, Ok Continue).
Proof.
  intros Hres Hc. unfold buffer_outcome, bind. simpl. rewrite Hres. destruct r as [e|v]; [|done]. case_bool_decide as E; [|done].
  by destruct (Hc E).
Qed.

(** A value that is stored and settled, on either thread. *)
Definition finish (i : nat) (op : OpState) (v : OValue) (t : ExecutionTrace) (c : Coordinator) : Coordinator :=
  publish i op t (set_frame (store (op_plan_node op) v (frame c)) c).

Definition settles (i : nat) (op : OpState) (settle : nat → M Machine Error unit) : Prop :=
  ∀ m, co_ops (co m) !! i = Some op → ∃ t, settle i m = (with_co (publish i op t) m, Ok tt).

Lemma finish_value_eq i op v settle m : co_ops (co m) !! i = Some op → op_plan_node op < length (values (frame (co m))) →
  settles i op settle → ∃ t, finish_value i (op_plan_node op) v settle m = (with_co (finish i op v t) m, Ok None).
Proof.
  intros Hi Hlt Hs. unfold finish_value, store_value, set_value, bind. simpl. rewrite bool_decide_eq_true_2 by done. simpl.
  set (m1 := {| co := _; driver := _; host := _ |}). destruct (Hs m1 Hi) as [t E]. exists t. rewrite E. done.
Qed.

Lemma store_settle_eq i op v settle m : co_ops (co m) !! i = Some op → op_plan_node op < length (values (frame (co m))) →
  settles i op settle → ∃ t, (store_or_fail (op_plan_node op) v ;;* settle i) m = (with_co (finish i op v t) m, Ok tt).
Proof.
  intros Hi Hlt Hs. unfold store_or_fail, store_value, set_value, bind. simpl. rewrite bool_decide_eq_true_2 by done. simpl.
  set (m1 := {| co := _; driver := _; host := _ |}). destruct (Hs m1 Hi) as [t E]. exists t. rewrite E. done.
Qed.
End Computed.

Lemma remove_keys_lookup {A} l (m : gmap NodeId A) n a : remove_keys l m !! n = Some a ↔ m !! n = Some a ∧ n ∉ l.
Proof.
  induction l as [|n' l IH]; simpl; [set_solver|]. rewrite lookup_delete_Some. fold (remove_keys l m). rewrite IH. set_solver.
Qed.

(** ** Counting operations *)

Definition count (P : OpRunState → bool) (l : list OpState) : nat := length (filter (λ op, P (op_state op) = true) l).

Lemma count_alter P i op st l : l !! i = Some op →
  count P (alter (set_run_state st) i l) + Nat.b2n (P (op_state op)) = count P l + Nat.b2n (P st).
Proof.
  unfold count. revert i. induction l as [|op' l IH]; intros [|i] Hi; simpl in Hi; [done..| |].
  - injection Hi as ->. simpl. rewrite !filter_cons. simpl. destruct (P (op_state op)), (P st); simpl; lia.
  - specialize (IH i Hi). change (alter (set_run_state st) (S i) (op' :: l)) with (op' :: alter (set_run_state st) i l).
    rewrite !filter_cons. destruct (decide (P (op_state op') = true)); simpl; lia.
Qed.

Definition is_pending (s : OpRunState) : bool := bool_decide (s = Pending).
Definition is_unsettled (s : OpRunState) : bool := negb (bool_decide (s = Settled)).

(** ** Settling *)

Section Steps.
Context `{OV : !OValues, ER : !Errors, SH : !Shims, LV : !Leaves, DG : !Digests, UT : !UnicodeTables}.
Context `{HO : !GraphEvaluationHost, AD : !AttemptDriver, LD : !LawfulDriver}.
Context {prog : OIrProgram} {g : HGraph} {index : ExecutionPlanIndex} {c0 : Coordinator} {s0 : SerialState}.

Abbreviation p := (plan prog).
Abbreviation flat := (flatten_for_plan prog).
Abbreviation order := (idx_order index).
Abbreviation run k := (serial_nodes p index flat g (take k order) s0).

Context {HS : SerialHost p index flat} {CMP : Comparison prog g index c0 s0} {HF : FrameKeeping}.
Context {base : list TraceEvent}.

Abbreviation Hbuilt := (cmp_built prog g index c0 s0).
Abbreviation Hwired := (cmp_wired prog g index c0 s0).
Abbreviation Hord := (cmp_ordered prog g index c0 s0).
Abbreviation Hcon := (cmp_contracts prog g index c0 s0).
Abbreviation synced := (synced (prog := prog) (g := g) (index := index) (c0 := c0) (s0 := s0)).
Abbreviation op_synced := (op_synced (prog := prog) (g := g) (index := index) (s0 := s0)).
Abbreviation answer := (answer (prog := prog) (g := g) (index := index) (s0 := s0)).
Abbreviation frames := (frames (prog := prog) (index := index)).
Abbreviation live := (live p (co_ops c0) base).
Abbreviation vw m := (view (co m)).

(** Whether a failure is absorbed does not depend on the frame. *)
Lemma settle_member_cases id e : id < length (plan_nodes p) → let b := batch_member_error_is_absorbable e in
  (∀ f, settle_batch_member_failure p index id e b f = Ok (f, None)) ∨
  ∃ failure v, ∀ f, settle_batch_member_failure p index id e b f = Ok (add_failed_member id f, Some (failure, v)).
Proof using CMP.
  intros Hid b. pose proof (settle_member_total p index Hv Hx id e b) as Ht. unfold settle_batch_member_failure in *.
  destruct (negb b); [by left|]. set (f0 := s_frame s0). destruct (Ht f0 Hid) as (f' & r & H & _). peel H as member Hm.
  rewrite Hm. cbn [outcome_bind]. destruct member; [right; by do 2 eexists|by left].
Qed.

Lemma frames_member k id f f' : frames k f f' → frames k (add_failed_member id f) (add_failed_member id f').
Proof. intros [? ? Hm ? ? ? ?]. constructor; try done. simpl. by rewrite Hm. Qed.

Lemma framed_member id f : framed p f → framed p (add_failed_member id f).
Proof. intros [? ? ?]. by constructor. Qed.

Lemma op_not_text i op t : co_ops c0 !! i = Some op → flat !! op_plan_node op ≠ Some (Text t).
Proof using CMP. intros Hi Ho. by destruct (proj2 (wi_text _ _ _ Hwired _ t Ho) i op Hi). Qed.

(** A machine that differs from [m] in what belongs to operation [i], and in the frame. *)
Record beside (i : nat) (m m1 : Machine) : Prop := {
  be_ops : co_ops (co m1) = co_ops (co m);
  be_outputs : materialized (co m1) = materialized (co m);
  be_groups : provisional_groups (co m1) = provisional_groups (co m);
  be_driver : driver m1 = driver m;
  be_values : values (frame (co m1)) = values (frame (co m));
  be_result : worker_results (co m1) !! i = None;
  be_results : ∀ j, j ≠ i → worker_results (co m1) !! j = worker_results (co m) !! j;
}.

Lemma synced_finish k s m i op f v s' m1 t :
  synced k s m → co_ops (co m) !! i = Some op → op_ordinal op = k → op_state op = Pending ∨ op_state op = Buffered →
  beside i m m1 → run (S k) = (s', Ok tt) → host m1 = s_host s' → framed p f → s_frame s' = store (op_plan_node op) v f →
  frames k f (frame (co m1)) →
  synced (S k) s' (with_co (finish i op v t) m1).
Proof using CMP.
  intros Hs Hi Hk Hst [B1 B2 B3 B4 B5 B6 B7] Hr Hh Hfr Ef Hf. pose proof (synced_op _ _ _ _ _ Hs Hi) as H0.
  destruct (op_position i _ H0) as [Hpos Hid]. simpl in Hpos, Hid. rewrite Hk in Hpos.
  assert (Hp : results_pending m !! i = None).
  { destruct (sy_ops _ _ _ Hs i op Hi) as [_ _ _ H4 _]. by destruct Hst as [E|E]; rewrite E in H4. }
  assert (Ep : results_pending (with_co (finish i op v t) m1) = results_pending m) by (unfold results_pending; simpl; by rewrite B4).
  apply (synced_move k s m i op Settled); try done; simpl.
  - by rewrite B1.
  - by right.
  - by eapply lookup_lt_Some.
  - rewrite Ef. apply frames_store; [done..|]. intros t'. exact (op_not_text i _ t' H0).
  - intros q Hq. rewrite B5. by rewrite list_lookup_insert_ne.
  - intros j _. by rewrite Ep.
  - constructor; simpl; [split; [lia|done]|by intros [_ []]|done|by rewrite Ep|by rewrite B6].
  - intros _. by right.
  - intros n. rewrite B2, elem_of_union, elem_of_list_to_set. split; [intros [?|?]; [right; split; [by right|done]|by left]|].
    intros [?|[_ ?]]; [by right|by left].
  - intros n group Hg. left. rewrite B3 in Hg. split; [done|]. by destruct Hst as [E|E]; rewrite E.
Qed.

Lemma op_recorded m i op : live (vw m) → co_ops (co m) !! i = Some op → Forall (λ n, is_Some (g_nodes g !! n)) (op_outputs op).
Proof using CMP.
  intros Hl Hi. by destruct (op_data p g (co_ops c0) base (HOps := built_ops _ _ _ _ _ _ Hbuilt) (vw m) i op (weak_shape _ _ _ _ (live_weak _ _ _ _ Hl)) Hi).
Qed.

(** A step settles one operation, the driver does not see it. *)
Definition settled_op (i : nat) (m m' : Machine) : Prop :=
  co_ops (co m') = alter (set_run_state Settled) i (co_ops (co m)) ∧ driver m' = driver m.

(** A promised value, and the step of the serial run that has it. *)
Lemma value_step k s m i op v : synced k s m → co_ops (co m) !! i = Some op → op_lane op = LocalWorker → op_ordinal op = k →
  answer op (inr v) → ∃ s', run (S k) = (s', Ok tt) ∧ s_frame s' = store (op_plan_node op) v (s_frame s) ∧ s_host s' = s_host s.
Proof using CMP HS.
  intros Hs Hi Hl Hk Ha. destruct (worker_step i _ (inr v) s (synced_op _ _ _ _ _ Hs Hi) Hl Ha) as (s' & Hr & Ef & Hh).
  { simpl. rewrite Hk. apply Hs. }
  simpl in *. rewrite Hk in Hr. exists s'. split_and!; [done| |done].
  destruct (run_framed k s (sy_bound _ _ _ Hs) (sy_run _ _ _ Hs)) as [[_ _ Hfo] _ _ _ _]. by rewrite clear_forced_id in Ef.
Qed.

Lemma run_frame k s m : synced k s m → framed p (s_frame s).
Proof using CMP HS. intros Hs. by destruct (run_framed k s (sy_bound _ _ _ Hs) (sy_run _ _ _ Hs)). Qed.

Lemma settle_published_step k s m i op : synced k s m → live (vw m) → co_ops (co m) !! i = Some op → op_state op = Published →
  op_ordinal op = k → ∃ m' s', settle_published g i m = (m', Ok tt) ∧ synced (S k) s' m' ∧ settled_op i m m'.
Proof using CMP HS.
  intros Hs Hl Hi Hst Hk. destruct (proj2 (weak_publications _ _ _ _ (live_weak _ _ _ _ Hl) i)) as [pub Hpub]; [by exists op|].
  destruct (settle_published_eq g i op pub m Hi (op_recorded m i op Hl Hi) Hpub) as [t E].
  destruct (sy_ops _ _ _ Hs i op Hi) as [H1 H2 H3 H4 H5]. rewrite Hst in *. destruct H3 as (v & Hval & Ha).
  assert (Hw : op_lane op = LocalWorker) by (by apply H2).
  destruct (value_step k s m i op v Hs Hi Hw Hk Ha) as (s' & Hr & Ef & Hh).
  destruct (op_position i _ (synced_op _ _ _ _ _ Hs Hi)) as [Hpos Hid]. simpl in Hpos, Hid. rewrite Hk in Hpos.
  eexists _, s'. split; [exact E|]. split; [|done]. apply (synced_move k s m i op Settled); try done; simpl.
  - by right.
  - by eapply lookup_lt_Some.
  - rewrite Hh. apply Hs.
  - rewrite Ef. apply frames_stored; [apply Hs|by eapply run_frame|done..].
  - constructor; simpl; [split; [lia|done]|by intros [_ []]|done|done|].
    intros r Hres. destruct (weak_results _ _ _ _ (live_weak _ _ _ _ Hl) i) as (op' & Hi' & Hst'); [by exists r|]. simpl in Hi'. congruence.
  - intros _. by right.
  - intros n. split; [by left|]. intros [?|[_ Hn]]; [done|]. apply (sy_outputs _ _ _ Hs). right. exists i, op. split_and!; [done|by left|done].
  - intros n group [Hg Hn]%remove_keys_lookup. by left.
Qed.

(** The serial run ends with an error, and with this evaluator. *)
Definition serial_fails (e : Error) (h : Host) : Prop :=
  ∃ s', serial_nodes p index flat g order s0 = (s', Err e) ∧ s_host s' = h.

Lemma step_fails k s id s' e : order !! k = Some id → run k = (s, Ok tt) → run (S k) = (s', Err e) → serial_fails e (s_host s').
Proof.
  intros Hk Hr Hf. exists s'. split; [|done]. eapply (run_fails p index flat g order s0 k id s); [done..|].
  by rewrite <-(run_step p index flat g order s0 k id s Hk Hr).
Qed.

(** An error of a worker, and the step of the serial run that has it. *)
Lemma error_step k s m i op e : synced k s m → co_ops (co m) !! i = Some op → op_lane op = LocalWorker → op_ordinal op = k → answer op (inl e) →
  (∃ failure v s', run (S k) = (s', Ok tt) ∧ s_frame s' = store (op_plan_node op) v (add_failed_member (op_plan_node op) (s_frame s)) ∧
    s_host s' = s_host s ∧ ∀ f, settle_batch_member_failure p index (op_plan_node op) e (batch_member_error_is_absorbable e) f =
      Ok (add_failed_member (op_plan_node op) f, Some (failure, v))) ∨
  serial_fails e (s_host s) ∧ ∀ f, settle_batch_member_failure p index (op_plan_node op) e (batch_member_error_is_absorbable e) f = Ok (f, None).
Proof using CMP HS.
  intros Hs Hi Hl Hk Ha. destruct (op_position i _ (synced_op _ _ _ _ _ Hs Hi)) as [Hpos Hid]. simpl in Hpos, Hid. rewrite Hk in Hpos.
  destruct (worker_step i _ (inl e) s (synced_op _ _ _ _ _ Hs Hi) Hl Ha) as (s' & Hr & Ef & Hh).
  { simpl. rewrite Hk. apply Hs. }
  simpl in *. rewrite Hk in Hr. destruct (settle_member_cases _ e Hid) as [Hc|(failure & v & Hc)]; rewrite Hc in Hr, Ef; simpl in *.
  - right. split; [|done]. rewrite <-Hh. by eapply step_fails; [|apply Hs|].
  - left. by exists failure, v, s'.
Qed.

Lemma settle_buffered_step k s m i op : synced k s m → live (vw m) → co_ops (co m) !! i = Some op → op_state op = Buffered →
  op_ordinal op = k → ∃ m' r, settle_buffered p index g i m = (m', Ok r) ∧ driver m' = driver m ∧
    match r with
    | None => ∃ s', synced (S k) s' m' ∧ settled_op i m m'
    | Some failure => wf_index failure = i ∧ serial_fails (wf_error failure) (host m')
    end.
Proof using CMP HS.
  intros Hs Hl Hi Hst Hk. destruct (live_results _ _ _ _ Hl i) as [r Hres]; [by exists op|]. simpl in Hres.
  destruct (sy_ops _ _ _ Hs i op Hi) as [H1 H2 H3 H4 H5]. destruct (H5 r Hres) as (r' & -> & Ha).
  assert (Hw : op_lane op = LocalWorker) by (apply H2; by rewrite Hst).
  destruct (op_position i _ (synced_op _ _ _ _ _ Hs Hi)) as [_ Hid]. simpl in Hid.
  assert (Hlen : op_plan_node op < length (values (frame (co m)))) by (by rewrite (fs_length _ _ _ (sy_frames _ _ _ Hs))).
  pose proof (op_recorded m i op Hl Hi) as Hrec. unfold settle_buffered, op_at, bind, lift. simpl. rewrite Hi. simpl. rewrite Hres. simpl.
  set (m1 := {| co := set_results _ _; driver := _; host := _ |}).
  assert (Hb : beside i m m1).
  { constructor; try done; simpl; [apply lookup_delete_eq|]. intros j Hj. by rewrite lookup_delete_ne. }
  destruct r' as [e|v].
  - unfold settle_error. rewrite bool_decide_eq_false_2; [|intros E; by destruct (proj1 Ha E)].
    unfold settle_member, bind, lift. cbn [coordinator bind get ret m1 co frame set_results].
    destruct (error_step k s m i op e Hs Hi Hw Hk Ha) as [(failure & v & s' & Hr & Ef & Hh & Hc)|[Hf Hc]]; rewrite Hc.
    + cbn [update modify ret co driver host]. set (m2 := {| co := emit _ _; driver := _; host := _ |}).
      destruct (finish_value_eq i op v materialize_member_error m2) as [t E]; [done..|by intros m3 Hi3; apply materialize_member_error_eq|].
      rewrite E. eexists _, None. split; [done|]. split; [done|]. exists s'. split; [|done].
      eapply (synced_finish k s m i op (add_failed_member (op_plan_node op) (s_frame s))); try done; [by right|..].
      * by destruct Hb; constructor.
      * simpl. rewrite Hh. apply Hs.
      * by eapply framed_member, run_frame.
      * apply frames_member, Hs.
    + cbn [update modify ret co driver host]. unfold record_failure, op_at, bind. simpl. unfold lift. rewrite Hi. simpl.
      eexists _, (Some _). split; [done|]. split; [done|]. simpl. split; [done|]. by rewrite (sy_host _ _ _ Hs).
  - destruct (value_step k s m i op v Hs Hi Hw Hk Ha) as (s' & Hr & Ef & Hh).
    destruct (finish_value_eq i op v (materialize_success g) m1) as [t E]; [done..|by intros m3 Hi3; apply materialize_success_eq|].
    rewrite E. eexists _, None. split; [done|]. split; [done|]. exists s'. split; [|done].
    eapply (synced_finish k s m i op (s_frame s)); try done; [by right| |by eapply run_frame|apply Hs]. simpl. rewrite Hh. apply Hs.
Qed.

(** Nothing can be settled: the operation at the frontier has not returned. *)
Definition at_rest (k : nat) (m : Machine) : Prop :=
  k = length order ∨ ∃ i op, co_ops (co m) !! i = Some op ∧ op_ordinal op = k ∧ (op_state op = Pending ∨ op_state op = InFlight).

(** What settling does not change. *)
Definition settling (m m' : Machine) : Prop :=
  driver m' = driver m ∧ count is_pending (co_ops (co m')) = count is_pending (co_ops (co m)).

Lemma settled_settling i op m m' : co_ops (co m) !! i = Some op → op_state op ≠ Pending → settled_op i m m' → settling m m'.
Proof.
  intros Hi Hst [E D]. split; [done|]. rewrite E. pose proof (count_alter is_pending i op Settled (co_ops (co m)) Hi) as H.
  unfold is_pending in H at 2 4. rewrite !bool_decide_eq_false_2 in H by done. simpl in H. lia.
Qed.

Lemma settled_fewer i op m m' : co_ops (co m) !! i = Some op → op_state op ≠ Settled → settled_op i m m' →
  count is_unsettled (co_ops (co m')) < count is_unsettled (co_ops (co m)).
Proof.
  intros Hi Hst [E _]. rewrite E. pose proof (count_alter is_unsettled i op Settled (co_ops (co m)) Hi) as H.
  unfold is_unsettled in H at 2 4. rewrite bool_decide_eq_false_2, bool_decide_eq_true_2 in H by done. simpl in H. lia.
Qed.

Definition settled_run (m : Machine) (r : option WorkerFailure) (m' : Machine) : Prop :=
  match r with
  | None => ∃ k s, synced k s m' ∧ live (vw m') ∧ at_rest k m' ∧ settling m m'
  | Some failure => serial_fails (wf_error failure) (host m') ∧ weak p (co_ops c0) base (vw m') ∧
      is_Some (co_ops (co m') !! wf_index failure) ∧ driver m' = driver m
  end.

Lemma settled_run_trans m m1 r m' : settling m m1 → settled_run m1 r m' → settled_run m r m'.
Proof.
  intros [D C]. destruct r as [failure|]; simpl.
  - intros (? & ? & ? & E). split_and!; [done..|]. by rewrite E.
  - intros (k & s & ? & ? & ? & E & E'). exists k, s. split_and!; [done..|]. split; congruence.
Qed.

Lemma settle_loop_step fuel k s m : synced k s m → live (vw m) → count is_unsettled (co_ops (co m)) < fuel →
  ∃ m' r, settle_loop p index g fuel m = (m', Ok r) ∧ settled_run m r m'.
Proof using CMP HS HF.
  pose proof (built_ops _ _ _ _ _ _ Hbuilt) as HOps.
  revert k s m. induction fuel as [|fuel IH]; intros k s m Hs Hl Hlt; [lia|]. cbn [settle_loop].
  destruct (synced_frontier k s m Hs) as (k' & s' & Hs' & Hfront). clear k s Hs.
  assert (Hrest : at_rest k' m → ∃ m' r, (m, Ok None) = (m', Ok (E := Error) r) ∧ settled_run m r m').
  { intros Hr. exists m, None. split; [done|]. by exists k', s'. }
  unfold bind at 1. cbn [coordinator bind get ret]. destruct Hfront as [-> |(i & op & Hi & Hk)].
  { rewrite (lowest_end s' m Hs'). apply Hrest. by left. }
  pose proof (lowest_at k' s' m i op Hs' Hi Hk) as Hlow. rewrite Hlow.
  destruct (lowest_least p g (co_ops c0) base (co m) i) as (Hleast & _); [apply Hl|done|].
  assert (Hat : op_state op = Pending ∨ op_state op = InFlight → at_rest k' m) by (right; by exists i, op).
  rewrite (bind_ok _ _ _ _ _ (op_at_eq i op m Hi)).
  destruct (op_state op) eqn:Hst; [apply Hrest, Hat; by left|apply Hrest, Hat; by right| | |].
  - destruct (settle_buffered_step k' s' m i op Hs' Hl Hi Hst Hk) as (m1 & r & E & D & Hr). rewrite (bind_ok _ _ _ _ _ E).
    pose proof (settle_buffered_safe p index g Hv Hx (co_ops c0) base i op m Hl Hi Hst Hleast) as Hsafe. unfold safe in Hsafe. rewrite E in Hsafe.
    destruct Hsafe as [Hsafe _]. destruct r as [failure|].
    + exists m1, (Some failure). split; [done|]. destruct Hr as [Hidx Hf]. destruct Hsafe as [Hw Hsome]. by split_and!.
    + destruct Hr as (s1 & Hs1 & Hset). destruct (IH (S k') s1 m1 Hs1 Hsafe) as (m' & r & E' & Hrun).
      { pose proof (settled_fewer i op m m1 Hi ltac:(by rewrite Hst) Hset). lia. }
      exists m', r. split; [done|]. eapply settled_run_trans; [|done]. eapply settled_settling; [done|by rewrite Hst|done].
  - destruct (settle_published_step k' s' m i op Hs' Hl Hi Hst Hk) as (m1 & s1 & E & Hs1 & Hset). rewrite (bind_ok _ _ _ _ _ E).
    pose proof (settle_published_safe p g (co_ops c0) base i op m Hl Hi Hst Hleast) as Hsafe. unfold safe in Hsafe. rewrite E in Hsafe.
    destruct Hsafe as [Hsafe _]. destruct (IH (S k') s1 m1 Hs1 Hsafe) as (m' & r & E' & Hrun).
    { pose proof (settled_fewer i op m m1 Hi ltac:(by rewrite Hst) Hset). lia. }
    exists m', r. split; [done|]. eapply settled_run_trans; [|done]. eapply settled_settling; [done|by rewrite Hst|done].
  - destruct (sy_ops _ _ _ Hs' i op Hi) as [H1 _ _ _ _]. apply H1 in Hst. lia.
Qed.

Lemma settle_results_step k s m : synced k s m → live (vw m) →
  ∃ m' r, settle_buffered_results p index g m = (m', Ok r) ∧ settled_run m r m'.
Proof using CMP HS HF.
  intros Hs Hl. unfold settle_buffered_results, bind. cbn [coordinator get ret]. unfold bind. cbn [get ret].
  eapply settle_loop_step; [done..|]. pose proof (length_filter (λ op, is_unsettled (op_state op) = true) (co_ops (co m))) as H.
  unfold count. lia.
Qed.

(** ** Completions *)

Lemma frames_ahead k pos id v f f' : frames k f f' → order !! pos = Some id → k ≤ pos → (∀ t, flat !! id ≠ Some (Text t)) →
  frames k f (store id v f').
Proof using CMP.
  intros [? ? ? ? Hlen Hval Htext] Hk Hle Hnt. constructor; try done; simpl.
  - by rewrite length_insert.
  - intros pos' q Hq Hlt. rewrite list_lookup_insert_ne; [by apply (Hval pos' q)|]. intros ->.
    pose proof (order_inj pos pos' q Hk Hq). lia.
  - intros q t Hq. rewrite list_lookup_insert_ne; [by apply Htext|]. intros ->. by apply Hnt in Hq.
Qed.

(** The driver delivers the result of [i]. *)
Record delivered (i : nat) (m m1 : Machine) : Prop := {
  de_co : co m1 = co m;
  de_host : host m1 = host m;
  de_pending : results_pending m1 = delete i (results_pending m);
}.

(** An operation in flight has no result and no publication yet. *)
Lemma inflight_fresh m i op : live (vw m) → co_ops (co m) !! i = Some op → op_state op = InFlight →
  worker_results (co m) !! i = None ∧ worker_publications (co m) !! i = None.
Proof.
  intros Hl Hi Hst. pose proof (live_weak _ _ _ _ Hl) as Hw. split.
  - destruct (worker_results (co m) !! i) eqn:E; [|done]. destruct (weak_results _ _ _ _ Hw i) as (op' & Hi' & ?); [by eexists|].
    simpl in Hi'. congruence.
  - destruct (worker_publications (co m) !! i) eqn:E; [|done].
    destruct (proj1 (weak_publications _ _ _ _ Hw i)) as (op' & Hi' & ?); [simpl; by rewrite E|]. simpl in Hi'. congruence.
Qed.

(** The frontier stays where it is when a result arrives. *)
Lemma synced_deliver k s m m1 i op st m' : synced k s m → delivered i m m1 → co_ops (co m) !! i = Some op → op_state op = InFlight →
  co_ops (co m') = alter (set_run_state st) i (co_ops (co m)) → host m' = host m1 → driver m' = driver m1 →
  frames k (s_frame s) (frame (co m')) → (∀ q, q ≠ op_plan_node op → values (frame (co m')) !! q = values (frame (co m)) !! q) →
  (∀ j, j ≠ i → worker_results (co m') !! j = worker_results (co m) !! j) →
  (results_pending m' !! i = None → op_synced k m' i (set_run_state st op)) →
  (∀ n, n ∈ materialized (co m') ↔ n ∈ materialized (co m) ∨ visible st ∧ n ∈ op_outputs op) →
  (∀ n group, provisional_groups (co m') !! n = Some group → provisional_groups (co m) !! n = Some group ∨ st = Published ∧ n ∈ op_outputs op) →
  is_pending st = false →
  synced k s m' ∧ driver m' = driver m1 ∧ count is_pending (co_ops (co m')) = count is_pending (co_ops (co m)).
Proof using CMP.
  intros Hs [_ D2 D3] Hi Hst E1 E2 E3 E4 E5 E6 E7 E8 E9 E10.
  assert (Hp : results_pending m' = delete i (results_pending m)) by (unfold results_pending at 1; by rewrite E3).
  split_and!; [|done|].
  - apply (synced_move k s m i op st); try done; [by left|apply Hs|apply Hs|rewrite E2, D2; apply Hs|..].
    + intros j Hj. by rewrite Hp, lookup_delete_ne.
    + apply E7. rewrite Hp. apply lookup_delete_eq.
    + rewrite Hst. by intros [?|?].
    + intros n group Hn. destruct (E9 n group Hn) as [?|?]; [left|by right]. split; [done|]. by rewrite Hst.
  - rewrite E1. pose proof (count_alter is_pending i op st (co_ops (co m)) Hi) as Hc. rewrite Hst, E10 in Hc. simpl in Hc. lia.
Qed.

Lemma buffer_step k s m m1 i r : synced k s m → live (vw m) → results_pending m !! i = Some r → delivered i m m1 →
  ∃ m', buffer_worker_completion p index flat i (Completed r) m1 = (m', Ok Continue) ∧ synced k s m' ∧ driver m' = driver m1 ∧
    count is_pending (co_ops (co m')) = count is_pending (co_ops (co m)).
Proof using CMP.
  intros Hs Hl Hr Hd. pose proof Hd as [D1 D2 D3]. destruct (sy_pending _ _ _ Hs i) as [op Hi]; [by rewrite Hr|].
  destruct (sy_ops _ _ _ Hs i op Hi) as [H1 H2 H3 H4 H5].
  assert (Hst : op_state op = InFlight) by (destruct (op_state op); congruence). rewrite Hst in *.
  destruct H4 as (r' & Hr' & Ha). rewrite Hr in Hr'. injection Hr' as <-. destruct (inflight_fresh m i op Hl Hi Hst) as [Hres Hpub].
  pose proof (synced_op _ _ _ _ _ Hs Hi) as H0. destruct (op_position i _ H0) as [Hpos Hid]. simpl in Hpos, Hid.
  assert (Hge : k ≤ op_ordinal op) by (destruct (decide (op_ordinal op < k)) as [Hlt%H1|]; [done|lia]).
  assert (Hlen : op_plan_node op < length (values (frame (co m)))) by (by rewrite (fs_length _ _ _ (sy_frames _ _ _ Hs))).
  unfold buffer_worker_completion. unfold bind at 1. cbn [coordinator bind get ret]. rewrite D1, Hi.
  rewrite bool_decide_eq_true_2 by done. cbn [negb].
  destruct (group_total p index flat Hv Hx Hflat (co m)) with i as [group Hg]; [|by eapply lookup_lt_Some|].
  { apply (shaped_plan p g (co_ops c0) base (HOps := built_ops _ _ _ _ _ _ Hbuilt)), Hl. }
  rewrite (bind_ok _ _ m1 m1 group) by (unfold lift; by rewrite Hg).
  assert (Hbuf : ∃ m', buffer_outcome i op (Completed r) m1 = (m', Ok Continue) ∧ synced k s m' ∧ driver m' = driver m1 ∧
    count is_pending (co_ops (co m')) = count is_pending (co_ops (co m))).
  { eexists. split; [apply buffer_outcome_eq; [by rewrite D1|by apply Ha]|].
    apply (synced_deliver k s m m1 i op Buffered); simpl; rewrite ?D1; try done.
    - apply Hs.
    - intros j Hj. by rewrite lookup_insert_ne.
    - intros Hp. constructor; simpl; rewrite ?D1; [by rewrite <-H1|by intros _; apply H2|done..|].
      intros r'. rewrite lookup_insert_eq. intros [= <-]. by exists r.
    - intros n. split; [by left|]. by intros [?|[[?|?] _]].
    - by left. }
  destruct r as [e|v]; [done|]. destruct (_ || _); [|done]. clear Hbuf.
  destruct (publish_completion_eq i op group v m1) as (m' & E & E1 & E2 & E3 & E4 & E5 & E6 & E7); [by rewrite D1..| |by rewrite D1|].
  { exact (wc_pure _ _ Hcon i _ H0). }
  exists m'. split; [done|]. rewrite D1 in *. apply (synced_deliver k s m m1 i op Published); try done; rewrite ?E4, ?E6; try done.
  - apply (frames_ahead k (op_ordinal op)); [apply Hs|done|done|]. intros t. exact (op_not_text i _ t H0).
  - intros q Hq. simpl. by rewrite list_lookup_insert_ne.
  - intros Hp. constructor; simpl; [by rewrite <-H1|by intros _; apply H2| |done|by rewrite E6, Hres].
    exists v. split; [|done]. rewrite E4. simpl. by apply list_lookup_insert_eq.
  - intros n. rewrite E5, elem_of_union, elem_of_list_to_set. split; [intros [?|?]; [right; split; [by left|done]|by left]|].
    intros [?|[_ ?]]; [by right|by left].
  - intros n grp Hn. destruct (E7 n grp Hn) as [?|?]; [by left|by right].
Qed.
End Steps.
