(* ===== verification/SerialDrive.v ===== *)
(** * Receiving, waiting and stopping beside the serial run

    The measure of progress; events that are received keep the two executions together;
    after a failure the started operations are drained and discarded, and the evaluator
    stays as it is. *)

From S2P Require Import Prelude.
From S2P Require Import BackendCatalog.
From S2P Require Import Ir.
From S2P Require Import ExecutionPlan.
From S2P Require Import Effects.
From S2P Require Import DispatchModel.
From S2P Require Import Topological.
From S2P Require Import PlanTheorems.
From S2P Require Import PlanSchedules.
From S2P Require Import DispatchTheorems.
From S2P Require Import HGraph.
From S2P Require Import HGraphValidate.
From S2P Require Import ReadySchedule.
From S2P Require Import ExecutionContract.
From S2P Require Import EvalFrame.
From S2P Require Import ParallelTasks.
From S2P Require Import Coordinator.
From S2P Require Import CoordinatorFacts.
From S2P Require Import CoordinatorSafety.
From S2P Require Import CoordinatorDrive.
From S2P Require Import CoordinatorTheorems.
From S2P Require Import GraphWiring.
From S2P Require Import Serial.
From S2P Require Import SerialFacts.
From S2P Require Import SerialRefinement.
From S2P Require Import SerialSteps.
From stdpp Require Import options.

#[local] Open Scope nat_scope.

Section Drive.
Context `{OV : !OValues, ER : !Errors, SH : !Shims, LV : !Leaves, DG : !Digests, UT : !UnicodeTables}.
Context `{HO : !GraphEvaluationHost, AD : !AttemptDriver, LD : !LawfulDriver}.
Context {prog : OIrProgram} {g : HGraph} {index : ExecutionPlanIndex} {c0 : Coordinator} {s0 : SerialState}.

Abbreviation p := (plan prog).
Abbreviation flat := (flatten_for_plan prog).
Abbreviation order := (idx_order index).
Abbreviation run k := (serial_nodes p index flat g (take k order) s0).

Context {HS : SerialHost p index flat} {CMP : Comparison prog g index c0 s0} {HF : FrameKeeping}.
Context {base : list TraceEvent}.

Abbreviation Hbuilt := (cmp_built prog g index c0 s0).
Abbreviation Hwired := (cmp_wired prog g index c0 s0).
Abbreviation Hord := (cmp_ordered prog g index c0 s0).
Abbreviation Hcon := (cmp_contracts prog g index c0 s0).
Abbreviation synced := (synced (prog := prog) (g := g) (index := index) (c0 := c0) (s0 := s0)).
Abbreviation answer := (answer (prog := prog) (g := g) (index := index) (s0 := s0)).
Abbreviation frames := (frames (prog := prog) (index := index)).
Abbreviation serial_fails := (serial_fails (prog := prog) (g := g) (index := index) (s0 := s0)).
Abbreviation live := (live p (co_ops c0) base).
Abbreviation vw m := (view (co m)).

(** The coordinator and the serial run are together. *)
Definition together (m : Machine) : Prop := live (vw m) ∧ ∃ k s, synced k s m.

(** ** Progress *)

Definition pending_ops (m : Machine) : nat := count is_pending (co_ops (co m)).

(** How long the driver can stay silent. *)
Definition delay (m : Machine) : nat :=
  match driver m with Some d => if bool_decide (d_pending d = ∅) then 0 else d_delay d | None => 0 end.

Definition not_after (m' m : Machine) : Prop :=
  pending_ops m' = pending_ops m ∧ (is_Some (driver m') ↔ is_Some (driver m)) ∧
  (size (results_pending m') < size (results_pending m) ∨ size (results_pending m') = size (results_pending m) ∧ delay m' ≤ delay m).

(** A turn starts an operation, or receives a result, or uses up some of the delay. *)
Definition closer (m' m : Machine) : Prop :=
  pending_ops m' < pending_ops m ∨
  pending_ops m' = pending_ops m ∧
    (size (results_pending m') < size (results_pending m) ∨ size (results_pending m') = size (results_pending m) ∧ delay m' < delay m).

Lemma not_after_refl m : not_after m m.
Proof. unfold not_after. split_and!; [done..|]. lia. Qed.

Lemma not_after_trans m m1 m2 : not_after m2 m1 → not_after m1 m → not_after m2 m.
Proof. intros (C1 & D1 & E1) (C2 & D2 & E2). split_and!; [congruence|by rewrite D1|]. clear -E1 E2. lia. Qed.

Lemma closer_after m m1 m2 : closer m2 m1 → not_after m1 m → closer m2 m.
Proof. unfold closer. intros C1 (C2 & _ & E2). clear -C1 C2 E2. lia. Qed.

(** ** Receiving *)

Lemma accept_step m m1 i r : together m → results_pending m !! i = Some r → delivered i m m1 →
  ∃ m', (∀ fuel, accept_worker_event_or_abort p index flat g fuel (TaskCompletion i (Completed r)) m1 = (m', Ok tt)) ∧
    together m' ∧ driver m' = driver m1 ∧ pending_ops m' = pending_ops m.
Proof using CMP.
  intros (Hl & k & s & Hs) Hr Hd. destruct (buffer_step k s m m1 i r Hs Hl Hr Hd) as (m' & E & Hs' & D & C).
  exists m'. split_and!; [|split; [|by exists k, s]|done|done].
  - intros fuel. unfold accept_worker_event_or_abort, accept_worker_event, accept_worker_completion. by rewrite E.
  - assert (Hl1 : live (vw m1)) by (by rewrite (de_co _ _ _ Hd)).
    pose proof (built_ops _ _ _ _ _ _ Hbuilt) as HOps. pose proof (live_closed p g (co_ops c0) base) as Hc.
    pose proof (buffer_worker_completion_safe p index flat g Hv Hx Hflat (co_ops c0) base live i (Completed r) m1 Hl1) as Hsafe.
    unfold safe in Hsafe. rewrite E in Hsafe. apply Hsafe.
Qed.

(** One poll finds nothing, or a result. *)
Lemma poll_step m : is_Some (driver m) → ∃ m1 event, on_driver try_recv_event m = (m1, Ok (inr event)) ∧ is_Some (driver m1) ∧
  match event with
  | None => co m1 = co m ∧ host m1 = host m ∧ results_pending m1 = results_pending m ∧ delay m1 ≤ delay m ∧
      (results_pending m ≠ ∅ → delay m1 < delay m)
  | Some event => ∃ i r, event = TaskCompletion i (Completed r) ∧ results_pending m !! i = Some r ∧ delivered i m m1
  end.
Proof.
  intros [d Hd]. destruct (ld_poll d) as (d' & event & E & Hev). unfold on_driver. rewrite Hd, E. eexists _, event. split; [done|].
  split; [by eexists|]. destruct event as [[i r|]|]; [| done|].
  - destruct Hev as (v & -> & H1 & H2). exists i, v. unfold results_pending. rewrite Hd. split_and!; [done..|]. constructor; [done..|].
    unfold results_pending. by rewrite Hd.
  - destruct Hev as [H1 H2]. unfold results_pending, delay. simpl. rewrite Hd, H1. split_and!; [done..| |].
    + case_bool_decide; [done|]. by apply Nat.lt_le_incl, H2.
    + intros Hne. rewrite bool_decide_eq_false_2 by done. by apply H2.
Qed.

Lemma together_same m m1 : together m → co m1 = co m → host m1 = host m → results_pending m1 = results_pending m → together m1.
Proof.
  intros (Hl & k & s & [H1 H2 H3 H4 H5 H6 H7 H8 H9]) E1 E2 E3. split; [by rewrite E1|]. exists k, s. constructor; rewrite ?E1, ?E2, ?E3; try done.
  intros i op Hi. destruct (H6 i op Hi) as [? ? ? ? ?]. by constructor; rewrite ?E1, ?E3.
Qed.

Lemma delivered_size m m1 i r : results_pending m !! i = Some r → delivered i m m1 →
  size (results_pending m) = S (size (results_pending m1)).
Proof.
  intros Hr [_ _ E]. rewrite E, map_size_delete_Some by (by eexists).
  assert (size (results_pending m) ≠ 0); [|lia]. apply map_size_ne_0_lookup. by eexists _, _.
Qed.

Lemma results_driver m m1 : driver m1 = driver m → results_pending m1 = results_pending m.
Proof. unfold results_pending. by intros ->. Qed.

Lemma receive_step m : together m → is_Some (driver m) →
  eventually (λ fuel, receive_available p index flat g fuel) (λ _ m', together m' ∧ not_after m' m) never m.
Proof using CMP.
  remember (size (results_pending m)) as n eqn:Hn. revert m Hn. induction n as [n IH] using lt_wf_ind. intros m Hn Hm Hd.
  eapply eventually_loop; [done|]. apply eventually_bind.
  destruct (poll_step m Hd) as (m1 & event & E & Hd1 & Hev). eapply (eventually_ret _ _ _ _ m m1); [done|]. destruct event as [event|].
  - destruct Hev as (i & r & -> & Hr & Hdel). destruct (accept_step m m1 i r Hm Hr Hdel) as (m2 & E2 & Hm2 & D2 & C2).
    pose proof (delivered_size m m1 i r Hr Hdel) as Hsz. rewrite <-(results_driver m1 m2 D2) in Hsz.
    apply eventually_bind. eapply eventually_ret; [done|]. eapply eventually_mono; [apply (IH (size (results_pending m2)))| |done].
    + rewrite Hn, Hsz. lia.
    + done.
    + done.
    + by rewrite D2.
    + intros _ m3 [Hm3 (C3 & D3 & E3)]. split; [done|]. split_and!; [congruence|by rewrite D3, D2|]. lia.
  - destruct Hev as (H1 & H2 & H3 & H4 & _). eapply eventually_ret; [done|]. split; [by eapply together_same|].
    split_and!; [unfold pending_ops; by rewrite H1|done|]. right. by rewrite H3.
Qed.

Lemma control_eq m : on_host check_request_control m = (m, Ok (inr tt)).
Proof using HS. unfold on_host. rewrite sh_control. by destruct m. Qed.

Lemma pending_driver m : results_pending m ≠ ∅ → is_Some (driver m).
Proof. unfold results_pending. destruct (driver m); [by eexists|done]. Qed.

Lemma wait_step m : together m → results_pending m ≠ ∅ →
  eventually (λ fuel, wait_for_event p index flat g fuel) (λ _ m', together m' ∧ closer m' m ∧ is_Some (driver m')) never m.
Proof using CMP HS.
  intros Hm Hne. apply eventually_bind. destruct (poll_step m (pending_driver m Hne)) as (m1 & event & E & Hd1 & Hev).
  eapply (eventually_ret _ _ _ _ m m1); [done|]. destruct event as [event|].
  - destruct Hev as (i & r & -> & Hr & Hdel). destruct (accept_step m m1 i r Hm Hr Hdel) as (m2 & E2 & Hm2 & D2 & C2).
    pose proof (delivered_size m m1 i r Hr Hdel) as Hsz. rewrite <-(results_driver m1 m2 D2) in Hsz.
    eapply eventually_ret; [done|]. split_and!; [done| |by rewrite D2]. right. split; [done|]. left. lia.
  - destruct Hev as (H1 & H2 & H3 & H4 & H5). apply eventually_bind. eapply (eventually_ret _ _ _ (inr tt) m1 m1); [intros _; apply control_eq|].
    eapply eventually_ret; [done|]. split_and!; [by eapply together_same| |done].
    right. split; [unfold pending_ops; by rewrite H1|]. right. rewrite H3. auto.
Qed.

(** ** Ending after a failure *)

(** A computation that returns, and leaves the evaluator and the driver alone. *)
Definition steady {A} (x : M Machine Error A) (m : Machine) : Prop :=
  ∃ m' r, x m = (m', r) ∧ returned r ∧ host m' = host m ∧ driver m' = driver m ∧
    op_plan_node <$> co_ops (co m') = op_plan_node <$> co_ops (co m).

Lemma steady_bind {A B} (x : M Machine Error A) (k : A → M Machine Error B) m :
  steady x m → (∀ a m1, steady x m → x m = (m1, Ok a) → steady (k a) m1) → steady (bind x k) m.
Proof.
  intros (m1 & r & E & Hr & H1 & H2 & H3) Hk. unfold steady, bind. rewrite E. destruct r as [a|e| |]; try done.
  - destruct (Hk a m1) as (m2 & r2 & E2 & Hr2 & G1 & G2 & G3); [by exists m1, (Ok a)|done|]. exists m2, r2. rewrite E2.
    split_and!; [done..|congruence|congruence|congruence].
  - by exists m1, (Err e).
Qed.

Lemma steady_update f m : op_plan_node <$> co_ops (f (co m)) = op_plan_node <$> co_ops (co m) → steady (update f) m.
Proof. intros E. by eexists _, (Ok tt). Qed.

Lemma steady_ret {A} (a : A) m : steady (ret a) m.
Proof. by exists m, (Ok a). Qed.

Lemma steady_fail {A} e m : steady (fail (A := A) e) m.
Proof. by exists m, (Err e). Qed.

Lemma steady_lift {A} (r : outcome Error A) m : returned r → steady (lift r) m.
Proof. intros Hr. by exists m, r. Qed.

Lemma alter_ids st i (l : list OpState) : op_plan_node <$> alter (set_run_state st) i l = op_plan_node <$> l.
Proof.
  apply list_eq. intros j. rewrite !list_lookup_fmap, list_lookup_alter. destruct (decide (i = j)) as [-> |]; [|done]. by destruct (l !! j).
Qed.

Lemma steady_publish i op group v m : co_ops (co m) !! i = Some op → steady (publish_completion i op group v) m.
Proof.
  intros Hi. unfold publish_completion. destruct (_ && _); [apply steady_fail|]. apply steady_bind; [by exists m, (Ok (co m))|].
  intros c m0 _ [= <- <-]. apply steady_bind.
  { unfold store_value. apply steady_bind; [by exists m, (Ok (co m))|]. intros c m0 _ [= <- <-]. destruct (set_value _ _ _); [apply steady_ret|].
    apply steady_bind; [by apply steady_update|]. intros. apply steady_ret. }
  intros stored m1 _ E1. assert (co_ops (co m1) = co_ops (co m)) as Eo.
  { unfold store_value, bind in E1. simpl in E1. by destruct (set_value _ _ _); injection E1 as <- _. }
  apply steady_bind; [apply steady_lift, returned_from|]. intros [] m2 _ E2.
  assert (m2 = m1) as -> by (unfold lift in E2; congruence). apply steady_bind.
  { unfold publish_outputs. apply steady_bind; [exists m1, (Ok op); rewrite (op_at_eq i op m1) by (by rewrite Eo); done|].
    intros. by apply steady_update. }
  intros _ m2 _ _. apply steady_bind; [|intros _ m3 _ _; apply steady_bind; [by apply steady_update, alter_ids|]].
  { destruct (match group with Some _ => _ | None => _ end); [by apply steady_update|apply steady_ret]. }
  intros _ m4 _ _. apply steady_bind; [by exists m4, (Ok (co m4))|]. intros c5 m5 _ _. apply steady_bind; [by apply steady_update|].
  intros _ m6 _ _. case_bool_decide; [apply steady_fail|apply steady_ret].
Qed.

Lemma steady_buffer i r m : Forall (λ op, op_plan_node op < length (plan_nodes p)) (co_ops (co m)) →
  steady (buffer_worker_completion p index flat i r) m.
Proof using CMP.
  intros Hb. unfold buffer_worker_completion. apply steady_bind; [by exists m, (Ok (co m))|]. intros c m0 _ [= <- <-].
  destruct (co_ops (co m) !! i) as [op|] eqn:Hi; [|apply steady_fail]. destruct (negb _); [apply steady_fail|].
  destruct (group_total p index flat Hv Hx Hflat (co m) Hb i (lookup_lt_Some _ _ _ Hi)) as [group Hg]. rewrite Hg.
  apply steady_bind; [by apply steady_lift|]. intros group' m0 _ E0. injection E0 as <- <-.
  assert (steady (buffer_outcome i op r) m).
  { unfold buffer_outcome. apply steady_bind; [apply steady_update, alter_ids|]. intros _ m1 _ _.
    apply steady_bind; [by exists m1, (Ok (co m1))|]. intros c m2 _ _. apply steady_bind; [by apply steady_update|]. intros _ m3 _ _.
    destruct (match _ with Some _ => true | None => false end); [apply steady_fail|apply steady_ret]. }
  destruct r as [[e|v]|e]; [done| |done]. destruct (_ || _); [|done]. by apply steady_publish.
Qed.

Lemma Forall_ids (l l' : list OpState) (P : PlanNodeId → Prop) : op_plan_node <$> l' = op_plan_node <$> l →
  Forall (λ op, P (op_plan_node op)) l → Forall (λ op, P (op_plan_node op)) l'.
Proof. intros E H. change (Forall (P ∘ op_plan_node) l'). apply Forall_fmap. rewrite E. by apply Forall_fmap. Qed.

(** Draining ends, and does not use the evaluator. *)
Lemma drain_step refuse err m : Forall (λ op, op_plan_node op < length (plan_nodes p)) (co_ops (co m)) →
  eventually (λ fuel, drain p index flat fuel refuse err) (λ _ m', host m' = host m) never m.
Proof using CMP LD.
  remember (size (results_pending m)) as n eqn:Hn. revert m err Hn. induction n as [n IH] using lt_wf_ind. intros m err Hn Hb.
  eapply eventually_loop; [done|]. apply eventually_bind. eapply (eventually_ret _ _ _ m m m); [done|]. case_bool_decide as Ho.
  { by eapply eventually_ret. }
  destruct (has_outstanding m Ho) as [d Hd]. unfold outstanding_tasks in Ho. rewrite Hd, ld_outstanding in Ho.
  destruct (ld_wait d) as (d' & i & v & E & H1 & H2). { intros E. rewrite E, map_size_empty in Ho. done. }
  apply eventually_bind. eapply (eventually_ret _ _ _ _ m {| co := co m; driver := Some d'; host := host m |}).
  { intros _. unfold on_driver. by rewrite Hd, E. }
  cbn beta iota. set (m1 := {| co := co m; driver := Some d'; host := host m |}).
  assert (Hsz : size (results_pending m) = S (size (results_pending m1))).
  { apply (delivered_size m m1 i v); [unfold results_pending; by rewrite Hd|]. constructor; [done..|]. unfold results_pending. by rewrite Hd. }
  destruct (steady_buffer i (Completed v) m1 Hb) as (m2 & r & E2 & Hr & G1 & G2 & G3).
  assert (Hrec : ∀ err', eventually (λ fuel, drain p index flat fuel refuse err') (λ _ m', host m' = host m) never m2).
  { intros err'. eapply eventually_mono; [apply (IH (size (results_pending m2)))| |done].
    - rewrite Hn, Hsz, (results_driver m1 m2 G2). lia.
    - done.
    - by apply (Forall_ids (co_ops (co m1)) _ (λ id, id < length (plan_nodes p))).
    - intros ? m3 ->. done. }
  destruct r as [disposition|e| |]; [| |done..].
  - eapply eventually_eq; [|apply (Hrec err)]. intros fuel. by rewrite E2.
  - eapply eventually_eq; [|apply (Hrec (Some (default e err)))]. intros fuel. by rewrite E2.
Qed.

(** A computation without fuel that does not use the evaluator. *)
Definition unfueled {A} (x : M Machine Error A) : Prop := ∀ m m' r, x m = (m', r) → host m' = host m ∧ r ≠ NoFuel.

Lemma unfueled_bind {A B} (x : M Machine Error A) (k : A → M Machine Error B) : unfueled x → (∀ a, unfueled (k a)) → unfueled (bind x k).
Proof.
  intros Hx Hk m m' r. unfold bind. destruct (x m) as [m1 r1] eqn:E. destruct (Hx m m1 r1 E) as [H1 H2].
  destruct r1 as [a|e| |]; [|intros [= <- <-]; done..]. intros Hr. destruct (Hk a m1 m' r Hr) as [H3 H4]. by rewrite H3.
Qed.

Lemma unfueled_update f : unfueled (update f).
Proof. by intros m m' r [= <- <-]. Qed.

Lemma unfueled_op_at i : unfueled (op_at i).
Proof. unfold op_at, bind, lift. simpl. intros m m' r [= <- <-]. split; [done|]. by destruct (co_ops (co m) !! i). Qed.

Lemma discard_unfueled reason l : unfueled (discard_all reason l).
Proof.
  induction l as [|i l IH]; simpl; [by intros m m' r [= <- <-]|]. apply unfueled_bind; [|done]. unfold discard_result.
  apply unfueled_bind; [apply unfueled_op_at|]. intros op. do 4 (apply unfueled_bind; [apply unfueled_update|intros _]).
  apply unfueled_bind; [by intros m m' r [= <- <-]|]. intros c. apply unfueled_bind.
  { unfold lift. intros m m' r [= <- <-]. split; [done|]. by destruct (values (frame c) !! op_plan_node op). }
  intros _. do 2 (apply unfueled_bind; [apply unfueled_update|intros _]). apply unfueled_update.
Qed.

(** After a failure the started operations are discarded; the evaluator stays as it is. *)
Lemma discard_step reason m : weak p (co_ops c0) base (vw m) →
  eventually (λ fuel, discard_started_workers p index flat fuel reason) (λ _ m', host m' = host m) never m.
Proof using CMP LD.
  intros Hw. pose proof (built_ops _ _ _ _ _ _ Hbuilt) as HOps. pose proof (weak_closed p g (co_ops c0) base) as Hc. apply eventually_bind.
  assert (Hb : Forall (λ op, op_plan_node op < length (plan_nodes p)) (co_ops (co m))) by (by apply (shaped_plan p g (co_ops c0) base), Hw).
  eapply eventually_mono; [eapply eventually_safe; [by apply drain_step|intros fuel; by apply (drain_safe p index flat g Hv Hx Hflat (co_ops c0) base (weak p (co_ops c0) base))]| |by intros e m' []].
  intros err m1 [Hh [Hw1 _]]. apply eventually_wp. pose proof (discard_started_safe p g (co_ops c0) base reason m1 (or_introl Hw1)) as Hsafe.
  unfold wp. unfold safe in Hsafe. destruct (discard_started reason m1) as [m2 r] eqn:E.
  assert (host m2 = host m1 ∧ r ≠ NoFuel) as [H1 H2].
  { revert E. unfold discard_started. apply unfueled_bind; [by intros ? ? ? [= <- <-]|]. intros c. apply discard_unfueled. }
  destruct r as [[]|e| |]; [congruence|done..].
Qed.
End Drive.
