(* ===== verification/SerialDispatch.v ===== *)
(** * Dispatch beside the serial run

    A ready operation reads the values that the serial run is going to have when it
    gets there, so the result of its task is the result of the serial run; and an
    operation on the coordinator thread does what the serial run does. *)

From S2P Require Import Prelude.
From S2P Require Import BackendCatalog.
From S2P Require Import Ir.
From S2P Require Import ExecutionPlan.
From S2P Require Import Effects.
From S2P Require Import DispatchModel.
From S2P Require Import Topological.
From S2P Require Import PlanTheorems.
From S2P Require Import PlanSchedules.
From S2P Require Import DispatchTheorems.
From S2P Require Import HGraph.
From S2P Require Import HGraphValidate.
From S2P Require Import ReadySchedule.
From S2P Require Import ExecutionContract.
From S2P Require Import EvalFrame.
From S2P Require Import ParallelTasks.
From S2P Require Import Coordinator.
From S2P Require Import CoordinatorFacts.
From S2P Require Import CoordinatorSafety.
From S2P Require Import CoordinatorDrive.
From S2P Require Import CoordinatorTheorems.
From S2P Require Import GraphWiring.
From S2P Require Import Serial.
From S2P Require Import SerialFacts.
From S2P Require Import SerialRefinement.
From S2P Require Import SerialSteps.
From S2P Require Import SerialDrive.
From stdpp Require Import options.

#[local] Open Scope nat_scope.

(** ** Candidates *)

Section Candidates.
Context `{OV : !OValues, ER : !Errors, SH : !Shims, LV : !Leaves, DG : !Digests}.
Context (p : ExecutionPlan) (index : ExecutionPlanIndex) (flat : list OIr) (c : Coordinator).

Lemma strict_prefix_length ready n selected unfinished l : length selected < n →
  strict_prefix p index flat c ready n selected unfinished = Ok l → length l ≤ n.
Proof.
  revert selected. induction unfinished as [|i unfinished IH]; intros selected Hlt H; cbn [strict_prefix] in H.
  { injection H as <-. lia. }
  peel H as op Hop. assert (Hstop : Ok selected = Ok (E := Error) l → length l ≤ n) by (intros [= <-]; lia).
  destruct (op_state op); [|destruct (_ && _); [by eapply IH|by apply Hstop]..|by apply Hstop|by apply Hstop].
  peel H as safe Hsafe. destruct (_ && _); [|by apply Hstop].
  assert (Hl : length (selected ++ [i]) = S (length selected)) by (rewrite length_app; simpl; lia). case_bool_decide as E.
  - injection H as <-. lia.
  - apply (IH (selected ++ [i])); [lia|done].
Qed.

Lemma strict_candidates_length ready n l : 0 < n → strict_candidates p index flat c ready n = Ok l → length l ≤ n.
Proof.
  intros Hn H. unfold strict_candidates in H. peel H as selected Hsel. apply strict_prefix_length in Hsel; [|done].
  case_bool_decide; [injection H as <-; done|]. peel H as infallible Hinf. injection H as <-. rewrite length_app, length_take. lia.
Qed.

(** The slots are not exceeded. *)
Lemma candidates_length ready n l : worker_dispatch_candidates p index flat c ready n = Ok l → length l ≤ n.
Proof.
  unfold worker_dispatch_candidates. case_bool_decide as Hn; [intros [= <-]; simpl; lia|]. intros H. peel H as frontier Hf.
  destruct frontier; [injection H as <-; simpl; lia|]. peel H as ready' Hr. destruct (merge_sort _ ready') as [|[first group] rest].
  { apply (strict_candidates_length ready); [lia|done]. }
  peel H as clear Hc. destruct clear; [injection H as <-; rewrite length_take; lia|]. apply (strict_candidates_length ready); [lia|done].
Qed.

Context (Hv : validate p (length (roots p)) = Ok tt) (Hx : index_new p = Ok index) (Hflat : length flat = length (plan_nodes p)).
Context (Hin : Forall (λ op, op_plan_node op < length (plan_nodes p)) (co_ops c)).
Context (ready : list nat) (Hnd : NoDup ready) (Hready : ∀ i, i ∈ ready → i < length (co_ops c)).
Context (i : nat) (op : OpState) (Hi : co_ops c !! i = Some op) (Hr : i ∈ ready) (Hp : op_state op = Pending).
Context (Hsafe : is_worker_safe p index flat c i = Ok true).
Context (Hc : op_failure_class op = NeverFails ∨ op_failure_class op = MayFailNoExternalEffects).

(** A safe ready operation in front is selected. *)
Lemma strict_nonempty rest n l : 0 < n → by_key (co_ops c) (filter (λ i, has_state c Settled i = false) (indices c)) = i :: rest →
  strict_candidates p index flat c ready n = Ok l → l ≠ [].
Proof using Hv Hx Hflat Hin Hready Hi Hr Hp Hsafe Hc.
  intros Hn Hu H. unfold strict_candidates in H. rewrite Hu in H. cbn [strict_prefix] in H. rewrite Hi in H. cbn [index_or_panic outcome_bind] in H.
  rewrite Hp, (bool_decide_eq_true_2 (i ∈ ready)), Hsafe in H by done. cbn [outcome_bind andb] in H.
  assert (Hrest : ∀ j, j ∈ rest → j < length (co_ops c)).
  { intros j Hj. assert (Hj' : j ∈ i :: rest) by (by right). rewrite <-Hu in Hj'. unfold by_key in Hj'. rewrite merge_sort_Permutation in Hj'.
    apply list_elem_of_filter in Hj' as [_ Hj']. by apply elem_of_indices. }
  case_bool_decide as Hf.
  - peel H as selected Hsel. assert (Hne : selected ≠ []).
    { clear H. destruct (bool_decide (length ([] ++ [i]) = n)); [by injection Hsel as <-|].
      destruct (strict_prefix_total p index flat Hv Hx Hflat c Hin ready n ([] ++ [i]) rest Hrest) as (l' & E & _). rewrite E in Hsel.
      injection Hsel as <-. done. }
    case_bool_decide; [injection H as <-; done|]. peel H as infallible Hinf. injection H as <-. by destruct selected.
  - simpl in H. rewrite bool_decide_eq_false_2 in H by (simpl; lia). peel H as infallible Hinf. injection H as <-. simpl.
    assert (Hii : i ∈ infallible).
    { destruct (filter_outcome_total (safe_infallible p index flat c) ready) as (l' & E & _ & Hl').
      { intros j Hj. unfold safe_infallible. destruct (worker_safe_total p index flat Hv Hx Hflat c Hin j (Hready j Hj)) as [b ->].
        destruct (lookup_lt_is_Some_2 _ _ (Hready j Hj)) as [op' ->]. simpl. eauto. }
      rewrite E in Hinf. injection Hinf as <-. apply Hl'. split; [done|]. unfold safe_infallible. rewrite Hsafe, Hi. simpl.
      destruct Hc as [E'|E']; [|by destruct Hf]. by rewrite bool_decide_eq_true_2. }
    destruct infallible; [by apply not_elem_of_nil in Hii|]. destruct n; [lia|]. done.
Qed.

Lemma candidates_nonempty rest n l : 0 < n → by_key (co_ops c) (filter (λ i, has_state c Settled i = false) (indices c)) = i :: rest →
  op_lane op = LocalWorker → lowest_unsettled c = Some i → worker_dispatch_candidates p index flat c ready n = Ok l → l ≠ [].
Proof using Hv Hx Hflat Hin Hready Hi Hr Hp Hsafe Hc.
  intros Hn Hu Hl Hlow H. unfold worker_dispatch_candidates in H. rewrite bool_decide_eq_false_2 in H by lia.
  destruct (frontier_total c ready) as (frontier & E & Hfr). rewrite E in H. cbn [outcome_bind] in H. destruct frontier as [j|].
  { destruct (proj1 (Hfr j) eq_refl) as (Hj & _ & _ & op' & Ho' & Hlane). rewrite Hlow in Hj. injection Hj as <-. congruence. }
  peel H as ready' Hr'. destruct (merge_sort _ ready') as [|[first group] rest'] eqn:Em; [by eapply strict_nonempty|].
  peel H as clear Hclear. destruct clear; [|by eapply strict_nonempty]. injection H as <-. rewrite filter_cons, decide_True by done.
  destruct n; [lia|]. done.
Qed.
End Candidates.

Section Dispatch.
Context `{OV : !OValues, ER : !Errors, SH : !Shims, LV : !Leaves, DG : !Digests, UT : !UnicodeTables}.
Context `{HO : !GraphEvaluationHost, AD : !AttemptDriver, LD : !LawfulDriver}.
Context {prog : OIrProgram} {g : HGraph} {index : ExecutionPlanIndex} {c0 : Coordinator} {s0 : SerialState}.

Abbreviation p := (plan prog).
Abbreviation flat := (flatten_for_plan prog).
Abbreviation order := (idx_order index).
Abbreviation run k := (serial_nodes p index flat g (take k order) s0).

Context {HS : SerialHost p index flat} {CMP : Comparison prog g index c0 s0} {HF : FrameKeeping}.
Context {base : list TraceEvent}.

Abbreviation Hbuilt := (cmp_built prog g index c0 s0).
Abbreviation Hwired := (cmp_wired prog g index c0 s0).
Abbreviation Hord := (cmp_ordered prog g index c0 s0).
Abbreviation Hcon := (cmp_contracts prog g index c0 s0).
Abbreviation synced := (synced (prog := prog) (g := g) (index := index) (c0 := c0) (s0 := s0)).
Abbreviation answer := (answer (prog := prog) (g := g) (index := index) (s0 := s0)).
Abbreviation frames := (frames (prog := prog) (index := index)).
Abbreviation live := (live p (co_ops c0) base).
Abbreviation vw m := (view (co m)).

(** ** Inputs *)

(** The operation that produces a node of the graph. *)
Lemma producer_state k s m j op n : synced k s m → co_ops c0 !! j = Some op → n ∈ op_outputs op →
  ∃ op', co_ops (co m) !! j = Some op' ∧ op = set_run_state Pending op' ∧
    (n ∈ materialized (co m) ↔ visible (op_state op')) ∧ (op_state op' ≠ Published → provisional_groups (co m) !! n = None).
Proof using CMP.
  intros Hs Hj Hn. destruct (skeleton_op (co_ops (co m)) j op) as [op' Hop']; [apply Hs|done|].
  pose proof (synced_op _ _ _ _ _ Hs Hop') as H0. rewrite Hj in H0. injection H0 as ->. exists op'.
  assert (Huniq : ∀ i op1, co_ops (co m) !! i = Some op1 → n ∈ op_outputs op1 → op1 = op').
  { intros i op1 Hi Hn1. assert (i = j) as ->; [|congruence].
    exact (wi_unique _ _ _ Hwired i j _ _ n (synced_op _ _ _ _ _ Hs Hi) Hj Hn1 Hn). }
  split_and!; [done|done| |].
  - rewrite (sy_outputs _ _ _ Hs). split.
    + intros [H|(i & op1 & Hi & Hv1 & Hn1)]; [by destruct (wi_fresh _ _ _ Hwired j _ n Hj Hn)|]. by rewrite <-(Huniq i op1 Hi Hn1).
    + intros Hvis. right. by exists j, op'.
  - intros Hst. destruct (provisional_groups (co m) !! n) as [group|] eqn:E; [|done].
    destruct (sy_groups _ _ _ Hs n group E) as (i & op1 & Hi & Hp & Hn1). by rewrite (Huniq i op1 Hi Hn1) in Hp.
Qed.

(** The operation at the frontier is ready. *)
Lemma frontier_ready k s m i op : synced k s m → co_ops (co m) !! i = Some op → op_ordinal op = k → op_state op = Pending →
  is_ready p index (co m) i = Ok true.
Proof using CMP.
  intros Hs Hi Hk Hst. pose proof (synced_op _ _ _ _ _ Hs Hi) as H0. unfold is_ready. rewrite Hi. cbn [index_or_panic outcome_bind].
  rewrite bool_decide_eq_true_2 by done.
  assert (Hin : ∀ n, n ∈ op_inputs op → input_ready p index (co m) op n = Ok true).
  { intros n Hn. assert (n ∈ materialized (co m) ∧ provisional_groups (co m) !! n = None) as [Hm Hg].
    { destruct (wi_inputs _ _ _ Hwired i _ n H0 Hn) as [Hm|(j & op1 & Hj & Hn1)].
      - split; [apply (sy_outputs _ _ _ Hs); by left|]. destruct (provisional_groups (co m) !! n) as [group|] eqn:E; [|done].
        destruct (sy_groups _ _ _ Hs n group E) as (j & op1 & Hj & _ & Hn1).
        by destruct (wi_fresh _ _ _ Hwired j _ n (synced_op _ _ _ _ _ Hs Hj) Hn1).
      - pose proof (po_depends _ _ Hord j i _ _ n Hj H0 Hn1 Hn) as Hlt. simpl in Hlt.
        destruct (producer_state k s m j op1 n Hs Hj Hn1) as (op' & Hop' & -> & Hmat & Hgrp). simpl in Hlt.
        assert (Hset : op_state op' = Settled) by (apply (sy_ops _ _ _ Hs j op' Hop'); lia).
        split; [apply Hmat; by right|]. apply Hgrp. by rewrite Hset. }
    unfold input_ready. by rewrite bool_decide_eq_true_2, Hg. }
  clear -Hin. induction (op_inputs op) as [|n l IH]; simpl; [done|]. rewrite Hin by (by left). simpl. apply IH. intros n' Hn'. apply Hin. by right.
Qed.

Lemma ready_input m i op n : co_ops (co m) !! i = Some op → is_ready p index (co m) i = Ok true → n ∈ op_inputs op → n ∈ materialized (co m).
Proof.
  intros Hi Hr Hn. unfold is_ready in Hr. rewrite Hi in Hr. cbn [index_or_panic outcome_bind] in Hr. case_bool_decide; [|done].
  assert (Hin : input_ready p index (co m) op n = Ok true).
  { revert Hr Hn. generalize (op_inputs op). intros l. induction l as [|n' l IH]; [by intros _ ?%not_elem_of_nil|]. simpl.
    intros Hr. peel Hr as b Hb. destruct b; [|done]. intros [-> |Hn]%elem_of_cons; auto. }
  unfold input_ready in Hin. case_bool_decide; done.
Qed.

(** The values that a ready operation reads. *)
Lemma ready_values k s m i op q : synced k s m → co_ops (co m) !! i = Some op → is_ready p index (co m) i = Ok true →
  q ∈ preds p (op_plan_node op) →
  ∃ v, values (frame (co m)) !! q = Some (Some v) ∧ (∀ t, flat !! q = Some (Text t) → v = str_ t) ∧
    ∀ s', run (op_ordinal op) = (s', Ok tt) → values (s_frame s') !! q = Some (Some v).
Proof using CMP HS.
  intros Hs Hi Hr Hq. pose proof (synced_op _ _ _ _ _ Hs Hi) as H0. destruct (op_position i _ H0) as [Hpos _]. simpl in Hpos.
  assert (Hle : op_ordinal op ≤ length order) by (apply lookup_lt_Some in Hpos; lia).
  destruct (wi_preds _ _ _ Hwired i _ q H0 Hq) as [[t Ht]|(j & op1 & Hj & Eq & Hin & Hout)].
  - exists (str_ t). split; [by apply (fs_texts _ _ _ (sy_frames _ _ _ Hs))|]. split; [intros t' Ht'; congruence|]. intros s' Hr'.
    destruct (pred_before _ _ q Hpos Hq) as (pos & Hpos' & Hlt). exact (text_value q t pos (op_ordinal op) s' Ht Hpos' Hlt Hle Hr').
  - pose proof (ready_input m i op _ Hi Hr Hin) as Hm. pose proof (po_depends _ _ Hord j i _ _ _ Hj H0 Hout Hin) as Hlt. simpl in Hlt.
    destruct (producer_state k s m j op1 _ Hs Hj Hout) as (op' & Hop' & -> & Hmat & _). apply Hmat in Hm. simpl in Hlt, Eq.
    assert (Hnt : ∀ t, flat !! q ≠ Some (Text t)).
    { intros t. rewrite <-Eq. exact (op_not_text j _ t Hj). }
    destruct (sy_ops _ _ _ Hs j op' Hop') as [H1 H2 H3 _ _]. destruct Hm as [Hst|Hst]; rewrite Hst in H3.
    + destruct H3 as (v & Hval & Ha). exists v. rewrite <-Eq. split_and!; [done| |].
      * intros t Ht. by destruct (Hnt t); rewrite <-Eq.
      * intros s' Hr'. refine (answer_value j _ v (op_ordinal op) s' Hj _ Ha Hlt Hle Hr'). apply H2. by rewrite Hst.
    + apply H1 in Hst. destruct (op_position j _ Hj) as [Hpos' _]. simpl in Hpos'. rewrite Eq in Hpos'.
      destruct (run_framed k s (sy_bound _ _ _ Hs) (sy_run _ _ _ Hs)) as [_ _ _ Hdone _].
      destruct (Hdone _ q Hpos' Hst) as [v Hval]. exists v.
      rewrite (fs_values _ _ _ (sy_frames _ _ _ Hs) _ q Hpos' Hst). split_and!; [done|intros t Ht; by destruct (Hnt t)|].
      intros s' Hr'. rewrite <-Hval. destruct (decide (k ≤ op_ordinal op)) as [Hk|Hk].
      * exact (run_keeps k (op_ordinal op) s s' _ q Hk Hle (sy_run _ _ _ Hs) Hr' Hpos' Hst).
      * symmetry. assert (Hk' : op_ordinal op ≤ k) by lia.
        exact (run_keeps (op_ordinal op) k s' s _ q Hk' (sy_bound _ _ _ Hs) Hr' (sy_run _ _ _ Hs) Hpos' Hlt).
Qed.

Lemma ready_same_inputs k s m i op s' : synced k s m → co_ops (co m) !! i = Some op → is_ready p index (co m) i = Ok true →
  run (op_ordinal op) = (s', Ok tt) → same_inputs p (op_plan_node op) (frame (co m)) (s_frame s').
Proof using CMP HS.
  intros Hs Hi Hr Hr'. destruct (op_position i _ (synced_op _ _ _ _ _ Hs Hi)) as [Hpos _]. simpl in Hpos. apply lookup_lt_Some in Hpos. split.
  - destruct (run_framed k s (sy_bound _ _ _ Hs) (sy_run _ _ _ Hs)) as [_ E1 _ _ _].
    destruct (run_framed (op_ordinal op) s' ltac:(lia) Hr') as [_ E2 _ _ _]. rewrite (fs_scope _ _ _ (sy_frames _ _ _ Hs)). congruence.
  - intros q Hq. destruct (ready_values k s m i op q Hs Hi Hr Hq) as (v & -> & _ & Hv'). by rewrite (Hv' s' Hr').
Qed.

Lemma ready_available k s m i op : synced k s m → co_ops (co m) !! i = Some op → is_ready p index (co m) i = Ok true →
  inputs_available p (op_plan_node op) (frame (co m)).
Proof using CMP HS.
  intros Hs Hi Hr q Hq. destruct (ready_values k s m i op q Hs Hi Hr Hq) as (v & Hval & Ht & _). exists v. split; [done|]. intros Hk.
  pose proof (preds_bound p Hv _ q Hq) as Hlt. destruct (lookup_lt_is_Some_2 (plan_nodes p) q Hlt) as [n Hn].
  destruct (plan_node_kind prog q n Hn) as (oir & Ho & Ek). unfold kind_at in Hk. rewrite Hn in Hk. simpl in Hk. apply Ok_inj in Hk.
  rewrite Ek in Hk. destruct (text_kind oir Hk) as [t ->]. rewrite (Ht t Ho), sh_text_value. by eexists.
Qed.

(** The worker operation at the frontier is safe to dispatch. *)
Lemma frontier_safe k s m i op : synced k s m → co_ops (co m) !! i = Some op → op_ordinal op = k → op_state op = Pending →
  op_lane op = LocalWorker → is_worker_safe p index flat (co m) i = Ok true.
Proof using CMP HS.
  intros Hs Hi Hk Hst Hl. pose proof (synced_op _ _ _ _ _ Hs Hi) as H0. destruct (op_position i _ H0) as [_ Hid]. simpl in Hid.
  destruct (flat_lookup _ Hid) as [oir Ho]. destruct (wc_safe _ _ Hcon i _ oir H0 Hl Ho) as [Hsafe Hmatch]. simpl in Hsafe, Hmatch.
  unfold is_worker_safe. rewrite Hi. cbn [index_or_panic outcome_bind]. rewrite bool_decide_eq_true_2 by done. cbn [negb].
  unfold oir_at. rewrite Ho. cbn [index_or_panic outcome_bind]. rewrite Hsafe. cbn [negb]. rewrite Hmatch. cbn [plan_result outcome_bind].
  assert (Hr : run (op_ordinal op) = (s, Ok tt)) by (rewrite Hk; apply Hs).
  rewrite (pure_inputs_agree p index Hv Hx _ Hid _ (s_frame s)).
  - exact (worker_inputs_pure i _ s H0 Hl Hr).
  - eapply ready_same_inputs; [done..|by eapply frontier_ready|done].
Qed.

(** ** Submission *)

(** A task and the result of the serial run. *)
Definition promised (m : Machine) (submission : nat * PlanNodeId * PreparedTask) : Prop :=
  ∃ op, co_ops (co m) !! submission.1.1 = Some op ∧ op_plan_node op = submission.1.2 ∧ op_state op = Pending ∧
    op_lane op = LocalWorker ∧ answer op (execute_prepared submission.2).

Lemma prepare_step k s m i : synced k s m → is_ready p index (co m) i = Ok true → is_worker_safe p index flat (co m) i = Ok true →
  ∃ submission, prepare_submission p index flat i m = (m, Ok submission) ∧ submission.1.1 = i ∧ promised m submission.
Proof using CMP HS.
  intros Hs Hr Hsafe. apply is_ready_pending in Hr as Hp. apply has_state_Some in Hp as (op & Hi & Hst).
  pose proof (worker_safe_lane p index flat (co m) i op Hi Hsafe) as Hl.
  pose proof (synced_op _ _ _ _ _ Hs Hi) as H0. destruct (op_position i _ H0) as [_ Hid]. simpl in Hid.
  destruct (flat_lookup _ Hid) as [oir Ho]. destruct (wc_safe _ _ Hcon i _ oir H0 Hl Ho) as [_ Hmatch]. simpl in Hmatch.
  pose proof (worker_adapter i _ H0 Hl) as Ha. simpl in Ha.
  destruct (prepare_available p index Hv Hx (op_plan_node op) (frame (co m)) (op_adapter op) oir Hid
    (ready_available k s m i op Hs Hi Hr) Ha Hmatch) as (task & Htask & Hrender).
  exists (i, op_plan_node op, task). split; [|split; [done|]].
  - unfold prepare_submission. rewrite (bind_ok _ _ _ _ _ (op_at_eq i op m Hi)). rewrite (bind_ok _ _ m m (co m)) by done.
    unfold oir_at. rewrite Ho. rewrite (bind_ok _ _ m m oir) by done. rewrite (bind_ok _ _ m m task); [done|].
    by destruct Ha as [E|E]; rewrite E in *; unfold lift; rewrite Htask.
  - exists op. split_and!; [done..|]. split.
    + intros Hc. destruct Ha as [E|E]; [|by apply Hrender]. simpl in *.
      destruct (wc_adapter _ _ Hcon i _ H0 Hl) as [[_ Hf]|[Hf _]]; simpl in Hf; congruence.
    + intros s' oir' Ho' Hr'. simpl in Ho', Hr'. rewrite Ho in Ho'. injection Ho' as <-. exists task. split; [|done]. rewrite <-Htask.
      symmetry. apply (prepare_agrees p index Hv Hx _ Hid); [|done]. by eapply ready_same_inputs.
Qed.

Lemma prepare_all_step k s m l : synced k s m →
  (∀ i, i ∈ l → is_ready p index (co m) i = Ok true ∧ is_worker_safe p index flat (co m) i = Ok true) →
  ∃ submissions, prepare_all p index flat l m = (m, Ok submissions) ∧ (λ s, s.1.1) <$> submissions = l ∧ Forall (promised m) submissions.
Proof using CMP HS.
  intros Hs. induction l as [|i l IH]; intros Hl; [by exists []|]. cbn [prepare_all].
  destruct (Hl i) as [Hr Hsafe]; [by left|]. destruct (prepare_step k s m i Hs Hr Hsafe) as (sub & E & Hsub & Hp).
  destruct IH as (subs & E' & Hsubs & Hps); [intros j Hj; apply Hl; by right|]. exists (sub :: subs).
  rewrite (bind_ok _ _ _ _ _ E), (bind_ok _ _ _ _ _ E'). split_and!; [done|rewrite fmap_cons; by f_equal|by constructor].
Qed.

Definition slots (m : Machine) : nat := match driver m with Some d => available_slots d | None => 0 end.

(** One task is submitted. *)
Lemma submit_step k s m submission : synced k s m → promised m submission → 0 < slots m →
  ∃ m', submit_prepared submission m = (m', Ok tt) ∧ synced k s m' ∧ slots m ≤ S (slots m') ∧ is_Some (driver m') ∧
    co_ops (co m') = alter (set_run_state InFlight) submission.1.1 (co_ops (co m)).
Proof using CMP.
  intros Hs (op & Hi & Hid & Hst & Hl & Ha) Hsl. destruct submission as [[i id] task]. simpl in *. subst id. unfold slots in Hsl.
  destruct (driver m) as [d|] eqn:Hd; [|lia]. destruct (sy_ops _ _ _ Hs i op Hi) as [H1 H2 H3 H4 H5]. rewrite Hst in *.
  unfold results_pending in H4. rewrite Hd in H4. destruct (ld_submit i task d H4 Hsl) as (d' & E & Hp & Hs').
  unfold submit_prepared. rewrite (bind_ok _ _ m {| co := co m; driver := Some d'; host := host m |} (inr tt)).
  2:{ unfold on_driver. by rewrite Hd, E. }
  eexists. split; [done|]. cbn [update modify co driver host emit set_trace set_state set_ops co_ops slots].
  split_and!; [|unfold slots; rewrite Hd; exact Hs'|by eexists|done].
  apply (synced_move k s m i op InFlight); simpl; try done; try apply Hs.
  - by left.
  - intros j Hj. unfold results_pending. simpl. by rewrite Hd, Hp, lookup_insert_ne.
  - constructor; simpl; [by rewrite <-H1|done|done| |done]. exists (execute_prepared task). split; [|done].
    unfold results_pending. simpl. by rewrite Hp, lookup_insert_eq.
  - by rewrite Hst; intros [?|?].
  - intros n. split; [by left|]. by intros [?|[[?|?] _]].
  - intros n group Hg. left. split; [done|]. by rewrite Hst.
Qed.

Lemma submit_all_step k s m submissions : synced k s m → Forall (promised m) submissions → NoDup ((λ s, s.1.1) <$> submissions) →
  length submissions ≤ slots m → is_Some (driver m) →
  ∃ m', for_each submit_prepared submissions m = (m', Ok tt) ∧ synced k s m' ∧ is_Some (driver m') ∧
    pending_ops m' + length submissions = pending_ops m.
Proof using CMP.
  revert m. induction submissions as [|sub subs IH]; intros m Hs Hp Hnd Hlen Hd.
  { exists m. split_and!; [done..|]. simpl. lia. }
  apply Forall_cons in Hp as [Hsub Hp]. rewrite fmap_cons, NoDup_cons in Hnd. destruct Hnd as [Hni Hnd]. simpl in Hlen.
  destruct (submit_step k s m sub Hs Hsub) as (m1 & E & Hs1 & Hsl & Hd1 & Eo); [lia|].
  destruct (IH m1 Hs1) as (m2 & E2 & Hs2 & Hd2 & Hc); [|done|lia|done|].
  { apply Forall_forall. intros sub' Hs'. rewrite Forall_forall in Hp. destruct (Hp sub' Hs') as (op & Hi & ?). exists op.
    rewrite Eo, list_lookup_alter_ne; [done|]. intros E'. apply Hni. rewrite E'. by apply (list_elem_of_fmap_2 (λ s, s.1.1)). }
  exists m2. cbn [for_each]. rewrite (bind_ok _ _ _ _ _ E). split_and!; [done..|]. destruct Hsub as (op & Hi & _ & Hst & _).
  pose proof (count_alter is_pending _ op InFlight (co_ops (co m)) Hi) as Hcount. rewrite Hst in Hcount. unfold pending_ops in *.
  rewrite Eo in Hc. simpl in *. clear -Hc Hcount. lia.
Qed.

(** No selected operation is a hosted block, so nothing is verified again. *)
Lemma dispatch_step k s m l : synced k s m → is_Some (driver m) → NoDup l → length l ≤ slots m → l ≠ [] →
  (∀ i, i ∈ l → is_ready p index (co m) i = Ok true ∧ is_worker_safe p index flat (co m) i = Ok true) →
  ∃ m', dispatch_workers p index flat l m = (m', Ok tt) ∧ synced k s m' ∧ is_Some (driver m') ∧ pending_ops m' < pending_ops m.
Proof using CMP HS.
  intros Hs Hd Hnd Hlen Hne Hl. unfold dispatch_workers. rewrite (bind_ok _ _ m m (co m)) by done.
  assert (existsb (λ i, match co_ops (co m) !! i with Some op => is_shim op | None => false end) l = false) as ->.
  { apply not_true_iff_false. intros (i & Hi%list_elem_of_In & Hsh)%existsb_exists. destruct (co_ops (co m) !! i) as [op|] eqn:Ho; [|done].
    apply bool_decide_eq_true in Hsh. destruct (Hl i Hi) as [_ Hsafe].
    pose proof (worker_safe_lane p index flat (co m) i op Ho Hsafe) as Hlane.
    destruct (worker_adapter i _ (synced_op _ _ _ _ _ Hs Ho) Hlane) as [E|E]; simpl in E; congruence. }
  rewrite (bind_ok _ _ m m tt) by done. destruct (prepare_all_step k s m l Hs Hl) as (subs & E & Hsubs & Hp).
  rewrite (bind_ok _ _ _ _ _ E). rewrite <-Hsubs in Hnd.
  assert (El : length l = length subs) by (by rewrite <-Hsubs, length_fmap).
  destruct (submit_all_step k s m subs Hs Hp Hnd) as (m' & E' & Hs' & Hd' & Hc); [lia|done|]. exists m'. split_and!; [done..|].
  destruct l; [done|]. simpl in El. lia.
Qed.
End Dispatch.

(** * Operations on the coordinator thread *)

Section Local.
Context `{OV : !OValues, ER : !Errors, SH : !Shims, LV : !Leaves, DG : !Digests, UT : !UnicodeTables}.
Context `{HO : !GraphEvaluationHost, AD : !AttemptDriver, LD : !LawfulDriver}.
Context {prog : OIrProgram} {g : HGraph} {index : ExecutionPlanIndex} {c0 : Coordinator} {s0 : SerialState}.

Abbreviation p := (plan prog).
Abbreviation flat := (flatten_for_plan prog).
Abbreviation order := (idx_order index).
Abbreviation run k := (serial_nodes p index flat g (take k order) s0).

Context {HS : SerialHost p index flat} {CMP : Comparison prog g index c0 s0} {HF : FrameKeeping}.
Context {base : list TraceEvent}.

Abbreviation Hbuilt := (cmp_built prog g index c0 s0).
Abbreviation Hwired := (cmp_wired prog g index c0 s0).
Abbreviation Hord := (cmp_ordered prog g index c0 s0).
Abbreviation Hcon := (cmp_contracts prog g index c0 s0).
Abbreviation synced := (synced (prog := prog) (g := g) (index := index) (c0 := c0) (s0 := s0)).
Abbreviation answer := (answer (prog := prog) (g := g) (index := index) (s0 := s0)).
Abbreviation frames := (frames (prog := prog) (index := index)).
Abbreviation serial_fails := (serial_fails (prog := prog) (g := g) (index := index) (s0 := s0)).
Abbreviation live := (live p (co_ops c0) base).
Abbreviation vw m := (view (co m)).


(** The operation at the frontier is the first of the unsettled ones. *)
Lemma frontier_head k s m i op : synced k s m → live (vw m) → co_ops (co m) !! i = Some op → op_ordinal op = k →
  ∃ rest, by_key (co_ops (co m)) (filter (λ i, has_state (co m) Settled i = false) (indices (co m))) = i :: rest.
Proof using CMP.
  intros Hs Hl Hi Hk. pose proof (built_ops _ _ _ _ _ _ Hbuilt) as HOps. pose proof (lowest_at k s m i op Hs Hi Hk) as Hlow.
  destruct (lowest_least p g (co_ops c0) base (co m) i) as (Hleast & op' & Hi' & Hst); [apply Hl|done|].
  set (l := filter _ (indices (co m))). assert (Hnd : NoDup l) by apply NoDup_filter, NoDup_seq.
  assert (Hin : ∀ j, j ∈ l ↔ ∃ op, co_ops (co m) !! j = Some op ∧ op_state op ≠ Settled).
  { intros j. unfold l. rewrite list_elem_of_filter, elem_of_indices. split.
    - intros [H [op1 Hj]%lookup_lt_is_Some_2]. exists op1. rewrite (has_state_op _ _ _ _ Hj), bool_decide_eq_false in H. done.
    - intros (op1 & Hj & H). rewrite (has_state_op _ _ _ _ Hj), bool_decide_eq_false. split; [done|]. by eapply lookup_lt_Some. }
  pose proof (by_key_sorted p g (co_ops c0) base (vw m) l ltac:(apply Hl) Hnd) as Hsort. simpl in Hsort.
  assert (Hi2 : i ∈ by_key (co_ops (co m)) l) by (rewrite by_key_perm; apply Hin; by exists op').
  assert (Hall : ∀ j, j ∈ by_key (co_ops (co m)) l → ∃ op, co_ops (co m) !! j = Some op ∧ op_state op ≠ Settled).
  { intros j. rewrite by_key_perm. apply Hin. }
  destruct Hsort as [|j rest _ Hj]; [intros j (op1 & -> & _)%Hin; by eexists|by apply not_elem_of_nil in Hi2|]. exists rest. f_equal.
  apply elem_of_cons in Hi2 as [-> |Hr]; [done|]. destruct (decide (j = i)) as [|Hne]; [done|].
  destruct (Hall j) as (op1 & Hj1 & Hst1); [by left|]. rewrite Forall_forall in Hj. specialize (Hj i Hr). specialize (Hleast j op1 Hj1 Hst1 Hne).
  destruct (key_lt_irrefl (op_key (co_ops (co m)) i)). by eapply key_lt_trans.
Qed.

(** A plain bash block is ahead of both executions or of none: a published operation is
    a load or a renderer. *)
Lemma same_bash k s m id : synced k s m → plain_bash_block_ahead p (s_frame s) id = plain_bash_block_ahead p (frame (co m)) id.
Proof using CMP HS.
  intros Hs. destruct (run_framed k s (sy_bound _ _ _ Hs) (sy_run _ _ _ Hs)) as [_ _ _ _ Htodo]. unfold plain_bash_block_ahead.
  assert (Hext : ∀ q n, plan_nodes p !! q = Some n → is_plain_bash_exec (node_kind n) = true →
    values (s_frame s) !! q = values (frame (co m)) !! q).
  { intros q n Hn Hb. destruct (order_position q (lookup_lt_Some _ _ _ Hn)) as [pos Hpos].
    destruct (decide (pos < k)) as [Hlt|Hge]; [symmetry; by apply (fs_values _ _ _ (sy_frames _ _ _ Hs) pos)|].
    rewrite (Htodo pos q Hpos) by lia. destruct (plan_node_kind prog q n Hn) as (oir & Ho & Ek). rewrite Ek in Hb.
    destruct (wi_nodes _ _ _ Hwired q oir Ho) as [[t ->]|(j & op0 & Hj & <-)]; [done|].
    destruct (skeleton_op (co_ops (co m)) j op0) as [op Hop]; [apply Hs|done|].
    pose proof (synced_op _ _ _ _ _ Hs Hop) as H0. rewrite Hj in H0. injection H0 as ->. simpl in *.
    destruct (op_position j _ Hj) as [Hpos' _]. simpl in Hpos'. pose proof (order_inj _ _ _ Hpos Hpos') as ->.
    destruct (sy_ops _ _ _ Hs j op Hop) as [H1 H2 H3 _ _]. destruct (op_state op) eqn:Hst; [done..| |].
    - exfalso. assert (Hl : op_lane op = LocalWorker) by (by apply H2). destruct (wc_safe _ _ Hcon j _ oir Hj Hl Ho) as [_ Hm].
      destruct (adapter_shape _ _ _ (worker_adapter j _ Hj Hl) Hm) as [[name ->]|(l & env & attr & backend & body & -> & Hsh)]; [done|].
      simpl in Hb. by rewrite (bool_decide_eq_false_2 _ Hsh), andb_false_r in Hb.
    - destruct Hge. by apply H1. }
  assert (Hent : ∀ entry, entry ∈ imap pair (plan_nodes p) → is_plain_bash_exec (node_kind entry.2) = true →
    values (s_frame s) !! entry.1 = values (frame (co m)) !! entry.1).
  { intros entry (q & n & -> & Hn)%elem_of_lookup_imap. by apply Hext. }
  clear -Hent. induction (imap pair (plan_nodes p)) as [|entry l IH]; [done|]. cbn [existsb].
  rewrite IH by (intros e He; apply Hent; by right). destruct (is_plain_bash_exec (node_kind entry.2)) eqn:Eb; [|by rewrite !andb_false_r].
  by rewrite (Hent entry) by (by left || done).
Qed.

Lemma frontier_indistinct k s m i op : synced k s m → co_ops (co m) !! i = Some op → op_ordinal op = k → op_state op = Pending →
  indistinct p (op_plan_node op) (s_frame s) (frame (co m)).
Proof using CMP HS.
  intros Hs Hi Hk Hst. destruct (ready_same_inputs k s m i op s Hs Hi) as [E1 E2]; [by eapply frontier_ready|rewrite Hk; apply Hs|].
  pose proof (sy_frames _ _ _ Hs) as [F1 F2 F3 F4 _ _ _]. pose proof (run_frame k s m Hs) as [_ _ Hforced].
  constructor; [|congruence..|by eapply same_bash]. split; [done|]. intros q Hq. by rewrite E2.
Qed.

(** The recheck before a launch is that of the serial run. *)
Lemma verify_eq m s i op oir r : host m = s_host s → co_ops c0 !! i = Some op → serial_verify g (op_plan_node op) oir s = (s, r) →
  verify_launch op oir m = (m, r).
Proof using CMP.
  intros Hh Hi. unfold serial_verify, verify_launch, ask_host, check, bind, get, ret. rewrite (wi_effect _ _ _ Hwired i op Hi).
  rewrite (orb_comm (is_shim_exec oir)). destruct (_ || _); [|by intros [= <-]]. rewrite Hh.
  destruct (verify_admitted_runtime_context (s_host s)); simpl; [by intros [= <-]|].
  destruct oir; try (by intros [= <-]). case_bool_decide; [|by intros [= <-]]. rewrite Hh. by intros [= <-].
Qed.

(** The end of [run_coordinator_op]. *)
Definition local_settle (i : nat) (id : PlanNodeId) (r : Error + OValue) : M Machine Error unit :=
  match r with
  | inr v =>
      update take_forced_failures ;;*
      update (emit (trace_finished id (type_name v) (trace_fingerprint v))) ;;*
      store_or_fail id v ;;*
      materialize_success g i
  | inl e =>
      let* settled := settle_member p index id e in
      match settled with
      | Some (failure, v) =>
          update (emit (trace_batch_member_failed failure)) ;;*
          update (emit (trace_finished id (type_name v) (trace_fingerprint v))) ;;*
          store_or_fail id v ;;*
          materialize_member_error i
      | None =>
          update (emit (trace_failed id (to_string e))) ;;*
          record_failure i (to_string e) ;;*
          fail e
      end
  end.

Lemma local_eq i op oir policy saved hp h f r m : co_ops (co m) !! i = Some op → flat !! op_plan_node op = Some oir →
  verify_launch op oir m = (m, Ok tt) → node_policy (frame (co m)) !! op_plan_node op = Some policy →
  set_policy policy (host m) = (saved, hp) → execute_ready_plan_node (op_plan_node op) oir (frame (co m)) hp = (h, f, r) →
  ∃ t, run_coordinator_op p index flat g i m =
    local_settle i (op_plan_node op) r {| co := set_frame f (set_trace t (co m)); driver := driver m; host := (set_policy saved h).2 |}.
Proof.
  intros Hi Ho Hver Hp Hset Hex. unfold run_coordinator_op. rewrite (bind_ok _ _ _ _ _ (op_at_eq i op m Hi)).
  rewrite (bind_ok _ _ m m oir) by (unfold lift, oir_at; by rewrite Ho). rewrite (bind_ok _ _ _ _ _ Hver).
  unfold update, modify, coordinator, lift, on_host, execute_node, bind, get, ret. cbn [co driver host emit set_trace frame].
  rewrite Hp. cbn [index_or_panic co driver host]. rewrite Hset. cbn [co driver host frame set_trace emit]. rewrite Hex. cbn [co driver host].
  destruct (set_policy saved h) as [x h']. cbn [snd co driver host]. eexists. done.
Qed.

(** An operation on the coordinator thread is the next step of the serial run. *)
Lemma local_step k s m i op : synced k s m → live (vw m) → co_ops (co m) !! i = Some op → op_ordinal op = k → op_state op = Pending →
  ∃ m' r, run_coordinator_op p index flat g i m = (m', r) ∧
    match r with
    | Ok _ => ∃ s', synced (S k) s' m' ∧ settled_op i m m'
    | Err e => serial_fails e (host m')
    | _ => False
    end.
Proof using CMP HS.
  intros Hs Hl Hi Hk Hst. pose proof (synced_op _ _ _ _ _ Hs Hi) as H0. destruct (op_position i _ H0) as [Hpos Hid].
  simpl in Hpos, Hid. rewrite Hk in Hpos. destruct (flat_lookup _ Hid) as [oir Ho]. pose proof (run_frame k s m Hs) as Hfr.
  pose proof (run_step p index flat g order s0 k _ s Hpos (sy_run _ _ _ Hs)) as Hnext.
  destruct (serial_node_cases p index flat g (op_plan_node op) oir s Ho Hid Hfr) as [(s' & e & E & Hver & Hh)|Hrun].
  { exists m, (Err e). split.
    - unfold run_coordinator_op. rewrite (bind_ok _ _ _ _ _ (op_at_eq i op m Hi)).
      rewrite (bind_ok _ _ m m oir) by (unfold lift, oir_at; by rewrite Ho). unfold bind at 1.
      change (verify_launch op) with (verify_launch (set_run_state Pending op)). by rewrite (verify_eq m s i _ oir (Err e) (sy_host _ _ _ Hs) H0 Hver).
    - rewrite (sy_host _ _ _ Hs), <-Hh. rewrite <-Hnext in E. by eapply step_fails; [|apply Hs|]. }
  destruct Hrun as (policy & saved & hp & h & forced & r & t & Hver & Hpol & Hset & Hex & Hforced & E). rewrite <-Hnext in E.
  destruct (sh_local (op_plan_node op) oir (s_frame s) (frame (co m)) hp Ho (frontier_indistinct k s m i op Hs Hi Hk Hst))
    as (h1 & r1 & forced1 & Hex1 & Hex2 & _).
  rewrite Hex in Hex1. injection Hex1 as <- Eforced <-. apply app_inv_head in Eforced as <-. clear Hex. destruct (local_eq i op oir policy saved hp h (add_forced forced (frame (co m))) r m Hi Ho) as [t' ->]; [|by rewrite (fs_policy _ _ _ (sy_frames _ _ _ Hs))| |done|].
  { by apply (verify_eq m s i _ oir (Ok tt) (sy_host _ _ _ Hs) H0). }
  { by rewrite (sy_host _ _ _ Hs). }
  set (m1 := {| co := set_frame _ _; driver := _; host := _ |}).
  destruct (serial_settle_eq p index Hv Hx (op_plan_node op) r
    {| s_frame := add_forced forced (s_frame s); s_trace := t; s_host := (set_policy saved h).2 |}) as (s' & E' & Ef & Hh); [done|apply Hfr|].
  rewrite E' in E. cbn [s_frame s_host] in *. clear E'.
  assert (Hb : beside i m m1).
  { constructor; try done. simpl. destruct (worker_results (co m) !! i) as [x|] eqn:Ex; [|done].
    destruct (weak_results _ _ _ _ (live_weak _ _ _ _ Hl) i) as (op' & Hi' & Hst'); [by eexists|]. simpl in Hi'. congruence. }
  assert (Hlen : op_plan_node op < length (values (frame (co m)))) by (by rewrite (fs_length _ _ _ (sy_frames _ _ _ Hs))).
  pose proof (sy_frames _ _ _ Hs) as Hfs. destruct r as [e|v]; simpl in *.
  - subst forced. rewrite add_forced_nil in *. unfold settle_member.
    destruct (settle_member_cases _ e Hid) as [Hc|(failure & v & Hc)]; rewrite Hc in *; simpl in *.
    + eexists _, (Err e). split; [|].
      { unfold local_settle, settle_member, bind. cbn [coordinator get ret bind]. unfold bind, lift. cbn [get ret m1 co frame set_frame].
        rewrite Hc. cbn [update modify co driver host]. unfold record_failure, op_at, bind. simpl. unfold lift. rewrite Hi. reflexivity. }
      simpl. rewrite <-Hh. by eapply step_fails; [|apply Hs|].
    + set (m2 := with_co (λ c, emit (trace_finished (op_plan_node op) (type_name v) (trace_fingerprint v))
        (emit (trace_batch_member_failed failure) (set_frame (add_failed_member (op_plan_node op) (frame c)) c))) m1).
      destruct (store_settle_eq i op v materialize_member_error m2) as [t2 E2]; [done|done|by intros m3 Hi3; apply materialize_member_error_eq|].
      eexists _, (Ok tt). split.
      { unfold local_settle, settle_member, bind at 1 2 3. cbn [coordinator get ret bind]. unfold bind at 1 2 3, lift. cbn [get ret m1 co frame set_frame].
        rewrite Hc. exact E2. }
      exists s'. split; [|done]. eapply (synced_finish k s m i op (add_failed_member (op_plan_node op) (s_frame s))); try done; [by left|..].
      * by destruct Hb; constructor.
      * by eapply framed_member.
      * change (frame (co m2)) with (add_failed_member (op_plan_node op) (add_forced [] (frame (co m)))). rewrite add_forced_nil.
        by apply frames_member.
  - set (m2 := with_co (λ c, emit (trace_finished (op_plan_node op) (type_name v) (trace_fingerprint v)) (take_forced_failures c)) m1).
    destruct (store_settle_eq i op v (materialize_success g) m2) as [t2 E2]; [done|done| |].
    { intros m3 Hi3. apply materialize_success_eq; [done|]. by eapply op_recorded. }
    eexists _, (Ok tt). split; [exact E2|]. exists s'. split; [|done].
    eapply (synced_finish k s m i op (clear_forced (add_forced forced (s_frame s)))); try done; [by left|..].
    + by destruct Hb; constructor.
    + by destruct Hfr; constructor.
    + by destruct Hfs; constructor.
Qed.
End Local.
