(* ===== verification/SerialLoop.v ===== *)
(** * The event loop beside the serial run

    Every turn of the loop keeps the two executions together and gets closer to the
    end, or ends with the error of the serial run. *)

From S2P Require Import Prelude.
From S2P Require Import BackendCatalog.
From S2P Require Import Ir.
From S2P Require Import ExecutionPlan.
From S2P Require Import Effects.
From S2P Require Import DispatchModel.
From S2P Require Import Topological.
From S2P Require Import PlanTheorems.
From S2P Require Import PlanSchedules.
From S2P Require Import DispatchTheorems.
From S2P Require Import HGraph.
From S2P Require Import HGraphValidate.
From S2P Require Import ReadySchedule.
From S2P Require Import ExecutionContract.
From S2P Require Import EvalFrame.
From S2P Require Import ParallelTasks.
From S2P Require Import Coordinator.
From S2P Require Import CoordinatorFacts.
From S2P Require Import CoordinatorSafety.
From S2P Require Import CoordinatorDrive.
From S2P Require Import CoordinatorTheorems.
From S2P Require Import GraphWiring.
From S2P Require Import Serial.
From S2P Require Import SerialFacts.
From S2P Require Import SerialRefinement.
From S2P Require Import SerialSteps.
From S2P Require Import SerialDrive.
From S2P Require Import SerialDispatch.
From stdpp Require Import options.

#[local] Open Scope nat_scope.

Section Loop.
Context `{OV : !OValues, ER : !Errors, SH : !Shims, LV : !Leaves, DG : !Digests, UT : !UnicodeTables}.
Context `{HO : !GraphEvaluationHost, AD : !AttemptDriver, LD : !LawfulDriver}.
Context {prog : OIrProgram} {g : HGraph} {index : ExecutionPlanIndex} {c0 : Coordinator} {s0 : SerialState}.

Abbreviation p := (plan prog).
Abbreviation flat := (flatten_for_plan prog).
Abbreviation order := (idx_order index).
Abbreviation run k := (serial_nodes p index flat g (take k order) s0).

Context {HS : SerialHost p index flat} {CMP : Comparison prog g index c0 s0} {HF : FrameKeeping}.
Context {base : list TraceEvent}.

Abbreviation Hbuilt := (cmp_built prog g index c0 s0).
Abbreviation Hwired := (cmp_wired prog g index c0 s0).
Abbreviation Hord := (cmp_ordered prog g index c0 s0).
Abbreviation Hcon := (cmp_contracts prog g index c0 s0).
Abbreviation synced := (synced (prog := prog) (g := g) (index := index) (c0 := c0) (s0 := s0)).
Abbreviation answer := (answer (prog := prog) (g := g) (index := index) (s0 := s0)).
Abbreviation frames := (frames (prog := prog) (index := index)).
Abbreviation serial_fails := (serial_fails (prog := prog) (g := g) (index := index) (s0 := s0)).
Abbreviation live := (live p (co_ops c0) base).
Abbreviation vw m := (view (co m)).


Abbreviation together := (together (prog := prog) (g := g) (index := index) (c0 := c0) (s0 := s0) (base := base)).

(** Without a driver there is no operation for a worker. *)
Definition supplied (m : Machine) : Prop :=
  is_Some (driver m) ∨ ∀ i op, co_ops c0 !! i = Some op → op_lane op = CoordinatorLane.

(** A turn that goes on. *)
Definition turned (m m' : Machine) : Prop := together m' ∧ closer m' m ∧ (is_Some (driver m') ↔ is_Some (driver m)).

Lemma turned_after m m1 m2 : turned m1 m2 → not_after m1 m → turned m m2.
Proof. intros (H1 & H2 & H3) Hn. split_and!; [done|by eapply closer_after|]. rewrite H3. by destruct Hn as (_ & ? & _). Qed.

Lemma settling_after m m' : settling m m' → not_after m' m.
Proof.
  intros [D C]. split_and!; [done|by rewrite D|]. right. split; [by rewrite (results_driver m m' D)|]. unfold delay. by rewrite D.
Qed.

Lemma ops_bound m : live (vw m) → Forall (λ op, op_plan_node op < length (plan_nodes p)) (co_ops (co m)).
Proof using CMP. intros Hl. pose proof (built_ops _ _ _ _ _ _ Hbuilt) as HOps. apply (shaped_plan p g (co_ops c0) base), Hl. Qed.

(** ** Dispatch *)

(** Tasks are submitted, or nothing can be. *)
Lemma try_dispatch_step k s m ready : synced k s m → live (vw m) → ready_ops p index (co m) = Ok ready →
  ∃ m' (b : bool), (∀ fuel, try_dispatch p index flat g fuel ready m = (m', Ok b)) ∧
    if b then turned m m'
    else m' = m ∧ ∀ d, driver m = Some d → worker_dispatch_candidates p index flat (co m) ready (available_slots d) = Ok [].
Proof using CMP HS.
  intros Hs Hl Hready. destruct (ready_total p index Hv Hx (co m) (ops_bound m Hl)) as (ready' & Hr' & Hnd & Hr).
  rewrite Hready in Hr'. injection Hr' as <-. destruct (driver m) as [d|] eqn:Hd.
  2:{ exists m, false. split; [|done]. intros fuel. unfold try_dispatch, bind. cbn [get]. by rewrite Hd. }
  destruct (candidates_total p index flat Hv Hx Hflat (co m) (ops_bound m Hl) ready (available_slots d)) as (l & El & Hndl & Hsel);
    [done|intros i Hi; by apply Hr|].
  destruct l as [|i0 l].
  { exists m, false. split; [|split; [done|by intros ? [= <-]]]. intros fuel. unfold try_dispatch, bind. cbn [get]. by rewrite Hd, El. }
  assert (Hready' : ∀ i, i ∈ i0 :: l → is_ready p index (co m) i = Ok true ∧ is_worker_safe p index flat (co m) i = Ok true).
  { intros i Hi. destruct (Hsel i Hi) as [[_ ?]%Hr ?]. done. }
  destruct (dispatch_step k s m (i0 :: l)) as (m' & E & Hs' & Hd' & Hc); [done|by rewrite Hd|done| |done|done|].
  { unfold slots. rewrite Hd. by eapply candidates_length. }
  exists m', true. split.
  - intros fuel. unfold try_dispatch. rewrite (bind_ok _ _ m m m) by done. rewrite Hd. rewrite (bind_ok _ _ m m (i0 :: l)) by (unfold lift; by rewrite El).
    by rewrite E.
  - split_and!; [|by left|split; intros _; [by rewrite Hd|done]]. split; [|by exists k, s].
    pose proof (built_ops _ _ _ _ _ _ Hbuilt) as HOps.
    pose proof (dispatch_workers_safe p index flat g Hv Hx Hflat (co_ops c0) base (i0 :: l) m Hl Hndl) as Hsafe.
    unfold safe in Hsafe. rewrite E in Hsafe. apply Hsafe; [|by rewrite Hd]. intros i Hi. destruct (Hready' i Hi) as [?%is_ready_pending ?]. done.
Qed.

(** A worker operation at the frontier can be submitted to an idle driver. *)
Lemma idle_dispatches k s m i op d ready : synced k s m → live (vw m) → ready_ops p index (co m) = Ok ready →
  co_ops (co m) !! i = Some op → op_ordinal op = k → op_state op = Pending → op_lane op = LocalWorker → driver m = Some d → d_pending d = ∅ →
  worker_dispatch_candidates p index flat (co m) ready (available_slots d) ≠ Ok [].
Proof using CMP HS.
  intros Hs Hl Hready Hi Hk Hst Hlane Hd Hp Hc. pose proof (ops_bound m Hl) as Hb.
  destruct (ready_total p index Hv Hx (co m) Hb) as (ready' & Hr' & Hnd & Hr). rewrite Hready in Hr'. injection Hr' as <-.
  destruct (frontier_head k s m i op Hs Hl Hi Hk) as [rest Hrest].
  refine (candidates_nonempty p index flat (co m) Hv Hx Hflat Hb ready _ i op Hi _ Hst _ _ rest (available_slots d) [] _ Hrest Hlane _ Hc eq_refl).
  - intros j Hj. by apply Hr.
  - apply Hr. split; [by eapply lookup_lt_Some|by eapply frontier_ready].
  - by eapply frontier_safe.
  - destruct (wc_adapter _ _ Hcon i _ (synced_op _ _ _ _ _ Hs Hi) Hlane) as [[_ ?]|[_ ?]]; [by right|done].
  - by apply ld_slots.
  - by eapply lowest_at.
Qed.

(** ** Failures *)

(** After a failure the result is the error, whatever is still in flight. *)
Lemma stop_step {A} reason e m (R : Error → Machine → Prop) Q : weak p (co_ops c0) base (vw m) → (∀ m', host m' = host m → R e m') →
  eventually (λ fuel, discard_started_workers p index flat fuel reason ;;* fail (A := A) e) Q R m.
Proof using CMP LD.
  intros Hw HR. apply eventually_bind. eapply eventually_mono; [by apply (discard_step (base := base))| |by intros ? ? []]. intros a m' Hh. cbn beta in Hh.
  eapply eventually_fail; [done|]. by apply HR.
Qed.

Lemma report_step failure m Q : weak p (co_ops c0) base (vw m) → is_Some (co_ops (co m) !! wf_index failure) →
  serial_fails (wf_error failure) (host m) →
  eventually (λ fuel, report_failure p index flat fuel failure) Q (λ e m', serial_fails e (host m')) m.
Proof using CMP LD.
  intros Hw [op Hi] Hf. apply eventually_bind. eapply (eventually_ret _ _ _ op m m); [intros _; by apply op_at_eq|].
  apply stop_step; [done|]. by intros m' ->.
Qed.

Lemma frontier_step k s m i op : synced k s m → live (vw m) → co_ops (co m) !! i = Some op → op_ordinal op = k → op_state op = Pending →
  eventually (λ fuel, run_frontier p index flat g fuel i) (λ _ m', turned m m') (λ e m', serial_fails e (host m')) m.
Proof using CMP HS HF LD.
  intros Hs Hl Hi Hk Hst. pose proof (built_ops _ _ _ _ _ _ Hbuilt) as HOps. destruct (local_step k s m i op Hs Hl Hi Hk Hst) as (m' & r & E & Hr).
  destruct (lowest_least p g (co_ops c0) base (co m) i) as (Hleast & _); [apply Hl|by eapply lowest_at|].
  pose proof (run_coordinator_op_safe p index flat g Hv Hx Hflat (co_ops c0) base i op m Hl Hi Hst Hleast) as Hsafe.
  unfold safe in Hsafe. rewrite E in Hsafe. destruct r as [[]|e| |]; [| |done..].
  - destruct Hr as (s' & Hs' & Hset). destruct Hsafe as [Hl' Hd].
    eapply eventually_ret; [intros fuel; unfold run_frontier; by rewrite E|]. split_and!; [|left|by rewrite Hd].
    + split; [done|]. by exists (S k), s'.
    + destruct Hset as [Eo _]. pose proof (count_alter is_pending i op Settled (co_ops (co m)) Hi) as Hc. rewrite Hst in Hc.
      unfold pending_ops. rewrite Eo. simpl in Hc. lia.
  - destruct Hsafe as [Hl' Hd]. destruct (live_lookup p (co_ops c0) base (vw m) (vw m') i op) as [op' Hi']; [apply Hl|apply Hl'|done|].
    eapply (eventually_eq _ (λ fuel, let* op := op_at i in discard_started_workers p index flat fuel (FailStop (op_plan_node op)) ;;* fail e) _ _ m m').
    { intros fuel. unfold run_frontier. by rewrite E. }
    apply eventually_bind. eapply (eventually_ret _ _ _ op' m' m'); [intros _; by apply op_at_eq|].
    apply stop_step; [apply Hl'|]. by intros m2 ->.
Qed.

(** ** A turn of the loop *)

Lemma no_mismatch k s m i op ready : synced k s m → co_ops (co m) !! i = Some op → op_ordinal op = k →
  preparation_mismatch p index flat (co m) ready = Ok None.
Proof using CMP HS.
  intros Hs Hi Hk. unfold preparation_mismatch. rewrite (lowest_at k s m i op Hs Hi Hk), Hi. cbn [index_or_panic outcome_bind].
  destruct (_ && _ && _) eqn:E; [|done]. apply andb_true_iff in E as [[_ E1%bool_decide_eq_true]%andb_true_iff E2%bool_decide_eq_true].
  by rewrite (frontier_safe k s m i op Hs Hi Hk E1 E2).
Qed.

Lemma outstanding_pending m : outstanding_tasks m = size (results_pending m).
Proof. unfold outstanding_tasks, results_pending. destruct (driver m); [apply ld_outstanding|]. by rewrite map_size_empty. Qed.

(** What a turn does after settling. *)
Definition rest_of_turn (ready : list nat) (fuel : nat) : M Machine Error bool :=
  let* dispatched := try_dispatch p index flat g fuel ready in
  if dispatched then ret false
  else
    let* m := get in
    let* frontier :=
      if bool_decide (outstanding_tasks m = 0) then lift (coordinator_at_settlement_frontier (co m) ready)
      else ret None in
    match frontier with
    | Some i => run_frontier p index flat g fuel i ;;* ret false
    | None =>
        if bool_decide (outstanding_tasks m = 0) then report_stall p index flat fuel ;;* ret false
        else wait_for_event p index flat g fuel ;;* ret false
    end.

Lemma rest_step k s m i op ready : synced k s m → live (vw m) → supplied m → ready_ops p index (co m) = Ok ready →
  co_ops (co m) !! i = Some op → op_ordinal op = k → op_state op = Pending ∨ op_state op = InFlight →
  eventually (rest_of_turn ready) (λ b m', b = false ∧ turned m m') (λ e m', serial_fails e (host m')) m.
Proof using CMP HS HF LD.
  intros Hs Hl Hsup Hready Hi Hk Hst. apply eventually_bind. destruct (try_dispatch_step k s m ready Hs Hl Hready) as (m1 & b & E & Hb).
  eapply (eventually_ret _ _ _ b m m1); [done|]. destruct b; [by eapply eventually_ret|]. destruct Hb as [-> Hnone].
  assert (Hdone : ∀ x : nat → M Machine Error unit, eventually x (λ _ m', turned m m') (λ e m', serial_fails e (host m')) m →
    eventually (λ fuel, x fuel ;;* ret false) (λ b m', b = false ∧ turned m m') (λ e m', serial_fails e (host m')) m).
  { intros x Hx'. apply eventually_bind. eapply eventually_mono; [done| |done]. intros a m' Hm'. cbn beta in Hm'. by eapply eventually_ret. }
  apply eventually_bind. eapply (eventually_ret _ _ _ m m m); [done|]. apply eventually_bind. case_bool_decide as Ho.
  - rewrite outstanding_pending in Ho. apply map_size_empty_iff in Ho.
    assert (Hp : op_state op = Pending).
    { destruct Hst as [?|Hst]; [done|]. destruct (sy_ops _ _ _ Hs i op Hi) as [_ _ _ H4 _]. rewrite Hst in H4.
      destruct H4 as (r & Hr & _). by rewrite Ho in Hr. }
    assert (Hlane : op_lane op = CoordinatorLane).
    { pose proof (synced_op _ _ _ _ _ Hs Hi) as H0. destruct (wc_lane _ _ Hcon i _ H0) as [?|Hw]; [done|]. simpl in Hw.
      destruct Hsup as [[d Hd]|Hsup]; [|exact (Hsup i _ H0)]. unfold results_pending in Ho. rewrite Hd in Ho.
      by destruct (idle_dispatches k s m i op d ready Hs Hl Hready Hi Hk Hp Hw Hd Ho); apply Hnone. }
    destruct (frontier_total (co m) ready) as (fr & Efr & Hfr). assert (fr = Some i) as ->.
    { apply Hfr. split_and!; [by eapply lowest_at|by rewrite (has_state_op _ _ _ _ Hi), bool_decide_eq_true| |by exists op].
      destruct (ready_total p index Hv Hx (co m) (ops_bound m Hl)) as (ready' & Hr' & _ & Hr). rewrite Hready in Hr'. injection Hr' as <-.
      apply Hr. split; [by eapply lookup_lt_Some|by eapply frontier_ready]. }
    eapply (eventually_ret _ _ _ (Some i) m m); [intros _; unfold lift; by rewrite Efr|]. apply Hdone. by eapply frontier_step.
  - eapply (eventually_ret _ _ _ None m m); [done|]. apply Hdone.
    assert (Hne : results_pending m ≠ ∅) by (intros E'; apply Ho; by rewrite outstanding_pending, E', map_size_empty).
    eapply eventually_mono; [apply (wait_step (base := base)); [|done]| |by intros ? ? []].
    + split; [done|]. by exists k, s.
    + intros a m' (H1 & H2 & H3). split_and!; [done..|]. split; intros _; [by apply pending_driver|done].
Qed.

(** A turn reaches the end, goes on, or fails as the serial run does. *)
Lemma drive_step_step m : together m → supplied m →
  eventually (λ fuel, drive_step p index flat g fuel)
    (λ b m', if (b : bool) then ∃ s, synced (length order) s m' else turned m m') (λ e m', serial_fails e (host m')) m.
Proof using CMP HS HF LD.
  intros Hm Hsup. apply eventually_bind. eapply (eventually_ret _ _ _ (inr tt) m m); [intros _; apply control_eq|].
  apply eventually_bind. eapply (eventually_ret _ _ _ m m m); [done|]. apply eventually_bind.
  apply eventually_mono with (λ _ m1, together m1 ∧ not_after m1 m) never; [|clear Hm|by intros ? ? []].
  { destruct (driver m) eqn:Hd; [apply receive_step; [done|by rewrite Hd]|]. eapply eventually_ret; [done|]. split; [done|apply not_after_refl]. }
  intros a m1 [(Hl1 & k1 & s1 & Hs1) Hafter]. apply eventually_bind.
  destruct (settle_results_step k1 s1 m1 Hs1 Hl1) as (m2 & r & E & Hr). eapply (eventually_ret _ _ _ r m1 m2); [done|]. destruct r as [failure|].
  { destruct Hr as (Hf & Hw & Hi & _). apply eventually_bind. by apply report_step. }
  destruct Hr as (k & s & Hs & Hl & Hrest & Hset). apply settling_after in Hset. assert (Hafter2 : not_after m2 m) by (by eapply not_after_trans).
  clear a m1 k1 s1 Hs1 Hl1 Hafter Hset E. apply eventually_bind. eapply (eventually_ret _ _ _ (co m2) m2 m2); [done|].
  destruct Hrest as [-> |(i & op & Hi & Hk & Hst)].
  { rewrite (proj2 (forallb_forall _ _)); [eapply eventually_ret; [done|by exists s]|].
    intros j Hj%list_elem_of_In%elem_of_indices. destruct (lookup_lt_is_Some_2 _ _ Hj) as [op Hop].
    rewrite (has_state_op _ _ _ _ Hop), bool_decide_eq_true. exact (Forall_lookup_1 _ _ _ _ (all_settled s m2 Hs) Hop). }
  assert (forallb (λ i, has_state (co m2) Settled i) (indices (co m2)) = false) as ->.
  { apply not_true_iff_false. rewrite forallb_forall. intros H. specialize (H i).
    rewrite (has_state_op _ _ _ _ Hi), bool_decide_eq_true in H. assert (op_state op = Settled); [|destruct Hst; congruence].
    apply H, list_elem_of_In, elem_of_indices. by eapply lookup_lt_Some. }
  destruct (ready_total p index Hv Hx (co m2) (ops_bound m2 Hl)) as (ready & Hready & _). apply eventually_bind.
  eapply (eventually_ret _ _ _ ready m2 m2); [intros _; unfold lift; by rewrite Hready|]. apply eventually_bind.
  eapply (eventually_ret _ _ _ None m2 m2); [intros _; unfold lift; by rewrite (no_mismatch k s m2 i op ready)|].
  eapply eventually_mono; [eapply (rest_step k s m2 i op ready); try done| |done].
  - destruct Hsup as [Hd|?]; [left|by right]. destruct Hafter2 as (_ & D & _). by apply D.
  - intros b m3 [-> Ht]. by eapply turned_after.
Qed.

(** The loop ends, with the serial run. *)
Lemma drive_step_all m : together m → supplied m →
  eventually (λ fuel, drive p index flat g fuel) (λ _ m', ∃ s, synced (length order) s m') (λ e m', serial_fails e (host m')) m.
Proof using CMP HS HF LD.
  remember (pending_ops m) as a eqn:Ha. remember (size (results_pending m)) as b eqn:Hb. remember (delay m) as d eqn:Hd.
  revert b d m Ha Hb Hd. induction a as [a IHa] using lt_wf_ind. intros b. induction b as [b IHb] using lt_wf_ind.
  intros d. induction d as [d IHd] using lt_wf_ind. intros m Ha Hb Hd Hm Hsup. eapply eventually_loop; [done|]. apply eventually_bind.
  eapply eventually_mono; [by apply drive_step_step| |done]. intros [] m' Hm'; [by eapply eventually_ret|].
  destruct Hm' as (Ht & Hc & Hdr). assert (Hsup' : supplied m') by (destruct Hsup as [?|?]; [left; by apply Hdr|by right]).
  destruct Hc as [Hc|[Ea [Hc|[Eb Hc]]]].
  - eapply (IHa (pending_ops m')); [by rewrite Ha|done..].
  - eapply (IHb (size (results_pending m'))); [by rewrite Hb|congruence|done..].
  - eapply (IHd (delay m')); [by rewrite Hd|congruence|congruence|done..].
Qed.
End Loop.
