(* ===== verification/SerialTheorems.v ===== *)
(** * The coordinator matches serial execution

    [run_graph] and [execute_plan_serial] return the same result and leave the same
    evaluator. *)

From S2P Require Import Prelude.
From S2P Require Import BackendCatalog.
From S2P Require Import Ir.
From S2P Require Import ExecutionPlan.
From S2P Require Import Effects.
From S2P Require Import DispatchModel.
From S2P Require Import Topological.
From S2P Require Import PlanTheorems.
From S2P Require Import PlanSchedules.
From S2P Require Import DispatchTheorems.
From S2P Require Import HGraph.
From S2P Require Import HGraphValidate.
From S2P Require Import ReadySchedule.
From S2P Require Import ExecutionContract.
From S2P Require Import EvalFrame.
From S2P Require Import ParallelTasks.
From S2P Require Import Coordinator.
From S2P Require Import CoordinatorFacts.
From S2P Require Import CoordinatorSafety.
From S2P Require Import CoordinatorDrive.
From S2P Require Import CoordinatorTheorems.
From S2P Require Import GraphWiring.
From S2P Require Import Evaluator.
From S2P Require Import EvaluatorFacts.
From S2P Require Import Serial.
From S2P Require Import SerialFacts.
From S2P Require Import SerialRefinement.
From S2P Require Import SerialSteps.
From S2P Require Import SerialDrive.
From S2P Require Import SerialDispatch.
From S2P Require Import SerialLoop.
From stdpp Require Import options.

#[local] Open Scope nat_scope.

Section Start.
Context `{OV : !OValues, ER : !Errors, SH : !Shims, LV : !Leaves, DG : !Digests, UT : !UnicodeTables}.
Context `{HO : !GraphEvaluationHost, AD : !AttemptDriver, LD : !LawfulDriver}.
Context {prog : OIrProgram} {g : HGraph} {index : ExecutionPlanIndex} {c0 : Coordinator} {s0 : SerialState}.

Abbreviation p := (plan prog).
Abbreviation flat := (flatten_for_plan prog).
Abbreviation order := (idx_order index).
Abbreviation run k := (serial_nodes p index flat g (take k order) s0).

Context {HS : SerialHost p index flat} {CMP : Comparison prog g index c0 s0} {HF : FrameKeeping}.

Abbreviation Hbuilt := (cmp_built prog g index c0 s0).
Abbreviation Hwired := (cmp_wired prog g index c0 s0).
Abbreviation Hord := (cmp_ordered prog g index c0 s0).
Abbreviation Hcon := (cmp_contracts prog g index c0 s0).
Abbreviation synced := (synced (prog := prog) (g := g) (index := index) (c0 := c0) (s0 := s0)).
Abbreviation answer := (answer (prog := prog) (g := g) (index := index) (s0 := s0)).
Abbreviation frames := (frames (prog := prog) (index := index)).
Abbreviation serial_fails := (serial_fails (prog := prog) (g := g) (index := index) (s0 := s0)).
Abbreviation vw m := (view (co m)).

(** ** Literals *)

(** What the literals change: their values, and the trace. *)
Record beside_literals (m m' : Machine) : Prop := {
  bl_ops : co_ops (co m') = co_ops (co m);
  bl_outputs : materialized (co m') = materialized (co m);
  bl_groups : provisional_groups (co m') = provisional_groups (co m);
  bl_results : worker_results (co m') = worker_results (co m);
  bl_driver : driver m' = driver m;
  bl_host : host m' = host m;
  bl_scope : base_scope (frame (co m')) = base_scope (frame (co m));
  bl_policy : node_policy (frame (co m')) = node_policy (frame (co m));
  bl_members : failed_batch_members (frame (co m')) = failed_batch_members (frame (co m));
  bl_forced : forced_batch_failures (frame (co m')) = forced_batch_failures (frame (co m));
  bl_length : length (values (frame (co m'))) = length (values (frame (co m)));
  bl_values : ∀ q, (∀ t, flat !! q ≠ Some (Text t)) → values (frame (co m')) !! q = values (frame (co m)) !! q;
}.

Lemma beside_literals_refl m : beside_literals m m.
Proof. by constructor. Qed.

Lemma beside_literals_trans m m1 m2 : beside_literals m m1 → beside_literals m1 m2 → beside_literals m m2.
Proof.
  intros H1 H2. pose proof (bl_values _ _ H1) as V1. pose proof (bl_values _ _ H2) as V2. destruct H1, H2.
  constructor; try congruence. intros q Hq. by rewrite (V2 q Hq), (V1 q Hq).
Qed.

Lemma literal_step n m : n ∈ plan_nodes p → length (values (frame (co m))) = length (plan_nodes p) →
  ∃ m', materialize_literal flat n m = (m', Ok tt) ∧ beside_literals m m' ∧
    (∀ t, flat !! node_id n = Some (Text t) → values (frame (co m')) !! node_id n = Some (Some (str_ t))) ∧
    ∀ q, q ≠ node_id n → values (frame (co m')) !! q = values (frame (co m)) !! q.
Proof using CMP.
  intros [i Hi]%list_elem_of_lookup Hlen. pose proof (validate_identity _ _ _ _ Hv Hi) as Eid.
  destruct (plan_node_kind prog i n Hi) as (oir & Ho & Ek). unfold materialize_literal. rewrite Eid, Ek.
  assert (Hother : (∀ t, oir ≠ Text t) → ∃ m', (m, Ok tt) = (m', Ok (E := Error) tt) ∧ beside_literals m m' ∧
    (∀ t, flat !! i = Some (Text t) → values (frame (co m')) !! i = Some (Some (str_ t))) ∧
    ∀ q, q ≠ i → values (frame (co m')) !! q = values (frame (co m)) !! q).
  { intros Hnt. exists m. split_and!; [done|apply beside_literals_refl| |done]. intros t Ht. destruct (Hnt t). congruence. }
  destruct (plan_kind oir) eqn:Hk; try (apply Hother; intros t ->; done).
  destruct (text_kind oir Hk) as [t ->]. rewrite (bind_ok _ _ m m (Text t)) by (unfold lift, oir_at; by rewrite Ho).
  assert (Hlt : i < length (values (frame (co m)))) by (rewrite Hlen; by eapply lookup_lt_Some).
  unfold store_or_fail, store_value, set_value, bind. simpl. rewrite bool_decide_eq_true_2 by done. simpl. eexists. split; [done|]. simpl.
  split_and!; [constructor; simpl; try done; [by rewrite length_insert|]|..].
  - intros q Hq. rewrite list_lookup_insert_ne; [done|]. intros <-. by destruct (Hq t).
  - intros t' Ht'. rewrite Ho in Ht'. injection Ht' as <-. by apply list_lookup_insert_eq.
  - intros q Hq. by rewrite list_lookup_insert_ne.
Qed.

Lemma literals_step l m : (∀ n, n ∈ l → n ∈ plan_nodes p) → length (values (frame (co m))) = length (plan_nodes p) →
  (∀ q t, flat !! q = Some (Text t) → (∃ n, n ∈ l ∧ node_id n = q) ∨ values (frame (co m)) !! q = Some (Some (str_ t))) →
  ∃ m', for_each (materialize_literal flat) l m = (m', Ok tt) ∧ beside_literals m m' ∧
    ∀ q t, flat !! q = Some (Text t) → values (frame (co m')) !! q = Some (Some (str_ t)).
Proof using CMP.
  revert m. induction l as [|n l IH]; intros m Hl Hlen Hdone.
  { exists m. split_and!; [done|apply beside_literals_refl|]. intros q t Hq. destruct (Hdone q t Hq) as [(n & []%not_elem_of_nil & _)|?]. done. }
  destruct (literal_step n m) as (m1 & E1 & B1 & Ht1 & Ho1); [apply Hl; by left|done|].
  destruct (IH m1) as (m2 & E2 & B2 & Ht2); [intros n' Hn'; apply Hl; by right|by rewrite (bl_length _ _ B1)| |].
  { intros q t Hq. destruct (decide (q = node_id n)) as [-> |Hne]; [right; by apply Ht1|].
    destruct (Hdone q t Hq) as [(n' & [-> |Hn']%elem_of_cons & Eq)|?]; [done|left; by exists n'|right; by rewrite Ho1]. }
  exists m2. cbn [for_each]. rewrite (bind_ok _ _ _ _ _ E1). split_and!; [done|by eapply beside_literals_trans|done].
Qed.

Lemma all_literals_step m : values (frame (co m)) = replicate (length (plan_nodes p)) None →
  ∃ m', materialize_literals p flat m = (m', Ok tt) ∧ beside_literals m m' ∧
    ∀ q t, flat !! q = Some (Text t) → values (frame (co m')) !! q = Some (Some (str_ t)).
Proof using CMP.
  intros Hval. apply literals_step; [done|by rewrite Hval, length_replicate|]. intros q t Hq. left.
  destruct (lookup_lt_is_Some_2 (plan_nodes p) q) as [n Hn]; [rewrite <-Hflat; by eapply lookup_lt_Some|].
  exists n. split; [by eapply list_elem_of_lookup_2|]. by apply (validate_identity _ _ _ _ Hv Hn).
Qed.

(** ** The start and the end *)

(** With the literals materialised the two executions start together. *)
Lemma start_synced m m' : co m = set_base_scope (base_scope (s_frame s0)) c0 → host m = s_host s0 →
  node_policy (frame c0) = node_policy (s_frame s0) → failed_batch_members (s_frame s0) = ∅ → results_pending m = ∅ →
  beside_literals m m' → (∀ q t, flat !! q = Some (Text t) → values (frame (co m')) !! q = Some (Some (str_ t))) →
  synced 0 s0 m'.
Proof using CMP.
  intros Hco Hh Hpol Hmem Hpen [B1 B2 B3 B4 B5 B6 B7 B8 B9 B10 B11 B12] Ht. rewrite Hco in *. simpl in *.
  destruct (wi_frame _ _ _ Hwired) as (F1 & F2 & F3 & _). pose proof (wi_values _ _ _ Hwired) as F4.
  assert (Hp : results_pending m' = ∅) by (unfold results_pending in *; by rewrite B5).
  assert (Hst : ∀ i op, co_ops (co m') !! i = Some op → op_state op = Pending).
  { intros i op Hi. rewrite B1 in Hi. exact (Forall_lookup_1 _ _ _ _ (built_pending _ _ _ _ _ _ Hbuilt) Hi). }
  constructor; [done|lia|congruence| | | | | |].
  - constructor; [done|congruence|congruence|congruence|by rewrite B11, F4, length_replicate|lia|done].
  - by rewrite B1.
  - intros i op Hi. pose proof (Hst i op Hi) as E. rewrite B1 in Hi. destruct (op_position i _ Hi) as [_ Hid].
    constructor; rewrite ?E; [split; [done|lia]|by intros []| |by rewrite Hp|].
    + rewrite B12, F4; [by apply lookup_replicate_2|]. intros t. exact (op_not_text i _ t Hi).
    + intros r. by rewrite B4, (built_results _ _ _ _ _ _ Hbuilt).
  - intros i. rewrite Hp. by intros [].
  - intros n. rewrite B2. split; [by left|]. intros [?|(i & op & Hi & Hvis & _)]; [done|]. rewrite (Hst i op Hi) in Hvis. by destruct Hvis.
  - intros n group. by rewrite B3, F3.
Qed.

(** At the end the frames have the same values. *)
Lemma end_values s m : synced (length order) s m → values (frame (co m)) = values (s_frame s).
Proof using CMP HS.
  intros Hs. pose proof (fr_values _ _ (run_frame _ s m Hs)) as Hl. pose proof (fs_length _ _ _ (sy_frames _ _ _ Hs)) as Hl'.
  apply list_eq. intros q. destruct (decide (q < length (plan_nodes p))) as [Hq|Hq].
  - destruct (order_position q Hq) as [pos Hpos]. apply (fs_values _ _ _ (sy_frames _ _ _ Hs) pos q Hpos). by eapply lookup_lt_Some.
  - rewrite !lookup_ge_None_2 by lia. done.
Qed.

Lemma commit_agrees prog' scope (f f' : GraphEvalFrame) : values f = values f' → commit p prog' scope f = commit p prog' scope f'.
Proof.
  intros E. unfold commit. destruct (plan_result (root_schedule p)) as [schedule| | |]; cbn [outcome_bind]; [|done..].
  apply fold_outcome_ext. intros [scope' last] k _. unfold commit_root, frame_value. by rewrite E.
Qed.
End Start.

(** ** Whole runs *)

Section Whole.
Context `{OV : !OValues, ER : !Errors, SH : !Shims, LV : !Leaves, DG : !Digests, UT : !UnicodeTables}.
Context `{HO : !GraphEvaluationHost, AD : !AttemptDriver, LD : !LawfulDriver} {HF : FrameKeeping}.
Context (validate_descriptor : str → nat → bool) (prog : OIrProgram) (g : HGraph).
Context (contracts : gmap PlanNodeId DispatchContract) (policy : Policy) (scope : gmap str OValue) (h : Host).
Context (index : ExecutionPlanIndex) (c : Coordinator).

Abbreviation p := (plan prog).
Abbreviation flat := (flatten_for_plan prog).

Definition first_state : SerialState :=
  {| s_frame := initial_frame p (node_policy (frame c)) scope; s_trace := empty_trace; s_host := h |}.

Abbreviation serial := (execute_plan_serial prog p g policy scope h).

Lemma new_policies flat' : new validate_descriptor prog p g contracts policy = Ok (index, flat', c) →
  derive_policy_contexts p index flat policy = Ok (node_policy (frame c)) ∧ frame c = initial_frame p (node_policy (frame c)) ∅.
Proof.
  intros H. unfold new in H. destruct (negb _); [done|]. peel H as u1 H1. peel H as u2 H2. peel H as s Hs. peel H as l Hl.
  peel H as x Hx. peel H as policies Hp. injection H as <- <- <-. done.
Qed.

Context (Hnew : new validate_descriptor prog p g contracts policy = Ok (index, flat, c)).

Lemma serial_eq : serial =
  match validate_execution_metadata flat with
  | inl e => (h, Err (anyhow (ContractFailure e)))
  | inr _ =>
      match serial_nodes p index flat g (idx_order index) first_state with
      | (s, Ok _) => (s_host s, commit p prog scope (s_frame s))
      | (s, Err e) => (s_host s, Err e)
      | (s, Panic) => (s_host s, Panic)
      | (s, NoFuel) => (s_host s, NoFuel)
      end
  end.
Proof using Hnew.
  destruct (new_built _ _ _ _ _ _ _ _ _ Hnew) as [_ Hx Hlen _ _ _ _ _ _ _ _ _]. destruct (new_policies _ Hnew) as [Hp _].
  unfold execute_plan_serial. rewrite Hlen, bool_decide_eq_true_2 by done. cbn [negb].
  destruct (validate_execution_metadata flat); cbn [contract_result outcome_bind]; [done|].
  rewrite Hx. cbn [plan_result outcome_bind]. by rewrite Hp.
Qed.

(** The host keeps its promises once the metadata is accepted. *)
Context (Hhost : validate_execution_metadata flat = inr tt → SerialHost p index flat).
Context (Hcontrol : ∀ h, check_request_control h = (h, inr tt)).
Context (Hord : plan_ordered index c) (Hcon : worker_contracts prog c).
Context (d : option Driver) (Hd : match d with Some d => d_pending d = ∅ | None => ∀ i op, co_ops c !! i = Some op → op_lane op = CoordinatorLane end).
Context (Hctx : verify_admitted_runtime_context h = inr tt).

Lemma comparison : Comparison prog g index c first_state.
Proof using Hnew Hord Hcon.
  pose proof (new_built _ _ _ _ _ _ _ _ _ Hnew) as Hb. constructor; try done; [by eapply new_wired|].
  constructor; simpl; [done|by apply Hb|done].
Qed.

Lemma drive_commit_step m : together (prog := prog) (g := g) (index := index) (c0 := c) (s0 := first_state) (base := events (trace (co m))) m →
  (is_Some (driver m) ∨ ∀ i op, co_ops c !! i = Some op → op_lane op = CoordinatorLane) → validate_execution_metadata flat = inr tt →
  eventually (λ fuel, drive p index flat g fuel ;;* let* c := coordinator in lift (commit p prog scope (frame c)))
    (λ r m', serial = (host m', Ok r)) (λ e m', serial = (host m', Err e)) m.
Proof using Hnew Hord Hcon Hhost HF LD.
  intros Hm Hsup Hmeta. pose proof (Hhost Hmeta) as HS. pose proof comparison as HC. rewrite serial_eq, Hmeta. apply eventually_bind.
  eapply eventually_mono; [by eapply drive_step_all| |].
  - intros [] m' [s Hs]. pose proof (sy_run _ _ _ Hs) as Hr. rewrite firstn_all in Hr. rewrite Hr.
    rewrite <-(commit_agrees prog scope _ _ (end_values s m' Hs)), <-(sy_host _ _ _ Hs).
    pose proof (commit_returns prog p (plan_validates prog) scope (frame (co m'))) as Hret.
    destruct (commit p prog scope (frame (co m'))) as [r|e| |] eqn:E; [| |done..].
    + eapply (eventually_ret _ _ _ r m' m'); [|done]. intros _. unfold coordinator, bind, lift. simpl. by rewrite E.
    + eapply (eventually_fail _ _ _ e m' m'); [|done]. intros _. unfold coordinator, bind, lift. simpl. by rewrite E.
  - intros e m' (s & Hr & <-). by rewrite Hr.
Qed.

Lemma graph_run_step : eventually (λ fuel, run_graph p index flat g fuel prog scope)
  (λ r m', serial = (host m', Ok r)) (λ e m', serial = (host m', Err e)) {| co := c; driver := d; host := h |}.
Proof using Hnew Hord Hcon Hhost Hcontrol HF LD Hd Hctx.
  pose proof comparison as HC. pose proof (new_built _ _ _ _ _ _ _ _ _ Hnew) as Hb. destruct (new_policies _ Hnew) as [_ Hframe].
  set (m0 := {| co := c; driver := d; host := h |}). apply eventually_bind.
  eapply (eventually_ret _ _ _ (inr tt) m0 m0); [intros _; unfold on_host; simpl; by rewrite Hcontrol|]. apply eventually_bind.
  eapply (eventually_ret _ _ _ tt m0 m0); [done|]. apply eventually_bind.
  eapply (eventually_ret _ _ _ tt m0 m0); [intros _; unfold ask_host; simpl; by rewrite Hctx|]. apply eventually_bind.
  case_eq (validate_execution_metadata flat); [intros e Hmeta|intros [] Hmeta].
  { eapply eventually_fail; [done|]. by rewrite serial_eq, Hmeta. }
  eapply (eventually_ret _ _ _ tt m0 m0); [done|]. apply eventually_bind. set (m1 := with_co (set_base_scope scope) m0).
  eapply (eventually_ret _ _ _ tt m0 m1); [done|]. destruct (all_literals_step m1) as (m2 & E & B & Ht); [simpl; by rewrite Hframe|].
  apply eventually_bind. eapply (eventually_ret _ _ _ tt m1 m2); [done|]. apply drive_commit_step; [split|..|done].
  - pose proof (materialize_literals_safe prog p g index flat c Hb m1) as Hlit. unfold safe in Hlit. rewrite E in Hlit.
    destruct Hlit as [H1 H2 H3 H4 H5 H6]; [|by apply initial_live; try apply Hb].
    constructor; simpl; [done|apply Hb..|rewrite (built_events _ _ _ _ _ _ Hb); constructor].
  - exists 0, first_state. apply (start_synced m1 m2); simpl; try done. unfold results_pending. simpl. by destruct d.
  - rewrite (bl_driver _ _ B). simpl. destruct d; [left; by eexists|by right].
Qed.
End Whole.


(** ** A small comparison *)

Section Demo.
#[local] Existing Instance demo_values.
#[local] Existing Instance demo_errors.
#[local] Existing Instance demo_shims.
#[local] Existing Instance demo_leaves.
#[local] Existing Instance demo_digests.
#[local] Existing Instance demo_tables.

(** [let x = a], a use of [x], and a document with a text inside. *)
Definition rendered_program : OIrProgram :=
  let block lang body := Exec (lit lang) 0 None (global_interface_for (lit lang)) body in
  {| nodes := [Store (lit "x") (Text (lit "a")); Load (lit "x"); block "html"%string [Text (lit "b"); block "text"%string [Text (lit "c")]]] |}.

Abbreviation p := (plan rendered_program).

Definition rendered_graph : HGraph :=
  match build_program_with_plan (λ _ _, true) rendered_program p with
  | Ok g => with_evidence g
  | _ => empty_graph
  end.

Definition rendered_contracts : gmap PlanNodeId DispatchContract :=
  let worker adapter class := {| contract_lane := LocalWorker; contract_adapter := adapter; contract_failure_class := class |} in
  {[ 0 := {| contract_lane := CoordinatorLane; contract_adapter := CoordinatorV1; contract_failure_class := UnknownFailure |};
     2 := worker OScopeLoadV1 MayFailNoExternalEffects; 3 := worker TrustedInlineRendererV1 NeverFails;
     5 := worker TrustedInlineRendererV1 NeverFails ]}.

Abbreviation rendered_new := (new (λ _ _, true) rendered_program p rendered_graph rendered_contracts EagerPolicy).

(** An evaluator that refuses everything else. *)
#[local] Instance demo_services : Services :=
  {| Rest := unit; request_control := λ _, inr tt; runtime_context := λ _, inr tt; backend_lease := λ _ _, inr tt;
     leaf_lease := λ _ _, inr tt; autonomous_runtime := λ _ _ _, inr tt; eval_fragment := λ source _ _ h, (h, inr source);
     authorize := λ _ _ _ _, None; default_authority := λ _ _ _, inr None; resolve_request := λ v h, (h, inr v);
     validate_crossing := λ _ _ _, inr tt; expr_value := λ source, source; execute_service := λ _ _ _ h, (h, inl UnknownToken);
     execute_block := λ _ _ _ _ h, (h, inl UnknownToken); panicked := UnknownToken |}.

#[local] Instance demo_laws : ValueLaws.
Proof. constructor; done. Qed.

Definition idle : Evaluator Rest := {| ev_policy := EagerPolicy; ev_forced := []; ev_rest := tt |}.

(** Two workers; the poll after a submission finds nothing. *)
Definition TaskQueue : Type := nat * gmap nat (Error + OValue).

Definition next_result (q : TaskQueue) : option (TaskQueue * WorkerEvent) :=
  match map_to_list q.2 with
  | [] => None
  | (token, r) :: _ => Some ((0, delete token q.2), TaskCompletion token (Completed r))
  end.

#[local] Instance queue_driver : AttemptDriver :=
  {| Driver := TaskQueue; available_slots := λ q, 2 - size q.2; outstanding := λ q, size q.2;
     submit := λ token task q, ((1, <[token := execute_prepared task]> q.2), inr tt);
     try_recv_event := λ q, match q.1 with
                            | S n => ((n, q.2), inr None)
                            | O => match next_result q with Some (q, event) => (q, inr (Some event)) | None => (q, inr None) end
                            end;
     recv_event := λ q, match next_result q with Some (q, event) => (q, inr event) | None => (q, inl UnknownToken) end;
     respond := λ _ _ q, (q, inr tt) |}.

Lemma next_result_spec q : q.2 ≠ ∅ → ∃ token r, next_result q = Some ((0, delete token q.2), TaskCompletion token (Completed r)) ∧ q.2 !! token = Some r.
Proof.
  intros Hq. unfold next_result. destruct (map_to_list q.2) as [|[token r] l] eqn:E; [by apply map_to_list_empty_iff in E|].
  exists token, r. split; [done|]. apply elem_of_map_to_list. rewrite E. by left.
Qed.

#[local] Instance queue_lawful : LawfulDriver (AD := queue_driver).
Proof.
  unshelve econstructor; [exact (λ q : TaskQueue, q.2)|exact (λ q : TaskQueue, q.1)|..].
  - done.
  - intros d E. simpl in *. rewrite E, map_size_empty. lia.
  - intros token task d Hn Hs. eexists. split; [done|]. split; [done|]. simpl in *. rewrite map_size_insert_None by done. lia.
  - intros [n tasks]. destruct n as [|n]; cbn -[next_result].
    + destruct (decide (tasks = ∅)) as [-> |Hne].
      * exists (0, ∅), None. split; [done|]. split; [done|]. by intros [].
      * destruct (next_result_spec (0, tasks) Hne) as (token & r & E & Ht).
        exists (0, delete token tasks), (Some (TaskCompletion token (Completed r))). split; [|by exists r].
        exact (f_equal (λ x, match x with Some (q, event) => (q, inr (Some event)) | None => ((0, tasks), inr None) end) E).
    + eexists _, None. split; [done|]. simpl. split; [done|lia].
  - intros d Hne. destruct (next_result_spec d Hne) as (token & r & E & Ht). exists (0, delete token d.2), token, r. split; [|done].
    exact (f_equal (λ x, match x with Some (q, event) => (q, inr event) | None => (d, inl UnknownToken) end) E).
Defined.

(** The hypotheses on the graph of the program, as one test. *)
Definition demo_test (index : ExecutionPlanIndex) (c : Coordinator) : bool :=
  forallb (λ op,
    bool_decide (idx_order index !! op_ordinal op = Some (op_plan_node op)) &&
    forallb (λ op', forallb (λ n, negb (bool_decide (n ∈ op_inputs op')) || (op_ordinal op <? op_ordinal op')) (op_outputs op)) (co_ops c) &&
    (negb (bool_decide (op_failure_class op = NeverFails)) || is_verified_pure_infallible (op_effect op)) &&
    (bool_decide (op_lane op = CoordinatorLane) ||
     bool_decide (op_lane op = LocalWorker) &&
     (bool_decide (op_adapter op = OScopeLoadV1 ∧ op_failure_class op = MayFailNoExternalEffects) ||
      bool_decide (op_adapter op = TrustedInlineRendererV1 ∧ op_failure_class op = NeverFails)) &&
     match flatten_for_plan rendered_program !! op_plan_node op with
     | Some oir => effect_contract_worker_safe (op_effect op) oir && match adapter_matches (op_adapter op) p (op_plan_node op) oir with Ok b => b | _ => false end
     | None => false
     end)) (co_ops c).

Lemma demo_test_op index c i op : demo_test index c = true → co_ops c !! i = Some op →
  idx_order index !! op_ordinal op = Some (op_plan_node op) ∧
  (∀ j op' n, co_ops c !! j = Some op' → n ∈ op_outputs op → n ∈ op_inputs op' → op_ordinal op < op_ordinal op') ∧
  (op_failure_class op = NeverFails → is_verified_pure_infallible (op_effect op) = true) ∧
  (op_lane op = CoordinatorLane ∨ op_lane op = LocalWorker ∧
    ((op_adapter op = OScopeLoadV1 ∧ op_failure_class op = MayFailNoExternalEffects) ∨
     (op_adapter op = TrustedInlineRendererV1 ∧ op_failure_class op = NeverFails)) ∧
    ∀ oir, flatten_for_plan rendered_program !! op_plan_node op = Some oir →
      effect_contract_worker_safe (op_effect op) oir = true ∧ adapter_matches (op_adapter op) p (op_plan_node op) oir = Ok true).
Proof.
  intros H Hi. unfold demo_test in H. rewrite forallb_forall in H. specialize (H op (proj1 (list_elem_of_In _ _) (list_elem_of_lookup_2 _ _ _ Hi))).
  apply andb_true_iff in H as [[[H1 H2]%andb_true_iff H3]%andb_true_iff H4].
  apply bool_decide_eq_true in H1. split_and!; [done| | |].
  - intros j op' n Hj Hn Hn'. rewrite forallb_forall in H2. specialize (H2 op' (proj1 (list_elem_of_In _ _) (list_elem_of_lookup_2 _ _ _ Hj))).
    rewrite forallb_forall in H2. specialize (H2 n (proj1 (list_elem_of_In _ _) Hn)). rewrite bool_decide_eq_true_2 in H2 by done.
    simpl in H2. by apply Nat.ltb_lt in H2.
  - intros E. by rewrite bool_decide_eq_true_2 in H3 by done.
  - apply orb_true_iff in H4 as [H4%bool_decide_eq_true|H4]; [by left|right].
    apply andb_true_iff in H4 as [[A%bool_decide_eq_true B]%andb_true_iff D]. split; [done|]. split.
    + apply orb_true_iff in B as [B%bool_decide_eq_true|B%bool_decide_eq_true]; auto.
    + intros oir Ho. rewrite Ho in D. apply andb_true_iff in D as [D E]. split; [done|].
      by destruct (adapter_matches (op_adapter op) p (op_plan_node op) oir) as [[]| | |].
Qed.

Section Tested.
Context (index : ExecutionPlanIndex) (c : Coordinator) (Ht : demo_test index c = true).

Lemma demo_plan_ordered : plan_ordered index c.
Proof using Ht.
  constructor.
  - intros i op Hi. by destruct (demo_test_op _ _ _ _ Ht Hi).
  - intros i j op op' n Hi Hj Hn Hn'. destruct (demo_test_op _ _ _ _ Ht Hi) as (_ & H & _). by eapply H.
Qed.

Lemma demo_worker_contracts : worker_contracts rendered_program c.
Proof using Ht.
  constructor.
  - intros i op Hi. destruct (demo_test_op _ _ _ _ Ht Hi) as (_ & _ & _ & [?|[? _]]); auto.
  - intros i op Hi Hl. destruct (demo_test_op _ _ _ _ Ht Hi) as (_ & _ & _ & [?|(_ & [?|[? ?]] & _)]); [congruence|auto..].
  - intros i op oir Hi Hl Ho. destruct (demo_test_op _ _ _ _ Ht Hi) as (_ & _ & _ & [?|(_ & _ & Hs)]); [congruence|by apply Hs].
  - intros i op Hi Hc. by destruct (demo_test_op _ _ _ _ Ht Hi) as (_ & _ & ? & _); auto.
Qed.
End Tested.

Definition empty_queue : Driver := (0, ∅).

(** The run of the coordinator on the queue. *)
Definition queue_run (index : ExecutionPlanIndex) (flat : list OIr) (c : Coordinator) (fuel : nat) :=
  let HO := evaluator_host p index in
  run_graph p index flat rendered_graph fuel rendered_program ∅ {| co := c; driver := Some empty_queue; host := idle |}.

Example demo_tested :
  match rendered_new with
  | Ok (index, flat, c) =>
      demo_test index c = true ∧
      match (queue_run index flat c 40).2 with Ok (scope, v) => scope = {[ lit "x" := lit "a" ]} ∧ v = lit "bc" | _ => False end
  | _ => False
  end.
Proof. vm_compute. split_and!; reflexivity. Qed.

End Demo.
