(* ===== verification/OcoreLexer.v ===== *)
(** * The lexer of Ocore

    [crates/ostadix-api/src/ocore/lexer.rs], with the spans and diagnostics of
    [ocore/common.rs].  The lexer walks over the bytes of a module, skips white space
    and comments, and returns the tokens with their positions. *)

From S2P Require Import Prelude.
From S2P Require Import Utf8.
From stdpp Require Import options.

#[local] Open Scope nat_scope.

(** ** Spans, diagnostics and tokens *)

Record Span : Type := { start : nat; end_ : nat; line : nat; column : nat }.

Definition join (a b : Span) : Span :=
  {| start := start a `min` start b; end_ := end_ a `max` end_ b; line := line a; column := column a |}.

(** The messages of the lexer, with the data that they show. *)
Inductive LexMessage : Type :=
| UnexpectedByte (b : Z)
| ExpectedDigits
| IntegerOutsideU64 (text : str)
| UnterminatedString
| NewlineInString
| ByteStringNotAscii
| ByteNotAscii
| UnterminatedByte
| UnterminatedEscape
| UnsupportedEscape (b : Z)
| UnterminatedComment.

Record Diagnostic (message : Type) : Type := { d_file : str; d_span : Span; d_message : message }.
Arguments d_file {message} _.
Arguments d_span {message} _.
Arguments d_message {message} _.

Inductive TokenKind : Type :=
| Ident (s : str) | Integer (n : Z) | TString (s : str) | ByteString (s : str) | Byte (b : Z)
| KModule | KUse | KAs | KPub | KFn | KUnsafe | KExtern | KStruct | KEnum | KStatic | KConst | KMut | KLet | KIf | KElse
| KWhile | KLoop | KBreak | KContinue | KReturn | KTrue | KFalse | KAsm | KOptions | KIn | KOut | KInOut
| At | Bang | Tilde | Plus | Minus | Star | Slash | Percent | Amp | Pipe | Caret
| TEq | EqEq | NotEq | Less | LessEq | Greater | GreaterEq | AndAnd | OrOr | ShiftLeft | ShiftRight
| PlusEq | MinusEq | StarEq | SlashEq | PercentEq | AmpEq | PipeEq | CaretEq | ShiftLeftEq | ShiftRightEq
| Arrow | Colon | ColonColon | Semi | Comma | Dot | LParen | RParen | LBrace | RBrace | LBracket | RBracket | Eof.

#[export] Instance TokenKind_eq_dec : EqDecision TokenKind.
Proof. solve_decision. Defined.

Record Token : Type := { kind : TokenKind; span : Span }.

(** ** Classes of bytes *)

Definition is_ident_start (b : Z) : bool := (b =? 95)%Z || is_ascii_alphabetic b.
Definition is_ident_continue (b : Z) : bool := is_ident_start b || is_digit b.

(** [u8::is_ascii_whitespace]. *)
Definition is_ascii_whitespace (b : Z) : bool := bool_decide (b ∈ [32; 9; 10; 12; 13]%Z).

(** [char::to_digit] of a byte. *)
Definition to_digit (radix b : Z) : option Z :=
  let value := if is_digit b then Some (b - 48)%Z
               else if in_range 97 122 b then Some (b - 87)%Z
               else if in_range 65 90 b then Some (b - 55)%Z
               else None in
  match value with Some d => if (d <? radix)%Z then Some d else None | None => None end.

(** [u64::from_str_radix] of text without a sign. *)
Fixpoint radix_value (radix acc : Z) (s : str) : option Z :=
  match s with
  | [] => Some acc
  | b :: s =>
      match to_digit radix b with
      | Some d => let acc := (acc * radix + d)%Z in if (acc <=? U64_MAX)%Z then radix_value radix acc s else None
      | None => None
      end
  end.

Definition from_str_radix (radix : Z) (s : str) : option Z := match s with [] => None | _ => radix_value radix 0 s end.

(** The keywords. *)
Definition keywords : list (string * TokenKind) :=
  [("module", KModule); ("use", KUse); ("as", KAs); ("pub", KPub); ("fn", KFn); ("unsafe", KUnsafe); ("extern", KExtern);
   ("struct", KStruct); ("enum", KEnum); ("static", KStatic); ("const", KConst); ("mut", KMut); ("let", KLet); ("if", KIf);
   ("else", KElse); ("while", KWhile); ("loop", KLoop); ("break", KBreak); ("continue", KContinue); ("return", KReturn);
   ("true", KTrue); ("false", KFalse); ("asm", KAsm); ("options", KOptions); ("in", KIn); ("out", KOut); ("inout", KInOut)]%string.

Definition ident_kind (s : str) : TokenKind :=
  match list_find (λ entry, lit entry.1 = s) keywords with Some (_, (_, k)) => k | None => Ident s end.

(** ** The cursor *)

Record LState : Type := { l_pos : nat; l_line : nat; l_column : nat }.

Section Lexer.
Context (file source : str).

Abbreviation LexError := (Diagnostic LexMessage).
Abbreviation L := (M LState LexError).

Definition error_at_cursor (message : LexMessage) (s : LState) : LexError :=
  {| d_file := file;
     d_span := {| start := l_pos s; end_ := S (l_pos s) `min` length source; line := l_line s; column := l_column s |};
     d_message := message |}.

(** [Err(self.error(..))]. *)
Definition lex_fail {A} (message : LexMessage) : L A := λ s, (s, Err (error_at_cursor message s)).

Definition peek_n (n : nat) : L (option Z) := λ s, (s, Ok (source !! (l_pos s + n))).
Definition peek : L (option Z) := λ s, (s, Ok (source !! l_pos s)).

Definition step (b : Z) (s : LState) : LState :=
  if (b =? 10)%Z then {| l_pos := S (l_pos s); l_line := S (l_line s); l_column := 1 |}
  else {| l_pos := S (l_pos s); l_line := l_line s; l_column := S (l_column s) |}.

Definition bump : L unit := λ s, (match source !! l_pos s with Some b => step b s | None => s end, Ok tt).

Fixpoint bump_n (n : nat) : L unit := match n with O => ret tt | S n => bump ;;* bump_n n end.

(** [&self.source[start..self.pos]]. *)
Definition slice_from (start : nat) : L str := λ s,
  if is_boundary source start && is_boundary source (l_pos s) && (start <=? l_pos s)
  then (s, Ok (take (l_pos s - start) (drop start source))) else (s, Panic).

(** [while self.peek().is_some_and(p) { self.bump(); }]. *)
Fixpoint bump_while (p : Z → bool) (fuel : nat) : L unit :=
  match fuel with
  | O => no_fuel
  | S fuel =>
      let* b := peek in
      match b with
      | Some b => if p b then bump ;;* bump_while p fuel else ret tt
      | None => ret tt
      end
  end.

(** Every turn of a loop moves the cursor. *)
Definition loop_fuel : nat := S (length source).

(** ** Tokens *)

Definition lex_ident : L TokenKind :=
  let* s := get in
  bump ;;*
  bump_while is_ident_continue loop_fuel ;;*
  let* text := slice_from (l_pos s) in
  ret (ident_kind text).

Definition radix_of (second : option Z) : option Z :=
  match second with
  | Some b => if bool_decide (b ∈ [120; 88]%Z) then Some 16%Z
              else if bool_decide (b ∈ [98; 66]%Z) then Some 2%Z
              else if bool_decide (b ∈ [111; 79]%Z) then Some 8%Z
              else None
  | None => None
  end.

Definition lex_integer : L TokenKind :=
  let* s := get in
  let* first := peek in
  let* second := peek_n 1 in
  let* radix := match (if bool_decide (first = Some 48%Z) then radix_of second else None) with
                | Some radix => bump ;;* bump ;;* ret radix
                | None => ret 10%Z
                end in
  let* digits := get in
  bump_while (λ b, (b =? 95)%Z || bool_decide (is_Some (to_digit radix b))) loop_fuel ;;*
  let* after := get in
  if bool_decide (l_pos after = l_pos digits) then lex_fail ExpectedDigits
  else
    let* raw := slice_from (l_pos digits) in
    match from_str_radix radix (filter (λ b, b ≠ 95%Z) raw) with
    | Some n => ret (Integer n)
    | None => let* text := slice_from (l_pos s) in lex_fail (IntegerOutsideU64 text)
    end.

Definition escape_char : L Z :=
  let* b := peek in
  match b with
  | None => lex_fail UnterminatedEscape
  | Some b =>
      bump ;;*
      if (b =? 110)%Z then ret 10%Z
      else if (b =? 114)%Z then ret 13%Z
      else if (b =? 116)%Z then ret 9%Z
      else if (b =? 48)%Z then ret 0%Z
      else if (b =? 92)%Z then ret 92%Z
      else if (b =? 34)%Z then ret 34%Z
      else if (b =? 39)%Z then ret 39%Z
      else lex_fail (UnsupportedEscape b)
  end.

(** [self.source[self.pos..].chars().next().unwrap()], its bytes. *)
Definition char_here : L str := λ s,
  if is_boundary source (l_pos s) then
    match drop (l_pos s) source with
    | (b :: _) as rest => (s, Ok (take (lead_len b) rest))
    | [] => (s, Panic)
    end
  else (s, Panic).

Fixpoint string_loop (fuel : nat) (out : str) : L str :=
  match fuel with
  | O => no_fuel
  | S fuel =>
      let* b := peek in
      match b with
      | None => lex_fail UnterminatedString
      | Some b =>
          if (b =? 34)%Z then bump ;;* ret out
          else if (b =? 10)%Z then lex_fail NewlineInString
          else if (b =? 92)%Z then
            bump ;;*
            let* c := escape_char in
            string_loop fuel (out ++ [c])
          else if (b <? 128)%Z then bump ;;* string_loop fuel (out ++ [b])
          else
            let* c := char_here in
            bump_n (length c) ;;*
            string_loop fuel (out ++ c)
      end
  end.

Definition lex_string : L str := bump ;;* string_loop loop_fuel [].

Definition lex_byte_string : L TokenKind :=
  let* s := lex_string in
  if forallb (λ b, (b <? 128)%Z) s then ret (ByteString s) else lex_fail ByteStringNotAscii.

Definition lex_byte : L TokenKind :=
  bump ;;*
  let* b := peek in
  let* value := match b with
                | Some b => if (b =? 92)%Z then bump ;;* escape_char
                            else if (b <? 128)%Z then bump ;;* ret b
                            else lex_fail ByteNotAscii
                | None => lex_fail ByteNotAscii
                end in
  let* quote := peek in
  if bool_decide (quote = Some 39%Z) then bump ;;* ret (Byte value) else lex_fail UnterminatedByte.

(** ** Punctuation *)

Definition one (k : TokenKind) : L TokenKind := bump ;;* ret k.

(** Consumes the next byte when it is the given one. *)
Definition eat_byte (c : Z) : L bool :=
  let* b := peek in if bool_decide (b = Some c) then bump ;;* ret true else ret false.

Definition two_or_one (second : Z) (two single : TokenKind) : L TokenKind :=
  bump ;;* let* b := eat_byte second in ret (if b then two else single).

(** A second byte of two kinds. *)
Definition one_of_three (c1 : Z) (k1 : TokenKind) (c2 : Z) (k2 single : TokenKind) : L TokenKind :=
  bump ;;*
  let* b1 := eat_byte c1 in
  if b1 then ret k1 else let* b2 := eat_byte c2 in ret (if b2 then k2 else single).

(** [<] and [>], with shifts and comparisons. *)
Definition angle (c : Z) (shift_eq shift less_eq less : TokenKind) : L TokenKind :=
  bump ;;*
  let* b1 := eat_byte c in
  if b1 then let* b2 := eat_byte 61 in ret (if b2 then shift_eq else shift)
  else let* b2 := eat_byte 61 in ret (if b2 then less_eq else less).

Definition punctuation (b : Z) : L TokenKind :=
  if (b =? 64)%Z then one At
  else if (b =? 126)%Z then one Tilde
  else if (b =? 43)%Z then two_or_one 61 PlusEq Plus
  else if (b =? 45)%Z then one_of_three 62 Arrow 61 MinusEq Minus
  else if (b =? 42)%Z then two_or_one 61 StarEq Star
  else if (b =? 47)%Z then two_or_one 61 SlashEq Slash
  else if (b =? 37)%Z then two_or_one 61 PercentEq Percent
  else if (b =? 94)%Z then two_or_one 61 CaretEq Caret
  else if (b =? 33)%Z then two_or_one 61 NotEq Bang
  else if (b =? 61)%Z then two_or_one 61 EqEq TEq
  else if (b =? 38)%Z then one_of_three 38 AndAnd 61 AmpEq Amp
  else if (b =? 124)%Z then one_of_three 124 OrOr 61 PipeEq Pipe
  else if (b =? 60)%Z then angle 60 ShiftLeftEq ShiftLeft LessEq Less
  else if (b =? 62)%Z then angle 62 ShiftRightEq ShiftRight GreaterEq Greater
  else if (b =? 58)%Z then two_or_one 58 ColonColon Colon
  else if (b =? 59)%Z then one Semi
  else if (b =? 44)%Z then one Comma
  else if (b =? 46)%Z then one Dot
  else if (b =? 40)%Z then one LParen
  else if (b =? 41)%Z then one RParen
  else if (b =? 123)%Z then one LBrace
  else if (b =? 125)%Z then one RBrace
  else if (b =? 91)%Z then one LBracket
  else if (b =? 93)%Z then one RBracket
  else lex_fail (UnexpectedByte b).

Definition next_token : L TokenKind :=
  let* b := peek in
  match b with
  | None => panic
  | Some b =>
      if is_ident_start b then
        let* second := peek_n 1 in
        if (b =? 98)%Z && bool_decide (second = Some 34%Z) then bump ;;* lex_byte_string
        else if (b =? 98)%Z && bool_decide (second = Some 39%Z) then bump ;;* lex_byte
        else lex_ident
      else if is_digit b then lex_integer
      else if (b =? 34)%Z then let* s := lex_string in ret (TString s)
      else punctuation b
  end.

(** ** Trivia *)

(** The rest of a block comment, inside of [depth] comments. *)
Fixpoint block_comment (fuel depth : nat) : L unit :=
  match fuel with
  | O => no_fuel
  | S fuel =>
      match depth with
      | O => ret tt
      | S outer =>
          let* b0 := peek in
          let* b1 := peek_n 1 in
          match b0 with
          | None => lex_fail UnterminatedComment
          | Some c0 =>
              if (c0 =? 47)%Z && bool_decide (b1 = Some 42%Z) then bump ;;* bump ;;* block_comment fuel (S depth)
              else if (c0 =? 42)%Z && bool_decide (b1 = Some 47%Z) then bump ;;* bump ;;* block_comment fuel outer
              else bump ;;* block_comment fuel depth
          end
      end
  end.

Fixpoint skip_trivia (fuel : nat) : L unit :=
  match fuel with
  | O => no_fuel
  | S fuel =>
      bump_while is_ascii_whitespace loop_fuel ;;*
      let* b0 := peek in
      let* b1 := peek_n 1 in
      if bool_decide (b0 = Some 47%Z) && bool_decide (b1 = Some 47%Z) then
        bump_while (λ b, negb (b =? 10)%Z) loop_fuel ;;* skip_trivia fuel
      else if bool_decide (b0 = Some 47%Z) && bool_decide (b1 = Some 42%Z) then
        bump ;;* bump ;;* block_comment (S loop_fuel) 1 ;;* skip_trivia fuel
      else ret tt
  end.

Definition span_from (mark now : LState) : Span :=
  {| start := l_pos mark; end_ := l_pos now; line := l_line mark; column := l_column mark |}.

Fixpoint lex_all (fuel : nat) (out : list Token) : L (list Token) :=
  match fuel with
  | O => no_fuel
  | S fuel =>
      skip_trivia loop_fuel ;;*
      let* mark := get in
      if bool_decide (l_pos mark = length source) then ret (out ++ [{| kind := Eof; span := span_from mark mark |}])
      else
        let* k := next_token in
        let* now := get in
        lex_all fuel (out ++ [{| kind := k; span := span_from mark now |}])
  end.

Definition initial_state : LState := {| l_pos := 0; l_line := 1; l_column := 1 |}.

Definition lex : outcome LexError (list Token) := (lex_all loop_fuel [] initial_state).2.
End Lexer.

Example lex_module :
  match lex (lit "test.oc") (lit "module kernel::boot; let x: u64 = 0xff_00; /* a /* b */ c */ n += b'\n'; // end") with
  | Ok tokens => kind <$> tokens =
      [KModule; Ident (lit "kernel"); ColonColon; Ident (lit "boot"); Semi; KLet; Ident (lit "x"); Colon; Ident (lit "u64"); TEq;
       Integer 65280; Semi; Ident (lit "n"); PlusEq; Byte 10; Semi; Eof]
  | _ => False
  end.
Proof. vm_compute. reflexivity. Qed.
