(* ===== verification/OcoreLexerFacts.v ===== *)
(** * Facts on the lexer of Ocore

    The state of the lexer is a function of its position, and every part of the lexer
    is described by the text that it consumes. *)

From S2P Require Import Prelude.
From S2P Require Import Utf8.
From S2P Require Import OcoreLexer.
From stdpp Require Import options.

#[local] Open Scope nat_scope.

Lemma wp_step {S E A B} (m : M S E A) (k : A → M S E B) Q R s s' a :
  m s = (s', Ok a) → wp (k a) Q R s' → wp (bind m k) Q R s.
Proof. intros E' H. apply wp_bind. unfold wp at 1. by rewrite E'. Qed.

(** ** What a computation can return *)

Definition returns {S E A} (P : A → Prop) (m : M S E A) : Prop := ∀ s s' a, m s = (s', Ok a) → P a.

Lemma returns_ret {S E A} (P : A → Prop) (a : A) : P a → returns P (ret (S := S) (E := E) a).
Proof. by intros Ha s s' a' [= <- <-]. Qed.

Lemma returns_bind {S E A B} (P : B → Prop) (m : M S E A) (k : A → M S E B) : (∀ a, returns P (k a)) → returns P (bind m k).
Proof. intros Hk s s' b (a & s1 & _ & H)%bind_Ok_inv. by eapply Hk. Qed.

Lemma returns_wp {S E A} (P : A → Prop) (m : M S E A) Q R s : returns P m → wp m Q R s → wp m (λ a s', Q a s' ∧ P a) R s.
Proof. unfold wp. intros Hm. destruct (m s) as [s' [a| | |]] eqn:E'; [|done..]. intros HQ. split; [done|]. by eapply Hm. Qed.

(** The bytes of a text since its last newline. *)
Definition last_line (s : str) : str := reverse (take (span_len (λ b, negb (b =? 10)%Z) (reverse s)) (reverse s)).

Lemma last_line_snoc s b : last_line (s ++ [b]) = if (b =? 10)%Z then [] else last_line s ++ [b].
Proof.
  unfold last_line. rewrite reverse_app. simpl. destruct (b =? 10)%Z eqn:E; simpl; [done|]. by rewrite reverse_cons.
Qed.

(** The line and the column of a byte: lines end with a newline, columns count bytes. *)
Definition line_of (source : str) (n : nat) : nat := S (length (filter (λ b, b = 10%Z) (take n source))).
Definition column_of (source : str) (n : nat) : nat := S (length (last_line (take n source))).

Section Facts.
Context (file source : str) (Hutf : utf8_valid source = true).

Abbreviation len := (length source).
Abbreviation L := (M LState (Diagnostic LexMessage)).

(** The state at a position. *)
Definition place (n : nat) : LState := foldl (λ s b, step b s) initial_state (take n source).

Lemma place_S n b : source !! n = Some b → place (S n) = step b (place n).
Proof. intros H. unfold place. by rewrite (take_S_r _ _ _ H), foldl_app. Qed.

Lemma place_spec n : n ≤ len →
  l_pos (place n) = n ∧ l_line (place n) = line_of source n ∧ l_column (place n) = column_of source n.
Proof.
  unfold line_of, column_of.
  induction n as [|n IH]; intros Hn; [done|]. destruct (lookup_lt_is_Some_2 source n) as [b Hb]; [lia|].
  destruct IH as (H1 & H2 & H3); [lia|]. rewrite (place_S n b Hb), (take_S_r _ _ _ Hb), filter_app, last_line_snoc. unfold step.
  rewrite length_app. destruct (Z.eqb_spec b 10) as [-> |Hne]; simpl.
  - rewrite H1, H2. split_and!; [done|lia|done].
  - rewrite filter_cons_False by done. simpl. rewrite H1, H2, H3, length_app. simpl. split_and!; lia.
Qed.

Lemma place_pos n : n ≤ len → l_pos (place n) = n.
Proof. apply place_spec. Qed.

(** ** Elementary steps *)

Lemma peek_at n : n ≤ len → peek source (place n) = (place n, Ok (source !! n)).
Proof. intros Hn. unfold peek. by rewrite place_pos. Qed.

Lemma peek_n_at n k : n ≤ len → peek_n source k (place n) = (place n, Ok (source !! (n + k))).
Proof. intros Hn. unfold peek_n. by rewrite place_pos. Qed.

Lemma bump_at n b : source !! n = Some b → bump source (place n) = (place (S n), Ok tt).
Proof.
  intros Hb. unfold bump. rewrite place_pos by (apply lookup_lt_Some in Hb; lia). by rewrite Hb, (place_S n b Hb).
Qed.

Lemma bump_n_at k n : n + k ≤ len → bump_n source k (place n) = (place (n + k), Ok tt).
Proof.
  revert n. induction k as [|k IH]; intros n Hn; simpl; [by rewrite Nat.add_0_r|].
  destruct (lookup_lt_is_Some_2 source n) as [b Hb]; [lia|]. rewrite (bind_Ok _ _ _ _ _ (bump_at n b Hb)), IH by lia.
  do 2 f_equal. lia.
Qed.

Lemma drop_head n b r : drop n source = b :: r → source !! n = Some b ∧ n < len ∧ drop (S n) source = r.
Proof.
  intros H. assert (Hb : source !! n = Some b) by (rewrite <-(Nat.add_0_r n), <-lookup_drop, H; done).
  split_and!; [done|by eapply lookup_lt_Some|]. rewrite <-(Nat.add_1_r n), <-drop_drop, H. done.
Qed.

Lemma drop_bounds n b r : drop n source = b :: r → S n ≤ len.
Proof. intros H. by destruct (drop_head n b r H) as (_ & ? & _). Qed.

Lemma bump_while_at p fuel n : n ≤ len → len - n < fuel →
  bump_while source p fuel (place n) = (place (n + span_len p (drop n source)), Ok tt).
Proof.
  revert n. induction fuel as [|fuel IH]; intros n Hn Hf; [lia|]. cbn [bump_while]. rewrite (bind_Ok _ _ _ _ _ (peek_at n Hn)).
  destruct (drop n source) as [|b r] eqn:E.
  - assert (n = len) as -> by (apply (f_equal length) in E; rewrite length_drop in E; simpl in E; lia).
    rewrite lookup_ge_None_2 by lia. simpl. by rewrite Nat.add_0_r.
  - destruct (drop_head n b r E) as (Hb & Hlt & Er). rewrite Hb. simpl. destruct (p b); [|by rewrite Nat.add_0_r].
    rewrite (bind_Ok _ _ _ _ _ (bump_at n b Hb)), IH by lia. rewrite Er. do 2 f_equal. lia.
Qed.

Lemma slice_at a n : is_boundary source a = true → is_boundary source n = true → a ≤ n →
  slice_from source a (place n) = (place n, Ok (take (n - a) (drop a source))).
Proof.
  intros Ha Hn Hle. pose proof (is_boundary_le _ _ Hn). unfold slice_from. rewrite place_pos by done.
  by rewrite Ha, Hn, (proj2 (Nat.leb_le _ _) Hle).
Qed.

(** ** Boundaries *)

Lemma source_byte n b : source !! n = Some b → (0 ≤ b < 256)%Z.
Proof using Hutf. intros Hb. exact (Forall_lookup_1 _ _ _ _ (utf8_valid_bytes _ Hutf) Hb). Qed.

Lemma ascii_boundary n b : source !! n = Some b → (b < 128)%Z → is_boundary source n = true.
Proof using Hutf. intros Hb Hlt. pose proof (source_byte n b Hb). eapply boundary_ascii; [done|lia]. Qed.

Lemma ascii_next n b : source !! n = Some b → (b < 128)%Z → is_boundary source (S n) = true.
Proof using Hutf. intros Hb Hlt. pose proof (source_byte n b Hb). eapply boundary_after_ascii; [done..|lia]. Qed.

Lemma ascii_span p n : is_boundary source n = true → (∀ b, p b = true → (0 ≤ b < 128)%Z) →
  is_boundary source (n + span_len p (drop n source)) = true.
Proof using Hutf. intros Hb Hp. by apply span_ascii_boundary. Qed.

Lemma span_bound p n : n ≤ len → n + span_len p (drop n source) ≤ len.
Proof. intros Hn. pose proof (span_len_le p (drop n source)) as H. rewrite length_drop in H. lia. Qed.

(** ** Outcomes *)

(** A diagnostic that shows the position where the lexer stopped. *)
Definition placed_error (d : Diagnostic LexMessage) : Prop :=
  ∃ n, n ≤ len ∧ d_file d = file ∧
    d_span d = {| start := n; end_ := S n `min` len; line := line_of source n; column := column_of source n |}.

Abbreviation stops := (λ d (_ : LState), placed_error d).

(** The lexer is on a character boundary after [n]. *)
Definition after {A} (n : nat) (_ : A) (s : LState) : Prop := ∃ n', s = place n' ∧ n < n' ∧ is_boundary source n' = true.

Lemma after_at {A} n n' (a : A) : n < n' → is_boundary source n' = true → after n a (place n').
Proof. intros. by exists n'. Qed.

Lemma wp_fail_at {A} message n (Q : A → LState → Prop) : n ≤ len → wp (lex_fail file source message) Q stops (place n).
Proof.
  intros Hn. unfold wp, lex_fail, placed_error. simpl. exists n. unfold error_at_cursor. simpl.
  by destruct (place_spec n Hn) as (-> & -> & ->).
Qed.

Lemma wp_after {A} (m : L A) n n0 (a : A) n1 R : m (place n) = (place n1, Ok a) → n0 < n1 → is_boundary source n1 = true → wp m (after n0) R (place n).
Proof. intros E H1 H2. unfold wp. rewrite E. by apply after_at. Qed.

(** *** Identifiers and integers *)

Lemma ident_ascii b : is_ident_continue b = true → (0 ≤ b < 128)%Z.
Proof.
  unfold is_ident_continue, is_ident_start, is_ascii_alphabetic, is_digit. rewrite !orb_true_iff, !in_range_spec, andb_true_iff, Z.eqb_eq, !Z.leb_le.
  lia.
Qed.

Lemma start_continue b : is_ident_start b = true → is_ident_continue b = true.
Proof. unfold is_ident_continue. by intros ->. Qed.

Lemma lex_ident_at n b : source !! n = Some b → is_ident_start b = true →
  let n' := S n + span_len is_ident_continue (drop (S n) source) in
  lex_ident source (place n) = (place n', Ok (ident_kind (take (n' - n) (drop n source)))) ∧ is_boundary source n' = true.
Proof using Hutf.
  intros Hb Hs n'. pose proof (lookup_lt_Some _ _ _ Hb) as Hlt. apply start_continue, ident_ascii in Hs.
  assert (Hn' : is_boundary source n' = true) by (apply ascii_span; [eapply ascii_next; [done|lia]|apply ident_ascii]). split; [|done].
  unfold lex_ident. rewrite (bind_Ok _ _ _ (place n) (place n)) by done. rewrite (bind_Ok _ _ _ _ _ (bump_at n b Hb)).
  rewrite (bind_Ok _ _ _ _ _ (bump_while_at is_ident_continue (loop_fuel source) (S n) ltac:(lia) ltac:(unfold loop_fuel; lia))).
  fold n'. rewrite place_pos by lia. by rewrite (bind_Ok _ _ _ _ _ (slice_at n n' ltac:(eapply ascii_boundary; [done|lia]) Hn' ltac:(unfold n'; lia))).
Qed.

Lemma to_digit_ascii radix b : is_Some (to_digit radix b) → (0 ≤ b < 128)%Z.
Proof.
  unfold to_digit, is_digit. intros [d H]. destruct (in_range 97 122 b) eqn:E1, (in_range 65 90 b) eqn:E2, ((48 <=? b) && (b <=? 57))%Z eqn:E3;
    rewrite ?in_range_spec, ?andb_true_iff, ?Z.leb_le in *; try done; lia.
Qed.

Lemma integer_total n b : source !! n = Some b → is_digit b = true → wp (lex_integer file source) (after n) stops (place n).
Proof using Hutf.
  intros Hb Hd. pose proof (lookup_lt_Some _ _ _ Hb) as Hlt.
  assert (Hb' : (b < 128)%Z) by (unfold is_digit in Hd; rewrite andb_true_iff, !Z.leb_le in Hd; lia).
  unfold lex_integer. eapply wp_step; [done|]. eapply wp_step; [by apply peek_at; lia|]. eapply wp_step; [by apply peek_n_at; lia|].
  rewrite Hb, Nat.add_1_r. apply wp_bind.
  apply wp_mono with (λ _ s, ∃ n1, s = place n1 ∧ n ≤ n1 ∧ is_boundary source n1 = true) stops; [| |done].
  { destruct (if bool_decide _ then _ else None) as [radix|] eqn:Er.
    - assert (∃ c, source !! S n = Some c ∧ (c < 128)%Z) as (c & Hc & Hc').
      { destruct (bool_decide _); [|done]. destruct (source !! S n) as [c|]; [|done]. exists c. split; [done|]. simpl in Er.
        repeat case_bool_decide; set_unfold; naive_solver lia. }
      eapply wp_step; [by eapply bump_at|]. eapply wp_step; [by eapply bump_at|]. apply wp_ret. exists (S (S n)).
      split_and!; [done|lia|by eapply ascii_next].
    - apply wp_ret. exists n. split_and!; [done|lia|by eapply ascii_boundary]. }
  intros radix s (n1 & -> & Hn1 & Hbd). pose proof (is_boundary_le _ _ Hbd) as Hle. eapply wp_step; [done|].
  set (p := λ b, _ || _). set (n2 := n1 + span_len p (drop n1 source)).
  assert (Hbd2 : is_boundary source n2 = true).
  { apply ascii_span; [done|]. intros c. unfold p. rewrite orb_true_iff, bool_decide_eq_true, Z.eqb_eq. intros [-> |?]; [lia|by eapply to_digit_ascii]. }
  pose proof (is_boundary_le _ _ Hbd2) as Hle2.
  eapply wp_step; [apply bump_while_at; [done|unfold loop_fuel; lia]|]. fold n2. eapply wp_step; [done|]. rewrite !place_pos by done.
  case_bool_decide as Hz; [by apply wp_fail_at|]. assert (n1 < n2) by (unfold n2 in *; lia).
  eapply wp_step; [apply slice_at; [done|done|lia]|]. destruct (from_str_radix _ _) as [v|].
  - apply wp_ret. apply after_at; [lia|done].
  - rewrite place_pos by lia. eapply wp_step; [apply slice_at; [by eapply ascii_boundary|done|lia]|]. by apply wp_fail_at.
Qed.

(** *** Strings and bytes *)

(** An escape that is accepted is one ASCII character. *)
Lemma escape_total n : is_boundary source n = true → wp (escape_char file source) (after n) stops (place n).
Proof using Hutf.
  intros Hbd. pose proof (is_boundary_le _ _ Hbd). unfold escape_char. eapply wp_step; [by apply peek_at|].
  destruct (source !! n) as [b|] eqn:Hb; [|by apply wp_fail_at]. pose proof (lookup_lt_Some _ _ _ Hb). eapply wp_step; [by eapply bump_at|].
  repeat (match goal with |- context [(b =? ?c)%Z] => destruct (Z.eqb_spec b c) as [-> |_] end;
    [apply wp_ret, after_at; [lia|eapply ascii_next; [done|lia]]|]). apply wp_fail_at. lia.
Qed.

Lemma char_here_at n b : is_boundary source n = true → source !! n = Some b →
  char_here source (place n) = (place n, Ok (take (lead_len b) (drop n source))) ∧
  length (take (lead_len b) (drop n source)) = lead_len b ∧ is_boundary source (n + lead_len b) = true ∧ 0 < lead_len b.
Proof using Hutf.
  intros Hbd Hb. pose proof (is_boundary_le _ _ Hbd). destruct (boundary_next source n b Hutf Hbd Hb) as [Hnext Hpos].
  pose proof (is_boundary_le _ _ Hnext). split_and!; [|rewrite length_take, length_drop; lia|done|done].
  unfold char_here. rewrite place_pos by done. rewrite Hbd, (drop_S _ _ _ Hb). reflexivity.
Qed.

Lemma string_loop_total fuel out n : is_boundary source n = true → len - n < fuel →
  wp (string_loop file source fuel out) (after n) stops (place n).
Proof using Hutf.
  revert out n. induction fuel as [|fuel IH]; intros out n Hbd Hf; [lia|]. pose proof (is_boundary_le _ _ Hbd) as Hle. cbn [string_loop].
  eapply wp_step; [by apply peek_at|]. destruct (source !! n) as [b|] eqn:Hb; [|by apply wp_fail_at].
  pose proof (lookup_lt_Some _ _ _ Hb). pose proof (source_byte n b Hb) as Hbyte.
  assert (Hrec : ∀ n1 out', n < n1 → is_boundary source n1 = true → wp (string_loop file source fuel out') (after n) stops (place n1)).
  { intros n1 out' Hn1 Hbd1. pose proof (is_boundary_le _ _ Hbd1). eapply wp_mono; [apply IH; [done|lia]| |done].
    intros a s (n2 & -> & ? & ?). apply after_at; [lia|done]. }
  destruct (Z.eqb_spec b 34) as [-> |_]; [eapply wp_step; [by eapply bump_at|]; apply wp_ret, after_at; [lia|eapply ascii_next; [done|lia]]|].
  destruct (Z.eqb_spec b 10) as [-> |_]; [by apply wp_fail_at|]. destruct (Z.eqb_spec b 92) as [-> |_].
  { eapply wp_step; [by eapply bump_at|]. apply wp_bind.
    eapply wp_mono; [apply escape_total; eapply ascii_next; [done|lia]| |done]. intros c s (n1 & -> & ? & ?). apply Hrec; [lia|done]. }
  destruct (Z.ltb_spec b 128).
  - eapply wp_step; [by eapply bump_at|]. apply Hrec; [lia|by eapply ascii_next].
  - destruct (char_here_at n b Hbd Hb) as (E & El & Hnext & Hpos). pose proof (is_boundary_le _ _ Hnext). eapply wp_step; [exact E|].
    rewrite El. eapply wp_step; [apply bump_n_at; lia|]. apply Hrec; [lia|done].
Qed.

Lemma string_total n b : source !! n = Some b → (b < 128)%Z → wp (lex_string file source) (after n) stops (place n).
Proof using Hutf.
  intros Hb Hlt. eapply wp_step; [by eapply bump_at|]. eapply wp_mono; [apply string_loop_total; [by eapply ascii_next|unfold loop_fuel; lia]| |done].
  intros a s (n1 & -> & ? & ?). apply after_at; [lia|done].
Qed.

Lemma byte_string_total n b : source !! n = Some b → (b < 128)%Z → wp (lex_byte_string file source) (after n) stops (place n).
Proof using Hutf.
  intros Hb Hlt. apply wp_bind. eapply wp_mono; [by eapply string_total| |done]. intros a s (n1 & -> & ? & Hbd).
  destruct (forallb _ a); [by apply wp_ret, after_at|by apply wp_fail_at, is_boundary_le].
Qed.

Lemma byte_total n b : source !! n = Some b → (b < 128)%Z → wp (lex_byte file source) (after n) stops (place n).
Proof using Hutf.
  intros Hb Hlt. pose proof (lookup_lt_Some _ _ _ Hb). pose proof (ascii_next n b Hb Hlt) as Hbd. eapply wp_step; [by eapply bump_at|].
  eapply wp_step; [apply peek_at; lia|]. apply wp_bind. apply wp_mono with (after (S n)) stops; [| |done].
  { destruct (source !! S n) as [c|] eqn:Hc; [|apply wp_fail_at; lia]. pose proof (lookup_lt_Some _ _ _ Hc). destruct (Z.eqb_spec c 92) as [-> |_].
    - eapply wp_step; [by eapply bump_at|]. eapply wp_mono; [apply escape_total; eapply ascii_next; [done|lia]| |done].
      intros a s (n1 & -> & ? & ?). apply after_at; [lia|done].
    - destruct (Z.ltb_spec c 128); [|apply wp_fail_at; lia]. eapply wp_step; [by eapply bump_at|].
      apply wp_ret, after_at; [lia|by eapply ascii_next]. }
  intros value s (n1 & -> & ? & Hbd1). pose proof (is_boundary_le _ _ Hbd1). eapply wp_step; [by apply peek_at|].
  case_bool_decide as Hq; [|by apply wp_fail_at]. eapply wp_step; [by eapply bump_at|]. apply wp_ret, after_at; [lia|eapply ascii_next; [done|lia]].
Qed.

(** *** Punctuation *)

Lemma eat_byte_at c n : n ≤ len →
  eat_byte source c (place n) = (place (if bool_decide (source !! n = Some c) then S n else n), Ok (bool_decide (source !! n = Some c))).
Proof.
  intros Hn. unfold eat_byte. rewrite (bind_Ok _ _ _ _ _ (peek_at n Hn)). case_bool_decide as H; [|done].
  by rewrite (bind_Ok _ _ _ _ _ (bump_at n c H)).
Qed.

Lemma eat_byte_total c n (Q : bool → LState → Prop) : (c < 128)%Z → is_boundary source n = true →
  (∀ n', n ≤ n' → is_boundary source n' = true → ∀ b, Q b (place n')) → wp (eat_byte source c) Q stops (place n).
Proof using Hutf.
  intros Hc Hbd HQ. unfold wp. rewrite eat_byte_at by by apply is_boundary_le. case_bool_decide as H; apply HQ; [lia|by eapply ascii_next|lia|done].
Qed.

Lemma punctuation_total n b : source !! n = Some b → wp (punctuation file source b) (after n) stops (place n).
Proof using Hutf.
  intros Hb. pose proof (lookup_lt_Some _ _ _ Hb). unfold punctuation.
  assert (Hret : ∀ n' (k : TokenKind), S n ≤ n' → is_boundary source n' = true → wp (ret k) (after n) stops (place n')).
  { intros n' k ? ?. apply wp_ret, after_at; [lia|done]. }
  assert (Hone : ∀ k, (b < 128)%Z → wp (one source k) (after n) stops (place n)).
  { intros k Hlt. eapply wp_step; [by eapply bump_at|]. apply Hret; [lia|by eapply ascii_next]. }
  assert (Htwo : ∀ c k1 k2, (b < 128)%Z → (c < 128)%Z → wp (two_or_one source c k1 k2) (after n) stops (place n)).
  { intros c k1 k2 Hlt Hc. eapply wp_step; [by eapply bump_at|]. apply wp_bind, eat_byte_total; [done|by eapply ascii_next|].
    intros n1 Hn1 Hb1 x. by apply Hret. }
  assert (Hthree : ∀ c1 k1 c2 k2 k3, (b < 128)%Z → (c1 < 128)%Z → (c2 < 128)%Z → wp (one_of_three source c1 k1 c2 k2 k3) (after n) stops (place n)).
  { intros c1 k1 c2 k2 k3 Hlt Hc1 Hc2. eapply wp_step; [by eapply bump_at|]. apply wp_bind, eat_byte_total; [done|by eapply ascii_next|].
    intros n1 Hn1 Hb1 [|]; [by apply Hret|]. apply wp_bind, eat_byte_total; [done|done|]. intros n2 Hn2 Hb2 x. apply Hret; [lia|done]. }
  assert (Hangle : ∀ c k1 k2 k3 k4, (b < 128)%Z → (c < 128)%Z → wp (angle source c k1 k2 k3 k4) (after n) stops (place n)).
  { intros c k1 k2 k3 k4 Hlt Hc. eapply wp_step; [by eapply bump_at|]. apply wp_bind, eat_byte_total; [done|by eapply ascii_next|].
    intros n1 Hn1 Hb1 [|]; apply wp_bind, eat_byte_total; try done; intros n2 Hn2 Hb2 x; (apply Hret; [lia|done]). }
  repeat (match goal with |- context [(b =? ?c)%Z] => destruct (Z.eqb_spec b c) as [-> |_] end;
    [first [apply Hone; lia|apply Htwo; lia|apply Hthree; lia|apply Hangle; lia]|]).
  apply wp_fail_at. lia.
Qed.

Lemma next_token_total n : n < len → is_boundary source n = true → wp (next_token file source) (after n) stops (place n).
Proof using Hutf.
  intros Hlt Hbd. destruct (lookup_lt_is_Some_2 source n Hlt) as [b Hb]. unfold next_token. eapply wp_step; [apply peek_at; lia|]. rewrite Hb.
  assert (Hskip : ∀ (m : L TokenKind) c, source !! S n = Some c → (b = 98)%Z → wp m (after (S n)) stops (place (S n)) →
    wp (bump source ;;* m) (after n) stops (place n)).
  { intros m c Hc -> Hm. eapply wp_step; [by eapply bump_at|]. eapply wp_mono; [exact Hm| |done]. intros a s (n1 & -> & ? & ?). apply after_at; [lia|done]. }
  destruct (is_ident_start b) eqn:Hs.
  - eapply wp_step; [apply peek_n_at; lia|]. rewrite Nat.add_1_r. destruct (Z.eqb_spec b 98) as [Hb98|_]; simpl.
    2:{ destruct (lex_ident_at n b Hb Hs) as [E Hbd']. eapply wp_after; [exact E|lia|done]. }
    case_bool_decide as H1; [eapply Hskip; [done..|]; eapply byte_string_total; [done|lia]|].
    case_bool_decide as H2; [eapply Hskip; [done..|]; eapply byte_total; [done|lia]|].
    destruct (lex_ident_at n b Hb Hs) as [E Hbd']. eapply wp_after; [exact E|lia|done].
  - destruct (is_digit b) eqn:Hd; [by eapply integer_total|]. destruct (Z.eqb_spec b 34) as [-> |_]; [|by eapply punctuation_total].
    apply wp_bind. eapply wp_mono; [eapply string_total; [done|lia]| |done]. intros a s (n1 & -> & ? & ?). by apply wp_ret, after_at.
Qed.

(** *** Trivia *)

Lemma block_comment_total fuel depth n : n ≤ len → S (len - n) < fuel → (depth = 0 → is_boundary source n = true) →
  wp (block_comment file source fuel depth) (λ _ s, ∃ n', s = place n' ∧ n ≤ n' ∧ is_boundary source n' = true) stops (place n).
Proof using Hutf.
  revert depth n. induction fuel as [|fuel IH]; intros depth n Hn Hf Hd; [lia|]. cbn [block_comment].
  destruct depth as [|outer]; [apply wp_ret; exists n; auto|]. eapply wp_step; [by apply peek_at|]. eapply wp_step; [by apply peek_n_at|].
  rewrite Nat.add_1_r. destruct (source !! n) as [c|] eqn:Hc; [|by apply wp_fail_at]. pose proof (lookup_lt_Some _ _ _ Hc).
  assert (Hrec : ∀ depth n1, n < n1 → n1 ≤ len → (depth = 0 → is_boundary source n1 = true) →
    wp (block_comment file source fuel depth) (λ _ s, ∃ n', s = place n' ∧ n ≤ n' ∧ is_boundary source n' = true) stops (place n1)).
  { intros depth n1 H1 H2 H3. eapply wp_mono; [apply IH; [done|lia|done]| |done]. intros a s (n2 & -> & ? & ?). exists n2. split_and!; [done|lia|done]. }
  destruct ((c =? 47)%Z && bool_decide (source !! S n = Some 42%Z)) eqn:E1.
  { apply andb_true_iff in E1 as [_ E1%bool_decide_eq_true]. pose proof (lookup_lt_Some _ _ _ E1). eapply wp_step; [by eapply bump_at|].
    eapply wp_step; [by eapply bump_at|]. apply Hrec; [lia|lia|done]. }
  destruct ((c =? 42)%Z && bool_decide (source !! S n = Some 47%Z)) eqn:E2.
  { apply andb_true_iff in E2 as [_ E2%bool_decide_eq_true]. pose proof (lookup_lt_Some _ _ _ E2). eapply wp_step; [by eapply bump_at|].
    eapply wp_step; [by eapply bump_at|]. apply Hrec; [lia|lia|]. intros _. eapply ascii_next; [done|lia]. }
  eapply wp_step; [by eapply bump_at|]. apply Hrec; [lia|lia|done].
Qed.

Lemma whitespace_ascii b : is_ascii_whitespace b = true → (0 ≤ b < 128)%Z.
Proof. clear. unfold is_ascii_whitespace. rewrite bool_decide_eq_true. set_unfold. lia. Qed.

Lemma skip_trivia_total fuel n : is_boundary source n = true → len - n < fuel →
  wp (skip_trivia file source fuel) (λ _ s, ∃ n', s = place n' ∧ n ≤ n' ∧ is_boundary source n' = true) stops (place n).
Proof using Hutf.
  revert n. induction fuel as [|fuel IH]; intros n Hbd Hf; [lia|]. pose proof (is_boundary_le _ _ Hbd) as Hn. cbn [skip_trivia].
  eapply wp_step; [apply bump_while_at; [done|unfold loop_fuel; lia]|]. set (n1 := n + span_len _ _).
  assert (Hbd1 : is_boundary source n1 = true) by (apply ascii_span; [done|apply whitespace_ascii]).
  pose proof (is_boundary_le _ _ Hbd1). assert (n ≤ n1) by (unfold n1; lia).
  eapply wp_step; [by apply peek_at|]. eapply wp_step; [by apply peek_n_at|]. rewrite Nat.add_1_r.
  assert (Hrec : ∀ n2, n1 < n2 → is_boundary source n2 = true →
    wp (skip_trivia file source fuel) (λ _ s, ∃ n', s = place n' ∧ n ≤ n' ∧ is_boundary source n' = true) stops (place n2)).
  { intros n2 H2 Hbd2. pose proof (is_boundary_le _ _ Hbd2). eapply wp_mono; [apply IH; [done|lia]| |done].
    intros a s (n3 & -> & ? & ?). exists n3. split_and!; [done|lia|done]. }
  destruct (bool_decide (source !! n1 = Some 47%Z)) eqn:E1; cbn [andb]; [|apply wp_ret; by exists n1]. apply bool_decide_eq_true in E1.
  pose proof (lookup_lt_Some _ _ _ E1). case_bool_decide as E2; [|case_bool_decide as E3; [|apply wp_ret; by exists n1]].
  - eapply wp_step; [apply bump_while_at; [done|unfold loop_fuel; lia]|]. set (n2 := n1 + span_len _ _). apply Hrec.
    + unfold n2. rewrite (drop_S _ _ _ E1). simpl. lia.
    + unfold is_boundary. destruct (source !! n2) as [b|] eqn:Eb.
      * assert (b = 10%Z) as ->; [|done]. unfold n2 in Eb. rewrite <-lookup_drop in Eb. apply span_len_stop in Eb.
        apply negb_false_iff in Eb. lia.
      * apply bool_decide_eq_true. apply lookup_ge_None in Eb. pose proof (span_bound (λ b, negb (b =? 10)%Z) n1 ltac:(lia)). unfold n2 in *. lia.
  - pose proof (lookup_lt_Some _ _ _ E3). eapply wp_step; [by eapply bump_at|]. eapply wp_step; [by eapply bump_at|]. apply wp_bind.
    eapply wp_mono; [apply block_comment_total; [lia|unfold loop_fuel; lia|done]| |done]. intros a s (n2 & -> & ? & ?). apply Hrec; [lia|done].
Qed.

(** *** All tokens *)

(** The tokens from position [n] on: in order, with exact positions, the last one and
    only this is [Eof]. *)
Fixpoint placed_tokens (n : nat) (ts : list Token) : Prop :=
  match ts with
  | [] => False
  | t :: ts =>
      n ≤ start (span t) ∧ line (span t) = line_of source (start (span t)) ∧ column (span t) = column_of source (start (span t)) ∧
      match ts with
      | [] => kind t = Eof ∧ start (span t) = len ∧ end_ (span t) = len
      | _ => kind t ≠ Eof ∧ start (span t) < end_ (span t) ≤ len ∧ placed_tokens (end_ (span t)) ts
      end
  end.

Lemma placed_tokens_weaken n n' ts : n ≤ n' → placed_tokens n' ts → placed_tokens n ts.
Proof. destruct ts; [done|]. simpl. intros Hn (H1 & H). split; [lia|done]. Qed.

Lemma ident_kind_not_eof s : ident_kind s ≠ Eof.
Proof.
  unfold ident_kind. destruct (list_find _ keywords) as [[i [w k]]|] eqn:E; [|done].
  apply list_find_Some in E as (Hi & _ & _). unfold keywords in Hi.
  repeat (destruct i as [|i]; [by injection Hi as <- <-|simpl in Hi]). done.
Qed.

Lemma next_token_kind : returns (λ k, k ≠ Eof) (next_token file source).
Proof.
  assert (Hif : ∀ (b : bool) (k k' : TokenKind), k ≠ Eof → k' ≠ Eof → (if b then k else k') ≠ Eof) by (by intros []).
  assert (Hfail : ∀ m, returns (λ k, k ≠ Eof) (lex_fail (A := TokenKind) file source m)) by (by intros m s s' a).
  unfold next_token. apply returns_bind. intros [b|]; [|by intros s s' a].
  destruct (is_ident_start b); [|destruct (is_digit b); [|destruct (b =? 34)%Z]].
  - apply returns_bind. intros second. destruct (_ && _).
    { apply returns_bind. intros _. apply returns_bind. intros w. destruct (forallb _ w); [by apply returns_ret|apply Hfail]. }
    destruct (_ && _); [|do 3 (apply returns_bind; intros ?); apply returns_bind; intros w; apply returns_ret, ident_kind_not_eof].
    do 4 (apply returns_bind; intros ?). apply returns_bind. intros quote. case_bool_decide; [|apply Hfail].
    apply returns_bind. intros _. by apply returns_ret.
  - do 6 (apply returns_bind; intros ?). apply returns_bind. intros after'. case_bool_decide; [apply Hfail|]. apply returns_bind. intros raw.
    destruct (from_str_radix _ _); [by apply returns_ret|]. apply returns_bind. intros text. apply Hfail.
  - apply returns_bind. intros w. by apply returns_ret.
  - unfold punctuation. repeat (match goal with |- context [(b =? ?c)%Z] => destruct (b =? c)%Z end;
      [unfold one, two_or_one, one_of_three, angle;
       repeat first [apply returns_bind; intros ?|apply returns_ret; auto; done|match goal with |- context [if ?x then _ else _] => destruct x end]|]).
    apply Hfail.
Qed.

Lemma lex_all_total fuel out n : is_boundary source n = true → len - n < fuel →
  wp (lex_all file source fuel out) (λ r _, ∃ ts, r = out ++ ts ∧ placed_tokens n ts) stops (place n).
Proof using Hutf.
  revert out n. induction fuel as [|fuel IH]; intros out n Hbd Hf; [lia|]. cbn [lex_all]. apply wp_bind.
  eapply wp_mono; [apply skip_trivia_total; [done|unfold loop_fuel; lia]| |done]. intros a s (n1 & -> & Hn1 & Hbd1).
  pose proof (is_boundary_le _ _ Hbd1). eapply wp_step; [done|]. rewrite place_pos by done. case_bool_decide as He.
  - apply wp_ret. eexists. split; [done|]. simpl. unfold span_from. simpl.
    destruct (place_spec n1) as (-> & -> & ->); [done|]. by subst.
  - apply wp_bind. eapply wp_mono; [apply returns_wp; [apply next_token_kind|apply next_token_total; [lia|done]]| |done].
    intros k s [(n2 & -> & Hn2 & Hbd2) Hk]. pose proof (is_boundary_le _ _ Hbd2). eapply wp_step; [done|].
    eapply wp_mono; [apply IH; [done|lia]| |done]. intros r s (ts & -> & Hts). rewrite <-app_assoc. eexists. split; [done|]. simpl.
    unfold span_from. simpl. rewrite (place_pos n2) by done. destruct (place_spec n1) as (-> & -> & ->); [done|]. split_and!; [done..|].
    by destruct ts.
Qed.
End Facts.
