(* ===== verification/OcoreLexerTheorems.v ===== *)
(** * Correctness of the lexer of Ocore

    The lexer is total, its positions are exact, and it inverts a printer of tokens. *)

From S2P Require Import Prelude.
From S2P Require Import Utf8.
From S2P Require Import OcoreLexer.
From S2P Require Import OcoreLexerFacts.
From stdpp Require Import options.

#[local] Open Scope nat_scope.

(** ** A printer *)

Definition escape_byte (b : Z) : str :=
  if (b =? 34)%Z then [92; 34]%Z else if (b =? 92)%Z then [92; 92]%Z else if (b =? 10)%Z then [92; 110]%Z else [b].

Definition quoted (s : str) : str := (34%Z :: (s ≫= escape_byte)) ++ [34%Z].

Definition keyword_text (k : TokenKind) : option str :=
  match list_find (λ entry, entry.2 = k) keywords with Some (_, (w, _)) => Some (lit w) | None => None end.

Definition punctuation_text (k : TokenKind) : option string :=
  match k with
  | At => Some "@" | Bang => Some "!" | Tilde => Some "~" | Plus => Some "+" | Minus => Some "-" | Star => Some "*" | Slash => Some "/"
  | Percent => Some "%" | Amp => Some "&" | Pipe => Some "|" | Caret => Some "^" | TEq => Some "=" | EqEq => Some "==" | NotEq => Some "!="
  | Less => Some "<" | LessEq => Some "<=" | Greater => Some ">" | GreaterEq => Some ">=" | AndAnd => Some "&&" | OrOr => Some "||"
  | ShiftLeft => Some "<<" | ShiftRight => Some ">>" | PlusEq => Some "+=" | MinusEq => Some "-=" | StarEq => Some "*=" | SlashEq => Some "/="
  | PercentEq => Some "%=" | AmpEq => Some "&=" | PipeEq => Some "|=" | CaretEq => Some "^=" | ShiftLeftEq => Some "<<="
  | ShiftRightEq => Some ">>=" | Arrow => Some "->" | Colon => Some ":" | ColonColon => Some "::" | Semi => Some ";" | Comma => Some ","
  | Dot => Some "." | LParen => Some "(" | RParen => Some ")" | LBrace => Some "{" | RBrace => Some "}" | LBracket => Some "["
  | RBracket => Some "]" | _ => None
  end%string.

Definition token_text (k : TokenKind) : str :=
  match k with
  | Ident s => s
  | Integer n => dec n
  | TString s => quoted s
  | ByteString s => 98%Z :: quoted s
  | Byte b => [98; 39]%Z ++ (if (b =? 92)%Z then [92; 92]%Z else [b]) ++ [39%Z]
  | _ => match keyword_text k with Some w => w | None => match punctuation_text k with Some w => lit w | None => [] end end
  end.

(** The tokens that a module can contain. *)
Definition printable (k : TokenKind) : bool :=
  match k with
  | Ident s => match s with b :: s' => is_ident_start b && forallb is_ident_continue s' | [] => false end && bool_decide (ident_kind s = Ident s)
  | Integer n => in_range 0 U64_MAX n
  | TString s => utf8_valid s
  | ByteString s => forallb (in_range 0 127) s
  | Byte b => in_range 0 127 b
  | Eof => false
  | _ => true
  end.

(** Every token is followed by a space. *)
Definition print_tokens (ks : list TokenKind) : str := ks ≫= λ k, token_text k ++ [32%Z].

(** ** Printed text is valid *)

Lemma ascii_valid s : forallb (in_range 0 127) s = true → utf8_valid s = true.
Proof. induction s as [|b s IH]; simpl; [done|]. intros [Hb Hs]%andb_true_iff. by rewrite Hb, IH. Qed.

Lemma digit_range b : is_digit b = true → in_range 0 127 b = true.
Proof. unfold is_digit. rewrite andb_true_iff, !Z.leb_le, in_range_spec. lia. Qed.

Lemma continue_range b : is_ident_continue b = true → in_range 0 127 b = true.
Proof. intros H%ident_ascii. apply in_range_spec. lia. Qed.

Lemma forallb_impl {A} (p q : A → bool) l : (∀ a, p a = true → q a = true) → forallb p l = true → forallb q l = true.
Proof. intros H. induction l as [|a l IH]; simpl; [done|]. intros [Ha Hl]%andb_true_iff. by rewrite (H a Ha), IH. Qed.

Lemma escape_other b : b ≠ 34%Z → b ≠ 92%Z → b ≠ 10%Z → escape_byte b = [b].
Proof. intros. unfold escape_byte. by repeat case_ltb. Qed.

Lemma escape_high b : (128 ≤ b)%Z → escape_byte b = [b].
Proof. intros. apply escape_other; lia. Qed.

(** Escaping works on whole characters. *)
Lemma escape_step b s r : utf8_step (b :: s) r →
  ∃ e, (b :: s) ≫= escape_byte = e ++ (r ≫= escape_byte) ∧
    ((b < 128)%Z ∧ e = escape_byte b ∧ s = r ∨ (128 ≤ b)%Z ∧ e = take (lead_len b) (b :: s)).
Proof.
  intros Hs. inversion Hs as [b0 r0 Hb|b0 b1 r0 Hb H1|b0 b1 b2 r0 Hb H1 H2|b0 b1 b2 b3 r0 Hb H1 H2 H3]; subst;
    rewrite ?is_cont_spec in *; unfold lead_len; case_ltb; try lia.
  - eexists. split; [done|]. left. split_and!; [lia|done|done].
  - exists [b; b1]. simpl. rewrite !escape_high by lia. split; [done|right]. split; [lia|done].
  - exists [b; b1; b2]. simpl. rewrite !escape_high by lia. split; [done|right]. split; [lia|done].
  - exists [b; b1; b2; b3]. simpl. rewrite !escape_high by lia. split; [done|right]. split; [lia|done].
Qed.

Lemma in_range_false lo hi b : in_range lo hi b = false ↔ ¬ (lo ≤ b ≤ hi)%Z.
Proof. rewrite <-in_range_spec. destruct (in_range lo hi b); intuition congruence. Qed.

(** The first character of a valid string is valid. *)
Lemma first_char_valid b s : utf8_valid (b :: s) = true → utf8_valid (take (lead_len b) (b :: s)) = true.
Proof.
  intros H. destruct (utf8_valid_step _ _ H) as (r & Hs & _). revert H.
  inversion Hs as [b0 r0 Hb|b0 b1 r0 Hb H1|b0 b1 b2 r0 Hb H1 H2|b0 b1 b2 b3 r0 Hb H1 H2 H3]; subst; unfold lead_len; case_ltb; try lia; simpl.
  - by rewrite (proj2 (in_range_spec 0 127 b)) by lia.
  - rewrite (proj2 (in_range_false 0 127 b)), (proj2 (in_range_spec 194 223 b)) by lia. by rewrite H1.
  - rewrite (proj2 (in_range_false 0 127 b)), (proj2 (in_range_false 194 223 b)) by lia. rewrite H2.
    case_bool_decide as E1; [rewrite !andb_true_iff; tauto|]. case_bool_decide as E2; [rewrite !andb_true_iff; tauto|].
    rewrite (proj2 (in_range_spec 225 239 b)) by lia. by rewrite H1.
  - rewrite (proj2 (in_range_false 0 127 b)), (proj2 (in_range_false 194 223 b)) by lia. rewrite (bool_decide_eq_false_2 (b = 224%Z)) by lia.
    rewrite (bool_decide_eq_false_2 (b = 237%Z)), (proj2 (in_range_false 225 239 b)) by lia. rewrite !andb_true_iff. tauto.
Qed.

Lemma escape_valid s : utf8_valid s = true → utf8_valid (s ≫= escape_byte) = true.
Proof.
  induction s as [s IH] using (induction_ltof1 _ length); unfold ltof in IH. destruct s as [|b s]; [done|]. intros Hv.
  destruct (utf8_valid_step _ _ Hv) as (r & Hs & Hr). destruct (escape_step b s r Hs) as (e & -> & He).
  assert (length r < length (b :: s)) by (inversion Hs; subst; simpl; lia). rewrite utf8_valid_app; [by apply IH|].
  destruct He as [(Hlt & -> & _)|[_ ->]]; [|by apply first_char_valid].
  apply ascii_valid. inversion Hs; subst; rewrite ?is_cont_spec in *; try lia. unfold escape_byte. case_ltb; simpl; try done.
  rewrite andb_true_r. apply in_range_spec. lia.
Qed.

Lemma keyword_ascii k w : keyword_text k = Some w → forallb is_ident_continue w = true ∧ (∃ b w', w = b :: w' ∧ is_ident_start b = true) ∧ ident_kind w = k.
Proof.
  unfold keyword_text. destruct (list_find _ keywords) as [[i [w0 k0]]|] eqn:E; [|done]. intros [= <-].
  apply list_find_Some in E as (Hi & Hk & _). simpl in Hk. subst k0. unfold keywords in Hi.
  repeat (destruct i as [|i]; [injection Hi as <- <-; split_and!; [done|by eexists _, _|done]|simpl in Hi]). done.
Qed.

Lemma text_valid k : printable k = true → utf8_valid (token_text k) = true.
Proof.
  assert (Hquoted : ∀ s, utf8_valid s = true → utf8_valid (quoted s) = true).
  { intros s Hs. unfold quoted. cbn [app utf8_valid]. rewrite utf8_valid_app; [done|by apply escape_valid]. }
  assert (Hword : ∀ k, utf8_valid (match keyword_text k with Some w => w | None => match punctuation_text k with Some w => lit w | None => [] end end) = true).
  { clear k. intros k. destruct (keyword_text k) as [w|] eqn:E; [|by destruct k].
    destruct (keyword_ascii k w E) as (Hw & _). apply ascii_valid. by eapply forallb_impl; [apply continue_range|]. }
  destruct k; try (intros _; apply Hword); simpl.
  - destruct s as [|b s]; [done|]. intros [[Hb Hs]%andb_true_iff _]%andb_true_iff. apply ascii_valid. simpl.
    rewrite (continue_range b (start_continue b Hb)). by eapply forallb_impl; [apply continue_range|].
  - intros Hn%in_range_spec. apply ascii_valid, forallb_Forall. assert (0 ≤ n < 10 ^ 20)%Z by (unfold U64_MAX in Hn; lia).
    eapply Forall_impl; [apply dec_digits; done|]. intros b. apply digit_range.
  - by apply Hquoted.
  - intros Hs. by apply Hquoted, ascii_valid.
  - intros Hb. destruct (b =? 92)%Z; [done|]. apply ascii_valid. simpl. by rewrite Hb.
Qed.

Lemma print_valid ks : Forall (λ k, printable k = true) ks → utf8_valid (print_tokens ks) = true.
Proof.
  induction 1 as [|k ks Hk _ IH]; [done|]. unfold print_tokens. simpl. rewrite <-app_assoc, utf8_valid_app by by apply text_valid. done.
Qed.

(** ** Lexing printed text *)

Lemma radix_value_dec ds acc : Forall (λ b, is_digit b = true) ds → (0 ≤ acc)%Z →
  (foldl (λ x b, x * 10 + (b - 48)) acc ds ≤ U64_MAX)%Z → radix_value 10 acc ds = Some (foldl (λ x b, x * 10 + (b - 48))%Z acc ds).
Proof.
  assert (Hmono : ∀ ds acc, Forall (λ b, is_digit b = true) ds → (0 ≤ acc)%Z → (acc ≤ foldl (λ x b, x * 10 + (b - 48)) acc ds)%Z).
  { clear. intros ds. induction ds as [|b ds IH]; intros acc Hd Ha; simpl; [lia|]. apply Forall_cons in Hd as [Hb Hd].
    unfold is_digit in Hb. rewrite andb_true_iff, !Z.leb_le in Hb. specialize (IH (acc * 10 + (b - 48))%Z Hd ltac:(lia)). lia. }
  revert acc. induction ds as [|b ds IH]; intros acc Hd Ha Hle; [done|]. apply Forall_cons in Hd as [Hb Hd]. cbn [radix_value foldl] in *.
  unfold to_digit. rewrite Hb. unfold is_digit in Hb. rewrite andb_true_iff, !Z.leb_le in Hb.
  rewrite (proj2 (Z.ltb_lt (b - 48) 10)) by lia. pose proof (Hmono ds (acc * 10 + (b - 48))%Z Hd ltac:(lia)).
  rewrite (proj2 (Z.leb_le (acc * 10 + (b - 48)) U64_MAX)) by lia. apply IH; [done|lia|done].
Qed.

Lemma from_str_radix_dec n : (0 ≤ n ≤ U64_MAX)%Z → from_str_radix 10 (dec n) = Some n.
Proof.
  intros Hn. assert (Hn' : (0 ≤ n < 10 ^ 20)%Z) by (unfold U64_MAX in Hn; lia). destruct (dec_digits n Hn') as [Hne Hd].
  unfold from_str_radix. destruct (dec n) eqn:E; [done|]. rewrite <-E in *. pose proof (dec_value_dec n Hn') as Hv. unfold dec_value in Hv.
  rewrite radix_value_dec; [by f_equal|done|lia|rewrite Hv; lia].
Qed.

Lemma digit_not_start b : is_digit b = true → is_ident_start b = false ∧ (b =? 95)%Z = false ∧ radix_of (Some b) = None.
Proof.
  unfold is_digit. rewrite andb_true_iff, !Z.leb_le. intros Hb. unfold is_ident_start, is_ascii_alphabetic, radix_of.
  rewrite (proj2 (in_range_false 65 90 b)), (proj2 (in_range_false 97 122 b)), (proj2 (Z.eqb_neq b 95)) by lia.
  split_and!; [done..|]. repeat (rewrite bool_decide_eq_false_2 by (set_unfold; lia)). done.
Qed.

Section Printed.
Context (file source : str) (Hutf : utf8_valid source = true).

Abbreviation len := (length source).
Abbreviation place := (place source).

Lemma drop_length n l : drop n source = l → n ≤ len → n + length l = len.
Proof. intros <- Hn. rewrite length_drop. lia. Qed.

Lemma drop_lookup n t j : drop n source = t → source !! (n + j) = t !! j.
Proof. intros <-. by rewrite lookup_drop. Qed.

Lemma drop_next n t r : drop n source = t ++ r → drop (n + length t) source = r.
Proof. intros E. by rewrite <-drop_drop, E, drop_app_length. Qed.

Lemma drop_le n b t : drop n source = b :: t → n < len.
Proof. intros E. by destruct (drop_head source n b t E) as (_ & ? & _). Qed.

(** A word. *)
Lemma word_at n w b w' rest : drop n source = w ++ 32%Z :: rest → w = b :: w' → is_ident_start b = true → forallb is_ident_continue w' = true →
  next_token file source (place n) = (place (n + length w), Ok (ident_kind w)).
Proof using Hutf.
  intros E -> Hb Hw. assert (Hn : n < len) by (by eapply drop_le). destruct (drop_head source n b (w' ++ 32%Z :: rest) E) as (Hn0 & _ & Er).
  assert (Hspan : span_len is_ident_continue (drop (S n) source) = length w').
  { rewrite Er. apply span_len_app; [by apply forallb_Forall|]. by intros c [= <-]. }
  assert (Hsecond : ∀ c, source !! S n = Some c → c ≠ 34%Z ∧ c ≠ 39%Z).
  { intros c Hc. assert (Hc' : (w' ++ 32%Z :: rest) !! 0 = Some c) by (rewrite <-(drop_lookup (S n) _ 0 Er), Nat.add_0_r; done).
    destruct w' as [|c' w']; simpl in Hc'; injection Hc' as <-; [lia|]. simpl in Hw. apply andb_true_iff in Hw as [Hc0 _].
    split; intros ->; done. }
  unfold next_token. rewrite (bind_Ok _ _ _ _ _ (peek_at source n ltac:(lia))), Hn0, Hb.
  rewrite (bind_Ok _ _ _ _ _ (peek_n_at source n 1 ltac:(lia))), Nat.add_1_r.
  assert (∀ q, q = 34%Z ∨ q = 39%Z → bool_decide (source !! S n = Some q) = false) as Hq.
  { intros q Hq. apply bool_decide_eq_false. intros Hc%Hsecond. lia. }
  rewrite !Hq, !andb_false_r by auto. destruct (lex_ident_at source Hutf n b Hn0 Hb) as [-> _]. rewrite Hspan.
  replace (S n + length w') with (n + length (b :: w')) by (simpl; lia). do 3 f_equal. rewrite E.
  replace (n + length (b :: w') - n) with (length (b :: w')) by lia. by rewrite take_app_length.
Qed.

Lemma integer_at n v rest : (0 ≤ v ≤ U64_MAX)%Z → drop n source = dec v ++ 32%Z :: rest →
  next_token file source (place n) = (place (n + length (dec v)), Ok (Integer v)).
Proof using Hutf.
  intros Hv E. assert (Hv' : (0 ≤ v < 10 ^ 20)%Z) by (unfold U64_MAX in Hv; lia). destruct (dec_digits v Hv') as [Hne Hd].
  destruct (dec v) as [|b ds] eqn:Edec; [done|]. pose proof (Forall_inv Hd) as Hb. cbn beta in Hb.
  destruct (digit_not_start b Hb) as (Hb1 & Hb2 & Hb3). destruct (drop_head source n b (ds ++ 32%Z :: rest) E) as (Hn0 & Hlt & Er).
  unfold next_token. rewrite (bind_Ok _ _ _ _ _ (peek_at source n ltac:(lia))), Hn0, Hb1, Hb. unfold lex_integer.
  rewrite (bind_Ok _ _ _ (place n) (place n)) by done. rewrite (bind_Ok _ _ _ _ _ (peek_at source n ltac:(lia))), Hn0.
  rewrite (bind_Ok _ _ _ _ _ (peek_n_at source n 1 ltac:(lia))), Nat.add_1_r.
  assert (Hr : (if bool_decide (Some b = Some 48%Z) then radix_of (source !! S n) else None) = None).
  { case_bool_decide; [|done]. rewrite <-(Nat.add_0_r (S n)), (drop_lookup (S n) _ 0 Er). destruct ds as [|c ds]; [done|]. simpl.
    apply Forall_inv_tail, Forall_inv in Hd. by apply digit_not_start. }
  rewrite Hr. rewrite (bind_Ok _ _ (place n) (place n) 10%Z) by done. rewrite (bind_Ok _ _ _ (place n) (place n)) by done.
  set (p := λ b, _ || _).
  assert (Hspan : span_len p (drop n source) = length (b :: ds)).
  { rewrite E. apply span_len_app; [|by intros c [= <-]]. eapply Forall_impl; [exact Hd|]. intros c Hc. unfold p, to_digit. rewrite Hc.
    unfold is_digit in Hc. rewrite andb_true_iff, !Z.leb_le in Hc. rewrite (proj2 (Z.ltb_lt (c - 48) 10)) by lia. by rewrite orb_true_r. }
  assert (Hend : n + length (b :: ds) ≤ len).
  { pose proof (drop_length n _ E ltac:(lia)) as Hl. rewrite length_app in Hl. simpl in *. lia. }
  rewrite (bind_Ok _ _ _ _ _ (bump_while_at source p (loop_fuel source) n ltac:(lia) ltac:(unfold loop_fuel; lia))), Hspan.
  rewrite (bind_Ok _ _ _ _ _ (eq_refl : get (place (n + length (b :: ds))) = _)). rewrite !place_pos by lia.
  rewrite bool_decide_eq_false_2 by (simpl; lia).
  assert (Hbd : is_boundary source n = true) by (eapply (ascii_boundary source Hutf); [done|]; apply digit_range, in_range_spec in Hb; lia).
  assert (Hbd' : is_boundary source (n + length (b :: ds)) = true).
  { rewrite <-Hspan. apply (ascii_span source Hutf); [done|]. intros c. unfold p. rewrite orb_true_iff, bool_decide_eq_true, Z.eqb_eq.
    intros [-> |?]; [lia|by eapply to_digit_ascii]. }
  rewrite (bind_Ok _ _ _ _ _ (slice_at source n (n + length (b :: ds)) Hbd Hbd' ltac:(lia))).
  replace (n + length (b :: ds) - n) with (length (b :: ds)) by lia. rewrite E, take_app_length.
  assert (filter (λ b, b ≠ 95%Z) (b :: ds) = b :: ds) as ->.
  { clear -Hd. induction Hd as [|c l Hc _ IH]; [done|]. rewrite filter_cons_True; [by rewrite IH|]. intros ->. done. }
  rewrite <-Edec, from_str_radix_dec by done. done.
Qed.

(** A string. *)
Lemma escape_at n c v : source !! n = Some c → (c, v) ∈ [(34, 34); (92, 92); (110, 10)]%Z →
  escape_char file source (place n) = (place (S n), Ok v).
Proof.
  intros Hc Hin. pose proof (lookup_lt_Some _ _ _ Hc). unfold escape_char. rewrite (bind_Ok _ _ _ _ _ (peek_at source n ltac:(lia))), Hc.
  rewrite (bind_Ok _ _ _ _ _ (bump_at source n c Hc)). repeat (apply elem_of_cons in Hin as [[= -> ->]|Hin]; [done|]). by apply not_elem_of_nil in Hin.
Qed.

Lemma string_loop_at s fuel out n rest : utf8_valid s = true → drop n source = (s ≫= escape_byte) ++ 34%Z :: rest → length s < fuel →
  string_loop file source fuel out (place n) = (place (n + length (s ≫= escape_byte) + 1), Ok (out ++ s)).
Proof using Hutf.
  revert fuel out n. induction s as [s IH] using (induction_ltof1 _ length); unfold ltof in IH. intros [|fuel] out n Hv E Hf; [lia|].
  cbn [string_loop]. destruct s as [|b s].
  { simpl in E. destruct (drop_head source n _ _ E) as (Hn0 & Hlt & _). rewrite (bind_Ok _ _ _ _ _ (peek_at source n ltac:(lia))), Hn0. simpl.
    rewrite (bind_Ok _ _ _ _ _ (bump_at source n _ Hn0)), app_nil_r. by rewrite Nat.add_0_r, Nat.add_1_r. }
  destruct (utf8_valid_step _ _ Hv) as (r & Hs & Hr). destruct (escape_step b s r Hs) as (e & Ee & He).
  assert (Hlen : length r < length (b :: s)) by (inversion Hs; subst; simpl; lia). rewrite Ee in *. rewrite <-app_assoc in E.
  assert (Hrec : ∀ out', out' ++ r = out ++ b :: s →
    string_loop file source fuel out' (place (n + length e)) = (place (n + length (e ++ (r ≫= escape_byte)) + 1), Ok (out ++ b :: s))).
  { intros out' Eo. rewrite (IH r Hlen fuel out' (n + length e)); [|done|by apply drop_next|lia]. rewrite Eo, length_app. do 2 f_equal. lia. }
  assert (Hb : (0 ≤ b < 256)%Z) by (apply utf8_valid_bytes, Forall_inv in Hv; exact Hv).
  destruct He as [(Hlt & -> & ->)|(Hge & ->)].
  - assert (Hesc : ∀ c, (c, b) ∈ [(34, 34); (92, 92); (110, 10)]%Z → escape_byte b = [92%Z; c] →
      (let* c := escape_char file source in string_loop file source fuel (out ++ [c])) (place (S n)) =
        (place (n + length (escape_byte b ++ (r ≫= escape_byte)) + 1), Ok (out ++ b :: r))).
    { intros c Hin Ec. rewrite Ec in *. simpl in E. destruct (drop_head source n _ _ E) as (Hn0 & ? & E1).
      destruct (drop_head source (S n) _ _ E1) as (Hn1 & ? & _). rewrite (bind_Ok _ _ _ _ _ (escape_at (S n) c b Hn1 Hin)).
      replace (S (S n)) with (n + length [92%Z; c]) by (simpl; lia). apply Hrec. by rewrite <-app_assoc. }
    assert (Hfirst : ∀ c t, escape_byte b = c :: t → source !! n = Some c ∧ n < len).
    { intros c t Ec. rewrite Ec in E. by destruct (drop_head source n _ _ E) as (? & ? & _). }
    unfold escape_byte in Hesc, Hfirst. destruct (Z.eqb_spec b 34) as [-> |N1]; [|destruct (Z.eqb_spec b 92) as [-> |N2]; [|destruct (Z.eqb_spec b 10) as [-> |N3]]].
    1-3: destruct (Hfirst _ _ eq_refl) as [Hn0 ?]; rewrite (bind_Ok _ _ _ _ _ (peek_at source n ltac:(lia))), Hn0; simpl;
      rewrite (bind_Ok _ _ _ _ _ (bump_at source n _ Hn0)); (eapply Hesc; [|done]; set_solver).
    destruct (Hfirst _ _ eq_refl) as [Hn0 ?]. rewrite (bind_Ok _ _ _ _ _ (peek_at source n ltac:(lia))), Hn0.
    rewrite (proj2 (Z.eqb_neq b 34)), (proj2 (Z.eqb_neq b 92)), (proj2 (Z.eqb_neq b 10)), (proj2 (Z.ltb_lt b 128)) by done.
    rewrite (bind_Ok _ _ _ _ _ (bump_at source n _ Hn0)). rewrite (escape_other b) in * by done. simpl in Hrec. rewrite Nat.add_1_r in Hrec.
    apply Hrec. by rewrite <-app_assoc.
  - destruct (utf8_step_lead _ _ _ Hs) as (Esplit & Hll & Hcont & _).
    assert (Hl : length (take (lead_len b) (b :: s)) = lead_len b) by (rewrite length_take; lia).
    assert (Hn0 : source !! n = Some b).
    { rewrite <-(Nat.add_0_r n), (drop_lookup n _ 0 E), lookup_app_l by lia. by rewrite lookup_take_lt by lia. }
    pose proof (lookup_lt_Some _ _ _ Hn0). assert (Hbd : is_boundary source n = true) by (unfold is_boundary; by rewrite Hn0, Hcont).
    rewrite (bind_Ok _ _ _ _ _ (peek_at source n ltac:(lia))), Hn0.
    rewrite (proj2 (Z.eqb_neq b 34)), (proj2 (Z.eqb_neq b 92)), (proj2 (Z.eqb_neq b 10)), (proj2 (Z.ltb_ge b 128)) by lia.
    destruct (char_here_at source Hutf n b Hbd Hn0) as (Ech & _ & Hbd2 & _). pose proof (is_boundary_le _ _ Hbd2).
    assert (Et : take (lead_len b) (drop n source) = take (lead_len b) (b :: s)) by (rewrite E; by apply take_app_length').
    rewrite Et in Ech. rewrite (bind_Ok _ _ _ _ _ Ech), Hl, (bind_Ok _ _ _ _ _ (bump_n_at source (lead_len b) n ltac:(lia))).
    rewrite Hl in Hrec. apply Hrec. rewrite <-app_assoc. by rewrite <-Esplit.
Qed.

Lemma quoted_length s : length (quoted s) = length (s ≫= escape_byte) + 2.
Proof. unfold quoted. rewrite length_app. simpl. lia. Qed.

Lemma string_at s n rest : utf8_valid s = true → drop n source = quoted s ++ rest →
  lex_string file source (place n) = (place (n + length (quoted s)), Ok s).
Proof using Hutf.
  intros Hv E. unfold quoted in E. rewrite <-app_assoc in E. simpl in E. destruct (drop_head source n _ _ E) as (Hn0 & Hlt & E1).
  unfold lex_string. rewrite (bind_Ok _ _ _ _ _ (bump_at source n _ Hn0)).
  assert (Hle : length s ≤ length (s ≫= escape_byte)).
  { clear. induction s as [|b s IH]; [done|]. rewrite bind_cons, length_app. simpl.
    assert (1 ≤ length (escape_byte b)) by (unfold escape_byte; case_ltb; simpl; lia). lia. }
  rewrite (string_loop_at s (loop_fuel source) [] (S n) rest); [|done|done|].
  - rewrite quoted_length. do 2 f_equal. lia.
  - pose proof (drop_length (S n) _ E1 ltac:(lia)) as Hl. rewrite length_app in Hl. unfold loop_fuel. lia.
Qed.

Lemma byte_string_at s n rest : forallb (in_range 0 127) s = true → drop n source = quoted s ++ rest →
  lex_byte_string file source (place n) = (place (n + length (quoted s)), Ok (ByteString s)).
Proof using Hutf.
  intros Hs E. unfold lex_byte_string. rewrite (bind_Ok _ _ _ _ _ (string_at s n rest (ascii_valid s Hs) E)).
  rewrite (forallb_impl (in_range 0 127) (λ b, (b <? 128)%Z) s); [done| |done]. intros b Hb%in_range_spec. apply Z.ltb_lt. lia.
Qed.

Lemma byte_at b n rest : in_range 0 127 b = true → drop n source = (39%Z :: (if (b =? 92)%Z then [92; 92]%Z else [b])) ++ 39%Z :: rest →
  lex_byte file source (place n) = (place (n + length (if (b =? 92)%Z then [92; 92]%Z else [b]) + 2), Ok (Byte b)).
Proof using Hutf.
  intros Hb%in_range_spec E. simpl in E. destruct (drop_head source n _ _ E) as (Hn0 & Hlt & E1). unfold lex_byte.
  rewrite (bind_Ok _ _ _ _ _ (bump_at source n _ Hn0)). destruct (Z.eqb_spec b 92) as [-> |Hne]; simpl in *.
  - destruct (drop_head source _ _ _ E1) as (H1 & ? & E2). destruct (drop_head source _ _ _ E2) as (H2 & ? & E3).
    destruct (drop_head source _ _ _ E3) as (H3 & ? & _).
    rewrite (bind_Ok _ _ _ _ _ (peek_at source (S n) ltac:(lia))), H1. simpl.
    rewrite (bind_Ok _ _ (place (S n)) (place (S (S (S n)))) 92%Z).
    2:{ rewrite (bind_Ok _ _ _ _ _ (bump_at source (S n) _ H1)). apply (escape_at _ 92%Z); [done|set_solver]. }
    rewrite (bind_Ok _ _ _ _ _ (peek_at source (S (S (S n))) ltac:(lia))), H3. rewrite bool_decide_eq_true_2 by done.
    rewrite (bind_Ok _ _ _ _ _ (bump_at source _ _ H3)). unfold ret. do 2 f_equal. lia.
  - destruct (drop_head source _ _ _ E1) as (H1 & ? & E2). destruct (drop_head source _ _ _ E2) as (H2 & ? & _).
    rewrite (bind_Ok _ _ _ _ _ (peek_at source (S n) ltac:(lia))), H1. rewrite (proj2 (Z.eqb_neq b 92)), (proj2 (Z.ltb_lt b 128)) by lia.
    rewrite (bind_Ok _ _ (place (S n)) (place (S (S n))) b) by (by rewrite (bind_Ok _ _ _ _ _ (bump_at source (S n) _ H1))).
    rewrite (bind_Ok _ _ _ _ _ (peek_at source (S (S n)) ltac:(lia))), H2. rewrite bool_decide_eq_true_2 by done.
    rewrite (bind_Ok _ _ _ _ _ (bump_at source _ _ H2)). unfold ret. do 2 f_equal. lia.
Qed.

(** Punctuation: a space never continues it. *)
Lemma punctuation_at k w n rest : punctuation_text k = Some w → drop n source = lit w ++ 32%Z :: rest →
  next_token file source (place n) = (place (n + length (lit w)), Ok k).
Proof.
  clear Hutf. intros Hw E.
  assert (Hat : ∀ j b, (lit w ++ 32%Z :: rest) !! j = Some b → source !! (n + j) = Some b ∧ n + j < len).
  { intros j b Hj. rewrite <-(drop_lookup n _ j E) in Hj. split; [done|]. by eapply lookup_lt_Some. }
  assert (Hbump : ∀ m b, source !! m = Some b → bump source (place m) = (place (S m), Ok tt)) by (intros; by eapply bump_at).
  assert (Heat : ∀ m b c, source !! m = Some b → m < len →
    eat_byte source c (place m) = (place (if (b =? c)%Z then S m else m), Ok (b =? c)%Z)).
  { intros m b c Hm Hlt. rewrite eat_byte_at by lia. rewrite Hm.
    assert (bool_decide (Some b = Some c) = (b =? c)%Z) as ->; [|done]. case_bool_decide; destruct (Z.eqb_spec b c); congruence. }
  destruct k; try discriminate Hw; injection Hw as <-;
    match goal with |- context [lit ?w] => let t := eval vm_compute in (lit w) in change (lit w) with t in * end;
    pose proof (Hat 0) as H0; pose proof (Hat 1) as H1; pose proof (Hat 2) as H2; pose proof (Hat 3) as H3; clear Hat E; simpl in *;
    rewrite ?Nat.add_0_r, ?Nat.add_1_r in *; destruct (H0 _ eq_refl) as [B0 L0]; try destruct (H1 _ eq_refl) as [B1 L1];
    try (destruct (H2 _ eq_refl) as [B2 L2]; replace (n + 2) with (S (S n)) in * by lia);
    try (destruct (H3 _ eq_refl) as [B3 L3]; replace (n + 3) with (S (S (S n))) in * by lia); clear H0 H1 H2 H3;
    unfold next_token; rewrite (bind_Ok _ _ _ _ _ (peek_at source n ltac:(lia))), B0; cbn -[bump eat_byte OcoreLexerFacts.place];
    unfold one, two_or_one, one_of_three, angle, bind, ret; rewrite (Hbump _ _ B0);
    repeat (erewrite Heat by eassumption; cbn -[bump eat_byte OcoreLexerFacts.place]); done.
Qed.

(** A byte in front of a string or of a byte. *)
Lemma prefixed_at n c t (m : M LState (Diagnostic LexMessage) TokenKind) : drop n source = 98%Z :: c :: t →
  c = 34%Z ∧ m = lex_byte_string file source ∨ c = 39%Z ∧ m = lex_byte file source →
  next_token file source (place n) = m (place (S n)).
Proof.
  intros E Hm. destruct (drop_head source n _ _ E) as (H0 & ? & E1). destruct (drop_head source (S n) _ _ E1) as (H1 & ? & _).
  unfold next_token. rewrite (bind_Ok _ _ _ _ _ (peek_at source n ltac:(lia))), H0. cbn beta iota. change (is_ident_start 98) with true. cbn iota.
  rewrite (bind_Ok _ _ _ _ _ (peek_n_at source n 1 ltac:(lia))), Nat.add_1_r, H1.
  change (98 =? 98)%Z with true. cbn [andb].
  destruct Hm as [[-> ->]|[-> ->]]; [rewrite bool_decide_eq_true_2 by done|rewrite bool_decide_eq_false_2, bool_decide_eq_true_2 by done];
    by rewrite (bind_Ok _ _ _ _ _ (bump_at source n _ H0)).
Qed.

(** Every printed token is read back. *)
Lemma token_at k n rest : printable k = true → drop n source = token_text k ++ 32%Z :: rest →
  next_token file source (place n) = (place (n + length (token_text k)), Ok k).
Proof using Hutf.
  intros Hp E. assert (Hother : ∀ k, (∃ w, keyword_text k = Some w) ∨ (∃ w, keyword_text k = None ∧ punctuation_text k = Some w) →
    token_text k = match keyword_text k with Some w => w | None => match punctuation_text k with Some w => lit w | None => [] end end →
    drop n source = token_text k ++ 32%Z :: rest → next_token file source (place n) = (place (n + length (token_text k)), Ok k)).
  { clear k Hp E. intros k Hk Ht E. rewrite Ht in *. destruct Hk as [[w Hw]|(w & Hw & Hpt)].
    - rewrite Hw in *. destruct (keyword_ascii k w Hw) as (Hc & (b & w' & -> & Hb) & Hk). simpl in Hc. apply andb_true_iff in Hc as [_ Hc].
      rewrite (word_at n (b :: w') b w' rest E eq_refl Hb Hc). by rewrite Hk.
    - rewrite Hw, Hpt in *. by apply (punctuation_at k w n rest). }
  destruct k; try discriminate Hp; try (apply Hother; [first [left; by eexists|right; by eexists]|done|done]); clear Hother; simpl in Hp, E.
  - destruct s as [|b s]; [done|]. apply andb_true_iff in Hp as [[Hb Hs]%andb_true_iff Hk%bool_decide_eq_true].
    rewrite (word_at n (b :: s) b s rest E eq_refl Hb Hs). by rewrite Hk.
  - apply in_range_spec in Hp. by apply (integer_at n n0 rest).
  - unfold quoted in E. simpl in E. destruct (drop_head source n _ _ E) as (H0 & ? & _). unfold next_token.
    rewrite (bind_Ok _ _ _ _ _ (peek_at source n ltac:(lia))), H0. cbn -[lex_string OcoreLexerFacts.place quoted].
    by rewrite (bind_Ok _ _ _ _ _ (string_at s n (32%Z :: rest) Hp E)).
  - change (98%Z :: quoted s ++ 32%Z :: rest) with (98%Z :: 34%Z :: ((s ≫= escape_byte) ++ [34%Z]) ++ 32%Z :: rest) in E.
    rewrite (prefixed_at n _ _ _ E (or_introl (conj eq_refl eq_refl))). destruct (drop_head source n _ _ E) as (_ & _ & E1).
    rewrite (byte_string_at s (S n) (32%Z :: rest) Hp E1). simpl. do 2 f_equal. lia.
  - destruct (drop_head source n _ _ E) as (_ & _ & E1). rewrite (prefixed_at n _ _ _ E (or_intror (conj eq_refl eq_refl))).
    rewrite <-app_assoc in E1. rewrite (byte_at b (S n) (32%Z :: rest) Hp E1). simpl. rewrite length_app. simpl. do 2 f_equal. lia.
Qed.

(** ** Trivia *)

(** Text that does not start with a space or with a comment. *)
Definition calm (t : str) : Prop :=
  match t with
  | [] => True
  | b :: t => is_ascii_whitespace b = false ∧ (b = 47%Z → t !! 0 ≠ Some 47%Z ∧ t !! 0 ≠ Some 42%Z)
  end.

Lemma skip_at n ws t : drop n source = ws ++ t → n ≤ len → Forall (λ b, is_ascii_whitespace b = true) ws → calm t →
  skip_trivia file source (loop_fuel source) (place n) = (place (n + length ws), Ok tt).
Proof.
  intros E Hn Hws Hcalm. unfold loop_fuel at 1. cbn [skip_trivia].
  rewrite (bind_Ok _ _ _ _ _ (bump_while_at source is_ascii_whitespace (loop_fuel source) n Hn ltac:(unfold loop_fuel; lia))).
  assert (Hspan : span_len is_ascii_whitespace (drop n source) = length ws).
  { rewrite E. apply span_len_app; [done|]. intros b Hb. destruct t; [done|]. injection Hb as ->. apply Hcalm. }
  rewrite Hspan. pose proof (drop_length n _ E Hn) as Hl. rewrite length_app in Hl.
  rewrite (bind_Ok _ _ _ _ _ (peek_at source (n + length ws) ltac:(lia))), (bind_Ok _ _ _ _ _ (peek_n_at source (n + length ws) 1 ltac:(lia))).
  apply drop_next in E. pose proof (drop_lookup _ _ 0 E) as H0. rewrite Nat.add_0_r in H0. rewrite H0, (drop_lookup _ _ 1 E).
  destruct t as [|b t]; [by rewrite bool_decide_eq_false_2|]. simpl. destruct Hcalm as [_ Hcalm].
  destruct (decide (b = 47%Z)) as [-> |Hne].
  - destruct (Hcalm eq_refl). rewrite (bool_decide_eq_true_2 (Some 47%Z = Some 47%Z)) by done. simpl. by rewrite !bool_decide_eq_false_2.
  - rewrite (bool_decide_eq_false_2 (Some b = Some 47%Z)) by congruence. done.
Qed.

Lemma calm_text k t : printable k = true → calm (token_text k ++ 32%Z :: t).
Proof.
  clear. intros Hp.
  assert (Hcont : ∀ b s, is_ident_continue b = true → calm (b :: s)).
  { intros b s Hb. split; [|by intros ->]. apply not_true_iff_false. unfold is_ascii_whitespace. rewrite bool_decide_eq_true. intros Hin.
    repeat (apply elem_of_cons in Hin as [-> |Hin]; [done|]). by apply not_elem_of_nil in Hin. }
  destruct (keyword_text k) as [w|] eqn:Hk.
  { destruct (keyword_ascii k w Hk) as (_ & (b & w' & -> & Hb) & Hk'). assert (token_text k = b :: w') as ->.
    - destruct k; try discriminate Hk; cbn [token_text]; by rewrite Hk.
    - apply Hcont. by apply start_continue. }
  destruct k; try discriminate Hk; try discriminate Hp; try (vm_compute; by split); simpl in Hp.
  - destruct s as [|b s]; [done|]. apply andb_true_iff in Hp as [[Hb _]%andb_true_iff _]. apply Hcont. by apply start_continue.
  - apply in_range_spec in Hp. destruct (dec_digits n) as [Hne Hd]; [unfold U64_MAX in Hp; lia|]. simpl. destruct (dec n) as [|b ds]; [done|].
    apply Hcont. apply Forall_inv in Hd. unfold is_ident_continue. rewrite Hd. apply orb_true_r.
Qed.

(** ** Whole texts *)

Lemma lex_all_at ks fuel out n ws : Forall (λ k, printable k = true) ks → n ≤ len → drop n source = ws ++ print_tokens ks →
  Forall (λ b, is_ascii_whitespace b = true) ws → length ks < fuel →
  ∃ s ts, lex_all file source fuel out (place n) = (s, Ok (out ++ ts)) ∧ kind <$> ts = ks ++ [Eof].
Proof using Hutf.
  intros Hks. revert fuel out n ws. induction Hks as [|k ks Hk Hks IH]; intros [|fuel] out n ws Hn E Hws Hf; [simpl in Hf; lia..| |simpl in Hf; lia|].
  - cbn [lex_all]. rewrite (bind_Ok _ _ _ _ _ (skip_at n ws [] E Hn Hws I)), (bind_Ok _ _ _ _ _ (eq_refl : get (place (n + length ws)) = _)).
    pose proof (drop_length n _ E Hn) as Hl. rewrite length_app in Hl. simpl in Hl. rewrite place_pos by lia. rewrite bool_decide_eq_true_2 by lia.
    by eexists _, [_].
  - cbn [lex_all]. unfold print_tokens in E. simpl in E. rewrite <-(app_assoc (token_text k)) in E. simpl in E. fold (print_tokens ks) in E.
    rewrite (bind_Ok _ _ _ _ _ (skip_at n ws _ E Hn Hws (calm_text k _ Hk))).
    rewrite (bind_Ok _ _ _ _ _ (eq_refl : get (place (n + length ws)) = _)). pose proof (drop_length n _ E Hn) as Hl.
    rewrite !length_app in Hl. simpl in Hl. rewrite place_pos by lia. rewrite bool_decide_eq_false_2 by lia. apply drop_next in E.
    rewrite (bind_Ok _ _ _ _ _ (token_at k _ _ Hk E)), (bind_Ok _ _ _ _ _ (eq_refl : get (place (n + length ws + length (token_text k))) = _)).
    apply drop_next in E. simpl in Hf.
    destruct (IH fuel (out ++ [{| kind := k; span := span_from (place (n + length ws)) (place (n + length ws + length (token_text k))) |}])
      (n + length ws + length (token_text k)) [32%Z]) as (s & ts & -> & Hts); [lia|done|by constructor|lia|].
    eexists s, (_ :: ts). rewrite <-app_assoc. split; [done|]. rewrite fmap_cons, Hts. done.
Qed.
End Printed.

(** The lexer is total and its positions are exact.  For every valid UTF-8 source it
    returns without a panic.  The tokens are in the order of the source and do not
    overlap, each has at least one byte, the last one and only this is [Eof], at the end
    of the source; line and column of every token are those of its first byte.  A
    diagnostic shows the file and the line and column of a byte of the source or of its
    end. *)
Lemma lex_placed (file source : str) : utf8_valid source = true →
  match lex file source with
  | Ok tokens => placed_tokens source 0 tokens
  | Err d => placed_error file source d
  | Panic | NoFuel => False
  end.
Proof.
  intros Hutf. pose proof (lex_all_total file source Hutf (loop_fuel source) [] 0 (is_boundary_0 _ Hutf) ltac:(unfold loop_fuel; lia)) as H.
  unfold wp in H. change (place source 0) with initial_state in H. unfold lex.
  destruct (lex_all file source (loop_fuel source) [] initial_state) as [s [r|e| |]]; [|exact H..].
  destruct H as (ts & -> & Hts). exact Hts.
Qed.

(** The lexer reads printed tokens back.  Whatever tokens a module consists of
    (identifiers that are not keywords, integers of 64 bits, strings of any valid text,
    byte strings and bytes of ASCII, keywords and punctuation), lexing their text gives
    exactly these tokens, followed by [Eof]: no text is read as another token, strings are
    unescaped to what was escaped, numbers have their value. *)
Lemma lex_print (file : str) (ks : list TokenKind) : Forall (λ k, printable k = true) ks →
  ∃ tokens, lex file (print_tokens ks) = Ok tokens ∧ kind <$> tokens = ks ++ [Eof].
Proof.
  intros Hks. pose proof (print_valid ks Hks) as Hutf. unfold lex.
  assert (Hlen : length ks ≤ length (print_tokens ks)).
  { clear. induction ks as [|k ks IH]; [done|]. unfold print_tokens in *. rewrite bind_cons, !length_app. simpl. lia. }
  destruct (lex_all_at file (print_tokens ks) Hutf ks (loop_fuel (print_tokens ks)) [] 0 [] Hks) as (s & ts & E & Hts);
    [lia|done|constructor|unfold loop_fuel; lia|].
  exists ts. split; [|done]. change (place (print_tokens ks) 0) with initial_state in E. by rewrite E.
Qed.

Example lex_print_example :
  let ks := [KFn; Ident (lit "main"); LParen; RParen; TString (lit "a" ++ [10; 34; 195; 169]%Z); ShiftLeftEq; Integer U64_MAX; Byte 92] in
  match lex (lit "m.oc") (print_tokens ks) with Ok tokens => kind <$> tokens = ks ++ [Eof] | _ => False end.
Proof. vm_compute. reflexivity. Qed.
