(* ===== verification/OcoreAst.v ===== *)
(** * The syntax trees of Ocore

    [crates/ostadix-api/src/ocore/ast.rs].  Every node of a tree has the span of the
    source that it comes from. *)

From S2P Require Import Prelude.
From S2P Require Import OcoreLexer.
From stdpp Require Import options.

#[local] Open Scope nat_scope.

Definition Path : Type := list str.

Inductive Abi : Type := AbiOCore | AbiC | AbiSysV64 | AbiInterrupt.

#[export] Instance Abi_eq_dec : EqDecision Abi.
Proof. solve_decision. Defined.

(** ** Types *)

Inductive TypeExpr : Type :=
| MkType (k : TypeExprKind) (sp : Span)
with TypeExprKind : Type :=
| TNamed (path : Path)
| TPointer (mutable : bool) (pointee : TypeExpr)
| TArray (element : TypeExpr) (len : Z)
| TFnPointer (abi : Abi) (params : list TypeExpr) (result : TypeExpr).

Definition type_span (t : TypeExpr) : Span := let '(MkType _ sp) := t in sp.

(** ** Expressions *)

Inductive UnaryOp : Type := UNeg | UNot | UBitNot | UDeref | UAddressOf (mutable : bool).

Inductive BinaryOp : Type :=
| BAdd | BSub | BMul | BDiv | BRem | BBitAnd | BBitOr | BBitXor | BShiftLeft | BShiftRight
| BEq | BNotEq | BLess | BLessEq | BGreater | BGreaterEq | BLogicalAnd | BLogicalOr.

Inductive Expr : Type :=
| MkExpr (k : ExprKind) (sp : Span)
with ExprKind : Type :=
| EInteger (n : Z)
| EBool (b : bool)
| EByte (b : Z)
| EString (s : str)
| EByteString (s : str)
| EPath (path : Path)
| EArray (values : list Expr)
| EArrayRepeat (value : Expr) (len : Z)
| EStruct (path : Path) (fields : list (str * Expr))
| EUnary (op : UnaryOp) (operand : Expr)
| EBinary (op : BinaryOp) (lhs rhs : Expr)
| EAssign (op : option BinaryOp) (target value : Expr)
| ECall (callee : Expr) (args : list Expr)
| EField (base : Expr) (name : str)
| EIndex (base index : Expr)
| ECast (value : Expr) (ty : TypeExpr)
| EAsm (template : str) (operands : list AsmOperand) (options : list str)
with AsmOperand : Type :=
| AsmIn (register : str) (value : Expr)
| AsmOut (register : str) (target : Expr)
| AsmInOut (register : str) (input output : Expr).

Definition expr_span (e : Expr) : Span := let '(MkExpr _ sp) := e in sp.

(** ** Statements *)

Inductive Block : Type :=
| MkBlock (stmts : list Stmt) (sp : Span)
with Stmt : Type :=
| MkStmt (k : StmtKind) (sp : Span)
with StmtKind : Type :=
| SLet (mutable : bool) (name : str) (ty : option TypeExpr) (init : Expr)
| SExpr (e : Expr)
| SIf (condition : Expr) (then_block : Block) (else_block : option Block)
| SWhile (condition : Expr) (body : Block)
| SLoop (body : Block)
| SUnsafe (body : Block)
| SReturn (value : option Expr)
| SBreak
| SContinue.

Definition block_span (b : Block) : Span := let '(MkBlock _ sp) := b in sp.
Definition stmt_span (s : Stmt) : Span := let '(MkStmt _ sp) := s in sp.

(** ** Items *)

Record Param : Type := { p_name : str; p_ty : TypeExpr; p_span : Span }.

Record Function : Type := {
  f_name : str;
  f_unsafe : bool;
  f_abi : Abi;
  f_params : list Param;
  f_return_type : TypeExpr;
  f_body : option Block
}.

Record FieldDef : Type := { fd_name : str; fd_ty : TypeExpr; fd_span : Span }.
Record StructDef : Type := { sd_name : str; sd_fields : list FieldDef }.

Record VariantDef : Type := { v_name : str; v_payload : list TypeExpr; v_span : Span }.
Record EnumDef : Type := { ed_name : str; ed_variants : list VariantDef }.

Record StaticDef : Type := { st_name : str; st_mutable : bool; st_ty : TypeExpr; st_init : Expr }.
Record ConstDef : Type := { cd_name : str; cd_ty : TypeExpr; cd_init : Expr }.

Inductive AttrArg : Type :=
| ArgString (s : str)
| ArgInteger (n : Z)
| ArgIdent (s : str).

Record Attribute : Type := { at_name : str; at_args : list AttrArg; at_span : Span }.

Inductive ItemKind : Type :=
| IFunction (f : Function)
| IStruct (s : StructDef)
| IEnum (e : EnumDef)
| IStatic (s : StaticDef)
| IConst (c : ConstDef).

Record Item : Type := { i_attrs : list Attribute; i_public : bool; i_kind : ItemKind; i_span : Span }.

Record UseDecl : Type := { u_path : Path; u_alias : option str; u_span : Span }.

Record SourceModule : Type := { m_name : Path; m_uses : list UseDecl; m_items : list Item; m_span : Span }.

(** ** Induction over nested trees *)

Section TypeInduction.
Context (P : TypeExpr → Prop).
Context (HNamed : ∀ path sp, P (MkType (TNamed path) sp)).
Context (HPointer : ∀ m t sp, P t → P (MkType (TPointer m t) sp)).
Context (HArray : ∀ t n sp, P t → P (MkType (TArray t n) sp)).
Context (HFn : ∀ abi params result sp, Forall P params → P result → P (MkType (TFnPointer abi params result) sp)).

Fixpoint type_ind_nested (t : TypeExpr) : P t :=
  let '(MkType k sp) := t in
  match k with
  | TNamed path => HNamed path sp
  | TPointer m t => HPointer m t sp (type_ind_nested t)
  | TArray t n => HArray t n sp (type_ind_nested t)
  | TFnPointer abi params result =>
      HFn abi params result sp
        ((fix go (l : list TypeExpr) : Forall P l :=
            match l with [] => Forall_nil_2 P | t :: l => Forall_cons_2 P t l (type_ind_nested t) (go l) end) params)
        (type_ind_nested result)
  end.
End TypeInduction.

(** The expressions of an operand of [asm!]. *)
Definition operand_exprs (o : AsmOperand) : list Expr :=
  match o with AsmIn _ e | AsmOut _ e => [e] | AsmInOut _ e1 e2 => [e1; e2] end.

(** The expressions directly below an expression. *)
Definition sub_exprs (k : ExprKind) : list Expr :=
  match k with
  | EInteger _ | EBool _ | EByte _ | EString _ | EByteString _ | EPath _ => []
  | EArray values => values
  | EArrayRepeat v _ => [v]
  | EStruct _ fields => snd <$> fields
  | EUnary _ e => [e]
  | EBinary _ a b | EAssign _ a b | EIndex a b => [a; b]
  | ECall f args => f :: args
  | EField e _ | ECast e _ => [e]
  | EAsm _ operands _ => operands ≫= operand_exprs
  end.

Section ExprInduction.
Context (P : Expr → Prop) (Hstep : ∀ k sp, Forall P (sub_exprs k) → P (MkExpr k sp)).

Fixpoint expr_ind_nested (e : Expr) : P e.
Proof using Hstep.
  destruct e as [k sp]. apply Hstep.
  destruct k as [n|b|b|s|s|p|values|v n|p fields|op e|op a b|op a b|f args|e name|a b|e t|tpl operands opts]; simpl.
  all: repeat first [exact (Forall_nil_2 P) | apply (Forall_cons_2 P); [apply expr_ind_nested|]].
  - induction values as [|e values IH]; constructor; [apply expr_ind_nested|apply IH].
  - induction fields as [|[s e] fields IH]; simpl; constructor; [apply expr_ind_nested|apply IH].
  - induction args as [|e args IH]; constructor; [apply expr_ind_nested|apply IH].
  - induction operands as [|o operands IH]; [constructor|]. simpl. apply Forall_app_2; [|exact IH].
    destruct o as [r e|r e|r e1 e2]; simpl; repeat constructor; apply expr_ind_nested.
Defined.
End ExprInduction.

(** The blocks directly below a statement. *)
Definition sub_blocks (k : StmtKind) : list Block :=
  match k with
  | SIf _ b1 (Some b2) => [b1; b2]
  | SIf _ b None | SWhile _ b | SLoop b | SUnsafe b => [b]
  | _ => []
  end.

Section BlockInduction.
Context (P : Block → Prop) (Q : Stmt → Prop).
Context (HBlock : ∀ stmts sp, Forall Q stmts → P (MkBlock stmts sp)).
Context (HStmt : ∀ k sp, Forall P (sub_blocks k) → Q (MkStmt k sp)).

Fixpoint block_ind_nested (b : Block) : P b
with stmt_ind_nested (s : Stmt) : Q s.
Proof using HBlock HStmt.
  - destruct b as [stmts sp]. apply HBlock. induction stmts as [|s stmts IH]; constructor; [apply stmt_ind_nested|apply IH].
  - destruct s as [k sp]. apply HStmt.
    destruct k as [m x t e|e|e b1 [b2|]|e b|b|b|e| |]; simpl; repeat constructor; apply block_ind_nested.
Defined.
End BlockInduction.
