(* ===== verification/OcoreParser.v ===== *)
(** * The parser of Ocore

    [crates/ostadix-api/src/ocore/parser.rs]: recursive descent over the tokens of the
    lexer, with precedence climbing for binary operators.  The state of the parser is
    the index of the current token. *)

From S2P Require Import Prelude.
From S2P Require Import Utf8.
From S2P Require Import OcoreLexer.
From S2P Require Import OcoreAst.
From stdpp Require Import options.

#[local] Open Scope nat_scope.

(** The messages of the front end: those of the lexer, the fixed texts of the parser,
    and the texts that show data of the source. *)
Inductive ParseMessage : Type :=
| Lexical (m : LexMessage)
| Says (text : string)
| UnsupportedAbi (name : str)
| OrchestrationFile (file : str)
| OrchestrationSyntax (hint : string).

(** [std::mem::discriminant] of two kinds is the same. *)
Definition same_kind (a b : TokenKind) : bool :=
  match a, b with
  | Ident _, Ident _ | Integer _, Integer _ | TString _, TString _ | ByteString _, ByteString _ | Byte _, Byte _ => true
  | _, _ => bool_decide (a = b)
  end.

Definition abi_of_name (name : str) : option Abi :=
  if bool_decide (name = lit "sysv64") then Some AbiSysV64
  else if bool_decide (name = lit "C") then Some AbiC
  else if bool_decide (name = lit "ocore") then Some AbiOCore
  else None.

(** The binary operator of a token, with its precedence. *)
Definition binary_of (k : TokenKind) : option (BinaryOp * nat) :=
  match k with
  | OrOr => Some (BLogicalOr, 1)
  | AndAnd => Some (BLogicalAnd, 2)
  | Pipe => Some (BBitOr, 3)
  | Caret => Some (BBitXor, 4)
  | Amp => Some (BBitAnd, 5)
  | EqEq => Some (BEq, 6)
  | NotEq => Some (BNotEq, 6)
  | Less => Some (BLess, 7)
  | LessEq => Some (BLessEq, 7)
  | Greater => Some (BGreater, 7)
  | GreaterEq => Some (BGreaterEq, 7)
  | ShiftLeft => Some (BShiftLeft, 8)
  | ShiftRight => Some (BShiftRight, 8)
  | Plus => Some (BAdd, 9)
  | Minus => Some (BSub, 9)
  | Star => Some (BMul, 10)
  | Slash => Some (BDiv, 10)
  | Percent => Some (BRem, 10)
  | _ => None
  end.

(** The assignment of a token: plain, or with an operator. *)
Definition assign_of (k : TokenKind) : option (option BinaryOp) :=
  match k with
  | TEq => Some None
  | PlusEq => Some (Some BAdd)
  | MinusEq => Some (Some BSub)
  | StarEq => Some (Some BMul)
  | SlashEq => Some (Some BDiv)
  | PercentEq => Some (Some BRem)
  | AmpEq => Some (Some BBitAnd)
  | PipeEq => Some (Some BBitOr)
  | CaretEq => Some (Some BBitXor)
  | ShiftLeftEq => Some (Some BShiftLeft)
  | ShiftRightEq => Some (Some BShiftRight)
  | _ => None
  end.

Section Parser.
Context (file : str) (tokens : list Token).

Abbreviation ParseError := (Diagnostic ParseMessage).
Abbreviation P := (M nat ParseError).

(** Every turn of a loop and every call of a production inside of itself comes after a
    token that has been consumed. *)
Definition loop_fuel : nat := S (length tokens).

(** ** Access to the tokens *)

Definition current : P Token := λ n, (n, index_or_panic (tokens !! n)).
Definition previous : P Token := λ n, (n, index_or_panic (tokens !! pred n)).

Definition bump : P Token := λ n,
  match tokens !! n with
  | Some t => (if bool_decide (kind t = Eof) then n else S n, Ok t)
  | None => (n, Panic)
  end.

Definition at_ (k : TokenKind) : P bool := let* t := current in ret (same_kind (kind t) k).

Definition eat (k : TokenKind) : P (option Token) :=
  let* b := at_ k in
  if b then let* t := bump in ret (Some t) else ret None.

(** [self.eat(..).is_some()]. *)
Definition eats (k : TokenKind) : P bool := let* t := eat k in ret (bool_decide (is_Some t)).

Definition error_at {A} (sp : Span) (message : ParseMessage) : P A :=
  fail {| d_file := file; d_span := sp; d_message := message |}.

Definition error {A} (message : ParseMessage) : P A := let* t := current in error_at (span t) message.

Definition expect (k : TokenKind) (message : string) : P Token :=
  let* b := at_ k in
  if b then bump else error (Says message).

Definition expect_ident (message : string) : P (str * Span) :=
  let* t := bump in
  match kind t with Ident s => ret (s, span t) | _ => error_at (span t) (Says message) end.

Definition expect_integer (message : string) : P (Z * Span) :=
  let* t := bump in
  match kind t with Integer n => ret (n, span t) | _ => error_at (span t) (Says message) end.

Definition expect_string (message : string) : P str :=
  let* t := bump in
  match kind t with TString s => ret s | _ => error_at (span t) (Says message) end.

Definition synthetic_named_type (name : string) : P TypeExpr :=
  let* t := previous in ret (MkType (TNamed [lit name]) (span t)).

(** ** Loops *)

Section Loops.
Context {A : Type} (item : P A).

(** [loop { push(item()?); if eat(Comma).is_none() { break; } }]. *)
Fixpoint comma_loop (fuel : nat) (acc : list A) : P (list A) :=
  match fuel with
  | O => no_fuel
  | S fuel =>
      let* a := item in
      let* more := eats Comma in
      if more then comma_loop fuel (acc ++ [a]) else ret (acc ++ [a])
  end.

(** [if !at(close) { loop { .. } }]. *)
Definition comma_list (close : TokenKind) : P (list A) :=
  let* b := at_ close in
  if b then ret [] else comma_loop loop_fuel [].

(** The same loop, ended by a comma before [close] too. *)
Fixpoint trailing_loop (close : TokenKind) (fuel : nat) (acc : list A) : P (list A) :=
  match fuel with
  | O => no_fuel
  | S fuel =>
      let* a := item in
      let* more := eats Comma in
      if more then
        let* b := at_ close in
        if b then ret (acc ++ [a]) else trailing_loop close fuel (acc ++ [a])
      else ret (acc ++ [a])
  end.

(** [while !at(RBrace) { push(item()?); if eat(Comma).is_none() && !at(RBrace) { return Err(..) } }]. *)
Fixpoint braced_loop (message : string) (fuel : nat) (acc : list A) : P (list A) :=
  match fuel with
  | O => no_fuel
  | S fuel =>
      let* b := at_ RBrace in
      if b then ret acc else
      let* a := item in
      let* more := eats Comma in
      let* b := (if more then ret true else at_ RBrace) in
      if b then braced_loop message fuel (acc ++ [a]) else error (Says message)
  end.

(** [while !at(close) { push(item()?); if eat(Comma).is_none() { break; } }]. *)
Fixpoint open_loop (close : TokenKind) (fuel : nat) (acc : list A) : P (list A) :=
  match fuel with
  | O => no_fuel
  | S fuel =>
      let* b := at_ close in
      if b then ret acc else
      let* a := item in
      let* more := eats Comma in
      if more then open_loop close fuel (acc ++ [a]) else ret (acc ++ [a])
  end.

(** [while eat(Comma).is_some() { if at(close) { break; } push(item()?); }]. *)
Fixpoint tail_loop (close : TokenKind) (fuel : nat) (acc : list A) : P (list A) :=
  match fuel with
  | O => no_fuel
  | S fuel =>
      let* more := eats Comma in
      if more then
        let* b := at_ close in
        if b then ret acc else
        let* a := item in
        tail_loop close fuel (acc ++ [a])
      else ret acc
  end.
End Loops.

(** ** Paths *)

Fixpoint path_loop (fuel : nat) (path : Path) : P Path :=
  match fuel with
  | O => no_fuel
  | S fuel =>
      let* more := eats ColonColon in
      if more then
        let* t := current in
        match kind t with
        | Ident s => bump ;;* path_loop fuel (path ++ [s])
        | _ => ret path
        end
      else ret path
  end.

Definition parse_path_tail (first : str) : P Path := path_loop loop_fuel [first].

Definition parse_path : P Path :=
  let* (first, _) := expect_ident "expected identifier" in
  parse_path_tail first.

(** ** Types *)

Fixpoint parse_type (fuel : nat) : P TypeExpr :=
  match fuel with
  | O => no_fuel
  | S fuel =>
      let* t := current in
      let start := span t in
      let* star := eats Star in
      if star then
        let* mutable := eats KMut in
        (if mutable then ret tt else expect KConst "expected `const` or `mut` after `*`" ;;* ret tt) ;;*
        let* pointee := parse_type fuel in
        ret (MkType (TPointer mutable pointee) (join start (type_span pointee)))
      else
      let* bracket := eats LBracket in
      if bracket then
        let* element := parse_type fuel in
        expect Semi "expected `;` in array type" ;;*
        let* (len, _) := expect_integer "expected array length" in
        let* close := expect RBracket "expected `]` after array type" in
        ret (MkType (TArray element len) (join start (span close)))
      else
      let* extern := eats KExtern in
      let* explicit_abi :=
        (if extern then
           let* t := bump in
           match (match kind t with TString name => abi_of_name name | _ => None end) with
           | Some abi => expect KFn "expected `fn` after function pointer ABI" ;;* ret (Some abi)
           | None => error_at (span t) (Says "expected `C`, `ocore` or `sysv64` function pointer ABI")
           end
         else ret None) in
      let* is_fn := (if bool_decide (is_Some explicit_abi) then ret true else eats KFn) in
      if is_fn then
        expect LParen "expected `(` in function pointer type" ;;*
        let* params := comma_list (parse_type fuel) RParen in
        expect RParen "expected `)` in function pointer type" ;;*
        expect Arrow "expected `->` in function pointer type" ;;*
        let* result := parse_type fuel in
        ret (MkType (TFnPointer (default AbiOCore explicit_abi) params result) (join start (type_span result)))
      else
        let* path := parse_path in
        let* last := previous in
        ret (MkType (TNamed path) (join start (span last)))
  end.

(** ** Expressions *)

Definition looks_like_struct_literal : P bool :=
  let* b := at_ LBrace in
  if b then
    λ n, (n, Ok match kind <$> tokens !! (n + 1), kind <$> tokens !! (n + 2) with
                | Some (Ident _), Some Colon => true
                | Some RBrace, _ => true
                | _, _ => false
                end)
  else ret false.

Section Expressions.
(** The productions below are inside of an expression: [expr] is [parse_expr]. *)
Context (expr : P Expr).

Definition parse_field_init : P (str * Expr) :=
  let* (name, _) := expect_ident "expected struct field name" in
  expect Colon "expected `:` in struct initializer" ;;*
  let* value := expr in
  ret (name, value).

Definition parse_asm_operand : P AsmOperand :=
  let* mode := bump in
  expect LParen "expected register constraint" ;;*
  let* register := expect_string "assembly register must be a string literal" in
  expect RParen "expected `)` after register" ;;*
  match kind mode with
  | KIn => let* value := expr in ret (AsmIn register value)
  | KOut => let* target := expr in ret (AsmOut register target)
  | KInOut =>
      let* input := expr in
      expect Arrow "expected `->` in inout operand" ;;*
      let* output := expr in
      ret (AsmInOut register input output)
  | _ => error_at (span mode) (Says "expected `in`, `out`, `inout`, or `options` in asm")
  end.

Definition parse_asm_option : P str :=
  let* (name, _) := expect_ident "expected assembly option" in ret name.

Fixpoint asm_loop (fuel : nat) (operands : list AsmOperand) (options : list str) : P (list AsmOperand * list str) :=
  match fuel with
  | O => no_fuel
  | S fuel =>
      let* more := eats Comma in
      if more then
        let* b := eats KOptions in
        if b then
          expect LParen "expected `(` after options" ;;*
          let* names := comma_list parse_asm_option RParen in
          expect RParen "expected `)` after assembly options" ;;*
          asm_loop fuel operands (options ++ names)
        else
          let* operand := parse_asm_operand in
          asm_loop fuel (operands ++ [operand]) options
      else ret (operands, options)
  end.

Definition parse_asm (start : Span) : P Expr :=
  expect Bang "expected `!` after `asm`" ;;*
  expect LParen "expected `(` after `asm!`" ;;*
  let* template := expect_string "asm template must be a string literal" in
  let* (operands, options) := asm_loop loop_fuel [] [] in
  let* close := expect RParen "expected `)` after asm expression" in
  ret (MkExpr (EAsm template operands options) (join start (span close))).

Definition parse_path_expr (first : str) : P ExprKind :=
  let* path := parse_path_tail first in
  let* literal := looks_like_struct_literal in
  if literal then
    bump ;;*
    let* fields := open_loop parse_field_init RBrace loop_fuel [] in
    expect RBrace "expected `}` after struct initializer" ;;*
    ret (EStruct path fields)
  else ret (EPath path).

Definition parse_array : P ExprKind :=
  let* empty := at_ RBracket in
  if empty then bump ;;* ret (EArray [])
  else
    let* first := expr in
    let* semi := eats Semi in
    if semi then
      let* (len, _) := expect_integer "expected array repeat length" in
      expect RBracket "expected `]` after array repeat" ;;*
      ret (EArrayRepeat first len)
    else
      let* values := tail_loop expr RBracket loop_fuel [first] in
      expect RBracket "expected `]` after array" ;;*
      ret (EArray values).

(** The end of [parse_primary]: the span up to the last token. *)
Definition spanned (start : Span) (k : P ExprKind) : P Expr :=
  let* k := k in
  let* last := previous in
  ret (MkExpr k (join start (span last))).

Definition parse_primary : P Expr :=
  let* t := bump in
  let sp := span t in
  match kind t with
  | Integer n => spanned sp (ret (EInteger n))
  | KTrue => spanned sp (ret (EBool true))
  | KFalse => spanned sp (ret (EBool false))
  | Byte b => spanned sp (ret (EByte b))
  | TString s => spanned sp (ret (EString s))
  | ByteString s => spanned sp (ret (EByteString s))
  | Ident first => spanned sp (parse_path_expr first)
  | LParen =>
      let* e := expr in
      expect RParen "expected `)`" ;;*
      ret e
  | LBracket => spanned sp parse_array
  | KAsm => parse_asm sp
  | _ => error_at sp (Says "expected expression")
  end.

Fixpoint postfix_loop (fuel : nat) (e : Expr) : P Expr :=
  match fuel with
  | O => no_fuel
  | S fuel =>
      let* call := eats LParen in
      if call then
        let* args := comma_list expr RParen in
        let* close := expect RParen "expected `)` after arguments" in
        postfix_loop fuel (MkExpr (ECall e args) (join (expr_span e) (span close)))
      else
      let* bracket := eats LBracket in
      if bracket then
        let* index := expr in
        let* close := expect RBracket "expected `]` after index" in
        postfix_loop fuel (MkExpr (EIndex e index) (join (expr_span e) (span close)))
      else
      let* dot := eats Dot in
      if dot then
        let* (name, sp) := expect_ident "expected field name after `.`" in
        postfix_loop fuel (MkExpr (EField e name) (join (expr_span e) sp))
      else
      let* cast := eats KAs in
      if cast then
        let* ty := parse_type loop_fuel in
        postfix_loop fuel (MkExpr (ECast e ty) (join (expr_span e) (type_span ty)))
      else ret e
  end.

Definition parse_postfix : P Expr :=
  let* e := parse_primary in
  postfix_loop loop_fuel e.

Definition unary_op : P (option UnaryOp) :=
  let* neg := eats Minus in
  if neg then ret (Some UNeg) else
  let* bang := eats Bang in
  if bang then ret (Some UNot) else
  let* tilde := eats Tilde in
  if tilde then ret (Some UBitNot) else
  let* star := eats Star in
  if star then ret (Some UDeref) else
  let* amp := eats Amp in
  if amp then let* mutable := eats KMut in ret (Some (UAddressOf mutable)) else
  ret None.

Fixpoint parse_unary (fuel : nat) : P Expr :=
  match fuel with
  | O => no_fuel
  | S fuel =>
      let* t := current in
      let start := span t in
      let* op := unary_op in
      match op with
      | Some op =>
          let* operand := parse_unary fuel in
          ret (MkExpr (EUnary op operand) (join start (expr_span operand)))
      | None => parse_postfix
      end
  end.

Definition binary_op : P (option (BinaryOp * nat)) := let* t := current in ret (binary_of (kind t)).

(** The loop of [parse_binary]; [operand] is [parse_binary]. *)
Fixpoint binary_loop (operand : nat → P Expr) (min_prec fuel : nat) (lhs : Expr) : P Expr :=
  match fuel with
  | O => no_fuel
  | S fuel =>
      let* op := binary_op in
      match op with
      | None => ret lhs
      | Some (op, precedence) =>
          if precedence <? min_prec then ret lhs
          else
            bump ;;*
            let* rhs := operand (precedence + 1) in
            binary_loop operand min_prec fuel (MkExpr (EBinary op lhs rhs) (join (expr_span lhs) (expr_span rhs)))
      end
  end.

Fixpoint parse_binary (fuel min_prec : nat) : P Expr :=
  match fuel with
  | O => no_fuel
  | S fuel =>
      let* lhs := parse_unary loop_fuel in
      binary_loop (parse_binary fuel) min_prec loop_fuel lhs
  end.
End Expressions.

Fixpoint parse_assignment (fuel : nat) : P Expr :=
  match fuel with
  | O => no_fuel
  | S fuel =>
      let* lhs := parse_binary (parse_assignment fuel) loop_fuel 1 in
      let* t := current in
      match assign_of (kind t) with
      | Some op =>
          bump ;;*
          let* value := parse_assignment fuel in
          ret (MkExpr (EAssign op lhs value) (join (expr_span lhs) (expr_span value)))
      | None => ret lhs
      end
  end.

Definition parse_expr : P Expr := parse_assignment loop_fuel.

(** ** Statements *)

Section Statements.
(** The statements of a block: [block] is [parse_block]. *)
Context (block : P Block).

Definition parse_let : P StmtKind :=
  let* mutable := eats KMut in
  let* (name, _) := expect_ident "expected binding name after `let`" in
  let* colon := eats Colon in
  let* ty := (if colon then let* ty := parse_type loop_fuel in ret (Some ty) else ret None) in
  expect TEq "O-core bindings require an initializer" ;;*
  let* init := parse_expr in
  expect Semi "expected `;` after binding" ;;*
  ret (SLet mutable name ty init).

Definition parse_else : P (option Block) :=
  let* else_ := eats KElse in
  if else_ then
    let* nested := eats KIf in
    if nested then
      let* t := previous in
      let nested_start := span t in
      let* nested_condition := parse_expr in
      let* nested_then := block in
      let* nested_else_ := eats KElse in
      let* nested_else := (if nested_else_ then let* b := block in ret (Some b) else ret None) in
      let* last := previous in
      let sp := join nested_start (span last) in
      ret (Some (MkBlock [MkStmt (SIf nested_condition nested_then nested_else) sp] sp))
    else let* b := block in ret (Some b)
  else ret None.

Definition parse_if : P StmtKind :=
  let* condition := parse_expr in
  let* then_block := block in
  let* else_block := parse_else in
  ret (SIf condition then_block else_block).

Definition parse_while : P StmtKind :=
  let* condition := parse_expr in
  let* body := block in
  ret (SWhile condition body).

Definition parse_return : P StmtKind :=
  let* semi := at_ Semi in
  let* value := (if semi then ret None else let* e := parse_expr in ret (Some e)) in
  expect Semi "expected `;` after return" ;;*
  ret (SReturn value).

Definition parse_stmt_kind : P StmtKind :=
  let* is_let := eats KLet in
  if is_let then parse_let else
  let* is_if := eats KIf in
  if is_if then parse_if else
  let* is_while := eats KWhile in
  if is_while then parse_while else
  let* is_loop := eats KLoop in
  if is_loop then let* b := block in ret (SLoop b) else
  let* is_unsafe := eats KUnsafe in
  if is_unsafe then let* b := block in ret (SUnsafe b) else
  let* is_return := eats KReturn in
  if is_return then parse_return else
  let* is_break := eats KBreak in
  if is_break then expect Semi "expected `;` after break" ;;* ret SBreak else
  let* is_continue := eats KContinue in
  if is_continue then expect Semi "expected `;` after continue" ;;* ret SContinue else
  let* e := parse_expr in
  expect Semi "expected `;` after expression" ;;*
  ret (SExpr e).

Definition parse_stmt : P Stmt :=
  let* t := current in
  let* k := parse_stmt_kind in
  let* last := previous in
  ret (MkStmt k (join (span t) (span last))).

(** The loop of [parse_block]. *)
Fixpoint block_loop (start : Span) (fuel : nat) (stmts : list Stmt) : P (list Stmt) :=
  match fuel with
  | O => no_fuel
  | S fuel =>
      let* close := at_ RBrace in
      if close then ret stmts else
      let* eof := at_ Eof in
      if eof then error_at start (Says "unclosed block") else
      let* s := parse_stmt in
      block_loop start fuel (stmts ++ [s])
  end.
End Statements.

Fixpoint parse_block (fuel : nat) : P Block :=
  match fuel with
  | O => no_fuel
  | S fuel =>
      let* open := expect LBrace "expected `{` to begin block" in
      let* stmts := block_loop (parse_block fuel) (span open) loop_fuel [] in
      let* close := bump in
      ret (MkBlock stmts (join (span open) (span close)))
  end.

(** ** Items *)

Definition parse_attr_arg : P AttrArg :=
  let* t := bump in
  match kind t with
  | TString s => ret (ArgString s)
  | Integer n => ret (ArgInteger n)
  | Ident s => ret (ArgIdent s)
  | _ => error_at (span t) (Says "attribute arguments must be strings, integers, or identifiers")
  end.

Fixpoint attributes_loop (fuel : nat) (attrs : list Attribute) : P (list Attribute) :=
  match fuel with
  | O => no_fuel
  | S fuel =>
      let* at_token := eat At in
      match at_token with
      | None => ret attrs
      | Some at_token =>
          let* (name, name_span) := expect_ident "expected attribute name after `@`" in
          let* paren := eats LParen in
          let* (args, close) :=
            (if paren then
               let* args := comma_list parse_attr_arg RParen in
               let* close := expect RParen "expected `)` after attribute arguments" in
               ret (args, span close)
             else ret ([], name_span)) in
          attributes_loop fuel (attrs ++ [{| at_name := name; at_args := args; at_span := join (span at_token) close |}])
      end
  end.

Definition parse_attributes : P (list Attribute) := attributes_loop loop_fuel [].

Definition parse_param : P Param :=
  let* (name, start) := expect_ident "expected parameter name" in
  expect Colon "expected `:` after parameter name" ;;*
  let* ty := parse_type loop_fuel in
  ret {| p_name := name; p_ty := ty; p_span := join start (type_span ty) |}.

Definition parse_params : P (list Param) :=
  let* close := at_ RParen in
  if close then ret [] else trailing_loop parse_param RParen loop_fuel [].

Definition parse_function (unsafe_ : bool) (abi : Abi) (extern_ : bool) : P Function :=
  let* (name, _) := expect_ident "expected function name" in
  expect LParen "expected `(` after function name" ;;*
  let* params := parse_params in
  expect RParen "expected `)` after function parameters" ;;*
  let* arrow := eats Arrow in
  let* return_type := (if arrow then parse_type loop_fuel else synthetic_named_type "void") in
  let* brace := (if extern_ then at_ LBrace else ret true) in
  let* body := (if brace then let* b := parse_block loop_fuel in ret (Some b)
                else expect Semi "extern function declarations end with `;`" ;;* ret None) in
  ret {| f_name := name; f_unsafe := unsafe_; f_abi := abi; f_params := params; f_return_type := return_type; f_body := body |}.

Definition parse_field_def : P FieldDef :=
  let* (name, start) := expect_ident "expected field name" in
  expect Colon "expected `:` after field name" ;;*
  let* ty := parse_type loop_fuel in
  ret {| fd_name := name; fd_ty := ty; fd_span := join start (type_span ty) |}.

Definition parse_struct : P StructDef :=
  let* (name, _) := expect_ident "expected struct name" in
  expect LBrace "expected `{` after struct name" ;;*
  let* fields := braced_loop parse_field_def "expected `,` or `}` after struct field" loop_fuel [] in
  bump ;;*
  ret {| sd_name := name; sd_fields := fields |}.

Definition parse_variant : P VariantDef :=
  let* (name, start) := expect_ident "expected variant name" in
  let* paren := eats LParen in
  let* payload :=
    (if paren then
       let* payload := comma_list (parse_type loop_fuel) RParen in
       expect RParen "expected `)` after enum payload" ;;*
       ret payload
     else ret []) in
  let* last := previous in
  ret {| v_name := name; v_payload := payload; v_span := join start (span last) |}.

Definition parse_enum : P EnumDef :=
  let* (name, _) := expect_ident "expected enum name" in
  expect LBrace "expected `{` after enum name" ;;*
  let* variants := braced_loop parse_variant "expected `,` or `}` after enum variant" loop_fuel [] in
  bump ;;*
  ret {| ed_name := name; ed_variants := variants |}.

Definition parse_static : P StaticDef :=
  let* mutable := eats KMut in
  let* (name, _) := expect_ident "expected static name" in
  expect Colon "expected `:` after static name" ;;*
  let* ty := parse_type loop_fuel in
  expect TEq "expected `=` in static definition" ;;*
  let* init := parse_expr in
  expect Semi "expected `;` after static definition" ;;*
  ret {| st_name := name; st_mutable := mutable; st_ty := ty; st_init := init |}.

Definition parse_const : P ConstDef :=
  let* (name, _) := expect_ident "expected const name" in
  expect Colon "expected `:` after const name" ;;*
  let* ty := parse_type loop_fuel in
  expect TEq "expected `=` in const definition" ;;*
  let* init := parse_expr in
  expect Semi "expected `;` after const definition" ;;*
  ret {| cd_name := name; cd_ty := ty; cd_init := init |}.

(** The ABI after [extern]. *)
Definition parse_abi : P Abi :=
  let* t := bump in
  match kind t with
  | TString name =>
      match abi_of_name name with
      | Some abi => ret abi
      | None => error_at (span t) (UnsupportedAbi name)
      end
  | _ => error_at (span t) (Says "expected ABI string after `extern`")
  end.

Definition parse_item_kind (unsafe_ : bool) (abi : Abi) (extern_ : bool) : P ItemKind :=
  let* is_fn := eats KFn in
  if is_fn then let* f := parse_function unsafe_ abi extern_ in ret (IFunction f) else
  if extern_ || unsafe_ then error (Says "`extern` and item-level `unsafe` are valid only on functions") else
  let* is_struct := eats KStruct in
  if is_struct then let* s := parse_struct in ret (IStruct s) else
  let* is_enum := eats KEnum in
  if is_enum then let* e := parse_enum in ret (IEnum e) else
  let* is_static := eats KStatic in
  if is_static then let* s := parse_static in ret (IStatic s) else
  let* is_const := eats KConst in
  if is_const then let* c := parse_const in ret (IConst c) else
  error (Says "expected function, struct, enum, static, or const item").

Definition parse_item : P Item :=
  let* attrs := parse_attributes in
  let* t := current in
  let start := match attrs with a :: _ => at_span a | [] => span t end in
  let* public := eats KPub in
  let* extern_ := eats KExtern in
  let* abi := (if extern_ then parse_abi else ret AbiOCore) in
  let* unsafe_ := eats KUnsafe in
  let* k := parse_item_kind unsafe_ abi extern_ in
  let* last := previous in
  ret {| i_attrs := attrs; i_public := public; i_kind := k; i_span := join start (span last) |}.

(** ** Modules *)

Fixpoint uses_loop (fuel : nat) (uses : list UseDecl) : P (list UseDecl) :=
  match fuel with
  | O => no_fuel
  | S fuel =>
      let* b := at_ KUse in
      if b then
        let* use_start := bump in
        let* path := parse_path in
        let* as_ := eats KAs in
        let* alias := (if as_ then let* (name, _) := expect_ident "expected import alias after `as`" in ret (Some name)
                       else ret None) in
        let* close := expect Semi "expected `;` after use declaration" in
        uses_loop fuel (uses ++ [{| u_path := path; u_alias := alias; u_span := join (span use_start) (span close) |}])
      else ret uses
  end.

Fixpoint items_loop (fuel : nat) (items : list Item) : P (list Item) :=
  match fuel with
  | O => no_fuel
  | S fuel =>
      let* eof := at_ Eof in
      if eof then ret items
      else
        let* i := parse_item in
        items_loop fuel (items ++ [i])
  end.

Definition parse_module : P SourceModule :=
  let* start := expect KModule
    "expected `module <name>;` declaration at top of `.oc` O-core module (for `.O` orchestration programs, use `olangc` or `O`)" in
  let* name := parse_path in
  expect Semi "expected `;` after module declaration" ;;*
  let* uses := uses_loop loop_fuel [] in
  let* items := items_loop loop_fuel [] in
  let* last := current in
  ret {| m_name := name; m_uses := uses; m_items := items; m_span := join (span start) (span last) |}.
End Parser.
