(* ===== verification/OcoreSurface.v ===== *)
(** * The entry of the front end of Ocore

    [reject_orchestration_input], [detect_orchestration_surface] and [parse] of
    [crates/ostadix-api/src/ocore/parser.rs]: programs of the orchestration language are
    refused before the lexer sees them, everything else is lexed and parsed. *)

From S2P Require Import Prelude.
From S2P Require Import Utf8.
From S2P Require Import BashScan.
From S2P Require Import OcoreLexer.
From S2P Require Import OcoreAst.
From S2P Require Import OcoreParser.
From stdpp Require Import options.

#[local] Open Scope nat_scope.

(** ** What is used of the standard library *)

(** [Path::file_name]: the last component unless it is [..]; empty components and [.]
    are not components. *)
Definition file_name (path : str) : option str :=
  match last (filter (λ c, c ≠ [] ∧ c ≠ lit ".") (split_byte 47 path)) with
  | Some c => if bool_decide (c = lit "..") then None else Some c
  | None => None
  end.

(** [Path::extension]: after the last dot, which is not the first byte. *)
Definition extension (path : str) : option str :=
  match file_name path with
  | Some c =>
      match rsplit_once 46 c with
      | Some (before, after) => if bool_decide (before = []) then None else Some after
      | None => None
      end
  | None => None
  end.

Definition strip_cr (s : str) : str := if ends_with s [13%Z] then take (length s - 1) s else s.

(** [str::lines]: each line ends with a newline or a carriage return and a newline; the
    text after the last newline is a line if it is not empty. *)
Definition lines (s : str) : list str :=
  let parts := split_byte 10 s in
  (strip_cr <$> take (length parts - 1) parts) ++
  match last parts with Some ((_ :: _) as line) => [line] | _ => [] end.

(** ** Orchestration programs *)

Definition is_tag_byte (b : Z) : bool := is_ascii_alphanumeric b || bool_decide (b ∈ [95; 91; 93]%Z).

(** The tag that ends a text. *)
Definition tag_of (prefix : str) : str := reverse (take (span_len is_tag_byte (reverse prefix)) (reverse prefix)).

(** The code of a line, before a comment. *)
Definition code_of (line : str) : str :=
  match find_sub (lit "//") line with Some i => take i line | None => line end.

(** A foreign block that opens in a line of code; [before] are the lines above. *)
Definition block_in_line (before : list str) (code : str) : option (Span * string) :=
  match find_sub (lit "^(") code with
  | Some pos =>
      let tag := tag_of (take pos code) in
      if bool_decide (tag = []) then None
      else
        let byte_offset := sum_list ((λ l, length l + 1) <$> before) in
        Some ({| start := byte_offset + (pos - length tag); end_ := byte_offset + pos + 2;
                 line := length before + 1; column := pos - length tag + 1 |},
              "foreign-language block `^(...)`"%string)
  | None => None
  end.

(** The loop over the lines: blank lines and comments are skipped, the first line of
    code decides. *)
Fixpoint surface_loop (before rest : list str) : option (Span * string) :=
  match rest with
  | [] => None
  | line :: rest =>
      let code := code_of line in
      let trimmed := trim_start code in
      if bool_decide (trimmed = []) || starts_with trimmed (lit "/*") || starts_with trimmed (lit "*")
      then surface_loop (before ++ [line]) rest
      else block_in_line before code
  end.

Definition detect_orchestration_surface (source : str) : option (Span * string) :=
  let trimmed := trim_start source in
  if starts_with trimmed (lit "module ") || starts_with trimmed (lit "module" ++ [9%Z]) || starts_with trimmed (lit "module" ++ [10%Z])
  then None
  else surface_loop [] (lines source).

Definition reject_orchestration_input (file : str) (source : option str) : option (Diagnostic ParseMessage) :=
  if bool_decide (extension file = Some (lit "O") ∨ extension file = Some (lit "o_lang")) then
    Some {| d_file := file;
            d_span := {| start := 0;
                         end_ := match source with
                                 | Some s => match lines s with l :: _ => length l | [] => 0 end
                                 | None => 0
                                 end;
                         line := 1; column := 1 |};
            d_message := OrchestrationFile file |}
  else
    match source with
    | Some source =>
        match detect_orchestration_surface source with
        | Some (sp, hint) => Some {| d_file := file; d_span := sp; d_message := OrchestrationSyntax hint |}
        | None => None
        end
    | None => None
    end.

(** A diagnostic of the lexer among those of the front end. *)
Definition lexical (d : Diagnostic LexMessage) : Diagnostic ParseMessage :=
  {| d_file := d_file d; d_span := d_span d; d_message := Lexical (d_message d) |}.

Definition parse (file source : str) : outcome (Diagnostic ParseMessage) SourceModule :=
  match reject_orchestration_input file (Some source) with
  | Some d => Err d
  | None =>
      match lex file source with
      | Ok tokens => (parse_module file tokens 0).2
      | Err d => Err (lexical d)
      | Panic => Panic
      | NoFuel => NoFuel
      end
  end.

(** The source of the test [parses_system_language_surface], with its quotes. *)
Example parses_system_language_surface :
  match parse (lit "kernel.oc") ((λ b, if (b =? 39)%Z then 34%Z else b) <$>
    lit "module kernel::main; use kernel::serial::write as serial_write; @packed struct Header { magic: u32, flags: u32 } enum State { empty, ready(u64), failed(i32) } static mut NEXT: usize = 0x200000; @export @link_section('.text.kernel') unsafe fn kernel_main(info: *const Header) -> never { let mut n: usize = 0; while n < 4 { unsafe { volatile_store((&mut NEXT), n); } n += 1; } loop { asm!('hlt', options(nomem, nostack)); } }") with
  | Ok {| m_name := name; m_items := [_; _; _; {| i_kind := IFunction f |}] |} =>
      name = [lit "kernel"; lit "main"] ∧ f_unsafe f = true ∧
      match f_body f with Some (MkBlock stmts _) => length stmts = 3 | None => False end
  | _ => False
  end.
Proof. vm_compute. split_and!; reflexivity. Qed.
