(* ===== verification/OcoreParserFacts.v ===== *)
(** * Facts on the parser of Ocore

    The trees whose spans are those of runs of tokens: every node covers a run, its parts
    cover runs inside of it, in the order of the source and without overlap.  Every
    production returns, with an error at a token or with such a tree over the tokens that
    it has consumed; the fuel of the loops and of the productions is enough. *)

From S2P Require Import Prelude.
From S2P Require Import OcoreLexer.
From S2P Require Import OcoreLexerFacts.
From S2P Require Import OcoreAst.
From S2P Require Import OcoreParser.
From stdpp Require Import options.

#[local] Open Scope nat_scope.

(** ** Spans *)

(** Parts that cover runs in [i .. j), one after the other. *)
Inductive in_order {A} (R : nat → nat → A → Prop) : nat → nat → list A → Prop :=
| in_order_nil i j : i ≤ j → in_order R i j []
| in_order_cons i a b j x l : i ≤ a → R a b x → in_order R b j l → in_order R i j (x :: l).

Section InOrder.
Context {A : Type} (R : nat → nat → A → Prop).

Lemma in_order_weaken i i' j j' l : i' ≤ i → j ≤ j' → in_order R i j l → in_order R i' j' l.
Proof.
  intros Hi Hj H. revert i' Hi. induction H as [i j Hij|i a b j x l Hi0 Hx Hl IH]; intros i' Hi; [constructor; lia|].
  apply in_order_cons with a b; [lia|done|by apply IH].
Qed.

Lemma in_order_app i j j' k l l' : in_order R i j l → j ≤ j' → in_order R j' k l' → in_order R i k (l ++ l').
Proof.
  intros H Hj H'. induction H as [i j Hij|i a b j x l Hi Hx Hl IH]; simpl.
  - eapply in_order_weaken; [|done..]. lia.
  - econstructor; eauto.
Qed.

Lemma in_order_one i a b j x : i ≤ a → R a b x → b ≤ j → in_order R i j [x].
Proof. intros. econstructor; [done..|]. by constructor. Qed.

Lemma in_order_snoc i m a b j l x : in_order R i m l → m ≤ a → R a b x → b ≤ j → in_order R i j (l ++ [x]).
Proof. intros Hl Hm Hx Hb. eapply in_order_app; [done..|]. by eapply in_order_one. Qed.

Lemma in_order_two i a b c d j x y : i ≤ a → R a b x → b ≤ c → R c d y → d ≤ j → in_order R i j [x; y].
Proof. intros. econstructor; [done..|]. by eapply in_order_one. Qed.
End InOrder.

Lemma in_order_fmap {A B} (f : A → B) (R : nat → nat → B → Prop) i j l :
  in_order (λ a b x, R a b (f x)) i j l → in_order R i j (f <$> l).
Proof. induction 1; simpl; econstructor; eauto. Qed.

Lemma in_order_bind {A B} (f : A → list B) (R : nat → nat → B → Prop) i j l :
  in_order (λ a b x, in_order R a b (f x)) i j l → in_order R i j (l ≫= f).
Proof.
  induction 1 as [|i a b j x l Hi Hx Hl IH]; simpl; [by constructor|].
  eapply in_order_app; [by eapply in_order_weaken; [done|reflexivity|exact Hx]|reflexivity|exact IH].
Qed.

Section Runs.
Context (tokens : list Token).

Definition span_at (n : nat) : Span := match tokens !! n with Some t => span t | None => Build_Span 0 0 0 0 end.

(** The span of the tokens [i .. j). *)
Definition between (i j : nat) : Span :=
  {| start := start (span_at i); end_ := end_ (span_at (pred j)); line := line (span_at i); column := column (span_at i) |}.

Definition run (i j : nat) (sp : Span) : Prop := i < j ≤ length tokens ∧ sp = between i j.

(** ** Trees over runs of tokens *)

(** The types directly below a type. *)
Definition sub_types (k : TypeExprKind) : list TypeExpr :=
  match k with
  | TNamed _ => []
  | TPointer _ t | TArray t _ => [t]
  | TFnPointer _ params result => params ++ [result]
  end.

Inductive type_at (i j : nat) : TypeExpr → Prop :=
| type_at_intro k sp : run i j sp → in_order type_at i j (sub_types k) → type_at i j (MkType k sp).

Definition cast_type (k : ExprKind) : list TypeExpr := match k with ECast _ t => [t] | _ => [] end.

Inductive expr_at (i j : nat) : Expr → Prop :=
| expr_at_intro k sp : run i j sp → in_order expr_at i j (sub_exprs k) → in_order type_at i j (cast_type k) →
    expr_at i j (MkExpr k sp).

Definition stmt_types (k : StmtKind) : list TypeExpr := match k with SLet _ _ (Some t) _ => [t] | _ => [] end.

Definition stmt_exprs (k : StmtKind) : list Expr :=
  match k with
  | SLet _ _ _ e | SExpr e | SIf e _ _ | SWhile e _ | SReturn (Some e) => [e]
  | _ => []
  end.

Inductive block_at (i j : nat) : Block → Prop :=
| block_at_intro stmts sp : run i j sp → in_order stmt_at i j stmts → block_at i j (MkBlock stmts sp)
with stmt_at (i j : nat) : Stmt → Prop :=
| stmt_at_intro k sp : run i j sp → in_order type_at i j (stmt_types k) → in_order expr_at i j (stmt_exprs k) →
    in_order block_at i j (sub_blocks k) → stmt_at i j (MkStmt k sp).

Definition param_at (i j : nat) (p : Param) : Prop := run i j (p_span p) ∧ in_order type_at i j [p_ty p].
Definition field_at (i j : nat) (f : FieldDef) : Prop := run i j (fd_span f) ∧ in_order type_at i j [fd_ty f].
Definition variant_at (i j : nat) (v : VariantDef) : Prop := run i j (v_span v) ∧ in_order type_at i j (v_payload v).

Definition item_kind_in (i j : nat) (k : ItemKind) : Prop :=
  match k with
  | IFunction f =>
      ∃ a b, in_order param_at i a (f_params f) ∧ in_order type_at a b [f_return_type f] ∧
        in_order block_at b j (option_list (f_body f))
  | IStruct s => in_order field_at i j (sd_fields s)
  | IEnum e => in_order variant_at i j (ed_variants e)
  | IStatic s => ∃ a, in_order type_at i a [st_ty s] ∧ in_order expr_at a j [st_init s]
  | IConst c => ∃ a, in_order type_at i a [cd_ty c] ∧ in_order expr_at a j [cd_init c]
  end.

Definition item_at (i j : nat) (x : Item) : Prop :=
  run i j (i_span x) ∧ ∃ a, in_order (λ i j x, run i j (at_span x)) i a (i_attrs x) ∧ item_kind_in a j (i_kind x).

Definition module_at (m : SourceModule) : Prop :=
  run 0 (length tokens) (m_span m) ∧
  ∃ a, in_order (λ i j u, run i j (u_span u)) 0 a (m_uses m) ∧ in_order item_at a (length tokens) (m_items m).

Lemma type_at_span i j t : type_at i j t → run i j (type_span t).
Proof. by intros []. Qed.

Lemma expr_at_span i j e : expr_at i j e → run i j (expr_span e).
Proof. by intros []. Qed.

Lemma block_at_span i j b : block_at i j b → run i j (block_span b).
Proof. by intros []. Qed.

End Runs.

(** What the parser relies on: [Eof] is the last token and only this, and the tokens are
    in the order of the source. *)
Record well_placed (tokens : list Token) : Prop := {
  wp_some : 0 < length tokens;
  wp_eof : ∀ n t, tokens !! n = Some t → kind t = Eof ↔ S n = length tokens;
  wp_ordered : ∀ n m t u, n ≤ m → tokens !! n = Some t → tokens !! m = Some u →
    start (span t) ≤ start (span u) ∧ end_ (span t) ≤ end_ (span u)
}.

Lemma placed_bounds source n ts m t : placed_tokens source n ts → ts !! m = Some t → n ≤ start (span t) ∧ start (span t) ≤ end_ (span t).
Proof.
  revert n m. induction ts as [|u ts IH]; intros n m Hp Hm; [done|]. destruct Hp as (H1 & _ & _ & H2). destruct m as [|m]; simpl in Hm.
  - injection Hm as ->. split; [done|]. destruct ts; lia.
  - destruct ts as [|v ts]; [done|]. destruct H2 as (_ & H3 & H4). destruct (IH _ _ H4 Hm). lia.
Qed.

Lemma placed_well_placed source n tokens : placed_tokens source n tokens → well_placed tokens.
Proof.
  intros Hp. constructor.
  - destruct tokens; [done|simpl; lia].
  - revert n Hp. induction tokens as [|u ts IH]; intros n Hp m t Hm; [done|]. destruct Hp as (_ & _ & _ & H2).
    destruct m as [|m]; simpl in Hm.
    + injection Hm as ->. destruct ts as [|v ts]; simpl; [naive_solver|]. destruct H2 as (Hk & _ & _). split; [done|lia].
    + destruct ts as [|v ts]; [done|]. destruct H2 as (_ & _ & H4). rewrite (IH _ H4 m t Hm). simpl. lia.
  - revert n Hp. induction tokens as [|x ts IH]; intros n Hp m m' t u Hle Hm Hm'; [done|]. pose proof Hp as Hp'. destruct Hp as (_ & _ & _ & H2).
    destruct m as [|m], m' as [|m']; simpl in Hm, Hm'; [by simplify_eq| |lia|].
    + injection Hm as ->. destruct ts as [|v ts]; [done|]. destruct H2 as (_ & H3 & H4).
      pose proof (placed_bounds _ _ _ _ _ H4 Hm') as [H5 H6]. lia.
    + destruct ts as [|v ts]; [done|]. destruct H2 as (_ & _ & H4). by eapply (IH _ H4 m m'); [lia|..].
Qed.

Section Between.
Context (tokens : list Token) (Hw : well_placed tokens).

Lemma span_at_ordered n m : n ≤ m → m < length tokens →
  start (span_at tokens n) ≤ start (span_at tokens m) ∧ end_ (span_at tokens n) ≤ end_ (span_at tokens m).
Proof using Hw.
  intros Hle Hm. destruct (lookup_lt_is_Some_2 tokens m) as [u Hu]; [done|]. destruct (lookup_lt_is_Some_2 tokens n) as [t Ht]; [lia|].
  unfold span_at. rewrite Hu, Ht. exact (wp_ordered _ Hw n m t u Hle Ht Hu).
Qed.

Lemma join_between i j i' j' : i ≤ i' → j ≤ j' → i < j → i' < j' → j' ≤ length tokens →
  join (between tokens i j) (between tokens i' j') = between tokens i j'.
Proof using Hw.
  intros. unfold join, between. simpl. destruct (span_at_ordered i i'); [lia..|]. destruct (span_at_ordered (pred j) (pred j')); [lia..|].
  f_equal; lia.
Qed.

Lemma run_token n t : tokens !! n = Some t → run tokens n (S n) (span t).
Proof.
  intros Ht. pose proof (lookup_lt_Some _ _ _ Ht). split; [lia|]. unfold between, span_at. simpl. rewrite Ht. by destruct (span t).
Qed.

Lemma run_join i j i' j' sp sp' : run tokens i j sp → run tokens i' j' sp' → j ≤ S i' → run tokens i j' (join sp sp').
Proof using Hw. intros [? ->] [? ->] ?. split; [lia|]. apply join_between; lia. Qed.
End Between.

(** ** Productions *)

(** The kinds that carry no data. *)
Definition plain (k : TokenKind) : bool :=
  match k with Ident _ | Integer _ | TString _ | ByteString _ | Byte _ => false | _ => true end.

Lemma same_kind_plain a k : plain k = true → same_kind a k = bool_decide (a = k).
Proof. by destruct k, a. Qed.

Section Facts.
Context (file : str) (tokens : list Token) (Hw : well_placed tokens).

Abbreviation len := (length tokens).
Abbreviation P := (M nat (Diagnostic ParseMessage)).

(** A diagnostic at one of the tokens. *)
Definition token_error (d : Diagnostic ParseMessage) : Prop := d_file d = file ∧ ∃ t, t ∈ tokens ∧ d_span d = span t.

Abbreviation errs := (λ d (_ : nat), token_error d).

(** ** Elementary steps *)

Lemma eof_last n t : tokens !! n = Some t → kind t = Eof ↔ S n = len.
Proof using Hw. apply (wp_eof _ Hw). Qed.

Lemma not_eof_next n t : tokens !! n = Some t → kind t ≠ Eof → S n < len.
Proof using Hw. intros Ht Hk. pose proof (lookup_lt_Some _ _ _ Ht). rewrite (eof_last n t Ht) in Hk. lia. Qed.

Lemma wp_current (Q : Token → nat → Prop) n : n < len → (∀ t, tokens !! n = Some t → Q t n) → wp (current tokens) Q errs n.
Proof. intros Hn HQ. destruct (lookup_lt_is_Some_2 tokens n Hn) as [t Ht]. unfold wp, current. rewrite Ht. by apply HQ. Qed.

Lemma wp_previous (Q : Token → nat → Prop) n : 0 < n < len → (∀ t, tokens !! pred n = Some t → Q t n) → wp (previous tokens) Q errs n.
Proof. intros Hn HQ. destruct (lookup_lt_is_Some_2 tokens (pred n)) as [t Ht]; [lia|]. unfold wp, previous. rewrite Ht. by apply HQ. Qed.

Lemma wp_bump (Q : Token → nat → Prop) n : n < len →
  (∀ t, tokens !! n = Some t → kind t = Eof → Q t n) →
  (∀ t, tokens !! n = Some t → kind t ≠ Eof → S n < len → Q t (S n)) → wp (bump tokens) Q errs n.
Proof using Hw.
  intros Hn H1 H2. destruct (lookup_lt_is_Some_2 tokens n Hn) as [t Ht]. unfold wp, bump. rewrite Ht.
  case_bool_decide; [by apply H1|]. apply H2; [done..|]. by eapply not_eof_next.
Qed.

Lemma wp_error_at {A} sp m (Q : A → nat → Prop) n : (∃ t, t ∈ tokens ∧ sp = span t) → wp (error_at file sp m) Q errs n.
Proof. intros H. by split. Qed.

Lemma wp_error {A} m (Q : A → nat → Prop) n : n < len → wp (error file tokens m) Q errs n.
Proof.
  intros Hn. unfold error. apply wp_bind, wp_current; [done|]. intros t Ht. apply wp_error_at. exists t. split; [|done].
  by eapply list_elem_of_lookup_2.
Qed.

Lemma wp_at k (Q : bool → nat → Prop) n : n < len → plain k = true →
  (∀ t, tokens !! n = Some t → kind t = k → Q true n) →
  (∀ t, tokens !! n = Some t → kind t ≠ k → Q false n) → wp (at_ tokens k) Q errs n.
Proof.
  intros Hn Hk H1 H2. unfold at_. apply wp_bind, wp_current; [done|]. intros t Ht. apply wp_ret. rewrite same_kind_plain by done.
  case_bool_decide; eauto.
Qed.

Lemma wp_eat k (Q : option Token → nat → Prop) n : n < len → plain k = true → k ≠ Eof →
  (∀ t, tokens !! n = Some t → kind t = k → S n < len → Q (Some t) (S n)) →
  (∀ t, tokens !! n = Some t → kind t ≠ k → Q None n) → wp (eat tokens k) Q errs n.
Proof using Hw.
  intros Hn Hk Hne H1 H2. unfold eat. apply wp_bind, wp_at; [done..| |].
  - intros t Ht E. apply wp_bind, wp_bump; [done|congruence|]. intros t' Ht' _ Hlt. apply wp_ret. apply H1; [done| |done]. congruence.
  - intros t Ht E. apply wp_ret. by eapply H2.
Qed.

Lemma wp_eats k (Q : bool → nat → Prop) n : n < len → plain k = true → k ≠ Eof →
  (∀ t, tokens !! n = Some t → kind t = k → S n < len → Q true (S n)) →
  (∀ t, tokens !! n = Some t → kind t ≠ k → Q false n) → wp (eats tokens k) Q errs n.
Proof using Hw. intros. unfold eats. apply wp_bind, wp_eat; [done..| |]; intros; apply wp_ret; eauto. Qed.

Lemma wp_expect k m (Q : Token → nat → Prop) n : n < len → plain k = true → k ≠ Eof →
  (∀ t, tokens !! n = Some t → kind t = k → S n < len → Q t (S n)) → wp (expect file tokens k m) Q errs n.
Proof using Hw.
  intros Hn Hk Hne H1. unfold expect. apply wp_bind, wp_at; [done..| |intros t Ht E; by apply wp_error].
  intros t Ht E. apply wp_bump; [done|congruence|]. intros t' Ht' _ Hlt. apply H1; [done| |done]. congruence.
Qed.

Lemma wp_fail_token {A} m (Q : A → nat → Prop) n i t : tokens !! i = Some t → wp (error_at file (span t) m) Q errs n.
Proof. intros Ht. apply wp_error_at. exists t. split; [|done]. by eapply list_elem_of_lookup_2. Qed.

Lemma wp_expect_ident m (Q : str * Span → nat → Prop) n : n < len →
  (∀ s t, tokens !! n = Some t → kind t = Ident s → S n < len → Q (s, span t) (S n)) → wp (expect_ident file tokens m) Q errs n.
Proof using Hw.
  intros Hn H. unfold expect_ident. apply wp_bind, wp_bump; [done| |].
  - intros t Ht ->. by eapply wp_fail_token.
  - intros t Ht _ Hlt. destruct (kind t) eqn:E; try by eapply wp_fail_token. apply wp_ret. by apply H.
Qed.

Lemma wp_expect_integer m (Q : Z * Span → nat → Prop) n : n < len →
  (∀ z t, tokens !! n = Some t → kind t = Integer z → S n < len → Q (z, span t) (S n)) → wp (expect_integer file tokens m) Q errs n.
Proof using Hw.
  intros Hn H. unfold expect_integer. apply wp_bind, wp_bump; [done| |].
  - intros t Ht ->. by eapply wp_fail_token.
  - intros t Ht _ Hlt. destruct (kind t) eqn:E; try by eapply wp_fail_token. apply wp_ret. by apply H.
Qed.

Lemma wp_expect_string m (Q : str → nat → Prop) n : n < len →
  (∀ s, S n < len → Q s (S n)) → wp (expect_string file tokens m) Q errs n.
Proof using Hw.
  intros Hn H. unfold expect_string. apply wp_bind, wp_bump; [done| |].
  - intros t Ht ->. by eapply wp_fail_token.
  - intros t Ht _ Hlt. destruct (kind t) eqn:E; try by eapply wp_fail_token. apply wp_ret. by apply H.
Qed.

(** ** Productions *)

(** A production from token [n] on consumes tokens and returns a part over them. *)
Definition gives {A} (R : nat → nat → A → Prop) (n : nat) (a : A) (n' : nat) : Prop :=
  n < n' < len ∧ ∃ i j, n ≤ i ∧ j ≤ n' ∧ R i j a.

Definition anything {A} (i j : nat) (_ : A) : Prop := True.

Lemma gives_here {A} (R : nat → nat → A → Prop) n a n' : n < n' < len → R n n' a → gives R n a n'.
Proof. intros Hn HR. split; [done|]. by exists n, n'. Qed.

Lemma wp_call {A} (R : nat → nat → A → Prop) (m : P A) (Q : A → nat → Prop) n :
  wp m (gives R n) errs n → (∀ a n' i j, n < n' < len → n ≤ i → j ≤ n' → R i j a → Q a n') → wp m Q errs n.
Proof. intros Hm HQ. eapply wp_mono; [exact Hm| |done]. intros a n' (Hn & i & j & Hi & Hj & HR). by eapply HQ. Qed.

(** One step of a production; the tokens get names of their own. *)
Ltac pstep :=
  cbn beta zeta iota;
  lazymatch goal with
  | |- wp (bind _ _) _ _ _ => apply wp_bind
  | |- wp (ret _) _ _ _ => apply wp_ret
  | |- wp (current _) _ _ _ => apply wp_current; [lia|intros ?t ?Ht]
  | |- wp (previous _) _ _ _ => apply wp_previous; [lia|intros ?t ?Ht]
  | |- wp (at_ _ _) _ _ _ => apply wp_at; [lia|done|intros ?t ?Ht ?Hk|intros ?t ?Ht ?Hk]
  | |- wp (eats _ _) _ _ _ => apply wp_eats; [lia|done|done|intros ?t ?Ht ?Hk ?Hlt|intros ?t ?Ht ?Hk]
  | |- wp (expect _ _ _ _) _ _ _ => apply wp_expect; [lia|done|done|intros ?t ?Ht ?Hk ?Hlt]
  | |- wp (expect_ident _ _ _) _ _ _ => apply wp_expect_ident; [lia|intros ?s ?t ?Ht ?Hk ?Hlt]
  | |- wp (expect_integer _ _ _) _ _ _ => apply wp_expect_integer; [lia|intros ?z ?t ?Ht ?Hk ?Hlt]
  | |- wp (expect_string _ _ _) _ _ _ => apply wp_expect_string; [lia|intros ?s ?Hlt]
  | |- wp (error_at _ _ _) _ _ _ => eapply wp_fail_token; eassumption
  | |- wp (error _ _ _) _ _ _ => apply wp_error; lia
  end.

Ltac psteps := repeat pstep.

(** The span of a node, from its first to its last token. *)
Ltac solve_run :=
  let part := first [eapply run_token; eassumption | eapply type_at_span; eassumption | eapply expr_at_span; eassumption
                    | eassumption] in
  first [part | eapply run_join; [exact Hw|part|part|lia]].

(** *** Paths *)

Lemma wp_path_tail first (Q : Path → nat → Prop) n : n < len → (∀ p n', n ≤ n' < len → Q p n') →
  wp (parse_path_tail tokens first) Q errs n.
Proof using Hw.
  intros Hn HQ. unfold parse_path_tail. assert (Hf : len - n < loop_fuel tokens) by (unfold loop_fuel; lia).
  generalize (loop_fuel tokens), [first], Hf. clear Hf. intros fuel path Hf. revert n path Hn HQ Hf.
  induction fuel as [|fuel IH]; intros n path Hn HQ Hf; [lia|]. cbn [path_loop]. psteps; [|by apply HQ].
  destruct (kind t0) eqn:E; try (apply wp_ret, HQ; lia).
  pstep. apply wp_bump; [lia|congruence|]. intros t1 Ht1 _ Hlt1. apply IH; [lia|intros; apply HQ; lia|lia].
Qed.

Lemma wp_path (Q : Path → nat → Prop) n : n < len → (∀ p n', n < n' < len → Q p n') → wp (parse_path file tokens) Q errs n.
Proof using Hw. intros Hn HQ. unfold parse_path. psteps. apply wp_path_tail; [lia|]. intros. apply HQ. lia. Qed.

(** *** Loops *)

Section Items.
Context {A : Type} (item : P A) (R : nat → nat → A → Prop) (n0 : nat).
Context (Hitem : ∀ n, n0 ≤ n → n < len → wp item (gives R n) errs n).

Lemma wp_comma_loop fuel acc i n : n0 ≤ n → n < len → in_order R i n acc → len - n < fuel →
  wp (comma_loop tokens item fuel acc) (λ l n', n < n' < len ∧ in_order R i n' l) errs n.
Proof using Hw Hitem.
  revert acc n. induction fuel as [|fuel IH]; intros acc n Hn0 Hn Ha Hf; [lia|]. cbn [comma_loop]. apply wp_bind.
  eapply wp_call; [by apply Hitem|]. intros a n' x y Hn' Hx Hy HR. pose proof (in_order_snoc _ _ _ _ _ n' _ _ Ha Hx HR Hy) as Ha'. psteps.
  - eapply wp_mono; [apply IH; [lia..|eapply in_order_weaken; [reflexivity| |exact Ha']; lia|lia]| |done]. intros l n'' [? ?]. split; [lia|done].
  - done.
Qed.

Lemma wp_comma_list close n : n0 ≤ n → n < len → plain close = true →
  wp (comma_list tokens item close) (λ l n', n ≤ n' < len ∧ in_order R n n' l) errs n.
Proof using Hw Hitem.
  intros Hn0 Hn Hc. unfold comma_list. psteps; [split; [lia|by constructor]|].
  eapply wp_mono; [apply wp_comma_loop with (i := n); [lia..|by constructor|unfold loop_fuel; lia]| |done]. intros l n' [? ?]. split; [lia|done].
Qed.

Lemma wp_trailing_loop close fuel acc i n : n0 ≤ n → n < len → plain close = true → in_order R i n acc → len - n < fuel →
  wp (trailing_loop tokens item close fuel acc) (λ l n', n < n' < len ∧ in_order R i n' l) errs n.
Proof using Hw Hitem.
  intros Hn0 Hn Hc. revert acc n Hn0 Hn. induction fuel as [|fuel IH]; intros acc n Hn0 Hn Ha Hf; [lia|]. cbn [trailing_loop]. apply wp_bind.
  eapply wp_call; [by apply Hitem|]. intros a n' x y Hn' Hx Hy HR. pose proof (in_order_snoc _ _ _ _ _ n' _ _ Ha Hx HR Hy) as Ha'. psteps.
  - split; [lia|]. eapply in_order_weaken; [reflexivity| |exact Ha']. lia.
  - eapply wp_mono; [apply IH; [lia..|eapply in_order_weaken; [reflexivity| |exact Ha']; lia|lia]| |done]. intros l n'' [? ?]. split; [lia|done].
  - done.
Qed.

Lemma wp_braced_loop m fuel acc i n : n0 ≤ n → n < len → in_order R i n acc → len - n < fuel →
  wp (braced_loop file tokens item m fuel acc) (λ l n', n ≤ n' < len ∧ (∃ t, tokens !! n' = Some t ∧ kind t = RBrace) ∧ in_order R i n' l) errs n.
Proof using Hw Hitem.
  revert acc n. induction fuel as [|fuel IH]; intros acc n Hn0 Hn Ha Hf; [lia|]. cbn [braced_loop]. psteps; [split_and!; [lia..|by eexists|done]|].
  eapply wp_call; [by apply Hitem|]. intros a n' x y Hn' Hx Hy HR. pose proof (in_order_snoc _ _ _ _ _ n' _ _ Ha Hx HR Hy) as Ha'.
  assert (Hrec : ∀ n2, n' ≤ n2 → n2 < len → wp (braced_loop file tokens item m fuel (acc ++ [a]))
    (λ l n', n ≤ n' < len ∧ (∃ t, tokens !! n' = Some t ∧ kind t = RBrace) ∧ in_order R i n' l) errs n2).
  { intros n2 H1 H2. eapply wp_mono; [apply IH; [lia..|eapply in_order_weaken; [reflexivity|exact H1|exact Ha']|lia]| |done].
    intros l n'' (? & ? & ?). split_and!; [lia..|done|done]. }
  psteps; apply Hrec; lia.
Qed.

Lemma wp_open_loop close fuel acc i n : n0 ≤ n → n < len → plain close = true → in_order R i n acc → len - n < fuel →
  wp (open_loop tokens item close fuel acc) (λ l n', n ≤ n' < len ∧ in_order R i n' l) errs n.
Proof using Hw Hitem.
  intros Hn0 Hn Hc. revert acc n Hn0 Hn. induction fuel as [|fuel IH]; intros acc n Hn0 Hn Ha Hf; [lia|]. cbn [open_loop]. psteps; [split; [lia|done]|].
  eapply wp_call; [by apply Hitem|]. intros a n' x y Hn' Hx Hy HR. pose proof (in_order_snoc _ _ _ _ _ n' _ _ Ha Hx HR Hy) as Ha'. psteps.
  - eapply wp_mono; [apply IH; [lia..|eapply in_order_weaken; [reflexivity| |exact Ha']; lia|lia]| |done]. intros l n'' [? ?]. split; [lia|done].
  - split; [lia|done].
Qed.

Lemma wp_tail_loop close fuel acc i n : n0 ≤ n → n < len → plain close = true → in_order R i n acc → len - n < fuel →
  wp (tail_loop tokens item close fuel acc) (λ l n', n ≤ n' < len ∧ in_order R i n' l) errs n.
Proof using Hw Hitem.
  intros Hn0 Hn Hc. revert acc n Hn0 Hn. induction fuel as [|fuel IH]; intros acc n Hn0 Hn Ha Hf; [lia|]. cbn [tail_loop]. psteps.
  - split; [lia|]. eapply in_order_weaken; [reflexivity| |exact Ha]. lia.
  - eapply wp_call; [apply Hitem; lia|]. intros a n' x y Hn' Hx Hy HR.
    assert (Ha' : in_order R i n' (acc ++ [a])) by (eapply in_order_snoc; [exact Ha| |exact HR|exact Hy]; lia).
    eapply wp_mono; [apply IH; [lia..|exact Ha'|lia]| |done]. intros l n'' [? ?]. split; [lia|done].
  - split; [lia|done].
Qed.
End Items.

(** *** Types *)

Lemma wp_type fuel n : n < len → len - n < fuel → wp (parse_type file tokens fuel) (gives (type_at tokens) n) errs n.
Proof using Hw.
  revert n. induction fuel as [|fuel IH]; intros n Hn Hf; [lia|]. cbn [parse_type].
  assert (Hfn : ∀ t abi n1, tokens !! n = Some t → n < n1 < len →
    wp (expect file tokens LParen "expected `(` in function pointer type" ;;*
        let* params := comma_list tokens (parse_type file tokens fuel) RParen in
        expect file tokens RParen "expected `)` in function pointer type" ;;*
        expect file tokens Arrow "expected `->` in function pointer type" ;;*
        let* result := parse_type file tokens fuel in
        ret (MkType (TFnPointer abi params result) (join (span t) (type_span result)))) (gives (type_at tokens) n) errs n1).
  { intros t abi n1 Ht Hn1. psteps. eapply wp_mono; [apply (wp_comma_list _ (type_at tokens) n1); [|lia..|done]| |done].
    { intros n2 H1 H2. apply IH; lia. }
    intros params n2 [H2 Hparams]. psteps. eapply wp_call; [apply IH; lia|]. intros result n3 i j H3 Hi Hj Hresult. psteps.
    split; [lia|]. exists n, j. split_and!; [lia..|]. constructor; [solve_run|]. simpl.
    eapply in_order_snoc; [eapply in_order_weaken; [| |exact Hparams]|..]; [lia|reflexivity| |exact Hresult|lia]. lia. }
  psteps.
  - eapply wp_call; [apply IH; lia|]. intros pointee n1 i j Hn1 Hi Hj Hp. psteps. split; [lia|]. exists n, j. split_and!; [lia..|].
    constructor; [solve_run|]. simpl. eapply in_order_one; [|exact Hp|lia]. lia.
  - eapply wp_call; [apply IH; lia|]. intros pointee n1 i j Hn1 Hi Hj Hp. psteps. split; [lia|]. exists n, j. split_and!; [lia..|].
    constructor; [solve_run|]. simpl. eapply in_order_one; [|exact Hp|lia]. lia.
  - eapply wp_call; [apply IH; lia|]. intros element n1 i j Hn1 Hi Hj Hp. psteps. apply gives_here; [lia|].
    constructor; [solve_run|]. simpl. eapply in_order_one; [|exact Hp|lia]. lia.
  - apply wp_bump; [lia| |].
    { intros t3 Ht3 E. rewrite E. cbn beta iota. by eapply wp_fail_token. }
    intros t3 Ht3 E Hlt3. destruct (match kind t3 with TString _ => _ | _ => _ end) as [abi|]; [|by eapply wp_fail_token]. psteps.
    change (bool_decide (is_Some (Some abi))) with true. pstep. by eapply Hfn; [|lia].
  - change (bool_decide (is_Some (@None Abi))) with false. pstep; [by eapply Hfn; [|lia]|]. pstep. apply wp_path; [lia|]. intros path n1 Hn1. psteps.
    apply gives_here; [lia|]. constructor; [|by constructor; lia]. replace n1 with (S (pred n1)) by lia. solve_run.
Qed.

Lemma wp_full_type (Q : TypeExpr → nat → Prop) n : n < len →
  (∀ t n' i j, n < n' < len → n ≤ i → j ≤ n' → type_at tokens i j t → Q t n') → wp (parse_type file tokens (loop_fuel tokens)) Q errs n.
Proof using Hw. intros Hn HQ. eapply wp_call; [apply wp_type; [done|unfold loop_fuel; lia]|done]. Qed.

(** *** Expressions *)

Lemma wp_struct_literal n : n < len →
  wp (looks_like_struct_literal tokens) (λ b n', n' = n ∧ (b = true → ∃ t, tokens !! n = Some t ∧ kind t = LBrace)) errs n.
Proof. intros Hn. unfold looks_like_struct_literal. psteps; [|done]. split; [done|]. intros _. by exists t. Qed.

Section Expr.
Context (expr : P Expr) (n0 : nat).
Context (Hexpr : ∀ n, n0 ≤ n → n < len → wp expr (gives (expr_at tokens) n) errs n).

Lemma wp_expr (Q : Expr → nat → Prop) n : n0 ≤ n → n < len →
  (∀ e n' i j, n < n' < len → n ≤ i → j ≤ n' → expr_at tokens i j e → Q e n') → wp expr Q errs n.
Proof using Hexpr. intros H1 H2 HQ. eapply wp_call; [by apply Hexpr|done]. Qed.

Lemma wp_field_init n : n0 ≤ n → n < len →
  wp (parse_field_init file tokens expr) (gives (λ i j p, expr_at tokens i j p.2) n) errs n.
Proof using Hw Hexpr.
  intros H1 H2. unfold parse_field_init. psteps. apply wp_expr; [lia..|]. intros e n' i j H3 Hi Hj He. psteps.
  split; [lia|]. exists i, j. split_and!; [lia..|done].
Qed.

Abbreviation operand_at := (λ i j o, in_order (expr_at tokens) i j (operand_exprs o)).

Lemma wp_asm_operand n : n0 ≤ n → n < len → wp (parse_asm_operand file tokens expr) (gives operand_at n) errs n.
Proof using Hw Hexpr.
  intros H1 H2. unfold parse_asm_operand. pstep. assert (Hrest : ∀ mode n1, tokens !! n = Some mode → n ≤ n1 → n1 < len →
    wp (expect file tokens LParen "expected register constraint" ;;*
        let* register := expect_string file tokens "assembly register must be a string literal" in
        expect file tokens RParen "expected `)` after register" ;;*
        match kind mode with
        | KIn => let* value := expr in ret (AsmIn register value)
        | KOut => let* target := expr in ret (AsmOut register target)
        | KInOut =>
            let* input := expr in
            expect file tokens Arrow "expected `->` in inout operand" ;;*
            let* output := expr in
            ret (AsmInOut register input output)
        | _ => error_at file (span mode) (Says "expected `in`, `out`, `inout`, or `options` in asm")
        end) (gives operand_at n) errs n1).
  { intros mode n1 Hmode Hn1 Hlt1. psteps. destruct (kind mode); try by eapply wp_fail_token.
    all: pstep; apply wp_expr; [lia..|]; intros e n' i j H3 Hi Hj He; psteps.
    1-2: split; [lia|]; exists i, j; split_and!; [lia..|]; eapply in_order_one; [|exact He|]; lia.
    apply wp_expr; [lia..|]. intros e' n'' i' j' H4 Hi' Hj' He'. psteps. apply gives_here; [lia|].
    eapply in_order_two; [|exact He| |exact He'|]; lia. }
  apply wp_bump; [lia| |]; intros mode Hmode; intros; apply Hrest; done || lia.
Qed.

Lemma wp_asm_loop fuel operands options i n : n0 ≤ n → n < len → in_order operand_at i n operands → len - n < fuel →
  wp (asm_loop file tokens expr fuel operands options) (λ r n', n ≤ n' < len ∧ in_order operand_at i n' r.1) errs n.
Proof using Hw Hexpr.
  revert operands options n. induction fuel as [|fuel IH]; intros operands options n H1 H2 Ho Hf; [lia|]. cbn [asm_loop].
  assert (Hrec : ∀ operands' options' n', n < n' → n' < len → in_order operand_at i n' operands' →
    wp (asm_loop file tokens expr fuel operands' options') (λ r n', n ≤ n' < len ∧ in_order operand_at i n' r.1) errs n').
  { intros. eapply wp_mono; [apply IH; [lia..|done|lia]| |done]. intros r n'' [? ?]. split; [lia|done]. }
  psteps; [|clear Hrec|split; [lia|done]].
  - eapply wp_mono; [apply (wp_comma_list _ anything n0); [|lia..|done]| |done].
    { intros n1 Hn1 Hl1. unfold parse_asm_option. psteps. apply gives_here; [lia|done]. }
    intros names n1 [Hn1 _]. psteps. apply Hrec; [lia..|]. eapply in_order_weaken; [reflexivity| |exact Ho]. lia.
  - eapply wp_call; [apply wp_asm_operand; lia|]. intros o n' x y H3 Hx Hy Ho'.
    eapply wp_mono; [apply IH; [lia..| |lia]| |done].
    + eapply in_order_snoc; [exact Ho| |exact Ho'|]; lia.
    + intros r n'' [? ?]. split; [lia|done].
Qed.

Lemma wp_asm t n : 0 < n → n0 ≤ n → n < len → tokens !! pred n = Some t →
  wp (parse_asm file tokens expr (span t)) (gives (expr_at tokens) (pred n)) errs n.
Proof using Hw Hexpr.
  intros Hn H1 H2 Ht. unfold parse_asm. psteps. eapply wp_mono; [apply wp_asm_loop with (i := n); [lia..|by constructor; lia|unfold loop_fuel; lia]| |done].
  intros [operands options] n' [Hn' Ho]. psteps. apply gives_here; [lia|]. constructor; [solve_run|simpl|by constructor; lia].
  apply in_order_bind. eapply in_order_weaken; [| |exact Ho]; simpl; lia.
Qed.

(** The kind of a primary expression after its first token. *)
Abbreviation kind_in := (λ i j k, in_order (expr_at tokens) i j (sub_exprs k) ∧ cast_type k = []).

Lemma wp_path_expr first n : n0 ≤ n → n < len →
  wp (parse_path_expr file tokens expr first) (λ k n', n ≤ n' < len ∧ kind_in n n' k) errs n.
Proof using Hw Hexpr.
  intros H1 H2. unfold parse_path_expr. pstep. apply wp_path_tail; [done..|]. intros path n1 Hn1. pstep.
  eapply wp_mono; [apply wp_struct_literal; lia| |done]. intros b n2 [-> Hb]. destruct b; [|psteps; split_and!; [lia..|by constructor; lia|done]].
  destruct (Hb eq_refl) as (t & Ht & Hk). pstep. apply wp_bump; [lia|congruence|]. intros t' Ht' Hk' Hlt. pstep.
  eapply wp_mono; [apply (wp_open_loop _ (λ i j p, expr_at tokens i j p.2) n0) with (i := S n1); [apply wp_field_init|lia..|done|by constructor|unfold loop_fuel; lia]| |done].
  intros fields n3 [Hn3 Hf]. psteps. split_and!; [lia..| |done]. simpl. apply in_order_fmap. eapply in_order_weaken; [| |exact Hf]; lia.
Qed.

Lemma wp_array n : n0 ≤ n → n < len → wp (parse_array file tokens expr) (λ k n', n ≤ n' < len ∧ kind_in n n' k) errs n.
Proof using Hw Hexpr.
  intros H1 H2. unfold parse_array. psteps.
  - apply wp_bump; [lia|congruence|]. intros t' Ht' Hk' Hlt. psteps. split_and!; [lia..|by constructor; lia|done].
  - apply wp_expr; [lia..|]. intros e n' i j H3 Hi Hj He. psteps.
    + split_and!; [lia..| |done]. simpl. eapply in_order_one; [|exact He|]; lia.
    + eapply wp_mono; [apply (wp_tail_loop _ (expr_at tokens) n0) with (i := n); [exact Hexpr|lia..|done| |unfold loop_fuel; lia]| |done].
      { eapply in_order_one; [|exact He|]; lia. }
      intros values n2 [Hn2 Hv]. psteps. split_and!; [lia..| |done]. simpl. eapply in_order_weaken; [reflexivity| |exact Hv]. lia.
Qed.

Lemma wp_spanned t k n n1 : tokens !! n = Some t → n < n1 → n1 < len →
  wp k (λ k n', n1 ≤ n' < len ∧ kind_in n n' k) errs n1 → wp (spanned tokens (span t) k) (gives (expr_at tokens) n) errs n1.
Proof using Hw.
  intros Ht Hn Hn1 Hk. unfold spanned. pstep. eapply wp_mono; [exact Hk| |done]. intros k' n2 (Hn2 & Hk' & Hc). psteps.
  apply gives_here; [lia|]. constructor; [replace n2 with (S (pred n2)) by lia; solve_run|done|rewrite Hc; constructor; lia].
Qed.

Lemma wp_primary n : n0 ≤ S n → n < len → wp (parse_primary file tokens expr) (gives (expr_at tokens) n) errs n.
Proof using Hw Hexpr.
  intros H1 H2. unfold parse_primary. pstep. apply wp_bump; [lia|intros t Ht ->; by eapply wp_fail_token|]. intros t Ht Hne Hlt.
  destruct (kind t); try (by eapply wp_fail_token);
    try (apply wp_spanned; [done|lia..|]; apply wp_ret; split_and!; [lia..|constructor; lia|done]).
  - apply wp_spanned; [done|lia..|]. eapply wp_mono; [apply wp_path_expr; lia| |done]. intros k n' (? & Hk & ?). split_and!; [lia..| |done].
    eapply in_order_weaken; [| |exact Hk]; lia.
  - by apply (wp_asm t (S n)); [lia..|].
  - pstep. apply wp_expr; [lia..|]. intros e n' i j H3 Hi Hj He. psteps. split; [lia|]. exists i, j. split_and!; [lia..|done].
  - apply wp_spanned; [done|lia..|]. eapply wp_mono; [apply wp_array; lia| |done]. intros k n' (? & Hk & ?). split_and!; [lia..| |done].
    eapply in_order_weaken; [| |exact Hk]; lia.
Qed.

Lemma wp_postfix_loop fuel e m i j n : n0 ≤ n → m ≤ i → j ≤ n → m < n → n < len → expr_at tokens i j e → len - n < fuel →
  wp (postfix_loop file tokens expr fuel e) (gives (expr_at tokens) m) errs n.
Proof using Hw Hexpr.
  revert e j n. induction fuel as [|fuel IH]; intros e j n Hn0 Hm Hj Hmn Hn He Hf; [lia|]. cbn [postfix_loop].
  pose proof (expr_at_span _ _ _ _ He) as Hsp. assert (Hsp' := Hsp). destruct Hsp' as [Hij _]. psteps.
  - eapply wp_mono; [apply (wp_comma_list _ (expr_at tokens) n0); [exact Hexpr|lia..|done]| |done]. intros args n1 [Hn1 Ha]. psteps.
    apply IH with (S n1); [lia..| |lia]. constructor; [solve_run| |by constructor; lia]. simpl.
    econstructor; [reflexivity|exact He|]. eapply in_order_weaken; [| |exact Ha]; lia.
  - apply wp_expr; [lia..|]. intros e' n' i' j' H3 Hi Hj' He'. psteps. apply IH with (S n'); [lia..| |lia].
    constructor; [solve_run| |by constructor; lia]. simpl. eapply in_order_two; [reflexivity|exact He| |exact He'|]; lia.
  - apply IH with (S (S n)); [lia..| |lia]. constructor; [solve_run| |by constructor; lia]. simpl. eapply in_order_one; [reflexivity|exact He|]. lia.
  - apply wp_full_type; [lia|]. intros ty n' i' j' H3 Hi Hj' Hty. pose proof (type_at_span _ _ _ _ Hty) as [Hij' _].
    apply IH with j'; [lia..| |lia]. constructor; [solve_run|simpl|simpl].
    + eapply in_order_one; [reflexivity|exact He|]. lia.
    + eapply in_order_one; [|exact Hty|]; lia.
  - split; [lia|]. exists i, j. split_and!; [lia..|done].
Qed.

Lemma wp_postfix n : n0 ≤ S n → n < len → wp (parse_postfix file tokens expr) (gives (expr_at tokens) n) errs n.
Proof using Hw Hexpr.
  intros H1 H2. unfold parse_postfix. pstep. eapply wp_call; [by apply wp_primary|]. intros e n' i j H3 Hi Hj He.
  eapply wp_postfix_loop; [..|exact He|unfold loop_fuel; lia]; lia.
Qed.

Lemma wp_unary_op n : n < len → wp (unary_op tokens) (λ op n', n ≤ n' < len ∧ (is_Some op → n < n') ∧ (op = None → n' = n)) errs n.
Proof using Hw. intros Hn. unfold unary_op. psteps; split_and!; try done; try lia; by intros []. Qed.

Lemma wp_unary fuel n : n0 ≤ S n → n < len → len - n < fuel → wp (parse_unary file tokens expr fuel) (gives (expr_at tokens) n) errs n.
Proof using Hw Hexpr.
  revert n. induction fuel as [|fuel IH]; intros n H1 H2 Hf; [lia|]. cbn [parse_unary]. pstep. pstep. pstep.
  eapply wp_mono; [by apply wp_unary_op| |done]. intros [op|] n1 (Hn1 & Hs & Hnone); [|rewrite Hnone by done; by apply wp_postfix].
  specialize (Hs ltac:(done)). pstep. eapply wp_call; [apply IH; lia|]. intros e n' i j H3 Hi Hj He. psteps. split; [lia|]. exists n, j.
  split_and!; [lia..|]. constructor; [solve_run| |]; simpl.
  - eapply in_order_one; [|exact He|]; lia.
  - constructor. pose proof (expr_at_span _ _ _ _ He) as [? _]. lia.
Qed.

Lemma wp_binary_loop operand min_prec fuel lhs m i j n :
  (∀ p n', n < n' → n' < len → wp (operand p) (gives (expr_at tokens) n') errs n') →
  m ≤ i → j ≤ n → m < n → n < len → expr_at tokens i j lhs → len - n < fuel →
  wp (binary_loop tokens operand min_prec fuel lhs) (gives (expr_at tokens) m) errs n.
Proof using Hw.
  revert lhs j n. induction fuel as [|fuel IH]; intros lhs j n Hop Hm Hj Hmn Hn He Hf; [lia|]. cbn [binary_loop]. unfold binary_op. psteps.
  assert (Hdone : gives (expr_at tokens) m lhs n) by (split; [lia|]; exists i, j; done).
  destruct (binary_of (kind t)) as [[op p]|] eqn:Eop; [|done]. destruct (p <? min_prec); [done|]. pstep.
  apply wp_bump; [lia|intros t' ? E; replace t' with t in E by congruence; by rewrite E in Eop|]. intros t' Ht' Hne Hlt. pstep.
  eapply wp_call; [apply Hop; lia|]. intros rhs n' i' j' H3 Hi Hj' Hr. pose proof (expr_at_span _ _ _ _ Hr) as [? _].
  apply IH with j'; [intros; apply Hop; lia|lia..| |lia]. constructor; [solve_run| |]; simpl.
  - eapply in_order_two; [reflexivity|exact He| |exact Hr|]; lia.
  - constructor. pose proof (expr_at_span _ _ _ _ He) as [? _]. lia.
Qed.

Lemma wp_binary fuel p n : n0 ≤ S n → n < len → len - n < fuel →
  wp (parse_binary file tokens expr fuel p) (gives (expr_at tokens) n) errs n.
Proof using Hw Hexpr.
  revert p n. induction fuel as [|fuel IH]; intros p n H1 H2 Hf; [lia|]. cbn [parse_binary]. pstep.
  eapply wp_call; [apply wp_unary; [done..|unfold loop_fuel; lia]|]. intros e n' i j H3 Hi Hj He.
  eapply wp_binary_loop; [|exact Hi|exact Hj|lia..|exact He|unfold loop_fuel; lia]. intros p' n2 ??. apply IH; lia.
Qed.
End Expr.

Lemma wp_assignment fuel n : n < len → len - n < fuel → wp (parse_assignment file tokens fuel) (gives (expr_at tokens) n) errs n.
Proof using Hw.
  revert n. induction fuel as [|fuel IH]; intros n Hn Hf; [lia|]. cbn [parse_assignment]. pstep.
  eapply wp_call; [apply wp_binary with (S n); [|lia|lia|unfold loop_fuel; lia]; intros; apply IH; lia|]. intros e n' i j H3 Hi Hj He. psteps.
  destruct (assign_of (kind t)) as [op|] eqn:Eop; [|split; [lia|]; by exists i, j]. pstep.
  apply wp_bump; [lia|intros t' ? E; replace t' with t in E by congruence; by rewrite E in Eop|]. intros t' Ht' Hne Hlt. pstep.
  eapply wp_call; [apply IH; lia|]. intros v n2 i' j' H4 Hi' Hj' Hv. psteps. split; [lia|]. exists i, j'. split_and!; [lia..|].
  constructor; [solve_run| |]; simpl.
  - eapply in_order_two; [reflexivity|exact He| |exact Hv|]; lia.
  - constructor. pose proof (expr_at_span _ _ _ _ He) as [? _]. pose proof (expr_at_span _ _ _ _ Hv) as [? _]. lia.
Qed.

Lemma wp_full_expr (Q : Expr → nat → Prop) n : n < len →
  (∀ e n' i j, n < n' < len → n ≤ i → j ≤ n' → expr_at tokens i j e → Q e n') → wp (parse_expr file tokens) Q errs n.
Proof using Hw. intros Hn HQ. eapply wp_call; [apply wp_assignment; [done|unfold loop_fuel; lia]|done]. Qed.

(** *** Statements *)

Definition parts_in (i j : nat) (k : StmtKind) : Prop :=
  in_order (type_at tokens) i j (stmt_types k) ∧ in_order (expr_at tokens) i j (stmt_exprs k) ∧ in_order (block_at tokens) i j (sub_blocks k).

Lemma parts_weaken i i' j j' k : i' ≤ i → j ≤ j' → parts_in i j k → parts_in i' j' k.
Proof. intros Hi Hj (H1 & H2 & H3). split_and!; by eapply in_order_weaken; [..|eassumption]. Qed.

Section Stmt.
Context (block : P Block) (n0 : nat).
Context (Hblock : ∀ n, n0 ≤ n → n < len → wp block (gives (block_at tokens) n) errs n).

Lemma wp_block_in (Q : Block → nat → Prop) n : n0 ≤ n → n < len →
  (∀ b n' i j, n < n' < len → n ≤ i → j ≤ n' → block_at tokens i j b → Q b n') → wp block Q errs n.
Proof using Hblock. intros H1 H2 HQ. eapply wp_call; [by apply Hblock|done]. Qed.

Abbreviation kind_ok := (λ n k n', n < n' < len ∧ parts_in n n' k).

Lemma wp_let n : n0 ≤ n → n < len → wp (parse_let file tokens) (kind_ok n) errs n.
Proof using Hw.
  intros H1 H2. unfold parse_let. psteps.
  all: try (apply wp_full_type; [lia|]; intros ty n1 i1 j1 H4 Hi1 Hj1 Hty; psteps).
  all: apply wp_full_expr; [lia|]; intros e n' i j H3 Hi Hj He; psteps; split; [lia|]; split_and!; simpl; try (by constructor; lia).
  all: first [eapply in_order_one; [|exact He|]; lia|eapply in_order_one; [|exact Hty|]; lia].
Qed.

Lemma wp_else n : n0 ≤ n → n < len →
  wp (parse_else file tokens block) (λ b n', n ≤ n' < len ∧ in_order (block_at tokens) n n' (option_list b)) errs n.
Proof using Hw Hblock.
  intros H1 H2. unfold parse_else. psteps.
  - apply wp_full_expr; [lia|]. intros e n1 i j H3 Hi Hj He. psteps. apply wp_block_in; [lia..|]. intros b n2 i' j' H4 Hi' Hj' Hb. psteps.
    + apply wp_block_in; [lia..|]. intros b' n3 i2 j2 H5 Hi2 Hj2 Hb'. psteps. split; [lia|]. eapply in_order_one with (a := S n) (b := n3); [lia| |lia].
      assert (Hrun : run tokens (S n) n3 (join (span t1) (span t3))) by (replace n3 with (S (pred n3)) by lia; solve_run).
      constructor; [done|]. eapply in_order_one; [reflexivity| |reflexivity]. constructor; [done|constructor; lia|..]; simpl.
      * eapply in_order_one; [|exact He|]; lia.
      * eapply in_order_two; [|exact Hb| |exact Hb'|]; lia.
    + split; [lia|]. eapply in_order_one with (a := S n) (b := n2); [lia| |lia].
      assert (Hrun : run tokens (S n) n2 (join (span t1) (span t3))) by (replace n2 with (S (pred n2)) by lia; solve_run).
      constructor; [done|]. eapply in_order_one; [reflexivity| |reflexivity]. constructor; [done|constructor; lia|..]; simpl.
      * eapply in_order_one; [|exact He|]; lia.
      * eapply in_order_one; [|exact Hb|]; lia.
  - apply wp_block_in; [lia..|]. intros b n2 i' j' H4 Hi' Hj' Hb. psteps. split; [lia|]. eapply in_order_one; [|exact Hb|]; lia.
  - split; [lia|]. constructor. lia.
Qed.

Lemma wp_if n : n0 ≤ n → n < len → wp (parse_if file tokens block) (kind_ok n) errs n.
Proof using Hw Hblock.
  intros H1 H2. unfold parse_if. pstep. apply wp_full_expr; [lia|]. intros e n1 i j H3 Hi Hj He. pstep.
  apply wp_block_in; [lia..|]. intros b n2 i' j' H4 Hi' Hj' Hb. pstep. eapply wp_mono; [apply wp_else; lia| |done].
  intros b' n3 [H5 Hb']. psteps. split; [lia|]. split_and!; simpl; [constructor; lia|eapply in_order_one; [|exact He|]; lia|].
  assert (Hall : in_order (block_at tokens) n n3 (b :: option_list b')).
  { econstructor; [|exact Hb|]; [lia|]. eapply in_order_weaken; [| |exact Hb']; lia. }
  by destruct b'.
Qed.

Lemma wp_while n : n0 ≤ n → n < len → wp (parse_while file tokens block) (kind_ok n) errs n.
Proof using Hw Hblock.
  intros H1 H2. unfold parse_while. pstep. apply wp_full_expr; [lia|]. intros e n1 i j H3 Hi Hj He. pstep.
  apply wp_block_in; [lia..|]. intros b n2 i' j' H4 Hi' Hj' Hb. psteps. split; [lia|].
  split_and!; simpl; [constructor; lia|eapply in_order_one; [|exact He|]; lia|eapply in_order_one; [|exact Hb|]; lia].
Qed.

Lemma wp_return n : n0 ≤ n → n < len → wp (parse_return file tokens) (kind_ok n) errs n.
Proof using Hw.
  intros H1 H2. unfold parse_return. psteps.
  - split; [lia|]. split_and!; simpl; constructor; lia.
  - apply wp_full_expr; [lia|]. intros e n1 i j H3 Hi Hj He. psteps. split; [lia|].
    split_and!; simpl; [constructor; lia|eapply in_order_one; [|exact He|]; lia|constructor; lia].
Qed.

Lemma wp_stmt_kind n : n0 ≤ S n → n < len → wp (parse_stmt_kind file tokens block) (kind_ok n) errs n.
Proof using Hw Hblock.
  intros H1 H2. unfold parse_stmt_kind.
  assert (Hnext : ∀ m, wp m (kind_ok (S n)) errs (S n) → wp m (kind_ok n) errs (S n)).
  { intros m Hm. eapply wp_mono; [exact Hm| |done]. intros k n' [? Hk]. split; [lia|]. eapply parts_weaken; [| |exact Hk]; lia. }
  psteps; try (apply Hnext; first [apply wp_let|apply wp_if|apply wp_while|apply wp_return]; lia).
  - apply wp_block_in; [lia..|]. intros b n2 i' j' H4 Hi' Hj' Hb. psteps. split; [lia|].
    split_and!; simpl; [constructor; lia..|eapply in_order_one; [|exact Hb|]; lia].
  - apply wp_block_in; [lia..|]. intros b n2 i' j' H4 Hi' Hj' Hb. psteps. split; [lia|].
    split_and!; simpl; [constructor; lia..|eapply in_order_one; [|exact Hb|]; lia].
  - split; [lia|]. split_and!; simpl; constructor; lia.
  - split; [lia|]. split_and!; simpl; constructor; lia.
  - apply wp_full_expr; [lia|]. intros e n1 i j H3 Hi Hj He. psteps. split; [lia|].
    split_and!; simpl; [constructor; lia|eapply in_order_one; [|exact He|]; lia|constructor; lia].
Qed.

Lemma wp_stmt n : n0 ≤ S n → n < len → wp (parse_stmt file tokens block) (gives (stmt_at tokens) n) errs n.
Proof using Hw Hblock.
  intros H1 H2. unfold parse_stmt. pstep. pstep. pstep. eapply wp_mono; [by apply wp_stmt_kind| |done]. intros k n' (Hn' & Hk1 & Hk2 & Hk3). psteps.
  apply gives_here; [lia|]. constructor; [replace n' with (S (pred n')) by lia; solve_run|done..].
Qed.

Lemma wp_block_loop sp fuel stmts i n : (∃ t, t ∈ tokens ∧ sp = span t) → n0 ≤ S n → n < len → in_order (stmt_at tokens) i n stmts →
  len - n < fuel →
  wp (block_loop file tokens block sp fuel stmts)
    (λ l n', n ≤ n' < len ∧ (∃ t, tokens !! n' = Some t ∧ kind t = RBrace) ∧ in_order (stmt_at tokens) i n' l) errs n.
Proof using Hw Hblock.
  intros Hsp. revert stmts n. induction fuel as [|fuel IH]; intros stmts n Hn0 Hn Hs Hf; [lia|]. cbn [block_loop].
  pstep. pstep; [pstep; split_and!; [lia..|by eexists|done]|]. pstep. pstep; [by apply wp_error_at|]. pstep.
  eapply wp_call; [by apply wp_stmt|]. intros s n' a b H3 Ha Hb Hst. eapply wp_mono; [apply IH; [lia..| |lia]| |done].
  - eapply in_order_snoc; [exact Hs| |exact Hst|]; lia.
  - intros l n'' (? & ? & ?). split_and!; [lia..|done|done].
Qed.
End Stmt.

Lemma wp_block fuel n : n < len → len - n < fuel → wp (parse_block file tokens fuel) (gives (block_at tokens) n) errs n.
Proof using Hw.
  revert n. induction fuel as [|fuel IH]; intros n Hn Hf; [lia|]. cbn [parse_block]. psteps.
  eapply wp_mono; [eapply (wp_block_loop _ (S n)) with (i := S n); [intros; apply IH; lia|exists t; split; [by eapply list_elem_of_lookup_2|done]|lia..|by constructor|unfold loop_fuel; lia]| |done].
  intros stmts n1 (Hn1 & (t1 & Ht1 & Hk1) & Hs). pstep. apply wp_bump; [lia|congruence|]. intros t2 Ht2 _ Hl2. psteps. apply gives_here; [lia|].
  constructor; [solve_run|]. eapply in_order_weaken; [| |exact Hs]; lia.
Qed.

Lemma wp_full_block (Q : Block → nat → Prop) n : n < len →
  (∀ b n' i j, n < n' < len → n ≤ i → j ≤ n' → block_at tokens i j b → Q b n') → wp (parse_block file tokens (loop_fuel tokens)) Q errs n.
Proof using Hw. intros Hn HQ. eapply wp_call; [apply wp_block; [done|unfold loop_fuel; lia]|done]. Qed.

(** *** Items *)

Abbreviation attr_at := (λ i j x, run tokens i j (at_span x)).

Lemma wp_attr_arg n : n < len → wp (parse_attr_arg file tokens) (gives anything n) errs n.
Proof using Hw.
  intros Hn. unfold parse_attr_arg. pstep. apply wp_bump; [lia|intros t Ht ->; by eapply wp_fail_token|]. intros t Ht Hne Hlt.
  destruct (kind t); try (by eapply wp_fail_token); apply wp_ret, gives_here; done || lia.
Qed.

Lemma wp_attributes_loop fuel attrs i n : n < len → in_order attr_at i n attrs → len - n < fuel →
  wp (attributes_loop file tokens fuel attrs) (λ l n', n ≤ n' < len ∧ in_order attr_at i n' l) errs n.
Proof using Hw.
  revert attrs n. induction fuel as [|fuel IH]; intros attrs n Hn Ha Hf; [lia|]. cbn [attributes_loop]. pstep.
  apply wp_eat; [lia|done|done| |intros; pstep; split; [lia|done]]. intros t Ht Hk Hlt.
  assert (Hrec : ∀ a n', n < n' → n' < len → run tokens n n' (at_span a) →
    wp (attributes_loop file tokens fuel (attrs ++ [a])) (λ l n', n ≤ n' < len ∧ in_order attr_at i n' l) errs n').
  { intros a n' H1 H2 Hr. eapply wp_mono; [apply IH; [done| |lia]| |done].
    - eapply in_order_snoc; [exact Ha|reflexivity|exact Hr|reflexivity].
    - intros l n'' [? ?]. split; [lia|done]. }
  psteps; [|apply Hrec; [lia..|]; simpl; solve_run].
  eapply wp_mono; [apply (wp_comma_list _ anything 0); [intros; by apply wp_attr_arg|lia..|done]| |done]. intros args n1 [Hn1 _]. psteps.
  apply Hrec; [lia..|]. simpl. solve_run.
Qed.

Lemma wp_param n : n < len → wp (parse_param file tokens) (gives (param_at tokens) n) errs n.
Proof using Hw.
  intros Hn. unfold parse_param. psteps. apply wp_full_type; [lia|]. intros ty n' i j H3 Hi Hj Hty. pose proof (type_at_span _ _ _ _ Hty) as [? _].
  psteps. split; [lia|]. exists n, j. split_and!; [lia..|]. split; simpl; [solve_run|]. eapply in_order_one; [|exact Hty|]; lia.
Qed.

Lemma wp_field_def n : n < len → wp (parse_field_def file tokens) (gives (field_at tokens) n) errs n.
Proof using Hw.
  intros Hn. unfold parse_field_def. psteps. apply wp_full_type; [lia|]. intros ty n' i j H3 Hi Hj Hty. pose proof (type_at_span _ _ _ _ Hty) as [? _].
  psteps. split; [lia|]. exists n, j. split_and!; [lia..|]. split; simpl; [solve_run|]. eapply in_order_one; [|exact Hty|]; lia.
Qed.

Lemma wp_variant n : n < len → wp (parse_variant file tokens) (gives (variant_at tokens) n) errs n.
Proof using Hw.
  intros Hn. unfold parse_variant. psteps.
  - eapply wp_mono; [apply (wp_comma_list _ (type_at tokens) 0); [|lia..|done]| |done].
    { intros n1 _ Hn1. apply wp_type; [done|unfold loop_fuel; lia]. }
    intros payload n1 [Hn1 Hp]. psteps. apply gives_here; [lia|]. split; simpl; [solve_run|]. eapply in_order_weaken; [| |exact Hp]; lia.
  - apply gives_here; [lia|]. split; simpl in *; [|constructor; lia]. solve_run.
Qed.

Lemma wp_function u abi ext n : n < len →
  wp (parse_function file tokens u abi ext) (λ f n', n < n' < len ∧ item_kind_in tokens n n' (IFunction f)) errs n.
Proof using Hw.
  intros Hn. unfold parse_function, parse_params.
  assert (Hrest : ∀ name params ty n1 m, n < n1 → n1 < len → m ≤ n1 → in_order (param_at tokens) n m params → in_order (type_at tokens) m n1 [ty] →
    wp (let* brace := (if ext then at_ tokens LBrace else ret true) in
        let* body := (if brace then let* b := parse_block file tokens (loop_fuel tokens) in ret (Some b)
                      else expect file tokens Semi "extern function declarations end with `;`" ;;* ret None) in
        ret {| f_name := name; f_unsafe := u; f_abi := abi; f_params := params; f_return_type := ty; f_body := body |})
      (λ f n', n < n' < len ∧ item_kind_in tokens n n' (IFunction f)) errs n1).
  { intros name params ty n1 m H1 H2 Hm Hp Hty. pstep. apply wp_mono with (λ (_ : bool) n', n' = n1) errs; [destruct ext; by psteps| |done].
    intros brace ? ->. destruct brace; psteps.
    - apply wp_full_block; [lia|]. intros b n' i j H3 Hi Hj Hb. psteps. split; [lia|]. exists m, n1. split_and!; [done..|]. simpl.
      eapply in_order_one; [|exact Hb|]; lia.
    - split; [lia|]. exists m, n1. split_and!; [done..|]. simpl. constructor. lia. }
  assert (Hparams : ∀ name params n1 m, n < m → m ≤ n1 → n1 < len → in_order (param_at tokens) n m params →
    wp (expect file tokens RParen "expected `)` after function parameters" ;;*
        let* arrow := eats tokens Arrow in
        let* return_type := (if arrow then parse_type file tokens (loop_fuel tokens) else synthetic_named_type tokens "void") in
        let* brace := (if ext then at_ tokens LBrace else ret true) in
        let* body := (if brace then let* b := parse_block file tokens (loop_fuel tokens) in ret (Some b)
                      else expect file tokens Semi "extern function declarations end with `;`" ;;* ret None) in
        ret {| f_name := name; f_unsafe := u; f_abi := abi; f_params := params; f_return_type := return_type; f_body := body |})
      (λ f n', n < n' < len ∧ item_kind_in tokens n n' (IFunction f)) errs n1).
  { intros name params n1 m H1 H2 H3 Hp. pstep. pstep. pstep. pstep; pstep.
    - apply wp_full_type; [lia|]. intros ty n' i j H4 Hi Hj Hty. apply (Hrest _ _ _ _ m); [lia..|exact Hp|]. eapply in_order_one; [|exact Hty|]; lia.
    - unfold synthetic_named_type. pstep. pstep. pstep. apply (Hrest _ _ _ _ m); [lia..|exact Hp|].
      eapply in_order_one with (a := n1) (b := S n1); [lia| |lia]. constructor; [by eapply run_token|constructor; lia]. }
  do 6 pstep. pstep.
  - pstep. eapply Hparams with (m := S (S n)); [lia..|constructor; lia].
  - eapply wp_mono; [apply (wp_trailing_loop _ (param_at tokens) 0) with (i := n); [intros; by apply wp_param|lia..|done|constructor; lia|unfold loop_fuel; lia]| |done].
    intros params n1 [Hn1 Hp]. eapply Hparams; [| | |exact Hp]; lia.
Qed.

Lemma wp_fields n : n < len → wp (parse_struct file tokens) (λ s n', n < n' < len ∧ item_kind_in tokens n n' (IStruct s)) errs n.
Proof using Hw.
  intros Hn. unfold parse_struct. psteps.
  eapply wp_mono; [apply (wp_braced_loop _ (field_at tokens) 0) with (i := n); [intros; by apply wp_field_def|lia..|constructor; lia|unfold loop_fuel; lia]| |done].
  intros fields n1 (Hn1 & (t1 & Ht1 & Hk1) & Hf). pstep. apply wp_bump; [lia|congruence|]. intros t2 Ht2 _ Hl2. psteps. split; [lia|]. simpl.
  eapply in_order_weaken; [| |exact Hf]; lia.
Qed.

Lemma wp_variants n : n < len → wp (parse_enum file tokens) (λ e n', n < n' < len ∧ item_kind_in tokens n n' (IEnum e)) errs n.
Proof using Hw.
  intros Hn. unfold parse_enum. psteps.
  eapply wp_mono; [apply (wp_braced_loop _ (variant_at tokens) 0) with (i := n); [intros; by apply wp_variant|lia..|constructor; lia|unfold loop_fuel; lia]| |done].
  intros variants n1 (Hn1 & (t1 & Ht1 & Hk1) & Hf). pstep. apply wp_bump; [lia|congruence|]. intros t2 Ht2 _ Hl2. psteps. split; [lia|]. simpl.
  eapply in_order_weaken; [| |exact Hf]; lia.
Qed.

Lemma wp_static n : n < len → wp (parse_static file tokens) (λ s n', n < n' < len ∧ item_kind_in tokens n n' (IStatic s)) errs n.
Proof using Hw.
  intros Hn. unfold parse_static. psteps; (apply wp_full_type; [lia|]); intros ty n1 i j H3 Hi Hj Hty; psteps;
    (apply wp_full_expr; [lia|]); intros e n2 i' j' H4 Hi' Hj' He; psteps; (split; [lia|]); exists n1; simpl.
  all: split; [eapply in_order_one; [|exact Hty|]; lia|eapply in_order_one; [|exact He|]; lia].
Qed.

Lemma wp_const n : n < len → wp (parse_const file tokens) (λ c n', n < n' < len ∧ item_kind_in tokens n n' (IConst c)) errs n.
Proof using Hw.
  intros Hn. unfold parse_const. psteps. apply wp_full_type; [lia|]. intros ty n1 i j H3 Hi Hj Hty. psteps.
  apply wp_full_expr; [lia|]. intros e n2 i' j' H4 Hi' Hj' He. psteps. split; [lia|]. exists n1. simpl.
  split; [eapply in_order_one; [|exact Hty|]; lia|eapply in_order_one; [|exact He|]; lia].
Qed.

Lemma wp_item_kind u abi ext n : n < len →
  wp (parse_item_kind file tokens u abi ext) (λ k n', n < n' < len ∧ item_kind_in tokens (S n) n' k) errs n.
Proof using Hw.
  intros Hn. unfold parse_item_kind.
  assert (Hwrap : ∀ A (m : P A) (C : A → ItemKind), wp m (λ a n', S n < n' < len ∧ item_kind_in tokens (S n) n' (C a)) errs (S n) →
    wp (bind m (λ a, ret (C a))) (λ k n', n < n' < len ∧ item_kind_in tokens (S n) n' k) errs (S n)).
  { intros A m C Hm. pstep. eapply wp_mono; [exact Hm| |done]. intros a n' [? ?]. pstep. split; [lia|done]. }
  pstep. pstep; [apply (Hwrap _ _ IFunction), wp_function; lia|]. cbn beta iota. destruct (ext || u); [pstep|].
  pstep. pstep; [apply (Hwrap _ _ IStruct), wp_fields; lia|]. pstep. pstep; [apply (Hwrap _ _ IEnum), wp_variants; lia|].
  pstep. pstep; [apply (Hwrap _ _ IStatic), wp_static; lia|]. pstep. pstep; [apply (Hwrap _ _ IConst), wp_const; lia|]. pstep.
Qed.

Lemma wp_abi n : n < len → wp (parse_abi file tokens) (λ _ n', n ≤ n' < len) errs n.
Proof using Hw.
  intros Hn. unfold parse_abi. pstep. apply wp_bump; [lia|intros t Ht ->; by eapply wp_fail_token|]. intros t Ht Hne Hlt.
  destruct (kind t); try by eapply wp_fail_token. destruct (abi_of_name s); [pstep; lia|by eapply wp_fail_token].
Qed.

Lemma item_kind_weaken i i' j k : i' ≤ i → item_kind_in tokens i j k → item_kind_in tokens i' j k.
Proof.
  intros Hi. destruct k; simpl; try (by apply in_order_weaken).
  - intros (a & b & H1 & H2). exists a, b. split; [by eapply in_order_weaken|done].
  - intros (a & H1 & H2). exists a. split; [by eapply in_order_weaken|done].
  - intros (a & H1 & H2). exists a. split; [by eapply in_order_weaken|done].
Qed.

Lemma wp_item n : n < len → wp (parse_item file tokens) (gives (item_at tokens) n) errs n.
Proof using Hw.
  intros Hn. unfold parse_item, parse_attributes. pstep.
  eapply wp_mono; [apply wp_attributes_loop with (i := n); [lia|by constructor|unfold loop_fuel; lia]| |done]. intros attrs n1 [Hn1 Ha].
  pstep. pstep. pstep. apply wp_mono with (λ (_ : bool) n', n1 ≤ n' < len) errs; [psteps; lia| |done]. intros public n2 Hn2.
  pstep. apply wp_mono with (λ (_ : bool) n', n1 ≤ n' < len) errs; [psteps; lia| |done]. intros ext n3 Hn3.
  pstep. apply wp_mono with (λ (_ : Abi) n', n1 ≤ n' < len) errs; [|intros abi n4 Hn4|done].
  { destruct ext; [|pstep; lia]. eapply wp_mono; [apply wp_abi; lia| |done]. simpl. lia. }
  pstep. apply wp_mono with (λ (_ : bool) n', n1 ≤ n' < len) errs; [psteps; lia| |done]. intros u n5 Hn5.
  pstep. eapply wp_mono; [apply wp_item_kind; lia| |done]. intros k n6 [Hn6 Hk]. psteps. split; [lia|].
  apply (item_kind_weaken _ n1) in Hk; [|lia]. destruct attrs as [|a attrs].
  - exists n1, n6. split_and!; [lia..|]. split; simpl; [replace n6 with (S (pred n6)) by lia; solve_run|]. exists n1. split; [by constructor|done].
  - inversion Ha as [|? x y ?? l Hx Hrun Hl]; subst. exists x, n6. split_and!; [lia..|]. split; simpl.
    + replace n6 with (S (pred n6)) by lia. eapply run_join; [exact Hw|exact Hrun|by eapply run_token|].
      assert (y ≤ n1) by (clear -Hl; induction Hl as [|?????? Hia [Hab _]]; lia). lia.
    + exists n1. split; [|done]. by econstructor.
Qed.

(** *** Modules *)

Abbreviation use_at := (λ i j u, run tokens i j (u_span u)).

Lemma wp_uses_loop fuel uses i n : n < len → in_order use_at i n uses → len - n < fuel →
  wp (uses_loop file tokens fuel uses) (λ l n', n ≤ n' < len ∧ in_order use_at i n' l) errs n.
Proof using Hw.
  revert uses n. induction fuel as [|fuel IH]; intros uses n Hn Hu Hf; [lia|]. cbn [uses_loop].
  assert (Hrec : ∀ u n', n < n' → n' < len → run tokens n n' (u_span u) →
    wp (uses_loop file tokens fuel (uses ++ [u])) (λ l n', n ≤ n' < len ∧ in_order use_at i n' l) errs n').
  { intros u n' H1 H2 Hr. eapply wp_mono; [apply IH; [done| |lia]| |done].
    - eapply in_order_snoc; [exact Hu|reflexivity|exact Hr|reflexivity].
    - intros l n'' [? ?]. split; [lia|done]. }
  pstep. pstep; [|pstep; split; [lia|done]]. pstep. apply wp_bump; [lia|congruence|]. intros t' Ht' _ Hlt. pstep.
  apply wp_path; [lia|]. intros path n1 Hn1. psteps; (apply Hrec; [lia..|]); simpl; solve_run.
Qed.

Lemma wp_items_loop fuel items i n : n < len → in_order (item_at tokens) i n items → len - n < fuel →
  wp (items_loop file tokens fuel items) (λ l n', n ≤ n' ∧ S n' = len ∧ in_order (item_at tokens) i n' l) errs n.
Proof using Hw.
  revert items n. induction fuel as [|fuel IH]; intros items n Hn Hi Hf; [lia|]. cbn [items_loop].
  pstep. pstep; [pstep; split_and!; [lia|by eapply eof_last|done]|]. pstep. eapply wp_call; [by apply wp_item|]. intros x n' a b H3 Ha Hb Hx.
  eapply wp_mono; [apply IH; [lia| |lia]| |done].
  - eapply in_order_snoc; [exact Hi| |exact Hx|]; lia.
  - intros l n'' (? & ? & ?). split_and!; [lia|done|done].
Qed.

Lemma wp_module : wp (parse_module file tokens) (λ m _, module_at tokens m) errs 0.
Proof using Hw.
  pose proof (wp_some _ Hw). unfold parse_module. psteps. apply wp_path; [lia|]. intros path n1 Hn1. psteps.
  eapply wp_mono; [apply wp_uses_loop with (i := 0); [lia|constructor; lia|unfold loop_fuel; lia]| |done]. intros uses n2 [Hn2 Hu]. pstep.
  eapply wp_mono; [apply wp_items_loop with (i := n2); [lia|by constructor|unfold loop_fuel; lia]| |done]. intros items n3 (Hn3 & He & Hi). psteps.
  split; simpl.
  - rewrite <-He. solve_run.
  - exists n2. split; [done|]. eapply in_order_weaken; [reflexivity| |exact Hi]. lia.
Qed.
End Facts.
