(* ===== verification/OcorePrinter.v ===== *)
(** * A printer for Ocore

    The tokens of a syntax tree, with parentheses only where the precedence of the
    operators asks for them, or around a condition that ends in a path before an empty
    block.  The parser is compared with this printer. *)

From S2P Require Import Prelude.
From S2P Require Import OcoreLexer.
From S2P Require Import OcoreAst.
From S2P Require Import OcoreParser.
From stdpp Require Import options.

#[local] Open Scope nat_scope.

(** ** Lists *)

(** Texts with a separator in between. *)
Definition sep_by (k : TokenKind) (ws : list (list TokenKind)) : list TokenKind :=
  match ws with [] => [] | w :: ws => w ++ (ws ≫= cons k) end.

Abbreviation commas := (sep_by Comma).

Definition path_tokens (p : Path) : list TokenKind := sep_by ColonColon ((λ s, [Ident s]) <$> p).

(** ** Types *)

Definition abi_name (abi : Abi) : option str :=
  match abi with
  | AbiOCore => Some (lit "ocore")
  | AbiC => Some (lit "C")
  | AbiSysV64 => Some (lit "sysv64")
  | AbiInterrupt => None
  end.

Definition extern_tokens (abi : Abi) : list TokenKind :=
  match abi_name abi with Some name => [KExtern; TString name] | None => [] end.

Fixpoint type_tokens (t : TypeExpr) : list TokenKind :=
  let '(MkType k _) := t in
  match k with
  | TNamed path => path_tokens path
  | TPointer mutable t => Star :: (if mutable then KMut else KConst) :: type_tokens t
  | TArray t n => LBracket :: type_tokens t ++ [Semi; Integer n; RBracket]
  | TFnPointer abi params result =>
      (if bool_decide (abi = AbiOCore) then [] else extern_tokens abi) ++
      KFn :: LParen :: commas (map type_tokens params) ++ RParen :: Arrow :: type_tokens result
  end.

(** ** Expressions *)

Definition binary_entry (op : BinaryOp) : TokenKind * nat :=
  match op with
  | BLogicalOr => (OrOr, 1)
  | BLogicalAnd => (AndAnd, 2)
  | BBitOr => (Pipe, 3)
  | BBitXor => (Caret, 4)
  | BBitAnd => (Amp, 5)
  | BEq => (EqEq, 6)
  | BNotEq => (NotEq, 6)
  | BLess => (Less, 7)
  | BLessEq => (LessEq, 7)
  | BGreater => (Greater, 7)
  | BGreaterEq => (GreaterEq, 7)
  | BShiftLeft => (ShiftLeft, 8)
  | BShiftRight => (ShiftRight, 8)
  | BAdd => (Plus, 9)
  | BSub => (Minus, 9)
  | BMul => (Star, 10)
  | BDiv => (Slash, 10)
  | BRem => (Percent, 10)
  end.

Definition assign_token (op : option BinaryOp) : option TokenKind :=
  match op with
  | None => Some TEq
  | Some BAdd => Some PlusEq
  | Some BSub => Some MinusEq
  | Some BMul => Some StarEq
  | Some BDiv => Some SlashEq
  | Some BRem => Some PercentEq
  | Some BBitAnd => Some AmpEq
  | Some BBitOr => Some PipeEq
  | Some BBitXor => Some CaretEq
  | Some BShiftLeft => Some ShiftLeftEq
  | Some BShiftRight => Some ShiftRightEq
  | _ => None
  end.

Definition unary_tokens (op : UnaryOp) : list TokenKind :=
  match op with
  | UNeg => [Minus]
  | UNot => [Bang]
  | UBitNot => [Tilde]
  | UDeref => [Star]
  | UAddressOf mutable => Amp :: (if mutable then [KMut] else [])
  end.

(** How tightly an expression binds: assignments, binary operators by precedence, unary
    operators, everything else. *)
Definition level (k : ExprKind) : nat :=
  match k with
  | EAssign _ _ _ => 0
  | EBinary op _ _ => (binary_entry op).2
  | EUnary _ _ => 11
  | _ => 12
  end.

Definition parens (b : bool) (w : list TokenKind) : list TokenKind := if b then LParen :: w ++ [RParen] else w.

(** The tokens of an expression that stands where only expressions of a level from [q]
    on may stand. *)
Fixpoint expr_tokens (q : nat) (e : Expr) {struct e} : list TokenKind :=
  let '(MkExpr k _) := e in
  parens (level k <? q)
    match k with
    | EInteger n => [Integer n]
    | EBool b => [if b then KTrue else KFalse]
    | EByte b => [Byte b]
    | EString s => [TString s]
    | EByteString s => [ByteString s]
    | EPath path => path_tokens path
    | EArray values => LBracket :: commas (map (expr_tokens 0) values) ++ [RBracket]
    | EArrayRepeat value n => LBracket :: expr_tokens 0 value ++ [Semi; Integer n; RBracket]
    | EStruct path fields =>
        path_tokens path ++ LBrace :: commas (map (λ '(name, e), Ident name :: Colon :: expr_tokens 0 e) fields) ++ [RBrace]
    | EUnary op e => unary_tokens op ++ expr_tokens 11 e
    | EBinary op a b =>
        let '(k, p) := binary_entry op in expr_tokens p a ++ k :: expr_tokens (S p) b
    | EAssign op a b =>
        expr_tokens 1 a ++ match assign_token op with Some k => k :: expr_tokens 0 b | None => [] end
    | ECall f args => expr_tokens 12 f ++ LParen :: commas (map (expr_tokens 0) args) ++ [RParen]
    | EField e name => expr_tokens 12 e ++ [Dot; Ident name]
    | EIndex a b => expr_tokens 12 a ++ LBracket :: expr_tokens 0 b ++ [RBracket]
    | ECast e t => expr_tokens 12 e ++ KAs :: type_tokens t
    | EAsm template operands options =>
        KAsm :: Bang :: LParen :: TString template ::
        (map (λ o, match o with
                   | AsmIn r e => KIn :: LParen :: TString r :: RParen :: expr_tokens 0 e
                   | AsmOut r e => KOut :: LParen :: TString r :: RParen :: expr_tokens 0 e
                   | AsmInOut r e1 e2 => KInOut :: LParen :: TString r :: RParen :: expr_tokens 0 e1 ++ Arrow :: expr_tokens 0 e2
                   end) operands ≫= cons Comma) ++
        match options with [] => [] | _ => Comma :: KOptions :: LParen :: commas (map (λ s, [Ident s]) options) ++ [RParen] end ++
        [RParen]
    end.

Definition init_tokens (f : str * Expr) : list TokenKind := let '(name, e) := f in Ident name :: Colon :: expr_tokens 0 e.

Definition operand_tokens (o : AsmOperand) : list TokenKind :=
  match o with
  | AsmIn r e => KIn :: LParen :: TString r :: RParen :: expr_tokens 0 e
  | AsmOut r e => KOut :: LParen :: TString r :: RParen :: expr_tokens 0 e
  | AsmInOut r e1 e2 => KInOut :: LParen :: TString r :: RParen :: expr_tokens 0 e1 ++ Arrow :: expr_tokens 0 e2
  end.

Definition options_tokens (options : list str) : list TokenKind :=
  match options with [] => [] | _ => Comma :: KOptions :: LParen :: commas (map (λ s, [Ident s]) options) ++ [RParen] end.

(** ** Statements *)

(** The last token of an expression, printed as by [expr_tokens], is the end of a path
    that could go on as a struct literal. *)
Fixpoint ends_in_path (q : nat) (e : Expr) {struct e} : bool :=
  let '(MkExpr k _) := e in
  if level k <? q then false else
  match k with
  | EPath _ => true
  | EUnary _ e => ends_in_path 11 e
  | EBinary op _ b => ends_in_path (S (binary_entry op).2) b
  | EAssign _ _ b => ends_in_path 0 b
  | _ => false
  end.

Definition block_stmts (b : Block) : list Stmt := let '(MkBlock stmts _) := b in stmts.

(** A condition is in parentheses only where its last path and the empty block that
    follows would be taken for a struct literal. *)
Definition condition_tokens (e : Expr) (b : Block) : list TokenKind :=
  expr_tokens (match block_stmts b with [] => if ends_in_path 0 e then 13 else 0 | _ => 0 end) e.

Fixpoint block_tokens (b : Block) : list TokenKind :=
  let '(MkBlock stmts _) := b in LBrace :: concat (map stmt_tokens stmts) ++ [RBrace]
with stmt_tokens (s : Stmt) : list TokenKind :=
  let '(MkStmt k _) := s in
  match k with
  | SLet mutable name ty init =>
      KLet :: (if mutable then [KMut] else []) ++ Ident name ::
      match ty with Some t => Colon :: type_tokens t | None => [] end ++ TEq :: expr_tokens 0 init ++ [Semi]
  | SExpr e => expr_tokens 0 e ++ [Semi]
  | SIf e b1 b2 =>
      KIf :: condition_tokens e b1 ++ block_tokens b1 ++ match b2 with Some b => KElse :: block_tokens b | None => [] end
  | SWhile e b => KWhile :: condition_tokens e b ++ block_tokens b
  | SLoop b => KLoop :: block_tokens b
  | SUnsafe b => KUnsafe :: block_tokens b
  | SReturn e => KReturn :: match e with Some e => expr_tokens 0 e | None => [] end ++ [Semi]
  | SBreak => [KBreak; Semi]
  | SContinue => [KContinue; Semi]
  end.

(** ** Items *)

Definition arg_token (a : AttrArg) : TokenKind :=
  match a with ArgString s => TString s | ArgInteger n => Integer n | ArgIdent s => Ident s end.

Definition attr_tokens (a : Attribute) : list TokenKind :=
  At :: Ident (at_name a) :: match at_args a with [] => [] | args => LParen :: commas (map (λ a, [arg_token a]) args) ++ [RParen] end.

Definition param_tokens (p : Param) : list TokenKind := Ident (p_name p) :: Colon :: type_tokens (p_ty p).
Definition field_tokens (f : FieldDef) : list TokenKind := Ident (fd_name f) :: Colon :: type_tokens (fd_ty f).

Definition variant_tokens (v : VariantDef) : list TokenKind :=
  Ident (v_name v) :: match v_payload v with [] => [] | ts => LParen :: commas (map type_tokens ts) ++ [RParen] end.

(** A function without a body is [extern], whatever its ABI. *)
Definition is_extern (f : Function) : bool := negb (bool_decide (f_abi f = AbiOCore)) || bool_decide (f_body f = None).

Definition function_tokens (f : Function) : list TokenKind :=
  Ident (f_name f) :: LParen :: commas (map param_tokens (f_params f)) ++ RParen :: Arrow :: type_tokens (f_return_type f) ++
  match f_body f with Some b => block_tokens b | None => [Semi] end.

Definition item_kind_tokens (k : ItemKind) : list TokenKind :=
  match k with
  | IFunction f =>
      (if is_extern f then extern_tokens (f_abi f) else []) ++ (if f_unsafe f then [KUnsafe] else []) ++ KFn :: function_tokens f
  | IStruct s => KStruct :: Ident (sd_name s) :: LBrace :: commas (map field_tokens (sd_fields s)) ++ [RBrace]
  | IEnum e => KEnum :: Ident (ed_name e) :: LBrace :: commas (map variant_tokens (ed_variants e)) ++ [RBrace]
  | IStatic s =>
      KStatic :: (if st_mutable s then [KMut] else []) ++ Ident (st_name s) :: Colon :: type_tokens (st_ty s) ++
      TEq :: expr_tokens 0 (st_init s) ++ [Semi]
  | IConst c => KConst :: Ident (cd_name c) :: Colon :: type_tokens (cd_ty c) ++ TEq :: expr_tokens 0 (cd_init c) ++ [Semi]
  end.

Definition item_tokens (i : Item) : list TokenKind :=
  (i_attrs i ≫= attr_tokens) ++ (if i_public i then [KPub] else []) ++ item_kind_tokens (i_kind i).

Definition use_tokens (u : UseDecl) : list TokenKind :=
  KUse :: path_tokens (u_path u) ++ match u_alias u with Some s => [KAs; Ident s] | None => [] end ++ [Semi].

Definition module_tokens (m : SourceModule) : list TokenKind :=
  KModule :: path_tokens (m_name m) ++ Semi :: (m_uses m ≫= use_tokens) ++ (m_items m ≫= item_tokens).

(** ** Trees that can be written

    Paths have a component, the interrupt ABI has no name in the source, and only the
    arithmetic and bit operators combine with an assignment. *)

Definition path_ok (p : Path) : bool := bool_decide (p ≠ []).
Definition abi_ok (abi : Abi) : bool := bool_decide (is_Some (abi_name abi)).

Fixpoint type_ok (t : TypeExpr) : bool :=
  let '(MkType k _) := t in
  match k with
  | TNamed path => path_ok path
  | TPointer _ t | TArray t _ => type_ok t
  | TFnPointer abi params result => abi_ok abi && forallb type_ok params && type_ok result
  end.

Fixpoint expr_ok (e : Expr) : bool :=
  let '(MkExpr k _) := e in
  match k with
  | EInteger _ | EBool _ | EByte _ | EString _ | EByteString _ => true
  | EPath path => path_ok path
  | EArray values => forallb expr_ok values
  | EArrayRepeat e _ | EUnary _ e | EField e _ => expr_ok e
  | EStruct path fields => path_ok path && forallb (λ '(_, e), expr_ok e) fields
  | EBinary _ a b | EIndex a b => expr_ok a && expr_ok b
  | EAssign op a b => bool_decide (is_Some (assign_token op)) && (expr_ok a && expr_ok b)
  | ECall f args => expr_ok f && forallb expr_ok args
  | ECast e t => expr_ok e && type_ok t
  | EAsm _ operands _ =>
      forallb (λ o, match o with AsmIn _ e | AsmOut _ e => expr_ok e | AsmInOut _ e1 e2 => expr_ok e1 && expr_ok e2 end) operands
  end.

Fixpoint block_ok (b : Block) : bool := let '(MkBlock stmts _) := b in forallb stmt_ok stmts
with stmt_ok (s : Stmt) : bool :=
  let '(MkStmt k _) := s in
  match k with
  | SLet _ _ ty e => match ty with Some t => type_ok t | None => true end && expr_ok e
  | SExpr e => expr_ok e
  | SIf e b1 b2 => expr_ok e && block_ok b1 && match b2 with Some b => block_ok b | None => true end
  | SWhile e b => expr_ok e && block_ok b
  | SLoop b | SUnsafe b => block_ok b
  | SReturn e => match e with Some e => expr_ok e | None => true end
  | SBreak | SContinue => true
  end.

Definition item_ok (i : Item) : bool :=
  match i_kind i with
  | IFunction f =>
      abi_ok (f_abi f) && forallb (type_ok ∘ p_ty) (f_params f) && type_ok (f_return_type f) &&
      match f_body f with Some b => block_ok b | None => true end
  | IStruct s => forallb (type_ok ∘ fd_ty) (sd_fields s)
  | IEnum e => forallb (forallb type_ok ∘ v_payload) (ed_variants e)
  | IStatic s => type_ok (st_ty s) && expr_ok (st_init s)
  | IConst c => type_ok (cd_ty c) && expr_ok (cd_init c)
  end.

Definition module_ok (m : SourceModule) : bool :=
  path_ok (m_name m) && forallb (path_ok ∘ u_path) (m_uses m) && forallb item_ok (m_items m).

(** ** Trees without spans *)

Definition no_span : Span := {| start := 0; end_ := 0; line := 0; column := 0 |}.

Fixpoint erase_type (t : TypeExpr) : TypeExpr :=
  let '(MkType k _) := t in
  MkType match k with
         | TNamed path => TNamed path
         | TPointer m t => TPointer m (erase_type t)
         | TArray t n => TArray (erase_type t) n
         | TFnPointer abi params result => TFnPointer abi (map erase_type params) (erase_type result)
         end no_span.

Fixpoint erase_expr (e : Expr) : Expr :=
  let '(MkExpr k _) := e in
  MkExpr match k with
         | EInteger _ | EBool _ | EByte _ | EString _ | EByteString _ | EPath _ => k
         | EArray values => EArray (map erase_expr values)
         | EArrayRepeat e n => EArrayRepeat (erase_expr e) n
         | EStruct path fields => EStruct path (map (λ '(name, e), (name, erase_expr e)) fields)
         | EUnary op e => EUnary op (erase_expr e)
         | EBinary op a b => EBinary op (erase_expr a) (erase_expr b)
         | EAssign op a b => EAssign op (erase_expr a) (erase_expr b)
         | ECall f args => ECall (erase_expr f) (map erase_expr args)
         | EField e name => EField (erase_expr e) name
         | EIndex a b => EIndex (erase_expr a) (erase_expr b)
         | ECast e t => ECast (erase_expr e) (erase_type t)
         | EAsm template operands options =>
             EAsm template
               (map (λ o, match o with
                          | AsmIn r e => AsmIn r (erase_expr e)
                          | AsmOut r e => AsmOut r (erase_expr e)
                          | AsmInOut r e1 e2 => AsmInOut r (erase_expr e1) (erase_expr e2)
                          end) operands) options
         end no_span.

Definition erase_init (f : str * Expr) : str * Expr := let '(name, e) := f in (name, erase_expr e).

Definition erase_operand (o : AsmOperand) : AsmOperand :=
  match o with
  | AsmIn r e => AsmIn r (erase_expr e)
  | AsmOut r e => AsmOut r (erase_expr e)
  | AsmInOut r e1 e2 => AsmInOut r (erase_expr e1) (erase_expr e2)
  end.

Fixpoint erase_block (b : Block) : Block := let '(MkBlock stmts _) := b in MkBlock (map erase_stmt stmts) no_span
with erase_stmt (s : Stmt) : Stmt :=
  let '(MkStmt k _) := s in
  MkStmt match k with
         | SLet m name ty e => SLet m name (erase_type <$> ty) (erase_expr e)
         | SExpr e => SExpr (erase_expr e)
         | SIf e b1 b2 => SIf (erase_expr e) (erase_block b1) match b2 with Some b => Some (erase_block b) | None => None end
         | SWhile e b => SWhile (erase_expr e) (erase_block b)
         | SLoop b => SLoop (erase_block b)
         | SUnsafe b => SUnsafe (erase_block b)
         | SReturn e => SReturn (erase_expr <$> e)
         | SBreak => SBreak
         | SContinue => SContinue
         end no_span.

Definition erase_param (p : Param) : Param := {| p_name := p_name p; p_ty := erase_type (p_ty p); p_span := no_span |}.
Definition erase_field (f : FieldDef) : FieldDef := {| fd_name := fd_name f; fd_ty := erase_type (fd_ty f); fd_span := no_span |}.
Definition erase_variant (v : VariantDef) : VariantDef :=
  {| v_name := v_name v; v_payload := map erase_type (v_payload v); v_span := no_span |}.
Definition erase_attr (a : Attribute) : Attribute := {| at_name := at_name a; at_args := at_args a; at_span := no_span |}.
Definition erase_use (u : UseDecl) : UseDecl := {| u_path := u_path u; u_alias := u_alias u; u_span := no_span |}.

Definition erase_function (f : Function) : Function :=
  {| f_name := f_name f; f_unsafe := f_unsafe f; f_abi := f_abi f; f_params := map erase_param (f_params f);
     f_return_type := erase_type (f_return_type f); f_body := erase_block <$> f_body f |}.

Definition erase_item_kind (k : ItemKind) : ItemKind :=
  match k with
  | IFunction f => IFunction (erase_function f)
  | IStruct s => IStruct {| sd_name := sd_name s; sd_fields := map erase_field (sd_fields s) |}
  | IEnum e => IEnum {| ed_name := ed_name e; ed_variants := map erase_variant (ed_variants e) |}
  | IStatic s =>
      IStatic {| st_name := st_name s; st_mutable := st_mutable s; st_ty := erase_type (st_ty s); st_init := erase_expr (st_init s) |}
  | IConst c => IConst {| cd_name := cd_name c; cd_ty := erase_type (cd_ty c); cd_init := erase_expr (cd_init c) |}
  end.

Definition erase_item (i : Item) : Item :=
  {| i_attrs := map erase_attr (i_attrs i); i_public := i_public i; i_kind := erase_item_kind (i_kind i); i_span := no_span |}.

Definition erase_module (m : SourceModule) : SourceModule :=
  {| m_name := m_name m; m_uses := map erase_use (m_uses m); m_items := map erase_item (m_items m); m_span := no_span |}.
