(* ===== verification/OcoreRun.v ===== *)
(** * Runs of the parser of Ocore on known tokens

    What the elementary steps and the loops of the parser do when the next tokens are
    known, and what it means that a production reads tokens as a tree. *)

From S2P Require Import Prelude.
From S2P Require Import OcoreLexer.
From S2P Require Import OcoreAst.
From S2P Require Import OcoreParser.
From S2P Require Import OcoreParserFacts.
From S2P Require Import OcorePrinter.
From stdpp Require Import options.

#[local] Open Scope nat_scope.

Lemma forallb_elem {A} (f : A → bool) l x : forallb f l = true → x ∈ l → f x = true.
Proof. intros H Hx. rewrite List.forallb_forall in H. apply H. by apply list_elem_of_In. Qed.

Section Steps.
Context (file : str) (tokens : list Token).

Abbreviation len := (length tokens).
Abbreviation P := (M nat (Diagnostic ParseMessage)).
Abbreviation kinds := (kind <$> tokens).

(** No error. *)
Abbreviation never := (λ (_ : Diagnostic ParseMessage) (_ : nat), False).

(** ** Elementary steps *)

Lemma head_token n k rest : drop n kinds = k :: rest →
  ∃ t, tokens !! n = Some t ∧ kind t = k ∧ n < len ∧ drop (S n) kinds = rest.
Proof.
  intros H. assert (Hk : kinds !! n = Some k) by (rewrite <-(Nat.add_0_r n), <-lookup_drop, H; done).
  apply list_lookup_fmap_Some in Hk as (t & Hk & Ht). exists t. split_and!; [done|done|by eapply lookup_lt_Some|].
  rewrite <-(Nat.add_1_r n), <-drop_drop, H. done.
Qed.

Lemma in_range n k rest : drop n kinds = k :: rest → n < len.
Proof. intros H. by destruct (head_token _ _ _ H) as (t & _ & _ & Hn & _). Qed.

Lemma in_range_app n w k rest : drop n kinds = w ++ k :: rest → n + length w < len.
Proof. intros H. apply (f_equal length) in H. rewrite length_drop, length_fmap, length_app in H. simpl in H. lia. Qed.

Lemma run_current (Q : Token → nat → Prop) n k rest : drop n kinds = k :: rest → (∀ t, kind t = k → Q t n) → wp (current tokens) Q never n.
Proof. intros H HQ. destruct (head_token _ _ _ H) as (t & Ht & Hk & _ & _). unfold wp, current. rewrite Ht. by apply HQ. Qed.

Lemma run_previous (Q : Token → nat → Prop) n k rest : drop n kinds = k :: rest → (∀ t, Q t n) → wp (previous tokens) Q never n.
Proof.
  intros H HQ. destruct (head_token _ _ _ H) as (_ & _ & _ & Hn & _). destruct (lookup_lt_is_Some_2 tokens (pred n)) as [t Ht]; [lia|].
  unfold wp, previous. rewrite Ht. apply HQ.
Qed.

Lemma run_bump (Q : Token → nat → Prop) n k rest : drop n kinds = k :: rest → k ≠ Eof →
  (∀ t, kind t = k → drop (S n) kinds = rest → Q t (S n)) → wp (bump tokens) Q never n.
Proof.
  intros H Hk HQ. destruct (head_token _ _ _ H) as (t & Ht & Hk' & _ & H'). unfold wp, bump. rewrite Ht, bool_decide_eq_false_2 by congruence.
  by apply HQ.
Qed.

Lemma run_at (Q : bool → nat → Prop) n k k' rest : drop n kinds = k :: rest → Q (same_kind k k') n → wp (at_ tokens k') Q never n.
Proof. intros H HQ. unfold at_. apply wp_bind. eapply run_current; [done|]. intros t ->. by apply wp_ret. Qed.

Lemma run_eat (Q : option Token → nat → Prop) n k rest : drop n kinds = k :: rest → plain k = true → k ≠ Eof →
  (∀ t, drop (S n) kinds = rest → Q (Some t) (S n)) → wp (eat tokens k) Q never n.
Proof.
  intros H Hp Hk HQ. unfold eat. apply wp_bind. eapply run_at; [done|]. rewrite same_kind_plain, bool_decide_eq_true_2 by done.
  apply wp_bind. eapply run_bump; [done..|]. intros t _ H'. apply wp_ret. by apply HQ.
Qed.

Lemma run_eats (Q : bool → nat → Prop) n k rest : drop n kinds = k :: rest → plain k = true → k ≠ Eof →
  (drop (S n) kinds = rest → Q true (S n)) → wp (eats tokens k) Q never n.
Proof. intros H Hp Hk HQ. unfold eats. apply wp_bind. eapply run_eat; [done..|]. intros t H'. apply wp_ret. by apply HQ. Qed.

Lemma run_eats_not (Q : bool → nat → Prop) n k k' rest : drop n kinds = k :: rest → same_kind k k' = false →
  Q false n → wp (eats tokens k') Q never n.
Proof.
  intros H Hk HQ. unfold eats, eat. apply wp_bind, wp_bind. eapply run_at; [done|]. rewrite Hk. by apply wp_ret, wp_ret.
Qed.

Lemma run_expect (Q : Token → nat → Prop) n k rest m : drop n kinds = k :: rest → plain k = true → k ≠ Eof →
  (∀ t, drop (S n) kinds = rest → Q t (S n)) → wp (expect file tokens k m) Q never n.
Proof.
  intros H Hp Hk HQ. unfold expect. apply wp_bind. eapply run_at; [done|]. rewrite same_kind_plain, bool_decide_eq_true_2 by done.
  eapply run_bump; [done..|]. intros t _ H'. by apply HQ.
Qed.

Lemma run_ident (Q : str * Span → nat → Prop) n s rest m : drop n kinds = Ident s :: rest →
  (∀ sp, drop (S n) kinds = rest → Q (s, sp) (S n)) → wp (expect_ident file tokens m) Q never n.
Proof. intros H HQ. unfold expect_ident. apply wp_bind. eapply run_bump; [done..|]. intros t -> H'. apply wp_ret. by apply HQ. Qed.

Lemma run_integer (Q : Z * Span → nat → Prop) n z rest m : drop n kinds = Integer z :: rest →
  (∀ sp, drop (S n) kinds = rest → Q (z, sp) (S n)) → wp (expect_integer file tokens m) Q never n.
Proof. intros H HQ. unfold expect_integer. apply wp_bind. eapply run_bump; [done..|]. intros t -> H'. apply wp_ret. by apply HQ. Qed.

Lemma run_string (Q : str → nat → Prop) n s rest m : drop n kinds = TString s :: rest →
  (drop (S n) kinds = rest → Q s (S n)) → wp (expect_string file tokens m) Q never n.
Proof. intros H HQ. unfold expect_string. apply wp_bind. eapply run_bump; [done..|]. intros t -> H'. apply wp_ret. by apply HQ. Qed.

End Steps.

(** A token that is not the expected one: by computation, or by what is known of it. *)
Ltac solve_miss :=
  first [ reflexivity
        | match goal with Hs : ?f ?k = true |- same_kind ?k _ = false => destruct k; first [reflexivity|discriminate Hs] end
        | match goal with Hs : same_kind ?k ?c = false |- same_kind ?k ?c = false => exact Hs end ].

(** What is left of the tokens, in normal form. *)
Ltac norm H := repeat rewrite <-app_assoc in H; cbn [app] in H.

Ltac rstep :=
  cbn beta zeta iota;
  lazymatch goal with
  | |- wp (bind _ _) _ _ _ => apply wp_bind
  | |- wp (ret _) _ _ _ => apply wp_ret
  | H : drop ?n _ = _ :: _ |- wp (current _) _ _ ?n => eapply run_current; [exact H|]; intros ?t ?Hk
  | H : drop ?n _ = _ :: _ |- wp (previous _) _ _ ?n => eapply run_previous; [exact H|]; intros ?t
  | H : drop ?n _ = _ :: _ |- wp (bump _) _ _ ?n => eapply run_bump; [exact H|done|]; clear H; intros ?t ?Hk H; norm H
  | H : drop ?n _ = _ :: _ |- wp (at_ _ ?k') _ _ ?n =>
      eapply run_at; [exact H|];
      match goal with |- context [same_kind ?k k'] =>
        first [ change (same_kind k k') with true | change (same_kind k k') with false
              | let E := fresh in assert (E : same_kind k k' = false) by solve_miss; rewrite E; clear E ] end
  | H : drop ?n _ = _ :: _ |- wp (eats _ _) _ _ ?n =>
      first [ eapply run_eats; [exact H|done|done|]; clear H; intros H; norm H
            | eapply run_eats_not; [exact H|solve_miss|] ]
  | H : drop ?n _ = _ :: _ |- wp (expect _ _ _ _) _ _ ?n => eapply run_expect; [exact H|done|done|]; clear H; intros ?t H; norm H
  | H : drop ?n _ = _ :: _ |- wp (expect_ident _ _ _) _ _ ?n => eapply run_ident; [exact H|]; clear H; intros ?sp H; norm H
  | H : drop ?n _ = _ :: _ |- wp (expect_integer _ _ _) _ _ ?n => eapply run_integer; [exact H|]; clear H; intros ?sp H; norm H
  | H : drop ?n _ = _ :: _ |- wp (expect_string _ _ _) _ _ ?n => eapply run_string; [exact H|]; clear H; intros H; norm H
  end.

Ltac rsteps := repeat rstep.

Ltac solve_len := cbn [length type_tokens init_tokens operand_tokens map sep_by]; repeat (rewrite length_app; cbn [length]); lia.

(** The kind of the last token. *)
Ltac use_kind := match goal with E : kind ?t = _ |- context [kind ?t] => rewrite E end.

(** The end of a production: its value, its length, what is left. *)
Ltac finish HQ H := apply HQ; [|solve_len|eapply in_range; exact H|exact H].


Section Productions.
Context (file : str) (tokens : list Token).

Abbreviation len := (length tokens).
Abbreviation P := (M nat (Diagnostic ParseMessage)).
Abbreviation kinds := (kind <$> tokens).

(** No error. *)
Abbreviation never := (λ (_ : Diagnostic ParseMessage) (_ : nat), False).

(** ** Productions *)

(** A production reads the tokens [w], before a token that [stop]s it, as [b], from token
    [n0] on. *)
Definition reads {A B} (n0 : nat) (item : P A) (er : A → B) (w : list TokenKind) (b : B) (stop : TokenKind → bool) : Prop :=
  ∀ n k rest (Q : A → nat → Prop), n0 ≤ n → drop n kinds = w ++ k :: rest → stop k = true →
    (∀ a n', er a = b → n' = n + length w → n' < len → drop n' kinds = k :: rest → Q a n') → wp item Q never n.

Definition starts (close : TokenKind) (w : list TokenKind) : Prop := ∃ k w', w = k :: w' ∧ same_kind k close = false.

(** *** Lists *)

Section Lists.
Context {A B : Type} (n0 : nat) (item : P A) (er : A → B) (tok : A → list TokenKind) (stop : TokenKind → bool) (close : TokenKind).
Context (Hcomma : stop Comma = true) (Hclose : stop close = true) (Hplain : plain close = true) (Hdiff : same_kind close Comma = false).

Definition item_reads (x : A) : Prop := reads n0 item er (tok x) (er x) stop ∧ starts close (tok x).

(** The result of a loop over the tokens of a list. *)
Definition list_read (l : list A) (acc : list A) (n : nat) (rest : list TokenKind) (Q : list A → nat → Prop) : Prop :=
  ∀ l' n', map er l' = map er l → n' = n + length (commas (map tok l)) → drop n' kinds = close :: rest → Q (acc ++ l') n'.

Lemma commas_one x : commas (map tok [x]) = tok x.
Proof. simpl. by rewrite app_nil_r. Qed.

Lemma commas_cons x y l : commas (map tok (x :: y :: l)) = tok x ++ Comma :: commas (map tok (y :: l)).
Proof. done. Qed.

Lemma list_read_one x a acc n n' rest Q : list_read [x] acc n rest Q → er a = er x → n' = n + length (tok x) →
  drop n' kinds = close :: rest → Q (acc ++ [a]) n'.
Proof. intros HQ Ha -> H. apply HQ; [by simpl; rewrite Ha|by rewrite commas_one|done]. Qed.

Lemma list_read_cons x y l a acc n rest Q : list_read (x :: y :: l) acc n rest Q → er a = er x →
  list_read (y :: l) (acc ++ [a]) (S (n + length (tok x))) rest Q.
Proof.
  intros HQ Ha l' n' Hl -> H. rewrite <-app_assoc. apply HQ; [|rewrite commas_cons; solve_len|done].
  change ([a] ++ l') with (a :: l'). cbn [map]. rewrite Ha, Hl. done.
Qed.

Lemma run_comma_loop l x fuel acc n rest Q : Forall item_reads (x :: l) → n0 ≤ n → len - n < fuel →
  drop n kinds = commas (map tok (x :: l)) ++ close :: rest → list_read (x :: l) acc n rest Q →
  wp (comma_loop tokens item fuel acc) Q never n.
Proof using Hcomma Hclose Hdiff.
  revert x fuel acc n. induction l as [|y l IH]; intros x [|fuel] acc n Hall Hn Hf H HQ; try lia;
    apply Forall_cons in Hall as [[Hx _] Hall]; cbn [comma_loop]; rstep.
  - rewrite commas_one in H. eapply Hx; [done..|]. intros a n1 Ha Hn1 Hl1 H1. rsteps. by eapply list_read_one.
  - rewrite commas_cons, <-app_assoc in H. eapply Hx; [done|exact H|done|]. intros a n1 Ha Hn1 Hl1 H1. rstep. rstep.
    eapply IH; [done|lia..|done|]. subst n1. by apply list_read_cons.
Qed.

Lemma run_comma_list l n rest Q : Forall item_reads l → n0 ≤ n →
  drop n kinds = commas (map tok l) ++ close :: rest → list_read l [] n rest Q →
  wp (comma_list tokens item close) Q never n.
Proof using Hcomma Hclose Hplain Hdiff.
  intros Hall Hn H HQ. unfold comma_list. destruct l as [|x l].
  - simpl in H. rstep. eapply run_at; [exact H|]. rewrite same_kind_plain, bool_decide_eq_true_2 by done. rstep. by apply (HQ []).
  - destruct (proj2 (Forall_inv Hall)) as (k & w & E & Hk). pose proof H as H'. simpl in H'. rewrite E in H'. simpl in H'.
    rstep. eapply run_at; [exact H'|]. rewrite Hk. eapply run_comma_loop; [done|done|unfold loop_fuel; lia|done..].
Qed.

Lemma run_trailing_loop l x fuel acc n rest Q : Forall item_reads (x :: l) → n0 ≤ n → len - n < fuel →
  drop n kinds = commas (map tok (x :: l)) ++ close :: rest → list_read (x :: l) acc n rest Q →
  wp (trailing_loop tokens item close fuel acc) Q never n.
Proof using Hcomma Hclose Hdiff.
  revert x fuel acc n. induction l as [|y l IH]; intros x [|fuel] acc n Hall Hn Hf H HQ; try lia;
    apply Forall_cons in Hall as [[Hx _] Hall]; cbn [trailing_loop]; rstep.
  - rewrite commas_one in H. eapply Hx; [done..|]. intros a n1 Ha Hn1 Hl1 H1. rsteps. by eapply list_read_one.
  - rewrite commas_cons, <-app_assoc in H. eapply Hx; [done|exact H|done|]. intros a n1 Ha Hn1 Hl1 H1. rstep. rstep.
    destruct (proj2 (Forall_inv Hall)) as (k & w & E & Hk). pose proof H1 as H'. simpl in H'. rewrite E in H'. simpl in H'.
    rstep. eapply run_at; [exact H'|]. rewrite Hk. eapply IH; [done|lia..|done|]. subst n1. by apply list_read_cons.
Qed.

Lemma run_open_loop l fuel acc n rest Q : Forall item_reads l → n0 ≤ n → len - n < fuel →
  drop n kinds = commas (map tok l) ++ close :: rest → list_read l acc n rest Q →
  wp (open_loop tokens item close fuel acc) Q never n.
Proof using Hcomma Hclose Hplain Hdiff.
  destruct l as [|x l].
  - intros _ _ Hf H HQ. destruct fuel as [|fuel]; [lia|]. simpl in H. cbn [open_loop]. rstep. eapply run_at; [exact H|].
    rewrite same_kind_plain, bool_decide_eq_true_2 by done. rstep. rewrite <-(app_nil_r acc). apply HQ; [done|simpl; lia|done].
  - revert x fuel acc n. induction l as [|y l IH]; intros x [|fuel] acc n Hall Hn Hf H HQ; try lia;
      apply Forall_cons in Hall as [[Hx (k & w & E & Hk)] Hall]; cbn [open_loop]; rstep;
      pose proof H as H'; simpl in H'; rewrite E in H'; simpl in H'; (eapply run_at; [exact H'|]); rewrite Hk; clear H'; rstep.
    + rewrite commas_one in H. eapply Hx; [done..|]. intros a n1 Ha Hn1 Hl1 H1. rsteps. by eapply list_read_one.
    + rewrite commas_cons, <-app_assoc in H. eapply Hx; [done|exact H|done|]. intros a n1 Ha Hn1 Hl1 H1. rstep. rstep.
      eapply IH; [done|lia..|done|]. subst n1. by apply list_read_cons.
Qed.

Lemma run_tail_loop l fuel acc n rest Q : Forall item_reads l → n0 ≤ n → len - n < fuel →
  drop n kinds = (map tok l ≫= cons Comma) ++ close :: rest →
  (∀ l' n', map er l' = map er l → n' = n + length (map tok l ≫= cons Comma) → drop n' kinds = close :: rest → Q (acc ++ l') n') →
  wp (tail_loop tokens item close fuel acc) Q never n.
Proof using Hcomma Hclose Hdiff.
  revert fuel acc n. induction l as [|x l IH]; intros [|fuel] acc n Hall Hn Hf H HQ; try lia; cbn [tail_loop].
  - simpl in H. rsteps. rewrite <-(app_nil_r acc). apply HQ; [done|simpl; lia|done].
  - apply Forall_cons in Hall as [[Hx (k & w & E & Hk)] Hall]. cbn [map] in H. rewrite bind_cons in H. norm H. rstep. rstep. rstep.
    pose proof H as H'. rewrite E in H'. simpl in H'. eapply run_at; [exact H'|]. rewrite Hk. clear H'. rstep.
    assert (Hnext : ∃ k' rest', (map tok l ≫= cons Comma) ++ close :: rest = k' :: rest' ∧ stop k' = true).
    { destruct l; simpl; eauto. }
    destruct Hnext as (k' & rest' & E' & Hk'). rewrite E' in H. eapply Hx; [lia|exact H|done|]. intros a n1 Ha Hn1 Hl1 H1. rewrite <-E' in H1.
    eapply IH; [done|lia..|done|]. intros l' n2 Hl' Hn2 H2. rewrite <-app_assoc. apply HQ; [|cbn [map]; rewrite bind_cons; solve_len|done].
    change ([a] ++ l') with (a :: l'). cbn [map]. by rewrite Ha, Hl'.
Qed.
End Lists.

Lemma run_braced_loop {A B} n0 (item : P A) (er : A → B) tok stop m l fuel acc n rest Q : stop Comma = true → stop RBrace = true →
  Forall (item_reads n0 item er tok stop RBrace) l → n0 ≤ n → len - n < fuel →
  drop n kinds = commas (map tok l) ++ RBrace :: rest → list_read er tok RBrace l acc n rest Q →
  wp (braced_loop file tokens item m fuel acc) Q never n.
Proof.
  intros Hcomma Hclose. destruct l as [|x l].
  - intros _ _ Hf H HQ. destruct fuel as [|fuel]; [lia|]. simpl in H. cbn [braced_loop]. rsteps.
    rewrite <-(app_nil_r acc). apply HQ; [done|simpl; lia|done].
  - revert x fuel acc n. induction l as [|y l IH]; intros x [|fuel] acc n Hall Hn Hf H HQ; try lia;
      apply Forall_cons in Hall as [[Hx (k & w & E & Hk)] Hall]; cbn [braced_loop]; rstep;
      pose proof H as H'; simpl in H'; rewrite E in H'; simpl in H'; (eapply run_at; [exact H'|]); rewrite Hk; clear H'; rstep.
    + rewrite commas_one in H. eapply Hx; [done|exact H|done|]. intros a n1 Ha Hn1 Hl1 H1. do 4 rstep. cbn beta iota.
      assert (len - n1 < fuel) by (destruct (tok x) eqn:E'; [done|]; simpl in Hn1; lia). destruct fuel as [|fuel]; [lia|]. cbn [braced_loop]. rsteps.
      by eapply list_read_one.
    + rewrite commas_cons, <-app_assoc in H. eapply Hx; [done|exact H|done|]. intros a n1 Ha Hn1 Hl1 H1. do 4 rstep. cbn beta iota.
      eapply IH; [done|lia..|done|]. subst n1. by apply list_read_cons.
Qed.

(** *** Paths *)

Definition ends_path (k : TokenKind) : bool := negb (same_kind k ColonColon).

Definition path_rest (p : Path) : list TokenKind := ((λ s, [Ident s]) <$> p) ≫= cons ColonColon.

Lemma path_rest_cons s p : path_rest (s :: p) = ColonColon :: Ident s :: path_rest p.
Proof. done. Qed.

Lemma run_path_tail p first n k rest (Q : Path → nat → Prop) : drop n kinds = path_rest p ++ k :: rest → ends_path k = true →
  (∀ n', n' = n + length (path_rest p) → n' < len → drop n' kinds = k :: rest → Q (first :: p) n') →
  wp (parse_path_tail tokens first) Q never n.
Proof.
  intros H Hk HQ. unfold parse_path_tail. assert (Hf : length p < loop_fuel tokens).
  { apply (f_equal length) in H. rewrite length_drop, length_fmap, length_app in H. unfold loop_fuel.
    enough (length p ≤ length (path_rest p)) by lia. clear. induction p as [|s p IH]; [done|]. rewrite path_rest_cons. simpl. lia. }
  revert Hf HQ. generalize (loop_fuel tokens) as fuel. change (first :: p) with ([first] ++ p). generalize [first] as acc. intros acc fuel Hf HQ.
  revert acc fuel n H Hf HQ. induction p as [|s p IH]; intros acc [|fuel] n H Hf HQ; simpl in Hf; try lia; cbn [path_loop].
  - simpl in H. rsteps. rewrite <-(app_nil_r acc). apply HQ; [simpl; lia|by eapply in_range|done].
  - rewrite path_rest_cons in H. cbn [app] in H. do 4 rstep. rewrite Hk0. rstep. rstep. apply IH; [done|lia|]. intros n' Hn' Hl' H'. rewrite <-app_assoc.
    apply HQ; [rewrite path_rest_cons; simpl; lia|done..].
Qed.

Lemma path_reads n0 p : path_ok p = true → reads n0 (parse_path file tokens) id (path_tokens p) p ends_path.
Proof.
  intros Hp n k rest Q Hn H Hk HQ. destruct p as [|s p]; [by apply bool_decide_eq_true in Hp|]. change (path_tokens (s :: p)) with (Ident s :: path_rest p) in *. cbn [app] in H.
  unfold parse_path. rsteps. eapply run_path_tail; [done..|]. intros n' -> Hl' H'. apply HQ; [done|simpl; lia|done..].
Qed.
End Productions.
