(* ===== verification/OcoreRoundtrip.v ===== *)
(** * The parser of Ocore reads printed trees back: types and expressions

    Every production is run on the tokens of a tree, followed by a token that can follow
    it, and returns this tree. *)

From S2P Require Import Prelude.
From S2P Require Import OcoreLexer.
From S2P Require Import OcoreAst.
From S2P Require Import OcoreParser.
From S2P Require Import OcoreParserFacts.
From S2P Require Import OcorePrinter.
From S2P Require Import OcoreRun.
From stdpp Require Import options.

#[local] Open Scope nat_scope.

Section Roundtrip.
Context (file : str) (tokens : list Token).

Abbreviation len := (length tokens).
Abbreviation P := (M nat (Diagnostic ParseMessage)).
Abbreviation kinds := (kind <$> tokens).

(** No error. *)
Abbreviation never := (λ (_ : Diagnostic ParseMessage) (_ : nat), False).

Abbreviation reads := (reads tokens).
Abbreviation item_reads := (item_reads tokens).

(** *** Types *)

Definition type_start (k : TokenKind) : bool := match k with Ident _ | Star | LBracket | KExtern | KFn => true | _ => false end.

Lemma path_starts p : path_ok p = true → ∃ s w, path_tokens p = Ident s :: w.
Proof. destruct p as [|s p]; [done|]. intros _. unfold path_tokens. simpl. eauto. Qed.

Lemma type_starts t : type_ok t = true → ∃ k w, type_tokens t = k :: w ∧ type_start k = true.
Proof.
  destruct t as [[path|m t|t n|abi params result] sp]; simpl; intros Hok; eauto.
  - destruct (path_starts path Hok) as (s & w & ->). eauto.
  - case_bool_decide; simpl; [eauto|]. unfold extern_tokens. unfold abi_ok in Hok. destruct (abi_name abi); simpl; eauto.
Qed.

Lemma abi_of_abi_name abi name : abi_name abi = Some name → abi_of_name name = Some abi.
Proof. by destruct abi; intros [= <-]. Qed.

Lemma type_reads t : type_ok t = true → ∀ n0 fuel, len - n0 < fuel →
  reads n0 (parse_type file tokens fuel) erase_type (type_tokens t) (erase_type t) ends_path.
Proof.
  induction t as [path sp|m t sp IH|t z sp IH|abi params result sp IHps IHr] using type_ind_nested; intros Hok n0 [|fuel] Hf n k rest Q Hn H Hk HQ;
    try lia; simpl in Hok; cbn [parse_type]; pose proof (in_range_app _ _ _ _ _ H) as Hlen.
  - destruct (path_starts path Hok) as (s & w & E). pose proof H as H'. simpl in H'. rewrite E in H'. cbn [app] in H'.
    do 11 rstep. change (bool_decide (is_Some (@None Abi))) with false. do 2 rstep.
    eapply path_reads; [done|reflexivity|exact H|done|]. intros p n1 Hp Hn1 Hl1 H1. clear H'. rsteps. unfold id in Hp. subst p. finish HQ H1. done.
  - simpl in H. do 4 rstep. destruct m; do 2 rstep.
    + do 3 rstep. eapply (IH Hok (S (S n))); [|reflexivity|exact H|done|]; [lia|]. intros t' n1 Ht Hn1 Hl1 H1. rsteps. finish HQ H1. simpl. by rewrite Ht.
    + do 5 rstep. eapply (IH Hok (S (S n))); [|reflexivity|exact H|done|]; [lia|]. intros t' n1 Ht Hn1 Hl1 H1. rsteps. finish HQ H1. simpl. by rewrite Ht.
  - simpl in H. norm H. do 7 rstep. eapply (IH Hok (S n)); [|reflexivity|exact H|done|]; [lia|]. intros t' n1 Ht Hn1 Hl1 H1. rsteps. finish HQ H1.
    simpl. by rewrite Ht.
  - apply andb_true_iff in Hok as [[Habi Hps]%andb_true_iff Hr]. simpl in H.
    assert (Htail : ∀ sp' n1, n < n1 → drop n1 kinds = LParen :: commas (map type_tokens params) ++ RParen :: Arrow :: type_tokens result ++ k :: rest →
      n1 + S (length (commas (map type_tokens params) ++ RParen :: Arrow :: type_tokens result)) = n + length (type_tokens (MkType (TFnPointer abi params result) sp)) →
      wp (expect file tokens LParen "expected `(` in function pointer type" ;;*
          let* params := comma_list tokens (parse_type file tokens fuel) RParen in
          expect file tokens RParen "expected `)` in function pointer type" ;;*
          expect file tokens Arrow "expected `->` in function pointer type" ;;*
          let* result := parse_type file tokens fuel in
          ret (MkType (TFnPointer abi params result) (join sp' (type_span result)))) Q never n1).
    { intros sp' n1 Hn1 H1 Hlen'. pose proof (in_range _ _ _ _ H1). rsteps. norm H1.
      eapply (run_comma_list _ (S n1) _ erase_type type_tokens ends_path RParen); [done..| | |exact H1|]; [|lia|].
      - rewrite Forall_forall in IHps |- *. intros u Hu. pose proof (forallb_elem _ _ _ Hps Hu) as Htok. split; [apply IHps; [done..|lia]|].
        destruct (type_starts u Htok) as (k' & w & -> & Hk'). exists k', w. split; [done|]. by destruct k'.
      - intros ps n2 Hps' Hn2 H2. rsteps. norm H2. eapply (IHr Hr (S n1)); [lia| |exact H2|done|]; [lia|]. intros t' n3 Ht Hn3 Hl3 H3. rsteps.
        apply HQ; [simpl; by rewrite Ht, Hps'| |done..]. rewrite <-Hlen', length_app. simpl. lia. }
    destruct (bool_decide (abi = AbiOCore)) eqn:Eabi.
    + apply bool_decide_eq_true in Eabi. subst abi. cbn [app] in H. do 11 rstep. change (bool_decide (is_Some (@None Abi))) with false. rstep. cbn beta iota.
      apply Htail; [lia|done|]. simpl. lia.
    + unfold abi_ok in Habi. unfold extern_tokens in H. destruct (abi_name abi) as [name|] eqn:Ename; [|done]. cbn [app] in H. do 11 rstep.
      match goal with E : kind _ = TString name |- _ => rewrite E end. rewrite (abi_of_abi_name _ _ Ename). do 4 rstep.
      change (bool_decide (is_Some (Some abi))) with true. rstep. cbn beta iota. apply Htail; [lia|done|]. simpl. rewrite Eabi. unfold extern_tokens. rewrite Ename. simpl. lia.
Qed.

(** ** Expressions *)

Definition primary_start (k : TokenKind) : bool :=
  match k with
  | Integer _ | KTrue | KFalse | Byte _ | TString _ | ByteString _ | Ident _ | LParen | LBracket | KAsm => true
  | _ => false
  end.

Definition expr_start (k : TokenKind) : bool :=
  match k with Minus | Bang | Tilde | Star | Amp => true | _ => primary_start k end.

(** Tokens that do not continue a path or a primary expression. *)
Definition after_primary (k : TokenKind) : bool := match k with ColonColon | LBrace => false | _ => true end.

(** Tokens that do not continue a postfix expression. *)
Definition after_postfix (k : TokenKind) : bool := match k with LParen | LBracket | Dot | KAs => false | _ => true end.

(** Tokens that continue no expression. *)
Definition closes (k : TokenKind) : bool :=
  after_postfix k && bool_decide (binary_of k = None) && bool_decide (assign_of k = None).

Definition ends_expr (k : TokenKind) : bool := after_primary k && closes k.

(** What is taken, after a path and a brace, for a struct literal. *)
Definition fields_start (rest : list TokenKind) : bool :=
  match rest with Ident _ :: Colon :: _ | RBrace :: _ => true | _ => false end.

(** What may follow a primary expression, of which [path] says that it ends in a path. *)
Definition follows (path : bool) (rest : list TokenKind) (k : TokenKind) : bool :=
  match k with ColonColon => false | LBrace => negb (path && fields_start rest) | _ => true end.

Lemma after_primary_follows path rest k : after_primary k = true → follows path rest k = true.
Proof. by destruct k. Qed.

Lemma ends_in_path_raw q k sp : q ≤ level k → ends_in_path q (MkExpr k sp) = ends_in_path 0 (MkExpr k sp).
Proof. intros Hq. simpl. by rewrite (proj2 (Nat.ltb_ge _ _) Hq). Qed.

Lemma expr_tokens_parens q k sp : expr_tokens q (MkExpr k sp) = parens (level k <? q) (expr_tokens 0 (MkExpr k sp)).
Proof. done. Qed.

Lemma expr_tokens_raw q k sp : q ≤ level k → expr_tokens q (MkExpr k sp) = expr_tokens 0 (MkExpr k sp).
Proof. intros Hq. rewrite expr_tokens_parens. by rewrite (proj2 (Nat.ltb_ge _ _) Hq). Qed.

Lemma expr_tokens_closed q k sp : level k < q → expr_tokens q (MkExpr k sp) = LParen :: expr_tokens 0 (MkExpr k sp) ++ [RParen].
Proof. intros Hq. rewrite expr_tokens_parens. by rewrite (proj2 (Nat.ltb_lt _ _) Hq). Qed.

Lemma erase_struct p fields sp : erase_expr (MkExpr (EStruct p fields) sp) = MkExpr (EStruct p (map erase_init fields)) no_span.
Proof. done. Qed.

Lemma erase_asm template operands options sp :
  erase_expr (MkExpr (EAsm template operands options) sp) = MkExpr (EAsm template (map erase_operand operands) options) no_span.
Proof. done. Qed.

Lemma level_bound k : level k ≤ 12.
Proof. destruct k as [| | | | | | | | | |[]| | | | | |]; simpl; lia. Qed.

Lemma binary_of_entry op : let '(k, p) := binary_entry op in binary_of k = Some (op, p) ∧ 1 ≤ p ≤ 10.
Proof. destruct op; simpl; split; done || lia. Qed.

Lemma assign_of_token op k : assign_token op = Some k → assign_of k = Some op.
Proof. by destruct op as [[]|]; intros [= <-]. Qed.

Lemma expr_starts e q : expr_ok e = true → ∃ k w, expr_tokens q e = k :: w ∧ expr_start k = true ∧ (11 < q → primary_start k = true).
Proof.
  revert q. induction e as [k sp IH] using expr_ind_nested. intros q Hok. rewrite expr_tokens_parens. unfold parens.
  destruct (level k <? q) eqn:Hq; [by eexists _, _|]. apply Nat.ltb_ge in Hq.
  destruct k as [n|b|b|s|s|p|values|v n|p fields|op e|op a b|op a b|f args|e name|a b|e t|tpl operands opts];
    simpl in Hok, Hq, IH; try (by eexists _, _); try (simpl; by eexists _, _).
  - destruct b; by eexists _, _.
  - destruct (path_starts p Hok) as (s & w & E). simpl. rewrite E. by eexists _, _.
  - apply andb_true_iff in Hok as [Hp _]. destruct (path_starts p Hp) as (s & w & E). simpl. rewrite E. by eexists _, _.
  - simpl. destruct op; (eexists _, _; split; [done|]; split; [done|]; intros Hlt; exfalso; lia).
  - apply Forall_cons in IH as [IH _]. apply andb_true_iff in Hok as [Ha _]. pose proof (binary_of_entry op). cbn [expr_tokens parens Nat.ltb Nat.leb].
    destruct (binary_entry op) as [k p]. simpl in Hq. destruct (IH p Ha) as (k' & w & E & Hk' & _).
    replace (level (EBinary op a b) <? 0) with false by done. simpl. rewrite E. eexists _, _. split_and!; [done|done|intros; exfalso; lia].
  - apply Forall_cons in IH as [IH _]. apply andb_true_iff in Hok as [_ [Ha _]%andb_true_iff]. destruct (IH 1 Ha) as (k' & w & E & Hk' & _).
    simpl. rewrite E. eexists _, _. split_and!; [done|done|intros; exfalso; lia].
  - apply Forall_cons in IH as [IH _]. apply andb_true_iff in Hok as [Hf _]. destruct (IH 12 Hf) as (k' & w & E & Hk' & H'). simpl. rewrite E.
    eexists _, _. split_and!; [done|done|]. intros _. apply H'. lia.
  - apply Forall_cons in IH as [IH _]. destruct (IH 12 Hok) as (k' & w & E & Hk' & H'). simpl. rewrite E.
    eexists _, _. split_and!; [done|done|]. intros _. apply H'. lia.
  - apply Forall_cons in IH as [IH _]. apply andb_true_iff in Hok as [Hf _]. destruct (IH 12 Hf) as (k' & w & E & Hk' & H'). simpl. rewrite E.
    eexists _, _. split_and!; [done|done|]. intros _. apply H'. lia.
  - apply Forall_cons in IH as [IH _]. apply andb_true_iff in Hok as [Hf _]. destruct (IH 12 Hf) as (k' & w & E & Hk' & H'). simpl. rewrite E.
    eexists _, _. split_and!; [done|done|]. intros _. apply H'. lia.
Qed.

(** What the parser makes of an expression as a whole. *)
Definition whole (e : Expr) : Prop :=
  ∀ n0 fuel, len - n0 < fuel → reads n0 (parse_assignment file tokens fuel) erase_expr (expr_tokens 0 e) (erase_expr e) ends_expr.

(** The same before everything that does not continue it, the block after a condition
    included. *)
Definition condition (e : Expr) : Prop :=
  ∀ n0 fuel n k rest (Q : Expr → nat → Prop), len - n0 < fuel → n0 ≤ n → drop n kinds = expr_tokens 0 e ++ k :: rest →
    follows (ends_in_path 0 e) rest k = true → closes k = true →
    (∀ e' n', erase_expr e' = erase_expr e → n' = n + length (expr_tokens 0 e) → n' < len → drop n' kinds = k :: rest → Q e' n') →
    wp (parse_assignment file tokens fuel) Q never n.

Lemma condition_whole e : condition e → whole e.
Proof.
  intros He n0 fuel Hf n k rest Q Hn H Hk HQ. apply andb_true_iff in Hk as [Hk Hk2].
  eapply (He n0); [done|done|exact H|by apply after_primary_follows|done|done].
Qed.

Section Inside.
(** Expressions inside of an expression that starts at [n0] or later. *)
Context (fuel n0 : nat) (Hfuel : len - n0 ≤ fuel) (Hn0 : n0 < len).

Abbreviation expr := (parse_assignment file tokens fuel).

Lemma whole_reads e : whole e → reads (S n0) expr erase_expr (expr_tokens 0 e) (erase_expr e) ends_expr.
Proof using Hfuel Hn0. intros He. apply He. lia. Qed.

Lemma whole_item e close : whole e → expr_ok e = true → expr_start close = false →
  item_reads (S n0) expr erase_expr (expr_tokens 0) ends_expr close e.
Proof using Hfuel Hn0.
  intros He Hok Hc. split; [by apply whole_reads|]. destruct (expr_starts e 0 Hok) as (k & w & -> & Hk & _). exists k, w. split; [done|].
  destruct k, close; done.
Qed.

(** *** Primary expressions *)

Definition primary (stop : list TokenKind → TokenKind → bool) (w : list TokenKind) (e : Expr) : Prop :=
  ∀ n k rest (Q : Expr → nat → Prop), n0 ≤ n → drop n kinds = w ++ k :: rest → stop rest k = true →
    (∀ e' n', erase_expr e' = erase_expr e → n' = n + length w → n' < len → drop n' kinds = k :: rest → Q e' n') →
    wp (parse_primary file tokens expr) Q never n.

Lemma primary_atom k w sp : match k with
    | EInteger n => w = [Integer n] | EBool b => w = [if b then KTrue else KFalse] | EByte b => w = [Byte b]
    | EString s => w = [TString s] | EByteString s => w = [ByteString s] | _ => False
    end → primary (follows false) w (MkExpr k sp).
Proof using Hfuel Hn0.
  intros Hk n k' rest Q Hn H Hk' HQ. unfold parse_primary, spanned. destruct k; try done; subst w; cbn [app] in H; try (destruct b; cbn [app] in H).
  all: rstep; rstep; use_kind; rsteps; finish HQ H; done.
Qed.

(** A path is not a struct literal if what follows does not look like its fields. *)
Lemma run_looks n k rest (Q : bool → nat → Prop) : drop n kinds = k :: rest → follows true rest k = true → Q false n →
  wp (looks_like_struct_literal tokens) Q never n.
Proof using Hfuel Hn0.
  intros H Hk HQ. unfold looks_like_struct_literal. rstep. eapply run_at; [exact H|].
  destruct (same_kind k LBrace) eqn:E; [|by apply wp_ret]. destruct k; try discriminate E. simpl in Hk.
  apply negb_true_iff in Hk. assert (Hl : ∀ i, kind <$> tokens !! (n + S i) = rest !! i).
  { intros i. by rewrite <-list_lookup_fmap, <-lookup_drop, H. }
  unfold wp. cbn beta. rewrite (Hl 0), (Hl 1). destruct rest as [|[] [|[]]]; done.
Qed.

Lemma primary_path p sp : path_ok p = true → primary (follows true) (path_tokens p) (MkExpr (EPath p) sp).
Proof using Hfuel Hn0.
  intros Hp n k rest Q Hn H Hk HQ. destruct p as [|s p]; [done|]. change (path_tokens (s :: p)) with (Ident s :: path_rest p) in *. cbn [app] in H.
  unfold parse_primary, spanned, parse_path_expr. rstep. rstep. use_kind. do 2 rstep. eapply run_path_tail; [exact H|by destruct k|].
  intros n1 Hn1 Hl1 H1. rstep. eapply run_looks; [exact H1|exact Hk|]. rsteps. finish HQ H1. done.
Qed.

Lemma init_item f close : whole f.2 → expr_ok f.2 = true → same_kind (Ident f.1) close = false →
  item_reads (S n0) (parse_field_init file tokens expr) erase_init init_tokens ends_expr close f.
Proof using Hfuel Hn0.
  destruct f as [name e]. intros He Hok Hc. split; [|by eexists _, _]. intros n k rest Q Hn H Hk HQ. cbn [init_tokens app] in H.
  unfold parse_field_init. do 5 rstep. eapply (whole_reads e He); [|exact H|done|]; [lia|]. intros e' n1 He' Hn1 Hl1 H1. rsteps.
  finish HQ H1. simpl in *. by rewrite He'.
Qed.

Lemma primary_struct p fields sp : path_ok p = true → Forall (λ f, whole f.2 ∧ expr_ok f.2 = true) fields →
  primary (follows false) (expr_tokens 0 (MkExpr (EStruct p fields) sp)) (MkExpr (EStruct p fields) sp).
Proof using Hfuel Hn0.
  intros Hp Hf n k rest Q Hn H Hk HQ. destruct p as [|s p]; [done|].
  change (expr_tokens 0 _) with ((Ident s :: path_rest p) ++ LBrace :: commas (map init_tokens fields) ++ [RBrace]) in *. norm H.
  unfold parse_primary, spanned, parse_path_expr. rstep. rstep. use_kind. do 2 rstep. eapply run_path_tail; [exact H|done|].
  intros n1 Hn1 Hl1 H1. unfold looks_like_struct_literal. do 3 rstep.
  destruct (head_token _ _ _ _ H1) as (t1 & _ & _ & _ & H2).
  assert (Hlook : match kind <$> tokens !! (n1 + 1), kind <$> tokens !! (n1 + 2) with
    | Some (Ident _), Some Colon => true | Some RBrace, _ => true | _, _ => false end = true).
  { rewrite <-!list_lookup_fmap, <-!(lookup_drop kinds n1), H1. destruct fields as [|[x e] fields]; done. }
  cbn beta iota. unfold wp at 1. rewrite Hlook. clear H2. cbn beta iota. rstep. rstep. rstep.
  eapply (run_open_loop _ (S n0) _ erase_init init_tokens ends_expr RBrace); [done..| | | |exact H1|]; [|lia|unfold loop_fuel; lia|].
  - rewrite Forall_forall in Hf |- *. intros f Hin. destruct (Hf f Hin). by apply init_item.
  - intros fields' n2 Hfs Hn2 H2. rsteps. finish HQ H2. rewrite !erase_struct. cbn [app]. by rewrite Hfs.
Qed.

Lemma primary_array values sp : Forall (λ e, whole e ∧ expr_ok e = true) values →
  primary (follows false) (expr_tokens 0 (MkExpr (EArray values) sp)) (MkExpr (EArray values) sp).
Proof using Hfuel Hn0.
  intros Hv n k rest Q Hn H Hk HQ. change (expr_tokens 0 _) with (LBracket :: commas (map (expr_tokens 0) values) ++ [RBracket]) in *. norm H.
  unfold parse_primary, spanned, parse_array. rstep. rstep. use_kind. destruct values as [|v values].
  - cbn [map sep_by app] in H. rsteps. finish HQ H. done.
  - apply Forall_cons in Hv as [[Hwhole Hok] Hv]. cbn [map sep_by] in H. norm H. destruct (expr_starts v 0 Hok) as (k1 & w1 & E & Hk1 & _).
    do 2 rstep. pose proof H as H'. rewrite E in H'. cbn [app] in H'. do 2 rstep. clear H'.
    assert (Hnext : ∃ k' rest', (map (expr_tokens 0) values ≫= cons Comma) ++ RBracket :: k :: rest = k' :: rest' ∧ ends_expr k' = true ∧ same_kind k' Semi = false).
    { destruct values; simpl; eauto. }
    destruct Hnext as (k' & rest' & E' & Hk' & Hsemi). rewrite E' in H. eapply (whole_reads v Hwhole); [|exact H|done|]; [lia|].
    intros e' n1 He' Hn1 Hl1 H1. rstep. rstep. rstep. rewrite <-E' in H1.
    eapply (run_tail_loop _ (S n0) _ erase_expr (expr_tokens 0) ends_expr RBracket); [done..| | | |exact H1|]; [|lia|unfold loop_fuel; lia|].
    + rewrite Forall_forall in Hv |- *. intros e Hin. destruct (Hv e Hin). by apply whole_item.
    + intros values' n2 Hvs Hn2 H2. rsteps. apply HQ; [|cbn [map sep_by]; solve_len|by eapply in_range|exact H2]. cbn [erase_expr map app]. by rewrite He', Hvs.
Qed.

Lemma primary_repeat v z sp : whole v → expr_ok v = true →
  primary (follows false) (expr_tokens 0 (MkExpr (EArrayRepeat v z) sp)) (MkExpr (EArrayRepeat v z) sp).
Proof using Hfuel Hn0.
  intros Hv Hok n k rest Q Hn H Hk HQ. change (expr_tokens 0 _) with (LBracket :: expr_tokens 0 v ++ [Semi; Integer z; RBracket]) in *. norm H.
  destruct (expr_starts v 0 Hok) as (k1 & w1 & E & Hk1 & _). unfold parse_primary, spanned, parse_array. rstep. rstep. use_kind. do 2 rstep.
  pose proof H as H'. rewrite E in H'. cbn [app] in H'. do 2 rstep. clear H'. eapply (whole_reads v Hv); [|exact H|done|]; [lia|].
  intros e' n1 He' Hn1 Hl1 H1. rsteps. finish HQ H1. cbn [erase_expr]. by rewrite He'.
Qed.

Lemma primary_parens e : whole e → primary (λ _ _, true) (LParen :: expr_tokens 0 e ++ [RParen]) e.
Proof using Hfuel Hn0.
  intros He n k rest Q Hn H Hk HQ. norm H. unfold parse_primary. rstep. rstep. use_kind. rstep. eapply (whole_reads e He); [|exact H|done|]; [lia|].
  intros e' n1 He' Hn1 Hl1 H1. rsteps. finish HQ H1. done.
Qed.

(** *** Assembly *)

Lemma operand_item o : Forall whole (operand_exprs o) →
  item_reads (S n0) (parse_asm_operand file tokens expr) erase_operand operand_tokens ends_expr KOptions o.
Proof using Hfuel Hn0.
  intros Ho. split; [|destruct o; by eexists _, _]. intros n k rest Q Hn H Hk HQ. unfold parse_asm_operand.
  destruct o as [r e|r e|r e1 e2]; cbn [operand_tokens app] in H; norm H; do 8 rstep; use_kind; rstep; simpl in Ho; apply Forall_cons in Ho as [He Ho].
  - eapply (whole_reads e He); [|exact H|done|]; [lia|]. intros e' n1 He' Hn1 Hl1 H1. rsteps. finish HQ H1. simpl. by rewrite He'.
  - eapply (whole_reads e He); [|exact H|done|]; [lia|]. intros e' n1 He' Hn1 Hl1 H1. rsteps. finish HQ H1. simpl. by rewrite He'.
  - eapply (whole_reads e1 He); [|exact H|done|]; [lia|]. intros e' n1 He' Hn1 Hl1 H1. do 3 rstep. apply Forall_cons in Ho as [He2 _].
    eapply (whole_reads e2 He2); [|exact H1|done|]; [lia|]. intros e'' n2 He'' Hn2 Hl2 H2. rsteps. finish HQ H2. simpl. by rewrite He', He''.
Qed.

Lemma option_item name close : same_kind (Ident name) close = false →
  item_reads (S n0) (parse_asm_option file tokens) id (λ s, [Ident s]) (λ _, true) close name.
Proof using Hfuel Hn0.
  intros Hc. split; [|by eexists _, _]. intros n k rest Q Hn H Hk HQ. cbn [app] in H. unfold parse_asm_option. rsteps. finish HQ H. done.
Qed.

Lemma run_asm_options opts f acc n rest (Q : list AsmOperand * list str → nat → Prop) : S n0 ≤ n → len - n < f →
  drop n kinds = options_tokens opts ++ RParen :: rest →
  (∀ n', n' = n + length (options_tokens opts) → drop n' kinds = RParen :: rest → Q (acc, opts) n') →
  wp (asm_loop file tokens expr f acc []) Q never n.
Proof using Hfuel Hn0.
  intros Hn Hf H HQ. destruct f as [|f]; [lia|]. cbn [asm_loop]. destruct opts as [|o opts].
  - cbn [options_tokens app] in H. rsteps. apply HQ; [simpl; lia|done].
  - pose proof (in_range _ _ _ _ H) as Hlt. unfold options_tokens in H. norm H. do 7 rstep.
    eapply (run_comma_list _ (S n0) _ id (λ s, [Ident s]) (λ _, true) RParen); [done..| | |exact H|]; [|lia|].
    + apply Forall_forall. intros name _. by apply option_item.
    + intros names n1 Hnames Hn1 H1. rewrite !map_id in Hnames. subst names. do 2 rstep. destruct f as [|f]; [lia|]. cbn [asm_loop]. rsteps.
      apply HQ; [|done]. unfold options_tokens. cbn [length]. rewrite length_app. cbn [length]. lia.
Qed.

Lemma run_asm_loop operands opts f acc n rest (Q : list AsmOperand * list str → nat → Prop) :
  Forall whole (operands ≫= operand_exprs) → S n0 ≤ n → len - n < f →
  drop n kinds = (map operand_tokens operands ≫= cons Comma) ++ options_tokens opts ++ RParen :: rest →
  (∀ operands' n', map erase_operand operands' = map erase_operand operands →
     n' = n + length (map operand_tokens operands ≫= cons Comma) + length (options_tokens opts) → drop n' kinds = RParen :: rest →
     Q (acc ++ operands', opts) n') →
  wp (asm_loop file tokens expr f acc []) Q never n.
Proof using Hfuel Hn0.
  revert f acc n. induction operands as [|o operands IH]; intros f acc n Ho Hn Hf H HQ.
  - simpl in H. eapply run_asm_options; [done|done|exact H|]. intros n' Hn' H'. rewrite <-(app_nil_r acc). apply HQ; [done|simpl; lia|done].
  - destruct f as [|f]; [lia|]. cbn [asm_loop map] in *. rewrite bind_cons in H. norm H. rewrite bind_cons in Ho. apply Forall_app in Ho as [Ho Hos].
    pose proof (in_range _ _ _ _ H) as Hlt. destruct (operand_item o Ho) as [Hread (k & w & E & Hk)]. do 2 rstep. rstep. pose proof H as H'. rewrite E in H'. cbn [app] in H'. rstep.
    clear H'. rstep.
    assert (Hnext : ∃ k' rest', (map operand_tokens operands ≫= cons Comma) ++ options_tokens opts ++ RParen :: rest = k' :: rest' ∧ ends_expr k' = true).
    { destruct operands, opts; simpl; eauto. }
    destruct Hnext as (k' & rest' & E' & Hk'). rewrite E' in H. eapply Hread; [lia|exact H|done|]. intros o' n1 Ho' Hn1 Hl1 H1. rewrite <-E' in H1.
    eapply IH; [done|lia..|exact H1|]. intros operands' n2 Hos' Hn2 H2. rewrite <-app_assoc. apply HQ; [|rewrite bind_cons; solve_len|done].
    cbn [app map]. by rewrite Ho', Hos'.
Qed.

Lemma primary_asm template operands opts sp : Forall whole (operands ≫= operand_exprs) →
  primary (follows false) (expr_tokens 0 (MkExpr (EAsm template operands opts) sp)) (MkExpr (EAsm template operands opts) sp).
Proof using Hfuel Hn0.
  intros Ho n k rest Q Hn H Hk HQ.
  change (expr_tokens 0 _) with (KAsm :: Bang :: LParen :: TString template :: (map operand_tokens operands ≫= cons Comma) ++ options_tokens opts ++ [RParen]) in *.
  norm H. unfold parse_primary, parse_asm. rstep. rstep. use_kind. do 7 rstep.
  eapply run_asm_loop; [done| | |exact H|]; [lia|unfold loop_fuel; lia|]. intros operands' n1 Hos Hn1 H1. rsteps. finish HQ H1.
  rewrite !erase_asm. cbn [app]. by rewrite Hos.
Qed.

(** *** Postfix operators *)

(** After the tokens [w] the loop over the postfix operators goes on, with all but [c] of
    its turns. *)
Definition postfix (stop : list TokenKind → TokenKind → bool) (w : list TokenKind) (e : Expr) : Prop :=
  ∀ n k rest (Q : Expr → nat → Prop), n0 ≤ n → drop n kinds = w ++ k :: rest → stop rest k = true →
    (∀ e' c n', erase_expr e' = erase_expr e → c ≤ length w → n' = n + length w → n' < len → drop n' kinds = k :: rest →
       wp (postfix_loop file tokens expr (loop_fuel tokens - c) e') Q never n') →
    wp (parse_postfix file tokens expr) Q never n.

Lemma primary_postfix stop w e : primary stop w e → postfix stop w e.
Proof using Hfuel Hn0.
  intros Hp n k rest Q Hn H Hk HQ. unfold parse_postfix. rstep. eapply Hp; [done..|]. intros e' n' He' Hn' Hl' H'.
  rewrite <-(Nat.sub_0_r (loop_fuel tokens)). by apply HQ; [|lia|..].
Qed.

(** One turn of the loop after an operand. *)
Lemma postfix_turn path w w' e f : postfix (follows path) w e → (∃ k' w'', w' = k' :: w'' ∧ after_primary k' = true) →
  (∀ e' m n k rest (Q : Expr → nat → Prop), erase_expr e' = erase_expr e → S n0 ≤ n + 1 → drop n kinds = w' ++ k :: rest → follows false rest k = true →
     (∀ e'' n', erase_expr e'' = erase_expr f → n' = n + length w' → n' < len → drop n' kinds = k :: rest →
        wp (postfix_loop file tokens expr m e'') Q never n') →
     wp (postfix_loop file tokens expr (S m) e') Q never n) →
  postfix (follows false) (w ++ w') f.
Proof using Hfuel Hn0.
  intros He (k' & w'' & -> & Hk') Hturn n k rest Q Hn H Hk HQ. rewrite <-app_assoc in H. cbn [app] in H.
  eapply He; [done|exact H|by apply after_primary_follows|]. intros e' c n1 He' Hc Hn1 Hl1 H1.
  destruct (loop_fuel tokens - c) as [|m] eqn:Em; [unfold loop_fuel in Em; lia|].
  eapply Hturn; [done|lia|exact H1|done|]. intros e'' n2 He'' Hn2 Hl2 H2. cbn [length] in Hn2. replace m with (loop_fuel tokens - S c) by lia.
  apply HQ; [done|solve_len|solve_len|done..].
Qed.

Lemma postfix_call path w f args sp : postfix (follows path) w f → Forall (λ e, whole e ∧ expr_ok e = true) args →
  postfix (follows false) (w ++ LParen :: commas (map (expr_tokens 0) args) ++ [RParen]) (MkExpr (ECall f args) sp).
Proof using Hfuel Hn0.
  intros Hf Hargs. eapply postfix_turn; [done|by eexists _, _|]. intros e' m n k rest Q He' Hn H Hk HQ. cbn [postfix_loop]. norm H. do 3 rstep.
  eapply (run_comma_list _ (S n0) _ erase_expr (expr_tokens 0) ends_expr RParen); [done..| | |exact H|]; [|lia|].
  - rewrite Forall_forall in Hargs |- *. intros e Hin. destruct (Hargs e Hin). by apply whole_item.
  - intros args' n1 Hargs' Hn1 H1. rstep. rstep. apply HQ; [|solve_len|by eapply in_range|done]. cbn [erase_expr app]. by rewrite He', Hargs'.
Qed.

Lemma postfix_index path w a b sp : postfix (follows path) w a → whole b →
  postfix (follows false) (w ++ LBracket :: expr_tokens 0 b ++ [RBracket]) (MkExpr (EIndex a b) sp).
Proof using Hfuel Hn0.
  intros Ha Hb. eapply postfix_turn; [done|by eexists _, _|]. intros e' m n k rest Q He' Hn H Hk HQ. cbn [postfix_loop]. norm H. do 5 rstep.
  eapply (whole_reads b Hb); [|exact H|done|]; [lia|]. intros b' n1 Hb' Hn1 Hl1 H1. rstep. rstep.
  apply HQ; [|solve_len|by eapply in_range|done]. cbn [erase_expr]. by rewrite He', Hb'.
Qed.

Lemma postfix_field path w e name sp : postfix (follows path) w e → postfix (follows false) (w ++ [Dot; Ident name]) (MkExpr (EField e name) sp).
Proof using Hfuel Hn0.
  intros He. eapply postfix_turn; [done|by eexists _, _|]. intros e' m n k rest Q He' Hn H Hk HQ. cbn [postfix_loop]. norm H. do 8 rstep.
  apply HQ; [|solve_len|by eapply in_range|done]. cbn [erase_expr]. by rewrite He'.
Qed.

Lemma postfix_cast path w e t sp : postfix (follows path) w e → type_ok t = true →
  postfix (follows false) (w ++ KAs :: type_tokens t) (MkExpr (ECast e t) sp).
Proof using Hfuel Hn0.
  intros He Ht. eapply postfix_turn; [done|by eexists _, _|]. intros e' m n k rest Q He' Hn H Hk HQ. cbn [postfix_loop]. norm H. do 9 rstep.
  eapply (type_reads t Ht n0); [unfold loop_fuel; lia| |exact H|by destruct k|]; [lia|]. intros t' n1 Ht' Hn1 Hl1 H1.
  apply HQ; [|solve_len|done..]. cbn [erase_expr]. by rewrite He', Ht'.
Qed.

(** *** Unary operators *)

Definition unary (stop : list TokenKind → TokenKind → bool) (w : list TokenKind) (e : Expr) : Prop :=
  ∀ f n k rest (Q : Expr → nat → Prop), n0 ≤ n → len - n < f → drop n kinds = w ++ k :: rest → stop rest k = true → after_postfix k = true →
    (∀ e' n', erase_expr e' = erase_expr e → n' = n + length w → n' < len → drop n' kinds = k :: rest → Q e' n') →
    wp (parse_unary file tokens expr f) Q never n.

Lemma postfix_unary stop w e : postfix stop w e → (∃ k w', w = k :: w' ∧ primary_start k = true) → unary stop w e.
Proof using Hfuel Hn0.
  intros He (k' & w' & E & Hk') f n k rest Q Hn Hf H Hk Hk2 HQ. destruct f as [|f]; [lia|]. cbn [parse_unary]. unfold unary_op.
  pose proof H as H'. rewrite E in H'. cbn [app] in H'. do 14 rstep. clear H'. eapply He; [done|exact H|done|].
  intros e' c n1 He' Hc Hn1 Hl1 H1. destruct (loop_fuel tokens - c) as [|m] eqn:Em; [unfold loop_fuel in Em; lia|]. cbn [postfix_loop]. rsteps.
  by apply HQ.
Qed.

Lemma unary_unary stop op w e sp : unary stop w e → (∃ k w', w = k :: w' ∧ expr_start k = true) →
  unary stop (unary_tokens op ++ w) (MkExpr (EUnary op e) sp).
Proof using Hfuel Hn0.
  intros He (k' & w' & E & Hk') f n k rest Q Hn Hf H Hk Hk2 HQ. pose proof (in_range_app _ _ _ _ _ H) as Hlt. destruct f as [|f]; [lia|].
  cbn [parse_unary]. unfold unary_op.
  assert (Hgo : ∀ op' sp' n1, n1 = n + length (unary_tokens op') → n < n1 → op' = op → drop n1 kinds = w ++ k :: rest →
    wp (let* operand := parse_unary file tokens expr f in ret (MkExpr (EUnary op' operand) (join sp' (expr_span operand)))) Q never n1).
  { intros op' sp' n1 Hn1 Hlt1 -> H1. rstep. eapply He; [lia..|exact H1|done|done|]. intros e' n2 He' Hn2 Hl2 H2. rstep. apply HQ; [|solve_len|done..].
    cbn [erase_expr]. by rewrite He'. }
  destruct op as [| | | |[]]; cbn [unary_tokens app] in H.
  - do 6 rstep. apply Hgo; [simpl; lia..|done|done].
  - do 8 rstep. apply Hgo; [simpl; lia..|done|done].
  - do 10 rstep. apply Hgo; [simpl; lia..|done|done].
  - do 12 rstep. apply Hgo; [simpl; lia..|done|done].
  - do 16 rstep. apply Hgo; [simpl; lia..|done|done].
  - do 13 rstep. pose proof H as H'. rewrite E in H'. cbn [app] in H'. do 3 rstep. apply Hgo; [simpl; lia..|done|done].
Qed.

(** *** Binary operators *)

(** An operand of level [q]: after its tokens the loop over the binary operators of
    precedence [p] and more goes on. *)
Definition operand (stop : list TokenKind → TokenKind → bool) (q : nat) (w : list TokenKind) (e : Expr) : Prop :=
  ∀ p f n k rest (Q : Expr → nat → Prop), p ≤ q → n0 ≤ n → len - n ≤ f → drop n kinds = w ++ k :: rest → stop rest k = true →
    after_postfix k = true → match binary_of k with Some (_, p') => p' ≤ q | None => True end →
    (∀ e' c n', erase_expr e' = erase_expr e → c ≤ length w → n' = n + length w → n' < len → drop n' kinds = k :: rest →
       wp (binary_loop tokens (parse_binary file tokens expr f) p (loop_fuel tokens - c) e') Q never n') →
    wp (parse_binary file tokens expr (S f) p) Q never n.

Lemma unary_operand stop q w e : unary stop w e → operand stop q w e.
Proof using Hfuel Hn0.
  intros He p f n k rest Q Hp Hn Hf H Hk Hk2 Hk3 HQ. cbn [parse_binary]. rstep. eapply He; [done|unfold loop_fuel; lia|exact H|done|done|].
  intros e' n' He' Hn' Hl' H'. rewrite <-(Nat.sub_0_r (loop_fuel tokens)). by apply HQ; [|lia|..].
Qed.

(** The loop ends before a token that is not an operator, or one of less precedence. *)
Lemma run_binary_end (operand : nat → P Expr) p c e n k rest (Q : Expr → nat → Prop) : c < len → drop n kinds = k :: rest →
  match binary_of k with Some (_, p') => p' < p | None => True end → Q e n →
  wp (binary_loop tokens operand p (loop_fuel tokens - c) e) Q never n.
Proof using Hfuel Hn0.
  intros Hc H Hk HQ. destruct (loop_fuel tokens - c) as [|m] eqn:Em; [unfold loop_fuel in Em; lia|]. cbn [binary_loop]. unfold binary_op. do 4 rstep.
  rewrite Hk0. destruct (binary_of k) as [[op p']|]; [|by apply wp_ret]. rewrite (proj2 (Nat.ltb_lt _ _) Hk). by apply wp_ret.
Qed.

Lemma binary_operand path path' op a b wa wb q sp :
  let '(k0, p0) := binary_entry op in
  operand (follows path) p0 wa a → operand (follows path') (S p0) wb b → q ≤ p0 →
  operand (follows path') q (wa ++ k0 :: wb) (MkExpr (EBinary op a b) sp).
Proof using Hfuel Hn0.
  pose proof (binary_of_entry op) as Hop. destruct (binary_entry op) as [k0 p0]. destruct Hop as [Hop Hp0].
  intros Ha Hb Hq p f n k rest Q Hp Hn Hf H Hk Hk2 Hk3 HQ. rewrite <-app_assoc in H. cbn [app] in H.
  eapply Ha; [|done..|exact H| | | |]; [lia|by destruct k0|by destruct k0|by rewrite Hop|]. intros a' c n1 Ha' Hc Hn1 Hl1 H1.
  destruct (loop_fuel tokens - c) as [|m] eqn:Em; [unfold loop_fuel in Em; lia|]. cbn [binary_loop]. unfold binary_op. do 4 rstep. use_kind. rewrite Hop.
  rewrite (proj2 (Nat.ltb_ge _ _)) by lia. rstep. eapply run_bump; [exact H1|by destruct k0|]. clear H1. intros t' Ht' H1. rstep.
  destruct f as [|f]; [lia|]. rewrite Nat.add_1_r. eapply Hb; [done|lia|lia|exact H1|done|done|destruct (binary_of k) as [[]|]; [lia|done]|].
  intros b' c' n2 Hb' Hc' Hn2 Hl2 H2. eapply run_binary_end; [lia|exact H2|destruct (binary_of k) as [[]|]; [lia|done]|].
  replace m with (loop_fuel tokens - S c) by lia. apply HQ; [|solve_len|solve_len|done..]. cbn [erase_expr]. by rewrite Ha', Hb'.
Qed.
End Inside.

(** *** Whole expressions *)

Abbreviation inside R := (∀ fuel n0, len - n0 ≤ fuel → n0 < len → R fuel n0).

Lemma closes_after_postfix k : closes k = true → after_postfix k = true ∧ binary_of k = None ∧ assign_of k = None.
Proof. unfold closes. rewrite !andb_true_iff, !bool_decide_eq_true. naive_solver. Qed.

(** An operand up to a token that closes it, or up to an assignment. *)
Lemma run_operand stop w e fuel n k rest (Q : Expr → nat → Prop) : inside (λ f n0, operand f n0 stop 1 w e) → len - n ≤ fuel →
  drop n kinds = w ++ k :: rest → stop rest k = true → after_postfix k = true → binary_of k = None →
  (∀ e' n', erase_expr e' = erase_expr e → n' = n + length w → n' < len → drop n' kinds = k :: rest → Q e' n') →
  wp (parse_binary file tokens (parse_assignment file tokens fuel) (loop_fuel tokens) 1) Q never n.
Proof.
  intros He Hf H Hk Hk2 Hk3 HQ. pose proof (in_range_app _ _ _ _ _ H) as Hlt. unfold loop_fuel.
  eapply (He fuel n); [done|lia|done|done|lia|exact H|done|done|by rewrite Hk3|]. intros e' c n' He' Hc Hn' Hl' H'.
  eapply (run_binary_end fuel n); [done|lia|lia|exact H'|by rewrite Hk3|]. by apply HQ.
Qed.

Lemma operand_condition e : inside (λ f n0, operand f n0 (follows (ends_in_path 0 e)) 1 (expr_tokens 0 e) e) → condition e.
Proof.
  intros He n0 fuel n k rest Q Hf Hn H Hk (Hk2 & Hk3 & Hk4)%closes_after_postfix HQ.
  destruct fuel as [|fuel]; [lia|]. cbn [parse_assignment]. rstep. eapply run_operand; [exact He|lia|exact H|done..|].
  intros e' n' He' Hn' Hl' H'. rstep. rstep. rewrite Hk0, Hk4. rstep. by apply HQ.
Qed.

Lemma assign_condition path op k0 a b sp : assign_token op = Some k0 →
  inside (λ f n0, operand f n0 (follows path) 1 (expr_tokens 1 a) a) → condition b → condition (MkExpr (EAssign op a b) sp).
Proof.
  intros Hop Ha Hb n0 fuel n k rest Q Hf Hn H Hk Hk' HQ. pose proof (assign_of_token _ _ Hop) as Hof.
  assert (Ew : expr_tokens 0 (MkExpr (EAssign op a b) sp) = expr_tokens 1 a ++ k0 :: expr_tokens 0 b) by (simpl; by rewrite Hop).
  rewrite Ew in H, HQ. norm H. pose proof (in_range_app _ _ _ _ _ H) as Hlt. destruct fuel as [|fuel]; [lia|]. cbn [parse_assignment]. rstep.
  eapply run_operand; [exact Ha|lia|exact H|by destruct k0|by destruct k0|by destruct k0|]. intros a' n1 Ha' Hn1 Hl1 H1.
  rstep. rstep. rewrite Hk0, Hof. rstep. eapply run_bump; [exact H1|by destruct k0|]. clear H1. intros t' Ht' H1. rstep.
  eapply (Hb (S n)); [|lia|exact H1|done|done|]; [lia|]. intros b' n2 Hb' Hn2 Hl2 H2. rstep. apply HQ; [|solve_len|done..]. cbn [erase_expr]. by rewrite Ha', Hb'.
Qed.

(** ** All expressions *)

(** An expression can stand wherever its level or its parentheses allow. *)
Definition complete (e : Expr) : Prop :=
  condition e ∧
  inside (λ f n0, postfix f n0 (follows (ends_in_path 12 e)) (expr_tokens 12 e) e) ∧
  inside (λ f n0, unary f n0 (follows (ends_in_path 11 e)) (expr_tokens 11 e) e) ∧
  (∀ q, 1 ≤ q ≤ 11 → inside (λ f n0, operand f n0 (follows (ends_in_path q e)) q (expr_tokens q e) e)).

(** In parentheses an expression can stand anywhere. *)
Lemma closed_postfix e : whole e → inside (λ f n0, postfix f n0 (λ _ _, true) (LParen :: expr_tokens 0 e ++ [RParen]) e).
Proof. intros He f n0 Hf Hn. by apply primary_postfix, primary_parens. Qed.

Lemma closed_unary e : whole e → inside (λ f n0, unary f n0 (λ _ _, true) (LParen :: expr_tokens 0 e ++ [RParen]) e).
Proof. intros He f n0 Hf Hn. apply postfix_unary; [done..| |by eexists _, _]. by apply closed_postfix. Qed.

Lemma closed_operand e q : whole e → inside (λ f n0, operand f n0 (λ _ _, true) q (LParen :: expr_tokens 0 e ++ [RParen]) e).
Proof. intros He f n0 Hf Hn. apply unary_operand; [done..|]. by apply closed_unary. Qed.

(** What may stand before every token may stand before some. *)
Lemma postfix_weaken f n0 stop w e : postfix f n0 (λ _ _, true) w e → postfix f n0 stop w e.
Proof. intros He n k rest Q Hn H _. by apply He. Qed.
Lemma unary_weaken f n0 stop w e : unary f n0 (λ _ _, true) w e → unary f n0 stop w e.
Proof. intros He f' n k rest Q Hn Hf H _. by apply He. Qed.
Lemma operand_weaken f n0 stop q w e : operand f n0 (λ _ _, true) q w e → operand f n0 stop q w e.
Proof. intros He p f' n k rest Q Hp Hn Hf H _. by apply He. Qed.

Lemma complete_assign k sp : level k = 0 → condition (MkExpr k sp) → complete (MkExpr k sp).
Proof.
  intros Hl He. pose proof (condition_whole _ He). split; [done|].
  split_and!; [intros f n0 Hf Hn..|intros q Hq f n0 Hf Hn]; rewrite expr_tokens_closed by lia.
  - by apply postfix_weaken, closed_postfix.
  - by apply unary_weaken, closed_unary.
  - by apply operand_weaken, closed_operand.
Qed.

Lemma complete_binary k sp : 1 ≤ level k ≤ 10 →
  (∀ q, 1 ≤ q ≤ level k → inside (λ f n0, operand f n0 (follows (ends_in_path 0 (MkExpr k sp))) q (expr_tokens 0 (MkExpr k sp)) (MkExpr k sp))) →
  complete (MkExpr k sp).
Proof.
  intros Hl He. assert (Hc : condition (MkExpr k sp)) by (apply operand_condition, He; lia).
  pose proof (condition_whole _ Hc). split; [done|]. split_and!; [intros f n0 Hf Hn..|intros q Hq f n0 Hf Hn].
  - rewrite expr_tokens_closed by lia. by apply postfix_weaken, closed_postfix.
  - rewrite expr_tokens_closed by lia. by apply unary_weaken, closed_unary.
  - destruct (decide (q ≤ level k)).
    + rewrite expr_tokens_raw, ends_in_path_raw by lia. apply He; [lia|done..].
    + rewrite expr_tokens_closed by lia. by apply operand_weaken, closed_operand.
Qed.

Lemma complete_unary k sp : level k = 11 →
  inside (λ f n0, unary f n0 (follows (ends_in_path 0 (MkExpr k sp))) (expr_tokens 0 (MkExpr k sp)) (MkExpr k sp)) → complete (MkExpr k sp).
Proof.
  intros Hl He.
  assert (Hop : ∀ q, inside (λ f n0, operand f n0 (follows (ends_in_path 0 (MkExpr k sp))) q (expr_tokens 0 (MkExpr k sp)) (MkExpr k sp)))
    by (intros q f n0 Hf Hn; apply unary_operand; [done..|by apply He]).
  assert (Hc : condition (MkExpr k sp)) by apply operand_condition, Hop.
  pose proof (condition_whole _ Hc). split; [done|]. split_and!; [intros f n0 Hf Hn..|intros q Hq f n0 Hf Hn].
  - rewrite expr_tokens_closed by lia. by apply postfix_weaken, closed_postfix.
  - rewrite expr_tokens_raw, ends_in_path_raw by lia. by apply He.
  - rewrite expr_tokens_raw, ends_in_path_raw by lia. by apply Hop.
Qed.

Lemma complete_postfix k sp : level k = 12 → expr_ok (MkExpr k sp) = true →
  inside (λ f n0, postfix f n0 (follows (ends_in_path 0 (MkExpr k sp))) (expr_tokens 0 (MkExpr k sp)) (MkExpr k sp)) → complete (MkExpr k sp).
Proof.
  intros Hl Hok He.
  assert (Hun : inside (λ f n0, unary f n0 (follows (ends_in_path 0 (MkExpr k sp))) (expr_tokens 0 (MkExpr k sp)) (MkExpr k sp))).
  { intros f n0 Hf Hn. apply postfix_unary; [done..|by apply He|]. destruct (expr_starts (MkExpr k sp) 12 Hok) as (k' & w & E & _ & Hk').
    rewrite expr_tokens_raw in E by lia. exists k', w. split; [done|]. apply Hk'. lia. }
  assert (Hop : ∀ q, inside (λ f n0, operand f n0 (follows (ends_in_path 0 (MkExpr k sp))) q (expr_tokens 0 (MkExpr k sp)) (MkExpr k sp)))
    by (intros q f n0 Hf Hn; apply unary_operand; [done..|by apply Hun]).
  split; [by apply operand_condition, Hop|].
  split_and!; [intros f n0 Hf Hn..|intros q Hq f n0 Hf Hn]; rewrite expr_tokens_raw, ends_in_path_raw by lia.
  - by apply He.
  - by apply Hun.
  - by apply Hop.
Qed.

Lemma whole_both l : Forall (λ e, expr_ok e = true → complete e) l → forallb expr_ok l = true → Forall (λ e, whole e ∧ expr_ok e = true) l.
Proof.
  intros H Hok. rewrite Forall_forall in H |- *. intros e He. pose proof (forallb_elem _ _ _ Hok He) as Hoke. split; [|done]. by apply condition_whole, H.
Qed.

Lemma expr_complete e : expr_ok e = true → complete e.
Proof.
  induction e as [k sp IH] using expr_ind_nested. intros Hok. pose proof Hok as Hok'.
  destruct k as [n|b|b|s|s|p|values|v n|p fields|op e|op a b|op a b|f args|e name|a b|e t|tpl operands opts]; simpl in IH, Hok.
  1-5: apply complete_postfix; [done..|]; intros f n0 Hf Hn; apply primary_postfix; [done..|]; by apply primary_atom.
  - apply complete_postfix; [done..|]. intros f n0 Hf Hn. apply primary_postfix; [done..|]. by apply primary_path.
  - apply complete_postfix; [done..|]. intros f n0 Hf Hn. apply primary_postfix; [done..|]. apply primary_array; [done..|]. by apply whole_both.
  - apply Forall_cons in IH as [IH _]. destruct (IH Hok) as [Hv%condition_whole _]. apply complete_postfix; [done..|]. intros f n0 Hf Hn.
    apply primary_postfix; [done..|]. by apply primary_repeat.
  - apply andb_true_iff in Hok as [Hp Hfs]. apply complete_postfix; [done..|]. intros f n0 Hf Hn.
    apply primary_postfix; [done..|]. apply primary_struct; [done..|]. rewrite Forall_forall in IH. apply Forall_forall. intros [x e] Hin.
    pose proof (forallb_elem _ _ _ Hfs Hin) as Hoke. split; [|done]. apply condition_whole, IH; [|done]. apply list_elem_of_fmap. by exists (x, e).
  - apply Forall_cons in IH as [IH _]. destruct (IH Hok) as (_ & _ & Hun & _). apply complete_unary; [done|]. intros f n0 Hf Hn.
    change (expr_tokens 0 _) with (unary_tokens op ++ expr_tokens 11 e). apply unary_unary; [done..|by apply Hun|].
    destruct (expr_starts e 11 Hok) as (k' & w & E & Hk' & _). by exists k', w.
  - apply Forall_cons in IH as [IHa [IHb _]%Forall_cons]. apply andb_true_iff in Hok as [Ha Hb]. destruct (IHa Ha) as (_ & _ & _ & Hopa).
    destruct (IHb Hb) as (_ & _ & _ & Hopb). pose proof (binary_of_entry op) as Hop. apply complete_binary; [simpl; revert Hop; destruct (binary_entry op); by intros [_ ?]|].
    intros q Hq f n0 Hf Hn. pose proof (binary_operand f n0 Hf Hn) as Hbin. specialize (Hbin (ends_in_path (binary_entry op).2 a) (ends_in_path (S (binary_entry op).2) b) op a b).
    change (ends_in_path 0 (MkExpr (EBinary op a b) sp)) with (ends_in_path (S (binary_entry op).2) b).
    change (expr_tokens 0 (MkExpr (EBinary op a b) sp)) with (let '(k, p) := binary_entry op in expr_tokens p a ++ k :: expr_tokens (S p) b).
    simpl in Hq. destruct (binary_entry op) as [k0 p0]. simpl in Hq. apply Hbin; [apply Hopa; [lia|done..]|apply Hopb; [lia|done..]|lia].
  - apply Forall_cons in IH as [IHa [IHb _]%Forall_cons]. apply andb_true_iff in Hok as [Hop [Ha Hb]%andb_true_iff].
    apply bool_decide_eq_true in Hop as [k0 Hop]. destruct (IHa Ha) as (_ & _ & _ & Hopa). destruct (IHb Hb) as [Hwb _].
    apply complete_assign; [done|]. eapply assign_condition; [done|apply Hopa; lia|done].
  - apply Forall_cons in IH as [IHf IHargs]. apply andb_true_iff in Hok as [Hf Hargs]. destruct (IHf Hf) as (_ & Hpost & _).
    apply complete_postfix; [done..|]. intros fu n0 Hfu Hn. eapply postfix_call; [done..|by apply Hpost|by apply whole_both].
  - apply Forall_cons in IH as [IH _]. destruct (IH Hok) as (_ & Hpost & _). apply complete_postfix; [done..|]. intros f n0 Hf Hn.
    eapply postfix_field; [done..|by apply Hpost].
  - apply Forall_cons in IH as [IHa [IHb _]%Forall_cons]. apply andb_true_iff in Hok as [Ha Hb]. destruct (IHa Ha) as (_ & Hpost & _).
    destruct (IHb Hb) as [Hwb%condition_whole _]. apply complete_postfix; [done..|]. intros f n0 Hf Hn. eapply postfix_index; [done..|by apply Hpost|done].
  - apply Forall_cons in IH as [IH _]. apply andb_true_iff in Hok as [He Ht]. destruct (IH He) as (_ & Hpost & _).
    apply complete_postfix; [done..|]. intros f n0 Hf Hn. eapply postfix_cast; [done..|by apply Hpost|done].
  - apply complete_postfix; [done..|]. intros f n0 Hf Hn. apply primary_postfix; [done..|]. apply primary_asm; [done..|].
    rewrite Forall_forall in IH |- *. intros e He. apply condition_whole, IH; [done|]. apply list_elem_of_bind in He as (o & Ho & Hin).
    pose proof (forallb_elem _ _ _ Hok Hin) as Hoke. destruct o; simpl in Ho; set_unfold; rewrite ?andb_true_iff in Hoke; naive_solver.
Qed.

(** No expression before a token other than a colon starts like the fields of a struct
    literal. *)
Lemma expr_no_fields e : expr_ok e = true → ∀ q k rest, k ≠ Colon → fields_start (expr_tokens q e ++ k :: rest) = false.
Proof.
  induction e as [k sp IH] using expr_ind_nested. intros Hok q k' rest Hk'. rewrite expr_tokens_parens.
  unfold parens. destruct (level k <? q); [done|].
  destruct k as [n|b|b|s|s|p|values|v n|p fields|op e|op a b|op a b|f args|e name|a b|e t|tpl operands opts]; simpl in IH, Hok; try done.
  - by destruct b.
  - destruct p as [|x [|y p]]; [done| |done]. by destruct k'.
  - apply andb_true_iff in Hok as [Hp _]. by destruct p as [|x [|y p]].
  - by destruct op as [| | | |[]].
  - apply Forall_cons in IH as [IH _]. apply andb_true_iff in Hok as [Ha _].
    change (expr_tokens 0 _) with (let '(k, p) := binary_entry op in expr_tokens p a ++ k :: expr_tokens (S p) b).
    pose proof (binary_of_entry op) as Hop. destruct (binary_entry op) as [k0 p0]. rewrite <-app_assoc. apply IH; [done|]. intros ->. by destruct Hop.
  - apply Forall_cons in IH as [IH _]. apply andb_true_iff in Hok as [[k0 Hop]%bool_decide_eq_true [Ha _]%andb_true_iff].
    assert (Ew : expr_tokens 0 (MkExpr (EAssign op a b) sp) = expr_tokens 1 a ++ k0 :: expr_tokens 0 b) by (simpl; by rewrite Hop).
    rewrite Ew, <-app_assoc. apply IH; [done|]. intros ->. by destruct op as [[]|].
  - apply Forall_cons in IH as [IH _]. apply andb_true_iff in Hok as [Hf _]. cbn [expr_tokens]. simpl. rewrite <-app_assoc. by apply IH.
  - apply Forall_cons in IH as [IH _]. cbn [expr_tokens]. simpl. rewrite <-app_assoc. by apply IH.
  - apply Forall_cons in IH as [IH _]. apply andb_true_iff in Hok as [Ha _]. cbn [expr_tokens]. simpl. rewrite <-app_assoc. by apply IH.
  - apply Forall_cons in IH as [IH _]. apply andb_true_iff in Hok as [He _]. cbn [expr_tokens]. simpl. rewrite <-app_assoc. by apply IH.
Qed.

(** What the other productions use: an expression, and a condition before a block. *)
Lemma expr_reads e n0 : expr_ok e = true → reads n0 (parse_expr file tokens) erase_expr (expr_tokens 0 e) (erase_expr e) ends_expr.
Proof. intros Hok. destruct (expr_complete e Hok) as [Hw%condition_whole _]. apply Hw. unfold loop_fuel. lia. Qed.

Lemma condition_reads e b n rest (Q : Expr → nat → Prop) : expr_ok e = true →
  (block_stmts b ≠ [] → fields_start rest = false) → drop n kinds = condition_tokens e b ++ LBrace :: rest →
  (∀ e' n', erase_expr e' = erase_expr e → n' = n + length (condition_tokens e b) → n' < len → drop n' kinds = LBrace :: rest → Q e' n') →
  wp (parse_expr file tokens) Q never n.
Proof.
  intros Hok Hb H HQ. destruct (expr_complete e Hok) as [Hc _]. pose proof (condition_whole _ Hc) as Hw. unfold condition_tokens in *.
  assert (Hfree : follows (ends_in_path 0 e) rest LBrace = true → drop n kinds = expr_tokens 0 e ++ LBrace :: rest →
    (∀ e' n', erase_expr e' = erase_expr e → n' = n + length (expr_tokens 0 e) → n' < len → drop n' kinds = LBrace :: rest → Q e' n') →
    wp (parse_expr file tokens) Q never n).
  { intros Hf H' HQ'. eapply (Hc n); [unfold loop_fuel; lia|done|exact H'|done|done|done]. }
  destruct (block_stmts b); [|apply Hfree; [simpl; by rewrite Hb, andb_false_r by done|done..]].
  destruct (ends_in_path 0 e) eqn:Ep; [|by apply Hfree]. clear Hfree. destruct e as [k sp].
  rewrite expr_tokens_closed in H, HQ by (pose proof (level_bound k); lia). unfold parse_expr. remember (loop_fuel tokens) as f eqn:Ef.
  destruct f as [|f]; [unfold loop_fuel in Ef; lia|]. cbn [parse_assignment]. rstep.
  eapply (run_operand (λ _ _, true)); [by apply closed_operand|unfold loop_fuel in Ef; lia|exact H|done..|].
  intros e' n' He' Hn' Hl' H'. rstep. rstep. use_kind. by apply wp_ret, HQ.
Qed.

Lemma full_type_reads t n0 : type_ok t = true →
  reads n0 (parse_type file tokens (loop_fuel tokens)) erase_type (type_tokens t) (erase_type t) ends_path.
Proof. intros Hok. apply type_reads; [done|unfold loop_fuel; lia]. Qed.
End Roundtrip.
