(* ===== verification/OcoreRoundtripItems.v ===== *)
(** * The parser of Ocore reads printed trees back: statements, items and modules *)

From S2P Require Import Prelude.
From S2P Require Import OcoreLexer.
From S2P Require Import OcoreAst.
From S2P Require Import OcoreParser.
From S2P Require Import OcoreParserFacts.
From S2P Require Import OcorePrinter.
From S2P Require Import OcoreRun.
From S2P Require Import OcoreRoundtrip.
From stdpp Require Import options.

#[local] Open Scope nat_scope.

Section Items.
Context (file : str) (tokens : list Token).

Abbreviation len := (length tokens).
Abbreviation P := (M nat (Diagnostic ParseMessage)).
Abbreviation kinds := (kind <$> tokens).
Abbreviation never := (λ (_ : Diagnostic ParseMessage) (_ : nat), False).
Abbreviation reads := (reads tokens).
Abbreviation item_reads := (item_reads tokens).

(** ** Statements *)

Definition stmt_start (k : TokenKind) : bool :=
  match k with
  | KLet | KIf | KWhile | KLoop | KUnsafe | KReturn | KBreak | KContinue => true
  | _ => expr_start k
  end.

Definition not_else (k : TokenKind) : bool := negb (same_kind k KElse).

Lemma stmt_starts s : stmt_ok s = true → ∃ k w, stmt_tokens s = k :: w ∧ stmt_start k = true.
Proof.
  destruct s as [[m x ty e|e|e b1 b2|e b|b|b|e| |] sp]; simpl; intros Hok; try (by eexists _, _).
  destruct (expr_starts e 0 Hok) as (k & w & -> & Hk & _). eexists _, _. split; [done|]. by destruct k.
Qed.

Lemma block_starts b : ∃ w, block_tokens b = LBrace :: w.
Proof. destruct b as [stmts sp]. simpl. eauto. Qed.

Definition block_read (b : Block) : Prop :=
  ∀ n0 fuel, len - n0 < fuel → reads n0 (parse_block file tokens fuel) erase_block (block_tokens b) (erase_block b) (λ _, true).

(** An expression before a semicolon, a condition before a block. *)
Lemma run_expr e n rest (Q : Expr → nat → Prop) : expr_ok e = true → drop n kinds = expr_tokens 0 e ++ Semi :: rest →
  (∀ e' n', erase_expr e' = erase_expr e → n' = n + length (expr_tokens 0 e) → n' < len → drop n' kinds = Semi :: rest → Q e' n') →
  wp (parse_expr file tokens) Q never n.
Proof. intros Hok H HQ. eapply (expr_reads file tokens e n); [done|reflexivity|exact H|done|done]. Qed.

(** A block that is not empty does not start like a struct literal. *)
Lemma stmt_no_fields s rest : stmt_ok s = true → fields_start (stmt_tokens s ++ rest) = false.
Proof.
  destruct s as [[m x ty e|e|e b1 b2|e b|b|b|e| |] sp]; simpl; intros Hok; try done.
  rewrite <-app_assoc. by apply expr_no_fields.
Qed.

Lemma run_condition e b n rest (Q : Expr → nat → Prop) : expr_ok e = true → block_ok b = true →
  drop n kinds = condition_tokens e b ++ block_tokens b ++ rest →
  (∀ e' n', erase_expr e' = erase_expr e → n' = n + length (condition_tokens e b) → n' < len → drop n' kinds = block_tokens b ++ rest → Q e' n') →
  wp (parse_expr file tokens) Q never n.
Proof.
  intros Hok Hb H HQ. destruct b as [stmts sp]. cbn [block_tokens] in H, HQ. norm H.
  eapply (condition_reads file tokens e (MkBlock stmts sp)); [done| |exact H|].
  - destruct stmts as [|s stmts]; [done|]. intros _. cbn [block_ok forallb] in Hb. apply andb_true_iff in Hb as [Hs _].
    cbn [map concat]. rewrite <-!app_assoc. by apply stmt_no_fields.
  - intros e' n' He' Hn' Hl' H'. by apply HQ.
Qed.

Section Inside.
Context (fuel n0 : nat) (Hfuel : len - n0 ≤ fuel) (Hn0 : n0 < len).

Abbreviation block := (parse_block file tokens fuel).

Lemma run_block b n k rest (Q : Block → nat → Prop) : block_read b → S n0 ≤ n → drop n kinds = block_tokens b ++ k :: rest →
  (∀ b' n', erase_block b' = erase_block b → n' = n + length (block_tokens b) → n' < len → drop n' kinds = k :: rest → Q b' n') →
  wp block Q never n.
Proof using Hfuel Hn0. intros Hb Hn H HQ. eapply (Hb (S n0)); [|done|exact H|done|done]. lia. Qed.

Abbreviation stmt_read w k := (reads n0 (parse_stmt file tokens block) erase_stmt w (MkStmt k no_span) not_else).

Lemma stmt_let m x ty e sp : match ty with Some t => type_ok t = true | None => True end → expr_ok e = true →
  stmt_read (stmt_tokens (MkStmt (SLet m x ty e) sp)) (SLet m x (erase_type <$> ty) (erase_expr e)).
Proof using Hfuel Hn0.
  intros Ht He n k rest Q Hn H Hk HQ. unfold parse_stmt, parse_stmt_kind, parse_let. cbn [stmt_tokens] in H, HQ.
  destruct m, ty as [t|]; norm H; rsteps.
  all: try (eapply (full_type_reads file tokens t n0); [done| |exact H|done|]; [lia|]; intros t' n1 Ht' Hn1 Hl1 H1; clear H; rename H1 into H; rsteps).
  all: eapply run_expr; [done|exact H|]; intros e' n2 He' Hn2 Hl2 H2; rsteps; finish HQ H2; simpl; by rewrite He', ?Ht'.
Qed.

Lemma stmt_expr e sp : expr_ok e = true → stmt_read (stmt_tokens (MkStmt (SExpr e) sp)) (SExpr (erase_expr e)).
Proof using Hfuel Hn0.
  intros He n k rest Q Hn H Hk HQ. unfold parse_stmt, parse_stmt_kind. cbn [stmt_tokens] in H, HQ. norm H.
  destruct (expr_starts e 0 He) as (k1 & w1 & E & Hk1 & _). pose proof H as H'. rewrite E in H'. cbn [app] in H'. rsteps. clear H'.
  eapply run_expr; [done|exact H|]. intros e' n2 He' Hn2 Hl2 H2. rsteps. finish HQ H2. simpl. by rewrite He'.
Qed.

Lemma stmt_if e b1 b2 sp : expr_ok e = true → block_ok b1 = true → block_read b1 → match b2 with Some b => block_read b | None => True end →
  stmt_read (stmt_tokens (MkStmt (SIf e b1 b2) sp)) (SIf (erase_expr e) (erase_block b1) (erase_block <$> b2)).
Proof using Hfuel Hn0.
  intros He Hok H1 H2 n k rest Q Hn H Hk HQ. unfold parse_stmt, parse_stmt_kind, parse_if. cbn [stmt_tokens] in H, HQ. norm H. rsteps.
  eapply run_condition; [done|done|exact H|]. intros e' n1 He' Hn1 Hl1 H'. clear H. rstep. destruct b2 as [b|]; norm H'.
  - eapply (run_block b1); [done| |exact H'|]; [lia|]. intros b1' n2 Hb1 Hn2 Hl2 H''. clear H'. unfold parse_else.
    destruct (block_starts b) as [w E]. rewrite E in H''. cbn [app] in H''. do 6 rstep. rewrite app_comm_cons, <-E in H''.
    eapply (run_block b); [done| |exact H''|]; [lia|]. intros b' n3 Hb Hn3 Hl3 H3. rsteps. finish HQ H3. simpl. by rewrite He', Hb1, Hb.
  - eapply (run_block b1); [done| |exact H'|]; [lia|]. intros b1' n2 Hb1 Hn2 Hl2 H''. unfold parse_else. rsteps. finish HQ H''. simpl. by rewrite He', Hb1.
Qed.

Lemma stmt_while e b sp : expr_ok e = true → block_ok b = true → block_read b →
  stmt_read (stmt_tokens (MkStmt (SWhile e b) sp)) (SWhile (erase_expr e) (erase_block b)).
Proof using Hfuel Hn0.
  intros He Hok Hb n k rest Q Hn H Hk HQ. unfold parse_stmt, parse_stmt_kind, parse_while. cbn [stmt_tokens] in H, HQ. norm H. rsteps.
  eapply run_condition; [done|done|exact H|]. intros e' n1 He' Hn1 Hl1 H'. clear H. rstep.
  eapply (run_block b); [done| |exact H'|]; [lia|]. intros b' n2 Hb' Hn2 Hl2 H2. rsteps. finish HQ H2. simpl. by rewrite He', Hb'.
Qed.

Lemma stmt_loop b sp : block_read b → stmt_read (stmt_tokens (MkStmt (SLoop b) sp)) (SLoop (erase_block b)).
Proof using Hfuel Hn0.
  intros Hb n k rest Q Hn H Hk HQ. unfold parse_stmt, parse_stmt_kind. cbn [stmt_tokens] in H, HQ. norm H. rsteps.
  eapply (run_block b); [done| |exact H|]; [lia|]. intros b' n2 Hb' Hn2 Hl2 H2. rsteps. finish HQ H2. simpl. by rewrite Hb'.
Qed.

Lemma stmt_unsafe b sp : block_read b → stmt_read (stmt_tokens (MkStmt (SUnsafe b) sp)) (SUnsafe (erase_block b)).
Proof using Hfuel Hn0.
  intros Hb n k rest Q Hn H Hk HQ. unfold parse_stmt, parse_stmt_kind. cbn [stmt_tokens] in H, HQ. norm H. rsteps.
  eapply (run_block b); [done| |exact H|]; [lia|]. intros b' n2 Hb' Hn2 Hl2 H2. rsteps. finish HQ H2. simpl. by rewrite Hb'.
Qed.

Lemma stmt_return e sp : match e with Some e => expr_ok e = true | None => True end →
  stmt_read (stmt_tokens (MkStmt (SReturn e) sp)) (SReturn (erase_expr <$> e)).
Proof using Hfuel Hn0.
  intros He n k rest Q Hn H Hk HQ. unfold parse_stmt, parse_stmt_kind, parse_return. cbn [stmt_tokens] in H, HQ. destruct e as [e|]; norm H; rsteps.
  - destruct (expr_starts e 0 He) as (k1 & w1 & E & Hk1 & _). pose proof H as H'. rewrite E in H'. cbn [app] in H'. rsteps. clear H'.
    eapply run_expr; [done|exact H|]. intros e' n2 He' Hn2 Hl2 H2. rsteps. finish HQ H2. simpl. by rewrite He'.
  - finish HQ H. done.
Qed.

Lemma stmt_jump s sp : (s = SBreak ∨ s = SContinue) → stmt_read (stmt_tokens (MkStmt s sp)) s.
Proof using Hfuel Hn0.
  intros Hs n k rest Q Hn H Hk HQ. unfold parse_stmt, parse_stmt_kind. destruct Hs as [-> | ->]; cbn [stmt_tokens] in H, HQ; norm H; rsteps; finish HQ H; done.
Qed.

Lemma stmt_reads s : stmt_ok s = true → (let '(MkStmt k _) := s in Forall block_read (sub_blocks k)) →
  reads n0 (parse_stmt file tokens block) erase_stmt (stmt_tokens s) (erase_stmt s) not_else.
Proof using Hfuel Hn0.
  destruct s as [[m x ty e|e|e b1 b2|e b|b|b|e| |] sp]; simpl stmt_ok; simpl erase_stmt; intros Hok Hb; cbn [sub_blocks] in Hb.
  - apply andb_true_iff in Hok as [Ht He]. apply stmt_let; [by destruct ty|done].
  - by apply stmt_expr.
  - apply andb_true_iff in Hok as [[He H1]%andb_true_iff H2].
    destruct b2 as [b2|]; [apply Forall_cons in Hb as [Hb1 [Hb2 _]%Forall_cons]|apply Forall_cons in Hb as [Hb1 _]].
    + by apply (stmt_if e b1 (Some b2)).
    + by apply (stmt_if e b1 None).
  - apply Forall_cons in Hb as [Hb _]. apply andb_true_iff in Hok as [He Hokb]. by apply stmt_while.
  - apply Forall_cons in Hb as [Hb _]. by apply stmt_loop.
  - apply Forall_cons in Hb as [Hb _]. by apply stmt_unsafe.
  - apply stmt_return. by destruct e.
  - apply stmt_jump. by left.
  - apply stmt_jump. by right.
Qed.

Lemma run_block_loop stmts sp f acc n rest (Q : list Stmt → nat → Prop) : forallb stmt_ok stmts = true →
  Forall (λ s, reads n0 (parse_stmt file tokens block) erase_stmt (stmt_tokens s) (erase_stmt s) not_else) stmts → n0 ≤ n → len - n < f →
  drop n kinds = concat (map stmt_tokens stmts) ++ RBrace :: rest →
  (∀ stmts' n', map erase_stmt stmts' = map erase_stmt stmts → n' = n + length (concat (map stmt_tokens stmts)) → drop n' kinds = RBrace :: rest →
     Q (acc ++ stmts') n') →
  wp (block_loop file tokens block sp f acc) Q never n.
Proof using Hfuel Hn0.
  revert f acc n. induction stmts as [|s stmts IH]; intros [|f] acc n Hok Hall Hn Hf H HQ; try lia; cbn [block_loop].
  - simpl in H. rsteps. rewrite <-(app_nil_r acc). apply HQ; [done|simpl; lia|done].
  - cbn [forallb] in Hok. apply andb_true_iff in Hok as [Hs Hok]. apply Forall_cons in Hall as [Hread Hall]. cbn [map concat] in H. norm H.
    destruct (stmt_starts s Hs) as (k & w & E & Hk). pose proof H as H'. rewrite E in H'. cbn [app] in H'. do 4 rstep. rstep. clear H'.
    assert (Hnext : ∃ k' rest', concat (map stmt_tokens stmts) ++ RBrace :: rest = k' :: rest' ∧ not_else k' = true).
    { destruct stmts as [|s' stmts]; simpl; [eauto|]. simpl in Hok. apply andb_true_iff in Hok as [Hs' _].
      destruct (stmt_starts s' Hs') as (k' & w' & E' & Hk'). rewrite E'. eexists _, _. split; [done|]. by destruct k'. }
    destruct Hnext as (k' & rest' & E' & Hk'). rewrite E' in H. eapply Hread; [done|exact H|done|]. intros s' n1 Hs' Hn1 Hl1 H1. rewrite <-E' in H1.
    assert (n < n1) by (rewrite E in Hn1; simpl in Hn1; lia). eapply IH; [done|done|lia|lia|exact H1|].
    intros stmts' n2 Hss Hn2 H2. rewrite <-app_assoc. apply HQ; [|cbn [map concat]; solve_len|done]. cbn [app map]. by rewrite Hs', Hss.
Qed.
End Inside.

Lemma block_reads b : block_ok b = true → block_read b.
Proof.
  apply (block_ind_nested (λ b, block_ok b = true → block_read b)
    (λ s, stmt_ok s = true → let '(MkStmt k _) := s in Forall block_read (sub_blocks k))).
  - intros stmts sp IH Hok n0 [|fuel] Hf n k rest Q Hn H _ HQ; [lia|]. cbn [block_tokens] in H, HQ. norm H. pose proof (in_range _ _ _ _ H) as Hlt.
    cbn [parse_block block_ok] in *. do 3 rstep.
    eapply (run_block_loop fuel n); [lia|done|exact Hok| | | |exact H|]; [|lia|unfold loop_fuel; lia|].
    + rewrite Forall_forall in IH |- *. intros s Hs. pose proof (forallb_elem _ _ _ Hok Hs) as Hoks. apply stmt_reads; [lia|done|done|by apply IH].
    + intros stmts' n1 Hss Hn1 H1. rsteps. finish HQ H1. simpl. by rewrite Hss.
  - intros k sp IH Hok. rewrite Forall_forall in IH |- *. intros b' Hb'. apply IH; [done|].
    destruct k as [m x ty e|e|e b1 [b2|]|e b2|b2|b2|e| |]; simpl in Hok, Hb'; rewrite ?andb_true_iff in Hok; set_unfold; naive_solver.
Qed.

Lemma full_block_reads b n0 : block_ok b = true →
  reads n0 (parse_block file tokens (loop_fuel tokens)) erase_block (block_tokens b) (erase_block b) (λ _, true).
Proof. intros Hok. apply block_reads; [done|unfold loop_fuel; lia]. Qed.

(** ** Items *)

Definition after_attributes (k : TokenKind) : bool := match k with At | LParen => false | _ => true end.

Lemma arg_item a : item_reads 0 (parse_attr_arg file tokens) id (λ a, [arg_token a]) (λ _, true) RParen a.
Proof.
  split; [|destruct a; by eexists _, _]. intros n k rest Q Hn H Hk HQ. unfold parse_attr_arg. destruct a; cbn [app arg_token] in H; rstep; rstep; use_kind; rstep;
    finish HQ H; done.
Qed.

Lemma run_attributes attrs f acc n k rest (Q : list Attribute → nat → Prop) : len - n < f → drop n kinds = (attrs ≫= attr_tokens) ++ k :: rest →
  after_attributes k = true →
  (∀ attrs' n', map erase_attr attrs' = map erase_attr attrs → n' = n + length (attrs ≫= attr_tokens) → n' < len → drop n' kinds = k :: rest → Q (acc ++ attrs') n') →
  wp (attributes_loop file tokens f acc) Q never n.
Proof.
  revert f acc n. induction attrs as [|a attrs IH]; intros [|f] acc n Hf H Hk HQ; try lia; cbn [attributes_loop].
  - simpl in H. unfold eat. rstep. rstep. rstep. do 2 rstep. rewrite <-(app_nil_r acc). apply HQ; [done|simpl; lia|by eapply in_range|done].
  - rewrite bind_cons in H, HQ. unfold attr_tokens in H at 1. norm H. pose proof (in_range _ _ _ _ H) as Hlt.
    assert (Hrec : ∀ a' n1, erase_attr a' = erase_attr a → n1 = n + length (attr_tokens a) → drop n1 kinds = (attrs ≫= attr_tokens) ++ k :: rest →
      wp (attributes_loop file tokens f (acc ++ [a'])) Q never n1).
    { intros a' n1 Ha Hn1 H1. unfold attr_tokens in Hn1. cbn [length] in Hn1. eapply IH; [lia|exact H1|done|]. intros attrs' n2 Has Hn2 Hl2 H2.
      rewrite <-app_assoc. apply HQ; [cbn [app map]; by rewrite Ha, Has| |done..]. rewrite length_app. unfold attr_tokens at 1. cbn [length]. lia. }
    assert (Hnext : ∃ k' rest', (attrs ≫= attr_tokens) ++ k :: rest = k' :: rest' ∧ same_kind k' LParen = false).
    { destruct attrs as [|a' attrs']; simpl; eexists _, _; (split; [done|]); [by destruct k|done]. }
    destruct a as [name args asp]. cbn [at_name at_args] in H. rstep. eapply run_eat; [exact H|done|done|]. clear H. intros t H. cbn beta iota. norm H.
    destruct args as [|arg args].
    + destruct Hnext as (k' & rest' & E' & Hk'). cbn [app] in H. rewrite E' in H. rsteps. rewrite <-E' in H. apply Hrec; [done|simpl; lia|exact H].
    + norm H. do 6 rstep. eapply (run_comma_list tokens 0 _ id (λ a, [arg_token a]) (λ _, true) RParen); [done..| | |exact H|]; [|lia|].
      * apply Forall_forall. intros a _. apply arg_item.
      * intros args' n1 Has Hn1 H1. rewrite !map_id in Has. subst args'. rsteps. apply Hrec; [done| |exact H1]. unfold attr_tokens. cbn [at_args at_name length]. rewrite length_app. cbn [length]. lia.
Qed.

Lemma param_item p : type_ok (p_ty p) = true → item_reads 0 (parse_param file tokens) erase_param param_tokens ends_path RParen p.
Proof.
  intros Hok. destruct p as [x ty psp]. split; [|by eexists _, _]. intros n k rest Q Hn H Hk HQ. unfold parse_param. unfold param_tokens in *.
  cbn [p_name p_ty app] in *. do 5 rstep. eapply (full_type_reads file tokens ty 0); [done| |exact H|done|]; [lia|]. intros t' n1 Ht' Hn1 Hl1 H1. rstep. finish HQ H1.
  unfold erase_param. simpl. by rewrite Ht'.
Qed.

Lemma field_item f : type_ok (fd_ty f) = true → item_reads 0 (parse_field_def file tokens) erase_field field_tokens ends_path RBrace f.
Proof.
  intros Hok. destruct f as [x ty fsp]. split; [|by eexists _, _]. intros n k rest Q Hn H Hk HQ. unfold parse_field_def. unfold field_tokens in *.
  cbn [fd_name fd_ty app] in *. do 5 rstep. eapply (full_type_reads file tokens ty 0); [done| |exact H|done|]; [lia|]. intros t' n1 Ht' Hn1 Hl1 H1. rstep. finish HQ H1.
  unfold erase_field. simpl. by rewrite Ht'.
Qed.

Definition not_paren (k : TokenKind) : bool := negb (same_kind k LParen).

Lemma type_item t : type_ok t = true → item_reads 0 (parse_type file tokens (loop_fuel tokens)) erase_type type_tokens ends_path RParen t.
Proof.
  intros Hok. split; [by apply full_type_reads|]. destruct (type_starts t Hok) as (k & w & -> & Hk). exists k, w. split; [done|]. by destruct k.
Qed.

Lemma variant_item v : forallb type_ok (v_payload v) = true → item_reads 0 (parse_variant file tokens) erase_variant variant_tokens not_paren RBrace v.
Proof.
  intros Hok. destruct v as [x ts vsp]. split; [|by eexists _, _]. intros n k rest Q Hn H Hk HQ. unfold parse_variant. unfold variant_tokens in *.
  cbn [v_name v_payload app] in *. destruct ts as [|t ts].
  - cbn [app] in H. rsteps. finish HQ H. done.
  - norm H. do 6 rstep. eapply (run_comma_list tokens 0 _ erase_type type_tokens ends_path RParen); [done..| | |exact H|]; [|lia|].
    + apply Forall_forall. intros u Hu. apply type_item. by eapply forallb_elem.
    + intros ts' n1 Hts Hn1 H1. rsteps. apply HQ; [|cbn [length]; rewrite length_app; cbn [length]; lia|by eapply in_range|done]. unfold erase_variant. cbn [v_name v_payload app]. by rewrite Hts.
Qed.

Lemma function_reads u f : type_ok (f_return_type f) = true → forallb (type_ok ∘ p_ty) (f_params f) = true →
  match f_body f with Some b => block_ok b = true | None => True end → u = f_unsafe f →
  reads 0 (parse_function file tokens u (f_abi f) (is_extern f)) erase_function (function_tokens f) (erase_function f) (λ _, true).
Proof.
  intros Hty Hps Hb -> n k rest Q Hn H _ HQ. unfold parse_function, parse_params. unfold function_tokens in H, HQ. norm H. do 5 rstep.
  assert (Hrest : ∀ params' n1, map erase_param params' = map erase_param (f_params f) → n1 = n + 2 + length (commas (map param_tokens (f_params f))) →
    drop n1 kinds = RParen :: Arrow :: type_tokens (f_return_type f) ++ match f_body f with Some b => block_tokens b | None => [Semi] end ++ k :: rest →
    wp (expect file tokens RParen "expected `)` after function parameters" ;;*
        let* arrow := eats tokens Arrow in
        let* return_type := (if arrow then parse_type file tokens (loop_fuel tokens) else synthetic_named_type tokens "void") in
        let* brace := (if is_extern f then at_ tokens LBrace else ret true) in
        let* body := (if brace then let* b := parse_block file tokens (loop_fuel tokens) in ret (Some b)
                      else expect file tokens Semi "extern function declarations end with `;`" ;;* ret None) in
        ret {| f_name := f_name f; f_unsafe := f_unsafe f; f_abi := f_abi f; f_params := params'; f_return_type := return_type; f_body := body |}) Q never n1).
  { intros params' n1 Hparams Hn1 H1. do 5 rstep. unfold is_extern. destruct (f_body f) as [b|] eqn:Eb.
    - destruct (block_starts b) as [w E]. rewrite E in H1. cbn [app] in H1.
      eapply (full_type_reads file tokens (f_return_type f) 0); [done| |exact H1|done|]; [lia|]. intros t' n2 Ht' Hn2 Hl2 H2. rstep.
      assert (Hend : ∀ b' n3, erase_block b' = erase_block b → n3 = n2 + length (block_tokens b) → n3 < len → drop n3 kinds = k :: rest →
        Q {| f_name := f_name f; f_unsafe := f_unsafe f; f_abi := f_abi f; f_params := params'; f_return_type := t'; f_body := Some b' |} n3).
      { intros b' n3 Hb' Hn3 Hl3 H3. apply HQ; [|solve_len|done..]. unfold erase_function. simpl. by rewrite Hparams, Ht', Eb; simpl; rewrite Hb'. }
      assert (Hgo : drop n2 kinds = block_tokens b ++ k :: rest) by (rewrite E; exact H2).
      destruct (negb _ || _); do 3 rstep; (eapply (full_block_reads b 0); [done| |exact Hgo|done|]; [lia|]); intros b' n3 Hb' Hn3 Hl3 H3; rsteps; by apply Hend.
    - cbn [app] in H1. eapply (full_type_reads file tokens (f_return_type f) 0); [done| |exact H1|done|]; [lia|]. intros t' n2 Ht' Hn2 Hl2 H2.
      change (bool_decide (@None Block = None)) with true. rewrite orb_true_r. rsteps. apply HQ; [|solve_len|by eapply in_range|done].
      unfold erase_function. simpl. by rewrite Hparams, Ht', Eb. }
  destruct (f_params f) as [|p ps] eqn:Ep.
  - cbn [map sep_by app] in H. do 2 rstep. rstep. apply Hrest; [done|simpl; lia|exact H].
  - destruct (proj2 (param_item p (forallb_elem _ _ p Hps ltac:(set_solver)))) as (k1 & w1 & E1 & Hk1). pose proof H as H'.
    cbn [map sep_by] in H'. rewrite E1 in H'. cbn [app] in H'. do 2 rstep. clear H'.
    eapply (run_trailing_loop tokens 0 _ erase_param param_tokens ends_path RParen); [done..| | |unfold loop_fuel; lia|exact H|]; [|lia|].
    + apply Forall_forall. intros q Hq. apply param_item. exact (forallb_elem _ _ _ Hps Hq).
    + intros params' n1 Hparams Hn1 H1. apply Hrest; [exact Hparams|lia|exact H1].
Qed.

(** The prefix of an item: [extern] with its ABI, and [unsafe]. *)
Definition item_abi (k : ItemKind) : Abi := match k with IFunction f => f_abi f | _ => AbiOCore end.
Definition item_extern (k : ItemKind) : bool := match k with IFunction f => is_extern f | _ => false end.
Definition item_unsafe (k : ItemKind) : bool := match k with IFunction f => f_unsafe f | _ => false end.

Definition item_core_tokens (k : ItemKind) : list TokenKind :=
  match k with IFunction f => KFn :: function_tokens f | _ => item_kind_tokens k end.

Lemma item_kind_tokens_prefix k : item_kind_tokens k =
  (if item_extern k then extern_tokens (item_abi k) else []) ++ (if item_unsafe k then [KUnsafe] else []) ++ item_core_tokens k.
Proof. by destruct k. Qed.

Lemma item_kind_reads i : item_ok i = true →
  reads 0 (parse_item_kind file tokens (item_unsafe (i_kind i)) (item_abi (i_kind i)) (item_extern (i_kind i))) erase_item_kind
    (item_core_tokens (i_kind i)) (erase_item_kind (i_kind i)) (λ _, true).
Proof.
  unfold item_ok. destruct (i_kind i) as [f|s|e|s|c]; intros Hok n k rest Q Hn H _ HQ; cbn [item_core_tokens item_kind_tokens item_unsafe item_abi item_extern] in *;
    unfold parse_item_kind.
  - rewrite !andb_true_iff in Hok. destruct Hok as [[[Habi Hps] Hty] Hb]. cbn [app] in H. do 3 rstep.
    eapply (function_reads _ f); [done|done|by destruct (f_body f)|done|lia|exact H|done|]. intros f' n1 Hf' Hn1 Hl1 H1. rstep. finish HQ H1.
    simpl. by rewrite Hf'.
  - unfold parse_struct. norm H. do 2 rstep. cbn [orb]. do 8 rstep.
    eapply (run_braced_loop file tokens 0 _ erase_field field_tokens ends_path); [done|done| |lia|unfold loop_fuel; lia|exact H|].
    + apply Forall_forall. intros f Hf. apply field_item. exact (forallb_elem _ _ _ Hok Hf).
    + intros fields' n1 Hfs Hn1 H1. rsteps. finish HQ H1. simpl. by rewrite Hfs.
  - unfold parse_enum. norm H. do 2 rstep. cbn [orb]. do 10 rstep.
    eapply (run_braced_loop file tokens 0 _ erase_variant variant_tokens not_paren); [done|done| |lia|unfold loop_fuel; lia|exact H|].
    + apply Forall_forall. intros v Hv. apply variant_item. exact (forallb_elem _ _ _ Hok Hv).
    + intros variants' n1 Hvs Hn1 H1. rsteps. finish HQ H1. simpl. by rewrite Hvs.
  - apply andb_true_iff in Hok as [Ht He]. unfold parse_static. destruct (st_mutable s) eqn:Em; norm H; do 2 rstep; cbn [orb]; rsteps;
      (eapply (full_type_reads file tokens (st_ty s) 0); [done| |exact H|done|]; [lia|]); intros t' n1 Ht' Hn1 Hl1 H1; rsteps;
      (eapply run_expr; [done|exact H1|]); intros e' n2 He' Hn2 Hl2 H2; rsteps; finish HQ H2; simpl; by rewrite Ht', He', Em.
  - apply andb_true_iff in Hok as [Ht He]. unfold parse_const. norm H. do 2 rstep. cbn [orb]. rsteps.
    eapply (full_type_reads file tokens (cd_ty c) 0); [done| |exact H|done|]; [lia|]. intros t' n1 Ht' Hn1 Hl1 H1. rsteps.
    eapply run_expr; [done|exact H1|]. intros e' n2 He' Hn2 Hl2 H2. rsteps. finish HQ H2. simpl. by rewrite Ht', He'.
Qed.

Definition core_start (k : TokenKind) : bool := match k with KFn | KStruct | KEnum | KStatic | KConst => true | _ => false end.

Lemma core_starts k : ∃ k1 w, item_core_tokens k = k1 :: w ∧ core_start k1 = true.
Proof. destruct k; by eexists _, _. Qed.

(** [extern] and [unsafe] in front of an item. *)
Lemma run_item_prefix {A} k n rest (next : bool → Abi → bool → P A) (Q : A → nat → Prop) : abi_ok (item_abi k) = true →
  drop n kinds = item_kind_tokens k ++ rest →
  (∀ n', n ≤ n' → n' + length (item_core_tokens k) = n + length (item_kind_tokens k) → drop n' kinds = item_core_tokens k ++ rest →
     wp (next (item_extern k) (item_abi k) (item_unsafe k)) Q never n') →
  wp (let* extern_ := eats tokens KExtern in
      let* abi := (if extern_ then parse_abi file tokens else ret AbiOCore) in
      let* unsafe_ := eats tokens KUnsafe in
      next extern_ abi unsafe_) Q never n.
Proof.
  intros Habi H HQ. rewrite item_kind_tokens_prefix in *. destruct (core_starts k) as (k1 & w & E & Hk1).
  assert (Hun : ∀ ext n1, ext = item_extern k → n ≤ n1 → n1 + length ((if item_unsafe k then [KUnsafe] else []) ++ item_core_tokens k) =
      n + length ((if item_extern k then extern_tokens (item_abi k) else []) ++ (if item_unsafe k then [KUnsafe] else []) ++ item_core_tokens k) →
    drop n1 kinds = (if item_unsafe k then [KUnsafe] else []) ++ item_core_tokens k ++ rest →
    wp (let* unsafe_ := eats tokens KUnsafe in next ext (item_abi k) unsafe_) Q never n1).
  { intros ext n1 -> Hle Hlen H1. destruct (item_unsafe k).
    - cbn [app] in H1. do 2 rstep. apply HQ; [lia| |exact H1]. rewrite <-Hlen. simpl. lia.
    - cbn [app] in H1. pose proof H1 as H'. rewrite E in H'. cbn [app] in H'. rstep. rstep. apply HQ; [lia| |exact H1]. rewrite <-Hlen. simpl. lia. }
  norm H. destruct (item_extern k) eqn:Eext.
  - unfold abi_ok in Habi. unfold extern_tokens in *. destruct (abi_name (item_abi k)) as [name|] eqn:Ename; [|done]. cbn [app] in H. unfold parse_abi. do 5 rstep.
    use_kind. rewrite (abi_of_abi_name _ _ Ename). rstep. cbn beta. apply (Hun true); [done|lia| |exact H]. cbn [length app]. lia.
  - cbn [app] in H. assert (Habi' : item_abi k = AbiOCore).
    { destruct k as [f| | | |]; try done. simpl in *. unfold is_extern in Eext. apply orb_false_iff in Eext as [Eext _].
      apply negb_false_iff, bool_decide_eq_true in Eext. done. }
    assert (Hmiss : ∃ k' rest', (if item_unsafe k then [KUnsafe] else []) ++ item_core_tokens k ++ rest = k' :: rest' ∧ same_kind k' KExtern = false).
    { destruct (item_unsafe k); cbn [app]; [by eexists _, _|]. rewrite E. eexists _, _. split; [done|]. by destruct k1. }
    destruct Hmiss as (k' & rest' & E' & Hk'). pose proof H as H'. rewrite E' in H'. rstep. rstep. clear H'. rstep. rstep. cbn beta. rewrite <-Habi'.
    apply (Hun false); [done|lia|cbn [app]; lia|exact H].
Qed.

Lemma item_abi_ok i : item_ok i = true → abi_ok (item_abi (i_kind i)) = true.
Proof. unfold item_ok. destruct (i_kind i); simpl; try done. rewrite !andb_true_iff. naive_solver. Qed.

Definition item_start (k : TokenKind) : bool := match k with KExtern | KUnsafe => true | _ => core_start k end.

Lemma item_kind_starts k : abi_ok (item_abi k) = true → ∃ k1 w, item_kind_tokens k = k1 :: w ∧ item_start k1 = true.
Proof.
  intros Habi. rewrite item_kind_tokens_prefix. destruct (core_starts k) as (k1 & w & E & Hk1). destruct (item_extern k).
  - unfold abi_ok in Habi. unfold extern_tokens. destruct (abi_name (item_abi k)); [|done]. by eexists _, _.
  - destruct (item_unsafe k); cbn [app]; [by eexists _, _|]. rewrite E. eexists _, _. split; [done|]. by destruct k1.
Qed.

Lemma item_reads_back i : item_ok i = true → reads 0 (parse_item file tokens) erase_item (item_tokens i) (erase_item i) (λ _, true).
Proof.
  intros Hok n k rest Q Hn H _ HQ. pose proof (item_abi_ok i Hok) as Habi. destruct (item_kind_starts _ Habi) as (k1 & w1 & E1 & Hk1).
  unfold parse_item, parse_attributes. unfold item_tokens in H, HQ. norm H. rstep.
  assert (Hmiss : ∃ k' rest', (if i_public i then [KPub] else []) ++ item_kind_tokens (i_kind i) ++ k :: rest = k' :: rest' ∧ after_attributes k' = true).
  { destruct (i_public i); cbn [app]; [by eexists _, _|]. rewrite E1. eexists _, _. split; [done|]. by destruct k1. }
  destruct Hmiss as (k' & rest' & E' & Hk'). rewrite E' in H. eapply run_attributes; [unfold loop_fuel; lia|exact H|done|].
  intros attrs' n1 Hattrs Hn1 Hl1 H1. cbn [app]. rstep. rstep. rewrite <-E' in H1.
  assert (Hgo : ∀ public n2, public = i_public i → n2 = n1 + length (if i_public i then [KPub] else []) →
    drop n2 kinds = item_kind_tokens (i_kind i) ++ k :: rest →
    wp (let* extern_ := eats tokens KExtern in
        let* abi := (if extern_ then parse_abi file tokens else ret AbiOCore) in
        let* unsafe_ := eats tokens KUnsafe in
        let* k := parse_item_kind file tokens unsafe_ abi extern_ in
        let* last := previous tokens in
        ret {| i_attrs := attrs'; i_public := public; i_kind := k;
               i_span := join match attrs' with a :: _ => at_span a | [] => span t end (span last) |}) Q never n2).
  { intros public n2 -> Hn2 H2. apply (run_item_prefix (i_kind i) n2 (k :: rest) (λ ext abi u, let* k := parse_item_kind file tokens u abi ext in _)); [done..|].
    intros n3 Hn3 Hlen H3. rstep. eapply (item_kind_reads i Hok); [lia|exact H3|done|]. intros ik n4 Hik Hn4 Hl4 H4. rsteps.
    apply HQ; [|rewrite !length_app; lia|done..]. unfold erase_item. simpl. by rewrite Hattrs, Hik. }
  destruct (i_public i); cbn [app] in H1; cbn beta zeta iota.
  - rstep. rstep. apply Hgo; [done|simpl; lia|exact H1].
  - pose proof H1 as H'. rewrite E1 in H'. cbn [app] in H'. rstep. rstep. apply Hgo; [done|simpl; lia|exact H1].
Qed.

(** ** Modules *)

Lemma run_uses uses f acc n k rest (Q : list UseDecl → nat → Prop) : forallb (path_ok ∘ u_path) uses = true → len - n < f →
  drop n kinds = (uses ≫= use_tokens) ++ k :: rest → same_kind k KUse = false →
  (∀ uses' n', map erase_use uses' = map erase_use uses → n' = n + length (uses ≫= use_tokens) → drop n' kinds = k :: rest → Q (acc ++ uses') n') →
  wp (uses_loop file tokens f acc) Q never n.
Proof.
  revert f acc n. induction uses as [|u uses IH]; intros [|f] acc n Hok Hf H Hk HQ; try lia; cbn [uses_loop].
  - simpl in H. rsteps. rewrite <-(app_nil_r acc). apply HQ; [done|simpl; lia|done].
  - cbn [forallb] in Hok. apply andb_true_iff in Hok as [Hp Hok]. rewrite bind_cons in H, HQ. unfold use_tokens in H at 1. norm H.
    pose proof (in_range _ _ _ _ H) as Hlt. do 5 rstep. destruct u as [path alias usp]. unfold compose in Hp. cbn [u_path u_alias] in *.
    assert (Hrec : ∀ u' n1, erase_use u' = erase_use {| u_path := path; u_alias := alias; u_span := usp |} →
      n1 = n + length (use_tokens {| u_path := path; u_alias := alias; u_span := usp |}) → drop n1 kinds = (uses ≫= use_tokens) ++ k :: rest →
      wp (uses_loop file tokens f (acc ++ [u'])) Q never n1).
    { intros u' n1 Hu Hn1 H1. unfold use_tokens in Hn1. cbn [length] in Hn1. eapply IH; [done|lia|exact H1|done|]. intros uses' n2 Hus Hn2 H2.
      rewrite <-app_assoc. apply HQ; [cbn [app map]; by rewrite Hu, Hus| |done]. rewrite length_app. unfold use_tokens at 1. cbn [length]. lia. }
    destruct alias as [s|]; cbn [app] in H.
    + eapply (path_reads file tokens 0 path Hp); [lia|exact H|done|]. intros p n1 Hp1 Hn1 Hl1 H1. unfold id in Hp1. subst p. rsteps. apply Hrec; [done| |exact H1].
      unfold use_tokens. cbn [u_path u_alias]. solve_len.
    + eapply (path_reads file tokens 0 path Hp); [lia|exact H|done|]. intros p n1 Hp1 Hn1 Hl1 H1. unfold id in Hp1. subst p. rsteps. apply Hrec; [done| |exact H1].
      unfold use_tokens. cbn [u_path u_alias]. solve_len.
Qed.

Lemma item_starts i : item_ok i = true → ∃ k w, item_tokens i = k :: w ∧ same_kind k KUse = false ∧ same_kind k Eof = false.
Proof.
  intros Hok. destruct (item_kind_starts _ (item_abi_ok i Hok)) as (k1 & w1 & E1 & Hk1). unfold item_tokens.
  destruct (i_attrs i) as [|a attrs]; [|by eexists _, _]. destruct (i_public i); [by eexists _, _|]. simpl. rewrite E1.
  eexists _, _. split; [done|]. by destruct k1.
Qed.

Lemma run_items items f acc n (Q : list Item → nat → Prop) : forallb item_ok items = true → len - n < f →
  drop n kinds = (items ≫= item_tokens) ++ [Eof] →
  (∀ items' n', map erase_item items' = map erase_item items → drop n' kinds = [Eof] → Q (acc ++ items') n') →
  wp (items_loop file tokens f acc) Q never n.
Proof.
  revert f acc n. induction items as [|i items IH]; intros [|f] acc n Hok Hf H HQ; try lia; cbn [items_loop].
  - simpl in H. rsteps. rewrite <-(app_nil_r acc). by apply HQ.
  - cbn [forallb] in Hok. apply andb_true_iff in Hok as [Hi Hok]. rewrite bind_cons in H. norm H.
    destruct (item_starts i Hi) as (k & w & E & _ & Hk). pose proof H as H'. rewrite E in H'. cbn [app] in H'. rstep. rstep. clear H'. rstep.
    assert (Hnext : ∃ k' rest', (items ≫= item_tokens) ++ [Eof] = k' :: rest') by (destruct ((items ≫= item_tokens) ++ [Eof]) eqn:E'; [by destruct (items ≫= item_tokens)|eauto]).
    destruct Hnext as (k' & rest' & E'). rewrite E' in H. eapply (item_reads_back i Hi); [lia|exact H|done|]. intros i' n1 Hi' Hn1 Hl1 H1. rewrite <-E' in H1.
    assert (n < n1) by (rewrite E in Hn1; simpl in Hn1; lia). eapply IH; [done|lia|exact H1|]. intros items' n2 His H2. rewrite <-app_assoc.
    apply HQ; [|done]. cbn [app map]. by rewrite Hi', His.
Qed.

Lemma module_reads m : module_ok m = true → kinds = module_tokens m ++ [Eof] →
  wp (parse_module file tokens) (λ m' _, erase_module m' = erase_module m) never 0.
Proof.
  intros Hok H. unfold module_ok in Hok. rewrite !andb_true_iff in Hok. destruct Hok as [[Hp Hus] His]. rewrite <-(drop_0 kinds) in H. unfold module_tokens in H.
  norm H. unfold parse_module. do 3 rstep. eapply (path_reads file tokens 0 (m_name m) Hp); [lia|exact H|done|]. intros p n1 Hp' Hn1 Hl1 H1. unfold id in Hp'. subst p.
  clear H. do 3 rstep.
  assert (Hnext : ∃ k' rest', (m_items m ≫= item_tokens) ++ [Eof] = k' :: rest' ∧ same_kind k' KUse = false).
  { destruct (m_items m) as [|i items]; [by eexists _, _|]. cbn [forallb] in His. apply andb_true_iff in His as [Hi _].
    destruct (item_starts i Hi) as (k & w & E & Hk & _). rewrite bind_cons, E. by eexists _, _. }
  destruct Hnext as (k' & rest' & E' & Hk'). rewrite E' in H1. eapply run_uses; [exact Hus|unfold loop_fuel; lia|exact H1|done|].
  intros uses' n2 Hus' Hn2 H2. cbn [app]. rewrite <-E' in H2. rstep. eapply run_items; [exact His|unfold loop_fuel; lia|exact H2|].
  intros items' n3 His' H3. rsteps. unfold erase_module. simpl. by rewrite Hus', His'.
Qed.
End Items.
