(* ===== verification/OcoreParserTheorems.v ===== *)
(** * Theorems on the front end of Ocore *)

From S2P Require Import Prelude.
From S2P Require Import Utf8.
From S2P Require Import BashScan.
From S2P Require Import OcoreLexer.
From S2P Require Import OcoreLexerFacts.
From S2P Require Import OcoreLexerTheorems.
From S2P Require Import OcoreAst.
From S2P Require Import OcoreParser.
From S2P Require Import OcoreSurface.
From S2P Require Import OcoreParserFacts.
From S2P Require Import OcorePrinter.
From S2P Require Import OcoreRoundtripItems.
From stdpp Require Import options.

#[local] Open Scope nat_scope.

(** ** Every source is parsed or refused *)

(** A diagnostic with the line and the column of the byte that it shows. *)
Definition located {A} (source : str) (d : Diagnostic A) : Prop :=
  start (d_span d) ≤ end_ (d_span d) ≤ length source ∧
  line (d_span d) = line_of source (start (d_span d)) ∧ column (d_span d) = column_of source (start (d_span d)).

Lemma placed_lookup source n ts i t : placed_tokens source n ts → ts !! i = Some t →
  start (span t) ≤ end_ (span t) ≤ length source ∧ line (span t) = line_of source (start (span t)) ∧ column (span t) = column_of source (start (span t)).
Proof.
  revert n i. induction ts as [|u ts IH]; intros n i Hp Hi; [done|]. destruct Hp as (H1 & H2 & H3 & H4). destruct i as [|i]; simpl in Hi.
  - injection Hi as <-. split_and!; [|destruct ts; lia|done..]. destruct ts; lia.
  - destruct ts as [|v ts]; [done|]. destruct H4 as (_ & _ & H4). by eapply IH.
Qed.

(** C10. The front end of Ocore is total and its positions are exact.  For every valid
    UTF-8 source [parse] returns: no index is out of range, no loop and no recursion goes
    on forever.  Either an orchestration program is refused before lexing; or a
    diagnostic names the file and shows bytes of the source with their line and column;
    or the whole module is parsed, and every node of the tree covers a run of tokens,
    with its parts inside of it, in the order of the source and without overlap. *)
Theorem ocore_parse_total (file source : str) : utf8_valid source = true →
  match parse file source with
  | Ok m => ∃ tokens, lex file source = Ok tokens ∧ placed_tokens source 0 tokens ∧ module_at tokens m
  | Err d => reject_orchestration_input file (Some source) = Some d ∨ d_file d = file ∧ located source d
  | Panic | NoFuel => False
  end.
Proof.
  intros Hutf. unfold parse. destruct (reject_orchestration_input file (Some source)) as [d|]; [by left|].
  pose proof (lex_placed file source Hutf) as Hlex. destruct (lex file source) as [tokens|d| |]; [|right|done..].
  - pose proof (wp_module file tokens (placed_well_placed _ _ _ Hlex)) as Hm. unfold wp in Hm.
    destruct (parse_module file tokens 0) as [n [m|d| |]]; simpl; [by exists tokens|right|done..].
    destruct Hm as [Hd (t & (i & Ht)%list_elem_of_lookup_1 & Hsp)]. split; [done|]. unfold located. rewrite Hsp. by eapply placed_lookup.
  - destruct Hlex as (n & Hn & Hf & Hsp). split; [done|]. unfold located, lexical. cbn [d_span]. rewrite Hsp. cbn [start end_ line column]. split_and!; done || lia.
Qed.

Lemma ocore_parse_total_witness :
  utf8_valid (lit "module m; fn f() { return 1 + ; }") = true ∧
  match parse (lit "m.oc") (lit "module m; fn f() { return 1 + ; }") with
  | Err d => d_file d = lit "m.oc" ∧ located (lit "module m; fn f() { return 1 + ; }") d
  | _ => False
  end.
Proof.
  split; [reflexivity|]. pose proof (ocore_parse_total (lit "m.oc") (lit "module m; fn f() { return 1 + ; }") eq_refl) as H.
  assert (E : ∃ d, parse (lit "m.oc") (lit "module m; fn f() { return 1 + ; }") = Err d) by (eexists; vm_compute; reflexivity).
  destruct E as [d E]. rewrite E in *. destruct H as [H|H]; [|exact H]. vm_compute in H. discriminate H.
Defined.

(** ** Printed modules are read back *)

Lemma unchars_chars fuel s : length s ≤ fuel → unchars (chars_aux fuel s) = s.
Proof.
  revert s. induction fuel as [|fuel IH]; intros [|b s] Hl; simpl in Hl; [done|lia|done|]. cbn [chars_aux].
  assert (Hw : ∃ w, lead_len b = S w) by (unfold lead_len; repeat case_match; eauto). destruct Hw as [w Hw].
  unfold unchars in *. rewrite fmap_cons. cbn [concat snd]. rewrite IH; [apply take_drop|]. rewrite Hw. simpl. rewrite length_drop. lia.
Qed.

Lemma trim_start_ascii b s : (0 ≤ b < 128)%Z → char_is_whitespace b = false → trim_start (b :: s) = b :: s.
Proof.
  intros Hb Hw. unfold trim_start, chars. pose proof (unchars_chars (S (length s)) (b :: s) ltac:(simpl; lia)) as H.
  cbn [length]. assert (E : drop_ws (chars_aux (S (length s)) (b :: s)) = chars_aux (S (length s)) (b :: s)); [|by rewrite E].
  cbn [chars_aux drop_ws fst]. assert (E : char_at (b :: s) = Some b) by (unfold char_at; by rewrite (proj2 (Z.ltb_lt b 0x80)) by lia).
  rewrite E. simpl. by rewrite Hw.
Qed.

Lemma printed_module_accepted m : detect_orchestration_surface (print_tokens (module_tokens m)) = None.
Proof.
  unfold detect_orchestration_surface.
  assert (E : ∃ rest, print_tokens (module_tokens m) = lit "module " ++ rest) by (unfold module_tokens, print_tokens; rewrite bind_cons; eexists; reflexivity).
  destruct E as [rest E]. rewrite E. change (lit "module " ++ rest) with (109%Z :: lit "odule " ++ rest). rewrite trim_start_ascii by done.
  change (109%Z :: lit "odule " ++ rest) with (lit "module " ++ rest). by rewrite (proj2 (starts_with_spec _ _)) by eauto.
Qed.

(** C9. The front end of Ocore reads printed modules back.  For every syntax tree that
    can be written, with names, numbers and strings that can be written, in a file without
    the extensions [O] and [o_lang] of orchestration programs, the text that prints it is
    lexed and parsed to the same tree, up to the spans.  It has parentheses where the
    precedence of the operators needs them and around a condition that ends in a path
    before an empty block, which would be read as a struct literal; all other operands and
    conditions are printed bare.  So no printed text has two readings, and the precedence
    and the associativity of all operators are those of the printer. *)
Theorem ocore_parse_print (file : str) (m : SourceModule) :
  extension file ≠ Some (lit "O") → extension file ≠ Some (lit "o_lang") →
  module_ok m = true → Forall (λ k, printable k = true) (module_tokens m) →
  ∃ m', parse file (print_tokens (module_tokens m)) = Ok m' ∧ erase_module m' = erase_module m.
Proof.
  intros H1 H2 Hok Hp. unfold parse, reject_orchestration_input. rewrite bool_decide_eq_false_2 by (by intros []).
  rewrite printed_module_accepted. destruct (lex_print file _ Hp) as (tokens & -> & Hk).
  pose proof (module_reads file tokens m Hok Hk) as Hm. unfold wp in Hm. destruct (parse_module file tokens 0) as [n [m'|d| |]]; [|done..].
  by exists m'.
Qed.

(** [module m; use a::b as c; extern "C" fn put(c: u8) -> void;
    @export fn f(x: *mut u64) -> u64 { while (x) { } if 1 < x { break; } return (1 + 2) * -3 - *x as u64; }].
    The cast binds tighter than the dereference. *)
Definition sample_module : SourceModule :=
  let named s := MkType (TNamed [lit s]) no_span in
  let int n := MkExpr (EInteger n) no_span in
  let x := MkExpr (EPath [lit "x"]) no_span in
  let binary op a b := MkExpr (EBinary op a b) no_span in
  let unary op a := MkExpr (EUnary op a) no_span in
  {| m_name := [lit "m"];
     m_uses := [{| u_path := [lit "a"; lit "b"]; u_alias := Some (lit "c"); u_span := no_span |}];
     m_items :=
       [{| i_attrs := []; i_public := false; i_span := no_span;
           i_kind := IFunction {| f_name := lit "put"; f_unsafe := false; f_abi := AbiC; f_return_type := named "void"; f_body := None;
                                  f_params := [{| p_name := lit "c"; p_ty := named "u8"; p_span := no_span |}] |} |};
        {| i_attrs := [{| at_name := lit "export"; at_args := []; at_span := no_span |}]; i_public := false; i_span := no_span;
           i_kind := IFunction {| f_name := lit "f"; f_unsafe := false; f_abi := AbiOCore; f_return_type := named "u64";
                                  f_params := [{| p_name := lit "x"; p_ty := MkType (TPointer true (named "u64")) no_span; p_span := no_span |}];
                                  f_body := Some (MkBlock
                                    [MkStmt (SWhile x (MkBlock [] no_span)) no_span;
                                     MkStmt (SIf (binary BLess (int 1%Z) x) (MkBlock [MkStmt SBreak no_span] no_span) None) no_span;
                                     MkStmt (SReturn (Some (binary BSub (binary BMul (binary BAdd (int 1%Z) (int 2%Z)) (unary UNeg (int 3%Z)))
                                       (unary UDeref (MkExpr (ECast x (named "u64")) no_span))))) no_span] no_span) |} |}];
     m_span := no_span |}.

Lemma ocore_parse_print_witness :
  module_ok sample_module = true ∧ Forall (λ k, printable k = true) (module_tokens sample_module) ∧
  ∃ m', parse (lit "m.oc") (print_tokens (module_tokens sample_module)) = Ok m' ∧ erase_module m' = erase_module sample_module.
Proof.
  assert (Hok : module_ok sample_module = true) by reflexivity.
  assert (Hp : Forall (λ k, printable k = true) (module_tokens sample_module)) by (apply (proj1 (forallb_Forall printable _)); vm_compute; reflexivity).
  split; [exact Hok|]. split; [exact Hp|].
  refine (ocore_parse_print (lit "m.oc") sample_module _ _ Hok Hp); intros E; vm_compute in E; discriminate E.
Defined.

(** ** Three faults *)

(** A path before an empty block is taken for a struct literal: the loop [while x {}]
    and the statement [if x {}] are refused. *)
Theorem empty_block_refused :
  let refused source := match parse (lit "m.oc") (lit source) with
                        | Err d => d_message d = Says "expected `{` to begin block"
                        | _ => False
                        end in
  refused "module m; fn f(x: bool) { while x {} }"%string ∧ refused "module m; fn f(x: bool) { if x {} }"%string ∧
  match parse (lit "m.oc") (lit "module m; fn f(x: bool) { while (x) {} if x { f(x); } }") with Ok _ => True | _ => False end.
Proof. vm_compute. split_and!; reflexivity. Qed.

(** The span of a foreign block counts one byte for the end of each line above it: after
    lines that end with a carriage return and a newline it starts too early. *)
Theorem crlf_span_early :
  let source := [13; 10; 13; 10]%Z ++ lit "python^(1)" in
  match parse (lit "m.oc") source with
  | Err d => d_message d = OrchestrationSyntax "foreign-language block `^(...)`" ∧ start (d_span d) = 2 ∧ drop 4 source = lit "python^(1)"
  | _ => False
  end.
Proof. vm_compute. split_and!; reflexivity. Qed.

(** The separator at the end of a path is consumed and forgotten: a path that ends in
    [::] is accepted, not reported. *)
Theorem dangling_separator_accepted :
  match parse (lit "m.oc") (lit "module m::; const A: u64:: = b::;") with
  | Ok {| m_name := name; m_items := [{| i_kind := IConst c |}] |} =>
      name = [lit "m"] ∧ erase_type (cd_ty c) = MkType (TNamed [lit "u64"]) no_span ∧ erase_expr (cd_init c) = MkExpr (EPath [lit "b"]) no_span
  | _ => False
  end.
Proof. vm_compute. split_and!; reflexivity. Qed.

(** * Orchestration programs *)

(** ** Texts *)

Lemma find_sub_Some p s i : find_sub p s = Some i → ∃ r, s = take i s ++ p ++ r.
Proof.
  revert i. induction s as [|b s IH]; intros i; cbn [find_sub].
  - destruct (starts_with [] p) eqn:E; [|done]. intros [= <-]. apply starts_with_spec in E as [r Hr]. by exists r.
  - destruct (starts_with (b :: s) p) eqn:E; [intros [= <-]; apply starts_with_spec in E as [r Hr]; by exists r|].
    destruct (find_sub p s) as [j|] eqn:Ej; [|done]. intros [= <-]. destruct (IH j eq_refl) as [r Hr]. exists r. simpl. by f_equal.
Qed.

Lemma strip_cr_id s : 13%Z ∉ s → strip_cr s = s.
Proof.
  intros Hs. unfold strip_cr. destruct (ends_with s [13%Z]) eqn:E; [|done]. unfold ends_with in E. apply starts_with_spec in E as [r Hr].
  exfalso. apply Hs. apply (f_equal reverse) in Hr. rewrite reverse_involutive, reverse_app in Hr. rewrite Hr. set_solver.
Qed.

(** The lines before a line of a source, each with its newline. *)
Definition with_newlines (ls : list str) : str := ls ≫= λ l, l ++ [10%Z].

Lemma join_byte_split ws line rest : join_byte 10 (ws ++ line :: rest) = with_newlines ws ++ join_byte 10 (line :: rest).
Proof.
  induction ws as [|w ws IH]; [done|]. unfold with_newlines in *. rewrite bind_cons. destruct ws as [|w' ws].
  - change ([] ≫= λ l, l ++ [10%Z]) with (@nil Z). rewrite app_nil_r, <-app_assoc. done.
  - change (join_byte 10 ((w :: w' :: ws) ++ line :: rest)) with (w ++ 10%Z :: join_byte 10 ((w' :: ws) ++ line :: rest)).
    rewrite IH, <-!app_assoc. done.
Qed.

(** The lines of a source without carriage returns. *)
Lemma lines_split source before line rest : 13%Z ∉ source → lines source = before ++ line :: rest →
  ∃ tail, source = with_newlines before ++ line ++ tail ∧ Forall (λ l, 10%Z ∉ l) (before ++ [line]).
Proof.
  intros Hcr Hl. pose proof (split_byte_clean 10 source) as Hclean. pose proof (join_split 10 source) as Hjoin.
  assert (Hparts : ∃ more, split_byte 10 source = before ++ line :: more).
  { unfold lines in Hl. set (parts := split_byte 10 source) in *.
    assert (Hno : Forall (λ w, 13%Z ∉ w) parts).
    { subst parts. clear -Hcr. induction source as [|b s IH]; simpl; [by repeat constructor; set_solver|].
      specialize (IH ltac:(set_solver)). destruct (b =? 10)%Z; [by constructor; [set_solver|]|].
      destruct (split_byte 10 s); [by repeat constructor; set_solver|]. apply Forall_cons in IH as [H1 H2]. constructor; [|done]. set_solver. }
    assert (Hstrip : strip_cr <$> take (length parts - 1) parts = take (length parts - 1) parts).
    { rewrite <-(list_fmap_id (take (length parts - 1) parts)) at 2. apply list_fmap_ext. intros i w Hw. apply strip_cr_id.
      eapply (Forall_forall (λ w, 13%Z ∉ w) (take (length parts - 1) parts)); [by apply Forall_take|by eapply list_elem_of_lookup_2]. }
    rewrite Hstrip in Hl. destruct (last parts) as [w|] eqn:Ew.
    - apply last_Some in Ew as [init Ew]. rewrite Ew, length_app in Hl. simpl in Hl. rewrite Nat.add_sub, take_app_length in Hl.
      rewrite Ew. destruct w as [|b w].
      + rewrite app_nil_r in Hl. rewrite Hl. exists (rest ++ [[]]). by rewrite <-app_assoc.
      + rewrite Hl. by exists rest.
    - apply last_None in Ew. exfalso. by apply (split_byte_ne 10 source). }
  destruct Hparts as [more Hm]. rewrite Hm in Hjoin, Hclean. rewrite join_byte_split in Hjoin.
  assert (Htail : ∃ tail, join_byte 10 (line :: more) = line ++ tail) by (destruct more; simpl; [exists []; by rewrite app_nil_r|eauto]).
  destruct Htail as [tail Ht]. exists tail. split; [by rewrite <-Hjoin, Ht|]. rewrite Forall_app, Forall_cons in Hclean. rewrite Forall_app. naive_solver.
Qed.

Lemma last_line_clean s w : 10%Z ∉ w → last_line (s ++ w) = last_line s ++ w.
Proof.
  revert s. induction w as [|b w IH]; intros s Hw; [by rewrite !app_nil_r|]. rewrite cons_middle, !app_assoc, IH by set_solver. rewrite last_line_snoc.
  destruct (Z.eqb_spec b 10); [set_solver|]. by rewrite <-app_assoc.
Qed.

Lemma last_line_newlines ls : last_line (with_newlines ls) = [].
Proof.
  induction ls as [|l ls _] using rev_ind; [done|]. unfold with_newlines. rewrite bind_app. simpl. rewrite app_nil_r, app_assoc, last_line_snoc. done.
Qed.

Lemma newlines_count ls : Forall (λ l, 10%Z ∉ l) ls → length (filter (λ b, b = 10%Z) (with_newlines ls)) = length ls.
Proof.
  induction 1 as [|l ls Hl _ IH]; [done|]. unfold with_newlines in *. rewrite bind_cons, !filter_app, !length_app, IH.
  assert (E : filter (λ b, b = 10%Z) l = []) by (clear -Hl; induction l as [|b l IH]; [done|]; rewrite filter_cons_False; set_solver). rewrite E. done.
Qed.

Lemma newlines_length ls : length (with_newlines ls) = sum_list ((λ l, length l + 1) <$> ls).
Proof.
  induction ls as [|l ls IH]; [done|]. unfold with_newlines in *. rewrite bind_cons, !length_app, IH, fmap_cons.
  cbn [length sum_list_with]. unfold id. lia.
Qed.

(** ** The report *)

Lemma surface_loop_Some before rest r : surface_loop before rest = Some r →
  ∃ skipped line rest', rest = skipped ++ line :: rest' ∧ block_in_line (before ++ skipped) (code_of line) = Some r.
Proof.
  revert before. induction rest as [|line rest IH]; intros before; [done|]. cbn [surface_loop]. destruct (_ || _ || _).
  - intros H. apply IH in H as (skipped & line' & rest' & -> & H). exists (line :: skipped), line', rest'. split; [done|].
    by rewrite <-app_assoc in H.
  - intros H. exists [], line, rest. by rewrite app_nil_r.
Qed.

Lemma tag_of_suffix s : ∃ pre, s = pre ++ tag_of s ∧ Forall (λ b, is_tag_byte b = true) (tag_of s).
Proof.
  unfold tag_of. exists (reverse (drop (span_len is_tag_byte (reverse s)) (reverse s))). split.
  - rewrite <-reverse_app, take_drop. by rewrite reverse_involutive.
  - apply Forall_reverse, span_len_take.
Qed.

Lemma code_of_prefix line : ∃ comment, line = code_of line ++ comment.
Proof.
  unfold code_of. destruct (find_sub _ line) as [i|]; [|exists []; by rewrite app_nil_r]. exists (drop i line). by rewrite take_drop.
Qed.


