(* ===== verification/OcoreHir.v ===== *)
(** * The type context of Ocore

    [crates/ostadix-api/src/ocore/hir.rs], first part: interned types, structures and
    enumerations with their layouts.  The arithmetic of layouts is that of [u64]; whether
    an overflow panics or wraps around depends on the build profile ([Cargo.toml] turns the
    checks off for releases), which is an argument here. *)

From S2P Require Import Prelude.
From S2P Require Import OcoreLexer.
From S2P Require Import OcoreAst.
From stdpp Require Import options.

#[local] Open Scope Z_scope.

(** ** Arithmetic of a build profile *)

Inductive Profile : Type := Dev | Release.

#[export] Instance Profile_eq_dec : EqDecision Profile.
Proof. solve_decision. Defined.

Definition u64_wrap (p : Profile) {E} (n : Z) : outcome E Z :=
  if (0 <=? n) && (n <=? U64_MAX) then Ok n
  else match p with Dev => Panic | Release => Ok (n mod (U64_MAX + 1)) end.

(** [u64::is_power_of_two]. *)
Definition is_power_of_two (n : Z) : bool := (0 <? n) && (Z.land n (n - 1) =? 0).

(** [debug_assert!], then [(value + align - 1) & !(align - 1)]. *)
Definition align_up (p : Profile) {E} (value align : Z) : outcome E Z :=
  if bool_decide (p = Dev) && negb (is_power_of_two align) then Panic else
  let+ sum := u64_wrap p (value + align) in
  let+ sum := u64_wrap p (sum - 1) in
  let+ mask := u64_wrap p (align - 1) in
  Ok (Z.land sum (Z.lxor U64_MAX mask)).

(** ** Types *)

Abbreviation TypeId := nat.
Abbreviation StructId := nat.
Abbreviation EnumId := nat.

Record Layout : Type := { ly_size : Z; ly_align : Z }.

Inductive HType : Type :=
| TyBool
| TyInt (signed : bool) (bits : Z)
| TyUsize
| TyIsize
| TyFloat (bits : Z)
| TyVoid
| TyNever
| TyPointer (mutable : bool) (pointee : TypeId)
| TyArray (element : TypeId) (len : Z)
| TyStruct (id : StructId)
| TyEnum (id : EnumId)
| TyFunction (params : list TypeId) (result : TypeId) (abi : Abi).

#[export] Instance HType_eq_dec : EqDecision HType.
Proof. solve_decision. Defined.

(** Types are keys of the interner. *)
Definition abi_code (abi : Abi) : nat :=
  match abi with AbiOCore => 0 | AbiC => 1 | AbiSysV64 => 2 | AbiInterrupt => 3 end%nat.

Definition abi_decode (n : nat) : Abi :=
  match n with 0 => AbiOCore | 1 => AbiC | 2 => AbiSysV64 | _ => AbiInterrupt end%nat.

Definition htype_code (t : HType) : (nat * bool * Z) * (nat * list nat) :=
  match t with
  | TyBool => (0%nat, false, 0, (0%nat, []))
  | TyInt s b => (1%nat, s, b, (0%nat, []))
  | TyUsize => (2%nat, false, 0, (0%nat, []))
  | TyIsize => (3%nat, false, 0, (0%nat, []))
  | TyFloat b => (4%nat, false, b, (0%nat, []))
  | TyVoid => (5%nat, false, 0, (0%nat, []))
  | TyNever => (6%nat, false, 0, (0%nat, []))
  | TyPointer m p => (7%nat, m, 0, (p, []))
  | TyArray e n => (8%nat, false, n, (e, []))
  | TyStruct i => (9%nat, false, 0, (i, []))
  | TyEnum i => (10%nat, false, 0, (i, []))
  | TyFunction ps r abi => (11%nat, false, 0, (r, abi_code abi :: ps))
  end.

Definition htype_decode (c : (nat * bool * Z) * (nat * list nat)) : HType :=
  let '((k, b, z), (i, l)) := c in
  match k with
  | 0%nat => TyBool
  | 1%nat => TyInt b z
  | 2%nat => TyUsize
  | 3%nat => TyIsize
  | 4%nat => TyFloat z
  | 5%nat => TyVoid
  | 6%nat => TyNever
  | 7%nat => TyPointer b i
  | 8%nat => TyArray i z
  | 9%nat => TyStruct i
  | 10%nat => TyEnum i
  | _ => match l with a :: ps => TyFunction ps i (abi_decode a) | [] => TyBool end
  end.

#[export] Instance HType_countable : Countable HType.
Proof. refine (inj_countable' htype_code htype_decode _). by intros [| | | | | | | | | | | ? ? []]. Defined.

(** ** Structures, enumerations and the context *)

Record StructField : Type := { sf_name : str; sf_ty : TypeId; sf_offset : Z }.

Record StructType : Type := {
  ss_name : str;
  ss_fields : list StructField;
  ss_packed : bool;
  ss_requested_align : option Z;
  ss_layout : Layout
}.

Record EnumVariant : Type := { ev_name : str; ev_payload : list TypeId; ev_payload_layout : Layout }.

Record EnumType : Type := {
  en_name : str;
  en_variants : list EnumVariant;
  en_tag_size : Z;
  en_payload_offset : Z;
  en_layout : Layout
}.

Record TypeContext : Type := {
  types : list HType;
  structs : list StructType;
  enums : list EnumType;
  interned : gmap HType TypeId;
  primitive_names : gmap str TypeId
}.

Definition set_structs (ss : list StructType) (cx : TypeContext) : TypeContext :=
  {| types := types cx; structs := ss; enums := enums cx; interned := interned cx; primitive_names := primitive_names cx |}.

Definition set_enums (es : list EnumType) (cx : TypeContext) : TypeContext :=
  {| types := types cx; structs := structs cx; enums := es; interned := interned cx; primitive_names := primitive_names cx |}.

Definition intern (cx : TypeContext) (ty : HType) : TypeContext * TypeId :=
  match interned cx !! ty with
  | Some id => (cx, id)
  | None =>
      let id := length (types cx) in
      ({| types := types cx ++ [ty]; structs := structs cx; enums := enums cx;
          interned := <[ty := id]> (interned cx); primitive_names := primitive_names cx |}, id)
  end.

Definition add_primitive (cx : TypeContext) (name : str) (ty : HType) : TypeContext :=
  let '(cx, id) := intern cx ty in
  {| types := types cx; structs := structs cx; enums := enums cx; interned := interned cx;
     primitive_names := <[name := id]> (primitive_names cx) |}.

Definition primitive_list : list (str * HType) :=
  (lit "bool", TyBool) ::
  ([8; 16; 32; 64] ≫= λ bits,
     [(lit "u" ++ dec bits, TyInt false bits); (lit "i" ++ dec bits, TyInt true bits)]) ++
  [(lit "usize", TyUsize); (lit "isize", TyIsize); (lit "f32", TyFloat 32); (lit "f64", TyFloat 64);
   (lit "void", TyVoid); (lit "never", TyNever)].

Definition type_context_new : TypeContext :=
  foldl (λ cx '(name, ty), add_primitive cx name ty)
    {| types := []; structs := []; enums := []; interned := ∅; primitive_names := ∅ |} primitive_list.

Definition primitive (cx : TypeContext) (name : str) : option TypeId := primitive_names cx !! name.

Definition add_struct_placeholder (cx : TypeContext) (name : str) : TypeContext * (StructId * TypeId) :=
  let struct_id := length (structs cx) in
  let cx := set_structs (structs cx ++
    [{| ss_name := name; ss_fields := []; ss_packed := false; ss_requested_align := None;
        ss_layout := {| ly_size := 0; ly_align := 1 |} |}]) cx in
  let '(cx, ty) := intern cx (TyStruct struct_id) in
  (cx, (struct_id, ty)).

Definition add_enum_placeholder (cx : TypeContext) (name : str) : TypeContext * (EnumId * TypeId) :=
  let enum_id := length (enums cx) in
  let cx := set_enums (enums cx ++
    [{| en_name := name; en_variants := []; en_tag_size := 1; en_payload_offset := 1;
        en_layout := {| ly_size := 1; ly_align := 1 |} |}]) cx in
  let '(cx, ty) := intern cx (TyEnum enum_id) in
  (cx, (enum_id, ty)).

(** [u64::checked_mul] and [checked_add]. *)
Definition checked_mul (a b : Z) : option Z := if a * b <=? U64_MAX then Some (a * b) else None.
Definition checked_add (a b : Z) : option Z := if a + b <=? U64_MAX then Some (a + b) else None.

(** [TypeContext::layout]: arrays recurse on their element, whose id is smaller. *)
Fixpoint layout_fuel {E} (fuel : nat) (cx : TypeContext) (ty : TypeId) : outcome E Layout :=
  match fuel with
  | O => NoFuel
  | S fuel =>
      let+ t := index_or_panic (types cx !! ty) in
      match t with
      | TyBool => Ok {| ly_size := 1; ly_align := 1 |}
      | TyInt _ bits =>
          if bits =? 8 then Ok {| ly_size := 1; ly_align := 1 |}
          else if bits =? 16 then Ok {| ly_size := 2; ly_align := 2 |}
          else if bits =? 32 then Ok {| ly_size := 4; ly_align := 4 |}
          else if bits =? 64 then Ok {| ly_size := 8; ly_align := 8 |}
          else Panic
      | TyFloat bits =>
          if bits =? 32 then Ok {| ly_size := 4; ly_align := 4 |}
          else if bits =? 64 then Ok {| ly_size := 8; ly_align := 8 |}
          else Panic
      | TyUsize | TyIsize | TyPointer _ _ | TyFunction _ _ _ => Ok {| ly_size := 8; ly_align := 8 |}
      | TyVoid | TyNever => Ok {| ly_size := 0; ly_align := 1 |}
      | TyArray element len =>
          let+ element := layout_fuel fuel cx element in
          let+ size := index_or_panic (checked_mul (ly_size element) len) in
          Ok {| ly_size := size; ly_align := ly_align element |}
      | TyStruct id => let+ s := index_or_panic (structs cx !! id) in Ok (ss_layout s)
      | TyEnum id => let+ e := index_or_panic (enums cx !! id) in Ok (en_layout e)
      end
  end.

Definition layout {E} (cx : TypeContext) (ty : TypeId) : outcome E Layout :=
  layout_fuel (S (length (types cx))) cx ty.

(** [TypeContext::name]: every type that a type mentions has a smaller id. *)
Definition abi_debug (abi : Abi) : str :=
  match abi with
  | AbiOCore => lit "OCore"
  | AbiC => lit "C"
  | AbiSysV64 => lit "SysV64"
  | AbiInterrupt => lit "Interrupt"
  end.

Fixpoint join_with (sep : str) (l : list str) : str :=
  match l with [] => [] | [s] => s | s :: l => s ++ sep ++ join_with sep l end.

Fixpoint outcome_map {E A B} (f : A → outcome E B) (l : list A) : outcome E (list B) :=
  match l with
  | [] => Ok []
  | a :: l => let+ b := f a in let+ bs := outcome_map f l in Ok (b :: bs)
  end.

Fixpoint name_fuel {E} (fuel : nat) (cx : TypeContext) (ty : TypeId) : outcome E str :=
  match fuel with
  | O => NoFuel
  | S fuel =>
      let+ t := index_or_panic (types cx !! ty) in
      match t with
      | TyBool => Ok (lit "bool")
      | TyInt signed bits => Ok (lit (if signed then "i" else "u") ++ dec bits)
      | TyUsize => Ok (lit "usize")
      | TyIsize => Ok (lit "isize")
      | TyFloat bits => Ok (lit "f" ++ dec bits)
      | TyVoid => Ok (lit "void")
      | TyNever => Ok (lit "never")
      | TyPointer mutable pointee =>
          let+ n := name_fuel fuel cx pointee in
          Ok (lit "*" ++ lit (if mutable then "mut" else "const") ++ lit " " ++ n)
      | TyArray element len =>
          let+ n := name_fuel fuel cx element in Ok (lit "[" ++ n ++ lit "; " ++ dec len ++ lit "]")
      | TyStruct id => let+ s := index_or_panic (structs cx !! id) in Ok (ss_name s)
      | TyEnum id => let+ e := index_or_panic (enums cx !! id) in Ok (en_name e)
      | TyFunction params result abi =>
          let+ ps := outcome_map (name_fuel fuel cx) params in
          let+ r := name_fuel fuel cx result in
          Ok (lit "extern " ++ abi_debug abi ++ lit " fn(" ++ join_with (lit ", ") ps ++ lit ") -> " ++ r)
      end
  end.

Definition name {E} (cx : TypeContext) (ty : TypeId) : outcome E str := name_fuel (S (length (types cx))) cx ty.

(** [is_integer], [is_float] and [is_scalar]. *)
Definition is_integer {E} (cx : TypeContext) (ty : TypeId) : outcome E bool :=
  let+ t := index_or_panic (types cx !! ty) in
  Ok (match t with TyInt _ _ | TyUsize | TyIsize => true | _ => false end).

Definition is_float {E} (cx : TypeContext) (ty : TypeId) : outcome E bool :=
  let+ t := index_or_panic (types cx !! ty) in
  Ok (match t with TyFloat _ => true | _ => false end).

Definition is_scalar {E} (cx : TypeContext) (ty : TypeId) : outcome E bool :=
  let+ t := index_or_panic (types cx !! ty) in
  Ok (match t with
      | TyBool | TyInt _ _ | TyUsize | TyIsize | TyFloat _ | TyPointer _ _ | TyFunction _ _ _ => true
      | _ => false
      end).
