(* ===== verification/OcoreTypes.v ===== *)
(** * The type phase of the Ocore checker

    [crates/ostadix-api/src/ocore/typeck.rs], up to [compute_layouts]: module scopes and
    imports, the names of structures and enumerations, their definitions with the
    resolution of type expressions, and the computation of layouts.  The definitions are
    visited in the order of a [HashMap], which is an argument. *)

From S2P Require Import Prelude.
From S2P Require Import OcoreLexer.
From S2P Require Import OcoreAst.
From S2P Require Import OcoreHir.
From stdpp Require Import options.

#[local] Open Scope nat_scope.

(** ** Diagnostics *)

Inductive LayoutProblem : Type := ArrayOverflow | StructOverflow | RecursiveType.

Inductive TcMessage : Type :=
| DuplicateModule (name : str)
| DuplicateImport (alias : str)
| DuplicateItem (qn : str)
| DuplicateField (name : str)
| DuplicateVariant (name : str)
| UnknownType (qn : str)
| DuplicateAttribute (name : str)
| TakesNoArguments (name : str)
| LinkSectionArgument
| AlignArgument
| UnknownAttribute (name : str)
| LayoutFailure (name : str) (problem : LayoutProblem)
| RecursiveEnum (name : str).

Abbreviation TcError := (Diagnostic TcMessage).

Definition diag (file : str) (sp : Span) (message : TcMessage) : TcError :=
  {| d_file := file; d_span := sp; d_message := message |}.

(** [Span::default]. *)
Definition span_default : Span := {| start := 0; end_ := 0; line := 0; column := 0 |}.

(** ** Loops *)

Definition lift {S A} (r : outcome TcError A) : M S TcError A := λ s, (s, r).

Fixpoint for_each {S A} (f : A → M S TcError unit) (l : list A) : M S TcError unit :=
  match l with [] => ret tt | a :: l => f a ;;* for_each f l end.

Definition collect {S A B} (f : A → M S TcError B) : list A → M S TcError (list B) :=
  fix go l := match l with [] => ret [] | a :: l => let* b := f a in let* bs := go l in ret (b :: bs) end.

(** ** The checker *)

Record ModuleScope : Type := { ms_file : str; ms_name : str; ms_imports : gmap str str }.

Inductive Symbol : Type :=
| SymFunction (id : nat)
| SymStatic (id : nat)
| SymConst (id : nat)
| SymType (ty : TypeId).

(** Where a definition is: its id, the module and the item. *)
Abbreviation DefSite := (nat * nat * nat)%type.

Record Checker : Type := {
  scopes : list ModuleScope;
  ck_types : TypeContext;
  symbols : gmap str Symbol;
  struct_defs : gmap str DefSite;
  enum_defs : gmap str DefSite
}.

Definition checker_new : Checker :=
  {| scopes := []; ck_types := type_context_new; symbols := ∅; struct_defs := ∅; enum_defs := ∅ |}.

Definition push_scope (sc : ModuleScope) (ck : Checker) : Checker :=
  {| scopes := scopes ck ++ [sc]; ck_types := ck_types ck; symbols := symbols ck;
     struct_defs := struct_defs ck; enum_defs := enum_defs ck |}.

Definition set_types (cx : TypeContext) (ck : Checker) : Checker :=
  {| scopes := scopes ck; ck_types := cx; symbols := symbols ck;
     struct_defs := struct_defs ck; enum_defs := enum_defs ck |}.

Definition record_struct (qn : str) (ty : TypeId) (site : DefSite) (ck : Checker) : Checker :=
  {| scopes := scopes ck; ck_types := ck_types ck; symbols := <[qn := SymType ty]> (symbols ck);
     struct_defs := <[qn := site]> (struct_defs ck); enum_defs := enum_defs ck |}.

Definition record_enum (qn : str) (ty : TypeId) (site : DefSite) (ck : Checker) : Checker :=
  {| scopes := scopes ck; ck_types := ck_types ck; symbols := <[qn := SymType ty]> (symbols ck);
     struct_defs := struct_defs ck; enum_defs := <[qn := site]> (enum_defs ck) |}.

Abbreviation T A := (M Checker TcError A).

(** ** Names *)

Definition path_string (path : Path) : str := join_with (lit "::") path.
Definition qualify (module name : str) : str := module ++ lit "::" ++ name.

(** [str::rsplit_once] at the last double colon. *)
Fixpoint rsplit_colons (s : str) : option (str * str) :=
  match s with
  | [] => None
  | a :: rest =>
      match rsplit_colons rest with
      | Some (x, y) => Some (a :: x, y)
      | None =>
          match rest with
          | b :: y => if ((a =? 58) && (b =? 58))%Z then Some ([], y) else None
          | [] => None
          end
      end
  end.

Definition path_is_known (ck : Checker) (path : str) : bool :=
  match symbols ck !! path with
  | Some _ => true
  | None =>
      match rsplit_colons path with
      | Some (parent, _) => match symbols ck !! parent with Some (SymType _) => true | _ => false end
      | None => false
      end
  end.

Definition resolve_path (ck : Checker) (module_index : nat) (path : Path) : outcome TcError str :=
  let+ scope := index_or_panic (scopes ck !! module_index) in
  match path with
  | [] => Panic
  | [name] =>
      match ms_imports scope !! name with
      | Some import => Ok import
      | None => Ok (qualify (ms_name scope) name)
      end
  | first :: rest =>
      match ms_imports scope !! first with
      | Some import => Ok (import ++ lit "::" ++ path_string rest)
      | None =>
          let absolute := path_string path in
          if path_is_known ck absolute then Ok absolute else Ok (qualify (ms_name scope) absolute)
      end
  end.

Definition file_of (module_index : nat) : T str :=
  let* ck := get in
  let* scope := lift (index_or_panic (scopes ck !! module_index)) in
  ret (ms_file scope).

Definition ensure_name_free (qn : str) (module_index : nat) (sp : Span) : T unit :=
  let* ck := get in
  match symbols ck !! qn with
  | Some _ => let* file := file_of module_index in fail (diag file sp (DuplicateItem qn))
  | None => ret tt
  end.

(** ** Attributes *)

Record ItemAttrs : Type := {
  ia_export : bool; ia_no_mangle : bool; ia_link_section : option str; ia_align : option Z;
  ia_used : bool; ia_packed : bool; ia_interrupt : bool; ia_naked : bool; ia_unsafe_linkage : bool
}.

Definition item_attrs_default : ItemAttrs :=
  {| ia_export := false; ia_no_mangle := false; ia_link_section := None; ia_align := None;
     ia_used := false; ia_packed := false; ia_interrupt := false; ia_naked := false; ia_unsafe_linkage := false |}.

Definition no_args (file : str) (attr : Attribute) (set : ItemAttrs) : TcError + ItemAttrs :=
  match at_args attr with
  | [] => inr set
  | _ => inl (diag file (at_span attr) (TakesNoArguments (at_name attr)))
  end.

Definition parse_attr (file : str) (attr : Attribute) (o : ItemAttrs) : TcError + ItemAttrs :=
  let '(Build_ItemAttrs e n l a u p i k w) := o in
  let named s := bool_decide (at_name attr = lit s) in
  if named "export" then no_args file attr (Build_ItemAttrs true n l a u p i k w)
  else if named "no_mangle" then no_args file attr (Build_ItemAttrs e true l a u p i k w)
  else if named "used" then no_args file attr (Build_ItemAttrs e n l a true p i k w)
  else if named "packed" then no_args file attr (Build_ItemAttrs e n l a u true i k w)
  else if named "interrupt" then no_args file attr (Build_ItemAttrs e n l a u p true k w)
  else if named "naked" then no_args file attr (Build_ItemAttrs e n l a u p i true w)
  else if named "unsafe_linkage" then no_args file attr (Build_ItemAttrs e n l a u p i k true)
  else if named "link_section" then
    match at_args attr with
    | [ArgString (b :: section)] => inr (Build_ItemAttrs e n (Some (b :: section)) a u p i k w)
    | _ => inl (diag file (at_span attr) LinkSectionArgument)
    end
  else if named "align" then
    match at_args attr with
    | [ArgInteger value] =>
        if is_power_of_two value && (value <=? 4096)%Z then inr (Build_ItemAttrs e n l (Some value) u p i k w)
        else inl (diag file (at_span attr) AlignArgument)
    | _ => inl (diag file (at_span attr) AlignArgument)
    end
  else inl (diag file (at_span attr) (UnknownAttribute (at_name attr))).

Fixpoint parse_attrs_loop (file : str) (attrs : list Attribute) (seen : gset str) (o : ItemAttrs) : TcError + ItemAttrs :=
  match attrs with
  | [] => inr o
  | attr :: attrs =>
      if bool_decide (at_name attr ∈ seen) then inl (diag file (at_span attr) (DuplicateAttribute (at_name attr)))
      else let! o := parse_attr file attr o in parse_attrs_loop file attrs ({[at_name attr]} ∪ seen) o
  end.

Definition parse_attrs (file : str) (item : Item) : TcError + ItemAttrs :=
  parse_attrs_loop file (i_attrs item) ∅ item_attrs_default.

Definition of_sum {A} (r : TcError + A) : outcome TcError A := match r with inl e => Err e | inr a => Ok a end.

(** ** Module scopes and type names *)

Fixpoint import_loop (file : str) (uses : list UseDecl) (imports : gmap str str) : outcome TcError (gmap str str) :=
  match uses with
  | [] => Ok imports
  | import :: uses =>
      let qualified := path_string (u_path import) in
      let+ alias := match u_alias import with
                    | Some alias => Ok alias
                    | None => index_or_panic (last (u_path import))
                    end in
      match imports !! alias with
      | Some _ => Err (diag file (u_span import) (DuplicateImport alias))
      | None => import_loop file uses (<[alias := qualified]> imports)
      end
  end.

Fixpoint module_loop (modules : list (str * SourceModule)) (seen : gset str) : T unit :=
  match modules with
  | [] => ret tt
  | (file, module) :: modules =>
      let name := path_string (m_name module) in
      if bool_decide (name ∈ seen) then fail (diag file (m_span module) (DuplicateModule name)) else
      let* imports := lift (import_loop file (m_uses module) ∅) in
      modify (push_scope {| ms_file := file; ms_name := name; ms_imports := imports |}) ;;*
      module_loop modules ({[name]} ∪ seen)
  end.

Definition build_module_scopes (modules : list (str * SourceModule)) : T unit := module_loop modules ∅.

Definition collect_item (module_index item_index : nat) (item : Item) : T unit :=
  let qualified name :=
    let* ck := get in
    let* scope := lift (index_or_panic (scopes ck !! module_index)) in
    ret (qualify (ms_name scope) name) in
  match i_kind item with
  | IStruct def =>
      let* qn := qualified (sd_name def) in
      ensure_name_free qn module_index (i_span item) ;;*
      let* ck := get in
      let '(cx, (id, ty)) := add_struct_placeholder (ck_types ck) qn in
      modify (set_types cx) ;;*
      modify (record_struct qn ty (id, module_index, item_index))
  | IEnum def =>
      let* qn := qualified (ed_name def) in
      ensure_name_free qn module_index (i_span item) ;;*
      let* ck := get in
      let '(cx, (id, ty)) := add_enum_placeholder (ck_types ck) qn in
      modify (set_types cx) ;;*
      modify (record_enum qn ty (id, module_index, item_index))
  | _ => ret tt
  end.

Definition collect_type_names (modules : list (str * SourceModule)) : T unit :=
  for_each (λ '(module_index, (_, module)),
    for_each (λ '(item_index, item), collect_item module_index item_index item)
      (imap pair (m_items module)))
    (imap pair modules).

(** ** Type expressions *)

Definition intern_m (ty : HType) : T TypeId :=
  let* ck := get in
  let '(cx, id) := intern (ck_types ck) ty in
  modify (set_types cx) ;;* ret id.

Definition resolve_named (module_index : nat) (path : Path) (sp : Span) : T TypeId :=
  let* ck := get in
  match (match path with [name] => primitive (ck_types ck) name | _ => None end) with
  | Some id => ret id
  | None =>
      let* qn := lift (resolve_path ck module_index path) in
      match symbols ck !! qn with
      | Some (SymType id) => ret id
      | _ => let* file := file_of module_index in fail (diag file sp (UnknownType qn))
      end
  end.

Fixpoint resolve_type (module_index : nat) (ty : TypeExpr) : T TypeId :=
  let '(MkType k sp) := ty in
  match k with
  | TNamed path => resolve_named module_index path sp
  | TPointer mutable pointee =>
      let* pointee := resolve_type module_index pointee in intern_m (TyPointer mutable pointee)
  | TArray element len =>
      let* element := resolve_type module_index element in intern_m (TyArray element len)
  | TFnPointer abi params result =>
      let* params := collect (resolve_type module_index) params in
      let* result := resolve_type module_index result in
      intern_m (TyFunction params result abi)
  end.

(** ** Definitions of structures and enumerations *)

Section Types.
Context (modules : list (str * SourceModule)).

Definition item_at (module_index item_index : nat) : outcome TcError Item :=
  let+ module := index_or_panic (modules !! module_index) in
  index_or_panic (m_items module.2 !! item_index).

Fixpoint define_fields (module_index : nat) (fields : list FieldDef) (names : gset str) : T (list StructField) :=
  match fields with
  | [] => ret []
  | field :: fields =>
      if bool_decide (fd_name field ∈ names)
      then let* file := file_of module_index in fail (diag file (fd_span field) (DuplicateField (fd_name field)))
      else
        let* ty := resolve_type module_index (fd_ty field) in
        let* rest := define_fields module_index fields ({[fd_name field]} ∪ names) in
        ret ({| sf_name := fd_name field; sf_ty := ty; sf_offset := 0 |} :: rest)
  end.

Definition define_struct (site : DefSite) : T unit :=
  let '(id, module_index, item_index) := site in
  let* item := lift (item_at module_index item_index) in
  match i_kind item with
  | IStruct def =>
      let* file := file_of module_index in
      let* attrs := lift (of_sum (parse_attrs file item)) in
      let* fields := define_fields module_index (sd_fields def) ∅ in
      let* ck := get in
      let* entry := lift (index_or_panic (structs (ck_types ck) !! id)) in
      modify (set_types (set_structs
        (<[id := {| ss_name := ss_name entry; ss_fields := fields; ss_packed := ia_packed attrs;
                    ss_requested_align := ia_align attrs; ss_layout := ss_layout entry |}]>
           (structs (ck_types ck))) (ck_types ck)))
  | _ => panic
  end.

Fixpoint define_variants (module_index : nat) (variants : list VariantDef) (names : gset str) : T (list EnumVariant) :=
  match variants with
  | [] => ret []
  | variant :: variants =>
      if bool_decide (v_name variant ∈ names)
      then let* file := file_of module_index in fail (diag file (v_span variant) (DuplicateVariant (v_name variant)))
      else
        let* payload := collect (resolve_type module_index) (v_payload variant) in
        let* rest := define_variants module_index variants ({[v_name variant]} ∪ names) in
        ret ({| ev_name := v_name variant; ev_payload := payload;
                ev_payload_layout := {| ly_size := 0; ly_align := 1 |} |} :: rest)
  end.

Definition define_enum (site : DefSite) : T unit :=
  let '(id, module_index, item_index) := site in
  let* item := lift (item_at module_index item_index) in
  match i_kind item with
  | IEnum def =>
      let* variants := define_variants module_index (ed_variants def) ∅ in
      let* ck := get in
      let* entry := lift (index_or_panic (enums (ck_types ck) !! id)) in
      modify (set_types (set_enums
        (<[id := {| en_name := en_name entry; en_variants := variants; en_tag_size := en_tag_size entry;
                    en_payload_offset := en_payload_offset entry; en_layout := en_layout entry |}]>
           (enums (ck_types ck))) (ck_types ck)))
  | _ => panic
  end.

(** The order in which a [HashMap] yields its values. *)
Context (order : list DefSite → list DefSite).

Definition define_types : T unit :=
  let* ck := get in
  for_each define_struct (order (map_to_list (struct_defs ck)).*2) ;;*
  let* ck := get in
  for_each define_enum (order (map_to_list (enum_defs ck)).*2).
End Types.
