(* ===== verification/OcoreLayout.v ===== *)
(** * Layouts of Ocore types

    [crates/ostadix-api/src/ocore/typeck.rs]: [compute_layouts], [layout_type],
    [layout_struct], [layout_enum], and the type phase as a whole.  A structure or
    enumeration is in state 0 until it is entered, 1 while its members are laid out and 2
    afterwards; meeting state 1 again is an infinite type. *)

From S2P Require Import Prelude.
From S2P Require Import OcoreLexer.
From S2P Require Import OcoreAst.
From S2P Require Import OcoreHir.
From S2P Require Import OcoreTypes.
From stdpp Require Import options.

#[local] Open Scope Z_scope.

Record LayoutState : Type := { lt_cx : TypeContext; struct_state : list Z; enum_state : list Z }.

Abbreviation L A := (M LayoutState TcError A).

Definition mark_struct (id : StructId) (v : Z) (st : LayoutState) : LayoutState :=
  {| lt_cx := lt_cx st; struct_state := <[id := v]> (struct_state st); enum_state := enum_state st |}.

Definition mark_enum (id : EnumId) (v : Z) (st : LayoutState) : LayoutState :=
  {| lt_cx := lt_cx st; struct_state := struct_state st; enum_state := <[id := v]> (enum_state st) |}.

Definition with_cx (f : TypeContext → TypeContext) (st : LayoutState) : LayoutState :=
  {| lt_cx := f (lt_cx st); struct_state := struct_state st; enum_state := enum_state st |}.

(** ** Diagnostics *)

Definition layout_diag (cx : TypeContext) (ty : TypeId) (problem : LayoutProblem) : outcome TcError TcError :=
  let+ n := name cx ty in Ok (diag (lit "<type>") span_default (LayoutFailure n problem)).

Definition fail_layout {A} (ty : TypeId) (problem : LayoutProblem) : L A :=
  let* st := get in
  let* e := lift (layout_diag (lt_cx st) ty problem) in fail e.

Definition interned_type_for_struct (cx : TypeContext) (id : StructId) : option TypeId :=
  fst <$> list_find (λ t, t = TyStruct id) (types cx).

(** ** Updates of the context *)

Definition set_field_offsets (offsets : list Z) (s : StructType) : StructType :=
  {| ss_name := ss_name s;
     ss_fields := zip_with (λ f o, {| sf_name := sf_name f; sf_ty := sf_ty f; sf_offset := o |}) (ss_fields s) offsets
                  ++ drop (length offsets) (ss_fields s);
     ss_packed := ss_packed s; ss_requested_align := ss_requested_align s; ss_layout := ss_layout s |}.

Definition set_struct_layout (ly : Layout) (s : StructType) : StructType :=
  {| ss_name := ss_name s; ss_fields := ss_fields s; ss_packed := ss_packed s;
     ss_requested_align := ss_requested_align s; ss_layout := ly |}.

Definition set_payload_layouts (lys : list Layout) (e : EnumType) : EnumType :=
  {| en_name := en_name e;
     en_variants := zip_with (λ v ly, {| ev_name := ev_name v; ev_payload := ev_payload v; ev_payload_layout := ly |})
                      (en_variants e) lys ++ drop (length lys) (en_variants e);
     en_tag_size := en_tag_size e; en_payload_offset := en_payload_offset e; en_layout := en_layout e |}.

Definition set_enum_layout (tag_size payload_offset : Z) (ly : Layout) (e : EnumType) : EnumType :=
  {| en_name := en_name e; en_variants := en_variants e; en_tag_size := tag_size;
     en_payload_offset := payload_offset; en_layout := ly |}.

Definition update_struct (id : StructId) (f : StructType → StructType) (cx : TypeContext) : TypeContext :=
  set_structs (alter f id (structs cx)) cx.

Definition update_enum (id : EnumId) (f : EnumType → EnumType) (cx : TypeContext) : TypeContext :=
  set_enums (alter f id (enums cx)) cx.

(** ** The three functions *)

Section Layouts.
Context (p : Profile).

Section Step.
Context (layout_type : TypeId → L Layout).

(** The loop over the fields: next offset, largest alignment, offsets so far. *)
Fixpoint struct_fields (packed : bool) (field_types : list TypeId) (offset max_align : Z) (offsets : list Z) :
    L (Z * Z * list Z) :=
  match field_types with
  | [] => ret (offset, max_align, offsets)
  | ty :: field_types =>
      let* ly := layout_type ty in
      let field_align := if packed then 1 else ly_align ly in
      let* offset := lift (align_up p offset field_align) in
      match checked_add offset (ly_size ly) with
      | None => fail_layout ty StructOverflow
      | Some next => struct_fields packed field_types next (Z.max max_align field_align) (offsets ++ [offset])
      end
  end.

Definition layout_struct_step (id : StructId) : L unit :=
  let* st := get in
  let* state := lift (index_or_panic (struct_state st !! id)) in
  if state =? 2 then ret tt
  else if state =? 1 then fail_layout (default 0%nat (interned_type_for_struct (lt_cx st) id)) RecursiveType
  else
    modify (mark_struct id 1) ;;*
    let* s := lift (index_or_panic (structs (lt_cx st) !! id)) in
    let* (offset, max_align, offsets) := struct_fields (ss_packed s) (sf_ty <$> ss_fields s) 0 1 [] in
    let max_align := match ss_requested_align s with Some align => Z.max max_align align | None => max_align end in
    modify (with_cx (update_struct id (set_field_offsets offsets))) ;;*
    let* size := lift (align_up p offset max_align) in
    modify (with_cx (update_struct id (set_struct_layout {| ly_size := size; ly_align := max_align |}))) ;;*
    modify (mark_struct id 2).

(** The payload of one variant: next offset and alignment. *)
Fixpoint payload_fields (payload : list TypeId) (offset align : Z) : L (Z * Z) :=
  match payload with
  | [] => ret (offset, align)
  | ty :: payload =>
      let* ly := layout_type ty in
      let* offset := lift (align_up p offset (ly_align ly)) in
      let* offset := lift (u64_wrap p (offset + ly_size ly)) in
      payload_fields payload offset (Z.max align (ly_align ly))
  end.

Fixpoint payload_layouts (payloads : list (list TypeId)) (max_size max_align : Z) (layouts : list Layout) :
    L (Z * Z * list Layout) :=
  match payloads with
  | [] => ret (max_size, max_align, layouts)
  | payload :: payloads =>
      let* (offset, align) := payload_fields payload 0 1 in
      let* size := lift (align_up p offset align) in
      payload_layouts payloads (Z.max max_size size) (Z.max max_align align)
        (layouts ++ [{| ly_size := size; ly_align := align |}])
  end.

Definition tag_size_for (count : nat) : Z :=
  if Z.of_nat count <=? 256 then 1 else if Z.of_nat count <=? 65536 then 2 else 4.

Definition layout_enum_step (id : EnumId) : L unit :=
  let* st := get in
  let* state := lift (index_or_panic (enum_state st !! id)) in
  if state =? 2 then ret tt
  else if state =? 1 then
    let* e := lift (index_or_panic (enums (lt_cx st) !! id)) in
    fail (diag (lit "<type>") span_default (RecursiveEnum (en_name e)))
  else
    modify (mark_enum id 1) ;;*
    let* e := lift (index_or_panic (enums (lt_cx st) !! id)) in
    let tag_size := tag_size_for (length (en_variants e)) in
    let* (max_size, max_align, layouts) := payload_layouts (ev_payload <$> en_variants e) 0 1 [] in
    let* payload_offset := lift (align_up p tag_size max_align) in
    let overall_align := Z.max max_align tag_size in
    let* sum := lift (u64_wrap p (payload_offset + max_size)) in
    let* overall_size := lift (align_up p sum overall_align) in
    modify (with_cx (update_enum id (set_payload_layouts layouts))) ;;*
    modify (with_cx (update_enum id
      (set_enum_layout tag_size payload_offset {| ly_size := overall_size; ly_align := overall_align |}))) ;;*
    modify (mark_enum id 2).
End Step.

Fixpoint layout_type (fuel : nat) (ty : TypeId) : L Layout :=
  match fuel with
  | O => no_fuel
  | S fuel =>
      let* st := get in
      let* t := lift (index_or_panic (types (lt_cx st) !! ty)) in
      match t with
      | TyStruct id =>
          layout_struct_step (layout_type fuel) id ;;*
          let* st := get in
          let* s := lift (index_or_panic (structs (lt_cx st) !! id)) in ret (ss_layout s)
      | TyEnum id =>
          layout_enum_step (layout_type fuel) id ;;*
          let* st := get in
          let* e := lift (index_or_panic (enums (lt_cx st) !! id)) in ret (en_layout e)
      | TyArray element len =>
          let* element := layout_type fuel element in
          match checked_mul (ly_size element) len with
          | None => fail_layout ty ArrayOverflow
          | Some size => ret {| ly_size := size; ly_align := ly_align element |}
          end
      | _ => lift (layout (lt_cx st) ty)
      end
  end.

Definition layout_struct (fuel : nat) : StructId → L unit := layout_struct_step (layout_type fuel).
Definition layout_enum (fuel : nat) : EnumId → L unit := layout_enum_step (layout_type fuel).

(** A chain of calls enters every structure and enumeration at most once and goes down
    through smaller and smaller array types in between. *)
Definition layout_calls (cx : TypeContext) : nat :=
  (length (structs cx) + length (enums cx) + 1) * (length (types cx) + 1).

Definition layout_loop (st : LayoutState) : L unit :=
  let fuel := layout_calls (lt_cx st) in
  for_each (layout_struct fuel) (seq 0 (length (struct_state st))) ;;*
  for_each (layout_enum fuel) (seq 0 (length (enum_state st))).

Definition compute_layouts : T unit := λ ck,
  let cx := ck_types ck in
  let st := {| lt_cx := cx; struct_state := replicate (length (structs cx)) 0;
               enum_state := replicate (length (enums cx)) 0 |} in
  let '(st, r) := layout_loop st st in
  (set_types (lt_cx st) ck, r).

(** The first four phases of [Checker::run]. *)
Definition type_phase (order : list DefSite → list DefSite) (modules : list (str * SourceModule)) : T unit :=
  build_module_scopes modules ;;*
  collect_type_names modules ;;*
  define_types modules order ;;*
  compute_layouts.
End Layouts.
