(* ===== verification/OcoreLayoutSpec.v ===== *)
(** * What the layouts of Ocore types are meant to be

    The contract of [docs/OCORE.md], section 5, over unbounded integers: fields in the
    order of the declaration, each at the next address aligned for it, sizes rounded up to
    the largest alignment, enumerations as tagged unions; with the containment of types by
    value, the arithmetic of [align_up], and well-formed contexts. *)

From S2P Require Import Prelude.
From S2P Require Import OcoreLexer.
From S2P Require Import OcoreAst.
From S2P Require Import OcoreHir.
From S2P Require Import OcoreTypes.
From S2P Require Import OcoreLayout.
From Stdlib Require Import Relations.
From stdpp Require Import options.

#[local] Open Scope Z_scope.

(** ** The documented layout *)

Definition next_aligned (v a : Z) : Z := (v + a - 1) / a * a.

(** Offsets, end of the last field and largest alignment of fields that start at [off]. *)
Fixpoint doc_place (packed : bool) (lys : list Layout) (off : Z) : list Z * Z * Z :=
  match lys with
  | [] => ([], off, 1)
  | ly :: lys =>
      let a := if packed then 1 else ly_align ly in
      let o := next_aligned off a in
      let '(os, e, m) := doc_place packed lys (o + ly_size ly) in
      (o :: os, e, Z.max a m)
  end.

Definition doc_struct (packed : bool) (requested : option Z) (lys : list Layout) : list Z * Layout :=
  let '(os, e, m) := doc_place packed lys 0 in
  let align := match requested with Some a => Z.max m a | None => m end in
  (os, {| ly_size := next_aligned e align; ly_align := align |}).

Definition doc_payload (lys : list Layout) : Layout :=
  let '(_, e, m) := doc_place false lys 0 in {| ly_size := next_aligned e m; ly_align := m |}.

(** The smallest of one, two or four bytes that tells the variants apart. *)
Definition doc_tag (count : nat) : Z :=
  if Z.of_nat count <=? 2 ^ 8 then 1 else if Z.of_nat count <=? 2 ^ 16 then 2 else 4.

Definition max_of (f : Layout → Z) (z : Z) (lys : list Layout) : Z := foldr (λ ly, Z.max (f ly)) z lys.

(** Tag size, payload offset, layout of the enumeration; [requested] is the [@align]
    that section 7 allows on every type. *)
Definition doc_enum (requested : option Z) (payloads : list Layout) : Z * Z * Layout :=
  let tag := doc_tag (length payloads) in
  let a := max_of ly_align 1 payloads in
  let off := next_aligned tag a in
  let align := match requested with Some r => Z.max (Z.max a tag) r | None => Z.max a tag end in
  (tag, off, {| ly_size := next_aligned (off + max_of ly_size 0 payloads) align; ly_align := align |}).

Definition has_layout (cx : TypeContext) (ty : TypeId) (ly : Layout) : Prop := layout (E := TcError) cx ty = Ok ly.

Definition documented_struct (cx : TypeContext) (s : StructType) : Prop :=
  ∃ lys, Forall2 (has_layout cx) (sf_ty <$> ss_fields s) lys ∧
         doc_struct (ss_packed s) (ss_requested_align s) lys = (sf_offset <$> ss_fields s, ss_layout s).

Definition documented_enum (requested : option Z) (cx : TypeContext) (e : EnumType) : Prop :=
  Forall (λ v, ∃ lys, Forall2 (has_layout cx) (ev_payload v) lys ∧ doc_payload lys = ev_payload_layout v) (en_variants e) ∧
  doc_enum requested (ev_payload_layout <$> en_variants e) = (en_tag_size e, en_payload_offset e, en_layout e).

(** A layout that memory can have: its alignment is a power of two, its size a [u64] that
    is a multiple of it, so that the elements of an array are aligned too. *)
Definition sound_layout (ly : Layout) : Prop :=
  is_power_of_two (ly_align ly) = true ∧ ly_align ly ≤ 4096 ∧ 0 ≤ ly_size ly ≤ U64_MAX ∧ (ly_align ly | ly_size ly).

(** ** Containment by value *)

Inductive Node : Type := NStruct (id : StructId) | NEnum (id : EnumId).

#[export] Instance Node_eq_dec : EqDecision Node.
Proof. solve_decision. Defined.

(** A value of the type has a value of the node in it, not behind a pointer. *)
Inductive holds (cx : TypeContext) : TypeId → Node → Prop :=
| holds_struct ty id : types cx !! ty = Some (TyStruct id) → holds cx ty (NStruct id)
| holds_enum ty id : types cx !! ty = Some (TyEnum id) → holds cx ty (NEnum id)
| holds_array ty e len n : types cx !! ty = Some (TyArray e len) → holds cx e n → holds cx ty n.

Definition members (cx : TypeContext) (n : Node) : list TypeId :=
  match n with
  | NStruct id => match structs cx !! id with Some s => sf_ty <$> ss_fields s | None => [] end
  | NEnum id => match enums cx !! id with Some e => concat (ev_payload <$> en_variants e) | None => [] end
  end.

Definition contains (cx : TypeContext) (n m : Node) : Prop := ∃ ty, ty ∈ members cx n ∧ holds cx ty m.

Definition within (cx : TypeContext) (m n : Node) : Prop := contains cx n m.

(** Errors of the layout computation; recursion is only reported for a type that contains itself. *)
Definition justified (cx : TypeContext) (e : TcError) : Prop :=
  match d_message e with
  | LayoutFailure _ RecursiveType | RecursiveEnum _ => ∃ n, clos_trans _ (contains cx) n n
  | LayoutFailure _ _ => True
  | _ => False
  end.

(** ** Well-formed contexts *)

Definition type_ok (ns ne i : nat) (t : HType) : Prop :=
  match t with
  | TyPointer _ q => (q < i)%nat
  | TyArray e n => (e < i)%nat ∧ 0 ≤ n ≤ U64_MAX
  | TyStruct id => (id < ns)%nat
  | TyEnum id => (id < ne)%nat
  | TyFunction ps r _ => Forall (λ q, (q < i)%nat) ps ∧ (r < i)%nat
  | TyInt _ b => b ∈ [8; 16; 32; 64]
  | TyFloat b => b ∈ [32; 64]
  | _ => True
  end.

Definition align_ok (a : Z) : Prop := is_power_of_two a = true ∧ a ≤ 4096.

Definition struct_ok (nt : nat) (s : StructType) : Prop :=
  Forall (λ f, (sf_ty f < nt)%nat) (ss_fields s) ∧ (∀ a, ss_requested_align s = Some a → align_ok a).

Definition enum_ok (nt : nat) (e : EnumType) : Prop :=
  Forall (λ v, Forall (λ q, (q < nt)%nat) (ev_payload v)) (en_variants e).

Record context_ok (cx : TypeContext) : Prop := {
  co_types : ∀ i t, types cx !! i = Some t → type_ok (length (structs cx)) (length (enums cx)) i t;
  co_structs : Forall (struct_ok (length (types cx))) (structs cx);
  co_enums : Forall (enum_ok (length (types cx))) (enums cx);
  co_interned : ∀ i t, interned cx !! t = Some i ↔ types cx !! i = Some t;
  co_nonempty : (0 < length (types cx))%nat
}.

(** ** Powers of two and [align_up] *)

Lemma power_of_two n : is_power_of_two n = true → ∃ k, 0 ≤ k ∧ n = 2 ^ k.
Proof.
  unfold is_power_of_two. rewrite andb_true_iff, Z.ltb_lt, Z.eqb_eq. intros [Hn H].
  exists (Z.log2 n). split; [apply Z.log2_nonneg|]. destruct (Z.log2_spec n Hn) as [Hl Hu].
  destruct (decide (n = 2 ^ Z.log2 n)) as [|Hne]; [done|exfalso].
  assert (Hb : Z.testbit (Z.land n (n - 1)) (Z.log2 n) = true); [|by rewrite H, Z.bits_0 in Hb].
  rewrite Z.land_spec, Z.bit_log2 by done. simpl.
  assert (E : Z.log2 (n - 1) = Z.log2 n); [|rewrite <-E; apply Z.bit_log2; pose proof (Z.log2_nonneg n); nia].
  apply Z.log2_unique; [apply Z.log2_nonneg|]. lia.
Qed.

Lemma is_power_of_two_pow k : 0 ≤ k → is_power_of_two (2 ^ k) = true.
Proof.
  intros Hk. unfold is_power_of_two. apply andb_true_iff. split; [apply Z.ltb_lt; lia|apply Z.eqb_eq].
  apply Z.bits_inj'. intros i Hi. rewrite Z.land_spec, Z.bits_0.
  rewrite Z.pow2_bits_eqb by done. case_eq (Z.eqb k i); [|done]. intros ->%Z.eqb_eq.
  replace (2 ^ i - 1) with (Z.ones i) by (rewrite Z.ones_equiv; lia). by rewrite Z.ones_spec_high by lia.
Qed.

Lemma mask_down s k : 0 ≤ s ≤ U64_MAX → 0 ≤ k ≤ 64 → Z.land s (Z.lxor U64_MAX (2 ^ k - 1)) = s / 2 ^ k * 2 ^ k.
Proof.
  intros Hs Hk. replace (2 ^ k - 1) with (Z.ones k) by (rewrite Z.ones_equiv; lia).
  rewrite <-Z.shiftr_div_pow2, <-Z.shiftl_mul_pow2, <-Z.ldiff_ones_r by lia.
  change U64_MAX with (Z.ones 64) in *. apply Z.bits_inj'. intros i Hi.
  rewrite Z.land_spec, Z.ldiff_spec, Z.lxor_spec. destruct (decide (i < 64)) as [Hlt|Hge].
  - by rewrite (Z.ones_spec_low 64) by lia.
  - rewrite (Z.ones_spec_high 64), (Z.ones_spec_high k) by lia. simpl.
    replace (Z.testbit s i) with false; [done|]. symmetry. apply Z.testbit_false; [lia|].
    rewrite Z.div_small; [done|]. split; [lia|]. change (Z.ones 64) with (2 ^ 64 - 1) in Hs.
    apply Z.lt_le_trans with (2 ^ 64); [lia|]. apply Z.pow_le_mono_r; lia.
Qed.

Lemma align_le_64 a : is_power_of_two a = true → a ≤ U64_MAX → ∃ k, 0 ≤ k < 64 ∧ a = 2 ^ k.
Proof.
  intros (k & Hk & ->)%power_of_two Hle. exists k. split; [|done]. split; [done|].
  destruct (decide (k < 64)) as [|Hge]; [done|]. exfalso.
  assert (2 ^ 64 ≤ 2 ^ k) by (apply Z.pow_le_mono_r; lia). unfold U64_MAX in Hle. lia.
Qed.

(** Without an overflow, [align_up] is the next aligned address in every profile. *)
Lemma align_up_exact p E v a :
  is_power_of_two a = true → 0 ≤ v → v + a ≤ U64_MAX → align_up p (E := E) v a = Ok (next_aligned v a).
Proof.
  intros Ha Hv Hle. destruct (align_le_64 a Ha) as (k & Hk & ->); [lia|].
  assert (0 < 2 ^ k) by lia. unfold align_up, u64_wrap. rewrite Ha, andb_false_r.
  repeat match goal with |- context [(?x <=? ?y) && (?z <=? ?w)] =>
    replace ((x <=? y) && (z <=? w)) with true by (symmetry; apply andb_true_iff; rewrite !Z.leb_le; lia); simpl end.
  f_equal. apply mask_down; lia.
Qed.

(** The development profile panics otherwise. *)
Lemma align_up_dev E v a r :
  0 < a → 0 ≤ v → align_up Dev (E := E) v a = Ok r → is_power_of_two a = true ∧ v + a ≤ U64_MAX ∧ r = next_aligned v a.
Proof.
  intros Ha Hv H. assert (Hp : is_power_of_two a = true ∧ v + a ≤ U64_MAX).
  { unfold align_up in H. rewrite bool_decide_true in H by done. simpl in H.
    destruct (is_power_of_two a); [split; [done|]|done]. simpl in H. unfold u64_wrap at 1 in H.
    destruct (Z.leb_spec 0 (v + a)), (Z.leb_spec (v + a) U64_MAX); simpl in H; try done. }
  destruct Hp as [Hp Hle]. split_and!; [done..|]. rewrite align_up_exact in H by done. by simplify_eq.
Qed.

Lemma u64_wrap_dev E n r : u64_wrap Dev (E := E) n = Ok r → r = n ∧ 0 ≤ n ≤ U64_MAX.
Proof. unfold u64_wrap. destruct (Z.leb_spec 0 n), (Z.leb_spec n U64_MAX); simpl; intros; simplify_eq; lia. Qed.

Lemma u64_wrap_cases p E n : (∃ r, u64_wrap p (E := E) n = Ok r) ∨ (u64_wrap p (E := E) n = Panic ∧ p = Dev).
Proof. unfold u64_wrap. destruct (_ && _), p; eauto. Qed.

Lemma align_up_cases p E v a : (∃ r, align_up p (E := E) v a = Ok r) ∨ (align_up p (E := E) v a = Panic ∧ p = Dev).
Proof.
  unfold align_up. destruct (bool_decide_reflect (p = Dev)) as [->|Hne]; simpl.
  - destruct (negb _); [by right|].
    destruct (u64_wrap_cases Dev E (v + a)) as [[? ->]|[-> ?]]; simpl; [|by right].
    destruct (u64_wrap_cases Dev E (x - 1)) as [[? ->]|[-> ?]]; simpl; [|by right].
    destruct (u64_wrap_cases Dev E (a - 1)) as [[? ->]|[-> ?]]; simpl; [|by right]. eauto.
  - destruct (u64_wrap_cases p E (v + a)) as [[? ->]|[-> ?]]; simpl; [|done].
    destruct (u64_wrap_cases p E (x - 1)) as [[? ->]|[-> ?]]; simpl; [|done].
    destruct (u64_wrap_cases p E (a - 1)) as [[? ->]|[-> ?]]; simpl; [|done]. eauto.
Qed.

Lemma next_aligned_spec v a : 0 < a → v ≤ next_aligned v a < v + a ∧ (a | next_aligned v a).
Proof.
  intros Ha. unfold next_aligned. pose proof (Z.div_mod (v + a - 1) a). pose proof (Z.mod_pos_bound (v + a - 1) a).
  split; [nia|]. apply Z.divide_factor_r.
Qed.

(** Nothing aligned lies before it. *)
Lemma next_aligned_least v a r : 0 < a → v ≤ r → (a | r) → next_aligned v a ≤ r.
Proof.
  intros Ha Hv [q ->]. pose proof (next_aligned_spec v a Ha) as [Hb [q' E]]. rewrite E in *.
  assert (q' ≤ q); [|nia]. assert (q' < q + 1); [|lia]. nia.
Qed.

Lemma align_ok_pos a : align_ok a → 0 < a.
Proof. intros [(k & Hk & ->)%power_of_two _]. lia. Qed.

Lemma align_ok_max a b : align_ok a → align_ok b → align_ok (Z.max a b).
Proof. intros Ha Hb. by destruct (Z.max_spec a b) as [[_ ->]|[_ ->]]. Qed.

Lemma align_ok_1 : align_ok 1.
Proof. done. Qed.

(** The larger of two powers of two is a multiple of the smaller. *)
Lemma align_ok_divide a b : align_ok a → align_ok b → a ≤ b → (a | b).
Proof.
  intros [(k & Hk & ->)%power_of_two _] [(j & Hj & ->)%power_of_two _] H.
  apply Z.pow_le_mono_r_iff in H; [|lia|lia]. exists (2 ^ (j - k)). rewrite <-Z.pow_add_r by lia. f_equal. lia.
Qed.

Create HintDb layouts.
#[export] Hint Resolve align_ok_pos align_ok_max align_ok_1 : layouts.
