(* ===== verification/OcoreLayoutFacts.v ===== *)
(** * Facts about layouts

    The total correctness of computations that may only panic with overflow checks, what
    stays the same while layouts are filled in, and layouts and names as functions of
    well-formed contexts. *)

From S2P Require Import Prelude.
From S2P Require Import OcoreLexer.
From S2P Require Import OcoreAst.
From S2P Require Import OcoreHir.
From S2P Require Import OcoreTypes.
From S2P Require Import OcoreLayout.
From S2P Require Import OcoreLayoutSpec.
From Stdlib Require Import Relations.
From stdpp Require Import options.

#[local] Open Scope nat_scope.

(** ** Correctness up to overflow panics *)

Definition runs (p : Profile) {S A} (m : M S TcError A) (Q : A → S → Prop) (R : TcError → S → Prop) (s : S) : Prop :=
  match m s with
  | (s', Ok a) => Q a s'
  | (s', Err e) => R e s'
  | (_, Panic) => p = Dev
  | (_, NoFuel) => False
  end.

Section Runs.
Context {p : Profile} {S : Type}.
Implicit Types s : S.

Lemma runs_ret {A} (a : A) (Q : A → S → Prop) R s : Q a s → runs p (ret a) Q R s.
Proof. done. Qed.

Lemma runs_fail {A} e (Q : A → S → Prop) (R : TcError → S → Prop) s : R e s → runs p (fail e) Q R s.
Proof. done. Qed.

Lemma runs_get (Q : S → S → Prop) R s : Q s s → runs p get Q R s.
Proof. done. Qed.

Lemma runs_modify f (Q : unit → S → Prop) R s : Q tt (f s) → runs p (modify f) Q R s.
Proof. done. Qed.

Lemma runs_lift {A} (o : outcome TcError A) a (Q : A → S → Prop) R s : o = Ok a → Q a s → runs p (lift o) Q R s.
Proof. by intros ->. Qed.

Lemma runs_lift_cases {A} (o : outcome TcError A) (Q : A → S → Prop) R s :
  (∃ r, o = Ok r) ∨ (o = Panic ∧ p = Dev) → (∀ a, o = Ok a → Q a s) → runs p (lift o) Q R s.
Proof. intros [[r ->]|[-> ?]] HQ; [by apply HQ|done]. Qed.

Lemma runs_bind {A B} (m : M S TcError A) (k : A → M S TcError B) Q R s :
  runs p m (λ a s', runs p (k a) Q R s') R s → runs p (bind m k) Q R s.
Proof. unfold runs, bind. destruct (m s) as [s' [| | |]]; simpl; done. Qed.

Lemma runs_mono {A} (m : M S TcError A) (Q Q' : A → S → Prop) (R R' : TcError → S → Prop) s :
  runs p m Q R s → (∀ a s', Q a s' → Q' a s') → (∀ e s', R e s' → R' e s') → runs p m Q' R' s.
Proof. unfold runs. destruct (m s) as [s' [| | |]]; auto. Qed.

(** A loop keeps an invariant that relates the items done to the state. *)
Lemma runs_for_each {A} (f : A → M S TcError unit) (I : list A → S → Prop) R l done s :
  I done s →
  (∀ d a rest s, l = d ++ a :: rest → I (done ++ d) s → runs p (f a) (λ _, I (done ++ d ++ [a])) R s) →
  runs p (for_each f l) (λ _, I (done ++ l)) R s.
Proof.
  revert done s. induction l as [|a l IH]; intros done s H0 Hstep; simpl.
  { rewrite app_nil_r. by apply runs_ret. }
  apply runs_bind. eapply runs_mono; [apply (Hstep [] a l); [done|by rewrite app_nil_r]| |done].
  intros u s' HI. simpl in HI. replace (done ++ a :: l) with ((done ++ [a]) ++ l) by by rewrite <-app_assoc.
  apply IH; [done|]. intros d b rest s'' -> HI'. rewrite <-!app_assoc in *. by apply (Hstep (a :: d) b rest).
Qed.
End Runs.

(** ** Shapes: a context without its layouts *)

Definition struct_shape (s : StructType) := ((λ f, (sf_name f, sf_ty f)) <$> ss_fields s, ss_packed s, ss_requested_align s, ss_name s).
Definition enum_shape (e : EnumType) := ((λ v, (ev_name v, ev_payload v)) <$> en_variants e, en_name e).

Record same_shape (cx cx' : TypeContext) : Prop := {
  sh_types : types cx = types cx';
  sh_interned : interned cx = interned cx';
  sh_structs : struct_shape <$> structs cx = struct_shape <$> structs cx';
  sh_enums : enum_shape <$> enums cx = enum_shape <$> enums cx';
  sh_primitives : primitive_names cx = primitive_names cx'
}.

#[export] Instance same_shape_equivalence : Equivalence same_shape.
Proof.
  split; [done| |].
  - intros ?? []. by split.
  - intros ??? [] []. split; congruence.
Qed.

Lemma shape_struct cx cx' id s' : same_shape cx cx' → structs cx' !! id = Some s' →
  ∃ s, structs cx !! id = Some s ∧ struct_shape s = struct_shape s'.
Proof.
  intros [_ _ Hs _ _] H. apply (f_equal (lookup id)) in Hs. rewrite !list_lookup_fmap, H in Hs. simpl in Hs.
  destruct (structs cx !! id) as [s|]; [|done]. simpl in Hs. apply (inj Some) in Hs. eauto.
Qed.

Lemma shape_enum cx cx' id e' : same_shape cx cx' → enums cx' !! id = Some e' →
  ∃ e, enums cx !! id = Some e ∧ enum_shape e = enum_shape e'.
Proof.
  intros [_ _ _ Hs _] H. apply (f_equal (lookup id)) in Hs. rewrite !list_lookup_fmap, H in Hs. simpl in Hs.
  destruct (enums cx !! id) as [e|]; [|done]. simpl in Hs. apply (inj Some) in Hs. eauto.
Qed.

Lemma shape_field_types s s' : struct_shape s = struct_shape s' → sf_ty <$> ss_fields s = sf_ty <$> ss_fields s'.
Proof. intros [= H _ _ _]. apply (f_equal (fmap snd)) in H. by rewrite <-!list_fmap_compose in H. Qed.

Lemma shape_payloads e e' : enum_shape e = enum_shape e' → ev_payload <$> en_variants e = ev_payload <$> en_variants e'.
Proof. intros [= H _]. apply (f_equal (fmap snd)) in H. by rewrite <-!list_fmap_compose in H. Qed.

Lemma shape_members cx cx' n : same_shape cx cx' → members cx n = members cx' n.
Proof.
  intros H. destruct n as [id|id]; simpl.
  - destruct (structs cx' !! id) as [s'|] eqn:E.
    + destruct (shape_struct cx cx' id s' H E) as (s & -> & Hs). by apply shape_field_types.
    + destruct (structs cx !! id) as [s|] eqn:E'; [|done].
      destruct (shape_struct cx' cx id s) as (s' & Hs' & _); [by symmetry|done|congruence].
  - destruct (enums cx' !! id) as [e'|] eqn:E.
    + destruct (shape_enum cx cx' id e' H E) as (e & -> & He). f_equal. by apply shape_payloads.
    + destruct (enums cx !! id) as [e|] eqn:E'; [|done].
      destruct (shape_enum cx' cx id e) as (e' & He' & _); [by symmetry|done|congruence].
Qed.

Lemma holds_types cx cx' ty n : types cx = types cx' → holds cx ty n → holds cx' ty n.
Proof.
  intros E H. induction H; [apply holds_struct|apply holds_enum|eapply holds_array]; rewrite <-?E; eauto.
Qed.

Lemma shape_holds cx cx' ty n : same_shape cx cx' → holds cx ty n ↔ holds cx' ty n.
Proof. intros [E _ _ _ _]. split; by apply holds_types. Qed.

Lemma shape_lengths cx cx' : same_shape cx cx' →
  length (types cx) = length (types cx') ∧ length (structs cx) = length (structs cx') ∧ length (enums cx) = length (enums cx').
Proof.
  intros [E _ Es%(f_equal length) Ee%(f_equal length) _]. rewrite !length_fmap in Es. rewrite !length_fmap in Ee. by rewrite E.
Qed.

Lemma struct_ok_members nt s : Forall (λ q, q < nt) (sf_ty <$> ss_fields s) ↔ Forall (λ f, sf_ty f < nt) (ss_fields s).
Proof. apply Forall_fmap. Qed.

Lemma shape_context_ok cx cx' : same_shape cx cx' → context_ok cx → context_ok cx'.
Proof.
  intros H [Ht Hs He Hi Hn]. destruct (shape_lengths cx cx' H) as (E1 & E2 & E3). split.
  - rewrite <-E2, <-E3, <-(sh_types _ _ H). done.
  - rewrite <-E1. apply Forall_lookup. intros id s' Hs'. destruct (shape_struct cx cx' id s' H Hs') as (s & Hl & Esh).
    destruct (Forall_lookup_1 _ _ _ _ Hs Hl) as [Hf Ha]. split.
    + apply struct_ok_members. rewrite <-(shape_field_types _ _ Esh). by apply struct_ok_members.
    + by injection Esh as _ _ <- _.
  - rewrite <-E1. apply Forall_lookup. intros id e' He'. destruct (shape_enum cx cx' id e' H He') as (e & Hl & Esh).
    pose proof (Forall_lookup_1 _ _ _ _ He Hl) as Hv. unfold enum_ok in *.
    rewrite <-(Forall_fmap ev_payload (Forall (λ q, q < length (types cx)))) in *. by rewrite <-(shape_payloads _ _ Esh).
  - by rewrite <-(sh_interned _ _ H), <-(sh_types _ _ H).
  - by rewrite <-E1.
Qed.

(** ** Layouts and names of well-formed contexts *)

Section Context.
Context {cx : TypeContext} (Hok : context_ok cx).

Lemma layout_fuel_enough {E} f f' ty : ty < f → ty < f' → layout_fuel (E := E) f cx ty = layout_fuel f' cx ty.
Proof using Hok.
  revert f' ty. induction f as [|f IH]; intros [|f'] ty Hf Hf'; try lia. simpl.
  destruct (types cx !! ty) as [t|] eqn:Et; [simpl|done].
  destruct t; try done. destruct (co_types cx Hok ty _ Et) as [? _]. by rewrite (IH f') by lia.
Qed.

Lemma outcome_map_total {E A B} (f : A → outcome E B) l : Forall (λ a, ∃ b, f a = Ok b) l → ∃ bs, outcome_map f l = Ok bs.
Proof.
  induction 1 as [|a l [b Hb] _ [bs IH]]; simpl; [eauto|]. rewrite Hb. simpl. rewrite IH. simpl. eauto.
Qed.

Lemma name_fuel_total {E} f ty : ty < f → ty < length (types cx) → ∃ n, name_fuel (E := E) f cx ty = Ok n.
Proof using Hok.
  revert ty. induction f as [|f IH]; intros ty Hf Hty; [lia|]. simpl.
  destruct (lookup_lt_is_Some_2 _ _ Hty) as [t Et]. rewrite Et. simpl. pose proof (co_types cx Hok ty t Et) as Ht.
  destruct t; simpl in *; eauto.
  - destruct (IH pointee) as [n ->]; [lia..|]. simpl. eauto.
  - destruct (IH element) as [n ->]; [lia..|]. simpl. eauto.
  - destruct (lookup_lt_is_Some_2 _ _ Ht) as [s ->]. simpl. eauto.
  - destruct (lookup_lt_is_Some_2 _ _ Ht) as [s ->]. simpl. eauto.
  - destruct Ht as [Hp Hr]. destruct (outcome_map_total (name_fuel (E := E) f cx) params) as [ps ->].
    { eapply Forall_impl; [exact Hp|]. intros q Hq. simpl in *. apply IH; lia. }
    simpl. destruct (IH result) as [n ->]; [lia..|]. simpl. eauto.
Qed.

Lemma name_total {E} ty : ty < length (types cx) → ∃ n, name (E := E) cx ty = Ok n.
Proof using Hok. intros H. apply name_fuel_total; lia. Qed.

Lemma interned_type_bound id : default 0 (interned_type_for_struct cx id) < length (types cx).
Proof using Hok.
  unfold interned_type_for_struct. destruct (list_find _ _) as [[i t]|] eqn:E; simpl; [|apply (co_nonempty cx Hok)].
  apply list_find_Some in E as (E & _ & _). by eapply lookup_lt_Some.
Qed.
End Context.

(** Types whose nodes have the same entries have the same layout. *)
Definition same_entry (cx cx' : TypeContext) (n : Node) : Prop :=
  match n with
  | NStruct id => structs cx !! id = structs cx' !! id
  | NEnum id => enums cx !! id = enums cx' !! id
  end.

Lemma layout_fuel_stable {E} cx cx' f ty : types cx = types cx' → (∀ n, holds cx ty n → same_entry cx cx' n) →
  layout_fuel (E := E) f cx ty = layout_fuel f cx' ty.
Proof.
  intros Et. revert ty. induction f as [|f IH]; intros ty H; [done|]. simpl. rewrite <-Et.
  destruct (types cx !! ty) as [t|] eqn:El; [simpl|done]. destruct t; try done.
  - rewrite IH; [done|]. intros n Hn. apply H. by eapply holds_array.
  - pose proof (H (NStruct id)) as Hs. simpl in Hs. rewrite Hs; [done|by apply holds_struct].
  - pose proof (H (NEnum id)) as Hs. simpl in Hs. rewrite Hs; [done|by apply holds_enum].
Qed.

Lemma has_layout_stable cx cx' ty ly : types cx = types cx' → (∀ n, holds cx ty n → same_entry cx cx' n) →
  has_layout cx ty ly → has_layout cx' ty ly.
Proof. intros Et H. unfold has_layout, layout. rewrite <-Et. by rewrite (layout_fuel_stable cx cx'). Qed.

(** ** Updates that only fill in layouts *)

Lemma set_field_offsets_shape os s : struct_shape (set_field_offsets os s) = struct_shape s.
Proof.
  unfold struct_shape. simpl. do 3 f_equal. generalize (ss_fields s). clear s.
  induction os as [|o os IH]; intros [|f fs]; [done..|]. simpl. f_equal. apply IH.
Qed.

Lemma set_payload_layouts_shape lys e : enum_shape (set_payload_layouts lys e) = enum_shape e.
Proof.
  unfold enum_shape. simpl. f_equal. generalize (en_variants e). clear e.
  induction lys as [|ly lys IH]; intros [|v vs]; [done..|]. simpl. f_equal. apply IH.
Qed.

Lemma field_offsets_set os s : length os = length (ss_fields s) → sf_offset <$> ss_fields (set_field_offsets os s) = os.
Proof.
  simpl. generalize (ss_fields s). clear s. induction os as [|o os IH]; intros [|f fs] H; simplify_eq/=; [done|].
  f_equal. by apply IH.
Qed.

Lemma payload_layouts_set lys e :
  length lys = length (en_variants e) → ev_payload_layout <$> en_variants (set_payload_layouts lys e) = lys.
Proof.
  simpl. generalize (en_variants e). clear e. induction lys as [|ly lys IH]; intros [|v vs] H; simplify_eq/=; [done|].
  f_equal. by apply IH.
Qed.

Lemma fmap_alter_id {A B} (f : A → A) (g : A → B) (l : list A) (i : nat) : (∀ a, g (f a) = g a) → g <$> l = g <$> alter f i l.
Proof.
  intros H. revert i. induction l as [|a l IH]; intros [|i]; simpl; [done..| |]; f_equal; [by rewrite H|apply IH].
Qed.

Lemma update_struct_shape cx id f : (∀ s, struct_shape (f s) = struct_shape s) → same_shape cx (update_struct id f cx).
Proof. intros H. split; [done|done| |done..]. simpl. by apply fmap_alter_id. Qed.

Lemma update_enum_shape cx id f : (∀ e, enum_shape (f e) = enum_shape e) → same_shape cx (update_enum id f cx).
Proof. intros H. split; [done|done|done| |done]. simpl. by apply fmap_alter_id. Qed.

Lemma update_struct_entry cx id f m : m ≠ NStruct id → same_entry cx (update_struct id f cx) m.
Proof.
  intros Hm. destruct m as [j|j]; simpl; [|done]. symmetry. apply list_lookup_alter_ne. congruence.
Qed.

Lemma update_enum_entry cx id f m : m ≠ NEnum id → same_entry cx (update_enum id f cx) m.
Proof.
  intros Hm. destruct m as [j|j]; simpl; [done|]. symmetry. apply list_lookup_alter_ne. congruence.
Qed.

Lemma same_entry_trans cx1 cx2 cx3 n : same_entry cx1 cx2 n → same_entry cx2 cx3 n → same_entry cx1 cx3 n.
Proof. destruct n; simpl; congruence. Qed.

(** * Runs of the layout computation *)

(** ** States of nodes *)

Definition node_state (st : LayoutState) (n : Node) : option Z :=
  match n with NStruct id => struct_state st !! id | NEnum id => enum_state st !! id end.

Definition finished (st : LayoutState) (n : Node) : Prop := node_state st n = Some 2%Z.
Definition entered (st : LayoutState) (n : Node) : Prop := node_state st n = Some 1%Z.

Definition fresh (v : Z) : Prop := v ≠ 1%Z ∧ v ≠ 2%Z.

#[export] Instance fresh_dec v : Decision (fresh v).
Proof. unfold fresh. apply _. Defined.

Definition fresh_count (st : LayoutState) : nat :=
  length (filter fresh (struct_state st)) + length (filter fresh (enum_state st)).

Lemma filter_fresh_insert (l : list Z) i v w : l !! i = Some v →
  length (filter fresh (<[i := w]> l)) + (if decide (fresh v) then 1 else 0) =
  length (filter fresh l) + (if decide (fresh w) then 1 else 0).
Proof.
  revert i. induction l as [|x l IH]; intros [|i] H; simplify_eq/=.
  - rewrite !filter_cons. repeat case_decide; simpl; lia.
  - specialize (IH i H). rewrite !filter_cons. repeat case_decide; simpl in *; lia.
Qed.

Definition mark (n : Node) (v : Z) (st : LayoutState) : LayoutState :=
  match n with NStruct id => mark_struct id v st | NEnum id => mark_enum id v st end.

Lemma fresh_count_mark st n v w : node_state st n = Some v →
  fresh_count (mark n w st) + (if decide (fresh v) then 1 else 0) = fresh_count st + (if decide (fresh w) then 1 else 0).
Proof.
  intros H. unfold fresh_count. destruct n as [id|id]; simpl in *; pose proof (filter_fresh_insert _ _ _ w H); lia.
Qed.

Lemma node_state_mark st n v m : is_Some (node_state st n) →
  node_state (mark n v st) m = if decide (m = n) then Some v else node_state st m.
Proof.
  intros [w H]. destruct n as [id|id], m as [id'|id']; simpl in *; try done;
    (destruct (decide (id' = id)) as [->|Hne];
     [rewrite decide_True by done; apply list_lookup_insert_eq; by eapply lookup_lt_Some
     |rewrite decide_False by congruence; by apply list_lookup_insert_ne]).
Qed.

(** ** Progress of a run *)

Record extends (st st' : LayoutState) : Prop := {
  ex_finished : ∀ n, finished st n → finished st' n ∧ same_entry (lt_cx st) (lt_cx st') n;
  ex_entered : ∀ n, entered st n ↔ entered st' n;
  ex_fresh : fresh_count st' ≤ fresh_count st;
  ex_shape : same_shape (lt_cx st) (lt_cx st')
}.

#[export] Instance extends_refl : Reflexive extends.
Proof. intros st. split; [|done|done|done]. intros n Hn. split; [done|]. by destruct n. Qed.

#[export] Instance extends_trans : Transitive extends.
Proof.
  intros s1 s2 s3 [F1 E1 C1 S1] [F2 E2 C2 S2]. split.
  - intros n Hn. destruct (F1 n Hn) as [Hn2 H12]. destruct (F2 n Hn2) as [Hn3 H23]. split; [done|].
    destruct n; simpl in *; congruence.
  - intros n. by rewrite E1.
  - lia.
  - by trans (lt_cx s2).
Qed.

(** What a run does not undo. *)
Definition keeps (st st' : LayoutState) : Prop :=
  (∀ n, finished st n → finished st' n ∧ same_entry (lt_cx st) (lt_cx st') n) ∧ same_shape (lt_cx st) (lt_cx st').

Lemma extends_keeps st st' : extends st st' → keeps st st'.
Proof. intros []. by split. Qed.

#[local] Hint Resolve extends_keeps : core.

Section Run.
Context (p : Profile) (cx0 : TypeContext) (Hok : context_ok cx0).

Abbreviation nt := (length (types cx0)).

Definition type_done (st : LayoutState) (ty : TypeId) : Prop := ∀ n, holds cx0 ty n → finished st n.

Definition documented_node (cx : TypeContext) (n : Node) : Prop :=
  match n with
  | NStruct id => ∀ s, structs cx !! id = Some s → documented_struct cx s ∧ sound_layout (ss_layout s)
  | NEnum id => ∀ e, enums cx !! id = Some e → documented_enum None cx e ∧ sound_layout (en_layout e)
  end.

Record invariant (st : LayoutState) : Prop := {
  in_shape : same_shape cx0 (lt_cx st);
  in_structs : length (struct_state st) = length (structs cx0);
  in_enums : length (enum_state st) = length (enums cx0);
  in_done : ∀ n, finished st n → Forall (type_done st) (members cx0 n);
  in_acc : ∀ n, finished st n → Acc (within cx0) n;
  in_doc : ∀ n, finished st n → p = Dev → documented_node (lt_cx st) n
}.

(** What is being entered contains the node. *)
Definition inside (st : LayoutState) (n : Node) : Prop := ∀ g, entered st g → clos_trans _ (contains cx0) g n.
Definition inside_type (st : LayoutState) (ty : TypeId) : Prop := ∀ n, holds cx0 ty n → inside st n.

Definition reported (e : TcError) (st : LayoutState) : Prop := justified cx0 e ∧ same_shape cx0 (lt_cx st).

Lemma type_done_keeps st st' ty : keeps st st' → type_done st ty → type_done st' ty.
Proof. intros X H n Hn. by apply X, H. Qed.

Lemma types_done_keeps st st' l : keeps st st' → Forall (type_done st) l → Forall (type_done st') l.
Proof. intros X H. eapply Forall_impl; [exact H|]. intros ty. by apply type_done_keeps. Qed.

Lemma inside_extends st st' n : extends st st' → inside st n → inside st' n.
Proof. intros X H g Hg. apply H. by apply (ex_entered _ _ X). Qed.

Lemma has_layout_keeps st st' ty ly : same_shape cx0 (lt_cx st) → keeps st st' → type_done st ty →
  has_layout (lt_cx st) ty ly → has_layout (lt_cx st') ty ly.
Proof.
  intros Hs X Hd. apply has_layout_stable; [apply (sh_types _ _ (proj2 X))|].
  intros n Hn. apply X, Hd. by apply (shape_holds _ _ ty n Hs).
Qed.

Lemma have_layouts_keeps st st' tys lys : same_shape cx0 (lt_cx st) → keeps st st' → Forall (type_done st) tys →
  Forall2 (has_layout (lt_cx st)) tys lys → Forall2 (has_layout (lt_cx st')) tys lys.
Proof.
  intros Hs X Hd H. induction H as [|ty ly tys lys H _ IH]; [constructor|]. inversion_clear Hd.
  constructor; [by eapply has_layout_keeps|by apply IH].
Qed.

Lemma documented_keeps st st' n : same_shape cx0 (lt_cx st) → keeps st st' → finished st n →
  Forall (type_done st) (members cx0 n) → documented_node (lt_cx st) n → documented_node (lt_cx st') n.
Proof.
  intros Hs X Hf Hd Hdoc. destruct (proj1 X n Hf) as [_ He]. rewrite (shape_members _ _ n Hs) in Hd.
  destruct n as [id|id]; simpl in *.
  - intros s. rewrite <-He. intros Es. rewrite Es in Hd. destruct (Hdoc s Es) as [(lys & Hl & Ed) Hso].
    split; [|done]. exists lys. split; [|done]. by eapply have_layouts_keeps.
  - intros e. rewrite <-He. intros Ee. rewrite Ee in Hd. destruct (Hdoc e Ee) as [[Hv Ed] Hso].
    split; [|done]. split; [|done]. apply Forall_forall. intros v Hin.
    destruct (proj1 (Forall_forall _ _) Hv v Hin) as (lys & Hl & El). exists lys. split; [|done].
    eapply have_layouts_keeps; [done..| |done]. apply Forall_forall. intros ty Hty.
    apply (proj1 (Forall_forall _ _) Hd). apply list_elem_of_In, in_concat. exists (ev_payload v).
    split; [apply list_elem_of_In, list_elem_of_fmap; eauto|by apply list_elem_of_In].
Qed.

(** ** Entering and leaving a node *)

Lemma enter_invariant st n v : invariant st → node_state st n = Some v → fresh v → invariant (mark n 1 st).
Proof.
  intros [I1 I2 I3 I4 I5 I6] Hn Hv.
  assert (Hf : ∀ m, finished (mark n 1 st) m → finished st m).
  { intros m. unfold finished. rewrite node_state_mark by eauto. by case_decide. }
  assert (Hf' : ∀ m, finished st m → finished (mark n 1 st) m).
  { intros m. unfold finished. rewrite node_state_mark by eauto. case_decide as E; [subst m|done].
    rewrite Hn. intros [= ->]. by destruct Hv. }
  assert (Hc : lt_cx (mark n 1 st) = lt_cx st) by by destruct n.
  split.
  - by rewrite Hc.
  - destruct n; simpl; by rewrite ?length_insert.
  - destruct n; simpl; by rewrite ?length_insert.
  - intros m Hm. eapply Forall_impl; [by apply I4, Hf|]. intros ty Hty k Hk. by apply Hf', Hty.
  - auto.
  - rewrite Hc. auto.
Qed.

Lemma enter_inside st n v m : node_state st n = Some v → inside st n → contains cx0 n m → inside (mark n 1 st) m.
Proof.
  intros Hn Hi Hc g. unfold entered. rewrite node_state_mark by eauto. case_decide as E.
  - subst g. intros _. by apply t_step.
  - intros Hg. eapply t_trans; [by apply Hi|by apply t_step].
Qed.

(** The state after the loop over the members, with new entries for the node. *)
Lemma leave_extends st st1 n v cx' :
  node_state st n = Some v → fresh v → extends (mark n 1 st) st1 →
  same_shape (lt_cx st1) cx' → (∀ m, m ≠ n → same_entry (lt_cx st1) cx' m) →
  extends st (mark n 2 (with_cx (λ _, cx') st1)).
Proof.
  intros Hn Hv X Hsh He.
  assert (Hc : lt_cx (mark n 1 st) = lt_cx st) by by destruct n.
  assert (Hc' : ∀ s w, lt_cx (mark n w s) = lt_cx s) by (intros; by destruct n).
  assert (H1 : node_state st1 n = Some 1%Z).
  { apply (ex_entered _ _ X). unfold entered. rewrite node_state_mark by eauto. by rewrite decide_True. }
  assert (H1' : node_state (with_cx (λ _, cx') st1) n = Some 1%Z) by by destruct n.
  split.
  - intros m Hm. assert (m ≠ n) as Hmn.
    { intros ->. unfold finished in Hm. rewrite Hn in Hm. injection Hm as ->. by destruct Hv. }
    assert (Hm1 : finished (mark n 1 st) m).
    { unfold finished. rewrite node_state_mark by eauto. by rewrite decide_False. }
    destruct (ex_finished _ _ X m Hm1) as [Hm2 Hs]. rewrite Hc in Hs. split.
    + unfold finished. rewrite node_state_mark by eauto. rewrite decide_False by done. by destruct m.
    + rewrite Hc'. simpl. specialize (He m Hmn). destruct m; simpl in *; congruence.
  - intros m. unfold entered at 2. rewrite node_state_mark by eauto. case_decide as E.
    + subst m. unfold entered. rewrite Hn. split; [intros [= ->]; by destruct Hv|done].
    + replace (node_state (with_cx (λ _, cx') st1) m) with (node_state st1 m) by by destruct m.
      change (node_state st1 m = Some 1%Z) with (entered st1 m). rewrite <-(ex_entered _ _ X m).
      unfold entered. rewrite node_state_mark by eauto. by rewrite decide_False.
  - pose proof (fresh_count_mark _ n _ 2%Z H1') as C2. pose proof (fresh_count_mark _ n _ 1%Z Hn) as C1.
    pose proof (ex_fresh _ _ X) as C. change (fresh_count (with_cx (λ _, cx') st1)) with (fresh_count st1) in C2.
    rewrite (decide_True (P := fresh v)), (decide_False (P := fresh 1)) in C1 by (done || by intros []).
    rewrite (decide_False (P := fresh 1)), (decide_False (P := fresh 2)) in C2 by (by intros []). lia.
  - rewrite Hc'. simpl. trans (lt_cx st1); [|done]. rewrite <-Hc. apply X.
Qed.

Lemma leave_keeps st1 n cx' :
  entered st1 n → same_shape (lt_cx st1) cx' → (∀ m, m ≠ n → same_entry (lt_cx st1) cx' m) →
  keeps st1 (mark n 2 (with_cx (λ _, cx') st1)).
Proof.
  intros Hn Hsh He. assert (Hc : ∀ s w, lt_cx (mark n w s) = lt_cx s) by (intros; by destruct n).
  split; [|by rewrite Hc]. intros m Hm. assert (m ≠ n) as Hmn by (intros ->; unfold finished, entered in *; congruence).
  rewrite Hc. split; [|by apply He]. unfold finished. rewrite node_state_mark by (exists 1%Z; by destruct n).
  rewrite decide_False by done. by destruct m.
Qed.

Lemma leave_invariant st1 n cx' :
  invariant st1 → entered st1 n → same_shape (lt_cx st1) cx' → (∀ m, m ≠ n → same_entry (lt_cx st1) cx' m) →
  Forall (type_done st1) (members cx0 n) → (p = Dev → documented_node cx' n) →
  invariant (mark n 2 (with_cx (λ _, cx') st1)).
Proof.
  intros [I1 I2 I3 I4 I5 I6] Hn Hsh He Hd Hdoc. pose proof (leave_keeps st1 n cx' Hn Hsh He) as K.
  set (st2 := mark n 2 (with_cx (λ _, cx') st1)) in *.
  assert (Hc : lt_cx st2 = cx') by by destruct n.
  assert (Hf : ∀ m, finished st2 m → m = n ∨ finished st1 m).
  { intros m. unfold finished, st2. rewrite node_state_mark by (exists 1%Z; by destruct n).
    case_decide; [by left|]. right. by destruct m. }
  assert (Hd' : ∀ m, finished st2 m → Forall (type_done st1) (members cx0 m)).
  { intros m [->|Hm]%Hf; [done|by apply I4]. }
  split.
  - rewrite Hc. by trans (lt_cx st1).
  - unfold st2. destruct n; simpl; by rewrite ?length_insert.
  - unfold st2. destruct n; simpl; by rewrite ?length_insert.
  - intros m Hm. eapply types_done_keeps; [exact K|by apply Hd'].
  - intros m Hm. destruct (Hf m Hm) as [->|Hm1]; [|by apply I5]. constructor. intros k (ty & Hty & Hk).
    apply I5. by apply (proj1 (Forall_forall _ _) Hd ty Hty).
  - intros m Hm Hp. destruct (Hf m Hm) as [->|Hm1]; [rewrite Hc; by apply Hdoc|].
    eapply documented_keeps; [exact I1|exact K|done|by apply I4|by apply I6].
Qed.
End Run.
