(* ===== verification/OcoreLayoutSteps.v ===== *)
(** * Steps of the layout computation

    The loops over fields and payloads, structures, enumerations and types keep the
    invariant of [OcoreLayoutRun], and end. *)

From S2P Require Import Prelude.
From S2P Require Import OcoreLexer.
From S2P Require Import OcoreAst.
From S2P Require Import OcoreHir.
From S2P Require Import OcoreTypes.
From S2P Require Import OcoreLayout.
From S2P Require Import OcoreLayoutSpec.
From S2P Require Import OcoreLayoutFacts.
From Stdlib Require Import Relations.
From stdpp Require Import options.

#[local] Open Scope nat_scope.
#[local] Hint Resolve extends_keeps : core.

(** ** The documented placement *)

Lemma sound_align ly : sound_layout ly → align_ok (ly_align ly).
Proof. by intros (? & ? & _). Qed.
#[export] Hint Resolve sound_align : layouts.

Lemma doc_place_align packed lys off : Forall sound_layout lys → align_ok (doc_place packed lys off).2.
Proof.
  intros H. revert off. induction H as [|ly lys Hly _ IH]; intros off; simpl; [done|].
  destruct (doc_place packed lys _) as [[os e] m] eqn:E. simpl. apply align_ok_max; [destruct packed; auto with layouts|].
  specialize (IH (next_aligned off (if packed then 1 else ly_align ly) + ly_size ly)%Z). by rewrite E in IH.
Qed.

Lemma doc_place_length packed lys off : length (doc_place packed lys off).1.1 = length lys.
Proof.
  revert off. induction lys as [|ly lys IH]; intros off; simpl; [done|].
  specialize (IH (next_aligned off (if packed then 1 else ly_align ly) + ly_size ly)%Z).
  destruct (doc_place packed lys _) as [[os e] m]. simpl in *. by f_equal.
Qed.

Lemma next_aligned_sound e m : align_ok m → (0 ≤ e)%Z → (e + m ≤ U64_MAX)%Z →
  sound_layout {| ly_size := next_aligned e m; ly_align := m |}.
Proof.
  intros Hm He Hle. destruct (next_aligned_spec e m) as [Hb Hd]; [by apply align_ok_pos|].
  destruct Hm as [Hp Hm]. split_and!; simpl; [done|done|lia|lia|done].
Qed.

Lemma max_one a : align_ok a → Z.max 1 a = a.
Proof. intros Ha%align_ok_pos. lia. Qed.

Lemma seq_bound n d id rest : seq 0 n = d ++ id :: rest → id < n.
Proof. intros E. assert (H : id ∈ seq 0 n) by (rewrite E; set_solver). apply elem_of_seq in H. lia. Qed.

Section Steps.
Context (p : Profile) (cx0 : TypeContext) (Hok : context_ok cx0).

Abbreviation nt := (length (types cx0)).
Abbreviation invariant := (invariant p cx0).
Abbreviation reported := (reported cx0).
Abbreviation type_done := (type_done cx0).
Abbreviation inside_type := (inside_type cx0).

(** What a call for a type returns. *)
Definition laid_out (ty : TypeId) (st : LayoutState) (ly : Layout) (st' : LayoutState) : Prop :=
  invariant st' ∧ extends st st' ∧ type_done st' ty ∧ (p = Dev → has_layout (lt_cx st') ty ly ∧ sound_layout ly).

Definition calls_ok (rec : TypeId → L Layout) (w : nat) : Prop :=
  ∀ ty st, invariant st → ty < nt → fresh_count st ≤ w → inside_type st ty → runs p (rec ty) (laid_out ty st) reported st.

Lemma fail_layout_ok {A} ty problem (Q : A → LayoutState → Prop) st :
  invariant st → ty < nt → (problem = RecursiveType → ∃ n, clos_trans _ (contains cx0) n n) →
  runs p (fail_layout ty problem) Q reported st.
Proof using Hok.
  intros I Hty Hp. pose proof (shape_context_ok _ _ (in_shape _ _ _ I) Hok) as Hok'.
  destruct (name_total (E := TcError) Hok' ty) as [n Hn].
  { by destruct (shape_lengths _ _ (in_shape _ _ _ I)) as (<- & _). }
  unfold fail_layout. apply runs_bind, runs_get, runs_bind. eapply runs_lift.
  { unfold layout_diag. by rewrite Hn. }
  apply runs_fail. split; [|apply I]. unfold justified. simpl. destruct problem; auto.
Qed.

Lemma inside_types_extends st st' tys : extends st st' → Forall (inside_type st) tys → Forall (inside_type st') tys.
Proof.
  intros X H. eapply Forall_impl; [exact H|]. intros ty Hi n Hn. eapply inside_extends; [done|by apply Hi].
Qed.

(** The members done so far and the one just done. *)
Lemma layouts_cons st st' ty tys ly lys :
  invariant st → extends st st' → type_done st ty → has_layout (lt_cx st) ty ly → Forall2 (has_layout (lt_cx st')) tys lys →
  Forall2 (has_layout (lt_cx st')) (ty :: tys) (ly :: lys).
Proof.
  intros I X Hd Hl H. constructor; [|done]. eapply has_layout_keeps; [apply I|eauto..].
Qed.

(** ** Fields of a structure *)

Definition fields_laid_out (packed : bool) (tys : list TypeId) (off maxa : Z) (offs : list Z) (st : LayoutState)
    (r : Z * Z * list Z) (st' : LayoutState) : Prop :=
  invariant st' ∧ extends st st' ∧ Forall (type_done st') tys ∧
  (p = Dev → ∃ lys, Forall2 (has_layout (lt_cx st')) tys lys ∧ Forall sound_layout lys ∧
     let '(os, e, m) := doc_place packed lys off in r = (e, Z.max maxa m, offs ++ os) ∧ (0 ≤ e ≤ U64_MAX)%Z).

Lemma struct_fields_ok rec w packed tys off maxa offs st :
  calls_ok rec w → invariant st → Forall (λ q, q < nt) tys → fresh_count st ≤ w → Forall (inside_type st) tys →
  (p = Dev → 0 ≤ off ≤ U64_MAX)%Z → (1 ≤ maxa)%Z →
  runs p (struct_fields p rec packed tys off maxa offs) (fields_laid_out packed tys off maxa offs st) reported st.
Proof using Hok.
  intros Hrec. revert off maxa offs st. induction tys as [|ty tys IH]; intros off maxa offs st I Hlt Hw Hin Hoff Hmax; simpl.
  { apply runs_ret. split_and!; [done|done|constructor|]. intros Hp. exists []. simpl.
    rewrite app_nil_r, Z.max_l by lia. by auto. }
  inversion_clear Hlt as [|?? Hty Htys]. inversion_clear Hin as [|?? Hi His].
  apply runs_bind. eapply runs_mono; [by apply Hrec| |done]. intros ly st1 (I1 & X1 & D1 & L1).
  apply runs_bind, runs_lift_cases; [apply align_up_cases|]. intros o Ho.
  unfold checked_add. destruct (Z.leb_spec (o + ly_size ly) U64_MAX) as [Hle|]; [|by apply fail_layout_ok].
  eapply runs_mono; [apply IH; [done|done|pose proof (ex_fresh _ _ X1); lia|by eapply inside_types_extends| |lia]| |done].
  - intros Hp. destruct (L1 Hp) as [_ Hs]. rewrite Hp in Ho. pose proof (sound_align ly Hs) as Ha.
    apply align_up_dev in Ho as (_ & _ & ->); [|destruct packed; auto with layouts; lia|by apply Hoff].
    destruct (next_aligned_spec off (if packed then 1 else ly_align ly)%Z) as [[? _] _];
      [destruct packed; auto with layouts; lia|]. destruct Hs as (_ & _ & ? & _), (Hoff Hp). lia.
  - intros [[e m] os] st2 (I2 & X2 & D2 & L2). split_and!; [done|by trans st1| |].
    { constructor; [|done]. eapply type_done_keeps; [by eauto|done]. }
    intros Hp. destruct (L1 Hp) as [Hl Hs], (L2 Hp) as (lys & Hls & Hss & Hdoc). exists (ly :: lys).
    split_and!; [by apply (layouts_cons st1)|by constructor|]. simpl. rewrite Hp in Ho. pose proof (sound_align ly Hs) as Ha.
    apply align_up_dev in Ho as (_ & _ & ->); [|destruct packed; auto with layouts; lia|by apply Hoff].
    destruct (doc_place packed lys _) as [[os' e'] m']. destruct Hdoc as [[= -> -> ->] He].
    by rewrite Z.max_assoc, <-app_assoc.
Qed.

(** ** Structures *)

Definition node_laid_out (n : Node) (st : LayoutState) (st' : LayoutState) : Prop :=
  invariant st' ∧ extends st st' ∧ finished st' n.

(** Members of a node that was just entered. *)
Lemma enter_members st n v : invariant st → node_state st n = Some v → fresh v → inside cx0 st n →
  Forall (inside_type (mark n 1 st)) (members cx0 n).
Proof.
  intros I Hn Hv Hi. apply Forall_forall. intros ty Hty m Hm. eapply enter_inside; [done|done|]. by exists ty.
Qed.

Lemma enter_count st n v : node_state st n = Some v → fresh v →
  0 < fresh_count st ∧ fresh_count (mark n 1 st) ≤ pred (fresh_count st).
Proof.
  intros Hn Hv. pose proof (fresh_count_mark _ n _ 1%Z Hn) as C.
  rewrite (decide_True (P := fresh v)), (decide_False (P := fresh 1)) in C by (done || by intros []). lia.
Qed.

Lemma entered_mark st n v : node_state st n = Some v → entered (mark n 1 st) n.
Proof. intros H. unfold entered. rewrite node_state_mark by eauto. by rewrite decide_True. Qed.

Lemma finished_mark st n : is_Some (node_state st n) → finished (mark n 2 st) n.
Proof. intros H. unfold finished. rewrite node_state_mark by done. by rewrite decide_True. Qed.

Lemma leave_ok st st1 n v cx' :
  node_state st n = Some v → fresh v → extends (mark n 1 st) st1 → invariant st1 →
  same_shape (lt_cx st1) cx' → (∀ m, m ≠ n → same_entry (lt_cx st1) cx' m) →
  Forall (type_done st1) (members cx0 n) → (p = Dev → documented_node cx' n) →
  node_laid_out n st (mark n 2 (with_cx (λ _, cx') st1)).
Proof.
  intros Hn Hv X I Hsh He Hd Hdoc. assert (H1 : entered st1 n) by by apply (ex_entered _ _ X), entered_mark with v.
  split_and!; [by apply leave_invariant|by eapply leave_extends|apply finished_mark].
  exists 1%Z. by destruct n.
Qed.

Lemma new_struct_documented cx1 id s s1 offsets lys os e m :
  structs cx1 !! id = Some s1 → struct_shape s = struct_shape s1 →
  let align := match ss_requested_align s with Some a => Z.max m a | None => m end in
  let cx' := update_struct id (set_struct_layout {| ly_size := next_aligned e align; ly_align := align |})
               (update_struct id (set_field_offsets offsets) cx1) in
  Forall2 (has_layout cx') (sf_ty <$> ss_fields s) lys → doc_place (ss_packed s) lys 0 = (os, e, m) → offsets = os →
  sound_layout {| ly_size := next_aligned e align; ly_align := align |} →
  documented_node cx' (NStruct id).
Proof.
  intros Hs1 Hsh align cx' Hl Hdoc -> Hso s'. simpl. rewrite !list_lookup_alter_eq, Hs1. simpl. intros [= <-].
  split; [|done]. assert (Hlen : length os = length (ss_fields s1)).
  { apply Forall2_length in Hl. rewrite (shape_field_types _ _ Hsh), length_fmap in Hl. rewrite Hl.
    by rewrite <-(doc_place_length (ss_packed s) lys 0), Hdoc. }
  exists lys. split.
  - replace (sf_ty <$> _) with (sf_ty <$> ss_fields s); [done|].
    apply (shape_field_types s (set_field_offsets os s1)). by rewrite set_field_offsets_shape.
  - simpl. change (sf_offset <$> _) with (sf_offset <$> ss_fields (set_field_offsets os s1)).
    rewrite field_offsets_set by done. injection Hsh as _ <- <- _. unfold doc_struct. by rewrite Hdoc.
Qed.

Definition with_request (requested : option Z) (m : Z) : Z :=
  match requested with Some a => Z.max m a | None => m end.

Lemma with_request_ok s m : struct_ok nt s → align_ok m → align_ok (with_request (ss_requested_align s) m).
Proof. intros [_ Hr] Hm. unfold with_request. destruct (ss_requested_align s) as [a|]; auto with layouts. Qed.

Lemma struct_at st id : invariant st → id < length (structs cx0) →
  ∃ s, structs (lt_cx st) !! id = Some s ∧ struct_ok nt s ∧ members cx0 (NStruct id) = sf_ty <$> ss_fields s.
Proof using Hok.
  intros I Hid. destruct (shape_lengths _ _ (in_shape _ _ _ I)) as (El & Es & _).
  destruct (lookup_lt_is_Some_2 (structs (lt_cx st)) id) as [s Hs]; [by rewrite <-Es|]. exists s. split_and!; [done| |].
  - rewrite El. eapply Forall_lookup_1; [|done]. by apply (co_structs _ (shape_context_ok _ _ (in_shape _ _ _ I) Hok)).
  - rewrite (shape_members _ _ _ (in_shape _ _ _ I)). simpl. by rewrite Hs.
Qed.

Lemma layout_struct_ok rec id st :
  (0 < fresh_count st → calls_ok rec (pred (fresh_count st))) → invariant st → id < length (structs cx0) →
  inside cx0 st (NStruct id) →
  runs p (layout_struct_step p rec id) (λ _, node_laid_out (NStruct id) st) reported st.
Proof using Hok.
  intros Hrec I Hid Hi. destruct (lookup_lt_is_Some_2 (struct_state st) id) as [v Hv]; [by rewrite (in_structs _ _ _ I)|].
  unfold layout_struct_step. apply runs_bind, runs_get, runs_bind. eapply runs_lift; [by rewrite Hv|].
  destruct (Z.eqb_spec v 2) as [->|H2]; [by apply runs_ret; split_and!|].
  destruct (Z.eqb_spec v 1) as [->|H1].
  { apply fail_layout_ok; [done| |intros _; exists (NStruct id); by apply Hi].
    destruct (shape_lengths _ _ (in_shape _ _ _ I)) as (-> & _). apply interned_type_bound.
    by apply (shape_context_ok _ _ (in_shape _ _ _ I)). }
  assert (Hn : node_state st (NStruct id) = Some v) by done. assert (Hf : fresh v) by done.
  destruct (struct_at st id I Hid) as (s & Hs & Hsok & Hmem).
  apply runs_bind, runs_modify, runs_bind. eapply runs_lift; [by rewrite Hs|]. apply runs_bind.
  change (mark_struct id 1 st) with (mark (NStruct id) 1 st).
  eapply runs_mono; [apply (struct_fields_ok rec (pred (fresh_count st)))|intros [[e m] os] st1 (I1 & X1 & D1 & L1)|done].
  { by eapply Hrec, enter_count. } { by eapply enter_invariant. } { by apply struct_ok_members, Hsok. } { by eapply enter_count. }
  { rewrite <-Hmem. by eapply enter_members. } { done. } { done. }
  apply runs_bind, runs_modify, runs_bind, runs_lift_cases; [apply align_up_cases|]. intros size Hsize.
  apply runs_bind, runs_modify, runs_modify.
  eapply (leave_ok st st1 (NStruct id) v (update_struct id _ (update_struct id _ (lt_cx st1)))); [done..| | | |].
  { etrans; apply update_struct_shape; [apply set_field_offsets_shape|done]. }
  { intros k Hk. eapply same_entry_trans; by apply update_struct_entry. }
  { by rewrite Hmem. }
  intros Hp. destruct (L1 Hp) as (lys & Hls & Hss & Hdoc).
  pose proof (doc_place_align (ss_packed s) lys 0 Hss) as Ha.
  destruct (doc_place (ss_packed s) lys 0) as [[os' e'] m'] eqn:Ed. destruct Hdoc as [[= -> -> ->] He]. simpl in Ha.
  rewrite max_one in Hsize |- * by done. pose proof (with_request_ok s m' Hsok Ha) as Ha'. unfold with_request in Ha'.
  rewrite Hp in Hsize. apply align_up_dev in Hsize as (_ & Hle & ->); [|by apply align_ok_pos|lia].
  destruct (struct_at st1 id I1 Hid) as (s1 & Hs1 & _).
  destruct (shape_struct (lt_cx st) (lt_cx st1) id s1) as (s0 & Hs0 & Hsh); [|done|].
  { change (lt_cx st) with (lt_cx (mark (NStruct id) 1 st)). apply X1. }
  rewrite Hs in Hs0. injection Hs0 as <-.
  eapply (new_struct_documented _ id s s1); [done|done| |done|done|by apply next_aligned_sound; [|lia|]].
  eapply (have_layouts_keeps cx0 st1 (mark (NStruct id) 2 (with_cx (λ _, _) st1))); [apply I1| |exact D1|exact Hls].
  apply leave_keeps.
  - apply (ex_entered _ _ X1). by eapply entered_mark.
  - etrans; apply update_struct_shape; [apply set_field_offsets_shape|done].
  - intros k Hk. eapply same_entry_trans; by apply update_struct_entry.
Qed.

(** ** Payloads of an enumeration *)

Definition payload_laid_out (tys : list TypeId) (off a : Z) (st : LayoutState) (r : Z * Z) (st' : LayoutState) : Prop :=
  invariant st' ∧ extends st st' ∧ Forall (type_done st') tys ∧
  (p = Dev → ∃ lys, Forall2 (has_layout (lt_cx st')) tys lys ∧ Forall sound_layout lys ∧
     let '(_, e, m) := doc_place false lys off in r = (e, Z.max a m) ∧ (0 ≤ e ≤ U64_MAX)%Z).

Lemma payload_fields_ok rec w tys off a st :
  calls_ok rec w → invariant st → Forall (λ q, q < nt) tys → fresh_count st ≤ w → Forall (inside_type st) tys →
  (p = Dev → 0 ≤ off ≤ U64_MAX)%Z → (1 ≤ a)%Z →
  runs p (payload_fields p rec tys off a) (payload_laid_out tys off a st) reported st.
Proof.
  intros Hrec. revert off a st. induction tys as [|ty tys IH]; intros off a st I Hlt Hw Hin Hoff Ha; simpl.
  { apply runs_ret. split_and!; [done|done|constructor|]. intros Hp. exists []. simpl. rewrite Z.max_l by lia. by auto. }
  inversion_clear Hlt as [|?? Hty Htys]. inversion_clear Hin as [|?? Hi His].
  apply runs_bind. eapply runs_mono; [by apply Hrec| |done]. intros ly st1 (I1 & X1 & D1 & L1).
  apply runs_bind, runs_lift_cases; [apply align_up_cases|]. intros o Ho.
  apply runs_bind, runs_lift_cases; [apply u64_wrap_cases|]. intros o' Ho'.
  assert (Hdev : p = Dev → o = next_aligned off (ly_align ly) ∧ o' = (o + ly_size ly)%Z ∧ (0 ≤ o' ≤ U64_MAX)%Z).
  { intros Hp. destruct (L1 Hp) as [_ Hs]. rewrite Hp in Ho, Ho'. pose proof (sound_align ly Hs).
    apply align_up_dev in Ho as (_ & _ & ->); [|by auto with layouts|by apply Hoff].
    by apply u64_wrap_dev in Ho' as [-> ?]. }
  eapply runs_mono; [apply IH; [done|done|pose proof (ex_fresh _ _ X1); lia|by eapply inside_types_extends| |lia]| |done].
  { intros Hp. by apply Hdev. }
  intros [e m] st2 (I2 & X2 & D2 & L2). split_and!; [done|by trans st1| |].
  { constructor; [|done]. eapply type_done_keeps; [by eauto|done]. }
  intros Hp. destruct (L1 Hp) as [Hl Hs], (L2 Hp) as (lys & Hls & Hss & Hdoc), (Hdev Hp) as (-> & -> & _).
  exists (ly :: lys). split_and!; [by apply (layouts_cons st1)|by constructor|]. simpl.
  destruct (doc_place false lys _) as [[os' e'] m']. destruct Hdoc as [[= -> ->] He]. by rewrite Z.max_assoc.
Qed.

Definition payloads_laid_out (payloads : list (list TypeId)) (ms ma : Z) (lys0 : list Layout) (st : LayoutState)
    (r : Z * Z * list Layout) (st' : LayoutState) : Prop :=
  invariant st' ∧ extends st st' ∧ Forall (type_done st') (concat payloads) ∧
  (p = Dev → ∃ lyss, Forall2 (Forall2 (has_layout (lt_cx st'))) payloads lyss ∧
     Forall sound_layout (doc_payload <$> lyss) ∧
     r = (Z.max ms (max_of ly_size 0 (doc_payload <$> lyss)), Z.max ma (max_of ly_align 1 (doc_payload <$> lyss)),
          lys0 ++ (doc_payload <$> lyss))).

Lemma payload_layouts_ok rec w payloads ms ma lys0 st :
  calls_ok rec w → invariant st → Forall (λ q, q < nt) (concat payloads) → fresh_count st ≤ w →
  Forall (inside_type st) (concat payloads) → (0 ≤ ms)%Z → (1 ≤ ma)%Z →
  runs p (payload_layouts p rec payloads ms ma lys0) (payloads_laid_out payloads ms ma lys0 st) reported st.
Proof.
  intros Hrec. revert ms ma lys0 st. induction payloads as [|tys payloads IH]; intros ms ma lys0 st I Hlt Hw Hin Hms Hma; simpl.
  { apply runs_ret. split_and!; [done|done|constructor|]. intros Hp. exists []. simpl.
    rewrite app_nil_r, !Z.max_l by lia. by auto. }
  simpl in Hlt, Hin. apply Forall_app in Hlt as [Hlt Hlts], Hin as [Hin Hins].
  apply runs_bind. eapply runs_mono; [apply (payload_fields_ok rec w); [done..|lia]| |done].
  intros [e m] st1 (I1 & X1 & D1 & L1).
  apply runs_bind, runs_lift_cases; [apply align_up_cases|]. intros size Hsize.
  eapply runs_mono; [apply IH; [done|done|pose proof (ex_fresh _ _ X1); lia|by eapply inside_types_extends|lia|lia]| |done].
  intros [[ms' ma'] lys'] st2 (I2 & X2 & D2 & L2). split_and!; [done|by trans st1| |].
  { simpl. apply Forall_app. split; [|done]. eapply types_done_keeps; [by eauto|done]. }
  intros Hp. destruct (L1 Hp) as (lys & Hls & Hss & Hdoc), (L2 Hp) as (lyss & Hlss & Hsos & E).
  pose proof (doc_place_align false lys 0 Hss) as Ha.
  destruct (doc_place false lys 0) as [[os e'] m'] eqn:Ed. destruct Hdoc as [[= -> ->] He]. simpl in Ha.
  rewrite max_one in Hsize, E by done. rewrite Hp in Hsize.
  apply align_up_dev in Hsize as (_ & Hle & ->); [|by apply align_ok_pos|lia].
  assert (Epl : doc_payload lys = {| ly_size := next_aligned e' m'; ly_align := m' |}) by (unfold doc_payload; by rewrite Ed).
  exists (lys :: lyss). split_and!.
  - constructor; [|done]. eapply have_layouts_keeps; [apply I1|by eauto|done|done].
  - simpl. rewrite Epl. constructor; [|done]. apply next_aligned_sound; [done|lia|done].
  - rewrite E. simpl. rewrite Epl. simpl. by rewrite !Z.max_assoc, <-app_assoc.
Qed.

(** ** Enumerations *)

Lemma doc_tag_ok count : align_ok (doc_tag count).
Proof. unfold doc_tag. repeat case_match; done. Qed.

Lemma max_of_align lys : Forall (λ ly, align_ok (ly_align ly)) lys → align_ok (max_of ly_align 1 lys).
Proof. induction 1; simpl; auto with layouts. Qed.

Lemma sound_aligns lys : Forall sound_layout lys → Forall (λ ly, align_ok (ly_align ly)) lys.
Proof. intros H. eapply Forall_impl; [exact H|]. apply sound_align. Qed.

Lemma max_of_size lys : Forall sound_layout lys → (0 ≤ max_of ly_size 0 lys)%Z.
Proof. induction 1; simpl; lia. Qed.

Lemma variants_documented (P : TypeId → Layout → Prop) vs lyss :
  Forall2 (Forall2 P) (ev_payload <$> vs) lyss → ev_payload_layout <$> vs = doc_payload <$> lyss →
  Forall (λ v, ∃ lys, Forall2 P (ev_payload v) lys ∧ doc_payload lys = ev_payload_layout v) vs.
Proof.
  revert lyss. induction vs as [|v vs IH]; intros [|lys lyss] Hl E; try done. simpl in *.
  inversion_clear Hl. injection E as Ev Evs. constructor; [by exists lys|by apply (IH lyss)].
Qed.

Lemma payloads_keep st st' payloads lyss : same_shape cx0 (lt_cx st) → keeps st st' → Forall (type_done st) (concat payloads) →
  Forall2 (Forall2 (has_layout (lt_cx st))) payloads lyss → Forall2 (Forall2 (has_layout (lt_cx st'))) payloads lyss.
Proof.
  intros Hs K Hd H. induction H as [|tys lys payloads lyss H _ IH]; [constructor|].
  simpl in Hd. apply Forall_app in Hd as [Hd Hds]. constructor; [by eapply have_layouts_keeps|by apply IH].
Qed.

Lemma new_enum_documented cx1 id e e1 lyss :
  enums cx1 !! id = Some e1 → enum_shape e = enum_shape e1 →
  let payloads := doc_payload <$> lyss in
  let '(tag, off, ly) := doc_enum None payloads in
  let cx' := update_enum id (set_enum_layout tag off ly) (update_enum id (set_payload_layouts payloads) cx1) in
  Forall2 (Forall2 (has_layout cx')) (ev_payload <$> en_variants e) lyss → sound_layout ly →
  documented_node cx' (NEnum id).
Proof.
  intros He1 Hsh payloads. destruct (doc_enum None payloads) as [[tag off] ly] eqn:Ed. intros cx' Hl Hso e'. simpl.
  rewrite !list_lookup_alter_eq, He1. simpl. intros [= <-]. split; [|done].
  assert (Hlen : length payloads = length (en_variants e1)).
  { apply Forall2_length in Hl. rewrite (shape_payloads _ _ Hsh), length_fmap in Hl. unfold payloads. by rewrite length_fmap. }
  set (e2 := set_payload_layouts payloads e1).
  assert (Hpay : ev_payload <$> en_variants e = ev_payload <$> en_variants e2).
  { apply shape_payloads. unfold e2. by rewrite set_payload_layouts_shape. }
  assert (Hlay : ev_payload_layout <$> en_variants e2 = payloads) by by apply payload_layouts_set.
  split; change (en_variants (set_enum_layout tag off ly e2)) with (en_variants e2).
  - eapply variants_documented; [by rewrite <-Hpay|done].
  - by rewrite Hlay.
Qed.

Lemma enum_at st id : invariant st → id < length (enums cx0) →
  ∃ e, enums (lt_cx st) !! id = Some e ∧ enum_ok nt e ∧ members cx0 (NEnum id) = concat (ev_payload <$> en_variants e).
Proof using Hok.
  intros I Hid. destruct (shape_lengths _ _ (in_shape _ _ _ I)) as (El & _ & Es).
  destruct (lookup_lt_is_Some_2 (enums (lt_cx st)) id) as [e He]; [by rewrite <-Es|]. exists e. split_and!; [done| |].
  - rewrite El. eapply Forall_lookup_1; [|done]. by apply (co_enums _ (shape_context_ok _ _ (in_shape _ _ _ I) Hok)).
  - rewrite (shape_members _ _ _ (in_shape _ _ _ I)). simpl. by rewrite He.
Qed.

Lemma enum_ok_members e : enum_ok nt e → Forall (λ q, q < nt) (concat (ev_payload <$> en_variants e)).
Proof. unfold enum_ok. induction 1; simpl; [constructor|]. by apply Forall_app. Qed.

Lemma layout_enum_ok rec id st :
  (0 < fresh_count st → calls_ok rec (pred (fresh_count st))) → invariant st → id < length (enums cx0) →
  inside cx0 st (NEnum id) →
  runs p (layout_enum_step p rec id) (λ _, node_laid_out (NEnum id) st) reported st.
Proof using Hok.
  intros Hrec I Hid Hi. destruct (lookup_lt_is_Some_2 (enum_state st) id) as [v Hv]; [by rewrite (in_enums _ _ _ I)|].
  destruct (enum_at st id I Hid) as (e & He & Heok & Hmem).
  unfold layout_enum_step. apply runs_bind, runs_get, runs_bind. eapply runs_lift; [by rewrite Hv|].
  destruct (Z.eqb_spec v 2) as [->|H2]; [by apply runs_ret; split_and!|].
  destruct (Z.eqb_spec v 1) as [->|H1].
  { apply runs_bind. eapply runs_lift; [by rewrite He|]. apply runs_fail. split; [exists (NEnum id); by apply Hi|apply I]. }
  assert (Hn : node_state st (NEnum id) = Some v) by done. assert (Hf : fresh v) by done.
  apply runs_bind, runs_modify, runs_bind. eapply runs_lift; [by rewrite He|]. apply runs_bind.
  change (mark_enum id 1 st) with (mark (NEnum id) 1 st).
  eapply runs_mono; [apply (payload_layouts_ok rec (pred (fresh_count st)))|intros [[ms ma] lys] st1 (I1 & X1 & D1 & L1)|done].
  { by eapply Hrec, enter_count. } { by eapply enter_invariant. } { by apply enum_ok_members. } { by eapply enter_count. }
  { rewrite <-Hmem. by eapply enter_members. } { done. } { done. }
  apply runs_bind, runs_lift_cases; [apply align_up_cases|]. intros off Hoff.
  apply runs_bind, runs_lift_cases; [apply u64_wrap_cases|]. intros sum Hsum.
  apply runs_bind, runs_lift_cases; [apply align_up_cases|]. intros size Hsize.
  apply runs_bind, runs_modify, runs_bind, runs_modify, runs_modify.
  assert (Hsh1 : ∀ tag o ly lys, same_shape (lt_cx st1)
    (update_enum id (set_enum_layout tag o ly) (update_enum id (set_payload_layouts lys) (lt_cx st1)))).
  { intros. etrans; apply update_enum_shape; [apply set_payload_layouts_shape|done]. }
  assert (Hen1 : ∀ tag o ly lys k, k ≠ NEnum id → same_entry (lt_cx st1)
    (update_enum id (set_enum_layout tag o ly) (update_enum id (set_payload_layouts lys) (lt_cx st1))) k).
  { intros. eapply same_entry_trans; by apply update_enum_entry. }
  eapply (leave_ok st st1 (NEnum id) v (update_enum id _ (update_enum id _ (lt_cx st1)))); [done..|by apply Hsh1|by apply Hen1| |].
  { by rewrite Hmem. }
  intros Hp. destruct (L1 Hp) as (lyss & Hls & Hss & [= -> -> ->]). simpl in *.
  destruct (enum_at st1 id I1 Hid) as (e1 & He1 & _).
  destruct (shape_enum (lt_cx st) (lt_cx st1) id e1) as (e0 & He0 & Hsh); [|done|].
  { change (lt_cx st) with (lt_cx (mark (NEnum id) 1 st)). apply X1. }
  rewrite He in He0. injection He0 as <-.
  pose proof (max_of_align _ (sound_aligns _ Hss)) as Ha. pose proof (max_of_size _ Hss) as Hz.
  assert (Htag : tag_size_for (length (en_variants e)) = doc_tag (length (doc_payload <$> lyss))).
  { rewrite length_fmap, <-(Forall2_length _ _ _ Hls), length_fmap. done. }
  rewrite Htag in *. rewrite (max_one _ Ha) in *. rewrite (Z.max_r 0) in * by done. rewrite Hp in Hoff, Hsum, Hsize.
  set (tag := doc_tag (length (doc_payload <$> lyss))) in *. assert (Ht : align_ok tag) by apply doc_tag_ok.
  apply align_up_dev in Hoff as (_ & _ & ->); [|by auto with layouts|by apply align_ok_pos in Ht; lia].
  apply u64_wrap_dev in Hsum as [-> Hsum].
  apply align_up_dev in Hsize as (_ & Hle & ->); [|by auto with layouts|lia].
  pose proof (new_enum_documented (lt_cx st1) id e e1 lyss He1 Hsh) as Hnew. simpl in Hnew. fold tag in Hnew. apply Hnew.
  - eapply (payloads_keep st1 (mark (NEnum id) 2 (with_cx (λ _, _) st1))); [apply I1| |done|exact Hls].
    apply leave_keeps; [|by apply Hsh1|by apply Hen1]. apply (ex_entered _ _ X1). by apply (entered_mark st (NEnum id) v).
  - apply next_aligned_sound; [by auto with layouts|lia|done].
Qed.

(** ** Types *)

Definition is_aggregate (t : HType) : bool :=
  match t with TyStruct _ | TyEnum _ | TyArray _ _ => true | _ => false end.

Lemma primitive_layout cx ty t : types cx !! ty = Some t → is_aggregate t = false →
  type_ok (length (structs cx)) (length (enums cx)) ty t → ∃ ly, has_layout cx ty ly ∧ sound_layout ly.
Proof.
  clear Hok cx0 p. assert (Hs : ∀ k, k ∈ [0; 1; 2; 4; 8]%Z → sound_layout {| ly_size := k; ly_align := Z.max 1 k |}).
  { intros k Hk. repeat (apply elem_of_cons in Hk as [->|Hk];
      [split_and!; [done|done|done|done|by apply Z.divide_0_r || (simpl; apply Z.divide_refl)]|]).
    by apply elem_of_nil in Hk. }
  intros Ht Ha Hok'. unfold has_layout, layout. simpl. rewrite Ht. simpl.
  destruct t; simpl in Ha; try done; simpl in Hok';
    repeat (apply elem_of_cons in Hok' as [->|Hok']; [simpl|]); (try by apply elem_of_nil in Hok');
    (eexists; split; [reflexivity|]).
  all: by (apply (Hs 0%Z) || apply (Hs 1%Z) || apply (Hs 2%Z) || apply (Hs 4%Z) || apply (Hs 8%Z)); set_solver.
Qed.

Lemma scale_sound ly len : sound_layout ly → (0 ≤ len)%Z → (ly_size ly * len ≤ U64_MAX)%Z →
  sound_layout {| ly_size := ly_size ly * len; ly_align := ly_align ly |}.
Proof. intros (? & ? & ? & ?) Hl Hle. split_and!; simpl; [done|done|nia|lia|by apply Z.divide_mul_l]. Qed.

Lemma layout_type_ok fuel ty st :
  invariant st → ty < nt → fresh_count st * (nt + 1) + ty < fuel → inside_type st ty →
  runs p (layout_type p fuel ty) (laid_out ty st) reported st.
Proof using Hok.
  revert ty st. induction fuel as [|fuel IH]; intros ty st I Hty Hfuel Hin; [lia|]. simpl.
  destruct (lookup_lt_is_Some_2 (types cx0) ty Hty) as [t Ht]. pose proof (co_types _ Hok _ _ Ht) as Htok.
  assert (Ht' : types (lt_cx st) !! ty = Some t) by by rewrite <-(sh_types _ _ (in_shape _ _ _ I)).
  assert (Hcalls : ∀ w, w * (nt + 1) + nt ≤ fuel → calls_ok (layout_type p fuel) w).
  { intros w Hw ty' st' I' Hty' Hc Hi'. apply IH; [done|done|nia|done]. }
  apply runs_bind, runs_get, runs_bind. eapply runs_lift; [by rewrite Ht'|].
  destruct (is_aggregate t) eqn:Ha.
  2: { destruct (primitive_layout (lt_cx st) ty t Ht' Ha) as (ly & Hl & Hs).
    { destruct (shape_lengths _ _ (in_shape _ _ _ I)) as (_ & <- & <-). done. }
    assert (Hnone : ∀ n, ¬ holds cx0 ty n) by (intros n Hn; destruct Hn; simplify_eq; done).
    assert (Hgoal : runs p (lift (layout (lt_cx st) ty)) (laid_out ty st) reported st).
    { eapply runs_lift; [exact Hl|]. split_and!; [done|done|by intros n Hn%Hnone|done]. }
    by destruct t. }
  destruct t as [| | | | | | | |element len|id|id|]; try done; clear Ha.
  - destruct Htok as [He Hlen].
    apply runs_bind. eapply runs_mono; [apply IH; [done|lia|lia|]| |done].
    { intros n Hn. apply Hin. by eapply holds_array. }
    intros ly st1 (I1 & X1 & D1 & L1). unfold checked_mul.
    destruct (Z.leb_spec (ly_size ly * len) U64_MAX) as [Hle|]; [|by apply fail_layout_ok].
    apply runs_ret. split_and!; [done|done| |].
    + intros n Hn. apply D1. inversion Hn as [|? ?|? e' l' n' Hl']; simplify_eq; congruence || done.
    + intros Hp. destruct (L1 Hp) as [Hl Hs]. split; [|by apply scale_sound; [|lia|]].
      pose proof (shape_context_ok _ _ (in_shape _ _ _ I1) Hok) as Hok1.
      assert (Ht1 : types (lt_cx st1) !! ty = Some (TyArray element len)) by by rewrite <-(sh_types _ _ (in_shape _ _ _ I1)).
      pose proof (lookup_lt_Some _ _ _ Ht1). unfold has_layout, layout in Hl |- *. cbn [layout_fuel]. rewrite Ht1. simpl.
      rewrite (layout_fuel_enough Hok1 _ (S (length (types (lt_cx st1))))) by lia. rewrite Hl. simpl.
      unfold checked_mul. by rewrite (proj2 (Z.leb_le _ _) Hle).
  - apply runs_bind. eapply runs_mono; [apply layout_struct_ok; [|done|done|by apply Hin, holds_struct]| |done].
    { intros Hc. apply Hcalls. destruct (fresh_count st); simpl; nia. }
    intros _ st1 (I1 & X1 & F1). apply runs_bind, runs_get, runs_bind.
    destruct (struct_at st1 id I1 Htok) as (s & Hs & _). eapply runs_lift; [by rewrite Hs|]. apply runs_ret.
    split_and!; [done|done| |].
    + intros n Hn. inversion Hn; simplify_eq; congruence || done.
    + intros Hp. split; [|by apply (in_doc _ _ _ I1 _ F1 Hp)]. unfold has_layout, layout. simpl.
      rewrite <-(sh_types _ _ (in_shape _ _ _ I1)), Ht. simpl. by rewrite Hs.
  - apply runs_bind. eapply runs_mono; [apply layout_enum_ok; [|done|done|by apply Hin, holds_enum]| |done].
    { intros Hc. apply Hcalls. destruct (fresh_count st); simpl; nia. }
    intros _ st1 (I1 & X1 & F1). apply runs_bind, runs_get, runs_bind.
    destruct (enum_at st1 id I1 Htok) as (e & He & _). eapply runs_lift; [by rewrite He|]. apply runs_ret.
    split_and!; [done|done| |].
    + intros n Hn. inversion Hn; simplify_eq; congruence || done.
    + intros Hp. split; [|by apply (in_doc _ _ _ I1 _ F1 Hp)]. unfold has_layout, layout. simpl.
      rewrite <-(sh_types _ _ (in_shape _ _ _ I1)), Ht. simpl. by rewrite He.
Qed.

(** ** All of them *)

Lemma calls_enough st fuel : fresh_count st ≤ length (structs cx0) + length (enums cx0) → layout_calls cx0 ≤ fuel →
  0 < fresh_count st → calls_ok (layout_type p fuel) (pred (fresh_count st)).
Proof using Hok.
  intros Hc Hf Hpos ty st' I' Hty Hw Hi. apply layout_type_ok; [done|done| |done]. unfold layout_calls in Hf.
  apply Nat.lt_le_trans with ((length (structs cx0) + length (enums cx0) + 1) * (nt + 1)); [nia|done].
Qed.

Lemma fresh_count_bound st : invariant st → fresh_count st ≤ length (structs cx0) + length (enums cx0).
Proof.
  intros [_ <- <- _ _ _]. unfold fresh_count.
  pose proof (length_filter fresh (struct_state st)). pose proof (length_filter fresh (enum_state st)). lia.
Qed.

Definition start : LayoutState :=
  {| lt_cx := cx0; struct_state := replicate (length (structs cx0)) 0%Z; enum_state := replicate (length (enums cx0)) 0%Z |}.

Lemma start_fresh n v : node_state start n = Some v → v = 0%Z.
Proof. destruct n; simpl; intros [-> _]%lookup_replicate; done. Qed.

Lemma start_invariant : invariant start.
Proof.
  assert (Hf : ∀ n, ¬ finished start n) by (intros n Hn; by apply start_fresh in Hn).
  split; try (by intros n Hn%Hf); simpl; [done|by rewrite length_replicate..].
Qed.

(** Between the calls of the outer loops nothing is being entered. *)
Definition idle (nodes : list Node) (st : LayoutState) : Prop :=
  invariant st ∧ (∀ n, ¬ entered st n) ∧ Forall (finished st) nodes.

Lemma idle_next nodes n st st' : idle nodes st → node_laid_out n st st' → idle (nodes ++ [n]) st'.
Proof.
  intros (I & He & Hd) (I' & X & F). split_and!; [done| |].
  - intros m Hm%(ex_entered _ _ X). by apply (He m).
  - apply Forall_app. split; [|by constructor]. eapply Forall_impl; [exact Hd|]. intros m Hm. by apply (ex_finished _ _ X).
Qed.

Definition all_nodes : list Node :=
  (NStruct <$> seq 0 (length (structs cx0))) ++ (NEnum <$> seq 0 (length (enums cx0))).

Lemma layout_loop_ok : runs p (layout_loop p start) (λ _, idle all_nodes) reported start.
Proof using Hok.
  unfold layout_loop. apply runs_bind. simpl. rewrite !length_replicate.
  eapply runs_mono; [apply (runs_for_each _ (λ l, idle (NStruct <$> l)) _ _ [])|intros u st1 Hst1|done].
  { split_and!; [apply start_invariant| |constructor]. intros n Hn. by apply start_fresh in Hn. }
  { intros d id rest st El Hidle. eapply runs_mono; [apply layout_struct_ok| |done].
    - apply calls_enough; [apply fresh_count_bound, Hidle|done].
    - apply Hidle.
    - by eapply seq_bound.
    - intros g Hg. by apply Hidle in Hg.
    - intros u st' Hst'. simpl. rewrite fmap_app. by eapply idle_next. }
  eapply runs_mono;
    [apply (runs_for_each _ (λ l, idle ((NStruct <$> seq 0 (length (structs cx0))) ++ (NEnum <$> l))) _ _ [])|done|done].
  { by rewrite app_nil_r. }
  intros d id rest st El Hidle. eapply runs_mono; [apply layout_enum_ok| |done].
  - apply calls_enough; [apply fresh_count_bound, Hidle|done].
  - apply Hidle.
  - by eapply seq_bound.
  - intros g Hg. by apply Hidle in Hg.
  - intros u' st' Hst'. simpl. rewrite fmap_app, app_assoc. by eapply idle_next.
Qed.
End Steps.

(** ** The result *)

(** Every structure and enumeration is finite and, with overflow checks, laid out as documented. *)
Record laid_out_context (p : Profile) (cx : TypeContext) : Prop := {
  lc_ok : context_ok cx;
  lc_finite : ∀ n, Acc (within cx) n;
  lc_structs : p = Dev → Forall (λ s, documented_struct cx s ∧ sound_layout (ss_layout s)) (structs cx);
  lc_enums : p = Dev → Forall (λ e, documented_enum None cx e ∧ sound_layout (en_layout e)) (enums cx)
}.

Lemma within_shape cx cx' m n : same_shape cx cx' → within cx m n → within cx' m n.
Proof.
  intros H (ty & Hty & Hh). exists ty. by rewrite <-(shape_members _ _ n H), <-(shape_holds _ _ ty m H).
Qed.

Lemma Acc_shape cx cx' n : same_shape cx cx' → Acc (within cx) n → Acc (within cx') n.
Proof.
  intros H. induction 1 as [n _ IH]. constructor. intros m Hm. apply IH. by eapply within_shape; [symmetry|].
Qed.

Lemma idle_laid_out p cx0 st : context_ok cx0 → idle p cx0 (all_nodes cx0) st → laid_out_context p (lt_cx st).
Proof.
  intros Hok (I & _ & Hd). destruct (shape_lengths _ _ (in_shape _ _ _ I)) as (_ & Es & Ee).
  assert (Hs : ∀ id, id < length (structs cx0) → finished st (NStruct id)).
  { intros id Hid. apply (proj1 (Forall_forall _ _) Hd), elem_of_app. left. apply list_elem_of_fmap_2, elem_of_seq. lia. }
  assert (He : ∀ id, id < length (enums cx0) → finished st (NEnum id)).
  { intros id Hid. apply (proj1 (Forall_forall _ _) Hd), elem_of_app. right. apply list_elem_of_fmap_2, elem_of_seq. lia. }
  split.
  - eapply shape_context_ok; [apply I|done].
  - intros n. apply (Acc_shape cx0); [apply I|]. destruct (decide (members cx0 n = [])) as [E|E].
    { constructor. intros m (ty & Hty & _). rewrite E in Hty. by apply elem_of_nil in Hty. }
    apply (in_acc _ _ _ I). destruct n as [id|id]; simpl in E.
    + apply Hs. destruct (structs cx0 !! id) eqn:El; [by eapply lookup_lt_Some|done].
    + apply He. destruct (enums cx0 !! id) eqn:El; [by eapply lookup_lt_Some|done].
  - intros Hp. apply Forall_lookup. intros id s Hl. apply (in_doc _ _ _ I (NStruct id)); [apply Hs|done|done].
    rewrite Es. by eapply lookup_lt_Some.
  - intros Hp. apply Forall_lookup. intros id e Hl. apply (in_doc _ _ _ I (NEnum id)); [apply He|done|done].
    rewrite Ee. by eapply lookup_lt_Some.
Qed.

Lemma compute_layouts_ok p ck : context_ok (ck_types ck) →
  runs p (compute_layouts p)
    (λ _ ck', laid_out_context p (ck_types ck') ∧ same_shape (ck_types ck) (ck_types ck'))
    (λ e ck', justified (ck_types ck) e ∧ same_shape (ck_types ck) (ck_types ck')) ck.
Proof.
  intros Hok. pose proof (layout_loop_ok p (ck_types ck) Hok) as H. unfold runs, compute_layouts in *.
  change {| lt_cx := _; struct_state := _; enum_state := _ |} with (start (ck_types ck)).
  destruct (layout_loop p (start (ck_types ck)) (start (ck_types ck))) as [st [[]| | |]]; simpl; [|done..].
  split; [by eapply idle_laid_out|]. by destruct H as [[? _ _ _ _ _] _].
Qed.
