(* ===== verification/OcoreTypesFacts.v ===== *)
(** * The phases before the layouts

    Every phase of the type checker up to [define_types] is total on the trees of the
    parser, keeps the context well-formed, and gives every structure and enumeration of the
    source an entry whose types are the ones that the source names. *)

From S2P Require Import Prelude.
From S2P Require Import OcoreLexer.
From S2P Require Import OcoreAst.
From S2P Require Import OcoreHir.
From S2P Require Import OcoreTypes.
From S2P Require Import OcoreLayout.
From S2P Require Import OcoreLayoutSpec.
From S2P Require Import OcoreLayoutFacts.
From stdpp Require Import options.

#[local] Open Scope nat_scope.

Lemma forallb_elem_of {A} (f : A → bool) l x : forallb f l = true → x ∈ l → f x = true.
Proof. intros H Hx. apply (proj1 (forallb_forall f l) H). by apply list_elem_of_In. Qed.

(** ** Trees that the parser can return: paths are not empty, lengths are [u64] *)

Fixpoint type_expr_ok (t : TypeExpr) : bool :=
  let '(MkType k _) := t in
  match k with
  | TNamed path => bool_decide (path ≠ [])
  | TPointer _ t => type_expr_ok t
  | TArray t n => type_expr_ok t && (0 <=? n)%Z && (n <=? U64_MAX)%Z
  | TFnPointer _ params result => forallb type_expr_ok params && type_expr_ok result
  end.

Definition item_ok (item : Item) : bool :=
  match i_kind item with
  | IStruct def => forallb (λ f, type_expr_ok (fd_ty f)) (sd_fields def)
  | IEnum def => forallb (λ v, forallb type_expr_ok (v_payload v)) (ed_variants def)
  | _ => true
  end.

Definition module_ok (m : SourceModule) : bool :=
  forallb (λ u, match u_alias u with Some _ => true | None => bool_decide (u_path u ≠ []) end) (m_uses m) &&
  forallb item_ok (m_items m).

Definition modules_ok (modules : list (str * SourceModule)) : bool := forallb (λ m, module_ok m.2) modules.

(** ** The type that an expression denotes *)

Section Denotes.
Context (ck : Checker) (module_index : nat).

Inductive denotes : TypeExpr → TypeId → Prop :=
| denotes_primitive name sp id :
    primitive (ck_types ck) name = Some id → denotes (MkType (TNamed [name]) sp) id
| denotes_symbol path sp qn id :
    (∀ name, path = [name] → primitive (ck_types ck) name = None) →
    resolve_path ck module_index path = Ok qn → symbols ck !! qn = Some (SymType id) →
    denotes (MkType (TNamed path) sp) id
| denotes_pointer m t sp q id :
    denotes t q → types (ck_types ck) !! id = Some (TyPointer m q) → denotes (MkType (TPointer m t) sp) id
| denotes_array t n sp q id :
    denotes t q → types (ck_types ck) !! id = Some (TyArray q n) → denotes (MkType (TArray t n) sp) id
| denotes_fn abi ts t sp qs q id :
    Forall2 denotes ts qs → denotes t q → types (ck_types ck) !! id = Some (TyFunction qs q abi) →
    denotes (MkType (TFnPointer abi ts t) sp) id.

Section Induction.
Context (P : TypeExpr → TypeId → Prop).
Context (H1 : ∀ name sp id, primitive (ck_types ck) name = Some id → P (MkType (TNamed [name]) sp) id).
Context (H2 : ∀ path sp qn id, (∀ name, path = [name] → primitive (ck_types ck) name = None) →
  resolve_path ck module_index path = Ok qn → symbols ck !! qn = Some (SymType id) → P (MkType (TNamed path) sp) id).
Context (H3 : ∀ m t sp q id, P t q → types (ck_types ck) !! id = Some (TyPointer m q) → P (MkType (TPointer m t) sp) id).
Context (H4 : ∀ t n sp q id, P t q → types (ck_types ck) !! id = Some (TyArray q n) → P (MkType (TArray t n) sp) id).
Context (H5 : ∀ abi ts t sp qs q id, Forall2 P ts qs → P t q → types (ck_types ck) !! id = Some (TyFunction qs q abi) →
  P (MkType (TFnPointer abi ts t) sp) id).

Fixpoint denotes_nested t id (H : denotes t id) : P t id :=
  match H with
  | denotes_primitive name sp id H => H1 name sp id H
  | denotes_symbol path sp qn id Ha Hb Hc => H2 path sp qn id Ha Hb Hc
  | denotes_pointer m t sp q id H E => H3 m t sp q id (denotes_nested t q H) E
  | denotes_array t n sp q id H E => H4 t n sp q id (denotes_nested t q H) E
  | denotes_fn abi ts t sp qs q id Hs H E =>
      H5 abi ts t sp qs q id
        ((fix go ts qs (Hs : Forall2 denotes ts qs) : Forall2 P ts qs :=
            match Hs with
            | List.Forall2_nil _ => List.Forall2_nil P
            | List.Forall2_cons _ _ H Hs => List.Forall2_cons _ _ (denotes_nested _ _ H) (go _ _ Hs)
            end) ts qs Hs)
        (denotes_nested t q H) E
  end.
End Induction.
End Denotes.

(** ** Growth of a context *)

Record grows (ck ck' : Checker) : Prop := {
  gr_types : types (ck_types ck) `prefix_of` types (ck_types ck');
  gr_structs : structs (ck_types ck) = structs (ck_types ck');
  gr_enums : enums (ck_types ck) = enums (ck_types ck');
  gr_primitives : primitive_names (ck_types ck) = primitive_names (ck_types ck');
  gr_scopes : scopes ck = scopes ck';
  gr_symbols : symbols ck = symbols ck';
  gr_struct_defs : struct_defs ck = struct_defs ck';
  gr_enum_defs : enum_defs ck = enum_defs ck'
}.

#[export] Instance grows_refl : Reflexive grows.
Proof. done. Qed.

#[export] Instance grows_trans : Transitive grows.
Proof. intros a b c [] []. split; try congruence. by trans (types (ck_types b)). Qed.

Lemma grows_length ck ck' : grows ck ck' → length (types (ck_types ck)) ≤ length (types (ck_types ck')).
Proof. intros [H _ _ _ _ _ _ _]. by apply prefix_length. Qed.

(** What [denotes] depends on: a checker whose types, names and scopes are kept. *)
Record same_names (ck ck' : Checker) : Prop := {
  sn_types : types (ck_types ck) `prefix_of` types (ck_types ck');
  sn_primitives : primitive_names (ck_types ck) = primitive_names (ck_types ck');
  sn_scopes : scopes ck = scopes ck';
  sn_symbols : symbols ck = symbols ck'
}.

Lemma grows_names ck ck' : grows ck ck' → same_names ck ck'.
Proof. by intros []. Qed.

Lemma resolve_path_names ck ck' i path : same_names ck ck' → resolve_path ck i path = resolve_path ck' i path.
Proof. intros [_ _ Es Ey]. unfold resolve_path, path_is_known. by rewrite Es, Ey. Qed.

Lemma denotes_names ck ck' i t id : same_names ck ck' → denotes ck i t id → denotes ck' i t id.
Proof.
  intros G. apply denotes_nested; clear t id.
  - intros name sp id Hp. apply denotes_primitive. unfold primitive in *. by rewrite <-(sn_primitives _ _ G).
  - intros path sp qn id Hn Hr Hs.
    eapply denotes_symbol; [|by rewrite <-(resolve_path_names _ _ _ _ G)|by rewrite <-(sn_symbols _ _ G)].
    unfold primitive in *. by rewrite <-(sn_primitives _ _ G).
  - intros. eapply denotes_pointer; [done|]. eapply prefix_lookup_Some; [done|apply G].
  - intros. eapply denotes_array; [done|]. eapply prefix_lookup_Some; [done|apply G].
  - intros. eapply denotes_fn; [done|done|]. eapply prefix_lookup_Some; [done|apply G].
Qed.

Lemma all_denote_names ck ck' i ts ids : same_names ck ck' → Forall2 (denotes ck i) ts ids → Forall2 (denotes ck' i) ts ids.
Proof. intros G H. eapply Forall2_impl; [exact H|]. intros t id. by apply denotes_names. Qed.

(** ** Interning *)

Lemma type_ok_mono ns ne ns' ne' i t : ns ≤ ns' → ne ≤ ne' → type_ok ns ne i t → type_ok ns' ne' i t.
Proof. intros Hs He. destruct t; simpl; auto; lia. Qed.

Lemma struct_ok_mono nt nt' s : nt ≤ nt' → struct_ok nt s → struct_ok nt' s.
Proof. intros H [Hf Ha]. split; [|done]. eapply Forall_impl; [exact Hf|]. simpl. lia. Qed.

Lemma enum_ok_mono nt nt' e : nt ≤ nt' → enum_ok nt e → enum_ok nt' e.
Proof.
  intros H He. eapply Forall_impl; [exact He|]. intros v Hv. eapply Forall_impl; [exact Hv|]. simpl. lia.
Qed.

Lemma intern_spec cx t cx' id : context_ok cx → type_ok (length (structs cx)) (length (enums cx)) (length (types cx)) t →
  intern cx t = (cx', id) →
  context_ok cx' ∧ types cx' !! id = Some t ∧ types cx `prefix_of` types cx' ∧
  structs cx = structs cx' ∧ enums cx = enums cx' ∧ primitive_names cx = primitive_names cx'.
Proof.
  intros Hok Ht. unfold intern. destruct (interned cx !! t) as [i|] eqn:Ei; intros [= <- <-].
  { split_and!; try done. by apply (co_interned cx Hok). }
  split_and!; simpl; [|by rewrite lookup_app_r, Nat.sub_diag by lia|by apply prefix_app_r|done..].
  destruct Hok as [H1 H2 H3 H4 H5]. split; simpl; rewrite ?length_app; simpl.
  - intros j u Hj. apply lookup_snoc_Some in Hj as [[Hj Hu]|[-> ->]]; [by apply H1|done].
  - eapply Forall_impl; [exact H2|]. intros s. apply struct_ok_mono. lia.
  - eapply Forall_impl; [exact H3|]. intros e. apply enum_ok_mono. lia.
  - intros j u. rewrite lookup_insert_Some, lookup_snoc_Some, H4. split.
    + intros [[-> <-]|[Hne Hu]]; [by right|]. left. split; [by eapply lookup_lt_Some|done].
    + intros [[Hj Hu]|[-> ->]]; [right|by left]. split; [|done]. intros ->. apply H4 in Hu. congruence.
  - lia.
Qed.

(** ** The state of the checker *)

Section Phases.
Context {p : Profile} (modules : list (str * SourceModule)).

Record checker_ok (ck : Checker) : Prop := {
  k_context : context_ok (ck_types ck);
  k_primitives : ∀ n id, primitive_names (ck_types ck) !! n = Some id → id < length (types (ck_types ck));
  k_symbols : ∀ qn id, symbols ck !! qn = Some (SymType id) → id < length (types (ck_types ck));
  k_scopes : Forall2 (λ m sc, ms_file sc = m.1 ∧ ms_name sc = path_string (m_name m.2)) modules (scopes ck)
}.

(** Errors before the layouts. *)
Definition early (e : TcError) : Prop :=
  match d_message e with LayoutFailure _ _ | RecursiveEnum _ => False | _ => True end.

Abbreviation R := (λ e (_ : Checker), early e).

Lemma checker_ok_grows ck cx : checker_ok ck → grows ck (set_types cx ck) → context_ok cx → checker_ok (set_types cx ck).
Proof.
  intros [K1 K2 K3 K4] G Hcx. pose proof (grows_length _ _ G) as Hl. pose proof (gr_primitives _ _ G) as Hp. simpl in *. split; simpl.
  - done.
  - intros n id. rewrite <-Hp. intros Hn%K2. lia.
  - intros qn id Hq%K3. lia.
  - done.
Qed.

Lemma scope_at ck i m : checker_ok ck → modules !! i = Some m →
  ∃ sc, scopes ck !! i = Some sc ∧ ms_file sc = m.1 ∧ ms_name sc = path_string (m_name m.2).
Proof. intros K H. destruct (Forall2_lookup_l _ _ _ _ _ (k_scopes _ K) H) as (sc & Hsc & ?). eauto. Qed.

Lemma file_of_ok ck i m (Q : str → Checker → Prop) (R : TcError → Checker → Prop) : checker_ok ck → modules !! i = Some m →
  Q (m.1) ck → runs p (file_of i) Q R ck.
Proof.
  intros K H HQ. destruct (scope_at ck i m K H) as (sc & Hsc & Hf & _). rewrite <-Hf in HQ. unfold file_of.
  apply runs_bind, runs_get, runs_bind. eapply runs_lift; [by rewrite Hsc|]. by apply runs_ret.
Qed.

Lemma fail_file_ok {A} ck i m sp message (Q : A → Checker → Prop) : checker_ok ck → modules !! i = Some m →
  (∀ file, early (diag file sp message)) → runs p (let* file := file_of i in fail (diag file sp message)) Q R ck.
Proof. intros K H He. apply runs_bind. eapply file_of_ok; [done|done|]. apply runs_fail, He. Qed.

Definition resolved (ck : Checker) (id : TypeId) (ck' : Checker) : Prop :=
  checker_ok ck' ∧ grows ck ck' ∧ id < length (types (ck_types ck')).

Lemma intern_m_ok ck t : checker_ok ck →
  type_ok (length (structs (ck_types ck))) (length (enums (ck_types ck))) (length (types (ck_types ck))) t →
  runs p (intern_m t) (λ id ck', resolved ck id ck' ∧ types (ck_types ck') !! id = Some t) R ck.
Proof.
  intros K Ht. unfold intern_m. apply runs_bind, runs_get. destruct (intern (ck_types ck) t) as [cx id] eqn:E.
  destruct (intern_spec _ _ _ _ (k_context _ K) Ht E) as (Hcx & Hid & Hpre & Hs & He & Hp).
  apply runs_bind, runs_modify, runs_ret. assert (G : grows ck (set_types cx ck)) by by split.
  split; [|done]. split_and!; [by apply checker_ok_grows|done|]. simpl. by eapply lookup_lt_Some.
Qed.

Lemma resolve_path_total ck i m path : checker_ok ck → modules !! i = Some m → path ≠ [] →
  ∃ qn, resolve_path ck i path = Ok qn.
Proof.
  intros K H Hne. destruct (scope_at ck i m K H) as (sc & Hsc & _). unfold resolve_path. rewrite Hsc. simpl.
  destruct path as [|a [|b path]]; [done|..]; repeat case_match; eauto.
Qed.

Definition all_resolved (i : nat) (ck : Checker) (ts : list TypeExpr) (ids : list TypeId) (ck' : Checker) : Prop :=
  checker_ok ck' ∧ grows ck ck' ∧ Forall (λ id, id < length (types (ck_types ck'))) ids ∧ Forall2 (denotes ck' i) ts ids.

Lemma collect_types_ok i ts ck :
  Forall (λ t, ∀ ck, checker_ok ck → runs p (resolve_type i t) (λ id ck', resolved ck id ck' ∧ denotes ck' i t id) R ck) ts →
  checker_ok ck → runs p (collect (resolve_type i) ts) (all_resolved i ck ts) R ck.
Proof.
  intros Hts. revert ck. induction Hts as [|t ts Ht _ IH]; intros ck K; simpl.
  { by apply runs_ret. }
  apply runs_bind. eapply runs_mono; [by apply Ht| |done]. intros id ck1 ((K1 & G1 & Hid) & D1).
  apply runs_bind. eapply runs_mono; [by apply IH| |done]. intros ids ck2 (K2 & G2 & Hids & D2).
  apply runs_ret. split_and!; [done|by trans ck1| |].
  - constructor; [|done]. pose proof (grows_length _ _ G2). lia.
  - constructor; [|done]. eapply denotes_names; [by apply grows_names|done].
Qed.

Lemma resolve_type_ok i m t ck : modules !! i = Some m → type_expr_ok t = true → checker_ok ck →
  runs p (resolve_type i t) (λ id ck', resolved ck id ck' ∧ denotes ck' i t id) R ck.
Proof.
  intros Hm. revert ck. induction t as [path sp|mu t sp IH|t n sp IH|abi ts t sp IHs IH] using type_ind_nested; intros ck Ht K;
    simpl in Ht; simpl.
  - unfold resolve_named. apply runs_bind, runs_get.
    destruct (match path with [name] => primitive (ck_types ck) name | _ => None end) as [id|] eqn:Ep.
    + apply runs_ret. destruct path as [|name [|]]; try done. split; [|by apply denotes_primitive].
      split_and!; [done|done|]. by eapply (k_primitives _ K).
    + apply bool_decide_eq_true in Ht. destruct (resolve_path_total ck i m path K Hm Ht) as [qn Hq].
      apply runs_bind. eapply runs_lift; [exact Hq|].
      destruct (symbols ck !! qn) as [[]|] eqn:Es; try by eapply fail_file_ok.
      apply runs_ret. split; [split_and!; [done|done|by eapply (k_symbols _ K)]|].
      eapply denotes_symbol; [|done|done]. by intros name ->.
  - apply runs_bind. eapply runs_mono; [by apply IH| |done]. intros q ck1 ((K1 & G1 & Hq) & D1).
    eapply runs_mono; [by apply intern_m_ok| |done]. intros id ck2 ((K2 & G2 & Hid) & Hl).
    split; [split_and!; [done|by trans ck1|done]|]. eapply denotes_pointer; [|done].
    eapply denotes_names; [by apply grows_names|done].
  - apply andb_true_iff in Ht as [[Ht H0]%andb_true_iff Hn]. apply Z.leb_le in H0, Hn.
    apply runs_bind. eapply runs_mono; [by apply IH| |done]. intros q ck1 ((K1 & G1 & Hq) & D1).
    eapply runs_mono; [by apply intern_m_ok| |done]. intros id ck2 ((K2 & G2 & Hid) & Hl).
    split; [split_and!; [done|by trans ck1|done]|]. eapply denotes_array; [|done].
    eapply denotes_names; [by apply grows_names|done].
  - apply andb_true_iff in Ht as [Hts Ht]. apply runs_bind.
    eapply runs_mono; [apply collect_types_ok; [|done]| |done].
    { apply Forall_forall. intros t' Hin ck'. apply (proj1 (Forall_forall _ _) IHs t' Hin).
      by eapply forallb_elem_of. }
    intros qs ck1 (K1 & G1 & Hqs & D1).
    apply runs_bind. eapply runs_mono; [by apply IH| |done]. intros q ck2 ((K2 & G2 & Hq) & D2).
    eapply runs_mono; [apply intern_m_ok; [done|]| |done].
    { split; [|done]. eapply Forall_impl; [exact Hqs|]. pose proof (grows_length _ _ G2). simpl. lia. }
    intros id ck3 ((K3 & G3 & Hid) & Hl). split; [split_and!; [done|etrans; [done|by trans ck2]|done]|].
    eapply denotes_fn; [| |done].
    + eapply all_denote_names; [|exact D1]. apply grows_names. by trans ck2.
    + eapply denotes_names; [by apply grows_names|done].
Qed.

(** ** Module scopes *)

Lemma import_loop_total file uses imports :
  forallb (λ u, match u_alias u with Some _ => true | None => bool_decide (u_path u ≠ []) end) uses = true →
  (∃ r, import_loop file uses imports = Ok r) ∨ (∃ e, import_loop file uses imports = Err e ∧ early e).
Proof.
  revert imports. induction uses as [|u uses IH]; intros imports Hu; simpl in *; [by eauto|].
  apply andb_true_iff in Hu as [Hu Hus].
  assert (Ha : ∃ alias, match u_alias u with Some a => Ok a | None => index_or_panic (last (u_path u)) end = Ok (E := TcError) alias).
  { destruct (u_alias u) as [a|]; [by eauto|]. apply bool_decide_eq_true in Hu.
    destruct (last (u_path u)) as [a|] eqn:El; [by eauto|]. by apply last_None in El. }
  destruct Ha as [alias ->]. simpl. destruct (imports !! alias); [right; eexists; done|]. by apply IH.
Qed.

Definition scoped (ms : list (str * SourceModule)) (ck ck' : Checker) : Prop :=
  ck_types ck' = ck_types ck ∧ symbols ck' = symbols ck ∧ struct_defs ck' = struct_defs ck ∧ enum_defs ck' = enum_defs ck ∧
  ∃ scs, scopes ck' = scopes ck ++ scs ∧
         Forall2 (λ m sc, ms_file sc = m.1 ∧ ms_name sc = path_string (m_name m.2)) ms scs.

Lemma module_loop_ok ms seen ck : modules_ok ms = true →
  runs p (module_loop ms seen) (λ _, scoped ms ck) R ck.
Proof.
  revert seen ck. induction ms as [|[file m] ms IH]; intros seen ck Hms; simpl in *.
  { apply runs_ret. split_and!; [done..|]. exists []. by rewrite app_nil_r. }
  apply andb_true_iff in Hms as [Hm Hms]. apply andb_true_iff in Hm as [Hu _].
  case_bool_decide; [by apply runs_fail|]. apply runs_bind.
  destruct (import_loop_total file (m_uses m) ∅ Hu) as [[imports Hi]|(e & He & Hearly)].
  2: { unfold lift, runs. by rewrite He. }
  eapply runs_lift; [exact Hi|]. apply runs_bind, runs_modify. eapply runs_mono; [by apply IH| |done].
  intros _ ck' (E1 & E2 & E3 & E4 & scs & E5 & Hscs). split_and!; [done..|].
  eexists (_ :: scs). simpl in E5. rewrite <-app_assoc in E5. split; [exact E5|]. by constructor.
Qed.

(** ** Names of types *)

Abbreviation module_name m := (path_string (m_name m)).

Record defs_ok (ck : Checker) : Prop := {
  d_structs : ∀ qn id i j, struct_defs ck !! qn = Some (id, i, j) →
    is_Some (symbols ck !! qn) ∧
    ∃ f m item def s, modules !! i = Some (f, m) ∧ m_items m !! j = Some item ∧ i_kind item = IStruct def ∧
      structs (ck_types ck) !! id = Some s ∧ ss_name s = qn;
  d_enums : ∀ qn id i j, enum_defs ck !! qn = Some (id, i, j) →
    is_Some (symbols ck !! qn) ∧
    ∃ f m item def e, modules !! i = Some (f, m) ∧ m_items m !! j = Some item ∧ i_kind item = IEnum def ∧
      enums (ck_types ck) !! id = Some e ∧ en_name e = qn
}.

(** The definition of an item is recorded under its qualified name. *)
Definition collected (ck : Checker) (i : nat) (m : SourceModule) (j : nat) (item : Item) : Prop :=
  match i_kind item with
  | IStruct def => ∃ id, struct_defs ck !! qualify (module_name m) (sd_name def) = Some (id, i, j)
  | IEnum def => ∃ id, enum_defs ck !! qualify (module_name m) (ed_name def) = Some (id, i, j)
  | _ => True
  end.

Definition defs_grow (ck ck' : Checker) : Prop := struct_defs ck ⊆ struct_defs ck' ∧ enum_defs ck ⊆ enum_defs ck'.

Lemma collected_grow ck ck' i m j item : defs_grow ck ck' → collected ck i m j item → collected ck' i m j item.
Proof.
  intros [Hs He]. unfold collected. destruct (i_kind item); try done; intros [id H]; exists id; by eapply lookup_weaken.
Qed.

Lemma add_struct_ok cx name cx' id ty : context_ok cx → add_struct_placeholder cx name = (cx', (id, ty)) →
  context_ok cx' ∧ ty < length (types cx') ∧ types cx `prefix_of` types cx' ∧ primitive_names cx' = primitive_names cx ∧
  enums cx' = enums cx ∧ ∃ s, structs cx' = structs cx ++ [s] ∧ ss_name s = name ∧ id = length (structs cx).
Proof.
  intros Hok. unfold add_struct_placeholder. set (cx1 := set_structs _ cx). destruct (intern cx1 _) as [cx2 t] eqn:E.
  intros [= <- <- <-]. assert (Hok1 : context_ok cx1).
  { destruct Hok as [H1 H2 H3 H4 H5]. split; [|by apply Forall_app; split; [|repeat constructor]|done..].
    intros k u Hu. eapply type_ok_mono; [| |by apply H1]; simpl; rewrite ?length_app; lia. }
  apply intern_spec in E as (Hok2 & Hl & Hpre & Hs & He & Hp); [|done|simpl; rewrite length_app; simpl; lia].
  split_and!; [done|by eapply lookup_lt_Some|done|done|done|]. eexists. by rewrite <-Hs.
Qed.

Lemma add_enum_ok cx name cx' id ty : context_ok cx → add_enum_placeholder cx name = (cx', (id, ty)) →
  context_ok cx' ∧ ty < length (types cx') ∧ types cx `prefix_of` types cx' ∧ primitive_names cx' = primitive_names cx ∧
  structs cx' = structs cx ∧ ∃ e, enums cx' = enums cx ++ [e] ∧ en_name e = name ∧ id = length (enums cx).
Proof.
  intros Hok. unfold add_enum_placeholder. set (cx1 := set_enums _ cx). destruct (intern cx1 _) as [cx2 t] eqn:E.
  intros [= <- <- <-]. assert (Hok1 : context_ok cx1).
  { destruct Hok as [H1 H2 H3 H4 H5]. split; [|done|by apply Forall_app; split; [|repeat constructor]|done..].
    intros k u Hu. eapply type_ok_mono; [| |by apply H1]; simpl; rewrite ?length_app; lia. }
  apply intern_spec in E as (Hok2 & Hl & Hpre & Hs & He & Hp); [|done|simpl; rewrite length_app; simpl; lia].
  split_and!; [done|by eapply lookup_lt_Some|done|done|done|]. eexists. by rewrite <-He.
Qed.

(** A context with more types, and one more symbol. *)
Lemma checker_ok_symbol ck ck' qn ty : checker_ok ck → context_ok (ck_types ck') →
  types (ck_types ck) `prefix_of` types (ck_types ck') → primitive_names (ck_types ck') = primitive_names (ck_types ck) →
  scopes ck' = scopes ck → symbols ck' = <[qn := SymType ty]> (symbols ck) → ty < length (types (ck_types ck')) → checker_ok ck'.
Proof.
  intros [K1 K2 K3 K4] Hc Hpre Hp Hs Hy Hty. apply prefix_length in Hpre. split; [done| | |by rewrite Hs].
  - rewrite Hp. intros n id Hn%K2. lia.
  - rewrite Hy. intros q id. rewrite lookup_insert_Some. intros [[_ [= <-]]|[_ Hq%K3]]; lia.
Qed.

Lemma collect_item_ok i f m j item ck : checker_ok ck → defs_ok ck → modules !! i = Some (f, m) → m_items m !! j = Some item →
  runs p (collect_item i j item) (λ _ ck', checker_ok ck' ∧ defs_ok ck' ∧ defs_grow ck ck' ∧ collected ck' i m j item) R ck.
Proof.
  intros K D Hm Hj. destruct (scope_at ck i _ K Hm) as (sc & Hsc & _ & Hname). simpl in Hname.
  unfold collect_item, collected. destruct (i_kind item) as [fn|def|def|st|c] eqn:Ek; try by apply runs_ret.
  - apply runs_bind, runs_bind, runs_get, runs_bind. eapply runs_lift; [by rewrite Hsc|]. rewrite Hname.
    set (qn := qualify _ _). clearbody qn. apply runs_ret, runs_bind. unfold ensure_name_free. apply runs_bind, runs_get.
    destruct (symbols ck !! qn) as [sy|] eqn:Eq; [by eapply fail_file_ok|]. apply runs_ret, runs_bind, runs_get.
    destruct (add_struct_placeholder (ck_types ck) qn) as [cx [id ty]] eqn:Ea.
    destruct (add_struct_ok _ _ _ _ _ (k_context _ K) Ea) as (Hcx & Hty & Hpre & Hp & He & s & Hs & Hn & ->).
    apply runs_bind, runs_modify, runs_modify. destruct D as [D1 D2].
    assert (Hno : struct_defs ck !! qn = None).
    { destruct (struct_defs ck !! qn) as [[[? ?] ?]|] eqn:E; [|done]. destruct (D1 _ _ _ _ E) as [[? ?] _]. congruence. }
    split_and!; [by apply (checker_ok_symbol ck _ qn ty)| |split; [by apply insert_subseteq|done]|].
    + split; simpl; intros q id i' j' Hq.
      * apply lookup_insert_Some in Hq as [[<- [= <- <- <-]]|[Hne Hq]].
        { split; [rewrite lookup_insert_eq; eauto|]. exists f, m, item, def, s. rewrite Hs. split_and!; try done.
          by rewrite lookup_app_r, Nat.sub_diag by lia. }
        destruct (D1 _ _ _ _ Hq) as [Hsy (f' & m' & it & d & s' & ? & ? & ? & Hl & ?)].
        split; [by rewrite lookup_insert_ne|]. exists f', m', it, d, s'. rewrite Hs. split_and!; try done. by apply lookup_app_l_Some.
      * destruct (D2 _ _ _ _ Hq) as [Hsy Hr]. split; [|by rewrite He].
        rewrite lookup_insert_ne; [done|]. intros <-. destruct Hsy. congruence.
    + eexists. simpl. by rewrite lookup_insert_eq.
  - apply runs_bind, runs_bind, runs_get, runs_bind. eapply runs_lift; [by rewrite Hsc|]. rewrite Hname.
    set (qn := qualify _ _). clearbody qn. apply runs_ret, runs_bind. unfold ensure_name_free. apply runs_bind, runs_get.
    destruct (symbols ck !! qn) as [sy|] eqn:Eq; [by eapply fail_file_ok|]. apply runs_ret, runs_bind, runs_get.
    destruct (add_enum_placeholder (ck_types ck) qn) as [cx [id ty]] eqn:Ea.
    destruct (add_enum_ok _ _ _ _ _ (k_context _ K) Ea) as (Hcx & Hty & Hpre & Hp & He & s & Hs & Hn & ->).
    apply runs_bind, runs_modify, runs_modify. destruct D as [D1 D2].
    assert (Hno : enum_defs ck !! qn = None).
    { destruct (enum_defs ck !! qn) as [[[? ?] ?]|] eqn:E; [|done]. destruct (D2 _ _ _ _ E) as [[? ?] _]. congruence. }
    split_and!; [by apply (checker_ok_symbol ck _ qn ty)| |split; [done|by apply insert_subseteq]|].
    + split; simpl; intros q id i' j' Hq.
      * destruct (D1 _ _ _ _ Hq) as [Hsy Hr]. split; [|by rewrite He].
        rewrite lookup_insert_ne; [done|]. intros <-. destruct Hsy. congruence.
      * apply lookup_insert_Some in Hq as [[<- [= <- <- <-]]|[Hne Hq]].
        { split; [rewrite lookup_insert_eq; eauto|]. exists f, m, item, def, s. rewrite Hs. split_and!; try done.
          by rewrite lookup_app_r, Nat.sub_diag by lia. }
        destruct (D2 _ _ _ _ Hq) as [Hsy (f' & m' & it & d & s' & ? & ? & ? & Hl & ?)].
        split; [by rewrite lookup_insert_ne|]. exists f', m', it, d, s'. rewrite Hs. split_and!; try done. by apply lookup_app_l_Some.
    + eexists. simpl. by rewrite lookup_insert_eq.
Qed.

Definition all_collected (ck : Checker) (im : nat * (str * SourceModule)) : Prop :=
  ∀ j item, m_items im.2.2 !! j = Some item → collected ck im.1 im.2.2 j item.

Lemma collect_type_names_ok ck : checker_ok ck → defs_ok ck →
  runs p (collect_type_names modules)
    (λ _ ck', checker_ok ck' ∧ defs_ok ck' ∧ ∀ i f m, modules !! i = Some (f, m) → all_collected ck' (i, (f, m))) R ck.
Proof.
  intros K D. unfold collect_type_names.
  eapply runs_mono; [apply (runs_for_each _ (λ l ck, checker_ok ck ∧ defs_ok ck ∧ Forall (all_collected ck) l) R _ [])| |done].
  { by split_and!. }
  - intros d [i [f m]] rest ck1 El (K1 & D1 & C1). simpl in C1 |- *.
    assert (Hm : modules !! i = Some (f, m)).
    { assert (H : (i, (f, m)) ∈ imap pair modules) by (rewrite El; set_solver).
      apply elem_of_lookup_imap in H as (k & x & [= -> <-] & Hx). done. }
    eapply runs_mono; [apply (runs_for_each _ (λ l ck, checker_ok ck ∧ defs_ok ck ∧ Forall (all_collected ck) d ∧
      Forall (λ ji, collected ck i m ji.1 ji.2) l) R _ [])| |done].
    { by split_and!. }
    + intros d' [j item] rest' ck2 El' (K2 & D2 & C2 & C2'). simpl in C2'.
      assert (Hj : m_items m !! j = Some item).
      { assert (H : (j, item) ∈ imap pair (m_items m)) by (rewrite El'; set_solver).
        apply elem_of_lookup_imap in H as (k & x & [= -> <-] & Hx). done. }
      eapply runs_mono; [by eapply collect_item_ok| |done]. intros u ck3 (K3 & D3 & G3 & C3). split_and!; [done|done| |].
      * eapply Forall_impl; [exact C2|]. intros im H j' it Hit. eapply collected_grow; [done|by apply H].
      * simpl. apply Forall_app. split; [|by constructor].
        eapply Forall_impl; [exact C2'|]. intros ji. by apply collected_grow.
    + intros u ck3 (K3 & D3 & C3 & C3'). split_and!; [done|done|]. simpl. apply Forall_app. split; [done|].
      constructor; [|done]. intros j item Hj. simpl in *. apply (proj1 (Forall_forall _ _) C3' (j, item)).
      apply elem_of_lookup_imap. eauto.
  - intros u ck1 (K1 & D1 & C1). split_and!; [done|done|]. intros i f m Hm.
    apply (proj1 (Forall_forall _ _) C1). simpl. apply elem_of_lookup_imap. eauto.
Qed.

(** ** Attributes *)

Lemma parse_attr_align file attr o o' : (∀ a, ia_align o = Some a → align_ok a) → parse_attr file attr o = inr o' →
  ∀ a, ia_align o' = Some a → align_ok a.
Proof.
  intros Ho. unfold parse_attr, no_args. destruct o. simpl in *.
  repeat case_match; intros; simplify_eq; simpl in *; simplify_eq; eauto.
  match goal with H : _ && _ = true |- _ => apply andb_true_iff in H as [? ?%Z.leb_le] end. done.
Qed.

Lemma parse_attrs_loop_align file attrs seen o o' : (∀ a, ia_align o = Some a → align_ok a) →
  parse_attrs_loop file attrs seen o = inr o' → ∀ a, ia_align o' = Some a → align_ok a.
Proof.
  revert seen o. induction attrs as [|at_ attrs IH]; intros seen o Ho H; simplify_eq/=; [done|].
  case_bool_decide; [done|]. apply rbind_ok in H as (o1 & E & H). eapply IH; [|done]. by eapply parse_attr_align.
Qed.

Lemma parse_attrs_align file item o a : parse_attrs file item = inr o → ia_align o = Some a → align_ok a.
Proof. intros H. by eapply parse_attrs_loop_align; [|exact H]. Qed.

Lemma parse_attr_early file attr o e : parse_attr file attr o = inl e → early e.
Proof. unfold parse_attr, no_args. destruct o. repeat case_match; intros; simplify_eq; done. Qed.

Lemma parse_attrs_early file item e : parse_attrs file item = inl e → early e.
Proof.
  unfold parse_attrs. generalize (∅ : gset str) item_attrs_default. induction (i_attrs item) as [|at_ attrs IH]; intros seen o H; [done|].
  simpl in H. case_bool_decide; [by simplify_eq|]. destruct (parse_attr file at_ o) as [e'|o'] eqn:E; simpl in H.
  - simplify_eq. by eapply parse_attr_early.
  - by eapply IH.
Qed.
End Phases.

(** * Definitions of structures and enumerations *)

(** ** Entries that match the source *)

Definition struct_matches (ck : Checker) (i : nat) (item : Item) (def : StructDef) (s : StructType) : Prop :=
  NoDup (fd_name <$> sd_fields def) ∧
  sf_name <$> ss_fields s = fd_name <$> sd_fields def ∧
  Forall2 (denotes ck i) (fd_ty <$> sd_fields def) (sf_ty <$> ss_fields s) ∧
  ∃ file attrs, parse_attrs file item = inr attrs ∧ ss_packed s = ia_packed attrs ∧ ss_requested_align s = ia_align attrs.

Definition enum_matches (ck : Checker) (i : nat) (def : EnumDef) (e : EnumType) : Prop :=
  NoDup (v_name <$> ed_variants def) ∧
  ev_name <$> en_variants e = v_name <$> ed_variants def ∧
  Forall2 (Forall2 (denotes ck i)) (v_payload <$> ed_variants def) (ev_payload <$> en_variants e).

Section Define.
Context {p : Profile} (modules : list (str * SourceModule)).

Abbreviation checker_ok := (checker_ok modules).
Abbreviation defs_ok := (defs_ok modules).
Abbreviation R := (λ e (_ : Checker), early e).

Lemma item_at_ok i f m j item : modules_ok modules = true → modules !! i = Some (f, m) → m_items m !! j = Some item →
  item_at modules i j = Ok item ∧ item_ok item = true.
Proof.
  intros Hmodules Hm Hj. unfold item_at. rewrite Hm. simpl. rewrite Hj. split; [done|].
  assert (H : module_ok m = true).
  { apply (forallb_elem_of _ _ (f, m) Hmodules). by eapply list_elem_of_lookup_2. }
  apply andb_true_iff in H as [_ H]. eapply forallb_elem_of; [done|]. by eapply list_elem_of_lookup_2.
Qed.

(** ** Fields and variants *)

Definition fields_defined (i : nat) (fields : list FieldDef) (names : gset str) (ck : Checker) (fs : list StructField)
    (ck' : Checker) : Prop :=
  checker_ok ck' ∧ grows ck ck' ∧ Forall (λ f, sf_ty f < length (types (ck_types ck'))) fs ∧
  NoDup (fd_name <$> fields) ∧ Forall (λ n, n ∉ names) (fd_name <$> fields) ∧
  sf_name <$> fs = fd_name <$> fields ∧ Forall2 (denotes ck' i) (fd_ty <$> fields) (sf_ty <$> fs).

Lemma define_fields_ok i m fields names ck : modules !! i = Some m → forallb (λ f, type_expr_ok (fd_ty f)) fields = true →
  checker_ok ck → runs p (define_fields i fields names) (fields_defined i fields names ck) R ck.
Proof.
  intros Hm. revert names ck. induction fields as [|fd fields IH]; intros names ck Hf K; simpl in *.
  { apply runs_ret. split_and!; [done|done|constructor..|done|constructor]. }
  apply andb_true_iff in Hf as [Hf Hfs]. case_bool_decide as Hin; [by eapply fail_file_ok|].
  apply runs_bind. eapply runs_mono; [by eapply resolve_type_ok| |done]. intros ty ck1 ((K1 & G1 & Hty) & D1).
  apply runs_bind. eapply runs_mono; [by apply IH| |done]. intros fs ck2 (K2 & G2 & Hlt & Hnd & Hni & En & D2).
  apply runs_ret. split_and!; [done|by trans ck1| | | | |]; simpl.
  - constructor; [|done]. simpl. pose proof (grows_length _ _ G2). lia.
  - constructor; [|done]. intros Hx. by apply (proj1 (Forall_forall _ _) Hni) in Hx; set_solver.
  - constructor; [done|]. eapply Forall_impl; [exact Hni|]. set_solver.
  - by f_equal.
  - constructor; [|done]. eapply denotes_names; [by apply grows_names|done].
Qed.

Definition variants_defined (i : nat) (variants : list VariantDef) (names : gset str) (ck : Checker) (vs : list EnumVariant)
    (ck' : Checker) : Prop :=
  checker_ok ck' ∧ grows ck ck' ∧ Forall (λ v, Forall (λ q, q < length (types (ck_types ck'))) (ev_payload v)) vs ∧
  NoDup (v_name <$> variants) ∧ Forall (λ n, n ∉ names) (v_name <$> variants) ∧
  ev_name <$> vs = v_name <$> variants ∧ Forall2 (Forall2 (denotes ck' i)) (v_payload <$> variants) (ev_payload <$> vs).

Lemma define_variants_ok i m variants names ck : modules !! i = Some m →
  forallb (λ v, forallb type_expr_ok (v_payload v)) variants = true →
  checker_ok ck → runs p (define_variants i variants names) (variants_defined i variants names ck) R ck.
Proof.
  intros Hm. revert names ck. induction variants as [|vd variants IH]; intros names ck Hf K; simpl in *.
  { apply runs_ret. split_and!; [done|done|constructor..|done|constructor]. }
  apply andb_true_iff in Hf as [Hf Hfs]. case_bool_decide as Hin; [by eapply fail_file_ok|].
  apply runs_bind. eapply runs_mono; [apply collect_types_ok; [|done]| |done].
  { apply Forall_forall. intros t Ht ck' K'. eapply resolve_type_ok; [done|by eapply forallb_elem_of|done]. }
  intros ids ck1 (K1 & G1 & Hids & D1).
  apply runs_bind. eapply runs_mono; [by apply IH| |done]. intros fs ck2 (K2 & G2 & Hlt & Hnd & Hni & En & D2).
  apply runs_ret. split_and!; [done|by trans ck1| | | | |]; simpl.
  - constructor; [|done]. eapply Forall_impl; [exact Hids|]. simpl. pose proof (grows_length _ _ G2). lia.
  - constructor; [|done]. intros Hx. by apply (proj1 (Forall_forall _ _) Hni) in Hx; set_solver.
  - constructor; [done|]. eapply Forall_impl; [exact Hni|]. set_solver.
  - by f_equal.
  - constructor; [|done]. eapply all_denote_names; [by apply grows_names|done].
Qed.

(** ** Filling in an entry *)

Lemma context_ok_set_struct cx id s s' : context_ok cx → structs cx !! id = Some s → struct_ok (length (types cx)) s' →
  context_ok (set_structs (<[id := s']> (structs cx)) cx).
Proof.
  intros [H1 H2 H3 H4 H5] Hs Hs'. split; simpl; rewrite ?length_insert; [done| |done..]. by apply Forall_insert.
Qed.

Lemma context_ok_set_enum cx id e e' : context_ok cx → enums cx !! id = Some e → enum_ok (length (types cx)) e' →
  context_ok (set_enums (<[id := e']> (enums cx)) cx).
Proof.
  intros [H1 H2 H3 H4 H5] Hs Hs'. split; simpl; rewrite ?length_insert; [done|done| |done..]. by apply Forall_insert.
Qed.

(** The definitions visited so far have their entries. *)
Definition struct_site_done (ck : Checker) (site : DefSite) : Prop :=
  let '(id, i, j) := site in
  ∃ f m item def s, modules !! i = Some (f, m) ∧ m_items m !! j = Some item ∧ i_kind item = IStruct def ∧
    structs (ck_types ck) !! id = Some s ∧ struct_matches ck i item def s.

Definition enum_site_done (ck : Checker) (site : DefSite) : Prop :=
  let '(id, i, j) := site in
  ∃ f m item def e, modules !! i = Some (f, m) ∧ m_items m !! j = Some item ∧ i_kind item = IEnum def ∧
    enums (ck_types ck) !! id = Some e ∧ enum_matches ck i def e.

Lemma struct_matches_names ck ck' i item def s : same_names ck ck' → struct_matches ck i item def s → struct_matches ck' i item def s.
Proof. intros G (H1 & H2 & H3 & H4). split_and!; try done. by eapply all_denote_names. Qed.

Lemma enum_matches_names ck ck' i def e : same_names ck ck' → enum_matches ck i def e → enum_matches ck' i def e.
Proof.
  intros G (H1 & H2 & H3). split_and!; try done. eapply Forall2_impl; [exact H3|]. intros ts ids. by apply all_denote_names.
Qed.

Lemma struct_site_done_names ck ck' site : same_names ck ck' →
  (structs (ck_types ck') !! site.1.1 = structs (ck_types ck) !! site.1.1) → struct_site_done ck site → struct_site_done ck' site.
Proof.
  destruct site as [[id i] j]. simpl. intros G E (f & m & item & def & s & H1 & H2 & H3 & H4 & H5).
  exists f, m, item, def, s. rewrite E. split_and!; try done. by eapply struct_matches_names.
Qed.

Lemma enum_site_done_names ck ck' site : same_names ck ck' →
  (enums (ck_types ck') !! site.1.1 = enums (ck_types ck) !! site.1.1) → enum_site_done ck site → enum_site_done ck' site.
Proof.
  destruct site as [[id i] j]. simpl. intros G E (f & m & item & def & s & H1 & H2 & H3 & H4 & H5).
  exists f, m, item, def, s. rewrite E. split_and!; try done. by eapply enum_matches_names.
Qed.

Lemma same_names_trans ck1 ck2 ck3 : same_names ck1 ck2 → same_names ck2 ck3 → same_names ck1 ck3.
Proof. intros [] []. split; try congruence. by trans (types (ck_types ck2)). Qed.

(** What visiting one definition changes. *)
Record visited (ck ck' : Checker) : Prop := {
  vi_ok : checker_ok ck';
  vi_names : same_names ck ck';
  vi_struct_defs : struct_defs ck' = struct_defs ck;
  vi_enum_defs : enum_defs ck' = enum_defs ck
}.

Lemma define_struct_ok qn id i j ck : modules_ok modules = true → checker_ok ck → defs_ok ck →
  struct_defs ck !! qn = Some (id, i, j) →
  runs p (define_struct modules (id, i, j))
    (λ _ ck', visited ck ck' ∧ struct_site_done ck' (id, i, j) ∧ enums (ck_types ck') = enums (ck_types ck) ∧
       (ss_name <$> structs (ck_types ck') = ss_name <$> structs (ck_types ck)) ∧
       ∀ id', id' ≠ id → structs (ck_types ck') !! id' = structs (ck_types ck) !! id') R ck.
Proof.
  intros Hmods K D Hq. destruct (d_structs _ _ D _ _ _ _ Hq) as [_ (f & m & item & def & s & Hm & Hj & Hk & Hs & Hn)].
  destruct (item_at_ok i f m j item Hmods Hm Hj) as [Hat Hitem].
  unfold define_struct. apply runs_bind. eapply runs_lift; [exact Hat|]. rewrite Hk.
  apply runs_bind. eapply file_of_ok; [done|done|]. simpl. apply runs_bind.
  destruct (parse_attrs f item) as [e|attrs] eqn:Ea.
  { unfold lift, runs. simpl. by eapply parse_attrs_early. }
  eapply runs_lift; [done|]. unfold item_ok in Hitem. rewrite Hk in Hitem.
  apply runs_bind. eapply runs_mono; [by eapply define_fields_ok| |done].
  intros fs ck1 (K1 & G1 & Hlt & Hnd & _ & En & D1).
  apply runs_bind, runs_get, runs_bind. eapply runs_lift; [by rewrite <-(gr_structs _ _ G1), Hs|].
  apply runs_modify. set (s' := {| ss_name := _ |}). set (ck2 := set_types _ ck1).
  assert (Hs1 : structs (ck_types ck1) !! id = Some s) by by rewrite <-(gr_structs _ _ G1).
  assert (Hcx : context_ok (ck_types ck2)).
  { eapply context_ok_set_struct; [apply K1|done|]. split; [done|]. intros a. by apply (parse_attrs_align f item). }
  assert (N12 : same_names ck1 ck2) by by split.
  split_and!.
  - split; [|by eapply same_names_trans; [apply grows_names|]|by rewrite (gr_struct_defs _ _ G1)|by rewrite (gr_enum_defs _ _ G1)].
    destruct K1 as [_ ? ? ?]. by split.
  - exists f, m, item, def, s'. simpl. rewrite list_lookup_insert_eq by by eapply lookup_lt_Some. split_and!; try done.
    split_and!; [done|done|by eapply all_denote_names|eauto].
  - simpl. by rewrite (gr_enums _ _ G1).
  - simpl. rewrite list_fmap_insert. simpl. rewrite (gr_structs _ _ G1). apply list_insert_id. by rewrite list_lookup_fmap, Hs1.
  - intros id' Hne. simpl. rewrite list_lookup_insert_ne by done. by rewrite (gr_structs _ _ G1).
Qed.

Lemma define_enum_ok qn id i j ck : modules_ok modules = true → checker_ok ck → defs_ok ck →
  enum_defs ck !! qn = Some (id, i, j) →
  runs p (define_enum modules (id, i, j))
    (λ _ ck', visited ck ck' ∧ enum_site_done ck' (id, i, j) ∧ structs (ck_types ck') = structs (ck_types ck) ∧
       (en_name <$> enums (ck_types ck') = en_name <$> enums (ck_types ck)) ∧
       ∀ id', id' ≠ id → enums (ck_types ck') !! id' = enums (ck_types ck) !! id') R ck.
Proof.
  intros Hmods K D Hq. destruct (d_enums _ _ D _ _ _ _ Hq) as [_ (f & m & item & def & s & Hm & Hj & Hk & Hs & Hn)].
  destruct (item_at_ok i f m j item Hmods Hm Hj) as [Hat Hitem].
  unfold define_enum. apply runs_bind. eapply runs_lift; [exact Hat|]. rewrite Hk.
  unfold item_ok in Hitem. rewrite Hk in Hitem.
  apply runs_bind. eapply runs_mono; [by eapply define_variants_ok| |done].
  intros vs ck1 (K1 & G1 & Hlt & Hnd & _ & En & D1).
  apply runs_bind, runs_get, runs_bind. eapply runs_lift; [by rewrite <-(gr_enums _ _ G1), Hs|].
  apply runs_modify. set (s' := {| en_name := _ |}). set (ck2 := set_types _ ck1).
  assert (Hs1 : enums (ck_types ck1) !! id = Some s) by by rewrite <-(gr_enums _ _ G1).
  assert (Hcx : context_ok (ck_types ck2)) by (eapply context_ok_set_enum; [apply K1|done|done]).
  assert (N12 : same_names ck1 ck2) by by split.
  split_and!.
  - split; [|by eapply same_names_trans; [apply grows_names|]|by rewrite (gr_struct_defs _ _ G1)|by rewrite (gr_enum_defs _ _ G1)].
    destruct K1 as [_ ? ? ?]. by split.
  - exists f, m, item, def, s'. simpl. rewrite list_lookup_insert_eq by by eapply lookup_lt_Some. split_and!; try done.
    eapply enum_matches_names; [done|]. by split_and!.
  - simpl. by rewrite (gr_structs _ _ G1).
  - simpl. rewrite list_fmap_insert. simpl. rewrite (gr_enums _ _ G1). apply list_insert_id. by rewrite list_lookup_fmap, Hs1.
  - intros id' Hne. simpl. rewrite list_lookup_insert_ne by done. by rewrite (gr_enums _ _ G1).
Qed.

(** ** All definitions *)

Lemma defs_ok_visited ck ck' : visited ck ck' → ss_name <$> structs (ck_types ck') = ss_name <$> structs (ck_types ck) →
  en_name <$> enums (ck_types ck') = en_name <$> enums (ck_types ck) → defs_ok ck → defs_ok ck'.
Proof.
  intros [_ N Es Ee] Hs He [D1 D2]. split; intros qn id i j.
  - rewrite Es. intros (Hy & f & m & item & def & s & ? & ? & ? & Hl & Hn)%D1. split; [by rewrite <-(sn_symbols _ _ N)|].
    apply (f_equal (lookup id)) in Hs. rewrite !list_lookup_fmap, Hl in Hs. simpl in Hs.
    destruct (structs (ck_types ck') !! id) as [s'|] eqn:E; [|done]. injection Hs as Hs. exists f, m, item, def, s'.
    split_and!; try done. congruence.
  - rewrite Ee. intros (Hy & f & m & item & def & s & ? & ? & ? & Hl & Hn)%D2. split; [by rewrite <-(sn_symbols _ _ N)|].
    apply (f_equal (lookup id)) in He. rewrite !list_lookup_fmap, Hl in He. simpl in He.
    destruct (enums (ck_types ck') !! id) as [s'|] eqn:E; [|done]. injection He as He. exists f, m, item, def, s'.
    split_and!; try done. congruence.
Qed.

Lemma struct_id_inj ck qn qn' id i j i' j' : defs_ok ck → struct_defs ck !! qn = Some (id, i, j) →
  struct_defs ck !! qn' = Some (id, i', j') → (i, j) = (i', j').
Proof.
  intros D H H'. destruct (d_structs _ _ D _ _ _ _ H) as (_ & ? & ? & ? & ? & ? & ? & ? & ? & ? & ?).
  destruct (d_structs _ _ D _ _ _ _ H') as (_ & ? & ? & ? & ? & ? & ? & ? & ? & ? & ?). simplify_eq. done.
Qed.

Lemma enum_id_inj ck qn qn' id i j i' j' : defs_ok ck → enum_defs ck !! qn = Some (id, i, j) →
  enum_defs ck !! qn' = Some (id, i', j') → (i, j) = (i', j').
Proof.
  intros D H H'. destruct (d_enums _ _ D _ _ _ _ H) as (_ & ? & ? & ? & ? & ? & ? & ? & ? & ? & ?).
  destruct (d_enums _ _ D _ _ _ _ H') as (_ & ? & ? & ? & ? & ? & ? & ? & ? & ? & ?). simplify_eq. done.
Qed.

Definition defined_to (ck ck' : Checker) (ss es : list DefSite) : Prop :=
  visited ck ck' ∧ defs_ok ck' ∧ Forall (struct_site_done ck') ss ∧ Forall (enum_site_done ck') es.

Lemma define_structs_ok ck sites : modules_ok modules = true → checker_ok ck → defs_ok ck →
  Forall (λ site, ∃ qn, struct_defs ck !! qn = Some site) sites →
  runs p (for_each (define_struct modules) sites) (λ _ ck', defined_to ck ck' sites []) R ck.
Proof.
  intros Hmods K D Hsites.
  eapply runs_mono; [apply (runs_for_each _ (λ l ck', defined_to ck ck' l []) R _ [])|done|done].
  { split_and!; [by split|done|constructor..]. }
  intros d [[id i] j] rest ck1 El (V1 & D1 & S1 & _). rewrite El in Hsites.
  apply Forall_app in Hsites as [Hd Hrest]. apply Forall_cons in Hrest as [[qn Hq] _].
  rewrite <-(vi_struct_defs _ _ V1) in Hq.
  eapply runs_mono; [eapply define_struct_ok; [done|apply V1|done|done]| |done].
  intros u ck2 (V2 & S2 & E2 & N2 & O2). simpl in S1 |- *. split_and!.
  - destruct V1 as [_ A1 A2 A3], V2 as [B0 B1 B2 B3]. split; [done|by eapply same_names_trans|congruence..].
  - eapply defs_ok_visited; [exact V2|done|by rewrite E2|done].
  - apply Forall_app. split; [|by constructor]. apply Forall_forall. intros site Hin.
    pose proof (proj1 (Forall_forall _ _) S1 site Hin) as Hs. destruct (proj1 (Forall_forall _ _) Hd site Hin) as [qn' Hq'].
    rewrite <-(vi_struct_defs _ _ V1) in Hq'. destruct site as [[id' i'] j']. destruct (decide (id' = id)) as [->|Hne].
    + pose proof (struct_id_inj _ _ _ _ _ _ _ _ D1 Hq Hq'). by simplify_eq.
    + eapply struct_site_done_names; [apply V2|by apply O2|done].
  - constructor.
Qed.

Lemma define_enums_ok ck ss sites : modules_ok modules = true → checker_ok ck → defs_ok ck →
  Forall (λ site, ∃ qn, enum_defs ck !! qn = Some site) sites → Forall (struct_site_done ck) ss →
  runs p (for_each (define_enum modules) sites) (λ _ ck', defined_to ck ck' ss sites) R ck.
Proof.
  intros Hmods K D Hsites Hss.
  eapply runs_mono; [apply (runs_for_each _ (λ l ck', defined_to ck ck' ss l) R _ [])|done|done].
  { split_and!; [by split|done|done|constructor]. }
  intros d [[id i] j] rest ck1 El (V1 & D1 & S1 & T1). rewrite El in Hsites.
  apply Forall_app in Hsites as [Hd Hrest]. apply Forall_cons in Hrest as [[qn Hq] _].
  rewrite <-(vi_enum_defs _ _ V1) in Hq.
  eapply runs_mono; [eapply define_enum_ok; [done|apply V1|done|done]| |done].
  intros u ck2 (V2 & S2 & E2 & N2 & O2). simpl in T1 |- *. split_and!.
  - destruct V1 as [_ A1 A2 A3], V2 as [B0 B1 B2 B3]. split; [done|by eapply same_names_trans|congruence..].
  - eapply defs_ok_visited; [exact V2|by rewrite E2|done|done].
  - eapply Forall_impl; [exact S1|]. intros site. apply struct_site_done_names; [apply V2|by rewrite E2].
  - apply Forall_app. split; [|by constructor]. apply Forall_forall. intros site Hin.
    pose proof (proj1 (Forall_forall _ _) T1 site Hin) as Hs. destruct (proj1 (Forall_forall _ _) Hd site Hin) as [qn' Hq'].
    rewrite <-(vi_enum_defs _ _ V1) in Hq'. destruct site as [[id' i'] j']. destruct (decide (id' = id)) as [->|Hne].
    + pose proof (enum_id_inj _ _ _ _ _ _ _ _ D1 Hq Hq'). by simplify_eq.
    + eapply enum_site_done_names; [apply V2|by apply O2|done].
Qed.

Lemma values_defined (m : gmap str DefSite) sites : sites ≡ₚ (map_to_list m).*2 →
  Forall (λ site, ∃ qn, m !! qn = Some site) sites.
Proof.
  intros ->. apply Forall_forall. intros site ([qn s] & -> & H)%list_elem_of_fmap. exists qn. by apply elem_of_map_to_list.
Qed.

Lemma values_all (m : gmap str DefSite) sites (P : DefSite → Prop) : sites ≡ₚ (map_to_list m).*2 → Forall P sites →
  ∀ qn site, m !! qn = Some site → P site.
Proof.
  intros E H qn site Hq. apply (proj1 (Forall_forall _ _) H). rewrite E. apply list_elem_of_fmap.
  exists (qn, site). split; [done|]. by apply elem_of_map_to_list.
Qed.

Lemma define_types_ok order ck : modules_ok modules = true → (∀ l, order l ≡ₚ l) → checker_ok ck → defs_ok ck →
  runs p (define_types modules order)
    (λ _ ck', visited ck ck' ∧ defs_ok ck' ∧
       (∀ qn site, struct_defs ck' !! qn = Some site → struct_site_done ck' site) ∧
       (∀ qn site, enum_defs ck' !! qn = Some site → enum_site_done ck' site)) R ck.
Proof.
  intros Hmods Hord K D. unfold define_types. apply runs_bind, runs_get, runs_bind.
  eapply runs_mono; [apply define_structs_ok; [done..|apply values_defined, Hord]| |done].
  intros u ck1 (V1 & D1 & S1 & _). apply runs_bind, runs_get.
  eapply runs_mono; [apply (define_enums_ok ck1 (order (map_to_list (struct_defs ck)).*2))| |done].
  { done. } { apply V1. } { done. } { apply values_defined, Hord. } { done. }
  intros u' ck2 (V2 & D2 & S2 & T2). split_and!; [|done| |].
  - destruct V1 as [_ A1 A2 A3], V2 as [B0 B1 B2 B3]. split; [done|by eapply same_names_trans|congruence..].
  - rewrite (vi_struct_defs _ _ V2), (vi_struct_defs _ _ V1). eapply values_all; [apply Hord|done].
  - rewrite (vi_enum_defs _ _ V2). eapply values_all; [apply Hord|done].
Qed.
End Define.
