(* ===== verification/OcoreTrees.v ===== *)
(** * Trees of the Ocore parser

    What the type checker relies on, which types of the source do not say: integers are
    [u64] and paths have a component ([modules_ok]). *)

From S2P Require Import Prelude.
From S2P Require Import Utf8.
From S2P Require Import OcoreLexer.
From S2P Require Import OcoreLexerFacts.
From S2P Require Import OcoreAst.
From S2P Require Import OcoreParser.
From S2P Require Import OcoreSurface.
From S2P Require Import OcoreTypesFacts.
From stdpp Require Import options.

#[local] Open Scope nat_scope.

Lemma returns_bind_with {S E A B} (Q : A → Prop) (P : B → Prop) (m : M S E A) (k : A → M S E B) :
  returns Q m → (∀ a, Q a → returns P (k a)) → returns P (bind m k).
Proof.
  intros Hm Hk s s' b. unfold bind. destruct (m s) as [s1 [a| | |]] eqn:Em; try done. intros H. by eapply Hk; [eapply Hm|].
Qed.

Lemma returns_fail {S E A} (P : A → Prop) e : returns P (fail (S := S) (E := E) e).
Proof. done. Qed.

(** ** Integer tokens *)

Definition u64_token (k : TokenKind) : Prop := match k with Integer z => (0 ≤ z ≤ U64_MAX)%Z | _ => True end.

Lemma radix_value_bound radix acc s z : (0 ≤ radix)%Z → (0 ≤ acc ≤ U64_MAX)%Z → radix_value radix acc s = Some z → (0 ≤ z ≤ U64_MAX)%Z.
Proof.
  intros Hr. revert acc. induction s as [|b s IH]; intros acc Ha H; simplify_eq/=; [done|].
  destruct (to_digit radix b) as [d|] eqn:Ed; [|done]. destruct (Z.leb_spec (acc * radix + d) U64_MAX); [|done].
  eapply IH; [|done]. split; [|done]. assert (0 ≤ d)%Z; [|nia].
  unfold to_digit, is_digit, in_range in Ed. repeat case_match; simplify_eq;
    repeat match goal with H : _ && _ = true |- _ => apply andb_true_iff in H as [?%Z.leb_le ?%Z.leb_le] end; lia.
Qed.

Lemma from_str_radix_bound radix s z : (0 ≤ radix)%Z → from_str_radix radix s = Some z → (0 ≤ z ≤ U64_MAX)%Z.
Proof. intros Hr. destruct s; [done|]. by apply radix_value_bound. Qed.

Section Lexer.
Context (file source : str).

Lemma u64_fail m : returns u64_token (lex_fail (A := TokenKind) file source m).
Proof. done. Qed.

Lemma ident_kind_u64 s : u64_token (ident_kind s).
Proof.
  unfold ident_kind. destruct (list_find _ keywords) as [[i [w k]]|] eqn:E; [|done].
  apply list_find_Some in E as (Hi & _ & _). unfold keywords in Hi.
  repeat (destruct i as [|i]; [by injection Hi as <- <-|simpl in Hi]). done.
Qed.

Lemma lex_integer_u64 : returns u64_token (lex_integer file source).
Proof.
  unfold lex_integer. do 3 (apply returns_bind; intros ?). apply (returns_bind_with (λ r, 0 ≤ r)%Z).
  { destruct (if bool_decide _ then radix_of _ else None) as [r|] eqn:Er.
    - do 2 (apply returns_bind; intros ?). apply returns_ret. unfold radix_of in Er. repeat case_match; by simplify_eq.
    - by apply returns_ret. }
  intros radix Hr. do 3 (apply returns_bind; intros ?). case_bool_decide; [apply u64_fail|]. apply returns_bind. intros raw.
  destruct (from_str_radix _ _) as [z|] eqn:Ez; [|apply returns_bind; intros; apply u64_fail].
  apply returns_ret. by eapply from_str_radix_bound.
Qed.

Lemma next_token_u64 : returns u64_token (next_token file source).
Proof.
  assert (Hif : ∀ (b : bool) (k k' : TokenKind), u64_token k → u64_token k' → u64_token (if b then k else k')) by (by intros []).
  unfold next_token. apply returns_bind. intros [b|]; [|by intros s s' a].
  destruct (is_ident_start b); [|destruct (is_digit b); [|destruct (b =? 34)%Z]].
  - apply returns_bind. intros second. destruct (_ && _).
    { apply returns_bind. intros _. apply returns_bind. intros w. destruct (forallb _ w); [by apply returns_ret|apply u64_fail]. }
    destruct (_ && _); [|do 3 (apply returns_bind; intros ?); apply returns_bind; intros w; apply returns_ret, ident_kind_u64].
    do 4 (apply returns_bind; intros ?). apply returns_bind. intros quote. case_bool_decide; [|apply u64_fail].
    apply returns_bind. intros _. by apply returns_ret.
  - apply lex_integer_u64.
  - apply returns_bind. intros w. by apply returns_ret.
  - unfold punctuation. repeat (match goal with |- context [(b =? ?c)%Z] => destruct (b =? c)%Z end;
      [unfold one, two_or_one, one_of_three, angle;
       repeat first [apply returns_bind; intros ?|apply returns_ret; auto; done|match goal with |- context [if ?x then _ else _] => destruct x end]|]).
    apply u64_fail.
Qed.

Lemma lex_u64 tokens : lex file source = Ok tokens → Forall (λ t, u64_token (kind t)) tokens.
Proof.
  assert (H : ∀ fuel out, Forall (λ t, u64_token (kind t)) out → returns (Forall (λ t, u64_token (kind t))) (lex_all file source fuel out)).
  { induction fuel as [|fuel IH]; intros out Hout; [done|]. cbn [lex_all]. do 2 (apply returns_bind; intros ?).
    case_bool_decide; [apply returns_ret, Forall_app; split; [done|by repeat constructor]|].
    apply (returns_bind_with u64_token); [apply next_token_u64|]. intros k Hk. apply returns_bind. intros now.
    apply IH, Forall_app. split; [done|by repeat constructor]. }
  unfold lex. destruct (lex_all _ _ _ _ _) as [s r] eqn:E. simpl. intros ->. by eapply H.
Qed.
End Lexer.

(** ** Productions *)

Section Trees.
Context (file : str) (tokens : list Token) (Htokens : Forall (λ t, u64_token (kind t)) tokens).

Ltac walk := repeat first [apply returns_ret | apply returns_fail | done
  | match goal with
    | |- returns _ (bind _ _) => apply returns_bind; intros ?
    | |- returns _ (if ?b then _ else _) => destruct b
    | |- returns _ (match ?x with _ => _ end) => destruct x
    end].

Lemma path_loop_returns fuel path : path ≠ [] → returns (λ p, p ≠ []) (path_loop tokens fuel path).
Proof.
  revert path. induction fuel as [|fuel IH]; intros path Hp; [done|]. cbn [path_loop]. walk. apply IH. by destruct path.
Qed.

Lemma parse_path_returns : returns (λ p, p ≠ []) (parse_path file tokens).
Proof. unfold parse_path, parse_path_tail. apply returns_bind. intros []. by apply path_loop_returns. Qed.

Lemma expect_integer_returns m : returns (λ r, 0 ≤ r.1 ≤ U64_MAX)%Z (expect_integer file tokens m).
Proof using Htokens.
  unfold expect_integer. apply (returns_bind_with (λ t, u64_token (kind t))).
  - intros n n' t. unfold bump. destruct (tokens !! n) as [t'|] eqn:E; [|done]. intros [= _ <-]. by eapply Forall_lookup_1 in Htokens.
  - intros t Ht. destruct (kind t) eqn:E; try done. apply returns_ret. exact Ht.
Qed.

Section Loops.
Context {A : Type} (item : M nat (Diagnostic ParseMessage) A) (f : A → bool) (Hitem : returns (λ a, f a = true) item).

Lemma forallb_snoc l a : forallb f l = true → f a = true → forallb f (l ++ [a]) = true.
Proof. intros Hl Ha. rewrite forallb_app, Hl. simpl. by rewrite Ha. Qed.

Lemma comma_loop_returns fuel acc : forallb f acc = true → returns (λ l, forallb f l = true) (comma_loop tokens item fuel acc).
Proof using Hitem.
  revert acc. induction fuel as [|fuel IH]; intros acc Ha; [done|]. cbn [comma_loop].
  eapply returns_bind_with; [exact Hitem|]. intros a Hfa. walk; [apply IH|]; by apply forallb_snoc.
Qed.

Lemma comma_list_returns close : returns (λ l, forallb f l = true) (comma_list tokens item close).
Proof using Hitem. unfold comma_list. walk. by apply comma_loop_returns. Qed.

Lemma braced_loop_returns m fuel acc : forallb f acc = true → returns (λ l, forallb f l = true) (braced_loop file tokens item m fuel acc).
Proof using Hitem.
  revert acc. induction fuel as [|fuel IH]; intros acc Ha; [done|]. cbn [braced_loop].
  apply returns_bind. intros []; [by apply returns_ret|]. eapply returns_bind_with; [exact Hitem|]. intros a Hfa.
  do 2 (apply returns_bind; intros ?). case_match; [apply IH; by apply forallb_snoc|]. unfold error, error_at. by walk.
Qed.
End Loops.

Lemma parse_type_returns fuel : returns (λ t, type_expr_ok t = true) (parse_type file tokens fuel).
Proof using Htokens.
  induction fuel as [|fuel IH]; [done|]. cbn [parse_type]. do 2 (apply returns_bind; intros ?). case_match.
  { do 2 (apply returns_bind; intros ?). eapply returns_bind_with; [exact IH|]. intros t Ht. by apply returns_ret. }
  apply returns_bind; intros ?. case_match.
  { eapply returns_bind_with; [exact IH|]. intros t Ht. apply returns_bind; intros ?.
    eapply returns_bind_with; [apply expect_integer_returns|]. intros [z sp] Hz. apply returns_bind; intros ?. apply returns_ret.
    simpl in *. rewrite Ht. simpl. apply andb_true_iff. rewrite !Z.leb_le. lia. }
  do 3 (apply returns_bind; intros ?). case_match.
  { apply returns_bind; intros ?. eapply returns_bind_with; [by apply comma_list_returns|]. intros ps Hps.
    do 2 (apply returns_bind; intros ?). eapply returns_bind_with; [exact IH|]. intros t Ht. apply returns_ret. simpl. by rewrite Hps. }
  eapply returns_bind_with; [apply parse_path_returns|]. intros path Hp. apply returns_bind; intros ?. apply returns_ret.
  by apply bool_decide_eq_true.
Qed.

Lemma parse_field_def_returns : returns (λ f, type_expr_ok (fd_ty f) = true) (parse_field_def file tokens).
Proof using Htokens.
  unfold parse_field_def. apply returns_bind; intros []. apply returns_bind; intros ?.
  eapply returns_bind_with; [apply parse_type_returns|]. intros t Ht. by apply returns_ret.
Qed.

Lemma parse_variant_returns : returns (λ v, forallb type_expr_ok (v_payload v) = true) (parse_variant file tokens).
Proof using Htokens.
  unfold parse_variant. apply returns_bind; intros []. apply returns_bind; intros ?.
  apply (returns_bind_with (λ l, forallb type_expr_ok l = true)).
  - case_match; [|by apply returns_ret]. eapply returns_bind_with; [apply comma_list_returns, parse_type_returns|]. intros ps Hps.
    apply returns_bind; intros ?. by apply returns_ret.
  - intros ps Hps. apply returns_bind; intros ?. by apply returns_ret.
Qed.

Definition kind_ok (k : ItemKind) : bool :=
  match k with
  | IStruct def => forallb (λ f, type_expr_ok (fd_ty f)) (sd_fields def)
  | IEnum def => forallb (λ v, forallb type_expr_ok (v_payload v)) (ed_variants def)
  | _ => true
  end.

Lemma parse_struct_returns : returns (λ s, kind_ok (IStruct s) = true) (parse_struct file tokens).
Proof using Htokens.
  unfold parse_struct. apply returns_bind; intros []. apply returns_bind; intros ?.
  eapply returns_bind_with; [apply braced_loop_returns; [apply parse_field_def_returns|done]|]. intros ps Hps.
  apply returns_bind; intros ?. by apply returns_ret.
Qed.

Lemma parse_enum_returns : returns (λ s, kind_ok (IEnum s) = true) (parse_enum file tokens).
Proof using Htokens.
  unfold parse_enum. apply returns_bind; intros []. apply returns_bind; intros ?.
  eapply returns_bind_with; [apply braced_loop_returns; [apply parse_variant_returns|done]|]. intros ps Hps.
  apply returns_bind; intros ?. by apply returns_ret.
Qed.

Lemma parse_item_returns : returns (λ i, item_ok i = true) (parse_item file tokens).
Proof using Htokens.
  unfold parse_item. do 6 (apply returns_bind; intros ?).
  apply (returns_bind_with (λ k, kind_ok k = true)); [|intros k Hk; apply returns_bind; intros ?; by apply returns_ret].
  unfold parse_item_kind, error, error_at. apply returns_bind; intros []; [by walk|]. case_match; [by walk|].
  apply returns_bind; intros []; [eapply returns_bind_with; [apply parse_struct_returns|]; intros; by apply returns_ret|].
  apply returns_bind; intros []; [eapply returns_bind_with; [apply parse_enum_returns|]; intros; by apply returns_ret|].
  by walk.
Qed.

Abbreviation use_ok := (λ u, match u_alias u with Some _ => true | None => bool_decide (u_path u ≠ []) end).

Lemma uses_loop_returns fuel uses : forallb use_ok uses = true → returns (λ l, forallb use_ok l = true) (uses_loop file tokens fuel uses).
Proof.
  revert uses. induction fuel as [|fuel IH]; intros uses Hu; [done|]. cbn [uses_loop].
  apply returns_bind; intros []; [|by apply returns_ret]. apply returns_bind; intros ?.
  eapply returns_bind_with; [apply parse_path_returns|]. intros path Hp. do 3 (apply returns_bind; intros ?).
  apply IH, forallb_snoc; [done|]. simpl. case_match; [done|]. by apply bool_decide_eq_true.
Qed.

Lemma items_loop_returns fuel items : forallb item_ok items = true → returns (λ l, forallb item_ok l = true) (items_loop file tokens fuel items).
Proof using Htokens.
  revert items. induction fuel as [|fuel IH]; intros items Hi; [done|]. cbn [items_loop].
  apply returns_bind; intros []; [by apply returns_ret|]. eapply returns_bind_with; [apply parse_item_returns|].
  intros i H. apply IH. by apply forallb_snoc.
Qed.

Lemma parse_module_returns : returns (λ m, module_ok m = true) (parse_module file tokens).
Proof using Htokens.
  unfold parse_module. do 3 (apply returns_bind; intros ?).
  eapply returns_bind_with; [by apply uses_loop_returns|]. intros uses Hu.
  eapply returns_bind_with; [by apply items_loop_returns|]. intros items Hi.
  apply returns_bind; intros ?. apply returns_ret. unfold module_ok. simpl. by rewrite Hu.
Qed.
End Trees.

(** A module that was parsed has what the checker relies on. *)
Lemma parsed_module_ok file source m : parse file source = Ok m → module_ok m = true.
Proof.
  unfold parse. destruct (reject_orchestration_input _ _); [done|]. destruct (lex file source) as [tokens|d| |] eqn:E; try done.
  destruct (parse_module file tokens 0) as [n [m'|d| |]] eqn:Em; try done. intros [= <-].
  eapply parse_module_returns; [by eapply lex_u64|exact Em].
Qed.

Definition parsed (modules : list (str * SourceModule)) : Prop :=
  Forall (λ m, ∃ source, parse m.1 source = Ok m.2) modules.

Lemma parsed_ok modules : parsed modules → modules_ok modules = true.
Proof.
  unfold modules_ok. induction 1 as [|m ms [source Hm] _ IH]; [done|]. simpl. rewrite IH, andb_true_r. by eapply parsed_module_ok.
Qed.
