(* ===== verification/OcoreLayoutTheorems.v ===== *)
(** * Layouts of Ocore types: the theorems

    On every tree that the parser can return the type phase ends.  With overflow checks,
    what it accepts is laid out as documented; recursion is reported exactly when a type
    contains itself; a release build agrees whenever the checked build does not panic, and
    otherwise may place fields over each other. *)

From S2P Require Import Prelude.
From S2P Require Import OcoreLexer.
From S2P Require Import OcoreAst.
From S2P Require Import OcoreParser.
From S2P Require Import OcoreSurface.
From S2P Require Import OcoreHir.
From S2P Require Import OcoreTypes.
From S2P Require Import OcoreLayout.
From S2P Require Import OcoreLayoutSpec.
From S2P Require Import OcoreLayoutFacts.
From S2P Require Import OcoreLayoutSteps.
From S2P Require Import OcoreTypesFacts.
From S2P Require Import OcoreTrees.
From Stdlib Require Import Relations.
From stdpp Require Import options.

#[local] Open Scope nat_scope.

(** ** The context of primitive types *)

Definition primitives_ok (cx : TypeContext) : Prop :=
  context_ok cx ∧ (∀ n id, primitive_names cx !! n = Some id → id < length (types cx)) ∧ structs cx = [] ∧ enums cx = [].

Lemma add_primitive_ok cx n t : primitives_ok cx → type_ok 0 0 (length (types cx)) t → primitives_ok (add_primitive cx n t).
Proof.
  intros (Hok & Hp & Hs & He) Ht. unfold add_primitive. destruct (intern cx t) as [cx' id] eqn:E.
  apply intern_spec in E as ([] & Hl & Hpre & Es & Ee & Ep); [|done|by rewrite Hs, He].
  split_and!; simpl; [by split| |by rewrite <-Es|by rewrite <-Ee].
  intros m i. rewrite lookup_insert_Some, <-Ep. apply prefix_length in Hpre.
  intros [[_ <-]|[_ Hm%Hp]]; [by eapply lookup_lt_Some|lia].
Qed.

Lemma first_primitive_ok :
  primitives_ok (add_primitive {| types := []; structs := []; enums := []; interned := ∅; primitive_names := ∅ |} (lit "bool") TyBool).
Proof.
  replace (add_primitive _ _ _) with
    {| types := [TyBool]; structs := []; enums := []; interned := {[TyBool := 0]}; primitive_names := {[lit "bool" := 0]} |}
    by (vm_compute; reflexivity).
  split_and!; [| |done|done].
  - split; cbn [types structs enums interned length]; [|constructor|constructor| |lia].
    + intros [|i] t; simpl; [by intros [= <-]|done].
    + intros i t. rewrite lookup_singleton_Some. split; [by intros [<- <-]|]. destruct i; simpl; [|done]. by intros [= <-].
  - intros n id. cbn [types primitive_names length]. rewrite lookup_singleton_Some. intros [_ <-]. lia.
Qed.

Lemma type_context_new_ok : primitives_ok type_context_new.
Proof.
  unfold type_context_new, primitive_list. simpl foldl. cbv zeta.
  repeat match goal with
  | |- primitives_ok (add_primitive (add_primitive _ _ _) _ _) => apply add_primitive_ok; [|simpl; try done; set_solver]
  end. apply first_primitive_ok.
Qed.

(** ** The whole phase *)

(** What an accepted program has in its context. *)
Record phase_done (p : Profile) (modules : list (str * SourceModule)) (ck : Checker) : Prop := {
  pd_laid_out : laid_out_context p (ck_types ck);
  pd_structs : ∀ i f m j item def, modules !! i = Some (f, m) → m_items m !! j = Some item → i_kind item = IStruct def →
    ∃ id s, structs (ck_types ck) !! id = Some s ∧ ss_name s = qualify (path_string (m_name m)) (sd_name def) ∧
            struct_matches ck i item def s;
  pd_enums : ∀ i f m j item def, modules !! i = Some (f, m) → m_items m !! j = Some item → i_kind item = IEnum def →
    ∃ id e, enums (ck_types ck) !! id = Some e ∧ en_name e = qualify (path_string (m_name m)) (ed_name def) ∧
            enum_matches ck i def e
}.

(** What a refused program was refused for. *)
Definition refused (e : TcError) (ck : Checker) : Prop := early e ∨ justified (ck_types ck) e.

Lemma justified_shape cx cx' e : same_shape cx cx' → justified cx e → justified cx' e.
Proof.
  intros H. unfold justified.
  assert (Hc : (∃ n, clos_trans _ (contains cx) n n) → ∃ n, clos_trans _ (contains cx') n n).
  { intros [n Hn]. exists n. generalize Hn. generalize n at 2 4. clear Hn. intros n' Hn.
    induction Hn as [a b Hab|a b c _ IH1 _ IH2]; [apply t_step; by eapply within_shape|by eapply t_trans]. }
  destruct (d_message e) as [| | | | | | | | | | |? []|]; auto.
Qed.

Lemma struct_matches_shape ck cx i item def s s' : same_shape (ck_types ck) cx →
  struct_shape s = struct_shape s' → struct_matches ck i item def s → struct_matches (set_types cx ck) i item def s'.
Proof.
  intros H Es (H1 & H2 & H3 & H4). pose proof (shape_field_types _ _ Es) as Et. injection Es as Ef Ep Er _.
  apply (f_equal (fmap fst)) in Ef. rewrite <-!list_fmap_compose in Ef. split_and!; [done| | |by rewrite <-Ep, <-Er].
  - rewrite <-H2. symmetry. exact Ef.
  - rewrite <-Et. eapply all_denote_names; [|exact H3]. split; [by rewrite (sh_types _ _ H)|apply H|done..].
Qed.

Lemma enum_matches_shape ck cx i def e e' : same_shape (ck_types ck) cx →
  enum_shape e = enum_shape e' → enum_matches ck i def e → enum_matches (set_types cx ck) i def e'.
Proof.
  intros H Es (H1 & H2 & H3). pose proof (shape_payloads _ _ Es) as Et. injection Es as Ef _.
  apply (f_equal (fmap fst)) in Ef. rewrite <-!list_fmap_compose in Ef. split_and!; [done| |].
  - rewrite <-H2. symmetry. exact Ef.
  - rewrite <-Et. eapply Forall2_impl; [exact H3|]. intros ts ids. apply all_denote_names.
    split; [by rewrite (sh_types _ _ H)|apply H|done..].
Qed.

Section Phase.
Context (p : Profile) (order : list DefSite → list DefSite) (modules : list (str * SourceModule)).
Context (Hmodules : modules_ok modules = true) (Horder : ∀ l, order l ≡ₚ l).

Lemma type_phase_ok : runs p (type_phase p order modules) (λ _, phase_done p modules) refused checker_new.
Proof using All.
  unfold type_phase. apply runs_bind.
  eapply runs_mono; [by apply module_loop_ok| |by left]. intros u ck1 (E1 & E2 & E3 & E4 & scs & E5 & Hscs).
  destruct type_context_new_ok as (Hok & Hprim & Hs0 & He0).
  assert (K1 : checker_ok modules ck1).
  { split; rewrite ?E1, ?E2, ?E5; try done. }
  assert (D1 : defs_ok modules ck1) by (split; rewrite ?E3, ?E4; intros ????; simpl; by rewrite lookup_empty).
  clear E1 E2 E3 E4 E5 Hok Hprim Hs0 He0 Hscs scs.
  apply runs_bind. eapply runs_mono; [by apply collect_type_names_ok| |by left]. intros u2 ck2 (K2 & D2 & C2).
  apply runs_bind. eapply runs_mono; [by apply define_types_ok| |by left]. intros u3 ck3 (V3 & D3 & S3 & T3).
  pose proof (compute_layouts_ok p ck3 (k_context _ _ (vi_ok _ _ _ V3))) as H. unfold runs in *.
  assert (Hst : ∀ r, compute_layouts p ck3 = r → r.1 = set_types (ck_types r.1) ck3).
  { intros r <-. unfold compute_layouts. by destruct (layout_loop _ _ _). }
  destruct (compute_layouts p ck3) as [ck4 [[]|e| |]]; specialize (Hst _ eq_refl); simpl in Hst;
    [| |exact H|exact H].
  - destruct H as [Hlay Hsh]. split; [done| |].
    + intros i f m j item def Hm Hj Hk. pose proof (C2 i f m Hm j item Hj) as Hc. unfold collected in Hc. simpl in Hc. rewrite Hk in Hc.
      destruct Hc as [id Hid]. rewrite <-(vi_struct_defs _ _ _ V3) in Hid.
      destruct (d_structs _ _ D3 _ _ _ _ Hid) as (_ & ? & ? & ? & ? & s & _ & _ & _ & Hs & Hn).
      destruct (S3 _ _ Hid) as (f' & m' & item' & def' & s' & Hm' & Hj' & Hk' & Hs' & Hmat). simplify_eq. rewrite Hk in Hk'. injection Hk' as <-.
      destruct (shape_struct (ck_types ck4) (ck_types ck3) id s) as (s4 & Hs4 & Es4); [by symmetry|done|].
      exists id, s4. split_and!; [done| |].
      * injection Es4 as _ _ _ En. by rewrite En.
      * rewrite Hst. by eapply struct_matches_shape; [| |exact Hmat].
    + intros i f m j item def Hm Hj Hk. pose proof (C2 i f m Hm j item Hj) as Hc. unfold collected in Hc. simpl in Hc. rewrite Hk in Hc.
      destruct Hc as [id Hid]. rewrite <-(vi_enum_defs _ _ _ V3) in Hid.
      destruct (d_enums _ _ D3 _ _ _ _ Hid) as (_ & ? & ? & ? & ? & s & _ & _ & _ & Hs & Hn).
      destruct (T3 _ _ Hid) as (f' & m' & item' & def' & s' & Hm' & Hj' & Hk' & Hs' & Hmat). simplify_eq. rewrite Hk in Hk'. injection Hk' as <-.
      destruct (shape_enum (ck_types ck4) (ck_types ck3) id s) as (s4 & Hs4 & Es4); [by symmetry|done|].
      exists id, s4. split_and!; [done| |].
      * injection Es4 as _ En. by rewrite En.
      * rewrite Hst. by eapply enum_matches_shape; [| |exact Hmat].
  - destruct H as [Hj Hsh]. right. by eapply justified_shape.
Qed.
End Phase.

(** ** Geometry of documented layouts *)

Definition disjoint_at (packed : bool) (lys : list Layout) (off : Z) (os : list Z) (e : Z) : Prop :=
  (off ≤ e)%Z ∧
  (∀ a o ly, os !! a = Some o → lys !! a = Some ly →
     (off ≤ o ∧ o + ly_size ly ≤ e ∧ (packed = false → (ly_align ly | o)))%Z) ∧
  (∀ a b o o' ly, a < b → os !! a = Some o → os !! b = Some o' → lys !! a = Some ly → (o + ly_size ly ≤ o')%Z).

Lemma doc_place_disjoint packed lys off os e m : Forall sound_layout lys → doc_place packed lys off = (os, e, m) →
  disjoint_at packed lys off os e.
Proof.
  intros H. revert off os e m. induction H as [|ly lys Hly _ IH]; intros off os e m E; simplify_eq/=.
  { split_and!; [lia|by intros [] ???|by intros [] ?????]. }
  destruct (doc_place packed lys _) as [[os' e'] m'] eqn:E'. simplify_eq. destruct (IH _ _ _ _ E') as (H1 & H2 & H3).
  set (al := if packed then 1%Z else ly_align ly) in *.
  assert (Hal : (0 < al)%Z) by (unfold al; destruct packed; [lia|by apply align_ok_pos, sound_align]).
  destruct (next_aligned_spec off al Hal) as [Hn Hd]. destruct Hly as (_ & _ & Hsz & _). split_and!; [lia| |].
  - intros [|a] o ly' Ho Hl; simplify_eq/=.
    + split_and!; [lia|lia|]. unfold al in Hd. by intros ->.
    + destruct (H2 a o ly' Ho Hl) as (? & ? & ?). split_and!; [lia|lia|done].
  - intros [|a] [|b] o o' ly' Hab Ho Ho' Hl; simplify_eq/=; [lia| |lia|].
    + assert (Hlen : length os' = length lys) by by rewrite <-(doc_place_length packed lys (next_aligned off al + ly_size ly')), E'.
      destruct (lookup_lt_is_Some_2 lys b) as [lb Hlb]; [rewrite <-Hlen; by eapply lookup_lt_Some|].
      by destruct (H2 b o' lb Ho' Hlb).
    + eapply (H3 a b); [lia|done..].
Qed.

Lemma doc_place_align_le lys off os e m a ly : doc_place false lys off = (os, e, m) → lys !! a = Some ly → (ly_align ly ≤ m)%Z.
Proof.
  revert off os e m a. induction lys as [|l lys IH]; intros off os e m a E Ha; simplify_eq/=.
  destruct (doc_place false lys _) as [[os' e'] m'] eqn:E'. simplify_eq. destruct a as [|a]; simplify_eq/=; [lia|].
  specialize (IH _ _ _ _ _ E' Ha). lia.
Qed.

(** Fields of a structure: aligned unless packed, inside of it, and apart. *)
Definition well_spaced (cx : TypeContext) (s : StructType) : Prop :=
  (∀ a f ly, ss_fields s !! a = Some f → has_layout cx (sf_ty f) ly →
     (0 ≤ sf_offset f ∧ sf_offset f + ly_size ly ≤ ly_size (ss_layout s) ∧
      (ss_packed s = false → (ly_align ly | sf_offset f) ∧ (ly_align ly | ly_align (ss_layout s))))%Z) ∧
  (∀ a b f g ly, a < b → ss_fields s !! a = Some f → ss_fields s !! b = Some g → has_layout cx (sf_ty f) ly →
     (sf_offset f + ly_size ly ≤ sf_offset g)%Z).

Lemma documented_well_spaced cx s : (∀ ty ly, has_layout cx ty ly → sound_layout ly) →
  (∀ a, ss_requested_align s = Some a → align_ok a) → documented_struct cx s → well_spaced cx s.
Proof.
  intros Hsound Hreq (lys & Hl & Hdoc). unfold doc_struct in Hdoc.
  assert (Hs : Forall sound_layout lys).
  { clear -Hl Hsound. induction Hl; constructor; eauto. }
  destruct (doc_place (ss_packed s) lys 0) as [[os e] m] eqn:E. pose proof (doc_place_disjoint _ _ _ _ _ _ Hs E) as (H1 & H2 & H3).
  pose proof (doc_place_align (ss_packed s) lys 0 Hs) as Hm. rewrite E in Hm. simpl in Hm.
  set (al := match ss_requested_align s with Some a => Z.max m a | None => m end) in *.
  assert (Hal : align_ok al) by (unfold al; destruct (ss_requested_align s); auto with layouts).
  injection Hdoc as Eos Ely. destruct (next_aligned_spec e al (align_ok_pos _ Hal)) as [Hn _].
  assert (Hat : ∀ a f ly, ss_fields s !! a = Some f → has_layout cx (sf_ty f) ly → os !! a = Some (sf_offset f) ∧ lys !! a = Some ly).
  { intros a f ly Hf Hly. split; [by rewrite Eos, list_lookup_fmap, Hf|].
    destruct (Forall2_lookup_l _ _ _ a (sf_ty f) Hl) as (ly' & Hly' & Hh); [by rewrite list_lookup_fmap, Hf|].
    unfold has_layout in *. congruence. }
  unfold well_spaced. rewrite <-Ely. simpl. split.
  - intros a f ly Hf Hly. destruct (Hat a f ly Hf Hly) as [Ho Hla]. destruct (H2 a _ _ Ho Hla) as (? & ? & Hdiv).
    split_and!; [lia|lia|]. intros Hpk. split; [by apply Hdiv|]. rewrite Hpk in E.
    apply align_ok_divide; [by eapply sound_align, Hsound|done|]. pose proof (doc_place_align_le _ _ _ _ _ _ _ E Hla).
    unfold al. destruct (ss_requested_align s); lia.
  - intros a b f g ly Hab Hf Hg Hly. destruct (Hat a f ly Hf Hly) as [Ho Hla].
    apply (H3 a b _ _ _ Hab Ho); [by rewrite Eos, list_lookup_fmap, Hg|done].
Qed.

(** Payloads of an enumeration: after the tag, aligned and inside of it. *)
Definition payload_inside (e : EnumType) : Prop :=
  (Z.of_nat (length (en_variants e)) ≤ 2 ^ 32 → Z.of_nat (length (en_variants e)) ≤ 256 ^ en_tag_size e)%Z ∧
  Forall (λ v, en_tag_size e ≤ en_payload_offset e ∧
    en_payload_offset e + ly_size (ev_payload_layout v) ≤ ly_size (en_layout e) ∧
    (ly_align (ev_payload_layout v) | en_payload_offset e) ∧ (ly_align (ev_payload_layout v) | ly_align (en_layout e)))%Z (en_variants e).

Lemma max_of_le f z lys ly : ly ∈ lys → (f ly ≤ max_of f z lys)%Z.
Proof. induction 1; simpl; lia. Qed.

Lemma documented_payload_inside e cx : (∀ ty ly, has_layout cx ty ly → sound_layout ly) → documented_enum None cx e → payload_inside e.
Proof.
  intros Hsound [Hvs Hdoc]. assert (Hs : Forall (λ v, align_ok (ly_align (ev_payload_layout v))) (en_variants e)).
  { eapply Forall_impl; [exact Hvs|]. intros v (lys & Hl & <-). unfold doc_payload.
    assert (Hlys : Forall sound_layout lys) by (clear -Hl Hsound; induction Hl; constructor; eauto).
    pose proof (doc_place_align false lys 0 Hlys). by destruct (doc_place false lys 0) as [[os z] m]. } unfold doc_enum in Hdoc. rewrite length_fmap in Hdoc. injection Hdoc as Etag Eoff Ely.
  set (lys := ev_payload_layout <$> en_variants e) in *. assert (Hlys : Forall (λ ly, align_ok (ly_align ly)) lys) by by apply Forall_fmap.
  pose proof (max_of_align lys Hlys) as Ha. pose proof (doc_tag_ok (length (en_variants e))) as Ht. rewrite Etag in *.
  destruct (next_aligned_spec (en_tag_size e) (max_of ly_align 1 lys)) as [Hn Hd]; [by apply align_ok_pos|]. rewrite Eoff in *.
  split.
  - rewrite <-Etag. unfold doc_tag. intros Hle. repeat case_match;
      repeat match goal with H : (_ <=? _)%Z = true |- _ => apply Z.leb_le in H end; simpl; lia.
  - apply Forall_forall. intros v Hv. assert (Hin : ev_payload_layout v ∈ lys) by (apply list_elem_of_fmap; eauto).
    pose proof (max_of_le ly_align 1 lys _ Hin). pose proof (max_of_le ly_size 0 lys _ Hin).
    assert (Hva : align_ok (ly_align (ev_payload_layout v))) by by apply (proj1 (Forall_forall _ _) Hlys).
    assert (Hmt : align_ok (Z.max (max_of ly_align 1 lys) (en_tag_size e))) by auto with layouts.
    rewrite <-Ely. simpl. destruct (next_aligned_spec (en_payload_offset e + max_of ly_size 0 lys) _ (align_ok_pos _ Hmt)) as [Hz _].
    split_and!; [lia|lia| |].
    + etrans; [|exact Hd]. by apply align_ok_divide.
    + apply align_ok_divide; [done|done|lia].
Qed.

(** Every type of an accepted program has a sound layout. *)
Lemma layout_sound cx ty ly : context_ok cx → Forall (λ s, sound_layout (ss_layout s)) (structs cx) →
  Forall (λ e, sound_layout (en_layout e)) (enums cx) → has_layout cx ty ly → sound_layout ly.
Proof.
  intros Hok Hs He. unfold has_layout, layout. revert ty ly. induction (S (length (types cx))) as [|f IH]; intros ty ly H; [done|].
  destruct (types cx !! ty) as [t|] eqn:Et; [|simpl in H; by rewrite Et in H].
  destruct (is_aggregate t) eqn:Ea.
  2: { destruct (primitive_layout cx ty t Et Ea (co_types _ Hok _ _ Et)) as (ly' & Hl & Hso).
    unfold has_layout, layout in Hl. simpl in H, Hl. rewrite Et in H, Hl. simpl in H, Hl.
    destruct t; simpl in Ea; try done; congruence. }
  pose proof (co_types _ Hok _ _ Et) as Htok. simpl in H. rewrite Et in H. simpl in H. destruct t; try done.
  - destruct (layout_fuel f cx element) as [el| | |] eqn:El; simpl in H; try done. unfold checked_mul in H.
    destruct (Z.leb_spec (ly_size el * len) U64_MAX); simpl in H; [|done]. injection H as <-.
    apply scale_sound; [by eapply IH|by apply Htok|done].
  - destruct (structs cx !! id) as [s|] eqn:Es; simpl in H; [|done]. injection H as <-. by eapply (Forall_lookup_1 _ _ _ _ Hs).
  - destruct (enums cx !! id) as [e|] eqn:Es; simpl in H; [|done]. injection H as <-. by eapply (Forall_lookup_1 _ _ _ _ He).
Qed.

Lemma laid_out_sound cx ty ly : laid_out_context Dev cx → has_layout cx ty ly → sound_layout ly.
Proof.
  intros [Hok _ Hs He]. apply layout_sound; [done| |].
  - eapply Forall_impl; [by apply Hs|]. by intros s [_ ?].
  - eapply Forall_impl; [by apply He|]. by intros e [_ ?].
Qed.

(** ** Profiles *)

Definition agrees {S A} (dev release : M S TcError A) : Prop := ∀ s, (dev s).2 ≠ Panic → release s = dev s.

Lemma agrees_refl {S A} (m : M S TcError A) : agrees m m.
Proof. done. Qed.

Lemma agrees_bind {S A B} (m m' : M S TcError A) (k k' : A → M S TcError B) : agrees m m' → (∀ a, agrees (k a) (k' a)) →
  agrees (bind m k) (bind m' k').
Proof.
  intros Hm Hk s. unfold bind. intros H. rewrite (Hm s); [|by destruct (m s) as [? []]].
  destruct (m s) as [s' [a| | |]]; try done. by apply Hk.
Qed.

Lemma agrees_lift {S A} (o o' : outcome TcError A) : (o ≠ Panic → o' = o) → agrees (S := S) (lift o) (lift o').
Proof. intros H s Hs. unfold lift in *. simpl in Hs. by rewrite H. Qed.

Lemma u64_wrap_agrees n : u64_wrap Dev (E := TcError) n ≠ Panic → u64_wrap Release (E := TcError) n = u64_wrap Dev n.
Proof. unfold u64_wrap. by destruct (_ && _). Qed.

Lemma align_up_agrees v a : align_up Dev (E := TcError) v a ≠ Panic → align_up Release (E := TcError) v a = align_up Dev v a.
Proof.
  unfold align_up. rewrite bool_decide_true by done. rewrite bool_decide_false by done. simpl.
  destruct (is_power_of_two a); simpl; [|done]. intros H.
  rewrite u64_wrap_agrees; [|intros E; by rewrite E in H]. destruct (u64_wrap Dev (v + a)); simpl in *; try done.
  rewrite u64_wrap_agrees; [|intros E; by rewrite E in H]. destruct (u64_wrap Dev (a0 - 1)); simpl in *; try done.
  rewrite u64_wrap_agrees; [done|intros E; by rewrite E in H].
Qed.

Create HintDb agree.
#[local] Hint Resolve agrees_refl : agree.
#[local] Hint Extern 1 (agrees (lift (align_up _ _ _)) _) => apply agrees_lift, align_up_agrees : agree.
#[local] Hint Extern 1 (agrees (lift (u64_wrap _ _)) _) => apply agrees_lift, u64_wrap_agrees : agree.

(** Walks both runs together. *)
Ltac agree := repeat first
  [ solve [eauto with agree]
  | apply agrees_bind; [|intros ?]
  | match goal with |- agrees (match ?x with _ => _ end) _ => destruct x end ].

Section Agree.
Context (rec rec' : TypeId → L Layout) (Hrec : ∀ ty, agrees (rec ty) (rec' ty)).
#[local] Hint Resolve Hrec : agree.

Lemma struct_fields_agree packed tys off maxa offs :
  agrees (struct_fields Dev rec packed tys off maxa offs) (struct_fields Release rec' packed tys off maxa offs).
Proof using Hrec. revert off maxa offs. induction tys as [|ty tys IH]; intros; simpl; agree. Qed.

Lemma payload_fields_agree tys off a : agrees (payload_fields Dev rec tys off a) (payload_fields Release rec' tys off a).
Proof using Hrec. revert off a. induction tys as [|ty tys IH]; intros; simpl; agree. Qed.
#[local] Hint Resolve struct_fields_agree payload_fields_agree : agree.

Lemma payload_layouts_agree payloads ms ma lys :
  agrees (payload_layouts Dev rec payloads ms ma lys) (payload_layouts Release rec' payloads ms ma lys).
Proof using Hrec. revert ms ma lys. induction payloads as [|tys payloads IH]; intros; simpl; agree. Qed.
#[local] Hint Resolve payload_layouts_agree : agree.

Lemma layout_struct_agree id : agrees (layout_struct_step Dev rec id) (layout_struct_step Release rec' id).
Proof using Hrec. unfold layout_struct_step. agree. Qed.

Lemma layout_enum_agree id : agrees (layout_enum_step Dev rec id) (layout_enum_step Release rec' id).
Proof using Hrec. unfold layout_enum_step. agree. Qed.
End Agree.

Lemma layout_type_agree fuel ty : agrees (layout_type Dev fuel ty) (layout_type Release fuel ty).
Proof.
  revert ty. induction fuel as [|fuel IH]; intros ty; simpl; [done|].
  apply agrees_bind; [done|]. intros st. apply agrees_bind; [done|]. intros t.
  destruct t; try (apply agrees_bind; [first [by apply layout_struct_agree|by apply layout_enum_agree]|intros ?]); agree.
Qed.

Lemma for_each_agree {S A} (f f' : A → M S TcError unit) l : (∀ a, agrees (f a) (f' a)) → agrees (for_each f l) (for_each f' l).
Proof. intros Hf. induction l as [|a l IH]; simpl; [done|]. apply agrees_bind; [done|]. by intros _. Qed.

Lemma compute_layouts_agree : agrees (compute_layouts Dev) (compute_layouts Release).
Proof.
  intros ck. unfold compute_layouts. set (st := {| lt_cx := _ |}). intros H.
  assert (Hl : agrees (layout_loop Dev st) (layout_loop Release st)).
  { unfold layout_loop. apply agrees_bind; [|intros _]; apply for_each_agree; intros id;
      [apply layout_struct_agree|apply layout_enum_agree]; apply layout_type_agree. }
  rewrite Hl; [done|]. intros E. by destruct (layout_loop Dev st st) as [? []].
Qed.

(** ** Sample programs *)

Definition module_of (source : str) : SourceModule :=
  match parse (lit "m.oc") source with
  | Ok m => m
  | _ => {| m_name := []; m_uses := []; m_items := []; m_span := span_default |}
  end.

Definition sample_source : str :=
  lit "module m; struct A { a: u8, b: u64, c: [E; 3], } enum E { x, y(u32, *mut A), z(u8) } @packed struct P { a: u8, b: A, }".
Definition sample_modules : list (str * SourceModule) := Eval vm_compute in [(lit "m.oc", module_of sample_source)].
Definition sample_checker : Checker := (type_phase Dev id sample_modules checker_new).1.

Lemma sample_parsed : parsed sample_modules.
Proof. constructor; [|constructor]. exists sample_source. vm_compute. reflexivity. Qed.

Lemma sample_accepted : type_phase Dev id sample_modules checker_new = (sample_checker, Ok tt).
Proof. vm_compute. reflexivity. Qed.

(** Two structures that contain each other. *)
Definition looping_source : str := lit "module m; struct A { b: B, } enum E { v([B; 2]) } struct B { p: *const A, e: E, }".
Definition looping_modules : list (str * SourceModule) := Eval vm_compute in [(lit "m.oc", module_of looping_source)].

Lemma looping_parsed : parsed looping_modules.
Proof. constructor; [|constructor]. exists looping_source. vm_compute. reflexivity. Qed.

(** ** The theorems *)

(** The sources of a program, and the order of a hash map. *)
Abbreviation accepted p order modules ck := (type_phase p order modules checker_new = (ck, Ok tt)).

Lemma accepted_done p order modules ck : parsed modules → (∀ l, order l ≡ₚ l) → accepted p order modules ck → phase_done p modules ck.
Proof.
  intros Hm Ho E. pose proof (type_phase_ok p order modules (parsed_ok _ Hm) Ho) as H. unfold runs in H. by rewrite E in H.
Qed.

(** C11. The type phase implements the documented layout.  When the checked build accepts
    parsed modules, every structure of the source has an entry under its qualified name,
    with its fields in order, each of the type that its expression names; the offsets, the
    size and the alignment are the documented ones, and the layout can be that of an array
    element.  Every enumeration has its entry too, with its variants, and the documented
    tag, payloads, size and alignment of a type for which no alignment is requested: an
    [@align] on an enumeration, which section 7 of the document allows, has no effect.
    Two type ids are never the same type. *)
Theorem layouts_documented order modules ck : parsed modules → (∀ l, order l ≡ₚ l) → accepted Dev order modules ck →
  (∀ i f m j item def, modules !! i = Some (f, m) → m_items m !! j = Some item → i_kind item = IStruct def →
     ∃ id s, structs (ck_types ck) !! id = Some s ∧ ss_name s = qualify (path_string (m_name m)) (sd_name def) ∧
       struct_matches ck i item def s ∧ documented_struct (ck_types ck) s ∧ sound_layout (ss_layout s)) ∧
  (∀ i f m j item def, modules !! i = Some (f, m) → m_items m !! j = Some item → i_kind item = IEnum def →
     ∃ id e, enums (ck_types ck) !! id = Some e ∧ en_name e = qualify (path_string (m_name m)) (ed_name def) ∧
       enum_matches ck i def e ∧ documented_enum None (ck_types ck) e ∧ sound_layout (en_layout e)) ∧
  NoDup (types (ck_types ck)).
Proof.
  intros Hm Ho E. destruct (accepted_done _ _ _ _ Hm Ho E) as [[Hok _ Hs He] Hps Hpe]. split_and!.
  - intros i f m j item def H1 H2 H3. destruct (Hps i f m j item def H1 H2 H3) as (id & s & Hl & Hn & Hmat).
    exists id, s. destruct (Forall_lookup_1 _ _ _ _ (Hs eq_refl) Hl). by split_and!.
  - intros i f m j item def H1 H2 H3. destruct (Hpe i f m j item def H1 H2 H3) as (id & e & Hl & Hn & Hmat).
    exists id, e. destruct (Forall_lookup_1 _ _ _ _ (He eq_refl) Hl). by split_and!.
  - apply NoDup_alt. intros i j t Hi%(co_interned _ Hok) Hj%(co_interned _ Hok). congruence.
Qed.

Lemma layouts_documented_witness :
  parsed sample_modules ∧ (∀ l, id l ≡ₚ (l : list DefSite)) ∧ type_phase Dev id sample_modules checker_new = (sample_checker, Ok tt) ∧
  NoDup (types (ck_types sample_checker)).
Proof.
  split_and!; [apply sample_parsed|done|apply sample_accepted|].
  apply (layouts_documented id sample_modules sample_checker); [apply sample_parsed|done|apply sample_accepted].
Defined.

(** C13. Fields never overlap.  In every structure that the checked build accepts, each
    field lies inside the structure, after the fields before it, and at a multiple of the
    alignment of its type unless the structure is packed.  In every enumeration the tag
    tells the variants apart, and the payloads come after it, aligned and inside. *)
Theorem fields_never_overlap order modules ck : parsed modules → (∀ l, order l ≡ₚ l) → accepted Dev order modules ck →
  Forall (well_spaced (ck_types ck)) (structs (ck_types ck)) ∧ Forall payload_inside (enums (ck_types ck)).
Proof.
  intros Hm Ho E. destruct (accepted_done _ _ _ _ Hm Ho E) as [Hlay _ _]. pose proof (λ ty ly, laid_out_sound _ ty ly Hlay) as Hsound.
  destruct Hlay as [Hok _ Hs He]. split; apply Forall_lookup; intros id x Hl.
  - destruct (Forall_lookup_1 _ _ _ _ (Hs eq_refl) Hl). destruct (Forall_lookup_1 _ _ _ _ (co_structs _ Hok) Hl).
    by apply documented_well_spaced.
  - destruct (Forall_lookup_1 _ _ _ _ (He eq_refl) Hl). by eapply documented_payload_inside.
Qed.

Lemma fields_never_overlap_witness :
  parsed sample_modules ∧ type_phase Dev id sample_modules checker_new = (sample_checker, Ok tt) ∧
  Forall (well_spaced (ck_types sample_checker)) (structs (ck_types sample_checker)).
Proof.
  split_and!; [apply sample_parsed|apply sample_accepted|].
  apply (fields_never_overlap id sample_modules sample_checker); [apply sample_parsed|done|apply sample_accepted].
Defined.

Definition reports_recursion (e : TcError) : bool :=
  match d_message e with LayoutFailure _ RecursiveType | RecursiveEnum _ => true | _ => false end.

(** A type that contains itself by value. *)
Definition infinite_type (cx : TypeContext) : Prop := ∃ n, clos_trans _ (contains cx) n n.

Lemma finite_acyclic cx : (∀ n, Acc (within cx) n) → ¬ infinite_type cx.
Proof.
  intros H [n Hn]. assert (Hacc : ∀ m, Acc (λ a b, clos_trans _ (contains cx) b a) m).
  { intros m. specialize (H m). induction H as [m _ IH]. constructor. intros k Hk. apply clos_trans_tn1 in Hk.
    induction Hk as [k Hk|k l Hkl Hk IHk]; [by apply IH|]. apply IHk. by apply t_step. }
  specialize (Hacc n). induction Hacc as [n _ IH]. by apply (IH n).
Qed.

(** C12. The type phase ends on every parsed program, in whatever order the hash maps are
    visited, and reports recursion exactly.  The recursion over types never runs on; a
    release build never panics, and a checked build panics only in the arithmetic of
    layouts.  An accepted program has no type that contains itself by value, and recursion
    is reported only when there is one. *)
Theorem type_phase_total p order modules : parsed modules → (∀ l, order l ≡ₚ l) →
  match type_phase p order modules checker_new with
  | (ck, Ok _) => ¬ infinite_type (ck_types ck)
  | (ck, Err e) => reports_recursion e = true → infinite_type (ck_types ck)
  | (_, Panic) => p = Dev
  | (_, NoFuel) => False
  end.
Proof.
  intros Hm Ho. pose proof (type_phase_ok p order modules (parsed_ok _ Hm) Ho) as H. unfold runs in H.
  destruct (type_phase p order modules checker_new) as [ck [[]|e| |]]; [|..|done|done].
  - apply finite_acyclic, H.
  - unfold reports_recursion. destruct H as [H|H]; unfold early, justified in H.
    + by destruct (d_message e) as [| | | | | | | | | | |? []|].
    + by destruct (d_message e) as [| | | | | | | | | | |? []|].
Qed.

Lemma type_phase_total_witness :
  parsed looping_modules ∧ infinite_type (ck_types (type_phase Dev id looping_modules checker_new).1).
Proof.
  split; [apply looping_parsed|]. pose proof (type_phase_total Dev id looping_modules looping_parsed (λ l, reflexivity _)) as H.
  assert (E : ∃ ck e, type_phase Dev id looping_modules checker_new = (ck, Err e) ∧ reports_recursion e = true).
  { do 2 eexists. split; vm_compute; reflexivity. }
  destruct E as (ck & e & E & He). rewrite E in H |- *. by apply H.
Defined.

(** A release build gives the result of the checked build, layouts and diagnostics
    alike, whenever the checked build does not panic; so everything that is shown of the
    checked build holds of releases too, except for programs whose layouts overflow. *)
Theorem release_agrees order modules : (type_phase Dev order modules checker_new).2 ≠ Panic →
  type_phase Release order modules checker_new = type_phase Dev order modules checker_new.
Proof.
  intros H. assert (A : agrees (type_phase Dev order modules) (type_phase Release order modules)); [|by apply A].
  unfold type_phase. do 3 (apply agrees_bind; [done|intros _]). apply compute_layouts_agree.
Qed.

Lemma release_agrees_witness :
  (type_phase Dev id sample_modules checker_new).2 ≠ Panic ∧
  type_phase Release id sample_modules checker_new = (sample_checker, Ok tt).
Proof.
  split; [by rewrite sample_accepted|]. rewrite <-sample_accepted. apply (release_agrees id sample_modules). by rewrite sample_accepted.
Defined.

(** ** Limits *)

(** [align_up] adds without a check: a release build accepts a structure whose second field
    starts inside of the first, and gives it a size of eight bytes.  The checked build panics. *)
Definition overflowing_source : str := lit "module m; struct B { big: [u8; 18446744073709551615], x: u64, }".

Example release_fields_overlap :
  let ck := (type_phase Release id [(lit "m.oc", module_of overflowing_source)] checker_new).1 in
  (type_phase Release id [(lit "m.oc", module_of overflowing_source)] checker_new).2 = Ok tt ∧
  (type_phase Dev id [(lit "m.oc", module_of overflowing_source)] checker_new).2 = Panic ∧
  match structs (ck_types ck) with
  | [s] => sf_offset <$> ss_fields s = [0; 0]%Z ∧ ss_layout s = {| ly_size := 8; ly_align := 8 |} ∧
      layout (E := TcError) (ck_types ck) <$> (sf_ty <$> ss_fields s) =
        [Ok {| ly_size := U64_MAX; ly_align := 1 |}; Ok {| ly_size := 8; ly_align := 8 |}]
  | _ => False
  end.
Proof. vm_compute. done. Qed.

(** The attributes of an enumeration are neither checked nor used. *)
Example enum_attributes_ignored :
  let r := type_phase Dev id [(lit "m.oc", module_of (lit "module m; @align(64) @packed(1) @anything enum E { x(u8) }"))] checker_new in
  r.2 = Ok tt ∧ en_layout <$> enums (ck_types r.1) = [{| ly_size := 2; ly_align := 1 |}].
Proof. vm_compute. done. Qed.

(** The diagnostic of a program with two faults depends on the order of the hash map. *)
Example diagnostic_depends_on_order :
  let modules := [(lit "m.oc", module_of (lit "module m; struct A { a: X, } struct B { b: Y, }"))] in
  (type_phase Dev id modules checker_new).2 ≠ (type_phase Dev reverse modules checker_new).2.
Proof. vm_compute. done. Qed.
